(* ===== verification/_CoqProject ===== *)
-Q . S2P
Prelude.v
OpalBitmap.v
PgTable.v
PgTableInv.v
PgTableSpec.v
PgTableSearch.v
FragList.v
SrdRx.v
FragListSpec.v
SrdRxSpec.v
ProcName.v
Group.v
GroupOps.v
GroupSpec.v
GroupStore.v
GroupOpsSpec.v
GroupSetSpec.v
GroupCompare.v
GroupLookup.v
TagMatch.v
MatchQueue.v
TagMatchSpec.v
TagMatchRefine.v
TagFrag.v
TagFragSpec.v
TagWorker.v
TagWorkerSpec.v
OpalHash.v
OpalHashTable.v
OpalHashSpec.v
OpalProcTable.v
OpalProcTableSpec.v
OpalPointerArray.v
OpalPointerArraySpec.v
CommCid.v
CommCidHandlers.v
CommCidSystem.v
CommCidSpec.v
CommCidLive.v
CommCidErrors.v
CommCidExamples.v
Checksum.v
ChecksumSpec.v
Crc.v
CrcSpec.v
BitOps.v
MsgPass.v
MsgProg.v
CollReduce.v
CollReduceSpec.v
CollTopo.v
CollTopoSpec.v
CollBcast.v
CollBcastSpec.v
DtDesc.v
DtBuild.v
DtOptimize.v
DtTypes.v
DtWalk.v
DtCopy.v
DtMap.v
DtWalkSpec.v
DtCopySpec.v
DtFuse.v
DtOptSpec.v
DtPackSpec.v
DtConv.v
DtPosition.v
DtContigSpec.v
DtConvSpec.v
DtCommitSpec.v
DtAddSpec.v
DtTypesSpec.v
DtArraySpec.v
DtSendSpec.v
DtRecvSpec.v
DtUseSpec.v
DtPositionSpec.v
DtExamples.v
DtBuildExamples.v
