(* ===== verification/Prelude.v ===== *)
(** * Verification of the Open MPI and UCX core

    The repository holds the MPI library Open MPI ([src/mpi]: OPAL, the portability
    layer and its data structures; OMPI, the MPI objects and operations; OSHMEM) and
    the communication library UCX ([src/ucx]: UCS, services and data structures; UCT,
    transports; UCP, the protocols; UCG, collectives) that carries its messages.
    This library models the parts whose correctness is a matter of algorithms and
    state, as executable functions that follow the C code branch by branch, and proves
    what they promise.

    ** Conventions

    This file has what the others share: machine integers ([wrap], [swrap]: a value
    at its width with the wrap-around of C), the notation [safe b; k] for a guarded
    access, lemmas on lists, bits and sums, hint databases and tactics ([run],
    [by_evaluation]).  The result [None] of an operation is an access outside an
    object, a dereference of NULL, a failed assertion, undefined arithmetic, or the
    end of the fuel of an unbounded loop; error codes are ordinary values.  So "the
    result is [Some]" is memory safety and termination at once, and that is how the
    theorems state it.  Allocation failures are boolean arguments of the operations
    that allocate.  A structure that is shared is kept in a store indexed by its
    address (groups, inner hash tables, requests, descriptors); one with a single
    owner is a value.  Code runs on one thread unless a file says otherwise
    (CommCid interleaves the handlers of many creations).

    ** Parts, files and theorems

    - _Page table_ ([ucs/datastruct/pgtable.c]).  PgTable has the operations, PgTableInv
      the invariant and what each does to the content, PgTableSpec the refinement to a
      set of disjoint regions ([pgtable_refines_regions]: insertion rolls back
      completely when it fails, and the specification says which removals of regions that
      were never inserted fail an assertion), PgTableSearch the range search and the
      purge, with the ranges that end at the top of the address space for which the
      search does not end.  All assertions of the file are modelled.
    - _Fragment list_ ([ucs/datastruct/frag_list.c]) and _SRD receive path_
      ([uct/ib/efa/srd/srd_iface.c]).  FragList, SrdRx are the models; FragListSpec
      relates 16-bit sequence numbers to unbounded ones and proves, for arrivals inside
      the window, delivery in order without loss or repetition; SrdRxSpec does so per sender for interleaved senders.
    - _Tag matching and tagged receives_ ([ucp/tag], [ucp/core/ucp_request.*]).
      TagMatch models the expected and unexpected queues with their hash tables;
      MatchQueue is the abstract engine, with the interface [Matcher] and its laws;
      TagMatchSpec and TagMatchRefine prove that the code implements it, that nothing
      that could match waits, and that messages do not overtake.  TagFrag, TagFragSpec:
      assembly of fragments in any order.  TagWorker composes matching, data and
      completion into the handlers; TagWorkerSpec ([worker_runs]) proves that every run
      of them is safe, for all failures of allocations but one that makes the code abort,
      and that completed requests hold what was sent.
    - _Process names and groups_ ([ompi/proc/proc.h], [ompi/group]).  ProcName has the
      tagged pointers and their round trips.  Group, GroupOps model the four storage
      formats and the operations; GroupSpec translation of ranks, GroupStore the store,
      GroupOpsSpec and GroupSetSpec the set operations as the MPI standard describes
      them; with sparse storage an inclusion reads the word before its array of ranks,
      which an array of its own does not have.  GroupCompare has comparison and reference counts, GroupLookup the lazy
      creation of process structures.
    - _OPAL data structures_ ([opal/class]).  OpalBitmap: a bitmap is a set.  OpalHash,
      OpalHashTable (linear probing in general) and OpalHashSpec: a hash table is a
      finite map, with the state after a failed growth.  OpalProcTable and
      OpalProcTableSpec: the two-level process table, whose inner tables on the heap are
      those of the jobs with an entry.  OpalPointerArray and
      OpalPointerArraySpec: pointer arrays with the least free index.
    - _Communicator ids_ ([ompi/communicator/comm_cid.c]).  CommCid has the handlers
      over the interface [CommTable], CommCidHandlers what each does, CommCidSystem
      processes and creations as a step relation, CommCidSpec the agreement and
      exclusiveness of ids, CommCidLive termination of one creation with the least id
      free everywhere, if there is one, CommCidErrors the error paths, CommCidExamples the instance by pointer
      arrays (module CommCidTable) and runs on concrete tables.
    - _Checksums and CRC_ ([opal/util/crc.c], [opal/datatype/opal_datatype_checksum.h]).
      Checksum models every alignment path; ChecksumSpec proves that any sequence of
      calls adds up to the sum of the words of the data.  Crc, CrcSpec: the
      table-driven CRC is bitwise division, a polynomial remainder, and detects bursts.
    - _Datatype engine_ ([opal/datatype]).  DtDesc has descriptions of datatypes; the sizes
      and alignments of the basic types are those of the compiler (class [Abi]).  DtWalk
      is the walk over a description with its stack, for any way of copying (class
      [Copy]); DtCopy the copying routines for any direction (class [Bytes]), with the
      modules DtPack and DtUnpack for the two directions.  DtConv has convertors: preparation, packing,
      unpacking; DtPosition positions and copies of them.  DtMap is the meaning of a
      description, the list of the addresses of its bytes (the type map of the MPI
      standard).  DtWalkSpec proves the walk over any copying with the laws [CopyLaws];
      DtCopySpec and DtPackSpec discharge the laws for both directions; DtContigSpec has
      the contiguous paths.  DtConvSpec, DtSendSpec and DtRecvSpec prove that any sequence of
      calls packs, and unpacks, the type map in order;
      DtPositionSpec does so for convertors that are moved first.  DtExamples evaluates
      concrete types, with the types and the moves for which the code goes wrong.
    - _Construction of datatypes_ ([opal/datatype/opal_datatype_add.c], [_optimize.c],
      [_create.c], [_resize.c], [_clone.c]; the constructors of [ompi/datatype]).  DtBuild
      adds datatypes to a datatype under construction, DtOptimize is the optimizer that
      commit runs, DtTypes has the constructors of MPI over them, from contiguous to
      subarray.  DtFuse proves what joining two entries does to the bytes, DtOptSpec that
      the optimizer keeps the type map of any description, DtCommitSpec that what is
      committed is well formed for convertors.  DtAddSpec has the invariant of a datatype
      under construction and its preservation; DtTypesSpec and DtArraySpec the type maps
      of the constructors.  DtUseSpec puts these together: a transfer between any two
      convertors (module DtTransfer), and what it means for what was built: each
      constructor gives the documented type map ([vector_spec], [indexed_spec],
      [struct_spec], [subarray_spec]), commit keeps it ([commit_spec]), and data built by
      one process arrives at the data built by another ([derived_transfer]), for aligned
      data of basic types of up to 16 bytes.
      DtBuildExamples evaluates concrete datatypes, with those for which the code goes
      wrong: members without data, strides of minus one byte, nested contiguous types.
    - _Collective operations_ ([ompi/mca/coll/base], [opal/util/bit_ops.h]).  MsgPass is
      a machine of processes that exchange messages over ordered channels, for any type
      of processes with the interface [Process]; a send may complete at once or wait for
      its receive.  Its steps commute, so one exchange of messages that ends settles
      every run ([always_gives]).  MsgProg has processes with blocking calls and, in
      its module MsgReq, processes with nonblocking requests.  BitOps has the powers of two.  CollReduce
      models allreduce and the scans, CollReduceSpec proves that every rank gets the
      reduction in rank order, for up to 2^30 ranks (more make an [int] overflow).  CollTopo models the tree builders that each rank runs on
      its own, CollTopoSpec proves that the results fit together to a spanning tree.
      CollBcast models the segmented broadcasts over cached trees, CollBcastSpec proves
      that every rank gets the buffer of the root (builds with assertions ask for two
      ranks in the algorithms over a tree).

    ** Fuel and bounds

    Fuel is given by the operation itself, never by a hypothesis: the number of slots
    of a hash table plus one (a scan that passes them all does not end), the length
    plus one for loops that consume a length, the depth of a page table (16 levels of
    4 bits), the number of steps of a range, 2^64 rounds for a walk over a datatype
    (hypotheses bound the number of entries it passes by that), the length of the
    description for the optimizer, which passes each entry at most once.  Theorems that
    an operation returns show that this is enough; where the code does not end, a theorem says so for every
    fuel.  Sequence numbers of 16 and 64 bits are bounded by hypotheses that say how
    far apart the live ones are, as the protocols guarantee.

    ** Not modelled

    Hardware transports and their queue pairs (most of UCT), memory hooks (UCM),
    rendezvous, wire-up, streams and RMA of UCP: they are state machines around devices
    and remote peers whose behaviour is not in the sources.  The run-time environment
    (PMIx, PRRTE, hwloc under [3rd-party]) is third-party code.  Language bindings,
    build system, tools and tests contain no algorithm of their own.  The point-to-point
    layer ob1, distributed arrays (darray), raw iovecs and local copies of typed buffers,
    conversion between architectures, the other collective algorithms, one-sided
    communication, topologies and OSHMEM are candidates for later models. *)

From stdpp Require Import base numbers list gmap sets.
From Stdlib Require Import Btauto.

(** ** Outcomes

    C code reads arrays by index and dereferences pointers.  A modelled
    operation that does so returns [option]: [None] is an access outside
    the object (or a dereference of NULL), so "no [None]" is memory safety.
    Error codes returned by the code are ordinary values. *)

Declare Scope c_scope.
Delimit Scope c_scope with C.

(** [safe b; k]: the access guarded by [b] is inside the object. *)
Notation "'safe' b ; k" := (if (b : bool) then k else None)
  (at level 10, b at level 100, k at level 200) : c_scope.

(** ** Machine integers *)

Local Open Scope Z_scope.

Definition wrap (w x : Z) : Z := x `mod` 2 ^ w.

(** Conversion to a [w]-bit signed integer (two's complement). *)
Definition swrap (w x : Z) : Z := (x + 2 ^ (w - 1)) `mod` 2 ^ w - 2 ^ (w - 1).

Definition INT_MAX : Z := 2 ^ 31 - 1.
Definition INT_MIN : Z := - 2 ^ 31.

#[global] Arguments INT_MAX : simpl never.
#[global] Arguments INT_MIN : simpl never.
#[global] Arguments wrap : simpl never.
#[global] Arguments swrap : simpl never.
#[global] Arguments Z.pow : simpl never.
#[global] Arguments Z.shiftl : simpl never.
#[global] Arguments Z.shiftr : simpl never.

(** A signed [int] computation: [None] when it overflows (undefined in C). *)
Definition cint (x : Z) : option Z :=
  if bool_decide (INT_MIN ≤ x ≤ INT_MAX) then Some x else None.

Lemma cint_Some x : INT_MIN ≤ x ≤ INT_MAX → cint x = Some x.
Proof. intros H. unfold cint. by rewrite bool_decide_true. Qed.

Lemma wrap_small w x : 0 ≤ x < 2 ^ w → wrap w x = x.
Proof. apply Z.mod_small. Qed.

Lemma wrap_range w x : 0 ≤ w → 0 ≤ wrap w x < 2 ^ w.
Proof. intros. apply Z.mod_pos_bound, Z.pow_pos_nonneg; lia. Qed.

Lemma wrap_add_l w x y : wrap w (wrap w x + y) = wrap w (x + y).
Proof. apply Zplus_mod_idemp_l. Qed.

Lemma wrap_sub_l w x y : wrap w (wrap w x - y) = wrap w (x - y).
Proof. apply Zminus_mod_idemp_l. Qed.

Lemma swrap_small w x : 0 < w → - 2 ^ (w - 1) ≤ x < 2 ^ (w - 1) → swrap w x = x.
Proof.
  intros Hw Hx. unfold swrap.
  assert (2 ^ w = 2 * 2 ^ (w - 1)) as E by (rewrite <- Z.pow_succ_r by lia; f_equal; lia).
  rewrite Z.mod_small; lia.
Qed.

Lemma swrap_wrap w x : 0 < w → swrap w (wrap w x) = swrap w x.
Proof.
  intros Hw. unfold swrap, wrap. f_equal. by rewrite Zplus_mod_idemp_l.
Qed.

(** ** Bits *)

Create HintDb cbits discriminated.
Create Rewrite HintDb cbits.

Lemma land_pow2_testbit x n : 0 ≤ n → (Z.land x (2 ^ n) =? 0) = negb (Z.testbit x n).
Proof.
  intros Hn. destruct (Z.testbit x n) eqn:E; simpl.
  - apply Z.eqb_neq. intros H.
    assert (Z.testbit (Z.land x (2 ^ n)) n = false) as F by (rewrite H; apply Z.bits_0).
    by rewrite Z.land_spec, E, Z.pow2_bits_true in F by lia.
  - apply Z.eqb_eq, Z.bits_inj'. intros i Hi.
    rewrite Z.land_spec, Z.bits_0, Z.pow2_bits_eqb by lia.
    destruct (Z.eqb_spec n i); subst; rewrite ?E, ?andb_false_r; done.
Qed.

Lemma testbit_high x w i : 0 ≤ x < 2 ^ w → w ≤ i → 0 ≤ w → Z.testbit x i = false.
Proof.
  intros Hx Hi Hw. rewrite <- (Z.mod_small x (2 ^ w)) by done.
  by apply Z.mod_pow2_bits_high.
Qed.

Lemma bounded_by_bits x w :
  0 ≤ w → 0 ≤ x → (∀ i, w ≤ i → Z.testbit x i = false) → x < 2 ^ w.
Proof.
  intros Hw Hx H. destruct (decide (x < 2 ^ w)) as [|Hge]; [done|].
  exfalso. assert (0 < 2 ^ w) by (apply Z.pow_pos_nonneg; lia).
  assert (w ≤ Z.log2 x) by (rewrite <- (Z.log2_pow2 w) by lia; apply Z.log2_le_mono; lia).
  specialize (H (Z.log2 x) ltac:(lia)). rewrite Z.bit_log2 in H by lia. done.
Qed.

(** Joining disjoint fields is addition. *)
Lemma lor_add a b s : 0 ≤ s → a `mod` 2 ^ s = 0 → 0 ≤ b < 2 ^ s → Z.lor a b = a + b.
Proof.
  intros Hs Ha Hb.
  assert (Z.land a b = 0) as H0.
  { apply Z.bits_inj'. intros i Hi. rewrite Z.land_spec, Z.bits_0.
    destruct (decide (i < s)).
    - rewrite <- (Z.mod_pow2_bits_low a s) by lia. by rewrite Ha, Z.bits_0.
    - by rewrite (testbit_high b s), andb_false_r by lia. }
  by rewrite <- Z.lxor_lor, <- Z.add_nocarry_lxor.
Qed.

#[export] Hint Rewrite Z.land_spec Z.lor_spec Z.lxor_spec Z.bits_0 : cbits.

(** ** Lists *)

(** Removing one element from the elements that satisfy a test. *)
Lemma length_filter_except {A} `{EqDecision A} (f g : A → bool) (x : A) (l : list A) :
  NoDup l → x ∈ l → f x = true →
  (∀ y, y ∈ l → g y = negb (bool_decide (y = x)) && f y) →
  length (List.filter f l) = S (length (List.filter g l)).
Proof.
  induction l as [|y l IH]; intros Hnd Hin Hfx Hg; [by apply not_elem_of_nil in Hin|].
  apply NoDup_cons in Hnd as [Hy Hnd].
  assert (∀ l', (∀ z, z ∈ l' → g z = f z) → List.filter g l' = List.filter f l') as Hext.
  { clear. induction l' as [|z l' IH]; intros H; [done|]. simpl.
    rewrite (H z) by (by left). rewrite IH; [done|]. intros; apply H; by right. }
  simpl. rewrite (Hg y) by (by left). destruct (decide (y = x)) as [->|Hne].
  - rewrite Hfx, bool_decide_true by done. simpl. rewrite Hext; [done|].
    intros z Hz. rewrite Hg by (by right). rewrite bool_decide_false; [done|]. by intros ->.
  - rewrite bool_decide_false by done. simpl.
    apply elem_of_cons in Hin as [->|Hin]; [done|].
    specialize (IH Hnd Hin Hfx ltac:(intros; apply Hg; by right)).
    destruct (f y); simpl; lia.
Qed.

(** The first element that satisfies a test, with the others: a search in a
    queue that unlinks what it finds. *)
Fixpoint extract {A} (f : A → bool) (l : list A) : option (A * list A) :=
  match l with
  | [] => None
  | x :: l' => if f x then Some (x, l') else '(y, r) ← extract f l'; Some (y, x :: r)
  end.

Lemma extract_None {A} (f : A → bool) l : extract f l = None ↔ ∀ x, x ∈ l → f x = false.
Proof.
  induction l as [|y l IH]; cbn.
  { split; [intros _ x Hx; by apply elem_of_nil in Hx|done]. }
  destruct (f y) eqn:E.
  - split; [done|]. intros H. by rewrite (H y) in E by left.
  - destruct (extract f l) as [[z r]|]; cbn.
    + split; [done|]. intros H. exfalso. enough (Some (z, r) = None) by done. apply IH. intros x Hx. apply H. by right.
    + split; [|done]. intros _ x Hx. apply elem_of_cons in Hx as [->|Hx]; [done|]. by apply IH.
Qed.

Lemma extract_Some {A} (f : A → bool) l x r :
  extract f l = Some (x, r) ↔
    ∃ l1 l2, l = l1 ++ x :: l2 ∧ r = l1 ++ l2 ∧ f x = true ∧ ∀ y, y ∈ l1 → f y = false.
Proof.
  revert r. induction l as [|y l IH]; intros r; cbn.
  { split; [done|]. intros ([|] & ? & ? & _); done. }
  destruct (f y) eqn:E.
  - split.
    + intros [= -> ->]. exists [], r. split_and!; try done. intros z Hz. by apply elem_of_nil in Hz.
    + intros ([|z l1] & l2 & E1 & -> & _ & H); simplify_eq/=; [done|]. by rewrite (H z) in E by left.
  - split.
    + destruct (extract f l) as [[z q]|]; cbn; [|done]. intros [= -> <-].
      destruct (proj1 (IH q) eq_refl) as (l1 & l2 & -> & -> & Hx & H). exists (y :: l1), l2. split_and!; try done.
      intros z Hz. apply elem_of_cons in Hz as [->|Hz]; [done|by apply H].
    + intros ([|z l1] & l2 & E1 & -> & Hx & H); simplify_eq/=; [congruence|].
      rewrite (proj2 (IH (l1 ++ l2))); [done|]. exists l1, l2. split_and!; try done.
      intros w Hw. apply H. by right.
Qed.

Lemma extract_fmap {A B} (f : B → bool) (g : A → B) (l : list A) :
  extract f (g <$> l) = match extract (λ a, f (g a)) l with Some (x, r) => Some (g x, g <$> r) | None => None end.
Proof.
  induction l as [|y l IH]; [done|]. cbn [fmap list_fmap extract]. destruct (f (g y)); [done|].
  rewrite IH. by destruct (extract _ l) as [[z r]|].
Qed.

Lemma find_extract {A} (f : A → bool) l : List.find f l = fst <$> extract f l.
Proof. induction l as [|y l IH]; [done|]. cbn. destruct (f y); [done|]. rewrite IH. by destruct (extract f l) as [[]|]. Qed.

(** Searching in the part of a list that contains every candidate. *)
Lemma extract_filter {A} (f g : A → bool) l :
  (∀ x, x ∈ l → f x = true → g x = true) →
  extract f (List.filter g l) = '(x, r) ← extract f l; Some (x, List.filter g r).
Proof.
  induction l as [|y l IH]; intros H; [done|]. cbn [List.filter extract].
  assert (∀ x, x ∈ l → f x = true → g x = true) as H' by (intros x Hx; apply H; by right).
  destruct (f y) eqn:E.
  - rewrite (H y) by (done || by left). cbn [extract]. by rewrite E.
  - destruct (g y) eqn:Eg; cbn [extract]; rewrite ?E, ?(IH H');
      destruct (extract f l) as [[z r]|]; cbn; rewrite ?Eg; done.
Qed.

(** ** Loops

    A C loop is a [step] function from the loop state to either the next
    state ([inl]) or the result ([inr]).  [loop n step s] runs at most [2 ^ n]
    iterations and stops at the first result, so [n = 64] is enough fuel for
    any loop whose measure fits in 64 bits; [loop_total] turns a decreasing
    measure into the statement that the loop returns. *)

Section loops.
Context {S R : Type} (step : S → S + R).

Fixpoint loop (n : nat) (s : S) : S + R :=
  match n with
  | O => step s
  | Datatypes.S n' => match loop n' s with
                      | inl s' => loop n' s'
                      | inr r => inr r
                      end
  end.

Lemma loop_measure (I : S → Prop) (Q : R → Prop) (m : S → Z) n s :
  (∀ s, I s → match step s with
              | inl s' => I s' ∧ m s' < m s
              | inr r => Q r
              end) →
  I s →
  match loop n s with
  | inl s' => I s' ∧ m s' ≤ m s - 2 ^ Z.of_nat n
  | inr r => Q r
  end.
Proof.
  intros Hstep. revert s. induction n as [|n IH]; intros s Hs; simpl.
  - specialize (Hstep s Hs). change (2 ^ Z.of_nat 0) with 1.
    destruct (step s); [|done]. destruct Hstep. split; [done|lia].
  - specialize (IH s Hs) as H1. destruct (loop n s) as [s1|r]; [|done].
    destruct H1 as [H1 Hm1]. specialize (IH s1 H1) as H2.
    destruct (loop n s1) as [s2|r]; [|done]. destruct H2 as [H2 Hm2].
    rewrite Nat2Z.inj_succ, Z.pow_succ_r by lia. split; [done|lia].
Qed.

Lemma loop_inv (I : S → Prop) (Q : R → Prop) n s :
  (∀ s, I s → match step s with inl s' => I s' | inr r => Q r end) →
  I s → match loop n s with inl s' => I s' | inr r => Q r end.
Proof.
  intros Hstep. revert s. induction n as [|n IH]; intros s Hs; cbn [loop]; [by apply Hstep|].
  specialize (IH s Hs) as H1. destruct (loop n s) as [s1|r]; [by apply IH|done].
Qed.

(** A loop whose measure decreases and starts below the fuel returns. *)
Lemma loop_total (I : S → Prop) (Q : R → Prop) (m : S → Z) n s :
  (∀ s, I s → 0 ≤ m s) →
  (∀ s, I s → match step s with
              | inl s' => I s' ∧ m s' < m s
              | inr r => Q r
              end) →
  I s → m s < 2 ^ Z.of_nat n → ∃ r, loop n s = inr r ∧ Q r.
Proof.
  intros Hpos Hstep Hs Hm. pose proof (loop_measure I Q m n s Hstep Hs) as H.
  destruct (loop n s) as [s'|r]; [|eauto].
  destruct H as [H Hle]. specialize (Hpos s' H). lia.
Qed.

(** The same with a bound that is not a function of the state. *)
Lemma loop_bound (I : S → nat → Prop) (Q : R → Prop) n s b :
  (∀ s b, I s b → match step s with inl s' => ∃ b', I s' b' ∧ (b' < b)%nat | inr r => Q r end) →
  I s b → Z.of_nat b < 2 ^ Z.of_nat n → ∃ r, loop n s = inr r ∧ Q r.
Proof.
  intros Hstep Hs Hb.
  assert (H : match loop n s with inl s' => ∃ b', I s' b' ∧ Z.of_nat b' + 2 ^ Z.of_nat n ≤ Z.of_nat b | inr r => Q r end).
  { clear Hb. revert s b Hs. induction n as [|n IH]; intros s b Hs; cbn [loop].
    - specialize (Hstep s b Hs). destruct (step s) as [s'|]; [|done]. destruct Hstep as (b' & Hs' & Hb'). exists b'. split; [done|]. change (2 ^ Z.of_nat 0) with 1. lia.
    - specialize (IH s b Hs) as H1. destruct (loop n s) as [s1|]; [|done]. destruct H1 as (b1 & Hs1 & Hb1).
      specialize (IH s1 b1 Hs1) as H2. destruct (loop n s1) as [s2|]; [|done]. destruct H2 as (b2 & Hs2 & Hb2). exists b2. split; [done|].
      rewrite Nat2Z.inj_succ, Z.pow_succ_r by lia. lia. }
  destruct (loop n s) as [s'|r]; [|eauto]. destruct H as (b' & _ & Hb'). lia.
Qed.

(** A loop that stops in its first iteration. *)
Lemma loop_first n s r : step s = inr r → loop n s = inr r.
Proof. intros E. induction n as [|n IH]; cbn [loop]; [done|]. by rewrite IH. Qed.

Lemma loop_second n s s' r :
  step s = inl s' → step s' = inr r → (0 < n)%nat → loop n s = inr r.
Proof.
  intros E1 E2 Hn. destruct n as [|n]; [lia|]. clear Hn.
  induction n as [|n IH]; [cbn; by rewrite E1|].
  change (loop (Datatypes.S (Datatypes.S n)) s) with
    (match loop (Datatypes.S n) s with inl s' => loop (Datatypes.S n) s' | inr r => inr r end).
  by rewrite IH.
Qed.

(** A set of states that every iteration stays in is never left. *)
Lemma loop_stuck (I : S → Prop) n s :
  (∀ s, I s → ∃ s', step s = inl s' ∧ I s') → I s → ∃ s', loop n s = inl s' ∧ I s'.
Proof.
  intros Hstep. revert s. induction n as [|n IH]; intros s Hs; cbn [loop]; [by apply Hstep|].
  destruct (IH s Hs) as (s1 & -> & Hs1). by apply IH.
Qed.
End loops.

(** Reduces the option monad only, so that fuel constants stay folded. *)
Ltac run := cbn [mbind option_bind fmap option_fmap option_map fst snd].

(** Decides a closed decidable statement by evaluating it. *)
Ltac by_evaluation := apply (bool_decide_unpack _); vm_compute; exact I.
