(* ===== verification/OpalBitmap.v ===== *)
(** * The growable bitmap of OPAL ([opal/class/opal_bitmap.c])

    An [opal_bitmap_t] is an array of 64-bit words that grows when a bit
    past its end is set.  The model keeps the three fields of the C struct;
    [bitmap = None] is the NULL pointer, and every word is a [Z] with its
    64-bit range written out in the invariant.  Allocation is the parameter
    [alloc_ok] of the operations that allocate. *)

From stdpp Require Import base numbers list gmap sets.
From S2P Require Import Prelude.

Local Open Scope Z_scope.
Local Open Scope c_scope.

Module OpalBitmap.

Definition OPAL_SUCCESS : Z := 0.
Definition OPAL_ERR_OUT_OF_RESOURCE : Z := -2.
Definition OPAL_ERR_BAD_PARAM : Z := -5.
Definition SIZE_OF_BASE_TYPE : Z := 64.
Definition all_ones : Z := 2 ^ 64 - 1.

Record opal_bitmap_t := mk_bitmap {
  bitmap : option (list Z);
  array_size : Z;
  max_size : Z;
}.

Definition opal_bitmap_construct : opal_bitmap_t := mk_bitmap None 0 INT_MAX.

Definition opal_bitmap_destruct (bm : opal_bitmap_t) : opal_bitmap_t :=
  mk_bitmap None (array_size bm) (max_size bm).

(** [(int) (((size_t) n + 63) / 64)] for an [int] argument. *)
Definition words_for (n : Z) : Z :=
  swrap 32 (wrap 64 (wrap 64 n + SIZE_OF_BASE_TYPE - 1) / SIZE_OF_BASE_TYPE).

Definition opal_bitmap_set_max_size (bm : opal_bitmap_t) (max : Z) : Z * opal_bitmap_t :=
  (OPAL_SUCCESS, mk_bitmap (bitmap bm) (array_size bm) (words_for max)).

Definition opal_bitmap_clear_all_bits (bm : opal_bitmap_t) : option (Z * opal_bitmap_t) :=
  ws ← bitmap bm;
  safe bool_decide (array_size bm ≤ Z.of_nat (length ws));
  Some (OPAL_SUCCESS,
        mk_bitmap (Some (replicate (Z.to_nat (array_size bm)) 0 ++
                         drop (Z.to_nat (array_size bm)) ws))
                  (array_size bm) (max_size bm)).

Definition opal_bitmap_set_all_bits (bm : opal_bitmap_t) : option (Z * opal_bitmap_t) :=
  ws ← bitmap bm;
  safe bool_decide (array_size bm ≤ Z.of_nat (length ws));
  Some (OPAL_SUCCESS,
        mk_bitmap (Some (replicate (Z.to_nat (array_size bm)) all_ones ++
                         drop (Z.to_nat (array_size bm)) ws))
                  (array_size bm) (max_size bm)).

(** [malloc] returns unspecified words: [fresh] gives them. *)
Definition opal_bitmap_init (alloc_ok : bool) (fresh : nat → Z)
    (bm : opal_bitmap_t) (size : Z) : option (Z * opal_bitmap_t) :=
  if bool_decide (size ≤ 0) || bool_decide (max_size bm < size)
  then Some (OPAL_ERR_BAD_PARAM, bm)
  else
    let asz := words_for size in
    let msz := match bitmap bm with
               | Some _ => if bool_decide (max_size bm < asz) then asz else max_size bm
               | None => max_size bm
               end in
    if alloc_ok then
      opal_bitmap_clear_all_bits
        (mk_bitmap (Some (fresh <$> seq 0 (Z.to_nat asz))) asz msz)
    else Some (OPAL_ERR_OUT_OF_RESOURCE, mk_bitmap None asz msz).

(** [realloc] to [new_size] words followed by the [memset] of the new ones.
    [realloc(NULL, n)] allocates. *)
Definition grow_words (ws : option (list Z)) (old new : Z) : list Z :=
  take (Z.to_nat old) (default [] ws) ++ replicate (Z.to_nat (new - old)) 0.

(** [bm->bitmap[index] |= (1UL << offset)] *)
Definition store_bit_at (b : opal_bitmap_t) (index offset : Z) : option (Z * opal_bitmap_t) :=
  ws ← bitmap b;
  w ← ws !! Z.to_nat index;
  Some (OPAL_SUCCESS,
        mk_bitmap (Some (<[Z.to_nat index := Z.lor w (Z.shiftl 1 offset)]> ws))
                  (array_size b) (max_size b)).

Definition opal_bitmap_set_bit (alloc_ok : bool)
    (bm : opal_bitmap_t) (bit : Z) : option (Z * opal_bitmap_t) :=
  if bool_decide (bit < 0) || bool_decide (max_size bm < bit)
  then Some (OPAL_ERR_BAD_PARAM, bm)
  else
    let index := bit / SIZE_OF_BASE_TYPE in
    let offset := bit `mod` SIZE_OF_BASE_TYPE in
    if bool_decide (array_size bm ≤ index) then
      let new_size := if bool_decide (max_size bm < index + 1)
                      then max_size bm else index + 1 in
      if alloc_ok then
        store_bit_at (mk_bitmap (Some (grow_words (bitmap bm) (array_size bm) new_size))
                                new_size (max_size bm)) index offset
      else Some (OPAL_ERR_OUT_OF_RESOURCE,
                 mk_bitmap None (array_size bm) (max_size bm))
    else store_bit_at bm index offset.

Definition opal_bitmap_clear_bit (bm : opal_bitmap_t) (bit : Z) : option (Z * opal_bitmap_t) :=
  nbits ← cint (array_size bm * SIZE_OF_BASE_TYPE);
  if bool_decide (bit < 0) || bool_decide (nbits ≤ bit)
  then Some (OPAL_ERR_BAD_PARAM, bm)
  else
    let index := bit / SIZE_OF_BASE_TYPE in
    let offset := bit `mod` SIZE_OF_BASE_TYPE in
    ws ← bitmap bm;
    w ← ws !! Z.to_nat index;
    Some (OPAL_SUCCESS,
          mk_bitmap (Some (<[Z.to_nat index := Z.land w (wrap 64 (Z.lnot (Z.shiftl 1 offset)))]> ws))
                    (array_size bm) (max_size bm)).

Definition opal_bitmap_is_set_bit (bm : opal_bitmap_t) (bit : Z) : option bool :=
  nbits ← cint (array_size bm * SIZE_OF_BASE_TYPE);
  if bool_decide (bit < 0) || bool_decide (nbits ≤ bit)
  then Some false
  else
    let index := bit / SIZE_OF_BASE_TYPE in
    let offset := bit `mod` SIZE_OF_BASE_TYPE in
    ws ← bitmap bm;
    w ← ws !! Z.to_nat index;
    Some (negb (Z.land w (Z.shiftl 1 offset) =? 0)).

(** [while ((i < array_size) && (bitmap[i] == all_ones)) ++i;] *)
Fixpoint first_not_full (ws : list Z) (n : nat) : option nat :=
  match n with
  | O => Some O
  | S n' => match ws with
            | [] => None
            | w :: ws' => if w =? all_ones then S <$> first_not_full ws' n'
                          else Some O
            end
  end.

(** [while (!(temp & 0x1)) { ++position; temp >>= 1; }] with [fuel] iterations;
    64 are enough for a non-zero 64-bit word. *)
Fixpoint count_low_zeros (fuel : nat) (temp : Z) : option Z :=
  match fuel with
  | O => None
  | S f => if Z.land temp 1 =? 0 then Z.succ <$> count_low_zeros f (Z.shiftr temp 1)
           else Some 0
  end.

(** Returns the status, [*position] and the bitmap. *)
Definition opal_bitmap_find_and_set_first_unset_bit (alloc_ok : bool)
    (bm : opal_bitmap_t) : option (Z * Z * opal_bitmap_t) :=
  ws ← (if bool_decide (array_size bm = 0) then Some [] else bitmap bm);
  i ← first_not_full ws (Z.to_nat (array_size bm));
  if bool_decide (Z.of_nat i = array_size bm) then
    position ← cint (array_size bm * SIZE_OF_BASE_TYPE);
    r ← opal_bitmap_set_bit alloc_ok bm position;
    Some (fst r, position, snd r)
  else
    w ← ws !! i;
    let w' := Z.lor w (wrap 64 (w + 1)) in
    p ← count_low_zeros 64 (Z.lxor w w');
    Some (OPAL_SUCCESS, p + Z.of_nat i * SIZE_OF_BASE_TYPE,
          mk_bitmap (Some (<[i := w']> ws)) (array_size bm) (max_size bm)).

(** The three in-place operators differ only in the word operator. *)
Definition bitwise_inplace (op : Z → Z → Z) (dest right : opal_bitmap_t)
    : option (Z * opal_bitmap_t) :=
  if negb (array_size dest =? array_size right) then Some (OPAL_ERR_BAD_PARAM, dest)
  else if bool_decide (array_size dest = 0) then Some (OPAL_SUCCESS, dest)
  else
    wl ← bitmap dest;
    wr ← bitmap right;
    let n := Z.to_nat (array_size dest) in
    safe (bool_decide (n ≤ length wl)%nat && bool_decide (n ≤ length wr)%nat);
    Some (OPAL_SUCCESS,
          mk_bitmap (Some (zip_with op (take n wl) (take n wr) ++ drop n wl))
                    (array_size dest) (max_size dest)).

Definition opal_bitmap_bitwise_and_inplace := bitwise_inplace Z.land.
Definition opal_bitmap_bitwise_or_inplace := bitwise_inplace Z.lor.
Definition opal_bitmap_bitwise_xor_inplace := bitwise_inplace Z.lxor.

Definition opal_bitmap_size (bm : opal_bitmap_t) : option Z :=
  cint (array_size bm * SIZE_OF_BASE_TYPE).

Definition opal_bitmap_are_different (left right : opal_bitmap_t) : option bool :=
  sl ← opal_bitmap_size left;
  sr ← opal_bitmap_size right;
  if negb (sl =? sr) then Some true
  else if bool_decide (array_size left = 0) then Some false
  else
    wl ← bitmap left;
    wr ← bitmap right;
    let n := Z.to_nat (array_size left) in
    safe (bool_decide (n ≤ length wl)%nat && bool_decide (n ≤ length wr)%nat);
    Some (negb (bool_decide (take n wl = take n wr))).

(** The loop [for (; val; cnt++) val &= val - 1;] on one word. *)
Fixpoint wegner_count (fuel : nat) (val : Z) : option Z :=
  if val =? 0 then Some 0
  else match fuel with
       | O => None
       | S f => Z.succ <$> wegner_count f (Z.land val (val - 1))
       end.

(** [for (i = 0; i < len; ++i)] reads [bitmap[i]]: [len] counts words. *)
Fixpoint num_set_bits_from (ws : list Z) (len : nat) : option Z :=
  match len with
  | O => Some 0
  | S l => match ws with
           | [] => None
           | w :: ws' => c ← wegner_count 64 w; r ← num_set_bits_from ws' l; Some (c + r)
           end
  end.

Definition opal_bitmap_num_set_bits (bm : opal_bitmap_t) (len : Z) : option Z :=
  if bool_decide (len ≤ 0) then Some 0
  else ws ← bitmap bm; num_set_bits_from ws (Z.to_nat len).

Definition opal_bitmap_num_unset_bits (bm : opal_bitmap_t) (len : Z) : option Z :=
  c ← opal_bitmap_num_set_bits bm len; Some (len - c).

Definition opal_bitmap_is_clear (bm : opal_bitmap_t) : option bool :=
  if bool_decide (array_size bm ≤ 0) then Some true
  else
    ws ← bitmap bm;
    safe bool_decide (array_size bm ≤ Z.of_nat (length ws));
    Some (forallb (λ w, w =? 0) (take (Z.to_nat (array_size bm)) ws)).

Definition opal_bitmap_copy (alloc_ok : bool) (fresh : nat → Z)
    (dest src : opal_bitmap_t) : option opal_bitmap_t :=
  let grow := bool_decide (array_size dest < array_size src) in
  let buf := if grow
             then (if alloc_ok then Some (fresh <$> seq 0 (Z.to_nat (array_size src))) else None)
             else bitmap dest in
  let msz := if grow then max_size src else max_size dest in
  ws ← bitmap src;
  b ← buf;
  let n := Z.to_nat (array_size src) in
  safe (bool_decide (n ≤ length ws)%nat && bool_decide (n ≤ length b)%nat);
  Some (mk_bitmap (Some (take n ws ++ drop n b)) (array_size src) msz).

(** ** Invariant and the set of bits a bitmap stands for *)

Definition word_ok (w : Z) : Prop := 0 ≤ w < 2 ^ 64.

Record wf (bm : opal_bitmap_t) (ws : list Z) : Prop := {
  wf_words : bitmap bm = Some ws;
  wf_size : array_size bm = Z.of_nat (length ws);
  wf_range : Forall word_ok ws;
  wf_int : array_size bm * SIZE_OF_BASE_TYPE ≤ INT_MAX;
  wf_max : 1 ≤ max_size bm ≤ INT_MAX;
}.

(** Bit [i] of an array of words. *)
Definition bit_of (ws : list Z) (i : Z) : bool :=
  match ws !! Z.to_nat (i / SIZE_OF_BASE_TYPE) with
  | Some w => Z.testbit w (i `mod` SIZE_OF_BASE_TYPE)
  | None => false
  end.

Definition bits (bm : opal_bitmap_t) (i : Z) : bool :=
  bool_decide (0 ≤ i) && match bitmap bm with Some ws => bit_of ws i | None => false end.

Ltac bm_unfold := unfold SIZE_OF_BASE_TYPE, INT_MAX, INT_MIN in *.

Lemma index_split i j :
  0 ≤ i → 0 ≤ j →
  (Z.to_nat (i / SIZE_OF_BASE_TYPE) = Z.to_nat (j / SIZE_OF_BASE_TYPE) ∧
   i `mod` SIZE_OF_BASE_TYPE = j `mod` SIZE_OF_BASE_TYPE) ↔ i = j.
Proof.
  intros Hi Hj. bm_unfold. split; [|by intros ->].
  intros [E1 E2].
  assert (0 ≤ i / 64) by (apply Z.div_pos; lia).
  assert (0 ≤ j / 64) by (apply Z.div_pos; lia).
  rewrite (Z.div_mod i 64), (Z.div_mod j 64) by lia. lia.
Qed.

Lemma offset_range i : 0 ≤ i `mod` SIZE_OF_BASE_TYPE < 64.
Proof. apply Z.mod_pos_bound. done. Qed.

(** Replacing one word changes exactly the bits of that word. *)
Lemma bit_of_insert ws k w' i :
  (k < length ws)%nat → 0 ≤ i →
  bit_of (<[k := w']> ws) i =
    if decide (Z.to_nat (i / SIZE_OF_BASE_TYPE) = k)
    then Z.testbit w' (i `mod` SIZE_OF_BASE_TYPE) else bit_of ws i.
Proof.
  intros Hk Hi. unfold bit_of. case_decide as E.
  - rewrite E, list_lookup_insert_eq by done. done.
  - by rewrite list_lookup_insert_ne by done.
Qed.

Lemma word_ok_lor a b : word_ok a → word_ok b → word_ok (Z.lor a b).
Proof.
  unfold word_ok. intros Ha Hb. split; [apply Z.lor_nonneg; lia|].
  apply bounded_by_bits; [lia|apply Z.lor_nonneg; lia|].
  intros i Hi. autorewrite with cbits.
  by rewrite !(testbit_high _ 64) by lia.
Qed.

Lemma word_ok_land a b : word_ok a → 0 ≤ b → word_ok (Z.land a b).
Proof.
  unfold word_ok. intros Ha Hb. split; [apply Z.land_nonneg; lia|].
  apply bounded_by_bits; [lia|apply Z.land_nonneg; lia|].
  intros i Hi. autorewrite with cbits.
  by rewrite (testbit_high a 64) by lia.
Qed.

Lemma word_ok_shift o : 0 ≤ o < 64 → word_ok (Z.shiftl 1 o).
Proof.
  intros Ho. unfold word_ok. rewrite Z.shiftl_mul_pow2, Z.mul_1_l by lia.
  split; [apply Z.pow_nonneg; lia|apply Z.pow_lt_mono_r; lia].
Qed.

Lemma testbit_lor_shift w o k :
  0 ≤ o → 0 ≤ k → Z.testbit (Z.lor w (Z.shiftl 1 o)) k = (k =? o) || Z.testbit w k.
Proof.
  intros Ho Hk. autorewrite with cbits.
  rewrite Z.shiftl_mul_pow2, Z.mul_1_l, Z.pow2_bits_eqb by lia.
  rewrite (Z.eqb_sym k). apply orb_comm.
Qed.

Lemma testbit_land_lnot w o k :
  0 ≤ o < 64 → 0 ≤ k < 64 →
  Z.testbit (Z.land w (wrap 64 (Z.lnot (Z.shiftl 1 o)))) k = negb (k =? o) && Z.testbit w k.
Proof.
  intros Ho Hk. unfold wrap. autorewrite with cbits.
  rewrite Z.mod_pow2_bits_low, Z.lnot_spec by lia.
  rewrite Z.shiftl_mul_pow2, Z.mul_1_l, Z.pow2_bits_eqb by lia.
  rewrite (Z.eqb_sym k). apply andb_comm.
Qed.

Lemma lookup_word (ws : list Z) i :
  0 ≤ i → i < Z.of_nat (length ws) * SIZE_OF_BASE_TYPE →
  ∃ w, ws !! Z.to_nat (i / SIZE_OF_BASE_TYPE) = Some w.
Proof.
  intros Hi Hlt. apply lookup_lt_is_Some_2.
  assert (0 ≤ i / SIZE_OF_BASE_TYPE) by (apply Z.div_pos; done).
  assert (i / SIZE_OF_BASE_TYPE < Z.of_nat (length ws)) by (apply Z.div_lt_upper_bound; bm_unfold; lia).
  lia.
Qed.

Lemma bit_of_past_end ws i :
  Z.of_nat (length ws) * SIZE_OF_BASE_TYPE ≤ i → bit_of ws i = false.
Proof.
  intros Hge. unfold bit_of. rewrite lookup_ge_None_2; [done|].
  assert (Z.of_nat (length ws) ≤ i / SIZE_OF_BASE_TYPE) by (apply Z.div_le_lower_bound; bm_unfold; lia).
  lia.
Qed.

(** Storing one bit of an existing word. *)
Lemma store_bit ws bit w :
  Forall word_ok ws → 0 ≤ bit →
  ws !! Z.to_nat (bit / SIZE_OF_BASE_TYPE) = Some w →
  let ws' := <[Z.to_nat (bit / SIZE_OF_BASE_TYPE) :=
               Z.lor w (Z.shiftl 1 (bit `mod` SIZE_OF_BASE_TYPE))]> ws in
  Forall word_ok ws' ∧
  ∀ i, 0 ≤ i → bit_of ws' i = (i =? bit) || bit_of ws i.
Proof.
  intros Hr Hb Hw ws'. pose proof (offset_range bit).
  split.
  - apply Forall_insert; [done|].
    apply word_ok_lor; [by eapply Forall_lookup_1|by apply word_ok_shift].
  - intros i Hi. unfold ws'. rewrite bit_of_insert; [|by eapply lookup_lt_Some|done].
    pose proof (offset_range i). case_decide as E.
    + rewrite testbit_lor_shift by lia.
      unfold bit_of. rewrite E, Hw.
      replace (i `mod` SIZE_OF_BASE_TYPE =? bit `mod` SIZE_OF_BASE_TYPE) with (i =? bit); [done|].
      apply eq_true_iff_eq. rewrite !Z.eqb_eq, <- index_split by done. tauto.
    + replace (i =? bit) with false; [done|].
      symmetry. apply Z.eqb_neq. intros ->. done.
Qed.

(** Growing leaves the bits alone. *)
Lemma bit_of_grow ws n i :
  bit_of (grow_words (Some ws) (Z.of_nat (length ws)) n) i = bit_of ws i.
Proof.
  unfold bit_of, grow_words. simpl.
  rewrite Nat2Z.id, take_ge by lia.
  destruct (decide (Z.to_nat (i / SIZE_OF_BASE_TYPE) < length ws)%nat) as [Hlt|Hge].
  - by rewrite lookup_app_l by done.
  - rewrite lookup_app_r by lia. rewrite (lookup_ge_None_2 ws) by lia.
    destruct (replicate _ _ !! _) as [w|] eqn:E; [|done].
    apply lookup_replicate in E as [-> _]. apply Z.bits_0.
Qed.

Lemma grow_words_ok ws n :
  Forall word_ok ws → Z.of_nat (length ws) ≤ n →
  Forall word_ok (grow_words (Some ws) (Z.of_nat (length ws)) n) ∧
  Z.of_nat (length (grow_words (Some ws) (Z.of_nat (length ws)) n)) = n.
Proof.
  intros Hr Hn. unfold grow_words. simpl. rewrite Nat2Z.id, take_ge by lia. split.
  - apply Forall_app_2; [done|]. by apply Forall_replicate.
  - rewrite length_app, length_replicate. lia.
Qed.

(** [store_bit_at] on a well-formed bitmap whose array holds the word. *)
Lemma store_bit_at_spec bm ws bit :
  wf bm ws → 0 ≤ bit < array_size bm * SIZE_OF_BASE_TYPE →
  ∃ bm' ws',
    store_bit_at bm (bit / SIZE_OF_BASE_TYPE) (bit `mod` SIZE_OF_BASE_TYPE)
      = Some (OPAL_SUCCESS, bm') ∧ wf bm' ws' ∧
    array_size bm' = array_size bm ∧ max_size bm' = max_size bm ∧
    ∀ i, bits bm' i = (i =? bit) || bits bm i.
Proof.
  intros [Hws Hsz Hr Hint Hmax] Hbit.
  destruct (lookup_word ws bit) as [w Hw]; [lia|rewrite <- Hsz; lia|].
  destruct (store_bit ws bit w) as [Hr' Hbits]; [done|lia|done|].
  unfold store_bit_at. rewrite Hws. simpl. rewrite Hw. simpl.
  eexists _, _. split_and!; [done| |done..|].
  - split; cbn [bitmap array_size max_size].
    + reflexivity.
    + by rewrite length_insert.
    + exact Hr'.
    + exact Hint.
    + exact Hmax.
  - intros i. unfold bits. simpl. rewrite Hws.
    destruct (decide (0 ≤ i)).
    + rewrite bool_decide_true by done. simpl. by apply Hbits.
    + rewrite bool_decide_false by done. simpl.
      symmetry. rewrite orb_false_r. apply Z.eqb_neq. lia.
Qed.

(** Growing the array of a well-formed bitmap. *)
Lemma wf_grow bm ws n :
  wf bm ws → array_size bm ≤ n → n * SIZE_OF_BASE_TYPE ≤ INT_MAX →
  let bm' := mk_bitmap (Some (grow_words (bitmap bm) (array_size bm) n)) n (max_size bm) in
  wf bm' (grow_words (bitmap bm) (array_size bm) n) ∧ ∀ i, bits bm' i = bits bm i.
Proof.
  intros [Hws Hsz Hr Hint Hmax] Hn Hov. rewrite Hws, Hsz in *. simpl.
  destruct (grow_words_ok ws n) as [Hr' Hl]; [done..|].
  split; [by constructor|].
  intros i. unfold bits. rewrite Hws. simpl. by rewrite bit_of_grow.
Qed.

(** Setting a bit inside the limits succeeds, keeps the invariant, leaves
    an array that reaches exactly as far as needed, and adds exactly that bit
    to the set the bitmap stands for. *)
Lemma set_bit_ok bm ws bit :
  wf bm ws → 0 ≤ bit ≤ max_size bm →
  (bit / SIZE_OF_BASE_TYPE + 1) * SIZE_OF_BASE_TYPE ≤ INT_MAX →
  ∃ bm' ws',
    opal_bitmap_set_bit true bm bit = Some (OPAL_SUCCESS, bm') ∧ wf bm' ws' ∧
    array_size bm' = Z.max (array_size bm) (bit / SIZE_OF_BASE_TYPE + 1) ∧
    max_size bm' = max_size bm ∧
    ∀ i, bits bm' i = (i =? bit) || bits bm i.
Proof.
  intros Hwf Hbit Hov. pose proof Hwf as [Hws Hsz Hr Hint Hmax].
  unfold opal_bitmap_set_bit. rewrite !bool_decide_false by lia. simpl.
  pose proof (Z.div_mod bit SIZE_OF_BASE_TYPE ltac:(done)) as Hdm.
  pose proof (offset_range bit) as Ho.
  assert (0 ≤ bit / SIZE_OF_BASE_TYPE) by (apply Z.div_pos; [lia|done]).
  case_bool_decide as Hge.
  - rewrite bool_decide_false by (bm_unfold; lia).
    destruct (wf_grow bm ws (bit / SIZE_OF_BASE_TYPE + 1)) as [Hwf' Hb']; [done|lia..|].
    destruct (store_bit_at_spec _ _ bit Hwf') as (bm' & ws' & E & W & S1 & S2 & B);
      [simpl; bm_unfold; lia|].
    eexists _, _. split_and!; [done..| | |]; simpl in *; [lia|done|].
    intros i. by rewrite B, Hb'.
  - destruct (store_bit_at_spec bm ws bit Hwf) as (bm' & ws' & E & W & S1 & S2 & B);
      [bm_unfold; nia|].
    eexists _, _. split_and!; [done..|lia|done|done].
Qed.

(** ** Reading and clearing *)

Lemma size_no_overflow bm ws :
  wf bm ws → cint (array_size bm * SIZE_OF_BASE_TYPE) = Some (array_size bm * SIZE_OF_BASE_TYPE).
Proof. intros [Hws Hsz Hr Hint Hmax]. apply cint_Some. bm_unfold. lia. Qed.

(** Reading a bit is defined on every [int] and returns whether the bit is in
    the set, [false] outside the array. *)
Lemma is_set_bit_spec bm ws bit :
  wf bm ws → opal_bitmap_is_set_bit bm bit = Some (bits bm bit).
Proof.
  intros Hwf. pose proof Hwf as [Hws Hsz Hr Hint Hmax].
  unfold opal_bitmap_is_set_bit. rewrite (size_no_overflow _ _ Hwf). simpl.
  unfold bits. rewrite Hws.
  destruct (decide (0 ≤ bit)) as [Hb|Hb].
  - rewrite (bool_decide_false (bit < 0)), (bool_decide_true (0 ≤ bit)) by lia. simpl.
    case_bool_decide as Hlt.
    + by rewrite bit_of_past_end by lia.
    + destruct (lookup_word ws bit) as [w Hw]; [lia|lia|].
      unfold bit_of. rewrite Hw. simpl. f_equal.
      rewrite Z.shiftl_mul_pow2, Z.mul_1_l by apply offset_range.
      rewrite land_pow2_testbit by apply offset_range. apply negb_involutive.
  - rewrite (bool_decide_true (bit < 0)), (bool_decide_false (0 ≤ bit)) by lia. done.
Qed.

(** Clearing a bit of the array removes exactly that bit; outside the array it
    is refused and nothing changes. *)
Lemma clear_bit_spec bm ws bit :
  wf bm ws →
  (0 ≤ bit < array_size bm * SIZE_OF_BASE_TYPE →
    ∃ bm' ws', opal_bitmap_clear_bit bm bit = Some (OPAL_SUCCESS, bm') ∧ wf bm' ws' ∧
      ∀ i, bits bm' i = negb (i =? bit) && bits bm i) ∧
  (¬ (0 ≤ bit < array_size bm * SIZE_OF_BASE_TYPE) →
    opal_bitmap_clear_bit bm bit = Some (OPAL_ERR_BAD_PARAM, bm)).
Proof.
  intros Hwf. pose proof Hwf as [Hws Hsz Hr Hint Hmax].
  unfold opal_bitmap_clear_bit. rewrite (size_no_overflow _ _ Hwf). simpl. split; intros Hb.
  - rewrite !bool_decide_false by lia. simpl. rewrite Hws. simpl.
    destruct (lookup_word ws bit) as [w Hw]; [lia|lia|]. rewrite Hw. simpl.
    pose proof (offset_range bit).
    eexists _, _. split_and!; [done| |].
    + split; cbn [bitmap array_size max_size].
      * reflexivity.
      * by rewrite length_insert.
      * apply Forall_insert; [done|]. apply word_ok_land; [by eapply Forall_lookup_1|].
        apply wrap_range. lia.
      * exact Hint.
      * exact Hmax.
    + intros i. unfold bits. simpl. rewrite Hws.
      destruct (decide (0 ≤ i)) as [Hi|Hi]; [|by rewrite bool_decide_false, andb_false_r by lia].
      rewrite bool_decide_true by lia. simpl.
      rewrite bit_of_insert; [|by eapply lookup_lt_Some|done].
      pose proof (offset_range i). case_decide as E.
      * rewrite testbit_land_lnot by lia. unfold bit_of. rewrite E, Hw.
        replace (i `mod` SIZE_OF_BASE_TYPE =? bit `mod` SIZE_OF_BASE_TYPE) with (i =? bit); [done|].
        apply eq_true_iff_eq. rewrite !Z.eqb_eq, <- index_split by lia. tauto.
      * replace (i =? bit) with false; [done|].
        symmetry. apply Z.eqb_neq. intros ->. done.
  - destruct (decide (bit < 0)) as [Hn|Hn].
    + by rewrite bool_decide_true by lia.
    + rewrite (bool_decide_false (bit < 0)), bool_decide_true by lia. done.
Qed.

(** ** The first unset bit *)

Lemma testbit_2k_1 k b i :
  0 ≤ i → Z.testbit (2 * k + Z.b2z b) i = if i =? 0 then b else Z.testbit k (i - 1).
Proof.
  intros Hi. destruct (Z.eqb_spec i 0) as [->|Hne].
  - by rewrite Z.add_comm, Z.add_b2z_double_bit0.
  - replace i with (Z.succ (i - 1)) at 1 by lia.
    destruct b; cbn [Z.b2z]; rewrite ?Z.add_0_r;
      [apply Z.testbit_odd_succ|apply Z.testbit_even_succ]; lia.
Qed.

Lemma lor_succ_odd k : 0 ≤ k →
  Z.lor (2 * k + 1) (2 * k + 1 + 1) = 2 * Z.lor k (k + 1) + 1.
Proof.
  intros Hk. apply Z.bits_inj'. intros i Hi.
  replace (2 * k + 1 + 1) with (2 * (k + 1) + Z.b2z false) by (simpl; lia).
  change (2 * k + 1) with (2 * k + Z.b2z true).
  change (2 * Z.lor k (k + 1) + 1) with (2 * Z.lor k (k + 1) + Z.b2z true).
  rewrite Z.lor_spec, !testbit_2k_1 by done.
  destruct (i =? 0); [done|]. by rewrite Z.lor_spec.
Qed.

Lemma lor_succ_even k : Z.lor (2 * k) (2 * k + 1) = 2 * k + 1.
Proof.
  apply Z.bits_inj'. intros i Hi.
  replace (2 * k) with (2 * k + Z.b2z false) at 1 by (simpl; lia).
  change (2 * k + 1) with (2 * k + Z.b2z true).
  rewrite Z.lor_spec, !testbit_2k_1 by done.
  destruct (i =? 0); [done|]. apply orb_diag.
Qed.

Lemma lxor_double k m : Z.lxor (2 * k + 1) (2 * m + 1) = 2 * Z.lxor k m.
Proof.
  apply Z.bits_inj'. intros i Hi.
  replace (2 * Z.lxor k m) with (2 * Z.lxor k m + Z.b2z false) by (simpl; lia).
  change (2 * k + 1) with (2 * k + Z.b2z true).
  change (2 * m + 1) with (2 * m + Z.b2z true).
  rewrite Z.lxor_spec, !testbit_2k_1 by done.
  destruct (i =? 0); [done|]. by rewrite Z.lxor_spec.
Qed.

Lemma lxor_even_succ k : Z.lxor (2 * k) (2 * k + 1) = 1.
Proof.
  apply Z.bits_inj'. intros i Hi.
  replace (2 * k) with (2 * k + Z.b2z false) at 1 by (simpl; lia).
  change (2 * k + 1) with (2 * k + Z.b2z true).
  transitivity (Z.testbit (2 * 0 + Z.b2z true) i); [|done].
  rewrite Z.lxor_spec, !testbit_2k_1 by done.
  destruct (i =? 0); [done|]. by rewrite xorb_nilpotent, Z.bits_0.
Qed.

(** [w |= w + 1] sets the lowest zero bit of [w], and the shift loop on the
    changed bits finds its number. *)
Lemma lowest_zero_bit n : ∀ w,
  0 ≤ w < 2 ^ Z.of_nat n - 1 →
  ∃ p, 0 ≤ p < Z.of_nat n ∧ Z.testbit w p = false ∧
    (∀ j, 0 ≤ j < p → Z.testbit w j = true) ∧
    Z.lor w (w + 1) = Z.lor w (Z.shiftl 1 p) ∧
    count_low_zeros n (Z.lxor w (Z.lor w (w + 1))) = Some p.
Proof.
  induction n as [|n IH]; intros w Hw; [change (2 ^ Z.of_nat 0) with 1 in Hw; lia|].
  rewrite Nat2Z.inj_succ, Z.pow_succ_r in Hw by lia.
  pose proof (Z.div2_odd w) as E. destruct (Z.odd w) eqn:Hodd; cbn [Z.b2z] in E.
  - set (k := Z.div2 w) in *. assert (0 ≤ k < 2 ^ Z.of_nat n - 1) as Hk by lia.
    destruct (IH k Hk) as (p & Hp & Hp0 & Hp1 & Hl & Hc).
    exists (p + 1).
    assert (∀ j, 0 ≤ j → Z.testbit w j = if j =? 0 then true else Z.testbit k (j - 1)) as Hbit.
    { intros j Hj. rewrite E. by apply (testbit_2k_1 k true). }
    split_and!; [lia|lia| | | |].
    + rewrite Hbit by lia. destruct (Z.eqb_spec (p + 1) 0); [lia|].
      by replace (p + 1 - 1) with p by lia.
    + intros j Hj. rewrite Hbit by lia. destruct (Z.eqb_spec j 0); [done|]. apply Hp1. lia.
    + rewrite E at 1 2. rewrite lor_succ_odd, Hl by lia.
      apply Z.bits_inj'. intros i Hi.
      change (2 * Z.lor k (Z.shiftl 1 p) + 1) with (2 * Z.lor k (Z.shiftl 1 p) + Z.b2z true).
      rewrite testbit_2k_1, (testbit_lor_shift w), Hbit by lia.
      destruct (Z.eqb_spec i 0) as [->|Hi0]; [by rewrite orb_true_r|].
      rewrite testbit_lor_shift by lia. f_equal. apply eq_true_iff_eq. rewrite !Z.eqb_eq. lia.
    + rewrite E, lor_succ_odd, lxor_double by lia. simpl count_low_zeros.
      rewrite (Z.land_ones _ 1 ltac:(lia) : Z.land _ 1 = _).
      rewrite Z.mul_comm at 1. rewrite Z.mod_mul by done. simpl.
      rewrite Z.shiftr_div_pow2 by lia. change (2 ^ 1) with 2.
      rewrite Z.mul_comm, Z.div_mul by done. rewrite Hc. done.
  - rewrite Z.add_0_r in E. rewrite E. exists 0. split_and!; [lia|lia| |intros; lia| |].
    + rewrite Z.bit0_odd. by rewrite Z.odd_mul.
    + rewrite lor_succ_even. apply Z.bits_inj'. intros i Hi.
      rewrite testbit_lor_shift by lia.
      change (2 * Z.div2 w + 1) with (2 * Z.div2 w + Z.b2z true).
      replace (2 * Z.div2 w) with (2 * Z.div2 w + Z.b2z false) at 2 by (simpl; lia).
      rewrite !testbit_2k_1 by lia. by destruct (i =? 0).
    + rewrite lor_succ_even, lxor_even_succ. done.
Qed.

#[local] Arguments count_low_zeros : simpl never.

Lemma not_full_bound w : word_ok w → w ≠ all_ones → 0 ≤ w < 2 ^ Z.of_nat 64 - 1.
Proof. unfold word_ok, all_ones. change (Z.of_nat 64) with 64. lia. Qed.

Lemma full_word_bits k : 0 ≤ k < 64 → Z.testbit all_ones k = true.
Proof. intros Hk. apply (Z.ones_spec_low 64 k). lia. Qed.

Lemma first_not_full_spec ws n :
  (n ≤ length ws)%nat →
  ∃ i, first_not_full ws n = Some i ∧ (i ≤ n)%nat ∧
    (∀ j w, (j < i)%nat → ws !! j = Some w → w = all_ones) ∧
    ((i < n)%nat → ∃ w, ws !! i = Some w ∧ w ≠ all_ones).
Proof.
  revert n. induction ws as [|w ws IH]; intros [|n] Hn; simpl in *; try lia;
    try (exists 0%nat; split_and!; [done|lia|lia|lia]).
  destruct (Z.eqb_spec w all_ones) as [->|Hne].
  - destruct (IH n) as (i & E & Hi & H1 & H2); [lia|].
    exists (S i). rewrite E. split_and!; [done|lia| |].
    + intros [|j] w' Hj Hw; simpl in Hw; [congruence|]. apply (H1 j); [lia|done].
    + intros H. destruct H2 as (w' & ? & ?); [lia|]. by exists w'.
  - exists 0%nat. split_and!; [done|lia|lia|]. intros _. by exists w.
Qed.

(** Bits of the words before the first non-full one are all set. *)
Lemma bits_before_full ws i j :
  (∀ k w, (k < i)%nat → ws !! k = Some w → w = all_ones) → (i ≤ length ws)%nat →
  0 ≤ j < Z.of_nat i * SIZE_OF_BASE_TYPE → bit_of ws j = true.
Proof.
  intros Hfull Hi Hj. destruct (lookup_word ws j) as [w Hw]; [lia|bm_unfold; nia|].
  assert (j / SIZE_OF_BASE_TYPE < Z.of_nat i) by (apply Z.div_lt_upper_bound; bm_unfold; lia).
  assert (0 ≤ j / SIZE_OF_BASE_TYPE) by (apply Z.div_pos; [lia|done]).
  unfold bit_of. rewrite Hw, (Hfull (Z.to_nat (j / SIZE_OF_BASE_TYPE)) w) by (done || lia).
  apply full_word_bits, offset_range.
Qed.

Lemma pos_split p i :
  0 ≤ p < 64 →
  (p + Z.of_nat i * SIZE_OF_BASE_TYPE) / SIZE_OF_BASE_TYPE = Z.of_nat i ∧
  (p + Z.of_nat i * SIZE_OF_BASE_TYPE) `mod` SIZE_OF_BASE_TYPE = p.
Proof.
  intros Hp. bm_unfold. rewrite Z.div_add, Z.mod_add by lia.
  rewrite Z.div_small, Z.mod_small by lia. lia.
Qed.

(** The branch that sets the lowest zero of word [i]. *)
Lemma set_lowest_zero bm ws i w :
  wf bm ws → ws !! i = Some w → w ≠ all_ones →
  (∀ k w, (k < i)%nat → ws !! k = Some w → w = all_ones) →
  ∃ p, 0 ≤ p < 64 ∧
    count_low_zeros 64 (Z.lxor w (Z.lor w (wrap 64 (w + 1)))) = Some p ∧
    let pos := p + Z.of_nat i * SIZE_OF_BASE_TYPE in
    let ws' := <[i := Z.lor w (wrap 64 (w + 1))]> ws in
    bit_of ws pos = false ∧ (∀ j, 0 ≤ j < pos → bit_of ws j = true) ∧
    Forall word_ok ws' ∧ ∀ j, 0 ≤ j → bit_of ws' j = (j =? pos) || bit_of ws j.
Proof.
  intros [Hws Hsz Hr Hint Hmax] Hw Hne Hfull.
  assert (word_ok w) as Hok by (by eapply Forall_lookup_1).
  assert (wrap 64 (w + 1) = w + 1) as -> .
  { apply wrap_small. pose proof (not_full_bound w Hok Hne). change (Z.of_nat 64) with 64 in *. lia. }
  destruct (lowest_zero_bit 64 w) as (p & Hp & Hp0 & Hp1 & Hl & Hc); [by apply not_full_bound|].
  change (Z.of_nat 64) with 64 in Hp. destruct (pos_split p i Hp) as [Hd Hm].
  exists p. split_and!; [lia..|exact Hc|]. intros pos ws'.
  assert (ws !! Z.to_nat (pos / SIZE_OF_BASE_TYPE) = Some w) as Hw'
    by (unfold pos; rewrite Hd, Nat2Z.id; done).
  destruct (store_bit ws pos w) as [Hr' Hb']; [done|unfold pos; bm_unfold; lia|done|].
  assert (ws' = <[Z.to_nat (pos / SIZE_OF_BASE_TYPE) :=
             Z.lor w (Z.shiftl 1 (pos `mod` SIZE_OF_BASE_TYPE))]> ws) as ->.
  { unfold ws', pos. by rewrite Hd, Hm, Nat2Z.id, Hl. }
  split_and!; [| |done|done].
  - unfold bit_of. rewrite Hw'. unfold pos. by rewrite Hm.
  - intros j Hj. destruct (decide (j < Z.of_nat i * SIZE_OF_BASE_TYPE)) as [Hlt|Hge].
    + apply (bits_before_full ws i); [done| |lia]. by apply Nat.lt_le_incl, (lookup_lt_Some _ _ w).
    + replace j with ((j - Z.of_nat i * SIZE_OF_BASE_TYPE) + Z.of_nat i * SIZE_OF_BASE_TYPE) by lia.
      destruct (pos_split (j - Z.of_nat i * SIZE_OF_BASE_TYPE) i) as [Hdj Hmj]; [lia|].
      unfold bit_of. rewrite Hdj, Hmj, Nat2Z.id, Hw. apply Hp1. lia.
Qed.

(** The search for an unset bit returns the least bit not in the set and
    adds exactly that bit, growing the array when every word is full. *)
Theorem find_and_set_first_unset_bit_spec bm ws :
  wf bm ws → array_size bm * SIZE_OF_BASE_TYPE ≤ max_size bm →
  (array_size bm + 1) * SIZE_OF_BASE_TYPE ≤ INT_MAX →
  ∃ pos bm' ws',
    opal_bitmap_find_and_set_first_unset_bit true bm = Some (OPAL_SUCCESS, pos, bm') ∧
    wf bm' ws' ∧ 0 ≤ pos ∧ bits bm pos = false ∧
    (∀ j, 0 ≤ j < pos → bits bm j = true) ∧
    ∀ i, bits bm' i = (i =? pos) || bits bm i.
Proof.
  intros Hwf Hmx Hov. pose proof Hwf as [Hws Hsz Hr Hint Hmax].
  unfold opal_bitmap_find_and_set_first_unset_bit.
  assert ((if bool_decide (array_size bm = 0) then Some [] else bitmap bm) = Some ws) as ->.
  { case_bool_decide; [|done]. destruct ws; [done|simpl in *; lia]. }
  assert (Z.to_nat (array_size bm) = length ws) as -> by lia. simpl.
  destruct (first_not_full_spec ws (length ws)) as (i & Ei & Hi & Hfull & Hnf); [done|].
  rewrite Ei. simpl.
  assert (∀ j, 0 ≤ j → bits bm j = bit_of ws j) as Hbits.
  { intros j Hj. unfold bits. by rewrite bool_decide_true, Hws by done. }
  case_bool_decide as Hlast.
  - rewrite (size_no_overflow _ _ Hwf). simpl.
    set (pos := array_size bm * SIZE_OF_BASE_TYPE) in *.
    assert (pos / SIZE_OF_BASE_TYPE = array_size bm) as Hdiv by (by apply Z.div_mul).
    assert (0 ≤ pos) by (unfold pos; bm_unfold; lia).
    destruct (set_bit_ok bm ws pos Hwf) as (bm' & ws' & E & W & _ & _ & B);
      [lia|rewrite Hdiv; lia|].
    exists pos, bm', ws'. rewrite E. split_and!; [done..| | |done].
    + rewrite Hbits by done. apply bit_of_past_end. rewrite <- Hsz. done.
    + intros j Hj. rewrite Hbits by lia. apply (bits_before_full ws i); [done..|].
      rewrite Hlast. lia.
  - assert (i < length ws)%nat as Hlt by lia. destruct (Hnf Hlt) as (w & Hw & Hne).
    rewrite Hw. simpl.
    destruct (set_lowest_zero bm ws i w) as (p & Hp & Hc & Hp0 & Hp1 & Hr' & Hb'); [done..|].
    rewrite Hc. simpl. eexists _, _, _. split_and!; [done| | | | |].
    + split; cbn [bitmap array_size max_size].
      * reflexivity.
      * by rewrite length_insert.
      * exact Hr'.
      * exact Hint.
      * exact Hmax.
    + bm_unfold. lia.
    + rewrite Hbits by (bm_unfold; lia). done.
    + intros j Hj. rewrite Hbits by lia. by apply Hp1.
    + intros j. unfold bits. simpl. rewrite Hws.
      destruct (decide (0 ≤ j)).
      * rewrite bool_decide_true by done. by apply Hb'.
      * rewrite bool_decide_false by done. symmetry. rewrite orb_false_r.
        apply Z.eqb_neq. bm_unfold. lia.
Qed.

(** ** Counting bits *)

(** Reference: the number of set bits of a 64-bit word. *)
Definition popcount (w : Z) : Z := Z.of_nat (length (List.filter (Z.testbit w) (seqZ 0 64))).

Definition words_popcount (ws : list Z) : Z := foldr (λ w n, popcount w + n) 0 ws.

(** [v &= v - 1] clears the lowest set bit. *)
Lemma clear_lowest n : ∀ v,
  0 < v < 2 ^ Z.of_nat n →
  ∃ p, 0 ≤ p < Z.of_nat n ∧ Z.testbit v p = true ∧
    ∀ i, 0 ≤ i → Z.testbit (Z.land v (v - 1)) i = negb (i =? p) && Z.testbit v i.
Proof.
  induction n as [|n IH]; intros v Hv; [change (2 ^ Z.of_nat 0) with 1 in Hv; lia|].
  rewrite Nat2Z.inj_succ, Z.pow_succ_r in Hv by lia.
  pose proof (Z.div2_odd v) as E. set (k := Z.div2 v) in *. destruct (Z.odd v) eqn:Hodd.
  - exists 0. assert (v - 1 = 2 * k + Z.b2z false) as E' by (simpl in *; lia).
    split_and!; [lia|lia|by rewrite Z.bit0_odd|]. intros i Hi.
    rewrite Z.land_spec, E', E, !testbit_2k_1 by done.
    destruct (Z.eqb_spec i 0); simpl; [done|]. apply andb_diag.
  - destruct (IH k) as (p & Hp & Hpt & Hb); [simpl in *; lia|].
    exists (p + 1). assert (v - 1 = 2 * (k - 1) + Z.b2z true) as E' by (simpl in *; lia).
    split_and!; [lia|lia| |].
    + rewrite E, testbit_2k_1 by lia. destruct (Z.eqb_spec (p + 1) 0); [lia|].
      by replace (p + 1 - 1) with p by lia.
    + intros i Hi. rewrite Z.land_spec, E', E, !testbit_2k_1 by done.
      destruct (Z.eqb_spec i 0) as [->|Hi0]; [by rewrite andb_false_r|].
      rewrite <- Z.land_spec, Hb by lia. f_equal. f_equal.
      apply eq_true_iff_eq. rewrite !Z.eqb_eq. lia.
Qed.

Lemma popcount_clear v v' p :
  0 ≤ p < 64 → Z.testbit v p = true →
  (∀ i, 0 ≤ i → Z.testbit v' i = negb (i =? p) && Z.testbit v i) →
  popcount v = popcount v' + 1.
Proof.
  intros Hp Hv Hb. unfold popcount.
  rewrite (length_filter_except (Z.testbit v) (Z.testbit v') p); [lia|apply NoDup_seqZ| |done|].
  - apply elem_of_seqZ. lia.
  - intros y Hy. apply elem_of_seqZ in Hy. rewrite Hb by lia. f_equal. f_equal.
    apply eq_true_iff_eq. by rewrite Z.eqb_eq, bool_decide_eq_true.
Qed.

Lemma popcount_range w : 0 ≤ popcount w ≤ 64.
Proof.
  unfold popcount. pose proof (List.filter_length_le (Z.testbit w) (seqZ 0 64)).
  rewrite length_seqZ in *. lia.
Qed.

Lemma popcount_0 : popcount 0 = 0.
Proof. reflexivity. Qed.

(** The counting loop runs once per set bit and returns their number. *)
Lemma wegner_count_spec fuel v :
  word_ok v → popcount v ≤ Z.of_nat fuel → wegner_count fuel v = Some (popcount v).
Proof.
  revert v. induction fuel as [|fuel IH]; intros v Hv Hp; simpl;
    destruct (Z.eqb_spec v 0) as [->|Hne]; try done.
  - exfalso. destruct (clear_lowest 64 v) as (p & Hp' & Hv' & Hb); [unfold word_ok in Hv; lia|].
    pose proof (popcount_clear v _ p Hp' Hv' Hb). pose proof (popcount_range (Z.land v (v - 1))). lia.
  - destruct (clear_lowest 64 v) as (p & Hp' & Hv' & Hb); [unfold word_ok in Hv; lia|].
    pose proof (popcount_clear v _ p Hp' Hv' Hb) as Hc.
    rewrite IH; [simpl; f_equal; lia| |lia].
    apply word_ok_land; [done|]. unfold word_ok in Hv. lia.
Qed.

#[local] Arguments wegner_count : simpl never.

(** [opal_bitmap_num_set_bits] terminates and returns the number of set
    bits of the first [len] {i words}, for any [len] up to [array_size]; past
    that it reads outside the array.  (The header documents [len] as a number
    of bits.) *)
Theorem num_set_bits_spec bm ws len :
  wf bm ws → 0 ≤ len →
  opal_bitmap_num_set_bits bm len =
    if decide (len ≤ array_size bm) then Some (words_popcount (take (Z.to_nat len) ws)) else None.
Proof.
  intros [Hws Hsz Hr Hint Hmax] Hlen. unfold opal_bitmap_num_set_bits. rewrite Hws. simpl.
  assert (∀ n, num_set_bits_from ws n =
     if decide (n ≤ length ws)%nat then Some (words_popcount (take n ws)) else None) as Hn.
  { clear -Hr. induction Hr as [|w ws Hw Hr IH]; intros [|n]; simpl; try done.
    rewrite wegner_count_spec; [|done|apply popcount_range]. simpl. rewrite IH.
    repeat case_decide; simpl; try lia; done. }
  case_bool_decide as Hl.
  - assert (len = 0) as -> by lia. rewrite decide_True by lia. done.
  - rewrite Hn. repeat case_decide; try lia; done.
Qed.

(** Three words with one bit each, and their bit count through the C function. *)
Definition example_bitmap : opal_bitmap_t := mk_bitmap (Some [1; 2; 4]) 3 INT_MAX.

Lemma example_wf : wf example_bitmap [1; 2; 4].
Proof.
  split; [done|done| |vm_compute; done|vm_compute; split; done].
  repeat constructor; done.
Qed.

Lemma num_set_bits_witness :
  opal_bitmap_num_set_bits example_bitmap 3 = Some 3 ∧
  opal_bitmap_num_set_bits example_bitmap 64 = None.
Proof.
  split.
  - exact (num_set_bits_spec example_bitmap _ 3 example_wf ltac:(lia)).
  - exact (num_set_bits_spec example_bitmap _ 64 example_wf ltac:(lia)).
Defined.

Lemma find_and_set_first_unset_bit_witness : ∃ bm',
  opal_bitmap_find_and_set_first_unset_bit true example_bitmap = Some (OPAL_SUCCESS, 1, bm').
Proof.
  destruct (find_and_set_first_unset_bit_spec example_bitmap _ example_wf)
    as (pos & bm' & ws' & E & _); [vm_compute; done..|].
  exists bm'. vm_compute in E |- *. by injection E as <- <-.
Defined.

(** ** The bitmap as a set of integers *)

Inductive bm_op := BmSet (bit : Z) | BmClear (bit : Z) | BmTest (bit : Z).

Fixpoint run_bitmap (bm : opal_bitmap_t) (ops : list bm_op) : option (list (Z + bool)) :=
  match ops with
  | [] => Some []
  | BmSet b :: ops => '(st, bm') ← opal_bitmap_set_bit true bm b; cons (inl st) <$> run_bitmap bm' ops
  | BmClear b :: ops => '(st, bm') ← opal_bitmap_clear_bit bm b; cons (inl st) <$> run_bitmap bm' ops
  | BmTest b :: ops => x ← opal_bitmap_is_set_bit bm b; cons (inr x) <$> run_bitmap bm ops
  end.

(** A set with a capacity in bits, which setting a bit extends and clearing a
    bit must stay below. *)
Fixpoint run_set (mx : Z) (S : gset Z) (cap : Z) (ops : list bm_op) : list (Z + bool) :=
  match ops with
  | [] => []
  | BmSet b :: ops =>
      if decide (0 ≤ b ≤ mx)
      then inl OPAL_SUCCESS :: run_set mx ({[b]} ∪ S) (Z.max cap ((b / 64 + 1) * 64)) ops
      else inl OPAL_ERR_BAD_PARAM :: run_set mx S cap ops
  | BmClear b :: ops =>
      if decide (0 ≤ b < cap)
      then inl OPAL_SUCCESS :: run_set mx (S ∖ {[b]}) cap ops
      else inl OPAL_ERR_BAD_PARAM :: run_set mx S cap ops
  | BmTest b :: ops => inr (bool_decide (b ∈ S)) :: run_set mx S cap ops
  end.

(** The word of the bit is addressed without overflow of [int]. *)
Definition bm_op_ok (op : bm_op) : Prop :=
  match op with BmSet b => (b / 64 + 1) * 64 ≤ INT_MAX | _ => True end.

Lemma run_bitmap_refines ops : ∀ bm ws S,
  wf bm ws → (∀ i, bits bm i = bool_decide (i ∈ S)) → Forall bm_op_ok ops →
  run_bitmap bm ops = Some (run_set (max_size bm) S (array_size bm * 64) ops).
Proof.
  induction ops as [|op ops IH]; intros bm ws S Hwf Hbits Hok; [done|].
  apply Forall_cons in Hok as [Hop Hok]. destruct op as [b|b|b]; cbn [run_bitmap run_set].
  - case_decide as Hb.
    + destruct (set_bit_ok bm ws b Hwf Hb Hop) as (bm' & ws' & -> & Hwf' & Ha & Hm & Hb'). run.
      rewrite (IH bm' ws' ({[b]} ∪ S) Hwf'); [|intros i|done].
      * rewrite Hm, Ha. unfold SIZE_OF_BASE_TYPE.
        by replace (Z.max (array_size bm) (b / 64 + 1) * 64)
          with (Z.max (array_size bm * 64) ((b / 64 + 1) * 64)) by lia.
      * rewrite Hb', Hbits. apply eq_true_iff_eq. rewrite orb_true_iff, !bool_decide_eq_true, Z.eqb_eq. set_solver.
    + unfold opal_bitmap_set_bit. replace (bool_decide (b < 0) || bool_decide (max_size bm < b)) with true.
      2: { symmetry. rewrite orb_true_iff, !bool_decide_eq_true. lia. }
      run. by rewrite (IH bm ws S).
  - destruct (clear_bit_spec bm ws b Hwf) as [Hc1 Hc2]. case_decide as Hb.
    + destruct (Hc1 Hb) as (bm' & ws' & E & Hwf' & Hb'). rewrite E. run.
      assert (array_size bm' = array_size bm ∧ max_size bm' = max_size bm) as [<- <-].
      { clear -E. unfold opal_bitmap_clear_bit in E. destruct (cint _); [|done]. revert E. run.
        destruct (_ || _); [intros; by simplify_eq|]. destruct (bitmap bm) as [l|]; [|done]. run.
        destruct (l !! _); [|done]. run. intros; by simplify_eq. }
      rewrite (IH bm' ws' (S ∖ {[b]}) Hwf'); [done|intros i|done].
      rewrite Hb', Hbits. apply eq_true_iff_eq.
      rewrite andb_true_iff, negb_true_iff, !bool_decide_eq_true, Z.eqb_neq. set_solver.
    + rewrite (Hc2 Hb). run. by rewrite (IH bm ws S).
  - rewrite (is_set_bit_spec bm ws b Hwf). run. rewrite (IH bm ws S), Hbits; done.
Qed.

Lemma words_for_int n : 0 < n ≤ INT_MAX → words_for n = (n + 63) / 64.
Proof.
  intros Hn. bm_unfold. unfold words_for, SIZE_OF_BASE_TYPE.
  rewrite (wrap_small 64 n), wrap_small by lia. replace (n + 64 - 1) with (n + 63) by lia.
  apply swrap_small; [lia|].
  assert (0 ≤ (n + 63) / 64) by (apply Z.div_pos; lia).
  assert ((n + 63) / 64 < 2 ^ 31) by (apply Z.div_lt_upper_bound; lia).
  change (2 ^ (32 - 1)) with (2 ^ 31). lia.
Qed.

(** A fresh bitmap of [size] bits is the empty set, whatever [malloc] returned. *)
Lemma init_wf fresh size :
  0 < size → size + 63 ≤ INT_MAX →
  ∃ bm ws, opal_bitmap_init true fresh opal_bitmap_construct size = Some (OPAL_SUCCESS, bm) ∧
    wf bm ws ∧ (∀ i, bits bm i = false) ∧ array_size bm = (size + 63) / 64 ∧ max_size bm = INT_MAX.
Proof.
  intros Hs Hmax. set (n := (size + 63) / 64). assert (0 < n) as Hn by (apply Z.div_str_pos; lia).
  assert (n * 64 ≤ INT_MAX) as Hn64 by (pose proof (Z.mul_div_le (size + 63) 64); lia).
  unfold opal_bitmap_init, opal_bitmap_construct. cbn [max_size bitmap].
  rewrite !bool_decide_false by lia. cbn [orb]. rewrite words_for_int by lia. fold n.
  unfold opal_bitmap_clear_all_bits. cbn [bitmap array_size max_size]. run.
  rewrite length_fmap, length_seq, bool_decide_true by lia.
  rewrite drop_ge, app_nil_r by (rewrite length_fmap, length_seq; lia).
  eexists _, (replicate (Z.to_nat n) 0). split; [done|]. split_and!; [|intros i|done|done].
  - split; cbn [bitmap array_size max_size].
    + done.
    + rewrite length_replicate. lia.
    + apply Forall_replicate. unfold word_ok. lia.
    + exact Hn64.
    + bm_unfold. lia.
  - unfold bits. cbn [bitmap]. unfold bit_of. destruct (replicate _ _ !! _) as [w|] eqn:E.
    + apply lookup_replicate in E as [-> _]. by rewrite Z.bits_0, andb_false_r.
    + by rewrite andb_false_r.
Qed.

(** C33: any sequence of set, clear and test operations on an initialised bitmap
    returns what the same sequence returns on a set of integers with a
    capacity, error statuses included; the bitmap never accesses memory
    outside its array. *)
Theorem bitmap_refines_set fresh size ops :
  0 < size → size + 63 ≤ INT_MAX → Forall bm_op_ok ops →
  ('(_, bm) ← opal_bitmap_init true fresh opal_bitmap_construct size; run_bitmap bm ops) =
    Some (run_set INT_MAX ∅ ((size + 63) / 64 * 64) ops).
Proof.
  intros Hs Hmax Hok. destruct (init_wf fresh size Hs Hmax) as (bm & ws & -> & Hwf & Hb & Ha & Hm). run.
  rewrite (run_bitmap_refines ops bm ws ∅ Hwf); [by rewrite Ha, Hm| |done].
  intros i. rewrite Hb. symmetry. apply bool_decide_false. set_solver.
Qed.

Lemma bitmap_refines_witness :
  ('(_, bm) ← opal_bitmap_init true (λ _, 17) opal_bitmap_construct 32;
   run_bitmap bm [BmSet 3; BmSet 200; BmTest 3; BmTest 4; BmClear 3; BmTest 3; BmClear 256; BmSet (-1); BmTest 200])
  = Some [inl OPAL_SUCCESS; inl OPAL_SUCCESS; inr true; inr false; inl OPAL_SUCCESS; inr false;
          inl OPAL_ERR_BAD_PARAM; inl OPAL_ERR_BAD_PARAM; inr true].
Proof.
  rewrite (bitmap_refines_set (λ _, 17) 32); [vm_compute; reflexivity|lia|vm_compute; congruence|].
  repeat constructor; vm_compute; congruence.
Defined.

End OpalBitmap.
