(* ===== verification/PgTable.v ===== *)
(** * The UCS page table ([ucs/datastruct/pgtable.c])

    A radix tree over 64-bit addresses with 16-way directories and
    variable-size pages, used by the registration and memory-type caches to
    map addresses to regions.

    The tree is held by value: a directory is reachable from one entry only,
    so writing through [pgd->entries] is an update of the tree.  The tag bits
    of [ucs_pgt_entry_t.value] are the constructors of [ucs_pgt_entry_t]; the
    directory allocation callback never returns NULL to the algorithm
    ([ucs_pgt_dir_alloc] aborts), so allocation is an empty directory.
    [unsigned] shifts, orders and directory counts stay in range by the
    invariant of [PgTableInv]; addresses and [num_regions] wrap explicitly. *)

From stdpp Require Import base numbers list.
From S2P Require Import Prelude.

Local Open Scope Z_scope.
Local Open Scope c_scope.

Module PgTable.

Definition UCS_PGT_ADDR_SHIFT : Z := 4.
Definition UCS_PGT_ADDR_ALIGN : Z := Z.shiftl 1 UCS_PGT_ADDR_SHIFT.
Definition UCS_PGT_ADDR_ORDER : Z := 64.
Definition UCS_PGT_ENTRY_SHIFT : Z := 4.
Definition UCS_PGT_ENTRIES_PER_DIR : Z := Z.shiftl 1 UCS_PGT_ENTRY_SHIFT.
Definition UCS_PGT_ENTRY_MASK : Z := UCS_PGT_ENTRIES_PER_DIR - 1.

Inductive ucs_status_t := UCS_OK | UCS_ERR_ALREADY_EXISTS | UCS_ERR_NO_ELEM | UCS_ERR_INVALID_PARAM.

#[global] Instance ucs_status_eq_dec : EqDecision ucs_status_t.
Proof. solve_decision. Defined.

(** [r_ptr] is the address of the [ucs_pgt_region_t] object: regions are
    compared by pointer. *)
Record ucs_pgt_region_t := mk_region {
  r_ptr : Z;
  r_start : Z;
  r_end : Z;
}.

#[global] Instance ucs_pgt_region_eq_dec : EqDecision ucs_pgt_region_t.
Proof. solve_decision. Defined.

Inductive ucs_pgt_entry_t :=
| PteEmpty
| PteRegion (region : ucs_pgt_region_t)
| PteDir (entries : list ucs_pgt_entry_t) (count : Z).

Definition ucs_pgt_entry_present (pte : ucs_pgt_entry_t) : bool :=
  match pte with PteEmpty => false | _ => true end.

Record ucs_pgtable_t := mk_pgtable {
  root : ucs_pgt_entry_t;
  base : Z;
  mask : Z;
  shift : Z;
  num_regions : Z;
}.

Definition ucs_pgt_is_addr_aligned (addr : Z) : bool :=
  Z.land addr (UCS_PGT_ADDR_ALIGN - 1) =? 0.

Definition ucs_pgt_address_advance (address order : Z) : option Z :=
  safe (order <? 64);
  Some (wrap 64 (address + Z.shiftl 1 order)).

(** [&pgd->entries[(address >> shift) & UCS_PGT_ENTRY_MASK]] *)
Definition entry_index (address shift : Z) : nat :=
  Z.to_nat (Z.land (Z.shiftr address shift) UCS_PGT_ENTRY_MASK).

Definition ucs_pgtable_reset (t : ucs_pgtable_t) : ucs_pgtable_t :=
  mk_pgtable (root t) 0 (wrap 64 (Z.shiftl (2 ^ 64 - 1) UCS_PGT_ADDR_SHIFT))
             UCS_PGT_ADDR_SHIFT (num_regions t).

Definition ucs_pgtable_init : ucs_pgtable_t :=
  ucs_pgtable_reset (mk_pgtable PteEmpty 0 0 0 0).

Definition empty_dir : list ucs_pgt_entry_t :=
  replicate (Z.to_nat UCS_PGT_ENTRIES_PER_DIR) PteEmpty.

Definition ucs_pgtable_expand (t : ucs_pgtable_t) : option ucs_pgtable_t :=
  safe (shift t <=? UCS_PGT_ADDR_ORDER - UCS_PGT_ENTRY_SHIFT);
  let root' :=
    if ucs_pgt_entry_present (root t)
    then PteDir (<[entry_index (base t) (shift t) := root t]> empty_dir) 1
    else root t in
  let shift' := shift t + UCS_PGT_ENTRY_SHIFT in
  let mask' := wrap 64 (Z.shiftl (mask t) UCS_PGT_ENTRY_SHIFT) in
  Some (mk_pgtable root' (Z.land (base t) mask') mask' shift' (num_regions t)).

(** The first present entry of a directory; [None] when there is none (the
    loop would run past the array). *)
Fixpoint first_present (es : list ucs_pgt_entry_t) : option (nat * ucs_pgt_entry_t) :=
  match es with
  | [] => None
  | e :: es' => if ucs_pgt_entry_present e then Some (O, e)
                else '(i, e') ← first_present es'; Some (S i, e')
  end.

(** Returns whether the table shrank, and the table. *)
Definition ucs_pgtable_shrink (t : ucs_pgtable_t) : option (bool * ucs_pgtable_t) :=
  match root t with
  | PteEmpty => Some (false, ucs_pgtable_reset t)
  | PteRegion _ => Some (false, t)
  | PteDir entries count =>
      safe (0 <? count);
      if negb (count =? 1) then Some (false, t)
      else
        '(pte_idx, pte) ← first_present entries;
        let shift' := shift t - UCS_PGT_ENTRY_SHIFT in
        Some (true,
              mk_pgtable pte
                (Z.lor (base t) (wrap 64 (Z.shiftl (Z.of_nat pte_idx) shift')))
                (Z.lor (mask t) (wrap 64 (Z.shiftl UCS_PGT_ENTRY_MASK shift')))
                shift' (num_regions t))
  end.

(** [while (ucs_pgtable_shrink(pgtable));]  A table has at most 16 levels. *)
Fixpoint shrink_all (fuel : nat) (t : ucs_pgtable_t) : option ucs_pgtable_t :=
  match fuel with
  | O => None
  | S f => '(shrank, t') ← ucs_pgtable_shrink t;
           if (shrank : bool) then shrink_all f t' else Some t'
  end.

Definition levels : nat := 17.
#[global] Arguments levels : simpl never.

(** Instruction [bsf]: the number of trailing zero bits of a non-zero word. *)
Definition ucs_ffs64 (n : Z) : Z := Z.log2 (Z.land n (- n)).
(** Instruction [bsr]: the number of the highest set bit. *)
Definition ucs_ilog2 (n : Z) : Z := Z.log2 n.

(** The two assertions on a page. *)
Definition ucs_pgtable_check_page (address order : Z) : bool :=
  (Z.land address (wrap 64 (Z.shiftl 1 order) - 1) =? 0)
  && (wrap 32 (order - UCS_PGT_ADDR_SHIFT) mod UCS_PGT_ENTRY_SHIFT =? 0).

Definition ucs_pgtable_get_next_page_order (start end_ : Z) : option Z :=
  safe (ucs_pgt_is_addr_aligned start && ucs_pgt_is_addr_aligned end_);
  let log2_len :=
    if (end_ =? 0) && (start =? 0) then UCS_PGT_ADDR_ORDER
    else if end_ =? start then UCS_PGT_ADDR_SHIFT
    else
      let l := ucs_ilog2 (wrap 64 (end_ - start)) in
      if start =? 0 then l else Z.min (ucs_ffs64 start) l in
  safe ((UCS_PGT_ADDR_SHIFT <=? log2_len) && (log2_len <=? UCS_PGT_ADDR_ORDER));
  Some (((log2_len - UCS_PGT_ADDR_SHIFT) / UCS_PGT_ENTRY_SHIFT) * UCS_PGT_ENTRY_SHIFT
          + UCS_PGT_ADDR_SHIFT).

(** [while (pgtable->shift < order) ucs_pgtable_expand(pgtable);] *)
Fixpoint expand_to_order (fuel : nat) (order : Z) (t : ucs_pgtable_t) : option ucs_pgtable_t :=
  match fuel with
  | O => None
  | S f => if shift t <? order then t' ← ucs_pgtable_expand t; expand_to_order f order t' else Some t
  end.

(** [while ((address & pgtable->mask) != pgtable->base) ucs_pgtable_expand(pgtable);] *)
Fixpoint expand_to_address (fuel : nat) (address : Z) (t : ucs_pgtable_t) : option ucs_pgtable_t :=
  match fuel with
  | O => None
  | S f => if negb (Z.land address (mask t) =? base t)
           then t' ← ucs_pgtable_expand t; expand_to_address f address t' else Some t
  end.

(** The [while (1)] descent of [ucs_pgtable_insert_page] below one entry.
    The third result is what the iteration adds to the count of the directory
    that holds the entry ([++pgd->count]). *)
Fixpoint insert_descend (fuel : nat) (address order : Z) (region : ucs_pgt_region_t)
    (shift : Z) (pte : ucs_pgt_entry_t) : option (ucs_status_t * ucs_pgt_entry_t * Z) :=
  match fuel with
  | O => None
  | S f =>
      if order =? shift then
        if ucs_pgt_entry_present pte then Some (UCS_ERR_ALREADY_EXISTS, pte, 0)
        else Some (UCS_OK, PteRegion region, 1)
      else
        match pte with
        | PteRegion _ => Some (UCS_ERR_ALREADY_EXISTS, pte, 0)
        | _ =>
            safe (UCS_PGT_ENTRY_SHIFT + order <=? shift);
            let '(entries, count, inc) :=
              match pte with PteDir es c => (es, c, 0) | _ => (empty_dir, 0, 1) end in
            let shift' := shift - UCS_PGT_ENTRY_SHIFT in
            let idx := entry_index address shift' in
            sub ← entries !! idx;
            '(status, sub', sub_inc) ← insert_descend f address order region shift' sub;
            Some (status, PteDir (<[idx := sub']> entries) (count + sub_inc), inc)
        end
  end.

Definition set_root (t : ucs_pgtable_t) (pte : ucs_pgt_entry_t) : ucs_pgtable_t :=
  mk_pgtable pte (base t) (mask t) (shift t) (num_regions t).

Definition ucs_pgtable_insert_page (t : ucs_pgtable_t) (address order : Z)
    (region : ucs_pgt_region_t) : option (ucs_status_t * ucs_pgtable_t) :=
  safe (ucs_pgtable_check_page address order);
  t1 ← expand_to_order levels order t;
  t2 ← (if ucs_pgt_entry_present (root t1) then expand_to_address levels address t1
        else Some (mk_pgtable (root t1) (Z.land address (mask t1)) (mask t1) (shift t1)
                              (num_regions t1)));
  '(status, root', _) ← insert_descend levels address order region (shift t2) (root t2);
  let t3 := set_root t2 root' in
  if decide (status = UCS_OK) then Some (UCS_OK, t3)
  else t4 ← shrink_all levels t3; Some (UCS_ERR_ALREADY_EXISTS, t4).

(** The third result is what the call subtracts from [pgd->count]. *)
Fixpoint ucs_pgtable_remove_page_recurs (fuel : nat) (address order : Z)
    (region : ucs_pgt_region_t) (shift : Z) (pte : ucs_pgt_entry_t)
    : option (ucs_status_t * ucs_pgt_entry_t * Z) :=
  match fuel with
  | O => None
  | S f =>
      match pte with
      | PteRegion r =>
          safe (shift =? order);
          if negb (r_ptr r =? r_ptr region) then Some (UCS_ERR_NO_ELEM, pte, 0)
          else Some (UCS_OK, PteEmpty, 1)
      | PteDir entries count =>
          let next_shift := shift - UCS_PGT_ENTRY_SHIFT in
          let idx := entry_index address next_shift in
          next_pte ← entries !! idx;
          '(status, next_pte', dec) ←
             ucs_pgtable_remove_page_recurs f address order region next_shift next_pte;
          let entries' := <[idx := next_pte']> entries in
          let count' := count - dec in
          if decide (status = UCS_OK) then
            if count' =? 0 then Some (UCS_OK, PteEmpty, 1)
            else Some (UCS_OK, PteDir entries' count', 0)
          else Some (UCS_ERR_NO_ELEM, PteDir entries' count', 0)
      | PteEmpty => Some (UCS_ERR_NO_ELEM, pte, 0)
      end
  end.

Definition ucs_pgtable_remove_page (t : ucs_pgtable_t) (address order : Z)
    (region : ucs_pgt_region_t) : option (ucs_status_t * ucs_pgtable_t) :=
  safe (ucs_pgtable_check_page address order);
  if negb (Z.land address (mask t) =? base t) then Some (UCS_ERR_NO_ELEM, t)
  else
    '(status, root', _) ←
       ucs_pgtable_remove_page_recurs levels address order region (shift t) (root t);
    let t1 := set_root t root' in
    if decide (status = UCS_OK) then t2 ← shrink_all levels t1; Some (UCS_OK, t2)
    else Some (status, t1).

(** Loop bodies: [None] is an undefined access or a failed assertion in the body. *)
Abbreviation page_state := (Z * ucs_pgtable_t)%type.

Definition body {S R : Type} (x : option (S + R)) : S + option R :=
  match x with
  | Some (inl s) => inl s
  | Some (inr r) => inr (Some r)
  | None => inr None
  end.

(** [while (address < end)] of [ucs_pgtable_insert]; stops with the status and
    the address reached. *)
Definition insert_step (region : ucs_pgt_region_t) (end_ : Z) (s : page_state)
    : page_state + option (ucs_status_t * Z * ucs_pgtable_t) :=
  let '(address, t) := s in
  body (if address <? end_ then
          order ← ucs_pgtable_get_next_page_order address end_;
          '(status, t') ← ucs_pgtable_insert_page t address order region;
          if decide (status = UCS_OK)
          then address' ← ucs_pgt_address_advance address order; Some (inl (address', t'))
          else Some (inr (status, address, t'))
        else Some (inr (UCS_OK, address, t))).

(** The revert loop: removes the pages inserted so far, ignoring statuses. *)
Definition revert_step (region : ucs_pgt_region_t) (end_ : Z) (s : page_state)
    : page_state + option ucs_pgtable_t :=
  let '(address, t) := s in
  body (if address <? end_ then
          order ← ucs_pgtable_get_next_page_order address end_;
          '(_, t') ← ucs_pgtable_remove_page t address order region;
          address' ← ucs_pgt_address_advance address order;
          Some (inl (address', t'))
        else Some (inr t)).

(** The outcome of a page loop; [None] also when the fuel runs out. *)
Definition loop_result {S R : Type} (x : S + option R) : option R :=
  match x with inl _ => None | inr r => r end.

Definition set_num_regions (t : ucs_pgtable_t) (n : Z) : ucs_pgtable_t :=
  mk_pgtable (root t) (base t) (mask t) (shift t) n.

Definition bad_range (region : ucs_pgt_region_t) : bool :=
  (r_end region <=? r_start region)
  || negb (ucs_pgt_is_addr_aligned (r_start region))
  || negb (ucs_pgt_is_addr_aligned (r_end region)).

Definition ucs_pgtable_insert (t : ucs_pgtable_t) (region : ucs_pgt_region_t)
    : option (ucs_status_t * ucs_pgtable_t) :=
  if bad_range region then Some (UCS_ERR_INVALID_PARAM, t)
  else
    '(status, address, t') ←
       loop_result (loop (insert_step region (r_end region)) 64 (r_start region, t));
    if decide (status = UCS_OK)
    then Some (UCS_OK, set_num_regions t' (wrap 32 (num_regions t' + 1)))
    else
      t'' ← loop_result (loop (revert_step region address) 64 (r_start region, t'));
      Some (status, t'').

(** [while (address < end)] of [ucs_pgtable_remove]; a region cannot be removed
    partially. *)
Definition remove_step (region : ucs_pgt_region_t) (end_ : Z) (s : page_state)
    : page_state + option (ucs_status_t * ucs_pgtable_t) :=
  let '(address, t) := s in
  body (if address <? end_ then
          order ← ucs_pgtable_get_next_page_order address end_;
          '(status, t') ← ucs_pgtable_remove_page t address order region;
          if decide (status = UCS_OK)
          then address' ← ucs_pgt_address_advance address order; Some (inl (address', t'))
          else safe (address =? r_start region); Some (inr (status, t'))
        else Some (inr (UCS_OK, t))).

Definition ucs_pgtable_remove (t : ucs_pgtable_t) (region : ucs_pgt_region_t)
    : option (ucs_status_t * ucs_pgtable_t) :=
  if bad_range region then Some (UCS_ERR_NO_ELEM, t)
  else
    '(status, t') ←
       loop_result (loop (remove_step region (r_end region)) 64 (r_start region, t));
    if decide (status = UCS_OK) then
      safe (0 <? num_regions t');
      Some (UCS_OK, set_num_regions t' (wrap 32 (num_regions t' - 1)))
    else Some (status, t').

(** The [for (;;)] descent of [ucs_pgtable_lookup]. *)
Fixpoint lookup_descend (fuel : nat) (address shift : Z) (pte : ucs_pgt_entry_t)
    : option (option ucs_pgt_region_t) :=
  match fuel with
  | O => None
  | S f =>
      match pte with
      | PteRegion region =>
          safe ((r_start region <=? address) && (address <? r_end region));
          Some (Some region)
      | PteDir entries _ =>
          let shift' := shift - UCS_PGT_ENTRY_SHIFT in
          sub ← entries !! entry_index address shift';
          lookup_descend f address shift' sub
      | PteEmpty => Some None
      end
  end.

Definition ucs_pgtable_lookup (t : ucs_pgtable_t) (address : Z)
    : option (option ucs_pgt_region_t) :=
  if negb (Z.land address (mask t) =? base t) then Some None
  else lookup_descend levels address (shift t) (root t).

(** The calls the search makes to the callback, oldest first, and [*last_p]. *)
Abbreviation search_state := (list ucs_pgt_region_t * option ucs_pgt_region_t)%type.

Definition same_region (last : option ucs_pgt_region_t) (region : ucs_pgt_region_t) : bool :=
  match last with Some l => r_ptr l =? r_ptr region | None => false end.

(** [UCS_MASK(order)] *)
Definition UCS_MASK (order : Z) : Z := if 64 <=? order then 2 ^ 64 - 1 else 2 ^ order - 1.

(** The assertions on a region that is reported: it follows the last one, and
    meets the page that is searched. *)
Definition search_checks (last : option ucs_pgt_region_t) (address order : Z)
    (region : ucs_pgt_region_t) : bool :=
  match last with Some l => r_end l <=? r_start region | None => true end
  && (Z.max (r_start region) address <=?
      Z.min (wrap 64 (r_end region - 1)) (wrap 64 (address + UCS_MASK order))).

Fixpoint ucs_pgtable_search_recurs (fuel : nat) (address order shift : Z)
    (pte : ucs_pgt_entry_t) (st : search_state) : option search_state :=
  match fuel with
  | O => None
  | S f =>
      match pte with
      | PteRegion region =>
          if same_region (snd st) region then Some st
          else
            safe (search_checks (snd st) address order region);
            Some (fst st ++ [region], Some region)
      | PteDir entries _ =>
          safe (UCS_PGT_ENTRY_SHIFT <=? shift);
          let next_shift := shift - UCS_PGT_ENTRY_SHIFT in
          if order <? shift then
            safe (order <=? next_shift);
            next_pte ← entries !! entry_index address next_shift;
            ucs_pgtable_search_recurs f address order next_shift next_pte st
          else
            foldl (λ acc e, st' ← acc;
                            ucs_pgtable_search_recurs f address order next_shift e st')
                  (Some st) entries
      | PteEmpty => Some st
      end
  end.

Definition search_step (t : ucs_pgtable_t) (end_ to : Z) (s : Z * search_state)
    : (Z * search_state) + option search_state :=
  let '(address, st) := s in
  body (if address <=? to then
          order ← ucs_pgtable_get_next_page_order address end_;
          st' ← (if Z.land address (mask t) =? base t
                 then ucs_pgtable_search_recurs levels address order (shift t) (root t) st
                 else Some st);
          if order =? UCS_PGT_ADDR_ORDER then Some (inr st')
          else address' ← ucs_pgt_address_advance address order; Some (inl (address', st'))
        else Some (inr st)).

Definition ucs_align_down_pow2 (n a : Z) : Z := Z.land n (wrap 64 (Z.lnot (a - 1))).
Definition ucs_align_up_pow2 (n a : Z) : Z := ucs_align_down_pow2 (wrap 64 (n + a - 1)) a.

(** Where the search starts and ends: the range, cut to the table if that covers
    only a part of the addresses. *)
Definition search_bounds (t : ucs_pgtable_t) (from to : Z) : option (Z * Z) :=
  let address := ucs_align_down_pow2 from UCS_PGT_ADDR_ALIGN in
  let end_ := ucs_align_up_pow2 to UCS_PGT_ADDR_ALIGN in
  if shift t <? 64
  then Some (Z.max address (base t), Z.min end_ (wrap 64 (base t + Z.shiftl 1 (shift t))))
  else safe (base t =? 0); Some (address, end_).

(** The regions passed to the callback, in order. *)
Definition ucs_pgtable_search_range (t : ucs_pgtable_t) (from to : Z)
    : option (list ucs_pgt_region_t) :=
  '(address, end_) ← search_bounds t from to;
  fst <$> loop_result (loop (search_step t end_ to) 64 (address, ([], None))).

(** The removal loop of [ucs_pgtable_purge]: the regions passed to the
    caller's callback, and the table. *)
Fixpoint purge_loop (all_regions : list ucs_pgt_region_t) (n : nat)
    (t : ucs_pgtable_t) : option ucs_pgtable_t :=
  match n with
  | O => Some t
  | S n' => match all_regions with
            | [] => None
            | region :: rest =>
                '(_, t') ← ucs_pgtable_remove t region; purge_loop rest n' t'
            end
  end.

(** The assertions at the end of [ucs_pgtable_purge]. *)
Definition purged (t : ucs_pgtable_t) : bool :=
  negb (ucs_pgt_entry_present (root t)) && (shift t =? UCS_PGT_ADDR_SHIFT)
  && (base t =? 0) && (num_regions t =? 0).

(** [alloc_ok]: whether [ucs_calloc] succeeds.  The search callback stores the
    regions in an array of [num_regions] entries, which is then full.  At level 15
    [1ul << shift] shifts by the width of the type, but [mask] is 0 there. *)
Definition ucs_pgtable_purge (alloc_ok : bool) (t : ucs_pgtable_t)
    : option (list ucs_pgt_region_t * ucs_pgtable_t) :=
  if num_regions t =? 0 then safe (purged t); Some ([], t)
  else if negb alloc_ok then Some ([], t)
  else
    let from := base t in
    let to := wrap 64 (base t + Z.land (wrap 64 (Z.shiftl 1 (shift t))) (mask t) - 1) in
    all_regions ← ucs_pgtable_search_range t from to;
    safe (Z.of_nat (length all_regions) =? num_regions t);
    t' ← purge_loop all_regions (Z.to_nat (num_regions t)) t;
    safe (purged t');
    Some (all_regions, t').

End PgTable.
