(* ===== verification/PgTableInv.v ===== *)
(** * Invariant and functional correctness of the UCS page table

    The tree invariant ([wf_pte], [wf_table]), the content of a table as a
    function from addresses to the region found there and the level of its
    page, and what each operation of [PgTable] does to that function. *)

From stdpp Require Import base numbers list.
From S2P Require Import Prelude PgTable.
Import PgTable.

Local Open Scope Z_scope.

Module PgTableInv.

(** ** Levels and blocks

    The entries of level [k] map blocks of [2 ^ ord k] bytes. *)

Definition ord (k : nat) : Z := 4 + 4 * Z.of_nat k.

Definition blk (k : nat) (a : Z) : Z := a / 2 ^ ord k.

Definition blk_start (k : nat) (a : Z) : Z := blk k a * 2 ^ ord k.

Definition mask_of (k : nat) : Z := 2 ^ 64 - 2 ^ ord k.

Definition addr_ok (a : Z) : Prop := 0 ≤ a < 2 ^ 64.

Lemma ord_pos k : 0 < 2 ^ ord k.
Proof. apply Z.pow_pos_nonneg; unfold ord; lia. Qed.
#[local] Hint Resolve ord_pos : core.

Lemma ord_S k : 2 ^ ord (S k) = 16 * 2 ^ ord k.
Proof.
  replace (ord (S k)) with (4 + ord k) by (unfold ord; lia).
  rewrite Z.pow_add_r by (unfold ord; lia). done.
Qed.

Lemma ord_le_64 k : (k ≤ 15)%nat → 2 ^ ord k ≤ 2 ^ 64.
Proof. intros. apply Z.pow_le_mono_r; unfold ord; lia. Qed.

Lemma ord_mono j k : (j ≤ k)%nat → 2 ^ ord j ≤ 2 ^ ord k.
Proof. intros. apply Z.pow_le_mono_r; unfold ord; lia. Qed.

Lemma ord_split j k : (j ≤ k)%nat → 2 ^ ord k = 2 ^ (ord k - ord j) * 2 ^ ord j.
Proof. intros. rewrite <- Z.pow_add_r by (unfold ord; lia). f_equal. lia. Qed.

(** Position of a block inside the block of the level above. *)
Definition idx (k : nat) (a : Z) : nat := Z.to_nat (blk k a `mod` 16).

Lemma blk_S k a : blk (S k) a = blk k a / 16.
Proof.
  pose proof (ord_pos k). unfold blk. rewrite ord_S, Z.mul_comm, <- Z.div_div by lia. done.
Qed.

Lemma idx_lt k a : (idx k a < 16)%nat.
Proof. unfold idx. pose proof (Z.mod_pos_bound (blk k a) 16). lia. Qed.

Lemma idx_eq k a b : blk (S k) a = blk (S k) b → idx k a = idx k b ↔ blk k a = blk k b.
Proof.
  rewrite !blk_S. intros E. unfold idx.
  pose proof (Z.mod_pos_bound (blk k a) 16). pose proof (Z.mod_pos_bound (blk k b) 16).
  pose proof (Z.div_mod (blk k a) 16 ltac:(lia)) as Ea.
  pose proof (Z.div_mod (blk k b) 16 ltac:(lia)) as Eb.
  split; intros; lia.
Qed.

Lemma blk_mono j k a b : (j ≤ k)%nat → blk j a = blk j b → blk k a = blk k b.
Proof.
  intros Hjk E. induction Hjk as [|k Hjk IH]; [done|]. by rewrite !blk_S, IH.
Qed.

Lemma blk_iff k a b : blk k a = b ↔ b * 2 ^ ord k ≤ a < b * 2 ^ ord k + 2 ^ ord k.
Proof.
  unfold blk. pose proof (ord_pos k). split.
  - intros <-. pose proof (Z.mod_pos_bound a (2 ^ ord k)).
    pose proof (Z.div_mod a (2 ^ ord k) ltac:(lia)). lia.
  - intros. symmetry. apply Z.div_unique with (a - b * 2 ^ ord k); lia.
Qed.

Lemma blk_start_le k a : blk_start k a ≤ a < blk_start k a + 2 ^ ord k.
Proof. unfold blk_start. by apply blk_iff. Qed.

Lemma blk_start_blk k a : blk k (blk_start k a) = blk k a.
Proof. apply blk_iff. unfold blk_start. pose proof (ord_pos k). lia. Qed.

(** ** The bit operations of the code, as arithmetic *)

Lemma entry_index_idx a k : entry_index a (ord k) = idx k a.
Proof.
  unfold entry_index, idx, blk. rewrite Z.shiftr_div_pow2 by (unfold ord; lia).
  change UCS_PGT_ENTRY_MASK with (Z.ones 4). rewrite Z.land_ones by lia. done.
Qed.

Lemma mask_bits k i :
  (k ≤ 15)%nat → 0 ≤ i < 64 → Z.testbit (mask_of k) i = bool_decide (ord k ≤ i).
Proof.
  intros Hk Hi. unfold mask_of.
  replace (2 ^ 64 - 2 ^ ord k) with (Z.shiftl (Z.ones (64 - ord k)) (ord k)).
  - destruct (decide (ord k ≤ i)).
    + rewrite bool_decide_true, Z.shiftl_spec, Z.ones_spec_low by lia. done.
    + rewrite bool_decide_false, Z.shiftl_spec_low by lia. done.
  - rewrite Z.shiftl_mul_pow2, Z.ones_equiv by (unfold ord; lia).
    assert (2 ^ 64 = 2 ^ (64 - ord k) * 2 ^ ord k) as ->; [|lia].
    rewrite <- Z.pow_add_r by (unfold ord; lia). f_equal. lia.
Qed.

Lemma land_mask a k : (k ≤ 15)%nat → addr_ok a → Z.land a (mask_of k) = blk_start k a.
Proof.
  intros Hk Ha. unfold blk_start, blk.
  rewrite <- Z.shiftr_div_pow2, <- Z.shiftl_mul_pow2 by (unfold ord; lia).
  apply Z.bits_inj'. intros i Hi. rewrite Z.land_spec.
  destruct (decide (i < 64)).
  - rewrite mask_bits by lia. case_bool_decide.
    + rewrite Z.shiftl_spec, Z.shiftr_spec, andb_true_r by lia. f_equal. lia.
    + by rewrite Z.shiftl_spec_low, andb_false_r by lia.
  - rewrite (testbit_high a 64) by (unfold addr_ok in Ha; lia).
    rewrite Z.shiftl_spec, Z.shiftr_spec by (unfold ord in *; lia).
    rewrite Z.sub_add, (testbit_high a 64) by (unfold addr_ok in Ha; lia). done.
Qed.

Lemma mask_shift k : (k < 15)%nat → wrap 64 (Z.shiftl (mask_of k) UCS_PGT_ENTRY_SHIFT) = mask_of (S k).
Proof.
  intros Hk. unfold wrap, mask_of. rewrite Z.shiftl_mul_pow2 by done.
  change (2 ^ UCS_PGT_ENTRY_SHIFT) with 16. pose proof (ord_pos (S k)).
  pose proof (ord_le_64 (S k) ltac:(lia)).
  replace ((2 ^ 64 - 2 ^ ord k) * 16) with ((2 ^ 64 - 2 ^ ord (S k)) + 15 * 2 ^ 64)
    by (rewrite ord_S; lia).
  rewrite Z.mod_add by lia. apply Z.mod_small. lia.
Qed.

Lemma mask_0 : mask_of 0 = wrap 64 (Z.shiftl (2 ^ 64 - 1) UCS_PGT_ADDR_SHIFT).
Proof. reflexivity. Qed.

Lemma shrink_base b i k :
  (k < 15)%nat → (i < 16)%nat → blk_start (S k) b = b → addr_ok b →
  Z.lor b (wrap 64 (Z.shiftl (Z.of_nat i) (ord k))) = b + Z.of_nat i * 2 ^ ord k.
Proof.
  intros Hk Hi Hb Hok. rewrite Z.shiftl_mul_pow2 by (unfold ord; lia).
  pose proof (ord_pos k). pose proof (ord_le_64 (S k) ltac:(lia)). rewrite ord_S in *.
  rewrite wrap_small by nia.
  apply (lor_add _ _ (ord (S k))); [unfold ord; lia| |rewrite ord_S; nia].
  rewrite <- Hb. unfold blk_start. apply Z.mod_mul. pose proof (ord_pos (S k)). lia.
Qed.

Lemma shrink_mask k :
  (k < 15)%nat → Z.lor (mask_of (S k)) (wrap 64 (Z.shiftl UCS_PGT_ENTRY_MASK (ord k))) = mask_of k.
Proof.
  intros Hk. rewrite Z.shiftl_mul_pow2 by (unfold ord; lia).
  change UCS_PGT_ENTRY_MASK with 15.
  pose proof (ord_pos k). pose proof (ord_le_64 (S k) ltac:(lia)). pose proof (ord_S k).
  rewrite wrap_small by nia.
  rewrite (lor_add _ _ (ord (S k))); [unfold mask_of; lia|unfold ord; lia| |nia].
  unfold mask_of. change (2 ^ 64) with (2 ^ ord 15). rewrite (ord_split (S k) 15) by lia.
  change (ord 15) with 64.
  replace (_ - 2 ^ ord (S k)) with ((2 ^ (64 - ord (S k)) - 1) * 2 ^ ord (S k)) by lia.
  apply Z.mod_mul. lia.
Qed.

(** ** Trees *)

Definition presentZ (e : ucs_pgt_entry_t) : Z := if ucs_pgt_entry_present e then 1 else 0.

Definition count_present (es : list ucs_pgt_entry_t) : Z := foldr (λ e n, presentZ e + n) 0 es.

(** A directory has 16 well-formed entries, its count is the number of
    present ones, and it is not empty. *)
Fixpoint wf_pte (k : nat) (pte : ucs_pgt_entry_t) : Prop :=
  match pte with
  | PteEmpty | PteRegion _ => True
  | PteDir es c =>
      match k with
      | O => False
      | S k' => length es = 16%nat ∧ Forall (wf_pte k') es ∧ c = count_present es ∧ 0 < c
      end
  end.

(** The region that maps an address below an entry of level [k], with the
    level of the page that maps it. *)
Fixpoint findl (k : nat) (pte : ucs_pgt_entry_t) (a : Z) : option (nat * ucs_pgt_region_t) :=
  match pte with
  | PteEmpty => None
  | PteRegion r => Some (k, r)
  | PteDir es _ =>
      match k with
      | O => None
      | S k' => es !! idx k' a ≫= λ e, findl k' e a
      end
  end.

Lemma wf_empty k : wf_pte k PteEmpty.
Proof. by destruct k. Qed.
Lemma wf_region k r : wf_pte k (PteRegion r).
Proof. by destruct k. Qed.
Lemma findl_empty k a : findl k PteEmpty a = None.
Proof. by destruct k. Qed.
Lemma findl_region k r a : findl k (PteRegion r) a = Some (k, r).
Proof. by destruct k. Qed.
#[local] Hint Resolve wf_empty wf_region : core.

Lemma findl_level k pte a j r : findl k pte a = Some (j, r) → (j ≤ k)%nat.
Proof.
  revert pte. induction k as [|k IH]; intros [|q|es c]; simpl; intros H; simplify_eq; try lia.
  destruct (es !! _); simplify_eq/=. apply IH in H. lia.
Qed.

(** The result depends on the address through its blocks below [k] only. *)
Lemma findl_blk k pte a b j r :
  findl k pte a = Some (j, r) → blk j a = blk j b → blk k a = blk k b → findl k pte b = Some (j, r).
Proof.
  revert pte. induction k as [|k IH]; intros [|q|es c]; simpl; intros H Hj Hk; simplify_eq; try done.
  destruct (es !! _) as [e|] eqn:He; simplify_eq/=.
  assert (blk k a = blk k b) as Hk' by (eapply blk_mono, Hj; by eapply findl_level).
  apply idx_eq in Hk' as Hi; [|done]. rewrite <- Hi, He. simpl. eauto.
Qed.

Lemma empty_dir_length : length empty_dir = 16%nat.
Proof. reflexivity. Qed.

Lemma empty_dir_lookup i : (i < 16)%nat → empty_dir !! i = Some PteEmpty.
Proof. intros. by apply lookup_replicate_2. Qed.

Lemma count_present_nonneg es : 0 ≤ count_present es.
Proof. induction es as [|[] ? IH]; simpl in *; unfold presentZ; simpl; lia. Qed.

Lemma count_present_insert es i e e' :
  es !! i = Some e → count_present (<[i := e']> es) = count_present es - presentZ e + presentZ e'.
Proof.
  revert i. induction es as [|x es IH]; intros [|i] H; simplify_eq/=; [lia|].
  change (base.insert i e' es) with (<[i := e']> es). rewrite (IH i) by done. lia.
Qed.

Lemma count_present_pos es : 0 < count_present es → ∃ i e, es !! i = Some e ∧ ucs_pgt_entry_present e.
Proof.
  induction es as [|x es IH]; simpl; [lia|]. unfold presentZ. intros H.
  destruct (ucs_pgt_entry_present x) eqn:E.
  - exists 0%nat, x. by rewrite E.
  - destruct IH as (i & e & ? & ?); [lia|]. by exists (S i), e.
Qed.

(** A present entry maps some address of every block it can stand for. *)
Lemma findl_nonempty k pte b :
  wf_pte k pte → ucs_pgt_entry_present pte → 0 ≤ b →
  ∃ a, 0 ≤ a ∧ blk k a = b ∧ is_Some (findl k pte a).
Proof.
  revert pte b. induction k as [|k IH]; intros [|q|es c] b Hwf Hp Hb; simpl in *; try done.
  - exists (b * 2 ^ ord 0). pose proof (ord_pos 0). split_and!; [nia|apply blk_iff; lia|eauto].
  - exists (b * 2 ^ ord (S k)). pose proof (ord_pos (S k)). split_and!; [nia|apply blk_iff; lia|eauto].
  - destruct Hwf as (Hl & Hall & -> & Hc).
    destruct (count_present_pos es Hc) as (i & e & He & Hpe).
    pose proof (lookup_lt_Some _ _ _ He) as Hi.
    destruct (IH e (16 * b + Z.of_nat i)) as (a & Ha & Hblk & Hf);
      [by eapply Forall_lookup_1|done|lia|].
    exists a. split_and!; [done| |].
    + rewrite blk_S, Hblk. symmetry. apply Z.div_unique with (Z.of_nat i); lia.
    + assert (idx k a = i) as ->; [|by rewrite He].
      unfold idx. rewrite Hblk, Z.add_comm, Z.mul_comm, Z.mod_add, Z.mod_small by lia. lia.
Qed.

(** *** Insertion below an entry *)

Lemma wf_dir_update k es c i e e' :
  length es = 16%nat → Forall (wf_pte k) es → c = count_present es → es !! i = Some e →
  wf_pte k e' → 0 < c - presentZ e + presentZ e' →
  wf_pte (S k) (PteDir (<[i := e']> es) (c - presentZ e + presentZ e')).
Proof.
  intros Hl Hall Hc He Hwf Hpos. simpl. rewrite length_insert. split_and!; [done| | |done].
  - by apply Forall_insert.
  - by rewrite (count_present_insert _ _ e), Hc.
Qed.

(** Looking below an updated directory entry. *)
Lemma findl_dir_update k es c c' i e' a :
  (i < length es)%nat →
  findl (S k) (PteDir (<[i := e']> es) c') a =
    if decide (idx k a = i) then findl k e' a else findl (S k) (PteDir es c) a.
Proof.
  intros Hi. simpl. case_decide as E.
  - rewrite E, list_lookup_insert_eq by done. done.
  - by rewrite list_lookup_insert_ne by done.
Qed.

Definition insert_done (k j : nat) (address : Z) (r : ucs_pgt_region_t)
    (pte pte' : ucs_pgt_entry_t) : Prop :=
  wf_pte k pte' ∧ ucs_pgt_entry_present pte' ∧
  (∀ a, blk k a = blk k address →
     findl k pte' a = if decide (blk j a = blk j address) then Some (j, r) else findl k pte a) ∧
  (∀ a, blk j a = blk j address → findl k pte a = None).

Definition page_taken (k j : nat) (address : Z) (pte : ucs_pgt_entry_t) : Prop :=
  ∃ a, 0 ≤ a ∧ blk j a = blk j address ∧ is_Some (findl k pte a).

Lemma page_taken_here k address pte :
  0 ≤ address → wf_pte k pte → ucs_pgt_entry_present pte → page_taken k k address pte.
Proof.
  intros Ha Hwf Hp. destruct (findl_nonempty k pte (blk k address)) as (a & ? & ? & ?); [done..| |].
  - apply Z.div_pos; [done|apply ord_pos].
  - by exists a.
Qed.

(** The directory an insertion continues in: the entry's own, or a new one. *)
Definition dir_of (pte : ucs_pgt_entry_t) : list ucs_pgt_entry_t * Z * Z :=
  match pte with PteDir es c => (es, c, 0) | _ => (empty_dir, 0, 1) end.

Lemma dir_of_spec k pte :
  wf_pte (S k) pte → (∀ r, pte ≠ PteRegion r) →
  ∃ es c, dir_of pte = (es, c, 1 - presentZ pte) ∧ length es = 16%nat ∧ Forall (wf_pte k) es ∧
    c = count_present es ∧ ∀ a, findl (S k) pte a = es !! idx k a ≫= λ e, findl k e a.
Proof.
  intros Hwf Hnr. destruct pte as [|q|es c]; [| by destruct (Hnr q)|].
  - exists empty_dir, 0. split_and!; [done|done| |done|].
    + by apply Forall_replicate; auto.
    + intros a. rewrite empty_dir_lookup by apply idx_lt. simpl. by rewrite findl_empty.
  - destruct Hwf as (? & ? & ? & ?). by exists es, c.
Qed.

Lemma insert_descend_dir f address order r shift pte :
  (∀ q, pte ≠ PteRegion q) → UCS_PGT_ENTRY_SHIFT + order ≤ shift →
  insert_descend (S f) address order r shift pte =
    (let '(entries, count, inc) := dir_of pte in
     let idx := entry_index address (shift - UCS_PGT_ENTRY_SHIFT) in
     sub ← entries !! idx;
     '(status, sub', sub_inc) ←
        insert_descend f address order r (shift - UCS_PGT_ENTRY_SHIFT) sub;
     Some (status, PteDir (<[idx := sub']> entries) (count + sub_inc), inc)).
Proof.
  intros Hnr Hle. cbn [insert_descend].
  destruct (Z.eqb_spec order shift); [unfold UCS_PGT_ENTRY_SHIFT in Hle; lia|].
  rewrite (proj2 (Z.leb_le _ _)) by done. destruct pte as [|q|]; [done|by destruct (Hnr q)|done].
Qed.

(** One level of the descent, given what it does below. *)
Lemma insert_descend_step r address j k pte fuel :
  wf_pte (S k) pte → (j ≤ k)%nat → (∀ q, pte ≠ PteRegion q) →
  (∀ sub, wf_pte k sub →
    (∃ sub', insert_descend fuel address (ord j) r (ord k) sub
               = Some (UCS_OK, sub', 1 - presentZ sub) ∧ insert_done k j address r sub sub') ∨
    (insert_descend fuel address (ord j) r (ord k) sub = Some (UCS_ERR_ALREADY_EXISTS, sub, 0) ∧
     page_taken k j address sub)) →
  (∃ pte', insert_descend (S fuel) address (ord j) r (ord (S k)) pte
             = Some (UCS_OK, pte', 1 - presentZ pte) ∧ insert_done (S k) j address r pte pte') ∨
  (insert_descend (S fuel) address (ord j) r (ord (S k)) pte = Some (UCS_ERR_ALREADY_EXISTS, pte, 0) ∧
   page_taken (S k) j address pte).
Proof.
  intros Hwf Hjk Hnr IH. rewrite insert_descend_dir by (done || (unfold ord, UCS_PGT_ENTRY_SHIFT; lia)).
  destruct (dir_of_spec k pte Hwf Hnr) as (es & c & Hdir & Hl & Hall & Hc & Hfind). rewrite Hdir.
  replace (ord (S k) - UCS_PGT_ENTRY_SHIFT) with (ord k) by (unfold ord, UCS_PGT_ENTRY_SHIFT; lia).
  rewrite entry_index_idx. cbv zeta.
  destruct (lookup_lt_is_Some_2 es (idx k address)) as [sub Hsub]; [rewrite Hl; apply idx_lt|].
  rewrite Hsub. simpl. assert (wf_pte k sub) as Hwfs by (by eapply Forall_lookup_1).
  assert (∀ a, blk j a = blk j address → idx k a = idx k address) as Hidx.
  { intros a Ha. apply idx_eq; eapply blk_mono, Ha; lia. }
  destruct (IH sub Hwfs) as [(sub' & -> & Hwf' & Hp' & Hf' & Hn')|[-> (a & Ha & Hblk & Hsome)]]; simpl.
  - left. eexists. split; [done|].
    assert (presentZ sub' = 1) as Hps by (unfold presentZ; by destruct (ucs_pgt_entry_present sub')).
    assert (c + (1 - presentZ sub) = c - presentZ sub + presentZ sub') as -> by lia.
    pose proof (count_present_nonneg es) as Hge.
    assert (0 < c - presentZ sub + presentZ sub') as Hpos.
    { pose proof (count_present_insert es _ sub PteEmpty Hsub) as E. unfold presentZ in E at 2.
      simpl in E. pose proof (count_present_nonneg (<[idx k address:=PteEmpty]> es)). lia. }
    unfold insert_done. split_and!; [by apply (wf_dir_update k es c _ sub)|done| |].
    + intros a Ha. rewrite (findl_dir_update k es c) by (rewrite Hl; apply idx_lt).
      rewrite Hfind. case_decide as E.
      * apply idx_eq in E as E'; [|done]. rewrite Hf', E, Hsub by done. done.
      * rewrite decide_False; [done|]. intros Hb. by apply E, Hidx.
    + intros a Ha. rewrite Hfind, (Hidx a Ha), Hsub. simpl. by apply Hn'.
  - right. split.
    + rewrite list_insert_id by done. rewrite Z.add_0_r.
      assert (ucs_pgt_entry_present pte) as Hp.
      { destruct pte; simpl in Hdir; simplify_eq; [|done..].
        rewrite empty_dir_lookup in Hsub by apply idx_lt. simplify_eq.
        rewrite findl_empty in Hsome. by destruct Hsome. }
      destruct pte; simpl in *; try done. by simplify_eq.
    + exists a. split_and!; [done..|]. by rewrite Hfind, (Hidx a Hblk), Hsub.
Qed.

(** The descent that has reached the level of the page. *)
Lemma insert_descend_here r address k pte fuel :
  0 ≤ address → wf_pte k pte →
  (∃ pte', insert_descend (S fuel) address (ord k) r (ord k) pte
             = Some (UCS_OK, pte', 1 - presentZ pte) ∧ insert_done k k address r pte pte') ∨
  (insert_descend (S fuel) address (ord k) r (ord k) pte = Some (UCS_ERR_ALREADY_EXISTS, pte, 0) ∧
   page_taken k k address pte).
Proof.
  intros Haddr Hwf. simpl. rewrite Z.eqb_refl.
  destruct (ucs_pgt_entry_present pte) eqn:Hp.
  - right. split; [done|]. apply page_taken_here; [done..|by rewrite Hp].
  - left. exists (PteRegion r). unfold presentZ. rewrite Hp. split; [done|].
    destruct pte; try done. split_and!; auto.
    + intros a Ha. by rewrite findl_region, decide_True.
    + intros a Ha. apply findl_empty.
Qed.

Lemma insert_descend_spec r address j k : ∀ pte fuel,
  0 ≤ address → wf_pte k pte → (j ≤ k)%nat → (k < fuel)%nat →
  (∃ pte', insert_descend fuel address (ord j) r (ord k) pte
             = Some (UCS_OK, pte', 1 - presentZ pte) ∧ insert_done k j address r pte pte') ∨
  (insert_descend fuel address (ord j) r (ord k) pte = Some (UCS_ERR_ALREADY_EXISTS, pte, 0) ∧
   page_taken k j address pte).
Proof.
  induction k as [|k IH]; intros pte [|fuel] Haddr Hwf Hjk Hfuel; try lia.
  - assert (j = 0%nat) as -> by lia. by apply insert_descend_here.
  - destruct (decide (j = S k)) as [->|Hne]; [by apply insert_descend_here|].
    destruct pte as [|q|es0 c0].
    2: { right. simpl. destruct (Z.eqb_spec (ord j) (ord (S k))); [unfold ord in *; lia|].
         split; [done|]. exists address. simpl. eauto. }
    all: apply insert_descend_step; [done|lia|done|];
      intros sub Hs; apply IH; [done..|lia|lia].
Qed.

(** *** Removal below an entry *)

Definition remove_done (k : nat) (address order : Z) (region : ucs_pgt_region_t)
    (pte pte' : ucs_pgt_entry_t) : Prop :=
  ∃ j r, findl k pte address = Some (j, r) ∧ r_ptr r = r_ptr region ∧ ord j = order ∧
    ∀ a, blk k a = blk k address →
      findl k pte' a = if decide (blk j a = blk j address) then None else findl k pte a.

Lemma count_present_zero es i e : count_present es = 0 → es !! i = Some e → e = PteEmpty.
Proof.
  revert i. induction es as [|x es IH]; intros i H0 He; [done|]. simpl in *.
  pose proof (count_present_nonneg es). unfold presentZ in *.
  destruct (ucs_pgt_entry_present x) eqn:E; [lia|].
  destruct i as [|i]; simplify_eq/=; [by destruct e|]. apply (IH i); [lia|done].
Qed.

Lemma findl_count_zero k es c a : count_present es = 0 → findl (S k) (PteDir es c) a = None.
Proof.
  intros H0. simpl. destruct (es !! idx k a) as [e|] eqn:He; [|done].
  rewrite (count_present_zero es _ _ H0 He). apply findl_empty.
Qed.

(** What the descent does with the page it finds: the page of another size fails the
    assertion. *)
Definition remove_outcome (k : nat) (address order : Z) (region : ucs_pgt_region_t)
    (pte : ucs_pgt_entry_t) (res : option (ucs_status_t * ucs_pgt_entry_t * Z)) : Prop :=
  (∃ pte', res = Some (UCS_OK, pte', 1 - presentZ pte') ∧ wf_pte k pte' ∧
     ucs_pgt_entry_present pte ∧ remove_done k address order region pte pte') ∨
  (res = Some (UCS_ERR_NO_ELEM, pte, 0) ∧
   ∀ j r, findl k pte address = Some (j, r) → r_ptr r ≠ r_ptr region ∧ ord j = order) ∨
  (res = None ∧ ∃ j r, findl k pte address = Some (j, r) ∧ ord j ≠ order).

Lemma remove_recurs_leaf region address order k pte fuel :
  (∀ es c, pte ≠ PteDir es c) →
  remove_outcome k address order region pte
    (ucs_pgtable_remove_page_recurs (S fuel) address order region (ord k) pte).
Proof.
  intros Hnd. destruct pte as [|q|es c]; [| |by destruct (Hnd es c)];
    cbn [ucs_pgtable_remove_page_recurs].
  - right; left. split; [done|]. intros j r. by rewrite findl_empty.
  - destruct (Z.eqb_spec (ord k) order) as [Ho|Ho].
    2: { right; right. split; [done|]. exists k, q. by rewrite findl_region. }
    destruct (Z.eqb_spec (r_ptr q) (r_ptr region)); cbn [negb].
    + left. exists PteEmpty. split_and!; auto. exists k, q. rewrite findl_region.
      split_and!; [done..|]. intros a Ha. by rewrite findl_empty, decide_True.
    + right; left. split; [done|]. intros j r. rewrite findl_region. by intros [= <- <-].
Qed.

Lemma remove_recurs_spec region address order k : ∀ pte fuel,
  wf_pte k pte → (k < fuel)%nat →
  remove_outcome k address order region pte
    (ucs_pgtable_remove_page_recurs fuel address order region (ord k) pte).
Proof.
  induction k as [|k IH]; intros pte [|fuel] Hwf Hfuel; try lia.
  { apply remove_recurs_leaf. by intros es c ->. }
  destruct pte as [|q|es c]; [by apply remove_recurs_leaf..|].
  destruct Hwf as (Hl & Hall & Hc & Hpos). cbn [ucs_pgtable_remove_page_recurs].
  replace (ord (S k) - UCS_PGT_ENTRY_SHIFT) with (ord k) by (unfold ord, UCS_PGT_ENTRY_SHIFT; lia).
  rewrite entry_index_idx. cbv zeta.
  destruct (lookup_lt_is_Some_2 es (idx k address)) as [sub Hsub]; [rewrite Hl; apply idx_lt|].
  rewrite Hsub. simpl. assert (wf_pte k sub) as Hwfs by (by eapply Forall_lookup_1).
  destruct (IH sub fuel Hwfs ltac:(lia)) as
    [(sub' & -> & Hwf' & Hps & j & r & Hf & Hptr & Ho & Hf')|[[-> Hno]|[-> Hbad]]]; simpl.
  - left.
    assert (presentZ sub = 1) as Hps1 by (unfold presentZ; by destruct (ucs_pgt_entry_present sub)).
    assert (c - (1 - presentZ sub') = c - presentZ sub + presentZ sub') as -> by lia.
    set (es' := <[idx k address := sub']> es).
    assert (count_present es' = c - presentZ sub + presentZ sub') as Hc'
      by (unfold es'; by rewrite (count_present_insert _ _ sub), Hc).
    assert (∀ c' a, blk (S k) a = blk (S k) address → findl (S k) (PteDir es' c') a =
      if decide (blk j a = blk j address) then None else findl (S k) (PteDir es c) a) as Hfes.
    { intros c' a Ha. unfold es'. rewrite (findl_dir_update k es c) by (rewrite Hl; apply idx_lt).
      case_decide as E.
      - apply idx_eq in E as E'; [|done]. rewrite Hf' by done. simpl. by rewrite E, Hsub.
      - rewrite decide_False; [done|]. intros Hb. apply E, idx_eq; [done|].
        eapply blk_mono, Hb. by eapply findl_level. }
    assert (findl (S k) (PteDir es c) address = Some (j, r)) as Hfd by (simpl; by rewrite Hsub).
    pose proof (count_present_nonneg es') as Hge. destruct (Z.eqb_spec (c - presentZ sub + presentZ sub') 0) as [E0|Hne].
    + exists PteEmpty. split_and!; [done|done|done|]. exists j, r. split_and!; [done..|].
      intros a Ha. rewrite <- Hfes with (c' := 0) by done.
      rewrite findl_count_zero by lia. apply findl_empty.
    + exists (PteDir es' (c - presentZ sub + presentZ sub')). split; [done|split; [|split; [done|]]].
      * apply (wf_dir_update k es c _ sub); auto. lia.
      * exists j, r. split_and!; [done..|]. intros a Ha. by apply Hfes.
  - right; left. split; [by rewrite list_insert_id, Z.sub_0_r by done|]. cbn [findl]. by rewrite Hsub.
  - right; right. split; [done|]. cbn [findl]. by rewrite Hsub.
Qed.

(** ** Tables *)

Definition level (t : ucs_pgtable_t) : nat := Z.to_nat ((shift t - 4) / 4).

Record wf_at (t : ucs_pgtable_t) (k : nat) : Prop := {
  wf_level : (k ≤ 15)%nat;
  wf_shift : shift t = ord k;
  wf_mask : mask t = mask_of k;
  wf_base : addr_ok (base t);
  wf_base_aligned : blk_start k (base t) = base t;
  wf_root : wf_pte k (root t);
}.

(** The invariant of a table. *)
Definition wf_table (t : ucs_pgtable_t) : Prop := wf_at t (level t).

(** What a table maps an address to: the level of the page and the region. *)
Definition content (t : ucs_pgtable_t) (a : Z) : option (nat * ucs_pgt_region_t) :=
  if decide (blk (level t) a = blk (level t) (base t)) then findl (level t) (root t) a else None.

(** Tables with the same content and number of regions. *)
Definition same_content (t t' : ucs_pgtable_t) : Prop :=
  (∀ a, addr_ok a → content t' a = content t a) ∧ num_regions t' = num_regions t.

#[export] Instance same_content_equiv : Equivalence same_content.
Proof.
  split.
  - intros t. by split.
  - intros t t' [H Hn]. split; [|done]. intros a Ha. by rewrite H.
  - intros t1 t2 t3 [H1 Hn1] [H2 Hn2]. split; [|congruence].
    intros a Ha. by rewrite H2, H1.
Qed.

Lemma level_ord t k : shift t = ord k → level t = k.
Proof.
  intros E. unfold level. rewrite E. unfold ord.
  replace (4 + 4 * Z.of_nat k - 4) with (Z.of_nat k * 4) by lia.
  rewrite Z.div_mul by done. lia.
Qed.

Lemma wf_at_level t k : wf_at t k → level t = k.
Proof. intros H. apply level_ord, H. Qed.

Lemma wf_at_table t k : wf_at t k → wf_table t.
Proof. intros H. unfold wf_table. by rewrite (wf_at_level t k H). Qed.

Lemma content_at t k a :
  wf_at t k → content t a = if decide (blk k a = blk k (base t)) then findl k (root t) a else None.
Proof. intros H. unfold content. by rewrite (wf_at_level t k H). Qed.

(** The test [(address & mask) == base]. *)
Lemma span_test t k a :
  wf_at t k → addr_ok a → (Z.land a (mask t) =? base t) = bool_decide (blk k a = blk k (base t)).
Proof.
  intros [Hk Hs Hm Hb Hba Hr] Ha. rewrite Hm, land_mask by done.
  apply eq_true_iff_eq. rewrite Z.eqb_eq, bool_decide_eq_true.
  rewrite <- Hba at 1. unfold blk_start. pose proof (ord_pos k). split; intros; nia.
Qed.

Lemma span_test_true t k a :
  wf_at t k → addr_ok a → blk k a = blk k (base t) → (Z.land a (mask t) =? base t) = true.
Proof. intros. rewrite (span_test t k) by done. by apply bool_decide_eq_true. Qed.

Lemma wf_init : wf_at ucs_pgtable_init 0 ∧ ∀ a, content ucs_pgtable_init a = None.
Proof.
  split.
  - split; [lia|done|done|unfold addr_ok; simpl; lia|done|done].
  - intros a. unfold content. by case_decide.
Qed.

Lemma blk_start_ok k b : (k ≤ 15)%nat → addr_ok b → addr_ok (blk_start k b).
Proof.
  intros Hk Hb. unfold addr_ok in *. pose proof (blk_start_le k b). split; [|lia].
  unfold blk_start, blk. pose proof (ord_pos k). pose proof (Z.div_pos b (2 ^ ord k)). nia.
Qed.

Lemma blk_end_le k b : (k ≤ 15)%nat → addr_ok b → blk_start k b + 2 ^ ord k ≤ 2 ^ 64.
Proof.
  intros Hk Hb. unfold addr_ok, blk_start in *.
  change (2 ^ 64) with (2 ^ ord 15) in *. rewrite (ord_split k 15) in * by done.
  assert (blk k b < 2 ^ (ord 15 - ord k)) by (apply Z.div_lt_upper_bound; [apply ord_pos|lia]).
  pose proof (ord_pos k). nia.
Qed.

Lemma blk_start_idemp k b : blk_start k (blk_start k b) = blk_start k b.
Proof. unfold blk_start at 1. by rewrite blk_start_blk. Qed.

(** Widening a table does not change what it maps. *)
Lemma expand_spec t k :
  wf_at t k → (k < 15)%nat →
  ∃ t', ucs_pgtable_expand t = Some t' ∧ wf_at t' (S k) ∧ same_content t t' ∧
    ucs_pgt_entry_present (root t') = ucs_pgt_entry_present (root t).
Proof.
  intros Hwf Hk. pose proof Hwf as [Hk' Hs Hm Hb Hba Hr]. unfold ucs_pgtable_expand.
  rewrite (proj2 (Z.leb_le (shift t) _)) by (rewrite Hs; unfold ord, UCS_PGT_ADDR_ORDER, UCS_PGT_ENTRY_SHIFT; lia).
  eexists. split; [done|]. set (t' := mk_pgtable _ _ _ _ _).
  assert (base t' = blk_start (S k) (base t)) as Hbase.
  { unfold t'. simpl. rewrite Hm, mask_shift, land_mask by (done || lia). done. }
  assert (wf_at t' (S k)) as Hwf'.
  { split; rewrite ?Hbase; [lia| | |apply blk_start_ok; [lia|done]|apply blk_start_idemp|].
    - unfold t'. simpl. rewrite Hs. unfold ord, UCS_PGT_ENTRY_SHIFT. lia.
    - unfold t'. simpl. by rewrite Hm, mask_shift.
    - unfold t'. cbn [root]. destruct (ucs_pgt_entry_present (root t)) eqn:Hp.
      + rewrite Hs, entry_index_idx.
        replace 1 with (0 - presentZ PteEmpty + presentZ (root t)) at 1
          by (unfold presentZ; rewrite Hp; done).
        apply (wf_dir_update k empty_dir); [done|by apply Forall_replicate|done| |done|].
        * apply empty_dir_lookup, idx_lt.
        * unfold presentZ. rewrite Hp. done.
      + by destruct (root t). }
  split_and!; [done| |].
  - split; [|done]. intros a Ha.
    rewrite (content_at _ _ a Hwf'), (content_at _ _ a Hwf), Hbase, blk_start_blk.
    unfold t'. cbn [root]. destruct (ucs_pgt_entry_present (root t)) eqn:Hp.
    + rewrite Hs, entry_index_idx. case_decide as E1.
      * rewrite (findl_dir_update k empty_dir 0) by (rewrite empty_dir_length; apply idx_lt).
        rewrite (decide_ext _ _ _ _ (idx_eq k a (base t) E1)).
        case_decide; [done|]. by rewrite findl_count_zero.
      * rewrite decide_False; [done|]. intros E. by apply E1, (blk_mono k); [lia|].
    + destruct (root t); try done. rewrite !findl_empty. by repeat case_decide.
  - unfold t'. simpl. by destruct (ucs_pgt_entry_present (root t)) eqn:Hp.
Qed.

Lemma first_present_spec es :
  0 < count_present es →
  ∃ i e, first_present es = Some (i, e) ∧ es !! i = Some e ∧ ucs_pgt_entry_present e.
Proof.
  induction es as [|x es IH]; simpl; [lia|]. unfold presentZ. intros H.
  destruct (ucs_pgt_entry_present x) eqn:E.
  - exists 0%nat, x. by rewrite E.
  - destruct IH as (i & e & -> & ? & ?); [lia|]. by exists (S i), e.
Qed.

(** In a directory with one present entry everything is below that entry. *)
Lemma findl_single k es c i e a :
  count_present es = 1 → es !! i = Some e → ucs_pgt_entry_present e →
  findl (S k) (PteDir es c) a = if decide (idx k a = i) then findl k e a else None.
Proof.
  intros H1 He Hp.
  assert (count_present (<[i := PteEmpty]> es) = 0) as H0.
  { rewrite (count_present_insert _ _ e) by done.
    assert (presentZ e = 1) by (unfold presentZ; by destruct (ucs_pgt_entry_present e)).
    change (presentZ PteEmpty) with 0. lia. }
  case_decide as E; [simpl; by rewrite E, He|].
  rewrite <- (findl_count_zero k (<[i := PteEmpty]> es) c a H0).
  rewrite (findl_dir_update k es c) by (by eapply lookup_lt_Some).
  by rewrite decide_False.
Qed.

(** Shrinking is always possible to execute, keeps the content, and removes a
    level when it reports that it shrank. *)
Lemma shrink_spec t k :
  wf_at t k →
  ∃ b t' k', ucs_pgtable_shrink t = Some (b, t') ∧ wf_at t' k' ∧ same_content t t' ∧
    (b = true → (k' < k)%nat).
Proof.
  intros Hwf. pose proof Hwf as [Hk Hs Hm Hb Hba Hr]. unfold ucs_pgtable_shrink.
  destruct (root t) as [|q|es c] eqn:Ert.
  - exists false, (ucs_pgtable_reset t), 0%nat. split_and!; [done| |split|done].
    + split; [lia|done|done|unfold addr_ok; simpl; lia|done|simpl; by rewrite Ert].
    + intros a Ha. rewrite (content_at t k) by done. rewrite Ert, findl_empty.
      unfold content. cbn [root ucs_pgtable_reset]. rewrite Ert, findl_empty.
      by repeat case_decide.
    + done.
  - exists false, t, k. split_and!; [done|done|done|done].
  - destruct k as [|k]; [done|]. destruct Hr as (Hl & Hall & Hc & Hpos).
    rewrite (proj2 (Z.ltb_lt 0 c)) by lia.
    destruct (Z.eqb_spec c 1) as [->|Hc1]; simpl; [|exists false, t, (S k); by split_and!].
    destruct (first_present_spec es) as (i & e & -> & He & Hp); [lia|]. simpl.
    pose proof (lookup_lt_Some _ _ _ He) as Hi.
    replace (shift t - UCS_PGT_ENTRY_SHIFT) with (ord k)
      by (rewrite Hs; unfold ord, UCS_PGT_ENTRY_SHIFT; lia).
    rewrite shrink_base, Hm, shrink_mask by (done || lia).
    set (b' := base t + Z.of_nat i * 2 ^ ord k).
    pose proof (ord_pos k) as HP.
    assert (base t = blk (S k) (base t) * (16 * 2 ^ ord k)) as HB
      by (rewrite <- ord_S; symmetry; exact Hba).
    assert (blk k b' = 16 * blk (S k) (base t) + Z.of_nat i) as Hblk.
    { apply blk_iff. unfold b'. lia. }
    eexists true, _, k. split_and!; [done| | |lia].
    + split; simpl; [lia|done|done| | |by eapply Forall_lookup_1].
      * unfold addr_ok in *. unfold b'. split; [lia|].
        pose proof (blk_end_le (S k) (base t) Hk Hb) as Hend. rewrite Hba, ord_S in Hend. nia.
      * unfold blk_start. rewrite Hblk. unfold b'. lia.
    + split; [|done]. intros a Ha. rewrite (content_at t (S k)), Ert by done.
      unfold content. rewrite (level_ord _ k) by done. simpl base. simpl root.
      fold b'. rewrite Hblk, (findl_single k es 1 i e) by done.
      assert (blk k a = 16 * blk (S k) a + Z.of_nat (idx k a)) as Ea.
      { rewrite blk_S. unfold idx. pose proof (Z.mod_pos_bound (blk k a) 16).
        rewrite Z2Nat.id by lia. apply Z.div_mod. lia. }
      pose proof (idx_lt k a). repeat case_decide; try done; exfalso; lia.
Qed.

Lemma shrink_all_spec fuel t k :
  wf_at t k → (k < fuel)%nat →
  ∃ t', shrink_all fuel t = Some t' ∧ wf_table t' ∧ same_content t t'.
Proof.
  revert t k. induction fuel as [|fuel IH]; intros t k Hwf Hk; [lia|]. simpl.
  destruct (shrink_spec t k Hwf) as (b & t' & k' & -> & Hwf' & Hsame & Hlt). simpl.
  destruct b.
  - destruct (IH t' k' Hwf') as (t2 & -> & Hwf2 & Hsame2); [specialize (Hlt eq_refl); lia|].
    exists t2. split_and!; [done..|by transitivity t'].
  - exists t'. split_and!; [done|by eapply wf_at_table|done].
Qed.

Lemma expand_to_order_spec fuel t k j :
  wf_at t k → (j ≤ 15)%nat → (j - k < fuel)%nat →
  ∃ t', expand_to_order fuel (ord j) t = Some t' ∧ wf_at t' (Nat.max j k) ∧ same_content t t' ∧
    ucs_pgt_entry_present (root t') = ucs_pgt_entry_present (root t).
Proof.
  revert t k. induction fuel as [|fuel IH]; intros t k Hwf Hj Hf; [lia|]. simpl.
  rewrite (wf_shift t k Hwf). destruct (Z.ltb_spec (ord k) (ord j)) as [Hlt|Hge].
  - assert (k < j)%nat by (unfold ord in Hlt; lia).
    destruct (expand_spec t k Hwf) as (t1 & -> & Hwf' & Hsame & Hp); [lia|]. run.
    destruct (IH _ (S k) Hwf' Hj) as (t' & -> & Hwf2 & Hsame2 & Hp2); [lia|].
    exists t'. split_and!; [done| |by transitivity t1|congruence].
    by replace (Nat.max j k) with (Nat.max j (S k)) by lia.
  - assert (j ≤ k)%nat by (unfold ord in Hge; lia).
    exists t. rewrite Nat.max_r by done. by split_and!.
Qed.

Lemma blk_15 a : addr_ok a → blk 15 a = 0.
Proof. intros Ha. apply Z.div_small. exact Ha. Qed.

Lemma expand_to_address_spec fuel t k a :
  wf_at t k → addr_ok a → (15 - k < fuel)%nat →
  ∃ t' k', expand_to_address fuel a t = Some t' ∧ (k ≤ k')%nat ∧ wf_at t' k' ∧ same_content t t' ∧
    ucs_pgt_entry_present (root t') = ucs_pgt_entry_present (root t) ∧ blk k' a = blk k' (base t').
Proof.
  revert t k. induction fuel as [|fuel IH]; intros t k Hwf Ha Hf; [lia|]. simpl.
  rewrite (span_test t k) by done. case_bool_decide as Hspan; simpl.
  - exists t, k. by split_and!.
  - assert (k < 15)%nat as Hk.
    { pose proof (wf_level t k Hwf). destruct (decide (k = 15%nat)) as [->|]; [|lia].
      exfalso. apply Hspan. by rewrite !blk_15 by (done || apply Hwf). }
    destruct (expand_spec t k Hwf Hk) as (t1 & -> & Hwf' & Hsame & Hp). run.
    destruct (IH _ (S k) Hwf' Ha) as (t' & k' & -> & Hk' & Hwf2 & Hsame2 & Hp2 & Hb); [lia|].
    exists t', k'. split_and!; [done|lia|done|by transitivity t1|congruence|done].
Qed.

Definition rebase (t : ucs_pgtable_t) (address : Z) : ucs_pgtable_t :=
  mk_pgtable (root t) (Z.land address (mask t)) (mask t) (shift t) (num_regions t).

Lemma rebase_spec t k address :
  wf_at t k → addr_ok address → ucs_pgt_entry_present (root t) = false →
  wf_at (rebase t address) k ∧ same_content t (rebase t address) ∧
  blk k address = blk k (base (rebase t address)).
Proof.
  intros Hwf Ha Hp. pose proof Hwf as [Hk Hs Hm Hb Hba Hr].
  assert (base (rebase t address) = blk_start k address) as E
    by (simpl; rewrite Hm; by apply land_mask).
  assert (wf_at (rebase t address) k) as Hwf'.
  { split; rewrite ?E; [done|done|done|by apply blk_start_ok|apply blk_start_idemp|done]. }
  split_and!; [done| |by rewrite E, blk_start_blk].
  split; [|done]. intros a _. rewrite (content_at _ k a Hwf), (content_at _ k a Hwf').
  cbn [root rebase]. destruct (root t); try done. rewrite findl_empty. by repeat case_decide.
Qed.

(** Replaces the fuel constant by a variable that is large enough. *)
Ltac hide_levels L HL :=
  assert (16 ≤ levels)%nat as HL by (unfold levels; lia);
  revert HL; generalize levels; intros L HL.

(** The table before the descent: widened so that it spans the page. *)
Lemma insert_prepare L t address j :
  (16 ≤ L)%nat → wf_table t → addr_ok address → (j ≤ 15)%nat →
  ∃ t1 t2 k, expand_to_order L (ord j) t = Some t1 ∧
    (if ucs_pgt_entry_present (root t1) then expand_to_address L address t1
     else Some (rebase t1 address)) = Some t2 ∧
    wf_at t2 k ∧ (j ≤ k)%nat ∧ same_content t t2 ∧ blk k address = blk k (base t2).
Proof.
  intros HL Hwf Ha Hj.
  destruct (expand_to_order_spec L t (level t) j Hwf Hj) as (t1 & E1 & Hwf1 & Hs1 & Hp1);
    [lia|].
  destruct (ucs_pgt_entry_present (root t1)) eqn:Hp.
  - destruct (expand_to_address_spec L t1 _ address Hwf1 Ha)
      as (t2 & k & E2 & Hk & Hwf2 & Hs2 & _ & Hb); [lia|].
    exists t1, t2, k. rewrite Hp. split_and!; [done..|lia|by transitivity t1|done].
  - destruct (rebase_spec t1 _ address Hwf1 Ha Hp) as (Hwf2 & Hs2 & Hb).
    eexists t1, _, _. rewrite Hp. split_and!; [done..|lia|by transitivity t1|done].
Qed.

Definition same_but_page (t t' : ucs_pgtable_t) (j : nat) (address : Z)
    (x : option (nat * ucs_pgt_region_t)) : Prop :=
  (∀ a, addr_ok a → content t' a = if decide (blk j a = blk j address) then x else content t a) ∧
  num_regions t' = num_regions t.

Lemma blk_start_mod j s : blk_start j s = s ↔ s `mod` 2 ^ ord j = 0.
Proof.
  unfold blk_start, blk. pose proof (ord_pos j).
  pose proof (Z.div_mod s (2 ^ ord j) ltac:(lia)). split; intros; lia.
Qed.

Lemma check_page_ok address j :
  addr_ok address → (j ≤ 15)%nat → blk_start j address = address →
  ucs_pgtable_check_page address (ord j) = true.
Proof.
  intros Ha Hj Hst. unfold ucs_pgtable_check_page. apply andb_true_intro. split; apply Z.eqb_eq.
  - rewrite Z.shiftl_1_l. destruct (decide (j = 15%nat)) as [->|Hne].
    { change (ord 15) with 64. change (wrap 64 (2 ^ 64) - 1) with (-1). rewrite Z.land_m1_r, <- Hst.
      unfold blk_start. by rewrite blk_15. }
    rewrite wrap_small by (split; [pose proof (ord_pos j); lia|apply Z.pow_lt_mono_r; unfold ord; lia]).
    change (2 ^ ord j - 1) with (Z.pred (2 ^ ord j)). rewrite <- Z.ones_equiv, Z.land_ones by (unfold ord; lia). by apply blk_start_mod.
  - unfold UCS_PGT_ADDR_SHIFT, UCS_PGT_ENTRY_SHIFT, ord. rewrite wrap_small by lia.
    replace (4 + 4 * Z.of_nat j - 4) with (Z.of_nat j * 4) by lia. by apply Z.mod_mul.
Qed.

(** Inserting one page either maps exactly its addresses, all unmapped
    before, or fails because one is mapped and leaves the content alone. *)
Lemma insert_page_spec t address j r :
  wf_table t → addr_ok address → (j ≤ 15)%nat → blk_start j address = address →
  (∃ t', ucs_pgtable_insert_page t address (ord j) r = Some (UCS_OK, t') ∧ wf_table t' ∧
     same_but_page t t' j address (Some (j, r)) ∧
     ∀ a, addr_ok a → blk j a = blk j address → content t a = None) ∨
  (∃ t', ucs_pgtable_insert_page t address (ord j) r = Some (UCS_ERR_ALREADY_EXISTS, t') ∧
     wf_table t' ∧ same_content t t' ∧
     ∃ a, addr_ok a ∧ blk j a = blk j address ∧ is_Some (content t a)).
Proof.
  intros Hwf Ha Hj Hst. unfold ucs_pgtable_insert_page. rewrite check_page_ok by done. hide_levels L HL.
  destruct (insert_prepare L t address j HL Hwf Ha Hj) as (t1 & t2 & k & -> & E2 & Hwf2 & Hjk & Hs2 & Hb).
  run. unfold rebase in E2. rewrite E2. run. pose proof Hwf2 as [Hk Hs Hm Hba Hbb Hr].
  rewrite Hs. destruct Hs2 as [Hs2 Hn2].
  destruct (insert_descend_spec r address j k (root t2) L)
    as [(pte' & -> & Hwf' & Hp' & Hf' & Hnone)|[-> (a & Ha0 & Hblk & Hsome)]];
    [unfold addr_ok in Ha; lia|done|done|lia| |]; run.
  - left. exists (set_root t2 pte').
    assert (wf_at (set_root t2 pte') k) as Hwf3 by (split; simpl; done).
    split_and!; [done|by eapply wf_at_table|split; [|done]|].
    + intros a Hok. rewrite <- Hs2 by done. rewrite (content_at _ k a Hwf3), (content_at _ k a Hwf2).
      cbn [root base set_root]. case_decide as E.
      * rewrite Hf' by congruence. done.
      * rewrite decide_False; [done|]. intros Hbj. apply E. rewrite <- Hb. by apply (blk_mono j).
    + intros a Hok Hbj. rewrite <- Hs2 by done. rewrite (content_at _ k a Hwf2).
      case_decide; [by apply Hnone|done].
  - right. destruct (shrink_all_spec L (set_root t2 (root t2)) k) as (t4 & -> & Hwf4 & Hs4).
    { split; simpl; done. }
    { lia. }
    run. exists t4. split_and!; [done|done| |].
    + transitivity t2; [done|]. by destruct t2.
    + assert (blk k a = blk k address) as Hka by (by apply (blk_mono j)).
      assert (addr_ok a) as Hoka.
      { split; [done|]. pose proof (blk_start_le k a) as Hle.
        pose proof (blk_end_le k address Hk Ha) as Hend. unfold blk_start in *.
        rewrite Hka in Hle. lia. }
      exists a. split_and!; [done..|]. rewrite <- Hs2 by done.
      rewrite (content_at _ k a Hwf2). rewrite decide_True by congruence. done.
Qed.

Lemma set_root_id t : set_root t (root t) = t.
Proof. by destruct t. Qed.

(** Removing the page at an address either unmaps the block of the page found
    there, which belongs to the region, or changes nothing; a page of another size
    fails the assertion. *)
Lemma remove_page_spec t address i r :
  wf_table t → addr_ok address → (i ≤ 15)%nat → blk_start i address = address →
  (∃ t' q, ucs_pgtable_remove_page t address (ord i) r = Some (UCS_OK, t') ∧ wf_table t' ∧
     content t address = Some (i, q) ∧ r_ptr q = r_ptr r ∧ same_but_page t t' i address None) ∨
  (ucs_pgtable_remove_page t address (ord i) r = Some (UCS_ERR_NO_ELEM, t) ∧
   ∀ j q, content t address = Some (j, q) → r_ptr q ≠ r_ptr r ∧ j = i) ∨
  (ucs_pgtable_remove_page t address (ord i) r = None ∧
   ∃ j q, content t address = Some (j, q) ∧ j ≠ i).
Proof.
  intros Hwf Ha Hi Hst. unfold ucs_pgtable_remove_page. rewrite check_page_ok by done. hide_levels L HL.
  unfold wf_table in Hwf. set (k := level t) in *. pose proof Hwf as [Hk Hs Hm Hb Hba Hr].
  rewrite (span_test t k) by done. case_bool_decide as Hspan; cbn [negb].
  2: { right; left. split; [done|]. intros j q. rewrite (content_at t k) by done.
       by rewrite decide_False by done. }
  rewrite Hs.
  assert (content t address = findl k (root t) address) as Hc
    by (rewrite (content_at t k) by done; by rewrite decide_True).
  destruct (remove_recurs_spec r address (ord i) k (root t) L)
    as [(pte' & -> & Hwf' & _ & j & q & Hf & Hptr & Ho & Hf')|[[-> Hno]|[-> (j & q & Hf & Ho)]]]; [done|lia| | |]; run.
  - left. assert (j = i) as -> by (unfold ord in Ho; lia).
    assert (wf_at (set_root t pte') k) as Hwf2 by (split; done).
    destruct (shrink_all_spec L (set_root t pte') k Hwf2) as (t2 & E2 & Hwf3 & Hs3 & Hn3); [lia|].
    rewrite decide_True by done. rewrite E2. run.
    exists t2, q. split_and!; [done..|congruence|done|split; [|done]].
    intros a Hok. rewrite Hs3 by done. rewrite (content_at _ k a Hwf2), (content_at _ k a Hwf).
    cbn [root base set_root]. case_decide as E; [rewrite Hf' by congruence; done|].
    rewrite decide_False; [done|]. intros Hbj. apply E. rewrite <- Hspan.
    eapply blk_mono, Hbj. by eapply findl_level.
  - right; left. rewrite decide_False by done. rewrite set_root_id. split; [done|].
    intros j q. rewrite Hc. intros [? Ho]%Hno. split; [done|]. unfold ord in Ho. lia.
  - right; right. split; [done|]. exists j, q. rewrite Hc. split; [done|congruence].
Qed.

Lemma lookup_descend_spec k : ∀ pte fuel a,
  wf_pte k pte → (k < fuel)%nat → (∀ j q, findl k pte a = Some (j, q) → r_start q ≤ a < r_end q) →
  lookup_descend fuel a (ord k) pte = Some (snd <$> findl k pte a).
Proof.
  induction k as [|k IH]; intros [|q|es c] [|fuel] a Hwf Hfuel Hin; cbn [lookup_descend] in *;
    try done; try lia.
  1, 2: specialize (Hin _ q (findl_region _ _ _)); rewrite findl_region;
    by rewrite (proj2 (Z.leb_le _ _)), (proj2 (Z.ltb_lt _ _)) by lia.
  destruct Hwf as (Hl & Hall & Hc & Hpos). cbn [findl] in *.
  replace (ord (S k) - UCS_PGT_ENTRY_SHIFT) with (ord k) by (unfold ord, UCS_PGT_ENTRY_SHIFT; lia).
  rewrite entry_index_idx.
  destruct (lookup_lt_is_Some_2 es (idx k a)) as [sub Hsub]; [rewrite Hl; apply idx_lt|].
  rewrite Hsub in *. simpl. apply IH; [by eapply Forall_lookup_1|lia|done].
Qed.

(** Lookup never leaves the tree and returns the region of the content. *)
Lemma lookup_spec t a :
  wf_table t → addr_ok a → (∀ j q, content t a = Some (j, q) → r_start q ≤ a < r_end q) →
  ucs_pgtable_lookup t a = Some (snd <$> content t a).
Proof.
  intros Hwf Ha Hin. unfold ucs_pgtable_lookup. hide_levels L HL.
  unfold wf_table in Hwf. rewrite (span_test t _ a Hwf Ha). rewrite (content_at t _ a Hwf) in *.
  case_bool_decide as Hspan; cbn [negb].
  - rewrite decide_True in * by done. rewrite (wf_shift _ _ Hwf).
    apply lookup_descend_spec; [apply Hwf| |done]. pose proof (wf_level _ _ Hwf). lia.
  - by rewrite decide_False by done.
Qed.

End PgTableInv.
