(* ===== verification/PgTableSpec.v ===== *)
(** * What the UCS page table promises

    A table stands for a finite set of regions with distinct pointers and
    disjoint address ranges.  [ucs_pgtable_insert] and [ucs_pgtable_remove]
    add and remove one region of that set, roll back completely when they
    fail, and [ucs_pgtable_lookup] returns the region an address is in. *)

From stdpp Require Import base numbers list.
From S2P Require Import Prelude PgTable PgTableInv.
Import PgTable PgTableInv.

Local Open Scope Z_scope.

Module PgTableSpec.

(** ** The page order chosen by the code is the largest one that fits *)

Lemma land_opp_odd k : Z.land (2 * k + 1) (- (2 * k + 1)) = 1.
Proof.
  replace (- (2 * k + 1)) with (2 * Z.lnot k + 1) by (unfold Z.lnot; lia).
  apply Z.bits_inj'. intros i Hi. rewrite Z.land_spec.
  destruct (decide (i = 0)) as [->|Hne].
  - by rewrite !Z.testbit_odd_0.
  - replace i with (Z.succ (i - 1)) by lia. rewrite !Z.testbit_odd_succ by lia.
    rewrite Z.lnot_spec, andb_negb_r by lia.
    change 1 with (2 * 0 + 1) at 1. by rewrite Z.testbit_odd_succ, Z.bits_0 by lia.
Qed.

Lemma land_opp_even k : Z.land (2 * k) (- (2 * k)) = 2 * Z.land k (- k).
Proof.
  replace (- (2 * k)) with (2 * - k) by lia.
  apply Z.bits_inj'. intros i Hi. rewrite Z.land_spec.
  destruct (decide (i = 0)) as [->|Hne].
  - by rewrite !Z.testbit_even_0.
  - replace i with (Z.succ (i - 1)) by lia.
    by rewrite !Z.testbit_even_succ, Z.land_spec by lia.
Qed.

Lemma mod_pow2_even k n : 0 < n → (2 * k) `mod` 2 ^ n = 2 * (k `mod` 2 ^ (n - 1)).
Proof.
  intros Hn. replace n with (Z.succ (n - 1)) at 1 by lia.
  rewrite Z.pow_succ_r by lia. by rewrite Z.mul_mod_distr_l by lia.
Qed.

Lemma low_bit m : ∀ s, 0 < s < 2 ^ Z.of_nat m →
  ∃ f, 0 ≤ f ∧ Z.land s (- s) = 2 ^ f ∧ ∀ n, 0 ≤ n → (s `mod` 2 ^ n = 0 ↔ n ≤ f).
Proof.
  induction m as [|m IH]; intros s Hs; [change (2 ^ Z.of_nat 0) with 1 in Hs; lia|].
  rewrite Nat2Z.inj_succ, Z.pow_succ_r in Hs by lia.
  destruct (Z.Even_or_Odd s) as [[k ->]|[k ->]].
  - destruct (IH k) as (f & Hf & Hl & Hn); [lia|].
    exists (f + 1). rewrite land_opp_even, Hl, Z.add_1_r, Z.pow_succ_r by lia.
    split_and!; [lia|done|]. intros n Hn0. destruct (decide (n = 0)) as [->|Hne].
    + change (2 ^ 0) with 1. rewrite Z.mod_1_r. lia.
    + rewrite mod_pow2_even by lia. specialize (Hn (n - 1)). lia.
  - exists 0. rewrite land_opp_odd. split_and!; [lia|done|]. intros n Hn0. split.
    + intros H. destruct (decide (n = 0)) as [->|Hne]; [lia|]. exfalso.
      apply Z.mod_divide in H; [|pose proof (Z.pow_pos_nonneg 2 n); lia]. destruct H as [c H].
      replace n with (Z.succ (n - 1)) in H by lia. rewrite Z.pow_succ_r in H by lia. lia.
    + intros. assert (n = 0) as -> by lia. apply Z.mod_1_r.
Qed.

(** The number of trailing zeros: the largest power of two that divides. *)
Lemma ffs_spec s n : 0 < s → 0 ≤ n → (s `mod` 2 ^ n = 0 ↔ n ≤ ucs_ffs64 s).
Proof.
  intros Hs Hn. destruct (low_bit (Z.to_nat (Z.succ (Z.log2 s))) s) as (f & Hf & Hl & H).
  { rewrite Z2Nat.id by (pose proof (Z.log2_nonneg s); lia).
    pose proof (Z.log2_spec s Hs). lia. }
  unfold ucs_ffs64. rewrite Hl, Z.log2_pow2 by done. by apply H.
Qed.

(** A page of level [j] at [s] that stays below [e]. *)
Definition fits (s e : Z) (j : nat) : Prop := blk_start j s = s ∧ s + 2 ^ ord j ≤ e.

Definition aligned (a : Z) : Prop := a `mod` 16 = 0.

Lemma aligned_spec a : ucs_pgt_is_addr_aligned a = true ↔ aligned a.
Proof.
  unfold ucs_pgt_is_addr_aligned, aligned. rewrite Z.eqb_eq.
  change (UCS_PGT_ADDR_ALIGN - 1) with (Z.ones 4). rewrite Z.land_ones by lia. done.
Qed.

(** The order that the code computes from the logarithm of the length. *)
Lemma page_order_of m :
  4 ≤ m < 64 →
  (if (UCS_PGT_ADDR_SHIFT <=? m) && (m <=? UCS_PGT_ADDR_ORDER)
   then Some ((m - UCS_PGT_ADDR_SHIFT) / UCS_PGT_ENTRY_SHIFT * UCS_PGT_ENTRY_SHIFT + UCS_PGT_ADDR_SHIFT)
   else None) = Some (ord (Z.to_nat ((m - 4) / 4))) ∧ (Z.to_nat ((m - 4) / 4) ≤ 14)%nat.
Proof.
  intros Hm. unfold UCS_PGT_ADDR_SHIFT, UCS_PGT_ADDR_ORDER, UCS_PGT_ENTRY_SHIFT, ord.
  assert (0 ≤ (m - 4) / 4 < 15) as Hj by (split; [apply Z.div_pos; lia|apply Z.div_lt_upper_bound; lia]).
  rewrite !(proj2 (Z.leb_le _ _)) by lia. split; [cbn [andb]; f_equal; lia|lia].
Qed.

Lemma le_ord_iff j m : 4 ≤ m → ord j ≤ m ↔ (j ≤ Z.to_nat ((m - 4) / 4))%nat.
Proof.
  intros Hm. unfold ord. pose proof (Z.div_mod (m - 4) 4 ltac:(lia)).
  pose proof (Z.mod_pos_bound (m - 4) 4 ltac:(lia)).
  assert (0 ≤ (m - 4) / 4) by (apply Z.div_pos; lia). split; intros; lia.
Qed.

Lemma next_page_order_spec s e :
  aligned s → aligned e → 0 ≤ s < e → e < 2 ^ 64 →
  ∃ j, (j ≤ 14)%nat ∧ ucs_pgtable_get_next_page_order s e = Some (ord j) ∧ fits s e j ∧
    ∀ j', fits s e j' → (j' ≤ j)%nat.
Proof.
  intros Hs He Hse Hmax.
  assert (16 ≤ e - s) as Hlen.
  { unfold aligned in *. pose proof (Z.div_mod s 16). pose proof (Z.div_mod e 16). lia. }
  set (l := Z.log2 (e - s)).
  assert (∀ n, 0 ≤ n → 2 ^ n ≤ e - s ↔ n ≤ l) as Hl by (intros; apply Z.log2_le_pow2; lia).
  assert (4 ≤ l) as Hl4 by (apply Hl; [lia|exact Hlen]).
  assert (l < 64) as Hl64 by (apply Z.log2_lt_pow2; lia).
  set (m := if s =? 0 then l else Z.min (ucs_ffs64 s) l).
  assert (∀ n, 0 ≤ n → (s `mod` 2 ^ n = 0 ∧ 2 ^ n ≤ e - s) ↔ n ≤ m) as Hm.
  { intros n Hn. unfold m. destruct (Z.eqb_spec s 0) as [->|Hne].
    - rewrite Z.mod_0_l, <- Hl by (done || (pose proof (Z.pow_pos_nonneg 2 n); lia)). tauto.
    - rewrite ffs_spec, Hl by lia. lia. }
  assert (4 ≤ m) as Hm4 by (apply Hm; [lia|split; [exact Hs|exact Hlen]]).
  assert (m < 64) as Hm64 by (unfold m; destruct (s =? 0); lia).
  exists (Z.to_nat ((m - 4) / 4)).
  destruct (page_order_of m) as [Ho Hj]; [lia|].
  assert (∀ j', fits s e j' ↔ ord j' ≤ m) as Hfit.
  { intros j'. unfold fits. rewrite blk_start_mod, <- Hm by (unfold ord; lia). lia. }
  split_and!; [done| | |].
  - unfold ucs_pgtable_get_next_page_order. rewrite !(proj2 (aligned_spec _)) by done. cbn [andb].
    replace ((e =? 0) && (s =? 0)) with false by (symmetry; apply andb_false_iff; left; apply Z.eqb_neq; lia).
    replace (e =? s) with false by (symmetry; apply Z.eqb_neq; lia).
    rewrite wrap_small by lia. change (ucs_ilog2 (e - s)) with l. fold m. exact Ho.
  - apply Hfit, le_ord_iff; done.
  - intros j' H. by apply le_ord_iff, Hfit.
Qed.

(** ** The pages of an interval

    The greedy loops of the code cut an interval into its maximal blocks. *)

Definition block_in (s e a : Z) (j : nat) : Prop :=
  s ≤ blk_start j a ∧ blk_start j a + 2 ^ ord j ≤ e.

Definition maxlvl (s e a : Z) (j : nat) : Prop :=
  block_in s e a j ∧ ∀ j', block_in s e a j' → (j' ≤ j)%nat.

(** No block of the interval straddles [x]. *)
Definition boundary (s e x : Z) : Prop :=
  ∀ a j, block_in s e a j → blk_start j a + 2 ^ ord j ≤ x ∨ x ≤ blk_start j a.

Lemma boundary_start s e : boundary s e s.
Proof. intros a j [H _]. by right. Qed.

Lemma boundary_end s e : boundary s e e.
Proof. intros a j [_ H]. by left. Qed.

Lemma blk_start_eq j a b : blk j a = blk j b → blk_start j a = blk_start j b.
Proof. unfold blk_start. by intros ->. Qed.

Lemma in_block j a x : blk_start j x = x → x ≤ a < x + 2 ^ ord j ↔ blk j a = blk j x.
Proof. intros Hx. rewrite blk_iff. unfold blk_start in Hx. rewrite Hx. done. Qed.

Lemma maxlvl_fun s e a j j' : maxlvl s e a j → maxlvl s e a j' → j = j'.
Proof. intros [H1 H2] [H3 H4]. apply Nat.le_antisymm; auto. Qed.

Lemma maxlvl_in s e a j : maxlvl s e a j → s ≤ a < e.
Proof. intros [[H1 H2] _]. pose proof (blk_start_le j a). lia. Qed.

(** The page chosen at a boundary is a maximal block of the interval. *)
Lemma greedy_page_max s e x a j :
  s ≤ x → boundary s e x → fits x e j → (∀ j', fits x e j' → (j' ≤ j)%nat) →
  blk j a = blk j x → maxlvl s e a j.
Proof.
  intros Hsx Hb [Hst Hfit] Hmax Hblk. apply blk_start_eq in Hblk as Hbs. split.
  - unfold block_in. rewrite Hbs, Hst. lia.
  - intros j' Hj'. destruct (decide (j' ≤ j)%nat) as [|Hlt]; [done|]. apply Hmax.
    assert (blk_start j' a = blk_start j' x) as E
      by (apply blk_start_eq; apply (blk_mono j); [lia|done]).
    pose proof (blk_start_le j' x) as Hle. pose proof (ord_pos j').
    unfold fits. destruct (Hb a j' Hj') as [H1|H1]; rewrite E in H1; [lia|].
    destruct Hj' as [_ H2]. rewrite E in H2. lia.
Qed.

Lemma blk_multiple j j' x a :
  (j' ≤ j)%nat → blk_start j x = x → blk_start j' a + 2 ^ ord j' ≤ x ∨ x ≤ blk_start j' a.
Proof.
  intros Hj Hx. pose proof (blk_start_le j' a) as H1. pose proof (blk_start_le j' x) as H2.
  assert (blk_start j' x = x) as E.
  { apply blk_start_mod. apply blk_start_mod, Z.mod_divide in Hx; [|pose proof (ord_pos j); lia].
    apply Z.mod_divide; [pose proof (ord_pos j'); lia|]. etransitivity; [|exact Hx].
    rewrite (ord_split j' j) by done. apply Z.divide_factor_r. }
  destruct (Z.lt_trichotomy (blk j' a) (blk j' x)) as [H|[H|H]]; unfold blk_start in *;
    pose proof (ord_pos j'); nia.
Qed.

Lemma boundary_next s e x j :
  s ≤ x → boundary s e x → fits x e j → (∀ j', fits x e j' → (j' ≤ j)%nat) →
  boundary s e (x + 2 ^ ord j).
Proof.
  intros Hsx Hb Hfits Hmax a j' Hj'. pose proof Hfits as [Hst Hfit].
  destruct (decide (j' ≤ j)%nat) as [Hle|Hlt].
  - apply (blk_multiple j); [done|]. apply blk_start_mod.
    apply blk_start_mod in Hst. rewrite Zplus_mod, Hst, Z_mod_same_full. done.
  - destruct (decide (x ≤ blk_start j' a)) as [Hxa|Hxa].
    2: { left. destruct (Hb a j' Hj'); [|lia]. pose proof (ord_pos j). lia. }
    destruct (decide (x = blk_start j' a)) as [Heq|Hne].
    { exfalso. apply Hlt, Hmax. unfold fits. rewrite Heq at 1 2. rewrite blk_start_idemp.
      split; [done|]. rewrite Heq. apply Hj'. }
    right. destruct (blk_multiple j' j (blk_start j' a) x) as [H|H]; [lia|apply blk_start_idemp| |];
      rewrite Hst in H; lia.
Qed.

(** Below a boundary the choice does not depend on the end. *)
Lemma next_page_order_limit s e x lim j :
  s ≤ x → boundary s e lim → lim ≤ e → x < lim →
  fits x e j → (∀ j', fits x e j' → (j' ≤ j)%nat) →
  fits x lim j ∧ ∀ j', fits x lim j' → (j' ≤ j)%nat.
Proof.
  intros Hsx Hb Hle Hlt [Hst Hfit] Hmax. split.
  - split; [done|]. destruct (Hb x j) as [H|H]; [split; lia|lia|].
    pose proof (blk_start_le j x). lia.
  - intros j' [H1 H2]. apply Hmax. split; [done|lia].
Qed.

(** ** The page loops *)

Definition valid_region (r : ucs_pgt_region_t) : Prop :=
  aligned (r_start r) ∧ aligned (r_end r) ∧ 0 ≤ r_start r < r_end r ∧ r_end r < 2 ^ 64.

Lemma aligned_add x j : aligned x → aligned (x + 2 ^ ord j).
Proof.
  unfold aligned. intros Hx. unfold ord. rewrite Z.pow_add_r by lia.
  change (2 ^ 4) with 16. rewrite Z.mul_comm, Z_mod_plus_full. done.
Qed.

Lemma advance_spec x j :
  (j ≤ 14)%nat → 0 ≤ x → x + 2 ^ ord j < 2 ^ 64 →
  ucs_pgt_address_advance x (ord j) = Some (x + 2 ^ ord j).
Proof.
  intros Hj Hx Hlt. unfold ucs_pgt_address_advance. pose proof (ord_pos j).
  rewrite (proj2 (Z.ltb_lt _ _)) by (unfold ord; lia). by rewrite Z.shiftl_1_l, wrap_small by lia.
Qed.

Section page_loops.
Context (r : ucs_pgt_region_t) (Hr : valid_region r).

(** The addresses the loops over the region's pages go through. *)
Definition on_path (x : Z) : Prop :=
  aligned x ∧ r_start r ≤ x ≤ r_end r ∧ boundary (r_start r) (r_end r) x.

Lemma on_path_start : on_path (r_start r).
Proof. destruct Hr as (? & ? & ? & ?). split_and!; [done|lia..|apply boundary_start]. Qed.

Lemma on_path_end : on_path (r_end r).
Proof. destruct Hr as (? & ? & ? & ?). split_and!; [done|lia..|apply boundary_end]. Qed.

Lemma page_step x lim :
  on_path x → on_path lim → x < lim →
  ∃ j, (j ≤ 14)%nat ∧ ucs_pgtable_get_next_page_order x lim = Some (ord j) ∧
    ucs_pgt_address_advance x (ord j) = Some (x + 2 ^ ord j) ∧ blk_start j x = x ∧ on_path (x + 2 ^ ord j) ∧
    x + 2 ^ ord j ≤ lim ∧ addr_ok x ∧
    (∀ a, x ≤ a < x + 2 ^ ord j ↔ blk j a = blk j x) ∧
    ∀ a, blk j a = blk j x → maxlvl (r_start r) (r_end r) a j.
Proof.
  intros (Hx & Hxr & Hxb) (Hl & Hlr & Hlb) Hlt. destruct Hr as (Hs & He & Hse & Hmax).
  destruct (next_page_order_spec x (r_end r)) as (j & Hj & _ & Hfit & Hbest); [done|done|lia|lia|].
  destruct (next_page_order_limit (r_start r) (r_end r) x lim j) as [Hfit' Hbest']; [lia|done|lia|lia|done|done|].
  destruct (next_page_order_spec x lim) as (j' & Hj' & Ho & Hf' & Hb'); [done|done|lia|lia|].
  assert (j' = j) as -> by (apply Nat.le_antisymm; auto).
  pose proof Hfit as [Hst Hend]. pose proof (ord_pos j).
  exists j. split_and!; try done.
  - apply advance_spec; [done|lia|lia].
  - split_and!; [by apply aligned_add|lia|lia|apply boundary_next; done || lia].
  - apply Hfit'.
  - split; lia.
  - intros a. by apply in_block.
  - intros a Ha. apply (greedy_page_max _ _ x); done || lia.
Qed.

(** The table maps the addresses from [x] to [y] to the region, where [c0]
    maps nothing, and the others as [c0] does. *)
Definition painted (c0 : Z → option (nat * ucs_pgt_region_t)) (n0 : Z)
    (t : ucs_pgtable_t) (x y : Z) : Prop :=
  wf_table t ∧ num_regions t = n0 ∧
  ∀ a, addr_ok a →
    (x ≤ a < y → c0 a = None ∧
       ∃ j, content t a = Some (j, r) ∧ maxlvl (r_start r) (r_end r) a j) ∧
    (¬ x ≤ a < y → content t a = c0 a).

Lemma insert_page_painted c0 n0 t x :
  painted c0 n0 t (r_start r) x → on_path x → x < r_end r →
  ∃ j t', ucs_pgtable_get_next_page_order x (r_end r) = Some (ord j) ∧
    ((ucs_pgtable_insert_page t x (ord j) r = Some (UCS_OK, t') ∧
      ucs_pgt_address_advance x (ord j) = Some (x + 2 ^ ord j) ∧ on_path (x + 2 ^ ord j) ∧
      painted c0 n0 t' (r_start r) (x + 2 ^ ord j)) ∨
     (ucs_pgtable_insert_page t x (ord j) r = Some (UCS_ERR_ALREADY_EXISTS, t') ∧
      painted c0 n0 t' (r_start r) x ∧
      ∃ a, addr_ok a ∧ r_start r ≤ a < r_end r ∧ is_Some (c0 a))).
Proof.
  intros (Hwf & Hn & Hc) Hx Hlt.
  destruct (page_step x (r_end r)) as (j & Hj & Ho & Ha & Hst & Hp & Hle & Hok & Hin & Hmax);
    [done|apply on_path_end|done|].
  assert (r_start r ≤ x) as Hsx by apply Hx.
  destruct (insert_page_spec t x j r) as [(t' & Hi & Hwf' & [Hc' Hn'] & Hnone)|(t' & Hi & Hwf' & [Hc' Hn'] & a & Haok & Hba & Hsome)];
    [done|done|lia|done| |]; exists j, t'; (split; [done|]); [left|right]; split_and!; try done; try congruence.
  - split; [done|split; [congruence|]].
    intros a Haok. rewrite Hc' by done. destruct (Hc a Haok) as [Hc1 Hc2].
    case_decide as E; [apply Hin in E as Hxa|assert (¬ x ≤ a < x + 2 ^ ord j) by (by rewrite Hin)];
      (split; intros Hr'; [|]); try lia; try (apply Hc1; lia); try (apply Hc2; lia).
    split; [rewrite <- Hc2 by lia; by apply Hnone|eauto].
  - split; [done|split; [congruence|]]. intros a0 Ha0. rewrite Hc' by done. by apply Hc.
  - apply Hin in Hba. exists a. split_and!; [done|lia|lia|].
    destruct (Hc a Haok) as [_ Hc2]. rewrite <- Hc2 by lia. done.
Qed.

Lemma remove_page_painted c0 n0 t x lim :
  painted c0 n0 t x lim → on_path x → on_path lim → x < lim →
  ∃ j t', ucs_pgtable_get_next_page_order x lim = Some (ord j) ∧
    ucs_pgtable_remove_page t x (ord j) r = Some (UCS_OK, t') ∧
    ucs_pgt_address_advance x (ord j) = Some (x + 2 ^ ord j) ∧ on_path (x + 2 ^ ord j) ∧
    x + 2 ^ ord j ≤ lim ∧ painted c0 n0 t' (x + 2 ^ ord j) lim.
Proof.
  intros (Hwf & Hn & Hc) Hx Hl Hlt.
  destruct (page_step x lim) as (j & Hj & Ho & Ha & Hst & Hp & Hle & Hok & Hin & Hmax); [done..|].
  destruct (Hc x Hok) as [(Hc0 & j' & Hcx & Hm') _]; [lia|].
  assert (j' = j) as -> by (by eapply maxlvl_fun, Hmax).
  destruct (remove_page_spec t x j r) as [(t' & q & Hi & Hwf' & Hcx' & _ & [Hc' Hn'])|[[_ Hno]|[_ (j1 & q & E & Hne)]]];
    [done|done|lia|done| |by destruct (Hno _ _ Hcx)|congruence].
  rewrite Hcx in Hcx'. simplify_eq. exists j, t'. split_and!; try done; try congruence.
  split; [done|split; [congruence|]]. intros a Haok. rewrite Hc' by done. destruct (Hc a Haok) as [Hc1 Hc2].
  case_decide as E; [apply Hin in E as Hxa|assert (¬ x ≤ a < x + 2 ^ ord j) by (by rewrite Hin)];
    (split; intros Hr'; [|]); try lia; try (apply Hc1; lia); try (apply Hc2; lia).
  symmetry. apply Hc1. lia.
Qed.

(** What the insertion loop stops with. *)
Definition insert_outcome (c0 : Z → option (nat * ucs_pgt_region_t)) (n0 : Z)
    (res : ucs_status_t * Z * ucs_pgtable_t) : Prop :=
  let '(status, x, t) := res in
  on_path x ∧ painted c0 n0 t (r_start r) x ∧
  ((status = UCS_OK ∧ x = r_end r) ∨
   (status = UCS_ERR_ALREADY_EXISTS ∧
    ∃ a, addr_ok a ∧ r_start r ≤ a < r_end r ∧ is_Some (c0 a))).

Lemma path_measure x : on_path x → 0 ≤ r_end r - x < 2 ^ 64.
Proof. intros (_ & H & _). destruct Hr as (_ & _ & ? & ?). lia. Qed.

Lemma insert_loop_spec n t :
  2 ^ 64 ≤ 2 ^ Z.of_nat n → wf_table t →
  ∃ res, loop_result (loop (insert_step r (r_end r)) n (r_start r, t)) = Some res ∧
    insert_outcome (content t) (num_regions t) res.
Proof.
  intros Hn Hwf. set (c0 := content t). set (n0 := num_regions t).
  destruct (loop_total (insert_step r (r_end r))
    (λ s, on_path (fst s) ∧ painted c0 n0 (snd s) (r_start r) (fst s))
    (λ o, ∃ res, o = Some res ∧ insert_outcome c0 n0 res)
    (λ s, r_end r - fst s) n (r_start r, t)) as (o & -> & res & -> & Hres); last by eauto.
  - intros s [Hp _]. apply path_measure in Hp. lia.
  - intros [x t1] [Hp Hpt]. cbn [fst snd] in *. unfold insert_step, body.
    destruct (Z.ltb_spec x (r_end r)) as [Hlt|Hge].
    + destruct (insert_page_painted c0 n0 t1 x Hpt Hp Hlt)
        as (j & t2 & -> & [(E & Ea & Hp' & Hpt')|(E & Hpt' & Ha)]); run; rewrite E; run.
      * pose proof (ord_pos j). rewrite decide_True, Ea by done. run. split; [done|lia].
      * rewrite decide_False by done. eexists. split; [done|]. split; [done|]. split; [done|]. right. done.
    + assert (x = r_end r) as -> by (destruct Hp as (_ & ? & _); lia).
      eexists. split; [done|]. split; [done|]. split; [done|]. left. done.
  - split; [apply on_path_start|]. split; [done|]. split; [done|].
    intros a _. cbn [fst]. split; intros; [lia|done].
  - pose proof (path_measure _ on_path_start). cbn [fst]. lia.
Qed.

Lemma revert_loop_spec n c0 n0 t lim :
  2 ^ 64 ≤ 2 ^ Z.of_nat n → on_path lim → painted c0 n0 t (r_start r) lim →
  ∃ t', loop_result (loop (revert_step r lim) n (r_start r, t)) = Some t' ∧
    wf_table t' ∧ num_regions t' = n0 ∧ ∀ a, addr_ok a → content t' a = c0 a.
Proof.
  intros Hn Hlim Hpt.
  destruct (loop_total (revert_step r lim)
    (λ s, on_path (fst s) ∧ fst s ≤ lim ∧ painted c0 n0 (snd s) (fst s) lim)
    (λ o, ∃ t', o = Some t' ∧ painted c0 n0 t' lim lim)
    (λ s, r_end r - fst s) n (r_start r, t)) as (o & -> & t' & -> & Hwf' & Hn' & Hc').
  - intros s [Hp _]. apply path_measure in Hp. lia.
  - intros [x t1] (Hp & Hle & Hpt1). cbn [fst snd] in *. unfold revert_step, body.
    destruct (Z.ltb_spec x lim) as [Hlt|Hge].
    + destruct (remove_page_painted c0 n0 t1 x lim Hpt1 Hp Hlim Hlt)
        as (j & t2 & -> & E & Ea & Hp' & Hle' & Hpt'). run. rewrite E. run. rewrite Ea. run.
      pose proof (ord_pos j). split; [|lia]. split_and!; done.
    + assert (x = lim) as -> by lia. eauto.
  - split; [apply on_path_start|]. split; [apply Hlim|done].
  - pose proof (path_measure _ on_path_start). cbn [fst]. lia.
  - exists t'. split; [done|]. split; [done|]. split; [done|].
    intros a Ha. apply Hc'; [done|lia].
Qed.

(** The removal loop of a region whose pages are all mapped. *)
Lemma remove_loop_spec n c0 n0 t :
  2 ^ 64 ≤ 2 ^ Z.of_nat n → painted c0 n0 t (r_start r) (r_end r) →
  ∃ t', loop_result (loop (remove_step r (r_end r)) n (r_start r, t)) = Some (UCS_OK, t') ∧
    wf_table t' ∧ num_regions t' = n0 ∧ ∀ a, addr_ok a → content t' a = c0 a.
Proof.
  intros Hn Hpt.
  destruct (loop_total (remove_step r (r_end r))
    (λ s, on_path (fst s) ∧ painted c0 n0 (snd s) (fst s) (r_end r))
    (λ o, ∃ t', o = Some (UCS_OK, t') ∧ painted c0 n0 t' (r_end r) (r_end r))
    (λ s, r_end r - fst s) n (r_start r, t)) as (o & -> & t' & -> & Hwf' & Hn' & Hc').
  - intros s [Hp _]. apply path_measure in Hp. lia.
  - intros [x t1] [Hp Hpt1]. cbn [fst snd] in *. unfold remove_step, body.
    destruct (Z.ltb_spec x (r_end r)) as [Hlt|Hge].
    + destruct (remove_page_painted c0 n0 t1 x (r_end r) Hpt1 Hp on_path_end Hlt)
        as (j & t2 & -> & E & Ea & Hp' & Hle' & Hpt'). run. rewrite E. run.
      rewrite decide_True, Ea by done. run.
      pose proof (ord_pos j). split; [done|lia].
    + assert (x = r_end r) as -> by (destruct Hp as (_ & ? & _); lia). eauto.
  - split; [apply on_path_start|done].
  - pose proof (path_measure _ on_path_start). cbn [fst]. lia.
  - exists t'. split; [done|]. split; [done|]. split; [done|].
    intros a Ha. apply Hc'; [done|lia].
Qed.

End page_loops.

(** ** The abstract page table: a list of regions *)

Definition covers (a : Z) (r : ucs_pgt_region_t) : bool := (r_start r <=? a) && (a <? r_end r).

Definition overlaps (r q : ucs_pgt_region_t) : bool :=
  (r_start r <? r_end q) && (r_start q <? r_end r).

Definition spec_insert (R : list ucs_pgt_region_t) (r : ucs_pgt_region_t)
    : ucs_status_t * list ucs_pgt_region_t :=
  if bad_range r then (UCS_ERR_INVALID_PARAM, R)
  else if existsb (overlaps r) R then (UCS_ERR_ALREADY_EXISTS, R)
  else (UCS_OK, r :: R).

Definition spec_lookup (R : list ucs_pgt_region_t) (a : Z) : option ucs_pgt_region_t :=
  List.find (covers a) R.

(** The size of the page of a region around an address: the level of the largest block
    around the address that is inside of the region. *)
Definition page_level (r : ucs_pgt_region_t) (a : Z) : option nat :=
  List.find (λ j, (r_start r <=? blk_start j a) && (blk_start j a + 2 ^ ord j <=? r_end r)) (rev (seq 0 16)).

(** A region that is not in the table is reported as such.  If its start is in a region
    of the table, then the page found there must have the size of the page looked for:
    otherwise an assertion fails. *)
Definition spec_remove (R : list ucs_pgt_region_t) (r : ucs_pgt_region_t)
    : option (ucs_status_t * list ucs_pgt_region_t) :=
  if decide (r ∈ R) then Some (UCS_OK, List.filter (λ q, negb (bool_decide (q = r))) R)
  else if bad_range r then Some (UCS_ERR_NO_ELEM, R)
  else
    match spec_lookup R (r_start r) with
    | Some q => if decide (page_level q (r_start r) = page_level r (r_start r)) then Some (UCS_ERR_NO_ELEM, R) else None
    | None => Some (UCS_ERR_NO_ELEM, R)
    end.

(** The table represents the regions: each address is mapped to the region
    that covers it, by the maximal block of the region around it. *)
Record Rep (t : ucs_pgtable_t) (R : list ucs_pgt_region_t) : Prop := {
  rep_wf : wf_table t;
  rep_valid : ∀ q, q ∈ R → valid_region q;
  rep_nodup : NoDup R;
  rep_disjoint : ∀ q1 q2, q1 ∈ R → q2 ∈ R → overlaps q1 q2 = true → q1 = q2;
  rep_num : num_regions t = wrap 32 (Z.of_nat (length R));
  rep_content : ∀ a, addr_ok a →
    match content t a with
    | Some (j, q) => q ∈ R ∧ maxlvl (r_start q) (r_end q) a j
    | None => ∀ q, q ∈ R → covers a q = false
    end;
}.

(** The address fields of a region are 64-bit. *)
Definition range_ok (r : ucs_pgt_region_t) : Prop := addr_ok (r_start r) ∧ addr_ok (r_end r).

(** Regions are objects: a region of the table at the same address is the same. *)
Definition coherent (R : list ucs_pgt_region_t) (r : ucs_pgt_region_t) : Prop :=
  ∀ q, q ∈ R → r_ptr q = r_ptr r → q = r.

Lemma covers_spec a r : covers a r = true ↔ r_start r ≤ a < r_end r.
Proof. unfold covers. rewrite andb_true_iff, Z.leb_le, Z.ltb_lt. done. Qed.

Lemma overlaps_spec r q : overlaps r q = true ↔ r_start r < r_end q ∧ r_start q < r_end r.
Proof. unfold overlaps. by rewrite andb_true_iff, !Z.ltb_lt. Qed.

Lemma bad_range_spec r : range_ok r → bad_range r = false ↔ valid_region r.
Proof.
  intros [[? ?] [? ?]]. unfold bad_range, valid_region.
  rewrite !orb_false_iff, !negb_false_iff, !aligned_spec, Z.leb_gt. split; [intros [[? ?] ?]|intros (? & ? & ? & ?)]; split_and!; done || lia.
Qed.

Lemma valid_range_ok r : valid_region r → range_ok r.
Proof. intros (_ & _ & ? & ?). unfold range_ok, addr_ok. lia. Qed.

Lemma rep_covered t R a q :
  Rep t R → addr_ok a → q ∈ R → r_start q ≤ a < r_end q →
  ∃ j, content t a = Some (j, q) ∧ maxlvl (r_start q) (r_end q) a j.
Proof.
  intros HR Ha Hq Hin. pose proof (rep_content t R HR a Ha) as Hc.
  destruct (content t a) as [[j q']|].
  - destruct Hc as [Hq' Hm]. apply maxlvl_in in Hm as Hin'.
    assert (q = q') as -> by (apply (rep_disjoint t R HR); [done..|apply overlaps_spec; lia]). eauto.
  - apply Hc, not_true_iff_false in Hq. by rewrite covers_spec in Hq.
Qed.

Lemma rep_init : Rep ucs_pgtable_init [].
Proof.
  destruct wf_init as [Hwf Hc]. split; try (intros * H; by apply elem_of_nil in H).
  - by eapply wf_at_table.
  - constructor.
  - done.
  - intros a _. rewrite Hc. intros q H. by apply elem_of_nil in H.
Qed.

(** ** Refinement of the operations *)

Lemma fuel_64 : 2 ^ 64 ≤ 2 ^ Z.of_nat 64.
Proof. done. Qed.

Lemma spec_lookup_content t R a :
  Rep t R → addr_ok a → snd <$> content t a = spec_lookup R a.
Proof.
  intros HR Ha. unfold spec_lookup.
  destruct (List.find (covers a) R) as [q|] eqn:Hf.
  - apply find_some in Hf as [Hq Hcov]. apply list_elem_of_In in Hq. apply covers_spec in Hcov.
    destruct (rep_covered t R a q HR Ha Hq Hcov) as (j & -> & _). done.
  - pose proof (rep_content t R HR a Ha) as Hc. destruct (content t a) as [[j q]|]; [|done].
    destruct Hc as [Hq Hm]. apply maxlvl_in, covers_spec in Hm.
    rewrite (find_none _ _ Hf q) in Hm; [done|]. by apply list_elem_of_In.
Qed.

Lemma lookup_refines t R a :
  Rep t R → addr_ok a → ucs_pgtable_lookup t a = Some (spec_lookup R a).
Proof.
  intros HR Ha. rewrite <- (spec_lookup_content t R a) by done. apply lookup_spec; [apply HR|done|].
  intros j q E. pose proof (rep_content t R HR a Ha) as Hc. rewrite E in Hc. destruct Hc as [_ Hm].
  by apply maxlvl_in in Hm.
Qed.

Lemma maxlvl_page_level r a j : valid_region r → maxlvl (r_start r) (r_end r) a j → page_level r a = Some j.
Proof.
  intros (_ & _ & H1 & H2) [[Hb1 Hb2] Hmax]. unfold page_level.
  assert (j < 16)%nat as Hj.
  { destruct (decide (j < 16)%nat) as [|Hge]; [done|]. pose proof (ord_mono 16 j ltac:(lia)).
    change (2 ^ ord 16) with (2 ^ 68) in *. lia. }
  set (f := λ j, (r_start r <=? blk_start j a) && (blk_start j a + 2 ^ ord j <=? r_end r)).
  assert (Hf : ∀ i, f i = true ↔ block_in (r_start r) (r_end r) a i)
    by (intros i; unfold f, block_in; by rewrite andb_true_iff, !Z.leb_le).
  assert (Hgen : ∀ n, (j < n)%nat → List.find f (rev (seq 0 n)) = Some j); [|by apply Hgen].
  induction n as [|n IH]; [lia|]. intros Hn. rewrite seq_S, rev_app_distr. cbn [rev app List.find Nat.add].
  destruct (f n) eqn:E.
  - apply Hf, Hmax in E. f_equal. lia.
  - apply IH. destruct (decide (j = n)) as [->|]; [|lia]. by rewrite (proj2 (Hf n)) in E.
Qed.

Lemma overlap_iff_mapped t R r :
  Rep t R → valid_region r →
  existsb (overlaps r) R = true ↔
    ∃ a, addr_ok a ∧ r_start r ≤ a < r_end r ∧ is_Some (content t a).
Proof.
  intros HR (_ & _ & Hr1 & Hr2). rewrite existsb_exists. split.
  - intros (q & Hq & Ho). apply list_elem_of_In in Hq. apply overlaps_spec in Ho.
    destruct (rep_valid t R HR q Hq) as (_ & _ & Hq1 & Hq2).
    assert (addr_ok (Z.max (r_start r) (r_start q))) as Ha by (unfold addr_ok; lia).
    destruct (rep_covered t R _ q HR Ha Hq) as (j & Hc & _); [lia|].
    eexists. split; [exact Ha|]. split; [lia|]. by rewrite Hc.
  - intros (a & Ha & Hin & Hs). pose proof (rep_content t R HR a Ha) as Hc.
    destruct (content t a) as [[j q]|]; [|by destruct Hs].
    destruct Hc as [Hq Hm]. apply maxlvl_in in Hm. exists q. split; [by apply list_elem_of_In|].
    apply overlaps_spec. lia.
Qed.

(** A table that only differs in shape represents the same regions. *)
Lemma rep_same_content t t' R :
  Rep t R → wf_table t' → num_regions t' = num_regions t →
  (∀ a, addr_ok a → content t' a = content t a) → Rep t' R.
Proof.
  intros HR Hwf Hn Hc. split; try apply HR; [done| |].
  - rewrite Hn. apply HR.
  - intros a Ha. rewrite Hc by done. by apply (rep_content t R HR).
Qed.

Lemma rep_add t t' R r :
  Rep t R → valid_region r → existsb (overlaps r) R = false →
  painted r (content t) (num_regions t) t' (r_start r) (r_end r) →
  Rep (set_num_regions t' (wrap 32 (num_regions t' + 1))) (r :: R).
Proof.
  intros HR Hr Hno (Hwf & Hn & Hc).
  assert (∀ q, q ∈ R → overlaps r q = false) as Hno'.
  { intros q Hq. apply not_true_iff_false. intros Ho. rewrite <- not_true_iff_false in Hno.
    apply Hno, existsb_exists. exists q. split; [by apply list_elem_of_In|done]. }
  assert (∀ q, overlaps q r = overlaps r q) as Hsym by (intros; apply andb_comm).
  split.
  - destruct Hwf. by split.
  - intros q [->|Hq]%elem_of_cons; [done|]. by apply (rep_valid t R HR).
  - apply NoDup_cons. split; [|apply HR]. intros Hin. apply Hno', not_true_iff_false in Hin.
    apply Hin, overlaps_spec. destruct Hr. lia.
  - intros q1 q2 [->|H1]%elem_of_cons [->|H2]%elem_of_cons Ho; [done| | |].
    + by rewrite Hno' in Ho.
    + by rewrite Hsym, Hno' in Ho.
    + by apply (rep_disjoint t R HR).
  - cbn [num_regions set_num_regions length]. rewrite Hn, (rep_num t R HR). unfold wrap.
    rewrite Zplus_mod_idemp_l. f_equal. lia.
  - intros a Ha. change (content (set_num_regions _ _) a) with (content t' a).
    destruct (Hc a Ha) as [Hin Hout]. destruct (decide (r_start r ≤ a < r_end r)) as [E|E].
    + destruct (Hin E) as (_ & j & -> & Hm). split; [by left|done].
    + rewrite (Hout E). pose proof (rep_content t R HR a Ha) as Hca.
      destruct (content t a) as [[j q]|]; [destruct Hca; split; [by right|done]|].
      intros q [->|Hq]%elem_of_cons; [|by apply Hca].
      apply not_true_iff_false. by rewrite covers_spec.
Qed.

Lemma insert_refines t R r :
  Rep t R → range_ok r →
  ∃ t', ucs_pgtable_insert t r = Some (fst (spec_insert R r), t') ∧
    Rep t' (snd (spec_insert R r)).
Proof.
  intros HR Hok. unfold ucs_pgtable_insert, spec_insert.
  destruct (bad_range r) eqn:Hbad; [by exists t|]. apply bad_range_spec in Hbad as Hr; [|done].
  destruct (insert_loop_spec r Hr 64 t fuel_64 (rep_wf t R HR))
    as ([[status x] t1] & -> & Hp & Hpt & [[-> ->]|[-> Hex]]); run.
  - rewrite decide_True by done. destruct (existsb (overlaps r) R) eqn:Ho.
    + apply (overlap_iff_mapped t R r HR Hr) in Ho as (a & Ha & Hin & Hs).
      destruct Hpt as (_ & _ & Hc). destruct (Hc a Ha) as [Hc1 _].
      destruct (Hc1 Hin) as [E _]. rewrite E in Hs. by destruct Hs.
    + eexists. split; [done|]. cbn [snd]. by eapply rep_add.
  - rewrite decide_False by done.
    rewrite (proj2 (overlap_iff_mapped t R r HR Hr) Hex).
    destruct (revert_loop_spec r Hr 64 _ _ t1 x fuel_64 Hp Hpt) as (t2 & -> & Hwf & Hn & Hc). run.
    exists t2. split; [done|]. by apply (rep_same_content t).
Qed.

(** The first page of a region. *)
Lemma first_page r :
  valid_region r →
  ∃ j, (j ≤ 14)%nat ∧ ucs_pgtable_get_next_page_order (r_start r) (r_end r) = Some (ord j) ∧
    blk_start j (r_start r) = r_start r ∧ page_level r (r_start r) = Some j.
Proof.
  intros Hr. destruct (page_step r Hr (r_start r) (r_end r)) as (j & Hj & Ho & _ & Hst & _ & _ & _ & _ & Hmax);
    [by apply on_path_start|by apply on_path_end|destruct Hr as (_ & _ & ? & _); lia|].
  exists j. split_and!; [done..|]. apply maxlvl_page_level; [done|by apply Hmax].
Qed.

Lemma remove_loop_foreign n t R r :
  Rep t R → valid_region r → coherent R r → r ∉ R →
  loop_result (loop (remove_step r (r_end r)) n (r_start r, t)) =
    match spec_lookup R (r_start r) with
    | Some q => if decide (page_level q (r_start r) = page_level r (r_start r)) then Some (UCS_ERR_NO_ELEM, t) else None
    | None => Some (UCS_ERR_NO_ELEM, t)
    end.
Proof.
  intros HR Hr Hcoh Hnin. set (rhs := match spec_lookup R (r_start r) with Some _ => _ | None => _ end).
  enough (remove_step r (r_end r) (r_start r, t) = inr rhs) as E by by rewrite (loop_first _ _ _ _ E).
  destruct (first_page r Hr) as (i & Hi & Ho & Hst & Hlvl). pose proof Hr as (_ & _ & ? & ?).
  assert (addr_ok (r_start r)) as Ha by (unfold addr_ok; lia).
  pose proof (rep_content t R HR (r_start r) Ha) as Hc. unfold rhs. rewrite <- (spec_lookup_content t R) by done.
  unfold remove_step, body. rewrite (proj2 (Z.ltb_lt _ _)), Ho by lia. run.
  destruct (remove_page_spec t (r_start r) i r) as [(t' & q & -> & _ & E & Hp & _)|[[-> Hno]|[-> (j & q & E & Hne)]]];
    [apply HR|done|lia|done| | |]; run.
  - rewrite E in Hc. destruct Hc as [Hq _]. pose proof (Hcoh q Hq Hp). by subst.
  - rewrite decide_False, Z.eqb_refl by done. destruct (content t (r_start r)) as [[j q]|]; [|done].
    destruct (Hno j q eq_refl) as [_ ->], Hc as [Hq Hm]. run.
    apply maxlvl_page_level in Hm; [|by apply (rep_valid t R HR)]. by rewrite Hm, Hlvl, decide_True.
  - rewrite E in *. destruct Hc as [Hq Hm]. run. apply maxlvl_page_level in Hm; [|by apply (rep_valid t R HR)].
    rewrite Hm, Hlvl, decide_False; [done|congruence].
Qed.

Lemma elem_of_except (R : list ucs_pgt_region_t) r q :
  q ∈ List.filter (λ q, negb (bool_decide (q = r))) R ↔ q ∈ R ∧ q ≠ r.
Proof.
  rewrite !list_elem_of_In, filter_In, negb_true_iff, bool_decide_eq_false. done.
Qed.

Lemma rep_delete t t' R r :
  Rep t R → r ∈ R → wf_table t' → num_regions t' = num_regions t →
  (∀ a, addr_ok a → content t' a = if decide (r_start r ≤ a < r_end r) then None else content t a) →
  Rep (set_num_regions t' (wrap 32 (num_regions t' - 1)))
      (List.filter (λ q, negb (bool_decide (q = r))) R).
Proof.
  intros HR Hin Hwf Hn Hc. split.
  - destruct Hwf. by split.
  - intros q [Hq _]%elem_of_except. by apply (rep_valid t R HR).
  - apply NoDup_ListNoDup, List.NoDup_filter, NoDup_ListNoDup, HR.
  - intros q1 q2 [H1 _]%elem_of_except [H2 _]%elem_of_except. by apply (rep_disjoint t R HR).
  - cbn [num_regions set_num_regions]. rewrite Hn, (rep_num t R HR).
    replace (length R) with (length (List.filter (λ _ : ucs_pgt_region_t, true) R)) by (clear; induction R; cbn; congruence).
    rewrite (length_filter_except (λ _, true) (λ q, negb (bool_decide (q = r))) r R);
      [|apply HR|done|done|intros; by rewrite andb_true_r].
    unfold wrap. rewrite Zminus_mod_idemp_l. f_equal. lia.
  - intros a Ha. change (content (set_num_regions _ _) a) with (content t' a). rewrite Hc by done.
    pose proof (rep_content t R HR a Ha) as Hca. case_decide as E.
    + intros q [Hq Hne]%elem_of_except. apply not_true_iff_false. intros Hcov. apply Hne.
      apply covers_spec in Hcov. apply (rep_disjoint t R HR); [done..|apply overlaps_spec; lia].
    + destruct (content t a) as [[j q]|].
      * destruct Hca as [Hq Hm]. split; [|done]. apply elem_of_except. split; [done|].
        intros ->. by apply maxlvl_in in Hm.
      * intros q [Hq _]%elem_of_except. by apply Hca.
Qed.

Lemma rep_num_pos t R r : Rep t R → r ∈ R → Z.of_nat (length R) < 2 ^ 32 → 0 < num_regions t.
Proof.
  intros HR Hr Hlen. rewrite (rep_num t R HR), wrap_small by lia.
  destruct R; [by apply elem_of_nil in Hr|cbn; lia].
Qed.

Lemma remove_refines t R r :
  Rep t R → range_ok r → coherent R r → Z.of_nat (length R) < 2 ^ 32 →
  match spec_remove R r with
  | Some (status, R') => ∃ t', ucs_pgtable_remove t r = Some (status, t') ∧ Rep t' R'
  | None => ucs_pgtable_remove t r = None
  end.
Proof.
  intros HR Hok Hcoh Hlen. unfold ucs_pgtable_remove, spec_remove.
  destruct (bad_range r) eqn:Hbad.
  { rewrite decide_False; [by exists t|]. intros Hin. apply (rep_valid t R HR) in Hin.
    apply bad_range_spec in Hin; [congruence|done]. }
  apply bad_range_spec in Hbad as Hr; [|done]. case_decide as Hin.
  - set (c0 := λ a, if decide (r_start r ≤ a < r_end r) then None else content t a).
    destruct (remove_loop_spec r Hr 64 c0 (num_regions t) t fuel_64) as (t' & -> & Hwf & Hn & Hc).
    + split; [apply HR|]. split; [done|]. intros a Ha. unfold c0. split; intros E.
      * rewrite decide_True by done. split; [done|]. by apply (rep_covered t R).
      * by rewrite decide_False.
    + run. rewrite decide_True by done. pose proof (rep_num_pos t R r HR Hin Hlen).
      rewrite (proj2 (Z.ltb_lt 0 _)) by lia. eexists. split; [done|]. by apply (rep_delete t).
  - rewrite (remove_loop_foreign 64 t R r HR Hr Hcoh Hin). destruct (spec_lookup R (r_start r)) as [q|].
    + case_decide; [|done]. run. rewrite decide_False by done. by exists t.
    + run. rewrite decide_False by done. by exists t.
Qed.

(** ** Sequences of operations *)

Inductive pgt_op :=
| OpInsert (r : ucs_pgt_region_t)
| OpRemove (r : ucs_pgt_region_t)
| OpLookup (a : Z).

Inductive pgt_res :=
| ResStatus (status : ucs_status_t)
| ResRegion (r : option ucs_pgt_region_t).

Fixpoint run_table (ops : list pgt_op) (t : ucs_pgtable_t) : option (list pgt_res) :=
  match ops with
  | [] => Some []
  | OpInsert r :: ops => '(st, t') ← ucs_pgtable_insert t r; cons (ResStatus st) <$> run_table ops t'
  | OpRemove r :: ops => '(st, t') ← ucs_pgtable_remove t r; cons (ResStatus st) <$> run_table ops t'
  | OpLookup a :: ops => x ← ucs_pgtable_lookup t a; cons (ResRegion x) <$> run_table ops t
  end.

Fixpoint run_regions (ops : list pgt_op) (R : list ucs_pgt_region_t) : option (list pgt_res) :=
  match ops with
  | [] => Some []
  | OpInsert r :: ops => let '(st, R') := spec_insert R r in cons (ResStatus st) <$> run_regions ops R'
  | OpRemove r :: ops => '(st, R') ← spec_remove R r; cons (ResStatus st) <$> run_regions ops R'
  | OpLookup a :: ops => cons (ResRegion (spec_lookup R a)) <$> run_regions ops R
  end.

(** What the callers guarantee: 64-bit addresses, and one region object per
    address ([heap]), not modified between the calls. *)
Definition op_ok (heap : Z → ucs_pgt_region_t) (op : pgt_op) : Prop :=
  match op with
  | OpInsert r | OpRemove r => range_ok r ∧ heap (r_ptr r) = r
  | OpLookup a => addr_ok a
  end.

Lemma spec_remove_subset R r st R' :
  spec_remove R r = Some (st, R') → (∀ q, q ∈ R' → q ∈ R) ∧ (length R' ≤ length R)%nat.
Proof.
  unfold spec_remove. case_decide; [|destruct (bad_range r), (spec_lookup R (r_start r)); try case_decide];
    intros; simplify_eq; try done.
  split; [intros q Hq; by apply elem_of_except in Hq as [? _]|apply List.filter_length_le].
Qed.

Lemma run_table_refines heap ops t R :
  Rep t R → (∀ q, q ∈ R → heap (r_ptr q) = q) → Z.of_nat (length R + length ops) < 2 ^ 32 →
  Forall (op_ok heap) ops → run_table ops t = run_regions ops R.
Proof.
  intros HR Hheap Hlen Hops. revert t R HR Hheap Hlen.
  induction Hops as [|op ops Hop Hops IH]; intros t R HR Hheap Hlen; [done|]. cbn [length] in Hlen.
  destruct op as [r|r|a]; cbn [run_table run_regions].
  - destruct Hop as [Hok Hh]. destruct (insert_refines t R r HR Hok) as (t' & -> & HR').
    destruct (spec_insert R r) as [st R'] eqn:E. run. unfold spec_insert in E.
    rewrite (IH t' R' HR'); [done| |].
    + intros q Hq. destruct (bad_range r), (existsb (overlaps r) R); simplify_eq; auto.
      apply elem_of_cons in Hq as [->|Hq]; auto.
    + destruct (bad_range r), (existsb (overlaps r) R); simplify_eq; cbn [length]; lia.
  - destruct Hop as [Hok Hh]. assert (coherent R r) as Hcoh.
    { intros q Hq Hp. rewrite <- (Hheap q Hq), Hp. done. }
    pose proof (remove_refines t R r HR Hok Hcoh ltac:(lia)) as H.
    destruct (spec_remove R r) as [[st R']|] eqn:E; [|by rewrite H].
    destruct H as (t' & -> & HR'). apply spec_remove_subset in E as [Hsub Hl]. run.
    rewrite (IH t' R' HR'); [done|auto|lia].
  - rewrite (lookup_refines t R a HR Hop). run. by rewrite (IH t R HR Hheap ltac:(lia)).
Qed.

(** C1: any sequence of fewer than 2^32 insertions, removals and lookups on a fresh
    page table returns what the same sequence returns on a plain list of disjoint
    regions: insertion fails exactly on an overlap (or a bad range) and then
    changes nothing, removal succeeds exactly on an inserted region, and a
    lookup finds the region that covers the address.  Of the assertions of the code
    one can fail, and the list says when: a region that is not in the table is
    removed, its start is in a region of the table, and the pages of the two regions
    around the start differ in size. *)
Theorem pgtable_refines_regions heap ops :
  Z.of_nat (length ops) < 2 ^ 32 → Forall (op_ok heap) ops →
  run_table ops ucs_pgtable_init = run_regions ops [].
Proof.
  intros Hlen Hops. apply (run_table_refines heap); [apply rep_init| |done|done].
  intros q Hq. by apply elem_of_nil in Hq.
Qed.

Definition ex_a : ucs_pgt_region_t := mk_region 1 0x1000 0x3010.
Definition ex_b : ucs_pgt_region_t := mk_region 2 0x3010 0xfffffff000.
Definition ex_c : ucs_pgt_region_t := mk_region 3 0x0ff0 0x1010.
Definition ex_heap (p : Z) : ucs_pgt_region_t :=
  if p =? 1 then ex_a else if p =? 2 then ex_b else ex_c.
Definition ex_ops : list pgt_op :=
  [OpInsert ex_a; OpInsert ex_b; OpInsert ex_c; OpLookup 0x300f; OpLookup 0x3010;
   OpLookup 0xff8; OpRemove ex_c; OpRemove ex_a; OpLookup 0x1000; OpInsert ex_c; OpLookup 0xff8].

(** A region inside of a page of [ex_a]. *)
Definition ex_d : ucs_pgt_region_t := mk_region 3 0x1010 0x1020.
Definition ex_heap_d (p : Z) : ucs_pgt_region_t := if p =? 1 then ex_a else ex_d.

Lemma pgtable_refines_witness :
  run_table ex_ops ucs_pgtable_init =
    Some [ResStatus UCS_OK; ResStatus UCS_OK; ResStatus UCS_ERR_ALREADY_EXISTS;
          ResRegion (Some ex_a); ResRegion (Some ex_b); ResRegion None;
          ResStatus UCS_ERR_NO_ELEM; ResStatus UCS_OK; ResRegion None; ResStatus UCS_OK;
          ResRegion (Some ex_c)] ∧
  run_table [OpInsert ex_a; OpRemove ex_d] ucs_pgtable_init = None.
Proof.
  split.
  - rewrite (pgtable_refines_regions ex_heap ex_ops); [vm_compute; reflexivity|done|].
    repeat constructor; vm_compute; congruence.
  - rewrite (pgtable_refines_regions ex_heap_d); [vm_compute; reflexivity|done|].
    repeat constructor; vm_compute; congruence.
Defined.

End PgTableSpec.
