(* ===== verification/PgTableSearch.v ===== *)
(** * Range search and purge of the UCS page table

    [ucs_pgtable_search_range] reports each region that meets the range once,
    in increasing address order, and [ucs_pgtable_purge] removes every region.
    The search is followed page by page: [scanned lo x] says that the regions
    reported so far are those that meet the addresses from [lo] to [x]. *)

From stdpp Require Import base numbers list sorting.
From S2P Require Import Prelude PgTable PgTableInv PgTableSpec.
Import PgTable PgTableInv PgTableSpec.

Local Open Scope Z_scope.

Module PgTableSearch.

(** The callback of a leaf page. *)
Definition visit (st : search_state) (region : ucs_pgt_region_t) : search_state :=
  if same_region (snd st) region then st else (fst st ++ [region], Some region).

Definition before (q1 q2 : ucs_pgt_region_t) : Prop := r_end q1 ≤ r_start q2.

(** The region has an address between [lo] and [x]. *)
Definition touched (lo x : Z) (q : ucs_pgt_region_t) : Prop :=
  Z.max lo (r_start q) < Z.min x (r_end q).

Lemma sorted_snoc l q :
  StronglySorted before l → (∀ q', q' ∈ l → before q' q) → StronglySorted before (l ++ [q]).
Proof.
  induction 1 as [|q' l Hl IH Hall]; intros H; cbn; [repeat constructor|].
  constructor.
  - apply IH. intros q1 Hq1. apply H. by right.
  - apply Forall_app. split; [done|]. repeat constructor. apply H. by left.
Qed.

(** An element of a sorted list is the last or before it. *)
Lemma sorted_last l q :
  StronglySorted before l → q ∈ l → ∃ q', last l = Some q' ∧ q' ∈ l ∧ (q = q' ∨ before q q').
Proof.
  intros Hl Hq. destruct l as [|q0 l _] using rev_ind; [by apply elem_of_nil in Hq|].
  exists q0. rewrite last_snoc. split; [done|]. split; [apply elem_of_app; right; by left|].
  apply elem_of_app in Hq as [Hq|Hq]; [right|left; by apply list_elem_of_singleton in Hq].
  induction l as [|q1 l IH]; [by apply elem_of_nil in Hq|].
  apply StronglySorted_inv in Hl as [Hl Hall]. apply elem_of_cons in Hq as [->|Hq]; [|by apply IH].
  rewrite Forall_app in Hall. destruct Hall as [_ Hall]. by inversion Hall.
Qed.

Section search.
Context (t : ucs_pgtable_t) (R : list ucs_pgt_region_t) (HR : Rep t R).
Context (Hptr : ∀ q1 q2, q1 ∈ R → q2 ∈ R → r_ptr q1 = r_ptr q2 → q1 = q2).

Definition scanned (lo x : Z) (st : search_state) : Prop :=
  StronglySorted before (fst st) ∧ (∀ q, q ∈ fst st ↔ q ∈ R ∧ touched lo x q) ∧
  snd st = last (fst st).

Lemma scanned_start lo : scanned lo lo ([], None).
Proof.
  split; [constructor|]. split; [|done]. intros q. cbn. unfold touched.
  split; [intros H; by apply elem_of_nil in H|lia].
Qed.

Lemma region_nonempty q : q ∈ R → r_start q < r_end q.
Proof. intros Hq. destruct (rep_valid t R HR q Hq) as (_ & _ & ? & _). lia. Qed.

(** A page that is mapped to no region. *)
Lemma scanned_gap lo x y st :
  x ≤ y → (∀ q, q ∈ R → ¬ touched x y q) → scanned lo x st → scanned lo y st.
Proof.
  intros Hxy Hgap (Hs & Hin & Hl). split; [done|]. split; [|done]. intros q. rewrite Hin.
  split; intros [Hq Ht]; (split; [done|]); pose proof (Hgap q Hq); pose proof (region_nonempty q Hq);
    unfold touched in *; lia.
Qed.

Lemma disjoint_regions q1 q2 :
  q1 ∈ R → q2 ∈ R → q1 ≠ q2 → r_end q1 ≤ r_start q2 ∨ r_end q2 ≤ r_start q1.
Proof.
  intros H1 H2 Hne. destruct (overlaps q1 q2) eqn:E.
  - by apply (rep_disjoint t R HR) in E.
  - rewrite <- not_true_iff_false, overlaps_spec in E. lia.
Qed.

(** A page that is mapped to one region. *)
Lemma scanned_page lo x y st q :
  lo ≤ x → x < y → q ∈ R → r_start q ≤ x → y ≤ r_end q → scanned lo x st →
  scanned lo y (visit st q).
Proof.
  intros Hlo Hxy Hq Hqs Hqe (Hs & Hin & Hl).
  assert (∀ q', q' ∈ R → q' ≠ q → touched lo y q' ↔ touched lo x q') as Hother.
  { intros q' Hq' Hne. destruct (disjoint_regions q' q); [done..| |]; unfold touched; lia. }
  assert (touched lo y q) as Hqy by (unfold touched; lia).
  unfold visit. destruct (decide (q ∈ fst st)) as [Hqin|Hnin].
  - destruct (sorted_last _ q Hs Hqin) as (q' & Hlast & Hq' & Hord).
    assert (q = q') as <-.
    { destruct Hord as [|Hord]; [done|]. apply Hin in Hq' as [_ Ht].
      unfold before, touched in *. lia. }
    rewrite Hl, Hlast. cbn. rewrite Z.eqb_refl. split; [done|]. split; [|congruence].
    intros q'. rewrite Hin. destruct (decide (q' = q)) as [->|Hne].
    + apply Hin in Hqin. tauto.
    + split; intros [? ?]; (split; [done|]); by apply Hother.
  - replace (same_region (snd st) q) with false.
    2: { symmetry. apply not_true_iff_false. intros Hsame. rewrite Hl in Hsame.
         destruct (last (fst st)) as [q'|] eqn:Hlast; [|done].
         apply last_Some_elem_of in Hlast as Hq'. cbn in Hsame. apply Z.eqb_eq in Hsame.
         assert (q' = q) as -> by (apply Hptr; [by apply Hin|done..]). done. }
    split; [|split; [|cbn [fst snd]; by rewrite last_snoc]].
    + apply sorted_snoc; [done|]. intros q' Hq'. apply Hin in Hq' as HR'. destruct HR' as [HR' Ht].
      unfold before. assert (¬ touched lo x q) as Hnt by (intros ?; apply Hnin, Hin; done).
      destruct (disjoint_regions q' q) as [|H]; [done..|intros ->; done|done|].
      unfold touched in *. lia.
    + intros q'. cbn [fst]. rewrite elem_of_app, Hin, list_elem_of_singleton.
      destruct (decide (q' = q)) as [->|Hne]; [tauto|].
      split; [intros [[? ?]|?]; [split; [done|by apply Hother]|done]|].
      intros [? ?]. left. split; [done|by apply Hother].
Qed.

Lemma unmapped_gap x y :
  0 ≤ x → y ≤ 2 ^ 64 → (∀ a, x ≤ a < y → content t a = None) → ∀ q, q ∈ R → ¬ touched x y q.
Proof.
  intros Hx Hy Hc q Hq Ht. unfold touched in Ht.
  destruct (rep_covered t R (Z.max x (r_start q)) q HR) as (j & E & _);
    [unfold addr_ok; lia|done|lia|]. rewrite Hc in E by lia. done.
Qed.

Lemma mapped_page x y j q :
  0 ≤ x < y → y ≤ 2 ^ 64 → (∀ a, x ≤ a < y → content t a = Some (j, q)) →
  q ∈ R ∧ r_start q ≤ x ∧ y ≤ r_end q.
Proof.
  intros Hx Hy Hc.
  pose proof (rep_content t R HR x ltac:(unfold addr_ok; lia)) as H1. rewrite Hc in H1 by lia.
  pose proof (rep_content t R HR (y - 1) ltac:(unfold addr_ok; lia)) as H2. rewrite Hc in H2 by lia.
  destruct H1 as [Hq H1], H2 as [_ H2]. apply maxlvl_in in H1, H2. split; [done|lia].
Qed.

(** The block of level [k] at [x] is what the entry holds. *)
Definition block_of (k : nat) (pte : ucs_pgt_entry_t) (x : Z) : Prop :=
  wf_pte k pte ∧ blk_start k x = x ∧ 0 ≤ x ∧ x + 2 ^ ord k ≤ 2 ^ 64 ∧
  ∀ a, x ≤ a < x + 2 ^ ord k → content t a = findl k pte a.

Lemma child_block k es c x n e :
  block_of (S k) (PteDir es c) x → es !! n = Some e → block_of k e (x + Z.of_nat n * 2 ^ ord k).
Proof.
  intros (Hwf & Hst & Hx & Hend & Hc) He. cbn in Hwf. destruct Hwf as (Hl & Hall & _ & _).
  assert (n < 16)%nat as Hn by (rewrite <- Hl; by eapply lookup_lt_Some).
  pose proof (ord_S k). pose proof (ord_pos k).
  assert (∀ a, x + Z.of_nat n * 2 ^ ord k ≤ a < x + Z.of_nat n * 2 ^ ord k + 2 ^ ord k →
    blk k a = 16 * blk (S k) x + Z.of_nat n) as Hblk.
  { intros a Ha. apply blk_iff. unfold blk_start in Hst. nia. }
  split_and!; [by eapply Forall_lookup_1| |nia|nia|].
  - unfold blk_start. rewrite Hblk by lia. unfold blk_start in Hst. nia.
  - intros a Ha. rewrite Hc by nia. cbn [findl].
    assert (idx k a = n) as ->; [|by rewrite He].
    unfold idx. rewrite Hblk by done. rewrite Z.add_comm, Z.mul_comm, Z_mod_plus_full.
    rewrite Z.mod_small by lia. lia.
Qed.

(** The block at [x] is in the page that is searched. *)
Definition in_page (address order x : Z) : Prop :=
  0 ≤ address ≤ x ∧ x ≤ address + UCS_MASK order ∧ address + UCS_MASK order < 2 ^ 64.

Lemma in_page_ord address j x :
  (j ≤ 15)%nat → 0 ≤ address ≤ x → x < address + 2 ^ ord j → address + 2 ^ ord j ≤ 2 ^ 64 →
  in_page address (ord j) x.
Proof.
  intros Hj Ha Hx He. unfold in_page, UCS_MASK. destruct (Z.leb_spec 64 (ord j)) as [H64|H64]; [|lia].
  assert (j = 15%nat) as -> by (unfold ord in H64; lia). change (2 ^ ord 15) with (2 ^ 64) in *. lia.
Qed.

(** The assertions hold for a region that is found in the right order. *)
Lemma search_region fuel address order shift q st x lo :
  q ∈ R → r_start q ≤ x < r_end q → lo ≤ x → in_page address order x → scanned lo x st →
  ucs_pgtable_search_recurs (S fuel) address order shift (PteRegion q) st = Some (visit st q).
Proof.
  intros Hq Hqx Hlo (Ha & Hx & He) (Hs & Hin & Hl). cbn [ucs_pgtable_search_recurs]. unfold visit.
  destruct (same_region (snd st) q) eqn:Hsame; [done|].
  destruct (rep_valid t R HR q Hq) as (_ & _ & Hq1 & Hq2). unfold search_checks.
  rewrite !wrap_small by lia. rewrite (proj2 (Z.leb_le (Z.max _ _) _)) by lia. rewrite andb_true_r, Hl in *.
  destruct (last (fst st)) as [l|] eqn:Hlast; [|done]. apply last_Some_elem_of, Hin in Hlast as [HlR Ht].
  cbn in Hsame. assert (l ≠ q) as Hne by (intros ->; by rewrite Z.eqb_refl in Hsame).
  unfold touched in Ht. destruct (disjoint_regions l q HlR Hq Hne); [|lia].
  by rewrite (proj2 (Z.leb_le _ _)).
Qed.

Lemma dir_or_leaf pte : (∃ es c, pte = PteDir es c) ∨ ∀ es c, pte ≠ PteDir es c.
Proof. destruct pte; [right|right|left]; eauto. Qed.

(** A page inside an entry that is not a directory. *)
Lemma leaf_scanned k pte fuel address order shift x y st lo :
  (∀ es c, pte ≠ PteDir es c) → 0 ≤ x < y → y ≤ 2 ^ 64 → lo ≤ x →
  (∀ a, x ≤ a < y → content t a = findl k pte a) → in_page address order x → scanned lo x st →
  ∃ st', ucs_pgtable_search_recurs (S fuel) address order shift pte st = Some st' ∧
    scanned lo y st'.
Proof.
  intros Hnd Hx Hy Hlo Hc Hpg Hs. destruct pte as [|q|es c]; [| |by destruct (Hnd es c)].
  - exists st. split; [done|]. apply (scanned_gap lo x); [lia| |done].
    apply unmapped_gap; [lia|lia|]. intros a Ha. by rewrite Hc, findl_empty.
  - destruct (mapped_page x y k q) as (? & ? & ?); [lia|lia|intros a Ha; by rewrite Hc, findl_region|].
    rewrite (search_region fuel address order shift q st x lo) by (done || lia).
    eexists. split; [done|]. apply (scanned_page lo x); done || lia.
Qed.

(** The entries of a directory, one after the other. *)
Lemma search_entries k (f : ucs_pgt_entry_t → search_state → option search_state) lo : ∀ es x st,
  (∀ n e st, es !! n = Some e → scanned lo (x + Z.of_nat n * 2 ^ ord k) st →
     ∃ st', f e st = Some st' ∧ scanned lo (x + Z.of_nat n * 2 ^ ord k + 2 ^ ord k) st') →
  scanned lo x st →
  ∃ st', foldl (λ acc e, st' ← acc; f e st') (Some st) es = Some st' ∧
    scanned lo (x + Z.of_nat (length es) * 2 ^ ord k) st'.
Proof.
  induction es as [|e es IH]; intros x st Hf Hs.
  - exists st. split; [done|]. cbn [length]. by rewrite Z.mul_0_l, Z.add_0_r.
  - destruct (Hf O e st) as (st1 & E & Hs1); [done|by rewrite Z.mul_0_l, Z.add_0_r|].
    rewrite Z.mul_0_l, Z.add_0_r in Hs1. cbn [foldl]. run. rewrite E.
    destruct (IH (x + 2 ^ ord k) st1) as (st2 & E2 & Hs2); [|done|].
    + intros n e' st' He Hst. specialize (Hf (S n) e' st' He).
      replace (x + Z.of_nat (S n) * 2 ^ ord k) with (x + 2 ^ ord k + Z.of_nat n * 2 ^ ord k) in Hf by lia.
      by apply Hf.
    + exists st2. split; [done|]. cbn [length].
      replace (x + Z.of_nat (S (length es)) * 2 ^ ord k)
        with (x + 2 ^ ord k + Z.of_nat (length es) * 2 ^ ord k) by lia. done.
Qed.

(** A whole subtree is reported in address order. *)
Lemma search_all k : ∀ pte fuel address j x lo st,
  block_of k pte x → (k < fuel)%nat → (k ≤ j ≤ 15)%nat → lo ≤ x →
  0 ≤ address ≤ x → x + 2 ^ ord k ≤ address + 2 ^ ord j → address + 2 ^ ord j ≤ 2 ^ 64 → scanned lo x st →
  ∃ st', ucs_pgtable_search_recurs fuel address (ord j) (ord k) pte st = Some st' ∧
    scanned lo (x + 2 ^ ord k) st'.
Proof.
  induction k as [|k IH]; intros pte [|fuel] address j x lo st Hb Hf Hj Hlo Hax Hxj He Hs; try lia;
    pose proof Hb as (Hwf & Hst & Hx & Hend & Hc).
  { pose proof (ord_pos 0). apply (leaf_scanned 0 pte fuel address (ord j) (ord 0) x); try done; [by intros es c ->|lia|].
    apply in_page_ord; lia. }
  destruct (dir_or_leaf pte) as [(es & c & ->)|Hnd].
  2: { pose proof (ord_pos (S k)). apply (leaf_scanned (S k) pte fuel address (ord j) (ord (S k)) x); try done; [lia|].
       apply in_page_ord; lia. }
  cbn [ucs_pgtable_search_recurs].
  rewrite (proj2 (Z.leb_le UCS_PGT_ENTRY_SHIFT _)) by (unfold ord, UCS_PGT_ENTRY_SHIFT; lia).
  replace (ord (S k) - UCS_PGT_ENTRY_SHIFT) with (ord k) by (unfold ord, UCS_PGT_ENTRY_SHIFT; lia).
  destruct (Z.ltb_spec (ord j) (ord (S k))); [unfold ord in *; lia|].
  cbn in Hwf. destruct Hwf as (Hl & _).
  destruct (search_entries k (λ e, ucs_pgtable_search_recurs fuel address (ord j) (ord k) e) lo es x st)
    as (st' & E & Hs'); [|done|].
  - intros n e st1 Hn Hs1. pose proof (ord_pos k). pose proof (ord_S k).
    assert (n < 16)%nat by (rewrite <- Hl; by eapply lookup_lt_Some).
    apply (IH e fuel address j); [by eapply child_block|lia|lia|nia|nia|nia|done|done].
  - exists st'. split; [done|]. rewrite Hl in Hs'. rewrite ord_S. done.
Qed.

(** The descent to the page of level [j] at [x]. *)
Lemma search_descend j k : ∀ pte fuel x lo st b,
  block_of k pte b → (j ≤ k)%nat → (k < fuel)%nat → (k ≤ 15)%nat → blk_start j x = x → blk k x = blk k b →
  lo ≤ x → scanned lo x st →
  ∃ st', ucs_pgtable_search_recurs fuel x (ord j) (ord k) pte st = Some st' ∧
    scanned lo (x + 2 ^ ord j) st'.
Proof.
  induction k as [|k IH]; intros pte [|fuel] x lo st b Hb Hj Hf Hk Hst Hkb Hlo Hs; try lia.
  - assert (j = O) as -> by lia. assert (x = b) as ->.
    { destruct Hb as (_ & Hb & _). rewrite <- Hst, <- Hb. by apply blk_start_eq. }
    destruct Hb as (Hw & Hbs & Hb0 & Hbe & Hbc). by apply (search_all 0); [|lia|lia|lia|lia|lia|lia|].
  - destruct (decide (j = S k)) as [->|Hne].
    { assert (x = b) as ->.
      2: { destruct Hb as (Hw & Hbs & Hb0 & Hbe & Hbc). by apply (search_all (S k)); [|lia|lia|lia|lia|lia|lia|]. }
      destruct Hb as (_ & Hb & _). rewrite <- Hst, <- Hb. by apply blk_start_eq. }
    pose proof Hb as (Hwf & Hbst & Hb0 & Hend & Hc).
    assert (b ≤ x ∧ x + 2 ^ ord j ≤ b + 2 ^ ord (S k)) as [Hbx Hxb].
    { destruct (blk_multiple (S k) j (b + 2 ^ ord (S k)) x) as [H|H]; [lia| | |].
      - apply blk_start_mod. apply blk_start_mod in Hbst.
        by rewrite Zplus_mod, Hbst, Z_mod_same_full.
      - apply in_block in Hkb; [lia|done].
      - apply in_block in Hkb; [lia|done]. }
    destruct (dir_or_leaf pte) as [(es & c & ->)|Hnd].
    2: { apply (leaf_scanned (S k) pte fuel x (ord j) (ord (S k)) x); try done.
         - pose proof (ord_pos j). lia.
         - lia.
         - intros a Ha. apply Hc. lia.
         - pose proof (ord_pos j). apply in_page_ord; lia. }
    cbn [ucs_pgtable_search_recurs].
    rewrite (proj2 (Z.leb_le UCS_PGT_ENTRY_SHIFT _)) by (unfold ord, UCS_PGT_ENTRY_SHIFT; lia).
    replace (ord (S k) - UCS_PGT_ENTRY_SHIFT) with (ord k) by (unfold ord, UCS_PGT_ENTRY_SHIFT; lia).
    destruct (Z.ltb_spec (ord j) (ord (S k))); [|unfold ord in *; lia].
    rewrite (proj2 (Z.leb_le (ord j) (ord k))) by (unfold ord; lia).
    rewrite entry_index_idx. cbn in Hwf. destruct Hwf as (Hl & _).
    destruct (es !! idx k x) as [e|] eqn:He.
    2: { apply lookup_ge_None in He. pose proof (idx_lt k x). lia. }
    run. apply (IH e fuel x lo st _ (child_block k es c b _ e Hb He)); try done; [lia|lia|lia|].
    symmetry. apply blk_iff.
    pose proof (Z.mod_pos_bound (blk k x) 16). unfold idx. rewrite Z2Nat.id by lia.
    pose proof (Z.div_mod (blk k x) 16 ltac:(lia)) as Hdm. rewrite <- blk_S, Hkb in Hdm.
    unfold blk_start in Hbst. rewrite ord_S in Hbst. pose proof (ord_pos k). nia.
Qed.

Lemma root_block : block_of (level t) (root t) (base t).
Proof.
  pose proof (rep_wf t R HR) as Hwf. pose proof Hwf as [Hk Hs Hm Hb Hba Hr].
  split_and!; [done|done|apply Hb| |].
  - rewrite <- Hba. by apply blk_end_le.
  - intros a Ha. unfold content. rewrite decide_True; [done|]. by apply in_block.
Qed.

Lemma past_table y :
  ∀ q, q ∈ R → ¬ touched (base t + 2 ^ ord (level t)) y q.
Proof.
  pose proof root_block as (_ & Hba & Hb & _ & _). intros q Hq Ht.
  destruct (rep_valid t R HR q Hq) as (_ & _ & ? & ?). unfold touched in Ht.
  set (a := Z.max (base t + 2 ^ ord (level t)) (r_start q)) in *.
  destruct (rep_covered t R a q HR) as (j & E & _); [unfold addr_ok; lia|done|lia|].
  unfold content in E. rewrite decide_False in E; [done|]. intros Hin.
  apply in_block in Hin; [lia|done].
Qed.

(** The visit of one page by the loop of the search. *)
Lemma search_page x j lo st :
  addr_ok x → (j ≤ 15)%nat → blk_start j x = x → base t ≤ x → x + 2 ^ ord j ≤ 2 ^ 64 → lo ≤ x →
  scanned lo x st →
  ∃ st', (if Z.land x (mask t) =? base t
          then ucs_pgtable_search_recurs levels x (ord j) (shift t) (root t) st
          else Some st) = Some st' ∧ scanned lo (x + 2 ^ ord j) st'.
Proof.
  intros Hx Hj15 Hst Hbx Hend Hlo Hs. pose proof (rep_wf t R HR) as Hwf. unfold wf_table in Hwf.
  pose proof root_block as Hroot. pose proof past_table as Hpast. pose proof (ord_pos j).
  set (k := level t) in *. rewrite (span_test t k x Hwf Hx), (wf_shift _ _ Hwf). hide_levels L HL.
  pose proof (wf_level _ _ Hwf) as Hk15. assert (k < L)%nat as HkL by lia.
  pose proof Hroot as (_ & Hba & Hb0 & Hbe & _).
  case_bool_decide as Hspan.
  - destruct (decide (j ≤ k)%nat) as [Hjk|Hjk].
    + by apply (search_descend j k (root t) L x lo st (base t)).
    + assert (x = base t) as ->.
      { rewrite <- Hba, <- (blk_start_eq k x (base t)) by done.
        pose proof (blk_start_le k x). destruct (blk_multiple j k x x) as [H1|H1]; [lia|done|lia|lia]. }
      pose proof (ord_mono k j ltac:(lia)).
      destruct (search_all k (root t) L (base t) j (base t) lo st) as (st' & -> & Hs');
        [done|done|lia|done|lia|lia|done|done|].
      exists st'. split; [done|].
      apply (scanned_gap lo (base t + 2 ^ ord k)); [lia|apply Hpast|done].
  - exists st. split; [done|]. apply (scanned_gap lo x); [lia| |done].
    assert (base t + 2 ^ ord k ≤ x) as Hge.
    { destruct (decide (x < base t + 2 ^ ord k)); [|lia]. destruct Hspan. by apply in_block. }
    intros q Hq Ht. apply (Hpast (x + 2 ^ ord j) q Hq). unfold touched in *. lia.
Qed.
End search.

(** ** The search loop *)

Lemma align_down_spec n : addr_ok n → ucs_align_down_pow2 n UCS_PGT_ADDR_ALIGN = blk_start 0 n.
Proof. intros Hn. by apply (land_mask n 0 ltac:(lia)). Qed.

Lemma align_up_spec n :
  0 ≤ n → n + 15 < 2 ^ 64 → ucs_align_up_pow2 n UCS_PGT_ADDR_ALIGN = blk_start 0 (n + 15).
Proof.
  intros Hn Hn'. unfold ucs_align_up_pow2. change UCS_PGT_ADDR_ALIGN with 16 at 1.
  rewrite wrap_small by lia. rewrite align_down_spec by (unfold addr_ok; lia). f_equal. lia.
Qed.

Definition top_page : Z := 15 * 2 ^ 60.

Lemma below_top j x : (j ≤ 14)%nat → blk_start j x = x → x < top_page → x + 2 ^ ord j ≤ top_page.
Proof.
  intros Hj Hst Hx. destruct (blk_multiple 14 j top_page x Hj) as [H|H]; [done|lia|lia].
Qed.

(** Past the end the order is bounded by the alignment of the address only. *)
Lemma next_page_order_past x e :
  aligned x → aligned e → 0 ≤ e < x → x ≤ top_page →
  ∃ j, (j ≤ 14)%nat ∧ ucs_pgtable_get_next_page_order x e = Some (ord j) ∧ blk_start j x = x.
Proof.
  intros Hx He Hex Htop. unfold ucs_pgtable_get_next_page_order.
  rewrite !(proj2 (aligned_spec _)) by done. cbn [andb].
  replace ((e =? 0) && (x =? 0)) with false by (symmetry; apply andb_false_iff; right; apply Z.eqb_neq; lia).
  replace (e =? x) with false by (symmetry; apply Z.eqb_neq; lia).
  replace (x =? 0) with false by (symmetry; apply Z.eqb_neq; lia).
  replace (wrap 64 (e - x)) with (e - x + 2 ^ 64).
  2: { rewrite <- (wrap_small 64 (e - x + 2 ^ 64)) by (unfold top_page in *; lia). unfold wrap.
       by rewrite <- (Z_mod_plus_full (e - x) 1), Z.mul_1_l. }
  set (l := ucs_ilog2 (e - x + 2 ^ 64)). unfold top_page in *.
  assert (4 ≤ l < 64) as Hl.
  { split; [apply Z.log2_le_pow2; lia|apply Z.log2_lt_pow2; lia]. }
  assert (4 ≤ ucs_ffs64 x) as Hf by (apply ffs_spec; [lia|lia|exact Hx]).
  set (m := Z.min (ucs_ffs64 x) l). destruct (page_order_of m) as [Ho Hj]; [lia|].
  exists (Z.to_nat ((m - 4) / 4)). split; [done|]. split; [exact Ho|].
  apply blk_start_mod, ffs_spec; [lia|unfold ord; lia|]. transitivity m; [|lia].
  apply le_ord_iff; lia.
Qed.

(** The page chosen by one iteration, on either side of the end. *)
Lemma search_page_order x e :
  aligned x → aligned e → 0 ≤ x < top_page → 0 < e ≤ top_page →
  ∃ j, (j ≤ 14)%nat ∧ ucs_pgtable_get_next_page_order x e = Some (ord j) ∧ blk_start j x = x ∧
    x + 2 ^ ord j ≤ top_page ∧ (x < e → x + 2 ^ ord j ≤ e) ∧ (x = e → j = O).
Proof.
  intros Hx He Hxt Het. destruct (Z.lt_trichotomy x e) as [Hlt|[Heq|Hgt]].
  - destruct (next_page_order_spec x e) as (j & Hj & Ho & [Hst Hfit] & _); [done|done|lia| |].
    { unfold top_page in *. lia. }
    exists j. split_and!; done || lia.
  - subst e. exists O. assert (blk_start 0 x = x) as Hst by (apply blk_start_mod; exact Hx).
    split_and!; try done || lia.
    + unfold ucs_pgtable_get_next_page_order. rewrite (proj2 (aligned_spec _)), Z.eqb_refl by done.
      destruct (Z.eqb_spec x 0) as [->|]; [lia|done].
    + by apply below_top; [lia| |lia].
  - destruct (next_page_order_past x e) as (j & Hj & Ho & Hst); [done|done|lia|lia|].
    exists j. split_and!; try done || lia. by apply below_top; [| |lia].
Qed.

Section search_range.
Context (t : ucs_pgtable_t) (R : list ucs_pgt_region_t) (HR : Rep t R).
Context (Hptr : ∀ q1 q2, q1 ∈ R → q2 ∈ R → r_ptr q1 = r_ptr q2 → q1 = q2).
Context (from to : Z) (Hfrom : 0 ≤ from ≤ to) (Hto : 0 < to < top_page).
Context (Hspan : shift t < 64 → base t + 2 ^ shift t < 2 ^ 64).

Definition range_start : Z := Z.max (blk_start 0 from) (base t).
Definition range_end : Z := Z.min (blk_start 0 (to + 15)) (base t + 2 ^ shift t).

Lemma aligned_blk a : aligned (blk_start 0 a).
Proof. unfold aligned. change 16 with (2 ^ ord 0). apply blk_start_mod, blk_start_idemp. Qed.

Lemma aligned_table : aligned (base t) ∧ aligned (base t + 2 ^ shift t).
Proof.
  pose proof (rep_wf t R HR) as [Hk Hs Hm Hb Hba Hr]. rewrite Hs.
  assert (aligned (base t)) as H; [|split; [done|by apply aligned_add]].
  rewrite <- Hba. unfold blk_start, aligned.
  rewrite (ord_split 0) by lia. change (2 ^ ord 0) with 16.
  by rewrite Z.mul_assoc, Z_mod_mult.
Qed.

(** The bounds the code computes, with the intersection when the table does
    not span the whole address space. *)
Lemma range_bounds : search_bounds t from to = Some (range_start, range_end).
Proof.
  unfold search_bounds, top_page in *. rewrite align_down_spec, align_up_spec by (unfold addr_ok; lia).
  pose proof (rep_wf t R HR) as [Hk Hs Hm Hb Hba Hr]. unfold range_start, range_end.
  pose proof (blk_start_ok 0 from ltac:(lia) ltac:(unfold addr_ok; lia)) as [? ?].
  rewrite Z.shiftl_1_l. destruct (Z.ltb_spec (shift t) 64) as [Hlt|Hge].
  - assert (0 < 2 ^ shift t) by (rewrite Hs; apply ord_pos). unfold addr_ok in Hb.
    rewrite wrap_small by (specialize (Hspan Hlt); lia). done.
  - assert (level t = 15%nat) as Hk15 by (unfold ord in Hs; lia).
    assert (base t = 0) as -> by (rewrite <- Hba, Hk15; unfold blk_start; by rewrite blk_15).
    rewrite Z.eqb_refl, Hs, Hk15. change (2 ^ ord 15) with (2 ^ 64). pose proof (blk_start_le 0 (to + 15)).
    rewrite Z.max_l, Z.min_l by lia. done.
Qed.

Lemma aligned_below a b : aligned a → aligned b → a < b → a + 16 ≤ b.
Proof.
  unfold aligned. intros Ha Hb Hlt.
  pose proof (Z.div_mod a 16 ltac:(lia)). pose proof (Z.div_mod b 16 ltac:(lia)). lia.
Qed.

Lemma align_to : blk_start 0 to ≤ to < blk_start 0 to + 16.
Proof. apply (blk_start_le 0 to). Qed.

Lemma align_to_up : to ≤ blk_start 0 (to + 15) ≤ blk_start 0 to + 16.
Proof.
  pose proof (blk_start_le 0 (to + 15)) as H. change (2 ^ ord 0) with 16 in H.
  pose proof align_to. split; [lia|].
  destruct (decide (blk_start 0 to + 16 < blk_start 0 (to + 15))) as [Hlt|]; [|lia].
  apply aligned_below in Hlt; [|change 16 with (2 ^ ord 0); apply aligned_add|]; try apply aligned_blk. lia.
Qed.

Definition search_inv (s : Z * search_state) : Prop :=
  aligned (fst s) ∧ range_start ≤ fst s ≤ top_page ∧ scanned R range_start (fst s) (snd s) ∧
  (fst s ≤ blk_start 0 to + 16 ∨ base t + 2 ^ shift t ≤ to).

Lemma search_step_inv x st :
  search_inv (x, st) → x ≤ to →
  ∃ j st', ucs_pgtable_get_next_page_order x range_end = Some (ord j) ∧ (j ≤ 14)%nat ∧
    ucs_pgt_address_advance x (ord j) = Some (x + 2 ^ ord j) ∧
    (if Z.land x (mask t) =? base t
     then ucs_pgtable_search_recurs levels x (ord j) (shift t) (root t) st
     else Some st) = Some st' ∧
    search_inv (x + 2 ^ ord j, st').
Proof.
  intros (Hal & Hx & Hsc & Hlim) Hle. cbn [fst snd] in *.
  pose proof aligned_table as [Hb1 Hb2]. pose proof (rep_wf t R HR) as [Hk Hs Hm Hb Hba Hr].
  pose proof align_to_up. pose proof align_to. unfold range_start, range_end in *.
  unfold addr_ok in Hb. assert (0 < 2 ^ shift t) by (rewrite Hs; apply ord_pos).
  destruct (search_page_order x (Z.min (blk_start 0 (to + 15)) (base t + 2 ^ shift t)))
    as (j & Hj & Ho & Hst & Htop & Hlt & Heq); [done| |lia| |].
  { destruct (Z.min_spec (blk_start 0 (to + 15)) (base t + 2 ^ shift t)) as [[_ ->]|[_ ->]];
      [apply aligned_blk|done]. }
  { unfold top_page in *. pose proof (blk_start_le 0 (15 * 2 ^ 60)).
    pose proof (aligned_below (blk_start 0 to) (15 * 2 ^ 60)) as Hb15.
    specialize (Hb15 (aligned_blk to) eq_refl ltac:(lia)). lia. }
  destruct (search_page t R HR Hptr x j (Z.max (blk_start 0 from) (base t)) st)
    as (st' & E & Hsc'); [split; unfold top_page in *; lia|lia|done|lia|unfold top_page in *; lia|lia|done|].
  pose proof (ord_pos j). exists j, st'. split_and!; try done.
  - apply advance_spec; [done|lia|unfold top_page in *; lia].
  - unfold search_inv, range_start. split_and!; cbn [fst snd]; [by apply aligned_add|lia|lia|done|]. destruct (decide (base t + 2 ^ shift t ≤ to)) as [|Hnt]; [by right|left].
    destruct (Z.lt_trichotomy x (Z.min (blk_start 0 (to + 15)) (base t + 2 ^ shift t))) as [Hc|[Hc|Hc]]; [lia| |lia].
    rewrite (Heq Hc). change (2 ^ ord 0) with 16. pose proof (aligned_below (blk_start 0 to) x (aligned_blk to) Hal). lia.
Qed.

Lemma search_loop :
  range_start ≤ to →
  ∃ x st, loop_result (loop (search_step t range_end to) 64 (range_start, ([], None))) = Some st ∧
    search_inv (x, st) ∧ to < x.
Proof.
  intros Hle. pose proof (rep_wf t R HR) as [Hk Hs Hm Hb Hba Hr]. unfold addr_ok in Hb.
  destruct (loop_total (search_step t range_end to) search_inv
    (λ o, ∃ x st, o = Some st ∧ search_inv (x, st) ∧ to < x)
    (λ s, top_page - fst s) 64 (range_start, ([], None))) as (o & -> & x & st & -> & H); last by eauto.
  - intros s (_ & ? & _). lia.
  - intros [x st] Hinv. unfold search_step, body. destruct (Z.leb_spec x to) as [Hx|Hx]; [|eauto].
    destruct (search_step_inv x st Hinv Hx) as (j & st' & -> & Hj & Ha & E' & Hinv'). run. rewrite E'. run.
    destruct (Z.eqb_spec (ord j) UCS_PGT_ADDR_ORDER) as [E|_];
      [unfold ord, UCS_PGT_ADDR_ORDER in E; lia|].
    rewrite Ha. run. split; [done|]. pose proof (ord_pos j). lia.
  - unfold search_inv. cbn [fst snd]. pose proof aligned_table as [Hal _].
    split; [|split; [lia|split; [apply scanned_start|left]]].
    + unfold range_start. destruct (Z.max_spec (blk_start 0 from) (base t)) as [[_ ->]|[_ ->]];
        [done|apply aligned_blk].
    + pose proof align_to. lia.
  - cbn [fst]. change (2 ^ Z.of_nat 64) with (2 ^ 64). unfold range_start, top_page. lia.
Qed.

Lemma in_table q : q ∈ R → base t ≤ r_start q ∧ r_end q ≤ base t + 2 ^ shift t.
Proof.
  intros Hq. pose proof (rep_wf t R HR) as [Hk Hs Hm Hb Hba Hr].
  destruct (rep_valid t R HR q Hq) as (_ & _ & Hq1 & Hq2).
  assert (∀ a, r_start q ≤ a < r_end q → base t ≤ a < base t + 2 ^ shift t) as H.
  { intros a Ha. destruct (rep_covered t R a q HR) as (j & E & _); [unfold addr_ok; lia|done|done|].
    unfold content in E. case_decide as Hin; [|done]. rewrite Hs. by apply in_block. }
  pose proof (H (r_start q)). pose proof (H (r_end q - 1)). lia.
Qed.

Lemma search_range_ok :
  ∃ l, ucs_pgtable_search_range t from to = Some l ∧ StronglySorted before l ∧
    ∀ q, q ∈ l ↔ q ∈ R ∧ r_start q ≤ to ∧ from < r_end q.
Proof.
  unfold ucs_pgtable_search_range. rewrite range_bounds. run.
  pose proof (blk_start_le 0 from). pose proof align_to. pose proof align_to_up.
  destruct (decide (range_start ≤ to)) as [Hle|Hgt].
  - destruct (search_loop Hle) as (x & [l last] & -> & (Hal & Hx & (Hs & Hin & _) & Hlim) & Hto').
    cbn [fst snd] in *. exists l. split; [done|]. split; [done|]. intros q. rewrite Hin.
    destruct (decide (q ∈ R)) as [Hq|]; [|tauto].
    destruct (rep_valid t R HR q Hq) as (Hqs & Hqe & Hq1 & Hq2).
    pose proof (in_table q Hq). pose proof (aligned_below (blk_start 0 from) (r_end q) (aligned_blk from) Hqe).
    pose proof (aligned_below (r_start q) x Hqs Hal). change (2 ^ ord 0) with 16 in *.
    unfold touched, range_start in *. split; intros [_ Ht]; (split; [done|]); lia.
  - assert (to < base t) as Hbt by (unfold range_start in Hgt; lia). exists [].
    assert (search_step t range_end to (range_start, ([], None)) = inr (Some ([], None))) as E.
    { unfold search_step, body. destruct (Z.leb_spec range_start to); [lia|done]. }
    rewrite (loop_first _ _ _ _ E). split; [done|]. split; [constructor|].
    intros q. split; [intros Hq; by apply elem_of_nil in Hq|]. intros (Hq & ? & _).
    apply in_table in Hq. lia.
Qed.

End search_range.

(** ** Purge *)

(** An empty table has the initial span. *)
Definition tidy (t : ucs_pgtable_t) : Prop := root t = PteEmpty → shift t = 4 ∧ base t = 0.




Lemma rep_root_present t R : Rep t R → R ≠ [] → root t ≠ PteEmpty.
Proof.
  intros HR Hne Hroot. destruct R as [|q R]; [done|].
  destruct (rep_valid t _ HR q) as (_ & _ & ? & ?); [by left|].
  destruct (rep_covered t _ (r_start q) q HR) as (j & E & _); [unfold addr_ok; lia|by left|lia|].
  unfold content in E. rewrite Hroot, findl_empty in E. by destruct (decide _).
Qed.

(** The invariant of a page table between calls: it represents the regions,
    and it has the initial span when there are none. *)
Definition pgt_inv (t : ucs_pgtable_t) (R : list ucs_pgt_region_t) : Prop :=
  Rep t R ∧ tidy t ∧ ∀ q1 q2, q1 ∈ R → q2 ∈ R → r_ptr q1 = r_ptr q2 → q1 = q2.



Section purge.
Context (t : ucs_pgtable_t) (R : list ucs_pgt_region_t) (Hinv : pgt_inv t R).







End purge.

(** C24: on a table that does not end at the top of the address space, a search of a
    range whose end is positive and below the last sixteenth of the addresses
    ([top_page], [15 * 2^60]) returns, reports every region that meets the range once, in
    increasing address order, and no other.  (Outside of these conditions see
    [search_range_at_zero], [search_range_at_top] and [search_range_wraps_forever].) *)
Theorem search_range_spec t R from to :
  pgt_inv t R → 0 ≤ from ≤ to → 0 < to < top_page →
  (shift t < 64 → base t + 2 ^ shift t < 2 ^ 64) →
  ∃ l, ucs_pgtable_search_range t from to = Some l ∧ StronglySorted before l ∧
    ∀ q, q ∈ l ↔ q ∈ R ∧ r_start q ≤ to ∧ from < r_end q.
Proof. intros (HR & _ & Hptr) Hfrom Hto Hspan. by apply search_range_ok. Qed.

(** The invariant holds for the table and the regions after any calls. *)
Lemma pgt_inv_init : pgt_inv ucs_pgtable_init [].
Proof. split; [apply rep_init|]. split; [done|]. intros q1 q2 H. by apply elem_of_nil in H. Qed.

Lemma pgt_inv_insert t R r :
  pgt_inv t R → range_ok r → coherent R r →
  ∃ t', ucs_pgtable_insert t r = Some (fst (spec_insert R r), t') ∧
    pgt_inv t' (snd (spec_insert R r)).
Proof.
  intros (HR & Ht & Hptr) Hok Hcoh. destruct (bad_range r) eqn:Hbad.
  { unfold ucs_pgtable_insert, spec_insert. rewrite Hbad. exists t. done. }
  destruct (insert_refines t R r HR Hok) as (t' & E & HR'). exists t'. split; [done|].
  split; [done|]. unfold spec_insert in *. rewrite Hbad in *.
  destruct (existsb (overlaps r) R) eqn:Ho; cbn [fst snd] in *.
  - split; [|done]. assert (R ≠ []) as Hne by (by intros ->). intros Hroot.
    by destruct (rep_root_present t' R HR' Hne).
  - split; [intros Hroot; by destruct (rep_root_present t' _ HR')|].
    intros q1 q2 [->|H1]%elem_of_cons [->|H2]%elem_of_cons Hp; [done| | |by apply Hptr].
    + symmetry. by apply Hcoh.
    + by apply Hcoh.
Qed.



(** ** Examples, and the ranges the theorem leaves out *)

(** Tables built by insertions of fresh regions. *)
Fixpoint insert_list (t : ucs_pgtable_t) (l : list ucs_pgt_region_t) : option ucs_pgtable_t :=
  match l with
  | [] => Some t
  | r :: l => '(_, t') ← ucs_pgtable_insert t r; insert_list t' l
  end.

Definition ex_table : ucs_pgtable_t :=
  Eval vm_compute in default ucs_pgtable_init (insert_list ucs_pgtable_init [ex_a; ex_b]).

Lemma insert_list_step t R r l t' :
  pgt_inv t R → range_ok r → coherent R r → insert_list t (r :: l) = Some t' →
  ∃ t1, pgt_inv t1 (snd (spec_insert R r)) ∧ insert_list t1 l = Some t'.
Proof.
  intros HR Hok Hcoh E. destruct (pgt_inv_insert t R r HR Hok Hcoh) as (t1 & E1 & H1).
  cbn [insert_list] in E. rewrite E1 in E. eauto.
Qed.

Lemma ex_table_inv : pgt_inv ex_table [ex_b; ex_a].
Proof.
  assert (range_ok ex_a) as Ha by (split; split; done).
  assert (range_ok ex_b) as Hb by (split; split; done).
  assert (coherent [] ex_a) as Ca by (intros q Hq; by apply elem_of_nil in Hq).
  assert (coherent [ex_a] ex_b) as Cb
    by (intros q Hq; apply list_elem_of_singleton in Hq as ->; done).
  assert (spec_insert [] ex_a = (UCS_OK, [ex_a])) as Sa by (vm_compute; reflexivity).
  assert (spec_insert [ex_a] ex_b = (UCS_OK, [ex_b; ex_a])) as Sb by (vm_compute; reflexivity).
  assert (insert_list ucs_pgtable_init [ex_a; ex_b] = Some ex_table) as E by (vm_compute; reflexivity).
  destruct (insert_list_step _ _ _ _ _ pgt_inv_init Ha Ca E) as (t1 & H1 & E1). rewrite Sa in H1. cbn [snd] in H1.
  destruct (insert_list_step _ _ _ _ _ H1 Hb Cb E1) as (t2 & H2 & E2). rewrite Sb in H2. cbn [snd] in H2.
  injection E2 as <-. exact H2.
Qed.

Lemma search_range_witness :
  ∃ l, ucs_pgtable_search_range ex_table 0x2000 0x3000 = Some l ∧ StronglySorted before l ∧
    ∀ q, q ∈ l ↔ q ∈ [ex_b; ex_a] ∧ r_start q ≤ 0x3000 ∧ 0x2000 < r_end q.
Proof.
  apply (search_range_spec ex_table [ex_b; ex_a] 0x2000 0x3000);
    [apply ex_table_inv|lia|unfold top_page; lia|vm_compute; congruence].
Defined.


(** ** Ranges that end in the last sixteenth of the addresses

    The pages past the end of the table grow until they are a sixteenth of all
    addresses, so that the address reaches [top_page] and from there wraps to 0. *)

Section wraps.
Context (t : ucs_pgtable_t) (R : list ucs_pgt_region_t) (Hinv : pgt_inv t R).
Context (Htab : base t + 2 ^ shift t < top_page).
Context (from to : Z) (Hfrom : 0 ≤ from ≤ top_page) (Hto : top_page ≤ to ≤ 2 ^ 64 - 16).

Definition table_end : Z := base t + 2 ^ shift t.

Lemma table_end_ok : 0 < table_end < top_page ∧ aligned table_end ∧ 0 ≤ base t < table_end ∧ aligned (base t).
Proof.
  destruct Hinv as (HR & _). pose proof (rep_wf t R HR) as [Hk Hs Hm Hb Hba Hr].
  pose proof (aligned_table t R HR) as [? ?]. unfold table_end, addr_ok in *.
  assert (0 < 2 ^ shift t) by (rewrite Hs; apply ord_pos). split_and!; done || lia.
Qed.

Lemma wraps_bounds : search_bounds t from to = Some (Z.max (blk_start 0 from) (base t), table_end).
Proof.
  destruct Hinv as (HR & _). pose proof (rep_wf t R HR) as [Hk Hs Hm Hb Hba Hr]. pose proof table_end_ok as (He & _).
  unfold search_bounds, top_page in *. rewrite align_down_spec, align_up_spec by (unfold addr_ok; lia).
  pose proof (blk_start_le 0 (to + 15)) as H15. change (2 ^ ord 0) with 16 in H15.
  destruct (Z.ltb_spec (shift t) 64) as [|H64].
  - fold table_end in *. rewrite Z.shiftl_1_l. fold table_end. rewrite wrap_small, Z.min_r by lia. done.
  - pose proof (Z.pow_le_mono_r 2 64 (shift t)). unfold table_end, addr_ok in *. lia.
Qed.

(** The last page of the round. *)
Lemma order_at_top : ucs_pgtable_get_next_page_order top_page table_end = Some (ord 14).
Proof.
  pose proof table_end_ok as (He & Hal & _). unfold ucs_pgtable_get_next_page_order.
  rewrite !(proj2 (aligned_spec _)) by done. cbn [andb].
  rewrite andb_false_r. replace (table_end =? top_page) with false by (symmetry; apply Z.eqb_neq; lia).
  change (top_page =? 0) with false. replace (wrap 64 (table_end - top_page)) with (2 ^ 60 + table_end).
  2: { unfold wrap. rewrite <- (Z_mod_plus_full _ 1), Z.mod_small; unfold top_page in *; lia. }
  change (ucs_ffs64 top_page) with 60. rewrite Z.min_l; [done|].
  apply Z.log2_le_pow2; unfold top_page in *; lia.
Qed.

Definition round_inv (s : Z * search_state) : Prop := aligned (fst s) ∧ 0 ≤ fst s ≤ top_page.

Lemma wraps_step x st : round_inv (x, st) →
  ∃ j x', (j ≤ 14)%nat ∧ blk_start j x = x ∧ aligned x' ∧ 0 ≤ x' ≤ top_page ∧
    search_step t table_end to (x, st) =
      body (st' ← (if Z.land x (mask t) =? base t
                   then ucs_pgtable_search_recurs levels x (ord j) (shift t) (root t) st else Some st);
            Some (inl (x', st'))).
Proof.
  intros [Hal Hx]. cbn [fst] in *. pose proof table_end_ok as (He & Hae & _). unfold search_step.
  rewrite (proj2 (Z.leb_le x to)) by lia. destruct (decide (x = top_page)) as [->|Hne].
  - exists 14%nat, 0. rewrite order_at_top. split_and!; done.
  - destruct (search_page_order x table_end) as (j & Hj & -> & Hst & Htop & _); [done|done|lia|lia|].
    exists j, (x + 2 ^ ord j). pose proof (ord_pos j). split_and!; [done|done|by apply aligned_add|lia|lia|]. run.
    destruct (Z.eqb_spec (ord j) UCS_PGT_ADDR_ORDER) as [E|_]; [unfold ord, UCS_PGT_ADDR_ORDER in E; lia|].
    rewrite advance_spec by (done || (unfold top_page in *; lia)). done.
Qed.

Lemma round_start : round_inv (Z.max (blk_start 0 from) (base t), ([], None)).
Proof.
  pose proof table_end_ok as (? & _ & ? & Hb). pose proof (blk_start_le 0 from) as Hle.
  split; cbn [fst]; [|lia]. destruct (Z.max_spec (blk_start 0 from) (base t)) as [[_ ->]|[_ ->]]; [done|apply aligned_blk].
Qed.

Lemma wraps_no_result n :
  loop_result (loop (search_step t table_end to) n (Z.max (blk_start 0 from) (base t), ([], None))) = None.
Proof.
  assert (H := loop_inv (search_step t table_end to) round_inv (λ o, o = None) n (Z.max (blk_start 0 from) (base t), ([], None))).
  destruct (loop _ n _) as [s|o]; [done|]. apply H; [|apply round_start].
  intros [x st] Hs. destruct (wraps_step x st Hs) as (j & x' & _ & _ & Hal & Hx & ->).
  by destruct (if Z.land x (mask t) =? base t then _ else _).
Qed.

(** With a single region the search meets it in each round, and only the first time
    reports it. *)
Lemma search_repeat q st address j k : ∀ pte fuel b,
  R = [q] → snd st = Some q → block_of t k pte b → (k < fuel)%nat →
  ucs_pgtable_search_recurs fuel address (ord j) (ord k) pte st = Some st.
Proof.
  destruct Hinv as (HR & _). intros pte fuel b HRq Hq. revert pte fuel b.
  assert (∀ k pte fuel b, (∀ es c, pte ≠ PteDir es c) → block_of t k pte b →
    ucs_pgtable_search_recurs (S fuel) address (ord j) (ord k) pte st = Some st) as Hleaf.
  { intros k' [|q'|es c] fuel b Hnd (_ & _ & Hb & He & Hc); [done| |by destruct (Hnd es c)].
    cbn [ucs_pgtable_search_recurs]. pose proof (ord_pos k').
    pose proof (rep_content t R HR b ltac:(unfold addr_ok; lia)) as Hcb. rewrite Hc, findl_region in Hcb by lia.
    destruct Hcb as [Hin _]. rewrite HRq in Hin. apply list_elem_of_singleton in Hin as ->.
    rewrite Hq. cbn [same_region]. by rewrite Z.eqb_refl. }
  induction k as [|k IH]; intros pte [|fuel] b Hblk Hf; try lia.
  { apply (Hleaf 0%nat pte fuel b); [|done]. destruct Hblk as (Hwf & _). by intros es c ->. }
  destruct (dir_or_leaf pte) as [(es & c & ->)|Hnd]; [|by apply (Hleaf (S k) pte fuel b)].
  cbn [ucs_pgtable_search_recurs].
  rewrite (proj2 (Z.leb_le UCS_PGT_ENTRY_SHIFT _)) by (unfold ord, UCS_PGT_ENTRY_SHIFT; lia).
  replace (ord (S k) - UCS_PGT_ENTRY_SHIFT) with (ord k) by (unfold ord, UCS_PGT_ENTRY_SHIFT; lia).
  assert (∀ n e, es !! n = Some e → ucs_pgtable_search_recurs fuel address (ord j) (ord k) e st = Some st) as Hes
    by (intros n e He; apply (IH e fuel _ (child_block t k es c b n e Hblk He)); lia).
  destruct (Z.ltb_spec (ord j) (ord (S k))) as [Hlt|_].
  - rewrite (proj2 (Z.leb_le (ord j) (ord k))) by (unfold ord in *; lia). rewrite entry_index_idx.
    destruct Hblk as (Hwf & _). cbn in Hwf. destruct Hwf as (Hl & _).
    destruct (lookup_lt_is_Some_2 es (idx k address)) as [e He]; [rewrite Hl; apply idx_lt|]. rewrite He. run. by eapply Hes.
  - clear -Hes. induction es as [|e es IH]; [done|]. cbn [foldl]. run. rewrite (Hes 0%nat e eq_refl).
    apply IH. intros n e' He. by apply (Hes (S n)).
Qed.

Definition single_inv (s : Z * search_state) : Prop :=
  round_inv s ∧ (snd s = ([], None) ∨ ∃ q, R = [q] ∧ snd (snd s) = Some q).

Lemma single_visit x st j :
  (length R ≤ 1)%nat → (j ≤ 14)%nat → blk_start j x = x → single_inv (x, st) →
  ∃ st', (if Z.land x (mask t) =? base t
          then ucs_pgtable_search_recurs levels x (ord j) (shift t) (root t) st else Some st) = Some st' ∧
    (st' = ([], None) ∨ ∃ q, R = [q] ∧ snd st' = Some q).
Proof.
  intros Hlen Hj Hst [[_ Hx] Hs]. cbn [fst snd] in *. destruct Hinv as (HR & _ & Hptr).
  pose proof (rep_wf t R HR) as Hwf. assert (addr_ok x) as Ha by (unfold addr_ok, top_page in *; lia).
  destruct Hs as [->|(q & HRq & Hq)].
  - destruct (Z.land x (mask t) =? base t) eqn:Hspan; [|eauto]. pose proof (ord_pos j).
    assert (base t ≤ x) as Hbx.
    { rewrite (span_test t _ x Hwf Ha) in Hspan. apply bool_decide_eq_true in Hspan.
      apply in_block in Hspan; [lia|apply Hwf]. }
    assert (x + 2 ^ ord j ≤ 2 ^ 64) by (rewrite <- Hst at 1; apply blk_end_le; [lia|done]).
    destruct (search_page t R HR Hptr x j x ([], None)) as ([l last] & E & Hsort & Hin & Hlast);
      [done|lia|done|done|done|lia|apply scanned_start|]. rewrite Hspan in E. exists (l, last). split; [done|].
    cbn [fst snd] in *. destruct l as [|q l]; [left; by subst|right]. exists q.
    assert (∀ q', q' ∈ q :: l → R = [q']) as Hall.
    { intros q' Hq'. apply Hin in Hq' as [Hq' _]. destruct R as [|q0 [|]]; [by apply elem_of_nil in Hq'| |cbn in Hlen; lia].
      apply list_elem_of_singleton in Hq'. by subst. }
    split; [apply Hall; by left|]. rewrite Hlast. destruct (List.exists_last (l := q :: l)) as (l' & q' & E'); [done|].
    rewrite E', last_snoc. assert (R = [q']) as Hq' by (apply Hall; rewrite E'; apply elem_of_app; right; by left).
    assert (R = [q]) as Hq by (apply Hall; by left). congruence.
  - exists st. split; [|eauto]. destruct (Z.land x (mask t) =? base t); [|done]. rewrite (wf_shift _ _ Hwf).
    apply (search_repeat q st x j (level t) (root t) levels (base t) HRq Hq); [by apply (root_block t R)|].
    pose proof (wf_level _ _ Hwf). unfold levels. lia.
Qed.

Lemma wraps_single n :
  (length R ≤ 1)%nat →
  ∃ s, loop (search_step t table_end to) n (Z.max (blk_start 0 from) (base t), ([], None)) = inl s.
Proof.
  intros Hlen. destruct (loop_stuck (search_step t table_end to) single_inv n (Z.max (blk_start 0 from) (base t), ([], None)))
    as (s & E & _); [| |eauto].
  - intros [x st] Hs. destruct (wraps_step x st (proj1 Hs)) as (j & x' & Hj & Hst & Hal & Hx & ->).
    destruct (single_visit x st j Hlen Hj Hst Hs) as (st' & -> & Hst'). run. eexists. split; [done|]. split; [|done]. by split.
  - split; [apply round_start|by left].
Qed.

End wraps.

(** C40: a table that ends below the last sixteenth of the addresses, and a range that
    starts below it and ends in it, except for its last 16 addresses: the search never
    ends with a result, whatever the number of rounds.  Past the end of the table the
    address wraps to 0 and the table is searched again.  With at most one region in the
    table the loop goes on for ever; with more, the assertion on the order of the
    regions may fail in the second round. *)
Theorem search_range_wraps_forever t R from to :
  pgt_inv t R → base t + 2 ^ shift t < top_page → 0 ≤ from ≤ top_page → top_page ≤ to ≤ 2 ^ 64 - 16 →
  ∃ address end_, search_bounds t from to = Some (address, end_) ∧
    ∀ n, loop_result (loop (search_step t end_ to) n (address, ([], None))) = None ∧
      ((length R ≤ 1)%nat → ∃ s, loop (search_step t end_ to) n (address, ([], None)) = inl s).
Proof.
  intros Hinv Htab Hfrom Hto. exists (Z.max (blk_start 0 from) (base t)), (table_end t).
  split; [by apply (wraps_bounds t R)|]. intros n. split; [by apply (wraps_no_result t R)|by apply (wraps_single t R)].
Qed.

Definition low_region : ucs_pgt_region_t := mk_region 1 0 16.
Definition low_table : ucs_pgtable_t :=
  Eval vm_compute in default ucs_pgtable_init (insert_list ucs_pgtable_init [low_region]).

Lemma low_table_inv : pgt_inv low_table [low_region].
Proof.
  assert (range_ok low_region) as Ha by (split; split; done).
  assert (coherent [] low_region) as Ca by (intros q Hq; by apply elem_of_nil in Hq).
  assert (insert_list ucs_pgtable_init [low_region] = Some low_table) as E by (vm_compute; reflexivity).
  assert (spec_insert [] low_region = (UCS_OK, [low_region])) as Sa by (vm_compute; reflexivity).
  destruct (insert_list_step _ _ _ _ _ pgt_inv_init Ha Ca E) as (t1 & H1 & E1). rewrite Sa in H1. injection E1 as <-. exact H1.
Qed.

Lemma search_range_wraps_witness :
  ∃ address end_, search_bounds low_table 0 (2 ^ 64 - 17) = Some (address, end_) ∧
    ∀ n, ∃ s, loop (search_step low_table end_ (2 ^ 64 - 17)) n (address, ([], None)) = inl s.
Proof.
  destruct (search_range_wraps_forever low_table [low_region] 0 (2 ^ 64 - 17)) as (a & e & Hb & H);
    [apply low_table_inv|vm_compute; reflexivity|unfold top_page; lia|unfold top_page; lia|].
  exists a, e. split; [exact Hb|]. intros n. apply (H n). cbn. lia.
Defined.

Definition mid_region : ucs_pgt_region_t := mk_region 1 0x10 0x1000.

(** Searching the range that holds only address 0 reports a region that
    does not cover it: the page order of the empty interval at 0 is that of
    the whole address space. *)
Theorem search_range_at_zero :
  (t ← insert_list ucs_pgtable_init [mid_region]; ucs_pgtable_search_range t 0 0) = Some [mid_region]
  ∧ covers 0 mid_region = false.
Proof. split; vm_compute; reflexivity. Qed.

Definition top_region1 : ucs_pgt_region_t := mk_region 1 (2 ^ 64 - 0x1000) (2 ^ 64 - 0x800).
Definition top_region2 : ucs_pgt_region_t := mk_region 2 (2 ^ 64 - 0x100) (2 ^ 64 - 0x80).

(** In a table that ends at the top of the address space the bound wraps
    to 0, and the search reports regions beyond the end of the range. *)
Theorem search_range_at_top :
  (t ← insert_list ucs_pgtable_init [top_region1; top_region2];
   ucs_pgtable_search_range t (2 ^ 64 - 0x1000) (2 ^ 64 - 0xff8)) = Some [top_region1; top_region2]
  ∧ 2 ^ 64 - 0xff8 < r_start top_region2.
Proof. split; vm_compute; reflexivity. Qed.

End PgTableSearch.
