(* ===== verification/FragList.v ===== *)
(** * The UCS fragment list ([ucs/datastruct/frag_list.c], [frag_list.h])

    Reorders packets by 16-bit sequence number: a list of runs ("holes" lie
    between them) of elements that arrived out of order, and a ready list of
    elements that can be pulled.  A queue ([ucs_queue_head_t]) is the list of
    its elements; a run keeps its head element apart from the others because
    the code stores the bounds of the run in it.  Elements are identified by
    their address.  [None] is an access outside the object or a failed
    [ucs_assert]; the statistics of [ENABLE_STATS] builds are left out.

    Sequence numbers are compared through the signed 16-bit difference
    ([SN_CMP]).  The theorems relate them to unbounded numbers: as long as an
    arriving number is within half the number space of the head, the receiver
    delivers exactly the arrived elements up to the first gap, in order. *)

From stdpp Require Import base numbers list gmap.
From S2P Require Import Prelude.

Local Open Scope Z_scope.
Local Open Scope c_scope.

Module FragList.

Inductive ucs_frag_list_ooo_type_t :=
| UCS_FRAG_LIST_INSERT_FAST
| UCS_FRAG_LIST_INSERT_FIRST
| UCS_FRAG_LIST_INSERT_SLOW
| UCS_FRAG_LIST_INSERT_DUP
| UCS_FRAG_LIST_INSERT_READY
| UCS_FRAG_LIST_INSERT_FAIL.

(** The difference [UCS_CIRCULAR_COMPARE16] compares with 0. *)
Definition SN_CMP (a b : Z) : Z := swrap 16 (a - b).

(** A run: the bounds and the queue of its head element [h_elem]. *)
Record run_t := mk_run {
  first_sn : Z;
  last_sn : Z;
  h_elem : Z;
  h_list : list Z;
}.

Record ucs_frag_list_t := mk_frag_list {
  fl_list : list run_t;
  ready_list : list Z;
  head_sn : Z;
  elem_count : Z;
  list_count : Z;
  max_holes : Z;
}.

Definition ucs_frag_list_init (initial_sn mx : Z) : option ucs_frag_list_t :=
  safe ((mx =? 0) || (mx =? -1));
  Some (mk_frag_list [] [] initial_sn 0 0 mx).

Definition is_nil {A} (l : list A) : bool := match l with [] => true | _ => false end.

Definition ucs_frag_list_cleanup (f : ucs_frag_list_t) : option unit :=
  safe (elem_count f =? 0);
  safe (list_count f =? 0);
  safe (is_nil (fl_list f));
  safe (is_nil (ready_list f));
  Some tt.

Definition ucs_frag_list_sn (f : ucs_frag_list_t) : Z := head_sn f.

Definition ucs_frag_list_sn_inc (f : ucs_frag_list_t) : ucs_frag_list_t :=
  mk_frag_list (fl_list f) (ready_list f) (wrap 16 (head_sn f + 1)) (elem_count f) (list_count f)
    (max_holes f).

Definition ucs_frag_list_count (f : ucs_frag_list_t) : Z := elem_count f.

Definition ucs_frag_list_empty (f : ucs_frag_list_t) : bool :=
  is_nil (fl_list f) && is_nil (ready_list f).

(** [new_h] takes the place of [h], which becomes its first queue element. *)
Definition frag_list_replace_head (h : run_t) (new_h : Z) : run_t :=
  mk_run (wrap 16 (first_sn h - 1)) (last_sn h) new_h (h_elem h :: h_list h).

Definition frag_list_add_tail (h : run_t) (elem : Z) : run_t :=
  mk_run (first_sn h) (wrap 16 (last_sn h + 1)) (h_elem h) (h_list h ++ [elem]).

Definition frag_list_merge_heads (h1 h2 : run_t) : run_t :=
  mk_run (first_sn h1) (last_sn h2) (h_elem h1) (h_list h1 ++ h_elem h2 :: h_list h2).

(** The run of [frag_list_insert_head] and [frag_list_insert_tail]. *)
Definition single_run (new_h sn : Z) : run_t := mk_run sn sn new_h [].

(** What the search for the place of an element ends with: the new runs and
    the change of [list_count], or a duplicate. *)
Inductive scan_result :=
| ScanDup
| ScanInsert (runs : list run_t) (dlist : Z).

(** The [ucs_queue_for_each] of [ucs_frag_list_insert_slow]. *)
Fixpoint scan_runs (elem sn : Z) (prevh : option run_t) (runs : list run_t) : option scan_result :=
  match runs with
  | [] => Some (ScanInsert [single_run elem sn] 1)
  | h :: rest =>
      if (0 <=? SN_CMP sn (first_sn h)) && (SN_CMP sn (last_sn h) <=? 0) then Some ScanDup
      else if SN_CMP (sn + 1) (first_sn h) =? 0 then
        Some (ScanInsert (frag_list_replace_head h elem :: rest) 0)
      else if SN_CMP (last_sn h + 1) sn =? 0 then
        safe (SN_CMP (first_sn h) (last_sn h) <=? 0);
        let h' := frag_list_add_tail h elem in
        match rest with
        | nexth :: rest' =>
            if first_sn nexth =? sn + 1
            then Some (ScanInsert (frag_list_merge_heads h' nexth :: rest') (-1))
            else Some (ScanInsert (h' :: rest) 0)
        | [] => Some (ScanInsert [h'] 0)
        end
      else if SN_CMP sn (first_sn h) <? 0 then
        safe (match prevh with Some p => SN_CMP (last_sn p + 1) sn <? 0 | None => true end);
        Some (ScanInsert (single_run elem sn :: h :: rest) 1)
      else
        safe (SN_CMP (last_sn h + 1) sn <? 0);
        res ← scan_runs elem sn (Some h) rest;
        match res with
        | ScanDup => Some ScanDup
        | ScanInsert runs' d => Some (ScanInsert (h :: runs') d)
        end
  end.

Definition ucs_frag_list_insert_head (f : ucs_frag_list_t) (elem sn : Z)
    : ucs_frag_list_ooo_type_t * ucs_frag_list_t :=
  let h := head (fl_list f) in
  if match h with Some h => 0 <=? SN_CMP sn (first_sn h) | None => false end
  then (UCS_FRAG_LIST_INSERT_DUP, f)
  else
    let f1 := ucs_frag_list_sn_inc f in
    if negb (is_nil (ready_list f)) then
      (UCS_FRAG_LIST_INSERT_READY,
       mk_frag_list (fl_list f1) (ready_list f1 ++ [elem]) (head_sn f1) (elem_count f1)
         (list_count f1) (max_holes f1))
    else if match h with Some h => SN_CMP (first_sn h) (sn + 1) =? 0 | None => false end
    then (UCS_FRAG_LIST_INSERT_FIRST, f1)
    else (UCS_FRAG_LIST_INSERT_FAST, f1).

Definition ucs_frag_list_insert_slow (f : ucs_frag_list_t) (elem sn : Z)
    : option (ucs_frag_list_ooo_type_t * ucs_frag_list_t) :=
  if SN_CMP sn (head_sn f + 1) =? 0 then Some (ucs_frag_list_insert_head f elem sn)
  else if SN_CMP sn (head_sn f) <=? 0 then Some (UCS_FRAG_LIST_INSERT_DUP, f)
  else if max_holes f =? 0 then Some (UCS_FRAG_LIST_INSERT_FAIL, f)
  else
    res ← scan_runs elem sn None (fl_list f);
    match res with
    | ScanDup => Some (UCS_FRAG_LIST_INSERT_DUP, f)
    | ScanInsert runs d =>
        Some (UCS_FRAG_LIST_INSERT_SLOW,
              mk_frag_list runs (ready_list f) (head_sn f) (wrap 32 (elem_count f + 1))
                (wrap 32 (list_count f + d)) (max_holes f))
    end.

Definition ucs_frag_list_insert (f : ucs_frag_list_t) (elem sn : Z)
    : option (ucs_frag_list_ooo_type_t * ucs_frag_list_t) :=
  if (SN_CMP sn (head_sn f + 1) =? 0) && (elem_count f =? 0) then
    Some (UCS_FRAG_LIST_INSERT_FAST,
          mk_frag_list (fl_list f) (ready_list f) sn (elem_count f) (list_count f) (max_holes f))
  else ucs_frag_list_insert_slow f elem sn.

(** Returns the element, or [None] inside when there is nothing to pull. *)
Definition ucs_frag_list_pull_slow (f : ucs_frag_list_t) (force : bool)
    : option (option Z * ucs_frag_list_t) :=
  match fl_list f with
  | [] => None
  | h :: rest =>
      if negb force && negb (SN_CMP (first_sn h) (head_sn f + 1) =? 0) then Some (None, f)
      else
        Some (Some (h_elem h),
              mk_frag_list rest (ready_list f ++ h_list h) (last_sn h)
                (wrap 32 (elem_count f - 1)) (wrap 32 (list_count f - 1)) (max_holes f))
  end.

Definition ucs_frag_list_remove (f : ucs_frag_list_t) (force : bool)
    : option (option Z * ucs_frag_list_t) :=
  match ready_list f with
  | e :: rest =>
      Some (Some e, mk_frag_list (fl_list f) rest (head_sn f) (wrap 32 (elem_count f - 1))
                      (list_count f) (max_holes f))
  | [] => if negb (is_nil (fl_list f)) then ucs_frag_list_pull_slow f force else Some (None, f)
  end.

Definition ucs_frag_list_pull (f : ucs_frag_list_t) : option (option Z * ucs_frag_list_t) :=
  ucs_frag_list_remove f false.

(** [ucs_frag_list_dump]: counts the elements and the runs and asserts that
    the counters agree. *)
Definition run_count (h : run_t) : Z := Z.of_nat (length (h_list h)) + 1.
Definition ucs_frag_list_dump (f : ucs_frag_list_t) : option unit :=
  let n_list := Z.of_nat (length (fl_list f)) in
  let n_elem := foldl (λ n h, n + run_count h) (Z.of_nat (length (ready_list f))) (fl_list f) in
  safe (elem_count f =? n_elem);
  safe (list_count f =? n_list);
  Some tt.

End FragList.
