(* ===== verification/SrdRx.v ===== *)
(** * Receive ordering of the EFA SRD transport ([uct/ib/efa/srd/srd_iface.c])

    The receive side keeps one fragment list per remote endpoint: SRD delivers
    reliably but out of order, and [uct_srd_iface_process_rx] passes packets to
    the active-message handler in sequence order.  The hash of receive contexts
    ([khash], keyed by the endpoint's uuid) is a finite map; a descriptor is
    identified by the address of its list element.  Calls that leave the
    transport are events: a descriptor is passed to the handler or returned to
    the memory pool. *)

From stdpp Require Import base numbers list gmap.
From S2P Require Import Prelude FragList.
Import FragList.

Local Open Scope Z_scope.
Local Open Scope c_scope.

Module SrdRx.

Definition UCT_SRD_INITIAL_PSN : Z := 1.

(** [while ((elem = ucs_frag_list_pull(...)) != NULL)]: the elements. *)
Fixpoint pull_loop (fuel : nat) (f : ucs_frag_list_t) : option (list Z * ucs_frag_list_t) :=
  match fuel with
  | O => None
  | S n =>
      '(e, f') ← ucs_frag_list_pull f;
      match e with
      | None => Some ([], f')
      | Some e => '(es, f'') ← pull_loop n f'; Some (e :: es, f'')
      end
  end.

(** [while ((elem = ucs_frag_list_remove(..., 1)) != NULL)] *)
Fixpoint remove_loop (fuel : nat) (f : ucs_frag_list_t) : option (list Z * ucs_frag_list_t) :=
  match fuel with
  | O => None
  | S n =>
      '(e, f') ← ucs_frag_list_remove f true;
      match e with
      | None => Some ([], f')
      | Some e => '(es, f'') ← remove_loop n f'; Some (e :: es, f'')
      end
  end.

(** A list with [n] elements is empty after [n] pulls. *)
Definition pull_fuel (f : ucs_frag_list_t) : nat := S (Z.to_nat (ucs_frag_list_count f)).

(** What happens to the descriptors of a packet, in order. *)
Inductive rx_event :=
| RxDeliver (desc : Z)    (* uct_srd_iface_process_rx_desc *)
| RxRelease (desc : Z).   (* ucs_mpool_put *)

(** The part of [uct_srd_iface_process_rx] after the context is found. *)
Definition process_frag (f : ucs_frag_list_t) (desc psn : Z)
    : option (list rx_event * ucs_frag_list_t) :=
  '(ooo_type, f1) ← ucs_frag_list_insert f desc psn;
  match ooo_type with
  | UCS_FRAG_LIST_INSERT_FAST => Some ([RxDeliver desc], f1)
  | UCS_FRAG_LIST_INSERT_FIRST =>
      '(es, f2) ← pull_loop (pull_fuel f1) f1; Some (RxDeliver desc :: map RxDeliver es, f2)
  | UCS_FRAG_LIST_INSERT_SLOW => Some ([], f1)
  | UCS_FRAG_LIST_INSERT_READY =>
      '(es, f2) ← pull_loop (pull_fuel f1) f1; Some (map RxDeliver es, f2)
  | UCS_FRAG_LIST_INSERT_DUP | UCS_FRAG_LIST_INSERT_FAIL => Some ([RxRelease desc], f1)
  end.

Abbreviation ctx_hash := (gmap Z ucs_frag_list_t).

(** [malloc_ok] and [put_ok]: whether [ucs_malloc] and [kh_put] succeed.
    Returns the context, or [None] inside when it is not created. *)
Definition uct_srd_rx_ctx_create (malloc_ok put_ok : bool) (h : ctx_hash) (uuid : Z)
    : option (option ucs_frag_list_t * ctx_hash) :=
  if negb malloc_ok then Some (None, h)
  else
    f ← ucs_frag_list_init (UCT_SRD_INITIAL_PSN - 1) (-1);
    if negb put_ok then _ ← ucs_frag_list_cleanup f; Some (None, h)
    else Some (Some f, <[uuid := f]> h).

Definition uct_srd_iface_process_rx (malloc_ok put_ok : bool) (h : ctx_hash)
    (ep_uuid psn desc : Z) : option (list rx_event * ctx_hash) :=
  '(ctx, h1) ← match h !! ep_uuid with
               | None => uct_srd_rx_ctx_create malloc_ok put_ok h ep_uuid
               | Some f => Some (Some f, h)
               end;
  match ctx with
  | None => Some ([RxRelease desc], h1)
  | Some f =>
      '(evs, f') ← process_frag f desc psn;
      Some (evs, <[ep_uuid := f']> h1)
  end.

(** The descriptors it returns to the pool. *)
Definition uct_iface_rx_ctx_cleanup (f : ucs_frag_list_t) : option (list rx_event) :=
  '(es, f') ← remove_loop (pull_fuel f) f;
  _ ← ucs_frag_list_cleanup f';
  Some (map RxRelease es).

End SrdRx.
