(* ===== verification/FragListSpec.v ===== *)
(** * Ordered delivery by the fragment list

    The 16-bit state is related to unbounded sequence numbers ([Rep]); an
    insertion adds one number to the pending ones ([scan_runs_spec]) and a
    receiver that pulls on every in-order arrival delivers the arrived
    elements up to the first gap, each once and in order
    ([receiver_delivers_in_order]). *)

From stdpp Require Import base numbers list gmap.
From S2P Require Import Prelude FragList SrdRx.
Import FragList SrdRx.

Local Open Scope Z_scope.

Module FragListSpec.

Definition half : Z := 2 ^ 15.

(** ** Sequence numbers *)

Lemma swrap_eqm w x k : 0 < w → swrap w (x + k * 2 ^ w) = swrap w x.
Proof.
  intros Hw. unfold swrap. f_equal.
  replace (x + k * 2 ^ w + 2 ^ (w - 1)) with (x + 2 ^ (w - 1) + k * 2 ^ w) by lia.
  apply Z_mod_plus_full.
Qed.

Lemma wrap_add w x : ∃ k, wrap w x = x + k * 2 ^ w.
Proof.
  exists (- (x / 2 ^ w)). unfold wrap.
  destruct (decide (2 ^ w = 0)) as [E|E].
  - rewrite E, Z.mod_0_r. lia.
  - pose proof (Z.div_mod x (2 ^ w) E). lia.
Qed.

(** Comparison of numbers less than half the number space apart. *)
Lemma sn_cmp x y a b c d :
  a = wrap 16 x + c → b = wrap 16 y + d → - half ≤ x + c - (y + d) < half →
  SN_CMP a b = x + c - (y + d).
Proof.
  intros -> -> Hr. unfold SN_CMP.
  destruct (wrap_add 16 x) as [k ->], (wrap_add 16 y) as [l ->].
  replace (x + k * 2 ^ 16 + c - (y + l * 2 ^ 16 + d))
    with (x + c - (y + d) + (k - l) * 2 ^ 16) by lia.
  rewrite swrap_eqm by lia. by apply swrap_small.
Qed.

Lemma sn_cmp_00 x y : - half ≤ x - y < half → SN_CMP (wrap 16 x) (wrap 16 y) = x - y.
Proof. intros H. rewrite (sn_cmp x y _ _ 0 0); lia. Qed.

Lemma sn_cmp_10 x y : - half ≤ x + 1 - y < half → SN_CMP (wrap 16 x + 1) (wrap 16 y) = x + 1 - y.
Proof. intros H. rewrite (sn_cmp x y _ _ 1 0); lia. Qed.

Lemma sn_cmp_01 x y : - half ≤ x - y - 1 < half → SN_CMP (wrap 16 x) (wrap 16 y + 1) = x - y - 1.
Proof. intros H. rewrite (sn_cmp x y _ _ 0 1); lia. Qed.

Lemma wrap_succ x : wrap 16 (wrap 16 x + 1) = wrap 16 (x + 1).
Proof. unfold wrap. by rewrite Zplus_mod_idemp_l. Qed.

Lemma wrap_pred x : wrap 16 (wrap 16 x - 1) = wrap 16 (x - 1).
Proof. unfold wrap. by rewrite Zminus_mod_idemp_l. Qed.

(** The plain comparison [first_sn == sn + 1] misses the wrap-around. *)
Lemma plain_next x y :
  0 ≤ y - x - 1 < half →
  (wrap 16 y =? wrap 16 x + 1) = bool_decide (y = x + 1 ∧ y `mod` 2 ^ 16 ≠ 0).
Proof.
  intros H. unfold half in H. pose proof (Z.div_mod x (2 ^ 16)). pose proof (Z.div_mod y (2 ^ 16)).
  pose proof (wrap_range 16 x). pose proof (wrap_range 16 y). unfold wrap in *.
  case_bool_decide as E; [apply Z.eqb_eq|apply Z.eqb_neq]; nia.
Qed.

(** ** Runs over unbounded numbers *)

(** The number of the first element, and the elements. *)
Abbreviation arun := (Z * list Z)%type.

Definition len (es : list Z) : Z := Z.of_nat (length es).

Definition conc (r : arun) : run_t :=
  match snd r with
  | [] => mk_run (wrap 16 (fst r)) (wrap 16 (fst r - 1)) 0 []
  | e :: es => mk_run (wrap 16 (fst r)) (wrap 16 (fst r + len es)) e es
  end.

(** Runs follow each other after [pe]; two runs touch only where the code
    does not merge them. *)
Definition apart (pe F : Z) : Prop := pe < F ∨ (pe = F ∧ F `mod` 2 ^ 16 = 0).

Fixpoint chain (pe : Z) (runs : list arun) (u : Z) : Prop :=
  match runs with
  | [] => True
  | (F, es) :: rest => apart pe F ∧ es ≠ [] ∧ F + len es ≤ u ∧ chain (F + len es) rest u
  end.

(** The element waiting under a number. *)
Fixpoint pend (runs : list arun) (a : Z) : option Z :=
  match runs with
  | [] => None
  | (F, es) :: rest =>
      if bool_decide (F ≤ a < F + len es) then es !! Z.to_nat (a - F) else pend rest a
  end.

Definition total (runs : list arun) : Z := foldr (λ r n, len (snd r) + n) 0 runs.

Lemma len_cons e es : len (e :: es) = len es + 1.
Proof. unfold len. cbn [length]. lia. Qed.

Lemma len_app es es' : len (es ++ es') = len es + len es'.
Proof. unfold len. rewrite length_app. lia. Qed.

Lemma len_pos es : es ≠ [] → 0 < len es.
Proof. destruct es; [done|]. intros _. rewrite len_cons. unfold len. lia. Qed.

Lemma total_cons F es rest : total ((F, es) :: rest) = len es + total rest.
Proof. done. Qed.

Lemma total_nonneg runs : 0 ≤ total runs.
Proof. unfold total. induction runs as [|r runs IH]; cbn [foldr]; [lia|]. unfold len at 1. lia. Qed.

Lemma chain_pend_low pe runs u a : chain pe runs u → a < pe → pend runs a = None.
Proof.
  revert pe. induction runs as [|[F es] rest IH]; intros pe Hc Ha; [done|].
  destruct Hc as (Hap & Hne & Hu & Hc). cbn [pend]. apply len_pos in Hne. unfold apart in Hap.
  rewrite bool_decide_false by lia. apply (IH (F + len es)); [done|lia].
Qed.

Lemma conc_first F es : first_sn (conc (F, es)) = wrap 16 F.
Proof. by destruct es. Qed.

Lemma conc_last F es : last_sn (conc (F, es)) = wrap 16 (F + len es - 1).
Proof.
  destruct es as [|e es]; cbn -[len]; [f_equal; unfold len; cbn; lia|].
  rewrite len_cons. f_equal. lia.
Qed.

Lemma conc_replace F es elem :
  es ≠ [] → frag_list_replace_head (conc (F, es)) elem = conc (F - 1, elem :: es).
Proof.
  destruct es as [|e es]; [done|]. intros _. unfold frag_list_replace_head, conc. cbn -[len].
  rewrite wrap_pred, len_cons. f_equal. f_equal. lia.
Qed.

Lemma conc_add_tail F es elem :
  es ≠ [] → frag_list_add_tail (conc (F, es)) elem = conc (F, es ++ [elem]).
Proof.
  destruct es as [|e es]; [done|]. intros _. unfold frag_list_add_tail, conc. cbn -[len].
  rewrite wrap_succ, len_app. f_equal. f_equal. unfold len. cbn. lia.
Qed.

Lemma conc_merge F es es' :
  es ≠ [] → es' ≠ [] →
  frag_list_merge_heads (conc (F, es)) (conc (F + len es, es')) = conc (F, es ++ es').
Proof.
  destruct es as [|e es]; [done|]. destruct es' as [|e' es']; [done|]. intros _ _.
  unfold frag_list_merge_heads, conc. cbn -[len]. rewrite len_cons, len_app, len_cons. f_equal. f_equal. lia.
Qed.

(** One element more, under the number [a]. *)
Definition pend_add (a elem : Z) (p p' : Z → option Z) : Prop :=
  p a = None ∧ ∀ x, p' x = if decide (x = a) then Some elem else p x.

(** What an insertion does to the runs. *)
Record runs_add (a elem pe u : Z) (runs runs' : list arun) (d : Z) : Prop := {
  ra_pend : pend_add a elem (pend runs) (pend runs');
  ra_chain : chain pe runs' u;
  ra_length : Z.of_nat (length runs') = Z.of_nat (length runs) + d;
  ra_total : total runs' = total runs + 1;
}.

Lemma pend_single a elem rest x :
  pend ((a, [elem]) :: rest) x = if decide (x = a) then Some elem else pend rest x.
Proof.
  cbn [pend]. change (len [elem]) with 1. case_bool_decide; case_decide; try lia; [|done].
  by replace (x - a) with 0 by lia.
Qed.

Lemma pend_app F es es' rest x :
  pend ((F, es ++ es') :: rest) x = pend ((F, es) :: (F + len es, es') :: rest) x.
Proof.
  cbn [pend]. rewrite len_app. unfold len in *.
  repeat case_bool_decide; try lia; [| |done].
  - rewrite lookup_app_l by lia. done.
  - rewrite lookup_app_r by lia. f_equal. lia.
Qed.

Lemma pend_cons_ext F es rest rest' a elem :
  (F ≤ a < F + len es → False) → pend_add a elem (pend rest) (pend rest') →
  pend_add a elem (pend ((F, es) :: rest)) (pend ((F, es) :: rest')).
Proof.
  intros Hout [Hn Ha]. split; [cbn [pend]; by rewrite bool_decide_false|].
  intros x. cbn [pend]. rewrite Ha. case_bool_decide; [|done]. rewrite decide_False; [done|].
  by intros ->.
Qed.

Lemma runs_add_cons a elem pe u F es rest rest' d :
  apart pe F → es ≠ [] → F + len es ≤ u → F + len es ≤ a →
  runs_add a elem (F + len es) u rest rest' d →
  runs_add a elem pe u ((F, es) :: rest) ((F, es) :: rest') d.
Proof.
  intros Hap Hne Hu Ha [Hp Hc Hl Ht]. split.
  - apply pend_cons_ext; [lia|done].
  - done.
  - cbn [length]. lia.
  - unfold total in *. cbn [foldr snd]. lia.
Qed.

Lemma runs_add_front a elem pe u runs :
  pe < a → a < u → chain pe runs u → chain (a + 1) runs u →
  runs_add a elem pe u runs ((a, [elem]) :: runs) 1.
Proof.
  intros Hpe Hau Hc Hc1. split.
  - split; [by apply (chain_pend_low (a + 1) runs u); [|lia]|]. apply pend_single.
  - split; [left; lia|]. split; [done|]. change (len [elem]) with 1. split; [lia|done].
  - cbn [length]. lia.
  - unfold total. cbn [foldr snd]. change (len [elem]) with 1. lia.
Qed.

Lemma runs_add_replace a elem pe u es rest :
  pe < a → chain pe ((a + 1, es) :: rest) u →
  runs_add a elem pe u ((a + 1, es) :: rest) ((a, elem :: es) :: rest) 0.
Proof.
  intros Hpe Hc. pose proof Hc as (Hap & Hne & Hu & Hc').
  apply len_pos in Hne as Hlen. split.
  - split.
    + cbn [pend]. rewrite bool_decide_false by lia. apply (chain_pend_low (a + 1 + len es) rest u); [done|lia].
    + intros x. change (elem :: es) with ([elem] ++ es). rewrite pend_app, pend_single. done.
  - split; [left; lia|]. split; [done|]. rewrite len_cons. split; [lia|].
    by replace (a + (len es + 1)) with (a + 1 + len es) by lia.
  - cbn [length]. lia.
  - unfold total. cbn [foldr snd]. rewrite len_cons. lia.
Qed.

Lemma pend_add_tail F es elem rest :
  pend rest (F + len es) = None →
  pend_add (F + len es) elem (pend ((F, es) :: rest)) (pend ((F, es ++ [elem]) :: rest)).
Proof.
  intros Hn. split; [cbn [pend]; rewrite bool_decide_false by lia; done|].
  intros x. rewrite pend_app. cbn [pend]. change (len [elem]) with 1.
  repeat case_bool_decide; case_decide; try lia; [done| |done].
  by replace (x - (F + len es)) with 0 by lia.
Qed.

Lemma runs_add_tail F es elem pe u rest :
  chain pe ((F, es) :: rest) u → F + len es < u →
  pend rest (F + len es) = None → chain (F + len es + 1) rest u →
  runs_add (F + len es) elem pe u ((F, es) :: rest) ((F, es ++ [elem]) :: rest) 0.
Proof.
  intros (Hap & Hne & Hu & Hc) Hlt Hn Hc1. split.
  - by apply pend_add_tail.
  - split; [done|]. split; [by destruct es|]. rewrite len_app. change (len [elem]) with 1.
    split; [lia|]. by rewrite Z.add_assoc.
  - cbn [length]. lia.
  - unfold total. cbn [foldr snd]. rewrite len_app. change (len [elem]) with 1. lia.
Qed.

Lemma runs_add_merge F es elem pe u es' rest :
  chain pe ((F, es) :: (F + len es + 1, es') :: rest) u →
  runs_add (F + len es) elem pe u ((F, es) :: (F + len es + 1, es') :: rest)
    ((F, (es ++ [elem]) ++ es') :: rest) (-1).
Proof.
  intros (Hap & Hne & Hu & Hap' & Hne' & Hu' & Hc').
  assert (len (es ++ [elem]) = len es + 1) as El by (rewrite len_app; done). split.
  - destruct (pend_add_tail F es elem ((F + len es + 1, es') :: rest)) as [Hn Hp].
    { cbn [pend]. rewrite bool_decide_false by lia.
      eapply (chain_pend_low _ rest u); [done|]. unfold len. lia. }
    split; [done|]. intros x. rewrite pend_app, <- Hp, El, Z.add_assoc. done.
  - split; [done|]. split; [by destruct es|]. rewrite len_app, El.
    replace (F + (len es + 1 + len es')) with (F + len es + 1 + len es') by lia. done.
  - cbn [length]. lia.
  - unfold total. cbn [foldr snd]. rewrite len_app, El. lia.
Qed.

Lemma chain_after pe runs u a :
  chain pe runs u → pe ≤ a → (∀ F es, head runs = Some (F, es) → apart a F) → chain a runs u.
Proof. destruct runs as [|[F es] rest]; [done|]. intros (_ & H) _ Ha. split; [by eapply Ha|done]. Qed.

(** Appending to a run, and merging it with the next one. *)
Lemma scan_tail F es elem pe u rest :
  chain pe ((F, es) :: rest) u → F + len es < u → u - pe < half → pe < F + len es →
  ((F + len es) `mod` 2 ^ 16 = 0 → pend ((F, es) :: rest) (F + len es) = None) →
  ∃ (runs' : list arun) (d : Z),
    (if SN_CMP (wrap 16 F) (wrap 16 (F + len es - 1)) <=? 0 then
       match conc <$> rest with
       | [] => Some (ScanInsert [frag_list_add_tail (conc (F, es)) elem] 0)
       | nexth :: rest' =>
           if first_sn nexth =? wrap 16 (F + len es) + 1
           then Some (ScanInsert (frag_list_merge_heads (frag_list_add_tail (conc (F, es)) elem) nexth :: rest') (-1))
           else Some (ScanInsert (frag_list_add_tail (conc (F, es)) elem :: (conc <$> rest)) 0)
       end
     else None) = Some (ScanInsert (conc <$> runs') d) ∧
    runs_add (F + len es) elem pe u ((F, es) :: rest) runs' d.
Proof.
  intros Hc Hu Hw Hpe H0. pose proof Hc as (Hap & Hne & _ & Hc'). apply len_pos in Hne as Hlen.
  unfold half in Hw. unfold apart in Hap.
  rewrite sn_cmp_00 by (unfold half; lia). rewrite (proj2 (Z.leb_le _ _)) by lia.
  rewrite conc_add_tail by done.
  destruct rest as [|[F' es'] rest]; cbn [fmap list_fmap].
  { exists [(F, es ++ [elem])], 0. split; [done|]. by apply runs_add_tail. }
  pose proof Hc' as (Hap' & Hne' & Hu' & Hc2). apply len_pos in Hne' as Hlen'.
  assert (F + len es < F') as HF'.
  { destruct Hap' as [|[E E0]]; [done|]. rewrite <- E in E0. specialize (H0 E0).
    exfalso. cbn [pend] in H0. rewrite bool_decide_false in H0 by lia.
    rewrite bool_decide_true in H0 by lia. apply lookup_ge_None in H0. unfold len in *. lia. }
  rewrite conc_first, plain_next by (unfold half; lia). case_bool_decide as Hm.
  - destruct Hm as [-> _]. exists ((F, (es ++ [elem]) ++ es') :: rest), (-1).
    replace (F + len es + 1) with (F + len (es ++ [elem])) by (rewrite len_app; change (len [elem]) with 1; lia).
    rewrite conc_merge by (by destruct es). split; [done|].
    rewrite len_app, Z.add_assoc. by apply runs_add_merge.
  - exists ((F, es ++ [elem]) :: (F', es') :: rest), 0. split; [done|].
    apply runs_add_tail; [done|done| |].
    + cbn [pend]. rewrite bool_decide_false by lia.
      apply (chain_pend_low (F' + len es') rest u); [done|lia].
    + split; [|done]. unfold apart. destruct (decide (F' = F + len es + 1)) as [->|]; [|left; lia].
      right. split; [done|]. destruct (decide ((F + len es + 1) `mod` 2 ^ 16 = 0)); [done|]. tauto.
Qed.

(** The search finds the number, or inserts the element under it; no
    assertion of the code fails.  The last hypothesis leaves out the repeated
    arrival of a number 0 that waits in a run of its own. *)
Lemma scan_runs_spec elem a u runs : ∀ pe prevh,
  chain pe runs u → pe < a < u → u - pe < half →
  (∀ p, prevh = Some p → SN_CMP (last_sn p + 1) (wrap 16 a) < 0) →
  (a `mod` 2 ^ 16 = 0 → pend runs a = None) →
  (scan_runs elem (wrap 16 a) prevh (conc <$> runs) = Some ScanDup ∧ is_Some (pend runs a)) ∨
  (∃ runs' d, scan_runs elem (wrap 16 a) prevh (conc <$> runs) = Some (ScanInsert (conc <$> runs') d) ∧
     runs_add a elem pe u runs runs' d).
Proof.
  induction runs as [|[F es] rest IH]; intros pe prevh Hc Ha Hw Hprev H0.
  { right. exists [(a, [elem])], 1. split; [|by apply runs_add_front; lia || done].
    cbn. unfold single_run. by rewrite Z.add_0_r. }
  pose proof Hc as (Hap & Hne & Hu & Hc'). apply len_pos in Hne as Hlen.
  unfold apart in Hap. unfold half in Hw.
  cbn [fmap list_fmap scan_runs]. rewrite conc_first, conc_last.
  rewrite (sn_cmp_00 a F), (sn_cmp_00 a (F + len es - 1)), (sn_cmp_10 a F), (sn_cmp_10 (F + len es - 1) a)
    by (unfold half; lia).
  destruct (decide (F ≤ a < F + len es)) as [Hin|Hin].
  { left. rewrite (proj2 (andb_true_iff _ _)) by lia. split; [done|].
    cbn [pend]. rewrite bool_decide_true by done. apply lookup_lt_is_Some_2. unfold len in *. lia. }
  rewrite (proj2 (andb_false_iff _ _)) by (rewrite !Z.leb_gt; lia). cbn match.
  destruct (Z.eqb_spec (a + 1 - F) 0) as [H2|H2].
  { right. assert (F = a + 1) as -> by lia. exists ((a, elem :: es) :: rest), 0.
    rewrite conc_replace by done. replace (a + 1 - 1) with a by lia.
    split; [done|]. by apply runs_add_replace; [lia|]. }
  destruct (Z.eqb_spec (F + len es - 1 + 1 - a) 0) as [H3|H3].
  { right. assert (a = F + len es) as -> by lia. apply scan_tail; done || (unfold half; lia). }
  destruct (Z.ltb_spec (a - F) 0) as [H4|H4].
  { right. exists ((a, [elem]) :: (F, es) :: rest), 1.
    replace (match prevh with Some p => SN_CMP (last_sn p + 1) (wrap 16 a) <? 0 | None => true end)
      with true by (destruct prevh as [p|]; [symmetry; apply Z.ltb_lt; by apply Hprev|done]).
    split; [cbn; unfold single_run; by rewrite Z.add_0_r|].
    apply runs_add_front; [lia|lia|done|]. split; [left; lia|done]. }
  rewrite (proj2 (Z.ltb_lt _ _)) by lia. cbn match.
  destruct (IH (F + len es) (Some (conc (F, es)))) as [[-> Hd]|(runs' & d & -> & Hadd)].
  - done.
  - lia.
  - unfold half. lia.
  - intros p [= <-]. rewrite conc_last, sn_cmp_10 by (unfold half; lia). lia.
  - intros Hm. specialize (H0 Hm). cbn [pend] in H0. by rewrite bool_decide_false in H0.
  - left. split; [done|]. cbn [pend]. by rewrite bool_decide_false.
  - right. exists ((F, es) :: runs'), d. split; [done|]. apply runs_add_cons; done || lia.
Qed.

(** ** The list between calls *)

(** The state for head number [H], ready elements [rd] and waiting [runs]. *)
Record Rep (f : ucs_frag_list_t) (H : Z) (rd : list Z) (runs : list arun) : Prop := {
  rep_list : fl_list f = conc <$> runs;
  rep_ready : ready_list f = rd;
  rep_head : head_sn f = wrap 16 H;
  rep_elems : elem_count f = len rd + total runs;
  rep_lists : list_count f = Z.of_nat (length runs);
  rep_holes : max_holes f = -1;
  rep_chain : ∃ pe, chain pe runs (H + half);
  rep_low : ∀ x, x ≤ H → pend runs x = None;
}.

Lemma chain_mono pe runs u u' : chain pe runs u → u ≤ u' → chain pe runs u'.
Proof.
  revert pe. induction runs as [|[F es] rest IH]; intros pe Hc Hu; [done|].
  destruct Hc as (? & ? & ? & ?). split_and!; [done|done|lia|by eapply IH].
Qed.

Lemma pend_first F es rest : es ≠ [] → is_Some (pend ((F, es) :: rest) F).
Proof.
  intros Hne. apply len_pos in Hne. cbn [pend]. rewrite bool_decide_true by lia.
  apply lookup_lt_is_Some_2. unfold len in Hne. lia.
Qed.

(** The first run lies above a bound below which nothing waits. *)
Lemma chain_low pe runs u b :
  chain pe runs u → (∀ x, x ≤ b → pend runs x = None) → chain b runs u.
Proof.
  destruct runs as [|[F es] rest]; [done|]. intros (_ & Hne & H) Hlow.
  split; [left|done]. destruct (decide (F ≤ b)) as [Hle|]; [|lia].
  destruct (pend_first F es rest Hne) as [e E]. by rewrite Hlow in E.
Qed.

Lemma total_bound b runs u : chain b runs u → b ≤ u → 0 ≤ total runs ≤ u - b.
Proof.
  revert b. induction runs as [|[F es] rest IH]; intros b Hc Hb; [cbn; lia|].
  destruct Hc as (Hap & Hne & Hu & Hc). unfold total in *. cbn [foldr snd].
  specialize (IH _ Hc Hu). apply len_pos in Hne. unfold apart in Hap. lia.
Qed.

Lemma length_bound b runs u : chain b runs u → Z.of_nat (length runs) ≤ total runs.
Proof.
  revert b. induction runs as [|[F es] rest IH]; intros b Hc; [cbn; lia|].
  destruct Hc as (Hap & Hne & Hu & Hc). unfold total in *. cbn [foldr snd length].
  specialize (IH _ Hc). apply len_pos in Hne. lia.
Qed.

Lemma rep_bounds f H rd runs :
  Rep f H rd runs → 0 ≤ total runs ≤ half ∧ Z.of_nat (length runs) ≤ half.
Proof.
  intros HR. destruct (rep_chain _ _ _ _ HR) as [pe Hc].
  pose proof (chain_low _ _ _ H Hc (rep_low _ _ _ _ HR)) as HcH.
  pose proof (total_bound _ _ _ HcH). pose proof (length_bound _ _ _ HcH). unfold half in *. lia.
Qed.

(** ** Pulling *)

Lemma pull_ready f H e rd runs :
  Rep f H (e :: rd) runs → len rd < 2 ^ 31 →
  ∃ f', ucs_frag_list_pull f = Some (Some e, f') ∧ Rep f' H rd runs.
Proof.
  intros HR Hrd. pose proof (rep_bounds _ _ _ _ HR). destruct HR as [Hl Hr Hh He Hlc Hm Hc Hlow].
  unfold ucs_frag_list_pull, ucs_frag_list_remove. rewrite Hr. eexists. split; [done|].
  split; try done. cbn. rewrite He, len_cons, wrap_small; [lia|unfold len, half in *; lia].
Qed.

Lemma pull_run f H e es rest :
  Rep f H [] ((H + 1, e :: es) :: rest) →
  ∃ f', ucs_frag_list_pull f = Some (Some e, f') ∧ Rep f' (H + len (e :: es)) es rest.
Proof.
  intros HR. pose proof (rep_bounds _ _ _ _ HR) as Hb. destruct HR as [Hl Hr Hh He Hlc Hm [pe Hc] Hlow].
  unfold ucs_frag_list_pull, ucs_frag_list_remove, ucs_frag_list_pull_slow.
  rewrite Hr, Hl. cbn [fmap list_fmap is_nil negb]. rewrite Hh.
  rewrite conc_first, sn_cmp_01 by (unfold half; lia).
  replace (H + 1 - H - 1 =? 0) with true by (symmetry; apply Z.eqb_eq; lia). cbn [negb andb].
  eexists. split; [done|]. destruct Hc as (_ & Hne & Hu & Hc).
  rewrite total_cons in *. cbn [length] in *. rewrite !len_cons in *. change (len []) with 0 in He.
  split; cbn [fl_list ready_list head_sn elem_count list_count max_holes]; try done.
  - rewrite conc_last, len_cons. f_equal. lia.
  - pose proof (total_nonneg rest). rewrite He, wrap_small; unfold half, len in *; lia.
  - rewrite Hlc. rewrite wrap_small; unfold half in *; lia.
  - exists (H + 1 + (len es + 1)). eapply chain_mono; [done|]. unfold len. lia.
  - intros x Hx. apply (chain_pend_low _ _ _ _ Hc). lia.
Qed.

Lemma pull_none f H runs :
  Rep f H [] runs → pend runs (H + 1) = None → ucs_frag_list_pull f = Some (None, f).
Proof.
  intros [Hl Hr Hh He Hlc Hm [pe Hc] Hlow] Hn.
  unfold ucs_frag_list_pull, ucs_frag_list_remove, ucs_frag_list_pull_slow.
  rewrite Hr, Hl. destruct runs as [|[F es] rest]; [done|]. cbn [fmap list_fmap is_nil negb]. rewrite Hh.
  assert (chain (H + 1) ((F, es) :: rest) (H + half)) as (Hap & Hne & Hu & _).
  { apply (chain_low pe); [done|]. intros x Hx. destruct (decide (x = H + 1)) as [->|]; [done|].
    apply Hlow. lia. }
  apply len_pos in Hne as Hlen. destruct (pend_first F es rest Hne) as [e0 Hsome].
  assert (F ≠ H + 1) as HF by (intros ->; congruence). unfold apart in Hap.
  rewrite conc_first, sn_cmp_01 by (unfold half in *; lia).
  replace (F - H - 1 =? 0) with false by (symmetry; apply Z.eqb_neq; lia). done.
Qed.

(** When the next number waits, the first run starts with it. *)
Lemma rep_next_run f H F es rest :
  Rep f H [] ((F, es) :: rest) → is_Some (pend ((F, es) :: rest) (H + 1)) → F = H + 1 ∧ es ≠ [].
Proof.
  intros HR [e Hp]. destruct (rep_chain _ _ _ _ HR) as [pe (_ & Hne & _ & Hc)].
  split; [|done]. destruct (pend_first F es rest Hne) as [x Hx].
  assert (H < F) as HF.
  { destruct (decide (F ≤ H)) as [Hle|]; [|lia]. by rewrite (rep_low _ _ _ _ HR F Hle) in Hx. }
  cbn [pend] in Hp. case_bool_decide as E; [lia|]. apply len_pos in Hne.
  rewrite (chain_pend_low _ _ _ _ Hc) in Hp by lia. done.
Qed.

Lemma pend_run_head H e0 es rest : pend ((H + 1, e0 :: es) :: rest) (H + 1 + (Z.of_nat 0 - 0)) = Some e0.
Proof.
  cbn [pend]. rewrite len_cons, bool_decide_true by (unfold len; cbn; lia).
  by replace (Z.to_nat (H + 1 + (Z.of_nat 0 - 0) - (H + 1))) with O by lia.
Qed.

Lemma pend_run_tail H e0 es rest i :
  match es !! i with
  | Some e => Some e
  | None => pend rest (H + (len es + 1) + 1 + (Z.of_nat i - len es))
  end = pend ((H + 1, e0 :: es) :: rest) (H + 1 + Z.of_nat (S i)).
Proof.
  cbn [pend]. rewrite len_cons. case_bool_decide as E.
  - replace (Z.to_nat (H + 1 + Z.of_nat (S i) - (H + 1))) with (S i) by lia.
    cbn [lookup list_lookup]. destruct (es !! i) eqn:El; [done|].
    apply lookup_ge_None in El. unfold len in E. lia.
  - rewrite (lookup_ge_None_2 es i) by (unfold len in E; lia). f_equal. lia.
Qed.

(** Draining delivers the ready elements and then the waiting ones up to the
    first gap. *)
Lemma pull_loop_spec fuel : ∀ f H rd runs,
  Rep f H rd runs → len rd < 2 ^ 31 → len rd + total runs < Z.of_nat fuel →
  ∃ out f' runs', let H' := H - len rd + len out in
    pull_loop fuel f = Some (out, f') ∧ Rep f' H' [] runs' ∧ H ≤ H' ∧
    pend runs' (H' + 1) = None ∧ (∀ x, H' < x → pend runs' x = pend runs x) ∧
    ∀ i, (i ≤ length out)%nat →
      out !! i = match rd !! i with
                 | Some e => Some e
                 | None => pend runs (H + 1 + (Z.of_nat i - len rd))
                 end.
Proof.
  induction fuel as [|fuel IH]; intros f H rd runs HR Hrd Hf.
  { pose proof (rep_bounds _ _ _ _ HR). unfold len in *. lia. }
  cbn [pull_loop]. destruct rd as [|e rd].
  - destruct (pend runs (H + 1)) as [e|] eqn:Hp.
    + destruct runs as [|[F es] rest]; [done|].
      destruct (rep_next_run f H F es rest HR) as [-> Hne]; [by rewrite Hp|].
      destruct es as [|e0 es]; [done|]. rewrite total_cons, len_cons in Hf.
      destruct (pull_run f H e0 es rest HR) as (f1 & -> & HR1). run.
      destruct (IH f1 (H + len (e0 :: es)) es rest HR1) as (out & f' & runs' & -> & HR' & Hle & Hn & Hx & Hout).
      { pose proof (rep_bounds _ _ _ _ HR) as Hb. rewrite total_cons, len_cons in Hb.
        pose proof (total_nonneg rest). unfold half in Hb. lia. }
      { change (len []) with 0 in Hf. lia. }
      rewrite !len_cons in *. exists (e0 :: out), f', runs'.
      replace (H - len [] + len (e0 :: out)) with (H + (len es + 1) - len es + len out)
        by (rewrite len_cons; change (len []) with 0; lia).
      split_and!; try done; [unfold len in *; lia| |].
      * intros x Hx'. rewrite Hx by done. cbn [pend]. rewrite bool_decide_false; [done|].
        rewrite len_cons. lia.
      * intros [|i] Hi.
        -- rewrite lookup_nil. change (len []) with 0. rewrite pend_run_head. done.
        -- cbn [length] in Hi. change ((e0 :: out) !! S i) with (out !! i). rewrite Hout by lia.
           rewrite lookup_nil. change (len []) with 0. by rewrite (pend_run_tail H e0), Z.sub_0_r.
    + rewrite (pull_none f H runs HR Hp). run. exists [], f, runs.
      change (len []) with 0. replace (H - 0 + 0) with H by lia. split_and!; try done.
      intros i Hi. cbn in Hi. assert (i = O) as -> by lia. rewrite !lookup_nil.
      by rewrite Z.sub_0_r, Z.add_0_r.
  - rewrite len_cons in *. destruct (pull_ready f H e rd runs HR) as (f1 & -> & HR1); [lia|]. run.
    destruct (IH f1 H rd runs HR1) as (out & f' & runs' & -> & HR' & Hle & Hn & Hx & Hout); [lia..|].
    exists (e :: out), f', runs'. rewrite !len_cons.
    replace (H - (len rd + 1) + (len out + 1)) with (H - len rd + len out) by lia.
    split_and!; try done. intros [|i] Hi; [done|]. cbn [length] in Hi.
    change ((e :: out) !! S i) with (out !! i). change ((e :: rd) !! S i) with (rd !! i).
    rewrite Hout by lia. destruct (rd !! i); [done|]. f_equal. lia.
Qed.

(** ** Insertion *)

Lemma rep_gap_run f H F es rest :
  Rep f H [] ((F, es) :: rest) → pend ((F, es) :: rest) (H + 1) = None →
  H + 1 < F ∧ F < H + half ∧ es ≠ [].
Proof.
  intros HR Hn. destruct (rep_chain _ _ _ _ HR) as [pe (_ & Hne & Hu & Hc)].
  destruct (pend_first F es rest Hne) as [x Hx]. apply len_pos in Hne as Hlen.
  split_and!; [|lia|done].
  destruct (decide (F ≤ H)) as [Hle|]; [by rewrite (rep_low _ _ _ _ HR F Hle) in Hx|].
  destruct (decide (F = H + 1)) as [->|]; [congruence|lia].
Qed.

Lemma rep_advance f f' H runs :
  Rep f H [] runs → pend runs (H + 1) = None →
  fl_list f' = fl_list f → ready_list f' = ready_list f → head_sn f' = wrap 16 (H + 1) →
  elem_count f' = elem_count f → list_count f' = list_count f → max_holes f' = max_holes f →
  Rep f' (H + 1) [] runs.
Proof.
  intros [Hl Hr Hh He Hlc Hm [pe Hc] Hlow] Hn El Er Eh Ee Ec Em. split; try congruence.
  - exists pe. eapply chain_mono; [done|lia].
  - intros x Hx. destruct (decide (x = H + 1)) as [->|]; [done|]. apply Hlow. lia.
Qed.

(** The in-order arrival. *)
Lemma insert_next f H runs elem :
  Rep f H [] runs → pend runs (H + 1) = None →
  ∃ ooo f', ucs_frag_list_insert f elem (wrap 16 (H + 1)) = Some (ooo, f') ∧
    Rep f' (H + 1) [] runs ∧
    ((ooo = UCS_FRAG_LIST_INSERT_FAST ∧ pend runs (H + 2) = None) ∨ ooo = UCS_FRAG_LIST_INSERT_FIRST).
Proof.
  intros HR Hgap. pose proof HR as [Hl Hr Hh He Hlc Hm [pe Hc] Hlow].
  unfold ucs_frag_list_insert, ucs_frag_list_insert_slow. rewrite Hh.
  rewrite (sn_cmp_01 (H + 1) H) by (unfold half; lia).
  replace (H + 1 - H - 1 =? 0) with true by (symmetry; apply Z.eqb_eq; lia). cbn [andb].
  destruct (Z.eqb_spec (elem_count f) 0) as [E0|N0].
  { eexists _, _. split; [done|]. split; [by apply (rep_advance f)|]. left. split; [done|].
    destruct runs as [|[F es] rest]; [done|]. rewrite total_cons in He. change (len []) with 0 in He.
    destruct (rep_gap_run _ _ _ _ _ HR Hgap) as (_ & _ & Hne). apply len_pos in Hne.
    pose proof (total_nonneg rest). lia. }
  unfold ucs_frag_list_insert_head. rewrite Hl.
  destruct runs as [|[F es] rest]; [by destruct N0; rewrite He|]. cbn [fmap list_fmap head].
  destruct (rep_gap_run _ _ _ _ _ HR Hgap) as (HF & HF' & Hne). unfold half in HF'.
  rewrite conc_first, sn_cmp_00 by (unfold half; lia).
  replace (0 <=? H + 1 - F) with false by (symmetry; apply Z.leb_gt; lia).
  rewrite Hr, sn_cmp_01 by (unfold half; lia). cbn [is_nil negb].
  assert (Rep (ucs_frag_list_sn_inc f) (H + 1) [] ((F, es) :: rest)) as HR1.
  { apply (rep_advance f); try done. cbn. by rewrite Hh, wrap_succ. }
  destruct (Z.eqb_spec (F - (H + 1) - 1) 0) as [E|E]; eexists _, _; (split; [done|]);
    (split; [done|]); [by right|left]. split; [done|].
  destruct (rep_chain _ _ _ _ HR) as [pe' (_ & _ & _ & Hc')]. apply len_pos in Hne.
  cbn [pend]. rewrite bool_decide_false by lia. apply (chain_pend_low _ _ _ _ Hc'). lia.
Qed.

(** What an insertion does in terms of unbounded numbers, on a drained list. *)
Lemma insert_spec f H runs a elem :
  Rep f H [] runs → pend runs (H + 1) = None → H - half < a < H + half →
  (a `mod` 2 ^ 16 = 0 → pend runs a = None) →
  ∃ ooo f', ucs_frag_list_insert f elem (wrap 16 a) = Some (ooo, f') ∧
  match ooo with
  | UCS_FRAG_LIST_INSERT_FAST => a = H + 1 ∧ Rep f' a [] runs ∧ pend runs (a + 1) = None
  | UCS_FRAG_LIST_INSERT_FIRST => a = H + 1 ∧ Rep f' a [] runs
  | UCS_FRAG_LIST_INSERT_SLOW => H + 1 < a ∧
      ∃ runs', Rep f' H [] runs' ∧ pend_add a elem (pend runs) (pend runs')
  | UCS_FRAG_LIST_INSERT_DUP => f' = f ∧ (a ≤ H ∨ is_Some (pend runs a))
  | _ => False
  end.
Proof.
  intros HR Hgap Hw H0. destruct (decide (a = H + 1)) as [->|Hne].
  { destruct (insert_next f H runs elem HR Hgap) as (ooo & f' & -> & HR' & Ho).
    eexists _, _. split; [done|]. replace (H + 1 + 1) with (H + 2) by lia.
    destruct Ho as [[-> Hn]| ->]; done. }
  pose proof HR as [Hl Hr Hh He Hlc Hm [pe Hc] Hlow]. unfold half in Hw.
  unfold ucs_frag_list_insert, ucs_frag_list_insert_slow. rewrite Hh, Hm.
  rewrite (sn_cmp_01 a H), (sn_cmp_00 a H) by (unfold half; lia).
  replace (a - H - 1 =? 0) with false by (symmetry; apply Z.eqb_neq; lia). cbn [andb Z.eqb].
  destruct (Z.leb_spec (a - H) 0) as [Hle|Hgt].
  { eexists _, _. split; [done|]. cbn. split; [done|]. left. lia. }
  assert (chain (H + 1) runs (H + half)) as Hc1.
  { apply (chain_low pe); [done|]. intros x Hx. destruct (decide (x = H + 1)) as [->|]; [done|].
    apply Hlow. lia. }
  rewrite Hl. destruct (scan_runs_spec elem a (H + half) runs (H + 1) None)
    as [[-> Hd]|(runs' & d & -> & [Hp Hc' Hlen Ht])]; try done; [unfold half; lia|unfold half; lia| |]; run.
  { eexists _, _. split; [done|]. cbn. split; [done|]. by right. }
  eexists _, _. split; [done|]. cbn match. split; [lia|]. exists runs'. split; [|done].
  pose proof (rep_bounds _ _ _ _ HR) as Hb. pose proof (total_bound _ _ _ Hc' ltac:(unfold half; lia)).
  pose proof (length_bound _ _ _ Hc'). unfold half in *. change (len []) with 0 in *.
  split; cbn [fl_list ready_list head_sn elem_count list_count max_holes]; try done.
  - rewrite He, wrap_small; change (len []) with 0; lia.
  - rewrite Hlc, wrap_small; lia.
  - eexists. exact Hc'.
  - intros x Hx. destruct Hp as [_ ->]. rewrite decide_False by lia. by apply Hlow.
Qed.

(** ** The receiver *)

(** The descriptors passed to the handler. *)
Definition delivered (evs : list rx_event) : list Z :=
  omap (λ ev, match ev with RxDeliver d => Some d | RxRelease _ => None end) evs.

Lemma delivered_map es : delivered (map RxDeliver es) = es.
Proof. unfold delivered. induction es as [|e es IH]; [done|]. cbn. by rewrite IH. Qed.

Definition receive (f : ucs_frag_list_t) (elem sn : Z) : option (list Z * ucs_frag_list_t) :=
  '(evs, f') ← process_frag f elem sn; Some (delivered evs, f').

(** Arrivals are pairs of an unbounded number and an element; the packet
    carries the low 16 bits. *)
Fixpoint receive_all (f : ucs_frag_list_t) (l : list (Z * Z)) : option (list Z * ucs_frag_list_t) :=
  match l with
  | [] => Some ([], f)
  | (a, e) :: l =>
      '(out, f') ← receive f e (wrap 16 a);
      '(out', f'') ← receive_all f' l;
      Some (out ++ out', f'')
  end.

(** The element that arrived first under a number. *)
Fixpoint first_arrival (l : list (Z * Z)) (x : Z) : option Z :=
  match l with
  | [] => None
  | (a, e) :: l => if decide (x = a) then Some e else first_arrival l x
  end.

(** Each arrival is within half the number space of the head (the initial
    number plus the number of delivered elements), and a number 0 modulo
    [2 ^ 16] does not arrive again while it waits. *)
Fixpoint window_ok (f : ucs_frag_list_t) (H : Z) (seen l : list (Z * Z)) : Prop :=
  match l with
  | [] => True
  | (a, e) :: l =>
      H - half < a < H + half ∧
      (a `mod` 2 ^ 16 = 0 → H < a → first_arrival seen a = None) ∧
      match receive f e (wrap 16 a) with
      | Some (out, f') => window_ok f' (H + len out) (seen ++ [(a, e)]) l
      | None => True
      end
  end.

Lemma first_arrival_app l l' x :
  first_arrival (l ++ l') x = match first_arrival l x with
                              | Some e => Some e
                              | None => first_arrival l' x
                              end.
Proof. induction l as [|[a e] l IH]; [done|]. cbn. by case_decide. Qed.

(** Between arrivals: what waits is what arrived above the head. *)
Definition waiting (f : ucs_frag_list_t) (H0 H : Z) (seen : list (Z * Z)) : Prop :=
  ∃ runs, Rep f H [] runs ∧ pend runs (H + 1) = None ∧ H0 ≤ H ∧
    (∀ x, H < x → pend runs x = first_arrival seen x) ∧
    ∀ x, H0 < x ≤ H → is_Some (first_arrival seen x).

Lemma first_arrival_snoc seen a e x :
  first_arrival (seen ++ [(a, e)]) x =
    match first_arrival seen x with Some e' => Some e' | None => if decide (x = a) then Some e else None end.
Proof. by rewrite first_arrival_app. Qed.

Lemma waiting_keep f H0 H seen a e :
  waiting f H0 H seen → a ≤ H ∨ is_Some (first_arrival seen a) → waiting f H0 H (seen ++ [(a, e)]).
Proof.
  intros (runs & HR & Hgap & HH & Hw & Hd) Ha. exists runs. split_and!; try done.
  - intros x Hx. rewrite first_arrival_snoc, Hw by done.
    destruct (first_arrival seen x) eqn:E; [done|]. rewrite decide_False; [done|]. intros ->.
    destruct Ha as [|[y Hy]]; [lia|congruence].
  - intros x Hx. rewrite first_arrival_snoc. by destruct (Hd x Hx) as [y ->].
Qed.

(** The in-order element and the waiting ones after it. *)
Lemma waiting_deliver f' H0 H seen e es runs runs' :
  H0 ≤ H → pend runs (H + 1) = None → (∀ x, H < x → pend runs x = first_arrival seen x) →
  (∀ x, H0 < x ≤ H → is_Some (first_arrival seen x)) →
  Rep f' (H + len (e :: es)) [] runs' → pend runs' (H + len (e :: es) + 1) = None →
  (∀ x, H + len (e :: es) < x → pend runs' x = pend runs x) →
  (∀ i, (i < length es)%nat → es !! i = pend runs (H + 2 + Z.of_nat i)) →
  waiting f' H0 (H + len (e :: es)) (seen ++ [(H + 1, e)]) ∧
  ∀ i, (i < length (e :: es))%nat →
    (e :: es) !! i = first_arrival (seen ++ [(H + 1, e)]) (H + 1 + Z.of_nat i).
Proof.
  intros HH Hgap Hw Hd HR' Hn Hx Hes.
  assert (∀ i, (i < length (e :: es))%nat →
    (e :: es) !! i = first_arrival (seen ++ [(H + 1, e)]) (H + 1 + Z.of_nat i)) as Hout.
  { intros [|i] Hi; rewrite first_arrival_snoc, <- Hw by lia.
    - by rewrite Z.add_0_r, Hgap, decide_True.
    - cbn [length] in Hi. change ((e :: es) !! S i) with (es !! i). rewrite Hes by lia.
      replace (H + 1 + Z.of_nat (S i)) with (H + 2 + Z.of_nat i) by lia.
      destruct (pend runs (H + 2 + Z.of_nat i)); [done|]. by rewrite decide_False by lia. }
  split; [|done]. assert (1 ≤ len (e :: es)) as Hlen by (rewrite len_cons; unfold len; lia).
  exists runs'. split_and!; [done|done|lia| |].
  - intros x Hx'. rewrite Hx, Hw, first_arrival_snoc by lia.
    destruct (first_arrival seen x); [done|]. by rewrite decide_False by lia.
  - intros x Hx'. destruct (decide (x ≤ H)) as [Hle|Hgt].
    + rewrite first_arrival_snoc. destruct (Hd x) as [y ->]; [lia|by eexists].
    + specialize (Hout (Z.to_nat (x - H - 1)) ltac:(unfold len in *; lia)).
      replace (H + 1 + Z.of_nat (Z.to_nat (x - H - 1))) with x in Hout by lia. rewrite <- Hout.
      apply lookup_lt_is_Some_2. unfold len in *. lia.
Qed.

(** One arrival delivers the arrived elements up to the next gap. *)
Lemma receive_spec f H0 H seen a e :
  waiting f H0 H seen → H - half < a < H + half →
  (a `mod` 2 ^ 16 = 0 → H < a → first_arrival seen a = None) →
  ∃ out f', receive f e (wrap 16 a) = Some (out, f') ∧
    waiting f' H0 (H + len out) (seen ++ [(a, e)]) ∧
    ∀ i, (i < length out)%nat → out !! i = first_arrival (seen ++ [(a, e)]) (H + 1 + Z.of_nat i).
Proof.
  intros Hwait Ha H0'. pose proof Hwait as (runs & HR & Hgap & HH & Hw & Hd).
  destruct (insert_spec f H runs a e HR Hgap Ha) as (ooo & f' & Hi & Ho).
  { intros Hm. destruct (decide (a ≤ H)) as [Hle|]; [by apply HR|].
    rewrite Hw by lia. apply H0'; [done|lia]. }
  unfold receive, process_frag. rewrite Hi. run. destruct ooo; try done; run.
  - destruct Ho as (-> & HR' & Hn). exists [e], f'. split; [done|].
    apply (waiting_deliver f' H0 H seen e [] runs runs); try done. intros i Hi'. cbn in Hi'. lia.
  - destruct Ho as (-> & HR'). unfold pull_fuel, ucs_frag_list_count.
    destruct (pull_loop_spec (S (Z.to_nat (elem_count f'))) f' (H + 1) [] runs HR')
      as (es & f'' & runs' & -> & HR'' & _ & Hn & Hx & Hes); [done| |].
    { rewrite (rep_elems _ _ _ _ HR'). lia. }
    run. exists (e :: es), f''. split; [cbn [delivered omap list_omap]; by rewrite <- (delivered_map es) at 2|]. change (len []) with 0 in *.
    replace (H + 1 - 0 + len es) with (H + len (e :: es)) in * by (rewrite len_cons; lia).
    apply (waiting_deliver f'' H0 H seen e es runs runs'); try done. intros i Hi'.
    rewrite Hes by lia. rewrite lookup_nil. f_equal. lia.
  - destruct Ho as (Hlt & runs' & HR' & [Hn Hp]). exists [], f'. split; [done|].
    change (len []) with 0. rewrite Z.add_0_r. split; [|intros i Hi'; cbn in Hi'; lia].
    exists runs'. split_and!; [done| |done| |].
    + rewrite Hp, decide_False by lia. done.
    + intros x Hx. rewrite Hp, first_arrival_snoc, <- Hw by done. case_decide as E; [|by destruct (pend runs x)].
      subst x. by rewrite Hn.
    + intros x Hx. rewrite first_arrival_snoc. by destruct (Hd x Hx) as [y ->].
  - destruct Ho as (-> & Hdup). exists [], f. split; [done|]. change (len []) with 0. rewrite Z.add_0_r.
    split; [|intros i Hi'; cbn in Hi'; lia]. apply waiting_keep; [done|].
    destruct Hdup as [|Hs]; [by left|]. destruct (decide (a ≤ H)); [by left|right]. by rewrite <- Hw by lia.
Qed.

Lemma receive_all_spec l : ∀ f H0 H seen,
  waiting f H0 H seen → window_ok f H seen l →
  ∃ out f', receive_all f l = Some (out, f') ∧ waiting f' H0 (H + len out) (seen ++ l) ∧
    ∀ i, (i < length out)%nat → out !! i = first_arrival (seen ++ l) (H + 1 + Z.of_nat i).
Proof.
  induction l as [|[a e] l IH]; intros f H0 H seen Hw Hok.
  { exists [], f. change (len []) with 0. rewrite Z.add_0_r, app_nil_r.
    split; [done|]. split; [done|]. intros i Hi. cbn in Hi. lia. }
  destruct Hok as (Ha & Hz & Hok). cbn [receive_all].
  destruct (receive_spec f H0 H seen a e Hw Ha Hz) as (out & f1 & E & Hw1 & Hout).
  rewrite E in *. run.
  destruct (IH f1 H0 (H + len out) (seen ++ [(a, e)]) Hw1 Hok) as (out' & f' & -> & Hw' & Hout'). run.
  rewrite <- (assoc (++)) in Hw', Hout'. cbn [app] in Hw', Hout'.
  exists (out ++ out'), f'. rewrite len_app, Z.add_assoc. split; [done|]. split; [done|].
  intros i Hi. rewrite length_app in Hi. destruct (decide (i < length out)%nat) as [Hlt|Hge].
  - rewrite lookup_app_l, Hout by done. change ((a, e) :: l) with ([(a, e)] ++ l).
    rewrite (assoc (++)), (first_arrival_app _ l).
    destruct (first_arrival (seen ++ [(a, e)]) (H + 1 + Z.of_nat i)) eqn:E1; [done|].
    rewrite <- Hout in E1 by done. apply lookup_ge_None in E1. lia.
  - rewrite lookup_app_r, Hout' by lia. f_equal. unfold len. lia.
Qed.

Lemma rep_dump f H rd runs : Rep f H rd runs → ucs_frag_list_dump f = Some tt.
Proof.
  intros [Hl Hr Hh He Hlc Hm [pe Hc] Hlow]. unfold ucs_frag_list_dump.
  rewrite Hl, Hr, He, Hlc, length_fmap.
  assert (∀ n, foldl (λ n h, n + run_count h) n (conc <$> runs) = n + total runs) as Hf.
  { clear -Hc. revert pe Hc. induction runs as [|[F es] rest IH]; intros pe Hc n; [cbn; lia|].
    destruct Hc as (_ & Hne & _ & Hc). cbn [fmap list_fmap foldl]. rewrite (IH _ Hc), total_cons.
    destruct es as [|e es]; [done|]. rewrite len_cons. unfold run_count, len. cbn [conc snd h_list]. lia. }
  rewrite Hf. unfold len. by rewrite !Z.eqb_refl.
Qed.

Lemma waiting_init H0 : waiting (mk_frag_list [] [] (wrap 16 H0) 0 0 (-1)) H0 H0 [].
Proof.
  exists []. split_and!; try done; [|intros; lia]. split; try done. by exists 0.
Qed.

(** C23: a receiver that pulls on every in-order arrival delivers, whatever the
    order, loss and repetition of the arrivals inside the window, exactly the
    elements up to the first number that has not arrived, in order, each once
    and the first that arrived under its number; no assertion fails and the
    counters of the list agree with its contents.  Inside the window ([window_ok]) means
    that each arrival is within half the number space of the head, and that a number 0
    modulo [2 ^ 16] does not arrive again while it waits (see [wrap_duplicate_blocks]).
    A user that does not pull can see wrong counters ([ready_insert_not_counted]). *)
Theorem receiver_delivers_in_order H0 l f0 :
  ucs_frag_list_init (wrap 16 H0) (-1) = Some f0 → window_ok f0 H0 [] l →
  ∃ out f', receive_all f0 l = Some (out, f') ∧
    (∀ i, (i ≤ length out)%nat → out !! i = first_arrival l (H0 + 1 + Z.of_nat i)) ∧
    ucs_frag_list_sn f' = wrap 16 (H0 + len out) ∧ ucs_frag_list_dump f' = Some tt.
Proof.
  intros [= <-] Hok.
  destruct (receive_all_spec l _ H0 H0 [] (waiting_init H0) Hok)
    as (out & f' & E & (runs & HR & Hgap & _ & Hw & _) & Hout).
  exists out, f'. split_and!; [done| |apply HR|by eapply rep_dump].
  intros i Hi. destruct (decide (i < length out)%nat) as [|Hge]; [by apply Hout|].
  assert (i = length out) as -> by lia. rewrite lookup_ge_None_2 by lia.
  rewrite Hw in Hgap by lia. rewrite <- Hgap. cbn [app]. f_equal. unfold len. lia.
Qed.

Definition ex_arrivals : list (Z * Z) :=
  [(65535, 1); (65537, 2); (65535, 3); (65536, 4); (65534, 5); (65534, 6); (65540, 7); (65538, 8)].

Lemma receiver_witness :
  ∃ out f', receive_all (mk_frag_list [] [] 65533 0 0 (-1)) ex_arrivals = Some (out, f') ∧
    (∀ i, (i ≤ length out)%nat → out !! i = first_arrival ex_arrivals (65533 + 1 + Z.of_nat i)) ∧
    ucs_frag_list_sn f' = wrap 16 (65533 + len out) ∧ ucs_frag_list_dump f' = Some tt.
Proof.
  apply (receiver_delivers_in_order 65533 ex_arrivals); [reflexivity|].
  vm_compute. repeat split; congruence.
Defined.

(** ** The configuration without holes *)

(** With [max_holes] 0 (the configuration the UD transport uses) only the
    next number is accepted, an old one is reported as a duplicate and a
    later one fails, and the list stays empty. *)
Theorem no_holes_insert H a elem :
  H - half < a < H + half →
  let f := mk_frag_list [] [] (wrap 16 H) 0 0 0 in
  ucs_frag_list_insert f elem (wrap 16 a) =
    Some (if decide (a = H + 1)
          then (UCS_FRAG_LIST_INSERT_FAST, mk_frag_list [] [] (wrap 16 a) 0 0 0)
          else if decide (a ≤ H) then (UCS_FRAG_LIST_INSERT_DUP, f)
          else (UCS_FRAG_LIST_INSERT_FAIL, f)).
Proof.
  intros Hw f. unfold half in Hw. unfold ucs_frag_list_insert, ucs_frag_list_insert_slow.
  cbn [head_sn elem_count max_holes f]. rewrite sn_cmp_01, sn_cmp_00 by (unfold half; lia).
  destruct (Z.eqb_spec (a - H - 1) 0); case_decide; try lia; [done|]. cbn [andb].
  destruct (Z.leb_spec (a - H) 0); case_decide; done || lia.
Qed.

Lemma no_holes_insert_witness :
  ucs_frag_list_insert (mk_frag_list [] [] 65535 0 0 0) 7 0 =
    Some (UCS_FRAG_LIST_INSERT_FAST, mk_frag_list [] [] 0 0 0 0).
Proof. apply (no_holes_insert 65535 65536 7). unfold half. lia. Defined.

(** ** What the window condition leaves out *)

(** Runs that meet at the wrap-around are not merged ([first_sn == sn + 1]
    compares [int]s), so a repeated number 0 is appended to the first of them. *)
Definition wrap_arrivals : list (Z * Z) :=
  [(65534, 1); (65536, 2); (65535, 3); (65536, 4); (65533, 5)].

Definition stuck_list : ucs_frag_list_t := mk_frag_list [mk_run 0 0 2 []] [] 0 1 1 (-1).

(** After a repeated arrival of number 0 at the wrap-around the list
    delivers the wrong one of the two packets, keeps the other for ever and
    rejects every later packet with the next number as a duplicate. *)
Theorem wrap_duplicate_blocks :
  receive_all (mk_frag_list [] [] 65532 0 0 (-1)) wrap_arrivals = Some ([5; 1; 3; 4], stuck_list) ∧
  first_arrival wrap_arrivals 65536 = Some 2 ∧
  ucs_frag_list_pull stuck_list = Some (None, stuck_list) ∧
  ∀ elem, ucs_frag_list_insert stuck_list elem (wrap 16 65537) =
            Some (UCS_FRAG_LIST_INSERT_DUP, stuck_list).
Proof. split_and!; vm_compute; reflexivity. Qed.

(** Insertions and pulls on a fresh list with numbers from 1, as results. *)
Inductive fl_op := Ins (elem sn : Z) | Pull.
Fixpoint run_ops (f : ucs_frag_list_t) (ops : list fl_op)
    : option (list (ucs_frag_list_ooo_type_t + option Z) * ucs_frag_list_t) :=
  match ops with
  | [] => Some ([], f)
  | Ins elem sn :: ops =>
      '(r, f') ← ucs_frag_list_insert f elem sn; '(rs, f'') ← run_ops f' ops; Some (inl r :: rs, f'')
  | Pull :: ops =>
      '(e, f') ← ucs_frag_list_pull f; '(rs, f'') ← run_ops f' ops; Some (inr e :: rs, f'')
  end.

(** An insertion while elements are ready ([UCS_FRAG_LIST_INSERT_READY])
    is not counted: element 15 is handed over before element 14, and the
    element count ends at [2 ^ 32 - 1]. *)
Theorem ready_insert_not_counted :
  run_ops (mk_frag_list [] [] 0 0 0 (-1))
    [Ins 12 2; Ins 13 3; Ins 11 1; Pull; Ins 14 4; Pull; Ins 15 5; Pull] =
  Some ([inl UCS_FRAG_LIST_INSERT_SLOW; inl UCS_FRAG_LIST_INSERT_SLOW; inl UCS_FRAG_LIST_INSERT_FIRST;
         inr (Some 12); inl UCS_FRAG_LIST_INSERT_READY; inr (Some 13);
         inl UCS_FRAG_LIST_INSERT_FAST; inr (Some 14)],
        mk_frag_list [] [] 5 (2 ^ 32 - 1) 0 (-1)).
Proof. vm_compute. reflexivity. Qed.

End FragListSpec.
