(* ===== verification/SrdRxSpec.v ===== *)
(** * Per-sender ordering of the SRD receive path

    Packets of many senders arrive interleaved; each sender's packets are
    passed to the handler in sequence order, and tearing a context down
    releases exactly the descriptors that still wait. *)

From stdpp Require Import base numbers list gmap.
From S2P Require Import Prelude FragList SrdRx FragListSpec.
Import FragList SrdRx FragListSpec.

Local Open Scope Z_scope.

Module SrdRxSpec.

(** A packet: the sender, its unbounded number and the descriptor. *)
Record packet := mk_packet { p_uuid : Z; p_num : Z; p_desc : Z }.

(** The receive path over a sequence of packets; each event carries the uuid
    of the sender whose packet caused it. *)
Fixpoint rx_all (h : ctx_hash) (pkts : list packet) : option (list (Z * rx_event) * ctx_hash) :=
  match pkts with
  | [] => Some ([], h)
  | p :: pkts =>
      '(evs, h1) ← uct_srd_iface_process_rx true true h (p_uuid p) (wrap 16 (p_num p)) (p_desc p);
      '(evs', h2) ← rx_all h1 pkts;
      Some ((pair (p_uuid p) <$> evs) ++ evs', h2)
  end.

Definition from (u : Z) (pkts : list packet) : list (Z * Z) :=
  omap (λ p, if decide (p_uuid p = u) then Some (p_num p, p_desc p) else None) pkts.

Definition delivered_from (u : Z) (evs : list (Z * rx_event)) : list Z :=
  delivered (omap (λ ue, if decide (fst ue = u) then Some (snd ue) else None) evs).

Definition fresh_list : ucs_frag_list_t := mk_frag_list [] [] (UCT_SRD_INITIAL_PSN - 1) 0 0 (-1).

(** The context of a sender, created at its first packet. *)
Definition ctx_of (h : ctx_hash) (u : Z) : ucs_frag_list_t := default fresh_list (h !! u).

Lemma process_rx_frag h u psn desc :
  uct_srd_iface_process_rx true true h u psn desc =
    '(evs, f') ← process_frag (ctx_of h u) desc psn; Some (evs, <[u := f']> h).
Proof.
  unfold uct_srd_iface_process_rx, ctx_of. destruct (h !! u) as [f|]; [done|]. run.
  change (default fresh_list None) with fresh_list.
  change (uct_srd_rx_ctx_create true true h u) with (Some (Some fresh_list, <[u := fresh_list]> h)). run.
  destruct (process_frag fresh_list desc psn) as [[evs f']|]; [|done]. run. by rewrite insert_insert_eq.
Qed.

Lemma delivered_app l l' : delivered (l ++ l') = delivered l ++ delivered l'.
Proof. unfold delivered. apply omap_app. Qed.

Lemma delivered_from_tag u v evs :
  delivered_from u (pair v <$> evs) = if decide (v = u) then delivered evs else [].
Proof.
  unfold delivered_from. case_decide as E.
  - f_equal. induction evs as [|ev evs IH]; [done|]. cbn. rewrite decide_True by done. by rewrite IH.
  - induction evs as [|ev evs IH]; [done|]. cbn. by rewrite decide_False.
Qed.

Lemma delivered_from_app u l l' : delivered_from u (l ++ l') = delivered_from u l ++ delivered_from u l'.
Proof. unfold delivered_from. by rewrite omap_app, delivered_app. Qed.

(** The senders do not interfere: the receive path runs each context on the
    packets of its sender. *)
Lemma rx_all_project pkts : ∀ h,
  (∀ u, is_Some (receive_all (ctx_of h u) (from u pkts))) →
  ∃ evs h', rx_all h pkts = Some (evs, h') ∧
    ∀ u, receive_all (ctx_of h u) (from u pkts) = Some (delivered_from u evs, ctx_of h' u).
Proof.
  induction pkts as [|p pkts IH]; intros h Hall; [by exists [], h|].
  cbn [rx_all]. rewrite process_rx_frag. pose proof (Hall (p_uuid p)) as [[out f'] E].
  cbn in E. rewrite decide_True in E by done. cbn [receive_all] in E. unfold receive at 1 in E.
  destruct (process_frag (ctx_of h (p_uuid p)) (p_desc p) (wrap 16 (p_num p))) as [[evs f1]|] eqn:Ep;
    [|done]. run. revert E. run. intros E.
  assert (∀ u, receive_all (ctx_of h u) (from u (p :: pkts)) =
    if decide (p_uuid p = u)
    then '(out', f'') ← receive_all f1 (from u pkts); Some (delivered evs ++ out', f'')
    else receive_all (ctx_of h u) (from u pkts)) as Hstep.
  { intros u. cbn. case_decide as Eu; [|done]. subst u. cbn [receive_all]. unfold receive at 1. by rewrite Ep. }
  assert (∀ u, ctx_of (<[p_uuid p := f1]> h) u = if decide (p_uuid p = u) then f1 else ctx_of h u) as Hctx.
  { intros u. unfold ctx_of. case_decide as Eu; [subst u; by rewrite lookup_insert_eq|by rewrite lookup_insert_ne]. }
  destruct (IH (<[p_uuid p := f1]> h)) as (evs' & h' & -> & Hr).
  { intros u. rewrite Hctx. specialize (Hall u). rewrite Hstep in Hall. case_decide; [|done].
    destruct (receive_all f1 (from u pkts)); [by eexists|by destruct Hall]. }
  run. eexists _, h'. split; [done|]. intros u. rewrite Hstep, delivered_from_app, delivered_from_tag.
  specialize (Hr u). rewrite Hctx in Hr. case_decide; [|done]. rewrite Hr. done.
Qed.

(** C22: however the packets of different senders interleave, the descriptors
    passed to the handler from one sender are its packets 1, 2, ... up to the
    first that has not arrived, in order and without repetition.  The packets of each
    sender keep to the window ([window_ok]): each is within half the number space of the
    next expected one, and a number 0 modulo [2 ^ 16] does not arrive again while it
    waits (otherwise see [wrap_duplicate_blocks]). *)
Theorem srd_delivers_in_order pkts :
  (∀ u, window_ok fresh_list 0 [] (from u pkts)) →
  ∃ evs h', rx_all ∅ pkts = Some (evs, h') ∧
    ∀ u i, (i ≤ length (delivered_from u evs))%nat →
      delivered_from u evs !! i = first_arrival (from u pkts) (UCT_SRD_INITIAL_PSN + Z.of_nat i).
Proof.
  intros Hok.
  pose proof (waiting_init 0 : waiting fresh_list 0 0 []) as Hw0.
  destruct (rx_all_project pkts ∅) as (evs & h' & E & Hr).
  { intros u. destruct (receive_all_spec (from u pkts) fresh_list 0 0 [] Hw0 (Hok u)) as (out & f' & E & _).
    change (ctx_of ∅ u) with fresh_list. by rewrite E. }
  exists evs, h'. split; [done|]. intros u i Hi. specialize (Hr u).
  destruct (receive_all_spec (from u pkts) fresh_list 0 0 [] Hw0 (Hok u))
    as (out & f' & Eo & (runs & HR & Hgap & _ & Hw & _) & Hout).
  change (ctx_of ∅ u) with fresh_list in Hr. rewrite Eo in Hr. injection Hr as -> _.
  unfold UCT_SRD_INITIAL_PSN. destruct (decide (i < length (delivered_from u evs))%nat); [by apply Hout|].
  assert (i = length (delivered_from u evs)) as -> by lia. rewrite lookup_ge_None_2 by lia.
  rewrite Hw in Hgap by lia. rewrite <- Hgap. cbn [app]. f_equal. unfold len. lia.
Qed.

Definition ex_packets : list packet :=
  [mk_packet 7 2 1; mk_packet 9 1 2; mk_packet 7 3 3; mk_packet 9 3 4; mk_packet 7 1 5;
   mk_packet 9 1 6; mk_packet 7 5 7; mk_packet 9 2 8].

Lemma srd_delivers_witness :
  ∃ evs h', rx_all ∅ ex_packets = Some (evs, h') ∧
    ∀ u i, (i ≤ length (delivered_from u evs))%nat →
      delivered_from u evs !! i = first_arrival (from u ex_packets) (UCT_SRD_INITIAL_PSN + Z.of_nat i).
Proof.
  apply (srd_delivers_in_order ex_packets). intros u. unfold from, ex_packets. cbn.
  destruct (decide (7 = u)) as [<-|H7]; [vm_compute; repeat split; congruence|].
  destruct (decide (9 = u)) as [<-|H9]; vm_compute; repeat split; congruence.
Defined.

(** ** Teardown *)

(** A forced removal takes the next run whatever the gap before it. *)
Lemma remove_run f H F e es rest :
  Rep f H [] ((F, e :: es) :: rest) →
  ∃ f', ucs_frag_list_remove f true = Some (Some e, f') ∧ Rep f' (F + len es) es rest.
Proof.
  intros HR. pose proof (rep_bounds _ _ _ _ HR) as Hb. destruct HR as [Hl Hr Hh He Hlc Hm [pe Hc] Hlow].
  unfold ucs_frag_list_remove, ucs_frag_list_pull_slow.
  rewrite Hr, Hl. cbn [fmap list_fmap is_nil negb andb]. eexists. split; [done|].
  destruct Hc as (_ & Hne & Hu & Hc). destruct (pend_first F (e :: es) rest Hne) as [x Hx].
  assert (H < F) as HF.
  { destruct (decide (F ≤ H)) as [Hle|]; [|lia]. by rewrite (Hlow F Hle) in Hx. }
  rewrite total_cons in *. cbn [length] in *. rewrite !len_cons in *. change (len []) with 0 in He.
  split; cbn [fl_list ready_list head_sn elem_count list_count max_holes]; try done.
  - pose proof (total_nonneg rest). rewrite He, wrap_small; unfold half, len in *; lia.
  - rewrite Hlc. rewrite wrap_small; unfold half in *; lia.
  - exists (F + (len es + 1)). eapply chain_mono; [done|]. unfold len. lia.
  - intros y Hy. apply (chain_pend_low _ _ _ _ Hc). lia.
Qed.

Lemma remove_ready f H e rd runs :
  Rep f H (e :: rd) runs → len rd < 2 ^ 31 →
  ∃ f', ucs_frag_list_remove f true = Some (Some e, f') ∧ Rep f' H rd runs.
Proof.
  intros HR Hrd. destruct (pull_ready f H e rd runs HR Hrd) as (f' & E & HR').
  exists f'. split; [|done]. unfold ucs_frag_list_pull, ucs_frag_list_remove in *.
  by rewrite (rep_ready _ _ _ _ HR) in *.
Qed.

Definition elems (runs : list (Z * list Z)) : list Z := flat_map snd runs.

Lemma remove_loop_force fuel : ∀ f H rd runs,
  Rep f H rd runs → len rd < 2 ^ 31 → len rd + total runs < Z.of_nat fuel →
  ∃ f' H', remove_loop fuel f = Some (rd ++ elems runs, f') ∧ Rep f' H' [] [].
Proof.
  induction fuel as [|fuel IH]; intros f H rd runs HR Hrd Hf.
  { pose proof (rep_bounds _ _ _ _ HR). unfold len in *. lia. }
  cbn [remove_loop]. destruct rd as [|e rd].
  - destruct runs as [|[F es] rest].
    { unfold ucs_frag_list_remove. rewrite (rep_ready _ _ _ _ HR), (rep_list _ _ _ _ HR). cbn.
      by exists f, H. }
    destruct es as [|e es]; [destruct (rep_chain _ _ _ _ HR) as [pe (_ & Hne & _)]; done|].
    destruct (remove_run f H F e es rest HR) as (f1 & -> & HR1). run.
    rewrite total_cons, len_cons in Hf. change (len []) with 0 in Hf.
    destruct (IH f1 _ es rest HR1) as (f' & H' & -> & HR'); [|lia|].
    { pose proof (rep_bounds _ _ _ _ HR) as Hb. rewrite total_cons, len_cons in Hb.
      pose proof (total_nonneg rest). unfold half in Hb. lia. }
    run. exists f', H'. done.
  - rewrite len_cons in *. destruct (remove_ready f H e rd runs HR) as (f1 & -> & HR1); [lia|]. run.
    destruct (IH f1 H rd runs HR1) as (f' & H' & -> & HR'); [lia|lia|]. run. by exists f', H'.
Qed.

Lemma elems_pend pe runs u e :
  chain pe runs u → e ∈ elems runs ↔ ∃ x, pend runs x = Some e.
Proof.
  revert pe. induction runs as [|[F es] rest IH]; intros pe Hc.
  { split; [intros H; by apply elem_of_nil in H|intros [x Hx]; done]. }
  destruct Hc as (_ & Hne & _ & Hc). cbn [elems flat_map snd]. rewrite elem_of_app, (IH _ Hc). split.
  - intros [Hin|[x Hx]].
    + apply list_elem_of_lookup in Hin as [i Hi]. exists (F + Z.of_nat i). cbn [pend].
      apply lookup_lt_Some in Hi as Hlt. rewrite bool_decide_true by (unfold len; lia).
      by replace (Z.to_nat (F + Z.of_nat i - F)) with i by lia.
    + exists x. cbn [pend]. rewrite bool_decide_false; [done|]. intros Hx'.
      rewrite (chain_pend_low _ _ _ _ Hc) in Hx by lia. done.
  - intros [x Hx]. cbn [pend] in Hx. case_bool_decide; [left|right; by exists x].
    by eapply list_elem_of_lookup_2.
Qed.

(** After any arrivals inside the window, tearing the context down passes
    every assertion of [ucs_frag_list_cleanup] and releases exactly the
    descriptors that arrived above the head and were not delivered. *)
Theorem srd_cleanup_releases_waiting l :
  window_ok fresh_list 0 [] l →
  ∃ out f evs, receive_all fresh_list l = Some (out, f) ∧ uct_iface_rx_ctx_cleanup f = Some evs ∧
    ∀ ev, ev ∈ evs ↔ ∃ x e, len out < x ∧ first_arrival l x = Some e ∧ ev = RxRelease e.
Proof.
  intros Hok.
  destruct (receive_all_spec l fresh_list 0 0 [] (waiting_init 0) Hok)
    as (out & f & E & (runs & HR & Hgap & _ & Hw & _) & _).
  exists out, f. unfold uct_iface_rx_ctx_cleanup, pull_fuel, ucs_frag_list_count.
  destruct (remove_loop_force (S (Z.to_nat (elem_count f))) f _ [] runs HR) as (f' & H' & Er & HR'); [done| |].
  { rewrite (rep_elems _ _ _ _ HR). lia. }
  rewrite Er. run. unfold ucs_frag_list_cleanup.
  rewrite (rep_elems _ _ _ _ HR'), (rep_lists _ _ _ _ HR'), (rep_list _ _ _ _ HR'), (rep_ready _ _ _ _ HR').
  cbn. eexists. split; [done|]. split; [done|]. intros ev. cbn in Hw. rewrite list_elem_of_fmap.
  destruct (rep_chain _ _ _ _ HR) as [pe Hc]. split.
  - intros (e & -> & He). apply (elems_pend pe runs _ e Hc) in He as [x Hx]. exists x, e.
    assert (len out < x) as Hlt.
    { destruct (decide (x ≤ len out)); [|lia]. rewrite (rep_low _ _ _ _ HR) in Hx by lia. done. }
    split; [done|]. split; [|done]. by rewrite <- Hw.
  - intros (x & e & Hx & Hf & ->). exists e. split; [done|]. apply (elems_pend pe runs _ e Hc).
    exists x. by rewrite Hw.
Qed.

Lemma srd_cleanup_witness :
  ∃ out f evs, receive_all fresh_list [(2, 1); (4, 2); (1, 3); (5, 4)] = Some (out, f) ∧
    uct_iface_rx_ctx_cleanup f = Some evs ∧
    ∀ ev, ev ∈ evs ↔ ∃ x e, len out < x ∧ first_arrival [(2, 1); (4, 2); (1, 3); (5, 4)] x = Some e ∧
                        ev = RxRelease e.
Proof.
  apply (srd_cleanup_releases_waiting [(2, 1); (4, 2); (1, 3); (5, 4)]).
  vm_compute. repeat split; congruence.
Defined.

End SrdRxSpec.
