(* ===== verification/ProcName.v ===== *)
(** * Process names as tagged pointers ([ompi/proc/proc.h])

    A member of a group that has no process structure yet is stored as a
    sentinel: its name packed into a pointer-sized word whose low bit is set.
    The two encodings, for 64-bit and for 32-bit pointers; [None] is a failed
    assertion. *)

From stdpp Require Import base numbers list.
From S2P Require Import Prelude.

Local Open Scope Z_scope.
Local Open Scope c_scope.

Module ProcName.

Record opal_process_name_t := mk_name { jobid : Z; vpid : Z }.   (* 32-bit unsigned *)

Definition OMPI_LOCAL_JOBID (n : Z) : Z := Z.land n 0xffff.
Definition OMPI_JOB_FAMILY (n : Z) : Z := Z.land (Z.shiftr n 16) 0xffff.
Definition OMPI_CONSTRUCT_LOCAL_JOBID (local job : Z) : Z := Z.lor (Z.land local 0xffff0000) (Z.land job 0xffff).
Definition OMPI_CONSTRUCT_JOB_FAMILY (n : Z) : Z := Z.land (wrap 32 (Z.shiftl n 16)) 0xffff0000.
Definition OMPI_CONSTRUCT_JOBID (family local : Z) : Z :=
  OMPI_CONSTRUCT_LOCAL_JOBID (OMPI_CONSTRUCT_JOB_FAMILY family) local.

Definition ompi_proc_is_sentinel (proc : Z) : bool := negb (Z.land proc 1 =? 0).

Definition ompi_proc_name_to_sentinel (name : opal_process_name_t) : option Z :=
  safe (Z.land (OMPI_LOCAL_JOBID (jobid name)) 0x8000 =? 0);
  let sentinel := 1 in
  let sentinel := Z.lor sentinel (Z.land (wrap 64 (Z.shiftl (OMPI_LOCAL_JOBID (jobid name)) 1)) 0xfffe) in
  let sentinel := Z.lor sentinel (Z.land (wrap 64 (Z.shiftl (OMPI_JOB_FAMILY (jobid name)) 16)) 0xffff0000) in
  let sentinel := Z.lor sentinel (Z.land (wrap 64 (Z.shiftl (vpid name) 32)) 0xffffffff00000000) in
  Some sentinel.

Definition ompi_proc_sentinel_to_name (sentinel : Z) : option opal_process_name_t :=
  safe (ompi_proc_is_sentinel sentinel);
  let local := Z.land (Z.shiftr sentinel 1) 0x7fff in
  let family := Z.land (Z.shiftr sentinel 16) 0xffff in
  let vpid := Z.land (Z.shiftr sentinel 32) 0xffffffff in
  Some (mk_name (OMPI_CONSTRUCT_JOBID family local) vpid).

(** The encoding for 32-bit pointers; [my_jobid] is that of the process. *)
Definition ompi_proc_name_to_sentinel32 (my_jobid : Z) (name : opal_process_name_t) : option Z :=
  safe (my_jobid =? jobid name);
  Some (Z.lor (wrap 32 (Z.shiftl (vpid name) 1)) 1).

Definition ompi_proc_sentinel_to_name32 (my_jobid sentinel : Z) : opal_process_name_t :=
  mk_name my_jobid (Z.shiftr sentinel 1).

(** ** Packing fields *)

Lemma lor_field a b k : 0 ≤ k → 0 ≤ a < 2 ^ k → Z.lor a (b * 2 ^ k) = a + b * 2 ^ k.
Proof. intros Hk Ha. rewrite Z.lor_comm, (lor_add _ _ k); [lia|done|apply Z.mod_mul; lia|done]. Qed.

Lemma land_field y n k :
  0 ≤ n → 0 ≤ k → 0 ≤ y < 2 ^ n → Z.land (Z.shiftl y k) (Z.shiftl (Z.ones n) k) = y * 2 ^ k.
Proof. intros Hn Hk Hy. by rewrite <- Z.shiftl_land, Z.land_ones, Z.mod_small, Z.shiftl_mul_pow2 by lia. Qed.

Lemma local_jobid_mod n : OMPI_LOCAL_JOBID n = n `mod` 2 ^ 16.
Proof. by apply (Z.land_ones n 16). Qed.

Lemma job_family_div n : OMPI_JOB_FAMILY n = (n / 2 ^ 16) `mod` 2 ^ 16.
Proof. unfold OMPI_JOB_FAMILY. rewrite Z.shiftr_div_pow2 by lia. by apply (Z.land_ones _ 16). Qed.

Lemma construct_jobid family local :
  0 ≤ family < 2 ^ 16 → 0 ≤ local < 2 ^ 16 → OMPI_CONSTRUCT_JOBID family local = local + family * 2 ^ 16.
Proof.
  intros Hf Hl. unfold OMPI_CONSTRUCT_JOBID, OMPI_CONSTRUCT_LOCAL_JOBID, OMPI_CONSTRUCT_JOB_FAMILY.
  change 0xffff0000 with (Z.shiftl (Z.ones 16) 16). change 0xffff with (Z.ones 16).
  rewrite wrap_small by (rewrite Z.shiftl_mul_pow2; lia). rewrite land_field, Z.land_ones, Z.mod_small by lia.
  rewrite <- Z.shiftl_mul_pow2, land_field, Z.lor_comm, lor_field, Z.shiftl_mul_pow2 by lia. done.
Qed.

(** The word a name is packed into. *)
Definition packed (name : opal_process_name_t) : Z :=
  1 + 2 * (jobid name `mod` 2 ^ 16) + 2 ^ 16 * (jobid name / 2 ^ 16) + 2 ^ 32 * vpid name.

Definition name_ok (name : opal_process_name_t) : Prop :=
  0 ≤ jobid name < 2 ^ 32 ∧ 0 ≤ vpid name < 2 ^ 32 ∧ jobid name `mod` 2 ^ 16 < 2 ^ 15.

Lemma name_to_sentinel_packed name : name_ok name → ompi_proc_name_to_sentinel name = Some (packed name).
Proof.
  intros (Hj & Hv & Hl). unfold ompi_proc_name_to_sentinel, packed. rewrite local_jobid_mod, job_family_div.
  set (l := jobid name `mod` 2 ^ 16) in *. assert (0 ≤ l) by (apply Z.mod_pos_bound; lia).
  set (f := jobid name / 2 ^ 16). assert (0 ≤ f < 2 ^ 16) as Hf
    by (split; [apply Z.div_pos; lia|apply Z.div_lt_upper_bound; lia]).
  rewrite (Z.mod_small f) by lia. change 0x8000 with (2 ^ 15). rewrite land_pow2_testbit, (testbit_high l 15) by lia.
  cbn [negb]. change 0xfffe with (Z.shiftl (Z.ones 15) 1). change 0xffff0000 with (Z.shiftl (Z.ones 16) 16).
  change 0xffffffff00000000 with (Z.shiftl (Z.ones 32) 32).
  rewrite !wrap_small by (rewrite Z.shiftl_mul_pow2; lia). rewrite !land_field by lia.
  rewrite (lor_field 1) by lia. rewrite (lor_field (1 + l * 2 ^ 1)) by lia. rewrite (lor_field _ (vpid name) 32) by lia.
  f_equal. lia.
Qed.

Lemma sentinel_odd s : ompi_proc_is_sentinel s = Z.odd s.
Proof. unfold ompi_proc_is_sentinel. change 1 with (2 ^ 0) at 1. by rewrite land_pow2_testbit, negb_involutive. Qed.

Lemma sentinel_to_name_fields s :
  0 ≤ s < 2 ^ 64 → Z.odd s = true →
  ompi_proc_sentinel_to_name s =
    Some (mk_name ((s / 2) `mod` 2 ^ 15 + (s / 2 ^ 16) `mod` 2 ^ 16 * 2 ^ 16) (s / 2 ^ 32)).
Proof.
  intros Hs Ho. unfold ompi_proc_sentinel_to_name. rewrite sentinel_odd, Ho.
  change 0x7fff with (Z.ones 15). change 0xffff with (Z.ones 16). change 0xffffffff with (Z.ones 32).
  rewrite !Z.shiftr_div_pow2, !Z.land_ones by lia. change (2 ^ 1) with 2.
  rewrite construct_jobid, (Z.mod_small (s / 2 ^ 32)); [done|split; [apply Z.div_pos; lia|apply Z.div_lt_upper_bound; lia]|..].
  - apply Z.mod_pos_bound. lia.
  - pose proof (Z.mod_pos_bound (s / 2) (2 ^ 15)). lia.
Qed.

Lemma packed_fields name :
  name_ok name →
  0 ≤ packed name < 2 ^ 64 ∧ Z.odd (packed name) = true ∧ packed name / 2 ^ 32 = vpid name ∧
  (packed name / 2) `mod` 2 ^ 15 + (packed name / 2 ^ 16) `mod` 2 ^ 16 * 2 ^ 16 = jobid name.
Proof.
  intros (Hj & Hv & Hl). unfold packed.
  pose proof (Z.div_mod (jobid name) (2 ^ 16) ltac:(lia)) as E. pose proof (Z.mod_pos_bound (jobid name) (2 ^ 16) ltac:(lia)).
  set (l := jobid name `mod` 2 ^ 16) in *. set (f := jobid name / 2 ^ 16) in *.
  assert (0 ≤ f < 2 ^ 16) as Hf by (split; [apply Z.div_pos; lia|apply Z.div_lt_upper_bound; lia]).
  set (v := vpid name) in *. set (w := 1 + 2 * l + 2 ^ 16 * f + 2 ^ 32 * v).
  assert (w / 2 = l + (f + v * 2 ^ 16) * 2 ^ 15) as E1 by (symmetry; apply (Z.div_unique _ _ _ 1); lia).
  assert (w / 2 ^ 16 = f + v * 2 ^ 16) as E2 by (symmetry; apply (Z.div_unique _ _ _ (1 + 2 * l)); lia).
  assert (w / 2 ^ 32 = v) as E3 by (symmetry; apply (Z.div_unique _ _ _ (1 + 2 * l + 2 ^ 16 * f)); lia).
  rewrite E1, E2, E3, !Z_mod_plus_full, !Z.mod_small by lia.
  split; [lia|]. split; [|split; lia].
  replace w with (1 + 2 * (l + 2 ^ 15 * f + 2 ^ 31 * v)) by lia. rewrite Z.odd_add, Z.odd_mul. done.
Qed.

Lemma fields_packed s :
  0 ≤ s < 2 ^ 64 → Z.odd s = true →
  let n := mk_name ((s / 2) `mod` 2 ^ 15 + (s / 2 ^ 16) `mod` 2 ^ 16 * 2 ^ 16) (s / 2 ^ 32) in
  name_ok n ∧ packed n = s.
Proof.
  intros Hs Ho n. apply Z.odd_spec in Ho as [h Eh].
  assert (s / 2 = h) as E2 by (symmetry; apply (Z.div_unique _ _ _ 1); lia).
  assert (s / 2 ^ 16 = h / 2 ^ 15) as E16 by (rewrite <- E2, Z.div_div by lia; done).
  assert (s / 2 ^ 32 = h / 2 ^ 15 / 2 ^ 16) as E32 by (rewrite <- E16, Z.div_div by lia; done).
  assert (0 ≤ s / 2 ^ 32 < 2 ^ 32) by (split; [apply Z.div_pos; lia|apply Z.div_lt_upper_bound; lia]).
  unfold name_ok, packed, n. cbn [jobid vpid]. rewrite E32 in *. rewrite E2, E16. clear n E2 E16 E32.
  pose proof (Z.div_mod h (2 ^ 15) ltac:(lia)). pose proof (Z.div_mod (h / 2 ^ 15) (2 ^ 16) ltac:(lia)).
  pose proof (Z.mod_pos_bound h (2 ^ 15) ltac:(lia)). pose proof (Z.mod_pos_bound (h / 2 ^ 15) (2 ^ 16) ltac:(lia)).
  set (l := h `mod` 2 ^ 15) in *. set (f := (h / 2 ^ 15) `mod` 2 ^ 16) in *.
  assert ((l + f * 2 ^ 16) `mod` 2 ^ 16 = l) as El by (rewrite Z_mod_plus_full, Z.mod_small; lia).
  assert ((l + f * 2 ^ 16) / 2 ^ 16 = f) as Ef by (symmetry; apply (Z.div_unique _ _ _ l); lia).
  rewrite El, Ef. split; lia.
Qed.

(** C32: Packing a process name into a sentinel and unpacking it gives the name
    back, and the word is marked as a sentinel, when the local job number fits
    in 15 bits; conversely every sentinel is the packed form of its name. *)
Theorem sentinel_roundtrip name s :
  name_ok name → 0 ≤ s < 2 ^ 64 → ompi_proc_is_sentinel s = true →
  (∃ w, ompi_proc_name_to_sentinel name = Some w ∧ 0 ≤ w < 2 ^ 64 ∧ ompi_proc_is_sentinel w = true ∧
     ompi_proc_sentinel_to_name w = Some name) ∧
  (∃ n, ompi_proc_sentinel_to_name s = Some n ∧ name_ok n ∧ ompi_proc_name_to_sentinel n = Some s).
Proof.
  intros Hn Hs Ho. rewrite sentinel_odd in Ho. split.
  - destruct (packed_fields name Hn) as (Hw & Hodd & E1 & E2). exists (packed name).
    rewrite sentinel_odd, name_to_sentinel_packed, sentinel_to_name_fields, E1, E2 by done. by destruct name.
  - rewrite sentinel_to_name_fields by done. eexists. split; [done|].
    destruct (fields_packed s Hs Ho) as [Hok E]. split; [done|]. by rewrite name_to_sentinel_packed, E.
Qed.

Lemma sentinel_roundtrip_witness :
  (∃ w, ompi_proc_name_to_sentinel (mk_name 0x12340007 42) = Some w ∧ 0 ≤ w < 2 ^ 64 ∧ ompi_proc_is_sentinel w = true ∧
     ompi_proc_sentinel_to_name w = Some (mk_name 0x12340007 42)) ∧
  (∃ n, ompi_proc_sentinel_to_name 0x2a1234000f = Some n ∧ name_ok n ∧ ompi_proc_name_to_sentinel n = Some 0x2a1234000f).
Proof. apply (sentinel_roundtrip (mk_name 0x12340007 42) 0x2a1234000f); [split_and!; done|done|done]. Defined.

(** The encoding for 32-bit pointers gives the process number back exactly
    when it is below 2^31; a larger one is returned without its top bit. *)
Theorem sentinel32_roundtrip my_jobid v :
  0 ≤ v < 2 ^ 32 →
  ∃ w, ompi_proc_name_to_sentinel32 my_jobid (mk_name my_jobid v) = Some w ∧ 0 ≤ w < 2 ^ 32 ∧
    ompi_proc_is_sentinel w = true ∧ ompi_proc_sentinel_to_name32 my_jobid w = mk_name my_jobid (v `mod` 2 ^ 31).
Proof.
  intros Hv. unfold ompi_proc_name_to_sentinel32. cbn [jobid vpid]. rewrite Z.eqb_refl.
  assert (Z.lor (wrap 32 (Z.shiftl v 1)) 1 = 1 + (v `mod` 2 ^ 31) * 2) as E.
  { unfold wrap. rewrite Z.shiftl_mul_pow2 by lia. change (2 ^ 1) with 2. change (2 ^ 32) with (2 ^ 31 * 2).
    rewrite Z.mul_mod_distr_r by lia. rewrite Z.lor_comm. apply (lor_field 1 _ 1); lia. }
  pose proof (Z.mod_pos_bound v (2 ^ 31)). eexists. split; [done|]. rewrite E. split; [lia|]. split.
  - rewrite sentinel_odd, Z.odd_add, Z.odd_mul. cbn. by rewrite andb_false_r.
  - unfold ompi_proc_sentinel_to_name32. f_equal. rewrite Z.shiftr_div_pow2 by lia. change (2 ^ 1) with 2.
    rewrite Z.div_add by lia. done.
Qed.

Lemma sentinel32_witness :
  ∃ w, ompi_proc_name_to_sentinel32 9 (mk_name 9 0x80000003) = Some w ∧ 0 ≤ w < 2 ^ 32 ∧
    ompi_proc_is_sentinel w = true ∧ ompi_proc_sentinel_to_name32 9 w = mk_name 9 3.
Proof. by apply (sentinel32_roundtrip 9 0x80000003). Defined.

End ProcName.
