(* ===== verification/Group.v ===== *)
(** * MPI groups ([ompi/group])

    Process groups in the four storage formats of Open MPI (a dense list of
    process pointers, and the sporadic, strided and bitmap formats relative to
    a parent group), rank translation, and the set operations.  The model is
    the build with sparse groups ([OMPI_GROUP_SPARSE]); without the run-time
    switch [ompi_use_sparse_group_storage] every group is dense.

    Groups live in a store indexed by their address; a group object is never
    moved, and its parent is an older object.  A process pointer is NULL, a
    sentinel that carries the process name, or a process structure, of which
    there is one per name; reference counts of processes and groups are part
    of the state.  [None] is an undefined access: an index outside an array, a
    shift by a negative amount, a value read before it is written, or a failed
    assertion.  The Fortran handle table and the MPI instance pointer are left
    out; scratch arrays whose allocation the code does not check are allocated.
    Ranks stay below the sizes of groups, so [int] arithmetic on them does not
    overflow. *)

From stdpp Require Import base numbers list gmap.
From S2P Require Import Prelude OpalBitmap.
Import OpalBitmap.

Local Open Scope Z_scope.
Local Open Scope c_scope.

Module Group.

Definition MPI_PROC_NULL : Z := -2.
Definition MPI_UNDEFINED : Z := -32766.
Definition OMPI_SUCCESS : Z := 0.
Definition MPI_ERR_GROUP : Z := 8.
Definition MPI_ERR_NO_MEM : Z := 34.
Inductive mpi_cmp := MPI_IDENT | MPI_SIMILAR | MPI_UNEQUAL.
Definition BSIZE : Z := 8.

Inductive ompi_proc_ptr :=
| ProcNull
| ProcSentinel (name : Z)
| ProcReal (name : Z).

#[global] Instance ompi_proc_ptr_eq_dec : EqDecision ompi_proc_ptr.
Proof. solve_decision. Defined.

(** The union [sparse_data], selected by the format flag. *)
Inductive sparse_data :=
| Dense
| Sporadic (list : list (Z * Z))           (* rank_first, length *)
| Strided (offset stride last_element : Z)
| Bitmap (array : list Z).                 (* bytes *)

#[global] Instance sparse_data_eq_dec : EqDecision sparse_data.
Proof. solve_decision. Defined.

Record ompi_group_t := mk_group {
  grp_proc_count : Z;
  grp_my_rank : Z;
  grp_proc_pointers : list ompi_proc_ptr;
  grp_parent_group_ptr : option nat;
  grp_data : sparse_data;
  grp_refs : Z;
}.

(** The store: group objects by address, and the reference counts of the
    process structures by name. *)
Record gstate := mk_gstate {
  groups : list ompi_group_t;
  proc_refs : gmap Z Z;
}.

Definition MPI_GROUP_EMPTY : nat := 0.

(** [ompi_group_init]: the predefined empty group. *)
Definition ompi_group_init : gstate :=
  mk_gstate [mk_group 0 MPI_UNDEFINED [] None Dense 1] ∅.

(** ** Rank translation between a sparse group and its parent *)

(** One rank of [ompi_group_translate_ranks_sporadic]. *)
Fixpoint sporadic_forward (l : list (Z * Z)) (rank count : Z) : Z :=
  match l with
  | [] => MPI_UNDEFINED
  | (rank_first, length) :: l' =>
      if (rank_first <=? rank) && (rank <=? rank_first + length - 1)
      then rank - rank_first + count
      else sporadic_forward l' rank (count + length)
  end.

(** One rank of [ompi_group_translate_ranks_sporadic_reverse]; the result is
    not written when no range is reached. *)
Fixpoint sporadic_reverse (l : list (Z * Z)) (rank count : Z) : option Z :=
  match l with
  | [] => None
  | (rank_first, length) :: l' =>
      if count + length - 1 <? rank then sporadic_reverse l' rank (count + length)
      else Some (rank_first + (rank - count))
  end.

Definition strided_forward (o s l rank : Z) : option Z :=
  if 0 <=? rank - o then
    safe (negb (s =? 0));
    if (Z.rem (rank - o) s =? 0) && (rank <=? l) then Some (Z.quot (rank - o) s)
    else Some MPI_UNDEFINED
  else Some MPI_UNDEFINED.

Definition strided_reverse (o s rank : Z) : Z := s * rank + o.

(** The bits of the array in the order the nested loops visit them. *)
Definition byte_bits (b : Z) : list bool := Z.testbit b <$> seqZ 0 BSIZE.
Definition array_bits (array : list Z) : list bool := array ≫= byte_bits.

(** The counting loops of [ompi_group_translate_ranks_bmap]: from bit [p] on,
    up to the bit of the rank [m]. *)
Fixpoint bmap_count (bits : list bool) (p m count : Z) : option Z :=
  match bits with
  | [] => None
  | b :: bits' =>
      let count := if (b : bool) then count + 1 else count in
      if p =? m then Some (count - 1) else bmap_count bits' (p + 1) m count
  end.

Definition bmap_forward (array : list Z) (m : Z) : option Z :=
  safe (0 <=? m);
  byte ← array !! Z.to_nat (Z.quot m BSIZE);
  if Z.testbit byte (Z.rem m BSIZE) then bmap_count (array_bits array) 0 m 0
  else Some MPI_UNDEFINED.

(** The loops of [ompi_group_translate_ranks_bmap_reverse]. *)
Fixpoint bmap_find (bits : list bool) (p m count : Z) : option Z :=
  match bits with
  | [] => None
  | b :: bits' =>
      let count := if (b : bool) then count + 1 else count in
      if m =? count - 1 then Some p else bmap_find bits' (p + 1) m count
  end.

Definition bmap_reverse (array : list Z) (m : Z) : option Z := bmap_find (array_bits array) 0 m 0.

(** Parent to child and child to parent; a dense group has no such function
    ([assert (0)]). *)
Definition forward_rank (d : sparse_data) (rank : Z) : option Z :=
  if rank =? MPI_PROC_NULL then Some MPI_PROC_NULL
  else match d with
       | Dense => None
       | Sporadic l => Some (sporadic_forward l rank 0)
       | Strided o s l => strided_forward o s l rank
       | Bitmap a => bmap_forward a rank
       end.

Definition reverse_rank (d : sparse_data) (rank : Z) : option Z :=
  if rank =? MPI_PROC_NULL then Some MPI_PROC_NULL
  else match d with
       | Dense => None
       | Sporadic l => sporadic_reverse l rank 0
       | Strided o s _ => Some (strided_reverse o s rank)
       | Bitmap a => bmap_reverse a rank
       end.

(** [ompi_group_translate_ranks] from a group to its parent. *)
Definition to_parent (g p : nat) (d : sparse_data) (rank : Z) : option Z :=
  if bool_decide (g = MPI_GROUP_EMPTY) || bool_decide (p = MPI_GROUP_EMPTY)
  then Some MPI_UNDEFINED else reverse_rank d rank.

(** ** Access to the members *)

(** [ompi_group_get_proc_ptr_raw]: up to the dense ancestor.  A parent is
    older than its child, so the address bounds the number of steps. *)
Fixpoint proc_ptr_raw (fuel : nat) (gs : list ompi_group_t) (g : nat) (rank : Z) : option ompi_proc_ptr :=
  match fuel with
  | O => None
  | S f =>
      grp ← gs !! g;
      match grp_data grp with
      | Dense => safe (0 <=? rank); grp_proc_pointers grp !! Z.to_nat rank
      | d => p ← grp_parent_group_ptr grp; r ← to_parent g p d rank; proc_ptr_raw f gs p r
      end
  end.

Definition ompi_group_get_proc_ptr_raw (gs : list ompi_group_t) (g : nat) (rank : Z) : option ompi_proc_ptr :=
  proc_ptr_raw (S g) gs g rank.

(** [ompi_group_peer_lookup_existing]: NULL for a sentinel. *)
Definition ompi_group_peer_lookup_existing (gs : list ompi_group_t) (g : nat) (rank : Z) : option ompi_proc_ptr :=
  p ← ompi_group_get_proc_ptr_raw gs g rank;
  Some (match p with ProcSentinel _ => ProcNull | _ => p end).

(** Dereferences the pointer when it is not a sentinel. *)
Definition ompi_group_get_proc_name (gs : list ompi_group_t) (g : nat) (rank : Z) : option Z :=
  p ← ompi_group_get_proc_ptr_raw gs g rank;
  match p with ProcNull => None | ProcSentinel n | ProcReal n => Some n end.

(** The inner loop that looks for a name in ranks [proc2 .. proc2 + n - 1]. *)
Fixpoint find_name (gs : list ompi_group_t) (g : nat) (name : Z) (n : nat) (proc2 : Z) : option (option Z) :=
  match n with
  | O => Some None
  | S n' =>
      name2 ← ompi_group_get_proc_name gs g proc2;
      if name =? name2 then Some (Some proc2) else find_name gs g name n' (proc2 + 1)
  end.

Definition proc_count (gs : list ompi_group_t) (g : nat) : option Z := grp_proc_count <$> gs !! g.

Definition translate_by_name (gs : list ompi_group_t) (g1 g2 : nat) (rank : Z) : option Z :=
  if rank =? MPI_PROC_NULL then Some MPI_PROC_NULL
  else
    name ← ompi_group_get_proc_name gs g1 rank;
    n2 ← proc_count gs g2;
    r ← find_name gs g2 name (Z.to_nat n2) 0;
    Some (default MPI_UNDEFINED r).

Definition ompi_group_translate_ranks (gs : list ompi_group_t) (g1 : nat) (ranks1 : list Z) (g2 : nat)
    : option (list Z) :=
  if bool_decide (g1 = MPI_GROUP_EMPTY) || bool_decide (g2 = MPI_GROUP_EMPTY)
  then Some ((λ _, MPI_UNDEFINED) <$> ranks1)
  else
    grp1 ← gs !! g1;
    grp2 ← gs !! g2;
    if bool_decide (grp_parent_group_ptr grp1 = Some g2) then mapM (reverse_rank (grp_data grp1)) ranks1
    else if bool_decide (grp_parent_group_ptr grp2 = Some g1) then mapM (forward_rank (grp_data grp2)) ranks1
    else mapM (translate_by_name gs g1 g2) ranks1.

(** ** Reference counts *)

(** Adds [delta] to the count of the process structures of ranks [proc ..]. *)
Fixpoint count_procs (gs : list ompi_group_t) (g : nat) (delta : Z) (n : nat) (proc : Z) (refs : gmap Z Z)
    : option (gmap Z Z) :=
  match n with
  | O => Some refs
  | S n' =>
      p ← ompi_group_peer_lookup_existing gs g proc;
      count_procs gs g delta n' (proc + 1)
        (match p with ProcReal name => <[name := default 0 (refs !! name) + delta]> refs | _ => refs end)
  end.

Definition change_proc_count (delta : Z) (st : gstate) (g : nat) : option gstate :=
  n ← proc_count (groups st) g;
  refs ← count_procs (groups st) g delta (Z.to_nat n) 0 (proc_refs st);
  Some (mk_gstate (groups st) refs).

Definition ompi_group_increment_proc_count := change_proc_count 1.
Definition ompi_group_decrement_proc_count := change_proc_count (-1).

Definition set_group (st : gstate) (g : nat) (grp : ompi_group_t) : gstate :=
  mk_gstate (<[g := grp]> (groups st)) (proc_refs st).

Definition with_refs (grp : ompi_group_t) (n : Z) : ompi_group_t :=
  mk_group (grp_proc_count grp) (grp_my_rank grp) (grp_proc_pointers grp) (grp_parent_group_ptr grp)
    (grp_data grp) n.

Definition with_rank (grp : ompi_group_t) (r : Z) : ompi_group_t :=
  mk_group (grp_proc_count grp) r (grp_proc_pointers grp) (grp_parent_group_ptr grp)
    (grp_data grp) (grp_refs grp).

(** [OBJ_RETAIN] on a group. *)
Definition group_retain (st : gstate) (g : nat) : option gstate :=
  grp ← groups st !! g; Some (set_group st g (with_refs grp (grp_refs grp + 1))).

(** [OBJ_RELEASE] on a group with [ompi_group_destruct]: the last release
    decrements the processes of a dense group and releases the parent. *)
Fixpoint group_release (fuel : nat) (st : gstate) (g : nat) : option gstate :=
  match fuel with
  | O => None
  | S f =>
      grp ← groups st !! g;
      let st1 := set_group st g (with_refs grp (grp_refs grp - 1)) in
      if negb (grp_refs grp - 1 =? 0) then Some st1
      else
        st2 ← match grp_data grp with
              | Dense => ompi_group_decrement_proc_count st1 g
              | _ => Some st1
              end;
        match grp_parent_group_ptr grp with
        | Some p => group_release f st2 p
        | None => Some st2
        end
  end.

Definition ompi_group_free (st : gstate) (g : nat) : option (Z * gstate) :=
  st' ← group_release (S g) st g; Some (OMPI_SUCCESS, st').

(** ** Construction *)

(** The new object; [alloc_ok] says whether the allocations succeed. *)
Definition ompi_group_allocate_plist_w_procs (alloc_ok : bool) (st : gstate) (procs : list ompi_proc_ptr)
    : option (option nat * gstate) :=
  if negb alloc_ok then Some (None, st)
  else
    let new := length (groups st) in
    st' ← ompi_group_increment_proc_count
            (mk_gstate (groups st ++ [mk_group (Z.of_nat (length procs)) MPI_UNDEFINED procs None Dense 1])
                       (proc_refs st)) new;
    Some (Some new, st').

Definition ompi_group_allocate (alloc_ok : bool) (st : gstate) (group_size : Z) : option (option nat * gstate) :=
  ompi_group_allocate_plist_w_procs alloc_ok st (replicate (Z.to_nat group_size) ProcNull).

(** A sparse object relative to [parent]: [ompi_group_allocate_sporadic],
    [..._strided] and [..._bmap] with the stores of their callers up to the
    retained parent. *)
Definition allocate_sparse (st : gstate) (parent : nat) (count : Z) (d : sparse_data) : option (nat * gstate) :=
  let new := length (groups st) in
  st1 ← group_retain (mk_gstate (groups st ++ [mk_group count MPI_UNDEFINED [] (Some parent) d 1]) (proc_refs st)) parent;
  st2 ← ompi_group_increment_proc_count st1 parent;
  st3 ← ompi_group_increment_proc_count st2 new;
  Some (new, st3).

(** The rank of the calling process, translated from the parent. *)
Definition set_my_rank_from (st : gstate) (parent new : nat) : option gstate :=
  pgrp ← groups st !! parent;
  r ← ompi_group_translate_ranks (groups st) parent [grp_my_rank pgrp] new;
  rank ← head r;
  grp ← groups st !! new;
  Some (set_group st new (with_rank grp rank)).

(** The loop of [ompi_set_group_rank]. *)
Fixpoint find_ptr (gs : list ompi_group_t) (g : nat) (ptr : ompi_proc_ptr) (n : nat) (proc : Z) : option Z :=
  match n with
  | O => Some MPI_UNDEFINED
  | S n' =>
      p ← ompi_group_peer_lookup_existing gs g proc;
      if bool_decide (p = ptr) then Some proc else find_ptr gs g ptr n' (proc + 1)
  end.

Definition ompi_set_group_rank (st : gstate) (g : nat) (proc_pointer : ompi_proc_ptr) : option gstate :=
  grp ← groups st !! g;
  r ← match proc_pointer with
      | ProcNull => Some MPI_UNDEFINED
      | _ => find_ptr (groups st) g proc_pointer (Z.to_nat (grp_proc_count grp)) 0
      end;
  Some (set_group st g (with_rank grp r)).

(** Stores [ptrs] in the array of a new dense group. *)
Definition fill_pointers (st : gstate) (g : nat) (ptrs : list ompi_proc_ptr) : option gstate :=
  grp ← groups st !! g;
  safe (Z.of_nat (length ptrs) <=? Z.of_nat (length (grp_proc_pointers grp)));
  Some (set_group st g (mk_group (grp_proc_count grp) (grp_my_rank grp)
          (ptrs ++ drop (length ptrs) (grp_proc_pointers grp)) (grp_parent_group_ptr grp) (grp_data grp) (grp_refs grp))).

(** [*new_group = MPI_GROUP_EMPTY; OBJ_RETAIN(MPI_GROUP_EMPTY);] *)
Definition return_empty (st : gstate) : option (Z * option nat * gstate) :=
  st' ← group_retain st MPI_GROUP_EMPTY; Some (OMPI_SUCCESS, Some MPI_GROUP_EMPTY, st').

End Group.
