(* ===== verification/GroupOps.v ===== *)
(** * Operations on MPI groups ([group.c], [group_plist.c], [group_sporadic.c],
    [group_strided.c], [group_bitmap.c])

    Inclusion in the four formats and the choice between them, exclusion,
    ranges, intersection, union, difference and comparison.  Union and
    difference mark processes in a bitmap through the interface
    [BitmapOps]; [BitmapLaws] states what they rely on, and the OPAL bitmap is
    an instance. *)

From stdpp Require Import base numbers list gmap sets.
From S2P Require Import Prelude OpalBitmap Group.
Import Group.

Local Open Scope Z_scope.
Local Open Scope c_scope.

Module GroupOps.

(** ** The bitmap interface *)

Class BitmapOps (B : Type) := {
  bm_init : Z → option (Z * B);
  bm_set_bit : B → Z → option (Z * B);
  bm_is_set_bit : B → Z → option bool;
}.

(** Bits below [bm_limit] can be set; [bm_repr] relates a bitmap to its set. *)
Definition bm_limit : Z := 2 ^ 30.

Class BitmapLaws (B : Type) `{BitmapOps B} := {
  bm_repr : B → gset Z → Prop;
  bm_init_law : ∀ n, 0 < n < bm_limit → ∃ b, bm_init n = Some (OMPI_SUCCESS, b) ∧ bm_repr b ∅;
  bm_set_law : ∀ b X i, bm_repr b X → 0 ≤ i < bm_limit →
    ∃ b', bm_set_bit b i = Some (OMPI_SUCCESS, b') ∧ bm_repr b' ({[i]} ∪ X);
  bm_test_law : ∀ b X i, bm_repr b X → bm_is_set_bit b i = Some (bool_decide (i ∈ X));
}.

(** The OPAL bitmap, with allocation succeeding and [fresh] the words
    [malloc] returns. *)
#[global] Instance opal_bitmap_ops (fresh : nat → Z) : BitmapOps OpalBitmap.opal_bitmap_t := {
  bm_init := OpalBitmap.opal_bitmap_init true fresh OpalBitmap.opal_bitmap_construct;
  bm_set_bit := OpalBitmap.opal_bitmap_set_bit true;
  bm_is_set_bit := OpalBitmap.opal_bitmap_is_set_bit;
}.

(** ** Storage sizes and the choice of the format *)

Definition ompi_group_calc_plist (n : Z) : Z := swrap 32 (8 * n).

(** [check_stride] *)
Fixpoint same_stride (s : Z) (incl : list Z) : bool :=
  match incl with
  | a :: (b :: _) as rest => (b - a =? s) && same_stride s rest
  | _ => true
  end.

Definition check_stride (incl : list Z) : Z :=
  let s := match incl with a :: b :: _ => b - a | _ => 1 end in
  if s <? 0 then -1 else if same_stride s incl then s else -1.

Definition ompi_group_calc_strided (ranks : list Z) : Z :=
  if check_stride ranks =? -1 then -1 else 12.

(** The number of runs of consecutive ranks, as the loop counts them; [prev] is what
    [ranks[i-1]] reads.  For [i = 0] that is outside the array: there is a word only
    when the array is inside a larger one. *)
Fixpoint count_runs (prev : option Z) (l : Z) (ranks : list Z) : option Z :=
  match ranks with
  | [] => Some l
  | r :: ranks' =>
      prev ← prev;
      next ← cint (prev + 1);
      count_runs (Some r) (if r =? next then (if l =? 0 then l + 1 else l) else l + 1) ranks'
  end.

Definition ompi_group_calc_sporadic (before : option Z) (ranks : list Z) : option Z :=
  l ← count_runs before 0 ranks; Some (swrap 32 (8 * l)).

Definition ompi_group_div_ceil (num den : Z) : Z :=
  if Z.rem num den =? 0 then Z.quot num den else Z.quot num den + 1.

Fixpoint check_ranks (ranks : list Z) : bool :=
  match ranks with
  | a :: (b :: _) as rest => negb (b <? a) && check_ranks rest
  | _ => true
  end.

Definition ompi_group_calc_bmap (orig_size : Z) (ranks : list Z) : Z :=
  if check_ranks ranks then ompi_group_div_ceil orig_size BSIZE else -1.

Fixpoint minloc_loop (min index i : Z) (l : list Z) : Z :=
  match l with
  | [] => index
  | x :: l' => if (x <? min) && negb (x =? -1) then minloc_loop x i (i + 1) l'
               else minloc_loop min index (i + 1) l'
  end.

Definition ompi_group_minloc (l : list Z) : option Z :=
  min ← head l; Some (minloc_loop min 0 0 l).

(** ** Inclusion *)

(** Result of an operation: the status, the new group and the state. *)
Abbreviation group_result := (option (Z * option nat * gstate)).

Section operations.
Context (local_proc : ompi_proc_ptr).   (* ompi_proc_local_proc *)
Context (use_sparse : bool).            (* ompi_use_sparse_group_storage *)
Context (alloc_ok : bool).              (* whether a group object can be allocated *)

Definition ompi_group_incl_plist (st : gstate) (group : nat) (ranks : list Z) : group_result :=
if (Z.of_nat (length ranks) =? 0) then return_empty st
else
  '(new, st1) ← ompi_group_allocate alloc_ok st (Z.of_nat (length ranks));
  match new with
  | None => Some (MPI_ERR_GROUP, None, st1)
  | Some new =>
      ptrs ← mapM (ompi_group_get_proc_ptr_raw (groups st1) group) ranks;
      st2 ← fill_pointers st1 new ptrs;
      st3 ← ompi_group_increment_proc_count st2 new;
      grp ← groups st3 !! group;
      st4 ← (if negb (grp_my_rank grp =? MPI_UNDEFINED) then ompi_set_group_rank st3 new local_proc
             else ngrp ← groups st3 !! new; Some (set_group st3 new (with_rank ngrp MPI_UNDEFINED)));
      Some (OMPI_SUCCESS, Some new, st4)
  end.

Definition ompi_group_incl_strided (st : gstate) (group : nat) (ranks : list Z) : group_result :=
if (Z.of_nat (length ranks) =? 0) then return_empty st
else if negb alloc_ok then Some (MPI_ERR_GROUP, None, st)
else
  first ← head ranks;
  last_rank ← last ranks;
  '(new, st1) ← allocate_sparse st group (Z.of_nat (length ranks))
                  (Strided first (check_stride ranks) last_rank);
  st2 ← set_my_rank_from st1 group new;
  Some (OMPI_SUCCESS, Some new, st2).

(** The loop that fills the sporadic list, from the range [(first, len)]. *)
Fixpoint build_runs (first len prev : Z) (ranks : list Z) : list (Z * Z) :=
match ranks with
| [] => [(first, len)]
| r :: ranks' => if r =? prev + 1 then build_runs first (len + 1) r ranks'
                 else (first, len) :: build_runs r 1 r ranks'
end.

Definition sum_lengths (l : list (Z * Z)) : Z := foldl (λ n r, n + snd r) 0 l.

(** [before] is the word read as [ranks[-1]], if there is one. *)
Definition ompi_group_incl_spor (before : option Z) (st : gstate) (group : nat) (ranks : list Z) : group_result :=
match ranks with
| [] => return_empty st
| r0 :: rest =>
    l ← count_runs before 0 ranks;
    if negb alloc_ok then Some (MPI_ERR_GROUP, None, st)
    else
      let runs := build_runs r0 1 r0 rest in
      safe (Z.of_nat (length runs) <=? l);
      '(new, st1) ← allocate_sparse st group (sum_lengths runs) (Sporadic runs);
      st2 ← set_my_rank_from st1 group new;
      Some (OMPI_SUCCESS, Some new, st2)
end.

(** [array[ranks[i] / BSIZE] |= (1 << (ranks[i] % BSIZE))] *)
Fixpoint set_bits (array : list Z) (ranks : list Z) : option (list Z) :=
match ranks with
| [] => Some array
| r :: ranks' =>
    safe (0 <=? r);
    let i := Z.to_nat (Z.quot r BSIZE) in
    byte ← array !! i;
    set_bits (<[i := wrap 8 (Z.lor byte (Z.shiftl 1 (Z.rem r BSIZE)))]> array) ranks'
end.

Definition ompi_group_incl_bmap (st : gstate) (group : nat) (ranks : list Z) : group_result :=
if (Z.of_nat (length ranks) =? 0) then return_empty st
else if negb alloc_ok then Some (MPI_ERR_GROUP, None, st)
else
  orig_size ← proc_count (groups st) group;
  array ← set_bits (replicate (Z.to_nat (ompi_group_div_ceil orig_size BSIZE)) 0) ranks;
  '(new, st1) ← allocate_sparse st group (Z.of_nat (length ranks)) (Bitmap array);
  st2 ← set_my_rank_from st1 group new;
  Some (OMPI_SUCCESS, Some new, st2).

Definition ompi_group_incl (before : option Z) (st : gstate) (group : nat) (ranks : list Z) : group_result :=
method ← (if use_sparse then
            orig ← proc_count (groups st) group;
            sporadic ← ompi_group_calc_sporadic before ranks;
            ompi_group_minloc [ompi_group_calc_plist (Z.of_nat (length ranks));
                               ompi_group_calc_strided ranks;
                               sporadic;
                               ompi_group_calc_bmap orig ranks]
          else Some 0);
if method =? 0 then ompi_group_incl_plist st group ranks
else if method =? 1 then ompi_group_incl_strided st group ranks
else if method =? 2 then ompi_group_incl_spor before st group ranks
else ompi_group_incl_bmap st group ranks.

(** ** Exclusion and ranges *)

(** The ranks [0 .. n-1] that are not in [excl], in order. *)
Definition complement (n : Z) (excl : list Z) : list Z :=
List.filter (λ i, negb (existsb (Z.eqb i) excl)) (seqZ 0 n).

(** [ranks_included] has room for [count - n] entries.  It is an array of its own, here
  and in the operations below: nothing can be read before it. *)
Definition ompi_group_excl (st : gstate) (group : nat) (ranks : list Z) : group_result :=
count ← proc_count (groups st) group;
let n := Z.of_nat (length ranks) in
let included := if 0 <? count - n then complement count ranks else [] in
safe (Z.of_nat (length included) <=? Z.max 0 (count - n));
ompi_group_incl None st group included.

(** The indices of one triplet, in the order of the loops; a loop that does
  not end has no result, nor one whose [index] overflows. *)
Fixpoint range_up (fuel : nat) (index last stride : Z) : option (list Z) :=
match fuel with
| O => None
| S f =>
    if index <=? last then next ← cint (index + stride); cons index <$> range_up f next last stride
    else Some []
end.

Fixpoint range_down (fuel : nat) (index last stride : Z) : option (list Z) :=
match fuel with
| O => None
| S f =>
    if last <=? index then next ← cint (index + stride); cons index <$> range_down f next last stride
    else Some []
end.

Definition range_ranks (range : Z * Z * Z) : option (list Z) :=
let '(first_rank, last_rank, stride) := range in
if first_rank <? last_rank
then range_up (Z.to_nat (last_rank - first_rank + 2)) first_rank last_rank stride
else if last_rank <? first_rank
then range_down (Z.to_nat (first_rank - last_rank + 2)) first_rank last_rank stride
else Some [first_rank].

(** The counting pass and the filling pass visit the same indices, so the
  array of [count] entries is filled exactly. *)
Definition all_ranges (ranges : list (Z * Z * Z)) : option (list Z) :=
rs ← mapM range_ranks ranges; Some (List.concat rs).

Definition ompi_group_range_incl (st : gstate) (group : nat) (ranges : list (Z * Z * Z)) : group_result :=
included ← all_ranges ranges; ompi_group_incl None st group included.

Definition ompi_group_range_excl (st : gstate) (group : nat) (ranges : list (Z * Z * Z)) : group_result :=
excluded ← all_ranges ranges;
count ← proc_count (groups st) group;
let included := complement count excluded in
safe (Z.of_nat (length included) <=? Z.max 0 (count - Z.of_nat (length excluded)));
ompi_group_incl None st group included.

(** ** Intersection *)

(** The ranks of [group1] from [proc1] on whose process is in [group2]. *)
Fixpoint common_ranks (gs : list ompi_group_t) (group1 group2 : nat) (n2 : nat) (n : nat) (proc1 : Z)
  : option (list Z) :=
match n with
| O => Some []
| S n' =>
    name ← ompi_group_get_proc_name gs group1 proc1;
    r ← find_name gs group2 name n2 0;
    rest ← common_ranks gs group1 group2 n2 n' (proc1 + 1);
    Some (match r with Some _ => proc1 :: rest | None => rest end)
end.

(** [scratch_ok]: whether the checked [malloc] of the rank array succeeds. *)
Definition ompi_group_intersection (scratch_ok : bool) (st : gstate) (group1 group2 : nat) : group_result :=
count1 ← proc_count (groups st) group1;
count2 ← proc_count (groups st) group2;
if (0 <? count1) && negb scratch_ok then Some (MPI_ERR_NO_MEM, None, st)
else
  included ← common_ranks (groups st) group1 group2 (Z.to_nat count2) (Z.to_nat count1) 0;
  ompi_group_incl None st group1 included.

(** ** Union and difference *)

Section bitmap.
Context {B : Type} `{BitmapOps B}.

(** [ompi_group_dense_overlap]: marks in the bitmap the ranks of [group2]
  whose process is in [group1]; returns the number of marks or an error. *)
Fixpoint dense_overlap (gs : list ompi_group_t) (group1 group2 : nat) (n2 : nat) (bitmap : B)
  (n : nat) (proc1 overlap_count : Z) : option (Z * B) :=
match n with
| O => Some (overlap_count, bitmap)
| S n' =>
    name ← ompi_group_get_proc_name gs group1 proc1;
    r ← find_name gs group2 name n2 0;
    match r with
    | None => dense_overlap gs group1 group2 n2 bitmap n' (proc1 + 1) overlap_count
    | Some proc2 =>
        '(rc, bitmap') ← bm_set_bit bitmap proc2;
        if negb (rc =? OMPI_SUCCESS) then Some (rc, bitmap')
        else dense_overlap gs group1 group2 n2 bitmap' n' (proc1 + 1) (overlap_count + 1)
    end
end.

Definition ompi_group_dense_overlap (gs : list ompi_group_t) (group1 group2 : nat) (bitmap : B) : option (Z * B) :=
n1 ← proc_count gs group1;
n2 ← proc_count gs group2;
dense_overlap gs group1 group2 (Z.to_nat n2) bitmap (Z.to_nat n1) 0 0.

(** The raw pointers of the ranks from [proc] on that are not marked. *)
Fixpoint unmarked (gs : list ompi_group_t) (group : nat) (bitmap : B) (n : nat) (proc : Z)
  : option (list ompi_proc_ptr) :=
match n with
| O => Some []
| S n' =>
    marked ← bm_is_set_bit bitmap proc;
    if (marked : bool) then unmarked gs group bitmap n' (proc + 1)
    else
      p ← ompi_group_get_proc_ptr_raw gs group proc;
      rest ← unmarked gs group bitmap n' (proc + 1);
      Some (p :: rest)
end.

(** The raw pointers of a whole group. *)
Definition all_pointers (gs : list ompi_group_t) (group : nat) (count : Z) : option (list ompi_proc_ptr) :=
mapM (ompi_group_get_proc_ptr_raw gs group) (seqZ 0 count).

(** Sets the rank of the calling process when [member], else undefined. *)
Definition set_rank_if (st : gstate) (new : nat) (member : bool) : option gstate :=
if member then ompi_set_group_rank st new local_proc
else ngrp ← groups st !! new; Some (set_group st new (with_rank ngrp MPI_UNDEFINED)).

Definition my_rank (st : gstate) (g : nat) : option Z := grp_my_rank <$> groups st !! g.

Definition ompi_group_union (st : gstate) (group1 group2 : nat) : group_result :=
'(rc, bitmap) ← bm_init 32;
if negb (rc =? OMPI_SUCCESS) then Some (rc, None, st)
else
  '(overlap_count, bitmap) ← ompi_group_dense_overlap (groups st) group1 group2 bitmap;
  if overlap_count <? 0 then Some (overlap_count, None, st)
  else
    count1 ← proc_count (groups st) group1;
    count2 ← proc_count (groups st) group2;
    let new_group_size := count1 + count2 - overlap_count in
    if new_group_size =? 0 then return_empty st
    else
      '(new, st1) ← ompi_group_allocate alloc_ok st new_group_size;
      match new with
      | None => Some (MPI_ERR_GROUP, None, st1)
      | Some new =>
          ptrs1 ← all_pointers (groups st1) group1 count1;
          ptrs2 ← unmarked (groups st1) group2 bitmap (Z.to_nat count2) 0;
          st2 ← fill_pointers st1 new (ptrs1 ++ ptrs2);
          st3 ← ompi_group_increment_proc_count st2 new;
          r1 ← my_rank st3 group1;
          r2 ← my_rank st3 group2;
          st4 ← set_rank_if st3 new (negb (r1 =? MPI_UNDEFINED) || negb (r2 =? MPI_UNDEFINED));
          Some (OMPI_SUCCESS, Some new, st4)
      end.

Definition ompi_group_difference (st : gstate) (group1 group2 : nat) : group_result :=
'(rc, bitmap) ← bm_init 32;
if negb (rc =? OMPI_SUCCESS) then Some (rc, None, st)
else
  '(overlap_count, bitmap) ← ompi_group_dense_overlap (groups st) group2 group1 bitmap;
  if overlap_count <? 0 then Some (overlap_count, None, st)
  else
    count1 ← proc_count (groups st) group1;
    let new_group_size := count1 - overlap_count in
    if new_group_size =? 0 then return_empty st
    else
      '(new, st1) ← ompi_group_allocate alloc_ok st new_group_size;
      match new with
      | None => Some (MPI_ERR_GROUP, None, st1)
      | Some new =>
          ptrs ← unmarked (groups st1) group1 bitmap (Z.to_nat count1) 0;
          st2 ← fill_pointers st1 new ptrs;
          st3 ← ompi_group_increment_proc_count st2 new;
          r1 ← my_rank st3 group1;
          r2 ← my_rank st3 group2;
          st4 ← set_rank_if st3 new (negb ((r1 =? MPI_UNDEFINED) || negb (r2 =? MPI_UNDEFINED)));
          Some (OMPI_SUCCESS, Some new, st4)
      end.

End bitmap.

End operations.

(** ** Comparison *)

(** The two loops: whether every process of [group1] from [proc1] on is in
    [group2], and at the same rank. *)
Fixpoint compare_loop (gs : list ompi_group_t) (group1 group2 : nat) (n2 : nat) (n : nat) (proc1 : Z)
    (identical : bool) : option (bool * bool) :=
  match n with
  | O => Some (true, identical)
  | S n' =>
      name ← ompi_group_get_proc_name gs group1 proc1;
      r ← find_name gs group2 name n2 0;
      match r with
      | None => Some (false, false)
      | Some proc2 => compare_loop gs group1 group2 n2 n' (proc1 + 1) (identical && (proc1 =? proc2))
      end
  end.

Definition ompi_group_compare (gs : list ompi_group_t) (group1 group2 : nat) : option mpi_cmp :=
  if bool_decide (group1 = group2) then Some MPI_IDENT
  else if bool_decide (group1 = MPI_GROUP_EMPTY) || bool_decide (group2 = MPI_GROUP_EMPTY)
  then Some MPI_UNEQUAL
  else
    count1 ← proc_count gs group1;
    count2 ← proc_count gs group2;
    if negb (count1 =? count2) then Some MPI_UNEQUAL
    else
      '(similar, identical) ← compare_loop gs group1 group2 (Z.to_nat count2) (Z.to_nat count1) 0 true;
      Some (if (identical : bool) then MPI_IDENT else if (similar : bool) then MPI_SIMILAR else MPI_UNEQUAL).

(** [ompi_group_overlap] *)
Fixpoint overlap_loop (gs : list ompi_group_t) (group1 group2 : nat) (n2 : nat) (n : nat) (i : Z) : option bool :=
  match n with
  | O => Some false
  | S n' =>
      name ← ompi_group_get_proc_name gs group1 i;
      r ← find_name gs group2 name n2 0;
      match r with Some _ => Some true | None => overlap_loop gs group1 group2 n2 n' (i + 1) end
  end.

Definition ompi_group_overlap (gs : list ompi_group_t) (group1 group2 : nat) : option bool :=
  n1 ← proc_count gs group1;
  n2 ← proc_count gs group2;
  overlap_loop gs group1 group2 (Z.to_nat n2) (Z.to_nat n1) 0.

Definition ompi_group_to_proc_name_array (gs : list ompi_group_t) (g : nat) : option (list Z) :=
  n ← proc_count gs g;
  mapM (ompi_group_get_proc_name gs g) (seqZ 0 n).

End GroupOps.
