(* ===== verification/GroupSpec.v ===== *)
(** * Correctness of rank translation

    A sparse group stands for a list of ranks of its parent ([expand]), in
    every format; the translation functions of the formats are lookup and
    search in that list, and [ompi_group_translate_ranks] finds the rank of
    the same process in the other group whatever the formats. *)

From stdpp Require Import base numbers list gmap sets.
From S2P Require Import Prelude Group.
Import Group.

Local Open Scope Z_scope.

Module GroupSpec.

(** ** Positions in a list *)

Fixpoint pos_of (x : Z) (l : list Z) (i : Z) : Z :=
  match l with
  | [] => MPI_UNDEFINED
  | y :: l' => if x =? y then i else pos_of x l' (i + 1)
  end.

(** The rank of a process (or of a parent rank) in a list. *)
Definition rank_in (x : Z) (l : list Z) : Z := pos_of x l 0.

Lemma pos_of_app x l l' i :
  pos_of x (l ++ l') i = if decide (x ∈ l) then pos_of x l i else pos_of x l' (i + Z.of_nat (length l)).
Proof.
  revert i. induction l as [|y l IH]; intros i; cbn [pos_of app length].
  - rewrite decide_False by (apply not_elem_of_nil). by rewrite Z.add_0_r.
  - rewrite IH. destruct (Z.eqb_spec x y) as [->|Hne].
    + by rewrite decide_True by (by left).
    + destruct (decide (x ∈ l)) as [Hin|Hnin].
      * by rewrite decide_True by (by right).
      * rewrite decide_False by (rewrite elem_of_cons; tauto). f_equal. lia.
Qed.

Lemma pos_of_not_in x l i : x ∉ l → pos_of x l i = MPI_UNDEFINED.
Proof.
  revert i. induction l as [|y l IH]; intros i Hx; [done|]. cbn [pos_of].
  rewrite not_elem_of_cons in Hx. destruct Hx as [Hne Hx].
  destruct (Z.eqb_spec x y); [done|]. by apply IH.
Qed.

Lemma pos_of_lookup x l i n :
  NoDup l → l !! n = Some x → pos_of x l i = i + Z.of_nat n.
Proof.
  revert i n. induction l as [|y l IH]; intros i n Hnd Hn; [done|].
  apply NoDup_cons in Hnd as [Hy Hnd]. cbn [pos_of]. destruct n as [|n]; cbn in Hn; simplify_eq.
  - rewrite Z.eqb_refl. lia.
  - destruct (Z.eqb_spec x y) as [->|Hne]; [by apply list_elem_of_lookup_2 in Hn|].
    rewrite (IH _ n) by done. lia.
Qed.

Lemma pos_of_range x l i : pos_of x l i = MPI_UNDEFINED ∨ i ≤ pos_of x l i < i + Z.of_nat (length l).
Proof.
  revert i. induction l as [|y l IH]; intros i; cbn [pos_of length]; [by left|].
  destruct (x =? y); [lia|]. destruct (IH (i + 1)); [by left|lia].
Qed.

Lemma rank_in_spec x l n :
  NoDup l → rank_in x l = Z.of_nat n ↔ l !! n = Some x.
Proof.
  intros Hnd. unfold rank_in. split; [|intros H; by rewrite (pos_of_lookup x l 0 n)].
  destruct (decide (x ∈ l)) as [Hin|Hnin].
  - apply list_elem_of_lookup in Hin as [m Hm]. rewrite (pos_of_lookup x l 0 m Hnd Hm).
    intros E. by assert (m = n) as -> by lia.
  - rewrite pos_of_not_in by done. unfold MPI_UNDEFINED. lia.
Qed.

(** ** The ranks of the parent that a sparse group stands for *)

Fixpoint positions (p : Z) (bits : list bool) : list Z :=
  match bits with
  | [] => []
  | b :: bits' => if (b : bool) then p :: positions (p + 1) bits' else positions (p + 1) bits'
  end.

Definition expand (d : sparse_data) (count : Z) : list Z :=
  match d with
  | Dense => seqZ 0 count
  | Sporadic l => l ≫= λ r, seqZ (fst r) (snd r)
  | Strided o s _ => (λ i, o + s * i) <$> seqZ 0 count
  | Bitmap a => positions 0 (array_bits a)
  end.

(** A sparse group of [count] members over a parent of [pcount] members. *)
Definition wf_data (d : sparse_data) (count pcount : Z) : Prop :=
  Z.of_nat (length (expand d count)) = count ∧ NoDup (expand d count) ∧
  Forall (λ r, 0 ≤ r < pcount) (expand d count) ∧
  match d with
  | Dense => False
  | Sporadic l => Forall (λ r, 0 < snd r) l
  | Strided o s last => 0 < s ∧ 0 < count ∧ last = o + s * (count - 1)
  | Bitmap a => pcount ≤ 8 * Z.of_nat (length a)
  end.

(** *** Sporadic *)

Lemma seqZ_pos x f n i : 0 ≤ n → f ≤ x < f + n → pos_of x (seqZ f n) i = i + (x - f).
Proof.
  intros Hn Hx. rewrite (pos_of_lookup x (seqZ f n) i (Z.to_nat (x - f))); [lia|apply NoDup_seqZ|].
  apply lookup_seqZ. lia.
Qed.

Lemma sporadic_forward_spec l rank count :
  Forall (λ r, 0 < snd r) l →
  sporadic_forward l rank count = pos_of rank (l ≫= λ r, seqZ (fst r) (snd r)) count.
Proof.
  revert count. induction l as [|[f n] l IH]; intros count Hl; [done|].
  apply Forall_cons in Hl as [Hn Hl]. cbn [fst snd] in Hn. cbn [sporadic_forward].
  change (((f, n) :: l) ≫= λ r, seqZ (fst r) (snd r)) with (seqZ f n ++ (l ≫= λ r, seqZ (fst r) (snd r))).
  rewrite pos_of_app, length_seqZ, IH by done.
  destruct (Z.leb_spec f rank), (Z.leb_spec rank (f + n - 1)); cbn [andb].
  - rewrite decide_True by (apply elem_of_seqZ; lia). rewrite seqZ_pos by lia. lia.
  - rewrite decide_False by (rewrite elem_of_seqZ; lia). f_equal. lia.
  - rewrite decide_False by (rewrite elem_of_seqZ; lia). f_equal. lia.
  - rewrite decide_False by (rewrite elem_of_seqZ; lia). f_equal. lia.
Qed.

Lemma sporadic_reverse_spec l rank count :
  Forall (λ r, 0 < snd r) l → count ≤ rank →
  sporadic_reverse l rank count = (l ≫= λ r, seqZ (fst r) (snd r)) !! Z.to_nat (rank - count).
Proof.
  revert count. induction l as [|[f n] l IH]; intros count Hl Hr; [done|].
  apply Forall_cons in Hl as [Hn Hl]. cbn [fst snd] in Hn. cbn [sporadic_reverse].
  change (((f, n) :: l) ≫= λ r, seqZ (fst r) (snd r)) with (seqZ f n ++ (l ≫= λ r, seqZ (fst r) (snd r))).
  destruct (Z.ltb_spec (count + n - 1) rank).
  - rewrite IH by (done || lia). rewrite lookup_app_r by (rewrite length_seqZ; lia).
    rewrite length_seqZ. f_equal. lia.
  - rewrite lookup_app_l by (rewrite length_seqZ; lia). symmetry. apply lookup_seqZ. lia.
Qed.

(** *** Strided *)

Lemma elem_of_strided x o s n :
  0 ≤ n → x ∈ (λ i, o + s * i) <$> seqZ 0 n ↔ ∃ i, 0 ≤ i < n ∧ x = o + s * i.
Proof.
  intros Hn. rewrite list_elem_of_fmap. split.
  - intros (i & -> & Hi). apply elem_of_seqZ in Hi. exists i. split; [lia|done].
  - intros (i & Hi & ->). exists i. split; [done|]. apply elem_of_seqZ. lia.
Qed.

Lemma lookup_strided o s n i :
  0 ≤ i < n → ((λ i, o + s * i) <$> seqZ 0 n) !! Z.to_nat i = Some (o + s * i).
Proof.
  intros Hi. rewrite list_lookup_fmap, (proj2 (lookup_seqZ 0 n (Z.to_nat i) i)) by lia. done.
Qed.

Lemma strided_NoDup o s n : 0 < s → NoDup ((λ i, o + s * i) <$> seqZ 0 n).
Proof. intros Hs. apply NoDup_fmap_2; [|apply NoDup_seqZ]. intros i j. nia. Qed.

Lemma strided_forward_spec o s count rank :
  0 < s → 0 < count →
  strided_forward o s (o + s * (count - 1)) rank =
    Some (rank_in rank ((λ i, o + s * i) <$> seqZ 0 count)).
Proof.
  intros Hs Hc. unfold strided_forward, rank_in.
  destruct (Z.leb_spec 0 (rank - o)) as [Hle|Hlt].
  - replace (negb (s =? 0)) with true by (symmetry; apply negb_true_iff, Z.eqb_neq; lia).
    rewrite Z.rem_mod_nonneg, Z.quot_div_nonneg by lia.
    pose proof (Z.div_mod (rank - o) s ltac:(lia)) as Hdm. pose proof (Z.mod_pos_bound (rank - o) s Hs).
    set (q := (rank - o) / s) in *. assert (0 ≤ q) by (apply Z.div_pos; lia).
    destruct (Z.eqb_spec ((rank - o) `mod` s) 0) as [E|E]; cbn [andb].
    + destruct (Z.leb_spec rank (o + s * (count - 1))) as [Hl|Hl].
      * rewrite (pos_of_lookup _ _ _ (Z.to_nat q)); [f_equal; lia|by apply strided_NoDup|].
        rewrite lookup_strided by nia. f_equal. lia.
      * rewrite pos_of_not_in; [done|]. rewrite elem_of_strided by lia. intros (i & Hi & ->). nia.
    + rewrite pos_of_not_in; [done|]. rewrite elem_of_strided by lia. intros (i & Hi & ->).
      apply E. replace (o + s * i - o) with (i * s) by lia. apply Z_mod_mult.
  - rewrite pos_of_not_in; [done|]. rewrite elem_of_strided by lia. intros (i & Hi & ->). nia.
Qed.

(** *** Bitmap *)

Lemma positions_ge p bits x : x ∈ positions p bits → p ≤ x < p + Z.of_nat (length bits).
Proof.
  revert p. induction bits as [|b bits IH]; intros p Hx; [by apply elem_of_nil in Hx|].
  cbn [positions length] in *. destruct b; [apply elem_of_cons in Hx as [->|Hx]|]; [lia| |];
    apply IH in Hx; lia.
Qed.

Lemma positions_NoDup p bits : NoDup (positions p bits).
Proof.
  revert p. induction bits as [|b bits IH]; intros p; cbn [positions]; [constructor|].
  destruct b; [|done]. apply NoDup_cons. split; [|done]. intros Hx. apply positions_ge in Hx. lia.
Qed.

Lemma elem_of_positions p bits x :
  p ≤ x → x ∈ positions p bits ↔ bits !! Z.to_nat (x - p) = Some true.
Proof.
  revert p. induction bits as [|b bits IH]; intros p Hx; cbn [positions].
  { rewrite elem_of_nil. done. }
  destruct (decide (x = p)) as [->|Hne].
  - rewrite Z.sub_diag. cbn. destruct b; [rewrite elem_of_cons; tauto|].
    split; [intros H; apply positions_ge in H; lia|done].
  - replace (Z.to_nat (x - p)) with (S (Z.to_nat (x - (p + 1)))) by lia. cbn [lookup list_lookup].
    rewrite <- IH by lia. destruct b; [rewrite elem_of_cons; tauto|done].
Qed.

Lemma bmap_find_spec bits p m count :
  count ≤ m → bmap_find bits p m count = positions p bits !! Z.to_nat (m - count).
Proof.
  revert p count. induction bits as [|b bits IH]; intros p count Hm; [done|]. cbn [bmap_find positions].
  destruct b.
  - destruct (Z.eqb_spec m (count + 1 - 1)) as [E|E].
    + by replace (Z.to_nat (m - count)) with O by lia.
    + rewrite IH by lia. replace (Z.to_nat (m - count)) with (S (Z.to_nat (m - (count + 1)))) by lia. done.
  - destruct (Z.eqb_spec m (count - 1)) as [E|E]; [lia|]. by apply IH.
Qed.

Lemma bmap_count_spec bits p m count :
  p ≤ m → bits !! Z.to_nat (m - p) = Some true →
  bmap_count bits p m count = Some (pos_of m (positions p bits) count).
Proof.
  revert p count. induction bits as [|b bits IH]; intros p count Hm Hb; [done|].
  cbn [bmap_count positions]. destruct (Z.eqb_spec p m) as [->|Hne].
  - rewrite Z.sub_diag in Hb. cbn in Hb. destruct b; [|done]. cbn. rewrite Z.eqb_refl. f_equal. lia.
  - replace (Z.to_nat (m - p)) with (S (Z.to_nat (m - (p + 1)))) in Hb by lia. cbn in Hb.
    rewrite IH by (done || lia). destruct b; [|done]. cbn [pos_of].
    destruct (Z.eqb_spec m p); [lia|done].
Qed.

Lemma byte_bits_length b : length (byte_bits b) = 8%nat.
Proof. unfold byte_bits. by rewrite length_fmap, length_seqZ. Qed.

Lemma array_bits_lookup a m :
  0 ≤ m → array_bits a !! Z.to_nat m = (λ b, Z.testbit b (m `mod` 8)) <$> a !! Z.to_nat (m / 8).
Proof.
  intros Hm. unfold array_bits. revert m Hm. induction a as [|b a IH]; intros m Hm; [by rewrite !lookup_nil|].
  change ((b :: a) ≫= byte_bits) with (byte_bits b ++ (a ≫= byte_bits)).
  destruct (decide (m < 8)) as [Hlt|Hge].
  - rewrite lookup_app_l by (rewrite byte_bits_length; lia).
    rewrite Z.div_small, Z.mod_small by lia. cbn [Z.to_nat lookup list_lookup fmap option_fmap option_map].
    unfold byte_bits. rewrite list_lookup_fmap, (proj2 (lookup_seqZ 0 BSIZE (Z.to_nat m) m)); [done|].
    unfold BSIZE. lia.
  - rewrite lookup_app_r by (rewrite byte_bits_length; lia). rewrite byte_bits_length.
    replace (Z.to_nat m - 8)%nat with (Z.to_nat (m - 8)) by lia. rewrite IH by lia.
    assert (m / 8 = (m - 8) / 8 + 1) as -> by (replace m with (m - 8 + 1 * 8) at 1 by lia; apply Z.div_add; lia).
    assert (m `mod` 8 = (m - 8) `mod` 8) as ->
      by (replace m with (m - 8 + 1 * 8) at 1 by lia; apply Z_mod_plus_full).
    assert (0 ≤ (m - 8) / 8) by (apply Z.div_pos; lia).
    by replace (Z.to_nat ((m - 8) / 8 + 1)) with (S (Z.to_nat ((m - 8) / 8))) by lia.
Qed.

Lemma bmap_forward_spec a m :
  0 ≤ m < 8 * Z.of_nat (length a) →
  bmap_forward a m = Some (rank_in m (positions 0 (array_bits a))).
Proof.
  intros Hm. unfold bmap_forward, rank_in, BSIZE.
  rewrite Z.quot_div_nonneg, Z.rem_mod_nonneg by lia. rewrite (proj2 (Z.leb_le _ _)) by lia.
  assert (m / 8 < Z.of_nat (length a)) by (apply Z.div_lt_upper_bound; lia).
  assert (0 ≤ m / 8) by (apply Z.div_pos; lia).
  destruct (lookup_lt_is_Some_2 a (Z.to_nat (m / 8))) as [byte Hb]; [lia|].
  pose proof (array_bits_lookup a m ltac:(lia)) as Hl. rewrite Hb in *. run. cbn in Hl.
  destruct (Z.testbit byte (m `mod` 8)) eqn:E.
  - apply bmap_count_spec; [lia|]. by rewrite Z.sub_0_r, Hl.
  - rewrite pos_of_not_in; [done|]. rewrite elem_of_positions, Z.sub_0_r, Hl by lia. done.
Qed.

(** *** All formats *)

(** From the parent: the position of the rank in the expansion. *)
Lemma forward_rank_spec d count pcount rank :
  wf_data d count pcount → 0 ≤ rank < pcount →
  forward_rank d rank = Some (rank_in rank (expand d count)).
Proof.
  intros (Hlen & Hnd & Hr & Hd) Hrank. unfold forward_rank.
  replace (rank =? MPI_PROC_NULL) with false by (symmetry; apply Z.eqb_neq; unfold MPI_PROC_NULL; lia).
  destruct d as [|l|o s last|a]; [done| | |].
  - by rewrite sporadic_forward_spec.
  - destruct Hd as (Hs & Hc & ->). by apply strided_forward_spec.
  - apply bmap_forward_spec. lia.
Qed.

(** To the parent: the element of the expansion. *)
Lemma reverse_rank_spec d count pcount rank :
  wf_data d count pcount → 0 ≤ rank < count →
  reverse_rank d rank = expand d count !! Z.to_nat rank.
Proof.
  intros (Hlen & Hnd & Hr & Hd) Hrank. unfold reverse_rank.
  replace (rank =? MPI_PROC_NULL) with false by (symmetry; apply Z.eqb_neq; unfold MPI_PROC_NULL; lia).
  destruct d as [|l|o s last|a]; [done| | |].
  - rewrite sporadic_reverse_spec by (done || lia). by rewrite Z.sub_0_r.
  - cbn [expand]. rewrite lookup_strided by lia. unfold strided_reverse. f_equal. lia.
  - unfold bmap_reverse. rewrite bmap_find_spec by lia. by rewrite Z.sub_0_r.
Qed.

(** ** The store *)

(** The pointers of a group, through its ancestors. *)
Fixpoint pointers_f (fuel : nat) (gs : list ompi_group_t) (g : nat) : list ompi_proc_ptr :=
  match fuel with
  | O => []
  | S f =>
      match gs !! g with
      | None => []
      | Some grp =>
          match grp_data grp, grp_parent_group_ptr grp with
          | Dense, _ => grp_proc_pointers grp
          | d, Some p => omap (λ r, (pointers_f f gs p) !! Z.to_nat r) (expand d (grp_proc_count grp))
          | _, None => []
          end
      end
  end.

Definition pointers (gs : list ompi_group_t) (g : nat) : list ompi_proc_ptr := pointers_f (S g) gs g.

Definition name_of (p : ompi_proc_ptr) : Z :=
  match p with ProcNull => -1 | ProcSentinel n | ProcReal n => n end.

(** The processes of a group, in rank order. *)
Definition members (gs : list ompi_group_t) (g : nat) : list Z := name_of <$> pointers gs g.
#[global] Arguments pointers : simpl never.
#[global] Arguments members : simpl never.

Section store.
Context (local : Z).   (* the name of the calling process *)

(** Objects are well formed: a dense group holds distinct processes, and the
  calling process as a structure; a sparse group is a valid selection of its
  parent. *)
Definition wf_group (gs : list ompi_group_t) (g : nat) (grp : ompi_group_t) : Prop :=
if decide (grp_data grp = Dense)
then grp_parent_group_ptr grp = None ∧
     grp_proc_count grp = Z.of_nat (length (grp_proc_pointers grp)) ∧
     NoDup (name_of <$> grp_proc_pointers grp) ∧
     (ProcNull ∉ grp_proc_pointers grp) ∧ (ProcSentinel local ∉ grp_proc_pointers grp)
else ∃ p pgrp, grp_parent_group_ptr grp = Some p ∧ (p < g)%nat ∧ p ≠ MPI_GROUP_EMPTY ∧
       gs !! p = Some pgrp ∧ wf_data (grp_data grp) (grp_proc_count grp) (grp_proc_count pgrp).

Definition wf_store (gs : list ompi_group_t) : Prop :=
(∃ e, gs !! MPI_GROUP_EMPTY = Some e ∧ grp_data e = Dense ∧ grp_proc_pointers e = []) ∧
∀ g grp, gs !! g = Some grp → wf_group gs g grp.

(** The stored rank of every group is that of the calling process. *)
Definition ranks_ok (gs : list ompi_group_t) : Prop :=
∀ g grp, gs !! g = Some grp → grp_my_rank grp = rank_in local (members gs g).

Definition group_inv (gs : list ompi_group_t) : Prop := wf_store gs ∧ ranks_ok gs.

Lemma omap_lookup_all {A B} (f : A → option B) (l : list A) :
Forall (λ a, is_Some (f a)) l → ∀ n, omap f l !! n = l !! n ≫= f.
Proof.
induction 1 as [|a l [b Hb] Hl IH]; intros n; [done|]. cbn. rewrite Hb.
destruct n as [|n]; [by cbn; rewrite Hb|]. apply IH.
Qed.

Lemma omap_length_all {A B} (f : A → option B) (l : list A) :
Forall (λ a, is_Some (f a)) l → length (omap f l) = length l.
Proof. induction 1 as [|a l [b Hb] Hl IH]; [done|]. cbn. rewrite Hb. cbn. by rewrite IH. Qed.

(** What the store says of one group. *)
Record group_facts (gs : list ompi_group_t) (g : nat) (count : Z) : Prop := {
gf_length : Z.of_nat (length (pointers gs g)) = count;
gf_fuel : ∀ fuel, (g < fuel)%nat → pointers_f fuel gs g = pointers gs g;
gf_raw : ∀ fuel rank, (g < fuel)%nat → 0 ≤ rank < count →
  proc_ptr_raw fuel gs g rank = pointers gs g !! Z.to_nat rank;
gf_NoDup : NoDup (members gs g);
gf_null : ProcNull ∉ pointers gs g;
gf_local : ProcSentinel local ∉ pointers gs g;
}.

(** The members of a sparse group are a selection of distinct members. *)
Lemma selection_facts (P : list ompi_proc_ptr) (E : list Z) pcount :
Z.of_nat (length P) = pcount → Forall (λ r, 0 ≤ r < pcount) E → NoDup E → NoDup (name_of <$> P) →
let S := omap (λ r, P !! Z.to_nat r) E in
length S = length E ∧ (∀ n, S !! n = E !! n ≫= λ r, P !! Z.to_nat r) ∧ NoDup (name_of <$> S) ∧
∀ x, x ∈ S → x ∈ P.
Proof.
intros HP HE HndE HndP S.
assert (Forall (λ r, is_Some (P !! Z.to_nat r)) E) as Hall.
{ eapply Forall_impl; [exact HE|]. intros r Hr. cbn in Hr. apply lookup_lt_is_Some_2. lia. }
assert (∀ n, S !! n = E !! n ≫= λ r, P !! Z.to_nat r) as Hl by (by apply omap_lookup_all).
split_and!; [by apply omap_length_all|done| |].
- apply NoDup_alt. intros i j x Hi Hj. rewrite list_lookup_fmap, Hl in Hi, Hj.
  destruct (E !! i) as [ri|] eqn:Ei, (E !! j) as [rj|] eqn:Ej; try done. cbn in Hi, Hj.
  rewrite NoDup_alt in HndE, HndP. apply (HndE i j ri); [done|].
  rewrite Forall_forall in HE. pose proof (HE ri (list_elem_of_lookup_2 _ _ _ Ei)).
  pose proof (HE rj (list_elem_of_lookup_2 _ _ _ Ej)).
  assert (Z.to_nat ri = Z.to_nat rj) by (apply (HndP _ _ x); by rewrite list_lookup_fmap).
  assert (ri = rj) as -> by lia. done.
- intros x Hx. apply list_elem_of_lookup in Hx as [n Hn]. rewrite Hl in Hn.
  destruct (E !! n); [|done]. by eapply list_elem_of_lookup_2.
Qed.

Lemma pointers_f_sparse f gs g grp p :
gs !! g = Some grp → grp_data grp ≠ Dense → grp_parent_group_ptr grp = Some p →
pointers_f (S f) gs g =
  omap (λ r, pointers_f f gs p !! Z.to_nat r) (expand (grp_data grp) (grp_proc_count grp)).
Proof. intros Hg Hd Hp. cbn [pointers_f]. rewrite Hg, Hp. by destruct (grp_data grp). Qed.

Lemma proc_ptr_raw_sparse f gs g grp p rank :
gs !! g = Some grp → grp_data grp ≠ Dense → grp_parent_group_ptr grp = Some p →
(0 < g)%nat → p ≠ MPI_GROUP_EMPTY →
proc_ptr_raw (S f) gs g rank = r ← reverse_rank (grp_data grp) rank; proc_ptr_raw f gs p r.
Proof.
intros Hg Hd Hp H0 Hne. cbn [proc_ptr_raw]. rewrite Hg. run. rewrite Hp.
destruct (grp_data grp); [done|..]; run; unfold to_parent;
  rewrite !bool_decide_false by (done || (unfold MPI_GROUP_EMPTY; lia)); done.
Qed.

Lemma store_facts gs g grp :
wf_store gs → gs !! g = Some grp → group_facts gs g (grp_proc_count grp).
Proof.
intros [He Hwf]. revert grp. induction (lt_wf g) as [g _ IH]. intros grp Hg.
pose proof (Hwf g grp Hg) as Hd. unfold wf_group in Hd. case_decide as Ed.
{ destruct Hd as (Hp & Hc & Hnd & Hnull & Hloc).
  assert (pointers gs g = grp_proc_pointers grp) as E
    by (unfold pointers; cbn [pointers_f]; by rewrite Hg, Ed).
  split; unfold members; rewrite ?E; try done.
  - intros [|f] Hf; [lia|]. cbn [pointers_f]. by rewrite Hg, Ed.
  - intros [|f] rank Hf Hr; [lia|]. cbn [proc_ptr_raw]. rewrite Hg. run. rewrite Ed.
    by rewrite (proj2 (Z.leb_le _ _)) by lia. }
destruct Hd as (p & pgrp & Hpar & Hlt & Hne & Hp & Hwd).
destruct (IH p Hlt pgrp Hp) as [HlenP HfuelP HrawP HndP HnullP HlocP].
pose proof Hwd as (Hlen & Hnd & Hr & _).
destruct (selection_facts _ _ _ HlenP Hr Hnd HndP) as (Sl & Slook & Snd & Sin).
assert (∀ f, (g < f)%nat → pointers_f f gs g =
  omap (λ r, pointers gs p !! Z.to_nat r) (expand (grp_data grp) (grp_proc_count grp))) as Hf.
{ intros [|f] Hf; [lia|]. rewrite (pointers_f_sparse f gs g grp p) by done. by rewrite HfuelP by lia. }
assert (pointers gs g = omap (λ r, pointers gs p !! Z.to_nat r) (expand (grp_data grp) (grp_proc_count grp))) as E
  by (apply Hf; lia).
split; unfold members; rewrite ?E; try done; [lia| |intros Hx; by apply HnullP, Sin|intros Hx; by apply HlocP, Sin].
intros [|f] rank Hfu Hrank; [lia|].
rewrite (proc_ptr_raw_sparse f gs g grp p) by (done || lia).
rewrite (reverse_rank_spec _ _ _ _ Hwd Hrank), Slook.
destruct (expand (grp_data grp) (grp_proc_count grp) !! Z.to_nat rank) as [r|] eqn:Er; [|done]. run.
apply HrawP; [lia|]. rewrite Forall_forall in Hr. apply Hr. by eapply list_elem_of_lookup_2.
Qed.

(** ** Translation of ranks *)

Lemma get_name_spec gs g grp rank :
wf_store gs → gs !! g = Some grp → 0 ≤ rank < grp_proc_count grp →
ompi_group_get_proc_name gs g rank = members gs g !! Z.to_nat rank.
Proof.
intros Hwf Hg Hr. destruct (store_facts gs g grp Hwf Hg) as [Hlen _ Hraw _ Hnull _].
unfold ompi_group_get_proc_name, ompi_group_get_proc_ptr_raw, members.
rewrite Hraw, list_lookup_fmap by (done || lia).
destruct (pointers gs g !! Z.to_nat rank) as [p|] eqn:E; [|done]. run.
apply list_elem_of_lookup_2 in E. by destruct p.
Qed.

Definition opt_rank (x : Z) (l : list Z) : option Z :=
if decide (x ∈ l) then Some (rank_in x l) else None.

Lemma opt_rank_default x l : default MPI_UNDEFINED (opt_rank x l) = rank_in x l.
Proof. unfold opt_rank. case_decide; [done|]. unfold rank_in. by rewrite pos_of_not_in. Qed.

Lemma find_name_spec gs g grp name :
wf_store gs → gs !! g = Some grp →
find_name gs g name (Z.to_nat (grp_proc_count grp)) 0 = Some (opt_rank name (members gs g)).
Proof.
intros Hwf Hg. destruct (store_facts gs g grp Hwf Hg) as [Hlen _ _ _ _ _].
assert (length (members gs g) = Z.to_nat (grp_proc_count grp)) as Hm
  by (unfold members; rewrite length_fmap; lia).
assert (∀ n k, (k + n = length (members gs g))%nat →
  find_name gs g name n (Z.of_nat k) =
    Some (if decide (name ∈ drop k (members gs g))
          then Some (pos_of name (drop k (members gs g)) (Z.of_nat k)) else None)) as H.
{ induction n as [|n IH]; intros k Hk; cbn [find_name].
  - rewrite drop_ge by lia. by rewrite decide_False by apply not_elem_of_nil.
  - destruct (lookup_lt_is_Some_2 (members gs g) k) as [x Hx]; [lia|].
    rewrite (get_name_spec gs g grp) by (done || lia). rewrite Nat2Z.id, Hx. run.
    rewrite (drop_S _ x k Hx). cbn [pos_of]. destruct (Z.eqb_spec name x) as [->|Hne].
    + by rewrite decide_True by (by left).
    + replace (Z.of_nat k + 1) with (Z.of_nat (S k)) by lia. rewrite IH by lia. f_equal.
      destruct (decide (name ∈ drop (S k) (members gs g))) as [Hin|Hnin].
      * by rewrite decide_True by (by right).
      * by rewrite decide_False by (rewrite elem_of_cons; tauto). }
specialize (H (Z.to_nat (grp_proc_count grp)) O). rewrite drop_0 in H. apply H. lia.
Qed.

(** What the translation of a rank means: the rank in the second group of the
  process with that rank in the first. *)
Definition translated (m1 m2 : list Z) (rank : Z) : Z :=
if decide (rank = MPI_PROC_NULL) then MPI_PROC_NULL
else rank_in (m1 !!! Z.to_nat rank) m2.

Definition valid_rank (n rank : Z) : Prop := rank = MPI_PROC_NULL ∨ 0 ≤ rank < n.

Lemma pos_of_map (f : Z → Z) x l i :
(∀ y, y ∈ l → f x = f y → x = y) → pos_of (f x) (f <$> l) i = pos_of x l i.
Proof.
revert i. induction l as [|y l IH]; intros i Hf; [done|]. cbn [fmap list_fmap pos_of].
destruct (Z.eqb_spec x y) as [->|Hne]; [by rewrite Z.eqb_refl|].
destruct (Z.eqb_spec (f x) (f y)) as [E|_]; [by apply Hf in E; [|by left]|].
apply IH. intros z Hz. apply Hf. by right.
Qed.

Lemma members_sparse gs g grp p pgrp :
wf_store gs → gs !! g = Some grp → grp_data grp ≠ Dense → grp_parent_group_ptr grp = Some p →
gs !! p = Some pgrp →
members gs g = (λ r, members gs p !!! Z.to_nat r) <$> expand (grp_data grp) (grp_proc_count grp) ∧
wf_data (grp_data grp) (grp_proc_count grp) (grp_proc_count pgrp) ∧ (p < g)%nat ∧ p ≠ MPI_GROUP_EMPTY.
Proof.
intros Hwf Hg Hd Hp Hpg. pose proof Hwf as [_ Hall]. pose proof (Hall g grp Hg) as Hgrp.
unfold wf_group in Hgrp. rewrite decide_False in Hgrp by done. destruct Hgrp as (p' & pgrp' & Hp' & Hlt & Hne & Hpg' & Hwd).
rewrite Hp in Hp'. injection Hp' as <-. rewrite Hpg in Hpg'. injection Hpg' as <-.
split; [|done]. destruct (store_facts gs p pgrp Hwf Hpg) as [HlenP HfuelP _ HndP _ _].
pose proof Hwd as (_ & Hnd & Hr & _).
destruct (selection_facts _ _ _ HlenP Hr Hnd HndP) as (Sl & Slook & _).
unfold members, pointers at 1. rewrite (pointers_f_sparse g gs g grp p) by done. rewrite HfuelP by done.
apply list_eq. intros n. rewrite !list_lookup_fmap, Slook.
destruct (expand (grp_data grp) (grp_proc_count grp) !! n) as [r|] eqn:Er; [|done].
apply list_elem_of_lookup_2 in Er. rewrite Forall_forall in Hr. specialize (Hr r Er). cbn in Hr.
destruct (lookup_lt_is_Some_2 (pointers gs p) (Z.to_nat r)) as [x Hx]; [lia|].
change (name_of <$> (pointers gs p !! Z.to_nat r) = Some ((name_of <$> pointers gs p) !!! Z.to_nat r)).
rewrite list_lookup_total_alt, list_lookup_fmap. by rewrite Hx.
Qed.

Lemma members_length gs g grp :
wf_store gs → gs !! g = Some grp → Z.of_nat (length (members gs g)) = grp_proc_count grp.
Proof.
intros Hwf Hg. destruct (store_facts gs g grp Hwf Hg) as [Hlen _ _ _ _ _].
unfold members. by rewrite length_fmap.
Qed.

Lemma members_NoDup gs g grp : wf_store gs → gs !! g = Some grp → NoDup (members gs g).
Proof. intros Hwf Hg. by destruct (store_facts gs g grp Hwf Hg). Qed.

Lemma translate_to_parent gs g1 grp1 g2 grp2 rank :
wf_store gs → gs !! g1 = Some grp1 → gs !! g2 = Some grp2 → grp_data grp1 ≠ Dense →
grp_parent_group_ptr grp1 = Some g2 → valid_rank (grp_proc_count grp1) rank →
reverse_rank (grp_data grp1) rank = Some (translated (members gs g1) (members gs g2) rank).
Proof.
intros Hwf H1 H2 Hd Hp Hv. unfold translated.
destruct (members_sparse gs g1 grp1 g2 grp2 Hwf H1 Hd Hp H2) as (Hm & Hwd & _).
case_decide as Hnull; [by subst|]. destruct Hv as [->|Hr]; [done|].
rewrite (reverse_rank_spec _ _ _ _ Hwd Hr). pose proof Hwd as (Hlen & _ & Hall & _).
destruct (lookup_lt_is_Some_2 (expand (grp_data grp1) (grp_proc_count grp1)) (Z.to_nat rank)) as [r Er]; [lia|].
rewrite Er. f_equal. rewrite Hm, (list_lookup_total_alt _ (Z.to_nat rank)), list_lookup_fmap, Er. cbn.
rewrite Forall_forall in Hall. specialize (Hall r (list_elem_of_lookup_2 _ _ _ Er)). cbn in Hall.
pose proof (members_length gs g2 grp2 Hwf H2). pose proof (members_NoDup gs g2 grp2 Hwf H2).
unfold rank_in. rewrite (pos_of_lookup _ _ _ (Z.to_nat r)); [lia|done|].
apply list_lookup_lookup_total_lt. lia.
Qed.
Lemma translate_to_child gs g1 grp1 g2 grp2 rank :
wf_store gs → gs !! g1 = Some grp1 → gs !! g2 = Some grp2 → grp_data grp2 ≠ Dense →
grp_parent_group_ptr grp2 = Some g1 → valid_rank (grp_proc_count grp1) rank →
forward_rank (grp_data grp2) rank = Some (translated (members gs g1) (members gs g2) rank).
Proof.
intros Hwf H1 H2 Hd Hp Hv. unfold translated.
destruct (members_sparse gs g2 grp2 g1 grp1 Hwf H2 Hd Hp H1) as (Hm & Hwd & _).
case_decide as Hnull; [by subst|]. destruct Hv as [->|Hr]; [done|].
rewrite (forward_rank_spec _ _ _ _ Hwd Hr), Hm. f_equal. unfold rank_in.
rewrite (pos_of_map (λ r, members gs g1 !!! Z.to_nat r)); [done|].
intros y Hy E. pose proof Hwd as (_ & _ & Hall & _). rewrite Forall_forall in Hall.
specialize (Hall y Hy). cbn in Hall. pose proof (members_length gs g1 grp1 Hwf H1).
pose proof (members_NoDup gs g1 grp1 Hwf H1) as Hnd. rewrite NoDup_alt in Hnd.
enough (Z.to_nat rank = Z.to_nat y) by lia.
apply (Hnd _ _ (members gs g1 !!! Z.to_nat y)); [rewrite <- E|];
  apply list_lookup_lookup_total_lt; lia.
Qed.

Lemma translate_by_name_spec gs g1 grp1 g2 grp2 rank :
wf_store gs → gs !! g1 = Some grp1 → gs !! g2 = Some grp2 → valid_rank (grp_proc_count grp1) rank →
translate_by_name gs g1 g2 rank = Some (translated (members gs g1) (members gs g2) rank).
Proof.
intros Hwf H1 H2 Hv. unfold translate_by_name, translated, proc_count.
case_decide as Hnull; [by subst|]. destruct Hv as [->|Hr]; [done|].
rewrite (proj2 (Z.eqb_neq _ _) Hnull), (get_name_spec gs g1 grp1) by done.
pose proof (members_length gs g1 grp1 Hwf H1).
rewrite (list_lookup_lookup_total_lt (members gs g1)) by lia. run. rewrite H2. run.
rewrite (find_name_spec gs g2 grp2) by done. run. by rewrite opt_rank_default.
Qed.

Lemma wf_sparse_parent gs g grp p :
wf_store gs → gs !! g = Some grp → grp_parent_group_ptr grp = Some p → grp_data grp ≠ Dense.
Proof.
intros [_ Hall] Hg Hp Hd. pose proof (Hall g grp Hg) as H.
unfold wf_group in H. rewrite decide_True in H by done.
destruct H as [H _]. congruence.
Qed.

Lemma mapM_spec {A B} (f : A → option B) (h : A → B) l :
Forall (λ x, f x = Some (h x)) l → mapM f l = Some (h <$> l).
Proof. induction 1 as [|x l Hx Hl IH]; [done|]. cbn [mapM]. rewrite Hx, IH. done. Qed.

(** C28: Translating ranks between two groups other than the empty group gives, for every
  storage format of either group and whether the fast path to or from a parent or the
  search by name is taken, the rank in the second group of the process that has the
  given rank in the first, [MPI_UNDEFINED] when it is not a member, and
  [MPI_PROC_NULL] for [MPI_PROC_NULL]. *)
Theorem translate_ranks_spec gs g1 grp1 g2 grp2 ranks :
wf_store gs → gs !! g1 = Some grp1 → gs !! g2 = Some grp2 →
g1 ≠ MPI_GROUP_EMPTY → g2 ≠ MPI_GROUP_EMPTY →
Forall (valid_rank (grp_proc_count grp1)) ranks →
ompi_group_translate_ranks gs g1 ranks g2 =
  Some (translated (members gs g1) (members gs g2) <$> ranks).
Proof.
intros Hwf H1 H2 Hne1 Hne2 Hv. unfold ompi_group_translate_ranks.
rewrite (bool_decide_eq_false_2 _ Hne1), (bool_decide_eq_false_2 _ Hne2), H1, H2. cbn [orb]. run.
case_bool_decide as Hp1; [|case_bool_decide as Hp2]; apply mapM_spec;
  (eapply Forall_impl; [exact Hv|]; intros r Hr).
- eapply translate_to_parent; eauto using wf_sparse_parent.
- eapply translate_to_child; eauto using wf_sparse_parent.
- by eapply translate_by_name_spec.
Qed.

End store.

(** ** An example store: a dense group of six processes, and a strided, a
    bitmap and a sporadic group over it *)

Definition example_groups : list ompi_group_t :=
  [ mk_group 0 MPI_UNDEFINED [] None Dense 1;
    mk_group 6 0 [ProcReal 10; ProcSentinel 11; ProcReal 12; ProcSentinel 13; ProcReal 14; ProcSentinel 15] None Dense 4;
    mk_group 3 0 [] (Some 1%nat) (Strided 0 2 4) 1;
    mk_group 3 MPI_UNDEFINED [] (Some 1%nat) (Bitmap [38]) 1;
    mk_group 3 2 [] (Some 1%nat) (Sporadic [(4, 2); (0, 1)]) 1 ].

Lemma example_groups_wf : wf_store 10 example_groups.
Proof.
  split; [by eexists|]. intros [|[|[|[|[|g]]]]] grp Hg; cbn in Hg; try done; injection Hg as <-;
    unfold wf_group; cbn [grp_data]; ((rewrite decide_True by done) || (rewrite decide_False by done)).
  1,2: split_and!; [done|done|apply (bool_decide_unpack _); by vm_compute..].
  all: eexists 1%nat, _; split_and!; [done|lia|done|done|]; split_and!; try done;
    try (apply (bool_decide_unpack _); by vm_compute).
Qed.

Lemma example_inv : group_inv 10 example_groups.
Proof.
  split; [apply example_groups_wf|]. intros [|[|[|[|[|g]]]]] grp Hg; cbn in Hg; try done; by injection Hg as <-.
Qed.

(** Ranks of the strided group (10, 12, 14) in the sporadic one (14, 15, 10),
    and in the parent. *)
Lemma translate_ranks_witness :
  ompi_group_translate_ranks example_groups 2 [0; 1; 2; MPI_PROC_NULL] 4 = Some [2; MPI_UNDEFINED; 0; MPI_PROC_NULL] ∧
  ompi_group_translate_ranks example_groups 4 [0; 1; 2] 1 = Some [4; 5; 0].
Proof.
  split.
  - apply (translate_ranks_spec 10 example_groups 2 _ 4 _ [0; 1; 2; MPI_PROC_NULL] example_groups_wf eq_refl eq_refl);
      [done|done|]. apply (bool_decide_unpack _). by vm_compute.
  - apply (translate_ranks_spec 10 example_groups 4 _ 1 _ [0; 1; 2] example_groups_wf eq_refl eq_refl);
      [done|done|]. apply (bool_decide_unpack _). by vm_compute.
Defined.

End GroupSpec.
