(* ===== verification/GroupStore.v ===== *)
(** * The store of MPI groups

    How the store changes: reference counts and stored ranks do not change
    what a group means ([same_body], with [Proper] instances for the reads and
    the invariant), a new object does not change the older ones, and the
    counting of process references is total on a readable group. *)

From stdpp Require Import base numbers list gmap.
From S2P Require Import Prelude OpalBitmap Group GroupOps GroupSpec.
Import Group GroupOps GroupSpec.

Local Open Scope Z_scope.
Local Open Scope c_scope.

Module GroupStore.

(** ** Stores that differ in ranks and reference counts only *)

Definition body (grp : ompi_group_t) : Z * list ompi_proc_ptr * option nat * sparse_data :=
  (grp_proc_count grp, grp_proc_pointers grp, grp_parent_group_ptr grp, grp_data grp).

Record same_body (gs gs' : list ompi_group_t) : Prop := mk_same_body { same_body_map : body <$> gs = body <$> gs' }.

#[global] Instance same_body_equivalence : Equivalence same_body.
Proof. split; [by intros ?|by intros ?? [H]|intros x y z [Hxy] [Hyz]]; split; congruence. Qed.

Lemma same_body_lookup gs gs' g grp :
  same_body gs gs' → gs !! g = Some grp → ∃ grp', gs' !! g = Some grp' ∧ body grp' = body grp.
Proof.
  intros H Hg. assert ((body <$> gs') !! g = Some (body grp)) as E
    by (by rewrite <- (same_body_map _ _ H), list_lookup_fmap, Hg).
  rewrite list_lookup_fmap in E. destruct (gs' !! g) as [grp'|]; [|done]. exists grp'. split; [done|]. by apply (inj Some).
Qed.

Lemma same_body_None gs gs' g : same_body gs gs' → gs !! g = None → gs' !! g = None.
Proof.
  intros H Hg. destruct (gs' !! g) as [grp'|] eqn:E; [|done].
  destruct (same_body_lookup gs' gs g grp') as (grp & ? & _); [by symmetry|done|congruence].
Qed.

#[global] Instance pointers_proper : Proper (same_body ==> eq ==> eq) pointers.
Proof.
  intros gs gs' H g ? <-. unfold pointers. generalize (S g). intros f. revert g.
  induction f as [|f IH]; intros g; [done|]. cbn [pointers_f].
  destruct (gs !! g) as [grp|] eqn:Hg; [|by rewrite (same_body_None gs gs')].
  destruct (same_body_lookup gs gs' g grp H Hg) as (grp' & -> & E). injection E as E1 E2 E3 E4.
  rewrite E1, E2, E3, E4. destruct (grp_data grp), (grp_parent_group_ptr grp); by rewrite <- ?IH.
Qed.

#[global] Instance members_proper : Proper (same_body ==> eq ==> eq) members.
Proof. intros gs gs' H g ? <-. unfold members. by rewrite H. Qed.

#[global] Instance raw_proper : Proper (same_body ==> eq ==> eq ==> eq) ompi_group_get_proc_ptr_raw.
Proof.
  intros gs gs' H g ? <- rank ? <-. unfold ompi_group_get_proc_ptr_raw. generalize (S g). intros f. revert g rank.
  induction f as [|f IH]; intros g rank; [done|]. cbn [proc_ptr_raw].
  destruct (gs !! g) as [grp|] eqn:Hg; [|by rewrite (same_body_None gs gs')].
  destruct (same_body_lookup gs gs' g grp H Hg) as (grp' & -> & E). injection E as E1 E2 E3 E4.
  run. rewrite E2, E3, E4. destruct (grp_data grp), (grp_parent_group_ptr grp) as [p|]; try done; run;
    by destruct (to_parent _ _ _ rank); run; rewrite <- ?IH.
Qed.

#[global] Instance wf_store_proper local : Proper (same_body ==> iff) (wf_store local).
Proof.
  assert (∀ gs gs', same_body gs gs' → wf_store local gs → wf_store local gs') as Himp.
  { intros gs gs' H [(e & He & Hd & Hp) Hall]. split.
    - destruct (same_body_lookup gs gs' _ e H He) as (e' & He' & E). injection E as _ E2 _ E4.
      exists e'. by rewrite E2, E4.
    - intros g grp' Hg'. destruct (same_body_lookup gs' gs g grp') as (grp & Hg & E); [by symmetry|done|].
      specialize (Hall g grp Hg). injection E as E1 E2 E3 E4. unfold wf_group in *.
      rewrite E1, E2, E3, E4 in Hall. case_decide; [done|].
      destruct Hall as (p & pgrp & Hpar & Hlt & Hne & Hpg & Hwd).
      destruct (same_body_lookup gs gs' p pgrp H Hpg) as (pgrp' & Hpg' & E'). injection E' as E1' _ _ _.
      exists p, pgrp'. by rewrite E1'. }
  intros gs gs' H. split; apply Himp; [done|by symmetry].
Qed.

(** Overwriting an object by one with the same body. *)
Lemma same_body_insert gs g grp grp' :
  gs !! g = Some grp → body grp' = body grp → same_body (<[g := grp']> gs) gs.
Proof.
  intros Hg E. split. rewrite list_fmap_insert, E. apply list_insert_id. by rewrite list_lookup_fmap, Hg.
Qed.

(** ** New objects *)

Section store.
Context (local : Z).

Lemma wf_parent gs g grp p :
wf_store local gs → gs !! g = Some grp → grp_parent_group_ptr grp = Some p → (p < g)%nat.
Proof.
intros [_ Hall] Hg Hp. specialize (Hall g grp Hg). unfold wf_group in Hall.
case_decide; [by destruct Hall as [? _]; simplify_eq|].
destruct Hall as (p' & ? & ? & ? & _). by simplify_eq.
Qed.

Lemma pointers_app gs l g :
wf_store local gs → (g < length gs)%nat → pointers (gs ++ l) g = pointers gs g.
Proof.
intros Hwf. unfold pointers. generalize (S g). intros f. revert g.
induction f as [|f IH]; intros g Hg; [done|]. cbn [pointers_f]. rewrite lookup_app_l by done.
destruct (gs !! g) as [grp|] eqn:E; [|done].
destruct (grp_data grp), (grp_parent_group_ptr grp) as [p|] eqn:Hp; try done;
  (rewrite IH; [done|]; pose proof (wf_parent gs g grp p Hwf E Hp); lia).
Qed.

Lemma members_app gs l g :
wf_store local gs → (g < length gs)%nat → members (gs ++ l) g = members gs g.
Proof. intros. unfold members. by rewrite pointers_app. Qed.

Lemma raw_app gs l g rank :
wf_store local gs → (g < length gs)%nat →
ompi_group_get_proc_ptr_raw (gs ++ l) g rank = ompi_group_get_proc_ptr_raw gs g rank.
Proof.
intros Hwf. unfold ompi_group_get_proc_ptr_raw. generalize (S g). intros f. revert g rank.
induction f as [|f IH]; intros g rank Hg; [done|]. cbn [proc_ptr_raw]. rewrite lookup_app_l by done.
destruct (gs !! g) as [grp|] eqn:E; [|done]. run.
destruct (grp_data grp), (grp_parent_group_ptr grp) as [p|] eqn:Hp; try done; run;
  (destruct (to_parent _ _ _ rank); [|done]; run; apply IH;
   pose proof (wf_parent gs g grp p Hwf E Hp); lia).
Qed.

Lemma wf_store_app gs grp :
wf_store local gs → wf_group local (gs ++ [grp]) (length gs) grp → wf_store local (gs ++ [grp]).
Proof.
intros [(e & He & Hd & Hp) Hall] Hgrp. split.
{ exists e. by rewrite (lookup_app_l_Some _ _ _ _ He). }
intros g grp' Hg. destruct (decide (g < length gs)%nat) as [Hlt|Hge].
- clear Hgrp. rewrite lookup_app_l in Hg by done. specialize (Hall g grp' Hg). unfold wf_group in *.
  case_decide; [done|]. destruct Hall as (p & pgrp & ? & ? & ? & Hpg & ?).
  exists p, pgrp. by rewrite (lookup_app_l_Some _ _ _ _ Hpg).
- rewrite lookup_app_r in Hg by lia. destruct (g - length gs)%nat eqn:E; [|done].
  injection Hg as <-. by assert (g = length gs) as -> by lia.
Qed.

(** ** Counting references *)

(** The pointers of a group can be read, and are [ptrs]. *)
Definition reads (gs : list ompi_group_t) (g : nat) (ptrs : list ompi_proc_ptr) : Prop :=
proc_count gs g = Some (Z.of_nat (length ptrs)) ∧
∀ rank, 0 ≤ rank < Z.of_nat (length ptrs) → ompi_group_get_proc_ptr_raw gs g rank = ptrs !! Z.to_nat rank.

Definition add_proc (delta : Z) (refs : gmap Z Z) (p : ompi_proc_ptr) : gmap Z Z :=
match p with ProcReal name => <[name := default 0 (refs !! name) + delta]> refs | _ => refs end.

Lemma reads_wf gs g grp : wf_store local gs → gs !! g = Some grp → reads gs g (pointers gs g).
Proof.
intros Hwf Hg. destruct (store_facts local gs g grp Hwf Hg) as [Hlen _ Hraw _ _ _]. split.
- unfold proc_count. rewrite Hg. cbn. by rewrite Hlen.
- intros rank Hr. apply Hraw; lia.
Qed.

Lemma reads_dense gs g grp :
gs !! g = Some grp → grp_data grp = Dense →
grp_proc_count grp = Z.of_nat (length (grp_proc_pointers grp)) → reads gs g (grp_proc_pointers grp).
Proof.
intros Hg Hd Hc. split; [unfold proc_count; rewrite Hg; cbn; by rewrite Hc|]. intros rank Hr.
unfold ompi_group_get_proc_ptr_raw. cbn [proc_ptr_raw]. rewrite Hg. run. rewrite Hd.
by rewrite (proj2 (Z.leb_le _ _)) by lia.
Qed.

Lemma count_procs_spec gs g ptrs delta refs :
reads gs g ptrs →
count_procs gs g delta (length ptrs) 0 refs = Some (foldl (add_proc delta) refs ptrs).
Proof.
intros [_ Hraw].
assert (∀ n k refs, (k + n = length ptrs)%nat →
  count_procs gs g delta n (Z.of_nat k) refs = Some (foldl (add_proc delta) refs (drop k ptrs))) as H.
{ clear refs. induction n as [|n IH]; intros k refs Hk; cbn [count_procs].
  - by rewrite drop_ge by lia.
  - destruct (lookup_lt_is_Some_2 ptrs k) as [p Hp]; [lia|].
    unfold ompi_group_peer_lookup_existing. rewrite Hraw, Nat2Z.id, Hp by lia. run.
    rewrite (drop_S _ _ _ Hp). cbn [foldl].
    replace (Z.of_nat k + 1) with (Z.of_nat (S k)) by lia. rewrite IH by lia. by destruct p. }
specialize (H (length ptrs) O refs eq_refl). by rewrite drop_0 in H.
Qed.

Lemma change_proc_count_spec delta st g ptrs :
reads (groups st) g ptrs →
change_proc_count delta st g = Some (mk_gstate (groups st) (foldl (add_proc delta) (proc_refs st) ptrs)).
Proof.
intros H. unfold change_proc_count. destruct H as [Hc Hr]. rewrite Hc. run.
rewrite Nat2Z.id, (count_procs_spec _ _ ptrs) by done. done.
Qed.

End store.

End GroupStore.
