(* ===== verification/GroupOpsSpec.v ===== *)
(** * Correctness of the operations that make MPI groups

    Every operation is specified by the members of the group it makes,
    whatever storage format is chosen: [makes st m r] says that the result [r]
    is a group with the members [m] in a store that still satisfies the
    invariant and in which every older group has the members it had. *)

From stdpp Require Import base numbers list gmap sorting.
From S2P Require Import Prelude OpalBitmap Group GroupOps GroupSpec GroupStore.
Import Group GroupOps GroupSpec GroupStore.

Local Open Scope Z_scope.
Local Open Scope c_scope.

Module GroupOpsSpec.

(** Valid arguments of an inclusion. *)
Definition ranks_valid (n : Z) (ranks : list Z) : Prop := NoDup ranks ∧ Forall (λ r, 0 ≤ r < n) ranks.

(** ** The formats hold the ranks they are made from *)

Lemma same_stride_spec s a l :
  same_stride s (a :: l) = true → a :: l = (λ i, a + s * i) <$> seqZ 0 (Z.of_nat (length (a :: l))).
Proof.
  revert a. induction l as [|b l IH]; intros a H.
  { change (seqZ 0 _) with [0]. cbn [fmap list_fmap]. f_equal. lia. }
  cbn [same_stride] in H. apply andb_true_iff in H as [Hs H]. apply Z.eqb_eq in Hs.
  cbn [length] in *. rewrite seqZ_cons, fmap_cons by lia. f_equal; [lia|].
  rewrite (IH b H). replace (Z.pred (Z.of_nat (S (S (length l))))) with (Z.of_nat (S (length l))) by lia.
  change (Z.succ 0) with (1 + 0). rewrite <- (fmap_add_seqZ 1 0), <- list_fmap_compose.
  apply list_fmap_ext. intros _ i _. unfold compose. lia.
Qed.

Lemma check_stride_spec ranks n :
  ranks ≠ [] → ranks_valid n ranks → check_stride ranks ≠ -1 →
  ∃ first lst, head ranks = Some first ∧ last ranks = Some lst ∧
    expand (Strided first (check_stride ranks) lst) (Z.of_nat (length ranks)) = ranks ∧
    wf_data (Strided first (check_stride ranks) lst) (Z.of_nat (length ranks)) n.
Proof.
  intros Hne [Hnd Hall] Hc. destruct ranks as [|a l]; [done|]. unfold check_stride in *.
  set (s := match a :: l with a :: b :: _ => b - a | _ => 1 end) in *.
  destruct (Z.ltb_spec s 0); [done|]. destruct (same_stride s (a :: l)) eqn:E; [|done].
  apply same_stride_spec in E. assert (0 < s) as Hpos.
  { destruct l as [|b l]; [done|]. enough (s ≠ 0) by lia. intros Hs. apply NoDup_cons in Hnd as [Hnin _].
    apply Hnin. assert (a = b) as -> by (unfold s in Hs; lia). by left. }
  exists a, (a + s * (Z.of_nat (length (a :: l)) - 1)). split; [done|].
  unfold wf_data. cbn [expand]. rewrite <- E. split_and!; try done; try (cbn [length]; lia).
  rewrite last_lookup, E, list_lookup_fmap, length_fmap, length_seqZ, Nat2Z.id.
  rewrite lookup_seqZ_lt by (cbn [length]; lia). cbn. f_equal. lia.
Qed.

Lemma build_runs_spec first len ranks :
  0 < len → build_runs first len (first + len - 1) ranks ≫= (λ r, seqZ (fst r) (snd r)) = seqZ first len ++ ranks.
Proof.
  revert first len. induction ranks as [|r ranks IH]; intros first len Hl; cbn [build_runs].
  { cbn. by rewrite app_nil_r. }
  destruct (Z.eqb_spec r (first + len - 1 + 1)) as [E|E].
  - replace r with (first + (len + 1) - 1) at 1 by lia. rewrite IH by lia.
    rewrite seqZ_app by lia. rewrite <- (assoc (++)). change (seqZ (first + len) 1) with [0 + (first + len)].
    rewrite Z.add_0_l. by replace (first + len) with r by lia.
  - cbn [mbind list_bind fst snd]. f_equal. replace r with (r + 1 - 1) at 2 by lia. rewrite IH by lia. done.
Qed.

Lemma build_runs_positive first len prev ranks :
  0 < len → Forall (λ r, 0 < snd r) (build_runs first len prev ranks).
Proof.
  revert first len prev. induction ranks as [|r ranks IH]; intros first len prev Hl; cbn [build_runs]; [by constructor|].
  case_match; [apply IH; lia|]. constructor; [done|]. apply IH. lia.
Qed.

Lemma build_runs_length first len prev ranks l n :
  0 < l → 0 ≤ prev < n → Forall (λ r, 0 ≤ r < n) ranks → n ≤ INT_MAX →
  count_runs (Some prev) l ranks = Some (l - 1 + Z.of_nat (length (build_runs first len prev ranks))).
Proof.
  intros Hl Hp Hall Hn. revert first len prev l Hl Hp. induction Hall as [|r ranks Hr Hall IH]; intros first len prev l Hl Hp;
    cbn [count_runs build_runs length]; [f_equal; lia|].
  run. rewrite cint_Some by (unfold INT_MIN; lia). run. rewrite (proj2 (Z.eqb_neq l 0)) by lia.
  destruct (r =? prev + 1); [by apply IH|]. cbn [length]. rewrite (IH r 1) by lia. f_equal. lia.
Qed.

Lemma sum_lengths_spec l :
  Forall (λ r, 0 < snd r) l → sum_lengths l = Z.of_nat (length (l ≫= λ r, seqZ (fst r) (snd r))).
Proof.
  unfold sum_lengths. assert (∀ n, Forall (λ r : Z * Z, 0 < snd r) l →
    foldl (λ n r, n + snd r) n l = n + Z.of_nat (length (l ≫= λ r, seqZ (fst r) (snd r)))) as H; [|apply H].
  induction l as [|r l IH]; intros n Hl; [cbn; lia|]. inversion Hl; subst.
  cbn [foldl mbind list_bind]. rewrite IH by done. rewrite length_app, length_seqZ. lia.
Qed.

Lemma array_bits_insert a r byte m :
  0 ≤ r → 0 ≤ m → a !! Z.to_nat (r / 8) = Some byte →
  array_bits (<[Z.to_nat (r / 8) := wrap 8 (Z.lor byte (Z.shiftl 1 (r `mod` 8)))]> a) !! Z.to_nat m = Some true ↔
    array_bits a !! Z.to_nat m = Some true ∨ m = r.
Proof.
  intros Hr Hm Hb. rewrite !array_bits_lookup by done.
  pose proof (Z.div_mod r 8 ltac:(lia)). pose proof (Z.div_mod m 8 ltac:(lia)).
  pose proof (Z.mod_pos_bound r 8 ltac:(lia)). pose proof (Z.mod_pos_bound m 8 ltac:(lia)).
  destruct (decide (m / 8 = r / 8)) as [E|E].
  - rewrite E, list_lookup_insert_eq by (by eapply lookup_lt_Some). rewrite Hb. cbn.
    unfold wrap. rewrite Z.mod_pow2_bits_low, Z.lor_spec, Z.shiftl_1_l, Z.pow2_bits_eqb by lia.
    destruct (Z.testbit byte (m `mod` 8)); [split; [by left|done]|]. cbn.
    destruct (Z.eqb_spec (r `mod` 8) (m `mod` 8)); split; try done; [right; lia|].
    intros [?|?]; [done|]. subst m. lia.
  - rewrite list_lookup_insert_ne by (pose proof (Z.div_pos r 8); pose proof (Z.div_pos m 8); lia).
    split; [by left|]. intros [?| ->]; [done|lia].
Qed.

Lemma set_bits_spec a ranks :
  Forall (λ r, 0 ≤ r < 8 * Z.of_nat (length a)) ranks →
  ∃ a', set_bits a ranks = Some a' ∧ length a' = length a ∧
    ∀ m, 0 ≤ m → array_bits a' !! Z.to_nat m = Some true ↔ array_bits a !! Z.to_nat m = Some true ∨ m ∈ ranks.
Proof.
  revert a. induction ranks as [|r ranks IH]; intros a Hall.
  { exists a. split_and!; [done..|]. intros m _. rewrite elem_of_nil. tauto. }
  inversion Hall as [|? ? Hr Hall']; subst. cbn [set_bits]. unfold BSIZE.
  rewrite (proj2 (Z.leb_le _ _)), Z.quot_div_nonneg, Z.rem_mod_nonneg by lia.
  assert (r / 8 < Z.of_nat (length a)) by (apply Z.div_lt_upper_bound; lia).
  assert (0 ≤ r / 8) by (apply Z.div_pos; lia).
  destruct (lookup_lt_is_Some_2 a (Z.to_nat (r / 8))) as [byte Hb]; [lia|]. rewrite Hb. run.
  destruct (IH (<[Z.to_nat (r / 8) := wrap 8 (Z.lor byte (Z.shiftl 1 (r `mod` 8)))]> a)) as (a' & Ha' & Hl & Hbits);
    [by rewrite length_insert|].
  exists a'. split; [done|]. rewrite length_insert in Hl. split; [done|]. intros m Hm.
  rewrite Hbits, array_bits_insert, elem_of_cons by (done || lia). tauto.
Qed.

Lemma positions_sorted p bits : StronglySorted Z.le (positions p bits).
Proof.
  revert p. induction bits as [|b bits IH]; intros p; cbn [positions]; [constructor|].
  destruct b; [|done]. constructor; [done|]. apply Forall_forall. intros x Hx. apply positions_ge in Hx. lia.
Qed.

Lemma check_ranks_sorted ranks : check_ranks ranks = true → StronglySorted Z.le ranks.
Proof.
  intros Hc. apply Sorted_StronglySorted; [intros ???; lia|].
  induction ranks as [|a [|b l] IH]; [by constructor|by repeat constructor|].
  cbn [check_ranks] in Hc. apply andb_true_iff in Hc as [Hab Hc].
  constructor; [by apply IH|]. constructor. by apply negb_true_iff, Z.ltb_ge in Hab.
Qed.

Lemma div_ceil_spec n : 0 ≤ n → n ≤ 8 * ompi_group_div_ceil n BSIZE ∧ 0 ≤ ompi_group_div_ceil n BSIZE.
Proof.
  intros Hn. unfold ompi_group_div_ceil, BSIZE. rewrite Z.rem_mod_nonneg, Z.quot_div_nonneg by lia.
  pose proof (Z.div_mod n 8 ltac:(lia)). pose proof (Z.mod_pos_bound n 8 ltac:(lia)).
  pose proof (Z.div_pos n 8 ltac:(lia)). destruct (Z.eqb_spec (n `mod` 8) 0); lia.
Qed.

Lemma bitmap_format_spec n ranks :
  0 ≤ n → ranks_valid n ranks → check_ranks ranks = true →
  ∃ a, set_bits (replicate (Z.to_nat (ompi_group_div_ceil n BSIZE)) 0) ranks = Some a ∧
    expand (Bitmap a) (Z.of_nat (length ranks)) = ranks ∧ wf_data (Bitmap a) (Z.of_nat (length ranks)) n.
Proof.
  intros Hn [Hnd Hall] Hc. destruct (div_ceil_spec n Hn) as [Hd Hd0].
  set (zeros := replicate (Z.to_nat (ompi_group_div_ceil n BSIZE)) 0).
  assert (Z.of_nat (length zeros) = ompi_group_div_ceil n BSIZE) as El
    by (unfold zeros; rewrite length_replicate; lia).
  destruct (set_bits_spec zeros ranks) as (a & Ha & Hl & Hbits).
  { eapply Forall_impl; [exact Hall|]. intros r Hr. cbn in Hr. lia. }
  assert (positions 0 (array_bits a) = ranks) as E.
  { apply (StronglySorted_unique Z.le); [apply positions_sorted|by apply check_ranks_sorted|].
    apply NoDup_Permutation; [apply positions_NoDup|done|]. intros x.
    destruct (decide (0 ≤ x)) as [Hx|Hx].
    - rewrite elem_of_positions, Z.sub_0_r, Hbits by lia. split; [intros [H|]; [|done]|by right].
      rewrite array_bits_lookup in H by done. destruct (zeros !! Z.to_nat (x / 8)) as [b|] eqn:Eb; [|done].
      apply lookup_replicate in Eb as [-> _]. cbn in H. by rewrite Z.bits_0 in H.
    - split; intros H; [apply positions_ge in H; lia|]. rewrite Forall_forall in Hall.
      specialize (Hall x H). cbn in Hall. lia. }
  exists a. unfold wf_data. cbn [expand]. rewrite E. split_and!; try done. lia.
Qed.

(** A word that can be read and has a successor. *)
Definition readable (before : option Z) : Prop := ∃ w, before = Some w ∧ INT_MIN ≤ w < INT_MAX.

Lemma runs_format_spec before r0 ranks n :
  ranks_valid n (r0 :: ranks) → n ≤ INT_MAX → readable before →
  let runs := build_runs r0 1 r0 ranks in
  count_runs before 0 (r0 :: ranks) = Some (Z.of_nat (length runs)) ∧ sum_lengths runs = Z.of_nat (length (r0 :: ranks)) ∧
  expand (Sporadic runs) (sum_lengths runs) = r0 :: ranks ∧ wf_data (Sporadic runs) (sum_lengths runs) n.
Proof.
  intros [Hnd Hall] Hn (w & -> & Hw) runs. assert (Forall (λ r, 0 < snd r) runs) as Hpos by by apply build_runs_positive.
  assert (expand (Sporadic runs) (sum_lengths runs) = r0 :: ranks) as E.
  { unfold runs. cbn [expand]. replace r0 with (r0 + 1 - 1) at 2 by lia. rewrite build_runs_spec by lia.
    change (seqZ r0 1) with [0 + r0]. by rewrite Z.add_0_l. }
  assert (sum_lengths runs = Z.of_nat (length (r0 :: ranks))) as Es
    by (rewrite sum_lengths_spec by done; by rewrite <- E).
  split; [|split; [done|split; [done|]]].
  - cbn [count_runs]. run. rewrite cint_Some by lia. run.
    replace (if r0 =? w + 1 then _ else 0 + 1) with 1 by (by destruct (r0 =? w + 1)). inversion_clear Hall.
    rewrite (build_runs_length r0 1 _ _ _ n) by (done || lia). done.
  - unfold wf_data. rewrite E. split_and!; try done.
Qed.

(** The method chosen is the dense one or one whose size is known. *)
Lemma minloc_loop_usable min index i l :
  minloc_loop min index i l = index ∨
  ∃ k x, l !! k = Some x ∧ x ≠ -1 ∧ minloc_loop min index i l = i + Z.of_nat k.
Proof.
  revert min index i. induction l as [|x l IH]; intros min index i; [by left|]. cbn [minloc_loop].
  destruct ((x <? min) && negb (x =? -1)) eqn:E.
  - right. destruct (IH x i (i + 1)) as [->|(k & y & Hk & Hy & ->)].
    + exists O, x. split; [done|]. split; lia.
    + exists (S k), y. split; [done|]. split; [done|lia].
  - destruct (IH min index (i + 1)) as [->|(k & y & Hk & Hy & ->)]; [by left|right].
    exists (S k), y. split; [done|]. split; [done|lia].
Qed.

Lemma minloc_usable a b c d :
  ∃ i, ompi_group_minloc [a; b; c; d] = Some i ∧
    (i = 0 ∨ (i = 1 ∧ b ≠ -1) ∨ (i = 2 ∧ c ≠ -1) ∨ (i = 3 ∧ d ≠ -1)).
Proof.
  eexists. split; [done|]. destruct (minloc_loop_usable a 0 0 [a; b; c; d]) as [->|(k & x & Hk & Hx & ->)]; [by left|].
  destruct k as [|[|[|[|k]]]]; cbn in Hk; simplify_eq; lia.
Qed.

Section specs.
Context (local : Z).   (* the name of the calling process *)

(** ** Results *)

Definition makes (st : gstate) (m : list Z) (r : group_result) : Prop :=
∃ new st', r = Some (OMPI_SUCCESS, Some new, st') ∧ group_inv local (groups st') ∧
  is_Some (groups st' !! new) ∧ members (groups st') new = m ∧
  ∀ h, (h < length (groups st))%nat → members (groups st') h = members (groups st) h.

(** Stores that differ in the reference counts of groups only. *)
Definition same_shape (gs gs' : list ompi_group_t) : Prop :=
same_body gs gs' ∧ grp_my_rank <$> gs = grp_my_rank <$> gs'.

Lemma same_shape_inv gs gs' : same_shape gs gs' → group_inv local gs → group_inv local gs'.
Proof.
intros [Hb Hr] [Hwf Hrk]. split; [by rewrite <- Hb|]. intros g grp' Hg'.
destruct (same_body_lookup gs' gs g grp') as (grp & Hg & _); [by symmetry|done|].
rewrite <- Hb. rewrite <- (Hrk g grp Hg). apply (inj Some).
transitivity ((grp_my_rank <$> gs') !! g); [by rewrite list_lookup_fmap, Hg'|].
by rewrite <- Hr, list_lookup_fmap, Hg.
Qed.

Lemma same_shape_retain gs g grp n :
gs !! g = Some grp → same_shape gs (<[g := with_refs grp n]> gs).
Proof.
intros Hg. split; [symmetry; by eapply same_body_insert|].
rewrite list_fmap_insert. symmetry. apply list_insert_id. by rewrite list_lookup_fmap, Hg.
Qed.

Lemma makes_app st gs' grp refs :
group_inv local (groups st) → same_shape (groups st) gs' →
wf_group local (gs' ++ [grp]) (length gs') grp →
grp_my_rank grp = rank_in local (members (gs' ++ [grp]) (length gs')) →
makes st (members (gs' ++ [grp]) (length gs'))
  (Some (OMPI_SUCCESS, Some (length (groups st)), mk_gstate (gs' ++ [grp]) refs)).
Proof.
intros Hinv Hs Hgrp Hrank. assert (length gs' = length (groups st)) as El.
{ destruct Hs as [[Hb] _]. apply (f_equal length) in Hb. by rewrite !length_fmap in Hb. }
destruct (same_shape_inv _ _ Hs Hinv) as [Hwf Hrk].
exists (length (groups st)), (mk_gstate (gs' ++ [grp]) refs). cbn [groups]. rewrite <- El.
split; [done|]. split; [split|split; [|split]].
- by apply wf_store_app.
- intros g grp' Hg. destruct (decide (g < length gs')%nat) as [Hlt|Hge].
  + rewrite lookup_app_l in Hg by done. rewrite (members_app local) by done. by apply Hrk.
  + rewrite lookup_app_r in Hg by lia. destruct (g - length gs')%nat eqn:E; [|done].
    injection Hg as <-. by assert (g = length gs') as -> by lia.
- rewrite lookup_app_r, Nat.sub_diag by lia. by eexists.
- done.
- intros h Hh. rewrite (members_app local) by done. destruct Hs as [Hb _]. by rewrite Hb.
Qed.

Lemma empty_members gs : wf_store local gs → members gs MPI_GROUP_EMPTY = [].
Proof.
intros [(e & He & Hd & Hp) _]. unfold members, pointers. cbn [pointers_f]. by rewrite He, Hd, Hp.
Qed.

Lemma makes_empty st : group_inv local (groups st) → makes st [] (return_empty st).
Proof.
intros Hinv. pose proof Hinv as [Hwf _]. pose proof Hwf as [(e & He & _) _].
pose proof (same_shape_retain _ _ _ (grp_refs e + 1) He) as Hs.
unfold return_empty, group_retain. rewrite He. run.
eexists _, _. split; [done|]. cbn [groups set_group].
assert (∀ h, members (<[MPI_GROUP_EMPTY:=with_refs e (grp_refs e + 1)]> (groups st)) h = members (groups st) h) as Hm
  by (intros h; destruct Hs as [Hb _]; by rewrite <- Hb).
split; [by eapply same_shape_inv|]. split; [|split; [by rewrite Hm, empty_members|done]].
rewrite list_lookup_insert_eq by (by eapply lookup_lt_Some). by eexists.
Qed.

(** ** Dense groups *)

Definition dense_group (rank : Z) (ptrs : list ompi_proc_ptr) : ompi_group_t :=
mk_group (Z.of_nat (length ptrs)) rank ptrs None Dense 1.

Lemma last_object {A} (l : list A) x : (l ++ [x]) !! length l = Some x.
Proof. by rewrite lookup_app_r, Nat.sub_diag by lia. Qed.

Lemma set_last gs grp grp' refs :
set_group (mk_gstate (gs ++ [grp]) refs) (length gs) grp' = mk_gstate (gs ++ [grp']) refs.
Proof. unfold set_group. cbn [groups proc_refs]. by rewrite insert_app_r_alt, Nat.sub_diag by lia. Qed.

Lemma change_dense delta gs rank ptrs refs :
change_proc_count delta (mk_gstate (gs ++ [dense_group rank ptrs]) refs) (length gs) =
  Some (mk_gstate (gs ++ [dense_group rank ptrs]) (foldl (add_proc delta) refs ptrs)).
Proof.
apply (change_proc_count_spec delta (mk_gstate _ refs)). cbn [groups].
apply (reads_dense _ _ (dense_group rank ptrs)); [apply last_object|done..].
Qed.

Lemma allocate_spec st n :
ompi_group_allocate true st (Z.of_nat n) =
  Some (Some (length (groups st)),
        mk_gstate (groups st ++ [dense_group MPI_UNDEFINED (replicate n ProcNull)]) (proc_refs st)).
Proof.
unfold ompi_group_allocate, ompi_group_allocate_plist_w_procs, ompi_group_increment_proc_count.
rewrite Nat2Z.id. cbn [negb]. fold (dense_group MPI_UNDEFINED (replicate n ProcNull)).
rewrite change_dense. run. do 3 f_equal. by induction n.
Qed.

Lemma fill_spec gs rank ptrs refs :
fill_pointers (mk_gstate (gs ++ [dense_group rank (replicate (length ptrs) ProcNull)]) refs) (length gs) ptrs =
  Some (mk_gstate (gs ++ [dense_group rank ptrs]) refs).
Proof.
unfold fill_pointers. cbn [groups]. rewrite last_object. run. cbn [dense_group grp_proc_pointers grp_proc_count].
rewrite !length_replicate, (proj2 (Z.leb_le _ _)) by lia. rewrite set_last.
rewrite drop_ge, app_nil_r by (by rewrite length_replicate). done.
Qed.

(** The pointers a dense group may hold. *)
Definition ptrs_ok (ptrs : list ompi_proc_ptr) : Prop :=
NoDup (name_of <$> ptrs) ∧ (ProcNull ∉ ptrs) ∧ (ProcSentinel local ∉ ptrs).

Lemma find_ptr_spec gs g ptrs :
reads gs g ptrs → ptrs_ok ptrs →
find_ptr gs g (ProcReal local) (length ptrs) 0 = Some (rank_in local (name_of <$> ptrs)).
Proof.
intros [_ Hraw] (_ & Hnull & Hloc).
assert (∀ n k, (k + n = length ptrs)%nat →
  find_ptr gs g (ProcReal local) n (Z.of_nat k) = Some (pos_of local (name_of <$> drop k ptrs) (Z.of_nat k))) as H.
{ induction n as [|n IH]; intros k Hk; cbn [find_ptr].
  - by rewrite drop_ge by lia.
  - destruct (lookup_lt_is_Some_2 ptrs k) as [p Hp]; [lia|].
    unfold ompi_group_peer_lookup_existing. rewrite Hraw, Nat2Z.id, Hp by lia. run.
    rewrite (drop_S _ _ _ Hp), fmap_cons. cbn [pos_of]. apply list_elem_of_lookup_2 in Hp.
    replace (Z.of_nat k + 1) with (Z.of_nat (S k)) by lia. rewrite IH by lia.
    destruct p as [|m|m]; [done| |]; cbn [name_of]; destruct (Z.eqb_spec local m) as [<-|Hne]; try done.
    + by rewrite bool_decide_true.
    + rewrite bool_decide_false; [done|]. congruence. }
apply (H (length ptrs) O eq_refl).
Qed.

Lemma set_rank_spec gs rank ptrs refs (member : bool) :
ptrs_ok ptrs → (member = false → local ∉ name_of <$> ptrs) →
set_rank_if (ProcReal local) (mk_gstate (gs ++ [dense_group rank ptrs]) refs) (length gs) member =
  Some (mk_gstate (gs ++ [dense_group (rank_in local (name_of <$> ptrs)) ptrs]) refs).
Proof.
intros Hok Hm. unfold set_rank_if, ompi_set_group_rank. cbn [groups]. rewrite last_object. run.
destruct member.
- change (grp_proc_count (dense_group rank ptrs)) with (Z.of_nat (length ptrs)).
  rewrite Nat2Z.id, (find_ptr_spec _ _ ptrs); [|..|done].
  + run. by rewrite set_last.
  + apply (reads_dense _ _ (dense_group rank ptrs)); [apply last_object|done..].
- rewrite set_last. unfold rank_in. by rewrite pos_of_not_in by (by apply Hm).
Qed.

Lemma dense_pointers gs rank ptrs : pointers (gs ++ [dense_group rank ptrs]) (length gs) = ptrs.
Proof. unfold pointers. cbn [pointers_f]. by rewrite last_object. Qed.

(** Allocating a dense group, storing its pointers, counting them and setting
  the rank. *)
Lemma makes_dense st ptrs refs :
group_inv local (groups st) → ptrs_ok ptrs →
makes st (name_of <$> ptrs)
  (Some (OMPI_SUCCESS, Some (length (groups st)),
         mk_gstate (groups st ++ [dense_group (rank_in local (name_of <$> ptrs)) ptrs]) refs)).
Proof.
intros Hinv Hok.
set (grp := dense_group (rank_in local (name_of <$> ptrs)) ptrs).
assert (members (groups st ++ [grp]) (length (groups st)) = name_of <$> ptrs) as Em
  by (unfold members, grp; by rewrite dense_pointers).
rewrite <- Em. apply makes_app; [done|by split| |by rewrite Em].
unfold wf_group. rewrite decide_True by done. destruct Hok as (? & ? & ?). done.
Qed.

(** The processes of the given ranks. *)
Definition select (m ranks : list Z) : list Z := (λ r, m !!! Z.to_nat r) <$> ranks.

Lemma select_pointers gs g grp ranks :
wf_store local gs → gs !! g = Some grp → ranks_valid (grp_proc_count grp) ranks →
∃ ptrs, omap (λ r, pointers gs g !! Z.to_nat r) ranks = ptrs ∧ length ptrs = length ranks ∧
  mapM (λ r, pointers gs g !! Z.to_nat r) ranks = Some ptrs ∧
  ptrs_ok ptrs ∧ name_of <$> ptrs = select (members gs g) ranks.
Proof.
intros Hwf Hg [Hnd Hall]. destruct (store_facts local gs g grp Hwf Hg) as [Hlen _ _ HndP Hnull Hloc].
destruct (selection_facts _ _ _ Hlen Hall Hnd HndP) as (Sl & Slook & Snd & Sin).
eexists. split; [done|]. split; [done|]. split; [|split].
- clear - Hlen Hall. induction Hall as [|r ranks Hr Hall IH]; [done|].
  destruct (lookup_lt_is_Some_2 (pointers gs g) (Z.to_nat r)) as [x Hx]; [lia|].
  cbn [mapM omap list_omap]. rewrite Hx. run. by rewrite IH.
- split; [done|]. split; intros H; by apply Sin in H.
- unfold select. clear - Hlen Hall. induction Hall as [|r ranks Hr Hall IH]; [done|].
  destruct (lookup_lt_is_Some_2 (pointers gs g) (Z.to_nat r)) as [x Hx]; [lia|].
  cbn [omap list_omap]. rewrite Hx, !fmap_cons, IH. f_equal. symmetry.
  apply list_lookup_total_correct. unfold members. by rewrite list_lookup_fmap, Hx.
Qed.

Lemma mapM_ext_Forall {A B} (f h : A → option B) l :
Forall (λ x, f x = h x) l → mapM f l = mapM h l.
Proof. induction 1 as [|x l Hx Hl IH]; [done|]. cbn [mapM]. by rewrite Hx, IH. Qed.

Lemma local_not_selected gs g grp ranks :
group_inv local gs → gs !! g = Some grp → ranks_valid (grp_proc_count grp) ranks →
grp_my_rank grp = MPI_UNDEFINED → local ∉ select (members gs g) ranks.
Proof.
intros [Hwf Hrk] Hg [_ Hall] Hu Hin. rewrite (Hrk g grp Hg) in Hu.
apply list_elem_of_fmap in Hin as (r & Hr & Hin). rewrite Forall_forall in Hall.
specialize (Hall r Hin). cbn in Hall. pose proof (members_length local _ _ _ Hwf Hg).
rewrite (proj2 (rank_in_spec local (members gs g) (Z.to_nat r) (members_NoDup local _ _ _ Hwf Hg))) in Hu;
  [unfold MPI_UNDEFINED in Hu; lia|]. rewrite Hr. apply list_lookup_lookup_total_lt. lia.
Qed.

(** The state after an inclusion in the dense format. *)
Lemma incl_plist_state st g grp ranks :
group_inv local (groups st) → groups st !! g = Some grp → ranks_valid (grp_proc_count grp) ranks → ranks ≠ [] →
∃ ptrs, ptrs_ok ptrs ∧ name_of <$> ptrs = select (members (groups st) g) ranks ∧
  ompi_group_incl_plist (ProcReal local) true st g ranks =
    Some (OMPI_SUCCESS, Some (length (groups st)),
          mk_gstate (groups st ++ [dense_group (rank_in local (name_of <$> ptrs)) ptrs])
            (foldl (add_proc 1) (proc_refs st) ptrs)).
Proof.
intros Hinv Hg Hv Hne. unfold ompi_group_incl_plist. pose proof Hinv as [Hwf Hrk].
replace (Z.of_nat (length ranks) =? 0) with false by (by destruct ranks).
destruct (select_pointers _ _ _ _ Hwf Hg Hv) as (ptrs & _ & El & Em & Hok & Enames).
exists ptrs. split; [done|]. split; [done|]. rewrite allocate_spec. run. cbn [groups].
rewrite (mapM_ext_Forall _ (λ r, pointers (groups st) g !! Z.to_nat r)).
2:{ eapply Forall_impl; [apply Hv|]. intros r Hr. cbn in Hr.
    rewrite (raw_app local) by (done || by eapply lookup_lt_Some).
    destruct (store_facts local _ g grp Hwf Hg) as [_ _ Hraw _ _ _]. apply Hraw; lia. }
rewrite Em. run. rewrite <- El, fill_spec. run. unfold ompi_group_increment_proc_count.
rewrite change_dense. run. cbn [groups]. rewrite (lookup_app_l_Some _ _ _ _ Hg). run.
match goal with |- context [if negb ?b then ?t else ?e] =>
  change (if negb b then t else e) with
    (set_rank_if (ProcReal local) (mk_gstate (groups st ++ [dense_group MPI_UNDEFINED ptrs])
      (foldl (add_proc 1) (proc_refs st) ptrs)) (length (groups st)) (negb b)) end.
rewrite set_rank_spec; [done|done|]. rewrite Enames. intros Hu. apply negb_false_iff, Z.eqb_eq in Hu.
by eapply local_not_selected.
Qed.

Lemma incl_plist_spec st g grp ranks :
group_inv local (groups st) → groups st !! g = Some grp → ranks_valid (grp_proc_count grp) ranks →
makes st (select (members (groups st) g) ranks) (ompi_group_incl_plist (ProcReal local) true st g ranks).
Proof.
intros Hinv Hg Hv. destruct (decide (ranks = [])) as [->|Hne]; [by apply makes_empty|].
destruct (incl_plist_state st g grp ranks Hinv Hg Hv Hne) as (ptrs & Hok & <- & ->). by apply makes_dense.
Qed.

(** ** Sparse groups *)

Definition sparse_group (rank : Z) (parent : nat) (count : Z) (d : sparse_data) : ompi_group_t :=
mk_group count rank [] (Some parent) d 1.

Definition make_sparse (st : gstate) (parent : nat) (count : Z) (d : sparse_data) : group_result :=
'(new, st1) ← allocate_sparse st parent count d;
st2 ← set_my_rank_from st1 parent new;
Some (OMPI_SUCCESS, Some new, st2).

Lemma retain_app gs g grp l refs :
gs !! g = Some grp →
group_retain (mk_gstate (gs ++ l) refs) g =
  Some (mk_gstate (<[g := with_refs grp (grp_refs grp + 1)]> gs ++ l) refs).
Proof.
intros Hg. unfold group_retain. cbn [groups]. rewrite (lookup_app_l_Some _ _ _ _ Hg). run.
unfold set_group. cbn [groups proc_refs]. by rewrite insert_app_l by (by eapply lookup_lt_Some).
Qed.

Section sparse.
Context (gs : list ompi_group_t) (g : nat) (grp : ompi_group_t) (count : Z) (d : sparse_data).
Context (Hinv : group_inv local gs) (Hg : gs !! g = Some grp) (Hd : d ≠ Dense) (Hne : g ≠ MPI_GROUP_EMPTY).
Context (Hwd : wf_data d count (grp_proc_count grp)).

Lemma wf_sparse rank : wf_store local (gs ++ [sparse_group rank g count d]).
Proof using Hinv Hg Hd Hne Hwd.
destruct Hinv as [Hwf _]. apply wf_store_app; [done|]. unfold wf_group. rewrite decide_False by done.
exists g, grp. split; [done|]. split; [by eapply lookup_lt_Some|]. split; [done|].
by rewrite (lookup_app_l_Some _ _ _ _ Hg).
Qed.

Lemma sparse_members rank :
members (gs ++ [sparse_group rank g count d]) (length gs) = select (members gs g) (expand d count).
Proof using Hinv Hg Hd Hne Hwd.
destruct (members_sparse local _ (length gs) (sparse_group rank g count d) g grp (wf_sparse rank)
  (last_object _ _) Hd eq_refl (lookup_app_l_Some _ _ _ _ Hg)) as (-> & _).
destruct Hinv as [Hwf _]. by rewrite (members_app local) by (done || by eapply lookup_lt_Some).
Qed.

(** The rank of the calling process in the new group. *)
Lemma sparse_rank rank :
(local ∈ members gs g) ∨ forward_rank d MPI_UNDEFINED = Some MPI_UNDEFINED →
ompi_group_translate_ranks (gs ++ [sparse_group rank g count d]) g [grp_my_rank grp] (length gs) =
  Some [rank_in local (select (members gs g) (expand d count))].
Proof using Hinv Hg Hd Hne Hwd.
intros Hmem. set (gs' := gs ++ [sparse_group rank g count d]).
assert (gs' !! g = Some grp) as Hg' by by apply lookup_app_l_Some.
assert (gs' !! length gs = Some (sparse_group rank g count d)) as Hn by apply last_object.
pose proof (lookup_lt_Some _ _ _ Hg) as Hlt. pose proof (wf_sparse rank) as Hwf'.
destruct Hinv as [Hwf Hrk]. pose proof (members_length local _ _ _ Hwf Hg) as Hlen.
unfold ompi_group_translate_ranks. rewrite (bool_decide_eq_false_2 (length gs = _)), (bool_decide_eq_false_2 _ Hne)
  by (unfold MPI_GROUP_EMPTY in *; lia).
rewrite Hg', Hn. run. cbn [orb]. rewrite bool_decide_eq_false_2.
2:{ intros Hp. pose proof (wf_parent local gs g grp _ Hwf Hg Hp). lia. }
rewrite bool_decide_eq_true_2 by done. cbn [mapM grp_data sparse_group].
rewrite (Hrk g grp Hg). destruct (decide (local ∈ members gs g)) as [Hin|Hnin].
- apply list_elem_of_lookup in Hin as [n En]. pose proof (lookup_lt_Some _ _ _ En).
  assert (rank_in local (members gs g) = Z.of_nat n) as ->
    by (apply rank_in_spec; [by eapply members_NoDup|done]).
  pose proof (translate_to_child local gs' g grp (length gs) _ (Z.of_nat n) Hwf' Hg' Hn Hd eq_refl) as Ht.
  cbn [grp_data sparse_group] in Ht. rewrite Ht by (right; lia). run. unfold translated.
  rewrite decide_False by (unfold MPI_PROC_NULL; lia).
  unfold gs'. rewrite (members_app local), sparse_members, Nat2Z.id by done.
  by rewrite (list_lookup_total_correct _ _ _ En).
- destruct Hmem as [|Hu]; [done|]. unfold rank_in. rewrite (pos_of_not_in _ _ _ Hnin), Hu. run.
  rewrite pos_of_not_in; [done|]. intros Hin. apply Hnin. apply list_elem_of_fmap in Hin as (r & -> & Hr).
  destruct Hwd as (_ & _ & Hall & _). rewrite Forall_forall in Hall. specialize (Hall r Hr). cbn in Hall.
  apply list_elem_of_lookup_total_2. lia.
Qed.

End sparse.

Lemma same_shape_lookup (gs : list ompi_group_t) (g : nat) grp n :
  gs !! g = Some grp → <[g := with_refs grp n]> gs !! g = Some (with_refs grp n).
Proof. intros Hg. by rewrite list_lookup_insert_eq by (by eapply lookup_lt_Some). Qed.

Lemma change_wf delta gs refs g grp :
  wf_store local gs → gs !! g = Some grp →
  change_proc_count delta (mk_gstate gs refs) g = Some (mk_gstate gs (foldl (add_proc delta) refs (pointers gs g))).
Proof. intros Hwf Hg. by apply (change_proc_count_spec delta (mk_gstate gs refs)), (reads_wf local _ _ grp). Qed.

(** The state after an inclusion in a sparse format. *)
Lemma make_sparse_state st g grp count d :
  group_inv local (groups st) → groups st !! g = Some grp → d ≠ Dense → g ≠ MPI_GROUP_EMPTY →
  wf_data d count (grp_proc_count grp) →
  (local ∈ members (groups st) g) ∨ forward_rank d MPI_UNDEFINED = Some MPI_UNDEFINED →
  let gs' := <[g := with_refs grp (grp_refs grp + 1)]> (groups st) in
  let new := gs' ++ [sparse_group (rank_in local (select (members gs' g) (expand d count))) g count d] in
  make_sparse st g count d =
    Some (OMPI_SUCCESS, Some (length (groups st)),
          mk_gstate new (foldl (add_proc 1) (proc_refs st) (pointers new g ++ pointers new (length (groups st))))).
Proof.
  intros Hinv Hg Hd Hne Hwd Hmem. set (grp' := with_refs grp (grp_refs grp + 1)). cbn zeta.
  set (gs' := <[g := grp']> (groups st)).
  assert (same_shape (groups st) gs') as Hs by by apply same_shape_retain.
  assert (gs' !! g = Some grp') as Hg' by by apply same_shape_lookup.
  assert (members (groups st) g = members gs' g) as Em by (destruct Hs as [Hb _]; by rewrite <- Hb).
  assert (length gs' = length (groups st)) as El by apply length_insert.
  pose proof (same_shape_inv _ _ Hs Hinv) as Hinv'. rewrite Em in *.
  pose proof (wf_sparse gs' g grp' count d Hinv' Hg' Hd Hne Hwd MPI_UNDEFINED) as Hwf.
  unfold make_sparse, allocate_sparse. rewrite (retain_app _ _ _ _ _ Hg). run. fold grp' gs'.
  unfold ompi_group_increment_proc_count. fold (sparse_group MPI_UNDEFINED g count d).
  rewrite (change_wf _ _ _ g grp' Hwf) by (by apply lookup_app_l_Some). run.
  rewrite <- El, (change_wf _ _ _ (length gs') _ Hwf (last_object _ _)). run.
  unfold set_my_rank_from. cbn [groups]. rewrite (lookup_app_l_Some _ _ _ _ Hg'). run.
  rewrite (sparse_rank gs' g grp' count d) by done. run. cbn [head].
  rewrite last_object. run. rewrite set_last, foldl_app.
  set (r := rank_in local (select (members gs' g) (expand d count))).
  change (with_rank _ r) with (sparse_group r g count d).
  assert (∀ h, pointers (gs' ++ [sparse_group r g count d]) h =
    pointers (gs' ++ [sparse_group MPI_UNDEFINED g count d]) h) as E.
  { intros h. apply pointers_proper; [split; by rewrite !fmap_app|done]. }
  by rewrite !E.
Qed.

Lemma make_sparse_spec st g grp count d :
  group_inv local (groups st) → groups st !! g = Some grp → d ≠ Dense → g ≠ MPI_GROUP_EMPTY →
  wf_data d count (grp_proc_count grp) →
  (local ∈ members (groups st) g) ∨ forward_rank d MPI_UNDEFINED = Some MPI_UNDEFINED →
  makes st (select (members (groups st) g) (expand d count)) (make_sparse st g count d).
Proof.
  intros Hinv Hg Hd Hne Hwd Hmem. rewrite (make_sparse_state st g grp) by done. cbn zeta.
  set (grp' := with_refs grp (grp_refs grp + 1)). set (gs' := <[g := grp']> (groups st)).
  assert (same_shape (groups st) gs') as Hs by by apply same_shape_retain.
  assert (gs' !! g = Some grp') as Hg' by by apply same_shape_lookup.
  assert (members (groups st) g = members gs' g) as -> by (destruct Hs as [Hb _]; by rewrite <- Hb).
  assert (length gs' = length (groups st)) as El by apply length_insert.
  pose proof (same_shape_inv _ _ Hs Hinv) as Hinv'.
  set (r := rank_in local (select (members gs' g) (expand d count))).
  pose proof (sparse_members gs' g grp' count d Hinv' Hg' Hd Hne Hwd r) as Hm. rewrite <- Hm.
  apply makes_app; [done|done| |by rewrite Hm].
  apply (proj2 (wf_sparse gs' g grp' count d Hinv' Hg' Hd Hne Hwd r)), last_object.
Qed.

(** ** Inclusion *)

Lemma nonempty_group gs g grp r ranks :
  wf_store local gs → gs !! g = Some grp → ranks_valid (grp_proc_count grp) (r :: ranks) → g ≠ MPI_GROUP_EMPTY.
Proof.
  intros Hwf Hg [_ Hall] ->. pose proof (members_length local _ _ _ Hwf Hg) as Hl.
  rewrite empty_members in Hl by done. inversion Hall; subst. cbn in *. lia.
Qed.

Section include.
Context (st : gstate) (g : nat) (grp : ompi_group_t) (ranks : list Z).
Context (Hinv : group_inv local (groups st)) (Hg : groups st !! g = Some grp).
Context (Hv : ranks_valid (grp_proc_count grp) ranks).

Lemma strided_undefined o s last : 0 ≤ o → forward_rank (Strided o s last) MPI_UNDEFINED = Some MPI_UNDEFINED.
Proof.
intros Ho. unfold forward_rank, strided_forward. replace (MPI_UNDEFINED =? MPI_PROC_NULL) with false by done.
by rewrite (proj2 (Z.leb_gt _ _)) by (unfold MPI_UNDEFINED; lia).
Qed.

Lemma incl_strided_sparse :
check_stride ranks ≠ -1 → ranks ≠ [] →
∃ first lst, let d := Strided first (check_stride ranks) lst in
  ompi_group_incl_strided true st g ranks = make_sparse st g (Z.of_nat (length ranks)) d ∧
  expand d (Z.of_nat (length ranks)) = ranks ∧ g ≠ MPI_GROUP_EMPTY ∧
  wf_data d (Z.of_nat (length ranks)) (grp_proc_count grp) ∧ forward_rank d MPI_UNDEFINED = Some MPI_UNDEFINED.
Proof using Hinv Hg Hv.
intros Hc Hne. destruct (check_stride_spec ranks _ Hne Hv Hc) as (first & lst & Hf & Hl & He & Hwd).
exists first, lst. cbn zeta. unfold ompi_group_incl_strided. rewrite Hf, Hl.
replace (Z.of_nat (length ranks) =? 0) with false by (by destruct ranks). split; [done|].
split; [done|]. destruct ranks as [|r0 rest]; [done|].
split; [by eapply nonempty_group; [apply Hinv|..]|]. split; [done|]. apply strided_undefined.
destruct Hv as [_ Hall]. inversion Hall as [|? ? Hr0]; subst. cbn in Hf, Hr0. injection Hf as <-. lia.
Qed.

Lemma incl_strided_spec :
check_stride ranks ≠ -1 →
makes st (select (members (groups st) g) ranks) (ompi_group_incl_strided true st g ranks).
Proof using Hinv Hg Hv.
intros Hc. destruct (decide (ranks = [])) as [->|Hne]; [by apply makes_empty|].
destruct (incl_strided_sparse Hc Hne) as (first & lst & -> & He & Hg0 & Hwd & Hu).
rewrite <- He at 1. eapply (make_sparse_spec st g grp); try done. by right.
Qed.

Lemma sporadic_undefined l count :
Forall (λ r, 0 ≤ fst r) l → sporadic_forward l MPI_UNDEFINED count = MPI_UNDEFINED.
Proof.
intros H. revert count. induction H as [|[f n] l Hf Hl IH]; intros count; [done|]. cbn [sporadic_forward].
cbn in Hf. rewrite (proj2 (Z.leb_gt _ _)) by (unfold MPI_UNDEFINED; lia). apply IH.
Qed.

Lemma incl_spor_spec before :
(ranks ≠ [] → readable before) → grp_proc_count grp ≤ INT_MAX →
makes st (select (members (groups st) g) ranks) (ompi_group_incl_spor true before st g ranks).
Proof using Hinv Hg Hv.
intros Hb Hn. destruct ranks as [|r0 rest]; [by apply makes_empty|].
destruct (runs_format_spec before r0 rest _ Hv Hn (Hb ltac:(done))) as (Hc & Hs & He & Hwd).
unfold ompi_group_incl_spor. rewrite Hc. run. cbn [negb]. rewrite (proj2 (Z.leb_le _ _)) by lia.
rewrite <- He at 1. eapply (make_sparse_spec st g grp); try done.
- eapply nonempty_group; [apply Hinv|done..].
- right. unfold forward_rank. replace (MPI_UNDEFINED =? MPI_PROC_NULL) with false by done. f_equal.
  apply sporadic_undefined. destruct Hwd as (_ & _ & Hall & Hpos). cbn [expand] in Hall, Hpos.
  apply Forall_forall. intros [f n] Hin. rewrite Forall_forall in Hall. rewrite Forall_forall in Hpos.
  specialize (Hpos _ Hin). cbn in Hpos. apply (Hall f). apply list_elem_of_bind.
  exists (f, n). split; [|done]. apply elem_of_seqZ. cbn. lia.
Qed.

Lemma incl_bmap_spec :
check_ranks ranks = true → (ranks ≠ [] → local ∈ members (groups st) g) →
makes st (select (members (groups st) g) ranks) (ompi_group_incl_bmap true st g ranks).
Proof using Hinv Hg Hv.
intros Hc Hmem. destruct ranks as [|r0 rest] eqn:Er; [by apply makes_empty|]. rewrite <- Er in *.
assert (0 ≤ grp_proc_count grp) as Hn by (rewrite <- (members_length local _ _ _ (proj1 Hinv) Hg); lia).
destruct (bitmap_format_spec _ ranks Hn Hv Hc) as (a & Ha & He & Hwd).
unfold ompi_group_incl_bmap, proc_count. rewrite Hg. replace (Z.of_nat (length ranks) =? 0) with false by (by subst).
run. cbn [negb]. rewrite Ha. run. rewrite <- He at 1. eapply (make_sparse_spec st g grp); try done.
- subst ranks. eapply nonempty_group; [apply Hinv|done..].
- left. apply Hmem. by subst.
Qed.

(** The size of the sporadic format is known when the word before the ranks is. *)
Lemma calc_sporadic_some before :
(ranks ≠ [] → readable before) → grp_proc_count grp ≤ INT_MAX → is_Some (ompi_group_calc_sporadic before ranks).
Proof using Hv.
intros Hb Hn. unfold ompi_group_calc_sporadic. destruct ranks as [|r0 rest]; [by eexists|].
destruct (runs_format_spec before r0 rest _ Hv Hn (Hb ltac:(done))) as (-> & _). by eexists.
Qed.

Lemma incl_ok use_sparse before :
(use_sparse = true → local ∈ members (groups st) g ∧ (ranks ≠ [] → readable before) ∧ grp_proc_count grp ≤ INT_MAX) →
makes st (select (members (groups st) g) ranks)
  (ompi_group_incl (ProcReal local) use_sparse true before st g ranks).
Proof using Hinv Hg Hv.
intros Hs. unfold ompi_group_incl. destruct use_sparse; [|by eapply incl_plist_spec]. destruct (Hs eq_refl) as (Hmem & Hb & Hn).
unfold proc_count. rewrite Hg. run. destruct (calc_sporadic_some before Hb Hn) as [len ->]. run.
match goal with |- context [ompi_group_minloc [?a; ?b; ?c; ?d]] => destruct (minloc_usable a b c d) as (i & -> & Hi) end.
run. destruct Hi as [->|[[-> Hi]|[[-> Hi]|[-> Hi]]]]; cbn [Z.eqb Pos.eqb].
- by eapply incl_plist_spec.
- apply incl_strided_spec. intros E. apply Hi. unfold ompi_group_calc_strided. by rewrite E.
- by apply incl_spor_spec.
- apply incl_bmap_spec; [|auto]. unfold ompi_group_calc_bmap in Hi. by destruct (check_ranks ranks).
Qed.

(** With sparse storage the word before the ranks is read. *)
Lemma incl_reads_before : ranks ≠ [] → ompi_group_incl (ProcReal local) true true None st g ranks = None.
Proof using Hg.
clear Hv. intros Hne. unfold ompi_group_incl, proc_count. rewrite Hg. run. by destruct ranks.
Qed.

End include.

End specs.

End GroupOpsSpec.
