(* ===== verification/GroupSetSpec.v ===== *)
(** * The set operations on MPI groups

    Inclusion, exclusion, ranges of ranks, intersection, union and difference
    make the groups the MPI standard describes, in the order it prescribes,
    for every storage format of the arguments and of the result.  Operations that
    put the ranks into an array of their own read before it when storage is sparse
    ([makes_own]). *)

From stdpp Require Import base numbers list gmap sets.
From S2P Require Import Prelude OpalBitmap Group GroupOps GroupSpec GroupStore GroupOpsSpec.
Import Group GroupOps GroupSpec GroupStore GroupOpsSpec.

Local Open Scope Z_scope.
Local Open Scope c_scope.

Module GroupSetSpec.

(** ** Ranks and members *)

Lemma select_all m : select m (seqZ 0 (Z.of_nat (length m))) = m.
Proof.
  unfold select. apply list_eq. intros i. rewrite list_lookup_fmap.
  destruct (decide (i < length m)%nat) as [Hi|Hi].
  - rewrite lookup_seqZ_lt by lia. cbn. rewrite Z.add_0_l, Nat2Z.id. by rewrite list_lookup_lookup_total_lt.
  - rewrite lookup_seqZ_ge by lia. by rewrite lookup_ge_None_2 by lia.
Qed.

Lemma elem_of_select m ranks n :
  NoDup m → ranks_valid (Z.of_nat (length m)) ranks → 0 ≤ n < Z.of_nat (length m) →
  m !!! Z.to_nat n ∈ select m ranks ↔ n ∈ ranks.
Proof.
  intros Hnd [_ Hall] Hn. unfold select. rewrite list_elem_of_fmap. split; [|by exists n].
  intros (r & E & Hr). rewrite Forall_forall in Hall. specialize (Hall r Hr). cbn in Hall.
  rewrite NoDup_alt in Hnd. enough (Z.to_nat n = Z.to_nat r) by (assert (n = r) as -> by lia; done).
  apply (Hnd _ _ (m !!! Z.to_nat n)); [|rewrite E]; apply list_lookup_lookup_total_lt; lia.
Qed.

(** Selecting the ranks of the members that satisfy [P]. *)
Lemma select_filter (P : Z → Prop) `{∀ x, Decision (P x)} (f : Z → bool) m :
  (∀ i, 0 ≤ i < Z.of_nat (length m) → f i = true ↔ P (m !!! Z.to_nat i)) →
  select m (List.filter f (seqZ 0 (Z.of_nat (length m)))) = filter P m.
Proof.
  intros Hf. rewrite <- (select_all m) at 3. unfold select.
  assert (∀ i, i ∈ seqZ 0 (Z.of_nat (length m)) → f i = true ↔ P (m !!! Z.to_nat i)) as Hs
    by (intros i Hi; apply Hf; apply elem_of_seqZ in Hi; lia).
  clear Hf. revert Hs. generalize (seqZ 0 (Z.of_nat (length m))) as l.
  induction l as [|i l IH]; intros Hs; [done|].
  assert (∀ j, j ∈ l → f j = true ↔ P (m !!! Z.to_nat j)) as Hs' by (intros j Hj; apply Hs; by right).
  cbn [List.filter]. rewrite fmap_cons. specialize (Hs i ltac:(by left)). destruct (f i) eqn:E.
  - rewrite filter_cons_True by tauto. rewrite fmap_cons. f_equal. by apply IH.
  - rewrite filter_cons_False by (intros Hp; apply Hs in Hp; done). by apply IH.
Qed.

Lemma filter_ranks_valid f n : ranks_valid n (List.filter f (seqZ 0 n)).
Proof.
  split.
  - apply NoDup_ListNoDup, List.NoDup_filter, NoDup_ListNoDup, NoDup_seqZ.
  - apply Forall_forall. intros r Hr. apply list_elem_of_In, List.filter_In in Hr as [Hr _].
    apply list_elem_of_In, elem_of_seqZ in Hr. lia.
Qed.

Lemma existsb_elem n ranks : existsb (Z.eqb n) ranks = bool_decide (n ∈ ranks).
Proof.
  apply eq_bool_prop_intro. rewrite bool_decide_spec. split.
  - intros H. apply Is_true_true, existsb_exists in H as (x & Hx & E). apply Z.eqb_eq in E as ->.
    by apply list_elem_of_In.
  - intros H. apply Is_true_true, existsb_exists. exists n. split; [by apply list_elem_of_In|apply Z.eqb_refl].
Qed.

Lemma complement_select m ranks :
  NoDup m → ranks_valid (Z.of_nat (length m)) ranks →
  select m (complement (Z.of_nat (length m)) ranks) = filter (λ x, x ∉ select m ranks) m.
Proof.
  intros Hnd Hv. apply select_filter. intros i Hi. rewrite existsb_elem, elem_of_select by done.
  case_bool_decide; cbn; split; try done; tauto.
Qed.

Lemma complement_length n ranks :
  0 ≤ n → ranks_valid n ranks → Z.of_nat (length (complement n ranks)) = n - Z.of_nat (length ranks).
Proof.
  intros Hn [Hnd Hall].
  assert (seqZ 0 n ≡ₚ ranks ++ complement n ranks) as Hp.
  { apply NoDup_Permutation; [apply NoDup_seqZ| |].
    - apply NoDup_app. split; [done|]. split; [|apply filter_ranks_valid]. intros x Hx Hc.
      apply list_elem_of_In, List.filter_In in Hc as [_ Hc]. by rewrite existsb_elem, bool_decide_true in Hc.
    - intros x. rewrite elem_of_app. split.
      + intros Hx. destruct (decide (x ∈ ranks)); [by left|right].
        apply list_elem_of_In, List.filter_In. split; [by apply list_elem_of_In|].
        by rewrite existsb_elem, bool_decide_false.
      + intros [Hx|Hx]; [|apply list_elem_of_In, List.filter_In in Hx as [Hx _]; by apply list_elem_of_In].
        rewrite Forall_forall in Hall. specialize (Hall x Hx). apply elem_of_seqZ. cbn in Hall. lia. }
  apply Permutation_length in Hp. rewrite length_app, length_seqZ in Hp. lia.
Qed.

(** ** Ranges of ranks *)

Definition is_int (x : Z) : Prop := INT_MIN ≤ x ≤ INT_MAX.

(** A triplet of [int]s that denotes ranks: the stride leads from the first to the last. *)
Definition range_ok (range : Z * Z * Z) : Prop :=
  let '(first, last, stride) := range in
  is_int first ∧ is_int last ∧ is_int stride ∧ (first < last → 0 < stride) ∧ (last < first → stride < 0).

(** The first index past the last rank, which the loop computes too. *)
Definition range_end (first last stride : Z) : Z := first + stride * ((last - first) / stride + 1).
Definition range_fits (range : Z * Z * Z) : Prop :=
  let '(first, last, stride) := range in first = last ∨ is_int (range_end first last stride).

#[global] Instance range_fits_dec range : Decision (range_fits range).
Proof. destruct range as [[first last] stride]. unfold range_fits, is_int. apply _. Defined.

(** The ranks [first, first + stride, ...] up to [last]. *)
Definition range_set (range : Z * Z * Z) : list Z :=
  let '(first, last, stride) := range in (λ i, first + stride * i) <$> seqZ 0 ((last - first) / stride + 1).

Lemma range_cons first s n :
  0 ≤ n → first :: ((λ i, first + s + s * i) <$> seqZ 0 n) = (λ i, first + s * i) <$> seqZ 0 (n + 1).
Proof.
  intros Hn. rewrite (seqZ_cons 0 (n + 1)) by lia. rewrite fmap_cons, Z.mul_0_r, Z.add_0_r. f_equal.
  replace (Z.pred (n + 1)) with n by lia. change (Z.succ 0) with (1 + 0).
  rewrite <- (fmap_add_seqZ 1 0), <- list_fmap_compose. apply list_fmap_ext. intros _ i _. unfold compose. lia.
Qed.

(** One step of a loop, in either direction. *)
Lemma range_step first last s :
  s ≠ 0 → (last - (first + s)) / s = (last - first) / s - 1 ∧ range_end (first + s) last s = range_end first last s.
Proof.
  intros Hs. assert ((last - (first + s)) / s = (last - first) / s - 1) as E.
  { replace (last - (first + s)) with (last - first + (-1) * s) by lia. rewrite Z.div_add by lia. lia. }
  split; [done|]. unfold range_end. rewrite E. lia.
Qed.

Lemma range_stop first last s : last - first = - s + (last - first + s) → 0 ≤ last - first + s < s ∨ s < last - first + s ≤ 0 →
  range_set (first, last, s) = [] ∧ range_end first last s = first.
Proof.
  intros E Hs. assert ((last - first) / s = -1) as E1 by (symmetry; apply (Z.div_unique _ _ _ (last - first + s)); lia).
  unfold range_set, range_end. rewrite E1. split; [done|lia].
Qed.

Lemma range_up_spec fuel first last s :
  0 < s → first ≤ last + s → last - first + 2 ≤ Z.of_nat fuel → (0 < fuel)%nat → is_int first →
  range_up fuel first last s = if bool_decide (is_int (range_end first last s)) then Some (range_set (first, last, s)) else None.
Proof.
  revert first. induction fuel as [|f IH]; intros first Hs Hl Hf Hf0 Hi; [lia|]. cbn [range_up].
  destruct (range_step first last s ltac:(lia)) as [Ed Ee]. destruct (Z.leb_spec first last) as [Hle|Hgt].
  - assert (0 ≤ (last - first) / s) by (apply Z.div_pos; lia). unfold cint. case_bool_decide as Hn; run.
    + rewrite IH, Ee by (done || lia). case_bool_decide; [|done]. run. f_equal. unfold range_set. rewrite Ed.
      replace ((last - first) / s - 1 + 1) with ((last - first) / s) by lia. by apply range_cons.
    + rewrite bool_decide_false; [done|]. contradict Hn. unfold is_int, range_end in *. nia.
  - destruct (range_stop first last s) as [-> ->]; [lia..|]. by rewrite bool_decide_true.
Qed.

Lemma range_down_spec fuel first last s :
  s < 0 → last + s ≤ first → first - last + 2 ≤ Z.of_nat fuel → (0 < fuel)%nat → is_int first →
  range_down fuel first last s = if bool_decide (is_int (range_end first last s)) then Some (range_set (first, last, s)) else None.
Proof.
  revert first. induction fuel as [|f IH]; intros first Hs Hl Hf Hf0 Hi; [lia|]. cbn [range_down].
  destruct (range_step first last s ltac:(lia)) as [Ed Ee]. destruct (Z.leb_spec last first) as [Hle|Hgt].
  - assert (0 ≤ (last - first) / s) by (rewrite <- Z.div_opp_opp by lia; apply Z.div_pos; lia). unfold cint. case_bool_decide as Hn; run.
    + rewrite IH, Ee by (done || lia). case_bool_decide; [|done]. run. f_equal. unfold range_set. rewrite Ed.
      replace ((last - first) / s - 1 + 1) with ((last - first) / s) by lia. by apply range_cons.
    + rewrite bool_decide_false; [done|]. contradict Hn. unfold is_int, range_end in *. nia.
  - destruct (range_stop first last s) as [-> ->]; [lia..|]. by rewrite bool_decide_true.
Qed.

(** The loops over a triplet end, within the fuel, with its ranks, unless the index
    after the last rank is not an [int]. *)
Lemma range_ranks_spec range : range_ok range →
  range_ranks range = if bool_decide (range_fits range) then Some (range_set range) else None.
Proof.
  destruct range as [[first last] s]. intros (Hf & Hl & _ & Hup & Hdown). unfold range_ranks, range_fits.
  destruct (Z.ltb_spec first last).
  { rewrite range_up_spec by (done || lia). repeat case_bool_decide; [done|tauto|intuition lia|done]. }
  destruct (Z.ltb_spec last first).
  { rewrite range_down_spec by (done || lia). repeat case_bool_decide; [done|tauto|intuition lia|done]. }
  assert (last = first) as -> by lia. rewrite bool_decide_true by by left. cbn [range_set].
  rewrite Z.sub_diag, Zdiv_0_l. change (seqZ 0 (0 + 1)) with [0]. cbn. do 2 f_equal. lia.
Qed.

Definition ranges_ranks (ranges : list (Z * Z * Z)) : list Z := ranges ≫= range_set.

Lemma all_ranges_spec ranges : Forall range_ok ranges →
  all_ranges ranges = if bool_decide (Forall range_fits ranges) then Some (ranges_ranks ranges) else None.
Proof.
  unfold all_ranges, ranges_ranks. induction 1 as [|r l Hr Hl IH]; [done|]. cbn [mapM]. rewrite range_ranks_spec by done.
  destruct (decide (range_fits r)) as [Hf|Hf].
  - rewrite (bool_decide_true (range_fits r)) by done. run. destruct (decide (Forall range_fits l)) as [Hl'|Hl'].
    + rewrite bool_decide_true in IH by done. rewrite bool_decide_true by (by constructor).
      destruct (mapM range_ranks l) as [rs|]; [|done]. cbn in IH. injection IH as E. cbn. by rewrite E.
    + rewrite bool_decide_false in IH by done. rewrite bool_decide_false by (by intros [_ ?]%Forall_cons).
      by destruct (mapM range_ranks l).
  - rewrite !bool_decide_false; [done| |done]. by intros [? _]%Forall_cons.
Qed.

(** ** The OPAL bitmap implements the interface *)

#[global] Instance opal_bitmap_laws (fresh : nat → Z) :
  @BitmapLaws OpalBitmap.opal_bitmap_t (opal_bitmap_ops fresh).
Proof.
  refine {| bm_repr := λ b X, (∃ ws, OpalBitmap.wf b ws) ∧ OpalBitmap.max_size b = INT_MAX ∧
              ∀ i, OpalBitmap.bits b i = bool_decide (i ∈ X) |}.
  - intros n [Hn Hlim]. destruct (OpalBitmap.init_wf fresh n) as (b & ws & Hb & Hwf & Hbits & _ & Hmax);
      [done|unfold bm_limit, INT_MAX in *; lia|].
    exists b. split; [done|]. split; [by exists ws|]. split; [done|]. intros i.
    by rewrite Hbits, bool_decide_false by set_solver.
  - intros b X i ((ws & Hwf) & Hmax & Hbits) Hi.
    destruct (OpalBitmap.set_bit_ok b ws i Hwf) as (b' & ws' & Hb & Hwf' & _ & Hmax' & Hbits').
    + rewrite Hmax. unfold bm_limit, INT_MAX in *. lia.
    + pose proof (Z.mul_div_le i 64). unfold bm_limit, INT_MAX, OpalBitmap.SIZE_OF_BASE_TYPE in *. lia.
    + exists b'. split; [done|]. split; [by exists ws'|]. split; [congruence|]. intros j. rewrite Hbits', Hbits.
      destruct (Z.eqb_spec j i) as [Hj|Hne]; cbn [orb]; symmetry.
      * apply bool_decide_eq_true_2. set_solver +Hj.
      * apply bool_decide_ext. set_solver +Hne.
  - intros b X i ((ws & Hwf) & _ & Hbits). rewrite <- Hbits. by eapply OpalBitmap.is_set_bit_spec.
Defined.

Section specs.
Context (local : Z) (use_sparse : bool).

Abbreviation incl := (ompi_group_incl (ProcReal local) use_sparse true).
Abbreviation excl := (ompi_group_excl (ProcReal local) use_sparse true).

Lemma group_members st g grp :
group_inv local (groups st) → groups st !! g = Some grp →
NoDup (members (groups st) g) ∧ grp_proc_count grp = Z.of_nat (length (members (groups st) g)) ∧
proc_count (groups st) g = Some (grp_proc_count grp).
Proof.
intros [Hwf _] Hg. split; [by eapply members_NoDup|]. split; [by erewrite members_length|].
unfold proc_count. by rewrite Hg.
Qed.

(** C29: Including valid ranks (distinct, below the size of the group) makes the group of
  the processes with these ranks, in the order given, whichever of the four storage
  formats is chosen; the older groups keep their members, and the stored rank is right.
  With sparse storage this needs that the calling process is a member of the group (see
  [incl_bmap_outside]), that the size is an [int], and, when there is a rank at all, that
  there is a word before the array [ranks] (with a successor): it is read, and when there
  is none the call is undefined.  Without sparse storage nothing of this is needed. *)
Theorem incl_spec before st g grp ranks :
group_inv local (groups st) → groups st !! g = Some grp → ranks_valid (grp_proc_count grp) ranks →
((use_sparse = true → local ∈ members (groups st) g ∧ (ranks ≠ [] → readable before) ∧ grp_proc_count grp ≤ INT_MAX) →
 makes local st (select (members (groups st) g) ranks) (incl before st g ranks)) ∧
(use_sparse = true → ranks ≠ [] → before = None → incl before st g ranks = None).
Proof.
intros Hinv Hg Hv. split; [by eapply incl_ok|]. intros -> Hne ->. by eapply incl_reads_before.
Qed.

(** What an operation gives that puts the ranks into an array of its own: with sparse
  storage the word before that array is read, unless no process is chosen. *)
Definition makes_own (st : gstate) (m : list Z) (r : group_result) : Prop :=
if use_sparse && negb (bool_decide (m = [])) then r = None else makes local st m r.

Lemma incl_own st g grp ranks :
group_inv local (groups st) → groups st !! g = Some grp → ranks_valid (grp_proc_count grp) ranks →
(use_sparse = true → local ∈ members (groups st) g ∧ grp_proc_count grp ≤ INT_MAX) →
makes_own st (select (members (groups st) g) ranks) (incl None st g ranks).
Proof.
intros Hinv Hg Hv Hs. unfold makes_own. destruct (group_members _ _ _ Hinv Hg) as (_ & Hc & _).
destruct (use_sparse && _) eqn:E.
- apply andb_true_iff in E as [Hu Hne]. rewrite Hu. eapply incl_reads_before; [done|]. intros ->. done.
- eapply incl_ok; [done..|]. intros Hu. rewrite Hu in E. destruct (Hs Hu). split_and!; [done| |done]. intros Hne.
  apply negb_false_iff, bool_decide_eq_true in E. by apply fmap_nil_inv in E.
Qed.

(** Excluding ranks makes the group of the other processes, in their old
  order. *)
Theorem excl_spec st g grp ranks :
group_inv local (groups st) → groups st !! g = Some grp → ranks_valid (grp_proc_count grp) ranks →
(use_sparse = true → local ∈ members (groups st) g ∧ grp_proc_count grp ≤ INT_MAX) →
makes_own st (filter (λ x, x ∉ select (members (groups st) g) ranks) (members (groups st) g)) (excl st g ranks).
Proof.
intros Hinv Hg Hv Hs. destruct (group_members _ _ _ Hinv Hg) as (Hnd & Hc & Hpc).
unfold ompi_group_excl. rewrite Hpc. run. rewrite Hc in *.
pose proof (complement_length (Z.of_nat (length (members (groups st) g))) _ ltac:(lia) Hv) as Hl.
rewrite <- complement_select by done.
replace (if 0 <? _ then complement _ _ else []) with (complement (Z.of_nat (length (members (groups st) g))) ranks).
2:{ destruct (Z.ltb_spec 0 (Z.of_nat (length (members (groups st) g)) - Z.of_nat (length ranks))); [done|].
    apply nil_length_inv. lia. }
rewrite (proj2 (Z.leb_le _ _)) by lia. eapply incl_own; try done; rewrite Hc; [apply filter_ranks_valid|done].
Qed.

Abbreviation range_incl := (ompi_group_range_incl (ProcReal local) use_sparse true).
Abbreviation range_excl := (ompi_group_range_excl (ProcReal local) use_sparse true).

(** C31: For triplets of [int]s whose strides lead from their first to their last rank,
  and in which no rank occurs twice or is outside the group: when the index after the
  last rank of every triplet is an [int], including them ends and makes the group of the
  processes of the triplets, in their order, and excluding them ends and makes the group
  of the others.  When one of these indices is not an [int], both calls overflow.  With
  sparse storage (where the calling process is to be a member of the group) both calls
  read before the array of ranks they made, and are undefined, unless no process is left
  to include ([makes_own]). *)
Theorem range_incl_excl_spec st g grp ranges :
group_inv local (groups st) → groups st !! g = Some grp →
(use_sparse = true → local ∈ members (groups st) g ∧ grp_proc_count grp ≤ INT_MAX) →
Forall range_ok ranges → ranks_valid (grp_proc_count grp) (ranges_ranks ranges) →
if bool_decide (Forall range_fits ranges) then
  makes_own st (select (members (groups st) g) (ranges_ranks ranges)) (range_incl st g ranges) ∧
  makes_own st (filter (λ x, x ∉ select (members (groups st) g) (ranges_ranks ranges)) (members (groups st) g))
    (range_excl st g ranges)
else range_incl st g ranges = None ∧ range_excl st g ranges = None.
Proof.
intros Hinv Hg Hs Hr Hv. destruct (group_members _ _ _ Hinv Hg) as (Hnd & Hc & Hpc).
unfold ompi_group_range_incl, ompi_group_range_excl. rewrite all_ranges_spec by done. case_bool_decide; run; [|done].
split; [by eapply incl_own|]. rewrite Hpc. run. rewrite Hc in *.
pose proof (complement_length (Z.of_nat (length (members (groups st) g))) _ ltac:(lia) Hv) as Hl.
rewrite <- complement_select, (proj2 (Z.leb_le _ _)) by (done || lia).
eapply incl_own; try done; rewrite Hc; [apply filter_ranks_valid|done].
Qed.

(** ** Intersection *)

Lemma common_ranks_spec gs g1 grp1 g2 grp2 :
wf_store local gs → gs !! g1 = Some grp1 → gs !! g2 = Some grp2 →
common_ranks gs g1 g2 (Z.to_nat (grp_proc_count grp2)) (Z.to_nat (grp_proc_count grp1)) 0 =
  Some (List.filter (λ i, bool_decide (members gs g1 !!! Z.to_nat i ∈ members gs g2)) (seqZ 0 (grp_proc_count grp1))).
Proof.
intros Hwf H1 H2. pose proof (members_length local _ _ _ Hwf H1) as Hl.
assert (∀ n k, 0 ≤ k → k + Z.of_nat n = grp_proc_count grp1 →
  common_ranks gs g1 g2 (Z.to_nat (grp_proc_count grp2)) n k =
    Some (List.filter (λ i, bool_decide (members gs g1 !!! Z.to_nat i ∈ members gs g2)) (seqZ k (Z.of_nat n)))) as H.
{ induction n as [|n IH]; intros k Hk Hn; [done|]. cbn [common_ranks].
  rewrite (get_name_spec local gs g1 grp1), (list_lookup_lookup_total_lt (members gs g1)) by (done || lia). run.
  rewrite (find_name_spec local gs g2 grp2) by done. run. rewrite IH by lia. run.
  rewrite (seqZ_cons k) by lia. cbn [List.filter]. replace (Z.pred (Z.of_nat (S n))) with (Z.of_nat n) by lia.
  replace (Z.succ k) with (k + 1) by lia. unfold opt_rank. by repeat case_decide; case_bool_decide. }
pose proof (members_length local _ _ _ Hwf H1). rewrite H by lia. by rewrite Z2Nat.id by lia.
Qed.

Abbreviation intersection := (ompi_group_intersection (ProcReal local) use_sparse true true).

(** The intersection is the processes of the first group that are in the
  second, in the order of the first. *)
Theorem intersection_spec st g1 grp1 g2 grp2 :
group_inv local (groups st) → groups st !! g1 = Some grp1 → groups st !! g2 = Some grp2 →
(use_sparse = true → local ∈ members (groups st) g1 ∧ grp_proc_count grp1 ≤ INT_MAX) →
makes_own st (filter (λ x, x ∈ members (groups st) g2) (members (groups st) g1)) (intersection st g1 g2).
Proof.
intros Hinv H1 H2 Hs. destruct (group_members _ _ _ Hinv H1) as (Hnd & Hc & Hpc).
unfold ompi_group_intersection. rewrite Hpc. unfold proc_count. rewrite H2. run. cbn [negb]. rewrite andb_false_r.
rewrite (common_ranks_spec _ _ grp1 _ grp2) by (done || apply Hinv). run.
rewrite <- (select_filter _ (λ i, bool_decide (members (groups st) g1 !!! Z.to_nat i ∈ members (groups st) g2))).
- rewrite <- Hc. eapply incl_own; try done. apply filter_ranks_valid.
- intros i Hi. by rewrite bool_decide_eq_true.
Qed.

(** ** Union and difference *)

Section bitmap.
Context {B : Type} `{BitmapLaws B}.

(** The ranks in [m2] of the processes of [l]. *)
Definition marks (l m2 : list Z) : gset Z := list_to_set ((λ x, rank_in x m2) <$> filter (λ x, x ∈ m2) l).

Lemma elem_of_marks m1 m2 i :
NoDup m2 → 0 ≤ i < Z.of_nat (length m2) → i ∈ marks m1 m2 ↔ m2 !!! Z.to_nat i ∈ m1.
Proof.
intros Hnd Hi. unfold marks. rewrite elem_of_list_to_set, list_elem_of_fmap.
assert (m2 !! Z.to_nat i = Some (m2 !!! Z.to_nat i)) as El by (apply list_lookup_lookup_total_lt; lia).
assert (∀ x, rank_in x m2 = i ↔ x = m2 !!! Z.to_nat i) as Hr.
{ intros x. rewrite <- (Z2Nat.id i) at 1 by lia. rewrite rank_in_spec by done. rewrite El.
  split; congruence. }
split.
- intros (x & Hx & Hin). symmetry in Hx. apply Hr in Hx as ->. apply list_elem_of_filter in Hin. tauto.
- intros Hin. exists (m2 !!! Z.to_nat i). split; [symmetry; by apply Hr|]. apply list_elem_of_filter.
  split; [|done]. by eapply list_elem_of_lookup_2.
Qed.

Lemma dense_overlap_spec gs g1 grp1 g2 grp2 b X :
wf_store local gs → gs !! g1 = Some grp1 → gs !! g2 = Some grp2 → grp_proc_count grp2 < bm_limit → bm_repr b X →
∃ b', ompi_group_dense_overlap gs g1 g2 b =
    Some (Z.of_nat (length (filter (λ x, x ∈ members gs g2) (members gs g1))), b') ∧
  bm_repr b' (X ∪ marks (members gs g1) (members gs g2)).
Proof.
intros Hwf H1 H2 Hlim Hb. pose proof (members_length local _ _ _ Hwf H1) as Hl1.
pose proof (members_length local _ _ _ Hwf H2) as Hl2.
assert (∀ n k oc b X, bm_repr b X → (k + n)%nat = length (members gs g1) → ∃ b',
  dense_overlap gs g1 g2 (Z.to_nat (grp_proc_count grp2)) b n (Z.of_nat k) oc =
    Some (oc + Z.of_nat (length (filter (λ x, x ∈ members gs g2) (drop k (members gs g1)))), b') ∧
  bm_repr b' (X ∪ marks (drop k (members gs g1)) (members gs g2))) as Hgen.
{ clear b X Hb. induction n as [|n IH]; intros k oc b X Hb Hn; cbn [dense_overlap].
  { rewrite drop_ge by lia. exists b. split; [do 2 f_equal; cbn; lia|].
    change (marks [] _) with (∅ : gset Z). by rewrite union_empty_r_L. }
  destruct (lookup_lt_is_Some_2 (members gs g1) k) as [x Hx]; [lia|].
  rewrite (get_name_spec local gs g1 grp1), Nat2Z.id, Hx by (done || lia). run.
  rewrite (find_name_spec local gs g2 grp2), (drop_S _ _ _ Hx) by done. run.
  unfold opt_rank, marks. replace (Z.of_nat k + 1) with (Z.of_nat (S k)) by lia.
  case_decide as Hin.
  - rewrite filter_cons_True by done. destruct (pos_of_range x (members gs g2) 0) as [Hu|Hu].
    { apply list_elem_of_lookup in Hin as [j Hj].
      rewrite (pos_of_lookup x _ 0 j (members_NoDup local _ _ _ Hwf H2) Hj) in Hu. unfold MPI_UNDEFINED in Hu. lia. }
    destruct (bm_set_law b X (rank_in x (members gs g2)) Hb) as (b1 & -> & Hb1); [unfold rank_in; lia|]. run.
    cbn [negb Z.eqb OMPI_SUCCESS]. destruct (IH (S k) (oc + 1) b1 _ Hb1 ltac:(lia)) as (b' & -> & Hb').
    exists b'. split; [do 2 f_equal; cbn [length]; lia|]. rewrite fmap_cons, list_to_set_cons.
    unfold marks in Hb'. by rewrite (assoc_L (∪)), (comm_L (∪) X).
  - rewrite filter_cons_False by done. apply IH; [done|lia]. }
destruct (Hgen (length (members gs g1)) O 0 b X Hb ltac:(lia)) as (b' & E & Hb').
rewrite drop_0 in *. exists b'. split; [|done]. unfold ompi_group_dense_overlap, proc_count.
rewrite H1, H2. run. by rewrite <- Hl1, Nat2Z.id at 1.
Qed.

Lemma unmarked_spec gs g (P : list ompi_proc_ptr) b X n k :
bm_repr b X → 0 ≤ k → (∀ r, k ≤ r < k + Z.of_nat n → ompi_group_get_proc_ptr_raw gs g r = P !! Z.to_nat r) →
unmarked gs g b n k =
  mapM (λ r, P !! Z.to_nat r) (List.filter (λ i, negb (bool_decide (i ∈ X))) (seqZ k (Z.of_nat n))).
Proof.
intros Hb. revert k. induction n as [|n IH]; intros k Hk Hraw; [done|]. cbn [unmarked].
rewrite (bm_test_law b X) by done. run. rewrite seqZ_cons by lia.
replace (Z.pred (Z.of_nat (S n))) with (Z.of_nat n) by lia. replace (Z.succ k) with (k + 1) by lia.
cbn [List.filter]. rewrite IH by (try (intros r Hr; apply Hraw); lia). case_bool_decide; cbn [negb mapM]; [done|].
by rewrite Hraw by lia.
Qed.

Lemma filter_split (P : Z → Prop) `{∀ x, Decision (P x)} (l : list Z) :
(length (filter P l) + length (filter (λ x, ¬ P x) l))%nat = length l.
Proof. rewrite <- length_app. apply Permutation_length, filter_app_complement. Qed.

Lemma common_length (m1 m2 : list Z) :
NoDup m1 → NoDup m2 → length (filter (λ x, x ∈ m2) m1) = length (filter (λ x, x ∈ m1) m2).
Proof.
intros H1 H2. apply Permutation_length, NoDup_Permutation; [by apply NoDup_filter..|].
intros x. rewrite !list_elem_of_filter. tauto.
Qed.

Lemma union_NoDup (m1 m2 : list Z) : NoDup m1 → NoDup m2 → NoDup (m1 ++ filter (λ x, x ∉ m1) m2).
Proof.
intros H1 H2. apply NoDup_app. split; [done|]. split; [|by apply NoDup_filter].
intros x Hx Hf. apply list_elem_of_filter in Hf. tauto.
Qed.

(** The unmarked ranks of [g2] are those of the processes outside [g1]. *)
Lemma unmarked_ptrs gs g1 grp1 g2 grp2 b :
wf_store local gs → gs !! g1 = Some grp1 → gs !! g2 = Some grp2 →
bm_repr b (∅ ∪ marks (members gs g1) (members gs g2)) →
∃ ptrs, (∀ l, unmarked (gs ++ l) g2 b (Z.to_nat (grp_proc_count grp2)) 0 = Some ptrs) ∧ ptrs_ok local ptrs ∧
  name_of <$> ptrs = filter (λ x, x ∉ members gs g1) (members gs g2).
Proof.
intros Hwf H1 H2 Hb. pose proof (members_length local _ _ _ Hwf H2) as Hl2.
pose proof (members_NoDup local _ _ _ Hwf H2) as Hnd2. rewrite union_empty_l_L in Hb.
set (ranks := List.filter (λ i, negb (bool_decide (i ∈ marks (members gs g1) (members gs g2))))
                (seqZ 0 (grp_proc_count grp2))).
assert (ranks_valid (grp_proc_count grp2) ranks) as Hv by apply filter_ranks_valid.
destruct (select_pointers local gs g2 grp2 ranks Hwf H2 Hv) as (ptrs & _ & _ & Hm & Hok & Hn).
exists ptrs. split; [intros l|split; [done|]].
{ rewrite (unmarked_spec _ _ (pointers gs g2) b _ _ 0 Hb) by
    (done || (intros r Hr; rewrite (raw_app local) by (done || by eapply lookup_lt_Some);
              apply (store_facts local gs g2 grp2 Hwf H2); lia)).
  by rewrite Z2Nat.id by lia. }
rewrite Hn. unfold ranks. rewrite <- Hl2. apply select_filter. intros i Hi. rewrite negb_true_iff, bool_decide_eq_false, elem_of_marks by done. done.
Qed.

Lemma all_ptrs gs g grp :
wf_store local gs → gs !! g = Some grp →
∃ ptrs, (∀ l, all_pointers (gs ++ l) g (grp_proc_count grp) = Some ptrs) ∧ ptrs_ok local ptrs ∧
  name_of <$> ptrs = members gs g.
Proof.
intros Hwf Hg. pose proof (members_length local _ _ _ Hwf Hg) as Hl.
assert (ranks_valid (grp_proc_count grp) (seqZ 0 (grp_proc_count grp))) as Hv.
{ split; [apply NoDup_seqZ|]. apply Forall_forall. intros r Hr. apply elem_of_seqZ in Hr. lia. }
destruct (select_pointers local gs g grp _ Hwf Hg Hv) as (ptrs & _ & _ & Hm & Hok & Hn).
exists ptrs. split; [|split; [done|]]; [|by rewrite Hn, <- Hl, select_all].
intros l. rewrite <- Hm. apply mapM_ext_Forall. eapply Forall_impl; [apply Hv|]. intros r Hr. cbn in Hr.
rewrite (raw_app local) by (done || by eapply lookup_lt_Some). apply (store_facts local gs g grp Hwf Hg); lia.
Qed.

(** The last steps of union and difference. *)
Lemma fill_and_rank st g1 grp1 g2 grp2 ptrs (member : Z → Z → bool) :
group_inv local (groups st) → groups st !! g1 = Some grp1 → groups st !! g2 = Some grp2 → ptrs_ok local ptrs →
(member (grp_my_rank grp1) (grp_my_rank grp2) = false → local ∉ name_of <$> ptrs) →
makes local st (name_of <$> ptrs)
  (st2 ← fill_pointers (mk_gstate (groups st ++ [dense_group MPI_UNDEFINED (replicate (length ptrs) ProcNull)])
                          (proc_refs st)) (length (groups st)) ptrs;
   st3 ← ompi_group_increment_proc_count st2 (length (groups st));
   r1 ← my_rank st3 g1;
   r2 ← my_rank st3 g2;
   st4 ← set_rank_if (ProcReal local) st3 (length (groups st)) (member r1 r2);
   Some (OMPI_SUCCESS, Some (length (groups st)), st4)).
Proof.
intros Hinv H1 H2 Hok Hm. rewrite fill_spec. run. unfold ompi_group_increment_proc_count. rewrite change_dense. run.
unfold my_rank. cbn [groups]. rewrite (lookup_app_l_Some _ _ _ _ H1), (lookup_app_l_Some _ _ _ _ H2). run.
rewrite set_rank_spec by done. run. by apply makes_dense.
Qed.

Lemma my_rank_undefined st g grp :
group_inv local (groups st) → groups st !! g = Some grp →
(grp_my_rank grp =? MPI_UNDEFINED) = bool_decide (local ∉ members (groups st) g).
Proof.
intros [Hwf Hrk] Hg. rewrite (Hrk g grp Hg). case_bool_decide as Hin.
- unfold rank_in. by rewrite pos_of_not_in.
- apply list_elem_of_lookup in Hin as [n Hn]. apply Z.eqb_neq.
  rewrite (proj2 (rank_in_spec local _ n (members_NoDup local _ _ _ Hwf Hg)) Hn). unfold MPI_UNDEFINED. lia.
Qed.

Abbreviation union := (ompi_group_union (ProcReal local) true).
Abbreviation difference := (ompi_group_difference (ProcReal local) true).

(** C30: The union is the processes of the first group followed by those of the
  second that are not in the first, each in its order, for any bitmap that
  satisfies the interface. *)
Theorem union_spec st g1 grp1 g2 grp2 :
group_inv local (groups st) → groups st !! g1 = Some grp1 → groups st !! g2 = Some grp2 →
grp_proc_count grp2 < bm_limit →
makes local st (members (groups st) g1 ++ filter (λ x, x ∉ members (groups st) g1) (members (groups st) g2))
  (union st g1 g2).
Proof.
intros Hinv H1 H2 Hlim. pose proof Hinv as [Hwf _]. unfold ompi_group_union.
destruct (bm_init_law 32) as (b0 & -> & Hb0); [done|]. run. cbn [negb Z.eqb OMPI_SUCCESS].
destruct (dense_overlap_spec _ g1 grp1 g2 grp2 b0 ∅ Hwf H1 H2 Hlim Hb0) as (b & -> & Hb). run.
rewrite (proj2 (Z.ltb_ge _ _)) by lia. unfold proc_count. rewrite H1, H2. run.
destruct (all_ptrs _ _ _ Hwf H1) as (p1 & E1 & (Hnd1 & Hn1 & Hs1) & Em1).
destruct (unmarked_ptrs _ _ _ _ _ _ Hwf H1 H2 Hb) as (p2 & E2 & (Hnd2 & Hn2 & Hs2) & Em2).
pose proof (members_NoDup local _ _ _ Hwf H1) as Hnd. pose proof (members_NoDup local _ _ _ Hwf H2) as Hnd'.
assert (name_of <$> p1 ++ p2 = members (groups st) g1 ++
  filter (λ x, x ∉ members (groups st) g1) (members (groups st) g2)) as Em by (by rewrite fmap_app, Em1, Em2).
replace (grp_proc_count grp1 + grp_proc_count grp2 - _) with (Z.of_nat (length (p1 ++ p2))).
2:{ rewrite <- (length_fmap name_of), Em, length_app, (common_length _ _ Hnd Hnd').
    rewrite <- (members_length local _ _ _ Hwf H1), <- (members_length local _ _ _ Hwf H2).
    pose proof (filter_split (λ x, x ∈ members (groups st) g1) (members (groups st) g2)). lia. }
rewrite <- Em. destruct (Z.eqb_spec (Z.of_nat (length (p1 ++ p2))) 0) as [E0|_].
{ rewrite (nil_length_inv (p1 ++ p2)) by lia. by apply makes_empty. }
rewrite allocate_spec. run. cbn [groups]. rewrite E1, E2. run.
apply (fill_and_rank st g1 grp1 g2 grp2 _ (λ r1 r2, negb (r1 =? MPI_UNDEFINED) || negb (r2 =? MPI_UNDEFINED))); try done.
- split; [rewrite Em; by apply union_NoDup|]. split; rewrite elem_of_app; tauto.
- rewrite (my_rank_undefined _ _ _ Hinv H1), (my_rank_undefined _ _ _ Hinv H2), Em, elem_of_app, list_elem_of_filter.
  repeat case_bool_decide; try done. tauto.
Qed.

(** The difference is the processes of the first group that are not in the
  second, in their order, for any bitmap that satisfies the interface. *)
Theorem difference_spec st g1 grp1 g2 grp2 :
group_inv local (groups st) → groups st !! g1 = Some grp1 → groups st !! g2 = Some grp2 →
grp_proc_count grp1 < bm_limit →
makes local st (filter (λ x, x ∉ members (groups st) g2) (members (groups st) g1)) (difference st g1 g2).
Proof.
intros Hinv H1 H2 Hlim. pose proof Hinv as [Hwf _]. unfold ompi_group_difference.
destruct (bm_init_law 32) as (b0 & -> & Hb0); [done|]. run. cbn [negb Z.eqb OMPI_SUCCESS].
destruct (dense_overlap_spec _ g2 grp2 g1 grp1 b0 ∅ Hwf H2 H1 Hlim Hb0) as (b & -> & Hb). run.
rewrite (proj2 (Z.ltb_ge _ _)) by lia. unfold proc_count. rewrite H1. run.
destruct (unmarked_ptrs _ _ _ _ _ _ Hwf H2 H1 Hb) as (ptrs & E & Hok & Em).
pose proof (members_NoDup local _ _ _ Hwf H1) as Hnd. pose proof (members_NoDup local _ _ _ Hwf H2) as Hnd'.
replace (grp_proc_count grp1 - _) with (Z.of_nat (length ptrs)).
2:{ rewrite <- (length_fmap name_of), Em, (common_length _ _ Hnd' Hnd), <- (members_length local _ _ _ Hwf H1).
    pose proof (filter_split (λ x, x ∈ members (groups st) g2) (members (groups st) g1)). lia. }
rewrite <- Em. destruct (Z.eqb_spec (Z.of_nat (length ptrs)) 0) as [E0|_].
{ rewrite (nil_length_inv ptrs) by lia. by apply makes_empty. }
rewrite allocate_spec. run. cbn [groups]. rewrite E. run.
apply (fill_and_rank st g1 grp1 g2 grp2 _ (λ r1 r2, negb ((r1 =? MPI_UNDEFINED) || negb (r2 =? MPI_UNDEFINED)))); try done.
rewrite (my_rank_undefined _ _ _ Hinv H1), (my_rank_undefined _ _ _ Hinv H2), Em, list_elem_of_filter.
repeat case_bool_decide; try done; tauto.
Qed.

End bitmap.

End specs.

(** ** Examples *)

Definition example_state : gstate := mk_gstate example_groups ∅.

(** Sparse storage, with the word 7 before the array, and ranks of its own at the start
    of an object. *)
Lemma incl_witness :
  makes 10 example_state [11; 13; 15] (ompi_group_incl (ProcReal 10) true true (Some 7) example_state 1 [1; 3; 5]) ∧
  ompi_group_incl (ProcReal 10) true true None example_state 1 [1; 3; 5] = None.
Proof.
  split.
  - apply (incl_spec 10 true (Some 7) example_state 1 _ [1; 3; 5] example_inv eq_refl); [split; by_evaluation|].
    intros _. split_and!; [by_evaluation|by exists 7|done].
  - apply (incl_spec 10 true None example_state 1 _ [1; 3; 5] example_inv eq_refl); [split; by_evaluation|done..].
Defined.

Lemma excl_witness :
  makes_own 10 false example_state [10; 12; 13] (ompi_group_excl (ProcReal 10) false true example_state 1 [5; 1; 4]).
Proof. apply (excl_spec 10 false example_state 1 _ [5; 1; 4] example_inv eq_refl); [split; by_evaluation|done]. Defined.

(** The triplets [(5, 1, -2)] and [(0, 0, 1)]; [(1, 2, INT_MAX)] overflows. *)
Lemma range_incl_excl_witness :
  (makes 10 example_state [15; 13; 11; 10] (ompi_group_range_incl (ProcReal 10) false true example_state 1 [(5, 1, -2); (0, 0, 1)]) ∧
   makes 10 example_state [12; 14] (ompi_group_range_excl (ProcReal 10) false true example_state 1 [(5, 1, -2); (0, 0, 1)])) ∧
  ompi_group_range_incl (ProcReal 10) false true example_state 1 [(1, 2, INT_MAX)] = None.
Proof.
  split.
  - apply (range_incl_excl_spec 10 false example_state 1 _ [(5, 1, -2); (0, 0, 1)] example_inv eq_refl); [done| |split; by_evaluation].
    repeat constructor; done.
  - apply (range_incl_excl_spec 10 false example_state 1 _ [(1, 2, INT_MAX)] example_inv eq_refl); [done| |split; by_evaluation].
    repeat constructor; done.
Defined.

Lemma intersection_witness :
  makes_own 10 false example_state [10; 14] (ompi_group_intersection (ProcReal 10) false true true example_state 2 4).
Proof. by apply (intersection_spec 10 false example_state 2 _ 4 _ example_inv eq_refl eq_refl). Defined.

Lemma union_witness :
  makes 10 example_state [10; 12; 14; 15]
    (@ompi_group_union (ProcReal 10) true _ (opal_bitmap_ops (λ _, 7)) example_state 2 4).
Proof. by apply (union_spec 10 (B := OpalBitmap.opal_bitmap_t) example_state 2 _ 4 _ example_inv eq_refl eq_refl). Defined.

Lemma difference_witness :
  makes 10 example_state [12]
    (@ompi_group_difference (ProcReal 10) true _ (opal_bitmap_ops (λ _, 7)) example_state 2 4).
Proof. by apply (difference_spec 10 (B := OpalBitmap.opal_bitmap_t) example_state 2 _ 4 _ example_inv eq_refl eq_refl). Defined.

End GroupSetSpec.
