(* ===== verification/GroupCompare.v ===== *)
(** * Comparison of MPI groups, and reference counts

    Comparison and overlap in terms of the members; allocation failure; and
    the balance of process references when a group is made and freed. *)

From stdpp Require Import base numbers list gmap.
From S2P Require Import Prelude OpalBitmap Group GroupOps GroupSpec GroupStore GroupOpsSpec GroupSetSpec.
Import Group GroupOps GroupSpec GroupStore GroupOpsSpec GroupSetSpec.

Local Open Scope Z_scope.
Local Open Scope c_scope.

Module GroupCompare.

Section specs.
Context (local : Z).

(** ** Comparison *)

Lemma opt_rank_Some x m r : NoDup m → opt_rank x m = Some r → 0 ≤ r ∧ m !! Z.to_nat r = Some x.
Proof.
intros Hnd. unfold opt_rank. case_decide as Hin; [|done]. intros [= <-].
apply list_elem_of_lookup in Hin as [n Hn]. rewrite (proj2 (rank_in_spec x m n Hnd) Hn), Nat2Z.id. split; [lia|done].
Qed.

(** The loop on the lists of members. *)
Fixpoint compare_lists (l m2 : list Z) (k : nat) (identical : bool) : bool * bool :=
match l with
| [] => (true, identical)
| x :: l' =>
    match opt_rank x m2 with
    | None => (false, false)
    | Some r => compare_lists l' m2 (S k) (identical && (Z.of_nat k =? r))
    end
end.

Lemma compare_loop_lists gs g1 grp1 g2 grp2 :
wf_store local gs → gs !! g1 = Some grp1 → gs !! g2 = Some grp2 →
compare_loop gs g1 g2 (Z.to_nat (grp_proc_count grp2)) (Z.to_nat (grp_proc_count grp1)) 0 true =
  Some (compare_lists (members gs g1) (members gs g2) 0 true).
Proof.
intros Hwf H1 H2. pose proof (members_length local _ _ _ Hwf H1) as Hl1.
assert (∀ n k id, (k + n)%nat = length (members gs g1) →
  compare_loop gs g1 g2 (Z.to_nat (grp_proc_count grp2)) n (Z.of_nat k) id =
    Some (compare_lists (drop k (members gs g1)) (members gs g2) k id)) as Hgen.
{ induction n as [|n IH]; intros k id Hk; cbn [compare_loop]; [by rewrite drop_ge by lia|].
  destruct (lookup_lt_is_Some_2 (members gs g1) k) as [x Hx]; [lia|].
  rewrite (get_name_spec local gs g1 grp1), Nat2Z.id, Hx by (done || lia). run.
  rewrite (find_name_spec local gs g2 grp2), (drop_S _ _ _ Hx) by done. run. cbn [compare_lists].
  destruct (opt_rank x (members gs g2)); [|done].
  replace (Z.of_nat k + 1) with (Z.of_nat (S k)) by lia. apply IH. lia. }
specialize (Hgen (length (members gs g1)) O true eq_refl). rewrite drop_0 in Hgen.
by rewrite <- Hl1, Nat2Z.id.
Qed.

Lemma compare_lists_similar l m2 k id : (compare_lists l m2 k id).1 = true ↔ l ⊆ m2.
Proof.
revert k id. induction l as [|x l IH]; intros k id; cbn [compare_lists].
{ split; [|done]. intros _ y Hy. by apply elem_of_nil in Hy. }
unfold opt_rank. case_decide as Hin; cbn.
- rewrite IH. split; [intros H y Hy|intros H y Hy; apply H; by right].
  apply elem_of_cons in Hy as [->|Hy]; [done|by apply H].
- split; [done|]. intros H. by destruct Hin; apply H; left.
Qed.

Lemma compare_lists_identical l m2 k id :
NoDup m2 → (compare_lists l m2 k id).2 = true ↔ id = true ∧ ∀ j x, l !! j = Some x → m2 !! (k + j)%nat = Some x.
Proof.
intros Hnd. revert k id. induction l as [|x l IH]; intros k id; cbn [compare_lists]; [by intuition|].
destruct (opt_rank x m2) as [r|] eqn:Er; cbn.
- apply opt_rank_Some in Er as [Hr Hx]; [|done]. rewrite IH, andb_true_iff, Z.eqb_eq. split.
  + intros [[-> <-] H]. split; [done|]. intros [|j] y Hy; cbn in Hy; simplify_eq.
    * by rewrite Nat.add_0_r, <- Hx, Nat2Z.id.
    * rewrite <- Nat.add_succ_comm. by apply H.
  + intros [-> H]. specialize (H O x eq_refl) as H0. rewrite Nat.add_0_r in H0. rewrite NoDup_alt in Hnd.
    pose proof (Hnd _ _ _ H0 Hx). split; [split; [done|lia]|]. intros j y Hy. rewrite Nat.add_succ_comm. by apply H.
- split; [done|]. intros [_ H]. specialize (H O x eq_refl). apply list_elem_of_lookup_2 in H.
  unfold opt_rank in Er. by case_decide.
Qed.

Lemma similar_permutation (m1 m2 : list Z) :
NoDup m1 → length m1 = length m2 → m1 ⊆ m2 ↔ m1 ≡ₚ m2.
Proof.
intros Hnd El. split.
- intros Hs. apply submseteq_length_Permutation; [by apply NoDup_submseteq|lia].
- intros Hp x Hx. by rewrite <- Hp.
Qed.

Lemma identical_equal (m1 m2 : list Z) :
length m1 = length m2 →
(true = true ∧ ∀ j x, m1 !! j = Some x → m2 !! (0 + j)%nat = Some x) ↔ m1 = m2.
Proof.
intros El. split; [intros [_ H]|by intros ->]. apply list_eq_same_length with (length m2); [done|done|].
intros j x y Hj Hx Hy. apply H in Hx. cbn in Hx. congruence.
Qed.

(** Comparing groups, whatever their storage, gives [MPI_IDENT] exactly when
  they have the same members in the same order and [MPI_UNEQUAL] exactly when
  they are not permutations of each other; a group without members must be
  [MPI_GROUP_EMPTY], which is what the operations return. *)
Theorem compare_spec gs g1 grp1 g2 grp2 :
wf_store local gs → gs !! g1 = Some grp1 → gs !! g2 = Some grp2 →
(members gs g1 = [] → g1 = MPI_GROUP_EMPTY) → (members gs g2 = [] → g2 = MPI_GROUP_EMPTY) →
∃ result, ompi_group_compare gs g1 g2 = Some result ∧
  (result = MPI_IDENT ↔ members gs g1 = members gs g2) ∧
  (result = MPI_UNEQUAL ↔ ¬ members gs g1 ≡ₚ members gs g2).
Proof.
intros Hwf H1 H2 He1 He2. unfold ompi_group_compare, proc_count.
case_bool_decide as Heq; [subst; by exists MPI_IDENT|].
case_bool_decide as Hz1; [|case_bool_decide as Hz2]; cbn [orb].
1,2: exists MPI_UNEQUAL; split; [done|]; subst; rewrite (empty_members local) by done.
{ assert (members gs g2 ≠ []) by naive_solver. split; [naive_solver|].
  split; [|done]. intros _ Hp. by apply Permutation_nil_l in Hp. }
{ assert (members gs g1 ≠ []) by naive_solver. split; [done|].
  split; [|done]. intros _ Hp. by apply Permutation_nil_r in Hp. }
rewrite H1, H2. run. pose proof (members_length local _ _ _ Hwf H1) as Hl1.
pose proof (members_length local _ _ _ Hwf H2) as Hl2.
destruct (Z.eqb_spec (grp_proc_count grp1) (grp_proc_count grp2)) as [E|E]; cbn [negb].
2:{ exists MPI_UNEQUAL. split; [done|]. assert (¬ members gs g1 ≡ₚ members gs g2) as Hp.
    { intros Hp. apply Permutation_length in Hp. lia. }
    split; [|done]. split; [done|]. intros E'. by rewrite E' in Hp. }
assert (length (members gs g1) = length (members gs g2)) as El by lia.
pose proof (members_NoDup local _ _ _ Hwf H1) as Hnd1. pose proof (members_NoDup local _ _ _ Hwf H2) as Hnd2.
rewrite (compare_loop_lists _ _ grp1 _ grp2) by done. run.
pose proof (compare_lists_similar (members gs g1) (members gs g2) 0 true) as Hs.
pose proof (compare_lists_identical (members gs g1) (members gs g2) 0 true Hnd2) as Hi.
rewrite (similar_permutation _ _ Hnd1 El) in Hs. rewrite (identical_equal _ _ El) in Hi.
destruct (compare_lists _ _ 0 true) as [similar identical]. cbn [fst snd] in *. eexists. split; [done|].
assert (members gs g1 = members gs g2 → members gs g1 ≡ₚ members gs g2) by (by intros ->).
destruct identical, similar; split; split; try done; intuition congruence.
Qed.
(** Overlap says whether the groups have a common process. *)
Theorem overlap_spec gs g1 grp1 g2 grp2 :
wf_store local gs → gs !! g1 = Some grp1 → gs !! g2 = Some grp2 →
∃ b, ompi_group_overlap gs g1 g2 = Some b ∧ (b = true ↔ ∃ x, x ∈ members gs g1 ∧ x ∈ members gs g2).
Proof.
intros Hwf H1 H2. pose proof (members_length local _ _ _ Hwf H1) as Hl1.
assert (∀ n k, (k + n)%nat = length (members gs g1) → ∃ b,
  overlap_loop gs g1 g2 (Z.to_nat (grp_proc_count grp2)) n (Z.of_nat k) = Some b ∧
  (b = true ↔ ∃ x, x ∈ drop k (members gs g1) ∧ x ∈ members gs g2)) as Hgen.
{ induction n as [|n IH]; intros k Hk; cbn [overlap_loop].
  { exists false. split; [done|]. rewrite drop_ge by lia. split; [done|]. intros (x & Hx & _). by apply elem_of_nil in Hx. }
  destruct (lookup_lt_is_Some_2 (members gs g1) k) as [x Hx]; [lia|].
  rewrite (get_name_spec local gs g1 grp1), Nat2Z.id, Hx by (done || lia). run.
  rewrite (find_name_spec local gs g2 grp2), (drop_S _ _ _ Hx) by done. run. unfold opt_rank. case_decide as Hin.
  - exists true. split; [done|]. split; [|done]. intros _. exists x. split; [by left|done].
  - replace (Z.of_nat k + 1) with (Z.of_nat (S k)) by lia. destruct (IH (S k) ltac:(lia)) as (b & -> & Hb).
    exists b. split; [done|]. rewrite Hb. split; intros (y & Hy & Hy2); exists y; (split; [|done]).
    + by right.
    + apply elem_of_cons in Hy as [->|Hy]; done. }
unfold ompi_group_overlap, proc_count. rewrite H1, H2. run.
destruct (Hgen (length (members gs g1)) O eq_refl) as (b & E & Hb). rewrite drop_0 in Hb.
exists b. split; [|done]. by rewrite <- Hl1, Nat2Z.id.
Qed.

(** ** Allocation failure *)

(** When the group object cannot be allocated, including ranks reports
  [MPI_ERR_GROUP] and changes nothing, whichever format is chosen. *)
Theorem incl_no_memory use_sparse before st g grp ranks :
groups st !! g = Some grp → ranks_valid (grp_proc_count grp) ranks → ranks ≠ [] →
(use_sparse = true → readable before ∧ grp_proc_count grp ≤ INT_MAX) →
ompi_group_incl (ProcReal local) use_sparse false before st g ranks = Some (MPI_ERR_GROUP, None, st).
Proof.
intros Hg Hv Hne Hs. destruct ranks as [|r rest]; [done|]. unfold ompi_group_incl, proc_count. rewrite Hg. run.
destruct use_sparse; run; [|done]. destruct (Hs eq_refl) as [Hb Hn]. unfold ompi_group_calc_sporadic, ompi_group_incl_spor.
destruct (runs_format_spec before r rest _ Hv Hn Hb) as (-> & _). run.
match goal with |- context [ompi_group_minloc [?a; ?b; ?c; ?d]] => destruct (minloc_usable a b c d) as (i & -> & Hi) end.
run. by destruct Hi as [->|[[-> _]|[[-> _]|[-> _]]]].
Qed.

(** ** Process references *)

Definition refs_of (st : gstate) (n : Z) : Z := default 0 (proc_refs st !! n).

(** How often a process structure occurs. *)
Definition occurrences (n : Z) (ptrs : list ompi_proc_ptr) : Z :=
Z.of_nat (length (filter (λ p, p = ProcReal n) ptrs)).

Lemma add_procs_count delta ptrs refs n :
default 0 (foldl (add_proc delta) refs ptrs !! n) = default 0 (refs !! n) + delta * occurrences n ptrs.
Proof.
unfold occurrences. revert refs. induction ptrs as [|p ptrs IH]; intros refs; [cbn; lia|]. cbn [foldl]. rewrite IH.
destruct p as [|m|m]; cbn [add_proc]; [by rewrite filter_cons_False..|].
destruct (decide (m = n)) as [->|Hne].
- rewrite filter_cons_True, lookup_insert_eq by done. cbn. lia.
- rewrite filter_cons_False, lookup_insert_ne by congruence. done.
Qed.

(** Making a dense group and freeing it leaves every process with the
  references it had. *)
Theorem incl_free_balanced before st g grp ranks :
group_inv local (groups st) → groups st !! g = Some grp → ranks_valid (grp_proc_count grp) ranks → ranks ≠ [] →
∃ new st1 st2, ompi_group_incl (ProcReal local) false true before st g ranks = Some (OMPI_SUCCESS, Some new, st1) ∧
  ompi_group_free st1 new = Some (OMPI_SUCCESS, st2) ∧ ∀ n, refs_of st2 n = refs_of st n.
Proof.
intros Hinv Hg Hv Hne. destruct (incl_plist_state local st g grp ranks Hinv Hg Hv Hne) as (ptrs & Hok & _ & E).
eexists _, _, _. split; [exact E|]. unfold ompi_group_free. cbn [group_release groups].
rewrite last_object. run. cbn [dense_group grp_refs grp_data grp_parent_group_ptr].
change (negb (1 - 1 =? 0)) with false. cbn iota. fold (dense_group (rank_in local (name_of <$> ptrs)) ptrs).
rewrite set_last. unfold ompi_group_decrement_proc_count.
rewrite (change_proc_count_spec (-1) (mk_gstate _ _) _ ptrs).
- run. split; [done|]. intros n. unfold refs_of. cbn [proc_refs]. rewrite !add_procs_count. lia.
- cbn [groups]. eapply (reads_dense _ _ (with_refs (dense_group (rank_in local (name_of <$> ptrs)) ptrs) _));
    [apply last_object|done..].
Qed.

(** A strided group keeps references when it is freed: one on every process
  structure of its parent, and one more on every process structure it holds. *)
Theorem incl_strided_free_leaks st g grp ranks :
group_inv local (groups st) → groups st !! g = Some grp → 0 < grp_refs grp →
ranks_valid (grp_proc_count grp) ranks → ranks ≠ [] → check_stride ranks ≠ -1 →
∃ new st1 st2, ompi_group_incl_strided true st g ranks = Some (OMPI_SUCCESS, Some new, st1) ∧
  ompi_group_free st1 new = Some (OMPI_SUCCESS, st2) ∧
  ∀ n, refs_of st2 n = refs_of st n + occurrences n (pointers (groups st1) g) + occurrences n (pointers (groups st1) new).
Proof.
intros Hinv Hg Hrefs Hv Hne Hc.
destruct (incl_strided_sparse local st g grp ranks Hinv Hg Hv Hc Hne) as (first & lst & -> & _ & Hg0 & Hwd & Hu).
rewrite (make_sparse_state local st g grp) by (done || by right). cbn zeta.
pose proof (lookup_lt_Some _ _ _ Hg) as Hlt.
assert (∃ f, length (groups st) = S f) as [f Ef] by (exists (pred (length (groups st))); lia).
eexists _, _, _. split; [done|]. unfold ompi_group_free. cbn [group_release groups].
set (gs' := <[g := with_refs grp (grp_refs grp + 1)]> (groups st)).
assert (length gs' = length (groups st)) as El by apply length_insert. rewrite <- El.
rewrite last_object. run. cbn [sparse_group grp_refs grp_data grp_parent_group_ptr].
change (negb (1 - 1 =? 0)) with false. cbn iota. rewrite set_last. run.
rewrite El, Ef. cbn [group_release groups]. rewrite (lookup_app_l_Some _ _ _ (with_refs grp (grp_refs grp + 1)))
  by by apply same_shape_lookup.
run. cbn [grp_refs with_refs]. rewrite (proj2 (Z.eqb_neq _ _)) by lia. cbn [negb]. run.
split; [done|]. intros n. unfold refs_of. cbn [set_group proc_refs groups]. rewrite add_procs_count.
unfold occurrences, gs'. rewrite filter_app, length_app. lia.
Qed.

Lemma change_proc_count_groups delta st g st' : change_proc_count delta st g = Some st' → groups st' = groups st.
Proof.
unfold change_proc_count. destruct (proc_count _ _); [|done]. run. destruct (count_procs _ _ _ _ _ _); [|done].
run. by intros [= <-].
Qed.

Lemma allocate_sparse_groups st g grp count d new st1 :
groups st !! g = Some grp → allocate_sparse st g count d = Some (new, st1) →
new = length (groups st) ∧
groups st1 = <[g := with_refs grp (grp_refs grp + 1)]> (groups st) ++ [sparse_group MPI_UNDEFINED g count d].
Proof.
intros Hg. unfold allocate_sparse. rewrite (retain_app _ _ _ _ _ Hg). run.
destruct (ompi_group_increment_proc_count _ g) as [st2|] eqn:E2; [|done]. run.
destruct (ompi_group_increment_proc_count st2 _) as [st3|] eqn:E3; [|done]. run. intros [= <- <-].
apply change_proc_count_groups in E2, E3. by rewrite E3, E2.
Qed.

(** Including ranks in the bitmap format from a group the calling process is
  not a member of reads the bit array at the negative rank [MPI_UNDEFINED]. *)
Theorem incl_bmap_outside st g grp ranks :
group_inv local (groups st) → groups st !! g = Some grp → local ∉ members (groups st) g →
ranks_valid (grp_proc_count grp) ranks → ranks ≠ [] →
ompi_group_incl_bmap true st g ranks = None.
Proof.
intros Hinv Hg Hout Hv Hne. unfold ompi_group_incl_bmap.
replace (Z.of_nat (length ranks) =? 0) with false by (by destruct ranks). cbn [negb].
destruct (proc_count _ _) as [n|]; [|done]. run. destruct (set_bits _ ranks) as [array|]; [|done]. run.
destruct (allocate_sparse _ _ _ _) as [[new st1]|] eqn:E; [|done]. run.
destruct (allocate_sparse_groups _ _ _ _ _ _ _ Hg E) as [-> Egs]. unfold set_my_rank_from. rewrite Egs.
assert (g ≠ MPI_GROUP_EMPTY) as Hg0
  by (destruct ranks; [done|]; eapply nonempty_group; [apply Hinv|done..]).
pose proof (lookup_lt_Some _ _ _ Hg) as Hlt. destruct Hinv as [Hwf Hrk].
set (gs' := <[g := with_refs grp (grp_refs grp + 1)]> (groups st)).
assert (length gs' = length (groups st)) as El by apply length_insert. rewrite <- El.
assert (gs' !! g = Some (with_refs grp (grp_refs grp + 1))) as Hg' by by apply same_shape_lookup.
rewrite !(lookup_app_l_Some _ _ _ _ Hg'). run.
unfold ompi_group_translate_ranks. rewrite (bool_decide_eq_false_2 _ Hg0), (bool_decide_eq_false_2 (length _ = _))
  by (unfold MPI_GROUP_EMPTY; lia).
rewrite (lookup_app_l_Some _ _ _ _ Hg'), last_object. run. cbn [orb].
rewrite bool_decide_eq_false_2 by (intros Hp; pose proof (wf_parent local _ g grp _ Hwf Hg Hp); lia).
rewrite bool_decide_eq_true_2 by done. cbn [mapM grp_data grp_my_rank with_refs sparse_group].
rewrite (Hrk g grp Hg). unfold rank_in. by rewrite (pos_of_not_in _ _ _ Hout).
Qed.

End specs.

(** ** Examples *)

(** The strided and the sporadic group: neither equal nor permutations. *)
Lemma compare_witness :
  ∃ result, ompi_group_compare example_groups 2 4 = Some result ∧
    (result = MPI_IDENT ↔ members example_groups 2 = members example_groups 4) ∧
    (result = MPI_UNEQUAL ↔ ¬ members example_groups 2 ≡ₚ members example_groups 4).
Proof. by apply (compare_spec 10 example_groups 2 _ 4 _ example_groups_wf eq_refl eq_refl). Defined.

Lemma overlap_witness :
  ∃ b, ompi_group_overlap example_groups 2 3 = Some b ∧
    (b = true ↔ ∃ x, x ∈ members example_groups 2 ∧ x ∈ members example_groups 3).
Proof. by apply (overlap_spec 10 example_groups 2 _ 3 _ example_groups_wf eq_refl eq_refl). Defined.

Lemma incl_no_memory_witness :
  ompi_group_incl (ProcReal 10) true false (Some 0) example_state 1 [1; 3; 5] = Some (MPI_ERR_GROUP, None, example_state).
Proof. apply (incl_no_memory 10 true (Some 0) example_state 1 _ [1; 3; 5] eq_refl); [split; by_evaluation|done|]. intros _. split; [by exists 0|done]. Defined.

Lemma incl_free_balanced_witness :
  ∃ new st1 st2,
    ompi_group_incl (ProcReal 10) false true None example_state 1 [4; 0] = Some (OMPI_SUCCESS, Some new, st1) ∧
    ompi_group_free st1 new = Some (OMPI_SUCCESS, st2) ∧ ∀ n, refs_of st2 n = refs_of example_state n.
Proof.
  apply (incl_free_balanced 10 None example_state 1 _ [4; 0] example_inv eq_refl); [split; by_evaluation|done].
Defined.

Lemma incl_strided_free_leaks_witness :
  ∃ new st1 st2, ompi_group_incl_strided true example_state 1 [0; 2; 4] = Some (OMPI_SUCCESS, Some new, st1) ∧
    ompi_group_free st1 new = Some (OMPI_SUCCESS, st2) ∧
    ∀ n, refs_of st2 n =
      refs_of example_state n + occurrences n (pointers (groups st1) 1) + occurrences n (pointers (groups st1) new).
Proof.
  apply (incl_strided_free_leaks 10 example_state 1 _ [0; 2; 4] example_inv eq_refl);
    [done|split; by_evaluation|done|done].
Defined.

Lemma incl_bmap_outside_witness : ompi_group_incl_bmap true example_state 3 [0; 2] = None.
Proof.
  apply (incl_bmap_outside 10 example_state 3 _ [0; 2] example_inv eq_refl); [by_evaluation|split; by_evaluation|done].
Defined.

End GroupCompare.
