(* ===== verification/GroupLookup.v ===== *)
(** * Lazy process structures in MPI groups

    Looking a peer up replaces a sentinel in the dense ancestor of a group by
    the process structure ([ompi_group_dense_lookup]); flattening makes a dense
    copy.  Process allocation succeeds, and one thread runs, so the
    compare-and-swap does. *)

From stdpp Require Import base numbers list gmap.
From S2P Require Import Prelude OpalBitmap Group GroupOps GroupSpec GroupStore GroupOpsSpec GroupSetSpec.
Import Group GroupOps GroupSpec GroupStore GroupOpsSpec GroupSetSpec.

Local Open Scope Z_scope.
Local Open Scope c_scope.

Module GroupLookup.

Definition with_pointers (grp : ompi_group_t) (ptrs : list ompi_proc_ptr) : ompi_group_t :=
  mk_group (grp_proc_count grp) (grp_my_rank grp) ptrs (grp_parent_group_ptr grp) (grp_data grp) (grp_refs grp).

(** The result and the state; a sentinel is NULL unless [allocate]. *)
Definition ompi_group_dense_lookup (st : gstate) (g : nat) (peer_id : Z) (allocate : bool)
    : option (ompi_proc_ptr * gstate) :=
  grp ← groups st !! g;
  safe (0 <=? peer_id);
  proc ← grp_proc_pointers grp !! Z.to_nat peer_id;
  match proc with
  | ProcSentinel name =>
      if negb allocate then Some (ProcNull, st)
      else
        Some (ProcReal name,
              mk_gstate (<[g := with_pointers grp (<[Z.to_nat peer_id := ProcReal name]> (grp_proc_pointers grp))]> (groups st))
                        (<[name := default 0 (proc_refs st !! name) + 1]> (proc_refs st)))
  | _ => Some (proc, st)
  end.

(** The dense group above [g], and the rank there. *)
Fixpoint dense_ancestor (fuel : nat) (gs : list ompi_group_t) (g : nat) (rank : Z) : option (nat * Z) :=
  match fuel with
  | O => None
  | S f =>
      grp ← gs !! g;
      match grp_data grp with
      | Dense => Some (g, rank)
      | d => p ← grp_parent_group_ptr grp; r ← to_parent g p d rank; dense_ancestor f gs p r
      end
  end.

Definition ompi_group_get_proc_ptr (st : gstate) (g : nat) (rank : Z) (allocate : bool) : option (ompi_proc_ptr * gstate) :=
  '(a, r) ← dense_ancestor (S g) (groups st) g rank; ompi_group_dense_lookup st a r allocate.

Definition ompi_group_peer_lookup (st : gstate) (g : nat) (peer_id : Z) : option (ompi_proc_ptr * gstate) :=
  ompi_group_get_proc_ptr st g peer_id true.

(** Looks up [n] ranks from [i] on. *)
Fixpoint lookup_peers (st : gstate) (g : nat) (n : nat) (i : Z) : option (list ompi_proc_ptr * gstate) :=
  match n with
  | O => Some ([], st)
  | S n' =>
      '(p, st1) ← ompi_group_peer_lookup st g i;
      '(ps, st2) ← lookup_peers st1 g n' (i + 1);
      Some (p :: ps, st2)
  end.

(** NULL when an allocation fails. *)
Definition ompi_group_flatten (alloc_ok : bool) (st : gstate) (group : nat) (max_procs : Z)
    : option (option nat * gstate) :=
  grp ← groups st !! group;
  let proc_count := if grp_proc_count grp <? max_procs then grp_proc_count grp else max_procs in
  if negb alloc_ok then Some (None, st)
  else
    safe (0 <=? proc_count);
    '(ptrs, st1) ← match grp_data grp with
                   | Dense =>
                       safe (proc_count <=? Z.of_nat (length (grp_proc_pointers grp)));
                       Some (take (Z.to_nat proc_count) (grp_proc_pointers grp), st)
                   | _ => lookup_peers st group (Z.to_nat proc_count) 0
                   end;
    let new := length (groups st1) in
    let my_rank := if max_procs <=? grp_my_rank grp then MPI_UNDEFINED else grp_my_rank grp in
    st2 ← ompi_group_increment_proc_count
            (mk_gstate (groups st1 ++ [mk_group proc_count my_rank ptrs None Dense 1]) (proc_refs st1)) new;
    Some (Some new, st2).

(** [ompi_group_proc_lookup_rank]: the search starts at the number of the
    process in its job, [vpid], a 32-bit unsigned integer. *)
Fixpoint lookup_rank_from (gs : list ompi_group_t) (g : nat) (proc_name vpid np : Z) (n : nat) (i : Z) : option Z :=
  match n with
  | O => Some MPI_PROC_NULL
  | S n' =>
      let rank := wrap 32 (i + vpid) `mod` np in
      p ← ompi_group_get_proc_ptr_raw gs g rank;
      match p with
      | ProcReal name | ProcSentinel name =>
          if name =? proc_name then Some rank else lookup_rank_from gs g proc_name vpid np n' (i + 1)
      | ProcNull => lookup_rank_from gs g proc_name vpid np n' (i + 1)
      end
  end.

Definition ompi_group_proc_lookup_rank (gs : list ompi_group_t) (g : nat) (proc_name vpid : Z) : option Z :=
  np ← proc_count gs g;
  if np =? 0 then Some MPI_PROC_NULL
  else lookup_rank_from gs g proc_name vpid np (Z.to_nat np) 0.

(** ** Lookups do not change the groups *)

(** Stores whose groups differ in whether a process is a sentinel only. *)
Definition named (grp : ompi_group_t) : Z * Z * list Z * option nat * sparse_data :=
  (grp_proc_count grp, grp_my_rank grp, name_of <$> grp_proc_pointers grp, grp_parent_group_ptr grp, grp_data grp).

Record same_names (gs gs' : list ompi_group_t) : Prop := mk_same_names { same_names_map : named <$> gs = named <$> gs' }.

#[global] Instance same_names_equivalence : Equivalence same_names.
Proof. split; [by intros ?|by intros ?? [H]|intros x y z [Hxy] [Hyz]]; split; congruence. Qed.

Lemma same_names_lookup gs gs' g grp :
  same_names gs gs' → gs !! g = Some grp → ∃ grp', gs' !! g = Some grp' ∧ named grp' = named grp.
Proof.
  intros [H] Hg. assert ((named <$> gs') !! g = Some (named grp)) as E by (by rewrite <- H, list_lookup_fmap, Hg).
  rewrite list_lookup_fmap in E. destruct (gs' !! g) as [grp'|]; [|done]. exists grp'. split; [done|]. by apply (inj Some).
Qed.

Lemma omap_names (P : list ompi_proc_ptr) (l : list Z) :
  name_of <$> omap (λ r, P !! Z.to_nat r) l = omap (λ r : Z, (name_of <$> P) !! Z.to_nat r) l.
Proof.
  induction l as [|r l IH]; [done|]. cbn [omap list_omap]. rewrite list_lookup_fmap.
  destruct (P !! Z.to_nat r); [|done]. rewrite fmap_cons. cbn. by rewrite IH.
Qed.

#[global] Instance members_names_proper : Proper (same_names ==> eq ==> eq) members.
Proof.
  intros gs gs' H g ? <-. unfold members, pointers. generalize (S g). intros f. revert g.
  induction f as [|f IH]; intros g; [done|]. cbn [pointers_f].
  destruct (gs !! g) as [grp|] eqn:Hg.
  - destruct (same_names_lookup gs gs' g grp H Hg) as (grp' & -> & E). injection E as E1 _ E2 E3 E4.
    rewrite E1, E3, E4. destruct (grp_data grp), (grp_parent_group_ptr grp); rewrite ?omap_names, <- ?IH; done.
  - destruct (gs' !! g) as [grp'|] eqn:Hg'; [|done].
    destruct (same_names_lookup gs' gs g grp') as (grp & ? & _); [by symmetry|done|congruence].
Qed.

Section specs.
Context (local : Z).

Definition no_sentinel (grp : ompi_group_t) : Prop :=
grp_data grp = Dense → (ProcNull ∉ grp_proc_pointers grp) ∧ (ProcSentinel local ∉ grp_proc_pointers grp).

Lemma same_names_inv gs gs' :
same_names gs gs' → (∀ g grp, gs' !! g = Some grp → no_sentinel grp) → group_inv local gs → group_inv local gs'.
Proof.
intros H Hok [[(e & He & Hd & Hp) Hall] Hrk]. split; [split|].
- destruct (same_names_lookup gs gs' _ e H He) as (e' & He' & E). injection E as _ _ E2 _ E4. exists e'.
  split; [done|]. split; [congruence|]. rewrite Hp in E2. by apply fmap_nil_inv in E2.
- intros g grp' Hg'. destruct (same_names_lookup gs' gs g grp') as (grp & Hg & E); [by symmetry|done|].
  specialize (Hall g grp Hg). specialize (Hok g grp' Hg'). injection E as E1 _ E2 E3 E4. unfold wf_group in *.
  rewrite E1, E3, E4 in Hall. case_decide as Ed.
  + destruct Hall as (? & Hc & Hnd & _). destruct (Hok Ed). rewrite E2 in Hnd.
    apply (f_equal length) in E2. rewrite !length_fmap in E2. rewrite <- E2. done.
  + destruct Hall as (p & pgrp & ? & ? & ? & Hpg & ?).
    destruct (same_names_lookup gs gs' p pgrp H Hpg) as (pgrp' & Hpg' & E'). injection E' as E1' _ _ _ _.
    exists p, pgrp'. by rewrite E1'.
- intros g grp' Hg'. destruct (same_names_lookup gs' gs g grp') as (grp & Hg & E); [by symmetry|done|].
  injection E as _ E2 _ _ _. rewrite <- E2, <- H. by apply Hrk.
Qed.

Lemma inv_no_sentinel gs g grp : group_inv local gs → gs !! g = Some grp → no_sentinel grp.
Proof.
intros [[_ Hall] _] Hg Hd. specialize (Hall g grp Hg). unfold wf_group in Hall.
rewrite decide_True in Hall by done. tauto.
Qed.

Lemma elem_of_insert_inv {A} (l : list A) i x y : y ∈ <[i := x]> l → y = x ∨ y ∈ l.
Proof.
intros [j Hj]%list_elem_of_lookup. apply list_lookup_insert_Some in Hj as [(_ & -> & _)|[_ Hj]]; [by left|right].
by eapply list_elem_of_lookup_2.
Qed.

Lemma dense_lookup_spec st a grp r :
group_inv local (groups st) → groups st !! a = Some grp → grp_data grp = Dense → 0 ≤ r < grp_proc_count grp →
∃ n st', ompi_group_dense_lookup st a r true = Some (ProcReal n, st') ∧
  members (groups st) a !! Z.to_nat r = Some n ∧ same_names (groups st) (groups st') ∧ group_inv local (groups st').
Proof.
intros Hinv Ha Hd Hr. destruct (inv_no_sentinel _ _ _ Hinv Ha Hd) as [Hnull Hloc].
assert (members (groups st) a = name_of <$> grp_proc_pointers grp) as Em
  by (unfold members, pointers; cbn [pointers_f]; by rewrite Ha, Hd).
pose proof (members_length local _ _ _ (proj1 Hinv) Ha) as Hl. rewrite Em, length_fmap in Hl.
unfold ompi_group_dense_lookup. rewrite Ha. run. rewrite (proj2 (Z.leb_le _ _)) by lia.
destruct (lookup_lt_is_Some_2 (grp_proc_pointers grp) (Z.to_nat r)) as [p Hp]; [lia|]. rewrite Hp. run.
rewrite Em, list_lookup_fmap, Hp. destruct p as [|n|n].
- by apply list_elem_of_lookup_2 in Hp.
- cbn [negb]. eexists n, _. split; [done|]. split; [done|]. cbn [groups].
  assert (same_names (groups st) (<[a := with_pointers grp (<[Z.to_nat r := ProcReal n]> (grp_proc_pointers grp))]> (groups st))) as Hs.
  { split. rewrite list_fmap_insert. symmetry. apply list_insert_id. rewrite list_lookup_fmap, Ha. cbn. f_equal.
    unfold named, with_pointers. cbn. do 3 f_equal. rewrite list_fmap_insert. symmetry. apply list_insert_id.
    by rewrite list_lookup_fmap, Hp. }
  split; [done|]. eapply same_names_inv; [done| |done]. intros g grp' Hg. destruct (decide (a = g)) as [<-|Hne].
  + rewrite list_lookup_insert_eq in Hg by (by eapply lookup_lt_Some). injection Hg as <-. intros _.
    cbn [with_pointers grp_proc_pointers].
    split; intros Hin; apply elem_of_insert_inv in Hin as [?|?]; done.
  + rewrite list_lookup_insert_ne in Hg by done. by eapply inv_no_sentinel.
- eexists n, st. done.
Qed.

Lemma dense_ancestor_spec gs g grp rank f :
wf_store local gs → gs !! g = Some grp → 0 ≤ rank < grp_proc_count grp → (g < f)%nat →
∃ a agrp r, dense_ancestor f gs g rank = Some (a, r) ∧ gs !! a = Some agrp ∧ grp_data agrp = Dense ∧
  0 ≤ r < grp_proc_count agrp ∧ members gs a !! Z.to_nat r = members gs g !! Z.to_nat rank.
Proof.
intros Hwf. revert grp rank f. induction (lt_wf g) as [g _ IH]. intros grp rank f Hg Hr Hf.
destruct f as [|f]; [lia|]. cbn [dense_ancestor]. rewrite Hg. run.
destruct (decide (grp_data grp = Dense)) as [Ed|Ed]; [rewrite Ed; by exists g, grp, rank|].
pose proof Hwf as [_ Hall]. pose proof (Hall g grp Hg) as Hgrp. unfold wf_group in Hgrp. rewrite decide_False in Hgrp by done.
destruct Hgrp as (p & pgrp & Hpar & Hlt & Hne & Hpg & Hwd).
destruct (members_sparse local gs g grp p pgrp Hwf Hg Ed Hpar Hpg) as (Hm & _).
assert (to_parent g p (grp_data grp) rank = expand (grp_data grp) (grp_proc_count grp) !! Z.to_nat rank) as Et.
{ unfold to_parent. rewrite !bool_decide_false by (done || (unfold MPI_GROUP_EMPTY; lia)).
  by apply (reverse_rank_spec _ _ _ _ Hwd). }
pose proof Hwd as (Hlen & _ & Hrange & _).
destruct (lookup_lt_is_Some_2 (expand (grp_data grp) (grp_proc_count grp)) (Z.to_nat rank)) as [r Er]; [lia|].
rewrite Forall_forall in Hrange. specialize (Hrange r (list_elem_of_lookup_2 _ _ _ Er)). cbn in Hrange.
destruct (IH p Hlt pgrp r f Hpg Hrange ltac:(lia)) as (a & agrp & r' & E & ? & ? & ? & Em).
exists a, agrp, r'. rewrite Em, Hm, list_lookup_fmap, Er. cbn [fmap option_fmap option_map].
split; [|split_and!; try done; try lia].
- rewrite <- E, Hpar. destruct (grp_data grp); [done|..]; run; by rewrite Et, Er.
- pose proof (members_length local _ _ _ Hwf Hpg). apply list_lookup_lookup_total_lt. lia.
Qed.

Lemma peer_lookup_ok st g grp rank :
group_inv local (groups st) → groups st !! g = Some grp → 0 ≤ rank < grp_proc_count grp →
∃ n st', ompi_group_peer_lookup st g rank = Some (ProcReal n, st') ∧
  members (groups st) g !! Z.to_nat rank = Some n ∧ same_names (groups st) (groups st') ∧ group_inv local (groups st').
Proof.
intros Hinv Hg Hr.
destruct (dense_ancestor_spec _ g grp rank (S g) (proj1 Hinv) Hg Hr ltac:(lia)) as (a & agrp & r & E & Ha & Hd & Hr' & Em).
destruct (dense_lookup_spec st a agrp r Hinv Ha Hd Hr') as (n & st' & El & Hn & Hs & Hinv').
exists n, st'. unfold ompi_group_peer_lookup, ompi_group_get_proc_ptr. rewrite E. run. by rewrite El, <- Em.
Qed.

(** Looking up a peer returns the structure of the process with that rank,
  and neither the lookup nor the replacement of a sentinel in the dense
  ancestor changes the members or the ranks of any group. *)
Theorem peer_lookup_spec st g grp rank :
group_inv local (groups st) → groups st !! g = Some grp → 0 ≤ rank < grp_proc_count grp →
∃ n st', ompi_group_peer_lookup st g rank = Some (ProcReal n, st') ∧
  members (groups st) g !! Z.to_nat rank = Some n ∧ group_inv local (groups st') ∧
  ∀ h, members (groups st') h = members (groups st) h.
Proof.
intros Hinv Hg Hr. destruct (peer_lookup_ok st g grp rank Hinv Hg Hr) as (n & st' & E & Hn & Hs & Hinv').
exists n, st'. split_and!; try done. intros h. by rewrite Hs.
Qed.

Lemma lookup_peers_spec st g grp n i :
group_inv local (groups st) → groups st !! g = Some grp → 0 ≤ i → i + Z.of_nat n ≤ grp_proc_count grp →
∃ ptrs st', lookup_peers st g n i = Some (ptrs, st') ∧ same_names (groups st) (groups st') ∧
  group_inv local (groups st') ∧ ptrs = ProcReal <$> take n (drop (Z.to_nat i) (members (groups st) g)).
Proof.
revert st grp i. induction n as [|n IH]; intros st grp i Hinv Hg Hi Hn; cbn [lookup_peers].
{ by exists [], st. }
destruct (peer_lookup_ok st g grp i Hinv Hg ltac:(lia)) as (x & st1 & -> & Hx & Hs & Hinv1). run.
destruct (same_names_lookup _ _ g grp Hs Hg) as (grp1 & Hg1 & E1). injection E1 as Ec _ _ _ _.
destruct (IH st1 grp1 (i + 1) Hinv1 Hg1 ltac:(lia) ltac:(lia)) as (ptrs & st2 & -> & Hs2 & Hinv2 & Ep). run.
exists (ProcReal x :: ptrs), st2. split; [done|]. split; [by etrans|]. split; [done|].
rewrite (drop_S _ _ _ Hx), Ep. cbn [take]. rewrite fmap_cons. do 4 f_equal.
- lia.
- by rewrite Hs.
Qed.

Lemma pos_of_elem x l i : x ∈ l → i ≤ pos_of x l i < i + Z.of_nat (length l).
Proof.
revert i. induction l as [|y l IH]; intros i Hin; [by apply elem_of_nil in Hin|]. cbn [pos_of length].
destruct (Z.eqb_spec x y) as [->|Hne]; [lia|]. apply elem_of_cons in Hin as [?|Hin]; [done|].
specialize (IH (i + 1) Hin). lia.
Qed.

Lemma rank_in_take x m k :
rank_in x (take k m) = if Z.of_nat k <=? rank_in x m then MPI_UNDEFINED else rank_in x m.
Proof.
assert (rank_in x m = pos_of x (take k m ++ drop k m) 0) as -> by (by rewrite take_drop).
unfold rank_in. rewrite pos_of_app. case_decide as Hin.
- pose proof (pos_of_elem x _ 0 Hin) as Hp. rewrite length_take in Hp.
  by rewrite (proj2 (Z.leb_gt _ _)) by lia.
- rewrite (pos_of_not_in _ (take k m)) by done. rewrite length_take.
  destruct (decide (x ∈ drop k m)) as [Hd|Hd]; [|rewrite (pos_of_not_in _ (drop k m)) by done; by case_match].
  pose proof (pos_of_elem x _ (0 + Z.of_nat (k `min` length m)) Hd) as Hp. rewrite length_drop in Hp.
  by rewrite (proj2 (Z.leb_le _ _)) by lia.
Qed.

(** The pointers of the copy. *)
Lemma flatten_pointers st g grp k :
group_inv local (groups st) → groups st !! g = Some grp → 0 ≤ k ≤ grp_proc_count grp →
∃ ptrs st1,
  match grp_data grp with
  | Dense => safe (k <=? Z.of_nat (length (grp_proc_pointers grp))); Some (take (Z.to_nat k) (grp_proc_pointers grp), st)
  | _ => lookup_peers st g (Z.to_nat k) 0
  end = Some (ptrs, st1) ∧ same_names (groups st) (groups st1) ∧ group_inv local (groups st1) ∧ ptrs_ok local ptrs ∧
  name_of <$> ptrs = take (Z.to_nat k) (members (groups st) g).
Proof.
intros Hinv Hg Hk. pose proof (members_length local _ _ _ (proj1 Hinv) Hg) as Hl.
pose proof (members_NoDup local _ _ _ (proj1 Hinv) Hg) as Hnd.
assert (NoDup (take (Z.to_nat k) (members (groups st) g))) as Hnd'.
{ rewrite <- (take_drop (Z.to_nat k)) in Hnd. by apply NoDup_app in Hnd as [? _]. }
destruct (decide (grp_data grp = Dense)) as [Ed|Ed].
- assert (members (groups st) g = name_of <$> grp_proc_pointers grp) as Em
    by (unfold members, pointers; cbn [pointers_f]; by rewrite Hg, Ed).
  destruct (inv_no_sentinel _ _ _ Hinv Hg Ed) as [Hnull Hloc]. rewrite Em in *. rewrite length_fmap in Hl.
  rewrite Ed, (proj2 (Z.leb_le _ _)) by lia. eexists _, st. split; [done|]. rewrite fmap_take.
  split_and!; try done. split_and!; [by rewrite fmap_take|..]; intros (? & Hin & _)%elem_of_take; by apply list_elem_of_lookup_2 in Hin.
- destruct (lookup_peers_spec st g grp (Z.to_nat k) 0 Hinv Hg) as (ptrs & st1 & E & Hs & Hinv1 & ->); [lia..|].
  exists (ProcReal <$> take (Z.to_nat k) (drop (Z.to_nat 0) (members (groups st) g))), st1.
  assert (name_of <$> (ProcReal <$> take (Z.to_nat k) (drop (Z.to_nat 0) (members (groups st) g))) =
    take (Z.to_nat k) (members (groups st) g)) as En.
  { rewrite <- list_fmap_compose. change (Z.to_nat 0) with O. rewrite drop_0. apply list_fmap_id. }
  split; [rewrite <- E; by destruct (grp_data grp)|]. split_and!; try done.
  split_and!; [by rewrite En|..]; by intros (? & ? & _)%list_elem_of_fmap.
Qed.

(** Flattening makes a dense group of the first [max_procs] processes, with
  the right rank, and leaves the other groups as they are. *)
Theorem flatten_spec st g grp max_procs :
group_inv local (groups st) → groups st !! g = Some grp → 0 ≤ max_procs →
∃ new st', ompi_group_flatten true st g max_procs = Some (Some new, st') ∧ group_inv local (groups st') ∧
  members (groups st') new = take (Z.to_nat max_procs) (members (groups st) g) ∧
  ∀ h, (h < length (groups st))%nat → members (groups st') h = members (groups st) h.
Proof.
intros Hinv Hg Hmax. pose proof (members_length local _ _ _ (proj1 Hinv) Hg) as Hl.
unfold ompi_group_flatten. rewrite Hg. run. cbn [negb].
set (k := if grp_proc_count grp <? max_procs then grp_proc_count grp else max_procs).
assert (0 ≤ k ≤ grp_proc_count grp ∧ take (Z.to_nat k) (members (groups st) g) = take (Z.to_nat max_procs) (members (groups st) g))
  as [Hk Et].
{ unfold k. destruct (Z.ltb_spec (grp_proc_count grp) max_procs); [|done]. split; [lia|].
  by rewrite !take_ge by lia. }
clearbody k. rewrite (proj2 (Z.leb_le 0 k)) by lia. rewrite <- Et.
destruct (flatten_pointers st g grp k Hinv Hg Hk) as (ptrs & st1 & -> & Hs & Hinv1 & Hok & En).
run. assert (k = Z.of_nat (length ptrs)) as Ek.
{ rewrite <- (length_fmap name_of), En, length_take. lia. }
assert ((if max_procs <=? grp_my_rank grp then MPI_UNDEFINED else grp_my_rank grp) = rank_in local (name_of <$> ptrs)) as ->.
{ rewrite En, Et, rank_in_take, Z2Nat.id by lia. by rewrite (proj2 Hinv g grp Hg). }
rewrite Ek in En |- *. fold (dense_group (rank_in local (name_of <$> ptrs)) ptrs).
unfold ompi_group_increment_proc_count. rewrite change_dense. run.
destruct (makes_dense local st1 ptrs (foldl (add_proc 1) (proc_refs st1) ptrs) Hinv1 Hok)
  as (new & st' & E & Hinv' & _ & Hm & Hold). injection E as <- <-.
eexists _, _. split; [done|]. split; [done|]. split; [by rewrite Hm, En|].
intros h Hh. rewrite Hold; [by rewrite Hs|]. destruct Hs as [Hs]. apply (f_equal length) in Hs.
rewrite !length_fmap in Hs. lia.
Qed.

Lemma lookup_rank_from_spec gs g grp name vpid n i :
wf_store local gs → gs !! g = Some grp → 0 ≤ i → 0 ≤ vpid → i + vpid + Z.of_nat n ≤ 2 ^ 32 →
0 < grp_proc_count grp →
(lookup_rank_from gs g name vpid (grp_proc_count grp) n i = Some (rank_in name (members gs g)) ∧
 name ∈ members gs g) ∨
(lookup_rank_from gs g name vpid (grp_proc_count grp) n i = Some MPI_PROC_NULL ∧
 ∀ j, i ≤ j < i + Z.of_nat n → members gs g !! Z.to_nat ((j + vpid) `mod` grp_proc_count grp) ≠ Some name).
Proof.
intros Hwf Hg Hi Hv Hw Hc. destruct (store_facts local gs g grp Hwf Hg) as [Hlen _ Hraw Hnd Hnull _].
revert i Hi Hw. induction n as [|n IH]; intros i Hi Hw; cbn [lookup_rank_from].
{ right. split; [done|]. intros j Hj. lia. }
rewrite wrap_small by lia. set (r := (i + vpid) `mod` grp_proc_count grp).
assert (0 ≤ r < grp_proc_count grp) as Hr by by apply Z.mod_pos_bound.
unfold ompi_group_get_proc_ptr_raw. rewrite Hraw by (done || lia).
destruct (lookup_lt_is_Some_2 (pointers gs g) (Z.to_nat r)) as [p Hp]; [lia|]. rewrite Hp. run.
assert (members gs g !! Z.to_nat r = Some (name_of p)) as Hm by (unfold members; by rewrite list_lookup_fmap, Hp).
assert (p ≠ ProcNull) as Hpn by (intros ->; by apply Hnull, (list_elem_of_lookup_2 _ _ _ Hp)).
destruct (IH (i + 1)) as [[E Hin]|[E Hno]]; [lia|lia|..]; rewrite E.
- left. split; [|done]. destruct p as [|x|x]; [done| |]; (destruct (Z.eqb_spec x name) as [->|]; [|done]);
    f_equal; symmetry; rewrite <- (Z2Nat.id r) by lia; by apply rank_in_spec.
- destruct (decide (name_of p = name)) as [En|En].
  + left. rewrite En in Hm. split; [|by eapply list_elem_of_lookup_2]. assert (rank_in name (members gs g) = r) as ->
      by (rewrite <- (Z2Nat.id r) by lia; by apply rank_in_spec).
    destruct p as [|x|x]; [done|..]; cbn in En; subst x; by rewrite Z.eqb_refl.
  + right. split.
    * destruct p as [|x|x]; [done|..]; cbn in En; by rewrite (proj2 (Z.eqb_neq _ _) En).
    * intros j Hj. destruct (decide (j = i)) as [->|]; [|apply Hno; lia]. fold r. rewrite Hm. congruence.
Qed.

(** The search for the rank of a process visits every rank of the group,
  wherever it starts, and returns its rank or [MPI_PROC_NULL], as long as the
  sum of the start and the size fits in 32 bits. *)
Theorem proc_lookup_rank_spec gs g grp name vpid :
wf_store local gs → gs !! g = Some grp → 0 ≤ vpid → vpid + grp_proc_count grp ≤ 2 ^ 32 →
ompi_group_proc_lookup_rank gs g name vpid =
  Some (if decide (name ∈ members gs g) then rank_in name (members gs g) else MPI_PROC_NULL).
Proof.
intros Hwf Hg Hv Hw. pose proof (members_length local _ _ _ Hwf Hg) as Hl.
pose proof (members_NoDup local _ _ _ Hwf Hg) as Hnd.
unfold ompi_group_proc_lookup_rank, proc_count. rewrite Hg. run.
destruct (Z.eqb_spec (grp_proc_count grp) 0) as [E0|E0].
{ rewrite (nil_length_inv (members gs g)) by lia. by rewrite decide_False by apply not_elem_of_nil. }
destruct (lookup_rank_from_spec gs g grp name vpid (Z.to_nat (grp_proc_count grp)) 0) as [[E Hin]|[E Hno]];
  try done; try lia.
- rewrite E. by rewrite decide_True.
- rewrite E. case_decide as Hin; [|done]. exfalso. apply list_elem_of_lookup in Hin as [n Hn].
  pose proof (lookup_lt_Some _ _ _ Hn). set (np := grp_proc_count grp) in *.
  apply (Hno ((Z.of_nat n - vpid) `mod` np)); [pose proof (Z.mod_pos_bound (Z.of_nat n - vpid) np); lia|].
  rewrite Zplus_mod_idemp_l, Z.sub_add, Z.mod_small by lia. by rewrite Nat2Z.id.
Qed.

End specs.

(** ** Examples *)

Lemma peer_lookup_witness :
  ∃ n st', ompi_group_peer_lookup example_state 4 1 = Some (ProcReal n, st') ∧
    members (groups example_state) 4 !! Z.to_nat 1 = Some n ∧ group_inv 10 (groups st') ∧
    ∀ h, members (groups st') h = members (groups example_state) h.
Proof. by apply (peer_lookup_spec 10 example_state 4 _ 1 example_inv eq_refl). Defined.

Lemma flatten_witness :
  ∃ new st', ompi_group_flatten true example_state 3 2 = Some (Some new, st') ∧ group_inv 10 (groups st') ∧
    members (groups st') new = [11; 12] ∧
    ∀ h, (h < length (groups example_state))%nat → members (groups st') h = members (groups example_state) h.
Proof. by apply (flatten_spec 10 example_state 3 _ 2 example_inv eq_refl). Defined.

Lemma proc_lookup_rank_witness : ompi_group_proc_lookup_rank example_groups 4 10 1000 = Some 2.
Proof. by apply (proc_lookup_rank_spec 10 example_groups 4 _ 10 1000 example_groups_wf eq_refl). Defined.

End GroupLookup.
