(* ===== verification/TagMatch.v ===== *)
(** * UCP tag matching ([ucp/tag/tag_match.*], [tag_recv.c], [probe.c])

    The receive side of tagged messages: posted receives that wait in a hash
    table of queues or, when their mask has wildcards, in a queue of their own,
    and unexpected messages that wait in one list and in a hash table of
    lists.  Searching for a message merges the queue of its tag with the
    wildcard queue by sequence number.

    Queues are lists; requests and descriptors have addresses ([rq_id],
    [rd_id]).  No interface with hardware tag matching is active
    ([offload.thresh] is [SIZE_MAX]), so requests are never posted to one; the
    fields for it are kept.  Copying of data and rendezvous start after the
    match and are not part of this model; statistics and tracing are left out.
    [None] is an index outside an array or a failed assertion. *)

From stdpp Require Import base numbers list.
From S2P Require Import Prelude.

Local Open Scope Z_scope.
Local Open Scope c_scope.

Module TagMatch.

Definition UCP_TAG_MASK_FULL : Z := 0xffffffffffffffff.
Definition UCP_TAG_MATCH_HASH_SIZE : Z := 1021.
Definition hash_size : Z := 1024.                    (* ucs_roundup_pow2(1021) *)
Definition ULONG_MAX : Z := 2 ^ 64 - 1.

#[global] Arguments UCP_TAG_MASK_FULL : simpl never.
#[global] Arguments ULONG_MAX : simpl never.

(** The receive part of [ucp_request_t]. *)
Record ucp_request_t := mk_request {
  rq_id : Z;
  rq_tag : Z;
  rq_mask : Z;
  rq_sn : Z;
  rq_offloaded : bool;       (* UCP_REQUEST_FLAG_OFFLOADED *)
  rq_block_offload : bool;   (* UCP_REQUEST_FLAG_BLOCK_OFFLOAD *)
}.

Inductive rdesc_kind := EAGER_ONLY | EAGER_FIRST | EAGER_OFFLOAD_STARTED | RNDV.

#[global] Instance rdesc_kind_eq_dec : EqDecision rdesc_kind.
Proof. solve_decision. Defined.

Record ucp_recv_desc_t := mk_rdesc { rd_id : Z; rd_tag : Z; rd_kind : rdesc_kind }.

#[global] Instance ucp_recv_desc_eq_dec : EqDecision ucp_recv_desc_t.
Proof. solve_decision. Defined.

Record ucp_request_queue_t := mk_queue { queue : list ucp_request_t; sw_count : Z; block_count : Z }.

Record ucp_tag_match_t := mk_tm {
  wildcard : ucp_request_queue_t;
  exp_hash : list ucp_request_queue_t;
  exp_sn : Z;
  sw_all_count : Z;
  unexp_all : list ucp_recv_desc_t;
  unexp_hash : list (list ucp_recv_desc_t);
}.

(** ** Tags *)

Definition ucp_tag_is_match (tag exp_tag tag_mask : Z) : bool := Z.land (Z.lxor tag exp_tag) tag_mask =? 0.

Definition ucp_tag_match_calc_hash (tag : Z) : Z :=
  Z.lxor (wrap 32 tag `mod` UCP_TAG_MATCH_HASH_SIZE) (wrap 32 (Z.shiftr tag 32) `mod` UCP_TAG_MATCH_HASH_SIZE).

(** [alloc1], [alloc2]: whether the two allocations succeed; [None] is
    [UCS_ERR_NO_MEMORY].  The worker is
    allocated zeroed, so the counters of the wildcard queue start at 0. *)
Definition ucp_tag_match_init (alloc1 alloc2 : bool) : option ucp_tag_match_t :=
  if negb alloc1 then None
  else if negb alloc2 then None
  else Some (mk_tm (mk_queue [] 0 0) (replicate (Z.to_nat hash_size) (mk_queue [] 0 0)) 0 0
               [] (replicate (Z.to_nat hash_size) [])).

(** ** Expected queues *)

(** Which queue: the wildcard queue or a bucket. *)
Inductive queue_id := QWild | QHash (i : Z).

Definition ucp_tag_exp_get_queue (tag tag_mask : Z) : queue_id :=
  if tag_mask =? UCP_TAG_MASK_FULL then QHash (ucp_tag_match_calc_hash tag) else QWild.

Definition get_queue (tm : ucp_tag_match_t) (q : queue_id) : option ucp_request_queue_t :=
  match q with
  | QWild => Some (wildcard tm)
  | QHash i => safe (0 <=? i); exp_hash tm !! Z.to_nat i
  end.

Definition set_queue (tm : ucp_tag_match_t) (q : queue_id) (rq : ucp_request_queue_t) : ucp_tag_match_t :=
  match q with
  | QWild => mk_tm rq (exp_hash tm) (exp_sn tm) (sw_all_count tm) (unexp_all tm) (unexp_hash tm)
  | QHash i => mk_tm (wildcard tm) (<[Z.to_nat i := rq]> (exp_hash tm)) (exp_sn tm) (sw_all_count tm)
                 (unexp_all tm) (unexp_hash tm)
  end.

Definition with_sw_all (tm : ucp_tag_match_t) (n : Z) : ucp_tag_match_t :=
  mk_tm (wildcard tm) (exp_hash tm) (exp_sn tm) n (unexp_all tm) (unexp_hash tm).

(** [ucp_tag_offload_try_post] when nothing is posted to hardware. *)
Definition ucp_tag_offload_try_post (tm : ucp_tag_match_t) (q : queue_id) (block : bool) : option ucp_tag_match_t :=
  rq ← get_queue tm q;
  Some (set_queue (with_sw_all tm (wrap 32 (sw_all_count tm + 1))) q
          (mk_queue (queue rq) (wrap 32 (sw_count rq + 1)) (wrap 32 (block_count rq + Z.b2z block)))).

Definition ucp_tag_exp_push (tm : ucp_tag_match_t) (q : queue_id) (req : ucp_request_t) : option ucp_tag_match_t :=
  rq ← get_queue tm q;
  let req := mk_request (rq_id req) (rq_tag req) (rq_mask req) (exp_sn tm) (rq_offloaded req) (rq_block_offload req) in
  let tm := mk_tm (wildcard tm) (exp_hash tm) (wrap 64 (exp_sn tm + 1)) (sw_all_count tm) (unexp_all tm) (unexp_hash tm) in
  Some (set_queue tm q (mk_queue (queue rq ++ [req]) (sw_count rq) (block_count rq))).

(** Deletes [req], which leaves [rest] in the queue. *)
Definition ucp_tag_exp_delete (tm : ucp_tag_match_t) (req : ucp_request_t) (q : queue_id) (rest : list ucp_request_t)
    : option ucp_tag_match_t :=
  rq ← get_queue tm q;
  if negb (rq_offloaded req) then
    Some (set_queue (with_sw_all tm (wrap 32 (sw_all_count tm - 1))) q
            (mk_queue rest (wrap 32 (sw_count rq - 1))
               (if rq_block_offload req then wrap 32 (block_count rq - 1) else block_count rq)))
  else Some (set_queue tm q (mk_queue rest (sw_count rq) (block_count rq))).

Definition matches (tag : Z) (req : ucp_request_t) : bool := ucp_tag_is_match tag (rq_tag req) (rq_mask req).

Definition ucp_tag_exp_req_seq (iter : list ucp_request_t) : Z :=
  match iter with [] => ULONG_MAX | r :: _ => rq_sn r end.

(** The merge loop of [ucp_tag_exp_search_all]: [hp], [wp] are the requests the
    iterators have passed.  The result is the match, whether it is in the hash
    queue, and what remains there. *)
Fixpoint search_all (fuel : nat) (tag : Z) (hp h wp w : list ucp_request_t)
    : option (option (ucp_request_t * bool * list ucp_request_t)) :=
  match fuel with
  | O => None
  | S f =>
      if ucp_tag_exp_req_seq h =? ucp_tag_exp_req_seq w then
        safe ((ucp_tag_exp_req_seq h =? ULONG_MAX) && (ucp_tag_exp_req_seq w =? ULONG_MAX));
        match h, w with [], [] => Some None | _, _ => None end
      else if ucp_tag_exp_req_seq h <? ucp_tag_exp_req_seq w then
        match h with
        | [] => None
        | r :: h' => if matches tag r then Some (Some (r, true, hp ++ h')) else search_all f tag (hp ++ [r]) h' wp w
        end
      else
        match w with
        | [] => None
        | r :: w' => if matches tag r then Some (Some (r, false, wp ++ w')) else search_all f tag hp h (wp ++ [r]) w'
        end
  end.

Definition ucp_tag_exp_search_all (tm : ucp_tag_match_t) (i : Z) (tag : Z)
    : option (option ucp_request_t * ucp_tag_match_t) :=
  rq ← get_queue tm (QHash i);
  let w := queue (wildcard tm) in
  res ← search_all (S (length (queue rq) + length w)) tag [] (queue rq) [] w;
  match res with
  | None => Some (None, tm)
  | Some (req, in_hash, rest) =>
      tm' ← ucp_tag_exp_delete tm req (if (in_hash : bool) then QHash i else QWild) rest; Some (Some req, tm')
  end.

Definition ucp_tag_exp_search (tm : ucp_tag_match_t) (tag : Z) : option (option ucp_request_t * ucp_tag_match_t) :=
  let i := ucp_tag_match_calc_hash tag in
  match queue (wildcard tm) with
  | _ :: _ => ucp_tag_exp_search_all tm i tag
  | [] =>
      rq ← get_queue tm (QHash i);
      match extract (matches tag) (queue rq) with
      | None => Some (None, tm)
      | Some (req, rest) => tm' ← ucp_tag_exp_delete tm req (QHash i) rest; Some (Some req, tm')
      end
  end.

(** [ucp_tag_exp_remove]: whether the request was still in its queue. *)
Definition ucp_tag_exp_remove (tm : ucp_tag_match_t) (id tag tag_mask : Z) : option (bool * ucp_tag_match_t) :=
  let q := ucp_tag_exp_get_queue tag tag_mask in
  rq ← get_queue tm q;
  match extract (λ r, rq_id r =? id) (queue rq) with
  | None => Some (false, tm)
  | Some (req, rest) => tm' ← ucp_tag_exp_delete tm req q rest; Some (true, tm')
  end.

(** ** Unexpected lists *)

Definition with_unexp (tm : ucp_tag_match_t) (all : list ucp_recv_desc_t) (hash : list (list ucp_recv_desc_t)) : ucp_tag_match_t :=
  mk_tm (wildcard tm) (exp_hash tm) (exp_sn tm) (sw_all_count tm) all hash.

Definition ucp_tag_unexp_is_empty (tm : ucp_tag_match_t) : bool :=
  match unexp_all tm with [] => true | _ => false end.

Definition ucp_tag_unexp_recv (tm : ucp_tag_match_t) (rdesc : ucp_recv_desc_t) (tag : Z) : option ucp_tag_match_t :=
  let i := Z.to_nat (ucp_tag_match_calc_hash tag) in
  l ← unexp_hash tm !! i;
  Some (with_unexp tm (unexp_all tm ++ [rdesc]) (<[i := l ++ [rdesc]]> (unexp_hash tm))).

(** Unlinks the descriptor from the two lists it is in. *)
Definition unlink (id : Z) (l : list ucp_recv_desc_t) : list ucp_recv_desc_t :=
  List.filter (λ r, negb (rd_id r =? id)) l.

Definition ucp_tag_unexp_remove (tm : ucp_tag_match_t) (rdesc : ucp_recv_desc_t) : ucp_tag_match_t :=
  with_unexp tm (unlink (rd_id rdesc) (unexp_all tm)) (unlink (rd_id rdesc) <$> unexp_hash tm).

Definition ucp_tag_unexp_search (tm : ucp_tag_match_t) (tag tag_mask : Z) (rem : bool)
    : option (option ucp_recv_desc_t * ucp_tag_match_t) :=
  if ucp_tag_unexp_is_empty tm then Some (None, tm)
  else
    l ← (if tag_mask =? UCP_TAG_MASK_FULL then unexp_hash tm !! Z.to_nat (ucp_tag_match_calc_hash tag)
         else Some (unexp_all tm));
    match List.find (λ r, ucp_tag_is_match (rd_tag r) tag tag_mask) l with
    | None => Some (None, tm)
    | Some rdesc => Some (Some rdesc, if rem then ucp_tag_unexp_remove tm rdesc else tm)
    end.

(** The descriptors that are released. *)
Definition ucp_tag_match_cleanup (tm : ucp_tag_match_t) : list ucp_recv_desc_t := unexp_all tm.

(** ** Receiving *)

(** Of [ucs_status_t], the statuses this code produces or tests. *)
Inductive ucs_status_t :=
| UCS_OK | UCS_INPROGRESS | UCS_ERR_NO_RESOURCE | UCS_ERR_NO_MEMORY | UCS_ERR_INVALID_PARAM | UCS_ERR_UNSUPPORTED
| UCS_ERR_MESSAGE_TRUNCATED | UCS_ERR_CANCELED.

#[global] Instance ucs_status_eq_dec : EqDecision ucs_status_t.
Proof. solve_decision. Defined.

(** What a receive call does with the request. *)
Inductive recv_result :=
| RecvCompleted (rdesc : ucp_recv_desc_t)   (* single fragment, copied at once *)
| RecvMatched (rdesc : ucp_recv_desc_t)     (* the transfer of the rest starts *)
| RecvPosted
| RecvError (status : ucs_status_t).

(** Parameters of a receive: [force_imm] is [UCP_OP_ATTR_FLAG_FORCE_IMM_CMPL],
    [dt_status] what setting up the datatype iterator returns, [contig] whether
    the datatype is contiguous. *)
Record recv_param := mk_param { force_imm : bool; dt_status : ucs_status_t; contig : bool }.

(** [ucp_tag_recv_common] without the transfer of the data: which message is
    taken, or where the request waits. *)
Definition recv_common_match (tm : ucp_tag_match_t) (id tag tag_mask : Z) (rdesc : option ucp_recv_desc_t)
    (param : recv_param) : option (recv_result * ucp_tag_match_t) :=
  match rdesc with
  | Some rd =>
      if decide (rd_kind rd = EAGER_ONLY) then Some (RecvCompleted rd, tm)
      else if force_imm param then Some (RecvError UCS_ERR_NO_RESOURCE, tm)
      else if decide (dt_status param ≠ UCS_OK) then Some (RecvError (dt_status param), tm)
      else Some (RecvMatched rd, tm)
  | None =>
      if force_imm param then Some (RecvError UCS_ERR_NO_RESOURCE, tm)
      else if decide (dt_status param ≠ UCS_OK) then Some (RecvError (dt_status param), tm)
      else
        let q := ucp_tag_exp_get_queue tag tag_mask in
        let req := mk_request id tag tag_mask 0 false (negb (contig param)) in
        tm1 ← ucp_tag_offload_try_post tm q (rq_block_offload req);
        tm2 ← ucp_tag_exp_push tm1 q req;
        Some (RecvPosted, tm2)
  end.

(** [ucp_tag_recv_nbx]; [req_ok]: whether a request can be allocated. *)
Definition recv_match (req_ok : bool) (tm : ucp_tag_match_t) (id tag tag_mask : Z) (param : recv_param)
    : option (recv_result * ucp_tag_match_t) :=
  if negb req_ok then Some (RecvError UCS_ERR_NO_MEMORY, tm)
  else
    '(rdesc, tm1) ← ucp_tag_unexp_search tm tag tag_mask true;
    recv_common_match tm1 id tag tag_mask rdesc param.

(** [ucp_tag_msg_recv_nbx]: the receive of a message that a probe removed. *)
Definition msg_recv_match (req_ok : bool) (tm : ucp_tag_match_t) (id : Z) (message : ucp_recv_desc_t) (param : recv_param)
    : option (recv_result * ucp_tag_match_t) :=
  if negb req_ok then Some (RecvError UCS_ERR_NO_MEMORY, tm)
  else recv_common_match tm id (rd_tag message) UCP_TAG_MASK_FULL (Some message) param.

(** What becomes of an arriving message. *)
Inductive arrive_result :=
| ArriveMatched (req : ucp_request_t)
| ArriveUnexpected
| ArriveError.

(** [ucp_eager_tagged_handler] and [ucp_tag_rndv_process_rts] without the
    transfer; [desc_ok]: whether the descriptor can be set up. *)
Definition arrive_match (desc_ok : bool) (tm : ucp_tag_match_t) (rdesc : ucp_recv_desc_t)
    : option (arrive_result * ucp_tag_match_t) :=
  '(req, tm1) ← ucp_tag_exp_search tm (rd_tag rdesc);
  match req with
  | Some r => Some (ArriveMatched r, tm1)
  | None =>
      if negb desc_ok then Some (ArriveError, tm1)
      else tm2 ← ucp_tag_unexp_recv tm1 rdesc (rd_tag rdesc); Some (ArriveUnexpected, tm2)
  end.

(** [ucp_tag_probe_nb]: the descriptor is not returned while fragments of it are still to come. *)
Definition probe_match (tm : ucp_tag_match_t) (tag tag_mask : Z) (rem : bool)
    : option (option ucp_recv_desc_t * ucp_tag_match_t) :=
  '(rdesc, tm1) ← ucp_tag_unexp_search tm tag tag_mask false;
  match rdesc with
  | None => Some (None, tm1)
  | Some rd =>
      if decide (rd_kind rd = EAGER_OFFLOAD_STARTED) then Some (None, tm1)
      else Some (Some rd, if rem then ucp_tag_unexp_remove tm1 rd else tm1)
  end.

(** [ucp_request_cancel] of a tag receive: whether the request is completed
    with [UCS_ERR_CANCELED]. *)
Definition cancel_match (completed : bool) (tm : ucp_tag_match_t) (id tag tag_mask : Z)
    : option (bool * ucp_tag_match_t) :=
  if completed then Some (false, tm) else ucp_tag_exp_remove tm id tag tag_mask.

End TagMatch.
