(* ===== verification/MatchQueue.v ===== *)
(** * Message matching, abstractly

    What a matching engine promises, as MPI and UCP describe it: posted
    receives and unexpected messages wait in the order they came; a new
    receive takes the earliest message it accepts, a new message the earliest
    receive that accepts it.  [waiting_apart] (nothing that waits could be
    matched) is an invariant, and messages with the same envelope are matched
    in the order they arrived ([nonovertaking]).

    [Matcher] is the interface of an engine and [MatcherLaws] what its clients
    rely on: that it behaves as the abstract queues. *)

From stdpp Require Import base list.
From S2P Require Import Prelude.

Module MatchQueue.

Section queues.
Context {P M : Type} (accepts : P → M → bool).

Record mq := mk_mq { posted : list P; unexpected : list M }.

Definition mq_empty : mq := mk_mq [] [].

Definition mq_post (p : P) (q : mq) : option M * mq :=
  match extract (accepts p) (unexpected q) with
  | Some (m, rest) => (Some m, mk_mq (posted q) rest)
  | None => (None, mk_mq (posted q ++ [p]) (unexpected q))
  end.

Definition mq_arrive (m : M) (q : mq) : option P * mq :=
  match extract (λ p, accepts p m) (posted q) with
  | Some (p, rest) => (Some p, mk_mq rest (unexpected q))
  | None => (None, mk_mq (posted q) (unexpected q ++ [m]))
  end.

(** The earliest message that is accepted. *)
Definition mq_probe (p : P) (q : mq) : option M := fst <$> extract (accepts p) (unexpected q).

(** Takes a message, or a receive, out of the queues. *)
Definition mq_drop (f : M → bool) (q : mq) : mq := mk_mq (posted q) (List.filter (λ m, negb (f m)) (unexpected q)).
Definition mq_cancel (f : P → bool) (q : mq) : bool * mq :=
  match extract f (posted q) with
  | Some (_, rest) => (true, mk_mq rest (unexpected q))
  | None => (false, q)
  end.

(** Nothing that waits could be matched. *)
Definition waiting_apart (q : mq) : Prop := ∀ p m, p ∈ posted q → m ∈ unexpected q → accepts p m = false.

Lemma extract_subset {A} (f : A → bool) l x r y : extract f l = Some (x, r) → y ∈ r → y ∈ l.
Proof.
  intros (l1 & l2 & -> & -> & _)%extract_Some Hy. rewrite elem_of_app, elem_of_cons. apply elem_of_app in Hy. tauto.
Qed.

Lemma waiting_apart_post p q : waiting_apart q → waiting_apart (mq_post p q).2.
Proof.
  unfold mq_post. intros H. destruct (extract (accepts p) (unexpected q)) as [[m rest]|] eqn:E; cbn; intros p' m' Hp Hm; cbn in *.
  - apply H; [done|]. by eapply extract_subset.
  - apply elem_of_app in Hp as [Hp|Hp]; [by apply H|]. apply list_elem_of_singleton in Hp as ->.
    rewrite extract_None in E. by apply E.
Qed.

Lemma waiting_apart_arrive m q : waiting_apart q → waiting_apart (mq_arrive m q).2.
Proof.
  unfold mq_arrive. intros H. destruct (extract (λ p, accepts p m) (posted q)) as [[p rest]|] eqn:E; cbn; intros p' m' Hp Hm; cbn in *.
  - apply H; [|done]. by eapply extract_subset.
  - apply elem_of_app in Hm as [Hm|Hm]; [by apply H|]. apply list_elem_of_singleton in Hm as ->.
    rewrite extract_None in E. by apply (E p').
Qed.

Lemma waiting_apart_drop f q : waiting_apart q → waiting_apart (mq_drop f q).
Proof.
  intros H p m Hp Hm. apply H; [done|]. cbn in Hm. apply list_elem_of_In, List.filter_In in Hm as [Hm _].
  by apply list_elem_of_In.
Qed.

Lemma waiting_apart_cancel f q : waiting_apart q → waiting_apart (mq_cancel f q).2.
Proof.
  unfold mq_cancel. intros H. destruct (extract f (posted q)) as [[p rest]|] eqn:E; [|done].
  intros p' m Hp Hm. apply H; [|done]. by eapply extract_subset.
Qed.

(** ** Runs *)

Inductive event := EPost (p : P) | EArrive (m : M).

(** The pairs matched, in the order of the matches. *)
Definition mq_event (e : event) (q : mq) : list (P * M) * mq :=
  match e with
  | EPost p => let '(om, q') := mq_post p q in (from_option (λ m, [(p, m)]) [] om, q')
  | EArrive m => let '(op, q') := mq_arrive m q in (from_option (λ p, [(p, m)]) [] op, q')
  end.

Fixpoint mq_run (es : list event) (q : mq) : list (P * M) * mq :=
  match es with
  | [] => ([], q)
  | e :: es' => let '(h, q1) := mq_event e q in let '(h', q2) := mq_run es' q1 in (h ++ h', q2)
  end.

Definition arrivals (es : list event) : list M := omap (λ e, match e with EArrive m => Some m | EPost _ => None end) es.
Definition posts (es : list event) : list P := omap (λ e, match e with EPost p => Some p | EArrive _ => None end) es.

(** [x] occurs before [y]. *)
Definition before {A} (l : list A) (x y : A) : Prop := [x; y] `sublist_of` l.

Lemma singleton_sublist {A} (l : list A) x : x ∈ l → [x] `sublist_of` l.
Proof. intros (l1 & l2 & ->)%list_elem_of_split. apply sublist_inserts_l, sublist_skip, sublist_nil_l. Qed.

Lemma before_snoc {A} (l : list A) x y : x ∈ l → before (l ++ [y]) x y.
Proof. intros Hx. apply (sublist_app [x] l [y] [y]); [by apply singleton_sublist|done]. Qed.

Lemma before_snoc_inv {A} (l : list A) x y z : before (l ++ [z]) x y → before l x y ∨ (y = z ∧ x ∈ l).
Proof.
  intros (l1 & l2 & E & H1 & H2)%sublist_app_r. destruct l2 as [|b l2].
  { rewrite app_nil_r in E. subst. by left. }
  apply sublist_length in H2 as Hl. destruct l2; [|cbn in Hl; lia]. clear Hl.
  apply sublist_subseteq in H2. assert (b = z) as -> by (apply list_elem_of_singleton, H2; by left).
  destruct l1 as [|c [|d l1]]; simplify_eq/=; [|by destruct l1]. right. split; [done|]. apply sublist_subseteq in H1. apply H1. by left.
Qed.

Lemma before_antisym {A} (l : list A) x y : NoDup l → before l x y → before l y x → False.
Proof.
  unfold before. induction l as [|z l IH]; intros Hnd Hxy Hyx; [by apply sublist_nil_r in Hxy|].
  apply NoDup_cons in Hnd as [Hz Hnd].
  assert (∀ a b, [a; b] `sublist_of` z :: l → (a = z ∧ b ∈ l) ∨ [a; b] `sublist_of` l) as Hc.
  { intros a b [H|(l' & E & H)]%sublist_cons_r; [by right|]. simplify_eq. left. split; [done|].
    apply sublist_subseteq in H. apply H. by left. }
  apply Hc in Hxy as [[-> Hy]|Hxy]; apply Hc in Hyx as [[-> Hx]|Hyx]; try done.
  - apply sublist_subseteq in Hyx. apply Hz, Hyx. right. by left.
  - apply sublist_subseteq in Hxy. apply Hz, Hxy. right. by left.
  - by apply IH.
Qed.

(** Messages that every receive treats alike. *)
Definition same_envelope (m1 m2 : M) : Prop := ∀ p, accepts p m1 = accepts p m2.

(** What holds between the arrivals so far, the matches so far and the queues. *)
Record ordered (arr : list M) (hist : list M) (q : mq) : Prop := {
  ord_apart : waiting_apart q;
  ord_all : ∀ m, m ∈ arr ↔ m ∈ hist ∨ m ∈ unexpected q;
  ord_sub : unexpected q `sublist_of` arr;
  ord_nodup : NoDup (hist ++ unexpected q);
  ord_order : ∀ m1 m2, before arr m1 m2 → same_envelope m1 m2 → m2 ∈ hist → before hist m1 m2;
}.

Lemma ordered_post arr hist q p :
  NoDup arr → ordered arr hist q → ordered arr (hist ++ (mq_event (EPost p) q).1.*2) (mq_event (EPost p) q).2.
Proof.
  intros Hnd [Ha Hall Hsub Hn Hord]. pose proof (waiting_apart_post p q Ha) as Ha'. unfold mq_event, mq_post in *.
  destruct (extract (accepts p) (unexpected q)) as [[m rest]|] eqn:E; cbn in *; [|by rewrite app_nil_r].
  apply extract_Some in E as (l1 & l2 & El & -> & Hm & Hno). rewrite El in *. split; cbn; try done.
  - intros x. rewrite Hall, !elem_of_app, elem_of_cons, list_elem_of_singleton. tauto.
  - etrans; [|exact Hsub]. apply sublist_app; [done|]. by apply sublist_cons.
  - rewrite <- (assoc (++)). cbn. by rewrite (Permutation_middle l1 l2 m).
  - intros m1 m2 Hb Hs. rewrite elem_of_app, list_elem_of_singleton. intros [Hin| ->].
    + apply sublist_inserts_r. by apply Hord.
    + apply before_snoc. assert (m1 ∈ arr) as H1 by (apply sublist_subseteq in Hb; apply Hb; by left).
      apply Hall in H1 as [|[H1|H1]%elem_of_app]; [done|..].
      * apply Hno in H1. rewrite (Hs p) in H1. congruence.
      * apply elem_of_cons in H1 as [->|H1]; [by destruct (before_antisym arr m m)|].
        destruct (before_antisym arr m m1 Hnd); [|done]. unfold before. etrans; [|exact Hsub].
        apply sublist_inserts_l, sublist_skip. by apply singleton_sublist.
Qed.

Lemma ordered_arrive arr hist q m :
  m ∉ arr → ordered arr hist q →
  ordered (arr ++ [m]) (hist ++ (mq_event (EArrive m) q).1.*2) (mq_event (EArrive m) q).2.
Proof.
  intros Hnew [Ha Hall Hsub Hn Hord]. pose proof (waiting_apart_arrive m q Ha) as Ha'. unfold mq_event, mq_arrive in *.
  assert (m ∉ hist ++ unexpected q) as Hfresh by (rewrite elem_of_app; intros H; by apply Hnew, Hall).
  destruct (extract (λ p, accepts p m) (posted q)) as [[p rest]|] eqn:E; cbn in *.
  - apply extract_Some in E as (l1 & l2 & El & -> & Hm & _). split; cbn; try done.
    + intros x. rewrite !elem_of_app, Hall, list_elem_of_singleton. tauto.
    + by apply sublist_inserts_r.
    + rewrite <- (assoc (++)). cbn. rewrite <- Permutation_middle. by apply NoDup_cons.
    + intros m1 m2 Hb Hs. rewrite elem_of_app, list_elem_of_singleton. intros Hin.
      apply before_snoc_inv in Hb as [Hb|[-> H1]].
      * destruct Hin as [Hin| ->]; [apply sublist_inserts_r; by apply Hord|].
        exfalso. apply Hnew. apply sublist_subseteq in Hb. apply Hb. right. by left.
      * apply before_snoc. apply Hall in H1 as [|H1]; [done|].
        assert (accepts p m1 = false) by (apply Ha; [rewrite El, elem_of_app, elem_of_cons; tauto|done]).
        rewrite (Hs p) in *. congruence.
  - rewrite app_nil_r. split; cbn; try done.
    + intros x. rewrite !elem_of_app, Hall, list_elem_of_singleton. tauto.
    + by apply sublist_app.
    + rewrite (assoc (++)), (comm (++) _ [m]). by apply NoDup_cons.
    + intros m1 m2 Hb Hs Hin. apply before_snoc_inv in Hb as [Hb|[-> _]]; [by apply Hord|].
      destruct Hfresh. rewrite elem_of_app. by left.
Qed.

Lemma ordered_run es arr hist q :
  NoDup (arr ++ arrivals es) → ordered arr hist q →
  ordered (arr ++ arrivals es) (hist ++ (mq_run es q).1.*2) (mq_run es q).2.
Proof.
  revert arr hist q. induction es as [|e es IH]; intros arr hist q Hnd Ho.
  { cbn. by rewrite !app_nil_r. }
  cbn [mq_run]. destruct (mq_event e q) as [h q1] eqn:Ee, (mq_run es q1) as [h' q2] eqn:Er. cbn [fst snd].
  rewrite fmap_app, (assoc (++)). replace q2 with (mq_run es q1).2 by (by rewrite Er).
  replace h' with (mq_run es q1).1 by (by rewrite Er). destruct e as [p|m].
  - change (arrivals (EPost p :: es)) with (arrivals es) in *. apply IH; [done|]. pose proof (ordered_post arr hist q p) as H. rewrite Ee in H. apply H; [|done].
    by apply NoDup_app in Hnd as [? _].
  - change (arrivals (EArrive m :: es)) with ([m] ++ arrivals es) in *. rewrite (assoc (++) arr [m]) in *.
    apply IH; [done|].
    pose proof (ordered_arrive arr hist q m) as H. rewrite Ee in H. apply H; [|done].
    apply NoDup_app in Hnd as [Hnd _]. apply NoDup_app in Hnd as (_ & Hnd & _). intros Hm. apply (Hnd m Hm). by left.
Qed.

(** Messages with the same envelope are matched in the order they arrive. *)
Lemma mq_nonovertaking es m1 m2 :
  NoDup (arrivals es) → before (arrivals es) m1 m2 → same_envelope m1 m2 →
  m2 ∈ (mq_run es mq_empty).1.*2 → before (mq_run es mq_empty).1.*2 m1 m2.
Proof.
  intros Hnd Hb Hs Hin. destruct (ordered_run es [] [] mq_empty) as [_ _ _ _ Hord]; [done| |by apply Hord].
  split; cbn; try done.
  - intros p m Hp. by apply elem_of_nil in Hp.
  - intros m. rewrite elem_of_nil. tauto.
  - constructor.
Qed.

End queues.

#[global] Arguments mq : clear implicits.
#[global] Arguments event : clear implicits.

(** ** Engines *)

Class Matcher (S P M : Type) := {
  m_post : S → P → option (option M * S);
  m_arrive : S → M → option (option P * S);
}.

(** [m_rel n s q]: the engine state [s] stands for the queues [q], and [n] more
    events can be handled.  The two predicates say which events may come. *)
Class MatcherLaws (S P M : Type) `{Matcher S P M} (accepts : P → M → bool) := {
  m_rel : nat → S → mq P M → Prop;
  m_post_ok : mq P M → P → Prop;
  m_arrive_ok : mq P M → M → Prop;
  m_post_law : ∀ n s q p, m_rel (Datatypes.S n) s q → m_post_ok q p →
    ∃ s', m_post s p = Some ((mq_post accepts p q).1, s') ∧ m_rel n s' (mq_post accepts p q).2;
  m_arrive_law : ∀ n s q m, m_rel (Datatypes.S n) s q → m_arrive_ok q m →
    ∃ s', m_arrive s m = Some ((mq_arrive accepts m q).1, s') ∧ m_rel n s' (mq_arrive accepts m q).2;
}.

Section engine.
Context {S P M : Type} (accepts : P → M → bool) `{L : MatcherLaws S P M accepts}.

Fixpoint engine_run (es : list (event P M)) (s : S) : option (list (P * M) * S) :=
  match es with
  | [] => Some ([], s)
  | EPost p :: es' =>
      '(om, s1) ← m_post s p; '(h, s2) ← engine_run es' s1; Some (from_option (λ m, [(p, m)]) [] om ++ h, s2)
  | EArrive m :: es' =>
      '(op, s1) ← m_arrive s m; '(h, s2) ← engine_run es' s1; Some (from_option (λ p, [(p, m)]) [] op ++ h, s2)
  end.

(** Every event may come when it comes. *)
Fixpoint events_ok (es : list (event P M)) (q : mq P M) : Prop :=
  match es with
  | [] => True
  | e :: es' =>
      match e with EPost p => m_post_ok q p | EArrive m => m_arrive_ok q m end ∧ events_ok es' (mq_event accepts e q).2
  end.

Lemma engine_refines es s q n :
  m_rel (length es + n) s q → events_ok es q →
  ∃ s', engine_run es s = Some ((mq_run accepts es q).1, s') ∧ m_rel n s' (mq_run accepts es q).2.
Proof.
  revert s q. induction es as [|e es IH]; intros s q Hrel Hok; [by exists s|].
  destruct Hok as [He Hok]. cbn [engine_run mq_run length Nat.add] in *. unfold mq_event in *. destruct e as [p|m].
  - destruct (m_post_law _ s q p Hrel He) as (s1 & -> & Hrel1). destruct (mq_post accepts p q) as [om q1]. cbn [fst snd] in *.
    destruct (IH s1 q1 Hrel1 Hok) as (s2 & E & Hrel2). cbn. rewrite E. cbn.
    destruct (mq_run accepts es q1) as [h q2]. by exists s2.
  - destruct (m_arrive_law _ s q m Hrel He) as (s1 & -> & Hrel1). destruct (mq_arrive accepts m q) as [op q1]. cbn [fst snd] in *.
    destruct (IH s1 q1 Hrel1 Hok) as (s2 & E & Hrel2). cbn. rewrite E. cbn.
    destruct (mq_run accepts es q1) as [h q2]. by exists s2.
Qed.

(** An engine matches messages with the same envelope in arrival order. *)
Lemma engine_nonovertaking es s n m1 m2 :
  m_rel (length es + n) s mq_empty → events_ok es mq_empty → NoDup (arrivals es) →
  ∃ h s', engine_run es s = Some (h, s') ∧
    (before (arrivals es) m1 m2 → same_envelope accepts m1 m2 → m2 ∈ h.*2 → before h.*2 m1 m2).
Proof.
  intros Hrel Hok Hnd. destruct (engine_refines es s mq_empty n Hrel Hok) as (s' & E & _).
  eexists _, s'. split; [exact E|]. intros. by apply mq_nonovertaking.
Qed.

End engine.

End MatchQueue.
