(* ===== verification/TagMatchSpec.v ===== *)
(** * Tag matching implements the abstract queues

    [tm_rel] relates the hash tables of the UCP tag matching to one list of
    posted receives and one list of unexpected messages; every operation
    follows the abstract one, whichever queue it works on.  Sequence numbers
    stay below [ULONG_MAX], which stands for the end of a queue, for as many
    receives as [tm_rel] allows. *)

From stdpp Require Import base numbers list sorting.
From S2P Require Import Prelude TagMatch MatchQueue.
Import TagMatch MatchQueue.

Local Open Scope Z_scope.
Local Open Scope c_scope.

Module TagMatchSpec.

(** ** Tags and buckets *)

Definition word (x : Z) : Prop := 0 ≤ x < 2 ^ 64.

Lemma match_full tag exp : word tag → word exp → ucp_tag_is_match tag exp UCP_TAG_MASK_FULL = (tag =? exp).
Proof.
  intros Ht He. unfold ucp_tag_is_match. change UCP_TAG_MASK_FULL with (Z.ones 64). rewrite Z.land_ones by lia.
  assert (0 ≤ Z.lxor tag exp) by (apply Z.lxor_nonneg; unfold word in *; lia).
  rewrite Z.mod_small.
  - destruct (Z.eqb_spec tag exp) as [->|Hne]; [by rewrite Z.lxor_nilpotent|].
    apply Z.eqb_neq. intros E. by apply Z.lxor_eq in E.
  - split; [done|]. apply bounded_by_bits; [lia|done|]. intros i Hi.
    rewrite Z.lxor_spec, (testbit_high tag 64 i), (testbit_high exp 64 i) by (unfold word in *; lia). done.
Qed.

Lemma calc_hash_range tag : 0 ≤ ucp_tag_match_calc_hash tag < hash_size.
Proof.
  unfold ucp_tag_match_calc_hash, UCP_TAG_MATCH_HASH_SIZE, hash_size.
  set (a := wrap 32 tag `mod` 1021). set (b := wrap 32 (Z.shiftr tag 32) `mod` 1021).
  assert (0 ≤ a < 1021) by (apply Z.mod_pos_bound; lia). assert (0 ≤ b < 1021) by (apply Z.mod_pos_bound; lia).
  assert (0 ≤ Z.lxor a b) by (apply Z.lxor_nonneg; lia). split; [done|]. change 1024 with (2 ^ 10).
  apply bounded_by_bits; [lia|done|]. intros i Hi.
  rewrite Z.lxor_spec, (testbit_high a 10 i), (testbit_high b 10 i) by lia. done.
Qed.

#[global] Instance queue_id_eq_dec : EqDecision queue_id.
Proof. solve_decision. Defined.

Definition queue_valid (q : queue_id) : Prop := match q with QWild => True | QHash i => 0 ≤ i < hash_size end.

(** The queue a request belongs to. *)
Definition queue_of (r : ucp_request_t) : queue_id := ucp_tag_exp_get_queue (rq_tag r) (rq_mask r).

Definition in_queue (q : queue_id) (r : ucp_request_t) : bool := bool_decide (queue_of r = q).

Lemma queue_of_valid tag mask : queue_valid (ucp_tag_exp_get_queue tag mask).
Proof. unfold ucp_tag_exp_get_queue. case_match; [apply calc_hash_range|done]. Qed.

(** A request that matches is in the wildcard queue or in the bucket of the tag. *)
Lemma matches_queue tag r :
  word tag → word (rq_tag r) → matches tag r = true → queue_of r = QWild ∨ queue_of r = QHash (ucp_tag_match_calc_hash tag).
Proof.
  intros Ht Hr Hm. unfold queue_of, ucp_tag_exp_get_queue, matches in *.
  destruct (Z.eqb_spec (rq_mask r) UCP_TAG_MASK_FULL) as [E|E]; [|by left].
  rewrite E, match_full in Hm by done. apply Z.eqb_eq in Hm as ->. by right.
Qed.

(** ** The relation *)

Record tag_recv := mk_recv { tr_id : Z; tr_tag : Z; tr_mask : Z; tr_contig : bool }.

Definition recv_of (r : ucp_request_t) : tag_recv := mk_recv (rq_id r) (rq_tag r) (rq_mask r) (negb (rq_block_offload r)).

Definition accepts (p : tag_recv) (m : ucp_recv_desc_t) : bool := ucp_tag_is_match (rd_tag m) (tr_tag p) (tr_mask p).

(** One queue holds its requests, and its counters count them modulo 2^32. *)
Record queue_ok (reqs : list ucp_request_t) (q : queue_id) (rq : ucp_request_queue_t) : Prop := {
  q_queue : queue rq = List.filter (in_queue q) reqs;
  q_sw : sw_count rq = wrap 32 (Z.of_nat (length (List.filter (in_queue q) reqs)));
  q_block : block_count rq = wrap 32 (Z.of_nat (length (List.filter rq_block_offload (List.filter (in_queue q) reqs))));
}.

Definition rd_bucket (i : Z) (m : ucp_recv_desc_t) : bool := ucp_tag_match_calc_hash (rd_tag m) =? i.

Record requests_ok (sn : Z) (reqs : list ucp_request_t) : Prop := {
  r_sorted : StronglySorted (λ a b, rq_sn a < rq_sn b) reqs;
  r_sn : Forall (λ r, 0 ≤ rq_sn r < sn) reqs;
  r_soft : Forall (λ r, rq_offloaded r = false) reqs;
  r_word : Forall (λ r, word (rq_tag r)) reqs;
  r_ids : NoDup (rq_id <$> reqs);
}.

Record tm_rel (n : nat) (tm : ucp_tag_match_t) (q : mq tag_recv ucp_recv_desc_t) (reqs : list ucp_request_t) : Prop := {
  t_posted : recv_of <$> reqs = posted q;
  t_reqs : requests_ok (exp_sn tm) reqs;
  t_sn : 0 ≤ exp_sn tm ∧ exp_sn tm + Z.of_nat n < ULONG_MAX;
  t_buckets : length (exp_hash tm) = Z.to_nat hash_size ∧ length (unexp_hash tm) = Z.to_nat hash_size;
  t_queues : ∀ k, queue_valid k → ∃ rq, get_queue tm k = Some rq ∧ queue_ok reqs k rq;
  t_sw_all : sw_all_count tm = wrap 32 (Z.of_nat (length reqs));
  t_unexp : unexp_all tm = unexpected q;
  t_unexp_hash : ∀ i, 0 ≤ i < hash_size → unexp_hash tm !! Z.to_nat i = Some (List.filter (rd_bucket i) (unexpected q));
  t_rd_ids : NoDup (rd_id <$> unexpected q);
  t_rd_word : Forall (λ m, word (rd_tag m)) (unexpected q);
}.

Lemma get_set_queue tm q rq k :
  queue_valid q → length (exp_hash tm) = Z.to_nat hash_size → queue_valid k →
  get_queue (set_queue tm q rq) k = if decide (k = q) then Some rq else get_queue tm k.
Proof.
  intros Hq Hl Hk. destruct q as [|i], k as [|j]; cbn in *; try (by case_decide).
  destruct (Z.leb_spec 0 j); [|lia]. case_decide as E.
  - injection E as ->. apply list_lookup_insert_eq. lia.
  - apply list_lookup_insert_ne. intros E'. apply E. f_equal. lia.
Qed.

(** ** Adding and removing requests *)

Lemma filter_middle {A} (f : A → bool) l1 x l2 :
  List.filter f (l1 ++ x :: l2) = List.filter f l1 ++ (if f x then [x] else []) ++ List.filter f l2.
Proof. rewrite List.filter_app. cbn. by destruct (f x). Qed.

Lemma queue_ok_remove k l1 r l2 rq :
  queue_ok (l1 ++ r :: l2) k rq → queue_of r ≠ k → queue_ok (l1 ++ l2) k rq.
Proof.
  intros [Hq Hs Hb] Hne.
  assert (List.filter (in_queue k) (l1 ++ r :: l2) = List.filter (in_queue k) (l1 ++ l2)) as E.
  { rewrite filter_middle, List.filter_app. unfold in_queue at 2. by rewrite bool_decide_false. }
  rewrite E in *. done.
Qed.

Lemma queue_ok_delete k l1 r l2 rq :
  queue_ok (l1 ++ r :: l2) k rq → queue_of r = k →
  queue_ok (l1 ++ l2) k
    (mk_queue (List.filter (in_queue k) (l1 ++ l2)) (wrap 32 (sw_count rq - 1))
       (if rq_block_offload r then wrap 32 (block_count rq - 1) else block_count rq)).
Proof.
  intros [Hq Hs Hb] Hk. rewrite filter_middle in Hs, Hb. unfold in_queue at 2 in Hs. unfold in_queue at 2 in Hb.
  rewrite bool_decide_true in Hs, Hb by done. split; cbn; [done|..]; rewrite ?Hs, ?Hb.
  - rewrite wrap_sub_l, List.filter_app, !length_app. cbn. f_equal. lia.
  - rewrite !List.filter_app. cbn. destruct (rq_block_offload r); rewrite !length_app; cbn; [rewrite wrap_sub_l|]; f_equal; lia.
Qed.

Lemma Forall_remove {A} (Q : A → Prop) l1 x l2 : Forall Q (l1 ++ x :: l2) → Forall Q (l1 ++ l2).
Proof. rewrite !Forall_app, Forall_cons. tauto. Qed.

Lemma requests_ok_remove sn l1 r l2 : requests_ok sn (l1 ++ r :: l2) → requests_ok sn (l1 ++ l2).
Proof.
  intros [Hs Hn Ho Hw Hi]. split; [|by eapply Forall_remove..|].
  - clear - Hs. induction l1 as [|x l1 IH]; cbn in *; [by apply StronglySorted_inv in Hs as [? _]|].
    apply StronglySorted_inv in Hs as [Hs Hall]. constructor; [by apply IH|]. by eapply Forall_remove.
  - rewrite fmap_app, fmap_cons, <- Permutation_middle in Hi. apply NoDup_cons in Hi as [_ Hi]. by rewrite fmap_app.
Qed.

Lemma requests_ok_push sn reqs r :
  requests_ok sn reqs → 0 ≤ sn → rq_sn r = sn → rq_offloaded r = false → word (rq_tag r) → rq_id r ∉ rq_id <$> reqs →
  requests_ok (sn + 1) (reqs ++ [r]).
Proof.
  intros [Hs Hn Ho Hw Hi] H0 Hr Hro Hrw Hnew. split.
  - clear - Hs Hn Hr. induction reqs as [|x reqs IH]; cbn; [by repeat constructor|].
    apply StronglySorted_inv in Hs as [Hs Hall]. apply Forall_cons in Hn as [Hx Hn]. constructor; [by apply IH|].
    apply Forall_app. split; [done|]. repeat constructor. lia.
  - apply Forall_app. split; [|apply Forall_singleton; lia]. eapply Forall_impl; [exact Hn|]. intros x Hx. cbn in *. lia.
  - apply Forall_app. by rewrite Forall_singleton.
  - apply Forall_app. by rewrite Forall_singleton.
  - rewrite fmap_app. apply NoDup_app. split; [done|]. split; [|by apply NoDup_singleton].
    intros x Hx. cbn. rewrite list_elem_of_singleton. by intros ->.
Qed.

Lemma delete_rel n tm q l1 r l2 :
  tm_rel n tm q (l1 ++ r :: l2) →
  ∃ tm', ucp_tag_exp_delete tm r (queue_of r) (List.filter (in_queue (queue_of r)) (l1 ++ l2)) = Some tm' ∧
    tm_rel n tm' (mk_mq (recv_of <$> l1 ++ l2) (unexpected q)) (l1 ++ l2).
Proof.
  intros [Hp Hr Hsn [Hb1 Hb2] Hq Hall Hu Huh Hid Hw]. unfold ucp_tag_exp_delete.
  assert (queue_valid (queue_of r)) as Hv by apply queue_of_valid.
  destruct (Hq _ Hv) as (rq & -> & Hok). run.
  assert (rq_offloaded r = false) as -> by (apply r_soft in Hr; by apply Forall_app, proj2, Forall_cons in Hr as [? _]).
  cbn [negb]. eexists. split; [done|]. set (tm1 := with_sw_all tm _).
  assert (∀ rq', exp_sn (set_queue tm1 (queue_of r) rq') = exp_sn tm ∧ sw_all_count (set_queue tm1 (queue_of r) rq') = sw_all_count tm1 ∧
    unexp_all (set_queue tm1 (queue_of r) rq') = unexp_all tm ∧ unexp_hash (set_queue tm1 (queue_of r) rq') = unexp_hash tm ∧
    length (exp_hash (set_queue tm1 (queue_of r) rq')) = length (exp_hash tm)) as Hfields
    by (intros rq'; destruct (queue_of r); cbn; rewrite ?length_insert; done).
  destruct (Hfields (mk_queue (List.filter (in_queue (queue_of r)) (l1 ++ l2)) (wrap 32 (sw_count rq - 1))
       (if rq_block_offload r then wrap 32 (block_count rq - 1) else block_count rq))) as (E1 & E2 & E3 & E4 & E5).
  split; cbn [posted unexpected]; rewrite ?E1, ?E2, ?E3, ?E4, ?E5; try done.
  - by eapply requests_ok_remove.
  - intros k Hk. rewrite get_set_queue by done. case_decide as Ek.
    + subst k. eexists. split; [done|]. by apply queue_ok_delete.
    + destruct (Hq k Hk) as (rq' & Hg & Hok'). exists rq'. split; [by destruct k|].
      eapply queue_ok_remove; [done|congruence].
  - cbn. rewrite Hall, wrap_sub_l, !length_app. cbn. f_equal. lia.
Qed.

Lemma queue_ok_push k reqs r rq :
  queue_ok reqs k rq → queue_of r = k →
  queue_ok (reqs ++ [r]) k
    (mk_queue (queue rq ++ [r]) (wrap 32 (sw_count rq + 1)) (wrap 32 (block_count rq + Z.b2z (rq_block_offload r)))).
Proof.
  intros [Hq Hs Hb] Hk.
  assert (List.filter (in_queue k) (reqs ++ [r]) = List.filter (in_queue k) reqs ++ [r]) as E.
  { rewrite List.filter_app. cbn. unfold in_queue at 2. by rewrite bool_decide_true. }
  split; cbn; rewrite E, ?Hq, ?Hs, ?Hb, ?wrap_add_l; [done|rewrite length_app; cbn; f_equal; lia|].
  rewrite List.filter_app, length_app. cbn. destruct (rq_block_offload r); cbn; f_equal; lia.
Qed.

Lemma queue_ok_push_other k reqs r rq : queue_ok reqs k rq → queue_of r ≠ k → queue_ok (reqs ++ [r]) k rq.
Proof.
  intros [Hq Hs Hb] Hk. assert (List.filter (in_queue k) (reqs ++ [r]) = List.filter (in_queue k) reqs) as E.
  { rewrite List.filter_app. cbn. unfold in_queue at 2. by rewrite bool_decide_false, app_nil_r. }
  by split; rewrite E.
Qed.

Lemma push_rel n tm q reqs p :
  tm_rel (S n) tm q reqs → word (tr_tag p) → tr_id p ∉ tr_id <$> posted q →
  let k := ucp_tag_exp_get_queue (tr_tag p) (tr_mask p) in
  let req := mk_request (tr_id p) (tr_tag p) (tr_mask p) 0 false (negb (tr_contig p)) in
  ∃ tm1 tm2 reqs', ucp_tag_offload_try_post tm k (rq_block_offload req) = Some tm1 ∧
    ucp_tag_exp_push tm1 k req = Some tm2 ∧ tm_rel n tm2 (mk_mq (posted q ++ [p]) (unexpected q)) reqs'.
Proof.
  intros [Hp Hr [Hsn0 Hsn] [Hb1 Hb2] Hq Hall Hu Huh Hid Hw] Hpw Hnew k req.
  assert (queue_valid k) as Hv by apply queue_of_valid. destruct (Hq k Hv) as (rq & Hg & Hok).
  unfold ucp_tag_offload_try_post. rewrite Hg. run. cbn [rq_block_offload req].
  eexists _, _, (reqs ++ [mk_request (tr_id p) (tr_tag p) (tr_mask p) (exp_sn tm) false (negb (tr_contig p))]).
  split; [done|]. unfold ucp_tag_exp_push. rewrite get_set_queue, decide_True by done. run. split; [done|].
  set (r := mk_request _ _ _ (exp_sn tm) _ _).
  set (tm2 := set_queue _ _ _).
  assert (exp_sn tm2 = exp_sn tm + 1 ∧ sw_all_count tm2 = wrap 32 (sw_all_count tm + 1) ∧ unexp_all tm2 = unexp_all tm ∧
    unexp_hash tm2 = unexp_hash tm ∧ length (exp_hash tm2) = length (exp_hash tm)) as (E1 & E2 & E3 & E4 & E5).
  { unfold tm2. assert (wrap 64 (exp_sn tm + 1) = exp_sn tm + 1) by (apply wrap_small; unfold ULONG_MAX in *; lia).
    destruct k; cbn; rewrite ?length_insert; done. }
  split; cbn [posted unexpected]; rewrite ?E1, ?E2, ?E3, ?E4, ?E5; try done.
  - rewrite fmap_app, Hp. f_equal. unfold r, recv_of. cbn. rewrite negb_involutive. by destruct p.
  - apply requests_ok_push; try done. cbn. intros Hin. apply Hnew. rewrite <- Hp, <- list_fmap_compose. done.
  - lia.
  - intros j Hj. assert (get_queue tm2 j = if decide (j = k) then
        Some (mk_queue (queue rq ++ [r]) (wrap 32 (sw_count rq + 1)) (wrap 32 (block_count rq + Z.b2z (rq_block_offload r))))
      else get_queue tm j) as ->.
    { unfold tm2. rewrite get_set_queue by (try done; destruct k; cbn; rewrite ?length_insert; done).
      case_decide; [by destruct k|]. destruct k as [|i], j as [|i']; cbn; try done.
      case_match; [|done]. rewrite list_lookup_insert_ne; [done|]. cbn in *. intros E. destruct H. f_equal. lia. }
    case_decide as Ej; [subst j; eexists; split; [done|]; by apply queue_ok_push|].
    destruct (Hq j Hj) as (rq' & ? & ?). exists rq'. split; [done|]. apply queue_ok_push_other; [done|]. by intros <-.
  - rewrite Hall, wrap_add_l, length_app. cbn. f_equal. lia.
Qed.

(** ** Searching the expected queues *)

Lemma seq_after s L (g : ucp_request_t → bool) :
  s < ULONG_MAX → Forall (λ b, s < rq_sn b) L → s < ucp_tag_exp_req_seq (List.filter g L).
Proof.
  intros Hs. induction 1 as [|x L Hx HL IH]; [done|]. cbn. by destruct (g x).
Qed.

Lemma queue_cases tag r :
  let i := ucp_tag_match_calc_hash tag in
  (in_queue (QHash i) r = true ∧ in_queue QWild r = false) ∨ (in_queue (QHash i) r = false ∧ in_queue QWild r = true) ∨
  (in_queue (QHash i) r = false ∧ in_queue QWild r = false ∧ (word tag → word (rq_tag r) → matches tag r = false)).
Proof.
  unfold in_queue. cbn zeta. destruct (decide (queue_of r = QHash (ucp_tag_match_calc_hash tag))) as [E|E].
  - left. by rewrite bool_decide_true, bool_decide_false by congruence.
  - right. destruct (decide (queue_of r = QWild)) as [E'|E']; [left|right].
    + by rewrite bool_decide_false, bool_decide_true by congruence.
    + rewrite !bool_decide_false by done. split_and!; try done. intros Ht Hr.
      destruct (matches tag r) eqn:Hm; [|done]. by destruct (matches_queue tag r Ht Hr Hm).
Qed.

(** The merge by sequence number finds the earliest request that matches. *)
Lemma search_all_spec tag L hp wp fuel :
  let H := in_queue (QHash (ucp_tag_match_calc_hash tag)) in let W := in_queue QWild in
  word tag → StronglySorted (λ a b, rq_sn a < rq_sn b) L → Forall (λ r, rq_sn r < ULONG_MAX ∧ word (rq_tag r)) L →
  (length (List.filter H L) + length (List.filter W L) < fuel)%nat →
  search_all fuel tag hp (List.filter H L) wp (List.filter W L) =
    Some ('(r, rest) ← extract (matches tag) L;
          Some (r, H r, if H r then hp ++ List.filter H rest else wp ++ List.filter W rest)).
Proof.
  intros H W Ht. revert hp wp fuel. induction L as [|r L IH]; intros hp wp fuel Hs Hall Hf.
  { destruct fuel as [|f]; [cbn in Hf; lia|]. done. }
  apply StronglySorted_inv in Hs as [Hs Hlt]. apply Forall_cons in Hall as [[Hr Hw] Hall].
  cbn [List.filter extract]. pose proof (seq_after (rq_sn r) L H Hr Hlt). pose proof (seq_after (rq_sn r) L W Hr Hlt).
  cbn [List.filter] in Hf. destruct (queue_cases tag r) as [[E1 E2]|[[E1 E2]|(E1 & E2 & E3)]]; fold H in E1; fold W in E2; rewrite E1, E2 in *.
  - destruct fuel as [|f]; [lia|]. cbn [search_all ucp_tag_exp_req_seq]. rewrite (proj2 (Z.eqb_neq _ _)) by lia.
    rewrite (proj2 (Z.ltb_lt _ _)) by lia. destruct (matches tag r) eqn:Em; [run; by rewrite E1|].
    rewrite IH by (try done; cbn in Hf; lia). destruct (extract (matches tag) L) as [[x rest]|]; [|done]. run.
    cbn [List.filter]. rewrite E1, E2, <- (assoc (++)). done.
  - destruct fuel as [|f]; [lia|]. cbn [search_all ucp_tag_exp_req_seq]. rewrite (proj2 (Z.eqb_neq _ _)) by lia.
    rewrite (proj2 (Z.ltb_ge _ _)) by lia. destruct (matches tag r) eqn:Em; [run; by rewrite E1|].
    rewrite IH by (try done; cbn in Hf; lia). destruct (extract (matches tag) L) as [[x rest]|]; [|done]. run.
    cbn [List.filter]. rewrite E1, E2, <- (assoc (++)). done.
  - rewrite (E3 Ht Hw), IH by done. destruct (extract (matches tag) L) as [[x rest]|]; [|done]. run.
    cbn [List.filter]. by rewrite E1, E2.
Qed.

Lemma found_rel n tm q reqs r rest k :
  tm_rel n tm q reqs → extract (matches k) reqs = Some (r, rest) →
  ∃ tm', ucp_tag_exp_delete tm r (queue_of r) (List.filter (in_queue (queue_of r)) rest) = Some tm' ∧
    tm_rel n tm' (mk_mq (recv_of <$> rest) (unexpected q)) rest.
Proof. intros Hrel (l1 & l2 & -> & -> & _)%extract_Some. by apply delete_rel. Qed.

Lemma exp_search_rel n tm q reqs tag :
  tm_rel n tm q reqs → word tag →
  match extract (λ p, ucp_tag_is_match tag (tr_tag p) (tr_mask p)) (posted q) with
  | None => ucp_tag_exp_search tm tag = Some (None, tm)
  | Some (p, rest) => ∃ r tm' reqs', ucp_tag_exp_search tm tag = Some (Some r, tm') ∧ recv_of r = p ∧
      tm_rel n tm' (mk_mq rest (unexpected q)) reqs'
  end.
Proof.
  intros Hrel Ht. pose proof Hrel as [Hp [Hs Hsn _ Hw _] [H0 Hlim] _ Hq _ _ _ _ _].
  rewrite <- Hp, extract_fmap. change (λ a, ucp_tag_is_match tag (tr_tag (recv_of a)) (tr_mask (recv_of a))) with (matches tag).
  set (i := ucp_tag_match_calc_hash tag). destruct (Hq (QHash i) (calc_hash_range tag)) as (rq & Hg & [Eq _ _]).
  destruct (Hq QWild I) as (wq & Hwq & [Ew _ _]). injection Hwq as <-.
  assert (Forall (λ r, rq_sn r < ULONG_MAX ∧ word (rq_tag r)) reqs) as Hall.
  { apply Forall_forall. intros r Hr. rewrite Forall_forall in Hsn, Hw. specialize (Hsn r Hr). specialize (Hw r Hr).
    cbn in *. split; [lia|done]. }
  unfold ucp_tag_exp_search. fold i. destruct (queue (wildcard tm)) as [|w0 ws] eqn:Ewl.
  - rewrite Hg. run. rewrite Eq, extract_filter.
    2:{ intros r Hr Hm. rewrite Forall_forall in Hw. destruct (matches_queue tag r Ht (Hw r Hr) Hm) as [E|E];
          [|by apply bool_decide_eq_true].
        assert (r ∈ List.filter (in_queue QWild) reqs) as Hin.
        { apply list_elem_of_In, List.filter_In. split; [by apply list_elem_of_In|by apply bool_decide_eq_true]. }
        rewrite <- Ew in Hin. by apply elem_of_nil in Hin. }
    destruct (extract (matches tag) reqs) as [[r rest]|] eqn:Ex; run; [|done].
    destruct (found_rel n tm q reqs r rest tag Hrel Ex) as (tm' & Hd & Hrel').
    assert (queue_of r = QHash i) as Hqr.
    { apply extract_Some in Ex as (l1 & l2 & -> & _ & Hm & _). rewrite Forall_app, Forall_cons in Hw.
      destruct (matches_queue tag r Ht) as [E|E]; [tauto|done| |done]. exfalso.
      rewrite filter_middle in Ew. unfold in_queue at 2 in Ew. rewrite bool_decide_true in Ew by done. by destruct (List.filter _ l1). }
    rewrite Hqr in Hd. rewrite Hd. run. by exists r, tm', rest.
  - unfold ucp_tag_exp_search_all. rewrite Hg. run. rewrite Ewl, Ew, Eq.
    unfold i. rewrite search_all_spec by (try done; lia). fold i. run.
    destruct (extract (matches tag) reqs) as [[r rest]|] eqn:Ex; run; [|done].
    destruct (found_rel n tm q reqs r rest tag Hrel Ex) as (tm' & Hd & Hrel'). exists r, tm', rest.
    split; [|done]. destruct (decide (queue_of r = QHash i)) as [E|E].
    + assert (in_queue (QHash i) r = true) as -> by (by apply bool_decide_eq_true). cbn [app]. rewrite E in Hd. by rewrite Hd.
    + assert (in_queue (QHash i) r = false) as -> by (by apply bool_decide_eq_false). cbn [app].
      apply extract_Some in Ex as (l1 & l2 & -> & _ & Hm & _). rewrite Forall_app, Forall_cons in Hw.
      destruct (matches_queue tag r Ht) as [E'|E']; [tauto|done| |done]. rewrite E' in Hd. by rewrite Hd.
Qed.

(** ** Unexpected messages *)

Lemma bucket_insert n tm q reqs m i :
  tm_rel n tm q reqs → 0 ≤ i < hash_size →
  <[Z.to_nat (ucp_tag_match_calc_hash (rd_tag m)) :=
     List.filter (rd_bucket (ucp_tag_match_calc_hash (rd_tag m))) (unexpected q) ++ [m]]> (unexp_hash tm) !! Z.to_nat i =
    Some (List.filter (rd_bucket i) (unexpected q ++ [m])).
Proof.
  intros Hrel Hi. pose proof (calc_hash_range (rd_tag m)) as Hh. rewrite List.filter_app. cbn. unfold rd_bucket at 3.
  destruct (Z.eqb_spec (ucp_tag_match_calc_hash (rd_tag m)) i) as [<-|Hne].
  - rewrite list_lookup_insert_eq; [done|]. destruct (t_buckets _ _ _ _ Hrel). lia.
  - rewrite list_lookup_insert_ne by lia. rewrite app_nil_r. by apply (t_unexp_hash _ _ _ _ Hrel).
Qed.

Lemma unexp_recv_rel n tm q reqs m :
  tm_rel n tm q reqs → word (rd_tag m) → rd_id m ∉ rd_id <$> unexpected q →
  ∃ tm', ucp_tag_unexp_recv tm m (rd_tag m) = Some tm' ∧ tm_rel n tm' (mk_mq (posted q) (unexpected q ++ [m])) reqs.
Proof.
  intros Hrel Hw Hnew. pose proof Hrel as [Hp Hr Hsn [Hb1 Hb2] Hq Hall Hu Huh Hid Hws].
  unfold ucp_tag_unexp_recv. rewrite Huh by apply calc_hash_range. run. eexists. split; [done|].
  split; cbn [posted unexpected with_unexp exp_sn exp_hash unexp_hash unexp_all sw_all_count]; try done.
  - by rewrite length_insert.
  - by rewrite Hu.
  - intros i Hi. by eapply bucket_insert.
  - rewrite fmap_app. apply NoDup_app. split; [done|]. split; [|by apply NoDup_singleton].
    intros x Hx. cbn. rewrite list_elem_of_singleton. by intros ->.
  - apply Forall_app. by rewrite Forall_singleton.
Qed.

Lemma unlink_extract f l m rest :
  NoDup (rd_id <$> l) → extract f l = Some (m, rest) → unlink (rd_id m) l = rest.
Proof.
  intros Hnd (l1 & l2 & -> & -> & _)%extract_Some. unfold unlink. rewrite filter_middle, Z.eqb_refl. cbn [negb app].
  rewrite fmap_app, fmap_cons in Hnd. rewrite <- Permutation_middle in Hnd. apply NoDup_cons in Hnd as [Hm _].
  rewrite <- fmap_app in Hm. rewrite <- List.filter_app. clear - Hm. induction (l1 ++ l2) as [|x l IH]; [done|]. cbn.
  cbn in Hm. rewrite elem_of_cons in Hm. rewrite (proj2 (Z.eqb_neq _ _)) by (intros E; apply Hm; by left). cbn. f_equal.
  apply IH. tauto.
Qed.

Lemma filter_comm {A} (f g : A → bool) l : List.filter f (List.filter g l) = List.filter g (List.filter f l).
Proof.
  induction l as [|x l IH]; [done|]. cbn. destruct (g x) eqn:Eg, (f x) eqn:Ef; cbn; rewrite ?Eg, ?Ef, IH; done.
Qed.

Lemma unexp_remove_rel n tm q reqs f m rest :
  tm_rel n tm q reqs → extract f (unexpected q) = Some (m, rest) →
  tm_rel n (ucp_tag_unexp_remove tm m) (mk_mq (posted q) rest) reqs.
Proof.
  intros [Hp Hr Hsn [Hb1 Hb2] Hq Hall Hu Huh Hid Hws] Ex. pose proof (unlink_extract _ _ _ _ Hid Ex) as El.
  pose proof Ex as (l1 & l2 & El1 & El2 & _)%extract_Some.
  unfold ucp_tag_unexp_remove. split; cbn [posted unexpected with_unexp exp_sn exp_hash unexp_hash unexp_all sw_all_count]; try done.
  - by rewrite length_fmap.
  - by rewrite Hu.
  - intros i Hi. rewrite list_lookup_fmap, Huh by done. cbn. f_equal. rewrite <- El. unfold unlink. apply filter_comm.
  - rewrite El1, fmap_app, fmap_cons, <- Permutation_middle in Hid. apply NoDup_cons in Hid as [_ Hid].
    by rewrite El2, fmap_app.
  - rewrite El1 in Hws. rewrite El2. by eapply Forall_remove.
Qed.

Lemma unexp_search_rel n tm q reqs tag mask (rem : bool) :
  tm_rel n tm q reqs → word tag →
  let f := λ m, ucp_tag_is_match (rd_tag m) tag mask in
  ∃ tm', ucp_tag_unexp_search tm tag mask rem = Some (fst <$> extract f (unexpected q), tm') ∧
    tm_rel n tm' (mk_mq (posted q)
      (if rem then match extract f (unexpected q) with Some (_, rest) => rest | None => unexpected q end else unexpected q)) reqs.
Proof.
  intros Hrel Ht f. pose proof Hrel as [_ _ _ _ _ _ Hu Huh _ Hws].
  assert (mk_mq (posted q) (unexpected q) = q) as Eq by (by destruct q).
  unfold ucp_tag_unexp_search, ucp_tag_unexp_is_empty. rewrite Hu. destruct (unexpected q) as [|m0 ms] eqn:Em.
  { exists tm. split; [done|]. destruct rem; cbn [extract]; by rewrite Eq. }
  rewrite <- Em in *. clear m0 ms Em.
  assert (∃ l, (if mask =? UCP_TAG_MASK_FULL then unexp_hash tm !! Z.to_nat (ucp_tag_match_calc_hash tag)
      else Some (unexpected q)) = Some l ∧ List.find f l = fst <$> extract f (unexpected q)) as (l & -> & Ef).
  { destruct (Z.eqb_spec mask UCP_TAG_MASK_FULL) as [->|]; [|eexists; split; [done|]; apply find_extract].
    rewrite Huh by apply calc_hash_range. eexists. split; [done|]. rewrite find_extract, extract_filter.
    - destruct (extract f (unexpected q)) as [[]|]; done.
    - intros m Hm Hf. rewrite Forall_forall in Hws. unfold f in Hf. rewrite match_full in Hf by (done || by apply Hws).
      apply Z.eqb_eq in Hf. apply Z.eqb_eq. by rewrite Hf. }
  run. change (List.find _ l) with (List.find f l). rewrite Ef. destruct (extract f (unexpected q)) as [[m rest]|] eqn:Ex; run.
  - eexists. split; [done|]. destruct rem; [by eapply unexp_remove_rel|by rewrite Eq].
  - exists tm. split; [done|]. destruct rem; by rewrite Eq.
Qed.

End TagMatchSpec.
