(* ===== verification/TagMatchRefine.v ===== *)
(** * Runs of the UCP tag matching

    A worker that receives, handles arriving messages, probes and cancels in any
    order behaves as the abstract queues of MatchQueue: with the same results
    and, afterwards, with queues that stand for the abstract ones.  From this:
    no waiting receive accepts a waiting message, and messages with the same tag
    do not overtake each other. *)

From stdpp Require Import base numbers list sorting.
From S2P Require Import Prelude TagMatch MatchQueue TagMatchSpec.
Import TagMatch MatchQueue TagMatchSpec.

Local Open Scope Z_scope.
Local Open Scope c_scope.

Module TagMatchRefine.

Abbreviation queues := (mq tag_recv ucp_recv_desc_t).

(** ** Operations and their abstract behaviour *)

(** The calls of a worker with what the environment decides: whether
    allocations succeed, and the parameters. *)
Inductive tag_op :=
| TRecv (req_ok force : bool) (dt : ucs_status_t) (p : tag_recv)
| TArrive (desc_ok : bool) (m : ucp_recv_desc_t)
| TMsgRecv (req_ok force : bool) (dt : ucs_status_t) (id : Z) (m : ucp_recv_desc_t)
| TProbe (rem : bool) (tag mask : Z)
| TCancel (completed : bool) (p : tag_recv).

Inductive tag_out :=
| ORecv (r : recv_result)
| OMatched (p : tag_recv)
| OUnexpected
| OArriveError
| OProbe (m : option ucp_recv_desc_t)
| OCancel (b : bool).

Definition arrive_out (r : arrive_result) : tag_out :=
  match r with
  | ArriveMatched req => OMatched (recv_of req)
  | ArriveUnexpected => OUnexpected
  | ArriveError => OArriveError
  end.

Definition tag_step (o : tag_op) (tm : ucp_tag_match_t) : option (tag_out * ucp_tag_match_t) :=
  match o with
  | TRecv req_ok force dt p =>
      '(r, tm') ← recv_match req_ok tm (tr_id p) (tr_tag p) (tr_mask p) (mk_param force dt (tr_contig p));
      Some (ORecv r, tm')
  | TMsgRecv req_ok force dt id m =>
      '(r, tm') ← msg_recv_match req_ok tm id m (mk_param force dt true); Some (ORecv r, tm')
  | TArrive desc_ok m => '(r, tm') ← arrive_match desc_ok tm m; Some (arrive_out r, tm')
  | TProbe rem tag mask => '(m, tm') ← probe_match tm tag mask rem; Some (OProbe m, tm')
  | TCancel completed p =>
      '(b, tm') ← cancel_match completed tm (tr_id p) (tr_tag p) (tr_mask p); Some (OCancel b, tm')
  end.

Fixpoint tag_run (os : list tag_op) (tm : ucp_tag_match_t) : option (list tag_out * ucp_tag_match_t) :=
  match os with
  | [] => Some ([], tm)
  | o :: os' => '(r, tm1) ← tag_step o tm; '(rs, tm2) ← tag_run os' tm1; Some (r :: rs, tm2)
  end.

(** How a receive ends that found the message [m]. *)
Definition taken (force : bool) (dt : ucs_status_t) (m : ucp_recv_desc_t) : recv_result :=
  if decide (rd_kind m = EAGER_ONLY) then RecvCompleted m
  else if force then RecvError UCS_ERR_NO_RESOURCE
  else if decide (dt ≠ UCS_OK) then RecvError dt
  else RecvMatched m.

(** The abstract steps: a receive takes the earliest message it accepts, also
    when it then fails, and waits only if nothing stops it. *)
Definition queues_step (o : tag_op) (q : queues) : tag_out * queues :=
  match o with
  | TRecv false _ _ _ => (ORecv (RecvError UCS_ERR_NO_MEMORY), q)
  | TRecv true force dt p =>
      match mq_post accepts p q with
      | (Some m, q') => (ORecv (taken force dt m), q')
      | (None, q') =>
          if force then (ORecv (RecvError UCS_ERR_NO_RESOURCE), q)
          else if decide (dt ≠ UCS_OK) then (ORecv (RecvError dt), q)
          else (ORecv RecvPosted, q')
      end
  | TMsgRecv req_ok force dt _ m =>
      (ORecv (if req_ok then taken force dt m else RecvError UCS_ERR_NO_MEMORY), q)
  | TArrive desc_ok m =>
      match mq_arrive accepts m q with
      | (Some p, q') => (OMatched p, q')
      | (None, q') => if desc_ok then (OUnexpected, q') else (OArriveError, q)
      end
  | TProbe rem tag mask =>
      match extract (accepts (mk_recv 0 tag mask true)) (unexpected q) with
      | Some (m, rest) =>
          if decide (rd_kind m = EAGER_OFFLOAD_STARTED) then (OProbe None, q)
          else (OProbe (Some m), if rem then mk_mq (posted q) rest else q)
      | None => (OProbe None, q)
      end
  | TCancel completed p =>
      if completed then (OCancel false, q)
      else let '(b, q') := mq_cancel (λ p', tr_id p' =? tr_id p) q in (OCancel b, q')
  end.

Fixpoint queues_run (os : list tag_op) (q : queues) : list tag_out * queues :=
  match os with
  | [] => ([], q)
  | o :: os' => let '(r, q1) := queues_step o q in let '(rs, q2) := queues_run os' q1 in (r :: rs, q2)
  end.

(** What callers keep to: tags are 64-bit words, the address of a request or
    descriptor is not in use, and a request is cancelled with its own tag. *)
Definition op_ok (o : tag_op) (q : queues) : Prop :=
  match o with
  | TRecv _ _ _ p => word (tr_tag p) ∧ tr_id p ∉ tr_id <$> posted q
  | TArrive _ m => word (rd_tag m) ∧ rd_id m ∉ rd_id <$> unexpected q
  | TMsgRecv _ _ _ _ _ => True
  | TProbe _ tag _ => word tag
  | TCancel _ p => Forall (λ p', tr_id p' = tr_id p → p' = p) (posted q)
  end.

Fixpoint ops_ok (os : list tag_op) (q : queues) : Prop :=
  match os with
  | [] => True
  | o :: os' => op_ok o q ∧ ops_ok os' (queues_step o q).2
  end.

#[global] Instance tag_recv_eq_dec : EqDecision tag_recv.
Proof. solve_decision. Defined.

#[global] Instance ucp_request_eq_dec : EqDecision ucp_request_t.
Proof. solve_decision. Defined.

#[global] Instance op_ok_dec o q : Decision (op_ok o q).
Proof. destruct o; cbn; unfold word; apply _. Defined.

#[global] Instance ops_ok_dec os q : Decision (ops_ok os q).
Proof. revert q. induction os; intros q; cbn; apply _. Defined.

(** ** Each operation follows its abstract step *)

Definition stands_for (n : nat) (tm : ucp_tag_match_t) (q : queues) : Prop := ∃ reqs, tm_rel n tm q reqs.

Lemma init_stands_for tm n :
  Z.of_nat n < ULONG_MAX → ucp_tag_match_init true true = Some tm → stands_for n tm mq_empty.
Proof.
  intros Hn E. apply (inj Some) in E. subst tm. exists []. split; cbn [exp_sn sw_all_count unexp_all posted unexpected mq_empty]; try done; try constructor.
  1-5: constructor.
  - intros [|i] Hi; [by eexists|]. exists (mk_queue [] 0 0). split; [|done]. cbn [get_queue exp_hash].
    cbn [queue_valid] in Hi. rewrite (proj2 (Z.leb_le _ _)) by lia. apply lookup_replicate_2. lia.
  - intros i Hi. apply lookup_replicate_2. lia.
Qed.

(** Fewer receives may come than the relation allows. *)
Lemma stands_for_S n tm q : stands_for (S n) tm q → stands_for n tm q.
Proof. intros [reqs [? ? [? ?]]]. exists reqs. split; try done. split; [done|lia]. Qed.

Lemma mq_eta (q : queues) : mk_mq (posted q) (unexpected q) = q.
Proof. by destruct q. Qed.

Lemma recv_follows n tm q req_ok force dt p :
  stands_for (S n) tm q → word (tr_tag p) → tr_id p ∉ tr_id <$> posted q →
  ∃ tm', tag_step (TRecv req_ok force dt p) tm = Some ((queues_step (TRecv req_ok force dt p) q).1, tm') ∧
    stands_for n tm' (queues_step (TRecv req_ok force dt p) q).2.
Proof.
  intros [reqs Hrel] Hw Hnew. unfold tag_step, recv_match. destruct req_ok; run.
  2:{ eexists. split; [done|]. apply stands_for_S. by exists reqs. }
  destruct (unexp_search_rel _ tm q reqs (tr_tag p) (tr_mask p) true Hrel Hw) as (tm1 & -> & Hrel1). run.
  cbn [queues_step]. unfold mq_post. fold (accepts p) in *.
  change (λ m, ucp_tag_is_match (rd_tag m) (tr_tag p) (tr_mask p)) with (accepts p) in *.
  destruct (extract (accepts p) (unexpected q)) as [[m rest]|]; run; unfold recv_common_match; cbn [force_imm dt_status contig].
  - assert (stands_for n tm1 (mk_mq (posted q) rest)) by (apply stands_for_S; by exists reqs).
    unfold taken. case_decide; [by eexists|]. destruct force; [by eexists|]. case_decide; by eexists.
  - rewrite mq_eta in Hrel1. assert (stands_for n tm1 q) by (apply stands_for_S; by exists reqs).
    destruct force; [by eexists|]. case_decide; [by eexists|].
    destruct (push_rel n tm1 q reqs p Hrel1 Hw Hnew) as (tm2 & tm3 & reqs' & E2 & E3 & Hrel3).
    rewrite E2. run. rewrite E3. run. eexists. split; [done|]. by exists reqs'.
Qed.

Lemma arrive_follows n tm q desc_ok m :
  stands_for n tm q → word (rd_tag m) → rd_id m ∉ rd_id <$> unexpected q →
  ∃ tm', tag_step (TArrive desc_ok m) tm = Some ((queues_step (TArrive desc_ok m) q).1, tm') ∧
    stands_for n tm' (queues_step (TArrive desc_ok m) q).2.
Proof.
  intros [reqs Hrel] Hw Hnew. unfold tag_step, arrive_match.
  pose proof (exp_search_rel n tm q reqs (rd_tag m) Hrel Hw) as Hs. cbn [queues_step]. unfold mq_arrive.
  change (λ p, accepts p m) with (λ p, ucp_tag_is_match (rd_tag m) (tr_tag p) (tr_mask p)).
  destruct (extract _ (posted q)) as [[p rest]|].
  - destruct Hs as (r & tm' & reqs' & -> & <- & Hrel'). run. eexists. split; [done|]. by exists reqs'.
  - rewrite Hs. run. destruct desc_ok; run; [|eexists; split; [done|]; by exists reqs].
    destruct (unexp_recv_rel n tm q reqs m Hrel Hw Hnew) as (tm' & -> & Hrel'). run. eexists. split; [done|]. by exists reqs.
Qed.

Lemma probe_follows n tm q rem tag mask :
  stands_for n tm q → word tag →
  ∃ tm', tag_step (TProbe rem tag mask) tm = Some ((queues_step (TProbe rem tag mask) q).1, tm') ∧
    stands_for n tm' (queues_step (TProbe rem tag mask) q).2.
Proof.
  intros [reqs Hrel] Hw. unfold tag_step, probe_match.
  destruct (unexp_search_rel _ tm q reqs tag mask false Hrel Hw) as (tm1 & -> & Hrel1). run. cbn [queues_step]. rewrite mq_eta in Hrel1.
  change (accepts (mk_recv 0 tag mask true)) with (λ m, ucp_tag_is_match (rd_tag m) tag mask).
  destruct (extract _ (unexpected q)) as [[m rest]|] eqn:Ex; run; [|eexists; split; [done|]; by exists reqs].
  case_decide; run; [eexists; split; [done|]; by exists reqs|]. eexists. split; [done|]. exists reqs.
  destruct rem; [by eapply unexp_remove_rel|done].
Qed.

Lemma exp_remove_rel n tm q reqs p :
  tm_rel n tm q reqs → Forall (λ p', tr_id p' = tr_id p → p' = p) (posted q) →
  ∃ tm', ucp_tag_exp_remove tm (tr_id p) (tr_tag p) (tr_mask p) = Some ((mq_cancel (λ p', tr_id p' =? tr_id p) q).1, tm') ∧
    stands_for n tm' (mq_cancel (λ p', tr_id p' =? tr_id p) q).2.
Proof.
  intros Hrel Hok. pose proof Hrel as [Hp Hr _ _ Hq _ _ _ _ _]. unfold ucp_tag_exp_remove, mq_cancel. set (k := ucp_tag_exp_get_queue _ _).
  destruct (Hq k (queue_of_valid _ _)) as (rq & Hg & [Eq _ _]). rewrite Hg. run. rewrite Eq, <- Hp in *. rewrite extract_fmap.
  change (λ a, tr_id (recv_of a) =? tr_id p) with (λ r, rq_id r =? tr_id p).
  assert (∀ r, r ∈ reqs → (rq_id r =? tr_id p) = true → queue_of r = k) as Hqr.
  { intros r Hin E%Z.eqb_eq. rewrite Forall_forall in Hok. assert (recv_of r = p) as <-; [|done].
    apply Hok; [by apply list_elem_of_fmap_2|done]. }
  rewrite extract_filter by (intros r Hin E; apply bool_decide_eq_true; by apply Hqr).
  destruct (extract (λ r, rq_id r =? tr_id p) reqs) as [[r rest]|] eqn:Ex; run; [|eexists; split; [done|]; by exists reqs].
  apply extract_Some in Ex as (l1 & l2 & -> & -> & Hm & _).
  destruct (delete_rel n tm q l1 r l2 Hrel) as (tm' & Hd & Hrel').
  rewrite (Hqr r) in Hd; [|by apply elem_of_app; right; left|done]. rewrite Hd. run. eexists. split; [done|]. by eexists.
Qed.

Lemma step_follows n tm q o :
  stands_for (S n) tm q → op_ok o q →
  ∃ tm', tag_step o tm = Some ((queues_step o q).1, tm') ∧ stands_for n tm' (queues_step o q).2.
Proof.
  intros Hs Hok. pose proof (stands_for_S _ _ _ Hs) as Hs'. destruct o as [req_ok force dt p|desc_ok m|req_ok force dt id m|rem tag mask|completed p]; cbn [op_ok] in Hok.
  - destruct Hok. by apply recv_follows.
  - destruct Hok. by apply arrive_follows.
  - exists tm. split; [|done]. unfold tag_step, msg_recv_match, recv_common_match. cbn [queues_step].
    unfold taken. cbn [force_imm dt_status contig].
    destruct req_ok; [|done]. case_decide; [done|]. destruct force; [done|]. by case_decide.
  - by apply probe_follows.
  - unfold tag_step, cancel_match. cbn [queues_step]. destruct completed; run; [by eexists|].
    destruct Hs' as [reqs Hrel]. destruct (exp_remove_rel n tm q reqs p Hrel Hok) as (tm' & -> & Hs'').
    destruct (mq_cancel _ q) as [b q']. run. by eexists.
Qed.

Lemma run_follows os n tm q :
  stands_for (length os + n) tm q → ops_ok os q →
  ∃ tm', tag_run os tm = Some ((queues_run os q).1, tm') ∧ stands_for n tm' (queues_run os q).2.
Proof.
  revert tm q. induction os as [|o os IH]; intros tm q Hs Hok; [by exists tm|]. destruct Hok as [Ho Hok].
  destruct (step_follows (length os + n) tm q o Hs Ho) as (tm1 & E1 & Hs1). cbn [tag_run queues_run]. rewrite E1. run.
  destruct (queues_step o q) as [r q1]. cbn [fst snd] in *. destruct (IH tm1 q1 Hs1 Hok) as (tm2 & -> & Hs2). run.
  destruct (queues_run os q1) as [rs q2]. by exists tm2.
Qed.

(** ** Nothing that could be matched waits *)

Lemma waiting_apart_rest p l q m rest :
  waiting_apart accepts q → extract p (unexpected q) = Some (m, rest) → l = posted q → waiting_apart accepts (mk_mq l rest).
Proof. intros H E -> p' m' Hp Hm. apply H; [done|]. by eapply extract_subset. Qed.

Lemma waiting_apart_step o q : waiting_apart accepts q → waiting_apart accepts (queues_step o q).2.
Proof.
  intros H. destruct o as [req_ok force dt p|desc_ok m|req_ok force dt id m|rem tag mask|completed p]; cbn [queues_step].
  - destruct req_ok; [|done]. pose proof (waiting_apart_post accepts p q H) as H'.
    destruct (mq_post accepts p q) as [[m|] q']; [done|]. destruct force; [done|]. by case_decide.
  - pose proof (waiting_apart_arrive accepts m q H) as H'. destruct (mq_arrive accepts m q) as [[p|] q']; [done|]. by destruct desc_ok.
  - done.
  - destruct (extract _ (unexpected q)) as [[m rest]|] eqn:E; [|done]. case_decide; [done|].
    destruct rem; [by eapply waiting_apart_rest|done].
  - destruct completed; [done|]. pose proof (waiting_apart_cancel accepts (λ p', tr_id p' =? tr_id p) q H) as H'.
    by destruct (mq_cancel _ q).
Qed.

Lemma waiting_apart_run os q : waiting_apart accepts q → waiting_apart accepts (queues_run os q).2.
Proof.
  revert q. induction os as [|o os IH]; intros q H; [done|]. cbn [queues_run]. pose proof (waiting_apart_step o q H) as H1.
  destruct (queues_step o q) as [r q1]. specialize (IH q1 H1). by destruct (queues_run os q1).
Qed.

Lemma waiting_request n tm q k rq r :
  stands_for n tm q → get_queue tm k = Some rq → r ∈ queue rq → recv_of r ∈ posted q.
Proof.
  intros [reqs [Hp _ _ [Hb _] Hq _ _ _ _ _]] Hg Hr. assert (queue_valid k) as Hk.
  { destruct k as [|i]; [done|]. cbn in Hg. destruct (Z.leb_spec 0 i); [|done]. apply lookup_lt_Some in Hg. cbn. lia. }
  destruct (Hq k Hk) as (rq' & Hg' & [Eq _ _]). rewrite Hg in Hg'. simplify_eq. rewrite Eq in Hr. rewrite <- Hp.
  apply list_elem_of_fmap_2. apply list_elem_of_In, List.filter_In in Hr as [Hr _]. by apply list_elem_of_In.
Qed.

(** ** UCP as a matching engine *)

#[global] Instance ucp_matcher : Matcher ucp_tag_match_t tag_recv ucp_recv_desc_t := {
  m_post tm p :=
    '(r, tm') ← recv_match true tm (tr_id p) (tr_tag p) (tr_mask p) (mk_param false UCS_OK (tr_contig p));
    match r with
    | RecvCompleted m | RecvMatched m => Some (Some m, tm')
    | RecvPosted => Some (None, tm')
    | RecvError _ => None
    end;
  m_arrive tm m :=
    '(r, tm') ← arrive_match true tm m;
    match r with
    | ArriveMatched req => Some (Some (recv_of req), tm')
    | ArriveUnexpected => Some (None, tm')
    | ArriveError => None
    end;
}.

Lemma ucp_post_law n tm q p :
  stands_for (S n) tm q → op_ok (TRecv true false UCS_OK p) q →
  ∃ tm', m_post tm p = Some ((mq_post accepts p q).1, tm') ∧ stands_for n tm' (mq_post accepts p q).2.
Proof.
  intros Hs Hok. destruct (step_follows n tm q _ Hs Hok) as (tm' & E & Hs'). exists tm'. cbn [m_post ucp_matcher].
  cbn [tag_step queues_step] in E, Hs'. destruct (recv_match _ _ _ _ _ _) as [[r tm1]|]; [|done]. run.
  cbn in E. injection E as E ->. destruct (mq_post accepts p q) as [[m|] q']; cbn in *.
  - split; [|done]. unfold taken in E. case_decide; cbn in E; [by simplify_eq|]. rewrite decide_False in E by tauto. by simplify_eq.
  - by simplify_eq.
Qed.

Lemma ucp_arrive_law n tm q m :
  stands_for (S n) tm q → op_ok (TArrive true m) q →
  ∃ tm', m_arrive tm m = Some ((mq_arrive accepts m q).1, tm') ∧ stands_for n tm' (mq_arrive accepts m q).2.
Proof.
  intros Hs Hok. destruct (step_follows n tm q _ Hs Hok) as (tm' & E & Hs'). exists tm'. cbn [m_arrive ucp_matcher].
  cbn [tag_step queues_step] in E, Hs'. destruct (arrive_match _ _ _) as [[r tm1]|]; [|done]. run.
  cbn in E. injection E as E ->. destruct (mq_arrive accepts m q) as [[p|] q'], r; cbn in *; by simplify_eq.
Qed.

#[global] Instance ucp_matcher_laws : MatcherLaws ucp_tag_match_t tag_recv ucp_recv_desc_t accepts := {
  m_rel := stands_for;
  m_post_ok q p := op_ok (TRecv true false UCS_OK p) q;
  m_arrive_ok q m := op_ok (TArrive true m) q;
  m_post_law := ucp_post_law;
  m_arrive_law := ucp_arrive_law;
}.

(** ** Theorems *)

(** C2: for every sequence of receives, arriving messages, probes (which may
    remove the message, then received by itself) and cancellations, failures
    included, that a fresh worker is given, the hash tables, the wildcard queue
    and the merge by sequence number give the results of two plain queues: a
    receive takes the earliest message it accepts, a message the earliest
    receive that accepts it; and the final state stands for the final queues. *)
Theorem tag_match_refines os tm :
  ucp_tag_match_init true true = Some tm → Z.of_nat (length os) < ULONG_MAX → ops_ok os mq_empty →
  ∃ tm', tag_run os tm = Some ((queues_run os mq_empty).1, tm') ∧ stands_for 0 tm' (queues_run os mq_empty).2.
Proof.
  intros Hi Hn Hok. apply run_follows; [|done]. rewrite Nat.add_0_r. by apply init_stands_for.
Qed.

(** C39: after any sequence of receives, arrivals, probes and cancellations that a fresh
    worker is given (fewer than [ULONG_MAX], that keep to [ops_ok]) no request in any
    expected queue matches a message of the unexpected list. *)
Theorem tag_nothing_missed os tm outs tm' k rq r m :
  ucp_tag_match_init true true = Some tm → Z.of_nat (length os) < ULONG_MAX → ops_ok os mq_empty →
  tag_run os tm = Some (outs, tm') → get_queue tm' k = Some rq → r ∈ queue rq → m ∈ unexp_all tm' →
  ucp_tag_is_match (rd_tag m) (rq_tag r) (rq_mask r) = false.
Proof.
  intros Hi Hn Hok Hrun Hg Hr Hm.
  destruct (run_follows os 0 tm mq_empty) as (tm1 & E & Hs); [rewrite Nat.add_0_r; by apply init_stands_for|done|].
  rewrite Hrun in E. simplify_eq.
  assert (waiting_apart accepts (queues_run os mq_empty).2) as Ha.
  { apply waiting_apart_run. intros ? ? Hp. by apply elem_of_nil in Hp. }
  apply (Ha (recv_of r) m); [by eapply waiting_request|]. destruct Hs as [reqs [_ _ _ _ _ _ Hu _ _ _]]. by rewrite <- Hu.
Qed.

(** C25: messages with the same tag are matched in the order they arrive,
    whatever receives and other messages come between them. *)
Theorem tag_nonovertaking es tm m1 m2 :
  ucp_tag_match_init true true = Some tm → Z.of_nat (length es) < ULONG_MAX → events_ok accepts es mq_empty →
  NoDup (arrivals es) → before (arrivals es) m1 m2 → rd_tag m1 = rd_tag m2 →
  ∃ h tm', engine_run es tm = Some (h, tm') ∧ (m2 ∈ h.*2 → before h.*2 m1 m2).
Proof.
  intros Hi Hn Hok Hnd Hb Ht.
  destruct (engine_nonovertaking accepts es tm 0 m1 m2) as (h & tm' & E & Ho); [|done..|].
  - rewrite Nat.add_0_r. by apply init_stands_for.
  - exists h, tm'. split; [done|]. apply Ho; [done|]. intros p. unfold accepts. by rewrite Ht.
Qed.

(** A receive that must complete at once, or whose datatype cannot be set
    up, still takes the earliest message it accepts: when that is not a single
    fragment the call returns an error, and the message is in no list any more
    and the request in no queue. *)
Theorem failed_recv_loses_message n tm q p m force dt :
  stands_for (S n) tm q → word (tr_tag p) → tr_id p ∉ tr_id <$> posted q →
  mq_probe accepts p q = Some m → rd_kind m ≠ EAGER_ONLY → force = true ∨ dt ≠ UCS_OK →
  ∃ status tm',
    recv_match true tm (tr_id p) (tr_tag p) (tr_mask p) (mk_param force dt (tr_contig p)) = Some (RecvError status, tm') ∧
    m ∈ unexp_all tm ∧ (m ∉ unexp_all tm') ∧ Forall (λ l, m ∉ l) (unexp_hash tm') ∧
    (∀ k rq r, get_queue tm' k = Some rq → r ∈ queue rq → rq_id r ≠ tr_id p).
Proof.
  intros Hs Hw Hnew Hm Hk Hf. destruct (recv_follows n tm q true force dt p Hs Hw Hnew) as (tm' & E & Hs').
  cbn [tag_step queues_step] in E, Hs'. unfold mq_probe in Hm. unfold mq_post in E, Hs'.
  destruct (extract (accepts p) (unexpected q)) as [[m' rest]|] eqn:Ex; [|done]. injection Hm as ->. cbn [fst snd] in *.
  assert (∃ st, taken force dt m = RecvError st) as [st Est].
  { unfold taken. rewrite decide_False by done. destruct Hf as [->|Hf]; [by eexists|]. destruct force; [by eexists|]. rewrite decide_True by done. by eexists. }
  rewrite Est in E. destruct (recv_match _ _ _ _ _ _) as [[r tm1]|]; [|done]. injection E as -> ->.
  exists st, tm'. split; [done|]. destruct Hs as [reqs [_ _ _ _ _ _ Hu _ Hid _]].
  apply extract_Some in Ex as (l1 & l2 & El & -> & _). rewrite Hu, El in *.
  assert (m ∉ l1 ++ l2) as Hm.
  { rewrite fmap_app, fmap_cons, <- Permutation_middle, <- fmap_app in Hid. apply NoDup_cons in Hid as [Hid _].
    intros Hin. by apply Hid, list_elem_of_fmap_2. }
  split_and!.
  - apply elem_of_app. right. by left.
  - destruct Hs' as [reqs' [_ _ _ _ _ _ Hu' _ _ _]]. by rewrite Hu'.
  - destruct Hs' as [reqs' [_ _ _ [_ Hb] _ _ _ Hh _ _]]. apply Forall_lookup. intros i l Hl. assert (Hl' := Hl).
    apply lookup_lt_Some in Hl. specialize (Hh (Z.of_nat i)). rewrite Nat2Z.id, Hl' in Hh. rewrite Hb in Hl.
    injection Hh as ->; [|lia]. intros Hin. apply Hm. apply list_elem_of_In, List.filter_In in Hin as [Hin _]. by apply list_elem_of_In.
  - intros k rq r Hg Hr Eid. apply Hnew. rewrite <- Eid. apply (waiting_request _ _ _ _ _ _ Hs' Hg) in Hr.
    apply (list_elem_of_fmap_2 tr_id) in Hr. done.
Qed.

(** ** Examples *)

Definition example_tm : ucp_tag_match_t :=
  default (mk_tm (mk_queue [] 0 0) [] 0 0 [] []) (ucp_tag_match_init true true).

(** The wildcard receive 2 is earlier than receive 3 of the same tag; receive 3
    is cancelled, message 12 is lost by receive 4, receive 6 and message 13 are
    left. *)
Definition example_ops : list tag_op :=
  [ TRecv true false UCS_OK (mk_recv 1 5 UCP_TAG_MASK_FULL true);
    TRecv true false UCS_OK (mk_recv 2 0 0 false);
    TRecv true false UCS_OK (mk_recv 3 5 UCP_TAG_MASK_FULL true);
    TArrive true (mk_rdesc 10 5 EAGER_ONLY);
    TArrive true (mk_rdesc 11 5 EAGER_FIRST);
    TCancel false (mk_recv 3 5 UCP_TAG_MASK_FULL true);
    TArrive true (mk_rdesc 12 7 RNDV);
    TProbe false 7 UCP_TAG_MASK_FULL;
    TRecv true true UCS_OK (mk_recv 4 0 0 true);
    TArrive true (mk_rdesc 13 0x109 EAGER_ONLY);
    TArrive true (mk_rdesc 14 0x209 EAGER_ONLY);
    TProbe true 0x209 UCP_TAG_MASK_FULL;
    TMsgRecv true false UCS_OK 5 (mk_rdesc 14 0x209 EAGER_ONLY);
    TRecv true false UCS_OK (mk_recv 6 0x208 0xff true) ].

Definition example_left : queues :=
  mk_mq [mk_recv 6 0x208 0xff true] [mk_rdesc 13 0x109 EAGER_ONLY].

Lemma tag_match_refines_witness :
  ∃ tm', tag_run example_ops example_tm =
    Some ([ORecv RecvPosted; ORecv RecvPosted; ORecv RecvPosted;
           OMatched (mk_recv 1 5 UCP_TAG_MASK_FULL true); OMatched (mk_recv 2 0 0 false);
           OCancel true; OUnexpected; OProbe (Some (mk_rdesc 12 7 RNDV)); ORecv (RecvError UCS_ERR_NO_RESOURCE);
           OUnexpected; OUnexpected; OProbe (Some (mk_rdesc 14 0x209 EAGER_ONLY));
           ORecv (RecvCompleted (mk_rdesc 14 0x209 EAGER_ONLY)); ORecv RecvPosted], tm') ∧
    stands_for 0 tm' example_left.
Proof. apply (tag_match_refines example_ops example_tm); [reflexivity|reflexivity|by_evaluation]. Defined.

Definition example_final : ucp_tag_match_t :=
  match tag_run example_ops example_tm with Some (_, tm) => tm | None => example_tm end.

Lemma tag_nothing_missed_witness : ucp_tag_is_match 0x109 0x208 0xff = false.
Proof.
  eapply (tag_nothing_missed example_ops example_tm _ example_final QWild
    (wildcard example_final) (mk_request 6 0x208 0xff 3 false false) (mk_rdesc 13 0x109 EAGER_ONLY)).
  - reflexivity.
  - reflexivity.
  - by_evaluation.
  - vm_compute. reflexivity.
  - reflexivity.
  - by_evaluation.
  - by_evaluation.
Defined.

#[global] Instance events_ok_dec es q : Decision (events_ok accepts es q).
Proof. revert q. induction es as [|[p|m] es IH]; intros q; cbn [events_ok m_post_ok m_arrive_ok ucp_matcher_laws]; apply _. Defined.

Definition example_events : list (event tag_recv ucp_recv_desc_t) :=
  [ EArrive (mk_rdesc 10 5 EAGER_ONLY); EPost (mk_recv 1 0 0 true); EPost (mk_recv 2 7 UCP_TAG_MASK_FULL true);
    EArrive (mk_rdesc 11 5 EAGER_FIRST); EArrive (mk_rdesc 12 7 RNDV); EPost (mk_recv 3 5 UCP_TAG_MASK_FULL true) ].

Lemma tag_nonovertaking_witness :
  ∃ h tm', engine_run example_events example_tm = Some (h, tm') ∧
    h = [(mk_recv 1 0 0 true, mk_rdesc 10 5 EAGER_ONLY); (mk_recv 2 7 UCP_TAG_MASK_FULL true, mk_rdesc 12 7 RNDV);
         (mk_recv 3 5 UCP_TAG_MASK_FULL true, mk_rdesc 11 5 EAGER_FIRST)] ∧
    before h.*2 (mk_rdesc 10 5 EAGER_ONLY) (mk_rdesc 11 5 EAGER_FIRST).
Proof.
  destruct (tag_nonovertaking example_events example_tm (mk_rdesc 10 5 EAGER_ONLY) (mk_rdesc 11 5 EAGER_FIRST))
    as (h & tm' & E & H).
  - reflexivity.
  - reflexivity.
  - by_evaluation.
  - by_evaluation.
  - apply sublist_skip, sublist_skip, sublist_cons, sublist_nil.
  - reflexivity.
  - exists h, tm'. split; [exact E|].
    assert (Some h = fst <$> engine_run example_events example_tm) as Eh by (rewrite E; reflexivity).
    clear E. vm_compute in Eh. injection Eh as ->. split; [reflexivity|]. apply H. by_evaluation.
Defined.

(** The state after message 12 of the example arrived. *)
Definition example_before : list tag_op := take 7 example_ops.

Lemma failed_recv_loses_message_witness :
  ∃ tm q status tm', tag_run example_before example_tm = Some ((queues_run example_before mq_empty).1, tm) ∧
    q = (queues_run example_before mq_empty).2 ∧
    recv_match true tm 4 0 0 (mk_param true UCS_OK true) = Some (RecvError status, tm') ∧
    mk_rdesc 12 7 RNDV ∈ unexp_all tm ∧ (mk_rdesc 12 7 RNDV ∉ unexp_all tm').
Proof.
  destruct (run_follows example_before 1 example_tm mq_empty) as (tm & E & Hs).
  { apply init_stands_for; reflexivity. }
  { by_evaluation. }
  destruct (failed_recv_loses_message 0 tm _ (mk_recv 4 0 0 true) (mk_rdesc 12 7 RNDV) true UCS_OK Hs)
    as (status & tm' & H1 & H2 & H3 & _).
  - by_evaluation.
  - by_evaluation.
  - vm_compute. reflexivity.
  - by_evaluation.
  - left. reflexivity.
  - exists tm, (queues_run example_before mq_empty).2, status, tm'. split; [exact E|]. split; [reflexivity|]. auto.
Defined.

End TagMatchRefine.
