(* ===== verification/TagFrag.v ===== *)
(** * Assembly of eager messages ([ucp/tag], [ucp_request.inl])

    An eager message that does not fit in one packet is sent as a first
    fragment, which is matched by its tag, and middle fragments that name the
    message and their offset.  Fragments come in any order.  Until the first
    fragment is matched the others wait in a hash table, in the entry of the
    message; then the entry holds the request and fragments are copied as they
    come, until none remain.

    The hash table is a finite map (its insertions succeed), the receive buffer
    the bytes of a contiguous datatype.  [None] is an access outside an object
    or a failed assertion. *)

From stdpp Require Import base numbers list gmap.
From S2P Require Import Prelude TagMatch.
Import TagMatch.

Local Open Scope Z_scope.
Local Open Scope c_scope.

Module TagFrag.

(** ** Receive requests *)

(** What [ucp_request_t] holds of a receive: the buffer of the datatype
    iterator, the status, the bytes still to come, the receive information
    and [UCP_REQUEST_FLAG_COMPLETED]. *)
Record eager_request := mk_eager {
  er_buf : list Z;
  er_status : ucs_status_t;
  er_remaining : Z;
  er_sender_tag : Z;
  er_length : Z;
  er_completed : bool;
}.

Definition len {A} (l : list A) : Z := Z.of_nat (length l).

(** [memcpy] of [data] to the offset [o] of [buf]. *)
Definition write (buf : list Z) (o : Z) (data : list Z) : list Z :=
  take (Z.to_nat o) buf ++ data ++ drop (Z.to_nat o + length data) buf.

(** [ucp_datatype_iter_unpack] for a contiguous datatype. *)
Definition ucp_datatype_iter_unpack (buf : list Z) (offset : Z) (src : list Z) : option (ucs_status_t * list Z) :=
  if wrap 64 (len buf - offset) <? len src then Some (UCS_ERR_MESSAGE_TRUNCATED, buf)
  else safe (offset + len src <=? len buf); Some (UCS_OK, write buf offset src).

Definition ucp_request_recv_data_unpack (req : eager_request) (data : list Z) (offset : Z) : option (ucs_status_t * list Z) :=
  safe (bool_decide (er_status req = UCS_OK));
  if len (er_buf req) <? wrap 64 (len data + offset) then Some (UCS_ERR_MESSAGE_TRUNCATED, er_buf req)
  else ucp_datatype_iter_unpack (er_buf req) offset data.

(** [ucp_request_complete_tag_recv] *)
Definition complete_tag_recv (req : eager_request) (status : ucs_status_t) : option eager_request :=
  safe (negb (er_completed req));
  safe (bool_decide (status ≠ UCS_INPROGRESS));
  Some (mk_eager (er_buf req) status (er_remaining req) (er_sender_tag req) (er_length req) true).

Definition ucp_request_process_recv_data (req : eager_request) (data : list Z) (offset : Z)
    : option (ucs_status_t * eager_request) :=
  let last := er_remaining req =? len data in
  '(status, buf) ← (if decide (er_status req = UCS_OK) then ucp_request_recv_data_unpack req data offset
                    else Some (er_status req, er_buf req));
  safe (len data <=? er_remaining req);
  let req := mk_eager buf status (er_remaining req - len data) (er_sender_tag req) (er_length req) (er_completed req) in
  if negb last then Some (UCS_INPROGRESS, req)
  else req ← complete_tag_recv req status; Some (status, req).

(** ** The fragment hash *)

(** A fragment: its offset in the message and its bytes. *)
Record fragment := mk_fragment { f_offset : Z; f_data : list Z }.

(** [ucp_tag_frag_match_t] *)
Inductive frag_match :=
| UnexpQ (q : list fragment)
| ExpReq (req : Z).

Record frag_state := mk_frags { frag_hash : gmap Z frag_match; reqs : gmap Z eager_request }.

Fixpoint process_queue_loop (req : eager_request) (status : ucs_status_t) (q : list fragment)
    : option (ucs_status_t * eager_request * list fragment) :=
  match q with
  | [] => Some (status, req, [])
  | f :: q' =>
      if decide (status = UCS_INPROGRESS) then
        '(status, req) ← ucp_request_process_recv_data req (f_data f) (f_offset f); process_queue_loop req status q'
      else Some (status, req, q)
  end.

Definition ucp_tag_frag_list_process_common (req : eager_request) (q : list fragment) : option (ucs_status_t * eager_request) :=
  '(status, req, rest) ← process_queue_loop req UCS_INPROGRESS q;
  match rest with [] => Some (status, req) | _ => None end.

Definition ucp_tag_frag_list_process_queue (st : frag_state) (req msg_id : Z) : option frag_state :=
  match frag_hash st !! msg_id with
  | Some (UnexpQ q) =>
      r ← reqs st !! req;
      '(status, r) ← ucp_tag_frag_list_process_common r q;
      if decide (status ≠ UCS_INPROGRESS) then Some (mk_frags (delete msg_id (frag_hash st)) (<[req := r]> (reqs st)))
      else Some (mk_frags (<[msg_id := ExpReq req]> (frag_hash st)) (<[req := r]> (reqs st)))
  | Some (ExpReq _) => None
  | None => Some (mk_frags (<[msg_id := ExpReq req]> (frag_hash st)) (reqs st))
  end.

(** A first fragment that is matched, in [ucp_eager_tagged_handler] and
    [ucp_tag_recv_eager_multi]. *)
Definition eager_first_matched (st : frag_state) (req tag total_len msg_id : Z) (data : list Z) : option frag_state :=
  r ← reqs st !! req;
  let r := mk_eager (er_buf r) (er_status r) total_len tag total_len (er_completed r) in
  '(status, r) ← ucp_request_process_recv_data r data 0;
  let st := mk_frags (frag_hash st) (<[req := r]> (reqs st)) in
  if decide (status = UCS_INPROGRESS) then ucp_tag_frag_list_process_queue st req msg_id else Some st.

(** [desc_ok]: whether a descriptor can be set up for an unexpected fragment.
    The assertion at the end reads the entry, which [kh_del] leaves in memory. *)
Definition ucp_eager_middle_handler (desc_ok : bool) (st : frag_state) (msg_id : Z) (f : fragment)
    : option (ucs_status_t * frag_state) :=
  match default (UnexpQ []) (frag_hash st !! msg_id) with
  | UnexpQ q =>
      if desc_ok then Some (UCS_OK, mk_frags (<[msg_id := UnexpQ (q ++ [f])]> (frag_hash st)) (reqs st))
      else
        let hash := if decide (q = []) then delete msg_id (frag_hash st) else frag_hash st in
        safe (bool_decide (q ≠ [])); Some (UCS_ERR_NO_MEMORY, mk_frags hash (reqs st))
  | ExpReq req =>
      r ← reqs st !! req;
      '(status, r) ← ucp_request_process_recv_data r (f_data f) (f_offset f);
      let hash := if decide (status ≠ UCS_INPROGRESS) then delete msg_id (frag_hash st) else frag_hash st in
      Some (UCS_OK, mk_frags hash (<[req := r]> (reqs st)))
  end.

End TagFrag.
