(* ===== verification/TagFragSpec.v ===== *)
(** * Eager messages are assembled whole

    [eager_assembly]: whatever the order in which the fragments of any number
    of messages come, and wherever among them the first fragments are matched,
    a request is completed exactly when all bytes of its message have arrived,
    and then holds the message, or reports that it is too long for the
    buffer. *)

From stdpp Require Import base numbers list gmap.
From S2P Require Import Prelude TagMatch TagFrag.
Import TagMatch TagFrag.

Local Open Scope Z_scope.
Local Open Scope c_scope.

Module TagFragSpec.

(** ** Parts of a message *)

Definition bytes_in (ds : list fragment) : Z := foldr (λ f n, len (f_data f) + n) 0 ds.

Definition positions (f : fragment) : list Z := seqZ (f_offset f) (len (f_data f)).
Definition covered (ds : list fragment) : list Z := ds ≫= positions.

(** A piece of the message [c]. *)
Definition piece (c : list Z) (f : fragment) : Prop :=
  f_data f ≠ [] ∧ 0 ≤ f_offset f ∧ f_data f = take (length (f_data f)) (drop (Z.to_nat (f_offset f)) c).

(** Pieces that do not overlap. *)
Definition parts_of (c : list Z) (ds : list fragment) : Prop := Forall (piece c) ds ∧ NoDup (covered ds).

Lemma bytes_in_cons f ds : bytes_in (f :: ds) = len (f_data f) + bytes_in ds.
Proof. done. Qed.

Lemma bytes_in_app ds1 ds2 : bytes_in (ds1 ++ ds2) = bytes_in ds1 + bytes_in ds2.
Proof. induction ds1 as [|f ds1 IH]; [done|]. cbn [app]. rewrite !bytes_in_cons, IH. lia. Qed.

Lemma bytes_in_nonneg ds : 0 ≤ bytes_in ds.
Proof. induction ds as [|f ds IH]; [done|]. rewrite bytes_in_cons. unfold len. lia. Qed.

Lemma length_covered ds : Z.of_nat (length (covered ds)) = bytes_in ds.
Proof.
  induction ds as [|f ds IH]; [done|]. rewrite bytes_in_cons, <- IH. unfold covered, positions. cbn.
  rewrite length_app, length_seqZ. unfold len. lia.
Qed.

Lemma piece_bounds c f : piece c f → 0 ≤ f_offset f ∧ 0 < len (f_data f) ∧ f_offset f + len (f_data f) ≤ len c.
Proof.
  intros (Hne & Ho & E). apply (f_equal length) in E. rewrite length_take, length_drop in E. unfold len.
  destruct (f_data f); [done|]. cbn [length] in *. lia.
Qed.

Lemma piece_lookup c f p :
  piece c f → f_offset f ≤ p < f_offset f + len (f_data f) → f_data f !! Z.to_nat (p - f_offset f) = c !! Z.to_nat p.
Proof.
  intros Hp Hr. pose proof (piece_bounds c f Hp). destruct Hp as (_ & Ho & ->). unfold len in *.
  rewrite lookup_take_lt by lia. rewrite lookup_drop. f_equal. lia.
Qed.

Lemma covered_in c ds p : Forall (piece c) ds → p ∈ covered ds → p ∈ seqZ 0 (len c).
Proof.
  intros Hf (f & Hp & Hin)%list_elem_of_bind. rewrite Forall_forall in Hf. apply Hf, piece_bounds in Hin.
  apply elem_of_seqZ in Hp. apply elem_of_seqZ. lia.
Qed.

Lemma bytes_in_bound c ds : parts_of c ds → bytes_in ds ≤ len c.
Proof.
  intros [Hf Hnd]. rewrite <- length_covered. assert (covered ds ⊆+ seqZ 0 (len c)) as Hs.
  { apply NoDup_submseteq; [done|]. intros p. by apply covered_in. }
  apply submseteq_length in Hs. rewrite length_seqZ in Hs. unfold len in *. lia.
Qed.

(** Pieces as long as the message cover it. *)
Lemma parts_cover c ds p : parts_of c ds → bytes_in ds = len c → 0 ≤ p < len c → p ∈ covered ds.
Proof.
  intros [Hf Hnd] Ht Hp. assert (covered ds ≡ₚ seqZ 0 (len c)) as ->; [|apply elem_of_seqZ; lia].
  apply submseteq_length_Permutation; [|rewrite length_seqZ; rewrite <- length_covered in Ht; lia].
  apply NoDup_submseteq; [done|]. intros x. by apply covered_in.
Qed.

Lemma parts_prefix c ds1 ds2 : parts_of c (ds1 ++ ds2) → parts_of c ds1.
Proof.
  intros [Hf Hnd]. apply Forall_app in Hf as [Hf _]. unfold covered in *. rewrite bind_app in Hnd. apply NoDup_app in Hnd as [Hnd _].
  done.
Qed.

Lemma parts_piece c ds1 f ds2 : parts_of c (ds1 ++ f :: ds2) → piece c f.
Proof. intros [Hf _]. apply Forall_app in Hf as [_ Hf]. by apply Forall_cons in Hf as [? _]. Qed.

(** ** What a request holds *)

(** A fragment that does not fit makes the request fail, and nothing more is
    written. *)
Definition deliver (s : list Z * bool) (f : fragment) : list Z * bool :=
  if s.2 && (f_offset f + len (f_data f) <=? len s.1) then (write s.1 (f_offset f) (f_data f), true) else (s.1, false).

Definition delivered (buf : list Z) (ds : list fragment) : list Z * bool := foldl deliver (buf, true) ds.

Definition status_of (ok : bool) : ucs_status_t := if ok then UCS_OK else UCS_ERR_MESSAGE_TRUNCATED.

(** The request for the message [c] after the parts [ds]. *)
Definition expected (c : list Z) (tag : Z) (buf : list Z) (ds : list fragment) : eager_request :=
  let '(b, ok) := delivered buf ds in
  mk_eager b (status_of ok) (len c - bytes_in ds) tag (len c) (bytes_in ds =? len c).

Lemma length_write buf o data : 0 ≤ o → o + len data ≤ len buf → length (write buf o data) = length buf.
Proof. intros Ho Hl. unfold write, len in *. rewrite !length_app, length_take, length_drop. lia. Qed.

Lemma delivered_snoc buf ds f : delivered buf (ds ++ [f]) = deliver (delivered buf ds) f.
Proof. unfold delivered. by rewrite foldl_app. Qed.

Lemma delivered_length c buf ds : Forall (piece c) ds → length (delivered buf ds).1 = length buf.
Proof.
  induction ds as [|f ds IH] using rev_ind; intros Hf; [done|]. rewrite Forall_app, Forall_singleton in Hf. destruct Hf as [Hf Hp].
  rewrite delivered_snoc. unfold deliver. destruct (delivered buf ds) as [b [|]]; cbn [fst snd andb] in *; [|by apply IH].
  destruct (Z.leb_spec (f_offset f + len (f_data f)) (len b)); cbn; [|by apply IH].
  rewrite length_write; [by apply IH|apply piece_bounds in Hp; lia|done].
Qed.

(** One fragment. *)
Lemma process_data_spec c tag buf ds f :
  parts_of c (ds ++ [f]) → len c < 2 ^ 64 → len buf < 2 ^ 64 →
  ucp_request_process_recv_data (expected c tag buf ds) (f_data f) (f_offset f) =
    Some (if bytes_in (ds ++ [f]) =? len c then status_of (delivered buf (ds ++ [f])).2 else UCS_INPROGRESS,
          expected c tag buf (ds ++ [f])).
Proof.
  intros Hparts Hc Hb. pose proof (bytes_in_bound _ _ Hparts) as Ht. pose proof (parts_piece _ _ _ _ Hparts) as Hp%piece_bounds.
  pose proof (delivered_length c buf ds (proj1 (parts_prefix _ _ _ Hparts))) as Hl.
  unfold ucp_request_process_recv_data, expected. rewrite delivered_snoc. rewrite bytes_in_app in *. cbn [bytes_in foldr] in *.
  rewrite Z.add_0_r in *. destruct (delivered buf ds) as [b ok] eqn:Ed. cbn [fst snd er_status er_remaining er_buf er_sender_tag er_length er_completed] in *.
  assert ((len c - bytes_in ds =? len (f_data f)) = (bytes_in ds + len (f_data f) =? len c)) as -> by
    (destruct (Z.eqb_spec (len c - bytes_in ds) (len (f_data f))), (Z.eqb_spec (bytes_in ds + len (f_data f)) (len c)); lia).
  assert (len b = len buf) as Elb by (unfold len; lia).
  assert ((if decide (status_of ok = UCS_OK)
    then ucp_request_recv_data_unpack (mk_eager b (status_of ok) (len c - bytes_in ds) tag (len c) (bytes_in ds =? len c)) (f_data f) (f_offset f)
    else Some (status_of ok, b)) = Some (status_of (deliver (b, ok) f).2, (deliver (b, ok) f).1)) as ->.
  { unfold deliver. destruct ok; cbn [status_of]; [|done]. rewrite decide_True by done.
    unfold ucp_request_recv_data_unpack. cbn [er_status er_buf fst snd andb]. rewrite bool_decide_true by done.
    rewrite wrap_small by (unfold len in *; lia). rewrite (Z.add_comm (len (f_data f))).
    destruct (Z.ltb_spec (len b) (f_offset f + len (f_data f))), (Z.leb_spec (f_offset f + len (f_data f)) (len b)); try lia; [done|].
    unfold ucp_datatype_iter_unpack. rewrite wrap_small by (unfold len in *; lia).
    rewrite (proj2 (Z.ltb_ge _ _)), (proj2 (Z.leb_le _ _)) by lia. done. }
  run. rewrite (proj2 (Z.leb_le _ _)) by lia. rewrite (proj2 (Z.eqb_neq (bytes_in ds) (len c))) by lia.
  destruct (deliver (b, ok) f) as [b' ok']. cbn [fst snd].
  replace (len c - (bytes_in ds + len (f_data f))) with (len c - bytes_in ds - len (f_data f)) by lia.
  destruct (Z.eqb_spec (bytes_in ds + len (f_data f)) (len c)) as [E|E]; cbn [negb]; [|done].
  unfold complete_tag_recv. cbn [er_completed negb er_buf er_remaining er_sender_tag er_length].
  rewrite bool_decide_true by (by destruct ok'). run. done.
Qed.

(** The fragments that waited: the request completes only with the last. *)
Lemma queue_loop_spec c tag buf ds q :
  parts_of c (ds ++ q) → bytes_in ds < len c → len c < 2 ^ 64 → len buf < 2 ^ 64 →
  process_queue_loop (expected c tag buf ds) UCS_INPROGRESS q =
    Some (if bytes_in (ds ++ q) =? len c then status_of (delivered buf (ds ++ q)).2 else UCS_INPROGRESS,
          expected c tag buf (ds ++ q), []).
Proof.
  intros Hparts Ht Hc Hb. revert ds Hparts Ht. induction q as [|f q IH]; intros ds Hparts Ht.
  { rewrite app_nil_r in *. cbn. by rewrite (proj2 (Z.eqb_neq _ _)) by lia. }
  assert (ds ++ f :: q = (ds ++ [f]) ++ q) as E by (by rewrite <- (assoc (++))). rewrite E in *.
  cbn [process_queue_loop]. rewrite decide_True by done. pose proof (parts_prefix _ _ _ Hparts) as Hp1.
  rewrite process_data_spec by done. run. destruct (Z.eqb_spec (bytes_in (ds ++ [f])) (len c)) as [Ef|Ef].
  - destruct q as [|g q].
    + rewrite app_nil_r. rewrite (proj2 (Z.eqb_eq _ _)) by done. done.
    + exfalso. pose proof (bytes_in_bound _ _ Hparts) as Hb'. rewrite bytes_in_app, bytes_in_cons in Hb'.
      apply parts_piece, piece_bounds in Hparts. pose proof (bytes_in_nonneg q). lia.
  - pose proof (bytes_in_bound _ _ Hp1). apply IH; [done|lia].
Qed.

(** ** Whole messages *)

Lemma write_lookup buf o data p :
  0 ≤ o → o + len data ≤ len buf → 0 ≤ p →
  write buf o data !! Z.to_nat p = if decide (o ≤ p < o + len data) then data !! Z.to_nat (p - o) else buf !! Z.to_nat p.
Proof.
  intros Ho Hl Hp. unfold write, len in *. case_decide as Hd.
  - rewrite lookup_app_r by (rewrite length_take; lia). rewrite lookup_app_l by (rewrite length_take; lia).
    rewrite length_take. f_equal. lia.
  - destruct (decide (p < o)).
    + rewrite lookup_app_l by (rewrite length_take; lia). rewrite lookup_take_lt by lia. done.
    + rewrite lookup_app_r by (rewrite length_take; lia). rewrite lookup_app_r by (rewrite length_take; lia).
      rewrite lookup_drop, length_take. f_equal. lia.
Qed.

Lemma covered_snoc ds f p : p ∈ covered (ds ++ [f]) ↔ p ∈ covered ds ∨ f_offset f ≤ p < f_offset f + len (f_data f).
Proof. unfold covered. rewrite bind_app, elem_of_app. cbn. rewrite app_nil_r. unfold positions. by rewrite elem_of_seqZ. Qed.

Lemma delivered_lookup c buf ds p :
  Forall (piece c) ds → len c ≤ len buf → 0 ≤ p →
  (delivered buf ds).2 = true ∧
  (delivered buf ds).1 !! Z.to_nat p = if decide (p ∈ covered ds) then c !! Z.to_nat p else buf !! Z.to_nat p.
Proof.
  intros Hf Hl Hp. induction ds as [|f ds IH] using rev_ind; [done|].
  rewrite Forall_app, Forall_singleton in Hf. destruct Hf as [Hf Hpc]. destruct (IH Hf) as [E1 E2]. clear IH.
  pose proof (delivered_length c buf ds Hf) as Hlen. pose proof (piece_bounds c f Hpc). rewrite delivered_snoc. unfold deliver.
  rewrite E1. cbn [andb]. assert (f_offset f + len (f_data f) ≤ len (delivered buf ds).1) by (unfold len in *; lia).
  rewrite (proj2 (Z.leb_le _ _)) by done. cbn [fst snd]. split; [done|]. rewrite write_lookup by (done || lia).
  destruct (decide (f_offset f ≤ p < f_offset f + len (f_data f))) as [Hd|Hd].
  - rewrite (decide_True (P := p ∈ covered _)) by (apply covered_snoc; by right). by apply piece_lookup.
  - rewrite E2. destruct (decide (p ∈ covered ds)) as [Hc|Hc].
    + by rewrite decide_True by (apply covered_snoc; by left).
    + by rewrite decide_False by (rewrite covered_snoc; tauto).
Qed.

Lemma delivered_whole c buf ds :
  parts_of c ds → bytes_in ds = len c → len c ≤ len buf → delivered buf ds = (c ++ drop (length c) buf, true).
Proof.
  intros Hparts Ht Hl. pose proof (λ p, delivered_lookup c buf ds p (proj1 Hparts) Hl) as Hlk.
  rewrite (surjective_pairing (delivered buf ds)). f_equal; [|by apply (Hlk 0)]. apply list_eq. intros n.
  rewrite <- (Nat2Z.id n). destruct (Hlk (Z.of_nat n)) as [_ ->]; [lia|]. case_decide as Hd.
  - apply (covered_in c), elem_of_seqZ in Hd; [|apply Hparts]. unfold len in Hd. rewrite lookup_app_l by lia. done.
  - assert (length c ≤ n)%nat. { destruct (decide (length c ≤ n)%nat); [done|]. destruct Hd. apply (parts_cover c); try done. unfold len. lia. }
    rewrite lookup_app_r, lookup_drop by lia. f_equal. lia.
Qed.

Lemma delivered_fits buf ds c :
  Forall (piece c) ds → (delivered buf ds).2 = true → Forall (λ f, f_offset f + len (f_data f) ≤ len buf) ds.
Proof.
  induction ds as [|f ds IH] using rev_ind; intros Hf E; [done|].
  rewrite Forall_app, Forall_singleton in Hf. destruct Hf as [Hf _].
  pose proof (delivered_length c buf ds Hf) as Hlen. rewrite delivered_snoc in E. unfold deliver in E.
  destruct (delivered buf ds) as [b [|]]; cbn [fst snd andb] in *; [|done].
  destruct (Z.leb_spec (f_offset f + len (f_data f)) (len b)); [|done].
  rewrite Forall_app, Forall_singleton. split; [by apply IH|]. unfold len in *. lia.
Qed.

Lemma delivered_truncated c buf ds :
  parts_of c ds → bytes_in ds = len c → len buf < len c → (delivered buf ds).2 = false.
Proof.
  intros Hparts Ht Hl. destruct (delivered buf ds).2 eqn:E; [|done]. exfalso.
  apply (delivered_fits buf ds c (proj1 Hparts)) in E. assert (len c - 1 ∈ covered ds) as Hin.
  { apply (parts_cover c); try done. unfold len in *. lia. }
  apply list_elem_of_bind in Hin as (f & Hp & Hf). rewrite Forall_forall in E. apply E in Hf.
  apply elem_of_seqZ in Hp. lia.
Qed.

(** ** Runs *)

(** A first fragment is matched with a request, or another fragment arrives. *)
Inductive frag_op :=
| FFirst (req tag msg total_len : Z) (data : list Z)
| FMiddle (msg : Z) (f : fragment).

Definition frag_step (o : frag_op) (st : frag_state) : option frag_state :=
  match o with
  | FFirst req tag msg total_len data => eager_first_matched st req tag total_len msg data
  | FMiddle msg f => '(_, st') ← ucp_eager_middle_handler true st msg f; Some st'
  end.

Fixpoint frag_run (os : list frag_op) (st : frag_state) : option frag_state :=
  match os with
  | [] => Some st
  | o :: os' => st1 ← frag_step o st; frag_run os' st1
  end.

Definition msg_of (o : frag_op) : Z := match o with FFirst _ _ i _ _ | FMiddle i _ => i end.

(** The first fragment and the others of message [i], and the requests. *)
Definition first_of (i : Z) (o : frag_op) : option (Z * Z * list Z) :=
  match o with FFirst r tag j _ d => if decide (j = i) then Some (r, tag, d) else None | FMiddle _ _ => None end.
Definition middle_of (i : Z) (o : frag_op) : option fragment :=
  match o with FMiddle j f => if decide (j = i) then Some f else None | FFirst _ _ _ _ _ => None end.
Definition req_of (o : frag_op) : option Z := match o with FFirst r _ _ _ _ => Some r | FMiddle _ _ => None end.

Definition firsts (i : Z) (os : list frag_op) : list (Z * Z * list Z) := omap (first_of i) os.
Definition middles (i : Z) (os : list frag_op) : list fragment := omap (middle_of i) os.
Definition first_reqs (os : list frag_op) : list Z := omap req_of os.

(** The parts of message [i] that have come to a request or wait for one. *)
Definition parts (i : Z) (os : list frag_op) : list fragment :=
  ((λ x, mk_fragment 0 x.2) <$> firsts i os) ++ middles i os.

Lemma parts_of_submseteq c ds1 ds2 : ds1 ⊆+ ds2 → parts_of c ds2 → parts_of c ds1.
Proof.
  intros (k & Hk)%submseteq_Permutation [Hf Hnd]. unfold parts_of, covered in *. rewrite Hk in Hf, Hnd.
  apply (parts_prefix c ds1 k). by split.
Qed.

Lemma expected_nil c tag buf : c ≠ [] → expected c tag buf [] = mk_eager buf UCS_OK (len c) tag (len c) false.
Proof.
  intros Hc. unfold expected. cbn [delivered foldl bytes_in foldr status_of]. rewrite Z.sub_0_r. f_equal. by destruct c.
Qed.

(** A matched first fragment takes the fragments that wait for it along. *)
Lemma first_matched_spec st r tag i d c buf q ms :
  let f := mk_fragment 0 d in
  parts_of c (f :: ms) → len c < 2 ^ 64 → len buf < 2 ^ 64 →
  reqs st !! r = Some q → er_buf q = buf → er_status q = UCS_OK → er_completed q = false →
  frag_hash st !! i = match ms with [] => None | _ => Some (UnexpQ ms) end →
  ∃ st', eager_first_matched st r tag (len c) i d = Some st' ∧
    frag_hash st' = (if bytes_in (f :: ms) =? len c then delete i (frag_hash st) else <[i := ExpReq r]> (frag_hash st)) ∧
    reqs st' = <[r := expected c tag buf (f :: ms)]> (reqs st).
Proof.
  intros f Hparts Hc Hb Hq Eb Es Ec Hh. unfold eager_first_matched. rewrite Hq. run. rewrite Eb, Es, Ec.
  assert (c ≠ []) as Hne by (intros ->; apply (parts_piece [] []), piece_bounds in Hparts; change (len []) with 0 in Hparts; lia).
  rewrite <- (expected_nil c tag buf Hne). pose proof (parts_prefix c [f] ms Hparts) as Hp1.
  pose proof (process_data_spec c tag buf [] f Hp1 Hc Hb) as Hdata. cbn [f_data f_offset f app] in Hdata. rewrite Hdata. run. destruct (Z.eqb_spec (bytes_in [f]) (len c)) as [E|E].
  - assert (ms = []) as ->.
    { destruct ms as [|g ms]; [done|]. exfalso. pose proof (bytes_in_bound _ _ Hparts) as Hb'. rewrite !bytes_in_cons in Hb'. rewrite bytes_in_cons in E. cbn [bytes_in foldr] in E.
      apply (parts_piece c [f]), piece_bounds in Hparts. pose proof (bytes_in_nonneg ms). lia. }
    rewrite decide_False by (by destruct (delivered _ _).2). eexists. split; [done|]. cbn [frag_hash reqs].
    rewrite (proj2 (Z.eqb_eq _ _)) by done. split; [|done]. by rewrite delete_id.
  - rewrite decide_True by done. unfold ucp_tag_frag_list_process_queue. cbn [frag_hash reqs]. rewrite Hh.
    pose proof (bytes_in_bound _ _ Hp1). destruct ms as [|g ms].
    + eexists. split; [done|]. rewrite (proj2 (Z.eqb_neq _ _)) by done. done.
    + rewrite lookup_insert_eq. run. unfold ucp_tag_frag_list_process_common.
      rewrite (queue_loop_spec c tag buf [f] (g :: ms)) by (try done; lia). cbn [app]. run. rewrite insert_insert_eq.
      destruct (Z.eqb_spec (bytes_in (f :: g :: ms)) (len c)).
      * rewrite decide_True by (by destruct (delivered _ _).2). by eexists.
      * rewrite decide_False by tauto. by eexists.
Qed.

Section run.
Context (contents bufs : Z → list Z).

(** A first fragment tells the length of its message. *)
Definition right_length (o : frag_op) : Prop :=
  match o with FFirst _ _ i n _ => n = len (contents i) | FMiddle _ _ => True end.

#[global] Instance right_length_dec o : Decision (right_length o).
Proof. destruct o; cbn; apply _. Defined.

(** Each message has one first fragment at most, its fragments are pieces of it
    that do not overlap, and no two messages are matched with one request. *)
Record trace_ok (os : list frag_op) : Prop := {
  o_msgs : Forall (λ i, (length (firsts i os) ≤ 1)%nat ∧ parts_of (contents i) (parts i os) ∧ len (contents i) < 2 ^ 64)
             (msg_of <$> os);
  o_reqs : NoDup (first_reqs os);
  o_total : Forall right_length os;
}.

(** The request is initialised. *)
Definition fresh (st : frag_state) (r : Z) : Prop :=
  len (bufs r) < 2 ^ 64 ∧
  match reqs st !! r with
  | Some q => er_buf q = bufs r ∧ er_status q = UCS_OK ∧ er_completed q = false
  | None => False
  end.

Record frag_rel (os : list frag_op) (st : frag_state) : Prop := {
  fr_hash : ∀ i, frag_hash st !! i =
    match firsts i os with
    | [] => match middles i os with [] => None | ms => Some (UnexpQ ms) end
    | (r, _, _) :: _ => if bytes_in (parts i os) =? len (contents i) then None else Some (ExpReq r)
    end;
  fr_reqs : ∀ i r tag d, firsts i os = [(r, tag, d)] → reqs st !! r = Some (expected (contents i) tag (bufs r) (parts i os));
}.

Lemma firsts_req i os r tag d : (r, tag, d) ∈ firsts i os → r ∈ first_reqs os.
Proof.
  unfold firsts, first_reqs. rewrite !list_elem_of_omap. intros (o & Ho & E). exists o. split; [done|].
  destruct o; cbn in *; [case_decide|]; by simplify_eq.
Qed.

Lemma firsts_inj i j os r tag d tag' d' :
  NoDup (first_reqs os) → (r, tag, d) ∈ firsts i os → (r, tag', d') ∈ firsts j os → i = j.
Proof.
  induction os as [|o os IH]; intros Hnd Hi Hj; [by apply elem_of_nil in Hi|].
  destruct o as [r0 t0 k n dat|k f]; cbn in *; [|by eapply IH]. fold (firsts i os) (firsts j os) (first_reqs os) in *.
  apply NoDup_cons in Hnd as [Hn Hnd].
  destruct (decide (k = i)) as [E1|], (decide (k = j)) as [E2|]; [congruence|..]; rewrite ?elem_of_cons in *;
    repeat match goal with H : _ ∨ _ |- _ => destruct H end; simplify_eq; try (by eapply IH);
    exfalso; eapply Hn, firsts_req; eassumption.
Qed.

Lemma firsts_app i os1 os2 : firsts i (os1 ++ os2) = firsts i os1 ++ firsts i os2.
Proof. apply omap_app. Qed.

Lemma middles_app i os1 os2 : middles i (os1 ++ os2) = middles i os1 ++ middles i os2.
Proof. apply omap_app. Qed.

Lemma first_reqs_app os1 os2 : first_reqs (os1 ++ os2) = first_reqs os1 ++ first_reqs os2.
Proof. apply omap_app. Qed.

Lemma parts_submseteq i os o : parts i os ⊆+ parts i (os ++ [o]).
Proof.
  unfold parts. rewrite firsts_app, middles_app, fmap_app. apply submseteq_app; apply submseteq_inserts_r; done.
Qed.

Lemma not_in_trace i os : i ∉ msg_of <$> os → firsts i os = [] ∧ middles i os = [].
Proof.
  induction os as [|o os IH]; [done|]. cbn. rewrite not_elem_of_cons. intros [Hi [E1 E2]%IH]. unfold firsts, middles in *. cbn.
  rewrite E1, E2. destruct o; cbn in *; by rewrite decide_False by done.
Qed.

Lemma trace_ok_msg os i :
  trace_ok os → (length (firsts i os) ≤ 1)%nat ∧ parts_of (contents i) (parts i os).
Proof.
  intros [Hm _ _]. destruct (decide (i ∈ msg_of <$> os)) as [Hi|Hi].
  - rewrite Forall_forall in Hm. destruct (Hm i Hi) as (? & ? & _). done.
  - apply not_in_trace in Hi as [E1 E2]. unfold parts. rewrite E1, E2. cbn. split; [lia|]. split; [by constructor|]. by apply NoDup_nil_2.
Qed.

Lemma trace_ok_prefix os o : trace_ok (os ++ [o]) → trace_ok os.
Proof.
  intros Hok. pose proof (λ i, trace_ok_msg _ i Hok) as Hall. destruct Hok as [Hm Hr Ht]. split.
  - rewrite fmap_app in Hm. apply Forall_app in Hm as [Hm _]. eapply Forall_impl; [exact Hm|]. intros i (H1 & H2 & H3).
    split_and!; [|by eapply parts_of_submseteq; [apply parts_submseteq|]|done]. rewrite firsts_app, length_app in H1. lia.
  - rewrite first_reqs_app in Hr. by apply NoDup_app in Hr as [? _].
  - by apply Forall_app in Ht as [? _].
Qed.

(** A trace is short of the message before its last fragment. *)
Lemma short_of c ds f : parts_of c (ds ++ [f]) → bytes_in ds < len c.
Proof.
  intros H. pose proof (bytes_in_bound _ _ H) as Ht. rewrite bytes_in_app, bytes_in_cons in Ht. cbn in Ht.
  apply parts_piece, piece_bounds in H. lia.
Qed.

Lemma snoc_middle j os i f :
  firsts j (os ++ [FMiddle i f]) = firsts j os ∧ first_reqs (os ++ [FMiddle i f]) = first_reqs os ∧
  middles j (os ++ [FMiddle i f]) = middles j os ++ (if decide (i = j) then [f] else []) ∧
  parts j (os ++ [FMiddle i f]) = parts j os ++ (if decide (i = j) then [f] else []).
Proof.
  assert (middles j (os ++ [FMiddle i f]) = middles j os ++ (if decide (i = j) then [f] else [])) as E.
  { rewrite middles_app. cbn. by case_decide. }
  unfold parts. rewrite E, (assoc (++)), firsts_app, first_reqs_app. cbn. by rewrite !app_nil_r.
Qed.

Lemma snoc_first j os r tag i n d :
  firsts j (os ++ [FFirst r tag i n d]) = firsts j os ++ (if decide (i = j) then [(r, tag, d)] else []) ∧
  first_reqs (os ++ [FFirst r tag i n d]) = first_reqs os ++ [r] ∧
  middles j (os ++ [FFirst r tag i n d]) = middles j os.
Proof. rewrite firsts_app, first_reqs_app, middles_app. cbn. case_decide; by rewrite !app_nil_r. Qed.

Lemma middle_step os st i f :
  trace_ok (os ++ [FMiddle i f]) → frag_rel os st → Forall (λ r, len (bufs r) < 2 ^ 64) (first_reqs os) →
  ∃ st', frag_step (FMiddle i f) st = Some st' ∧ frag_rel (os ++ [FMiddle i f]) st' ∧
    ∀ r, r ∉ first_reqs os → reqs st' !! r = reqs st !! r.
Proof.
  intros Hok [Hh Hr] Hfresh. destruct (trace_ok_msg _ i Hok) as [H1 Hparts].
  assert (len (contents i) < 2 ^ 64) as Hlen.
  { destruct Hok as [Hm _ _]. rewrite fmap_app, Forall_app in Hm. destruct Hm as [_ Hm]. by apply Forall_singleton in Hm as (_ & _ & ?). }
  assert (NoDup (first_reqs os)) as Hnd by (destruct Hok as [_ Hnd _]; by rewrite (proj1 (proj2 (snoc_middle i os i f))) in Hnd).
  destruct (snoc_middle i os i f) as (E1 & _ & _ & E4). rewrite E1 in H1. rewrite E4, decide_True in Hparts by done.
  unfold frag_step, ucp_eager_middle_handler. rewrite Hh. destruct (firsts i os) as [|[[r tag] d] fs] eqn:Ef.
  - assert (default (UnexpQ []) (match middles i os with [] => None | ms => Some (UnexpQ ms) end) = UnexpQ (middles i os)) as ->
      by (by destruct (middles i os)).
    run. eexists. split; [done|]. split; [|done]. split; cbn [frag_hash reqs].
    + intros j. destruct (snoc_middle j os i f) as (-> & _ & -> & ->). destruct (decide (i = j)) as [<-|Hne].
      * rewrite lookup_insert_eq, Ef. by destruct (middles i os).
      * rewrite lookup_insert_ne, !app_nil_r by done. apply Hh.
    + intros j r tag d. destruct (snoc_middle j os i f) as (-> & _ & _ & ->). intros E.
      destruct (decide (i = j)) as [<-|]; [by rewrite Ef in E|]. rewrite app_nil_r. by eapply Hr.
  - assert (fs = []) as -> by (destruct fs; [done|cbn in H1; lia]).
    rewrite (proj2 (Z.eqb_neq _ _)) by (apply short_of in Hparts; lia). cbn [from_option id].
    rewrite (Hr i r tag d Ef). run.
    assert (len (bufs r) < 2 ^ 64) as Hb.
    { rewrite Forall_forall in Hfresh. apply Hfresh, (firsts_req i os r tag d). rewrite Ef. by left. }
    rewrite process_data_spec by done. run. eexists. split; [done|].
    split; [split|]; cbn [frag_hash reqs].
    + intros j. destruct (snoc_middle j os i f) as (-> & _ & -> & ->). destruct (decide (i = j)) as [<-|Hne].
      * rewrite Ef. destruct (Z.eqb_spec (bytes_in (parts i os ++ [f])) (len (contents i))).
        -- rewrite decide_True by (by destruct (delivered _ _).2). by rewrite lookup_delete_eq.
        -- rewrite decide_False by tauto. rewrite Hh, Ef. rewrite (proj2 (Z.eqb_neq _ _)) by (apply short_of in Hparts; lia). done.
      * rewrite !app_nil_r, <- (Hh j). destruct (decide (_ ≠ UCS_INPROGRESS)); [by rewrite lookup_delete_ne|done].
    + intros j r' tag' d'. destruct (snoc_middle j os i f) as (-> & _ & _ & ->). intros E.
      destruct (decide (i = j)) as [<-|Hne].
      * rewrite Ef in E. simplify_eq. by rewrite lookup_insert_eq.
      * rewrite app_nil_r, lookup_insert_ne; [by eapply Hr|]. intros <-. destruct Hne.
        apply (firsts_inj i j os r tag d tag' d'); [done|rewrite Ef; by left|rewrite E; by left].
    + intros r' Hr'. rewrite lookup_insert_ne; [done|].
      intros <-. apply Hr', (firsts_req i os r tag d). rewrite Ef. by left.
Qed.

Lemma first_step os st r tag i n d :
  trace_ok (os ++ [FFirst r tag i n d]) → frag_rel os st → fresh st r →
  ∃ st', frag_step (FFirst r tag i n d) st = Some st' ∧ frag_rel (os ++ [FFirst r tag i n d]) st' ∧
    ∀ r', r' ≠ r → reqs st' !! r' = reqs st !! r'.
Proof.
  intros Hok [Hh Hr] [Hb Hq]. destruct (trace_ok_msg _ i Hok) as [H1 Hparts]. destruct Hok as [Hm Hnd Ht].
  rewrite fmap_app, Forall_app in Hm. destruct Hm as [_ Hm]. apply Forall_singleton in Hm as (_ & _ & Hlen). cbn [msg_of] in Hlen.
  apply Forall_app in Ht as [_ Ht]. apply Forall_inv in Ht. unfold right_length in Ht. subst n. destruct (snoc_first i os r tag i (len (contents i)) d) as (E1 & E2 & E3).
  rewrite E2 in Hnd. apply NoDup_app in Hnd as (_ & Hnd & _). assert (r ∉ first_reqs os) as Hnew by (intros H; apply (Hnd r H); by left).
  rewrite E1, decide_True, length_app in H1 by done. assert (firsts i os = []) as Ef by (destruct (firsts i os); [done|cbn in H1; lia]).
  unfold parts in Hparts. rewrite E1, E3, Ef, decide_True in Hparts by done.
  destruct (reqs st !! r) as [q|] eqn:Eq; [|done]. destruct Hq as (Eb & Es & Ec).
  destruct (first_matched_spec st r tag i d (contents i) (bufs r) q (middles i os)) as (st' & Hst & Eh & Er); try done.
  { rewrite Hh, Ef. by destruct (middles i os). }
  exists st'. split; [exact Hst|]. split; [split|].
  - intros j. destruct (snoc_first j os r tag i (len (contents i)) d) as (-> & _ & Em). unfold parts. rewrite Em, Eh.
    destruct (snoc_first j os r tag i (len (contents i)) d) as (-> & _ & _). destruct (decide (i = j)) as [<-|Hne].
    + rewrite Ef. cbn [app fmap list_fmap snd]. destruct (bytes_in _ =? _); [by rewrite lookup_delete_eq|by rewrite lookup_insert_eq].
    + rewrite app_nil_r. fold (parts j os). rewrite <- (Hh j). destruct (bytes_in _ =? _); [by rewrite lookup_delete_ne|by rewrite lookup_insert_ne].
  - intros j r' tag' d'. unfold parts. destruct (snoc_first j os r tag i (len (contents i)) d) as (-> & _ & ->). rewrite Er.
    destruct (decide (i = j)) as [<-|Hne].
    + rewrite Ef. intros [= <- <- <-]. by rewrite lookup_insert_eq.
    + rewrite app_nil_r. intros E. rewrite lookup_insert_ne; [by eapply Hr|]. intros <-.
      apply Hnew, (firsts_req j os r tag' d'). rewrite E. by left.
  - intros r' Hne. by rewrite Er, lookup_insert_ne.
Qed.

Lemma frag_run_snoc os o st : frag_run (os ++ [o]) st = (st1 ← frag_run os st; frag_step o st1).
Proof.
  revert st. induction os as [|o' os IH]; intros st; cbn; [by destruct (frag_step o st)|].
  destruct (frag_step o' st); [apply IH|done].
Qed.

Lemma run_rel os st0 :
  trace_ok os → Forall (fresh st0) (first_reqs os) → frag_hash st0 = ∅ →
  ∃ st, frag_run os st0 = Some st ∧ frag_rel os st ∧ ∀ r, r ∉ first_reqs os → reqs st !! r = reqs st0 !! r.
Proof.
  intros Hok Hfresh Hemp. induction os as [|o os IH] using rev_ind.
  { exists st0. split; [done|]. split; [|done]. split; [|done]. intros i. rewrite Hemp. cbn. apply lookup_empty. }
  assert (Hnd := o_reqs _ Hok). rewrite first_reqs_app in Hfresh, Hnd. apply Forall_app in Hfresh as [Hfresh Ho].
  destruct (IH (trace_ok_prefix _ _ Hok) Hfresh) as (st & E & Hrel & Hframe). rewrite frag_run_snoc, E. run.
  destruct o as [r tag i n d|i f].
  - apply NoDup_app in Hnd as (_ & Hnd & _). assert (r ∉ first_reqs os) as Hnew by (intros H; apply (Hnd r H); by left).
    destruct (first_step os st r tag i n d) as (st' & -> & Hrel' & Hf'); [done..| |].
    { destruct (Forall_inv Ho) as [? Hq]. split; [done|]. by rewrite Hframe. }
    exists st'. split; [done|]. split; [done|]. intros r'. rewrite first_reqs_app, not_elem_of_app. cbn. rewrite list_elem_of_singleton.
    intros [? ?]. rewrite Hf' by done. by apply Hframe.
  - destruct (middle_step os st i f) as (st' & -> & Hrel' & Hf'); [done..| |].
    { eapply Forall_impl; [exact Hfresh|]. by intros r []. }
    exists st'. split; [done|]. split; [done|]. intros r'. rewrite first_reqs_app, not_elem_of_app. intros [? _]. rewrite Hf' by done.
    by apply Hframe.
Qed.

Lemma frag_rel_insert os st r q :
  frag_rel os st → r ∉ first_reqs os → frag_rel os (mk_frags (frag_hash st) (<[r := q]> (reqs st))).
Proof.
  intros [Hh Hr] Hnew. split; [done|]. intros i r' tag d E. cbn. rewrite lookup_insert_ne; [by eapply Hr|]. intros <-.
  apply Hnew, (firsts_req i os r tag d). rewrite E. by left.
Qed.

End run.

(** ** Theorem *)

(** What the relation says of a request that is matched with a message. *)
Definition assembled_ok (contents bufs : Z → list Z) (os : list frag_op) (st : frag_state) (r tag i : Z) : Prop :=
  ∃ q, reqs st !! r = Some q ∧ er_sender_tag q = tag ∧ er_length q = len (contents i) ∧
    if bytes_in (parts i os) =? len (contents i) then
      er_completed q = true ∧ frag_hash st !! i = None ∧
      (if len (contents i) <=? len (bufs r)
       then er_status q = UCS_OK ∧ er_buf q = contents i ++ drop (length (contents i)) (bufs r)
       else er_status q = UCS_ERR_MESSAGE_TRUNCATED)
    else er_completed q = false ∧ frag_hash st !! i = Some (ExpReq r).

Lemma assembled contents bufs os st r tag i n d :
  trace_ok contents os → frag_rel contents bufs os st → FFirst r tag i n d ∈ os → assembled_ok contents bufs os st r tag i.
Proof.
  intros Hok [Hh Hr] Hin. destruct (trace_ok_msg contents os i Hok) as [H1 Hparts].
  assert ((r, tag, d) ∈ firsts i os) as Hf.
  { apply list_elem_of_omap. eexists. split; [exact Hin|]. cbn. by rewrite decide_True. }
  assert (firsts i os = [(r, tag, d)]) as Ef.
  { destruct (firsts i os) as [|x [|? ?]]; [by apply elem_of_nil in Hf| |cbn in H1; lia]. by apply list_elem_of_singleton in Hf as <-. }
  unfold assembled_ok. rewrite (Hr i r tag d Ef). eexists. split; [done|]. specialize (Hh i). rewrite Ef in Hh. unfold expected.
  destruct (Z.eqb_spec (bytes_in (parts i os)) (len (contents i))) as [Et|Et]; [|by destruct (delivered _ _)].
  destruct (Z.leb_spec (len (contents i)) (len (bufs r))) as [Hl|Hl].
  - by rewrite (delivered_whole (contents i)).
  - pose proof (delivered_truncated _ _ _ Hparts Et Hl) as Ed. destruct (delivered _ _) as [b ok]. cbn in Ed. by subst ok.
Qed.

(** However the fragments of the messages are interleaved and wherever their
    first fragments are matched, no assertion fails, and a request matched with
    a message is completed exactly when all bytes of the message have arrived;
    then the entry of the message is gone, and the buffer holds the message
    followed by what was there before, or the request reports truncation when
    the message is longer than the buffer.  Until then the entry of the message
    holds the request. *)
Theorem eager_assembly contents bufs st0 os :
  trace_ok contents os → Forall (fresh bufs st0) (first_reqs os) → frag_hash st0 = ∅ →
  ∃ st, frag_run os st0 = Some st ∧
    ∀ r tag i n d, FFirst r tag i n d ∈ os → assembled_ok contents bufs os st r tag i.
Proof.
  intros Hok Hfresh Hemp. destruct (run_rel contents bufs os st0 Hok Hfresh Hemp) as (st & E & Hrel & _).
  exists st. split; [done|]. intros r tag i n d Hin. by eapply assembled.
Qed.

#[global] Instance piece_dec c f : Decision (piece c f).
Proof. unfold piece. apply _. Defined.

#[global] Instance parts_of_dec c ds : Decision (parts_of c ds).
Proof. unfold parts_of. apply _. Defined.

#[global] Instance fresh_dec bufs st r : Decision (fresh bufs st r).
Proof. unfold fresh. destruct (reqs st !! r); apply _. Defined.

(** Message 7 goes to request 1; message 9 is too long for request 2; of
    message 8 a fragment is missing. *)
Definition example_contents (i : Z) : list Z :=
  if i =? 7 then [1; 2; 3; 4; 5] else if i =? 8 then [20; 21; 22] else [10; 11; 12].
Definition example_bufs (r : Z) : list Z := if r =? 2 then [0; 0] else [0; 0; 0; 0; 0; 0; 99].

Definition example_trace : list frag_op :=
  [ FMiddle 7 (mk_fragment 4 [5]); FFirst 2 50 9 3 [10]; FFirst 3 60 8 3 [20]; FMiddle 9 (mk_fragment 1 [11; 12]);
    FMiddle 7 (mk_fragment 2 [3; 4]); FFirst 1 40 7 5 [1; 2]; FMiddle 8 (mk_fragment 1 [21]) ].

Definition example_frags : frag_state :=
  mk_frags ∅ (list_to_map [(1, mk_eager (example_bufs 1) UCS_OK 0 0 0 false); (2, mk_eager (example_bufs 2) UCS_OK 0 0 0 false);
                           (3, mk_eager (example_bufs 3) UCS_OK 0 0 0 false)]).

Lemma eager_assembly_witness :
  ∃ st, frag_run example_trace example_frags = Some st ∧
    (∃ q, reqs st !! 1 = Some q ∧ er_status q = UCS_OK ∧ er_buf q = [1; 2; 3; 4; 5; 0; 99]) ∧
    (∃ q, reqs st !! 2 = Some q ∧ er_status q = UCS_ERR_MESSAGE_TRUNCATED) ∧
    frag_hash st !! 8 = Some (ExpReq 3).
Proof.
  destruct (eager_assembly example_contents example_bufs example_frags example_trace) as (st & E & H).
  - split; by_evaluation.
  - by_evaluation.
  - reflexivity.
  - exists st. split; [exact E|]. split_and!.
    + destruct (H 1 40 7 5 [1; 2]) as (q & Eq & _ & _ & Hq); [do 5 right; left|]. exists q. vm_compute in Hq. naive_solver.
    + destruct (H 2 50 9 3 [10]) as (q & Eq & _ & _ & Hq); [right; left|]. exists q. vm_compute in Hq. naive_solver.
    + destruct (H 3 60 8 3 [20]) as (q & Eq & _ & _ & Hq); [do 2 right; left|]. vm_compute in Hq. naive_solver.
Defined.

End TagFragSpec.
