(* ===== verification/TagWorker.v ===== *)
(** * The receive side of tagged messages, whole

    The handlers of arriving messages and the receive calls with everything
    they do: matching (TagMatch), the copy or assembly of the data (TagFrag),
    acknowledgements of synchronous sends, completion of requests and release
    of descriptors.  A rendezvous is started and left to its protocol; an
    acknowledgement is recorded as sent.  Descriptors live in [w_descs] from
    [ucp_recv_desc_init] to [ucp_recv_desc_release], requests in the
    [reqs] of the fragment state.  [None] is an access to a descriptor or
    request that does not exist, or a failed assertion. *)

From stdpp Require Import base numbers list gmap.
From S2P Require Import Prelude TagMatch TagFrag.
Import TagMatch TagFrag.

Local Open Scope Z_scope.
Local Open Scope c_scope.

Module TagWorker.

(** The packet of a message: total length and id of a first fragment, length of
    the data of a rendezvous, the request to acknowledge, and the payload. *)
Record packet := mk_packet { pk_total : Z; pk_msg : Z; pk_sync : option Z; pk_data : list Z }.

Record worker := mk_worker {
  w_tm : ucp_tag_match_t;
  w_frags : frag_state;
  w_descs : gmap Z packet;
  w_acks : list Z;
  w_rndv : list (Z * packet);
}.

Definition with_tm (w : worker) (tm : ucp_tag_match_t) : worker :=
  mk_worker tm (w_frags w) (w_descs w) (w_acks w) (w_rndv w).
Definition with_frags (w : worker) (st : frag_state) : worker :=
  mk_worker (w_tm w) st (w_descs w) (w_acks w) (w_rndv w).
Definition with_req (w : worker) (id : Z) (r : eager_request) : worker :=
  with_frags w (mk_frags (frag_hash (w_frags w)) (<[id := r]> (reqs (w_frags w)))).
Definition with_desc (w : worker) (id : Z) (b : packet) : worker :=
  mk_worker (w_tm w) (w_frags w) (<[id := b]> (w_descs w)) (w_acks w) (w_rndv w).

Definition ucp_recv_desc_release (w : worker) (id : Z) : worker :=
  mk_worker (w_tm w) (w_frags w) (delete id (w_descs w)) (w_acks w) (w_rndv w).

(** [ucp_tag_eager_sync_send_ack] *)
Definition send_ack (w : worker) (sync : option Z) : worker :=
  mk_worker (w_tm w) (w_frags w) (w_descs w) (w_acks w ++ from_option (λ r, [r]) [] sync) (w_rndv w).

(** [ucp_tag_rndv_matched], up to the start of the protocol. *)
Definition ucp_tag_rndv_matched (w : worker) (id tag : Z) (b : packet) : option worker :=
  r ← reqs (w_frags w) !! id;
  let w := with_req w id (mk_eager (er_buf r) (er_status r) (er_remaining r) tag (pk_total b) (er_completed r)) in
  Some (mk_worker (w_tm w) (w_frags w) (w_descs w) (w_acks w) (w_rndv w ++ [(id, b)])).

(** ** Receive calls *)

Definition ucp_datatype_iter_unpack_single (dt : ucs_status_t) (buf data : list Z) : option (ucs_status_t * list Z) :=
  if decide (dt ≠ UCS_OK) then Some (dt, buf)
  else if len buf <? len data then Some (UCS_ERR_MESSAGE_TRUNCATED, buf)
  else ucp_datatype_iter_unpack buf 0 data.

(** A request as [ucp_tag_recv_common] initialises it; the fields that are not
    set are 0. *)
Definition init_request (buf : list Z) : eager_request := mk_eager buf UCS_OK 0 0 0 false.

Definition ucp_tag_recv_eager_multi (w : worker) (id : Z) (rdesc : ucp_recv_desc_t) (b : packet) : option worker :=
  let w := send_ack w (pk_sync b) in
  st ← eager_first_matched (w_frags w) id (rd_tag rdesc) (pk_total b) (pk_msg b) (pk_data b);
  Some (ucp_recv_desc_release (with_frags w st) (rd_id rdesc)).

(** What [ucp_tag_recv_common] does after the match. *)
Definition recv_transfer (w : worker) (id : Z) (param : recv_param) (buf : list Z) (res : recv_result) : option worker :=
  match res with
  | RecvError _ => Some w
  | RecvPosted => Some (with_req w id (init_request buf))
  | RecvCompleted rdesc =>
      b ← w_descs w !! rd_id rdesc;
      let w := send_ack w (pk_sync b) in
      '(status, buf) ← ucp_datatype_iter_unpack_single (dt_status param) buf (pk_data b);
      let w := ucp_recv_desc_release w (rd_id rdesc) in
      Some (with_req w id (mk_eager buf status 0 (rd_tag rdesc) (len (pk_data b)) true))
  | RecvMatched rdesc =>
      b ← w_descs w !! rd_id rdesc;
      let w := with_req w id (init_request buf) in
      match rd_kind rdesc with
      | RNDV => w ← ucp_tag_rndv_matched w id (rd_tag rdesc) b; Some (ucp_recv_desc_release w (rd_id rdesc))
      | EAGER_FIRST => ucp_tag_recv_eager_multi w id rdesc b
      | EAGER_ONLY | EAGER_OFFLOAD_STARTED => None
      end
  end.

Definition ucp_tag_recv_nbx (req_ok : bool) (w : worker) (id tag tag_mask : Z) (param : recv_param) (buf : list Z)
    : option (recv_result * worker) :=
  '(res, tm) ← recv_match req_ok (w_tm w) id tag tag_mask param;
  w' ← recv_transfer (with_tm w tm) id param buf res;
  Some (res, w').

Definition ucp_tag_msg_recv_nbx (req_ok : bool) (w : worker) (id : Z) (message : ucp_recv_desc_t) (param : recv_param) (buf : list Z)
    : option (recv_result * worker) :=
  '(res, tm) ← msg_recv_match req_ok (w_tm w) id message param;
  w' ← recv_transfer (with_tm w tm) id param buf res;
  Some (res, w').

(** ** Arriving messages *)

(** Eager messages of one fragment, and first fragments. *)
Definition ucp_eager_tagged_handler (desc_ok : bool) (w : worker) (rdesc : ucp_recv_desc_t) (b : packet)
    : option (arrive_result * worker) :=
  '(res, tm) ← arrive_match desc_ok (w_tm w) rdesc;
  let w := with_tm w tm in
  match res with
  | ArriveError => Some (res, w)
  | ArriveUnexpected => Some (res, with_desc w (rd_id rdesc) b)
  | ArriveMatched rq =>
      let w := send_ack w (pk_sync b) in
      if decide (rd_kind rdesc = EAGER_ONLY) then
        r ← reqs (w_frags w) !! rq_id rq;
        let r := mk_eager (er_buf r) (er_status r) (er_remaining r) (rd_tag rdesc) (len (pk_data b)) (er_completed r) in
        '(status, buf) ← ucp_request_recv_data_unpack r (pk_data b) 0;
        r ← complete_tag_recv (mk_eager buf (er_status r) (er_remaining r) (er_sender_tag r) (er_length r) (er_completed r)) status;
        Some (res, with_req w (rq_id rq) r)
      else
        st ← eager_first_matched (w_frags w) (rq_id rq) (rd_tag rdesc) (pk_total b) (pk_msg b) (pk_data b);
        Some (res, with_frags w st)
  end.

Definition ucp_tag_rndv_process_rts (desc_ok : bool) (w : worker) (rdesc : ucp_recv_desc_t) (b : packet)
    : option (arrive_result * worker) :=
  '(res, tm) ← arrive_match desc_ok (w_tm w) rdesc;
  let w := with_tm w tm in
  match res with
  | ArriveError => Some (res, w)
  | ArriveUnexpected => Some (res, with_desc w (rd_id rdesc) b)
  | ArriveMatched rq => w ← ucp_tag_rndv_matched w (rq_id rq) (rd_tag rdesc) b; Some (res, w)
  end.

(** ** Probing and cancelling *)

(** The descriptor with the sender's tag and the length of the message. *)
Definition ucp_tag_probe_nb (w : worker) (tag tag_mask : Z) (rem : bool)
    : option (option (ucp_recv_desc_t * Z * Z) * worker) :=
  '(rd, tm) ← probe_match (w_tm w) tag tag_mask rem;
  match rd with
  | None => Some (None, with_tm w tm)
  | Some rdesc =>
      b ← w_descs w !! rd_id rdesc;
      Some (Some (rdesc, rd_tag rdesc, if decide (rd_kind rdesc = EAGER_ONLY) then len (pk_data b) else pk_total b), with_tm w tm)
  end.

(** The tag and mask are those of the request. *)
Definition ucp_request_cancel (w : worker) (id tag tag_mask : Z) : option (bool * worker) :=
  r ← reqs (w_frags w) !! id;
  '(removed, tm) ← cancel_match (er_completed r) (w_tm w) id tag tag_mask;
  let w := with_tm w tm in
  if (removed : bool) then r ← complete_tag_recv r UCS_ERR_CANCELED; Some (true, with_req w id r)
  else Some (false, w).

End TagWorker.
