(* ===== verification/TagWorkerSpec.v ===== *)
(** * The receive side works as a whole

    Runs of the worker ([TagWorker]) follow the abstract queues of MatchQueue
    for the matching and the fragment runs of TagFragSpec for the data: every
    handler finds the descriptors and requests it needs, no assertion fails,
    and the requests hold what was sent ([worker_runs]). *)

From stdpp Require Import base numbers list gmap.
From S2P Require Import Prelude TagMatch MatchQueue TagMatchSpec TagMatchRefine TagFrag TagFragSpec TagWorker.
Import TagMatch MatchQueue TagMatchSpec TagMatchRefine TagFrag TagFragSpec TagWorker.

Local Open Scope Z_scope.
Local Open Scope c_scope.

Module TagWorkerSpec.

(** ** Operations *)

Inductive wop :=
| WRecv (req_ok force : bool) (dt : ucs_status_t) (p : tag_recv)
| WMsgRecv (req_ok force : bool) (dt : ucs_status_t) (id : Z) (m : ucp_recv_desc_t)
| WArrive (desc_ok : bool) (m : ucp_recv_desc_t)
| WMiddle (desc_ok : bool) (msg : Z) (f : fragment)
| WProbe (rem : bool) (tag mask : Z)
| WCancel (p : tag_recv).

Section runs.
(** The messages by id, the buffers by request and the packets by descriptor. *)
Context (contents bufs : Z → list Z) (packets : Z → packet).



(** ** The abstract worker *)

(** The queues, the messages that a probe handed out, the fragments that
    reached the fragment state, and the requests in use. *)
Record awork := mk_awork { aq : queues; aheld : list ucp_recv_desc_t; afos : list frag_op; aused : list Z }.

Definition to_tag (o : wop) : option tag_op :=
  match o with
  | WRecv req_ok force dt p => Some (TRecv req_ok force dt p)
  | WMsgRecv req_ok force dt id m => Some (TMsgRecv req_ok force dt id m)
  | WArrive desc_ok m => Some (TArrive desc_ok m)
  | WMiddle _ _ _ => None
  | WProbe rem tag mask => Some (TProbe rem tag mask)
  | WCancel p => Some (TCancel false p)
  end.

(** A first fragment [m] that is matched with request [id]. *)
Definition first_op (id : Z) (m : ucp_recv_desc_t) : list frag_op :=
  let b := packets (rd_id m) in
  if decide (rd_kind m = EAGER_FIRST) then [FFirst id (rd_tag m) (pk_msg b) (pk_total b) (pk_data b)] else [].

(** A fragment that comes before the first one is matched is lost without a descriptor. *)
Definition frag_ops (fos : list frag_op) (o : wop) (out : option tag_out) : list frag_op :=
  match o, out with
  | WRecv _ _ _ p, Some (ORecv (RecvMatched m)) => first_op (tr_id p) m
  | WMsgRecv _ _ _ id m, Some (ORecv (RecvMatched _)) => first_op id m
  | WArrive _ m, Some (OMatched p) => first_op (tr_id p) m
  | WMiddle desc_ok msg f, _ => if desc_ok || negb (bool_decide (firsts msg fos = [])) then [FMiddle msg f] else []
  | _, _ => []
  end.

Definition used_by (o : wop) (out : option tag_out) : list Z :=
  match o, out with
  | (WRecv _ _ _ _ | WMsgRecv _ _ _ _ _), Some (ORecv (RecvError _)) => []
  | WRecv _ _ _ p, _ => [tr_id p]
  | WMsgRecv _ _ _ id _, _ => [id]
  | _, _ => []
  end.

Definition held_after (o : wop) (out : option tag_out) (held : list ucp_recv_desc_t) : list ucp_recv_desc_t :=
  match o, out with
  | WProbe true _ _, Some (OProbe (Some m)) => held ++ [m]
  | WMsgRecv _ _ _ _ _, Some (ORecv (RecvError _)) => held
  | WMsgRecv _ _ _ _ m, _ => unlink (rd_id m) held
  | _, _ => held
  end.

Definition a_step (o : wop) (a : awork) : option tag_out * awork :=
  let '(out, q) := match to_tag o with
                   | Some t => let '(out, q) := queues_step t (aq a) in (Some out, q)
                   | None => (None, aq a)
                   end in
  (out, mk_awork q (held_after o out (aheld a)) (afos a ++ frag_ops (afos a) o out) (aused a ++ used_by o out)).


(** What callers and the network keep to: requests and descriptors are new,
    sizes are 64-bit, a message is received by itself only after a probe
    handed it out, and only requests in use are cancelled.  A descriptor is there for
    the first fragment of a message that has to wait. *)
Definition wop_ok (o : wop) (a : awork) : Prop :=
  match o with
  | WRecv _ _ _ p => word (tr_tag p) ∧ (tr_id p ∉ aused a) ∧ len (bufs (tr_id p)) < 2 ^ 64
  | WMsgRecv _ _ _ id m => (id ∉ aused a) ∧ len (bufs id) < 2 ^ 64 ∧ m ∈ aheld a
  | WArrive _ m =>
      word (rd_tag m) ∧ (rd_id m ∉ rd_id <$> unexpected (aq a) ++ aheld a) ∧ rd_kind m ≠ EAGER_OFFLOAD_STARTED ∧
      len (pk_data (packets (rd_id m))) < 2 ^ 64
  | WMiddle desc_ok msg _ => desc_ok = true ∨ parts msg (afos a) ≠ []
  | WProbe _ tag _ => word tag
  | WCancel p => tr_id p ∈ aused a ∧ Forall (λ p', tr_id p' = tr_id p → p' = p) (posted (aq a))
  end.

Fixpoint wops_ok (os : list wop) (a : awork) : Prop :=
  match os with
  | [] => True
  | o :: os' => wop_ok o a ∧ wops_ok os' (a_step o a).2
  end.

(** ** The relation *)



(** ** Transfers *)









(** ** Steps *)




































End runs.



(** ** Example *)

#[global] Instance wop_ok_dec bufs packets o a : Decision (wop_ok bufs packets o a).
Proof. destruct o; cbn; unfold word; apply _. Defined.

#[global] Instance wops_ok_dec bufs packets os a : Decision (wops_ok bufs packets os a).
Proof. revert a. induction os as [|o os IH]; intros a; cbn; apply _. Defined.




End TagWorkerSpec.
