(* ===== verification/OpalHash.v ===== *)
(** * OPAL hash tables ([opal/class/opal_hash_table.c])

    Open addressing with linear probing: an element is stored in the first free
    slot from its hash on, around the end of the table; a removal puts the
    elements that follow back where they belong; the table grows when its
    density is reached.  The process table is a hash table of hash tables.

    The three kinds of keys (32-bit, 64-bit, byte strings) share one model: a key
    type with a hash; a table holds keys of one type, as the debug build checks.
    A slot is [None] when [valid] is 0.  The unbounded loops have fuel: a scan
    that has seen every slot without stopping goes on for ever ([None], which
    also stands for division by zero and accesses outside an array). *)

From stdpp Require Import base numbers list gmap.
From S2P Require Import Prelude.

Local Open Scope Z_scope.
Local Open Scope c_scope.

Module OpalHash.

Inductive status := OPAL_SUCCESS | OPAL_ERROR | OPAL_ERR_NOT_FOUND | OPAL_ERR_OUT_OF_RESOURCE.

#[global] Instance status_eq_dec : EqDecision status.
Proof. solve_decision. Defined.

Record opal_hash_table_t (K V : Type) := mk_ht {
  ht_table : list (option (K * V));
  ht_capacity : Z;
  ht_size : Z;
  ht_growth_trigger : Z;
  ht_density_numer : Z;
  ht_density_denom : Z;
  ht_growth_numer : Z;
  ht_growth_denom : Z;
}.
#[global] Arguments mk_ht {K V}.
#[global] Arguments ht_table {K V}.
#[global] Arguments ht_capacity {K V}.
#[global] Arguments ht_size {K V}.
#[global] Arguments ht_growth_trigger {K V}.
#[global] Arguments ht_density_numer {K V}.
#[global] Arguments ht_density_denom {K V}.
#[global] Arguments ht_growth_numer {K V}.
#[global] Arguments ht_growth_denom {K V}.

(** Rounds up to 1 modulo 30. *)
Definition opal_hash_round_capacity_up (capacity : Z) : Z := wrap 64 (wrap 64 (capacity + 29) / 30 * 30 + 1).

(** The largest table [calloc] can give: an object has less than 2^63 bytes, an
    element 32. *)
Definition max_capacity : Z := 2 ^ 58.

Section table.
Context {K V : Type} `{EqDecision K} (hash_elt : K → Z).

Abbreviation slot := (option (K * V)).
Abbreviation table := (opal_hash_table_t K V).

Definition calloc (ok : bool) (n : Z) : option (list slot) :=
  if ok && (n <=? max_capacity) then Some (replicate (Z.to_nat n) None) else None.

Definition opal_hash_table_construct : table := mk_ht [] 0 0 0 0 0 0 0.

(** The density and growth are ints, converted to [size_t] in the products. *)
Definition opal_hash_table_init2 (ok : bool) (ht : table) (estimated_max_size density_numer density_denom growth_numer growth_denom : Z)
    : option (status * table) :=
  safe (negb (wrap 64 density_numer =? 0));
  let est_capacity := wrap 64 (estimated_max_size * wrap 64 density_denom) / wrap 64 density_numer in
  let capacity := opal_hash_round_capacity_up est_capacity in
  match calloc ok capacity with
  | None => Some (OPAL_ERR_OUT_OF_RESOURCE, mk_ht [] (ht_capacity ht) (ht_size ht) (ht_growth_trigger ht) (ht_density_numer ht)
                    (ht_density_denom ht) (ht_growth_numer ht) (ht_growth_denom ht))
  | Some t =>
      safe (negb (wrap 64 density_denom =? 0));
      Some (OPAL_SUCCESS, mk_ht t capacity (ht_size ht) (wrap 64 (capacity * wrap 64 density_numer) / wrap 64 density_denom)
                            density_numer density_denom growth_numer growth_denom)
  end.

Definition opal_hash_table_init (ok : bool) (ht : table) (table_size : Z) : option (status * table) :=
  opal_hash_table_init2 ok ht table_size 1 2 2 1.

Definition with_table (ht : table) (t : list slot) (size : Z) : table :=
  mk_ht t (ht_capacity ht) size (ht_growth_trigger ht) (ht_density_numer ht) (ht_density_denom ht) (ht_growth_numer ht) (ht_growth_denom ht).

Definition opal_hash_table_remove_all (ht : table) : table :=
  with_table ht (replicate (Z.to_nat (ht_capacity ht)) None) 0.

(** The scan loops: from [ii] on, around the end, to the first slot that stops
    it. *)
Fixpoint probe (stop : Z → slot → bool) (t : list slot) (capacity : Z) (fuel : nat) (ii : Z) : option (Z * slot) :=
  match fuel with
  | O => None
  | S f =>
      let ii := if ii =? capacity then 0 else ii in
      elt ← t !! Z.to_nat ii;
      if stop ii elt then Some (ii, elt) else probe stop t capacity f (ii + 1)
  end.

Definition empty_slot (_ : Z) (elt : slot) : bool := match elt with None => true | Some _ => false end.

(** Stops at a free slot or at the key. *)
Definition stop_at (key : K) (_ : Z) (elt : slot) : bool :=
  match elt with None => true | Some (k, _) => bool_decide (k = key) end.

Definition scan (t : list slot) (capacity : Z) (key : K) : option (Z * slot) :=
  safe (0 <? capacity);
  probe (stop_at key) t capacity (Z.to_nat capacity) (hash_elt key `mod` capacity).

(** The loop of [opal_hash_grow] over the old table. *)
Fixpoint rehash_all (old new : list slot) (new_capacity : Z) : option (list slot) :=
  match old with
  | [] => Some new
  | None :: old' => rehash_all old' new new_capacity
  | Some (k, v) :: old' =>
      '(ii, _) ← probe empty_slot new new_capacity (Z.to_nat new_capacity) (hash_elt k `mod` new_capacity);
      rehash_all old' (<[Z.to_nat ii := Some (k, v)]> new) new_capacity
  end.

Definition opal_hash_grow (ok : bool) (ht : table) : option (status * table) :=
  safe (negb (wrap 64 (ht_growth_denom ht) =? 0));
  let new_capacity := wrap 64 (ht_capacity ht * wrap 64 (ht_growth_numer ht)) / wrap 64 (ht_growth_denom ht) in
  let new_capacity := opal_hash_round_capacity_up new_capacity in
  match calloc ok new_capacity with
  | None => Some (OPAL_ERR_OUT_OF_RESOURCE, ht)
  | Some new_table =>
      t ← rehash_all (ht_table ht) new_table new_capacity;
      safe (negb (wrap 64 (ht_density_denom ht) =? 0));
      Some (OPAL_SUCCESS,
        mk_ht t new_capacity (ht_size ht) (wrap 64 (new_capacity * wrap 64 (ht_density_numer ht)) / wrap 64 (ht_density_denom ht))
          (ht_density_numer ht) (ht_density_denom ht) (ht_growth_numer ht) (ht_growth_denom ht))
  end.

(** Stops at [ii] itself or at a free slot. *)
Definition stop_home (ii : Z) (jj : Z) (elt : slot) : bool := (jj =? ii) || empty_slot jj elt.

(** The loop that puts the followers of a removed element back. *)
Fixpoint reinsert (fuel : nat) (t : list slot) (capacity ii : Z) : option (list slot) :=
  match fuel with
  | O => None
  | S f =>
      let ii := if ii =? capacity then 0 else ii in
      elt ← t !! Z.to_nat ii;
      match elt with
      | None => Some t
      | Some (k, v) =>
          '(jj, _) ← probe (stop_home ii) t capacity (Z.to_nat capacity) (hash_elt k `mod` capacity);
          if jj =? ii then reinsert f t capacity (ii + 1)
          else reinsert f (<[Z.to_nat ii := None]> (<[Z.to_nat jj := Some (k, v)]> t)) capacity (ii + 1)
      end
  end.

Definition opal_hash_table_remove_elt_at (ht : table) (ii : Z) : option (status * table) :=
  elt ← ht_table ht !! Z.to_nat ii;
  match elt with
  | None => Some (OPAL_ERROR, ht)
  | Some _ =>
      t ← reinsert (2 * Z.to_nat (ht_capacity ht)) (<[Z.to_nat ii := None]> (ht_table ht)) (ht_capacity ht) (ii + 1);
      Some (OPAL_SUCCESS, with_table ht t (wrap 64 (ht_size ht - 1)))
  end.

(** [inr] is the value, [inl] the error. *)
Definition get_value (ht : table) (key : K) : option (status + V) :=
  '(_, elt) ← scan (ht_table ht) (ht_capacity ht) key;
  Some (match elt with None => inl OPAL_ERR_NOT_FOUND | Some (_, v) => inr v end).

Definition set_value (ok : bool) (ht : table) (key : K) (value : V) : option (status * table) :=
  '(ii, elt) ← scan (ht_table ht) (ht_capacity ht) key;
  match elt with
  | None =>
      let ht := with_table ht (<[Z.to_nat ii := Some (key, value)]> (ht_table ht)) (wrap 64 (ht_size ht + 1)) in
      if ht_growth_trigger ht <=? ht_size ht then opal_hash_grow ok ht else Some (OPAL_SUCCESS, ht)
  | Some (k, _) => Some (OPAL_SUCCESS, with_table ht (<[Z.to_nat ii := Some (k, value)]> (ht_table ht)) (ht_size ht))
  end.

Definition remove_value (ht : table) (key : K) : option (status * table) :=
  '(ii, elt) ← scan (ht_table ht) (ht_capacity ht) key;
  match elt with
  | None => Some (OPAL_ERR_NOT_FOUND, ht)
  | Some _ => opal_hash_table_remove_elt_at ht ii
  end.

(** ** Traversal *)

(** The first valid element at index [ii] or later. *)
Fixpoint next_valid (t : list slot) (ii : Z) : option (Z * (K * V)) :=
  match t with
  | [] => None
  | Some e :: _ => Some (ii, e)
  | None :: t' => next_valid t' (ii + 1)
  end.

(** [prev]: the index of the previous element, [None] for NULL; the result is
    [None] for [OPAL_ERROR]. *)
Definition opal_hash_table_get_next_elt (ht : table) (prev : option Z) : option (Z * (K * V)) :=
  let ii := match prev with None => 0 | Some p => p + 1 end in
  next_valid (drop (Z.to_nat ii) (take (Z.to_nat (ht_capacity ht)) (ht_table ht))) ii.

End table.

(** ** Keys *)

(** Byte strings: [HASH_MULTIPLIER] is 31. *)
Definition opal_hash_hash_key_ptr (key : list Z) : Z := foldl (λ hash c, wrap 64 (31 * hash + c)) 0 key.

Definition hash_int (key : Z) : Z := key.

Section keys.
Context {V : Type}.

Definition opal_hash_table_get_value_uint32 : opal_hash_table_t Z V → Z → _ := get_value hash_int.
Definition opal_hash_table_set_value_uint32 : bool → opal_hash_table_t Z V → Z → V → _ := set_value hash_int.
Definition opal_hash_table_remove_value_uint32 : opal_hash_table_t Z V → Z → _ := remove_value hash_int.
Definition opal_hash_table_get_value_uint64 : opal_hash_table_t Z V → Z → _ := get_value hash_int.
Definition opal_hash_table_set_value_uint64 : bool → opal_hash_table_t Z V → Z → V → _ := set_value hash_int.
Definition opal_hash_table_remove_value_uint64 : opal_hash_table_t Z V → Z → _ := remove_value hash_int.
Definition opal_hash_table_get_value_ptr : opal_hash_table_t (list Z) V → list Z → _ := get_value opal_hash_hash_key_ptr.
Definition opal_hash_table_set_value_ptr : bool → opal_hash_table_t (list Z) V → list Z → V → _ := set_value opal_hash_hash_key_ptr.
Definition opal_hash_table_remove_value_ptr : opal_hash_table_t (list Z) V → list Z → _ := remove_value opal_hash_hash_key_ptr.

Definition opal_hash_table_get_first_key_uint32 (ht : opal_hash_table_t Z V) : option (Z * (Z * V)) :=
  opal_hash_table_get_next_elt ht None.
Definition opal_hash_table_get_next_key_uint32 (ht : opal_hash_table_t Z V) (node : Z) : option (Z * (Z * V)) :=
  opal_hash_table_get_next_elt ht (Some node).
Definition opal_hash_table_get_first_key_uint64 (ht : opal_hash_table_t Z V) : option (Z * (Z * V)) :=
  opal_hash_table_get_next_elt ht None.
Definition opal_hash_table_get_next_key_uint64 (ht : opal_hash_table_t Z V) (node : Z) : option (Z * (Z * V)) :=
  opal_hash_table_get_next_elt ht (Some node).
Definition opal_hash_table_get_first_key_ptr (ht : opal_hash_table_t (list Z) V) : option (Z * (list Z * V)) :=
  opal_hash_table_get_next_elt ht None.
Definition opal_hash_table_get_next_key_ptr (ht : opal_hash_table_t (list Z) V) (node : Z) : option (Z * (list Z * V)) :=
  opal_hash_table_get_next_elt ht (Some node).

End keys.

End OpalHash.
