(* ===== verification/OpalHashTable.v ===== *)
(** * Linear probing

    The invariant of an open-addressing table, for any assignment [home] of keys
    to slots: every slot from the home of an element to the element is in use,
    and keys are distinct.  Inserting at the first free slot and the repair
    after a removal keep it; a scan from the home of a key finds it or shows
    that it is not there. *)

From stdpp Require Import base numbers list gmap.
From S2P Require Import Prelude OpalHash.
Import OpalHash.

Local Open Scope Z_scope.
Local Open Scope c_scope.

Module OpalHashTable.

(** ** Cyclic distance *)

Definition dist (n i j : Z) : Z := if i <=? j then j - i else j - i + n.
Definition norm (n i : Z) : Z := if i =? n then 0 else i.

Ltac cyclic := unfold dist, norm in *; repeat case_match; repeat match goal with
  | H : (_ <=? _) = true |- _ => apply Z.leb_le in H | H : (_ <=? _) = false |- _ => apply Z.leb_gt in H
  | H : (_ =? _) = true |- _ => apply Z.eqb_eq in H | H : (_ =? _) = false |- _ => apply Z.eqb_neq in H end; lia.

Section probing.
Context {K V : Type} `{EqDecision K}.
Implicit Types (t : list (option (K * V))).

Local Notation "t @ i" := (t !! Z.to_nat i) (at level 20).

(** ** Scans *)

Lemma slot_exists t n i : length t = Z.to_nat n → 0 ≤ i < n → is_Some (t @ i).
Proof. intros Hl Hi. apply lookup_lt_is_Some. lia. Qed.

Lemma probe_finds stop t n fuel i j e :
  length t = Z.to_nat n → 0 ≤ norm n i < n → 0 ≤ j < n → t @ j = Some e → stop j e = true → dist n (norm n i) j < Z.of_nat fuel →
  ∃ j' e', probe stop t n fuel i = Some (j', e') ∧ 0 ≤ j' < n ∧ t @ j' = Some e' ∧ stop j' e' = true ∧
    ∀ k e, 0 ≤ k < n → dist n (norm n i) k < dist n (norm n i) j' → t @ k = Some e → stop k e = false.
Proof.
  intros Hl Hi Hj He Hstop. revert i Hi. induction fuel as [|f IH]; intros i Hi Hd; [cyclic|].
  cbn [probe]. fold (norm n i). destruct (slot_exists t n (norm n i) Hl Hi) as [e0 E0]. rewrite E0. run.
  destruct (stop (norm n i) e0) eqn:Es.
  { exists (norm n i), e0. split_and!; try done; [lia..|]. intros k e' Hk Hd'. cyclic. }
  assert (j ≠ norm n i) as Hne by congruence.
  assert (0 ≤ norm n (norm n i + 1) < n) as Hi' by cyclic.
  assert (∀ k, 0 ≤ k < n → k ≠ norm n i → dist n (norm n (norm n i + 1)) k = dist n (norm n i) k - 1) as Hstep by (intros; cyclic).
  destruct (IH (norm n i + 1) Hi') as (j' & e' & Ep & Hj' & Ej' & Hs' & Hnear); [rewrite Hstep by done; lia|].
  exists j', e'. split_and!; try done; [lia..|]. intros k e1 Hk Hd' Ek. destruct (decide (k = norm n i)) as [->|Hk'].
  - congruence.
  - destruct (decide (j' = norm n i)) as [->|Hj'']; [congruence|]. apply Hnear; [done| |done]. rewrite !Hstep by done. lia.
Qed.

(** ** Entries *)

Definition entries t : list (K * V) := omap id t.

Lemma elem_of_entries t x : x ∈ entries t ↔ Some x ∈ t.
Proof. unfold entries. rewrite list_elem_of_omap. split; [intros (y & Hy & E); cbn in E; by subst y|]. by exists (Some x). Qed.

Lemma entries_app t1 t2 : entries (t1 ++ t2) = entries t1 ++ entries t2.
Proof. apply omap_app. Qed.

Lemma entries_update t (i : nat) e x :
  t !! i = Some e → from_option (λ y, [y]) [] e ++ entries (<[i := x]> t) ≡ₚ from_option (λ y, [y]) [] x ++ entries t.
Proof.
  intros Hi. rewrite <- (take_drop_middle t i e Hi) at 2. rewrite insert_take_drop by (by apply lookup_lt_Some in Hi).
  rewrite !entries_app. change (x :: drop (S i) t) with ([x] ++ drop (S i) t). change (e :: drop (S i) t) with ([e] ++ drop (S i) t).
  rewrite !entries_app. destruct e, x; cbn; solve_Permutation.
Qed.

Lemma entries_replace t (i : nat) e x :
  t !! i = Some e → ∃ r, entries t ≡ₚ from_option (λ y, [y]) [] e ++ r ∧ entries (<[i := x]> t) ≡ₚ from_option (λ y, [y]) [] x ++ r.
Proof.
  intros Hi. exists (entries (<[i := None]> t)). pose proof (entries_update t i e None Hi) as H1. split; [by rewrite H1|].
  assert (<[i := None]> t !! i = Some None) as E by (apply list_lookup_insert_eq; by apply lookup_lt_Some in Hi).
  pose proof (entries_update _ _ _ x E) as H2. by rewrite list_insert_insert_eq in H2.
Qed.

Lemma entries_length t : (length (entries t) ≤ length t)%nat.
Proof. unfold entries. induction t as [|[x|] t IH]; cbn in *; lia. Qed.

(** A table with fewer entries than slots has a free one. *)
Lemma free_slot t : (length (entries t) < length t)%nat → ∃ i : nat, t !! i = Some None.
Proof.
  induction t as [|[x|] t IH]; cbn; intros Hl; [lia| |by exists 0%nat].
  destruct IH as [i Hi]; [unfold entries; lia|]. by exists (S i).
Qed.

Lemma entries_replicate n : entries (replicate n None) = [].
Proof. induction n; done. Qed.

(** ** The invariant *)

Section home.
Context (hash_elt : K → Z) (n : Z) (Hn : 0 < n).

Definition home (k : K) : Z := hash_elt k `mod` n.

Lemma home_index k : 0 ≤ home k < n.
Proof. apply Z.mod_pos_bound, Hn. Qed.

Definition index (i : Z) : Prop := 0 ≤ i < n.

(** Slot [j] is passed on the way from the home of [k] to [i]. *)
Definition on_way (k : K) (j i : Z) : Prop := dist n (home k) j < dist n (home k) i.

#[global] Instance on_way_dec k j i : Decision (on_way k j i).
Proof. unfold on_way. apply _. Defined.

Record table_ok t : Prop := {
  k_len : length t = Z.to_nat n;
  k_way : ∀ i k v j, index i → index j → t @ i = Some (Some (k, v)) → on_way k j i → t @ j ≠ Some None;
  k_keys : NoDup (entries t).*1;
}.

Lemma lookup_update t i j x :
  length t = Z.to_nat n → index i → index j → <[Z.to_nat i := x]> t @ j = if decide (i = j) then Some x else t @ j.
Proof.
  unfold index. intros Hl Hi Hj. case_decide as E.
  - subst. apply list_lookup_insert_eq. lia.
  - apply list_lookup_insert_ne. lia.
Qed.

(** Entries have one slot. *)
Lemma key_slot t i j k v w :
  NoDup (entries t).*1 → t @ i = Some (Some (k, v)) → t @ j = Some (Some (k, w)) → Z.to_nat i = Z.to_nat j.
Proof.
  intros Hnd Hi Hj. destruct (decide (Z.to_nat i = Z.to_nat j)) as [|Hne]; [done|]. exfalso.
  pose proof (entries_update t _ _ None Hi) as Hp. cbn in Hp. rewrite <- Hp in Hnd. cbn in Hnd. apply NoDup_cons in Hnd as [Hk _].
  apply Hk. apply (list_elem_of_fmap_2 fst _ (k, w)). apply elem_of_entries, list_elem_of_lookup. exists (Z.to_nat j).
  by rewrite list_lookup_insert_ne.
Qed.

Lemma insert_ok t j k v :
  table_ok t → index j → t @ j = Some None → k ∉ (entries t).*1 → (∀ i, index i → on_way k i j → t @ i ≠ Some None) →
  table_ok (<[Z.to_nat j := Some (k, v)]> t).
Proof.
  intros [Hl Hw Hk] Hj Ej Hnew Hway. split.
  - by rewrite length_insert.
  - intros i k' v' j' Hi Hj'. rewrite !lookup_update by done. destruct (decide (j = j')) as [|Hne]; [done|].
    destruct (decide (j = i)) as [<-|Hne'].
    + intros [= <- <-] Hd. by apply Hway.
    + intros Ei. by apply (Hw i k' v').
  - pose proof (entries_update t _ _ (Some (k, v)) Ej) as Hp. cbn in Hp. rewrite Hp. cbn. by apply NoDup_cons.
Qed.

Lemma replace_ok t j k v w :
  table_ok t → index j → t @ j = Some (Some (k, v)) → table_ok (<[Z.to_nat j := Some (k, w)]> t).
Proof.
  intros [Hl Hw Hk] Hj Ej. split.
  - by rewrite length_insert.
  - intros i k' v' j' Hi Hj'. rewrite !lookup_update by done. destruct (decide (j = j')) as [|Hne]; [done|].
    destruct (decide (j = i)) as [<-|Hne'].
    + intros [= <- <-]. by apply (Hw j k v).
    + intros Ei. by apply (Hw i k' v').
  - pose proof (entries_update t _ _ (Some (k, w)) Ej) as Hp. cbn in Hp. apply (fmap_Permutation fst) in Hp. cbn in Hp.
    apply Permutation_cons_inv in Hp. by rewrite Hp.
Qed.

(** A scan for a key finds it or the slot it would have. *)
Lemma scan_ok t key :
  table_ok t → (length (entries t) < length t)%nat →
  ∃ j e, probe (stop_at key) t n (Z.to_nat n) (home key) = Some (j, e) ∧ index j ∧ t @ j = Some e ∧
    match e with
    | Some (k, _) => k = key
    | None => (key ∉ (entries t).*1) ∧ ∀ i, index i → on_way key i j → t @ i ≠ Some None
    end.
Proof.
  intros [Hl Hw Hk] Hfree. destruct (free_slot t Hfree) as [f Hf]. pose proof (home_index key).
  assert (norm n (home key) = home key) as En by cyclic.
  assert (index (Z.of_nat f)) as Hfi by (apply lookup_lt_Some in Hf; unfold index; lia).
  destruct (probe_finds (stop_at key) t n (Z.to_nat n) (home key) (Z.of_nat f) None) as (j & e & Ep & Hj & Ej & Hs & Hnear);
    rewrite ?En; try done; [by rewrite Nat2Z.id|unfold index in *; cyclic|].
  rewrite En in Hnear. exists j, e. split_and!; [done|unfold index in *; lia..|done|]. destruct e as [[k v]|].
  - by apply bool_decide_eq_true in Hs.
  - split.
    + intros ([k v] & -> & Hin)%list_elem_of_fmap. apply elem_of_entries, list_elem_of_lookup in Hin as [i Ei].
      assert (index (Z.of_nat i)) as Hi by (apply lookup_lt_Some in Ei; unfold index; lia). rewrite <- (Nat2Z.id i) in Ei. cbn in *.
      assert (Z.of_nat i ≠ j) by (intros <-; congruence).
      destruct (decide (on_way k j (Z.of_nat i))) as [Hd|Hd]; [by destruct (Hw _ k v j Hi Hj Ei Hd)|].
      assert (dist n (home k) (Z.of_nat i) < dist n (home k) j) as Hlt by (unfold on_way, index in *; cyclic).
      specialize (Hnear (Z.of_nat i) _ Hi Hlt Ei). by apply bool_decide_eq_false in Hnear.
    + intros i Hi Hd Ei. specialize (Hnear i None Hi Hd Ei). done.
Qed.

(** The first free slot for a key. *)
Lemma free_ok t k :
  table_ok t → (length (entries t) < length t)%nat →
  ∃ j, probe empty_slot t n (Z.to_nat n) (home k) = Some (j, None) ∧ index j ∧ t @ j = Some None ∧
    ∀ i, index i → on_way k i j → t @ i ≠ Some None.
Proof.
  intros [Hl Hw Hk] Hfree. destruct (free_slot t Hfree) as [f Hf]. pose proof (home_index k).
  assert (norm n (home k) = home k) as En by cyclic.
  assert (index (Z.of_nat f)) as Hfi by (apply lookup_lt_Some in Hf; unfold index; lia).
  destruct (probe_finds empty_slot t n (Z.to_nat n) (home k) (Z.of_nat f) None) as (j & e & Ep & Hj & Ej & Hs & Hnear);
    rewrite ?En; try done; [by rewrite Nat2Z.id|unfold index in *; cyclic|].
  rewrite En in Hnear. destruct e; [done|]. exists j. split_and!; [done|unfold index in *; lia..|done|].
  intros i Hi Hd Ei. by specialize (Hnear i None Hi Hd Ei).
Qed.

Lemma rehash_ok old new :
  table_ok new → NoDup (entries old ++ entries new).*1 → (length (entries old) + length (entries new) < length new)%nat →
  ∃ t, rehash_all hash_elt old new n = Some t ∧ table_ok t ∧ entries t ≡ₚ entries old ++ entries new.
Proof.
  revert new. induction old as [|[[k v]|] old IH]; intros new Hok Hnd Hlen; cbn [rehash_all].
  - by exists new.
  - cbn in Hnd, Hlen. fold (entries old) in Hnd, Hlen. apply NoDup_cons in Hnd as [Hk Hnd].
    destruct (free_ok new k Hok) as (j & Ep & Hj & Ej & Hway); [lia|]. fold (home k). rewrite Ep. run.
    pose proof (entries_update new _ _ (Some (k, v)) Ej) as Hp. cbn in Hp.
    destruct (IH (<[Z.to_nat j := Some (k, v)]> new)) as (t & E & Hok' & Hent).
    + apply insert_ok; try done. intros Hin. apply Hk. rewrite fmap_app. apply elem_of_app. by right.
    + rewrite Hp, <- Permutation_middle. cbn. by apply NoDup_cons.
    + rewrite Hp, length_insert. cbn. lia.
    + exists t. split; [done|]. split; [done|]. rewrite Hent, Hp, <- Permutation_middle. done.
  - by apply IH.
Qed.

(** ** Removal *)

(** While the followers of a removed element are put back: [g] is the hole,
    [p] the slot looked at, [e] a free slot further on. *)
Record mending t (g p e : Z) : Prop := {
  m_len : length t = Z.to_nat n;
  m_idx : index g ∧ index p ∧ index e;
  m_free : t @ g = Some None ∧ t @ e = Some None;
  m_order : 0 < dist n g p ≤ dist n g e;
  m_way : ∀ i k v j, index i → index j → t @ i = Some (Some (k, v)) → on_way k j i → j ≠ g → t @ j ≠ Some None;
  m_done : ∀ i k v, index i → t @ i = Some (Some (k, v)) → dist n g i < dist n g p → ¬ on_way k g i;
  m_keys : NoDup (entries t).*1;
}.

Lemma mended t g p e : mending t g p e → t @ p = Some None → table_ok t.
Proof.
  intros [Hl (Hg & Hp & He) [Eg Ee] Ho Hw Hd Hk] Ep. split; [done| |done].
  intros i k v j Hi Hj Ei Hway. destruct (decide (j = g)) as [->|Hne]; [|by apply (Hw i k v)].
  exfalso. pose proof (home_index k). destruct (decide (dist n g i < dist n g p)) as [Hlt|Hge]; [by apply (Hd i k v)|].
  assert (i ≠ p) by congruence. assert (p ≠ g) by (unfold index in *; cyclic).
  apply (Hw i k v p Hi Hp Ei); [|done|done]. unfold on_way, index in *. cyclic.
Qed.

Lemma mending_stay t g p e k v :
  mending t g p e → t @ p = Some (Some (k, v)) → ¬ on_way k g p → mending t g (norm n (p + 1)) e.
Proof.
  intros [Hl (Hg & Hp & He) [Eg Ee] Ho Hw Hd Hk] Ep Hno. assert (p ≠ e) by congruence. assert (p ≠ g) by congruence.
  assert (index (norm n (p + 1))) by (unfold index in *; cyclic).
  assert (dist n g (norm n (p + 1)) = dist n g p + 1) as Ed by (unfold index in *; cyclic).
  split; try done; [unfold index in *; cyclic|]. intros i k' v' Hi Ei Hlt. rewrite Ed in Hlt.
  destruct (decide (i = p)) as [->|Hne]; [congruence|]. apply (Hd i k' v' Hi Ei). unfold index in *. cyclic.
Qed.

Lemma mending_move t g p e k v :
  mending t g p e → t @ p = Some (Some (k, v)) → on_way k g p →
  let t' := <[Z.to_nat p := None]> (<[Z.to_nat g := Some (k, v)]> t) in
  mending t' p (norm n (p + 1)) e ∧ entries t' ≡ₚ entries t.
Proof.
  intros [Hl (Hg & Hp & He) [Eg Ee] Ho Hw Hd Hk] Ep Hway t'. assert (p ≠ e) by congruence. assert (p ≠ g) by congruence.
  assert (g ≠ e) by (unfold index in *; cyclic). pose proof (home_index k).
  assert (index (norm n (p + 1))) by (unfold index in *; cyclic).
  assert (∀ j, index j → t' @ j = if decide (p = j) then Some None else if decide (g = j) then Some (Some (k, v)) else t @ j) as Ht'.
  { intros j Hj. unfold t'. rewrite lookup_update; [|by rewrite length_insert|done|done]. case_decide; [done|]. by apply lookup_update. }
  assert (entries t' ≡ₚ entries t) as Hent.
  { pose proof (entries_update t _ _ (Some (k, v)) Eg) as P1. cbn in P1.
    assert (<[Z.to_nat g := Some (k, v)]> t @ p = Some (Some (k, v))) as E by (rewrite lookup_update by done; by rewrite decide_False).
    pose proof (entries_update _ _ _ None E) as P2. cbn in P2. fold t' in P2. rewrite P1 in P2. by apply Permutation_cons_inv in P2. }
  split; [|done]. split.
  - unfold t'. by rewrite !length_insert.
  - done.
  - rewrite !Ht' by done. by rewrite decide_True, !decide_False by done.
  - unfold index in *. cyclic.
  - intros i k' v' j Hi Hj. rewrite !Ht' by done. intros Ei Hw' Hne. rewrite (decide_False (P := p = j)) by done.
    destruct (decide (g = j)) as [|Hgj]; [done|]. destruct (decide (p = i)) as [|Hpi]; [done|].
    destruct (decide (g = i)) as [<-|Hgi].
    + injection Ei as <- <-. apply (Hw p k v); try done. unfold on_way in *. lia.
    + by apply (Hw i k' v').
  - intros i k' v' Hi. rewrite Ht' by done. intros Ei Hlt. exfalso. destruct (decide (p = i)) as [|Hpi]; [done|].
    unfold index in *. cyclic.
  - by rewrite Hent.
Qed.

Lemma reinsert_ok fuel t g ii e :
  mending t g (norm n ii) e → dist n (norm n ii) e < Z.of_nat fuel →
  ∃ t', reinsert hash_elt fuel t n ii = Some t' ∧ table_ok t' ∧ entries t' ≡ₚ entries t.
Proof.
  revert t g ii. induction fuel as [|f IH]; intros t g ii Hm Hf; pose proof Hm as [Hl (Hg & Hp & He) [Eg Ee] Ho Hw _ _];
    [unfold index in *; cyclic|].
  cbn [reinsert]. fold (norm n ii). set (p := norm n ii) in *. destruct (slot_exists t n p Hl Hp) as [[[k v]|] Ep]; rewrite Ep; run.
  2:{ exists t. split; [done|]. split; [by eapply mended|done]. }
  assert (p ≠ e) by congruence. pose proof (home_index k). assert (norm n (home k) = home k) as En by cyclic.
  assert (dist n (norm n (p + 1)) e = dist n p e - 1) as Ed by (unfold index in *; cyclic).
  destruct (probe_finds (stop_home p) t n (Z.to_nat n) (home k) p (Some (k, v))) as (j & x & Epr & Hj & Ej & Hs & Hnear);
    rewrite ?En; try done; [unfold stop_home; by rewrite Z.eqb_refl|unfold index in *; cyclic|].
  rewrite En in Hnear. fold (home k). rewrite Epr. run. destruct (Z.eqb_spec j p) as [->|Hne].
  - apply (IH t g (p + 1)); [|lia]. eapply mending_stay; [done|exact Ep|]. intros Hway.
    specialize (Hnear g None Hg Hway Eg). unfold stop_home in Hnear. by rewrite orb_true_r in Hnear.
  - unfold stop_home in Hs. rewrite (proj2 (Z.eqb_neq _ _)) in Hs by done. destruct x; [done|].
    assert (dist n (home k) j < dist n (home k) p) as Hlt.
    { destruct (decide (dist n (home k) p < dist n (home k) j)) as [Hlt|Hge]; [|unfold index in *; cyclic].
      specialize (Hnear p _ Hp Hlt Ep). unfold stop_home in Hnear. by rewrite Z.eqb_refl in Hnear. }
    assert (j = g) as -> by (destruct (decide (j = g)); [done|]; by destruct (Hw p k v j Hp Hj Ep Hlt)).
    destruct (mending_move t g p e k v Hm Ep Hlt) as [Hm' Hent].
    destruct (IH _ p (p + 1) Hm') as (t' & E & Hok & Hent'); [lia|]. exists t'. split; [done|]. split; [done|]. by rewrite Hent'.
Qed.

Lemma remove_ok t i k v :
  table_ok t → index i → t @ i = Some (Some (k, v)) → (length (entries t) < length t)%nat →
  ∃ t', reinsert hash_elt (2 * Z.to_nat n) (<[Z.to_nat i := None]> t) n (i + 1) = Some t' ∧ table_ok t' ∧ (k, v) :: entries t' ≡ₚ entries t.
Proof.
  intros [Hl Hw Hk] Hi Ei Hfree. destruct (free_slot t Hfree) as [f Hf].
  assert (index (Z.of_nat f)) as Hfi by (apply lookup_lt_Some in Hf; unfold index; lia). rewrite <- (Nat2Z.id f) in Hf.
  set (e := Z.of_nat f) in *. assert (i ≠ e) by congruence.
  pose proof (entries_update t _ _ None Ei) as Hp. cbn in Hp.
  destruct (reinsert_ok (2 * Z.to_nat n) (<[Z.to_nat i := None]> t) i (i + 1) e) as (t' & E & Hok & Hent).
  - split; rewrite ?length_insert, ?lookup_update by done.
    + done.
    + unfold index in *; cyclic.
    + by rewrite decide_True, decide_False.
    + unfold index in *; cyclic.
    + intros i' k' v' j Hi' Hj. rewrite !lookup_update by done. destruct (decide (i = i')); [done|]. intros Ei' Hway Hne.
      rewrite decide_False by done. by apply (Hw i' k' v').
    + intros i' k' v' Hi'. rewrite lookup_update by done. destruct (decide (i = i')); [done|]. intros _ Hlt. unfold index in *. cyclic.
    + rewrite <- Hp in Hk. cbn in Hk. by apply NoDup_cons in Hk as [_ ?].
  - unfold index in *; cyclic.
  - exists t'. split; [done|]. split; [done|]. by rewrite Hent.
Qed.

End home.

End probing.

End OpalHashTable.
