(* ===== verification/OpalHashSpec.v ===== *)
(** * OPAL hash tables are finite maps

    [ht_inv] relates a table with the default density and growth to a finite
    map; the operations keep it and give the results of the map
    ([hash_table_refines_map]), and a traversal visits every entry once.  When
    growing fails an insertion reports an error but has stored the entry; a
    table that is full as a result makes the next search run for ever. *)

From stdpp Require Import base numbers list gmap.
From S2P Require Import Prelude OpalHash OpalHashTable.
Import OpalHash OpalHashTable.

Local Open Scope Z_scope.
Local Open Scope c_scope.

Module OpalHashSpec.

Lemma round_capacity_bounds c : 0 ≤ c < 2 ^ 62 → c < opal_hash_round_capacity_up c ≤ c + 30.
Proof.
  intros Hc. unfold opal_hash_round_capacity_up. rewrite (wrap_small _ (c + 29)) by lia.
  pose proof (Z.div_mod (c + 29) 30 ltac:(lia)). pose proof (Z.mod_pos_bound (c + 29) 30 ltac:(lia)).
  rewrite wrap_small by lia. lia.
Qed.

Ltac ht_fields := cbn [with_table opal_hash_table_construct ht_capacity ht_table ht_size ht_growth_trigger ht_density_numer
  ht_density_denom ht_growth_numer ht_growth_denom].

Section spec.
Context {K V : Type} `{Countable K} (hash_elt : K → Z).

(** [b] bounds the number of entries, and through it the capacity. *)
Record ht_inv (b : Z) (ht : opal_hash_table_t K V) (m : gmap K V) : Prop := {
  h_cap : 0 < ht_capacity ht ≤ 4 * b + 64;
  h_ok : table_ok hash_elt (ht_capacity ht) (ht_table ht);
  h_map : m = list_to_map (entries (ht_table ht));
  h_size : ht_size ht = Z.of_nat (length (entries (ht_table ht)));
  h_free : ht_size ht < ht_capacity ht;
  h_bound : 0 ≤ b ≤ 2 ^ 50;
  h_trigger : ht_growth_trigger ht = ht_capacity ht / 2;
  h_params : ht_density_numer ht = 1 ∧ ht_density_denom ht = 2 ∧ ht_growth_numer ht = 2 ∧ ht_growth_denom ht = 1;
}.

Lemma size_entries (t : list (option (K * V))) :
  NoDup (entries t).*1 → size (list_to_map (entries t) : gmap K V) = length (entries t).
Proof. intros Hnd. rewrite <- length_map_to_list. by rewrite map_to_list_to_map. Qed.

Lemma init_inv b est :
  0 ≤ est ≤ b → b ≤ 2 ^ 50 →
  ∃ ht, opal_hash_table_init true (opal_hash_table_construct (K := K) (V := V)) est = Some (OPAL_SUCCESS, ht) ∧ ht_inv b ht ∅.
Proof.
  intros He Hb. unfold opal_hash_table_init, opal_hash_table_init2. change (wrap 64 1) with 1. change (wrap 64 2) with 2. cbn [Z.eqb negb].
  rewrite (wrap_small 64 (est * 2)), Z.div_1_r by lia. pose proof (round_capacity_bounds (est * 2) ltac:(lia)) as Hr.
  set (c := opal_hash_round_capacity_up (est * 2)) in *. unfold calloc, max_capacity. rewrite (proj2 (Z.leb_le c _)) by lia. cbn [andb].
  eexists. split; [done|]. split; ht_fields; rewrite ?entries_replicate; try done; try lia.
  - split.
    + by rewrite length_replicate.
    + intros i k v j _ _ E. by apply lookup_replicate_1 in E as [? _].
    + rewrite entries_replicate. apply NoDup_nil_2.
  - rewrite Z.mul_1_r, wrap_small by lia. done.
Qed.

(** ** Single operations *)

Lemma inv_free b ht m : ht_inv b ht m → (length (entries (ht_table ht)) < length (ht_table ht))%nat.
Proof. intros []. rewrite (k_len _ _ _ h_ok0). lia. Qed.

Lemma lookup_entries b ht m k v : ht_inv b ht m → m !! k = Some v ↔ (k, v) ∈ entries (ht_table ht).
Proof. intros []. subst m. rewrite elem_of_list_to_map; [done|]. apply h_ok0. Qed.

Lemma scan_inv b ht m key :
  ht_inv b ht m →
  ∃ j e, scan hash_elt (ht_table ht) (ht_capacity ht) key = Some (j, e) ∧ 0 ≤ j < ht_capacity ht ∧
    ht_table ht !! Z.to_nat j = Some e ∧
    match e with
    | Some (k, v) => k = key ∧ m !! key = Some v
    | None => m !! key = None ∧ (key ∉ (entries (ht_table ht)).*1) ∧
        ∀ i, index (ht_capacity ht) i → on_way hash_elt (ht_capacity ht) key i j → ht_table ht !! Z.to_nat i ≠ Some None
    end.
Proof.
  intros Hinv. pose proof (h_cap _ _ _ Hinv) as Hc.
  destruct (scan_ok hash_elt (ht_capacity ht) (proj1 Hc) (ht_table ht) key (h_ok _ _ _ Hinv) (inv_free _ _ _ Hinv))
    as (j & e & Ep & Hj & Ej & He).
  unfold scan. rewrite (proj2 (Z.ltb_lt _ _)) by lia. exists j, e. split_and!; [exact Ep|apply Hj..|done|].
  destruct e as [[k v]|].
  - subst k. split; [done|]. apply (lookup_entries b ht m); [done|]. apply elem_of_entries, list_elem_of_lookup. eauto.
  - destruct He as [Hk Hw]. split; [|done]. destruct (m !! key) as [v|] eqn:E; [|done]. exfalso. apply Hk.
    apply (lookup_entries b ht m) in E; [|done]. by apply (list_elem_of_fmap_2 fst _ (key, v)).
Qed.

Lemma get_value_ok b ht m key :
  ht_inv b ht m → get_value hash_elt ht key = Some (match m !! key with Some v => inr v | None => inl OPAL_ERR_NOT_FOUND end).
Proof.
  intros Hinv. destruct (scan_inv b ht m key Hinv) as (j & e & E & _ & _ & He). unfold get_value. rewrite E. run.
  destruct e as [[k v]|]; [destruct He as [_ ->]|destruct He as [-> _]]; done.
Qed.

(** A larger table for the same entries. *)
Lemma grow_inv b ht m :
  0 < ht_capacity ht ≤ 4 * b + 64 → 0 ≤ b ≤ 2 ^ 50 → table_ok hash_elt (ht_capacity ht) (ht_table ht) →
  m = list_to_map (entries (ht_table ht)) → ht_size ht = Z.of_nat (length (entries (ht_table ht))) →
  ht_capacity ht / 2 ≤ ht_size ht ≤ b → ht_size ht ≤ ht_capacity ht →
  ht_density_numer ht = 1 ∧ ht_density_denom ht = 2 ∧ ht_growth_numer ht = 2 ∧ ht_growth_denom ht = 1 →
  ∃ ht', opal_hash_grow hash_elt true ht = Some (OPAL_SUCCESS, ht') ∧ ht_inv b ht' m.
Proof.
  intros Hc Hb Hok Hm Hs Htr Hle (P1 & P2 & P3 & P4). unfold opal_hash_grow. rewrite P1, P2, P3, P4.
  change (wrap 64 1) with 1. change (wrap 64 2) with 2. cbn [Z.eqb negb]. rewrite (wrap_small 64 (ht_capacity ht * 2)), Z.div_1_r by lia.
  pose proof (round_capacity_bounds (ht_capacity ht * 2) ltac:(lia)) as Hr. set (c := opal_hash_round_capacity_up (ht_capacity ht * 2)) in *.
  unfold calloc, max_capacity. rewrite (proj2 (Z.leb_le c _)) by lia. cbn [andb].
  assert (table_ok hash_elt c (replicate (Z.to_nat c) (None : option (K * V)))) as Hnew.
  { split; [by rewrite length_replicate| |rewrite entries_replicate; apply NoDup_nil_2].
    intros i k v j _ _ E. by apply lookup_replicate_1 in E as [? _]. }
  destruct (rehash_ok hash_elt c ltac:(lia) (ht_table ht) _ Hnew) as (t & E & Hok' & Hent).
  { rewrite entries_replicate, app_nil_r. apply Hok. }
  { rewrite entries_replicate, length_replicate. cbn. lia. }
  rewrite E. run. eexists. split; [done|]. rewrite entries_replicate, app_nil_r in Hent.
  split; ht_fields; rewrite ?Hent; try done; try lia.
  - pose proof (Z.div_mod (ht_capacity ht) 2 ltac:(lia)). pose proof (Z.mod_pos_bound (ht_capacity ht) 2 ltac:(lia)). lia.
  - rewrite Hm. symmetry. apply list_to_map_proper; [apply Hok'|done].
  - rewrite Z.mul_1_r, wrap_small by lia. done.
Qed.

(** The map of a table in which the value of a key is set. *)
Lemma map_set (l r : list (K * V)) l' key v (e : option (K * V)) :
  NoDup l.*1 → NoDup l'.*1 → l ≡ₚ from_option (λ y, [y]) [] e ++ r → l' ≡ₚ (key, v) :: r → (∀ x, e = Some x → x.1 = key) →
  (list_to_map l' : gmap K V) = <[key := v]> (list_to_map l).
Proof.
  intros Hl Hl' El El' He. rewrite (list_to_map_proper _ _ Hl El), (list_to_map_proper _ _ Hl' El'). cbn.
  destruct e as [[k w]|]; cbn; [|done]. specialize (He _ eq_refl). cbn in He. subst k. by rewrite insert_insert_eq.
Qed.

Lemma set_value_ok b ht m key v :
  ht_inv b ht m → ht_size ht < b → ∃ ht', set_value hash_elt true ht key v = Some (OPAL_SUCCESS, ht') ∧ ht_inv b ht' (<[key := v]> m).
Proof.
  intros Hinv Hsz. destruct (scan_inv b ht m key Hinv) as (j & e & E & Hj & Ej & He). unfold set_value. rewrite E. run.
  destruct Hinv as [Hc Hok Hm Hs Hf Hb Ht Hp]. destruct (entries_replace _ _ _ (Some (key, v)) Ej) as (r & P1 & P2).
  destruct e as [[k w]|]; cbn in P1, P2.
  - destruct He as [-> He]. pose proof (replace_ok hash_elt (ht_capacity ht) (proj1 Hc) _ j key w v Hok Hj Ej) as Hok'.
    eexists. split; [done|]. split; cbn; try done.
    + rewrite Hm. symmetry. eapply (map_set _ r _ key v (Some (key, w))); try done; [apply Hok|apply Hok'|by intros x [= <-]].
    + rewrite Hs, P1, P2. done.
  - destruct He as (He & Hk & Hw). pose proof (insert_ok hash_elt (ht_capacity ht) (proj1 Hc) _ j key v Hok Hj Ej Hk Hw) as Hok'.
    assert (list_to_map (entries (<[Z.to_nat j := Some (key, v)]> (ht_table ht))) = <[key := v]> m) as Hm'.
    { rewrite Hm. eapply (map_set _ r _ key v None); try done; [apply Hok|apply Hok']. }
    assert (wrap 64 (ht_size ht + 1) = Z.of_nat (length (entries (<[Z.to_nat j := Some (key, v)]> (ht_table ht))))) as Hs'.
    { rewrite wrap_small by lia. rewrite Hs, P1, P2. cbn. lia. }
    cbn [with_table ht_size ht_growth_trigger]. rewrite Ht. destruct (Z.leb_spec (ht_capacity ht / 2) (wrap 64 (ht_size ht + 1))) as [Hg|Hg].
    + apply grow_inv; cbn; try done. all: rewrite wrap_small in * by lia; lia.
    + eexists. split; [done|]. split; cbn; try done; try lia.
      pose proof (Z.div_mod (ht_capacity ht) 2 ltac:(lia)). pose proof (Z.mod_pos_bound (ht_capacity ht) 2 ltac:(lia)). lia.
Qed.

Lemma remove_value_ok b ht m key :
  ht_inv b ht m → ∃ ht', remove_value hash_elt ht key =
    Some (match m !! key with Some _ => OPAL_SUCCESS | None => OPAL_ERR_NOT_FOUND end, ht') ∧ ht_inv b ht' (delete key m).
Proof.
  intros Hinv. destruct (scan_inv b ht m key Hinv) as (j & e & E & Hj & Ej & He). unfold remove_value. rewrite E. run.
  destruct e as [[k w]|].
  - destruct He as [-> ->]. unfold opal_hash_table_remove_elt_at. rewrite Ej. run.
    pose proof (inv_free _ _ _ Hinv) as Hfree. destruct Hinv as [Hc Hok Hm Hs Hf Hb Ht Hp].
    destruct (remove_ok hash_elt (ht_capacity ht) (proj1 Hc) _ j key w Hok Hj Ej Hfree) as (t' & Er & Hok' & Hent).
    rewrite Er. run. eexists. split; [done|]. assert (length (entries (ht_table ht)) = S (length (entries t'))) as Hl by (by rewrite <- Hent).
    split; ht_fields; try done.
    + rewrite Hm, (list_to_map_proper _ _ (k_keys _ _ _ Hok) (symmetry Hent)). cbn. rewrite delete_insert_id; [done|].
      apply not_elem_of_list_to_map. pose proof (k_keys _ _ _ Hok) as Hnd. rewrite <- Hent in Hnd. cbn in Hnd.
      by apply NoDup_cons in Hnd as [? _].
    + rewrite wrap_small by lia. lia.
    + rewrite wrap_small by lia. lia.
  - destruct He as (-> & _). eexists. split; [done|]. assert (delete key m = m) as ->; [|done].
    apply delete_id. destruct (scan_inv b ht m key Hinv) as (j' & e' & E' & _ & _ & He'). rewrite E in E'. simplify_eq. apply He'.
Qed.

Lemma remove_all_ok b ht m : ht_inv b ht m → ht_inv b (opal_hash_table_remove_all ht) ∅.
Proof.
  intros [Hc Hok Hm Hs Hf Hb Ht Hp]. unfold opal_hash_table_remove_all.
  split; ht_fields; rewrite ?entries_replicate; try done; try lia. split.
  - by rewrite length_replicate.
  - intros i k v j _ _ E. by apply lookup_replicate_1 in E as [? _].
  - rewrite entries_replicate. apply NoDup_nil_2.
Qed.

(** ** Traversal *)

(** The entries in the order in which repeated calls give them. *)
Fixpoint traverse (fuel : nat) (ht : opal_hash_table_t K V) (prev : option Z) : option (list (K * V)) :=
  match fuel with
  | O => None
  | S f =>
      match opal_hash_table_get_next_elt ht prev with
      | None => Some []
      | Some (i, e) => rest ← traverse f ht (Some i); Some (e :: rest)
      end
  end.

Lemma next_valid_spec (l : list (option (K * V))) ii :
  match next_valid l ii with
  | None => entries l = []
  | Some (j, e) => ∃ k : nat, j = ii + Z.of_nat k ∧ l !! k = Some (Some e) ∧ entries l = e :: entries (drop (S k) l)
  end.
Proof.
  revert ii. induction l as [|[x|] l IH]; intros ii; cbn [next_valid]; [done| |].
  - exists 0%nat. split_and!; [lia|done|]. cbn. by rewrite drop_0.
  - specialize (IH (ii + 1)). destruct (next_valid l (ii + 1)) as [[j e]|]; [|done]. destruct IH as (k & -> & Hk & E).
    exists (S k). split_and!; [lia|done|]. done.
Qed.

(** The node from which a traversal reaches the slots from [i] on. *)
Definition before (i : nat) : option Z := match i with O => None | S p => Some (Z.of_nat p) end.

Lemma next_elt_spec (ht : opal_hash_table_t K V) (i : nat) :
  length (ht_table ht) = Z.to_nat (ht_capacity ht) →
  match opal_hash_table_get_next_elt ht (before i) with
  | None => entries (drop i (ht_table ht)) = []
  | Some (j, e) => ∃ k : nat, j = Z.of_nat k ∧ (i ≤ k)%nat ∧ ht_table ht !! k = Some (Some e) ∧
                     entries (drop i (ht_table ht)) = e :: entries (drop (S k) (ht_table ht))
  end.
Proof.
  intros Hl. unfold opal_hash_table_get_next_elt. rewrite firstn_all2 by lia.
  assert (match before i with None => 0 | Some p => p + 1 end = Z.of_nat i) as -> by (destruct i; cbn; lia).
  rewrite Nat2Z.id. pose proof (next_valid_spec (drop i (ht_table ht)) (Z.of_nat i)) as Hn.
  destruct (next_valid _ _) as [[j e]|]; [|done]. destruct Hn as (k & -> & Hk & E). exists (i + k)%nat.
  rewrite lookup_drop in Hk. split_and!; [lia|lia|done|]. rewrite E, drop_drop. do 3 f_equal. lia.
Qed.

Lemma traverse_from ht fuel (i : nat) :
  length (ht_table ht) = Z.to_nat (ht_capacity ht) → (length (ht_table ht) - i < fuel)%nat →
  traverse fuel ht (before i) = Some (entries (drop i (ht_table ht))).
Proof.
  intros Hl. revert i. induction fuel as [|f IH]; intros i Hf; [lia|]. cbn [traverse].
  pose proof (next_elt_spec ht i Hl) as Hn. destruct (opal_hash_table_get_next_elt _ _) as [[j e]|]; [|by rewrite Hn].
  destruct Hn as (k & -> & Hik & Hk & ->). apply lookup_lt_Some in Hk. pose proof (IH (S k)) as IHk. cbn in IHk. rewrite IHk by lia. by run.
Qed.

(** ** Runs *)

Inductive ht_op := OGet (k : K) | OSet (k : K) (v : V) | ORemove (k : K) | OClear.
Inductive ht_out := RGet (r : status + V) | RStatus (st : status).

Definition ht_step (o : ht_op) (ht : opal_hash_table_t K V) : option (ht_out * opal_hash_table_t K V) :=
  match o with
  | OGet k => r ← get_value hash_elt ht k; Some (RGet r, ht)
  | OSet k v => '(st, ht') ← set_value hash_elt true ht k v; Some (RStatus st, ht')
  | ORemove k => '(st, ht') ← remove_value hash_elt ht k; Some (RStatus st, ht')
  | OClear => Some (RStatus OPAL_SUCCESS, opal_hash_table_remove_all ht)
  end.

Fixpoint ht_run (os : list ht_op) (ht : opal_hash_table_t K V) : option (list ht_out * opal_hash_table_t K V) :=
  match os with
  | [] => Some ([], ht)
  | o :: os' => '(r, ht1) ← ht_step o ht; '(rs, ht2) ← ht_run os' ht1; Some (r :: rs, ht2)
  end.

(** The same on a finite map. *)
Definition map_step (o : ht_op) (m : gmap K V) : ht_out * gmap K V :=
  match o with
  | OGet k => (RGet (match m !! k with Some v => inr v | None => inl OPAL_ERR_NOT_FOUND end), m)
  | OSet k v => (RStatus OPAL_SUCCESS, <[k := v]> m)
  | ORemove k => (RStatus (match m !! k with Some _ => OPAL_SUCCESS | None => OPAL_ERR_NOT_FOUND end), delete k m)
  | OClear => (RStatus OPAL_SUCCESS, ∅)
  end.

Fixpoint map_run (os : list ht_op) (m : gmap K V) : list ht_out * gmap K V :=
  match os with
  | [] => ([], m)
  | o :: os' => let '(r, m1) := map_step o m in let '(rs, m2) := map_run os' m1 in (r :: rs, m2)
  end.

Lemma inv_size b ht m : ht_inv b ht m → ht_size ht = Z.of_nat (size m).
Proof. intros []. rewrite h_size0, h_map0, size_entries; [done|]. apply h_ok0. Qed.

Lemma step_inv b ht m o :
  ht_inv b ht m → Z.of_nat (size m) < b → ∃ ht', ht_step o ht = Some ((map_step o m).1, ht') ∧ ht_inv b ht' (map_step o m).2.
Proof.
  intros Hinv Hs. rewrite <- (inv_size _ _ _ Hinv) in Hs. destruct o as [k|k v|k|]; cbn.
  - rewrite (get_value_ok b ht m k Hinv). run. by eexists.
  - destruct (set_value_ok b ht m k v Hinv Hs) as (ht' & -> & Hinv'). run. by eexists.
  - destruct (remove_value_ok b ht m k Hinv) as (ht' & -> & Hinv'). run. by eexists.
  - eexists. split; [done|]. by eapply remove_all_ok.
Qed.

Lemma map_step_size o m : (size (map_step o m).2 ≤ S (size m))%nat.
Proof.
  destruct o as [k|k v|k|]; cbn; [lia| | |rewrite map_size_empty; lia].
  - rewrite map_size_insert. case_match; unfold id; lia.
  - rewrite map_size_delete. case_match; unfold id; lia.
Qed.

Lemma run_inv os b ht m :
  ht_inv b ht m → Z.of_nat (size m + length os) ≤ b →
  ∃ ht', ht_run os ht = Some ((map_run os m).1, ht') ∧ ht_inv b ht' (map_run os m).2.
Proof.
  revert ht m. induction os as [|o os IH]; intros ht m Hinv Hs; [by exists ht|]. cbn [ht_run map_run]. cbn [length] in Hs.
  destruct (step_inv b ht m o Hinv) as (ht1 & E & Hinv1); [lia|]. rewrite E. run. pose proof (map_step_size o m).
  destruct (map_step o m) as [r m1]. cbn [fst snd] in *. destruct (IH ht1 m1 Hinv1) as (ht2 & E2 & Hinv2); [lia|]. rewrite E2. run.
  destruct (map_run os m1) as [rs m2]. by exists ht2.
Qed.

(** ** Theorems *)

(** C34: a table of any initial size, of at most [2^50] entries and with allocations that
    succeed, behaves as a finite map: searches, insertions,
    replacements and removals return what the map returns, through any growth of
    the table and any repair after a removal, every loop ends, and a traversal
    of the table gives the entries of the map, each once. *)
Theorem hash_table_refines_map est os :
  0 ≤ est → est + Z.of_nat (length os) ≤ 2 ^ 50 →
  ∃ ht0 ht l, opal_hash_table_init true opal_hash_table_construct est = Some (OPAL_SUCCESS, ht0) ∧
    ht_run os ht0 = Some ((map_run os ∅).1, ht) ∧
    traverse (S (Z.to_nat (ht_capacity ht))) ht None = Some l ∧ l ≡ₚ map_to_list (map_run os ∅).2.
Proof.
  intros He Hb. destruct (init_inv (est + Z.of_nat (length os)) est) as (ht0 & E0 & Hinv0); [lia..|].
  destruct (run_inv os _ ht0 ∅ Hinv0) as (ht & E & Hinv); [rewrite map_size_empty; lia|].
  pose proof (h_ok _ _ _ Hinv) as Hok. exists ht0, ht, (entries (ht_table ht)). split_and!; try done.
  - apply (traverse_from ht _ 0); [apply Hok|]. rewrite (k_len _ _ _ Hok). lia.
  - rewrite (h_map _ _ _ Hinv). symmetry. apply map_to_list_to_map, Hok.
Qed.

(** A scan that no slot stops goes on for ever. *)
Lemma probe_full (stop : Z → option (K * V) → bool) t n fuel i :
  (∀ j e, t !! Z.to_nat j = Some e → stop j e = false) → probe stop t n fuel i = None.
Proof.
  intros Hno. revert i. induction fuel as [|f IH]; intros i; [done|]. cbn [probe]. destruct (t !! _) as [e|] eqn:E; [|done]. run.
  rewrite (Hno _ _ E). apply IH.
Qed.

(** An insertion whose growth of the table fails reports
    [OPAL_ERR_OUT_OF_RESOURCE] although the entry is stored, and can leave the
    table full: then the search for any other key never ends, however long it
    runs. *)
Theorem hash_table_full_after_failure k1 k2 (v : V) :
  k1 ≠ k2 →
  ∃ ht0 ht, opal_hash_table_init true opal_hash_table_construct 0 = Some (OPAL_SUCCESS, ht0) ∧
    set_value hash_elt false ht0 k1 v = Some (OPAL_ERR_OUT_OF_RESOURCE, ht) ∧
    get_value hash_elt ht k1 = Some (inr v) ∧
    ∀ fuel, probe (stop_at k2) (ht_table ht) (ht_capacity ht) fuel (hash_elt k2 `mod` ht_capacity ht) = None.
Proof.
  intros Hne. exists (mk_ht [None] 1 0 0 1 2 2 1), (mk_ht [Some (k1, v)] 1 1 0 1 2 2 1). split; [reflexivity|].
  unfold set_value, get_value, scan. ht_fields. rewrite !Z.mod_1_r. split; [reflexivity|].
  assert (probe (stop_at k1) [Some (k1, v)] 1 (Z.to_nat 1) 0 = Some (0, Some (k1, v))) as E.
  { change (Z.to_nat 1) with 1%nat. assert (stop_at k1 0 (Some (k1, v)) = true) as Es by (by apply bool_decide_eq_true).
    cbn -[stop_at]. change (Z.to_nat 0) with 0%nat. cbn -[stop_at]. by rewrite Es. }
  split; [cbn [Z.ltb Z.compare]; by rewrite E|]. intros fuel. apply probe_full.
  intros j e Ej. destruct (Z.to_nat j) as [|p]; cbn in Ej; [|done]. injection Ej as <-. cbn. by apply bool_decide_eq_false.
Qed.

End spec.

(** Keys that differ by 31 collide in a table of 31 slots. *)
Lemma hash_table_refines_map_witness :
  ∃ ht0 ht l,
    let os := [OSet 1 10; OSet 32 20; OSet 63 30; ORemove 1; OGet 63; OSet 32 21; OGet 32; OGet 1] in
    opal_hash_table_init true opal_hash_table_construct 0 = Some (OPAL_SUCCESS, ht0) ∧
    ht_run hash_int os ht0 = Some ((map_run os ∅).1, ht) ∧
    traverse (S (Z.to_nat (ht_capacity ht))) ht None = Some l ∧ l ≡ₚ map_to_list (map_run os ∅).2.
Proof. apply (hash_table_refines_map hash_int 0); [lia|cbn; lia]. Defined.

Lemma hash_table_full_after_failure_witness :
  ∃ ht0 ht, opal_hash_table_init true opal_hash_table_construct 0 = Some (OPAL_SUCCESS, ht0) ∧
    set_value opal_hash_hash_key_ptr false ht0 [97; 98] true = Some (OPAL_ERR_OUT_OF_RESOURCE, ht) ∧
    get_value opal_hash_hash_key_ptr ht [97; 98] = Some (inr true) ∧
    ∀ fuel, probe (stop_at [97]) (ht_table ht) (ht_capacity ht) fuel (opal_hash_hash_key_ptr [97] `mod` ht_capacity ht) = None.
Proof. apply (hash_table_full_after_failure opal_hash_hash_key_ptr [97; 98] [97] true). done. Defined.

End OpalHashSpec.
