(* ===== verification/OpalProcTable.v ===== *)
(** * The process table ([opal_proc_table_t])

    A hash table from job ids to hash tables from process numbers to values.
    The inner tables are objects on a heap and the outer one holds their
    addresses.  An inner table is created with its first entry and released
    with its last. *)

From stdpp Require Import base numbers list gmap.
From S2P Require Import Prelude OpalHash.
Import OpalHash.

Local Open Scope Z_scope.
Local Open Scope c_scope.

Module OpalProcTable.

Abbreviation heap V := (gmap Z (opal_hash_table_t Z V)).

Section table.
Context {V : Type}.

Record opal_proc_table_t := mk_pt { pt_super : opal_hash_table_t Z Z; vpids_size : Z }.

Definition opal_proc_table_init (ok : bool) (jobids vpids : Z) : option (status * opal_proc_table_t) :=
  '(rc, super) ← opal_hash_table_init ok opal_hash_table_construct jobids;
  Some (rc, mk_pt super (if decide (rc = OPAL_SUCCESS) then vpids else 0)).

Definition opal_proc_table_get_value (pt : opal_proc_table_t) (h : heap V) (jobid vpid : Z) : option (status + V) :=
  r ← opal_hash_table_get_value_uint32 (pt_super pt) jobid;
  match r with
  | inl rc => Some (inl rc)
  | inr a => vpids ← h !! a; opal_hash_table_get_value_uint32 vpids vpid
  end.

(** [obj]: the address [OBJ_NEW] gives, [None] for NULL; the flags say whether
    the allocations of the new table, of a growing outer table and of a growing
    inner table succeed. *)
Definition opal_proc_table_set_value (obj : option Z) (ok_new ok_outer ok_inner : bool) (pt : opal_proc_table_t) (h : heap V)
    (jobid vpid : Z) (value : V) : option (status * opal_proc_table_t * heap V) :=
  r ← opal_hash_table_get_value_uint32 (pt_super pt) jobid;
  match r with
  | inr a =>
      vpids ← h !! a;
      '(rc, vpids) ← opal_hash_table_set_value_uint32 ok_inner vpids vpid value;
      Some (rc, pt, <[a := vpids]> h)
  | inl _ =>
      match obj with
      | None => Some (OPAL_ERR_OUT_OF_RESOURCE, pt, h)
      | Some a =>
          '(rc, vpids) ← opal_hash_table_init ok_new opal_hash_table_construct (vpids_size pt);
          if decide (rc ≠ OPAL_SUCCESS) then Some (rc, pt, h)
          else
            '(rc, super) ← opal_hash_table_set_value_uint32 ok_outer (pt_super pt) jobid a;
            let pt := mk_pt super (vpids_size pt) in
            if decide (rc ≠ OPAL_SUCCESS) then Some (rc, pt, h)
            else
              '(rc, vpids) ← opal_hash_table_set_value_uint32 ok_inner vpids vpid value;
              Some (rc, pt, <[a := vpids]> h)
      end
  end.

Definition opal_proc_table_remove_value (pt : opal_proc_table_t) (h : heap V) (jobid vpid : Z)
    : option (status * opal_proc_table_t * heap V) :=
  r ← opal_hash_table_get_value_uint32 (pt_super pt) jobid;
  match r with
  | inl rc => Some (rc, pt, h)
  | inr a =>
      vpids ← h !! a;
      '(rc, vpids) ← opal_hash_table_remove_value_uint32 vpids vpid;
      if decide (rc = OPAL_SUCCESS ∧ ht_size vpids = 0) then
        '(_, super) ← opal_hash_table_remove_value_uint32 (pt_super pt) jobid;
        Some (rc, mk_pt super (vpids_size pt), delete a h)
      else Some (rc, pt, <[a := vpids]> h)
  end.

(** The loop of [opal_proc_table_remove_all]: every inner table is released; the
    status is that of the traversal. *)
Fixpoint remove_all_loop (fuel : nat) (super : opal_hash_table_t Z Z) (h : heap V) (r : option (Z * (Z * Z))) : option (status * heap V) :=
  match fuel with
  | O => None
  | S f =>
      match r with
      | None => Some (OPAL_ERROR, h)
      | Some (node, (_, a)) =>
          _ ← h !! a;
          remove_all_loop f super (delete a h) (opal_hash_table_get_next_key_uint32 super node)
      end
  end.

Definition opal_proc_table_remove_all (pt : opal_proc_table_t) (h : heap V) : option (status * opal_proc_table_t * heap V) :=
  '(rc, h) ← remove_all_loop (S (Z.to_nat (ht_capacity (pt_super pt)))) (pt_super pt) h
               (opal_hash_table_get_first_key_uint32 (pt_super pt));
  Some (rc, pt, h).

(** ** Traversal *)

(** The nodes are the indices of the elements in the outer and inner tables;
    [inl] is the status of a failed call. *)
Definition opal_proc_table_get_first_key (pt : opal_proc_table_t) (h : heap V) : option (option (Z * Z * (Z * Z * V))) :=
  match opal_hash_table_get_first_key_uint32 (pt_super pt) with
  | None => Some None
  | Some (node1, (jobid, a)) =>
      vpids ← h !! a;
      Some ('(node2, (vpid, value)) ← opal_hash_table_get_first_key_uint32 vpids; Some (node1, node2, (jobid, vpid, value)))
  end.

Definition opal_proc_table_get_next_key (pt : opal_proc_table_t) (h : heap V) (in1 in2 : Z) : option (option (Z * Z * (Z * Z * V))) :=
  elt ← ht_table (pt_super pt) !! Z.to_nat in1;
  '(jobid, a) ← elt;
  vpids ← h !! a;
  match opal_hash_table_get_next_key_uint32 vpids in2 with
  | Some (node2, (vpid, value)) => Some (Some (in1, node2, (jobid, vpid, value)))
  | None =>
      match opal_hash_table_get_next_key_uint32 (pt_super pt) in1 with
      | None => Some None
      | Some (node1, (jobid, a)) =>
          vpids ← h !! a;
          Some ('(node2, (vpid, value)) ← opal_hash_table_get_first_key_uint32 vpids; Some (node1, node2, (jobid, vpid, value)))
      end
  end.

End table.

End OpalProcTable.
