(* ===== verification/OpalProcTableSpec.v ===== *)
(** * The process table is a map from process names

    [pt_rel] relates the outer table, the heap of inner tables and a finite map
    from (job, process number) to values; [proc_table_refines_map] follows
    searches, insertions and removals, which create and release inner tables on
    the way.  [remove_all] releases the inner tables but leaves their addresses
    in the outer table. *)

From stdpp Require Import base numbers list gmap.
From S2P Require Import Prelude OpalHash OpalHashTable OpalHashSpec OpalProcTable.
Import OpalHash OpalHashTable OpalHashSpec OpalProcTable.

Local Open Scope Z_scope.
Local Open Scope c_scope.

Module OpalProcTableSpec.

Section spec.
Context {V : Type}.
Implicit Types (m : gmap (Z * Z) V) (h : heap V) (mo : gmap Z Z) (mi : gmap Z V).

(** The inner table at [a] holds the entries of job [j]. *)
Definition inner_rel (b c : Z) m h (j a : Z) : Prop :=
  ∃ vp mi, h !! a = Some vp ∧ ht_inv hash_int b vp mi ∧ mi ≠ ∅ ∧ Z.of_nat (size mi) ≤ c ∧ ∀ v, mi !! v = m !! (j, v).

(** [b] bounds the entries the tables can take, [c] those they have. *)
Record pt_rel (b c : Z) m (pt : opal_proc_table_t) h mo : Prop := {
  p_outer : ht_inv hash_int b (pt_super pt) mo;
  p_vpids : 0 ≤ vpids_size pt ≤ b;
  p_count : Z.of_nat (size mo) ≤ c;
  p_inj : ∀ j1 j2 a, mo !! j1 = Some a → mo !! j2 = Some a → j1 = j2;
  p_inner : ∀ j a, mo !! j = Some a → inner_rel b c m h j a;
  p_none : ∀ j v, mo !! j = None → m !! (j, v) = None;
  p_heap : ∀ a vp, h !! a = Some vp → ∃ j, mo !! j = Some a;
}.

Lemma get_ok b c m pt h mo j v :
  pt_rel b c m pt h mo →
  opal_proc_table_get_value pt h j v = Some (match m !! (j, v) with Some x => inr x | None => inl OPAL_ERR_NOT_FOUND end).
Proof.
  intros [Ho _ _ _ Hin Hno _]. unfold opal_proc_table_get_value, opal_hash_table_get_value_uint32.
  rewrite (get_value_ok hash_int b _ mo j Ho). run. destruct (mo !! j) as [a|] eqn:Ej.
  - destruct (Hin j a Ej) as (vp & mi & Ha & Hi & _ & _ & Hm). rewrite Ha. run. rewrite (get_value_ok hash_int b vp mi v Hi). by rewrite Hm.
  - by rewrite Hno.
Qed.

(** Another job does not see a change of the entries of [j] or of the table at [a]. *)
Lemma inner_frame b c c' m m' h h' j' a' :
  inner_rel b c m h j' a' → c ≤ c' → (∀ v, m' !! (j', v) = m !! (j', v)) → h' !! a' = h !! a' → inner_rel b c' m' h' j' a'.
Proof.
  intros (vp & mi & Ha & Hi & Hne & Hc & Hm) Hle Hm' Hh. exists vp, mi. rewrite Hh. split_and!; try done; [lia|].
  intros v. by rewrite Hm, Hm'.
Qed.

Lemma lookup_insert_other m (j j' v v' : Z) x : j ≠ j' → <[(j, v) := x]> m !! (j', v') = m !! (j', v').
Proof. intros Hne. apply lookup_insert_ne. congruence. Qed.

Lemma inner_set b c m h j v x vp mi :
  ht_inv hash_int b vp mi → Z.of_nat (size mi) ≤ c → c < b → (∀ w, mi !! w = m !! (j, w)) →
  ∃ vp', opal_hash_table_set_value_uint32 true vp v x = Some (OPAL_SUCCESS, vp') ∧
    ∀ a, inner_rel b (c + 1) (<[(j, v) := x]> m) (<[a := vp']> h) j a.
Proof.
  intros Hi Hc Hb Hm. destruct (set_value_ok hash_int b vp mi v x Hi) as (vp' & E & Hi').
  { rewrite (inv_size hash_int _ _ _ Hi). lia. }
  exists vp'. split; [exact E|]. intros a. exists vp', (<[v := x]> mi). rewrite lookup_insert_eq. split_and!; try done.
  - apply insert_non_empty.
  - pose proof (map_step_size (OSet v x) mi) as Hs. cbn in Hs. lia.
  - intros w. destruct (decide (w = v)) as [->|Hne]; [by rewrite !lookup_insert_eq|].
    rewrite !lookup_insert_ne by congruence. apply Hm.
Qed.

Lemma set_ok b c m pt h mo j v x a0 :
  pt_rel b c m pt h mo → c < b → h !! a0 = None →
  ∃ pt' h' mo', opal_proc_table_set_value (Some a0) true true true pt h j v x = Some (OPAL_SUCCESS, pt', h') ∧
    pt_rel b (c + 1) (<[(j, v) := x]> m) pt' h' mo'.
Proof.
  intros [Ho Hv Hc Hinj Hin Hno Hh] Hb Hfresh. unfold opal_proc_table_set_value, opal_hash_table_get_value_uint32.
  rewrite (get_value_ok hash_int b _ mo j Ho). run. destruct (mo !! j) as [a|] eqn:Ej.
  - destruct (Hin j a Ej) as (vp & mi & Ha & Hi & Hne & Hcm & Hm). rewrite Ha. run.
    destruct (inner_set b c m h j v x vp mi Hi Hcm Hb Hm) as (vp' & E & Hrel). rewrite E. run.
    eexists _, _, mo. split; [done|]. split; try done; [lia|..].
    + intros j' a' Ej'. destruct (decide (j' = j)) as [->|Hj]; [assert (a' = a) as -> by congruence; apply Hrel|].
      eapply inner_frame; [by apply Hin|lia|intros; by apply lookup_insert_other|]. apply lookup_insert_ne. intros <-. by apply Hj, (Hinj j' j a).
    + intros j' v' Ej'. rewrite lookup_insert_other by congruence. by apply Hno.
    + intros a' vp1 [[<- _]|[_ E1]]%lookup_insert_Some; [by exists j|by eapply Hh].
  - destruct (init_inv (V := V) hash_int b (vpids_size pt)) as (vp & E & Hi); [lia|apply Ho|]. rewrite E. run.
    rewrite decide_False by (intros Hx; by apply Hx). destruct (set_value_ok hash_int b (pt_super pt) mo j a0 Ho) as (super & Es & Ho').
    { rewrite (inv_size hash_int _ _ _ Ho). lia. }
    change (opal_hash_table_set_value_uint32 true (pt_super pt) j a0) with (set_value hash_int true (pt_super pt) j a0). rewrite Es. run. rewrite decide_False by (intros Hx; by apply Hx).
    destruct (inner_set b c m h j v x vp ∅ Hi) as (vp' & E' & Hrel); [rewrite map_size_empty; lia|lia| |].
    { intros w. rewrite lookup_empty. by rewrite Hno. }
    rewrite E'. run. eexists _, _, (<[j := a0]> mo). split; [done|]. split; try done; cbn [pt_super vpids_size].
    + pose proof (map_step_size (OSet j a0) mo) as Hs. cbn in Hs. lia.
    + assert (∀ j', mo !! j' ≠ Some a0) as Hn. { intros j' E1. destruct (Hin j' a0 E1) as (? & ? & E2 & _). congruence. }
      intros j1 j2 a'. rewrite !lookup_insert. repeat case_decide; intros; simplify_eq; try done; [by destruct (Hn j2)|by destruct (Hn j1)|].
      by eapply Hinj.
    + intros j' a'. rewrite lookup_insert. case_decide as Hj; [intros [= <-]; subst j'; apply Hrel|]. intros Ej'.
      eapply inner_frame; [by apply Hin|lia|intros; by apply lookup_insert_other|]. apply lookup_insert_ne. intros <-.
      destruct (Hin j' a0 Ej') as (? & ? & ? & _). congruence.
    + intros j' v' Ej'. apply lookup_insert_None in Ej' as [? ?]. rewrite lookup_insert_other by done. by apply Hno.
    + intros a' vp1 [[<- _]|[_ E1]]%lookup_insert_Some; [exists j; apply lookup_insert_eq|]. destruct (Hh a' vp1 E1) as (j' & Ej').
      exists j'. rewrite lookup_insert_ne; [done|congruence].
Qed.

Lemma lookup_delete_other m (j j' v v' : Z) : j ≠ j' → delete (j, v) m !! (j', v') = m !! (j', v').
Proof. intros Hne. apply lookup_delete_ne. congruence. Qed.

Lemma pt_remove_ok b c m pt h mo j v :
  pt_rel b c m pt h mo →
  ∃ pt' h' mo', opal_proc_table_remove_value pt h j v =
      Some (match m !! (j, v) with Some _ => OPAL_SUCCESS | None => OPAL_ERR_NOT_FOUND end, pt', h') ∧
    pt_rel b c (delete (j, v) m) pt' h' mo'.
Proof.
  intros Hrel. pose proof Hrel as [Ho Hv Hc Hinj Hin Hno Hh]. unfold opal_proc_table_remove_value, opal_hash_table_get_value_uint32.
  rewrite (get_value_ok hash_int b _ mo j Ho). run. destruct (mo !! j) as [a|] eqn:Ej.
  2:{ exists pt, h, mo. rewrite (Hno j v Ej). split; [done|]. rewrite delete_id by (by apply Hno). done. }
  destruct (Hin j a Ej) as (vp & mi & Ha & Hi & Hne & Hcm & Hm). rewrite Ha. run. unfold opal_hash_table_remove_value_uint32.
  destruct (remove_value_ok hash_int b vp mi v Hi) as (vp' & E & Hi'). rewrite E. run. rewrite <- Hm.
  assert (∀ w, delete v mi !! w = delete (j, v) m !! (j, w)) as Hm'.
  { intros w. destruct (decide (w = v)) as [->|Hw]; [by rewrite !lookup_delete_eq|]. rewrite !lookup_delete_ne by congruence. apply Hm. }
  pose proof (map_step_size (ORemove v) mi) as Hs. cbn in Hs.
  assert (∀ j' a' h', mo !! j' = Some a' → j' ≠ j → (∀ a'', a'' ≠ a → h' !! a'' = h !! a'') → inner_rel b c (delete (j, v) m) h' j' a') as Hother.
  { intros j' a' h' Ej' Hj' Ha'. eapply inner_frame; [by apply Hin|lia|intros; by apply lookup_delete_other|]. apply Ha'. intros ->.
    by apply Hj', (Hinj j' j a). }
  rewrite (inv_size hash_int _ _ _ Hi'). destruct (decide _) as [[Hst Hz]|Hnz].
  - destruct (remove_value_ok hash_int b (pt_super pt) mo j Ho) as (super & Es & Ho'). rewrite Es. run.
    eexists _, _, (delete j mo). split; [done|]. split; try done; cbn [pt_super vpids_size].
    + pose proof (map_step_size (ORemove j) mo) as Hso. rewrite map_size_delete. case_match; unfold id; lia.
    + intros j1 j2 a' [? ?]%lookup_delete_Some [? ?]%lookup_delete_Some. by eapply Hinj.
    + intros j' a' [? ?]%lookup_delete_Some. apply Hother; try done. intros. by apply lookup_delete_ne.
    + intros j' v' [<-|E']%lookup_delete_None.
      * assert (delete v mi = ∅) as Hemp by (apply map_size_empty_inv; lia). rewrite <- Hm', Hemp. apply lookup_empty.
      * destruct (decide (j = j')) as [<-|]; [congruence|]. rewrite lookup_delete_other by done. by apply Hno.
    + intros a' vp1 [Hne' E1]%lookup_delete_Some. destruct (Hh a' vp1 E1) as (j' & Ej'). exists j'. rewrite lookup_delete_ne; [done|congruence].
  - eexists _, _, mo. split; [done|]. split; try done.
    + intros j' a' Ej'. destruct (decide (j' = j)) as [->|Hj].
      * assert (a' = a) as -> by congruence. exists vp', (delete v mi). rewrite lookup_insert_eq. split_and!; try done; [|].
        -- intros Hemp. destruct (mi !! v) eqn:Ev; [apply Hnz; split; [done|]; by rewrite Hemp, map_size_empty|].
           rewrite delete_id in Hemp; done.
        -- rewrite map_size_delete. case_match; unfold id; lia.
      * apply Hother; try done. intros. by apply lookup_insert_ne.
    + intros j' v' Ej'. destruct (decide (j = j')) as [<-|]; [congruence|]. rewrite lookup_delete_other by done. by apply Hno.
    + intros a' vp1 [[<- _]|[_ E1]]%lookup_insert_Some; [by exists j|by eapply Hh].
Qed.

(** ** Runs *)

Inductive pt_op := PGet (j v : Z) | PSet (j v : Z) (x : V) | PRemove (j v : Z).

(** [OBJ_NEW] gives an address that is not in use. *)
Definition pt_step (o : pt_op) (pt : opal_proc_table_t) h : option (ht_out (V := V) * opal_proc_table_t * heap V) :=
  match o with
  | PGet j v => r ← opal_proc_table_get_value pt h j v; Some (RGet r, pt, h)
  | PSet j v x => '(st, pt, h) ← opal_proc_table_set_value (Some (fresh (dom h))) true true true pt h j v x; Some (RStatus st, pt, h)
  | PRemove j v => '(st, pt, h) ← opal_proc_table_remove_value pt h j v; Some (RStatus st, pt, h)
  end.

Fixpoint pt_run (os : list pt_op) (pt : opal_proc_table_t) h : option (list ht_out * opal_proc_table_t * heap V) :=
  match os with
  | [] => Some ([], pt, h)
  | o :: os' => '(r, pt1, h1) ← pt_step o pt h; '(rs, pt2, h2) ← pt_run os' pt1 h1; Some (r :: rs, pt2, h2)
  end.

(** The operations on the map of process names. *)
Definition to_map (o : pt_op) : ht_op (K := Z * Z) :=
  match o with PGet j v => OGet (j, v) | PSet j v x => OSet (j, v) x | PRemove j v => ORemove (j, v) end.

Lemma pt_step_ok b c m pt h mo o :
  pt_rel b c m pt h mo → c < b →
  ∃ pt' h' mo', pt_step o pt h = Some ((map_step (to_map o) m).1, pt', h') ∧ pt_rel b (c + 1) (map_step (to_map o) m).2 pt' h' mo'.
Proof.
  assert (∀ m pt h mo, pt_rel b c m pt h mo → pt_rel b (c + 1) m pt h mo) as Hmono.
  { intros m' pt' h' mo' [Ho Hv Hc Hinj Hin Hno Hh]. split; try done; [lia|]. intros j a Ej. eapply inner_frame; [by apply Hin|lia|done..]. }
  intros Hrel Hb. destruct o as [j v|j v x|j v]; cbn.
  - rewrite (get_ok b c m pt h mo j v Hrel). run. exists pt, h, mo. split; [done|]. by apply Hmono.
  - destruct (set_ok b c m pt h mo j v x (fresh (dom h)) Hrel Hb) as (pt' & h' & mo' & -> & Hrel').
    { apply not_elem_of_dom, is_fresh. }
    run. by exists pt', h', mo'.
  - destruct (pt_remove_ok b c m pt h mo j v Hrel) as (pt' & h' & mo' & -> & Hrel'). run. exists pt', h', mo'. split; [done|]. by apply Hmono.
Qed.

Lemma pt_run_ok os b c m pt h mo :
  pt_rel b c m pt h mo → c + Z.of_nat (length os) ≤ b →
  ∃ pt' h' mo', pt_run os pt h = Some ((map_run (to_map <$> os) m).1, pt', h') ∧
    pt_rel b (c + Z.of_nat (length os)) (map_run (to_map <$> os) m).2 pt' h' mo'.
Proof.
  revert c m pt h mo. induction os as [|o os IH]; intros c m pt h mo Hrel Hb.
  { exists pt, h, mo. split; [done|]. cbn. by rewrite Z.add_0_r. }
  cbn [length] in Hb. destruct (pt_step_ok b c m pt h mo o Hrel) as (pt1 & h1 & mo1 & E & Hrel1); [lia|]. cbn [pt_run fmap list_fmap map_run].
  rewrite E. run. destruct (map_step (to_map o) m) as [r m1]. cbn [fst snd] in *.
  destruct (IH (c + 1) m1 pt1 h1 mo1 Hrel1) as (pt2 & h2 & mo2 & E2 & Hrel2); [lia|]. rewrite E2. run.
  destruct (map_run (to_map <$> os) m1) as [rs m2]. exists pt2, h2, mo2. split; [done|]. cbn [length snd] in *.
  replace (c + Z.of_nat (S (length os))) with (c + 1 + Z.of_nat (length os)) by lia. done.
Qed.

Lemma pt_init_ok b jobids vpids :
  0 ≤ jobids ≤ b → 0 ≤ vpids ≤ b → b ≤ 2 ^ 50 →
  ∃ pt, opal_proc_table_init true jobids vpids = Some (OPAL_SUCCESS, pt) ∧ pt_rel b 0 ∅ pt ∅ ∅.
Proof.
  intros Hj Hv Hb. destruct (init_inv (V := Z) hash_int b jobids Hj Hb) as (super & E & Hinv). unfold opal_proc_table_init. rewrite E. run.
  eexists. split; [done|]. split; cbn; try done.
Qed.

(** ** Traversal *)

Fixpoint pt_traverse (fuel : nat) (pt : opal_proc_table_t) h (prev : option (Z * Z)) : option (list (Z * Z * V)) :=
  match fuel with
  | O => None
  | S f =>
      r ← match prev with None => opal_proc_table_get_first_key pt h | Some (n1, n2) => opal_proc_table_get_next_key pt h n1 n2 end;
      match r with
      | None => Some []
      | Some (n1, n2, e) => rest ← pt_traverse f pt h (Some (n1, n2)); Some (e :: rest)
      end
  end.

Definition inner_entries h (i : nat) (p : Z * Z) : list (Z * Z * V) :=
  match h !! p.2 with Some vp => (λ e, (p.1, e.1, e.2)) <$> entries (drop i (ht_table vp)) | None => [] end.

Definition pt_entries h (l : list (Z * Z)) : list (Z * Z * V) := l ≫= inner_entries h 0.

(** What the relation says of a slot of the outer table. *)
Definition slot_ok h (p : Z * Z) : Prop :=
  ∃ vp, h !! p.2 = Some vp ∧ length (ht_table vp) = Z.to_nat (ht_capacity vp) ∧ entries (ht_table vp) ≠ [].

Lemma first_entry h p vp :
  slot_ok h p → h !! p.2 = Some vp →
  ∃ n2 v x, opal_hash_table_get_first_key_uint32 vp = Some (Z.of_nat n2, (v, x)) ∧
    inner_entries h 0 p = (p.1, v, x) :: inner_entries h (S n2) p.
Proof.
  intros (vp' & Ha & Hl & Hne) Ha'. assert (vp' = vp) as -> by congruence. unfold inner_entries. rewrite Ha.
  pose proof (next_elt_spec vp 0 Hl) as Hn. cbn [before] in Hn. unfold opal_hash_table_get_first_key_uint32.
  destruct (opal_hash_table_get_next_elt vp None) as [[n [v x]]|]; [|done]. destruct Hn as (k & -> & _ & _ & E). exists k, v, x.
  by rewrite E.
Qed.

(** The step from element [n2] of the inner table in slot [n1]. *)
Lemma next_entry pt h (n1 n2 : nat) p vp :
  length (ht_table (pt_super pt)) = Z.to_nat (ht_capacity (pt_super pt)) →
  Forall (slot_ok h) (entries (ht_table (pt_super pt))) →
  ht_table (pt_super pt) !! n1 = Some (Some p) → h !! p.2 = Some vp →
  let rest := inner_entries h (S n2) p ++ pt_entries h (entries (drop (S n1) (ht_table (pt_super pt)))) in
  match opal_proc_table_get_next_key pt h (Z.of_nat n1) (Z.of_nat n2) with
  | None => False
  | Some None => rest = []
  | Some (Some (m1, m2, e)) =>
      ∃ (k1 k2 : nat) p' vp', m1 = Z.of_nat k1 ∧ m2 = Z.of_nat k2 ∧ ht_table (pt_super pt) !! k1 = Some (Some p') ∧ h !! p'.2 = Some vp' ∧
        rest = e :: inner_entries h (S k2) p' ++ pt_entries h (entries (drop (S k1) (ht_table (pt_super pt))))
  end.
Proof.
  intros Hl Hall Ep Ha.
  assert (∀ (k : nat) q, ht_table (pt_super pt) !! k = Some (Some q) → slot_ok h q) as Hslot.
  { intros k q Eq. rewrite Forall_forall in Hall. apply Hall, elem_of_entries. by eapply list_elem_of_lookup_2. }
  destruct (Hslot n1 p Ep) as (vp0 & Ha0 & Hl0 & _).
  assert (vp0 = vp) as -> by congruence. cbn zeta. unfold opal_proc_table_get_next_key. rewrite Nat2Z.id, Ep. run. destruct p as [j a].
  cbn [fst snd] in *. rewrite Ha. run. unfold opal_hash_table_get_next_key_uint32.
  pose proof (next_elt_spec vp (S n2) Hl0) as Hn. cbn [before] in Hn.
  assert (∀ i, inner_entries h i (j, a) = (λ e, (j, e.1, e.2)) <$> entries (drop i (ht_table vp))) as Hi.
  { intros i. unfold inner_entries. cbn [fst snd]. by rewrite Ha. }
  destruct (opal_hash_table_get_next_elt vp (Some (Z.of_nat n2))) as [[m2 [v x]]|].
  { destruct Hn as (k2 & -> & _ & _ & E). exists n1, k2, (j, a), vp. split_and!; try done. by rewrite !Hi, E. }
  rewrite Hi, Hn. cbn [fmap list_fmap app]. pose proof (next_elt_spec (pt_super pt) (S n1) Hl) as Hn1. cbn [before] in Hn1.
  destruct (opal_hash_table_get_next_elt (pt_super pt) (Some (Z.of_nat n1))) as [[m1 [j' a']]|]; [|rewrite Hn1; reflexivity].
  destruct Hn1 as (k1 & -> & _ & Ek & ->). pose proof (Hslot k1 (j', a') Ek) as Hs.
  pose proof Hs as (vp' & Ha' & _). cbn [snd] in Ha'. rewrite Ha'. run.
  destruct (first_entry h (j', a') vp' Hs Ha') as (k2 & v & x & -> & E). run. exists k1, k2, (j', a'), vp'. split_and!; try done.
  unfold pt_entries at 1. rewrite bind_cons, E. done.
Qed.

Lemma pt_traverse_next pt h fuel (n1 n2 : nat) p vp :
  length (ht_table (pt_super pt)) = Z.to_nat (ht_capacity (pt_super pt)) →
  Forall (slot_ok h) (entries (ht_table (pt_super pt))) →
  ht_table (pt_super pt) !! n1 = Some (Some p) → h !! p.2 = Some vp →
  let rest := inner_entries h (S n2) p ++ pt_entries h (entries (drop (S n1) (ht_table (pt_super pt)))) in
  (length rest < fuel)%nat → pt_traverse fuel pt h (Some (Z.of_nat n1, Z.of_nat n2)) = Some rest.
Proof.
  intros Hl Hall. revert n1 n2 p vp. induction fuel as [|f IH]; intros n1 n2 p vp Ep Ha rest Hf; [lia|]. cbn [pt_traverse].
  pose proof (next_entry pt h n1 n2 p vp Hl Hall Ep Ha) as Hn. fold rest in Hn.
  destruct (opal_proc_table_get_next_key _ _ _ _) as [[[[m1 m2] e]|]|]; [| |done]; run.
  - destruct Hn as (k1 & k2 & p' & vp' & -> & -> & Ep' & Ha' & E). rewrite E in Hf |- *. cbn [length] in Hf.
    rewrite (IH k1 k2 p' vp' Ep' Ha') by lia. by run.
  - by rewrite Hn.
Qed.

Lemma pt_traverse_ok pt h :
  length (ht_table (pt_super pt)) = Z.to_nat (ht_capacity (pt_super pt)) →
  Forall (slot_ok h) (entries (ht_table (pt_super pt))) →
  pt_traverse (S (length (pt_entries h (entries (ht_table (pt_super pt)))))) pt h None = Some (pt_entries h (entries (ht_table (pt_super pt)))).
Proof.
  intros Hl Hall. cbn [pt_traverse]. unfold opal_proc_table_get_first_key, opal_hash_table_get_first_key_uint32 at 1.
  pose proof (next_elt_spec (pt_super pt) 0 Hl) as Hn. cbn [before] in Hn. rewrite drop_0 in Hn.
  destruct (opal_hash_table_get_next_elt (pt_super pt) None) as [[m1 [j a]]|]; [|run; by rewrite Hn].
  destruct Hn as (k1 & -> & _ & Ep & E). assert (slot_ok h (j, a)) as Hs by (rewrite E in Hall; by apply Forall_inv in Hall).
  pose proof Hs as (vp & Ha & _). cbn [snd] in Ha. rewrite Ha. run. destruct (first_entry h (j, a) vp Hs Ha) as (k2 & v & x & -> & E2). run.
  assert (pt_entries h (entries (ht_table (pt_super pt))) =
    (j, v, x) :: inner_entries h (S k2) (j, a) ++ pt_entries h (entries (drop (S k1) (ht_table (pt_super pt))))) as E3.
  { rewrite E. unfold pt_entries at 1. rewrite bind_cons, E2. done. }
  rewrite E3. rewrite (pt_traverse_next pt h _ k1 k2 (j, a) vp Hl Hall Ep Ha); [by run|]. cbn [length]. lia.
Qed.

Lemma rel_slots b c m pt h mo : pt_rel b c m pt h mo → Forall (slot_ok h) (entries (ht_table (pt_super pt))).
Proof.
  intros [Ho _ _ _ Hin _ _]. apply Forall_forall. intros [j a] Hja. apply (lookup_entries hash_int _ _ _ _ _ Ho) in Hja.
  destruct (Hin j a Hja) as (vp & mi & Ha & Hi & Hne & _). exists vp. split_and!; [done|apply (h_ok _ _ _ _ Hi)|].
  intros E. apply Hne. rewrite (h_map _ _ _ _ Hi), E. done.
Qed.

Lemma rel_entries b c m pt h mo : pt_rel b c m pt h mo → pt_entries h (entries (ht_table (pt_super pt))) ≡ₚ map_to_list m.
Proof.
  intros [Ho _ _ _ Hin Hno _]. pose proof (λ j a, lookup_entries hash_int _ _ _ j a Ho) as Hlo.
  assert (∀ j a v x, mo !! j = Some a → (∃ q, q ∈ inner_entries h 0 (j, a) ∧ q = (j, v, x)) ↔ m !! (j, v) = Some x) as Hel.
  { intros j a v x Ej. destruct (Hin j a Ej) as (vp & mi & Ha & Hi & _ & _ & Hm). unfold inner_entries. cbn [fst snd]. rewrite Ha, drop_0, <- Hm.
    rewrite (lookup_entries hash_int _ _ _ _ _ Hi). split.
    - intros (q & Hq & ->). apply list_elem_of_fmap in Hq as ([v' x'] & [= -> ->] & Hq). done.
    - intros Hq. exists (j, v, x). split; [|done]. apply list_elem_of_fmap. by exists (v, x). }
  assert (∀ j a q, q ∈ inner_entries h 0 (j, a) → q.1.1 = j) as Hj.
  { intros j a q. unfold inner_entries. cbn [fst snd]. destruct (h !! a); [|by intros ?%not_elem_of_nil].
    intros (e & -> & _)%list_elem_of_fmap. done. }
  apply NoDup_Permutation; [|apply NoDup_map_to_list|].
  - apply NoDup_bind.
    + intros [j1 a1] [j2 a2] q H1 H2 Hq1 Hq2. apply Hj in Hq1, Hq2. apply Hlo in H1, H2. congruence.
    + intros [j a] H1. apply Hlo in H1. destruct (Hin j a H1) as (vp & mi & Ha & Hi & _). unfold inner_entries. cbn [fst snd].
      rewrite Ha, drop_0. apply (NoDup_fmap_1 (λ q, q.1.2)). rewrite <- list_fmap_compose. apply (k_keys _ _ _ (h_ok _ _ _ _ Hi)).
    + apply (NoDup_fmap_1 fst), (k_keys _ _ _ (h_ok _ _ _ _ Ho)).
  - intros [[j v] x]. rewrite elem_of_map_to_list. unfold pt_entries. rewrite list_elem_of_bind. split.
    + intros ([j' a] & Hq & H1). pose proof (Hj _ _ _ Hq) as E. cbn in E. subst j'. apply Hlo in H1. apply (Hel j a v x H1). eauto.
    + intros E. destruct (mo !! j) as [a|] eqn:Ej; [|by rewrite Hno in E]. destruct (proj2 (Hel j a v x Ej) E) as (q & Hq & ->).
      exists (j, a). split; [done|]. by apply Hlo.
Qed.

(** The inner tables on the heap are exactly those of the jobs that have an entry: the
    outer table has the address of one table for each of these jobs and for no other,
    these addresses are different, and nothing else is on the heap. *)
Definition holds_jobs m (pt : opal_proc_table_t) h : Prop :=
  ∃ tables : gmap Z Z,
    (∀ j, opal_hash_table_get_value_uint32 (pt_super pt) j =
       Some (match tables !! j with Some a => inr a | None => inl OPAL_ERR_NOT_FOUND end)) ∧
    (∀ j1 j2 a, tables !! j1 = Some a → tables !! j2 = Some a → j1 = j2) ∧
    (∀ a, is_Some (h !! a) ↔ ∃ j, tables !! j = Some a) ∧
    (∀ j, is_Some (tables !! j) ↔ ∃ v, is_Some (m !! (j, v))).

Lemma rel_holds_jobs b c m pt h mo : pt_rel b c m pt h mo → holds_jobs m pt h.
Proof.
  intros [Ho _ _ Hinj Hin Hno Hh]. exists mo. split_and!; [|done|..].
  - intros j. apply (get_value_ok hash_int b _ mo j Ho).
  - intros a. split; [intros [vp Ha]; by eapply Hh|]. intros [j Ej]. destruct (Hin j a Ej) as (vp & mi & -> & _). by eexists.
  - intros j. split.
    + intros [a Ej]. destruct (Hin j a Ej) as (vp & mi & _ & _ & Hne & _ & Hm).
      apply map_choose in Hne as (v & x & Hx). exists v. rewrite <- Hm. by exists x.
    + intros [v Hv]. destruct (mo !! j) eqn:Ej; [by eexists|]. rewrite Hno in Hv by done. by destruct Hv.
Qed.

(** C35: When allocations succeed, a process table behaves as one finite map from (job,
    process number): searches, insertions and removals in any order return what the map
    returns, a traversal gives the entries of the map, each once, and the inner tables on
    the heap are exactly those of the jobs with an entry ([holds_jobs]): none is left for
    a job without one.  The initial sizes and the number of operations are together at
    most [2^50]. *)
Theorem proc_table_refines_map jobids vpids os :
  0 ≤ jobids → 0 ≤ vpids → jobids + vpids + Z.of_nat (length os) ≤ 2 ^ 50 →
  let '(outs, m) := map_run (to_map <$> os) ∅ in
  ∃ pt0 pt h l, opal_proc_table_init true jobids vpids = Some (OPAL_SUCCESS, pt0) ∧ pt_run os pt0 ∅ = Some (outs, pt, h) ∧
    pt_traverse (S (length l)) pt h None = Some l ∧ l ≡ₚ map_to_list m ∧ holds_jobs m pt h.
Proof.
  intros Hj Hv Hb. destruct (pt_init_ok (jobids + vpids + Z.of_nat (length os)) jobids vpids) as (pt0 & E0 & Hrel0); [lia..|].
  destruct (pt_run_ok os _ 0 ∅ pt0 ∅ ∅ Hrel0) as (pt & h & mo & E & Hrel); [lia|]. destruct (map_run (to_map <$> os) ∅) as [outs m].
  exists pt0, pt, h, (pt_entries h (entries (ht_table (pt_super pt)))). split_and!; try done.
  - apply pt_traverse_ok; [apply (h_ok _ _ _ _ (p_outer _ _ _ _ _ _ Hrel))|by eapply rel_slots].
  - by eapply rel_entries.
  - by eapply rel_holds_jobs.
Qed.

(** ** Removing everything *)

Lemma remove_all_from fuel super h (i : nat) :
  length (ht_table super) = Z.to_nat (ht_capacity super) → (length (ht_table super) - i < fuel)%nat →
  NoDup (entries (drop i (ht_table super))).*2 → Forall (λ p, is_Some (h !! p.2)) (entries (drop i (ht_table super))) →
  remove_all_loop fuel super h (opal_hash_table_get_next_elt super (before i)) =
    Some (OPAL_ERROR, foldl (λ h a, delete a h) h (entries (drop i (ht_table super))).*2).
Proof.
  intros Hl. revert h i. induction fuel as [|f IH]; intros h i Hf Hnd Hall; [lia|]. cbn [remove_all_loop].
  pose proof (next_elt_spec super i Hl) as Hn. destruct (opal_hash_table_get_next_elt _ _) as [[n [j a]]|]; [|by rewrite Hn].
  destruct Hn as (k & -> & Hik & Ek & E). rewrite E in *. apply NoDup_cons in Hnd as [Hna Hnd]. apply Forall_cons in Hall as [[vp Ha] Hall].
  cbn [snd] in Ha. rewrite Ha. run. unfold opal_hash_table_get_next_key_uint32. pose proof (IH (delete a h) (S k)) as IHk. cbn [before] in IHk.
  apply lookup_lt_Some in Ek. rewrite IHk; [done|lia|done|]. apply Forall_forall. intros p Hp. rewrite lookup_delete_ne.
  - rewrite Forall_forall in Hall. by apply Hall.
  - intros ->. apply Hna. apply list_elem_of_fmap. by exists p.
Qed.

Lemma foldl_delete h l a : a ∈ l → foldl (λ h a, delete a h) h l !! a = None.
Proof.
  revert h. induction l as [|a' l IH]; intros h; [by intros ?%not_elem_of_nil|]. intros [->|Ha]%elem_of_cons; [|by apply IH]. cbn [foldl].
  assert (delete a' h !! a' = None) as E by apply lookup_delete_eq. generalize dependent (delete a' h). clear. intros h E.
  revert h E. induction l as [|b l IH]; intros h E; [done|]. cbn [foldl]. apply IH. apply lookup_delete_None. by right.
Qed.

Lemma remove_all_ends b c m pt h mo :
  pt_rel b c m pt h mo →
  ∃ h', opal_proc_table_remove_all pt h = Some (OPAL_ERROR, pt, h') ∧
    ∀ j v x, m !! (j, v) = Some x → opal_proc_table_get_value pt h' j v = None.
Proof.
  intros [Ho _ _ Hinj Hin Hno _]. pose proof (h_ok _ _ _ _ Ho) as Hok. unfold opal_proc_table_remove_all, opal_hash_table_get_first_key_uint32.
  pose proof (remove_all_from (S (Z.to_nat (ht_capacity (pt_super pt)))) (pt_super pt) h 0) as E. cbn [before] in E. rewrite drop_0 in E.
  pose proof (k_len _ _ _ Hok) as Hlen. rewrite E; clear E; [run|done|lia| |].
  - eexists. split; [done|]. intros j v x Em. destruct (mo !! j) as [a|] eqn:Ej; [|by rewrite Hno in Em].
    unfold opal_proc_table_get_value, opal_hash_table_get_value_uint32. rewrite (get_value_ok hash_int b _ mo j Ho), Ej. run.
    rewrite foldl_delete; [done|]. apply list_elem_of_fmap. exists (j, a). split; [done|]. by apply (lookup_entries hash_int _ _ _ _ _ Ho).
  - apply NoDup_fmap_2_strong; [|apply (NoDup_fmap_1 fst), Hok]. intros [j1 a1] [j2 a2] H1 H2 Ea. cbn in Ea. subst a2.
    apply (lookup_entries hash_int _ _ _ _ _ Ho) in H1, H2. f_equal. by eapply Hinj.
  - apply Forall_forall. intros [j a] H1. apply (lookup_entries hash_int _ _ _ _ _ Ho) in H1. cbn [snd]. destruct (Hin j a H1) as (vp & ? & -> & _). done.
Qed.

(** After any run, [opal_proc_table_remove_all] reports an error, and the
    outer table keeps the addresses of the tables it has released: a search for
    any name that was in the table reads a released object. *)
Theorem proc_table_remove_all_dangles jobids vpids os j v :
  0 ≤ jobids → 0 ≤ vpids → jobids + vpids + Z.of_nat (length os) ≤ 2 ^ 50 →
  is_Some ((map_run (to_map <$> os) ∅).2 !! (j, v)) →
  ∃ pt0 pt h h', opal_proc_table_init true jobids vpids = Some (OPAL_SUCCESS, pt0) ∧
    pt_run os pt0 ∅ = Some ((map_run (to_map <$> os) ∅).1, pt, h) ∧
    opal_proc_table_remove_all pt h = Some (OPAL_ERROR, pt, h') ∧ opal_proc_table_get_value pt h' j v = None.
Proof.
  intros Hj Hv Hb [x Hx]. destruct (pt_init_ok (jobids + vpids + Z.of_nat (length os)) jobids vpids) as (pt0 & E0 & Hrel0); [lia..|].
  destruct (pt_run_ok os _ 0 ∅ pt0 ∅ ∅ Hrel0) as (pt & h & mo & E & Hrel); [lia|].
  destruct (remove_all_ends _ _ _ _ _ _ Hrel) as (h' & E1 & H1). exists pt0, pt, h, h'. split_and!; try done. by eapply H1.
Qed.

End spec.

Lemma proc_table_refines_map_witness :
  let '(outs, m) := map_run (to_map <$> [PSet 1 0 true; PSet 1 1 false; PSet 2 0 true; PRemove 2 0; PGet 1 1; PGet 2 0]) ∅ in
  ∃ pt0 pt h l, opal_proc_table_init true 1 2 = Some (OPAL_SUCCESS, pt0) ∧
    pt_run [PSet 1 0 true; PSet 1 1 false; PSet 2 0 true; PRemove 2 0; PGet 1 1; PGet 2 0] pt0 ∅ = Some (outs, pt, h) ∧
    pt_traverse (S (length l)) pt h None = Some l ∧ l ≡ₚ map_to_list m ∧ holds_jobs m pt h.
Proof. apply proc_table_refines_map; cbn; lia. Defined.

Lemma proc_table_remove_all_dangles_witness :
  ∃ pt0 pt h h', opal_proc_table_init true 1 2 = Some (OPAL_SUCCESS, pt0) ∧
    pt_run [PSet 1 0 true] pt0 ∅ = Some ((map_run (to_map <$> [PSet 1 0 true]) ∅).1, pt, h) ∧
    opal_proc_table_remove_all pt h = Some (OPAL_ERROR, pt, h') ∧ opal_proc_table_get_value pt h' 1 0 = None.
Proof. apply proc_table_remove_all_dangles; [lia..|cbn; lia|]. vm_compute. by eexists. Defined.

End OpalProcTableSpec.
