(* ===== verification/OpalPointerArray.v ===== *)
(** * Pointer arrays ([opal/class/opal_pointer_array.c])

    An array of pointers that grows in blocks, with a bit per element that says
    whether it is in use, the number of free elements and the index of the
    lowest one.  A pointer is an [option]: [None] is NULL.  [None] as the result
    of an operation is a failed assertion, a signed overflow or an access outside
    an array.  [ok1] and [ok2] say whether the allocations of the two arrays
    succeed. *)

From stdpp Require Import base numbers list.
From S2P Require Import Prelude.

Local Open Scope Z_scope.
Local Open Scope c_scope.

Module OpalPointerArray.

Inductive status := OPAL_SUCCESS | OPAL_ERROR | OPAL_ERR_BAD_PARAM | OPAL_ERR_OUT_OF_RESOURCE.

Section array.
Context {V : Type}.

Record opal_pointer_array_t := mk_pa {
  lowest_free : Z;
  number_free : Z;
  pa_size : Z;
  max_size : Z;
  block_size : Z;
  free_bits : list Z;
  addr : list (option V);
}.

Definition opal_pointer_array_construct : opal_pointer_array_t := mk_pa 0 0 0 INT_MAX 8 [] [].

Definition TYPE_ELEM_COUNT (cap : Z) : Z := wrap 64 (cap + 63) / 64.

Definition GET_BIT_POS (idx : Z) : Z * Z := (wrap 32 idx / 64, wrap 32 idx `mod` 64).

Definition ALL_ONES : Z := 0xFFFFFFFFFFFFFFFF.

(** The first word from [b_idx] on that is not full. *)
Fixpoint skip_full (words : list Z) (b_idx : Z) : option (Z * Z) :=
  match words with
  | [] => None
  | w :: ws => if w =? ALL_ONES then skip_full ws (b_idx + 1) else Some (b_idx, w)
  end.

(** One step of the binary search for the lowest zero bit, over [k] bits. *)
Definition skip_ones (k : Z) (s : Z * Z) : Z * Z :=
  let '(check_value, b_pos) := s in
  if Z.ones k =? Z.land check_value (Z.ones k) then (Z.shiftr check_value k, b_pos + k) else (check_value, b_pos).

Definition first_zero_bit (w : Z) : Z := (skip_ones 1 (skip_ones 2 (skip_ones 4 (skip_ones 8 (skip_ones 16 (skip_ones 32 (w, 0))))))).2.

Definition FIND_FIRST_ZERO (table : opal_pointer_array_t) (start_idx : Z) : option Z :=
  if number_free table =? 0 then Some (pa_size table)
  else
    let '(b_idx, _) := GET_BIT_POS start_idx in
    '(b_idx, check_value) ← skip_full (drop (Z.to_nat b_idx) (free_bits table)) b_idx;
    safe (b_idx <? wrap 32 (pa_size table));
    Some (swrap 32 (b_idx * 64 + first_zero_bit check_value)).

Definition SET_BIT (bits : list Z) (idx : Z) : option (list Z) :=
  let '(b_idx, b_pos) := GET_BIT_POS idx in
  w ← bits !! Z.to_nat b_idx;
  safe (Z.land w (Z.shiftl 1 b_pos) =? 0);
  Some (<[Z.to_nat b_idx := Z.lor w (Z.shiftl 1 b_pos)]> bits).

Definition UNSET_BIT (bits : list Z) (idx : Z) : option (list Z) :=
  let '(b_idx, b_pos) := GET_BIT_POS idx in
  w ← bits !! Z.to_nat b_idx;
  safe (negb (Z.land w (Z.shiftl 1 b_pos) =? 0));
  Some (<[Z.to_nat b_idx := Z.lxor w (Z.shiftl 1 b_pos)]> bits).

Definition opal_pointer_array_init (ok1 ok2 : bool) (array : opal_pointer_array_t) (initial_allocation max block : Z)
    : status * opal_pointer_array_t :=
  if max <? block then (OPAL_ERR_BAD_PARAM, array)
  else
    let block' := if block =? 0 then 8 else block in
    let num_bytes := wrap 64 (if 0 <? initial_allocation then initial_allocation else block) in
    if negb (ok1 && (num_bytes <=? INT_MAX)) then
      (OPAL_ERR_OUT_OF_RESOURCE, mk_pa 0 (number_free array) (pa_size array) max block' (free_bits array) [])
    else if negb ok2 then
      (OPAL_ERR_OUT_OF_RESOURCE, mk_pa 0 (number_free array) (pa_size array) max block' [] [])
    else
      (OPAL_SUCCESS, mk_pa 0 num_bytes num_bytes max block'
                       (replicate (Z.to_nat (TYPE_ELEM_COUNT num_bytes)) 0) (replicate (Z.to_nat num_bytes) None)).

(** The new size for an array that must have an element [at_least]; the inner
    option is [false] returned. *)
Definition grown_size (table : opal_pointer_array_t) (at_least : Z) : option (option Z) :=
  x ← cint (at_least + 1);
  y ← cint (x + block_size table);
  z ← cint (y - 1);
  safe (negb (block_size table =? 0));
  new_size ← cint (block_size table * Z.quot z (block_size table));
  if max_size table <=? new_size then
    Some (if max_size table <=? at_least then None else Some (max_size table))
  else Some (Some new_size).

Definition grow_table (ok1 ok2 : bool) (table : opal_pointer_array_t) (at_least : Z) : option (bool * opal_pointer_array_t) :=
  r ← grown_size table at_least;
  match r with
  | None => Some (false, table)
  | Some new_size =>
      if negb ok1 then Some (false, table)
      else
        let number_free := number_free table + (new_size - pa_size table) in
        let addr := resize (Z.to_nat new_size) None (take (Z.to_nat (pa_size table)) (addr table)) in
        let new_size_int := TYPE_ELEM_COUNT new_size in
        let old_size_int := TYPE_ELEM_COUNT (pa_size table) in
        if old_size_int =? new_size_int then
          Some (true, mk_pa (lowest_free table) number_free new_size (max_size table) (block_size table) (free_bits table) addr)
        else if negb ok2 then
          Some (false, mk_pa (lowest_free table) number_free (pa_size table) (max_size table) (block_size table) (free_bits table) addr)
        else
          let bits := resize (Z.to_nat new_size_int) 0 (take (Z.to_nat old_size_int) (free_bits table)) in
          Some (true, mk_pa (lowest_free table) number_free new_size (max_size table) (block_size table) bits addr)
  end.

(** Growing the table when [needed]. *)
Definition grow_if (needed : bool) (ok1 ok2 : bool) (table : opal_pointer_array_t) (at_least : Z) : option (bool * opal_pointer_array_t) :=
  if needed then grow_table ok1 ok2 table at_least else Some (true, table).

Definition with_lowest_free (table : opal_pointer_array_t) (lf : Z) : opal_pointer_array_t :=
  mk_pa lf (number_free table) (pa_size table) (max_size table) (block_size table) (free_bits table) (addr table).

(** [table->addr[index] = ptr; table->number_free--; SET_BIT(index);] *)
Definition take_slot (table : opal_pointer_array_t) (index : Z) (ptr : option V) : option opal_pointer_array_t :=
  bits ← SET_BIT (free_bits table) index;
  Some (mk_pa (lowest_free table) (number_free table - 1) (pa_size table) (max_size table) (block_size table) bits
          (<[Z.to_nat index := ptr]> (addr table))).

Definition opal_pointer_array_add (ok1 ok2 : bool) (table : opal_pointer_array_t) (ptr : option V)
    : option ((status + Z) * opal_pointer_array_t) :=
  index ← cint (pa_size table + 1);
  '(grown, table) ← grow_if (number_free table =? 0) ok1 ok2 table index;
  if negb grown then Some (inl OPAL_ERR_OUT_OF_RESOURCE, table)
  else
    safe (0 <? pa_size table);
    safe ((0 <=? lowest_free table) && (lowest_free table <? pa_size table));
    safe ((0 <? number_free table) && (number_free table <=? pa_size table));
    let index := lowest_free table in
    old ← addr table !! Z.to_nat index;
    safe (match old with None => true | Some _ => false end);
    table ← take_slot table index ptr;
    lf ← (if 0 <? number_free table then FIND_FIRST_ZERO table index else Some (pa_size table));
    Some (inr index, with_lowest_free table lf).

Definition opal_pointer_array_set_item (ok1 ok2 : bool) (table : opal_pointer_array_t) (index : Z) (value : option V)
    : option (status * opal_pointer_array_t) :=
  if index <? 0 then Some (OPAL_ERROR, table)
  else
    '(grown, table) ← grow_if (pa_size table <=? index) ok1 ok2 table index;
    if negb grown then Some (OPAL_ERROR, table)
    else
      safe (index <? pa_size table);
      old ← addr table !! Z.to_nat index;
      match value, old with
      | None, Some _ =>
          let lf := if index <? lowest_free table then index else lowest_free table in
          bits ← UNSET_BIT (free_bits table) index;
          Some (OPAL_SUCCESS, mk_pa lf (number_free table + 1) (pa_size table) (max_size table) (block_size table) bits
                                (<[Z.to_nat index := None]> (addr table)))
      | None, None => Some (OPAL_SUCCESS, table)
      | Some _, None =>
          table ← take_slot table index value;
          lf ← (if index =? lowest_free table then FIND_FIRST_ZERO table index else Some (lowest_free table));
          Some (OPAL_SUCCESS, with_lowest_free table lf)
      | Some _, Some _ =>
          safe (negb (index =? lowest_free table));
          Some (OPAL_SUCCESS, mk_pa (lowest_free table) (number_free table) (pa_size table) (max_size table) (block_size table)
                                (free_bits table) (<[Z.to_nat index := value]> (addr table)))
      end.

Definition opal_pointer_array_get_item (table : opal_pointer_array_t) (element_index : Z) : option (option V) :=
  if (element_index <? 0) || (pa_size table <=? element_index) then Some None
  else addr table !! Z.to_nat element_index.

Definition opal_pointer_array_get_size (table : opal_pointer_array_t) : Z := pa_size table.

Definition opal_pointer_array_test_and_set_item (ok1 ok2 : bool) (table : opal_pointer_array_t) (index : Z) (value : option V)
    : option (bool * opal_pointer_array_t) :=
  safe (0 <=? index);
  in_use ← (if index <? pa_size table then
              old ← addr table !! Z.to_nat index; Some (match old with Some _ => true | None => false end)
            else Some false);
  if (in_use : bool) then Some (false, table)
  else
    '(grown, table) ← grow_if (pa_size table <=? index) ok1 ok2 table index;
    if negb grown then Some (false, table)
    else
      old ← addr table !! Z.to_nat index;
      safe (match old with None => true | Some _ => false end);
      table ← take_slot table index value;
      lf ← (if 0 <? number_free table then
              if index =? lowest_free table then FIND_FIRST_ZERO table index else Some (lowest_free table)
            else Some (pa_size table));
      Some (true, with_lowest_free table lf).

Definition opal_pointer_array_set_size (ok1 ok2 : bool) (array : opal_pointer_array_t) (new_size : Z)
    : option (status * opal_pointer_array_t) :=
  '(grown, array) ← grow_if (pa_size array <? new_size) ok1 ok2 array new_size;
  Some (if (grown : bool) then OPAL_SUCCESS else OPAL_ERROR, array).

Definition opal_pointer_array_remove_all (array : opal_pointer_array_t) : opal_pointer_array_t :=
  if number_free array =? pa_size array then array
  else mk_pa 0 (pa_size array) (pa_size array) (max_size array) (block_size array)
         (replicate (Z.to_nat (TYPE_ELEM_COUNT (pa_size array))) 0 ++ drop (Z.to_nat (TYPE_ELEM_COUNT (pa_size array))) (free_bits array))
         (replicate (Z.to_nat (pa_size array)) None ++ drop (Z.to_nat (pa_size array)) (addr array)).

End array.

End OpalPointerArray.
