(* ===== verification/OpalPointerArraySpec.v ===== *)
(** * Pointer arrays are growing arrays with the least free index at hand

    [pa_rel] relates the record of the code to the list of its pointers: the bits
    say which elements are in use, [lowest_free] is the least free index (the
    size when there is none) and [number_free] counts the free ones.
    [pointer_array_refines] follows any sequence of operations. *)

From stdpp Require Import base numbers list.
From S2P Require Import Prelude OpalPointerArray.
Import OpalPointerArray.

Local Open Scope Z_scope.
Local Open Scope c_scope.

Module OpalPointerArraySpec.

(** ** The lowest zero bit of a word *)

(** All bits below [b_pos] are ones and there is a zero in the next [n]. *)
Definition zero_within (w n : Z) (s : Z * Z) : Prop :=
  s.1 = Z.shiftr w s.2 ∧ 0 ≤ s.2 ≤ 64 - n ∧ (∀ i, 0 ≤ i < s.2 → Z.testbit w i = true) ∧ ∃ i, s.2 ≤ i < s.2 + n ∧ Z.testbit w i = false.

Lemma ones_land_testbit v k : 0 ≤ k → Z.ones k = Z.land v (Z.ones k) ↔ ∀ i, 0 ≤ i < k → Z.testbit v i = true.
Proof.
  intros Hk. split.
  - intros E i Hi. assert (Z.testbit (Z.land v (Z.ones k)) i = true) as Ht by (rewrite <- E; apply Z.ones_spec_low; lia).
    rewrite Z.land_spec in Ht. by apply andb_prop in Ht as [? _].
  - intros Hb. apply Z.bits_inj'. intros i Hi. rewrite Z.land_spec. destruct (decide (i < k)).
    + by rewrite Z.ones_spec_low, Hb by lia.
    + by rewrite Z.ones_spec_high, andb_false_r by lia.
Qed.

Lemma skip_ones_ok w k s : 0 < k → zero_within w (2 * k) s → zero_within w k (skip_ones k s).
Proof.
  destruct s as [v p]. intros Hk (E & Hp & Hb & i & Hi & Hz). cbn [fst snd] in *. subst v. unfold skip_ones.
  destruct (Z.eqb_spec (Z.ones k) (Z.land (Z.shiftr w p) (Z.ones k))) as [Ho|Ho]; cbn [fst snd].
  - rewrite ones_land_testbit in Ho by lia.
    assert (∀ j, p ≤ j < p + k → Z.testbit w j = true) as Hb'.
    { intros j Hj. rewrite <- (Ho (j - p)), Z.shiftr_spec by lia. f_equal. lia. }
    split_and!; cbn [fst snd]; [by rewrite Z.shiftr_shiftr by lia|lia|lia| |].
    + intros j Hj. destruct (decide (j < p)); [apply Hb|apply Hb']; lia.
    + exists i. split; [|done]. destruct (decide (i < p + k)); [|lia]. rewrite Hb' in Hz by lia. done.
  - split_and!; cbn [fst snd]; [done|lia|lia|done|]. rewrite ones_land_testbit in Ho by lia.
    destruct (decide (Forall (λ j, Z.testbit w (p + Z.of_nat j) = true) (seq 0 (Z.to_nat k)))) as [Hall|Hall].
    + exfalso. apply Ho. intros j Hj. rewrite Forall_forall in Hall. rewrite Z.shiftr_spec by lia.
      specialize (Hall (Z.to_nat j)). rewrite Z2Nat.id in Hall by lia. rewrite Z.add_comm. apply Hall, elem_of_seq. lia.
    + apply not_Forall_Exists in Hall; [|apply _]. apply Exists_exists in Hall as (j & Hj & Hf). apply elem_of_seq in Hj.
      exists (p + Z.of_nat j). split; [lia|]. by apply not_true_is_false.
Qed.

Lemma first_zero_bit_ok w :
  0 ≤ w < 2 ^ 64 → w ≠ ALL_ONES →
  0 ≤ first_zero_bit w < 64 ∧ Z.testbit w (first_zero_bit w) = false ∧ ∀ i, 0 ≤ i < first_zero_bit w → Z.testbit w i = true.
Proof.
  intros Hw Hne. assert (zero_within w 64 (w, 0)) as H64.
  { split_and!; cbn [fst snd]; [by rewrite Z.shiftr_0_r|lia|lia|lia|].
    destruct (decide (Forall (λ j, Z.testbit w (Z.of_nat j) = true) (seq 0 64))) as [Hall|Hall].
    - exfalso. apply Hne. change ALL_ONES with (Z.ones 64). rewrite Forall_forall in Hall. apply Z.bits_inj'. intros i Hi.
      destruct (decide (i < 64)); [|by rewrite Z.ones_spec_high, (testbit_high w 64) by lia].
      rewrite Z.ones_spec_low by lia. rewrite <- (Z2Nat.id i) by lia. apply Hall, elem_of_seq. lia.
    - apply not_Forall_Exists in Hall; [|apply _]. apply Exists_exists in Hall as (j & Hj & Hf). apply elem_of_seq in Hj.
      exists (Z.of_nat j). split; [lia|]. by apply not_true_is_false. }
  apply (skip_ones_ok w 32), (skip_ones_ok w 16), (skip_ones_ok w 8), (skip_ones_ok w 4), (skip_ones_ok w 2), (skip_ones_ok w 1) in H64; try lia.
  destruct H64 as (_ & Hp & Hb & i & Hi & Hz). fold (first_zero_bit w) in *. split_and!; try lia; [|done].
  by replace i with (first_zero_bit w) in Hz by lia.
Qed.

Section spec.
Context {V : Type}.
Implicit Types (t : opal_pointer_array_t (V := V)) (l : list (option V)) (bits : list Z).

(** ** The list *)

Fixpoint first_free l : nat :=
  match l with Some _ :: l' => S (first_free l') | _ => O end.

Definition is_free (x : option V) : Z := match x with None => 1 | Some _ => 0 end.

Fixpoint free_count l : Z :=
  match l with [] => 0 | x :: l' => is_free x + free_count l' end.

(** The element [i] is in use. *)
Definition used l (i : nat) : bool := match l !! i with Some (Some _) => true | _ => false end.

Lemma first_free_used l i : (i < first_free l)%nat → used l i = true.
Proof.
  revert i. induction l as [|[x|] l IH]; intros i; cbn [first_free]; [lia| |lia]. destruct i as [|i]; [done|]. intros Hi. apply IH. lia.
Qed.

Lemma first_free_free l : used l (first_free l) = false.
Proof. induction l as [|[x|] l IH]; [done| |done]. exact IH. Qed.

Lemma first_free_le l : (first_free l ≤ length l)%nat.
Proof. induction l as [|[x|] l IH]; cbn; lia. Qed.

Lemma first_free_unique l k : (∀ i, (i < k)%nat → used l i = true) → used l k = false → first_free l = k.
Proof.
  intros Hlt Hk. destruct (Nat.lt_trichotomy (first_free l) k) as [H|[H|H]]; [|done|].
  - pose proof (first_free_free l) as Hf. by rewrite Hlt in Hf.
  - by rewrite first_free_used in Hk by done.
Qed.

Lemma used_insert l i j x : (i < length l)%nat → used (<[i := x]> l) j = if decide (i = j) then (match x with Some _ => true | None => false end) else used l j.
Proof.
  intros Hi. unfold used. destruct (decide (i = j)) as [<-|Hne]; [by rewrite list_lookup_insert_eq by done|by rewrite list_lookup_insert_ne by done].
Qed.

Lemma used_grow l n i : used (l ++ replicate n None) i = used l i.
Proof.
  unfold used. destruct (decide (i < length l)%nat); [by rewrite lookup_app_l by lia|]. rewrite lookup_app_r by lia.
  rewrite (lookup_ge_None_2 l) by lia. destruct (replicate n None !! (i - length l)%nat) as [x|] eqn:E; [|done].
  by apply lookup_replicate_1 in E as [-> _].
Qed.

Lemma first_free_grow l n : first_free (l ++ replicate n None) = first_free l.
Proof.
  apply first_free_unique; [intros i Hi|]; rewrite used_grow; [by apply first_free_used|apply first_free_free].
Qed.

Lemma free_count_insert l i old x : l !! i = Some old → free_count (<[i := x]> l) = free_count l - is_free old + is_free x.
Proof.
  revert i. induction l as [|y l IH]; intros [|i] E; cbn in E; simplify_eq; [cbn -[is_free]; lia|].
  change (<[S i := x]> (y :: l)) with (y :: <[i := x]> l). cbn [free_count]. rewrite (IH i) by done. lia.
Qed.

Lemma free_count_grow l n : free_count (l ++ replicate n None) = free_count l + Z.of_nat n.
Proof. induction l as [|x l IH]; cbn -[is_free]; [|lia]. induction n as [|n IH]; cbn -[Z.of_nat]; lia. Qed.

Lemma free_count_bounds l : 0 ≤ free_count l ≤ Z.of_nat (length l).
Proof. induction l as [|[x|] l IH]; cbn; lia. Qed.

Lemma free_count_0 l : free_count l = 0 ↔ first_free l = length l.
Proof.
  induction l as [|[x|] l IH]; cbn; [done|lia|]. pose proof (free_count_bounds l). split; [lia|done].
Qed.

(** ** The bits *)

Definition bit_at bits (i : nat) : bool :=
  match bits !! (i / 64)%nat with Some w => Z.testbit w (Z.of_nat (i mod 64)) | None => false end.

Lemma get_bit_pos (i : nat) :
  Z.of_nat i ≤ INT_MAX → GET_BIT_POS (Z.of_nat i) = (Z.of_nat (i / 64), Z.of_nat (i mod 64)).
Proof.
  unfold GET_BIT_POS, INT_MAX. intros Hi. rewrite wrap_small by lia. by rewrite Nat2Z.inj_div, Nat2Z.inj_mod.
Qed.

(** Changing bit [i] of the array, through an operation [f] on its word. *)
Lemma bit_at_change bits (i j : nat) w w' b :
  bits !! (i / 64)%nat = Some w →
  (∀ k : nat, (k < 64)%nat → Z.testbit w' (Z.of_nat k) = if decide (k = (i mod 64)%nat) then b else Z.testbit w (Z.of_nat k)) →
  bit_at (<[(i / 64)%nat := w']> bits) j = if decide (i = j) then b else bit_at bits j.
Proof.
  intros Ew Hw'. unfold bit_at. pose proof (lookup_lt_Some _ _ _ Ew) as Hlt. pose proof (Nat.mod_upper_bound j 64 ltac:(lia)).
  destruct (decide ((j / 64)%nat = (i / 64)%nat)) as [E|Hne].
  - rewrite E, list_lookup_insert_eq, Ew, Hw' by done. destruct (decide (i = j)) as [<-|Hij]; [by rewrite decide_True|].
    rewrite decide_False; [done|]. intros Em. apply Hij. rewrite (Nat.div_mod i 64), (Nat.div_mod j 64) by lia. congruence.
  - rewrite list_lookup_insert_ne by done. rewrite decide_False; [done|]. by intros <-.
Qed.

Lemma pa_set_bit_ok bits (i : nat) :
  Z.of_nat i ≤ INT_MAX → (i / 64 < length bits)%nat → Forall (λ w, 0 ≤ w < 2 ^ 64) bits → bit_at bits i = false →
  ∃ bits', SET_BIT bits (Z.of_nat i) = Some bits' ∧ length bits' = length bits ∧ Forall (λ w, 0 ≤ w < 2 ^ 64) bits' ∧
    ∀ j, bit_at bits' j = if decide (i = j) then true else bit_at bits j.
Proof.
  intros Hi Hlen Hall Hb. destruct (lookup_lt_is_Some_2 bits (i / 64)%nat Hlen) as [w Ew]. unfold SET_BIT. rewrite get_bit_pos by done.
  rewrite Nat2Z.id, Ew. run. unfold bit_at in Hb. rewrite Ew in Hb. rewrite Z.shiftl_1_l, land_pow2_testbit, Hb by lia. cbn [negb].
  eexists. split; [done|]. pose proof (Nat.mod_upper_bound i 64 ltac:(lia)). rewrite Forall_lookup in Hall. pose proof (Hall _ _ Ew) as Hw.
  split_and!; [by rewrite length_insert| |].
  - apply Forall_insert; [by apply Forall_lookup|]. split; [apply Z.lor_nonneg; lia|].
    apply bounded_by_bits; [lia|apply Z.lor_nonneg; lia|]. intros k Hk. rewrite Z.lor_spec, (testbit_high w 64), Z.pow2_bits_false by lia. done.
  - intros j. apply (bit_at_change bits i j w); [done|]. intros k Hk. rewrite Z.lor_spec, Z.pow2_bits_eqb by lia.
    destruct (decide (k = (i mod 64)%nat)) as [->|Hne]; [by rewrite Z.eqb_refl, orb_true_r|].
    destruct (Z.eqb_spec (Z.of_nat (i mod 64)) (Z.of_nat k)); [lia|]. by rewrite orb_false_r.
Qed.

Lemma unset_bit_ok bits (i : nat) :
  Z.of_nat i ≤ INT_MAX → Forall (λ w, 0 ≤ w < 2 ^ 64) bits → bit_at bits i = true →
  ∃ bits', UNSET_BIT bits (Z.of_nat i) = Some bits' ∧ length bits' = length bits ∧ Forall (λ w, 0 ≤ w < 2 ^ 64) bits' ∧
    ∀ j, bit_at bits' j = if decide (i = j) then false else bit_at bits j.
Proof.
  intros Hi Hall Hb. unfold bit_at in Hb. destruct (bits !! (i / 64)%nat) as [w|] eqn:Ew; [|done]. unfold UNSET_BIT.
  rewrite get_bit_pos by done. rewrite Nat2Z.id, Ew. run. rewrite Z.shiftl_1_l, land_pow2_testbit, Hb by lia. cbn [negb].
  eexists. split; [done|]. pose proof (Nat.mod_upper_bound i 64 ltac:(lia)). rewrite Forall_lookup in Hall. pose proof (Hall _ _ Ew) as Hw.
  split_and!; [by rewrite length_insert| |].
  - apply Forall_insert; [by apply Forall_lookup|]. split; [apply Z.lxor_nonneg; lia|].
    apply bounded_by_bits; [lia|apply Z.lxor_nonneg; lia|]. intros k Hk. rewrite Z.lxor_spec, (testbit_high w 64), Z.pow2_bits_false by lia. done.
  - intros j. apply (bit_at_change bits i j w); [done|]. intros k Hk. rewrite Z.lxor_spec, Z.pow2_bits_eqb by lia.
    destruct (decide (k = (i mod 64)%nat)) as [->|Hne]; [by rewrite Z.eqb_refl, Hb|].
    destruct (Z.eqb_spec (Z.of_nat (i mod 64)) (Z.of_nat k)); [lia|]. by rewrite xorb_false_r.
Qed.

Lemma skip_full_ok (words : list Z) b :
  Exists (λ w, w ≠ ALL_ONES) words →
  ∃ k w, skip_full words b = Some (b + Z.of_nat k, w) ∧ words !! k = Some w ∧ w ≠ ALL_ONES ∧
    ∀ j v, (j < k)%nat → words !! j = Some v → v = ALL_ONES.
Proof.
  revert b. induction words as [|w ws IH]; intros b He; [by apply Exists_nil in He|]. cbn [skip_full].
  destruct (Z.eqb_spec w ALL_ONES) as [->|Hne].
  - apply Exists_cons in He as [?|He]; [done|]. destruct (IH (b + 1) He) as (k & v & E & Ek & Hv & Hlt). exists (S k), v.
    split_and!; [rewrite E; do 2 f_equal; lia|done|done|]. intros [|j] u Hj Eu; cbn in Eu; [congruence|]. apply (Hlt j); [lia|done].
  - exists 0%nat, w. split_and!; [do 2 f_equal; lia|done|done|lia].
Qed.

(** ** The relation *)

(** The bits of the first [n] elements, for a list [l]. *)
Record bits_rel bits l : Prop := {
  b_len : length bits = Z.to_nat (TYPE_ELEM_COUNT (Z.of_nat (length l)));
  b_words : Forall (λ w, 0 ≤ w < 2 ^ 64) bits;
  b_bits : ∀ i, bit_at bits i = used l i;
}.

Record pa_rel (mx bk : Z) t l : Prop := {
  r_addr : addr t = l;
  r_size : pa_size t = Z.of_nat (length l);
  r_int : Z.of_nat (length l) ≤ INT_MAX;
  r_free : number_free t = free_count l;
  r_low : lowest_free t = Z.of_nat (first_free l);
  r_bits : bits_rel (free_bits t) l;
  r_max : max_size t = mx;
  r_block : block_size t = bk ∧ 0 < bk;
}.

Lemma elem_count n : Z.of_nat n ≤ INT_MAX → TYPE_ELEM_COUNT (Z.of_nat n) = Z.of_nat ((n + 63) / 64).
Proof. unfold TYPE_ELEM_COUNT, INT_MAX. intros Hn. rewrite wrap_small by lia. rewrite Nat2Z.inj_div. f_equal. lia. Qed.

Lemma word_in_range bits l (i : nat) :
  bits_rel bits l → Z.of_nat (length l) ≤ INT_MAX → (i < length l)%nat → (i / 64 < length bits)%nat.
Proof.
  intros [Hlen _ _] Hn Hi. rewrite Hlen, elem_count, Nat2Z.id by done. apply Nat.Div0.div_lt_upper_bound.
  pose proof (Nat.div_mod (length l + 63) 64 ltac:(lia)). pose proof (Nat.mod_upper_bound (length l + 63) 64 ltac:(lia)). lia.
Qed.

(** The search finds the least free index, from any start with all smaller
    indices in use. *)
Lemma find_first_zero_ok t l (start : nat) :
  bits_rel (free_bits t) l → Z.of_nat (length l) ≤ INT_MAX → pa_size t = Z.of_nat (length l) → number_free t = free_count l →
  (start < length l)%nat → (∀ i, (i < start)%nat → used l i = true) →
  FIND_FIRST_ZERO t (Z.of_nat start) = Some (Z.of_nat (first_free l)).
Proof.
  intros Hrel Hint Hsz Hnf Hst Hused. unfold FIND_FIRST_ZERO. rewrite Hnf, Hsz. destruct (Z.eqb_spec (free_count l) 0) as [E0|Hne].
  { apply free_count_0 in E0. by rewrite E0. }
  assert (first_free l < length l)%nat as Hff.
  { pose proof (first_free_le l). destruct (decide (first_free l = length l)) as [E|]; [|lia]. by apply free_count_0 in E. }
  rewrite get_bit_pos by lia. rewrite Nat2Z.id. pose proof (first_free_free l) as Hfree. rewrite <- (b_bits _ _ Hrel) in Hfree.
  assert (start ≤ first_free l)%nat as Hge.
  { destruct (decide (start ≤ first_free l)%nat); [done|]. pose proof (first_free_free l) as Hf. rewrite Hused in Hf; [done|lia]. }
  set (f := first_free l) in *. assert (start / 64 ≤ f / 64)%nat as Hdiv by (apply Nat.Div0.div_le_mono; lia).
  pose proof (word_in_range _ _ f Hrel Hint Hff) as Hfw. destruct (lookup_lt_is_Some_2 _ _ Hfw) as [wf Ewf].
  pose proof (b_words _ _ Hrel) as Hwords. rewrite Forall_lookup in Hwords.
  destruct (skip_full_ok (drop (start / 64) (free_bits t)) (Z.of_nat (start / 64))) as (k & w & E & Ek & Hw & Hlt).
  { apply Exists_exists. exists wf. split.
    - apply list_elem_of_lookup. exists (f / 64 - start / 64)%nat. rewrite lookup_drop. rewrite <- Ewf. f_equal. lia.
    - intros ->. unfold bit_at in Hfree. rewrite Ewf in Hfree. change ALL_ONES with (Z.ones 64) in Hfree.
      pose proof (Nat.mod_upper_bound f 64 ltac:(lia)). rewrite Z.ones_spec_low in Hfree by lia. done. }
  rewrite E. run. rewrite lookup_drop in Ek. destruct (first_zero_bit_ok w (Hwords _ _ Ek) Hw) as (Hp & Hz & Hones).
  set (q := (start / 64 + k)%nat) in *. set (p := Z.to_nat (first_zero_bit w)). assert (first_zero_bit w = Z.of_nat p) as Ep by lia.
  assert ((q * 64 + p) / 64 = q)%nat as Eq by (rewrite Nat.div_add_l, Nat.div_small by lia; lia).
  assert ((q * 64 + p) mod 64 = p)%nat as Eqm by (rewrite Nat.add_comm, Nat.Div0.mod_add; apply Nat.mod_small; lia).
  assert (first_free l = q * 64 + p)%nat as Ef.
  { apply first_free_unique.
    - intros i Hi. destruct (decide (i < start)%nat); [by apply Hused|]. rewrite <- (b_bits _ _ Hrel). unfold bit_at.
      pose proof (Nat.mod_upper_bound i 64 ltac:(lia)). pose proof (Nat.div_mod i 64 ltac:(lia)) as Hdm.
      assert (start / 64 ≤ i / 64)%nat by (apply Nat.Div0.div_le_mono; lia). assert (i / 64 ≤ q)%nat by (rewrite <- Eq; apply Nat.Div0.div_le_mono; lia).
      destruct (decide (i / 64 = q)%nat) as [Eiq|Hiq]; [rewrite Eiq, Ek; apply Hones; lia|].
      pose proof (lookup_lt_Some _ _ _ Ek) as Hql. destruct (lookup_lt_is_Some_2 (free_bits t) (i / 64)%nat ltac:(lia)) as [v Ev].
      rewrite Ev. assert (v = ALL_ONES) as ->.
      { apply (Hlt (i / 64 - start / 64)%nat); [lia|]. rewrite lookup_drop. rewrite <- Ev. f_equal. lia. }
      change ALL_ONES with (Z.ones 64). apply Z.ones_spec_low. lia.
    - rewrite <- (b_bits _ _ Hrel). unfold bit_at. by rewrite Eq, Eqm, Ek, <- Ep. }
  unfold INT_MAX in Hint. rewrite wrap_small by lia. rewrite (proj2 (Z.ltb_lt _ _)) by lia.
  f_equal. rewrite swrap_small by lia. fold f. unfold f. lia.
Qed.

(** ** Growth *)

(** The length after growing for an element [at_least]. *)
Definition grow_len (mx bk at_least : Z) : option Z :=
  let n := bk * ((at_least + bk) / bk) in
  if mx <=? n then if mx <=? at_least then None else Some mx else Some n.

Lemma grow_len_bounds mx bk at_least n :
  0 < bk → 0 ≤ at_least → grow_len mx bk at_least = Some n → at_least < n ≤ at_least + bk.
Proof.
  intros Hb Ha. unfold grow_len. pose proof (Z.div_mod (at_least + bk) bk ltac:(lia)). pose proof (Z.mod_pos_bound (at_least + bk) bk ltac:(lia)).
  destruct (Z.leb_spec mx (bk * ((at_least + bk) / bk))); [destruct (Z.leb_spec mx at_least)|]; intros; simplify_eq; lia.
Qed.

Lemma grown_size_ok mx bk t l at_least :
  pa_rel mx bk t l → 0 ≤ at_least → at_least + bk < INT_MAX → grown_size t at_least = Some (grow_len mx bk at_least).
Proof.
  intros Hrel Ha Hb. destruct Hrel as [_ _ _ _ _ _ Hm [Hbk Hpos]]. unfold grown_size. rewrite Hm, Hbk.
  unfold INT_MAX in *. pose proof (Z.div_mod (at_least + bk) bk ltac:(lia)). pose proof (Z.mod_pos_bound (at_least + bk) bk ltac:(lia)).
  rewrite (cint_Some (at_least + 1)) by (unfold INT_MIN, INT_MAX; lia). run.
  rewrite cint_Some by (unfold INT_MIN, INT_MAX; lia). run. rewrite cint_Some by (unfold INT_MIN, INT_MAX; lia). run.
  rewrite (proj2 (Z.eqb_neq bk 0)) by lia. cbn [negb]. replace (at_least + 1 + bk - 1) with (at_least + bk) by lia. rewrite Z.quot_div_nonneg by lia.
  rewrite cint_Some by (unfold INT_MIN, INT_MAX; lia). run. unfold grow_len. by destruct (Z.leb_spec mx (bk * ((at_least + bk) / bk))).
Qed.

Lemma bits_grow bits l (n : nat) :
  bits_rel bits l → Z.of_nat (length l + n) ≤ INT_MAX →
  bits_rel (resize (Z.to_nat (TYPE_ELEM_COUNT (Z.of_nat (length l + n)))) 0 bits) (l ++ replicate n None).
Proof.
  intros [Hlen Hw Hb] Hn. assert (length bits ≤ Z.to_nat (TYPE_ELEM_COUNT (Z.of_nat (length l + n))))%nat as Hle.
  { rewrite Hlen, !elem_count, !Nat2Z.id by lia. apply Nat.Div0.div_le_mono. lia. }
  rewrite resize_ge by done. split.
  - rewrite length_app, !length_replicate, length_app, length_replicate. lia.
  - apply Forall_app. split; [done|]. apply Forall_replicate. lia.
  - intros i. rewrite used_grow, <- Hb. unfold bit_at. destruct (decide (i / 64 < length bits)%nat); [by rewrite lookup_app_l by done|].
    rewrite lookup_app_r, (lookup_ge_None_2 bits) by lia. destruct (replicate _ 0 !! _) as [w|] eqn:E; [|done].
    apply lookup_replicate_1 in E as [-> _]. apply Z.bits_0.
Qed.

Lemma grow_table_ok mx bk t l at_least (ok1 : bool) :
  pa_rel mx bk t l → Z.of_nat (length l) ≤ at_least → at_least + bk < INT_MAX →
  match (if ok1 then grow_len mx bk at_least else None) with
  | None => grow_table ok1 true t at_least = Some (false, t)
  | Some n => ∃ t', grow_table ok1 true t at_least = Some (true, t') ∧ pa_rel mx bk t' (l ++ replicate (Z.to_nat n - length l) None)
  end.
Proof.
  intros Hrel Ha Hb. unfold grow_table. rewrite (grown_size_ok mx bk t l) by (done || lia). run.
  destruct ok1; [|by destruct (grow_len _ _ _)]. destruct (grow_len mx bk at_least) as [n|] eqn:E; [|done].
  destruct Hrel as [Hadr Hsz Hint Hnf Hlf Hbits Hm [Hbk Hpos]]. pose proof (grow_len_bounds mx bk at_least n Hpos ltac:(lia) E) as Hn.
  cbn [negb]. rewrite Hadr, Hsz, Hnf, Hlf, Nat2Z.id, firstn_all, resize_ge by lia.
  pose proof (bits_grow (free_bits t) l (Z.to_nat n - length l) Hbits ltac:(lia)) as Hgrow.
  replace (length l + (Z.to_nat n - length l))%nat with (Z.to_nat n) in Hgrow by lia. rewrite Z2Nat.id in Hgrow by lia.
  set (l' := l ++ replicate (Z.to_nat n - length l) None) in *.
  assert (length l' = Z.to_nat n) as Hl'. { unfold l'. rewrite length_app, length_replicate. lia. }
  assert (∀ bits, bits_rel bits l' →
    pa_rel mx bk (mk_pa (Z.of_nat (first_free l)) (free_count l + (n - Z.of_nat (length l))) n (max_size t) (block_size t) bits l') l') as Hdone.
  { intros bits Hb'. split; cbn; try done; try lia; unfold l'; rewrite ?free_count_grow, ?first_free_grow; lia. }
  destruct (Z.eqb_spec (TYPE_ELEM_COUNT (Z.of_nat (length l))) (TYPE_ELEM_COUNT n)) as [Ee|_].
  - eexists. split; [done|]. apply Hdone. rewrite <- Ee, <- (b_len _ _ Hbits), resize_all in Hgrow. exact Hgrow.
  - eexists. split; [done|]. apply Hdone. rewrite firstn_all2; [done|]. rewrite (b_len _ _ Hbits). lia.
Qed.

(** The list after an optional growth, [None] when it fails. *)
Definition spec_grow (mx bk : Z) (ok : bool) l (needed : bool) (at_least : Z) : option (list (option V)) :=
  if needed then
    n ← (if ok then grow_len mx bk at_least else None); Some (l ++ replicate (Z.to_nat n - length l) None)
  else Some l.

Lemma grow_if_ok mx bk t l at_least (ok1 needed : bool) :
  pa_rel mx bk t l → (needed = true → Z.of_nat (length l) ≤ at_least ∧ at_least + bk < INT_MAX) →
  match spec_grow mx bk ok1 l needed at_least with
  | None => grow_if needed ok1 true t at_least = Some (false, t)
  | Some l' => ∃ t', grow_if needed ok1 true t at_least = Some (true, t') ∧ pa_rel mx bk t' l' ∧ first_free l' = first_free l ∧
                 (∀ i, used l' i = used l i) ∧ (length l ≤ length l')%nat ∧
                 (needed = true → Z.of_nat (length l) ≤ at_least < Z.of_nat (length l') ∧ Z.of_nat (length l') ≤ at_least + bk)
  end.
Proof.
  intros Hrel Hb. unfold spec_grow, grow_if. destruct needed; [|eexists; split_and!; try done; lia]. destruct (Hb eq_refl) as [Ha Hm].
  pose proof (grow_table_ok mx bk t l at_least ok1 Hrel Ha Hm) as Hg. pose proof (r_block _ _ _ _ Hrel) as [_ Hpos].
  destruct ok1; [|done]. destruct (grow_len mx bk at_least) as [n|] eqn:E; [|done]. run. destruct Hg as (t' & Eg & Hrel').
  pose proof (grow_len_bounds mx bk at_least n Hpos ltac:(lia) E). exists t'. split_and!; try done.
  - apply first_free_grow.
  - intros i. apply used_grow.
  - rewrite length_app. lia.
  - intros _. rewrite length_app, length_replicate. lia.
Qed.

(** ** Operations *)

Lemma bits_insert bits bits' l (i : nat) x :
  bits_rel bits l → (i < length l)%nat → length bits' = length bits → Forall (λ w, 0 ≤ w < 2 ^ 64) bits' →
  (∀ j, bit_at bits' j = if decide (i = j) then (match x with Some _ => true | None => false end) else bit_at bits j) →
  bits_rel bits' (<[i := x]> l).
Proof.
  intros [Hlen _ Hb] Hi Hl' Hw' Hb'. split; [by rewrite length_insert, Hl'|done|]. intros j. rewrite Hb', used_insert by done. by rewrite Hb.
Qed.

Lemma free_lookup l (i : nat) : (i < length l)%nat → used l i = false → l !! i = Some None.
Proof. unfold used. intros Hi. destruct (lookup_lt_is_Some_2 l i Hi) as [[x|] ->]; done. Qed.

Lemma take_slot_ok mx bk t l (i : nat) x :
  pa_rel mx bk t l → (i < length l)%nat → used l i = false →
  let l' := <[i := Some x]> l in
  ∃ t', take_slot t (Z.of_nat i) (Some x) = Some t' ∧
    pa_size t' = Z.of_nat (length l') ∧ number_free t' = free_count l' ∧ lowest_free t' = Z.of_nat (first_free l) ∧
    pa_rel mx bk (with_lowest_free t' (Z.of_nat (first_free l'))) l' ∧
    (i = first_free l → FIND_FIRST_ZERO t' (Z.of_nat i) = Some (Z.of_nat (first_free l'))) ∧
    (i ≠ first_free l → first_free l' = first_free l).
Proof.
  intros [Hadr Hsz Hint Hnf Hlf Hbits Hm Hbk] Hi Hfree l'. pose proof (free_lookup l i Hi Hfree) as El. unfold take_slot.
  destruct (pa_set_bit_ok (free_bits t) i) as (bits & E & Hlen & Hw & Hb); [lia|by eapply word_in_range|apply Hbits| |].
  { by rewrite (b_bits _ _ Hbits). }
  rewrite E. run. eexists. split; [done|]. cbn [pa_size number_free lowest_free].
  assert (bits_rel bits l') as Hbits' by (by apply (bits_insert (free_bits t))).
  assert (free_count l' = free_count l - 1) as Hc by (unfold l'; rewrite (free_count_insert _ _ None) by done; cbn; lia).
  assert (length l' = length l) as Hl' by apply length_insert.
  assert (∀ j, used l' j = if decide (i = j) then true else used l j) as Hu by (intros j; by apply used_insert).
  split_and!; [lia|lia|done| | |].
  - split; cbn; rewrite ?Hl', ?Hadr, ?Nat2Z.id; try done. lia.
  - intros ->. apply (find_first_zero_ok _ l'); cbn; try done; try lia. intros j Hj. rewrite Hu. case_decide; [done|]. by apply first_free_used.
  - intros Hne. apply first_free_unique.
    + intros j Hj. rewrite Hu. case_decide; [done|]. by apply first_free_used.
    + rewrite Hu, decide_False by done. apply first_free_free.
Qed.

(** What each operation does to the list; [ok] is whether an allocation
    succeeds. *)
Definition spec_add mx bk (ok : bool) l (x : V) : (status + Z) * list (option V) :=
  match spec_grow mx bk ok l (bool_decide (first_free l = length l)) (Z.of_nat (length l) + 1) with
  | None => (inl OPAL_ERR_OUT_OF_RESOURCE, l)
  | Some l' => (inr (Z.of_nat (first_free l)), <[first_free l := Some x]> l')
  end.

Definition spec_set_item mx bk (ok : bool) l (i : Z) (x : option V) : status * list (option V) :=
  if i <? 0 then (OPAL_ERROR, l)
  else match spec_grow mx bk ok l (Z.of_nat (length l) <=? i) i with
       | None => (OPAL_ERROR, l)
       | Some l' => (OPAL_SUCCESS, <[Z.to_nat i := x]> l')
       end.

Definition spec_test_and_set mx bk (ok : bool) l (i : Z) (x : V) : bool * list (option V) :=
  if used l (Z.to_nat i) then (false, l)
  else match spec_grow mx bk ok l (Z.of_nat (length l) <=? i) i with
       | None => (false, l)
       | Some l' => (true, <[Z.to_nat i := Some x]> l')
       end.

Definition spec_set_size mx bk (ok : bool) l (n : Z) : status * list (option V) :=
  match spec_grow mx bk ok l (Z.of_nat (length l) <? n) n with
  | None => (OPAL_ERROR, l)
  | Some l' => (OPAL_SUCCESS, l')
  end.

Lemma add_ok mx bk ok t l x :
  pa_rel mx bk t l → Z.of_nat (length l) + 1 + bk < INT_MAX →
  ∃ t', opal_pointer_array_add ok true t (Some x) = Some ((spec_add mx bk ok l x).1, t') ∧ pa_rel mx bk t' (spec_add mx bk ok l x).2.
Proof.
  intros Hrel Hb. pose proof (r_block _ _ _ _ Hrel) as [_ Hpos]. unfold opal_pointer_array_add. rewrite (r_size _ _ _ _ Hrel).
  unfold INT_MAX in Hb. rewrite cint_Some by (unfold INT_MIN, INT_MAX; lia). run.
  assert ((number_free t =? 0) = bool_decide (first_free l = length l)) as ->.
  { rewrite (r_free _ _ _ _ Hrel). destruct (Z.eqb_spec (free_count l) 0) as [E|E]; rewrite free_count_0 in E;
      [by rewrite bool_decide_true|by rewrite bool_decide_false]. }
  pose proof (grow_if_ok mx bk t l (Z.of_nat (length l) + 1) ok (bool_decide (first_free l = length l)) Hrel) as Hg. unfold spec_add.
  destruct (spec_grow _ _ _ _ _ _) as [l1|]; [|rewrite Hg by (intros; unfold INT_MAX; lia); run; by exists t].
  destruct Hg as (t1 & -> & Hrel1 & Hff & Hu & Hle & Hlen); [intros; unfold INT_MAX; lia|]. run. cbn [negb].
  pose proof Hrel1 as [Hadr Hsz Hint Hnf Hlf _ _ _].
  assert (first_free l < length l1)%nat as Hlt.
  { pose proof (first_free_le l). case_bool_decide; [specialize (Hlen eq_refl); lia|lia]. }
  pose proof (free_count_bounds l1) as Hfc. assert (free_count l1 ≠ 0) as Hfc0 by (rewrite free_count_0; lia).
  rewrite Hsz, Hlf, Hnf, Hff, Nat2Z.id, !(proj2 (Z.ltb_lt _ _)), !(proj2 (Z.leb_le _ _)) by lia. cbn [andb].
  assert (used l1 (first_free l) = false) as Huf by (rewrite Hu; apply first_free_free).
  rewrite Hadr, (free_lookup l1 _ Hlt Huf). run.
  destruct (take_slot_ok mx bk t1 l1 (first_free l) x Hrel1 Hlt Huf) as (t2 & -> & Hsz2 & Hnf2 & _ & Hrel2 & Hfind & _). run.
  rewrite Hnf2, Hsz2. destruct (Z.ltb_spec 0 (free_count (<[first_free l := Some x]> l1))).
  - rewrite Hfind by done. run. eexists. split; [done|]. done.
  - run. eexists. split; [done|]. cbn [snd]. pose proof (free_count_bounds (<[first_free l := Some x]> l1)).
    assert (first_free (<[first_free l := Some x]> l1) = length (<[first_free l := Some x]> l1)) as <- by (apply free_count_0; lia). done.
Qed.

Lemma set_item_ok mx bk ok t l i x :
  pa_rel mx bk t l → i + bk < INT_MAX →
  ∃ t', opal_pointer_array_set_item ok true t i x = Some ((spec_set_item mx bk ok l i x).1, t') ∧ pa_rel mx bk t' (spec_set_item mx bk ok l i x).2.
Proof.
  intros Hrel Hb. unfold opal_pointer_array_set_item, spec_set_item. destruct (Z.ltb_spec i 0) as [|Hi]; [by exists t|].
  rewrite (r_size _ _ _ _ Hrel). pose proof (grow_if_ok mx bk t l i ok (Z.of_nat (length l) <=? i) Hrel) as Hg.
  destruct (spec_grow _ _ _ _ _ _) as [l1|]; [|rewrite Hg by (intros; lia); run; by exists t].
  destruct Hg as (t1 & -> & Hrel1 & Hff & Hu & Hle & Hlen); [intros; lia|]. run. cbn [negb]. pose proof Hrel1 as [Hadr Hsz Hint Hnf Hlf Hbits Hm Hbk].
  assert (i < Z.of_nat (length l1)) as Hlt. { destruct (Z.leb_spec (Z.of_nat (length l)) i); [specialize (Hlen eq_refl)|]; lia. }
  rewrite Hsz, (proj2 (Z.ltb_lt _ _)), Hadr by lia. rewrite <- (Z2Nat.id i) in * by lia. set (n := Z.to_nat i) in *. rewrite Nat2Z.id in *.
  destruct (lookup_lt_is_Some_2 l1 n ltac:(lia)) as [old Eo]. rewrite Eo. run. rewrite Hlf, Hnf.
  destruct x as [x|], old as [y|].
  - assert (n ≠ first_free l1) as Hne. { intros ->. pose proof (first_free_free l1) as Hf. unfold used in Hf. by rewrite Eo in Hf. }
    destruct (Z.eqb_spec (Z.of_nat n) (Z.of_nat (first_free l1))); [lia|]. cbn [negb]. eexists. split; [done|]. cbn [snd].
    assert (∀ j, used (<[n := Some x]> l1) j = used l1 j) as Hu1.
    { intros j. rewrite used_insert by lia. case_decide; [subst j; unfold used; by rewrite Eo|done]. }
    split; cbn; rewrite ?length_insert; try done.
    + rewrite (free_count_insert _ _ (Some y)) by done. cbn. lia.
    + f_equal. symmetry. apply first_free_unique; [intros j Hj; rewrite Hu1; by apply first_free_used|rewrite Hu1; apply first_free_free].
    + destruct Hbits as [Hb1 Hb2 Hb3]. split; [by rewrite length_insert|done|]. intros j. by rewrite Hu1.
  - assert (used l1 n = false) as Huf by (unfold used; by rewrite Eo).
    destruct (take_slot_ok mx bk t1 l1 n x Hrel1 ltac:(lia) Huf) as (t2 & -> & _ & _ & Hlf2 & Hrel2 & Hfind & Hsame). run. rewrite Hlf2.
    destruct (Z.eqb_spec (Z.of_nat n) (Z.of_nat (first_free l1))) as [E|E].
    + rewrite Hfind by lia. run. by eexists.
    + run. eexists. split; [done|]. cbn [snd]. rewrite <- Hsame by lia. done.
  - destruct (unset_bit_ok (free_bits t1) n) as (bits & -> & Hl' & Hw' & Hb'); [lia|apply Hbits| |].
    { rewrite (b_bits _ _ Hbits). unfold used. by rewrite Eo. }
    run. eexists. split; [done|]. cbn [snd]. assert (bits_rel bits (<[n := None]> l1)) as Hbits' by (apply (bits_insert (free_bits t1)); [done|lia|done..]).
    assert (∀ j, used (<[n := None]> l1) j = if decide (n = j) then false else used l1 j) as Hu1 by (intros j; apply used_insert; lia).
    split; cbn; rewrite ?length_insert; try done.
    + rewrite (free_count_insert _ _ (Some y)) by done. cbn. lia.
    + assert (first_free (<[n := None]> l1) = Nat.min n (first_free l1)) as ->; [|destruct (Z.ltb_spec (Z.of_nat n) (Z.of_nat (first_free l1))); lia].
      apply first_free_unique.
      * intros j Hj. rewrite Hu1, decide_False by lia. apply first_free_used. lia.
      * rewrite Hu1. case_decide; [done|]. replace (Nat.min n (first_free l1)) with (first_free l1) by lia. apply first_free_free.
  - eexists. split; [done|]. cbn [snd]. by rewrite list_insert_id.
Qed.

Lemma test_and_set_ok mx bk ok t l i x :
  pa_rel mx bk t l → 0 ≤ i → i + bk < INT_MAX →
  ∃ t', opal_pointer_array_test_and_set_item ok true t i (Some x) = Some ((spec_test_and_set mx bk ok l i x).1, t') ∧
    pa_rel mx bk t' (spec_test_and_set mx bk ok l i x).2.
Proof.
  intros Hrel Hi Hb. unfold opal_pointer_array_test_and_set_item, spec_test_and_set. rewrite (proj2 (Z.leb_le _ _)), (r_size _ _ _ _ Hrel), (r_addr _ _ _ _ Hrel) by lia.
  assert ((if i <? Z.of_nat (length l) then old ← l !! Z.to_nat i; Some (match old with Some _ => true | None => false end) else Some false) =
          Some (used l (Z.to_nat i))) as ->.
  { unfold used. destruct (Z.ltb_spec i (Z.of_nat (length l))); [|by rewrite lookup_ge_None_2 by lia].
    destruct (lookup_lt_is_Some_2 l (Z.to_nat i) ltac:(lia)) as [[y|] ->]; done. }
  run. destruct (used l (Z.to_nat i)) eqn:Eu; [by exists t|]. pose proof (grow_if_ok mx bk t l i ok (Z.of_nat (length l) <=? i) Hrel) as Hg.
  destruct (spec_grow _ _ _ _ _ _) as [l1|]; [|rewrite Hg by (intros; lia); run; by exists t].
  destruct Hg as (t1 & -> & Hrel1 & Hff & Hu & Hle & Hlen); [intros; lia|]. run. cbn [negb]. pose proof Hrel1 as [Hadr _ _ _ _ _ _ _].
  assert (i < Z.of_nat (length l1)) as Hlt. { destruct (Z.leb_spec (Z.of_nat (length l)) i); [specialize (Hlen eq_refl)|]; lia. }
  rewrite <- Hu in Eu. rewrite Hadr, (free_lookup l1 (Z.to_nat i) ltac:(lia) Eu). run. rewrite <- (Z2Nat.id i) in * by lia. set (n := Z.to_nat i) in *. rewrite Nat2Z.id in *.
  destruct (take_slot_ok mx bk t1 l1 n x Hrel1 ltac:(lia) Eu) as (t2 & -> & Hsz2 & Hnf2 & Hlf2 & Hrel2 & Hfind & Hsame). run. rewrite Hnf2, Hlf2, Hsz2.
  destruct (Z.ltb_spec 0 (free_count (<[n := Some x]> l1))).
  - destruct (Z.eqb_spec (Z.of_nat n) (Z.of_nat (first_free l1))) as [E|E]; [rewrite Hfind by lia; run; by eexists|].
    run. eexists. split; [done|]. cbn [snd]. rewrite <- Hsame by lia. done.
  - run. eexists. split; [done|]. cbn [snd]. pose proof (free_count_bounds (<[n := Some x]> l1)).
    assert (first_free (<[n := Some x]> l1) = length (<[n := Some x]> l1)) as <- by (apply free_count_0; lia). done.
Qed.

Lemma set_size_ok mx bk ok t l n :
  pa_rel mx bk t l → n + bk < INT_MAX →
  ∃ t', opal_pointer_array_set_size ok true t n = Some ((spec_set_size mx bk ok l n).1, t') ∧ pa_rel mx bk t' (spec_set_size mx bk ok l n).2.
Proof.
  intros Hrel Hb. unfold opal_pointer_array_set_size, spec_set_size. rewrite (r_size _ _ _ _ Hrel).
  assert ((Z.of_nat (length l) <? n) = true → Z.of_nat (length l) ≤ n ∧ n + bk < INT_MAX) as Hn by (rewrite Z.ltb_lt; lia).
  pose proof (grow_if_ok mx bk t l n ok (Z.of_nat (length l) <? n) Hrel Hn) as Hg.
  destruct (spec_grow _ _ _ _ _ _) as [l1|]; [|rewrite Hg; run; by exists t].
  destruct Hg as (t1 & -> & Hrel1 & _). run. by exists t1.
Qed.

Lemma replicate_rel mx bk n :
  Z.of_nat n ≤ INT_MAX → 0 < bk → pa_rel mx bk (mk_pa 0 (Z.of_nat n) (Z.of_nat n) mx bk (replicate (Z.to_nat (TYPE_ELEM_COUNT (Z.of_nat n))) 0) (replicate n None)) (replicate n None).
Proof.
  intros Hn Hb. pose proof (free_count_grow [] n) as Hfc. cbn [app free_count] in Hfc. pose proof (first_free_grow [] n) as Hff. cbn [app first_free] in Hff.
  split; cbn; rewrite ?length_replicate, ?Hfc, ?Hff; try done. split.
  - by rewrite !length_replicate.
  - apply Forall_replicate. lia.
  - intros i. pose proof (used_grow [] n i) as Hu. cbn [app] in Hu. rewrite Hu. unfold bit_at.
    destruct (replicate _ 0 !! _) as [w|] eqn:E; [|done]. apply lookup_replicate_1 in E as [-> _]. apply Z.bits_0.
Qed.

Lemma remove_all_rel mx bk t l : pa_rel mx bk t l → pa_rel mx bk (opal_pointer_array_remove_all t) (replicate (length l) None).
Proof.
  intros Hrel. pose proof Hrel as [Hadr Hsz Hint Hnf Hlf Hbits Hm [Hbk Hpos]]. unfold opal_pointer_array_remove_all. rewrite Hnf, Hsz.
  destruct (Z.eqb_spec (free_count l) (Z.of_nat (length l))) as [E|_].
  - assert (l = replicate (length l) None) as <-; [|done]. clear -E. induction l as [|[x|] l IH]; cbn in *; [done| |].
    + pose proof (free_count_bounds l). lia.
    + f_equal. apply IH. lia.
  - rewrite Hadr, Nat2Z.id, drop_all, app_nil_r. rewrite drop_ge, app_nil_r by (rewrite (b_len _ _ Hbits); lia). rewrite Hm, Hbk.
    by apply replicate_rel.
Qed.

Lemma get_item_ok mx bk t l i :
  pa_rel mx bk t l → opal_pointer_array_get_item t i = Some (if i <? 0 then None else default None (l !! Z.to_nat i)).
Proof.
  intros Hrel. unfold opal_pointer_array_get_item. rewrite (r_size _ _ _ _ Hrel), (r_addr _ _ _ _ Hrel).
  destruct (Z.ltb_spec i 0); [done|]. cbn [orb]. destruct (Z.leb_spec (Z.of_nat (length l)) i); [by rewrite lookup_ge_None_2 by lia|].
  by destruct (lookup_lt_is_Some_2 l (Z.to_nat i) ltac:(lia)) as [y ->].
Qed.

(** ** Runs *)

Inductive pa_op :=
  | PAdd (ok : bool) (x : V) | PSet (ok : bool) (i : Z) (x : option V) | PTest (ok : bool) (i : Z) (x : V)
  | PGet (i : Z) | PResize (ok : bool) (n : Z) | PClear.
Inductive pa_out := RIndex (r : status + Z) | RStatus (st : status) | RBool (b : bool) | RItem (x : option V) | RNone.

Definition pa_step (o : pa_op) t : option (pa_out * opal_pointer_array_t) :=
  match o with
  | PAdd ok x => '(r, t) ← opal_pointer_array_add ok true t (Some x); Some (RIndex r, t)
  | PSet ok i x => '(r, t) ← opal_pointer_array_set_item ok true t i x; Some (RStatus r, t)
  | PTest ok i x => '(r, t) ← opal_pointer_array_test_and_set_item ok true t i (Some x); Some (RBool r, t)
  | PGet i => x ← opal_pointer_array_get_item t i; Some (RItem x, t)
  | PResize ok n => '(r, t) ← opal_pointer_array_set_size ok true t n; Some (RStatus r, t)
  | PClear => Some (RNone, opal_pointer_array_remove_all t)
  end.

Definition list_step mx bk (o : pa_op) l : pa_out * list (option V) :=
  match o with
  | PAdd ok x => let '(r, l) := spec_add mx bk ok l x in (RIndex r, l)
  | PSet ok i x => let '(r, l) := spec_set_item mx bk ok l i x in (RStatus r, l)
  | PTest ok i x => let '(r, l) := spec_test_and_set mx bk ok l i x in (RBool r, l)
  | PGet i => (RItem (if i <? 0 then None else default None (l !! Z.to_nat i)), l)
  | PResize ok n => let '(r, l) := spec_set_size mx bk ok l n in (RStatus r, l)
  | PClear => (RNone, replicate (length l) None)
  end.

Fixpoint pa_run (os : list pa_op) t : option (list pa_out * opal_pointer_array_t) :=
  match os with
  | [] => Some ([], t)
  | o :: os' => '(r, t1) ← pa_step o t; '(rs, t2) ← pa_run os' t1; Some (r :: rs, t2)
  end.

Fixpoint list_run mx bk (os : list pa_op) l : list pa_out * list (option V) :=
  match os with
  | [] => ([], l)
  | o :: os' => let '(r, l1) := list_step mx bk o l in let '(rs, l2) := list_run mx bk os' l1 in (r :: rs, l2)
  end.

(** The indices an operation names are at most [b]. *)
Definition op_below (b : Z) (o : pa_op) : Prop :=
  match o with PSet _ i _ => i ≤ b | PTest _ i _ => 0 ≤ i ≤ b | PResize _ n => n ≤ b | _ => True end.

Lemma spec_grow_length mx bk ok l (needed : bool) at_least l' :
  0 < bk → 0 ≤ at_least → spec_grow mx bk ok l needed at_least = Some l' → Z.of_nat (length l') ≤ Z.max (Z.of_nat (length l)) (at_least + bk).
Proof.
  intros Hb Ha. unfold spec_grow. destruct needed, ok; run; intros E; simplify_eq; try lia.
  destruct (grow_len mx bk at_least) as [n|] eqn:En; cbn in E; simplify_eq. pose proof (grow_len_bounds _ _ _ _ Hb Ha En).
  rewrite length_app, length_replicate. lia.
Qed.

Lemma list_step_length mx bk b o l :
  0 < bk → op_below b o → 0 ≤ b → Z.of_nat (length (list_step mx bk o l).2) ≤ Z.max (Z.of_nat (length l)) b + 1 + bk.
Proof.
  intros Hb Ho Hb0. destruct o as [ok x|ok i x|ok i x|i|ok n|]; cbn in *; unfold spec_add, spec_set_item, spec_test_and_set, spec_set_size.
  - destruct (spec_grow _ _ _ _ _ _) as [l'|] eqn:E; [|cbn; lia]. apply spec_grow_length in E; [|lia..]. cbn. rewrite length_insert. lia.
  - destruct (Z.ltb_spec i 0); [cbn; lia|]. destruct (spec_grow _ _ _ _ _ _) as [l'|] eqn:E; [|cbn; lia].
    apply spec_grow_length in E; [|lia..]. cbn. rewrite length_insert. lia.
  - destruct (used l _); [cbn; lia|]. destruct (spec_grow _ _ _ _ _ _) as [l'|] eqn:E; [|cbn; lia].
    apply spec_grow_length in E; [|lia..]. cbn. rewrite length_insert. lia.
  - lia.
  - destruct (decide (0 ≤ n)).
    + destruct (spec_grow _ _ _ _ _ _) as [l'|] eqn:E; [|cbn; lia]. apply spec_grow_length in E; [cbn; lia|lia..].
    + unfold spec_grow. rewrite (proj2 (Z.ltb_ge _ _)) by lia. cbn. lia.
  - rewrite length_replicate. lia.
Qed.

Lemma pa_step_ok mx bk b o t l :
  pa_rel mx bk t l → op_below b o → Z.of_nat (length l) ≤ b → b + 1 + bk < INT_MAX →
  ∃ t', pa_step o t = Some ((list_step mx bk o l).1, t') ∧ pa_rel mx bk t' (list_step mx bk o l).2.
Proof.
  intros Hrel Ho Hl Hb. destruct o as [ok x|ok i x|ok i x|i|ok n|]; cbn in *.
  - destruct (add_ok mx bk ok t l x Hrel) as (t' & -> & Hrel'); [lia|]. run. destruct (spec_add _ _ _ _ _). by eexists.
  - destruct (set_item_ok mx bk ok t l i x Hrel) as (t' & -> & Hrel'); [lia|]. run. destruct (spec_set_item _ _ _ _ _ _). by eexists.
  - destruct (test_and_set_ok mx bk ok t l i x Hrel) as (t' & -> & Hrel'); [lia..|]. run. destruct (spec_test_and_set _ _ _ _ _ _). by eexists.
  - rewrite (get_item_ok mx bk t l i Hrel). run. by eexists.
  - destruct (set_size_ok mx bk ok t l n Hrel) as (t' & -> & Hrel'); [lia|]. run. destruct (spec_set_size _ _ _ _ _). by eexists.
  - eexists. split; [done|]. by apply remove_all_rel.
Qed.

Lemma op_below_mono b b' o : b ≤ b' → op_below b o → op_below b' o.
Proof. destruct o; cbn; lia. Qed.

Lemma pa_run_ok mx bk os b t l :
  pa_rel mx bk t l → Forall (op_below b) os → Z.of_nat (length l) ≤ b → b + (Z.of_nat (length os) + 1) * (1 + bk) < INT_MAX →
  ∃ t', pa_run os t = Some ((list_run mx bk os l).1, t') ∧ pa_rel mx bk t' (list_run mx bk os l).2.
Proof.
  intros Hrel. pose proof (r_block _ _ _ _ Hrel) as [_ Hbk]. revert b t l Hrel. induction os as [|o os IH]; intros b t l Hrel Hos Hl Hb; [by exists t|].
  apply Forall_cons in Hos as [Ho Hos]. cbn [length] in Hb. cbn [pa_run list_run].
  destruct (pa_step_ok mx bk b o t l Hrel Ho Hl) as (t1 & -> & Hrel1); [nia|]. run. pose proof (list_step_length mx bk b o l Hbk Ho ltac:(lia)) as Hlen.
  destruct (list_step mx bk o l) as [r l1]. cbn [fst snd] in *.
  destruct (IH (b + 1 + bk) t1 l1 Hrel1) as (t2 & -> & Hrel2); [|lia|lia|].
  { eapply Forall_impl; [exact Hos|]. intros. eapply op_below_mono; [|done]. lia. }
  run. destruct (list_run mx bk os l1). by exists t2.
Qed.

(** ** Theorems *)

(** C36: a pointer array behaves as a growing array: [add] stores at the least free
    index, [set_item] and [test_and_set_item] at theirs, growth follows the block
    size up to the limit, whether or not the allocations succeed (when the bits
    need no other allocation that fails); no assertion fails, no access is outside
    the arrays, and [lowest_free] and [number_free] stay exact. *)
Theorem pointer_array_refines initial mx bk b os :
  0 ≤ bk ≤ mx → (if 0 <? initial then initial else bk) ≤ b → Forall (op_below b) os →
  let bk' := if bk =? 0 then 8 else bk in
  b + (Z.of_nat (length os) + 1) * (1 + bk') < INT_MAX →
  let '(outs, l) := list_run mx bk' os (replicate (Z.to_nat (if 0 <? initial then initial else bk)) None) in
  ∃ t0 t, opal_pointer_array_init true true opal_pointer_array_construct initial mx bk = (OPAL_SUCCESS, t0) ∧
    pa_run os t0 = Some (outs, t) ∧ addr t = l ∧ lowest_free t = Z.of_nat (first_free l) ∧ number_free t = free_count l.
Proof.
  intros Hmx Hn Hos bk' Hb. assert (0 < bk' ≤ 8 + bk) as Hbk' by (unfold bk'; destruct (Z.eqb_spec bk 0); lia).
  set (n := if 0 <? initial then initial else bk) in *. assert (0 ≤ n) as Hn0 by (unfold n; destruct (Z.ltb_spec 0 initial); lia).
  assert (0 ≤ Z.of_nat (length os)) by lia. assert (b < INT_MAX) as HbM by nia. unfold INT_MAX in HbM.
  pose proof (replicate_rel mx bk' (Z.to_nat n) ltac:(unfold INT_MAX; lia) ltac:(lia)) as Hrel. rewrite Z2Nat.id in Hrel by done.
  destruct (pa_run_ok mx bk' os b _ _ Hrel Hos) as (t & E & Hrelt); [rewrite length_replicate; lia|lia|].
  destruct (list_run mx bk' os _) as [outs l]. cbn [fst snd] in *. eexists _, t. split; [|split; [exact E|]].
  - unfold opal_pointer_array_init. rewrite (proj2 (Z.ltb_ge _ _)) by lia. fold n bk'. rewrite wrap_small by lia.
    rewrite (proj2 (Z.leb_le _ _)) by (unfold INT_MAX; lia). done.
  - destruct Hrelt. done.
Qed.

(** When a full array grows and the second of the two allocations fails, [add]
    reports that it is out of resources, but the free elements it wanted to make
    are already counted: every later [add] fails an assertion. *)
Theorem pointer_array_half_grown mx bk t l n x :
  pa_rel mx bk t l → first_free l = length l → Z.of_nat (length l) + 1 + bk < INT_MAX →
  grow_len mx bk (Z.of_nat (length l) + 1) = Some n → TYPE_ELEM_COUNT (Z.of_nat (length l)) ≠ TYPE_ELEM_COUNT n →
  ∃ t', opal_pointer_array_add true false t x = Some (inl OPAL_ERR_OUT_OF_RESOURCE, t') ∧
    ∀ ok1 ok2 y, opal_pointer_array_add ok1 ok2 t' y = None.
Proof.
  intros Hrel Hfull Hb Hn Hcnt. pose proof Hrel as [Hadr Hsz Hint Hnf Hlf _ Hm [Hbk Hpos]].
  pose proof (grow_len_bounds mx bk (Z.of_nat (length l) + 1) n Hpos ltac:(lia) Hn) as Hbn. pose proof (proj2 (free_count_0 l) Hfull) as Hz.
  assert (∀ y : Z, 0 ≤ y < INT_MAX → cint (y + 1) = Some (y + 1)) as Hcint by (intros; apply cint_Some; unfold INT_MIN, INT_MAX in *; lia).
  unfold opal_pointer_array_add at 1. rewrite Hsz, Hcint, Hnf, Hz by lia. run. cbn [Z.eqb]. unfold grow_if, grow_table.
  rewrite (grown_size_ok mx bk t l) by (done || lia). rewrite Hn. run. cbn [negb]. rewrite Hsz. destruct (Z.eqb_spec (TYPE_ELEM_COUNT (Z.of_nat (length l))) (TYPE_ELEM_COUNT n)); [done|].
  eexists. split; [done|]. intros ok1 ok2 y. unfold opal_pointer_array_add. cbn [pa_size number_free lowest_free].
  rewrite Hcint, Hnf, Hz by lia. run. destruct (Z.eqb_spec (0 + (n - Z.of_nat (length l))) 0); [lia|]. cbn [grow_if]. run. cbn [negb pa_size lowest_free number_free].
  rewrite Hlf, Hfull, Z.ltb_irrefl, andb_false_r. by destruct (0 <? _).
Qed.

(** Asking for the maximum size is refused, although it is a size the array may
    have: the growth takes its argument for an index. *)
Lemma set_size_to_max_refused mx bk t l ok1 ok2 :
  pa_rel mx bk t l → Z.of_nat (length l) < mx → mx + bk < INT_MAX → opal_pointer_array_set_size ok1 ok2 t mx = Some (OPAL_ERROR, t).
Proof.
  intros Hrel Hl Hb. pose proof (r_block _ _ _ _ Hrel) as [_ Hpos]. unfold opal_pointer_array_set_size, grow_if, grow_table.
  rewrite (r_size _ _ _ _ Hrel), (proj2 (Z.ltb_lt _ _)) by lia. rewrite (grown_size_ok mx bk t l) by (done || lia). run.
  assert (grow_len mx bk mx = None) as ->; [|done]. unfold grow_len. pose proof (Z.div_mod (mx + bk) bk ltac:(lia)).
  pose proof (Z.mod_pos_bound (mx + bk) bk ltac:(lia)). rewrite !(proj2 (Z.leb_le _ _)) by lia. done.
Qed.

End spec.

Lemma pointer_array_refines_witness :
  let os := [PAdd true 10; PAdd true 11; PAdd true 12; PSet true 1 None; PTest true 70 13; PAdd true 14; PGet 70; PAdd false 15] in
  let '(outs, l) := list_run 100 2 os (replicate 3 None) in
  ∃ t0 t, opal_pointer_array_init true true opal_pointer_array_construct 3 100 2 = (OPAL_SUCCESS, t0) ∧
    pa_run os t0 = Some (outs, t) ∧ addr t = l ∧ lowest_free t = Z.of_nat (first_free l) ∧ number_free t = free_count l.
Proof.
  cbn zeta. apply (pointer_array_refines 3 100 2 100); [lia|cbn; lia|repeat constructor; cbn; lia|unfold INT_MAX; cbn; lia].
Defined.

Lemma pointer_array_half_grown_witness :
  ∃ t', opal_pointer_array_add true false (opal_pointer_array_construct (V := Z)) (Some 1) = Some (inl OPAL_ERR_OUT_OF_RESOURCE, t') ∧
    ∀ ok1 ok2 y, opal_pointer_array_add ok1 ok2 t' y = None.
Proof.
  apply (pointer_array_half_grown INT_MAX 8 _ [] 8); done.
Defined.

End OpalPointerArraySpec.
