(* ===== verification/CommCid.v ===== *)
(** * Agreement on communicator ids ([ompi/communicator/comm_cid.c])

    The processes of a communicator agree on the id of a new one: each reserves
    its lowest free id, the maximum is taken, each tries to reserve it, and the
    minimum of the answers says whether all could; otherwise they try again from
    the next id.  A handler is one function from the state of the process and the
    context of the request to their new values and what happens next.

    [locked]: another thread holds the lock of the ids.  [reduce]: the error that
    starting the reduction gives, if any.  [status]: the error with which the
    previous reduction ended, if any.  [None] is an access outside a table or a
    failed assertion in the table.  The table of communicators is used through
    an interface; [CommCidTable] shows that pointer arrays implement it. *)

From stdpp Require Import base numbers list.
From S2P Require Import Prelude.

Local Open Scope Z_scope.
Local Open Scope c_scope.

Module CommCid.

(** ** The table of communicators *)

(** An entry that is not NULL: [OMPI_COMM_SENTINEL] or a communicator. *)
Inductive comm_ptr := OMPI_COMM_SENTINEL | COMM (newcomm : Z).

#[global] Instance comm_ptr_eq_dec : EqDecision comm_ptr.
Proof. solve_decision. Defined.

(** The operations of the pointer array that the algorithm uses. *)
Class CommTable (A : Type) := {
  test_and_set_item : A → Z → option comm_ptr → option (bool * A);
  set_item : A → Z → option comm_ptr → option A;
  lowest_free : A → Z;
}.

(** What it relies on, for indices below [cap]: a map from indices to entries. *)
Class CommTableLaws (A : Type) `{CommTable A} (cap : Z) := {
  table_inv : A → Prop;
  items : A → Z → option comm_ptr;
  test_and_set_law a i x : table_inv a → 0 ≤ i < cap →
    ∃ a', test_and_set_item a i (Some x) = Some (bool_decide (items a i = None), a') ∧ table_inv a' ∧
      ∀ j, 0 ≤ j → items a' j = if bool_decide (j = i ∧ items a i = None) then Some x else items a j;
  set_item_law a i x : table_inv a → 0 ≤ i < cap →
    ∃ a', set_item a i x = Some a' ∧ table_inv a' ∧ ∀ j, 0 ≤ j → items a' j = if bool_decide (j = i) then x else items a j;
  test_and_set_used a i x y : table_inv a → 0 ≤ i < cap → items a i = Some y → test_and_set_item a i x = Some (false, a);
  lowest_free_law a : table_inv a → 0 ≤ lowest_free a ∧ ∀ j, 0 ≤ j < lowest_free a → items a j ≠ None;
}.

(** ** State *)

(** [comm_cid_lowest_id] is [INT64_MAX] when no request is being served. *)
Record cid_state (A : Type) := mk_st { communicators : A; comm_cid_lowest_id : Z; comm_cid_epoch : Z }.
#[global] Arguments mk_st {A}.
#[global] Arguments communicators {A}.
#[global] Arguments comm_cid_lowest_id {A}.
#[global] Arguments comm_cid_epoch {A}.

Definition INT64_MAX : Z := 2 ^ 63 - 1.

(** [participate]: this process has a rank in the new communicator; [my_id]: the
    id of the old communicator in the upper half, the tag in the lower. *)
Record ompi_comm_cid_context_t := mk_ctx {
  newcomm : Z;
  participate : bool;
  my_id : Z;
  nextcid : Z;
  nextlocal_cid : Z;
  nextcid_epoch : Z;
  start : Z;
  flag : Z;
  rflag : Z;
  iter : Z;
}.

Definition mk_my_id (local_cid pml_tag : Z) : Z := Z.lor (Z.shiftl local_cid 32) pml_tag.

Inductive cid_status := OMPI_SUCCESS | OMPI_ERR_OUT_OF_RESOURCE | OMPI_ERR_OTHER (code : Z).

(** What the new communicator gets. *)
Record new_ids := mk_ids { c_index : Z; c_cid_base : Z; c_cid_sub : Z; c_epoch : option Z }.

Inductive cid_handler := HGetNextCid | HCheckCid | HCheckFlag.
Inductive reduction := MPI_MAX | MPI_MIN.

(** [Again h]: the handler is scheduled again; [Reduce op v h]: a reduction of [v] is
    started and [h] runs when it ends; [Fail sent rc]: the request ends with an
    error, after starting a reduction of [sent]; [Complete ids]: it succeeds. *)
Inductive cid_next :=
  | Again (h : cid_handler) | Reduce (op : reduction) (v : Z) (h : cid_handler)
  | Fail (sent : option Z) (rc : cid_status) | Complete (ids : new_ids).

Section handlers.
Context {A : Type} `{CommTable A}.
(** The build option [OPAL_ENABLE_FT_MPI] and [mca_pml.pml_max_contextid]. *)
Context (ft : bool) (max_contextid : Z).

(** The context of a new request: [start] is the lowest free id. *)
Definition ompi_comm_nextcid_nb (st : cid_state A) (comm : Z) (part : bool) (id : Z) : ompi_comm_cid_context_t :=
  mk_ctx comm part id 0 0 0 (lowest_free (communicators st)) 0 0 0.

(** [pml_max_contextid] stored in an int. *)
Definition no_cid : Z := swrap 32 max_contextid.

(** The loop over the ids: the first one that can be reserved. *)
Fixpoint reserve_from (n : nat) (i : Z) (a : A) : option (option Z * A) :=
  match n with
  | O => Some (None, a)
  | S n' =>
      '(reserved, a) ← test_and_set_item a i (Some OMPI_COMM_SENTINEL);
      if (reserved : bool) then Some (Some i, a) else reserve_from n' (i + 1) a
  end.

Definition reserve (start : Z) (a : A) : option (option Z * A) := reserve_from (Z.to_nat (max_contextid - start)) start a.

Definition with_local (ctx : ompi_comm_cid_context_t) (local epoch : Z) : ompi_comm_cid_context_t :=
  mk_ctx (newcomm ctx) (participate ctx) (my_id ctx) (nextcid ctx) local epoch (start ctx) (flag ctx) (rflag ctx) (iter ctx).

(** The [err_exit] part of the first handler. *)
Definition getnextcid_error (st : cid_state A) (ctx : ompi_comm_cid_context_t) (flag : bool) (sent : option Z) (rc : cid_status)
    : option (cid_state A * ompi_comm_cid_context_t * cid_next) :=
  a ← (if participate ctx && flag then
         '(_, a) ← test_and_set_item (communicators st) (nextlocal_cid ctx) None; Some a
       else Some (communicators st));
  Some (mk_st a INT64_MAX (comm_cid_epoch st), ctx, Fail sent rc).

Definition ompi_comm_allreduce_getnextcid (locked : bool) (reduce : option cid_status) (st : cid_state A) (ctx : ompi_comm_cid_context_t)
    : option (cid_state A * ompi_comm_cid_context_t * cid_next) :=
  if locked || (comm_cid_lowest_id st <? my_id ctx) then Some (st, ctx, Again HGetNextCid)
  else
    '(found, a) ← (if participate ctx then reserve (start ctx) (communicators st) else Some (None, communicators st));
    let local := if participate ctx then default no_cid found else 0 in
    let epoch := if ft then (if participate ctx then comm_cid_epoch st - 1 else INT_MAX) else nextcid_epoch ctx in
    let local := if ft && participate ctx && (epoch =? 0) then no_cid else local in
    let st := mk_st a (my_id ctx) (comm_cid_epoch st) in
    let ctx := with_local ctx local epoch in
    let flag := match found with Some _ => true | None => false end in
    match reduce with
    | Some rc => getnextcid_error st ctx flag None rc
    | None =>
        if wrap 32 local =? max_contextid then getnextcid_error st ctx flag (Some local) OMPI_ERR_OUT_OF_RESOURCE
        else Some (st, ctx, Reduce MPI_MAX local HCheckCid)
    end.

Definition with_table (st : cid_state A) (a : A) : cid_state A := mk_st a (comm_cid_lowest_id st) (comm_cid_epoch st).

Definition with_flag (ctx : ompi_comm_cid_context_t) (f it : Z) : ompi_comm_cid_context_t :=
  mk_ctx (newcomm ctx) (participate ctx) (my_id ctx) (nextcid ctx) (nextlocal_cid ctx) (nextcid_epoch ctx) (start ctx) f (rflag ctx) it.

Definition ompi_comm_checkcid (locked : bool) (status reduce : option cid_status) (st : cid_state A) (ctx : ompi_comm_cid_context_t)
    : option (cid_state A * ompi_comm_cid_context_t * cid_next) :=
  match status with
  | Some rc =>
      a ← (if participate ctx then set_item (communicators st) (nextlocal_cid ctx) None else Some (communicators st));
      Some (with_table st a, ctx, Fail None rc)
  | None =>
      if locked then Some (st, ctx, Again HCheckCid)
      else
        '(f, a) ← (if negb (participate ctx) then Some (true, communicators st)
                   else if nextcid ctx =? nextlocal_cid ctx then Some (true, communicators st)
                   else
                     a ← set_item (communicators st) (nextlocal_cid ctx) None;
                     test_and_set_item a (nextcid ctx) (Some OMPI_COMM_SENTINEL));
        let f := if (f : bool) then (if ft then nextcid_epoch ctx else 1) else 0 in
        let ctx := with_flag ctx f (iter ctx + 1) in
        match reduce with
        | None => Some (with_table st a, ctx, Reduce MPI_MIN f HCheckFlag)
        | Some rc =>
            a ← (if participate ctx && negb (f =? 0) then '(_, a) ← test_and_set_item a (nextlocal_cid ctx) None; Some a else Some a);
            Some (mk_st a INT64_MAX (comm_cid_epoch st), ctx, Fail None rc)
        end
  end.

Definition with_cid (ctx : ompi_comm_cid_context_t) (local cid : Z) : ompi_comm_cid_context_t :=
  mk_ctx (newcomm ctx) (participate ctx) (my_id ctx) cid local (nextcid_epoch ctx) (start ctx) (flag ctx) (rflag ctx) (iter ctx).

Definition with_start (ctx : ompi_comm_cid_context_t) (s it : Z) : ompi_comm_cid_context_t :=
  mk_ctx (newcomm ctx) (participate ctx) (my_id ctx) (nextcid ctx) (nextlocal_cid ctx) (nextcid_epoch ctx) s (flag ctx) (rflag ctx) it.

(** The last handler ends by calling the first one when the processes do not
    agree; [locked2] and [reduce] are for that call. *)
Definition ompi_comm_nextcid_check_flag (locked locked2 : bool) (status reduce : option cid_status) (st : cid_state A)
    (ctx : ompi_comm_cid_context_t) : option (cid_state A * ompi_comm_cid_context_t * cid_next) :=
  match status with
  | Some rc =>
      a ← (if participate ctx then set_item (communicators st) (nextcid ctx) None else Some (communicators st));
      Some (with_table st a, ctx, Fail None rc)
  | None =>
      if locked then Some (st, ctx, Again HCheckFlag)
      else if negb (rflag ctx =? 0) then
        '(ctx, a) ← (if participate ctx then Some (ctx, communicators st)
                     else
                       '(found, a) ← reserve (start ctx) (communicators st);
                       let local := default no_cid found in Some (with_cid ctx local local, a));
        a ← set_item a (nextcid ctx) (Some (COMM (newcomm ctx)));
        Some (mk_st a INT64_MAX (if ft then comm_cid_epoch st - 1 else comm_cid_epoch st), ctx,
              Complete (mk_ids (nextcid ctx) 0 (nextcid ctx) (if ft then Some (INT_MAX - rflag ctx) else None)))
      else
        '(a, s) ← (if participate ctx && negb (flag ctx =? 0) then
                     a ← set_item (communicators st) (nextcid ctx) None; Some (a, nextcid ctx + 1)
                   else Some (communicators st, start ctx));
        ompi_comm_allreduce_getnextcid locked2 reduce (with_table st a) (with_start ctx s (iter ctx + 1))
  end.

End handlers.

End CommCid.
