(* ===== verification/CommCidHandlers.v ===== *)
(** * What the handlers of the agreement do to the table

    Each handler, on every branch of a run without communication errors, in
    terms of the entries of the table: [reserve] takes the first free id, the
    check moves the reservation to the common proposal, the last handler stores
    the communicator or gives the reservation back. *)

From stdpp Require Import base numbers list.
From S2P Require Import Prelude CommCid.
Import CommCid.

Local Open Scope Z_scope.
Local Open Scope c_scope.

Module CommCidHandlers.

Section handlers.
Context {A : Type} `{CommTable A} {cap : Z} `{!CommTableLaws A cap}.
Context (ft : bool) (mx : Z) (Hmx : 0 < mx < cap) (Hint : mx ≤ INT_MAX).

(** Only the entry [c] differs. *)
Definition changed (a a' : A) (c : Z) (x : option comm_ptr) : Prop :=
  ∀ j, 0 ≤ j → items a' j = if bool_decide (j = c) then x else items a j.

Definition unchanged (a a' : A) : Prop := ∀ j, 0 ≤ j → items a' j = items a j.

(** The first free id from [i] on, below [b]. *)
Definition reserved (a a' : A) (i b : Z) (found : option Z) : Prop :=
  match found with
  | Some c => i ≤ c < b ∧ items a c = None ∧ (∀ j, i ≤ j < c → items a j ≠ None) ∧ changed a a' c (Some OMPI_COMM_SENTINEL)
  | None => unchanged a a' ∧ ∀ j, i ≤ j < b → items a j ≠ None
  end.

Lemma reserve_from_ok n i a :
  table_inv a → 0 ≤ i → i + Z.of_nat n ≤ cap →
  ∃ found a', reserve_from n i a = Some (found, a') ∧ table_inv a' ∧ reserved a a' i (i + Z.of_nat n) found.
Proof.
  revert i a. induction n as [|n IH]; intros i a Hinv Hi Hb; cbn [reserve_from].
  { exists None, a. split_and!; [done|done|]. split; [by intros j|lia]. }
  destruct (test_and_set_law a i OMPI_COMM_SENTINEL Hinv) as (a1 & -> & Hinv1 & Hit); [lia|]. run.
  destruct (items a i) as [x|] eqn:Ei.
  - rewrite bool_decide_false by done.
    assert (unchanged a a1) as Hun by (intros j Hj; rewrite Hit by done; rewrite bool_decide_false by (intros [_ ?]; done); done).
    destruct (IH (i + 1) a1 Hinv1) as (found & a' & -> & Hinv' & Hres); [lia..|]. exists found, a'. split_and!; [done|done|].
    assert (∀ j b, i ≤ j < b → (∀ j, i + 1 ≤ j < b → items a1 j ≠ None) → items a j ≠ None) as Hfull.
    { intros j b Hj Hl. destruct (decide (j = i)) as [->|]; [congruence|]. rewrite <- Hun by lia. apply Hl. lia. }
    destruct found as [c|]; cbn [reserved] in *.
    + destruct Hres as (Hc & Hn & Hl & Hch). split_and!; [lia|lia|by rewrite <- Hun by lia|intros j Hj; by apply (Hfull j c)|].
      intros j Hj. rewrite (Hch j Hj). by rewrite Hun.
    + destruct Hres as [Hu Hl]. split; [intros j Hj; by rewrite Hu, Hun|]. intros j Hj. apply (Hfull j (i + Z.of_nat (S n))); [done|].
      intros j' Hj'. apply Hl. lia.
  - rewrite bool_decide_true by done. exists (Some i), a1. split_and!; [done|done|]. split_and!; [lia|lia|done|lia|].
    intros j Hj. rewrite Hit by done. destruct (decide (j = i)) as [->|]; [by rewrite !bool_decide_true|]. rewrite !bool_decide_false; [done|done|]. intros [? _]. done.
Qed.

Lemma reserve_ok i a :
  table_inv a → 0 ≤ i → ∃ found a', reserve mx i a = Some (found, a') ∧ table_inv a' ∧ reserved a a' i mx found.
Proof.
  intros Hinv Hi. unfold reserve. destruct (decide (i ≤ mx)).
  - destruct (reserve_from_ok (Z.to_nat (mx - i)) i a Hinv Hi) as (found & a' & E & Hinv' & Hres); [lia|].
    exists found, a'. replace (i + Z.of_nat (Z.to_nat (mx - i))) with mx in Hres by lia. done.
  - replace (Z.to_nat (mx - i)) with 0%nat by lia. exists None, a. split_and!; [done|done|]. split; [by intros j|lia].
Qed.

(** The parts of a context that stay with the request. *)
Definition same_request (ctx ctx' : ompi_comm_cid_context_t) : Prop :=
  newcomm ctx' = newcomm ctx ∧ participate ctx' = participate ctx ∧ my_id ctx' = my_id ctx.

(** After the first handler. *)
Definition get_post (locked : bool) (st : cid_state A) (ctx : ompi_comm_cid_context_t) (st' : cid_state A) (ctx' : ompi_comm_cid_context_t)
    (nx : cid_next) : Prop :=
  if locked || (comm_cid_lowest_id st <? my_id ctx) then st' = st ∧ ctx' = ctx ∧ nx = Again HGetNextCid
  else
    same_request ctx ctx' ∧ start ctx' = start ctx ∧ comm_cid_epoch st' = comm_cid_epoch st ∧
    ((∃ v, nx = Reduce MPI_MAX v HCheckCid ∧ nextlocal_cid ctx' = v ∧ 0 ≤ v < mx ∧ (ft = true → 0 < nextcid_epoch ctx') ∧
        comm_cid_lowest_id st' = my_id ctx ∧
        if participate ctx then reserved (communicators st) (communicators st') (start ctx) mx (Some v)
        else v = 0 ∧ unchanged (communicators st) (communicators st')) ∨
     (nx = Fail (Some mx) OMPI_ERR_OUT_OF_RESOURCE ∧ participate ctx = true ∧ reserved (communicators st) (communicators st') (start ctx) mx None)).

Lemma no_cid_eq : no_cid mx = mx.
Proof. unfold no_cid. apply swrap_small; [lia|]. unfold INT_MAX in Hint. lia. Qed.

Lemma getnextcid_ok locked st ctx :
  table_inv (communicators st) → 0 ≤ start ctx → (ft = true → 2 ≤ comm_cid_epoch st) →
  ∃ st' ctx' nx, ompi_comm_allreduce_getnextcid ft mx locked None st ctx = Some (st', ctx', nx) ∧ table_inv (communicators st') ∧
    get_post locked st ctx st' ctx' nx.
Proof.
  intros Hinv Hs He. unfold ompi_comm_allreduce_getnextcid, get_post. destruct (locked || _); [by eexists _, _, _|].
  assert (∀ v, 0 ≤ v ≤ mx → wrap 32 v = v) as Hw by (intros; unfold INT_MAX in Hint; apply wrap_small; lia). rewrite no_cid_eq.
  destruct (participate ctx) eqn:Ep.
  - destruct (reserve_ok (start ctx) (communicators st) Hinv Hs) as (found & a & -> & Hinva & Hres). run.
    set (e := if ft then comm_cid_epoch st - 1 else nextcid_epoch ctx).
    assert (ft && true && (e =? 0) = false) as ->.
    { unfold e. destruct ft; [|done]. cbn [andb]. apply Z.eqb_neq. specialize (He eq_refl). lia. }
    destruct found as [c|]; cbn [default from_option]; unfold id.
    + pose proof Hres as (Hc & _). rewrite Hw, (proj2 (Z.eqb_neq c mx)) by lia. eexists _, _, _. split; [done|]. split; [done|].
      split_and!; cbn; try done. left. exists c. split_and!; cbn; try done; try lia; try apply Hres.
      intros ->. specialize (He eq_refl). unfold e. lia.
    + rewrite Hw, Z.eqb_refl by lia. unfold getnextcid_error. cbn [with_local participate]. rewrite andb_false_r. run.
      eexists _, _, _. split; [done|]. split; [done|]. split_and!; cbn; try done. by right.
  - run. rewrite andb_false_r. cbn [andb]. rewrite Hw, (proj2 (Z.eqb_neq 0 mx)) by lia. eexists _, _, _. split; [done|]. split; [done|].
    split_and!; cbn; try done. left. exists 0. split_and!; cbn; try done; try lia. intros ->. done.
Qed.

(** After the second handler, with the common proposal in [nextcid]. *)
Definition check_post (st : cid_state A) (ctx : ompi_comm_cid_context_t) (st' : cid_state A) (ctx' : ompi_comm_cid_context_t)
    (nx : cid_next) : Prop :=
  ∃ f, nx = Reduce MPI_MIN f HCheckFlag ∧ ctx' = with_flag ctx f (iter ctx + 1) ∧ 0 ≤ f ∧
    comm_cid_epoch st' = comm_cid_epoch st ∧ comm_cid_lowest_id st' = comm_cid_lowest_id st ∧
    let a := communicators st in let a' := communicators st' in
    if negb (participate ctx) || (nextcid ctx =? nextlocal_cid ctx) then f ≠ 0 ∧ unchanged a a'
    else (f = 0 ↔ items a (nextcid ctx) ≠ None) ∧
         ∀ j, 0 ≤ j → items a' j = if bool_decide (j = nextcid ctx ∧ f ≠ 0) then Some OMPI_COMM_SENTINEL
                                   else if bool_decide (j = nextlocal_cid ctx) then None else items a j.

Lemma checkcid_ok st ctx :
  table_inv (communicators st) → (participate ctx = true → 0 ≤ nextlocal_cid ctx < cap) → 0 ≤ nextcid ctx < cap →
  (ft = true → 0 < nextcid_epoch ctx) →
  ∃ st' ctx' nx, ompi_comm_checkcid ft false None None st ctx = Some (st', ctx', nx) ∧ table_inv (communicators st') ∧
    check_post st ctx st' ctx' nx.
Proof.
  intros Hinv Hl Hn He. unfold ompi_comm_checkcid, check_post.
  set (yes := if ft then nextcid_epoch ctx else 1). assert (0 < yes) as Hyes by (unfold yes; destruct ft; [by apply He|lia]).
  destruct (participate ctx) eqn:Ep; cbn [negb orb].
  2:{ run. eexists _, _, _. split; [done|]. split; [done|]. exists yes. split_and!; try done; try lia. }
  destruct (Z.eqb_spec (nextcid ctx) (nextlocal_cid ctx)) as [E|Hne].
  { run. eexists _, _, _. split; [done|]. split; [done|]. exists yes. split_and!; try done; try lia. }
  destruct (set_item_law (communicators st) (nextlocal_cid ctx) None Hinv) as (a1 & -> & Hinv1 & Hit1); [by apply Hl|]. run.
  destruct (test_and_set_law a1 (nextcid ctx) OMPI_COMM_SENTINEL Hinv1 Hn) as (a2 & -> & Hinv2 & Hit2). run.
  assert (items a1 (nextcid ctx) = items (communicators st) (nextcid ctx)) as E1 by (rewrite Hit1, bool_decide_false by lia; done).
  rewrite E1 in *. eexists _, _, _. split; [done|]. split; [done|]. cbn [communicators with_table comm_cid_epoch comm_cid_lowest_id].
  destruct (items (communicators st) (nextcid ctx)) as [x|] eqn:Ei.
  - rewrite bool_decide_false by done. exists 0. split_and!; try done. intros j Hj.
    rewrite Hit2, Hit1 by done. rewrite !(bool_decide_false (_ ∧ _)) by (intros [_ ?]; done). done.
  - rewrite bool_decide_true by done. exists yes. split_and!; try done; try lia; [split; [lia|done]|]. intros j Hj.
    rewrite Hit2, Hit1 by done. destruct (decide (j = nextcid ctx)) as [->|]; [by rewrite !bool_decide_true by (split; done || lia)|].
    rewrite !(bool_decide_false (_ ∧ _)) by (intros [? _]; done). done.
Qed.

(** After the last handler, with the common answer in [rflag]: all agree ... *)
Definition flag_post_done (st : cid_state A) (ctx : ompi_comm_cid_context_t) (st' : cid_state A) (ctx' : ompi_comm_cid_context_t)
    (nx : cid_next) : Prop :=
  ∃ ids, nx = Complete ids ∧ same_request ctx ctx' ∧ start ctx' = start ctx ∧ 0 ≤ c_index ids ≤ mx ∧
    comm_cid_epoch st' = (if ft then comm_cid_epoch st - 1 else comm_cid_epoch st) ∧ comm_cid_lowest_id st' = INT64_MAX ∧
    changed (communicators st) (communicators st') (c_index ids) (Some (COMM (newcomm ctx))) ∧
    if participate ctx then c_index ids = nextcid ctx
    else c_index ids < mx → items (communicators st) (c_index ids) = None.

Lemma check_flag_done st ctx locked2 :
  table_inv (communicators st) → 0 ≤ start ctx → (participate ctx = true → 0 ≤ nextcid ctx < mx) → rflag ctx ≠ 0 →
  ∃ st' ctx' nx, ompi_comm_nextcid_check_flag ft mx false locked2 None None st ctx = Some (st', ctx', nx) ∧ table_inv (communicators st') ∧
    flag_post_done st ctx st' ctx' nx.
Proof.
  intros Hinv Hs Hn Hr. unfold ompi_comm_nextcid_check_flag, flag_post_done. rewrite (proj2 (Z.eqb_neq _ _)) by done. cbn [negb]. rewrite no_cid_eq.
  destruct (participate ctx) eqn:Ep.
  - run. destruct (set_item_law (communicators st) (nextcid ctx) (Some (COMM (newcomm ctx))) Hinv) as (a & -> & Hinva & Hit); [specialize (Hn eq_refl); lia|].
    run. eexists _, _, _. split; [done|]. split; [done|]. eexists. split_and!; try done; cbn; specialize (Hn eq_refl); lia.
  - destruct (reserve_ok (start ctx) (communicators st) Hinv Hs) as (found & a & -> & Hinva & Hres). run. cbn [nextcid newcomm with_cid].
    set (c := default mx found).
    assert (0 ≤ c ≤ mx) as Hc by (unfold c; destruct found as [c'|]; cbn; [destruct Hres as (? & _); unfold id|]; lia).
    destruct (set_item_law a c (Some (COMM (newcomm ctx))) Hinva) as (a' & -> & Hinva' & Hit); [lia|]. run.
    eexists _, _, _. split; [done|]. split; [done|]. eexists. split_and!; try done; cbn; try lia.
    + intros j Hj. rewrite Hit by done. case_bool_decide as Hjc; [done|]. unfold c in Hjc.
      destruct found as [c'|]; cbn in Hjc; [destruct Hres as (_ & _ & _ & Hch)|destruct Hres as [Hch _]]; rewrite Hch by done; [|done].
      by rewrite bool_decide_false by done.
    + unfold c. destruct found as [c'|]; cbn; [|lia]. intros _. by destruct Hres as (_ & ? & _).
Qed.

(** ... or they do not: the reservation is given back and the first handler runs
    again. *)
Lemma check_flag_again st ctx locked2 :
  table_inv (communicators st) → 0 ≤ start ctx → 0 ≤ nextcid ctx < cap → (ft = true → 2 ≤ comm_cid_epoch st) → rflag ctx = 0 →
  ∃ st1 ctx1 st' ctx' nx, ompi_comm_nextcid_check_flag ft mx false locked2 None None st ctx = Some (st', ctx', nx) ∧
    table_inv (communicators st') ∧ get_post locked2 st1 ctx1 st' ctx' nx ∧
    same_request ctx ctx1 ∧ comm_cid_epoch st1 = comm_cid_epoch st ∧ comm_cid_lowest_id st1 = comm_cid_lowest_id st ∧
    if participate ctx && negb (flag ctx =? 0) then
      start ctx1 = nextcid ctx + 1 ∧ changed (communicators st) (communicators st1) (nextcid ctx) None
    else start ctx1 = start ctx ∧ communicators st1 = communicators st.
Proof.
  intros Hinv Hs Hn He Hr. unfold ompi_comm_nextcid_check_flag. rewrite Hr. cbn [Z.eqb negb].
  destruct (participate ctx && negb (flag ctx =? 0)).
  - destruct (set_item_law (communicators st) (nextcid ctx) None Hinv Hn) as (a & -> & Hinva & Hit). run.
    destruct (getnextcid_ok locked2 (with_table st a) (with_start ctx (nextcid ctx + 1) (iter ctx + 1))) as (st' & ctx' & nx & E & Hinv' & Hpost);
      [done|cbn; lia|done|]. rewrite E. eexists _, _, _, _, _. split_and!; [done|done|exact Hpost|done..].
  - run. destruct (getnextcid_ok locked2 (with_table st (communicators st)) (with_start ctx (start ctx) (iter ctx + 1))) as (st' & ctx' & nx & E & Hinv' & Hpost);
      [done..|]. rewrite E. eexists _, _, _, _, _. split_and!; [done|done|exact Hpost|done..].
Qed.

End handlers.

End CommCidHandlers.
