(* ===== verification/CommCidSystem.v ===== *)
(** * Processes that agree on communicator ids

    The processes of a job, each with its table of communicators, and the
    creations of communicators that run in them at the same time.  Creation [k]
    runs in the processes [members k]; each of these nodes has the context of its
    request, the handler that runs next and the values it has contributed to the
    reductions of the creation, in order.  A reduction ends at a node when all
    members have contributed; its result is the maximum or minimum, as
    [MPI_Iallreduce] is documented.  A step runs one handler at one node, which holds
    the lock of its process meanwhile; it can also find the lock taken. *)

From stdpp Require Import base numbers list functions.
From S2P Require Import Prelude CommCid.
Import CommCid.

Local Open Scope Z_scope.
Local Open Scope c_scope.

Module CommCidSystem.

Inductive cid_pc := Idle | Runs (h : cid_handler) | Finished (ids : new_ids) | Failed (rc : cid_status).

Record node := mk_node { n_ctx : ompi_comm_cid_context_t; n_pc : cid_pc; n_sent : list Z }.

Section system.
Context {A : Type} `{CommTable A}.
Context (ft : bool) (max_contextid : Z).

(** The creations; the processes of each; whether a process is in the new
    communicator; the id of the request. *)
Context (ks : list Z) (members : Z → list Z) (part : Z → Z → bool) (id_of : Z → Z → Z).

Record system := mk_sys { procs : Z → cid_state A; nodes : Z → Z → node }.

Definition idle_node : node := mk_node (mk_ctx 0 false 0 0 0 0 0 0 0 0) Idle [].

Definition initial (procs0 : Z → cid_state A) : system := mk_sys procs0 (λ _ _, idle_node).

Definition reduce_all (op : Z → Z → Z) (vals : list Z) : Z :=
  match vals with [] => 0 | v :: vs => foldl op v vs end.

(** The result of reduction number [n] of creation [k], when it has ended. *)
Definition result (op : Z → Z → Z) (g : system) (k : Z) (n : nat) : option Z :=
  vals ← mapM (λ p, n_sent (nodes g k p) !! n) (members k); Some (reduce_all op vals).

Definition set_nextcid (ctx : ompi_comm_cid_context_t) (v : Z) : ompi_comm_cid_context_t :=
  with_cid ctx (nextlocal_cid ctx) v.

Definition set_rflag (ctx : ompi_comm_cid_context_t) (v : Z) : ompi_comm_cid_context_t :=
  mk_ctx (newcomm ctx) (participate ctx) (my_id ctx) (nextcid ctx) (nextlocal_cid ctx) (nextcid_epoch ctx) (start ctx) (flag ctx) v (iter ctx).

(** The node after a handler. *)
Definition after (nd : node) (ctx : ompi_comm_cid_context_t) (nx : cid_next) : node :=
  match nx with
  | Again h => mk_node ctx (Runs h) (n_sent nd)
  | Reduce _ v h => mk_node ctx (Runs h) (n_sent nd ++ [v])
  | Fail sent rc => mk_node ctx (Failed rc) (n_sent nd ++ match sent with Some v => [v] | None => [] end)
  | Complete ids => mk_node ctx (Finished ids) (n_sent nd)
  end.

Definition upd (g : system) (k p : Z) (st : cid_state A) (nd : node) : system :=
  mk_sys (<[p := st]> (procs g)) (<[k := <[p := nd]> (nodes g k)]> (nodes g)).

(** What the handler of node (k, p) does; the outer [None] is an error in it, the
    inner one says that the node has nothing to run now. *)
Definition exec (locked locked2 : bool) (g : system) (k p : Z) : option (option system) :=
  let nd := nodes g k p in
  let st := procs g p in
  let last := pred (length (n_sent nd)) in
  match n_pc nd with
  | Idle => Some (Some (upd g k p st (mk_node (ompi_comm_nextcid_nb st k (part k p) (id_of k p)) (Runs HGetNextCid) [])))
  | Runs HGetNextCid =>
      '(st, ctx, nx) ← ompi_comm_allreduce_getnextcid ft max_contextid locked None st (n_ctx nd);
      Some (Some (upd g k p st (after nd ctx nx)))
  | Runs HCheckCid =>
      match result Z.max g k last with
      | None => Some None
      | Some v =>
          '(st, ctx, nx) ← ompi_comm_checkcid ft locked None None st (set_nextcid (n_ctx nd) v);
          Some (Some (upd g k p st (after nd ctx nx)))
      end
  | Runs HCheckFlag =>
      match result Z.min g k last with
      | None => Some None
      | Some v =>
          '(st, ctx, nx) ← ompi_comm_nextcid_check_flag ft max_contextid locked locked2 None None st (set_rflag (n_ctx nd) v);
          Some (Some (upd g k p st (after nd ctx nx)))
      end
  | Finished _ | Failed _ => Some None
  end.

Inductive step (g : system) : system → Prop :=
  | step_node k p locked locked2 g' :
      k ∈ ks → p ∈ members k → exec locked locked2 g k p = Some (Some g') → step g g'.

End system.

End CommCidSystem.
