(* ===== verification/CommCidSpec.v ===== *)
(** * Processes agree on ids that are theirs alone

    The invariant of the interleaved system: every node owns at most one entry of
    the table of its process, the one its context names; no two creations own
    the same entry and nobody touches the entries that were there before.  With
    it, [cid_agreement]: processes that finish a creation have the same id. *)

From stdpp Require Import base numbers list functions relations.
From S2P Require Import Prelude CommCid CommCidHandlers CommCidSystem.
Import CommCid CommCidHandlers CommCidSystem.

Local Open Scope Z_scope.
Local Open Scope c_scope.

Module CommCidSpec.

(** The node is not the one that changes. *)
Ltac other_node := first [done | intros [? ?]; done].

(** ** Ownership of entries *)

Section ownership.
Context (mx : Z).
Implicit Types (it : Z → option comm_ptr) (o : option (Z * comm_ptr)) (owners : Z → option (Z * comm_ptr)).

(** [before]: the entries at the beginning. *)
Record own_inv (before it : Z → option comm_ptr) owners : Prop := {
  o_entry : ∀ k c x, owners k = Some (c, x) → 0 ≤ c < mx ∧ it c = Some x;
  o_once : ∀ k k' c x x', owners k = Some (c, x) → owners k' = Some (c, x') → k = k';
  o_before : ∀ c x, before c = Some x → 0 ≤ c < mx → it c = Some x ∧ ∀ k y, owners k ≠ Some (c, y);
}.

(** From owning [o] to owning [o']. *)
Definition own_update it o it' o' : Prop :=
  (∀ j, 0 ≤ j < mx → it' j = match o' with
                              | Some (c, x) => if bool_decide (j = c) then Some x else match o with Some (d, _) => if bool_decide (j = d) then None else it j | None => it j end
                              | None => match o with Some (d, _) => if bool_decide (j = d) then None else it j | None => it j end
                              end) ∧
  ∀ c x, o' = Some (c, x) → 0 ≤ c < mx ∧ (it c = None ∨ ∃ y, o = Some (c, y)).

Lemma own_step before it it' owners k o' :
  own_inv before it owners → own_update it (owners k) it' o' → own_inv before it' (<[k := o']> owners).
Proof.
  intros [He Ho Hb] [Hit Hnew].
  assert (∀ k1 c x, k1 ≠ k → owners k1 = Some (c, x) → it' c = Some x ∧ ∀ y, o' ≠ Some (c, y)) as Hother.
  { intros k1 c x Hk E. destruct (He k1 c x E) as [Hc Hx]. assert (∀ y, owners k ≠ Some (c, y)) as Hno by (intros y Ey; by apply Hk, (Ho k1 k c x y)).
    assert (∀ y, o' ≠ Some (c, y)) as Hno'. { intros y Ey. destruct (Hnew c y Ey) as [_ [?|[z ?]]]; [congruence|by apply (Hno z)]. }
    split; [|done]. rewrite Hit by done. destruct o' as [[c' x']|]; [rewrite bool_decide_false by (intros ->; by apply (Hno' x'))|];
      (destruct (owners k) as [[d y]|]; [rewrite bool_decide_false by (intros ->; by apply (Hno y))|]; done). }
  split.
  - intros k1 c x. destruct (decide (k1 = k)) as [->|Hk].
    + rewrite fn_lookup_insert. intros ->. destruct (Hnew c x eq_refl) as [Hc _]. split; [done|]. rewrite Hit by done. by rewrite bool_decide_true.
    + rewrite fn_lookup_insert_ne by done. intros E. split; [apply (He k1 c x E)|]. by apply (Hother k1).
  - intros k1 k2 c x x'. destruct (decide (k1 = k)) as [->|Hk1], (decide (k2 = k)) as [->|Hk2]; rewrite ?fn_lookup_insert, ?fn_lookup_insert_ne by done.
    + done.
    + intros -> E. destruct (Hother k2 c x' Hk2 E) as [_ Hno]. by destruct (Hno x).
    + intros E ->. destruct (Hother k1 c x Hk1 E) as [_ Hno]. by destruct (Hno x').
    + apply Ho.
  - intros c x Ec Hc. destruct (Hb c x Ec Hc) as [Hx Hno].
    assert (∀ y, o' ≠ Some (c, y)) as Hno'. { intros y Ey. destruct (Hnew c y Ey) as [_ [?|[z ?]]]; [congruence|by apply (Hno k z)]. }
    split.
    + rewrite Hit by done. destruct o' as [[c' x']|]; [rewrite bool_decide_false by (intros ->; by apply (Hno' x'))|];
        (destruct (owners k) as [[d y]|] eqn:Ek; [rewrite bool_decide_false by (intros ->; by apply (Hno k y))|]; done).
    + intros k1 y. destruct (decide (k1 = k)) as [->|]; [rewrite fn_lookup_insert; apply Hno'|rewrite fn_lookup_insert_ne by done; apply Hno].
Qed.

Lemma own_inv_ext before it owners owners' : (∀ k, owners k = owners' k) → own_inv before it owners → own_inv before it owners'.
Proof.
  intros Hext [He Ho Hb]. split.
  - intros k c x. rewrite <- Hext. apply He.
  - intros k k' c x x'. rewrite <- !Hext. apply Ho.
  - intros c x Ec Hc. destruct (Hb c x Ec Hc) as [Hx Hno]. split; [done|]. intros k y. rewrite <- Hext. apply Hno.
Qed.

End ownership.

(** ** Reductions *)

Lemma reduce_all_max vals v : v ∈ vals → v ≤ reduce_all Z.max vals.
Proof.
  destruct vals as [|x vals]; [by intros ?%not_elem_of_nil|]. cbn [reduce_all].
  assert (∀ b, b ≤ foldl Z.max b vals ∧ ∀ y, y ∈ vals → y ≤ foldl Z.max b vals) as Hf.
  { induction vals as [|y vals IH]; intros b; cbn [foldl]; [split; [lia|by intros ? ?%not_elem_of_nil]|]. destruct (IH (Z.max b y)) as [H1 H2].
    split; [lia|]. intros z [->|Hz]%elem_of_cons; [lia|by apply H2]. }
  intros [->|Hv]%elem_of_cons; [apply (proj1 (Hf x))|by apply (proj2 (Hf x))].
Qed.

Lemma reduce_all_min vals v : v ∈ vals → reduce_all Z.min vals ≤ v.
Proof.
  destruct vals as [|x vals]; [by intros ?%not_elem_of_nil|]. cbn [reduce_all].
  assert (∀ b, foldl Z.min b vals ≤ b ∧ ∀ y, y ∈ vals → foldl Z.min b vals ≤ y) as Hf.
  { induction vals as [|y vals IH]; intros b; cbn [foldl]; [split; [lia|by intros ? ?%not_elem_of_nil]|]. destruct (IH (Z.min b y)) as [H1 H2].
    split; [lia|]. intros z [->|Hz]%elem_of_cons; [lia|by apply H2]. }
  intros [->|Hv]%elem_of_cons; [apply (proj1 (Hf x))|by apply (proj2 (Hf x))].
Qed.

(** The result is one of the values, for the operations used. *)
Lemma reduce_all_elem op vals : (∀ x y, op x y = x ∨ op x y = y) → vals ≠ [] → reduce_all op vals ∈ vals.
Proof.
  intros Hop. destruct vals as [|x vals]; [done|]. intros _. cbn [reduce_all].
  assert (∀ b, foldl op b vals = b ∨ foldl op b vals ∈ vals) as Hf.
  { induction vals as [|y vals IH]; intros b; cbn [foldl]; [by left|]. destruct (IH (op b y)) as [E|Hin]; [|right; by right]. rewrite E.
    destruct (Hop b y) as [->| ->]; [by left|right; by left]. }
  destruct (Hf x) as [->|Hin]; [by left|by right].
Qed.

Section results.
Context {A : Type}.
Context (members : Z → list Z).
Implicit Types (g : system (A := A)).

Abbreviation sent g k p := (n_sent (nodes g k p)).

Lemma result_Some op g k n v :
  result members op g k n = Some v ↔ ∃ vals, Forall2 (λ p x, sent g k p !! n = Some x) (members k) vals ∧ v = reduce_all op vals.
Proof.
  unfold result. split.
  - destruct (mapM _ _) as [vals|] eqn:E; cbn; intros E'; simplify_eq. exists vals. split; [by apply mapM_Some|done].
  - intros (vals & Hf & ->). by rewrite (mapM_Some_2 _ _ _ Hf).
Qed.

Lemma result_sent op g k n v p : result members op g k n = Some v → p ∈ members k → ∃ x, sent g k p !! n = Some x.
Proof.
  intros (vals & Hf & _)%result_Some (i & Hi)%list_elem_of_lookup. destruct (Forall2_lookup_l _ _ _ _ _ Hf Hi) as (x & _ & Hx). eauto.
Qed.

(** Every value of a reduction that has ended, and the one that is the result. *)
Lemma result_value op g k n v p x :
  result members op g k n = Some v → p ∈ members k → sent g k p !! n = Some x → ∃ vals, x ∈ vals ∧ v = reduce_all op vals.
Proof.
  intros (vals & Hf & ->)%result_Some (i & Hi)%list_elem_of_lookup Hx. destruct (Forall2_lookup_l _ _ _ _ _ Hf Hi) as (y & Hy & Hy').
  assert (y = x) as -> by congruence. exists vals. split; [by eapply list_elem_of_lookup_2|done].
Qed.

Lemma result_max_ge g k n v p x : result members Z.max g k n = Some v → p ∈ members k → sent g k p !! n = Some x → x ≤ v.
Proof. intros Hr Hp Hx. destruct (result_value _ _ _ _ _ _ _ Hr Hp Hx) as (vals & Hin & ->). by apply reduce_all_max. Qed.

Lemma result_min_le g k n v p x : result members Z.min g k n = Some v → p ∈ members k → sent g k p !! n = Some x → v ≤ x.
Proof. intros Hr Hp Hx. destruct (result_value _ _ _ _ _ _ _ Hr Hp Hx) as (vals & Hin & ->). by apply reduce_all_min. Qed.

Lemma result_from op g k n v :
  (∀ x y, op x y = x ∨ op x y = y) → members k ≠ [] → result members op g k n = Some v →
  ∃ p, p ∈ members k ∧ sent g k p !! n = Some v.
Proof.
  intros Hop Hne (vals & Hf & ->)%result_Some. assert (vals ≠ []) as Hv by (intros ->; apply Forall2_nil_inv_r in Hf; done).
  destruct (proj1 (list_elem_of_lookup _ _) (reduce_all_elem op vals Hop Hv)) as (i & Hi).
  destruct (Forall2_lookup_r _ _ _ _ _ Hf Hi) as (p & Hp & Hx). exists p. split; [by eapply list_elem_of_lookup_2|done].
Qed.

(** Contributions are only added. *)
Lemma result_mono op g g' k n v :
  (∀ p, p ∈ members k → sent g k p `prefix_of` sent g' k p) → result members op g k n = Some v → result members op g' k n = Some v.
Proof.
  intros Hpre (vals & Hf & ->)%result_Some. apply result_Some. exists vals. split; [|done].
  apply Forall2_same_length_lookup. split; [by eapply Forall2_length|]. intros i p x Hp Hx.
  pose proof (Forall2_lookup_lr _ _ _ _ _ _ Hf Hp Hx) as Hl. cbn in Hl. eapply prefix_lookup_Some; [done|]. apply Hpre. by eapply list_elem_of_lookup_2.
Qed.

End results.

(** ** The invariant *)

Section safety.
Context {A : Type} `{CommTable A} {cap : Z} `{!CommTableLaws A cap}.
Context (ft : bool) (mx : Z) (Hmx : 0 < mx < cap) (Hint : mx ≤ INT_MAX).
Context (ks : list Z) (members : Z → list Z) (part : Z → Z → bool) (id_of : Z → Z → Z).
Context (procs0 : Z → cid_state A).
Implicit Types (g : system (A := A)) (nd : node).

Abbreviation table_of g p := (communicators (procs g p)).
Abbreviation res := (result members).

(** The entry a node has reserved or filled, among those below the limit. *)
Definition owned nd : option (Z * comm_ptr) :=
  let ctx := n_ctx nd in
  match n_pc nd with
  | Runs HCheckCid => if participate ctx then Some (nextlocal_cid ctx, OMPI_COMM_SENTINEL) else None
  | Runs HCheckFlag =>
      if participate ctx && negb (flag ctx =? 0) && (nextcid ctx <? mx) then Some (nextcid ctx, OMPI_COMM_SENTINEL) else None
  | Finished ids => if c_index ids <? mx then Some (c_index ids, COMM (newcomm ctx)) else None
  | _ => None
  end.

(** A node in round [r]. *)
Definition pc_ok g (k p : Z) (r : nat) nd : Prop :=
  let ctx := n_ctx nd in
  let len := length (n_sent nd) in
  match n_pc nd with
  | Idle => len = 0%nat
  | Runs HGetNextCid => len = (2 * r)%nat
  | Runs HCheckCid =>
      len = (2 * r + 1)%nat ∧ n_sent nd !! (2 * r)%nat = Some (nextlocal_cid ctx) ∧ 0 ≤ nextlocal_cid ctx < mx ∧ (ft = true → 0 < nextcid_epoch ctx)
  | Runs HCheckFlag =>
      len = (2 * r + 2)%nat ∧ res Z.max g k (2 * r) = Some (nextcid ctx) ∧ n_sent nd !! (2 * r + 1)%nat = Some (flag ctx)
  | Finished ids =>
      len = (2 * r + 2)%nat ∧ (∃ m, res Z.min g k (2 * r + 1) = Some m ∧ m ≠ 0) ∧ 0 ≤ c_index ids ∧
      (part k p = true → res Z.max g k (2 * r) = Some (c_index ids) ∧ c_index ids < mx)
  | Failed _ => len = (2 * r + 1)%nat
  end.

Record node_ok g (k p : Z) nd : Prop := {
  k_ctx : n_pc nd ≠ Idle → participate (n_ctx nd) = part k p ∧ newcomm (n_ctx nd) = k ∧ 0 ≤ start (n_ctx nd);
  k_pos : Forall (λ v, 0 ≤ v) (n_sent nd);
  k_low : ∀ r v, n_sent nd !! (2 * r)%nat = Some v → v ≤ mx ∧ ((S (2 * r) < length (n_sent nd))%nat → v < mx);
  k_round : ∃ r, (∀ r', (r' < r)%nat → res Z.min g k (2 * r' + 1) = Some 0) ∧ pc_ok g k p r nd;
}.

Definition unfinished nd : bool := match n_pc nd with Finished _ => false | _ => true end.

Definition unfinished_at g (p : Z) : Z := Z.of_nat (length (List.filter (λ k, unfinished (nodes g k p)) ks)).

Record sys_inv g : Prop := {
  s_table : ∀ p, table_inv (table_of g p);
  s_node : ∀ k p, k ∈ ks → p ∈ members k → node_ok g k p (nodes g k p);
  s_idle : ∀ k p, ¬ (k ∈ ks ∧ p ∈ members k) → n_pc (nodes g k p) = Idle;
  s_own : ∀ p, own_inv mx (items (communicators (procs0 p))) (items (table_of g p)) (λ k, owned (nodes g k p));
  s_epoch : ft = true → ∀ p, 2 + unfinished_at g p ≤ comm_cid_epoch (procs g p);
}.

Lemma result_max_range g k n v :
  sys_inv g → k ∈ ks → members k ≠ [] → res Z.max g k (2 * n) = Some v →
  0 ≤ v ≤ mx ∧ ∀ m, res Z.min g k (2 * n + 1) = Some m → v < mx.
Proof.
  intros Hinv Hk Hne Hr. destruct (result_from members Z.max g k (2 * n) v) as (p & Hp & Hv); [lia|done|done|].
  destruct (s_node _ Hinv k p Hk Hp) as [_ Hpos Hlow _]. rewrite Forall_lookup in Hpos. pose proof (Hpos _ _ Hv). destruct (Hlow _ _ Hv) as [? Hlt].
  split; [done|]. intros m Hm. apply Hlt. destruct (result_sent members _ _ _ _ _ p Hm Hp) as (x & Hx). apply lookup_lt_Some in Hx. lia.
Qed.

Lemma result_min_nonzero g k n v p x :
  sys_inv g → k ∈ ks → p ∈ members k → res Z.min g k n = Some v → v ≠ 0 → n_sent (nodes g k p) !! n = Some x → x ≠ 0.
Proof.
  intros Hinv Hk Hp Hr Hv Hx. destruct (result_from members Z.min g k n v) as (q & Hq & Hqv); [lia|by intros E; rewrite E in Hp; apply not_elem_of_nil in Hp|done|].
  destruct (s_node _ Hinv k q Hk Hq) as [_ Hpos _ _]. rewrite Forall_lookup in Hpos. pose proof (Hpos _ _ Hqv).
  pose proof (result_min_le members _ _ _ _ _ _ Hr Hp Hx). lia.
Qed.

(** ** One node *)

Lemma node_ok_mono g g' k p nd :
  (∀ op n v, res op g k n = Some v → res op g' k n = Some v) → node_ok g k p nd → node_ok g' k p nd.
Proof.
  intros Hm [Hc Hp Hl (r & Hr & Hpc)]. split; [done..|]. exists r. split; [intros; by apply Hm, Hr|].
  unfold pc_ok in *. destruct (n_pc nd) as [|[]|ids|rc]; try done.
  - destruct Hpc as (? & Hres & ?). split_and!; [done|by apply Hm|done].
  - destruct Hpc as (? & (m & Hres & ?) & ? & Hpart). split_and!; [done|exists m; by split; [apply Hm|]|done|].
    intros E. destruct (Hpart E). split; [by apply Hm|done].
Qed.

Lemma upd_nodes g k p st nd k' p' :
  nodes (upd g k p st nd) k' p' = if decide (k' = k ∧ p' = p) then nd else nodes g k' p'.
Proof.
  cbn. destruct (decide (k' = k)) as [->|Hk].
  - rewrite fn_lookup_insert. destruct (decide (p' = p)) as [->|Hp].
    + by rewrite fn_lookup_insert, decide_True.
    + rewrite fn_lookup_insert_ne, decide_False by other_node. done.
  - rewrite fn_lookup_insert_ne, decide_False by other_node. done.
Qed.

Lemma upd_results g k p st nd k' op n v :
  n_sent (nodes g k p) `prefix_of` n_sent nd → res op g k' n = Some v → res op (upd g k p st nd) k' n = Some v.
Proof.
  intros Hpre. apply result_mono. intros q _. rewrite upd_nodes. case_decide as E; [|done]. destruct E as [-> ->]. done.
Qed.

Lemma unfinished_upd g k p st nd :
  NoDup ks → k ∈ ks → unfinished (nodes g k p) = true →
  ∀ q, unfinished_at (upd g k p st nd) q = unfinished_at g q - (if bool_decide (q = p) && negb (unfinished nd) then 1 else 0).
Proof.
  intros Hnd Hk Hu q. unfold unfinished_at.
  assert (∀ k', unfinished (nodes (upd g k p st nd) k' q) = if decide (k' = k ∧ q = p) then unfinished nd else unfinished (nodes g k' q)) as Hn.
  { intros k'. rewrite upd_nodes. by case_decide. }
  destruct (bool_decide (q = p) && negb (unfinished nd)) eqn:Eb.
  - apply andb_true_iff in Eb as [->%bool_decide_eq_true Eb%negb_true_iff].
    rewrite (length_filter_except (λ k', unfinished (nodes g k' p)) (λ k', unfinished (nodes (upd g k p st nd) k' p)) k ks Hnd Hk Hu); [lia|].
    intros k' _. rewrite Hn. destruct (decide (k' = k)) as [->|Hne].
    + rewrite decide_True by done. by rewrite Eb, bool_decide_true.
    + rewrite decide_False by other_node. by rewrite bool_decide_false.
  - rewrite Z.sub_0_r. do 2 f_equal. apply List.filter_ext. intros k'. rewrite Hn. destruct (decide (k' = k ∧ q = p)) as [[-> ->]|]; [|done].
    rewrite bool_decide_true in Eb by done. cbn in Eb. apply negb_false_iff in Eb. congruence.
Qed.

(** A step of one node that is fine for it keeps the invariant. *)
Lemma inv_upd g k p st nd :
  NoDup ks → sys_inv g → k ∈ ks → p ∈ members k → unfinished (nodes g k p) = true →
  table_inv (communicators st) → n_sent (nodes g k p) `prefix_of` n_sent nd → node_ok g k p nd →
  own_inv mx (items (communicators (procs0 p))) (items (communicators st)) (<[k := owned nd]> (λ k', owned (nodes g k' p))) →
  (ft = true → comm_cid_epoch st = comm_cid_epoch (procs g p) - (if unfinished nd then 0 else 1)) →
  sys_inv (upd g k p st nd).
Proof.
  intros Hnd Hinv Hk Hp Hu Ht Hpre Hok Hown Hep. pose proof Hinv as [Htab Hnode Hidle Hso He]. split.
  - intros q. cbn. destruct (decide (q = p)) as [->|]; [by rewrite fn_lookup_insert|by rewrite fn_lookup_insert_ne].
  - intros k' q Hk' Hq. apply (node_ok_mono g); [intros; by apply upd_results|]. rewrite upd_nodes. case_decide as E; [by destruct E as [-> ->]|by apply Hnode].
  - intros k' q Hno. rewrite upd_nodes, decide_False; [by apply Hidle|]. intros [-> ->]. by apply Hno.
  - intros q. cbn [procs upd]. destruct (decide (q = p)) as [->|Hq].
    + rewrite fn_lookup_insert. eapply own_inv_ext; [|exact Hown]. intros k'. rewrite upd_nodes. destruct (decide (k' = k)) as [->|].
      * by rewrite fn_lookup_insert, decide_True.
      * rewrite fn_lookup_insert_ne, decide_False by other_node. done.
    + rewrite fn_lookup_insert_ne by done. eapply own_inv_ext; [|apply Hso]. intros k'. rewrite upd_nodes, decide_False by other_node. done.
  - intros Hft q. rewrite unfinished_upd by done. cbn [procs upd]. specialize (He Hft q). specialize (Hep Hft). destruct (decide (q = p)) as [->|Hq].
    + rewrite fn_lookup_insert, bool_decide_true by done. destruct (unfinished nd); cbn; lia.
    + rewrite fn_lookup_insert_ne, bool_decide_false by done. cbn. lia.
Qed.

(** ** The transitions *)

Lemma own_same before it it' owners k o :
  own_inv mx before it owners → (∀ j, 0 ≤ j → it' j = it j) → o = owners k → own_inv mx before it' (<[k := o]> owners).
Proof.
  intros [He Ho Hb] Hit ->. apply (own_inv_ext mx _ _ owners).
  { intros k'. destruct (decide (k' = k)) as [->|]; [by rewrite fn_lookup_insert|by rewrite fn_lookup_insert_ne]. }
  split; [intros k' c x E; destruct (He k' c x E); rewrite Hit by lia; done|done|]. intros c x Ec Hc. rewrite Hit by lia. by apply Hb.
Qed.

Lemma own_twice before it owners k o o' :
  own_inv mx before it (<[k := o']> (<[k := o]> owners)) → own_inv mx before it (<[k := o']> owners).
Proof.
  apply own_inv_ext. intros k'. destruct (decide (k' = k)) as [->|]; [by rewrite !fn_lookup_insert|by rewrite !fn_lookup_insert_ne].
Qed.

(** The first handler, for a node that owns nothing. *)
Lemma get_own before locked st ctx st' ctx' nx nd owners k :
  own_inv mx before (items (communicators st)) owners → owners k = None → 0 ≤ start ctx → get_post ft mx locked st ctx st' ctx' nx →
  own_inv mx before (items (communicators st')) (<[k := owned (after nd ctx' nx)]> owners).
Proof.
  intros Hown Hk Hs. unfold get_post. destruct (locked || _).
  { intros (-> & -> & ->). by apply (own_same _ (items (communicators st))). }
  intros ((_ & Hp & _) & _ & _ & [(v & -> & Hv & Hr & _ & _ & Hres)|[-> [_ [Hun _]]]]).
  2:{ by apply (own_same _ (items (communicators st))). }
  cbn [after]. unfold owned. cbn [n_pc n_ctx]. rewrite Hp. destruct (participate ctx).
  - apply (own_step _ _ (items (communicators st))); [done|]. rewrite Hk, Hv. destruct Hres as (_ & Hfree & _ & Hch). split.
    + intros j Hj. rewrite Hch by lia. done.
    + intros c x [= <- <-]. split; [lia|by left].
  - destruct Hres as [_ Hun]. by apply (own_same _ (items (communicators st))).
Qed.

Lemma snoc_lookup (l : list Z) v i x : (l ++ [v]) !! i = Some x ↔ l !! i = Some x ∨ (i = length l ∧ x = v).
Proof.
  rewrite lookup_app_Some, list_lookup_singleton_Some. split; [intros [?|(? & ? & <-)]; [by left|right; split; [lia|done]]|].
  intros [?|[-> ->]]; [by left|right; split; [lia|split; [lia|done]]].
Qed.

Lemma get_node g k p r nd locked st ctx st' ctx' nx :
  length (n_sent nd) = (2 * r)%nat → Forall (λ v, 0 ≤ v) (n_sent nd) →
  (∀ r v, n_sent nd !! (2 * r)%nat = Some v → v < mx) → (∀ r', (r' < r)%nat → res Z.min g k (2 * r' + 1) = Some 0) →
  participate ctx = part k p → newcomm ctx = k → 0 ≤ start ctx → get_post ft mx locked st ctx st' ctx' nx →
  node_ok g k p (after nd ctx' nx).
Proof.
  intros Hlen Hpos Hlow Hr Hp Hn Hs. unfold get_post. destruct (locked || _).
  { intros (-> & -> & ->). split; cbn; [done|done| |exists r; done]. intros r' v Ev. pose proof (Hlow _ _ Ev). lia. }
  assert (∀ ctx2 pc v, 0 ≤ v ≤ mx → participate ctx2 = part k p → newcomm ctx2 = k → 0 ≤ start ctx2 →
    pc_ok g k p r (mk_node ctx2 pc (n_sent nd ++ [v])) → node_ok g k p (mk_node ctx2 pc (n_sent nd ++ [v]))) as Hnode.
  { intros ctx2 pc v Hv Hp2 Hn2 Hs2 Hpc. split; cbn; [done| | |by exists r].
    - apply Forall_app. split; [done|]. apply Forall_singleton. lia.
    - intros r' v' [Ev|[Ei ->]]%snoc_lookup; [pose proof (Hlow _ _ Ev); lia|]. rewrite length_app. cbn. split; [lia|]. intros. lia. }
  intros ((Hn' & Hp' & _) & Hs' & _ & [(v & -> & Hv & Hvr & He & _ & _)|[-> _]]); cbn [after].
  - apply Hnode; try congruence; [lia|]. unfold pc_ok. cbn. rewrite length_app, Hlen, Hv. split_and!; try done; try lia.
    rewrite lookup_app_r, Hlen, Nat.sub_diag by lia. done.
  - apply Hnode; try congruence; [lia|]. unfold pc_ok. cbn. rewrite length_app, Hlen. cbn. lia.
Qed.

Lemma after_prefix nd ctx nx : n_sent nd `prefix_of` n_sent (after nd ctx nx).
Proof. destruct nx as [h|op v h|[v|] rc|ids]; cbn; try done; try by eexists. Qed.

Lemma get_unfinished locked st ctx st' ctx' nx nd :
  get_post ft mx locked st ctx st' ctx' nx → unfinished (after nd ctx' nx) = true ∧ comm_cid_epoch st' = comm_cid_epoch st.
Proof.
  unfold get_post. destruct (locked || _); [by intros (-> & -> & ->)|]. intros (_ & _ & ? & [(v & -> & _)|[-> _]]); done.
Qed.

Context (Hnd : NoDup ks).

(** The handler runs without error and keeps the invariant. *)
Definition exec_ok l1 l2 g k p : Prop :=
  match exec ft mx members part id_of l1 l2 g k p with None => False | Some None => True | Some (Some g') => sys_inv g' end.

Lemma idle_ok l1 l2 g k p : sys_inv g → k ∈ ks → p ∈ members k → n_pc (nodes g k p) = Idle → exec_ok l1 l2 g k p.
Proof.
  intros Hinv Hk Hp Hpc. unfold exec_ok, exec. rewrite Hpc. destruct (s_node _ Hinv k p Hk Hp) as [_ _ _ (r & _ & Hr)].
  unfold pc_ok in Hr. rewrite Hpc in Hr. apply length_zero_iff_nil in Hr. destruct (lowest_free_law _ (s_table _ Hinv p)) as [Hlf _].
  apply inv_upd; try done.
  - unfold unfinished. by rewrite Hpc.
  - apply Hinv.
  - by rewrite Hr.
  - split; cbn; [done|apply Forall_nil_2|done|]. exists 0%nat. split; [lia|done].
  - apply (own_same _ (items (table_of g p))); [apply Hinv|done|]. unfold owned. cbn. by rewrite Hpc.
  - intros _. cbn. lia.
Qed.

Lemma getnext_exec_ok l1 l2 g k p : sys_inv g → k ∈ ks → p ∈ members k → n_pc (nodes g k p) = Runs HGetNextCid → exec_ok l1 l2 g k p.
Proof.
  intros Hinv Hk Hp Hpc. unfold exec_ok, exec. rewrite Hpc. destruct (s_node _ Hinv k p Hk Hp) as [Hc Hpos Hlow (r & Hr & Hlen)].
  unfold pc_ok in Hlen. rewrite Hpc in Hlen. destruct Hc as (Hpart & Hnew & Hs); [by rewrite Hpc|].
  assert (ft = true → 2 ≤ comm_cid_epoch (procs g p)) as He by (intros Hft; pose proof (s_epoch _ Hinv Hft p); unfold unfinished_at in *; lia).
  destruct (getnextcid_ok ft mx Hmx Hint l1 (procs g p) (n_ctx (nodes g k p)) (s_table _ Hinv p) Hs He) as (st' & ctx' & nx & -> & Ht' & Hpost). run.
  destruct (get_unfinished _ _ _ _ _ _ (nodes g k p) Hpost) as [Hunf Hep]. apply inv_upd; try done.
  - unfold unfinished. by rewrite Hpc.
  - apply after_prefix.
  - eapply get_node; try done. intros r' v Ev. pose proof (lookup_lt_Some _ _ _ Ev). apply (Hlow r' v Ev). lia.
  - eapply get_own; try done; [apply (s_own _ Hinv p)|]. unfold owned. by rewrite Hpc.
  - intros _. rewrite Hunf. lia.
Qed.

(** A handler that finds the lock taken. *)
Lemma again_ok g k p h ctx :
  sys_inv g → k ∈ ks → p ∈ members k → n_pc (nodes g k p) = Runs h → owned (mk_node ctx (Runs h) (n_sent (nodes g k p))) = owned (nodes g k p) →
  node_ok g k p (mk_node ctx (Runs h) (n_sent (nodes g k p))) → sys_inv (upd g k p (procs g p) (after (nodes g k p) ctx (Again h))).
Proof.
  intros Hinv Hk Hp Hpc Ho Hok. cbn [after]. apply inv_upd; try done.
  - unfold unfinished. by rewrite Hpc.
  - apply Hinv.
  - apply (own_same _ (items (table_of g p))); [apply Hinv|done|done].
  - intros _. cbn. lia.
Qed.

(** The second handler moves the reservation or gives it back. *)
Lemma check_own before st ctx st' ctx' nx nd owners k :
  own_inv mx before (items (communicators st)) owners →
  owners k = (if participate ctx then Some (nextlocal_cid ctx, OMPI_COMM_SENTINEL) else None) →
  0 ≤ nextcid ctx ∧ 0 ≤ nextlocal_cid ctx < mx → check_post st ctx st' ctx' nx →
  own_inv mx before (items (communicators st')) (<[k := owned (after nd ctx' nx)]> owners).
Proof.
  intros Hown Hk [Hn Hl] (f & -> & -> & Hf & _ & _ & Hpost). cbn [after]. unfold owned. cbn [n_pc n_ctx with_flag participate flag nextcid].
  destruct (participate ctx); cbn [negb orb andb] in Hpost |- *.
  2:{ destruct Hpost as [_ Hun]. by apply (own_same _ (items (communicators st))). }
  destruct (Z.eqb_spec (nextcid ctx) (nextlocal_cid ctx)) as [E|Hvn].
  { destruct Hpost as [Hf0 Hun]. rewrite (proj2 (Z.eqb_neq f 0)), (proj2 (Z.ltb_lt _ _)), E by lia. by apply (own_same _ (items (communicators st))). }
  destruct Hpost as [Hf0 Hit]. apply (own_step _ _ (items (communicators st))); [done|]. rewrite Hk. destruct (Z.eqb_spec f 0) as [->|Hfn]; cbn [negb andb].
  - split; [|done]. intros j Hj. rewrite Hit by lia. rewrite bool_decide_false by (intros [_ ?]; done). done.
  - assert (items (communicators st) (nextcid ctx) = None) as Hvf. { destruct (items _ (nextcid ctx)) eqn:Ei; [|done]. exfalso. by apply Hfn, Hf0. }
    destruct (Z.ltb_spec (nextcid ctx) mx).
    + split; [|intros c x [= <- <-]; split; [lia|by left]]. intros j Hj. rewrite Hit by lia. destruct (decide (j = nextcid ctx)) as [->|].
      * by rewrite !bool_decide_true.
      * rewrite (bool_decide_false (_ ∧ _)), (bool_decide_false (j = nextcid ctx)) by other_node. done.
    + split; [|done]. intros j Hj. rewrite Hit by lia. rewrite bool_decide_false by (intros [? _]; lia). done.
Qed.

Lemma check_ok l1 l2 g k p : sys_inv g → k ∈ ks → p ∈ members k → n_pc (nodes g k p) = Runs HCheckCid → exec_ok l1 l2 g k p.
Proof.
  intros Hinv Hk Hp Hpc. unfold exec_ok, exec. rewrite Hpc. pose proof (s_node _ Hinv k p Hk Hp) as Hok. pose proof Hok as [Hc Hpos Hlow (r & Hr & Hlen)].
  unfold pc_ok in Hlen. rewrite Hpc in Hlen. destruct Hlen as (Hlen & Hsent & Hnl & Hep). destruct Hc as (Hpart & Hnew & Hs); [by rewrite Hpc|].
  rewrite Hlen. replace (pred (2 * r + 1)) with (2 * r)%nat by lia. destruct (res Z.max g k (2 * r)) as [v|] eqn:Ev; [|done].
  assert (members k ≠ []) as Hne by (intros E; rewrite E in Hp; by apply not_elem_of_nil in Hp).
  destruct (result_max_range g k r v Hinv Hk Hne Ev) as [Hv _]. set (nd := nodes g k p) in *. set (ctx := set_nextcid (n_ctx nd) v).
  destruct l1.
  { cbn. apply again_ok; try done; fold nd; [unfold owned; by rewrite Hpc|]. split; cbn; [done|done|done|]. exists r. split; [done|]. unfold pc_ok; cbn. done. }
  destruct (checkcid_ok ft (procs g p) ctx (s_table _ Hinv p)) as (st' & ctx' & nx & E & Ht' & Hpost');
    [cbn; lia|cbn; lia|done|]. rewrite E. clear E. pose proof Hpost' as (f & -> & -> & Hf & He' & _ & _). run. cbn [after]. apply inv_upd; try done; fold nd.
  - unfold unfinished. by rewrite Hpc.
  - cbn. by eexists.
  - split; cbn; [done| | |].
    + apply Forall_app. split; [done|]. by apply Forall_singleton.
    + intros r' w [Ew|[Ei ->]]%snoc_lookup; [|lia]. pose proof (lookup_lt_Some _ _ _ Ew). destruct (decide (r' = r)) as [->|].
      * assert (Some w = Some (nextlocal_cid (n_ctx nd))) as [= ->] by (etrans; [symmetry; exact Ew|exact Hsent]). lia.
      * destruct (Hlow r' w Ew) as [? Hlt]. split; [done|]. intros _. apply Hlt. lia.
    + exists r. split; [done|]. cbn. rewrite length_app, Hlen. cbn. split_and!; [lia|done|]. apply snoc_lookup. right. split; [lia|done].
  - apply (check_own _ (procs g p) ctx st' (with_flag ctx f (iter ctx + 1)) (Reduce MPI_MIN f HCheckFlag) nd (λ k', owned (nodes g k' p)) k); try done.
    + apply (s_own _ Hinv p).
    + fold nd. unfold owned. by rewrite Hpc.
    + cbn. lia.
  - intros _. rewrite He'. cbn. lia.
Qed.

(** The last handler fills the entry it owns, or one that is free. *)
Lemma done_own before a a' owners k o ctx l ids :
  own_inv mx before (items a) owners → owners k = o → 0 ≤ c_index ids → changed a a' (c_index ids) (Some (COMM k)) →
  (o = None ∧ (c_index ids < mx → items a (c_index ids) = None)) ∨ (∃ x, o = Some (c_index ids, x)) →
  newcomm ctx = k → own_inv mx before (items a') (<[k := owned (mk_node ctx (Finished ids) l)]> owners).
Proof.
  intros Hown Ho Hc Hch Hold Hk. apply (own_step _ _ (items a)); [done|]. rewrite Ho. unfold owned. cbn [n_pc n_ctx]. rewrite Hk. split.
  - intros j Hj. rewrite Hch by lia. destruct (Z.ltb_spec (c_index ids) mx).
    + case_bool_decide; [done|]. destruct Hold as [[-> _]|[x ->]]; [done|]. by rewrite bool_decide_false.
    + rewrite bool_decide_false by lia. destruct Hold as [[-> _]|[x E]]; [done|]. rewrite E in Ho. destruct (o_entry _ _ _ _ Hown _ _ _ Ho). lia.
  - intros c x E. destruct (Z.ltb_spec (c_index ids) mx); simplify_eq. split; [lia|]. destruct Hold as [[_ Hfree]|Hx]; [left; by apply Hfree|by right].
Qed.

(** The last handler: finished, or in the next round. *)
Lemma flag_ok l1 l2 g k p : sys_inv g → k ∈ ks → p ∈ members k → n_pc (nodes g k p) = Runs HCheckFlag → exec_ok l1 l2 g k p.
Proof.
  intros Hinv Hk Hp Hpc. unfold exec_ok, exec. rewrite Hpc. pose proof (s_node _ Hinv k p Hk Hp) as Hok. pose proof Hok as [Hc Hpos Hlow (r & Hr & Hlen)].
  unfold pc_ok in Hlen. rewrite Hpc in Hlen. destruct Hlen as (Hlen & Hmax & Hflag). destruct Hc as (Hpart & Hnew & Hs); [by rewrite Hpc|].
  rewrite Hlen. replace (pred (2 * r + 2)) with (2 * r + 1)%nat by lia. destruct (res Z.min g k (2 * r + 1)) as [v|] eqn:Ev; [|done].
  assert (members k ≠ []) as Hne by (intros E; rewrite E in Hp; by apply not_elem_of_nil in Hp).
  destruct (result_max_range g k r _ Hinv Hk Hne Hmax) as [Hn Hnlt]. specialize (Hnlt v Ev). pose proof (s_own _ Hinv p) as Hown.
  assert (ft = true → 2 ≤ comm_cid_epoch (procs g p)) as He by (intros Hft; pose proof (s_epoch _ Hinv Hft p); unfold unfinished_at in *; lia).
  set (nd := nodes g k p) in *. set (ctx := set_rflag (n_ctx nd) v). assert (unfinished nd = true) as Hunf by (unfold unfinished; by rewrite Hpc).
  destruct l1.
  { cbn. apply again_ok; try done; fold nd; [unfold owned; by rewrite Hpc|]. split; cbn; [done|done|done|]. exists r. split; [done|]. unfold pc_ok; cbn. done. }
  destruct (Z.eq_dec v 0) as [->|Hv].
  - destruct (check_flag_again ft mx Hmx Hint (procs g p) ctx l2 (s_table _ Hinv p)) as (st1 & ctx1 & st' & ctx' & nx & -> & Ht' & Hpost & Hsame & He1 & _ & Hrel);
      [done|cbn; lia|done|done|]. run. destruct (get_unfinished _ _ _ _ _ _ nd Hpost) as [Hu Hep]. destruct Hsame as (Hn1 & Hp1 & _).
    assert (0 ≤ start ctx1) as Hs1 by (cbn in Hrel; destruct (_ && _); destruct Hrel as [-> _]; lia).
    apply inv_upd; try done; fold nd.
    + apply after_prefix.
    + apply (get_node g k p (S r) nd l2 st1 ctx1 st' ctx' nx); try done; [lia| | |cbn in *; congruence..].
      * intros r' w Ew. pose proof (lookup_lt_Some _ _ _ Ew). apply (Hlow r' w Ew). lia.
      * intros r' Hr'. destruct (decide (r' = r)) as [->|]; [done|apply Hr; lia].
    + apply (own_twice _ _ _ _ None). eapply get_own; [|by rewrite fn_lookup_insert|exact Hs1|exact Hpost]. cbn in Hrel.
      assert (owned nd = if participate (n_ctx nd) && negb (flag (n_ctx nd) =? 0) then Some (nextcid (n_ctx nd), OMPI_COMM_SENTINEL) else None) as Ho.
      { unfold owned. rewrite Hpc, (proj2 (Z.ltb_lt _ _)) by lia. by rewrite andb_true_r. }
      destruct (participate (n_ctx nd) && negb (flag (n_ctx nd) =? 0)); destruct Hrel as [_ Hch].
      * apply (own_step _ _ (items (table_of g p))); [done|]. fold nd. rewrite Ho. split; [|done]. intros j Hj. by rewrite Hch by lia.
      * apply (own_same _ (items (table_of g p))); [done|by rewrite Hch|]. by fold nd.
    + intros _. rewrite Hu. lia.
  - destruct (check_flag_done ft mx Hmx Hint (procs g p) ctx l2 (s_table _ Hinv p)) as (st' & ctx' & nx & -> & Ht' & ids & -> & (Hn1 & Hp1 & _) & Hs1 & Hid & He' & _ & Hch & Hpost);
      [done|cbn; lia|done|]. run. cbn [after]. apply inv_upd; try done; fold nd.
    + split; cbn; [|done|done|].
      * intros _. rewrite Hp1, Hn1, Hs1. done.
      * exists r. split; [done|]. cbn. split_and!; [done|by exists v|lia|]. intros Epart. cbn in Hpost. rewrite Hpart, Epart in Hpost. rewrite Hpost. done.
    + cbn in Hch, Hpost, Hn1. rewrite Hnew in Hch. apply (done_own _ (table_of g p) _ _ k (owned nd)); [exact Hown|done|lia|exact Hch| |congruence].
      destruct (participate (n_ctx nd)) eqn:Ep.
      * right. unfold owned. rewrite Hpc, Ep, Hpost. cbn [andb]. rewrite (proj2 (Z.ltb_lt _ _)), (proj2 (Z.eqb_neq _ _)); [by eexists| |lia].
        by eapply result_min_nonzero.
      * left. split; [unfold owned; by rewrite Hpc, Ep|done].
    + intros Hft. rewrite He', Hft. done.
Qed.

Lemma exec_inv l1 l2 g k p : sys_inv g → k ∈ ks → p ∈ members k → exec_ok l1 l2 g k p.
Proof.
  intros Hinv Hk Hp. destruct (n_pc (nodes g k p)) as [|[]|ids|rc] eqn:Hpc; [by apply idle_ok|by apply getnext_exec_ok|by apply check_ok|by apply flag_ok|..];
    unfold exec_ok, exec; by rewrite Hpc.
Qed.

Lemma initial_inv :
  (∀ p, table_inv (communicators (procs0 p))) → (ft = true → ∀ p, 2 + Z.of_nat (length ks) ≤ comm_cid_epoch (procs0 p)) →
  sys_inv (initial procs0).
Proof using.
  intros Ht He. split; cbn; try done.
  - intros k p _ _. split; cbn; [done|apply Forall_nil_2|done|]. exists 0%nat. split; [lia|done].
  - intros Hft p. specialize (He Hft p). unfold unfinished_at. cbn [nodes initial].
    rewrite (List.forallb_filter_id _ ks); [lia|]. by apply List.forallb_forall.
Qed.

Lemma reachable_inv g :
  (∀ p, table_inv (communicators (procs0 p))) → (ft = true → ∀ p, 2 + Z.of_nat (length ks) ≤ comm_cid_epoch (procs0 p)) →
  rtc (step ft mx ks members part id_of) (initial procs0) g → sys_inv g.
Proof using Hmx Hint Hnd.
  intros Ht He Hrun. apply (rtc_ind_l (λ g0, sys_inv g0 → sys_inv g) g) in Hrun; [|done| |by apply initial_inv]; [done|].
  intros g0 g1 [k p l1 l2 g' Hk Hp E] _ IH Hinv. apply IH. pose proof (exec_inv l1 l2 g0 k p Hinv Hk Hp) as Hok. unfold exec_ok in Hok. by rewrite E in Hok.
Qed.

(** Two nodes of a creation that have finished did so in the same round. *)
Lemma finished_agree g k p q i j :
  sys_inv g → k ∈ ks → p ∈ members k → q ∈ members k → part k p = true → part k q = true →
  n_pc (nodes g k p) = Finished i → n_pc (nodes g k q) = Finished j → c_index i = c_index j.
Proof.
  intros Hinv Hk Hp Hq Hpp Hpq Ei Ej. destruct (s_node _ Hinv k p Hk Hp) as [_ _ _ (r & Hr & Hpc)]. destruct (s_node _ Hinv k q Hk Hq) as [_ _ _ (r' & Hr' & Hpc')].
  unfold pc_ok in *. rewrite Ei in Hpc. rewrite Ej in Hpc'. destruct Hpc as (_ & (m & Hm & Hm0) & _ & Hmax). destruct Hpc' as (_ & (m' & Hm' & Hm0') & _ & Hmax').
  assert (r = r') as <-.
  { destruct (Nat.lt_trichotomy r r') as [Hlt|[?|Hlt]]; [|done|].
    - specialize (Hr' r Hlt). congruence.
    - specialize (Hr r' Hlt). congruence. }
  destruct (Hmax Hpp) as [E1 _], (Hmax' Hpq) as [E2 _]. congruence.
Qed.

End safety.

(** ** Theorem *)

(** C4: any number of creations run in any interleaving over processes that share
    some of them, the handlers taking the lock in turn.  No handler fails; the
    processes of the new communicator that finish a creation have the same id; the
    entry of that id in each of their tables is the new communicator, so no
    process gives one id to two; and entries that were in use are not touched. *)
Theorem cid_agreement {A : Type} `{CommTable A} {cap : Z} `{!CommTableLaws A cap} ft mx ks members part id_of procs0 g :
  0 < mx < cap → mx ≤ INT_MAX → NoDup ks → (∀ p, table_inv (communicators (procs0 p))) →
  (ft = true → ∀ p, 2 + Z.of_nat (length ks) ≤ comm_cid_epoch (procs0 p)) →
  rtc (step ft mx ks members part id_of) (initial procs0) g →
  (∀ l1 l2 k p, k ∈ ks → p ∈ members k → exec ft mx members part id_of l1 l2 g k p ≠ None) ∧
  (∀ k p q i j, k ∈ ks → p ∈ members k → q ∈ members k → part k p = true → part k q = true →
     n_pc (nodes g k p) = Finished i → n_pc (nodes g k q) = Finished j → c_index i = c_index j) ∧
  (∀ k p i, k ∈ ks → p ∈ members k → part k p = true → n_pc (nodes g k p) = Finished i →
     0 ≤ c_index i < mx ∧ items (communicators (procs g p)) (c_index i) = Some (COMM k)) ∧
  (∀ p c x, 0 ≤ c < mx → items (communicators (procs0 p)) c = Some x → items (communicators (procs g p)) c = Some x).
Proof.
  intros Hmx Hint Hnd Ht He Hrun. pose proof (reachable_inv ft mx Hmx Hint ks members part id_of procs0 Hnd g Ht He Hrun) as Hinv. split_and!.
  - intros l1 l2 k p Hk Hp E. pose proof (exec_inv ft mx Hmx Hint ks members part id_of procs0 Hnd l1 l2 g k p Hinv Hk Hp) as Hok.
    unfold exec_ok in Hok. by rewrite E in Hok.
  - intros. by eapply (finished_agree ft mx ks members part procs0 g k p q).
  - intros k p i Hk Hp Hpp Ei. destruct (s_node _ _ _ _ _ _ _ Hinv k p Hk Hp) as [Hc _ _ (r & _ & Hpc)]. unfold pc_ok in Hpc. rewrite Ei in Hpc.
    destruct Hpc as (_ & _ & Hpos & Hmax). destruct (Hmax Hpp) as [_ Hlt]. destruct Hc as (_ & Hnew & _); [by rewrite Ei|].
    destruct (o_entry _ _ _ _ (s_own _ _ _ _ _ _ _ Hinv p) k (c_index i) (COMM k)) as [? ?]; [|done].
    unfold owned. by rewrite Ei, (proj2 (Z.ltb_lt _ _)), Hnew by done.
  - intros p c x Hc Ex. by apply (o_before _ _ _ _ (s_own _ _ _ _ _ _ _ Hinv p)).
Qed.

End CommCidSpec.
