(* ===== verification/CommCidLive.v ===== *)
(** * A creation ends, with the least id that is free everywhere

    One creation, without contention for the locks: every run is finite, a state
    in which nobody can take a step is one in which all have finished, and the
    id is the least one that is free in all processes of the new communicator.
    The common proposal grows in each round, since a process that proposed it
    and gave it back starts above it. *)

From stdpp Require Import base numbers list functions relations.
From S2P Require Import Prelude CommCid CommCidHandlers CommCidSystem CommCidSpec.
Import CommCid CommCidHandlers CommCidSystem CommCidSpec.

Local Open Scope Z_scope.
Local Open Scope c_scope.

Module CommCidLive.

Section live.
Context {A : Type} `{CommTable A} {cap : Z} `{!CommTableLaws A cap}.
Context (ft : bool) (mx : Z) (Hmx : 0 < mx < cap) (Hint : mx ≤ INT_MAX).
Context (k : Z) (ps : list Z) (part : Z → Z → bool) (id_of : Z → Z → Z).
Context (procs0 : Z → cid_state A) (cstar : Z) (Hcs : 0 ≤ cstar < mx).
Implicit Types (g : system (A := A)) (nd : node) (st : cid_state A).

Abbreviation members := (λ _ : Z, ps).
Abbreviation table_of g p := (communicators (procs g p)).
Abbreviation items0 p := (items (communicators (procs0 p))).
Abbreviation res := (result members).
Abbreviation inv := (sys_inv ft mx [k] members part procs0).

Record live_ok g p st nd : Prop := {
  v_lowest : id_of k p ≤ comm_cid_lowest_id st;
  v_id : n_pc nd ≠ Idle → my_id (n_ctx nd) = id_of k p;
  v_items : part k p = true → ∀ j, 0 ≤ j < mx → (∀ x, owned mx nd ≠ Some (j, x)) → items (communicators st) j = items0 p j;
  v_own : part k p = true → ∀ j x, owned mx nd = Some (j, x) → items0 p j = None;
  v_start : part k p = true → match n_pc nd with Runs _ => start (n_ctx nd) ≤ cstar | _ => True end;
  v_low : ∀ r v, n_sent nd !! (2 * r)%nat = Some v → v ≤ cstar ∧ (part k p = false → v = 0);
  v_flag : ∀ r m f, res Z.max g k (2 * r) = Some m → n_sent nd !! (2 * r + 1)%nat = Some f →
    ((m = cstar ∨ part k p = false ∨ n_sent nd !! (2 * r)%nat = Some m) → f ≠ 0) ∧ (part k p = true → f ≠ 0 → items0 p m = None);
  v_next : part k p = true → ∀ r v w, n_sent nd !! (2 * r)%nat = Some v → res Z.max g k (2 * r) = Some v →
    n_sent nd !! (2 * r + 2)%nat = Some w → v < w;
  v_pc : match n_pc nd with Failed _ => False | Runs HGetNextCid => n_sent nd = [] | _ => True end;
}.

Definition live g : Prop := ∀ p, p ∈ ps → live_ok g p (procs g p) (nodes g k p).

(** ** Reductions that have ended *)

Lemma result_complete op g n : (∀ p, p ∈ ps → (n < length (n_sent (nodes g k p)))%nat) → ∃ v, res op g k n = Some v.
Proof.
  intros Hall. unfold result. assert (is_Some (mapM (λ p, n_sent (nodes g k p) !! n) ps)) as [vals ->]; [|by eexists].
  apply mapM_is_Some, Forall_forall. intros p Hp. by apply lookup_lt_is_Some_2, Hall.
Qed.

(** Who has answered has the common proposal. *)
Lemma answered_complete g p r f :
  inv g → p ∈ ps → n_sent (nodes g k p) !! (2 * r + 1)%nat = Some f → ∃ m, res Z.max g k (2 * r) = Some m.
Proof.
  intros Hinv Hp Hf. destruct (s_node _ _ _ _ _ _ _ Hinv k p ltac:(by apply list_elem_of_singleton) Hp) as [_ _ _ (r' & Hr & Hpc)].
  apply lookup_lt_Some in Hf.
  assert (∀ q m, res Z.min g k (2 * q + 1) = Some m → ∃ m, res Z.max g k (2 * q) = Some m) as Hmin.
  { intros q m Hm. apply result_complete. intros p' Hp'. destruct (result_sent members _ _ _ _ _ p' Hm Hp') as (x & Hx). apply lookup_lt_Some in Hx. lia. }
  destruct (decide (r < r')%nat) as [Hlt|Hge]; [by eapply Hmin, Hr|]. unfold pc_ok in Hpc.
  destruct (n_pc (nodes g k p)) as [|[]|ids|rc]; try lia.
  - destruct Hpc as (? & Hmax & _). assert (r = r') as -> by lia. eauto.
  - destruct Hpc as (? & (m & Hm & _) & _). assert (r = r') as -> by lia. by eapply Hmin.
Qed.

(** The reductions a node has the results of have ended. *)
Definition answered g nd : Prop := ∀ r f, n_sent nd !! (2 * r + 1)%nat = Some f → ∃ m, res Z.max g k (2 * r) = Some m.

(** The invariant of a node does not depend on what others contribute later. *)
Lemma live_mono g g' p st nd :
  answered g nd → (∀ op n v, res op g k n = Some v → res op g' k n = Some v) → live_ok g p st nd → live_ok g' p st nd.
Proof.
  intros Ha Hm [H1 H2 H3 H4 H5 H6 H7 H8 H9]. split; try done.
  - intros r m f Hr Hf. destruct (Ha r f Hf) as (m' & Hr'). assert (m' = m) as -> by (pose proof (Hm _ _ _ Hr'); congruence). by apply H7.
  - intros Hpart r v w Hv Hr Hw. destruct (lookup_lt_is_Some_2 (n_sent nd) (2 * r + 1)) as [f Hf]; [apply lookup_lt_Some in Hw; lia|].
    destruct (Ha r f Hf) as (m' & Hr'). assert (m' = v) as -> by (pose proof (Hm _ _ _ Hr'); congruence). by apply (H8 Hpart r).
Qed.

(** The proposals: at most [cstar], growing, and all agree on [cstar]. *)
Lemma proposal_le g r m : live g → ps ≠ [] → res Z.max g k (2 * r) = Some m → m ≤ cstar.
Proof.
  intros Hl Hne Hr. destruct (result_from members Z.max g k (2 * r) m) as (p & Hp & Hv); [lia|done|done|]. by apply (v_low _ _ _ _ (Hl p Hp) r).
Qed.

Lemma failed_round g r m :
  live g → ps ≠ [] → res Z.max g k (2 * r) = Some m → res Z.min g k (2 * r + 1) = Some 0 → m < cstar.
Proof.
  intros Hl Hne Hr Hmin. pose proof (proposal_le g r m Hl Hne Hr). destruct (result_from members Z.min g k (2 * r + 1) 0) as (p & Hp & Hf); [lia|done|done|].
  destruct (decide (m = cstar)) as [->|]; [|lia]. destruct (v_flag _ _ _ _ (Hl p Hp) r cstar 0 Hr Hf) as [Hz _]. destruct Hz; [by left|done].
Qed.

Lemma rounds_grow g r m :
  inv g → live g → ps ≠ [] →
  (∀ r', (r' < r)%nat → res Z.min g k (2 * r' + 1) = Some 0) → res Z.max g k (2 * r) = Some m → Z.of_nat r ≤ m.
Proof.
  intros Hinv Hl Hne.
  assert (∀ p i v, p ∈ ps → n_sent (nodes g k p) !! i = Some v → 0 ≤ v) as Hpos.
  { intros p i v Hp Hv. destruct (s_node _ _ _ _ _ _ _ Hinv k p ltac:(by apply list_elem_of_singleton) Hp) as [_ Hpos _ _].
    rewrite Forall_lookup in Hpos. by eapply Hpos. }
  revert m. induction r as [|r IH]; intros m Hr Hm.
  { destruct (result_from members Z.max g k (2 * 0) m) as (p & Hp & Hv); [lia|done|done|]. pose proof (Hpos p _ m Hp Hv). lia. }
  pose proof (Hr r ltac:(lia)) as Hmin.
  destruct (result_complete Z.max g (2 * r)) as (m0 & Hm0).
  { intros p Hp. destruct (result_sent members _ _ _ _ _ p Hmin Hp) as (x & Hx). apply lookup_lt_Some in Hx. lia. }
  assert (Z.of_nat r ≤ m0) as Hr0 by (apply IH; [intros; apply Hr; lia|done]).
  destruct (result_from members Z.max g k (2 * r) m0) as (p & Hp & Hv); [lia|done|done|]. pose proof (Hl p Hp) as Hlp.
  destruct (part k p) eqn:Epart.
  - destruct (result_sent members _ _ _ _ _ p Hm Hp) as (w & Hw). pose proof (result_max_ge members _ _ _ _ _ _ Hm Hp Hw).
    replace (2 * S r)%nat with (2 * r + 2)%nat in Hw by lia.
    pose proof (v_next _ _ _ _ Hlp Epart r m0 w Hv Hm0 Hw). lia.
  - exfalso. assert (m0 = 0) as -> by (by apply (v_low _ _ _ _ Hlp r)).
    destruct (result_from members Z.min g k (2 * r + 1) 0) as (q & Hq & Hf); [lia|done|done|]. pose proof (Hl q Hq) as Hlq.
    destruct (v_flag _ _ _ _ Hlq r 0 0 Hm0 Hf) as [Hz _]. apply Hz; [|done]. destruct (part k q); [|by right; left]. right. right.
    destruct (result_sent members _ _ _ _ _ q Hm0 Hq) as (x & Hx). pose proof (result_max_ge members _ _ _ _ _ _ Hm0 Hq Hx).
    pose proof (Hpos q _ x Hq Hx). by assert (x = 0) as -> by lia.
Qed.

(** ** Transitions *)

(** The first handler of a node that owns nothing, in a new round. *)
Lemma live_get g p r nd st ctx st' ctx' nx :
  length (n_sent nd) = (2 * r)%nat → part k p = participate ctx → my_id ctx = id_of k p → id_of k p ≤ comm_cid_lowest_id st →
  (part k p = true → start ctx ≤ cstar ∧ items0 p cstar = None ∧ ∀ j, 0 ≤ j < mx → items (communicators st) j = items0 p j) →
  0 ≤ start ctx →
  (part k p = true → ∀ r' v, r = S r' → n_sent nd !! (2 * r')%nat = Some v → res Z.max g k (2 * r') = Some v → v < start ctx) →
  live_ok g p (procs g p) nd → get_post ft mx false st ctx st' ctx' nx →
  ∃ v, nx = Reduce MPI_MAX v HCheckCid ∧ live_ok g p st' (after nd ctx' nx).
Proof.
  intros Hlen Hpart Hid Hlow Hp Hs Hnext [_ _ _ _ _ Hvlow Hvflag Hvnext _]. unfold get_post. cbn [orb]. rewrite Hid, (proj2 (Z.ltb_ge _ _)) by done.
  intros ((Hn' & Hp' & Hi') & Hs' & _ & [(v & -> & Hv & Hvr & _ & Hlow' & Hres)|(-> & Ep & Hres)]).
  2:{ exfalso. rewrite Ep in Hpart. destruct (Hp Hpart) as (Hsc & Hfree & Hit), Hres as [_ Hres]. apply (Hres cstar); [lia|]. by rewrite Hit. }
  exists v. split; [done|]. rewrite <- Hpart in Hp', Hres. cbn [after].
  assert (part k p = true → start ctx ≤ v ≤ cstar) as Hvc.
  { intros E. rewrite E in Hres. destruct Hres as (Hsv & _ & Hfull & _), (Hp E) as (Hsc & Hfree & Hit). split; [lia|].
    destruct (decide (v ≤ cstar)); [done|]. exfalso. apply (Hfull cstar); [lia|]. by rewrite Hit. }
  assert (owned mx (mk_node ctx' (Runs HCheckCid) (n_sent nd ++ [v])) = if part k p then Some (v, OMPI_COMM_SENTINEL) else None) as Ho.
  { unfold owned. cbn. by rewrite Hp', Hv. }
  split; cbn [n_pc n_ctx n_sent]; try done.
  - rewrite Hlow'. lia.
  - congruence.
  - intros E j Hj Hno. rewrite Ho in Hno. destruct (Hp E) as (_ & _ & Hit). rewrite E in Hres, Hno. destruct Hres as (_ & _ & _ & Hch).
    rewrite Hch by lia. rewrite bool_decide_false; [by apply Hit|]. intros ->. by apply (Hno OMPI_COMM_SENTINEL).
  - intros E j x. rewrite Ho. rewrite E in *. intros [= <- _]. destruct Hres as (_ & Hfree & _), (Hp eq_refl) as (_ & _ & Hit). by rewrite <- Hit by lia.
  - intros E. rewrite Hs'. by apply Hp.
  - intros r' w [Ew|[_ ->]]%snoc_lookup; [by apply (Hvlow r')|]. split; [|intros E; rewrite E in Hres; by apply Hres].
    destruct (part k p); [by apply Hvc|]. destruct Hres as [-> _]. lia.
  - intros r' m f Hr' [Ef|[Ei _]]%snoc_lookup; [|lia]. destruct (Hvflag r' m f Hr' Ef) as [H1 H2]. split; [|done]. intros Hor. apply H1.
    destruct Hor as [?|[?|[?|[Ei _]]%snoc_lookup]]; [by left|by right; left|by right; right|]. apply lookup_lt_Some in Ef. lia.
  - intros E r' u w Hu Hr' [Ew|[Ei ->]]%snoc_lookup; (apply snoc_lookup in Hu as [Hu|[Ei2 _]]; [|apply lookup_lt_Some in Ew || idtac; lia]).
    + by apply (Hvnext E r').
    + pose proof (Hnext E r' u ltac:(lia) Hu Hr'). pose proof (Hvc E). lia.
Qed.

Context (Hfree : ∀ p, p ∈ ps → part k p = true → items0 p cstar = None) (Hids : ∀ p, p ∈ ps → id_of k p ≤ INT64_MAX).

(** The number of steps a node has taken. *)
Definition steps_of nd : nat :=
  match n_pc nd with Idle => 0 | Runs _ => 1 + length (n_sent nd) | Finished _ => 2 + length (n_sent nd) | Failed _ => 1 + length (n_sent nd) end.

(** What a step of a node gives. *)
Definition node_step g p g' : Prop :=
  ∃ st' nd', g' = upd g k p st' nd' ∧ live_ok g p st' nd' ∧ answered g nd' ∧ n_sent (nodes g k p) `prefix_of` n_sent nd' ∧
    steps_of nd' = S (steps_of (nodes g k p)).

Abbreviation run g p := (exec ft mx members part id_of false false g k p).

Lemma answered_node g p : inv g → p ∈ ps → answered g (nodes g k p).
Proof. intros Hinv Hp r f Hf. by eapply answered_complete. Qed.

Lemma k_in : k ∈ [k].
Proof. by apply list_elem_of_singleton. Qed.

Lemma live_idle g p g' : inv g → live g → p ∈ ps → n_pc (nodes g k p) = Idle → run g p = Some (Some g') → node_step g p g'.
Proof.
  intros Hinv Hl Hp Hpc. unfold exec. rewrite Hpc. intros [= <-]. destruct (Hl p Hp) as [H1 _ H3 _ _ _ _ _ _].
  destruct (s_node _ _ _ _ _ _ _ Hinv k p k_in Hp) as [_ _ _ (r & _ & Hr)]. unfold pc_ok in Hr. rewrite Hpc in Hr. apply length_zero_iff_nil in Hr.
  eexists _, _. split; [done|]. split_and!; try done; [|by rewrite Hr|unfold steps_of; by rewrite Hpc].
  assert (owned mx (nodes g k p) = None) as Ho by (unfold owned; by rewrite Hpc).
  split; cbn [n_pc n_ctx n_sent]; try done.
  - intros E j Hj _. apply H3; [done|done|]. by rewrite Ho.
  - intros E. cbn. destruct (lowest_free_law _ (s_table _ _ _ _ _ _ _ Hinv p)) as [_ Hlf]. destruct (decide (lowest_free (table_of g p) ≤ cstar)); [done|].
    exfalso. apply (Hlf cstar); [lia|]. rewrite H3; [by apply Hfree|done|done|by rewrite Ho].
Qed.

Lemma live_getnext g p g' : inv g → live g → p ∈ ps → n_pc (nodes g k p) = Runs HGetNextCid → run g p = Some (Some g') → node_step g p g'.
Proof.
  intros Hinv Hl Hp Hpc. unfold exec. rewrite Hpc. pose proof (Hl p Hp) as Hlp. pose proof Hlp as [H1 H2 H3 _ H5 _ _ _ H9]. rewrite Hpc in H5, H9.
  destruct (s_node _ _ _ _ _ _ _ Hinv k p k_in Hp) as [Hc _ _ _]. destruct Hc as (Hpart & _ & Hs); [by rewrite Hpc|].
  assert (ft = true → 2 ≤ comm_cid_epoch (procs g p)) as He by (intros Hft; pose proof (s_epoch _ _ _ _ _ _ _ Hinv Hft p); unfold unfinished_at in *; lia).
  destruct (getnextcid_ok ft mx Hmx Hint false (procs g p) (n_ctx (nodes g k p)) (s_table _ _ _ _ _ _ _ Hinv p) Hs He) as (st' & ctx' & nx & -> & Ht' & Hpost). run.
  intros [= <-]. destruct (live_get g p 0 (nodes g k p) (procs g p) (n_ctx (nodes g k p)) st' ctx' nx) as (v & -> & Hlive); try done.
  - by rewrite H9.
  - apply H2. by rewrite Hpc.
  - intros E. split_and!; [by apply H5|by apply Hfree|]. intros j Hj. apply H3; [done|done|]. unfold owned. by rewrite Hpc.
  - eexists _, _. split; [done|]. split_and!; [done| |by eexists|].
    + intros r f. cbn. rewrite H9. intros Ef. apply lookup_lt_Some in Ef. cbn in Ef. lia.
    + unfold steps_of. cbn. rewrite Hpc, length_app. cbn. lia.
Qed.

(** The second handler: who proposed the common id, or finds it free, says so. *)
Lemma live_check_post g p r nd st ctx st' ctx' nx :
  live_ok g p st nd → n_pc nd = Runs HCheckCid → length (n_sent nd) = (2 * r + 1)%nat → n_sent nd !! (2 * r)%nat = Some (nextlocal_cid (n_ctx nd)) →
  participate (n_ctx nd) = part k p → 0 ≤ nextlocal_cid (n_ctx nd) < mx → 0 ≤ nextcid ctx ≤ cstar → res Z.max g k (2 * r) = Some (nextcid ctx) →
  (part k p = true → items0 p cstar = None) →
  ctx = set_nextcid (n_ctx nd) (nextcid ctx) → check_post st ctx st' ctx' nx → live_ok g p st' (after nd ctx' nx).
Proof.
  intros [H1 H2 H3 H4 H5 H6 H7 H8 _] Hpc Hlen Hsent Hpart Hloc Hn Hres Hfr Hctx (f & -> & -> & Hf & _ & Hlow & Hpost). cbn [after]. rewrite Hpc in *.
  rewrite Hctx in Hpost. cbn [participate nextlocal_cid nextcid set_nextcid with_cid] in Hpost. rewrite Hpart in Hpost.
  assert (owned mx nd = if part k p then Some (nextlocal_cid (n_ctx nd), OMPI_COMM_SENTINEL) else None) as Ho by (unfold owned; by rewrite Hpc, Hpart).
  assert (owned mx (mk_node (with_flag ctx f (iter ctx + 1)) (Runs HCheckFlag) (n_sent nd ++ [f])) =
          if part k p && negb (f =? 0) then Some (nextcid ctx, OMPI_COMM_SENTINEL) else None) as Ho'.
  { unfold owned. cbn [n_pc n_ctx with_flag participate flag nextcid]. rewrite Hctx at 1. cbn [participate set_nextcid with_cid].
    rewrite Hpart, (proj2 (Z.ltb_lt _ _)) by lia. by rewrite andb_true_r. }
  assert (part k p = true → f ≠ 0 → items0 p (nextcid ctx) = None) as Hnone.
  { intros E Hf0. rewrite E in *. cbn [negb orb] in Hpost. destruct (Z.eqb_spec (nextcid ctx) (nextlocal_cid (n_ctx nd))) as [E'|Hne].
    - rewrite E'. by eapply H4.
    - destruct Hpost as [Hz _]. rewrite <- H3; [|done|lia|intros x; rewrite Ho; congruence]. destruct (items _ (nextcid ctx)); [|done]. exfalso. by apply Hf0, Hz. }
  split; cbn [n_pc n_ctx n_sent]; try done.
  - by rewrite Hlow.
  - intros _. rewrite Hctx. cbn. by apply H2.
  - intros E j Hj Hno. rewrite Ho' in Hno. rewrite E in *. cbn [negb orb andb] in Hpost, Hno.
    assert (j ≠ nextlocal_cid (n_ctx nd) → items (communicators st) j = items0 p j) as Hj3 by (intros Hjl; apply H3; [done|done|]; intros x; rewrite Ho; congruence).
    destruct (Z.eqb_spec (nextcid ctx) (nextlocal_cid (n_ctx nd))) as [E'|Hne].
    + destruct Hpost as [Hf0 Hun]. rewrite Hun by lia. apply Hj3. rewrite (proj2 (Z.eqb_neq f 0)) in Hno by done. rewrite <- E'. intros ->. by apply (Hno OMPI_COMM_SENTINEL).
    + destruct Hpost as [_ Hit]. rewrite Hit by lia. rewrite bool_decide_false.
      * case_bool_decide as Hjl; [|by apply Hj3]. subst j. symmetry. by eapply H4.
      * intros [-> Hf0]. rewrite (proj2 (Z.eqb_neq f 0)) in Hno by done. by apply (Hno OMPI_COMM_SENTINEL).
  - intros E j x. rewrite Ho', E. cbn [andb]. destruct (Z.eqb_spec f 0); cbn; [done|]. intros [= <- _]. by apply Hnone.
  - intros E. rewrite Hctx. cbn. by apply H5.
  - intros r' v [Ev|[Ei _]]%snoc_lookup; [by apply (H6 r')|lia].
  - intros r' m f' Hr' [Ef|[Ei ->]]%snoc_lookup.
    + destruct (H7 r' m f' Hr' Ef) as [Hx Hy]. split; [|done]. intros Hor. apply Hx. destruct Hor as [?|[?|[?|[Ei _]]%snoc_lookup]]; [by left|by right; left|by right; right|lia].
    + assert (r' = r) as -> by lia. assert (m = nextcid ctx) as -> by congruence. split; [|done]. intros Hor Hf0. subst f.
      destruct (part k p) eqn:E; cbn [negb orb] in Hpost; [|by destruct Hpost].
      destruct (Z.eqb_spec (nextcid ctx) (nextlocal_cid (n_ctx nd))) as [E'|Hne]; [by destruct Hpost|]. destruct Hpost as [Hz _].
      destruct Hor as [Em|[?|[Em|[Ei2 _]]%snoc_lookup]]; [|done|congruence|lia]. apply (proj1 Hz eq_refl). rewrite H3; [by rewrite Em; apply Hfr|done|lia|].
      intros x. rewrite Ho. congruence.
  - intros E r' v w Hv Hr' [Ew|[Ei _]]%snoc_lookup; [|lia]. apply snoc_lookup in Hv as [Hv|[Ei _]]; [by apply (H8 E r')|]. lia.
Qed.

Lemma live_check g p g' : inv g → live g → p ∈ ps → n_pc (nodes g k p) = Runs HCheckCid → run g p = Some (Some g') → node_step g p g'.
Proof.
  intros Hinv Hl Hp Hpc. unfold exec. rewrite Hpc. pose proof (Hl p Hp) as Hlp.
  destruct (s_node _ _ _ _ _ _ _ Hinv k p k_in Hp) as [Hc _ _ (r & Hr & Hlen)]. unfold pc_ok in Hlen. rewrite Hpc in Hlen.
  destruct Hlen as (Hlen & Hsent & Hnl & Hep). destruct Hc as (Hpart & _ & Hs); [by rewrite Hpc|]. rewrite Hlen. replace (pred (2 * r + 1)) with (2 * r)%nat by lia.
  assert (ps ≠ []) as Hne by (intros E; rewrite E in Hp; by apply not_elem_of_nil in Hp).
  destruct (res Z.max g k (2 * r)) as [v|] eqn:Ev; [|done]. destruct (result_max_range ft mx [k] members part procs0 g k r v Hinv k_in Hne Ev) as [Hv _].
  pose proof (proposal_le g r v Hl Hne Ev). set (ctx := set_nextcid (n_ctx (nodes g k p)) v).
  destruct (checkcid_ok ft (procs g p) ctx (s_table _ _ _ _ _ _ _ Hinv p)) as (st' & ctx' & nx & -> & Ht' & Hpost); [cbn; lia|cbn; lia|done|]. run. intros [= <-].
  pose proof Hpost as (f & Enx & _). eexists _, _. split; [done|]. split_and!.
  - apply (live_check_post g p r (nodes g k p) (procs g p) ctx st' ctx' nx); try done; [cbn; lia|by apply Hfree].
  - subst nx. intros r' f' [Ef|[Ei _]]%snoc_lookup; [by eapply answered_node|]. assert (r' = r) as -> by lia. eauto.
  - apply after_prefix.
  - subst nx. unfold steps_of. cbn. rewrite Hpc, length_app. cbn. lia.
Qed.

Lemma live_done_post g p nd st ctx st' ctx' nx :
  live_ok g p st nd → n_pc nd = Runs HCheckFlag → participate (n_ctx nd) = part k p → id_of k p ≤ INT64_MAX → my_id (n_ctx nd) = id_of k p →
  (part k p = true → flag (n_ctx nd) ≠ 0 ∧ nextcid (n_ctx nd) < mx) → ctx = set_rflag (n_ctx nd) (rflag ctx) →
  flag_post_done ft mx st ctx st' ctx' nx → live_ok g p st' (after nd ctx' nx).
Proof.
  intros [H1 H2 H3 H4 H5 H6 H7 H8 _] Hpc Hpart Hid Hmy Hfl Hctx (ids & -> & (Hn' & Hp' & Hi') & _ & Hc & _ & Hlow & Hch & Hpost). cbn [after].
  rewrite Hctx in Hch, Hpost, Hi'. cbn [participate nextcid newcomm my_id set_rflag] in Hch, Hpost, Hi'. rewrite Hpart in Hpost.
  assert (part k p = true → owned mx nd = Some (c_index ids, OMPI_COMM_SENTINEL)) as Ho.
  { intros E. rewrite E in Hpost. destruct (Hfl E) as [Hf Hlt]. unfold owned. rewrite Hpc, Hpart, E. cbn [andb].
    by rewrite (proj2 (Z.eqb_neq _ _)), (proj2 (Z.ltb_lt _ _)), Hpost by done. }
  assert (part k p = true → owned mx (mk_node ctx' (Finished ids) (n_sent nd)) = Some (c_index ids, COMM (newcomm ctx'))) as Ho'.
  { intros E. rewrite E in Hpost. destruct (Hfl E) as [_ Hlt]. unfold owned. cbn. by rewrite (proj2 (Z.ltb_lt _ _)) by lia. }
  split; cbn [n_pc n_ctx n_sent]; try done.
  - by rewrite Hlow.
  - congruence.
  - intros E j Hj Hno. rewrite Ho' in Hno by done. assert (j ≠ c_index ids) as Hne by (intros ->; by eapply Hno). rewrite Hch by lia.
    rewrite bool_decide_false by done. apply H3; [done|done|]. intros x. rewrite Ho by done. congruence.
  - intros E j x. rewrite Ho' by done. intros [= <- _]. eapply H4; [done|]. by apply Ho.
Qed.

Lemma live_flag g p g' : inv g → live g → p ∈ ps → n_pc (nodes g k p) = Runs HCheckFlag → run g p = Some (Some g') → node_step g p g'.
Proof.
  intros Hinv Hl Hp Hpc. unfold exec. rewrite Hpc. pose proof (Hl p Hp) as Hlp. pose proof Hlp as [H1 H2 H3 H4 H5 _ H7 _ _]. rewrite Hpc in H5.
  destruct (s_node _ _ _ _ _ _ _ Hinv k p k_in Hp) as [Hc _ _ (r & Hr & Hlen)]. unfold pc_ok in Hlen. rewrite Hpc in Hlen.
  destruct Hlen as (Hlen & Hmax & Hflag). destruct Hc as (Hpart & _ & Hs); [by rewrite Hpc|]. rewrite Hlen. replace (pred (2 * r + 2)) with (2 * r + 1)%nat by lia.
  assert (ps ≠ []) as Hne by (intros E; rewrite E in Hp; by apply not_elem_of_nil in Hp).
  destruct (res Z.min g k (2 * r + 1)) as [v|] eqn:Ev; [|done]. destruct (result_max_range ft mx [k] members part procs0 g k r _ Hinv k_in Hne Hmax) as [Hn Hnlt].
  specialize (Hnlt v Ev). set (nd := nodes g k p) in *. set (ctx := set_rflag (n_ctx nd) v).
  assert (ft = true → 2 ≤ comm_cid_epoch (procs g p)) as He by (intros Hft; pose proof (s_epoch _ _ _ _ _ _ _ Hinv Hft p); unfold unfinished_at in *; lia).
  assert (my_id (n_ctx nd) = id_of k p) as Hmy by (apply H2; by rewrite Hpc). destruct (Z.eq_dec v 0) as [->|Hv].
  - destruct (check_flag_again ft mx Hmx Hint (procs g p) ctx false (s_table _ _ _ _ _ _ _ Hinv p)) as (st1 & ctx1 & st' & ctx' & nx & -> & Ht' & Hpost & Hsame & He1 & Hl1 & Hrel);
      [done|cbn; lia|done|done|]. run. intros [= <-]. destruct Hsame as (Hn1 & Hp1 & Hi1). cbn in Hrel, Hp1, Hi1.
    pose proof (failed_round g r _ Hl Hne Hmax Ev) as Hfail. rewrite Hpart in Hrel.
    assert (owned mx nd = if part k p && negb (flag (n_ctx nd) =? 0) then Some (nextcid (n_ctx nd), OMPI_COMM_SENTINEL) else None) as Ho.
    { unfold owned. by rewrite Hpc, Hpart, (proj2 (Z.ltb_lt _ _)), andb_true_r by lia. }
    destruct (live_get g p (S r) nd st1 ctx1 st' ctx' nx) as (w & -> & Hlive); try done; try congruence; try lia.
    + intros E. rewrite E in *. cbn [andb] in *. split_and!; [|by apply Hfree|].
      * destruct (negb _); destruct Hrel as [-> _]; [lia|by apply H5].
      * intros j Hj. destruct (negb _).
        -- destruct Hrel as [_ Hch]. rewrite Hch by lia. case_bool_decide as Ej; [subst j; symmetry; by eapply H4|].
           apply H3; [done|done|]. intros x. rewrite Ho. congruence.
        -- destruct Hrel as [_ ->]. apply H3; [done|done|]. by rewrite Ho.
    + destruct (_ && _); destruct Hrel as [-> _]; lia.
    + intros E r' u Er Hu Hr'. assert (r' = r) as -> by lia. assert (u = nextcid (n_ctx nd)) as -> by congruence.
      destruct (H7 r _ _ Hmax Hflag) as [Hf0 _]. rewrite E, (proj2 (Z.eqb_neq _ _)) in Hrel by (apply Hf0; by right; right). cbn in Hrel. destruct Hrel as [-> _]. lia.
    + eexists _, _. split; [done|]. split_and!; [done| |by eexists|].
      * intros r' f' [Ef|[Ei _]]%snoc_lookup; [by eapply answered_node|]. lia.
      * unfold steps_of. cbn. fold nd. rewrite Hpc, length_app. cbn. lia.
  - destruct (check_flag_done ft mx Hmx Hint (procs g p) ctx false (s_table _ _ _ _ _ _ _ Hinv p)) as (st' & ctx' & nx & -> & Ht' & Hpost); [done|cbn; lia|done|]. run.
    intros [= <-]. pose proof Hpost as (ids & -> & _). eexists _, _. split; [done|]. split_and!.
    + apply (live_done_post g p nd (procs g p) ctx); try done; [by apply Hids|]. intros E. split; [|lia].
      by apply (result_min_nonzero ft mx [k] members part procs0 g k (2 * r + 1) v p (flag (n_ctx nd)) Hinv k_in).
    + intros r' f' Ef. by eapply answered_node.
    + apply after_prefix.
    + unfold steps_of. cbn. fold nd. rewrite Hpc. lia.
Qed.

(** ** Runs *)

Inductive free_step g : system → Prop :=
  | free_node p g' : p ∈ ps → run g p = Some (Some g') → free_step g g'.

Definition total_steps g : nat := sum_list_with (λ p, steps_of (nodes g k p)) ps.

Lemma sum_bump (f f' : Z → nat) (l : list Z) p :
  NoDup l → p ∈ l → f' p = S (f p) → (∀ q, q ≠ p → f' q = f q) → sum_list_with f' l = S (sum_list_with f l).
Proof.
  intros Hnd Hp Hf Ho. induction l as [|q l IH]; [by apply not_elem_of_nil in Hp|]. apply NoDup_cons in Hnd as [Hq Hnd]. cbn.
  destruct (decide (q = p)) as [->|Hne].
  - rewrite Hf.  assert (sum_list_with f' l = sum_list_with f l) as ->; [|lia]. clear -Ho Hq. induction l as [|q l IH]; [done|]. cbn. apply not_elem_of_cons in Hq as [? ?].
    rewrite Ho, IH by done. done.
  - apply elem_of_cons in Hp as [?|Hp]; [done|]. rewrite Ho, (IH Hnd Hp) by done. lia.
Qed.

Context (Hndps : NoDup ps).

Lemma live_step g g' : inv g → live g → free_step g g' → inv g' ∧ live g' ∧ total_steps g' = S (total_steps g).
Proof.
  intros Hinv Hl [p g1 Hp E].
  assert (inv g1) as Hinv1.
  { pose proof (exec_inv ft mx Hmx Hint [k] members part id_of procs0 (NoDup_singleton k) false false g k p Hinv k_in Hp) as Hok. unfold exec_ok in Hok. by rewrite E in Hok. }
  assert (node_step g p g1) as (st' & nd' & -> & Hlive & Ha & Hpre & Hsteps).
  { destruct (n_pc (nodes g k p)) as [|[]|ids|rc] eqn:Hpc; [by apply live_idle|by apply live_getnext|by apply live_check|by apply live_flag|..];
      unfold exec in E; by rewrite Hpc in E. }
  split_and!; [done| |].
  - intros q Hq. rewrite upd_nodes. cbn [procs upd]. destruct (decide (q = p)) as [->|Hne].
    + rewrite fn_lookup_insert, decide_True by done. apply (live_mono g); [done|intros; by apply upd_results|done].
    + rewrite fn_lookup_insert_ne, decide_False by other_node. apply (live_mono g); [by apply answered_node|intros; by apply upd_results|by apply Hl].
  - unfold total_steps. apply (sum_bump _ _ ps p); try done.
    + by rewrite upd_nodes, decide_True.
    + intros q Hq. by rewrite upd_nodes, decide_False by other_node.
Qed.

Lemma node_bound g p : inv g → live g → p ∈ ps → Z.of_nat (steps_of (nodes g k p)) ≤ 2 * cstar + 4.
Proof.
  intros Hinv Hl Hp. assert (ps ≠ []) as Hne by (intros E; rewrite E in Hp; by apply not_elem_of_nil in Hp).
  destruct (s_node _ _ _ _ _ _ _ Hinv k p k_in Hp) as [_ _ _ (r & Hr & Hpc)]. assert (Z.of_nat r ≤ cstar) as Hrc.
  { destruct r as [|r]; [lia|]. pose proof (Hr r ltac:(lia)) as Hmin. destruct (result_sent members _ _ _ _ _ p Hmin Hp) as (f & Hf).
    destruct (answered_node g p Hinv Hp r f Hf) as (m & Hm). pose proof (failed_round g r m Hl Hne Hm Hmin).
    pose proof (rounds_grow g r m Hinv Hl Hne ltac:(intros; apply Hr; lia) Hm). lia. }
  unfold pc_ok in Hpc. unfold steps_of. pose proof (v_pc _ _ _ _ (Hl p Hp)) as Hv. destruct (n_pc (nodes g k p)) as [|[]|ids|rc]; [lia|rewrite Hv; cbn; lia|lia..|done].
Qed.

Lemma total_steps_bound g : inv g → live g → Z.of_nat (total_steps g) ≤ Z.of_nat (length ps) * (2 * cstar + 4).
Proof.
  intros Hinv Hl. unfold total_steps.
  assert (∀ l, l ⊆ ps → Z.of_nat (sum_list_with (λ p, steps_of (nodes g k p)) l) ≤ Z.of_nat (length l) * (2 * cstar + 4)) as Hsum; [|by apply Hsum].
  induction l as [|p l IH]; intros Hl'; [done|]. cbn. pose proof (node_bound g p Hinv Hl ltac:(apply Hl'; by left)). specialize (IH ltac:(intros q Hq; apply Hl'; by right)). lia.
Qed.

(** A node runs when everybody who has not finished has contributed as much. *)
Lemma can_run g p :
  inv g → live g → p ∈ ps → unfinished (nodes g k p) = true →
  (∀ q, q ∈ ps → unfinished (nodes g k q) = false ∨ (length (n_sent (nodes g k p)) ≤ length (n_sent (nodes g k q)))%nat) →
  ∃ g', free_step g g'.
Proof.
  intros Hinv Hl Hp Hu Hmin. pose proof (exec_inv ft mx Hmx Hint [k] members part id_of procs0 (NoDup_singleton k) false false g k p Hinv k_in Hp) as Hok.
  enough (run g p ≠ Some None) as Hne by (unfold exec_ok in Hok; destruct (run g p) as [[g'|]|] eqn:E; [exists g'; by apply (free_node g p)|done|done]).
  destruct (s_node _ _ _ _ _ _ _ Hinv k p k_in Hp) as [_ _ _ (r & Hr & Hpc)].
  assert (∀ op n, (n < length (n_sent (nodes g k p)) ≤ 2 * r + 2)%nat → ∃ v, res op g k n = Some v) as Hres.
  { intros op n Hn. apply result_complete. intros q Hq. destruct (Hmin q Hq) as [Hfin|]; [|lia].
    destruct (s_node _ _ _ _ _ _ _ Hinv k q k_in Hq) as [_ _ _ (r' & _ & Hpc')]. unfold unfinished in Hfin. unfold pc_ok in Hpc'.
    destruct (n_pc (nodes g k q)) as [|h|ids|rc]; try done. destruct Hpc' as (Hlen & (m & Hm & Hm0) & _).
    destruct (decide (r' < r)%nat) as [Hlt|]; [|lia]. specialize (Hr r' Hlt). congruence. }
  clear Hok. unfold pc_ok in Hpc. unfold unfinished in Hu. unfold exec. pose proof (v_pc _ _ _ _ (Hl p Hp)) as Hv.
  destruct (n_pc (nodes g k p)) as [|[]|ids|rc]; try done.
  - destruct (ompi_comm_allreduce_getnextcid _ _ _ _ _ _) as [[[? ?] ?]|]; done.
  - destruct Hpc as (Hlen & _). rewrite Hlen. destruct (Hres Z.max (pred (2 * r + 1))) as (v & ->); [lia|].
    destruct (ompi_comm_checkcid _ _ _ _ _ _) as [[[? ?] ?]|]; done.
  - destruct Hpc as (Hlen & _). rewrite Hlen. destruct (Hres Z.min (pred (2 * r + 2))) as (v & ->); [lia|].
    destruct (ompi_comm_nextcid_check_flag _ _ _ _ _ _ _ _) as [[[? ?] ?]|]; done.
Qed.

Lemma progress g : inv g → live g → (∃ g', free_step g g') ∨ ∀ p, p ∈ ps → ∃ i, n_pc (nodes g k p) = Finished i.
Proof.
  intros Hinv Hl.
  assert (∀ n, (∃ g', free_step g g') ∨ ∀ q, q ∈ ps → unfinished (nodes g k q) = false ∨ (n ≤ length (n_sent (nodes g k q)))%nat) as Hall.
  { induction n as [|n [IH|IH]]; [right; intros; right; lia|by left|].
    destruct (decide (Exists (λ p, unfinished (nodes g k p) = true ∧ length (n_sent (nodes g k p)) = n) ps)) as [Hex|Hno].
    - apply Exists_exists in Hex as (p & Hp & Hu & Hlen). left. apply (can_run g p); try done. by rewrite Hlen.
    - right. intros q Hq. destruct (IH q Hq) as [?|Hn]; [by left|]. destruct (unfinished (nodes g k q)) eqn:Eu; [|by left]. right.
      destruct (decide (length (n_sent (nodes g k q)) = n)) as [E|]; [|lia]. exfalso. apply Hno, Exists_exists. by exists q. }
  destruct (Hall (S (sum_list_with (λ q, length (n_sent (nodes g k q))) ps))) as [?|Hfin]; [by left|]. right. intros p Hp.
  destruct (Hfin p Hp) as [Hf|Hlen].
  - unfold unfinished in Hf. destruct (n_pc (nodes g k p)); try done. eauto.
  - pose proof (sum_list_with_in p (λ q, length (n_sent (nodes g k q))) ps Hp). cbn in *. lia.
Qed.

(** The id is free in all processes that take part, and not above [cstar]. *)
Lemma finished_id g p i :
  inv g → live g → p ∈ ps → part k p = true → n_pc (nodes g k p) = Finished i →
  0 ≤ c_index i ≤ cstar ∧ ∀ q, q ∈ ps → part k q = true → items0 q (c_index i) = None.
Proof.
  intros Hinv Hl Hp Hpart Ei. assert (ps ≠ []) as Hne by (intros E; rewrite E in Hp; by apply not_elem_of_nil in Hp).
  destruct (s_node _ _ _ _ _ _ _ Hinv k p k_in Hp) as [_ _ _ (r & _ & Hpc)]. unfold pc_ok in Hpc. rewrite Ei in Hpc.
  destruct Hpc as (_ & (m & Hm & Hm0) & Hpos & Hmax). destruct (Hmax Hpart) as [Hr _]. split; [split; [done|by eapply proposal_le]|].
  intros q Hq Eq. destruct (result_sent members _ _ _ _ _ q Hm Hq) as (f & Hf). apply (v_flag _ _ _ _ (Hl q Hq) r _ f Hr Hf); [done|].
  by apply (result_min_nonzero ft mx [k] members part procs0 g k (2 * r + 1) m q f Hinv k_in).
Qed.

Lemma initial_live :
  (∀ p, p ∈ ps → id_of k p ≤ comm_cid_lowest_id (procs0 p)) → live (initial procs0).
Proof. intros Hlow p Hp. split; cbn; try done. by apply Hlow. Qed.

Lemma run_live n g0 g : inv g0 → live g0 → nsteps free_step n g0 g → inv g ∧ live g ∧ total_steps g = (total_steps g0 + n)%nat.
Proof.
  intros Hinv Hl Hrun. induction Hrun as [g1|n g1 g2 g3 Hstep _ IH]; [split_and!; [done|done|lia]|].
  destruct (live_step g1 g2 Hinv Hl Hstep) as (Hinv2 & Hl2 & Ht). destruct (IH Hinv2 Hl2) as (? & ? & ?). split_and!; [done|done|lia].
Qed.

End live.

(** ** Theorem *)

(** C5: one creation, with nobody else asking for the locks, whose communicator id is not
    above the lowest id that is being worked on in any process, and with some id ([cstar]
    is the least one) that is free in all processes of the new communicator.  Every run
    has a bounded number of steps, whatever the order in which the processes run; a run
    that cannot go on has finished everywhere, and the id is [cstar].  (When no id is
    free in common, a run can get stuck: [cid_exhausted_hangs].) *)
Theorem cid_terminates {A : Type} `{CommTable A} {cap : Z} `{!CommTableLaws A cap} ft mx k ps part id_of procs0 cstar :
  0 < mx < cap → mx ≤ INT_MAX → NoDup ps → (∀ p, table_inv (communicators (procs0 p))) →
  (ft = true → ∀ p, 3 ≤ comm_cid_epoch (procs0 p)) → (∀ p, p ∈ ps → id_of k p ≤ comm_cid_lowest_id (procs0 p) ∧ id_of k p ≤ INT64_MAX) →
  0 ≤ cstar < mx → (∀ p, p ∈ ps → part k p = true → items (communicators (procs0 p)) cstar = None) →
  (∀ c, 0 ≤ c < cstar → ∃ p, p ∈ ps ∧ part k p = true ∧ items (communicators (procs0 p)) c ≠ None) →
  (∀ n g, nsteps (free_step ft mx k ps part id_of) n (initial procs0) g → Z.of_nat n ≤ Z.of_nat (length ps) * (2 * cstar + 4)) ∧
  (∀ g, rtc (free_step ft mx k ps part id_of) (initial procs0) g →
     (∃ g', free_step ft mx k ps part id_of g g') ∨
     ∀ p, p ∈ ps → ∃ i, n_pc (nodes g k p) = Finished i ∧ (part k p = true → c_index i = cstar)).
Proof.
  intros Hmx Hint Hnd Ht He Hids Hcs Hfree Hleast.
  assert (sys_inv ft mx [k] (λ _, ps) part procs0 (initial procs0)) as Hinv0 by (apply initial_inv; [done|]; intros Hft p; specialize (He Hft p); cbn; lia).
  assert (live mx k ps part id_of procs0 cstar (initial procs0)) as Hl0 by (apply initial_live; intros p Hp; by apply Hids).
  assert (∀ n g, nsteps (free_step ft mx k ps part id_of) n (initial procs0) g →
    sys_inv ft mx [k] (λ _, ps) part procs0 g ∧ live mx k ps part id_of procs0 cstar g ∧ total_steps k ps g = (total_steps k ps (initial procs0) + n)%nat) as Hrun.
  { intros n g Hn. eapply run_live; try done. intros p Hp. by apply Hids. }
  split.
  - intros n g Hn. destruct (Hrun n g Hn) as (Hinv & Hl & Htot). pose proof (total_steps_bound ft mx k ps part id_of procs0 cstar Hcs g Hinv Hl). lia.
  - intros g Hg. apply rtc_nsteps in Hg as [n Hn]. destruct (Hrun n g Hn) as (Hinv & Hl & _).
    destruct (progress ft mx Hmx Hint k ps part id_of procs0 cstar g Hinv Hl) as [?|Hfin]; [by left|]. right. intros p Hp. destruct (Hfin p Hp) as [i Ei].
    exists i. split; [done|]. intros Hpart. destruct (finished_id ft mx k ps part id_of procs0 cstar g p i Hinv Hl Hp Hpart Ei) as [Hr Hall].
    destruct (decide (c_index i = cstar)) as [|Hne]; [done|]. destruct (Hleast (c_index i)) as (q & Hq & Hpq & Hx); [lia|]. exfalso. by apply Hx, Hall.
Qed.

End CommCidLive.
