(* ===== verification/CommCidErrors.v ===== *)
(** * Error paths of the agreement

    What goes wrong when the ids run out in one process only, or when a
    reduction fails: the other processes wait for ever, an id stays reserved, the
    entry of another communicator is erased. *)

From stdpp Require Import base numbers list functions relations.
From S2P Require Import Prelude CommCid CommCidHandlers CommCidSystem CommCidSpec.
Import CommCid CommCidHandlers CommCidSystem CommCidSpec.

Local Open Scope Z_scope.
Local Open Scope c_scope.

Module CommCidErrors.

Section errors.
Context {A : Type} `{CommTable A} {cap : Z} `{!CommTableLaws A cap}.
Implicit Types (st : cid_state A).

(** The error exit of the first handler means to give the reserved id back,
    but tests an entry in use: when the reduction cannot be started the id stays
    reserved, although the request ends. *)
Theorem cid_error_leaks ft mx st ctx v rc :
  0 < mx < cap → mx ≤ INT_MAX → table_inv (communicators st) → participate ctx = true → my_id ctx ≤ comm_cid_lowest_id st →
  (ft = true → 2 ≤ comm_cid_epoch st) → 0 ≤ start ctx ≤ v → v < mx → items (communicators st) v = None →
  (∀ j, start ctx ≤ j < v → items (communicators st) j ≠ None) →
  ∃ st' ctx', ompi_comm_allreduce_getnextcid ft mx false (Some rc) st ctx = Some (st', ctx', Fail None rc) ∧
    nextlocal_cid ctx' = v ∧ items (communicators st') v = Some OMPI_COMM_SENTINEL.
Proof.
  intros Hmx Hint Hinv Hp Hid He Hs Hv Hfree Hused. unfold ompi_comm_allreduce_getnextcid. rewrite (proj2 (Z.ltb_ge _ _)), Hp by done. cbn [orb].
  destruct (reserve_ok mx Hmx (start ctx) (communicators st) Hinv) as (found & a & -> & Hinva & Hres); [lia|]. run.
  assert (found = Some v) as ->.
  { destruct found as [c|]; [|destruct Hres as [_ Hall]; exfalso; by apply (Hall v); [lia|]]. destruct Hres as (Hc & Hcf & Hcu & _). f_equal.
    destruct (Z.lt_trichotomy c v) as [?|[?|?]]; [|done|]; exfalso; [by apply (Hused c); [lia|]|by apply (Hcu v); [lia|]]. }
  destruct Hres as (_ & _ & _ & Hch). set (e := if ft then _ else _).
  assert (ft && true && (e =? 0) = false) as ->. { unfold e. destruct ft; [|done]. cbn [andb]. apply Z.eqb_neq. specialize (He eq_refl). lia. }
  unfold getnextcid_error. cbn [participate with_local nextlocal_cid communicators default from_option]. rewrite Hp. cbn [andb]. unfold id.
  assert (items a v = Some OMPI_COMM_SENTINEL) as Ev by (rewrite Hch by lia; by rewrite bool_decide_true).
  rewrite (test_and_set_used a v None OMPI_COMM_SENTINEL Hinva) by (done || lia). run. eexists _, _. split; [done|]. by split.
Qed.

(** When the second reduction fails, the last handler clears the entry of the
    common proposal, also in a process that could not reserve it because another
    communicator has it: that communicator disappears from the table. *)
Theorem cid_error_erases ft mx l1 l2 reduce st ctx c rc :
  table_inv (communicators st) → participate ctx = true → 0 ≤ nextcid ctx < cap → flag ctx = 0 →
  items (communicators st) (nextcid ctx) = Some (COMM c) →
  ∃ st', ompi_comm_nextcid_check_flag ft mx l1 l2 (Some rc) reduce st ctx = Some (st', ctx, Fail None rc) ∧
    items (communicators st') (nextcid ctx) = None.
Proof.
  intros Hinv Hp Hn _ _. unfold ompi_comm_nextcid_check_flag. rewrite Hp.
  destruct (set_item_law (communicators st) (nextcid ctx) None Hinv Hn) as (a & -> & _ & Hit). run. eexists. split; [done|]. cbn.
  rewrite Hit by lia. by rewrite bool_decide_true.
Qed.

(** A step of a node whose handler is known. *)
Lemma step_to (ft : bool) mx k ps part id_of (g : system (A := A)) p g' :
  p ∈ ps → exec ft mx (λ _, ps) part id_of false false g k p = Some (Some g') → step ft mx [k] (λ _, ps) part id_of g g'.
Proof. intros Hp E. apply (step_node _ _ _ _ _ _ _ k p false false); [by apply list_elem_of_singleton|done|done]. Qed.

Lemma upd_same (g : system (A := A)) k p st nd : nodes (upd g k p st nd) k p = nd ∧ procs (upd g k p st nd) p = st.
Proof. split; [by rewrite upd_nodes, decide_True|apply fn_lookup_insert]. Qed.

Lemma upd_other (g : system (A := A)) k p q st nd :
  q ≠ p → nodes (upd g k p st nd) k q = nodes g k q ∧ procs (upd g k p st nd) q = procs g q.
Proof. intros Hq. split; [by rewrite upd_nodes, decide_False by other_node|by apply fn_lookup_insert_ne]. Qed.

(** Process 0 has no free id left and process 1 has one.  Process 0 contributes
    the limit, gives up and takes no part in the next reduction; process 1 does not
    look whether the common proposal is the limit, reserves it beyond the ids in
    use and waits for an answer that never comes. *)
Theorem cid_exhausted_hangs ft mx k id_of (procs0 : Z → cid_state A) :
  0 < mx < cap → mx ≤ INT_MAX → (∀ p, table_inv (communicators (procs0 p))) → (ft = true → ∀ p, 3 ≤ comm_cid_epoch (procs0 p)) →
  (∀ p, id_of k p ≤ comm_cid_lowest_id (procs0 p)) →
  (∀ c, 0 ≤ c < mx → items (communicators (procs0 0)) c ≠ None) →
  (∃ c, 0 ≤ c < mx ∧ items (communicators (procs0 1)) c = None) →
  ∃ g, rtc (step ft mx [k] (λ _, [0; 1]) (λ _ _, true) id_of) (initial procs0) g ∧
    n_pc (nodes g k 0) = Failed OMPI_ERR_OUT_OF_RESOURCE ∧ n_pc (nodes g k 1) = Runs HCheckFlag ∧
    ∀ l1 l2 p, p ∈ [0; 1] → exec ft mx (λ _, [0; 1]) (λ _ _, true) id_of l1 l2 g k p = Some None.
Proof.
  intros Hmx Hint Ht He Hid Hfull (c & Hc & Hfree). set (ctx0 p := ompi_comm_nextcid_nb (procs0 p) k true (id_of k p)).
  assert (∀ p, ∃ st' ctx' nx, ompi_comm_allreduce_getnextcid ft mx false None (procs0 p) (ctx0 p) = Some (st', ctx', nx) ∧ table_inv (communicators st') ∧
    get_post ft mx false (procs0 p) (ctx0 p) st' ctx' nx) as Hget.
  { intros p. apply getnextcid_ok; [done|done|done|apply lowest_free_law, Ht|]. intros Hft. specialize (He Hft p). lia. }
  destruct (Hget 0) as (st0 & c0 & nx0 & E0 & _ & Hpost0), (Hget 1) as (st1 & c1 & nx1 & E1 & Ht1 & Hpost1). unfold get_post in Hpost0, Hpost1.
  cbn [orb] in Hpost0, Hpost1. rewrite (proj2 (Z.ltb_ge _ _)) in Hpost0 by (by apply Hid). rewrite (proj2 (Z.ltb_ge _ _)) in Hpost1 by (by apply Hid). cbn [participate ctx0 ompi_comm_nextcid_nb start] in Hpost0, Hpost1.
  destruct Hpost0 as (_ & _ & _ & [(v & -> & _ & Hv & _ & _ & Hres)|[-> _]]).
  { exfalso. destruct Hres as (_ & Hn & _). by apply (Hfull v). }
  destruct Hpost1 as ((_ & Hp1 & _) & _ & _ & [(v & -> & Hloc & Hv & Hep & _ & _)|[_ [_ [_ Hres]]]]).
  2:{ exfalso. apply (Hres c); [|done]. split; [|lia]. destruct (lowest_free_law _ (Ht 1)) as [_ Hlf].
      destruct (decide (lowest_free (communicators (procs0 1)) ≤ c)); [done|]. exfalso. apply (Hlf c); [lia|done]. }
  destruct (checkcid_ok ft st1 (set_nextcid c1 mx) Ht1) as (st2 & c2 & nx2 & E2 & _ & f & -> & _); [cbn; lia|cbn; lia|done|].
  set (g0 := initial procs0). set (nd0 := mk_node (ctx0 0) (Runs HGetNextCid) []). set (nd1 := mk_node (ctx0 1) (Runs HGetNextCid) []).
  set (g1 := upd g0 k 0 (procs0 0) nd0). set (g2 := upd g1 k 0 st0 (after nd0 c0 (Fail (Some mx) OMPI_ERR_OUT_OF_RESOURCE))).
  set (g3 := upd g2 k 1 (procs0 1) nd1). set (g4 := upd g3 k 1 st1 (after nd1 c1 (Reduce MPI_MAX v HCheckCid))).
  set (g5 := upd g4 k 1 st2 (after (mk_node c1 (Runs HCheckCid) [v]) c2 (Reduce MPI_MIN f HCheckFlag))).
  assert (∀ p, nodes g0 k p = idle_node ∧ procs g0 p = procs0 p) as S0 by done.
  pose proof (upd_same g0 k 0 (procs0 0) nd0) as [N1 P1]. fold g1 in N1, P1. pose proof (upd_other g0 k 0 1 (procs0 0) nd0 ltac:(done)) as [N1' P1']. fold g1 in N1', P1'.
  pose proof (upd_same g1 k 0 st0 (after nd0 c0 (Fail (Some mx) OMPI_ERR_OUT_OF_RESOURCE))) as [N2 P2]. fold g2 in N2, P2.
  pose proof (upd_other g1 k 0 1 st0 (after nd0 c0 (Fail (Some mx) OMPI_ERR_OUT_OF_RESOURCE)) ltac:(done)) as [N2' P2']. fold g2 in N2', P2'.
  pose proof (upd_same g2 k 1 (procs0 1) nd1) as [N3 P3]. fold g3 in N3, P3. pose proof (upd_other g2 k 1 0 (procs0 1) nd1 ltac:(done)) as [N3' _]. fold g3 in N3'.
  pose proof (upd_same g3 k 1 st1 (after nd1 c1 (Reduce MPI_MAX v HCheckCid))) as [N4 P4]. fold g4 in N4, P4.
  pose proof (upd_other g3 k 1 0 st1 (after nd1 c1 (Reduce MPI_MAX v HCheckCid)) ltac:(done)) as [N4' _]. fold g4 in N4'.
  pose proof (upd_same g4 k 1 st2 (after (mk_node c1 (Runs HCheckCid) [v]) c2 (Reduce MPI_MIN f HCheckFlag))) as [N5 _]. fold g5 in N5.
  pose proof (upd_other g4 k 1 0 st2 (after (mk_node c1 (Runs HCheckCid) [v]) c2 (Reduce MPI_MIN f HCheckFlag)) ltac:(done)) as [N5' _]. fold g5 in N5'.
  rewrite N3', N2 in N4'. rewrite N4' in N5'. exists g5. split_and!.
  - assert (0 ∈ [0; 1] ∧ 1 ∈ [0; 1]) as [H0 H1] by (split; [by left|by right; left]).
    apply (rtc_l _ _ g1); [apply (step_to _ _ _ _ _ _ _ 0 _ H0); done|].
    apply (rtc_l _ _ g2); [apply (step_to _ _ _ _ _ _ _ 0 _ H0); unfold exec; rewrite N1, P1; cbn [n_pc nd0 n_ctx]; by rewrite E0|].
    apply (rtc_l _ _ g3); [apply (step_to _ _ _ _ _ _ _ 1 _ H1); unfold exec; by rewrite N2', N1', P2', P1'|].
    apply (rtc_l _ _ g4); [apply (step_to _ _ _ _ _ _ _ 1 _ H1); unfold exec; rewrite N3, P3; cbn [n_pc nd1 n_ctx]; by rewrite E1|].
    apply rtc_once, (step_to _ _ _ _ _ _ _ 1 _ H1). unfold exec. rewrite N4, P4. cbn [n_pc after nd1 n_ctx n_sent app length pred].
    unfold result. cbn [mapM]. rewrite N4, N4'. cbn. rewrite Z.max_l by lia. cbn in E2. by rewrite E2.
  - by rewrite N5'.
  - by rewrite N5.
  - intros l1 l2 p [->| ->%list_elem_of_singleton]%elem_of_cons; unfold exec.
    + by rewrite N5'.
    + rewrite N5. cbn [n_pc after n_sent app length pred]. unfold result. cbn [mapM]. rewrite N5'. done.
Qed.

End errors.

End CommCidErrors.
