(* ===== verification/CommCidExamples.v ===== *)
(** * The agreement on pointer arrays

    Pointer arrays implement the table of communicators ([CommCidTable]), and the
    agreement is evaluated on them ([CommCidExamples]). *)

From stdpp Require Import base numbers list functions relations.
From S2P Require Import Prelude OpalPointerArray OpalPointerArraySpec CommCid CommCidHandlers CommCidSystem CommCidSpec CommCidLive CommCidErrors.

(** ** Pointer arrays implement the table of communicators

    The interface of [CommCid] for the pointer arrays of [OpalPointerArray], for
    arrays whose limit is not below the ids in use and allocations that
    succeed. *)

Import OpalPointerArraySpec.

Local Open Scope Z_scope.
Local Open Scope c_scope.

Module CommCidTable.

Abbreviation array := (OpalPointerArray.opal_pointer_array_t (V := CommCid.comm_ptr)).

#[global] Instance array_table : CommCid.CommTable array := {
  CommCid.test_and_set_item t i x := OpalPointerArray.opal_pointer_array_test_and_set_item true true t i x;
  CommCid.set_item t i x := '(_, t) ← OpalPointerArray.opal_pointer_array_set_item true true t i x; Some t;
  CommCid.lowest_free t := OpalPointerArray.lowest_free t;
}.

Definition array_items (t : array) (i : Z) : option CommCid.comm_ptr :=
  if i <? 0 then None else default None (OpalPointerArray.addr t !! Z.to_nat i).

Section laws.
Context (mx bk cap : Z) (Hcap : cap ≤ mx) (Hbk : cap + bk < INT_MAX).

(** Below the limit the array grows when it has to. *)
Lemma spec_grow_below (l : list (option CommCid.comm_ptr)) i :
  0 < bk → 0 ≤ i < cap →
  ∃ n, spec_grow mx bk true l (Z.of_nat (length l) <=? i) i = Some (l ++ replicate n None) ∧ (Z.to_nat i < length l + n)%nat.
Proof.
  intros Hpos Hi. unfold spec_grow. destruct (Z.leb_spec (Z.of_nat (length l)) i).
  - destruct (grow_len mx bk i) as [n|] eqn:E.
    + run. apply grow_len_bounds in E; [|lia..]. eexists. split; [done|]. lia.
    + unfold grow_len in E. destruct (_ <=? _); [|done]. destruct (Z.leb_spec mx i); [lia|done].
  - exists 0%nat. rewrite app_nil_r. split; [done|lia].
Qed.

Lemma items_insert (l : list (option CommCid.comm_ptr)) n (i j : nat) x :
  (i < length l + n)%nat → default None (<[i := x]> (l ++ replicate n None) !! j) = if bool_decide (j = i) then x else default None (l !! j).
Proof.
  intros Hi. case_bool_decide as E.
  - subst j. by rewrite list_lookup_insert_eq by (rewrite length_app, length_replicate; lia).
  - rewrite list_lookup_insert_ne by done. destruct (decide (j < length l)%nat); [by rewrite lookup_app_l by done|].
    rewrite lookup_app_r, (lookup_ge_None_2 l) by lia. destruct (replicate n None !! _) eqn:E'; [|done].
    by apply lookup_replicate_1 in E' as [-> _].
Qed.

Lemma used_items (l : list (option CommCid.comm_ptr)) i : used l i = bool_decide (default None (l !! i) ≠ None).
Proof. unfold used. by destruct (l !! i) as [[y|]|]. Qed.

#[global] Instance array_table_laws : CommCid.CommTableLaws array cap.
Proof using Hcap Hbk.
  refine {| CommCid.table_inv t := pa_rel mx bk t (OpalPointerArray.addr t); CommCid.items := array_items |}; unfold array_items.
  - intros t i x Hrel Hi. pose proof (r_block _ _ _ _ Hrel) as [_ Hpos]. destruct (test_and_set_ok mx bk true t _ i x Hrel) as (t' & E & Hrel'); [lia..|].
    exists t'. cbn [CommCid.test_and_set_item array_table]. rewrite E. pose proof (r_addr _ _ _ _ Hrel') as Ha. rewrite <- Ha in Hrel'.
    set (l := OpalPointerArray.addr t) in *. rewrite (proj2 (Z.ltb_ge i 0)) by lia. unfold spec_test_and_set in Ha |- *. rewrite used_items in Ha |- *.
    destruct (default None (l !! Z.to_nat i)) as [y|] eqn:El.
    + rewrite bool_decide_true in Ha |- * by done. rewrite (bool_decide_false (_ = None)) by done. split_and!; [done|done|].
      intros j Hj. rewrite bool_decide_false by (intros [_ ?]; done). by rewrite Ha.
    + rewrite bool_decide_false in Ha |- * by (intros Hx; by apply Hx). rewrite (bool_decide_true (None = None)) by done.
      destruct (spec_grow_below l i Hpos Hi) as (n & Eg & Hn). rewrite Eg in Ha |- *. split_and!; [done|done|]. intros j Hj. rewrite Ha. cbn [snd].
      rewrite (proj2 (Z.ltb_ge j 0)) by lia. rewrite items_insert by done.
      destruct (decide (j = i)) as [->|]; [by rewrite !bool_decide_true|]. rewrite !bool_decide_false; [done| |lia]. intros [? _]. done.
  - intros t i x Hrel Hi. pose proof (r_block _ _ _ _ Hrel) as [_ Hpos]. destruct (set_item_ok mx bk true t _ i x Hrel) as (t' & E & Hrel'); [lia..|].
    exists t'. cbn [CommCid.set_item array_table]. rewrite E. pose proof (r_addr _ _ _ _ Hrel') as Ha. rewrite <- Ha in Hrel'.
    set (l := OpalPointerArray.addr t) in *. split_and!; [done|done|]. intros j Hj. rewrite Ha. unfold spec_set_item.
    destruct (Z.ltb_spec i 0); [lia|]. destruct (spec_grow_below l i Hpos Hi) as (n & Eg & Hn). rewrite Eg. cbn [snd].
    rewrite (proj2 (Z.ltb_ge j 0)) by lia. rewrite items_insert by done.
    destruct (decide (j = i)) as [->|]; [by rewrite !bool_decide_true|]. rewrite !bool_decide_false by lia. done.
  - intros t i x y Hrel Hi Hy. cbn [CommCid.test_and_set_item array_table]. unfold OpalPointerArray.opal_pointer_array_test_and_set_item.
    rewrite (proj2 (Z.leb_le 0 i)), (r_size _ _ _ _ Hrel) by lia. rewrite (proj2 (Z.ltb_ge i 0)) in Hy by lia.
    destruct (OpalPointerArray.addr t !! Z.to_nat i) as [[z|]|] eqn:El; cbn in Hy; [|done..]. pose proof (lookup_lt_Some _ _ _ El).
    rewrite (proj2 (Z.ltb_lt i _)) by lia. by run.
  - intros t Hrel. cbn [CommCid.lowest_free array_table]. rewrite (r_low _ _ _ _ Hrel). split; [lia|]. intros j Hj.
    rewrite (proj2 (Z.ltb_ge j 0)) by lia. assert (used (OpalPointerArray.addr t) (Z.to_nat j) = true) as Hu by (apply first_free_used; lia).
    rewrite used_items in Hu. by apply bool_decide_eq_true in Hu.
Defined.

End laws.

End CommCidTable.

(** ** The agreement on pointer arrays, evaluated

    Two processes whose tables are pointer arrays with some ids in use: the
    theorems about the agreement at concrete inputs. *)

Import CommCid CommCidSystem CommCidSpec CommCidLive CommCidErrors CommCidTable.

Local Open Scope Z_scope.
Local Open Scope c_scope.

Module CommCidExamples.

#[local] Instance small_laws : CommTableLaws array 100 := array_table_laws 1000 8 100 ltac:(lia) ltac:(unfold INT_MAX; lia).

Definition array0 : array := (OpalPointerArray.opal_pointer_array_init true true OpalPointerArray.opal_pointer_array_construct 0 1000 8).2.

(** The table with the given ids in use. *)
Definition fill (l : list Z) : array := foldr (λ i a, default a (set_item a i (Some (COMM i)))) array0 l.

Lemma fill_inv l : Forall (λ i, 0 ≤ i < 100) l → table_inv (fill l).
Proof.
  induction l as [|i l IH]; intros Hl.
  - apply (OpalPointerArraySpec.replicate_rel 1000 8 8); [unfold INT_MAX; lia|lia].
  - apply Forall_cons in Hl as [Hi Hl]. change (fill (i :: l)) with (default (fill l) (set_item (fill l) i (Some (COMM i)))). destruct (set_item_law (fill l) i (Some (COMM i)) (IH Hl) Hi) as (a & E & Ha & _).
    by rewrite E.
Qed.

(** In process 1 one more id is in use than elsewhere. *)
Definition procs0 (p : Z) : cid_state array := mk_st (fill (if p =? 1 then [3; 2; 1; 0] else [2; 1; 0])) INT64_MAX INT_MAX.

Lemma procs0_inv p : table_inv (communicators (procs0 p)).
Proof. apply fill_inv. destruct (p =? 1); repeat constructor; lia. Qed.

(** The nodes run in the order given, those that wait are skipped. *)
Fixpoint run_schedule (mx : Z) (sched : list (Z * Z)) (g : system (A := array)) : system :=
  match sched with
  | [] => g
  | (k, p) :: sched' =>
      match exec true mx (λ _, [0; 1]) (λ _ _, true) (λ _ _, 5) false false g k p with
      | Some (Some g') => run_schedule mx sched' g'
      | _ => run_schedule mx sched' g
      end
  end.

Lemma schedule_steps mx ks sched g :
  Forall (λ kp, kp.1 ∈ ks ∧ kp.2 ∈ [0; 1]) sched → rtc (step true mx ks (λ _, [0; 1]) (λ _ _, true) (λ _ _, 5)) g (run_schedule mx sched g).
Proof.
  intros Hs. revert g. induction Hs as [|[k p] sched [Hk Hp] _ IH]; intros g; [apply rtc_refl|]. cbn [run_schedule].
  destruct (exec true mx _ _ _ false false g k p) as [[g'|]|] eqn:E; [|by apply IH..].
  eapply rtc_l; [by apply (step_node _ _ _ _ _ _ _ k p false false)|]. apply IH.
Qed.

(** Two creations whose steps alternate. *)
Definition schedule : list (Z * Z) := concat (replicate 6 [(7, 0); (8, 1); (7, 1); (8, 0)]).

Definition finished_ids (g : system (A := array)) (k p : Z) : option Z :=
  match n_pc (nodes g k p) with Finished i => Some (c_index i) | _ => None end.

Lemma schedule_finishes :
  (λ kp, finished_ids (run_schedule 16 schedule (initial procs0)) kp.1 kp.2) <$> [(7, 0); (7, 1); (8, 0); (8, 1)] = [Some 5; Some 5; Some 4; Some 4].
Proof. vm_compute. reflexivity. Qed.

Lemma cid_agreement_witness :
  let g := run_schedule 16 schedule (initial procs0) in
  (∀ l1 l2 k p, k ∈ [7; 8] → p ∈ [0; 1] → exec true 16 (λ _, [0; 1]) (λ _ _, true) (λ _ _, 5) l1 l2 g k p ≠ None) ∧
  (∀ k p q i j, k ∈ [7; 8] → p ∈ [0; 1] → q ∈ [0; 1] → true = true → true = true →
     n_pc (nodes g k p) = Finished i → n_pc (nodes g k q) = Finished j → c_index i = c_index j) ∧
  (∀ k p i, k ∈ [7; 8] → p ∈ [0; 1] → true = true → n_pc (nodes g k p) = Finished i →
     0 ≤ c_index i < 16 ∧ items (communicators (procs g p)) (c_index i) = Some (COMM k)) ∧
  (∀ p c x, 0 ≤ c < 16 → items (communicators (procs0 p)) c = Some x → items (communicators (procs g p)) c = Some x).
Proof.
  cbn zeta. apply (cid_agreement true 16 [7; 8] (λ _, [0; 1]) (λ _ _, true) (λ _ _, 5) procs0).
  - lia.
  - unfold INT_MAX. lia.
  - apply (bool_decide_unpack _). vm_compute. exact I.
  - apply procs0_inv.
  - intros _ p. cbn. unfold INT_MAX. lia.
  - apply schedule_steps. apply (bool_decide_unpack _). vm_compute. exact I.
Defined.

Lemma cid_terminates_witness :
  (∀ n g, nsteps (free_step true 16 7 [0; 1] (λ _ _, true) (λ _ _, 5)) n (initial procs0) g → Z.of_nat n ≤ 2 * (2 * 4 + 4)) ∧
  (∀ g, rtc (free_step true 16 7 [0; 1] (λ _ _, true) (λ _ _, 5)) (initial procs0) g →
     (∃ g', free_step true 16 7 [0; 1] (λ _ _, true) (λ _ _, 5) g g') ∨
     ∀ p, p ∈ [0; 1] → ∃ i, n_pc (nodes g 7 p) = Finished i ∧ (true = true → c_index i = 4)).
Proof.
  apply (cid_terminates true 16 7 [0; 1] (λ _ _, true) (λ _ _, 5) procs0 4).
  - lia.
  - unfold INT_MAX. lia.
  - apply (bool_decide_unpack _). vm_compute. exact I.
  - apply procs0_inv.
  - intros _ p. cbn. unfold INT_MAX. lia.
  - intros p _. cbn. unfold INT64_MAX. lia.
  - lia.
  - intros p [->| ->%list_elem_of_singleton]%elem_of_cons _; reflexivity.
  - intros c Hc. exists 1. split; [by right; left|]. split; [done|].
    assert (c = 0 ∨ c = 1 ∨ c = 2 ∨ c = 3) as [->|[->|[->| ->]]] by lia; vm_compute; discriminate.
Defined.

Definition example_ctx : ompi_comm_cid_context_t := mk_ctx 7 true 5 3 3 10 3 0 0 0.

Lemma cid_error_leaks_witness :
  ∃ st' ctx', ompi_comm_allreduce_getnextcid true 16 false (Some (OMPI_ERR_OTHER 1)) (procs0 0) example_ctx = Some (st', ctx', Fail None (OMPI_ERR_OTHER 1)) ∧
    nextlocal_cid ctx' = 3 ∧ items (communicators st') 3 = Some OMPI_COMM_SENTINEL.
Proof.
  apply (cid_error_leaks true 16 (procs0 0) example_ctx 3 (OMPI_ERR_OTHER 1)).
  - lia.
  - unfold INT_MAX. lia.
  - apply procs0_inv.
  - reflexivity.
  - vm_compute. discriminate.
  - intros _. vm_compute. discriminate.
  - unfold example_ctx, start. lia.
  - lia.
  - reflexivity.
  - unfold example_ctx, start. lia.
Defined.

Lemma cid_error_erases_witness :
  ∃ st', ompi_comm_nextcid_check_flag true 16 false false (Some (OMPI_ERR_OTHER 1)) None (procs0 1) example_ctx = Some (st', example_ctx, Fail None (OMPI_ERR_OTHER 1)) ∧
    items (communicators st') 3 = None.
Proof.
  apply (cid_error_erases true 16 false false None (procs0 1) example_ctx 3 (OMPI_ERR_OTHER 1));
  [apply procs0_inv|reflexivity|unfold example_ctx, nextcid; lia|reflexivity|reflexivity].
Defined.

(** Process 0 has no id below 4 left. *)
Definition procs_full (p : Z) : cid_state array := mk_st (fill (if p =? 0 then [3; 2; 1; 0] else [2; 1; 0])) INT64_MAX INT_MAX.

Lemma cid_exhausted_hangs_witness :
  ∃ g, rtc (step true 4 [7] (λ _, [0; 1]) (λ _ _, true) (λ _ _, 5)) (initial procs_full) g ∧
    n_pc (nodes g 7 0) = Failed OMPI_ERR_OUT_OF_RESOURCE ∧ n_pc (nodes g 7 1) = Runs HCheckFlag ∧
    ∀ l1 l2 p, p ∈ [0; 1] → exec true 4 (λ _, [0; 1]) (λ _ _, true) (λ _ _, 5) l1 l2 g 7 p = Some None.
Proof.
  apply (cid_exhausted_hangs true 4 7 (λ _ _, 5) procs_full).
  - lia.
  - unfold INT_MAX. lia.
  - intros p. apply fill_inv. destruct (p =? 0); repeat constructor; lia.
  - intros _ p. cbn. unfold INT_MAX. lia.
  - intros p. cbn. unfold INT64_MAX. lia.
  - intros c Hc. assert (c = 0 ∨ c = 1 ∨ c = 2 ∨ c = 3) as [->|[->|[->| ->]]] by lia; vm_compute; discriminate.
  - exists 3. split; [lia|reflexivity].
Defined.

End CommCidExamples.
