(* ===== verification/Checksum.v ===== *)
(** * Running checksums ([opal/util/crc.c])

    The checksum of a buffer is the sum of its words; it is computed piecewise,
    the last incomplete word being kept between calls, with one path for every
    combination of alignments.  The functions for [unsigned long] and [unsigned
    int] have the same code: [W] is the size of the word and [decode] its value
    from its bytes in memory.  A word in memory is the list of its bytes; [src] is
    the offset in the source and the bytes written to the destination are [out].
    [None] is an access outside the source or through a pointer that is not
    aligned. *)

From stdpp Require Import base numbers list.
From S2P Require Import Prelude.

Local Open Scope Z_scope.
Local Open Scope c_scope.

Module Checksum.

Section checksum.
Context (W : nat) (decode : list Z → Z).

Definition add (csum x : Z) : Z := wrap (8 * Z.of_nat W) (csum + x).

(** [WORDALIGNED] and [INTALIGNED]. *)
Definition aligned (v : Z) : bool := Z.land v (Z.of_nat W - 1) =? 0.

Definition zero_word : list Z := replicate W 0.

(** [memcpy] into [temp] from byte [L] on: the bytes of [temp] from [L] on are replaced. *)
Definition patch (temp : list Z) (L : nat) (bs : list Z) : list Z := take L temp ++ bs ++ drop (L + length bs) temp.

(** The local variables; [lp] is [*lastPartialLong] and [lpl] [*lastPartialLength]. *)
Record cs := mk_cs { csum : Z; src : nat; out : list Z; len : nat; lp : list Z; lpl : nat }.

Section call.
(** The arguments of one call: the addresses and the source. *)
Context (source_addr dest_addr : Z) (source : list Z).

Definition read (o n : nat) : option (list Z) :=
  if (o + n <=? length source)%nat then Some (take n (drop o source)) else None.

(** The partial word is completed ... *)
Definition fill_word (copy : bool) (s : cs) : option cs :=
  let n := (W - lpl s)%nat in
  bs ← read (src s) n;
  let temp := patch (lp s) (lpl s) bs in
  Some (mk_cs (add (csum s) (decode temp - decode (lp s))) (src s + n) (if copy then out s ++ bs else out s) (len s - n) (lp s) (lpl s)).

(** ... or only extended. *)
Definition extend_word (copy : bool) (s : cs) : option cs :=
  bs ← read (src s) (len s);
  let temp := patch (lp s) (lpl s) bs in
  Some (mk_cs (add (csum s) (decode temp - decode (lp s))) (src s + len s) (if copy then out s ++ bs else out s) 0 temp (lpl s + len s)).

Definition clear (s : cs) : cs := mk_cs (csum s) (src s) (out s) (len s) zero_word 0.

(** One word, through a pointer or by [memcpy] on either side. *)
Definition one_word (copy src_direct dest_direct : bool) (s : cs) : option cs :=
  safe (negb src_direct || aligned (source_addr + Z.of_nat (src s)));
  safe (negb dest_direct || aligned (dest_addr + Z.of_nat (length (out s))));
  bs ← read (src s) W;
  Some (mk_cs (add (csum s) (decode bs)) (src s + W) (if copy then out s ++ bs else out s) (len s) (lp s) (lpl s)).

Definition shorten (s : cs) (n : nat) : cs := mk_cs (csum s) (src s) (out s) (len s - n) (lp s) (lpl s).

(** [for (i = 0; i < n; i++)], without the change of the length. *)
Fixpoint count_words (copy src_direct dest_direct : bool) (n : nat) (s : cs) : option cs :=
  match n with
  | O => Some s
  | S n' => s ← one_word copy src_direct dest_direct s; count_words copy src_direct dest_direct n' s
  end.

(** [n = copylen / sizeof; for (i = 0; i < n; i++) ...; copylen -= i * sizeof;] *)
Definition for_words (copy src_direct dest_direct : bool) (s : cs) : option cs :=
  let n := (len s / W)%nat in
  s ← count_words copy src_direct dest_direct n s; Some (shorten s (n * W)).

(** [for (; copylen >= sizeof; copylen -= sizeof)] *)
Fixpoint while_words (copy src_direct dest_direct : bool) (fuel : nat) (s : cs) : option cs :=
  match fuel with
  | O => None
  | S f =>
      if (W <=? len s)%nat then s ← one_word copy src_direct dest_direct s; while_words copy src_direct dest_direct f (shorten s W)
      else Some s
  end.

Abbreviation while copy sd dd s := (while_words copy sd dd (S (len s)) s).
Abbreviation source_aligned := (aligned source_addr).
Abbreviation dest_aligned := (aligned dest_addr).
Abbreviation src_aligned s := (aligned (source_addr + Z.of_nat (src s))).
Abbreviation out_aligned s := (aligned (dest_addr + Z.of_nat (length (out s)))).

(** A partial word is there: completed, with [rest] for the words that follow, or
    extended. *)
Definition with_partial (copy : bool) (rest : cs → option cs) (s : cs) : option cs :=
  if (W - lpl s <=? len s)%nat then s ← fill_word copy s; s ← rest s; Some (clear s)
  else extend_word copy s.

(** The part of [opal_bcopy_csum_partial] over the words that are copied; the bool
    is the early return of the fast path. *)
Definition copy_part (residue : nat) (s : cs) : option (cs * bool) :=
  if source_aligned && dest_aligned then
    if negb (lpl s =? 0)%nat then
      s ← with_partial true (λ s, while true false false s) s; Some (s, false)
    else
      let copylen := len s in
      s ← for_words true true true s;
      Some (clear s, aligned (Z.of_nat copylen) && (residue =? 0)%nat)
  else if source_aligned then
    if negb (lpl s =? 0)%nat then
      s ← with_partial true (λ s, if out_aligned s then for_words true false true s else while true false false s) s; Some (s, false)
    else s ← while true true false s; Some (clear s, false)
  else if dest_aligned then
    if negb (lpl s =? 0)%nat then
      s ← with_partial true (λ s, if src_aligned s then while true true false s else while true false false s) s; Some (s, false)
    else s ← while true false true s; Some (clear s, false)
  else
    if negb (lpl s =? 0)%nat then
      s ← with_partial true (λ s, if src_aligned s && out_aligned s then for_words true true true s else while true false false s) s; Some (s, false)
    else s ← while true false false s; Some (clear s, false).

(** What is left is less than a word. *)
Definition leftover (copy : bool) (s : cs) : option cs :=
  if negb (lpl s =? 0)%nat then
    if (W - lpl s <=? len s)%nat then
      all ← read (src s) (len s);
      let n := (W - lpl s)%nat in
      bs ← read (src s) n;
      let c := add (csum s) (decode (patch (lp s) (lpl s) bs) - decode (lp s)) in
      let rest := (len s - n)%nat in
      bs ← read (src s + n) rest;
      let temp := patch zero_word 0 bs in
      Some (mk_cs (add c (decode temp)) (src s + n) (if copy then out s ++ all else out s) rest temp rest)
    else
      all ← read (src s) (len s);
      let temp := patch (lp s) (lpl s) all in
      Some (mk_cs (add (csum s) (decode temp - decode (lp s))) (src s) (if copy then out s ++ all else out s) (len s) temp (lpl s + len s))
  else
    bs ← read (src s) (len s);
    let temp := patch (lp s) 0 bs in
    Some (mk_cs (add (csum s) (decode temp)) (src s) (if copy then out s ++ bs else out s) (len s) temp (len s)).

(** The bytes after those that are copied count for the checksum only. *)
Definition residue_part (residue : nat) (s : cs) : option cs :=
  s ← (if negb (len s =? 0)%nat then
         bs ← read (src s) (len s); Some (mk_cs (csum s) (src s) (out s ++ bs) (len s) (lp s) (lpl s))
       else Some s);
  '(s, residue) ←
    (if Z.of_nat residue <? wrap 64 (Z.of_nat W - Z.of_nat (len s) - Z.of_nat (lpl s)) then
       bs ← read (src s) (len s + residue);
       let temp := patch (lp s) (lpl s) bs in
       Some (mk_cs (add (csum s) (decode temp - decode (lp s))) (src s + W) (out s) (len s) temp (lpl s + (len s + residue)), 0%nat)
     else
       let n := (W - lpl s)%nat in
       bs ← read (src s) n;
       let temp := patch (lp s) (lpl s) bs in
       Some (mk_cs (add (csum s) (decode temp - decode (lp s))) (src s + n) (out s) (len s) zero_word 0, (residue - (n - len s))%nat));
  s ← count_words false (src_aligned s) false (residue / W) s;
  let residue := (residue - residue / W * W)%nat in
  if negb (residue =? 0)%nat then
    bs ← read (src s) residue;
    let temp := patch zero_word 0 bs in
    Some (mk_cs (add (csum s) (decode temp)) (src s) (out s) (len s) temp residue)
  else Some s.

(** The result: the checksum, the bytes written, and the partial word. *)
Definition result (s : cs) : Z * list Z * (list Z * nat) := (csum s, out s, (lp s, lpl s)).

Definition bcopy_csum_partial (copylen csumlen : nat) (partial : list Z * nat) : option (Z * list Z * (list Z * nat)) :=
  let residue := (csumlen - copylen)%nat in
  '(s, returned) ← copy_part residue (mk_cs 0 0 [] copylen partial.1 partial.2);
  if (returned : bool) then Some (result s)
  else
    s ← (if negb (len s =? 0)%nat && (residue =? 0)%nat then leftover true s
         else if negb (residue =? 0)%nat then residue_part residue s
         else Some s);
    Some (result s).

(** The checksum alone. *)
Definition sum_part (s : cs) : option (cs * bool) :=
  if source_aligned then
    if negb (lpl s =? 0)%nat then
      s ← with_partial false (for_words false false false) s; Some (s, false)
    else
      let csumlen := len s in
      s ← for_words false true false s; Some (clear s, aligned (Z.of_nat csumlen))
  else
    if negb (lpl s =? 0)%nat then
      s ← with_partial false (λ s, if src_aligned s then for_words false true false s else for_words false false false s) s; Some (s, false)
    else s ← while false false false s; Some (clear s, false).

Definition csum_partial (csumlen : nat) (partial : list Z * nat) : option (Z * (list Z * nat)) :=
  '(s, returned) ← sum_part (mk_cs 0 0 [] csumlen partial.1 partial.2);
  s ← (if (returned : bool) then Some s else if negb (len s =? 0)%nat then leftover false s else Some s);
  Some (csum s, (lp s, lpl s)).

End call.
End checksum.

(** Little-endian words. *)
Definition le_value (bs : list Z) : Z := foldr (λ b v, b + 256 * v) 0 bs.

Definition opal_bcopy_csum_partial := bcopy_csum_partial 8 le_value.
Definition opal_bcopy_uicsum_partial := bcopy_csum_partial 4 le_value.
Definition opal_csum_partial (source_addr : Z) := csum_partial 8 le_value source_addr 0.
Definition opal_uicsum_partial (source_addr : Z) := csum_partial 4 le_value source_addr 0.

Definition opal_bcopy_csum (source_addr dest_addr : Z) (source : list Z) (copylen csumlen : nat) : option (Z * list Z) :=
  fst <$> opal_bcopy_csum_partial source_addr dest_addr source copylen csumlen (zero_word 8, 0%nat).
Definition opal_bcopy_uicsum (source_addr dest_addr : Z) (source : list Z) (copylen csumlen : nat) : option (Z * list Z) :=
  fst <$> opal_bcopy_uicsum_partial source_addr dest_addr source copylen csumlen (zero_word 4, 0%nat).
Definition opal_csum (source_addr : Z) (source : list Z) (csumlen : nat) : option Z :=
  fst <$> opal_csum_partial source_addr source csumlen (zero_word 8, 0%nat).
Definition opal_uicsum (source_addr : Z) (source : list Z) (csumlen : nat) : option Z :=
  fst <$> opal_uicsum_partial source_addr source csumlen (zero_word 4, 0%nat).

(** ** The checksum of a convertor ([opal_datatype_checksum.h]) *)

Record convertor := mk_convertor { checksum : Z; csum_ui1 : list Z; csum_ui2 : nat }.

(** [OPAL_CONVERTOR_PREPARE] sets the three fields to zero. *)
Definition fresh_convertor : convertor := mk_convertor 0 (zero_word 4) 0.

Definition MEMCPY_CSUM (dst_addr src_addr : Z) (source : list Z) (blength : nat) (c : convertor) : option (convertor * list Z) :=
  '(x, out, (ui1, ui2)) ← opal_bcopy_uicsum_partial src_addr dst_addr source blength blength (csum_ui1 c, csum_ui2 c);
  Some (mk_convertor (wrap 32 (checksum c + x)) ui1 ui2, out).

Definition COMPUTE_CSUM (src_addr : Z) (source : list Z) (blength : nat) (c : convertor) : option convertor :=
  '(x, (ui1, ui2)) ← opal_uicsum_partial src_addr source blength (csum_ui1 c, csum_ui2 c);
  Some (mk_convertor (wrap 32 (checksum c + x)) ui1 ui2).

(** One piece of the packed data: copied to a destination or only read. *)
Inductive piece := copied (dst_addr src_addr : Z) (source : list Z) (blength : nat) | computed (src_addr : Z) (source : list Z) (blength : nat).

Definition do_piece (c : convertor) (p : piece) : option (convertor * list Z) :=
  match p with
  | copied dst src l n => MEMCPY_CSUM dst src l n c
  | computed src l n => c ← COMPUTE_CSUM src l n c; Some (c, [])
  end.

Fixpoint do_pieces (c : convertor) (ps : list piece) : option (convertor * list Z) :=
  match ps with
  | [] => Some (c, [])
  | p :: ps => '(c, o) ← do_piece c p; '(c, os) ← do_pieces c ps; Some (c, o ++ os)
  end.

End Checksum.
