(* ===== verification/ChecksumSpec.v ===== *)
(** * The running checksums compute the sum of the words

    [word_sum] is the reference: the sum of the words of a byte string, the last
    one filled up with zeros.  [tracks l p] relates the partial word [p] kept
    between two calls to the bytes [l] seen so far.  The theorems show that any
    sequence of calls, whatever the alignments, lengths and split points, adds up to
    the reference over all the bytes, copies what it has to copy and makes no
    access through a misaligned pointer. *)

From stdpp Require Import base numbers list.
From S2P Require Import Prelude Checksum.

Local Open Scope Z_scope.

Module ChecksumSpec.
Export Checksum.

Lemma wrap_cancel w x y : wrap w (wrap w (x - y) + y) = wrap w x.
Proof. rewrite wrap_add_l. f_equal. lia. Qed.

Section spec.
Context (W : nat) (lg : Z) (decode : list Z → Z).
Context (HW : Z.of_nat W = 2 ^ lg) (Hlg : 0 ≤ lg) (Hzero : decode (replicate W 0) = 0).

Definition pad (l : list Z) : list Z := l ++ replicate (W - length l) 0.

Fixpoint words (fuel : nat) (l : list Z) : Z :=
  match fuel with O => 0 | S f => decode (pad (take W l)) + words f (drop W l) end.
Definition word_sum (l : list Z) : Z := words (length l) l.

Definition whole (l : list Z) : Prop := Nat.divide W (length l).

Definition tracks (l : list Z) (p : list Z * nat) : Prop :=
  ∃ a t, l = a ++ t ∧ whole a ∧ length t = p.2 ∧ (p.2 < W)%nat ∧ p.1 = pad t.

(** ** The reference *)

Lemma W_pos : (0 < W)%nat.
Proof. assert (0 < 2 ^ lg) by (apply Z.pow_pos_nonneg; lia). lia. Qed.

Lemma pad_nil : pad [] = replicate W 0.
Proof. unfold pad. cbn. f_equal. lia. Qed.

Lemma pad_full l : length l = W → pad l = l.
Proof. intros H. unfold pad. by rewrite H, Nat.sub_diag, app_nil_r. Qed.

Lemma words_nil n : words n [] = 0.
Proof. induction n as [|n IH]; [done|]. cbn. rewrite take_nil, drop_nil, IH, pad_nil, Hzero. done. Qed.

Lemma words_fuel n m l : (length l ≤ n)%nat → (length l ≤ m)%nat → words n l = words m l.
Proof.
  pose proof W_pos. revert m l; induction n as [|n IH]; intros m l Hn Hm.
  { destruct l; [|cbn in Hn; lia]. by rewrite !words_nil. }
  destruct m as [|m]; [destruct l; [by rewrite !words_nil|cbn in Hm; lia]|].
  cbn. f_equal. apply IH; rewrite length_drop; lia.
Qed.

Lemma word_sum_unfold l : word_sum l = decode (pad (take W l)) + word_sum (drop W l).
Proof.
  pose proof W_pos. unfold word_sum. rewrite (words_fuel (length l) (S (length l))) by lia. cbn. f_equal.
  apply words_fuel; rewrite ?length_drop; lia.
Qed.

Lemma word_sum_nil : word_sum [] = 0.
Proof. done. Qed.

Lemma word_sum_app a b : whole a → word_sum (a ++ b) = word_sum a + word_sum b.
Proof.
  intros [k Hk]. revert a Hk. induction k as [|k IH]; intros a Hk.
  { destruct a; [done|cbn in Hk; lia]. }
  rewrite (word_sum_unfold (a ++ b)), (word_sum_unfold a).
  rewrite take_app_le, drop_app_le, IH; [lia|rewrite length_drop|..]; lia.
Qed.

Lemma word_sum_short t : (length t ≤ W)%nat → word_sum t = decode (pad t).
Proof. intros H. rewrite word_sum_unfold, take_ge, drop_ge, word_sum_nil by lia. lia. Qed.

(** ** The partial word *)

Lemma patch_pad t bs : (length t + length bs ≤ W)%nat → patch (pad t) (length t) bs = pad (t ++ bs).
Proof.
  intros H. unfold patch, pad. rewrite take_app_length, drop_app_ge, <-app_assoc by lia. do 2 f_equal.
  rewrite drop_replicate, length_app. f_equal. lia.
Qed.

Lemma whole_tracks l : whole l → tracks l (zero_word W, 0%nat).
Proof. pose proof W_pos. intros Hl. exists l, []. by rewrite app_nil_r, pad_nil. Qed.

Lemma tracks_whole l (p : list Z * nat) : tracks l p → (p.2 =? 0)%nat = true → whole l.
Proof.
  intros (a & t & -> & Ha & Hlen & _) Hp%Nat.eqb_eq. destruct t; [by rewrite app_nil_r|cbn in Hlen; lia].
Qed.

Lemma whole_app a b : whole a → whole b → whole (a ++ b).
Proof. unfold whole. rewrite length_app. apply Nat.divide_add_r. Qed.

Lemma tracks_patch l p bs : tracks l p → (p.2 + length bs ≤ W)%nat →
  word_sum (l ++ bs) = word_sum l + (decode (patch p.1 p.2 bs) - decode p.1).
Proof.
  intros (a & t & -> & Ha & Ht & Hlt & ->) Hbs. rewrite <-Ht in *.
  rewrite patch_pad, <-app_assoc, !(word_sum_app a), (word_sum_short t), (word_sum_short (t ++ bs)) by (done || (rewrite ?length_app; lia)). lia.
Qed.

Lemma tracks_fill l p bs : tracks l p → length bs = (W - p.2)%nat → whole (l ++ bs).
Proof.
  intros (a & t & -> & Ha & Ht & Hlt & _) Hbs. rewrite <-app_assoc. apply whole_app; [done|].
  unfold whole. rewrite length_app. exists 1%nat. lia.
Qed.

Lemma tracks_extend l p bs : tracks l p → (p.2 + length bs < W)%nat → tracks (l ++ bs) (patch p.1 p.2 bs, (p.2 + length bs)%nat).
Proof.
  intros (a & t & -> & Ha & Ht & Hlt & ->) Hbs. exists a, (t ++ bs). cbn.
  rewrite <-Ht in *. rewrite patch_pad, length_app, <-app_assoc by lia. done.
Qed.

Lemma whole_word l bs : whole l → length bs = W → whole (l ++ bs) ∧ word_sum (l ++ bs) = word_sum l + decode bs.
Proof.
  intros Hl Hbs. split; [apply whole_app; [done|]; exists 1%nat; lia|].
  rewrite word_sum_app, (word_sum_short bs), pad_full by (done || lia). done.
Qed.

(** ** Alignment *)

Lemma word_aligned_spec v : aligned W v = true ↔ v mod Z.of_nat W = 0.
Proof.
  unfold aligned. rewrite Z.eqb_eq, HW. replace (2 ^ lg - 1) with (Z.ones lg) by (rewrite Z.ones_equiv; lia).
  by rewrite Z.land_ones.
Qed.

Lemma aligned_next v : aligned W v = true → aligned W (v + Z.of_nat W) = true.
Proof.
  pose proof W_pos. rewrite !word_aligned_spec. intros H'.
  replace (v + Z.of_nat W) with (v + 1 * Z.of_nat W) by lia. by rewrite Z.mod_add by lia.
Qed.

(** ** One call *)

Section call.
Context (source_addr dest_addr : Z) (source before : list Z).

(** The bytes seen after [k] bytes of the source. *)
Definition seen (k : nat) : list Z := before ++ take k source.

(** The checksum and the destination are up to date with the source pointer. *)
Definition ok (copy : bool) (s : cs) : Prop :=
  (src s ≤ length source)%nat ∧ out s = (if copy then take (src s) source else []) ∧
  csum s = wrap (8 * Z.of_nat W) (word_sum (seen (src s)) - word_sum before).

Lemma read_ok o n : (o + n ≤ length source)%nat →
  ∃ bs, read source o n = Some bs ∧ length bs = n ∧ ∀ l, l ++ take (o + n) source = (l ++ take o source) ++ bs.
Proof.
  intros H. exists (take n (drop o source)). unfold read. rewrite (proj2 (Nat.leb_le _ _)) by lia.
  split_and!; [done|rewrite length_take, length_drop; lia|].
  intros l. by rewrite <-app_assoc, <-(take_take_drop source o n).
Qed.

(** Reading [n] bytes and adding the difference [d] of the sums keeps [ok]. *)
Lemma ok_advance copy s n bs d k (p : list Z * nat) : ok copy s → (src s + n ≤ length source)%nat →
  (∀ l, l ++ take (src s + n) source = (l ++ take (src s) source) ++ bs) →
  word_sum (seen (src s) ++ bs) = word_sum (seen (src s)) + d →
  ok copy (mk_cs (add W (csum s) d) (src s + n) (if copy then out s ++ bs else out s) k p.1 p.2).
Proof.
  intros (Hs & Ho & Hc) Hn Hbs Hd. split_and!; cbn; [done| |].
  - rewrite Ho. destruct copy; [|done]. symmetry. apply (Hbs []).
  - unfold add. rewrite Hc, wrap_add_l. unfold seen at 2. rewrite Hbs. fold (seen (src s)). rewrite Hd. f_equal. lia.
Qed.

Lemma fill_word_ok copy s : ok copy s → tracks (seen (src s)) (lp s, lpl s) → (W - lpl s ≤ len s)%nat →
  (src s + len s ≤ length source)%nat →
  ∃ s', fill_word W decode source copy s = Some s' ∧ ok copy s' ∧ whole (seen (src s')) ∧ (src s' + len s' = src s + len s)%nat.
Proof.
  intros Hok Ht Hn Hl. destruct (read_ok (src s) (W - lpl s)) as (bs & Hr & Hbs & Happ); [lia|].
  assert (lpl s < W)%nat by (by destruct Ht as (?&?&?&?&?&?&?)).
  eexists. unfold fill_word. rewrite Hr. run. split; [done|]. cbn [src len]. split_and!; [| |lia].
  - apply (ok_advance copy s _ bs _ _ (lp s, lpl s)); [done|lia|done|]. apply (tracks_patch _ (lp s, lpl s)); [done|cbn; lia].
  - unfold seen. rewrite Happ. by apply (tracks_fill _ (lp s, lpl s)).
Qed.

Lemma extend_word_ok copy s : ok copy s → tracks (seen (src s)) (lp s, lpl s) → (lpl s + len s < W)%nat →
  (src s + len s ≤ length source)%nat →
  ∃ s', extend_word W decode source copy s = Some s' ∧ ok copy s' ∧ tracks (seen (src s')) (lp s', lpl s') ∧
    src s' = (src s + len s)%nat ∧ len s' = 0%nat.
Proof.
  intros Hok Ht Hn Hl. destruct (read_ok (src s) (len s)) as (bs & Hr & Hbs & Happ); [lia|].
  eexists. unfold extend_word. rewrite Hr. run. split; [done|]. cbn [src len lp lpl]. split_and!; [| |done|done].
  - apply (ok_advance copy s _ bs _ _ (patch (lp s) (lpl s) bs, (lpl s + len s)%nat)); [done|lia|done|].
    apply (tracks_patch _ (lp s, lpl s)); [done|cbn; lia].
  - unfold seen. rewrite Happ, <-Hbs. apply (tracks_extend _ (lp s, lpl s)); [done|cbn; lia].
Qed.

(** What a loop over whole words needs of the pointers it uses directly. *)
Definition direct_ok (copy sd dd : bool) (s : cs) : Prop :=
  (sd = true → aligned W (source_addr + Z.of_nat (src s)) = true) ∧
  (dd = true → copy = true ∧ aligned W (dest_addr + Z.of_nat (length (out s))) = true).

Lemma one_word_ok copy sd dd s : ok copy s → whole (seen (src s)) → direct_ok copy sd dd s → (src s + W ≤ length source)%nat →
  ∃ s', one_word W decode source_addr dest_addr source copy sd dd s = Some s' ∧ ok copy s' ∧ whole (seen (src s')) ∧
    direct_ok copy sd dd s' ∧ src s' = (src s + W)%nat ∧ len s' = len s ∧ lp s' = lp s ∧ lpl s' = lpl s.
Proof.
  intros Hok Hw [Hsd Hdd] Hl. destruct (read_ok (src s) W) as (bs & Hr & Hbs & Happ); [lia|].
  eexists. unfold one_word. rewrite Hr.
  replace (negb sd || _) with true by (destruct sd; [by rewrite Hsd|done]).
  replace (negb dd || _) with true by (destruct dd; [by rewrite (proj2 (Hdd eq_refl))|done]).
  run. split; [done|]. destruct (whole_word (seen (src s)) bs) as [Hw' Hsum]; [done..|].
  split_and!; cbn [src len lp lpl]; try done.
  - by apply (ok_advance copy s _ bs _ _ (lp s, lpl s)).
  - unfold seen. by rewrite Happ.
  - split; cbn [src out]; intros Hd.
    + rewrite Nat2Z.inj_add, Z.add_assoc. by apply aligned_next, Hsd.
    + destruct (Hdd Hd) as [-> Ha]. split; [done|].
      rewrite length_app, Hbs, Nat2Z.inj_add, Z.add_assoc. by apply aligned_next.
Qed.

Lemma count_words_ok copy sd dd n s : ok copy s → whole (seen (src s)) → direct_ok copy sd dd s →
  (src s + n * W ≤ length source)%nat →
  ∃ s', count_words W decode source_addr dest_addr source copy sd dd n s = Some s' ∧ ok copy s' ∧ whole (seen (src s')) ∧
    src s' = (src s + n * W)%nat ∧ len s' = len s ∧ lp s' = lp s ∧ lpl s' = lpl s.
Proof.
  revert s; induction n as [|n IH]; intros s Hok Hw Hd Hl; cbn.
  { exists s. split_and!; try done; lia. }
  destruct (one_word_ok copy sd dd s) as (s1 & -> & Hok1 & Hw1 & Hd1 & Hs1 & Hl1 & Hp1 & Hq1); [done..|cbn in Hl; lia|]. run.
  destruct (IH s1) as (s2 & -> & Hok2 & Hw2 & Hs2 & Hl2 & Hp2 & Hq2); [done..|cbn in Hl; lia|].
  exists s2. split_and!; try done; [lia|congruence..].
Qed.

(** After a loop less than a word is left. *)
Definition words_done (copy : bool) (s s' : cs) : Prop :=
  ok copy s' ∧ whole (seen (src s')) ∧ (src s' + len s' = src s + len s)%nat ∧ (len s' < W)%nat ∧ len s' = (len s mod W)%nat.

Lemma for_words_ok copy sd dd s : ok copy s → whole (seen (src s)) → direct_ok copy sd dd s →
  (src s + len s ≤ length source)%nat →
  ∃ s', for_words W decode source_addr dest_addr source copy sd dd s = Some s' ∧ words_done copy s s'.
Proof.
  intros Hok Hw Hd Hl. pose proof W_pos. pose proof (Nat.div_mod_eq (len s) W). pose proof (Nat.mod_upper_bound (len s) W ltac:(lia)).
  unfold for_words. destruct (count_words_ok copy sd dd (len s / W) s) as (s1 & -> & Hok1 & Hw1 & Hs1 & Hl1 & _); [done..|lia|].
  run. eexists. split; [done|]. split_and!; try done; cbn [shorten src len]; lia.
Qed.

Lemma while_words_ok copy sd dd fuel s : ok copy s → whole (seen (src s)) → direct_ok copy sd dd s →
  (src s + len s ≤ length source)%nat → (len s < fuel)%nat →
  ∃ s', while_words W decode source_addr dest_addr source copy sd dd fuel s = Some s' ∧ words_done copy s s'.
Proof.
  pose proof W_pos. revert s; induction fuel as [|f IH]; intros s Hok Hw Hd Hl Hf; [lia|]. cbn.
  destruct (Nat.leb_spec W (len s)) as [Hle|Hgt].
  - destruct (one_word_ok copy sd dd s) as (s1 & -> & Hok1 & Hw1 & Hd1 & Hs1 & Hl1 & _); [done..|lia|]. run.
    destruct (IH (shorten s1 W)) as (s2 & -> & Hok2 & Hw2 & Hs2 & Hl2 & Hm2); [done..|cbn; lia|cbn; lia|].
    exists s2. split; [done|]. cbn [shorten src len] in *. split_and!; try done; [lia|].
    rewrite Hm2, Hl1. replace (len s) with (len s - W + 1 * W)%nat at 2 by lia. by rewrite Nat.Div0.mod_add.
  - exists s. split; [done|]. split_and!; try done. by rewrite Nat.mod_small.
Qed.

(** The state between the whole words and what is left. *)
Definition part_done (copy : bool) (total : nat) (s : cs) : Prop :=
  ok copy s ∧ tracks (seen (src s)) (lp s, lpl s) ∧ (src s + len s = total)%nat ∧ (len s < W)%nat ∧ (len s ≠ 0%nat → lpl s = 0%nat).

Lemma clear_ok copy s s' : words_done copy s s' → part_done copy (src s + len s) (clear W s').
Proof. intros (Hok & Hw & Hs & Hl & _). split_and!; try done. by apply whole_tracks. Qed.

Lemma with_partial_ok copy rest s :
  ok copy s → tracks (seen (src s)) (lp s, lpl s) → (src s + len s ≤ length source)%nat →
  (∀ s1, ok copy s1 → whole (seen (src s1)) → (src s1 + len s1 ≤ length source)%nat → ∃ s2, rest s1 = Some s2 ∧ words_done copy s1 s2) →
  ∃ s', with_partial W decode source copy rest s = Some s' ∧ part_done copy (src s + len s) s'.
Proof.
  intros Hok Ht Hl Hrest. pose proof W_pos. unfold with_partial. destruct (Nat.leb_spec (W - lpl s) (len s)).
  - destruct (fill_word_ok copy s) as (s1 & -> & Hok1 & Hw1 & Hs1); [done..|]. run.
    destruct (Hrest s1) as (s2 & -> & Hd); [done..|lia|]. run.
    eexists. split; [done|]. rewrite <-Hs1. by apply clear_ok.
  - destruct (extend_word_ok copy s) as (s1 & -> & Hok1 & Ht1 & Hs1 & Hl1); [done..|lia|lia|].
    exists s1. split; [done|]. rewrite <-Hs1. split_and!; try done; lia.
Qed.

Ltac words_loop := first [apply for_words_ok | apply while_words_ok]; try done; try lia.

Ltac partial_loops :=
  match goal with |- context [with_partial W decode source ?c ?r ?s] =>
    let s' := fresh "s'" in destruct (with_partial_ok c r s) as (s' & -> & ?);
    [done..| |run; by exists s', false]
  end;
  intros s1 Hok1 Hw1 Hl1; repeat case_match; words_loop;
  repeat match goal with H : (_ && _) = true |- _ => apply andb_prop in H as [??] end; by split.

Lemma direct_none copy s : direct_ok copy false false s.
Proof. done. Qed.

Hint Resolve direct_none : core.

Lemma copy_part_ok residue s : ok true s → src s = 0%nat → out s = [] → tracks (seen (src s)) (lp s, lpl s) → (len s ≤ length source)%nat →
  ∃ s' r, copy_part W decode source_addr dest_addr source residue s = Some (s', r) ∧ part_done true (src s + len s) s' ∧
    (r = true → len s' = 0%nat ∧ residue = 0%nat).
Proof.
  intros Hok Hs Ho Ht Hl. unfold copy_part.
  assert (Hl' : (src s + len s ≤ length source)%nat) by lia.
  assert (Hwhole := tracks_whole _ _ Ht). cbn [snd] in Hwhole.
  assert (Hsa : aligned W source_addr = true → aligned W (source_addr + Z.of_nat (src s)) = true) by (by rewrite Hs, Z.add_0_r).
  assert (Hda : aligned W dest_addr = true → aligned W (dest_addr + Z.of_nat (length (out s))) = true) by (by rewrite Ho, Z.add_0_r).
  destruct (aligned W source_addr) eqn:Es, (aligned W dest_addr) eqn:Ed, (lpl s =? 0)%nat eqn:Ep; cbn [negb andb].
  all: try partial_loops.
  - destruct (for_words_ok true true true s) as (s' & -> & Hd); [auto..|by split; auto|done|]. run.
    eexists _, _. split; [done|]. split; [by apply clear_ok|]. intros [Ha%word_aligned_spec Hr%Nat.eqb_eq]%andb_prop. split; [|done].
    destruct Hd as (_ & _ & _ & _ & Hm). cbn [clear len]. rewrite Hm. apply Nat2Z.inj. rewrite Nat2Z.inj_mod. done.
  - destruct (while_words_ok true true false (S (len s)) s) as (s' & -> & Hd); [auto..|by split; auto|done|lia|]. run.
    eexists _, false. split; [done|]. split; [by apply clear_ok|done].
  - destruct (while_words_ok true false true (S (len s)) s) as (s' & -> & Hd); [auto..|by split; auto|done|lia|]. run.
    eexists _, false. split; [done|]. split; [by apply clear_ok|done].
  - destruct (while_words_ok true false false (S (len s)) s) as (s' & -> & Hd); [auto..|lia|]. run.
    eexists _, false. split; [done|]. split; [by apply clear_ok|done].
Qed.

Lemma sum_part_ok s : ok false s → src s = 0%nat → tracks (seen (src s)) (lp s, lpl s) → (len s ≤ length source)%nat →
  ∃ s' r, sum_part W decode source_addr dest_addr source s = Some (s', r) ∧ part_done false (src s + len s) s' ∧ (r = true → len s' = 0%nat).
Proof.
  intros Hok Hs Ht Hl. unfold sum_part.
  assert (Hl' : (src s + len s ≤ length source)%nat) by lia.
  assert (Hwhole := tracks_whole _ _ Ht). cbn [snd] in Hwhole.
  assert (Hsa : aligned W source_addr = true → aligned W (source_addr + Z.of_nat (src s)) = true) by (by rewrite Hs, Z.add_0_r).
  destruct (aligned W source_addr) eqn:Es, (lpl s =? 0)%nat eqn:Ep; cbn [negb andb].
  all: try partial_loops.
  - destruct (for_words_ok false true false s) as (s' & -> & Hd); [auto..|by split; auto|done|]. run.
    eexists _, _. split; [done|]. split; [by apply clear_ok|]. intros Ha%word_aligned_spec.
    destruct Hd as (_ & _ & _ & _ & Hm). cbn [clear len]. rewrite Hm. apply Nat2Z.inj. rewrite Nat2Z.inj_mod. done.
  - destruct (while_words_ok false false false (S (len s)) s) as (s' & -> & Hd); [auto..|lia|]. run.
    eexists _, false. split; [done|]. split; [by apply clear_ok|done].
Qed.

(** The end of a call that has copied [total] bytes and summed up [n]. *)
Definition finished (copy : bool) (total n : nat) (s : cs) : Prop :=
  csum s = wrap (8 * Z.of_nat W) (word_sum (seen n) - word_sum before) ∧
  out s = (if copy then take total source else []) ∧ tracks (seen n) (lp s, lpl s).

Lemma nothing_left copy total s : part_done copy total s → len s = 0%nat → finished copy total total s.
Proof. intros ((_ & Ho & Hc) & Ht & Hs & _) Hl. assert (src s = total) as <- by lia. done. Qed.

Lemma tracks_zero l (p : list Z * nat) : tracks l p → p.2 = 0%nat → p.1 = zero_word W.
Proof. intros (a & t & _ & _ & Ht & _ & ->) Hp. destruct t; [apply pad_nil|cbn in Ht; lia]. Qed.

Lemma leftover_ok copy total s : part_done copy total s → len s ≠ 0%nat → (total ≤ length source)%nat →
  ∃ s', leftover W decode source copy s = Some s' ∧ finished copy total total s'.
Proof.
  intros (Hok & Ht & Hs & Hlt & Hp) Hl Htot. specialize (Hp Hl). unfold leftover. rewrite Hp. cbn [Nat.eqb negb].
  destruct (read_ok (src s) (len s)) as (bs & -> & Hbs & Happ); [lia|]. run. eexists. split; [done|].
  pose proof (tracks_zero _ _ Ht Hp) as Hz. cbn [fst] in Hz. rewrite Hp, Hz in Ht.
  destruct (ok_advance copy s (len s) bs (decode (patch (zero_word W) 0 bs) - decode (zero_word W)) 0 (lp s, 0%nat)) as (_ & Ho & Hc);
    [done|lia|done|by apply (tracks_patch _ (zero_word W, 0%nat)); [|cbn; lia]|].
  cbn [src out csum] in Ho, Hc. rewrite Hs in Ho, Hc. split_and!; cbn [csum out lp lpl]; [|done|].
  - rewrite Hz, <-Hc. f_equal. unfold zero_word. rewrite Hzero. lia.
  - unfold seen. rewrite <-Hs, Happ, Hz, <-Hbs. by apply (tracks_extend _ (zero_word W, 0%nat)); [|cbn; lia].
Qed.

Definition with_out (s : cs) (o : list Z) : cs := mk_cs (csum s) (src s) o (len s) (lp s) (lpl s).

Lemma count_words_frame sd n s o :
  count_words W decode source_addr dest_addr source false sd false n (with_out s o) =
  (λ s', with_out s' o) <$> count_words W decode source_addr dest_addr source false sd false n s.
Proof.
  revert s; induction n as [|n IH]; intros s; [done|]. cbn [count_words]. unfold one_word. cbn [with_out src negb orb].
  destruct (_ || _); [|done]. destruct (read source (src s) W) as [bs|]; [|done]. run.
  apply (IH (mk_cs (add W (csum s) (decode bs)) (src s + W) (out s) (len s) (lp s) (lpl s))).
Qed.

(** The words after the copied part, and the incomplete one at the end. *)
Lemma residue_words_ok s o n : ok false s → whole (seen (src s)) → lp s = zero_word W → lpl s = 0%nat →
  (src s + n ≤ length source)%nat →
  ∃ s1, count_words W decode source_addr dest_addr source false (aligned W (source_addr + Z.of_nat (src s))) false (n / W) (with_out s o) = Some (with_out s1 o) ∧
    ok false s1 ∧ tracks (seen (src s1)) (zero_word W, 0%nat) ∧ lp s1 = zero_word W ∧ lpl s1 = 0%nat ∧ src s1 = (src s + n / W * W)%nat.
Proof.
  intros Hok Hw Hp Hq Hn. pose proof W_pos. pose proof (Nat.div_mod_eq n W).
  destruct (count_words_ok false (aligned W (source_addr + Z.of_nat (src s))) false (n / W) s) as (s1 & Hc & Hok1 & Hw1 & Hs1 & _ & Hp1 & Hq1);
    [done..|lia|].
  exists s1. rewrite count_words_frame, Hc. split_and!; [done|done| |congruence..]. by apply whole_tracks.
Qed.

Lemma residue_tail_ok s o r : ok false s → tracks (seen (src s)) (zero_word W, 0%nat) → lp s = zero_word W → lpl s = 0%nat →
  (r < W)%nat → (src s + r ≤ length source)%nat →
  ∃ s', (if negb (r =? 0)%nat then
           bs ← read source (src s) r;
           Some (mk_cs (add W (csum s) (decode (patch (zero_word W) 0 bs))) (src s) o (len s) (patch (zero_word W) 0 bs) r)
         else Some (with_out s o)) = Some s' ∧
    csum s' = wrap (8 * Z.of_nat W) (word_sum (seen (src s + r)) - word_sum before) ∧ out s' = o ∧ tracks (seen (src s + r)) (lp s', lpl s').
Proof.
  intros Hok Ht Hp Hq Hr Hl. destruct (Nat.eqb_spec r 0) as [->|_]; cbn [negb].
  { eexists. split; [done|]. rewrite Nat.add_0_r. cbn [with_out csum out lp lpl]. rewrite Hp, Hq. by destruct Hok as (_ & _ & Hc). }
  destruct (read_ok (src s) r) as (bs & -> & Hbs & Happ); [lia|]. run. eexists. split; [done|]. cbn [csum out lp lpl].
  split_and!; [|done|unfold seen; rewrite Happ, <-Hbs; by apply (tracks_extend _ (zero_word W, 0%nat)); [|cbn; lia]].
  destruct (ok_advance false s r bs (decode (patch (zero_word W) 0 bs) - decode (zero_word W)) 0 (lp s, 0%nat)) as (_ & _ & Hc);
    [done|lia|done|by apply (tracks_patch _ (zero_word W, 0%nat)); [|cbn; lia]|].
  cbn in Hc. rewrite <-Hc. f_equal. unfold zero_word. rewrite Hzero. lia.
Qed.

(** The copied bytes that do not fill a word are written first. *)
Lemma residue_copies total s : part_done true total s → (total ≤ length source)%nat →
  (if negb (len s =? 0)%nat then bs ← read source (src s) (len s); Some (mk_cs (csum s) (src s) (out s ++ bs) (len s) (lp s) (lpl s)) else Some s)
  = Some (with_out s (take total source)).
Proof.
  intros ((Hsrc & Ho & Hc) & Ht & Hs & Hlt & Hp) Htot. destruct (Nat.eqb_spec (len s) 0) as [E|E]; cbn [negb].
  - unfold with_out. replace total with (src s) by lia. rewrite <-Ho. by destruct s.
  - destruct (read_ok (src s) (len s)) as (bs & -> & _ & Happ); [lia|]. run. unfold with_out. do 2 f_equal.
    rewrite Ho, <-Hs. symmetry. apply (Happ []).
Qed.

(** The incomplete word is completed from the bytes that are not copied. *)
Lemma residue_fill s n bs : ok true s → tracks (seen (src s)) (lp s, lpl s) → (lpl s + n ≤ W)%nat → (src s + n ≤ length source)%nat →
  length bs = n → (∀ l, l ++ take (src s + n) source = (l ++ take (src s) source) ++ bs) →
  ok false (mk_cs (add W (csum s) (decode (patch (lp s) (lpl s) bs) - decode (lp s))) (src s + n) [] (len s) (zero_word W) 0).
Proof.
  intros (Hs & Ho & Hc) Ht Hn Hl Hbs Happ.
  apply (ok_advance false (with_out s []) n bs _ _ (zero_word W, 0%nat)); [by split_and!|done|done|].
  apply (tracks_patch _ (lp s, lpl s)); [done|cbn; lia].
Qed.

Lemma residue_part_ok total residue s : part_done true total s → residue ≠ 0%nat → (total + residue ≤ length source)%nat →
  (Z.of_nat W < 2 ^ 64) →
  ∃ s', residue_part W decode source_addr dest_addr source residue s = Some s' ∧ finished true total (total + residue) s'.
Proof.
  intros Hpd Hr Htot H64. pose proof W_pos. unfold residue_part. rewrite (residue_copies total) by (done || lia). run.
  destruct Hpd as (Hok & Ht & Hs & Hlt & Hp). assert (Hq : (lpl s < W)%nat) by (by destruct Ht as (?&?&?&?&?&?&?)).
  cbn [with_out csum src out len lp lpl].
  assert (Hz : (len s + lpl s ≤ W)%nat) by (destruct (decide (len s = 0%nat)) as [E|E]; [|rewrite (Hp E)]; lia).
  rewrite wrap_small by lia.
  destruct (Z.ltb_spec (Z.of_nat residue) (Z.of_nat W - Z.of_nat (len s) - Z.of_nat (lpl s))) as [Hlt'|Hge].
  - destruct (read_ok (src s) (len s + residue)) as (bs & -> & Hbs & Happ); [lia|]. run.
    rewrite Nat.Div0.div_0_l. cbn [count_words Nat.mul Nat.sub Nat.eqb negb]. run. eexists. split; [done|].
    destruct (residue_fill s (len s + residue) bs) as (_ & _ & Hc); [done|done|lia|lia|done|done|]. cbn in Hc.
    rewrite <-Hs, <-Nat.add_assoc. split_and!; cbn [csum out lp lpl]; [done|done|].
    unfold seen. rewrite Happ, <-Hbs. by apply (tracks_extend _ (lp s, lpl s)); [|cbn; lia].
  - destruct (read_ok (src s) (W - lpl s)) as (bs & -> & Hbs & Happ); [lia|]. run.
    set (n := (residue - (W - lpl s - len s))%nat). pose proof (Nat.div_mod_eq n W). pose proof (Nat.mod_upper_bound n W ltac:(lia)).
    pose proof (residue_fill s (W - lpl s) bs Hok Ht ltac:(lia) ltac:(lia) Hbs Happ) as Hok1.
    destruct (residue_words_ok _ (take total source) n Hok1) as (s2 & Hcw & Hok2 & Ht2 & Hp2 & Hq2 & Hs2); [|done|done|cbn; lia|].
    { unfold seen. cbn [src]. rewrite Happ. by apply (tracks_fill _ (lp s, lpl s)). }
    unfold with_out in Hcw at 1. cbn [csum src out len lp lpl] in Hcw, Hs2 |- *. rewrite Hcw. run.
    destruct (residue_tail_ok s2 (take total source) (n - n / W * W)) as (s' & He & Hc' & Ho' & Ht'); [done..|lia|lia|].
    exists s'. split; [exact He|]. rewrite Hs2 in Hc', Ht'.
    assert (src s + (W - lpl s) + n / W * W + (n - n / W * W) = total + residue)%nat as <- by lia. done.
Qed.

Lemma start_ok copy n (p : list Z * nat) : ok copy (mk_cs 0 0 [] n p.1 p.2).
Proof. split_and!; cbn; [lia|by destruct copy|]. unfold seen. by rewrite app_nil_r, Z.sub_diag. Qed.

Lemma bcopy_call copylen csumlen p : tracks before p → (copylen `max` csumlen ≤ length source)%nat → Z.of_nat W < 2 ^ 64 →
  ∃ p', bcopy_csum_partial W decode source_addr dest_addr source copylen csumlen p =
      Some (wrap (8 * Z.of_nat W) (word_sum (seen (copylen `max` csumlen)) - word_sum before), take copylen source, p') ∧
    tracks (seen (copylen `max` csumlen)) p'.
Proof.
  intros Ht Hl H64. unfold bcopy_csum_partial. pose proof (start_ok true copylen p) as Hok0.
  destruct (copy_part_ok (csumlen - copylen) (mk_cs 0 0 [] copylen p.1 p.2)) as (s & r & -> & Hd & Hr); [done..| |cbn; lia|].
  { unfold seen. cbn [src lp lpl]. rewrite app_nil_r. by destruct p. }
  cbn [src len Nat.add] in Hd. run.
  assert (∃ s', (if r then Some s else
      if negb (len s =? 0)%nat && (csumlen - copylen =? 0)%nat then leftover W decode source true s
      else if negb (csumlen - copylen =? 0)%nat then residue_part W decode source_addr dest_addr source (csumlen - copylen) s else Some s) = Some s' ∧
    finished true copylen (copylen `max` csumlen) s') as (s' & He & Hc & Ho & Ht').
  { destruct r.
    { destruct (Hr eq_refl) as [H0 H1]. exists s. split; [done|]. replace (copylen `max` csumlen)%nat with copylen by lia. by apply nothing_left. }
    destruct (Nat.eqb_spec (csumlen - copylen) 0) as [E|E]; cbn [negb].
    - replace (copylen `max` csumlen)%nat with copylen by lia. destruct (Nat.eqb_spec (len s) 0) as [E'|E']; cbn [negb andb].
      + exists s. split; [done|]. by apply nothing_left.
      + apply leftover_ok; [done..|lia].
    - rewrite andb_false_r. replace (copylen `max` csumlen)%nat with (copylen + (csumlen - copylen))%nat by lia.
      apply residue_part_ok; try done. lia. }
  exists (lp s', lpl s'). split; [|done]. destruct r; [injection He as ->|rewrite He]; run; unfold result; by rewrite Hc, Ho.
Qed.

Lemma csum_call csumlen p : tracks before p → (csumlen ≤ length source)%nat →
  ∃ p', csum_partial W decode source_addr dest_addr source csumlen p =
      Some (wrap (8 * Z.of_nat W) (word_sum (seen csumlen) - word_sum before), p') ∧ tracks (seen csumlen) p'.
Proof.
  intros Ht Hl. unfold csum_partial. pose proof (start_ok false csumlen p) as Hok0.
  destruct (sum_part_ok (mk_cs 0 0 [] csumlen p.1 p.2)) as (s & r & -> & Hd & Hr); [done..| |cbn; lia|].
  { unfold seen. cbn [src lp lpl]. rewrite app_nil_r. by destruct p. }
  cbn [src len Nat.add] in Hd. run.
  assert (∃ s', (if r then Some s else if negb (len s =? 0)%nat then leftover W decode source false s else Some s) = Some s' ∧
    finished false csumlen csumlen s') as (s' & -> & Hc & Ho & Ht').
  { destruct (Nat.eqb_spec (len s) 0) as [E|E]; cbn [negb].
    - exists s. split; [by destruct r|]. by apply nothing_left.
    - destruct r; [by destruct E; apply Hr|]. by apply leftover_ok. }
  run. exists (lp s', lpl s'). by rewrite Hc.
Qed.

End call.
End spec.

(** ** The functions of the library *)

Section claims.

Lemma le_value_zero n : le_value (replicate n 0) = 0.
Proof. induction n as [|n IH]; [done|]. change (0 + 256 * le_value (replicate n 0) = 0). lia. Qed.

Abbreviation long_sum := (word_sum 8 le_value).
Abbreviation int_sum := (word_sum 4 le_value).

(** The checksum with copy is the sum of the words: for every alignment of the
    source and of the destination, every amount to copy and to sum up, and every
    partial word left by the bytes [before], [opal_bcopy_csum_partial] copies exactly
    the bytes to copy, returns the difference that the new bytes make to the sum of
    the words, leaves the partial word of all the bytes, and
    never dereferences a misaligned pointer or reads outside the source. *)
Theorem bcopy_csum_partial_equiv source_addr dest_addr source before copylen csumlen p :
  tracks 8 before p → (copylen `max` csumlen ≤ length source)%nat →
  let all := before ++ take (copylen `max` csumlen) source in
  ∃ p', opal_bcopy_csum_partial source_addr dest_addr source copylen csumlen p =
      Some (wrap 64 (long_sum all - long_sum before), take copylen source, p') ∧ tracks 8 all p'.
Proof.
  intros Ht Hl. by apply (bcopy_call 8 3 le_value).
Qed.

(** The bytes a piece stands for, and those it writes. *)
Definition piece_bytes (p : piece) : list Z := match p with copied _ _ l n => take n l | computed _ l n => take n l end.
Definition piece_copy (p : piece) : list Z := match p with copied _ _ l n => take n l | computed _ _ _ => [] end.
Definition piece_ok (p : piece) : Prop := match p with copied _ _ l n | computed _ l n => (n ≤ length l)%nat end.

Lemma do_piece_ok before c p : piece_ok p → tracks 4 before (csum_ui1 c, csum_ui2 c) → checksum c = wrap 32 (int_sum before) →
  ∃ c', do_piece c p = Some (c', piece_copy p) ∧
    tracks 4 (before ++ piece_bytes p) (csum_ui1 c', csum_ui2 c') ∧ checksum c' = wrap 32 (int_sum (before ++ piece_bytes p)).
Proof.
  intros Hp Ht Hc. destruct p as [dst src l n|src l n]; cbn in Hp |- *.
  - unfold MEMCPY_CSUM. destruct (bcopy_call 4 2 le_value eq_refl ltac:(done) (le_value_zero 4) src dst l before n n (csum_ui1 c, csum_ui2 c))
      as ([p q] & E & Ht'); [done|lia|done|]. unfold opal_bcopy_uicsum_partial. rewrite E. run. rewrite Nat.max_id in *.
    eexists. split; [done|]. split; [done|]. cbn [checksum]. rewrite Hc, wrap_add_l, Z.add_comm. apply (wrap_cancel 32).
  - unfold COMPUTE_CSUM. destruct (csum_call 4 2 le_value eq_refl ltac:(done) (le_value_zero 4) src 0 l before n (csum_ui1 c, csum_ui2 c))
      as ([p q] & E & Ht'); [done..|]. unfold opal_uicsum_partial. rewrite E. run.
    eexists. split; [done|]. split; [done|]. cbn [checksum]. rewrite Hc, wrap_add_l, Z.add_comm. apply (wrap_cancel 32).
Qed.

Lemma do_pieces_ok before c ps : Forall piece_ok ps → tracks 4 before (csum_ui1 c, csum_ui2 c) → checksum c = wrap 32 (int_sum before) →
  ∃ c', do_pieces c ps = Some (c', ps ≫= piece_copy) ∧ checksum c' = wrap 32 (int_sum (before ++ (ps ≫= piece_bytes))).
Proof.
  intros Hps. revert before c. induction Hps as [|p ps Hp Hps IH]; intros before c Ht Hc; cbn.
  { exists c. by rewrite app_nil_r. }
  destruct (do_piece_ok before c p) as (c1 & -> & Ht1 & Hc1); [done..|]. run.
  destruct (IH _ c1 Ht1 Hc1) as (c2 & -> & Hc2). run. exists c2. by rewrite app_assoc.
Qed.

(** C26: the checksum of a convertor depends on the bytes only: after any sequence of
    [MEMCPY_CSUM] and [COMPUTE_CSUM], with any split of the data into pieces and any
    addresses, it is the sum of the 32-bit words of the whole data, the last one
    filled up with zeros; every piece that is copied is copied exactly. *)
Theorem convertor_checksum_equiv ps : Forall piece_ok ps →
  ∃ c, do_pieces fresh_convertor ps = Some (c, ps ≫= piece_copy) ∧ checksum c = wrap 32 (int_sum (ps ≫= piece_bytes)).
Proof.
  intros Hps. apply (do_pieces_ok [] fresh_convertor ps Hps); [|done].
  exists [], []. split_and!; try done; [by exists 0%nat|cbn; lia].
Qed.

Lemma bcopy_csum_partial_equiv_witness :
  ∃ p', opal_bcopy_csum_partial 4096 8195 [3;4;5;6;7;8;9;10;11;12;13] 7 11 ([1; 2; 0; 0; 0; 0; 0; 0], 2%nat) =
      Some (wrap 64 (long_sum [1;2;3;4;5;6;7;8;9;10;11;12;13] - long_sum [1; 2]), [3;4;5;6;7;8;9], p') ∧
    tracks 8 [1;2;3;4;5;6;7;8;9;10;11;12;13] p'.
Proof.
  apply (bcopy_csum_partial_equiv 4096 8195 [3;4;5;6;7;8;9;10;11;12;13] [1; 2] 7 11 ([1; 2; 0; 0; 0; 0; 0; 0], 2%nat)); [|cbn; lia].
  exists [], [1; 2]. split_and!; try done; [by exists 0%nat|cbn; lia].
Defined.

Lemma convertor_checksum_equiv_witness :
  ∃ c, do_pieces fresh_convertor [copied 4096 513 [1; 2; 3; 4; 5; 6; 7] 7; computed 1024 [8; 9; 10] 2] = Some (c, [1; 2; 3; 4; 5; 6; 7]) ∧
    checksum c = wrap 32 (int_sum [1; 2; 3; 4; 5; 6; 7; 8; 9]).
Proof.
  apply (convertor_checksum_equiv [copied 4096 513 [1; 2; 3; 4; 5; 6; 7] 7; computed 1024 [8; 9; 10] 2]).
  repeat constructor; cbn; lia.
Defined.

End claims.
End ChecksumSpec.
