(* ===== verification/Crc.v ===== *)
(** * The 32-bit CRC ([opal/util/crc.c])

    The table of remainders, built on first use, and the two functions that go
    through a buffer with it, with and without a copy.  The memory is as in
    [Checksum]; the table and its flag are the two globals of the file. *)

From stdpp Require Import base numbers list.
From S2P Require Import Prelude Checksum.

Local Open Scope Z_scope.
Local Open Scope c_scope.

Module Crc.

Definition CRC_POLYNOMIAL : Z := 0x04c11db7.
Definition CRC_INITIAL_REGISTER : Z := 0xffffffff.

Record globals := mk_globals { initialized : bool; table : list Z }.

Definition crc_start : globals := mk_globals false (replicate 256 0).

(** The inner loop of the table: the register is shifted by one bit. *)
Definition crc_shift (accum : Z) : Z :=
  if negb (Z.land accum 0x80000000 =? 0) then Z.lxor (wrap 32 (Z.shiftl accum 1)) CRC_POLYNOMIAL
  else wrap 32 (Z.shiftl accum 1).

Definition table_entry (i : nat) : Z := Nat.iter 8 crc_shift (wrap 32 (Z.shiftl (Z.of_nat i) 24)).

Definition opal_initialize_crc_table (g : globals) : globals :=
  mk_globals true (foldl (λ t i, <[i := table_entry i]> t) (table g) (seq 0 256)).

Definition initialize_once (g : globals) : globals := if initialized g then g else opal_initialize_crc_table g.

(** One byte goes through the table. *)
Definition crc_byte (g : globals) (crc b : Z) : option Z :=
  let i := Z.land (Z.lxor (Z.shiftr crc 24) b) 0xff in
  e ← table g !! Z.to_nat i; Some (Z.lxor (wrap 32 (Z.shiftl crc 8)) e).

Fixpoint crc_bytes (g : globals) (crc : Z) (bs : list Z) : option Z :=
  match bs with [] => Some crc | b :: bs => crc ← crc_byte g crc b; crc_bytes g crc bs end.

(** [src] is an offset in the source; the bytes written are [out]. *)
Record crc_state := mk_crc { crc : Z; src : nat; out : list Z }.

Section call.
Context (source_addr destination_addr : Z) (source : list Z).

(** [while (n--)], byte by byte. *)
Fixpoint byte_loop (g : globals) (copy : bool) (n : nat) (s : crc_state) : option crc_state :=
  match n with
  | O => Some s
  | S n =>
      t ← source !! src s;
      c ← crc_byte g (crc s) t;
      byte_loop g copy n (mk_crc c (S (src s)) (if copy then out s ++ [t] else out s))
  end.

(** [while (n >= sizeof(unsigned int))]: whole integers, through pointers; the number
    of bytes that are left is returned. *)
Fixpoint int_loop (g : globals) (copy : bool) (fuel n : nat) (s : crc_state) : option (crc_state * nat) :=
  match fuel with
  | O => None
  | S f =>
      if (4 <=? n)%nat then
        safe (Checksum.aligned 4 (source_addr + Z.of_nat (src s)));
        safe (negb copy || Checksum.aligned 4 (destination_addr + Z.of_nat (length (out s))));
        tmp ← Checksum.read source (src s) 4;
        c ← crc_bytes g (crc s) tmp;
        int_loop g copy f (n - 4) (mk_crc c (src s + 4) (if copy then out s ++ tmp else out s))
      else Some (s, n)
  end.

Definition opal_bcopy_uicrc_partial (g : globals) (copylen crclen : nat) (partial_crc : Z) : option (globals * Z * list Z) :=
  let residue := (crclen - copylen)%nat in
  let g := initialize_once g in
  let s := mk_crc partial_crc 0 [] in
  if Checksum.aligned 4 source_addr && Checksum.aligned 4 destination_addr then
    '(s, n) ← int_loop g true (S copylen) copylen s;
    s ← byte_loop g true n s;
    s ← byte_loop g false residue s;
    Some (g, crc s, out s)
  else
    s ← byte_loop g true copylen s;
    s ← byte_loop g false residue s;
    Some (g, crc s, out s).

Definition opal_uicrc_partial (g : globals) (crclen : nat) (partial_crc : Z) : option (globals * Z) :=
  let g := initialize_once g in
  let s := mk_crc partial_crc 0 [] in
  if Checksum.aligned 4 source_addr then
    '(s, n) ← int_loop g false (S crclen) crclen s;
    s ← byte_loop g false n s;
    Some (g, crc s)
  else
    s ← byte_loop g false crclen s; Some (g, crc s).

Definition opal_bcopy_uicrc (g : globals) (copylen crclen : nat) : option (globals * Z * list Z) :=
  opal_bcopy_uicrc_partial g copylen crclen CRC_INITIAL_REGISTER.

Definition opal_uicrc (g : globals) (crclen : nat) : option (globals * Z) :=
  opal_uicrc_partial g crclen CRC_INITIAL_REGISTER.

End call.
End Crc.
