(* ===== verification/CrcSpec.v ===== *)
(** * The CRC is a remainder, and it detects bursts of errors

    The reference is the division register that takes the message bit by bit.  The
    functions compute it for every alignment, length and split of the data
    ([crc_equiv]); it is the remainder of the message by the generator polynomial
    ([crc_remainder]); two messages that differ within 32 consecutive bits have
    different CRCs ([crc_detects_bursts]). *)

From stdpp Require Import base numbers list.
From S2P Require Import Prelude Checksum ChecksumSpec Crc.

Local Open Scope Z_scope.

Module CrcSpec.
Export Crc.

Definition word32 (x : Z) : Prop := 0 ≤ x < 2 ^ 32.
Definition byte (x : Z) : Prop := 0 ≤ x < 2 ^ 8.

(** ** The reference: one bit at a time *)

(** The top bit leaves the register; with the message bit it decides the division step. *)
Definition bit_step (r : Z) (b : bool) : Z :=
  let shifted := wrap 32 (2 * r) in
  if xorb (Z.testbit r 31) b then Z.lxor shifted CRC_POLYNOMIAL else shifted.

(** The bits of a byte, the most significant first. *)
Definition byte_bits (b : Z) : list bool := map (Z.testbit b) [7; 6; 5; 4; 3; 2; 1; 0].

Definition crc_reference (r : Z) (bs : list Z) : Z := foldl bit_step r (bs ≫= byte_bits).

(** ** The shift of the register *)

Lemma testbit_wrap w x n : 0 ≤ w → 0 ≤ n → Z.testbit (wrap w x) n = (n <? w) && Z.testbit x n.
Proof.
  intros Hw Hn. unfold wrap. destruct (Z.ltb_spec n w).
  - by rewrite Z.mod_pow2_bits_low by lia.
  - by rewrite Z.mod_pow2_bits_high by lia.
Qed.

Lemma top_bit x : negb (Z.land x 0x80000000 =? 0) = Z.testbit x 31.
Proof.
  change 0x80000000 with (2 ^ 31). destruct (Z.testbit x 31) eqn:E.
  - apply negb_true_iff, Z.eqb_neq. intros H. apply (f_equal (λ z, Z.testbit z 31)) in H.
    rewrite Z.land_spec, E, Z.pow2_bits_true, Z.bits_0 in H by lia. done.
  - apply negb_false_iff, Z.eqb_eq. apply Z.bits_inj'. intros n Hn. rewrite Z.land_spec, Z.bits_0, Z.pow2_bits_eqb by lia.
    destruct (Z.eqb_spec 31 n) as [<-|]; [by rewrite E|apply andb_false_r].
Qed.

Lemma crc_shift_bit x : crc_shift x = bit_step x false.
Proof. unfold crc_shift, bit_step. rewrite top_bit, xorb_false_r, Z.shiftl_mul_pow2, Z.mul_comm by lia. done. Qed.

Lemma word32_testbit x n : word32 x → 32 ≤ n → Z.testbit x n = false.
Proof.
  intros Hx Hn. rewrite <-(wrap_small 32 x Hx), testbit_wrap by lia. by rewrite (proj2 (Z.ltb_ge _ _)) by lia.
Qed.

Lemma testbit_word32 x : 0 ≤ x → (∀ n, 32 ≤ n → Z.testbit x n = false) → word32 x.
Proof.
  intros Hx Hn. assert (x = wrap 32 x) as ->; [|apply wrap_range; lia].
  apply Z.bits_inj'. intros n H. rewrite testbit_wrap by lia. destruct (Z.ltb_spec n 32); [done|by apply Hn].
Qed.

Lemma word32_lxor x y : word32 x → word32 y → word32 (Z.lxor x y).
Proof.
  intros Hx Hy. apply testbit_word32; [apply Z.lxor_nonneg; unfold word32 in *; lia|].
  intros n Hn. by rewrite Z.lxor_spec, !word32_testbit.
Qed.

Lemma bit_step_word32 x b : word32 (bit_step x b).
Proof.
  unfold bit_step. assert (word32 (wrap 32 (2 * x))) by (apply wrap_range; lia).
  case_match; [|done]. by apply word32_lxor.
Qed.

(** The polynomial when the bit is set. *)
Definition when (b : bool) : Z := if b then CRC_POLYNOMIAL else 0.

Lemma bit_step_when x b : bit_step x b = Z.lxor (wrap 32 (2 * x)) (when (xorb (Z.testbit x 31) b)).
Proof. unfold bit_step, when. case_match; [done|]. by rewrite Z.lxor_0_r. Qed.

Lemma wrap_lxor w x y : 0 ≤ w → wrap w (Z.lxor x y) = Z.lxor (wrap w x) (wrap w y).
Proof.
  intros Hw. apply Z.bits_inj'. intros n Hn. rewrite Z.lxor_spec, !testbit_wrap, Z.lxor_spec by lia. by destruct (n <? w).
Qed.

Lemma double_lxor x y : 2 * Z.lxor x y = Z.lxor (2 * x) (2 * y).
Proof. rewrite !(Z.mul_comm 2), <-!(Z.shiftl_mul_pow2 _ 1) by lia. apply Z.shiftl_lxor. Qed.

Lemma when_xorb a b : when (xorb a b) = Z.lxor (when a) (when b).
Proof. destruct a, b; reflexivity. Qed.

(** The step is linear. *)
Lemma bit_step_lxor x y a b : bit_step (Z.lxor x y) (xorb a b) = Z.lxor (bit_step x a) (bit_step y b).
Proof.
  rewrite !bit_step_when, double_lxor, wrap_lxor, Z.lxor_spec by lia.
  assert (xorb (xorb (Z.testbit x 31) (Z.testbit y 31)) (xorb a b) = xorb (xorb (Z.testbit x 31) a) (xorb (Z.testbit y 31) b)) as ->
    by (destruct (Z.testbit x 31), (Z.testbit y 31), a, b; done).
  rewrite when_xorb. apply Z.bits_inj'. intros n Hn. rewrite !Z.lxor_spec. by repeat destruct (Z.testbit _ n).
Qed.

(** Nothing is lost: the bit that leaves decides the lowest bit. *)
Lemma bit_step_zero x : word32 x → bit_step x false = 0 → x = 0.
Proof.
  intros Hx H. rewrite bit_step_when, xorb_false_r in H.
  assert (Htop : Z.testbit x 31 = false).
  { apply (f_equal (λ z, Z.testbit z 0)) in H. rewrite Z.lxor_spec, testbit_wrap, Z.bits_0, Z.testbit_even_0 in H by lia.
    destruct (Z.testbit x 31); [|done]. cbn in H. discriminate. }
  rewrite Htop in H. cbn [when] in H. rewrite Z.lxor_0_r in H.
  apply Z.bits_inj'. intros n Hn. rewrite Z.bits_0. destruct (decide (n < 31)) as [Hlt|Hge].
  - apply (f_equal (λ z, Z.testbit z (Z.succ n))) in H. rewrite testbit_wrap, Z.bits_0, Z.testbit_even_succ in H by lia.
    rewrite (proj2 (Z.ltb_lt _ _)) in H by lia. done.
  - destruct (decide (n = 31)) as [->|]; [done|]. apply word32_testbit; [done|lia].
Qed.

(** ** Many steps *)

Abbreviation shift_step := (λ x, bit_step x false).
Abbreviation shifts k x := (Nat.iter k shift_step x).

Lemma shifts_word32 k x : word32 x → word32 (shifts k x).
Proof. destruct k; [done|]. intros _. apply bit_step_word32. Qed.

Lemma shifts_lxor k x y : shifts k (Z.lxor x y) = Z.lxor (shifts k x) (shifts k y).
Proof.
  induction k as [|k IH]; [done|]. cbn [Nat.iter nat_rect] in *. fold (shifts k (Z.lxor x y)) (shifts k x) (shifts k y) in *. rewrite IH.
  apply (bit_step_lxor _ _ false false).
Qed.

Lemma shifts_zero k x : word32 x → shifts k x = 0 → x = 0.
Proof.
  intros Hx. induction k as [|k IH]; [done|]. intros H. apply IH. apply bit_step_zero; [by apply shifts_word32|done].
Qed.

Lemma shifts_inj k x y : word32 x → word32 y → shifts k x = shifts k y → x = y.
Proof.
  intros Hx Hy H. apply Z.lxor_eq, (shifts_zero k); [by apply word32_lxor|]. by rewrite shifts_lxor, H, Z.lxor_nilpotent.
Qed.

Lemma shifts_r k x : shifts (S k) x = shifts k (bit_step x false).
Proof. exact (Nat.iter_succ_r k shift_step x). Qed.

(** A value that stays inside the register is only moved. *)
Lemma shifts_small k x : (k ≤ 32)%nat → 0 ≤ x < 2 ^ (32 - Z.of_nat k) → shifts k x = x * 2 ^ Z.of_nat k.
Proof.
  revert x; induction k as [|k IH]; intros x Hk Hx; [cbn; lia|]. rewrite shifts_r.
  assert (2 ^ (32 - Z.of_nat k) = 2 * 2 ^ (32 - Z.of_nat (S k))) as Hp by (rewrite <-Z.pow_succ_r by lia; f_equal; lia).
  assert (2 ^ (32 - Z.of_nat (S k)) ≤ 2 ^ 31) by (apply Z.pow_le_mono_r; lia).
  assert (bit_step x false = 2 * x) as ->.
  { rewrite bit_step_when, xorb_false_r, wrap_small by lia. rewrite <-(wrap_small 31 x), testbit_wrap by lia. cbn. by rewrite Z.lxor_0_r. }
  rewrite IH by lia. rewrite (Nat2Z.inj_succ k), Z.pow_succ_r by lia. lia.
Qed.

(** The bits of the message enter at the top of the register, the first one at [i]. *)
Fixpoint place (i : nat) (l : list bool) : Z :=
  match l with [] => 0 | b :: l => Z.lxor (if b then 2 ^ Z.of_nat i else 0) (place (i - 1) l) end.

Lemma place_range i l : (length l ≤ S i)%nat → 0 ≤ place i l < 2 ^ Z.of_nat (S i).
Proof.
  revert i; induction l as [|b l IH]; intros i Hl; cbn [place]; [lia|]. cbn in Hl.
  assert (0 ≤ place (i - 1) l < 2 ^ Z.of_nat (S i)).
  { destruct l as [|b' l]; [cbn; lia|]. cbn in Hl. pose proof (IH (i - 1)%nat) as H.
    replace (S (i - 1)) with i in H by lia. assert (2 ^ Z.of_nat i ≤ 2 ^ Z.of_nat (S i)) by (apply Z.pow_le_mono_r; lia). cbn in H |- *. lia. }
  assert (0 < 2 ^ Z.of_nat i < 2 ^ Z.of_nat (S i)) by (split; [lia|apply Z.pow_lt_mono_r; lia]).
  set (x := if b then _ else 0). assert (0 ≤ x < 2 ^ Z.of_nat (S i)) as Hx by (unfold x; destruct b; lia).
  rewrite <-(wrap_small _ _ Hx), <-(wrap_small _ _ H), <-wrap_lxor by lia. apply wrap_range; lia.
Qed.

Lemma place_word32 l : (length l ≤ 32)%nat → word32 (place 31 l).
Proof. apply (place_range 31). Qed.

(** The step moves the placed bits up. *)
Lemma place_step l : (length l ≤ 31)%nat → bit_step (place 30 l) false = place 31 l.
Proof.
  intros Hl. pose proof (place_range 30 l Hl) as Hr.
  rewrite bit_step_when, xorb_false_r, wrap_small by (change (2 ^ 32) with (2 * 2 ^ 31); change (Z.of_nat 31) with 31 in Hr; lia).
  rewrite <-(wrap_small 31 (place 30 l)), testbit_wrap by (done || lia). cbn [andb Z.ltb]. change (31 <? 31) with false. cbn [andb when].
  rewrite Z.lxor_0_r, wrap_small by done. assert (Hgen : ∀ i l, (length l ≤ S i)%nat → 2 * place i l = place (S i) l); [|by apply (Hgen 30%nat)].
  clear. intros i l. revert i; induction l as [|b l IH]; intros i Hl; cbn [place]; [done|]. cbn in Hl.
  rewrite double_lxor. f_equal; [destruct b; [|done]; by rewrite Nat2Z.inj_succ, Z.pow_succ_r by lia|].
  destruct l as [|b' l]; [done|]. cbn in Hl. rewrite IH by (cbn; lia). f_equal. lia.
Qed.

Lemma bit_step_top r b : bit_step r b = bit_step (Z.lxor r (if b then 2 ^ 31 else 0)) false.
Proof.
  destruct b; [|by rewrite Z.lxor_0_r]. rewrite <-(Z.lxor_0_r (bit_step r true)).
  change 0 with (bit_step (2 ^ 31) true). by rewrite <-bit_step_lxor.
Qed.

Lemma steps_place r l : word32 r → (length l ≤ 32)%nat → foldl bit_step r l = shifts (length l) (Z.lxor r (place 31 l)).
Proof.
  revert r; induction l as [|b l IH]; intros r Hr Hl; cbn [foldl length place]; [cbn; by rewrite Z.lxor_0_r|]. cbn in Hl.
  rewrite IH by (apply bit_step_word32 || lia). rewrite shifts_r. f_equal.
  rewrite <-(place_step l), bit_step_top, <-(bit_step_lxor _ _ false false), Z.lxor_assoc by lia. done.
Qed.

Lemma steps_word32 r l : word32 r → word32 (foldl bit_step r l).
Proof. revert r; induction l as [|b l IH]; intros r Hr; [done|]. apply IH, bit_step_word32. Qed.

Lemma steps_lxor x y l : Z.lxor (foldl bit_step x l) (foldl bit_step y l) = shifts (length l) (Z.lxor x y).
Proof.
  revert x y; induction l as [|b l IH]; intros x y; [done|]. cbn [foldl length]. rewrite IH, shifts_r. f_equal.
  rewrite <-bit_step_lxor. by rewrite xorb_nilpotent.
Qed.

Lemma steps_inj x y l : word32 x → word32 y → foldl bit_step x l = foldl bit_step y l → x = y.
Proof.
  intros Hx Hy H. apply Z.lxor_eq, (shifts_zero (length l)); [by apply word32_lxor|]. by rewrite <-steps_lxor, H, Z.lxor_nilpotent.
Qed.

Lemma place_inj i u v : length u = length v → (length u ≤ S i)%nat → place i u = place i v → u = v.
Proof.
  revert i v; induction u as [|a u IH]; intros i [|b v] Hl Hi H; try done. cbn in Hl, Hi, H.
  assert (Hpl : ∀ w : list bool, (length w ≤ i)%nat → Z.testbit (place (i - 1) w) (Z.of_nat i) = false).
  { intros w Hw. destruct w as [|c w]; [apply Z.bits_0|]. cbn [length] in Hw. pose proof (place_range (i - 1) (c :: w)) as Hr.
    replace (S (i - 1)) with i in Hr by lia. rewrite <-(wrap_small (Z.of_nat i) (place (i - 1) (c :: w))), testbit_wrap by (lia || (apply Hr; cbn; lia)).
    by rewrite Z.ltb_irrefl. }
  assert (a = b) as ->.
  { apply (f_equal (λ z, Z.testbit z (Z.of_nat i))) in H. rewrite !Z.lxor_spec, !Hpl, !xorb_false_r in H by lia.
    destruct a, b; rewrite ?Z.pow2_bits_true, ?Z.bits_0 in H by lia; done. }
  f_equal. destruct u as [|c u]; [by destruct v|]. apply (IH (i - 1)%nat); [lia|cbn in *; lia|].
  apply (f_equal (Z.lxor (if b then 2 ^ Z.of_nat i else 0))) in H. by rewrite <-!Z.lxor_assoc, !Z.lxor_nilpotent, !Z.lxor_0_l in H.
Qed.

(** ** The table *)

Definition ready (g : globals) : Prop := initialized g = true ∧ ∀ i, (i < 256)%nat → table g !! i = Some (table_entry i).

(** Before the first call, or after it. *)
Definition crc_globals_ok (g : globals) : Prop := if initialized g then ready g else length (table g) = 256%nat.

Lemma fill_table (t : list Z) n : (n ≤ length t)%nat →
  let t' := foldl (λ t i, <[i := table_entry i]> t) t (seq 0 n) in
  length t' = length t ∧ ∀ i, (i < n)%nat → t' !! i = Some (table_entry i).
Proof.
  induction n as [|n IH]; intros Hn; [split; [done|lia]|]. destruct IH as [Hl Ht]; [lia|].
  rewrite seq_S, foldl_app. cbn [foldl Nat.add]. split; [by rewrite length_insert|]. intros i Hi.
  destruct (decide (i = n)) as [->|]; [apply list_lookup_insert_eq; lia|]. rewrite list_lookup_insert_ne by done. apply Ht. lia.
Qed.

Lemma initialize_once_ready g : crc_globals_ok g → ready (initialize_once g).
Proof.
  unfold crc_globals_ok, initialize_once. destruct (initialized g) eqn:E; [done|]. intros Hl.
  split; [done|]. apply (fill_table (table g) 256). lia.
Qed.

Lemma byte_index b : byte b → ∃ n, (n < 256)%nat ∧ b = Z.of_nat n.
Proof. intros H. exists (Z.to_nat b). unfold byte in H. lia. Qed.

Lemma place_byte b : byte b → place 31 (byte_bits b) = Z.shiftl b 24.
Proof.
  intros (n & Hn & ->)%byte_index. assert (H : Forall (λ n, place 31 (byte_bits (Z.of_nat n)) = Z.shiftl (Z.of_nat n) 24) (seq 0 256)).
  { by_evaluation. }
  rewrite Forall_forall in H. apply H, elem_of_seq. lia.
Qed.

Lemma byte_steps r b : word32 r → byte b → foldl bit_step r (byte_bits b) = shifts 8 (Z.lxor r (Z.shiftl b 24)).
Proof. intros Hr Hb. rewrite steps_place, place_byte by (done || (cbn; lia)). done. Qed.

Lemma table_entry_shifts n : (n < 256)%nat → table_entry n = shifts 8 (Z.shiftl (Z.of_nat n) 24).
Proof.
  intros Hn. unfold table_entry. rewrite wrap_small by (rewrite Z.shiftl_mul_pow2 by lia; lia).
  generalize (Z.shiftl (Z.of_nat n) 24). intros x.
  assert (H : ∀ k, Nat.iter k crc_shift x = shifts k x); [|apply H].
  intros k; induction k as [|k IH]; [done|]. rewrite !Nat.iter_succ, IH. apply crc_shift_bit.
Qed.

(** The register and the byte, split at the byte that leaves. *)
Lemma register_split r b : word32 r → byte b →
  byte (Z.lxor (Z.shiftr r 24) b) ∧
  Z.lxor r (Z.shiftl b 24) = Z.lxor (Z.shiftl (Z.lxor (Z.shiftr r 24) b) 24) (wrap 24 r).
Proof.
  intros Hr Hb. split.
  - assert (H : byte (Z.shiftr r 24)).
    { unfold byte, word32 in *. rewrite Z.shiftr_div_pow2 by lia. split; [apply Z.div_pos; lia|apply Z.div_lt_upper_bound; lia]. }
    unfold byte in *. rewrite <-(wrap_small 8 b), <-(wrap_small 8 (Z.shiftr r 24)), <-wrap_lxor by lia. apply wrap_range. lia.
  - apply Z.bits_inj'. intros n Hn. rewrite !Z.lxor_spec, testbit_wrap by lia. destruct (Z.ltb_spec n 24).
    + rewrite !Z.shiftl_spec_low by lia. cbn. by rewrite xorb_false_r.
    + rewrite !Z.shiftl_spec, Z.lxor_spec, Z.shiftr_spec by lia. replace (n - 24 + 24) with n by lia. cbn. by rewrite xorb_false_r.
Qed.

Lemma crc_byte_ok g r b : ready g → word32 r → byte b → crc_byte g r b = Some (foldl bit_step r (byte_bits b)).
Proof.
  intros [_ Hg] Hr Hb. destruct (register_split r b Hr Hb) as [Hi Hsplit]. unfold crc_byte.
  change 255 with (Z.ones 8). rewrite Z.land_ones by lia. fold (wrap 8 (Z.lxor (Z.shiftr r 24) b)). rewrite (wrap_small 8 _ Hi).
  rewrite byte_steps, Hsplit, shifts_lxor by done. destruct (byte_index _ Hi) as (n & Hn & E). rewrite E, Nat2Z.id, Hg by done. run.
  f_equal. rewrite table_entry_shifts, Z.lxor_comm by done. f_equal.
  rewrite shifts_small by (lia || (apply wrap_range; lia)). rewrite Z.shiftl_mul_pow2 by lia. unfold wrap.
  change (2 ^ Z.of_nat 8) with (2 ^ 8). change (2 ^ 32) with (2 ^ 24 * 2 ^ 8). rewrite Zmult_mod_distr_r. done.
Qed.

Lemma crc_reference_cons r b bs : crc_reference r (b :: bs) = crc_reference (foldl bit_step r (byte_bits b)) bs.
Proof. unfold crc_reference. cbn [mbind list_bind]. by rewrite foldl_app. Qed.

Lemma crc_reference_app r a b : crc_reference r (a ++ b) = crc_reference (crc_reference r a) b.
Proof. unfold crc_reference. by rewrite bind_app, foldl_app. Qed.

Lemma crc_reference_word32 r bs : word32 r → word32 (crc_reference r bs).
Proof. apply steps_word32. Qed.

Lemma crc_bytes_ok g r bs : ready g → word32 r → Forall byte bs → crc_bytes g r bs = Some (crc_reference r bs).
Proof.
  intros Hg Hr Hbs. revert r Hr. induction Hbs as [|b bs Hb Hbs IH]; intros r Hr; [done|]. cbn [crc_bytes].
  rewrite crc_byte_ok by done. run. rewrite crc_reference_cons. by apply IH, steps_word32.
Qed.

(** ** The loops *)

Section call.
Context (source_addr destination_addr : Z) (source : list Z) (g : globals).
Context (Hbytes : Forall byte source) (Hg : ready g).

(** The next [n] bytes have gone through the register. *)
Definition advance (copy : bool) (n : nat) (s : crc_state) : crc_state :=
  let bs := take n (drop (src s) source) in
  mk_crc (crc_reference (crc s) bs) (src s + n) (if copy then out s ++ bs else out s).

Lemma advance_0 copy s : advance copy 0 s = s.
Proof. unfold advance. rewrite Nat.add_0_r, take_0, app_nil_r. destruct s, copy; done. Qed.

Lemma advance_add copy n m s : advance copy (n + m) s = advance copy m (advance copy n s).
Proof.
  unfold advance. cbn [crc src out]. rewrite <-(take_take_drop (drop (src s) source) n m), drop_drop, crc_reference_app, Nat.add_assoc.
  f_equal. destruct copy; [|done]. by rewrite app_assoc.
Qed.

Lemma advance_word32 copy n s : word32 (crc s) → word32 (crc (advance copy n s)).
Proof. apply crc_reference_word32. Qed.

Lemma byte_loop_ok copy n s : word32 (crc s) → (src s + n ≤ length source)%nat → byte_loop source g copy n s = Some (advance copy n s).
Proof.
  revert s; induction n as [|n IH]; intros s Hs Hn; [by rewrite advance_0|]. cbn [byte_loop].
  destruct (lookup_lt_is_Some_2 source (src s)) as [t Ht]; [lia|]. rewrite Ht. run.
  rewrite crc_byte_ok by (done || by eapply Forall_lookup_1). run. change (S n) with (1 + n)%nat. rewrite advance_add.
  assert (mk_crc (foldl bit_step (crc s) (byte_bits t)) (S (src s)) (if copy then out s ++ [t] else out s) = advance copy 1 s) as ->.
  { unfold advance. rewrite (drop_S source t) by done. cbn [take]. rewrite Nat.add_1_r. done. }
  apply IH; [by apply advance_word32|cbn; lia].
Qed.

Lemma int_loop_ok copy fuel n s : word32 (crc s) → (src s + n ≤ length source)%nat → (n < fuel)%nat →
  Checksum.aligned 4 (source_addr + Z.of_nat (src s)) = true →
  (copy = true → Checksum.aligned 4 (destination_addr + Z.of_nat (length (out s))) = true) →
  ∃ k, int_loop source_addr destination_addr source g copy fuel n s = Some (advance copy k s, (n - k)%nat) ∧ (k ≤ n)%nat.
Proof.
  revert n s; induction fuel as [|f IH]; intros n s Hs Hn Hf Ha Hd; [lia|]. cbn [int_loop].
  destruct (Nat.leb_spec 4 n); [|exists 0%nat; rewrite advance_0, Nat.sub_0_r; split; [done|lia]].
  rewrite Ha. replace (negb copy || _) with true by (destruct copy; [by rewrite Hd|done]). unfold Checksum.read.
  rewrite (proj2 (Nat.leb_le _ _)) by lia. run.
  rewrite crc_bytes_ok by (done || by apply Forall_take, Forall_drop). run. fold (advance copy 4 s).
  assert (Hnext : ∀ v, Checksum.aligned 4 v = true → Checksum.aligned 4 (v + 4) = true) by (apply (ChecksumSpec.aligned_next 4 2); done).
  destruct (IH (n - 4)%nat (advance copy 4 s)) as (k & -> & Hk).
  - by apply advance_word32.
  - cbn. lia.
  - lia.
  - cbn [advance src]. rewrite Nat2Z.inj_add, Z.add_assoc. by apply Hnext.
  - intros ->. cbn [advance out]. rewrite length_app, length_take_le by (rewrite length_drop; lia).
    rewrite Nat2Z.inj_add, Z.add_assoc. by apply Hnext, Hd.
  - exists (4 + k)%nat. rewrite advance_add. split; [|lia]. do 2 f_equal. lia.
Qed.

End call.

Lemma uicrc_partial_ok source_addr destination_addr source g r crclen :
  Forall byte source → crc_globals_ok g → word32 r → (crclen ≤ length source)%nat →
  opal_uicrc_partial source_addr destination_addr source g crclen r = Some (initialize_once g, crc_reference r (take crclen source)).
Proof.
  intros Hb Hg%initialize_once_ready Hr Hl. unfold opal_uicrc_partial. destruct (Checksum.aligned 4 source_addr) eqn:Hs.
  - destruct (int_loop_ok source_addr destination_addr source _ Hb Hg false (S crclen) crclen (mk_crc r 0 [])) as (k & -> & Hk);
      [done|cbn; lia|lia|by rewrite Z.add_0_r|done|]. run.
    rewrite byte_loop_ok by (done || (cbn; lia) || by apply advance_word32). run. rewrite <-advance_add.
    by replace (k + (crclen - k))%nat with crclen by lia.
  - by rewrite byte_loop_ok by (done || (cbn; lia)).
Qed.

(** C27: for every alignment and length, whatever the globals before the first call
    are, both functions compute the bitwise division of the bytes from the register
    given, [opal_bcopy_uicrc_partial] copies exactly the bytes to copy, and no access
    is misaligned or outside the source; the table is ready afterwards.  As the
    reference is a fold, any split into calls gives the CRC of the whole. *)
Theorem crc_equiv source_addr destination_addr source g r copylen crclen :
  Forall byte source → crc_globals_ok g → word32 r → (copylen `max` crclen ≤ length source)%nat →
  opal_bcopy_uicrc_partial source_addr destination_addr source g copylen crclen r =
    Some (initialize_once g, crc_reference r (take (copylen `max` crclen) source), take copylen source) ∧
  opal_uicrc_partial source_addr destination_addr source g crclen r = Some (initialize_once g, crc_reference r (take crclen source)) ∧
  crc_globals_ok (initialize_once g).
Proof.
  intros Hb Hg0 Hr Hl. pose proof (initialize_once_ready g Hg0) as Hg. set (s0 := mk_crc r 0 []).
  assert (Hinit : crc_globals_ok (initialize_once g)) by (unfold crc_globals_ok; by rewrite (proj1 Hg)).
  assert (Htot : advance source false (crclen - copylen) (advance source true copylen s0)
    = mk_crc (crc_reference r (take (copylen `max` crclen) source)) (copylen + (crclen - copylen)) (take copylen source)).
  { unfold advance. cbn [s0 crc src out Nat.add]. rewrite drop_0, <-crc_reference_app, take_take_drop. cbn. f_equal. do 2 f_equal. lia. }
  split_and!; [|apply uicrc_partial_ok; done || lia|done].
  unfold opal_bcopy_uicrc_partial. fold s0. destruct (_ && _) eqn:Ha.
  - apply andb_prop in Ha as [Hs Hd].
      destruct (int_loop_ok source_addr destination_addr source _ Hb Hg true (S copylen) copylen s0) as (k & -> & Hk);
        [done|cbn; lia|lia|by rewrite Z.add_0_r|intros _; by rewrite Z.add_0_r|]. run.
      rewrite byte_loop_ok by (done || (cbn; lia) || by apply advance_word32). run. rewrite <-advance_add.
      replace (k + (copylen - k))%nat with copylen by lia.
      rewrite byte_loop_ok by (done || (cbn; lia) || by apply advance_word32). run. by rewrite Htot.
  - rewrite byte_loop_ok by (done || (cbn; lia)). run.
      rewrite byte_loop_ok by (done || (cbn; lia) || by apply advance_word32). run. by rewrite Htot.
Qed.

(** ** The remainder *)

(** Polynomials over the field of two elements, as the bits of an integer: the value
    of a bit string, and the product of one with [p] (additions are exclusive ors). *)
Definition poly (l : list bool) : Z := foldl (λ a b, 2 * a + Z.b2z b) 0 l.
Definition clmul (q : list bool) (p : Z) : Z := foldl (λ (a : Z) (b : bool), Z.lxor (2 * a) (if b then p else 0)) 0 q.

(** x^32 plus the polynomial of the table. *)
Definition GENERATOR : Z := 2 ^ 32 + CRC_POLYNOMIAL.

Lemma double_split r b : word32 r →
  Z.lxor (2 * r) (Z.shiftl (Z.b2z b) 32) = Z.lxor (if xorb (Z.testbit r 31) b then 2 ^ 32 else 0) (wrap 32 (2 * r)).
Proof.
  intros Hr. apply Z.bits_inj'. intros n Hn. rewrite !Z.lxor_spec, testbit_wrap by lia.
  assert (Hb : Z.testbit (Z.shiftl (Z.b2z b) 32) n = (n =? 32) && b).
  { destruct b; cbn [Z.b2z]; [|by rewrite Z.shiftl_0_l, Z.bits_0, andb_false_r].
    rewrite Z.shiftl_1_l, Z.pow2_bits_eqb, Z.eqb_sym by lia. by rewrite andb_true_r. }
  assert (Ht : Z.testbit (if xorb (Z.testbit r 31) b then 2 ^ 32 else 0) n = (n =? 32) && xorb (Z.testbit r 31) b).
  { destruct (xorb _ _); [|by rewrite Z.bits_0, andb_false_r]. rewrite Z.pow2_bits_eqb, Z.eqb_sym by lia. by rewrite andb_true_r. }
  rewrite Hb, Ht. destruct (Z.ltb_spec n 32) as [Hlt|Hge].
  { rewrite (proj2 (Z.eqb_neq _ _)) by lia. cbn. by rewrite xorb_false_r. }
  replace n with (Z.succ (n - 1)) at 1 by lia. rewrite Z.testbit_even_succ by lia.
  destruct (Z.eqb_spec n 32) as [->|]; cbn; [by rewrite xorb_false_r|]. by rewrite word32_testbit by (done || lia).
Qed.

Lemma poly_snoc l b : Z.shiftl (poly (l ++ [b])) 32 = Z.lxor (2 * Z.shiftl (poly l) 32) (Z.shiftl (Z.b2z b) 32).
Proof.
  unfold poly. rewrite foldl_app. cbn [foldl]. set (a := foldl _ 0 l).
  assert (2 * a + Z.b2z b = Z.lxor (2 * a) (Z.b2z b)) as ->.
  { apply Z.add_nocarry_lxor. apply Z.bits_inj'. intros n Hn. rewrite Z.land_spec, Z.bits_0.
    destruct (decide (n = 0)) as [->|]; [by rewrite Z.testbit_even_0|].
    destruct b; cbn [Z.b2z]; [|by rewrite Z.bits_0, andb_false_r]. rewrite (Z.pow2_bits_false 0) by lia. apply andb_false_r. }
  rewrite Z.shiftl_lxor. f_equal.
Qed.

(** Division with remainder: the message, moved up by 32 bits, with the initial
    register at its top, is a multiple of the generator plus the final register. *)
Lemma steps_divide r l : word32 r →
  ∃ q, length q = length l ∧
    Z.lxor (Z.shiftl (poly l) 32) (Z.shiftl r (Z.of_nat (length l))) = Z.lxor (clmul q GENERATOR) (foldl bit_step r l).
Proof.
  intros Hr. induction l as [|b l IH] using rev_ind.
  { exists []. split; [done|]. cbn. by rewrite Z.shiftl_0_r. }
  destruct IH as (q & Hq & IH). set (c := foldl bit_step r l) in *. assert (Hc : word32 c) by by apply steps_word32.
  set (top := xorb (Z.testbit c 31) b). exists (q ++ [top]). split; [by rewrite !length_app, Hq|].
  rewrite foldl_app, poly_snoc, length_app. cbn [foldl length]. fold c.
  replace (Z.shiftl r (Z.of_nat (length l + 1))) with (2 * Z.shiftl r (Z.of_nat (length l)))
    by (rewrite !Z.shiftl_mul_pow2, Nat2Z.inj_add, Z.pow_add_r by lia; lia).
  rewrite Z.lxor_assoc, (Z.lxor_comm (Z.shiftl (Z.b2z b) 32)), <-Z.lxor_assoc, <-double_lxor, IH, double_lxor.
  rewrite Z.lxor_assoc, double_split by done. fold top. unfold clmul. rewrite foldl_app. cbn [foldl]. rewrite Z.lxor_assoc. f_equal.
  rewrite bit_step_when. fold top. unfold when. destruct top; [|by rewrite Z.lxor_0_r].
  rewrite (Z.lxor_comm (wrap _ _)), <-Z.lxor_assoc. f_equal.
Qed.

Lemma length_bits bs : length (bs ≫= byte_bits) = (8 * length bs)%nat.
Proof. induction bs as [|b bs IH]; [done|]. rewrite bind_cons, length_app, IH. cbn. lia. Qed.

(** The CRC of a buffer is the remainder of the polynomial division of the
    message by the generator x^32 + x^26 + ... + 1: the 32-bit result differs from the
    message moved up by 32 bits (its first 32 bits inverted by the initial register) by a multiple
    of the generator. *)
Theorem crc_remainder source_addr destination_addr source g :
  Forall byte source → crc_globals_ok g →
  ∃ g' c q, opal_uicrc source_addr destination_addr source g (length source) = Some (g', c) ∧ word32 c ∧
    Z.lxor (Z.shiftl (poly (source ≫= byte_bits)) 32) (Z.shiftl CRC_INITIAL_REGISTER (8 * Z.of_nat (length source))) =
    Z.lxor (clmul q GENERATOR) c.
Proof.
  intros Hb Hg. unfold opal_uicrc. rewrite uicrc_partial_ok, take_ge by done || lia.
  destruct (steps_divide CRC_INITIAL_REGISTER (source ≫= byte_bits)) as (q & _ & Hq); [done|].
  eexists _, _, q. split; [done|]. split; [by apply crc_reference_word32|].
  unfold crc_reference. rewrite <-Hq, length_bits, Nat2Z.inj_mul. done.
Qed.

(** C37: error detection.  Two messages of the same length that differ only within 32
    consecutive bits (a burst of errors) have different CRCs, wherever the sender and the
    receiver keep them and whatever calls were made before. *)
Theorem crc_detects_bursts addr1 addr2 d1 d2 m1 m2 g1 g2 a u v z :
  Forall byte m1 → Forall byte m2 → crc_globals_ok g1 → crc_globals_ok g2 →
  m1 ≫= byte_bits = a ++ u ++ z → m2 ≫= byte_bits = a ++ v ++ z → length u = length v → (length u ≤ 32)%nat → u ≠ v →
  ∃ g1' g2' c1 c2, opal_uicrc addr1 d1 m1 g1 (length m1) = Some (g1', c1) ∧ opal_uicrc addr2 d2 m2 g2 (length m2) = Some (g2', c2) ∧ c1 ≠ c2.
Proof.
  intros Hb1 Hb2 Hg1 Hg2 H1 H2 Hl Hu Hne. unfold opal_uicrc. rewrite !uicrc_partial_ok, !take_ge by done || lia.
  do 4 eexists. split; [done|]. split; [done|]. unfold crc_reference. rewrite H1, H2, !foldl_app. intros Heq.
  set (r := foldl bit_step CRC_INITIAL_REGISTER a) in *. assert (Hr : word32 r) by by apply steps_word32.
  apply steps_inj in Heq; [|by apply steps_word32..]. rewrite !steps_place, Hl in Heq by done || lia.
  apply shifts_inj in Heq; [|by apply word32_lxor, place_word32; [|lia]..].
  apply (f_equal (Z.lxor r)) in Heq. rewrite <-!Z.lxor_assoc, Z.lxor_nilpotent, !Z.lxor_0_l in Heq.
  by apply place_inj in Heq.
Qed.

(** ** Instances *)

Lemma bytes_ok (l : list Z) : forallb (λ b, (0 <=? b) && (b <? 256)) l = true → Forall byte l.
Proof.
  intros H. apply Forall_forall. intros b Hb. rewrite forallb_forall in H. apply list_elem_of_In in Hb.
  specialize (H b Hb). unfold byte. lia.
Qed.

Lemma crc_equiv_witness :
  opal_bcopy_uicrc_partial 4096 512 [49; 50; 51; 52; 53; 54; 55; 56; 57] crc_start 6 9 CRC_INITIAL_REGISTER =
    Some (initialize_once crc_start, 0x0376e6e7, [49; 50; 51; 52; 53; 54]) ∧
  opal_uicrc_partial 4096 512 [49; 50; 51; 52; 53; 54; 55; 56; 57] crc_start 9 CRC_INITIAL_REGISTER = Some (initialize_once crc_start, 0x0376e6e7) ∧
  crc_globals_ok (initialize_once crc_start).
Proof.
  replace 0x0376e6e7 with (crc_reference CRC_INITIAL_REGISTER [49; 50; 51; 52; 53; 54; 55; 56; 57]) by (vm_compute; reflexivity).
  apply (crc_equiv 4096 512 [49; 50; 51; 52; 53; 54; 55; 56; 57] crc_start CRC_INITIAL_REGISTER 6 9);
    [apply bytes_ok; reflexivity|reflexivity|done|cbn; lia].
Defined.

Lemma crc_remainder_witness :
  ∃ g' c q, opal_uicrc 4097 0 [49; 50; 51] crc_start 3 = Some (g', c) ∧ word32 c ∧
    Z.lxor (Z.shiftl (poly ([49; 50; 51] ≫= byte_bits)) 32) (Z.shiftl CRC_INITIAL_REGISTER 24) = Z.lxor (clmul q GENERATOR) c.
Proof. apply (crc_remainder 4097 0 [49; 50; 51] crc_start); [apply bytes_ok; reflexivity|reflexivity]. Defined.

Lemma crc_detects_bursts_witness :
  ∃ g1' g2' c1 c2, opal_uicrc 4096 0 [1; 2; 3] crc_start 3 = Some (g1', c1) ∧ opal_uicrc 511 0 [1; 253; 3] crc_start 3 = Some (g2', c2) ∧ c1 ≠ c2.
Proof.
  apply (crc_detects_bursts 4096 511 0 0 [1; 2; 3] [1; 253; 3] crc_start crc_start (byte_bits 1) (byte_bits 2) (byte_bits 253) (byte_bits 3));
    [apply bytes_ok; reflexivity|apply bytes_ok; reflexivity|reflexivity..|cbn; lia|discriminate].
Defined.

End CrcSpec.
