(* ===== verification/BitOps.v ===== *)
(** * Bit operations on ranks and sizes ([opal/util/bit_ops.h])

    Each function has two bodies, one with [__builtin_clz] and one with a loop, chosen at
    configuration; both are modelled and they are the same.  [clz] is a parameter of the
    first: the number of leading zeros of a nonzero [int] of [bits] bits.  The
    arguments are nonnegative, as they are ranks and sizes. *)

From stdpp Require Import base numbers list.
From S2P Require Import Prelude.

Module BitOps.

Definition bits : nat := 32.

(** [__builtin_clz] of a nonzero value below [2^bits]. *)
Definition builtin_clz (value : nat) : nat := bits - 1 - Nat.log2 value.

(** [None] is [-1]. *)
Definition opal_hibit (value start : nat) : option nat :=
  let mask := Nat.land value (2 ^ start - 1) in
  if mask =? 0 then None else Some (bits - 1 - builtin_clz mask).

(** The loop, with [start] counting down. *)
Fixpoint opal_hibit_loop (value start : nat) : option nat :=
  match start with
  | O => None
  | S start => if negb (Nat.land value (2 ^ start) =? 0) then Some start else opal_hibit_loop value start
  end.

Definition opal_cube_dim (value : nat) : nat := if value <=? 1 then 0 else bits - builtin_clz (value - 1).

Fixpoint cube_loop (fuel dim size value : nat) : option nat :=
  match fuel with O => None | S f => if size <? value then cube_loop f (S dim) (2 * size) value else Some dim end.
Definition opal_cube_dim_loop (value : nat) : option nat := cube_loop (S value) 0 1 value.

Definition opal_next_poweroftwo (value : nat) : nat := if value =? 0 then 1 else 2 ^ (bits - builtin_clz value).

Fixpoint poweroftwo_loop (fuel value power2 : nat) : option nat :=
  match fuel with O => None | S f => if 0 <? value then poweroftwo_loop f (Nat.div2 value) (2 * power2) else Some power2 end.
Definition opal_next_poweroftwo_loop (value : nat) : option nat := poweroftwo_loop (S value) value 1.

Definition opal_next_poweroftwo_inclusive (value : nat) : nat := if value <=? 1 then 1 else 2 ^ (bits - builtin_clz (value - 1)).

Fixpoint inclusive_loop (fuel power2 value : nat) : option nat :=
  match fuel with O => None | S f => if power2 <? value then inclusive_loop f (2 * power2) value else Some power2 end.
Definition opal_next_poweroftwo_inclusive_loop (value : nat) : option nat := inclusive_loop (S value) 1 value.

(** Sizes of communicators for which all powers of two in use are [int]s. *)
Definition max_ranks : nat := 2 ^ (bits - 2).

(** A value that is an [int]. *)
Definition fits (x : nat) : bool := (Z.of_nat x <? 2 ^ 31)%Z.

(** ** Powers of two *)

Lemma pow2_pos m : 0 < 2 ^ m.
Proof. apply Nat.neq_0_lt_0, Nat.pow_nonzero. lia. Qed.

Lemma lxor_pow2 q m : Nat.lxor q (2 ^ m) = if Nat.testbit q m then q - 2 ^ m else q + 2 ^ m.
Proof.
  assert (Hclear : ∀ p, Nat.testbit p m = false → Nat.lxor p (2 ^ m) = p + 2 ^ m).
  { intros p Hp. symmetry. apply Nat.add_nocarry_lxor. apply Nat.bits_inj. intros n. rewrite Nat.land_spec, Nat.bits_0, Nat.pow2_bits_eqb.
    destruct (Nat.eqb_spec m n) as [<-|]; [by rewrite Hp|apply andb_false_r]. }
  destruct (Nat.testbit q m) eqn:E; [|by apply Hclear].
  assert (Hb : Nat.testbit (Nat.lxor q (2 ^ m)) m = false) by (by rewrite Nat.lxor_spec, E, Nat.pow2_bits_true).
  apply Hclear in Hb. rewrite Nat.lxor_assoc, Nat.lxor_nilpotent, Nat.lxor_0_r in Hb. lia.
Qed.

Lemma testbit_small q m : q < 2 ^ m → Nat.testbit q m = false.
Proof.
  intros H. destruct (decide (q = 0)) as [->|]; [apply Nat.bits_0|]. apply Nat.bits_above_log2, Nat.log2_lt_pow2; lia.
Qed.

Lemma log2_lt_bits v : 0 < v → v < 2 ^ bits → Nat.log2 v < bits.
Proof. intros Hv Hlt. by apply Nat.log2_lt_pow2. Qed.

Lemma max_ranks_eq : max_ranks = 2 ^ (bits - 2).
Proof. done. Qed.

Lemma max_ranks_bits : max_ranks ≤ 2 ^ (bits - 1) ∧ max_ranks ≤ 2 ^ bits.
Proof. unfold max_ranks. split; apply Nat.pow_le_mono_r; lia. Qed.

Lemma small_size k n : n < 2 ^ k → k ≤ bits - 2 → n < max_ranks.
Proof. intros Hn Hk. eapply Nat.lt_le_trans; [exact Hn|]. apply Nat.pow_le_mono_r; lia. Qed.

Lemma max_ranks_Z : Z.of_nat max_ranks = (2 ^ 30)%Z.
Proof. unfold max_ranks. by rewrite Nat2Z.inj_pow. Qed.

#[global] Opaque max_ranks.

Lemma fits_iff x : fits x = true ↔ x < 2 * max_ranks.
Proof. unfold fits. rewrite Z.ltb_lt. pose proof max_ranks_Z. change (2 ^ 31)%Z with (2 * 2 ^ 30)%Z. lia. Qed.

(** The next power of two above a value. *)
Lemma next_poweroftwo_log2 v : v < 2 ^ bits → opal_next_poweroftwo v = if v =? 0 then 1 else 2 ^ S (Nat.log2 v).
Proof.
  intros Hlt. unfold opal_next_poweroftwo, builtin_clz. destruct (Nat.eqb_spec v 0); [done|].
  pose proof (log2_lt_bits v ltac:(lia) Hlt). f_equal. lia.
Qed.

Lemma next_poweroftwo_inclusive_log2_up v : v ≤ 2 ^ bits → opal_next_poweroftwo_inclusive v = 2 ^ Nat.log2_up v.
Proof.
  intros Hlt. unfold opal_next_poweroftwo_inclusive, builtin_clz. destruct (Nat.leb_spec v 1) as [H|H].
  - by rewrite Nat.log2_up_eqn0 by done.
  - rewrite (Nat.log2_up_eqn v) by done. pose proof (log2_lt_bits (v - 1) ltac:(lia) ltac:(lia)). rewrite <-Nat.sub_1_r. f_equal. lia.
Qed.

(** ** The two bodies agree *)

Lemma land_low v s : Nat.land v (2 ^ s - 1) = v mod 2 ^ s.
Proof. rewrite <-Nat.land_ones. f_equal. rewrite Nat.ones_equiv. lia. Qed.

Lemma land_pow2 v s : (Nat.land v (2 ^ s) =? 0) = negb (Nat.testbit v s).
Proof.
  destruct (Nat.testbit v s) eqn:E.
  - apply Nat.eqb_neq. intros H. apply (f_equal (λ x, Nat.testbit x s)) in H. by rewrite Nat.land_spec, E, Nat.pow2_bits_true, Nat.bits_0 in H.
  - apply Nat.eqb_eq, Nat.bits_inj. intros m. rewrite Nat.land_spec, Nat.bits_0, Nat.pow2_bits_eqb.
    destruct (Nat.eqb_spec s m) as [->|]; [by rewrite E|by rewrite andb_false_r].
Qed.

Lemma mod_pow2_S v s : v mod 2 ^ S s = v mod 2 ^ s + (if Nat.testbit v s then 2 ^ s else 0).
Proof.
  rewrite Nat.pow_succ_r', (Nat.mul_comm 2), Nat.Div0.mod_mul_r. f_equal. destruct (Nat.testbit v s) eqn:E.
  - apply Nat.testbit_true in E. rewrite E. lia.
  - apply Nat.testbit_false in E. rewrite E. lia.
Qed.

Lemma hibit_loop_log2 v s : opal_hibit_loop v s = if v mod 2 ^ s =? 0 then None else Some (Nat.log2 (v mod 2 ^ s)).
Proof.
  induction s as [|s IH]; [done|]. cbn [opal_hibit_loop]. rewrite land_pow2, negb_involutive, mod_pow2_S. pose proof (pow2_pos s).
  destruct (Nat.testbit v s); [|by rewrite Nat.add_0_r]. rewrite (proj2 (Nat.eqb_neq _ _)) by lia. f_equal.
  pose proof (Nat.mod_upper_bound v (2 ^ s)). symmetry. apply Nat.log2_unique; rewrite ?Nat.pow_succ_r'; lia.
Qed.

Lemma hibit_equiv v start : start ≤ bits → opal_hibit v start = opal_hibit_loop v start.
Proof.
  intros Hs. rewrite hibit_loop_log2. unfold opal_hibit, builtin_clz. rewrite land_low. destruct (Nat.eqb_spec (v mod 2 ^ start) 0); [done|].
  pose proof (Nat.mod_upper_bound v (2 ^ start)). pose proof (pow2_pos start). pose proof (Nat.pow_le_mono_r 2 start bits ltac:(lia) Hs).
  pose proof (log2_lt_bits (v mod 2 ^ start) ltac:(lia) ltac:(lia)). f_equal. lia.
Qed.

Lemma cube_loop_log2_up f d v : d ≤ Nat.log2_up v → Nat.log2_up v - d < f → cube_loop f d (2 ^ d) v = Some (Nat.log2_up v).
Proof.
  revert d; induction f as [|f IH]; intros d Hd Hf; [lia|]. cbn [cube_loop]. destruct (Nat.ltb_spec (2 ^ d) v) as [Hlt|Hge].
  - rewrite <-Nat.pow_succ_r'. apply Nat.log2_up_lt_pow2 in Hlt; [|lia]. apply IH; lia.
  - f_equal. destruct (decide (v = 0)) as [->|]; [by cbn in Hd; apply Nat.le_0_r in Hd|]. apply Nat.log2_up_le_pow2 in Hge; lia.
Qed.

Lemma inclusive_loop_log2_up f d v : d ≤ Nat.log2_up v → Nat.log2_up v - d < f → inclusive_loop f (2 ^ d) v = Some (2 ^ Nat.log2_up v).
Proof.
  revert d; induction f as [|f IH]; intros d Hd Hf; [lia|]. cbn [inclusive_loop]. destruct (Nat.ltb_spec (2 ^ d) v) as [Hlt|Hge].
  - rewrite <-Nat.pow_succ_r'. apply Nat.log2_up_lt_pow2 in Hlt; [|lia]. apply IH; lia.
  - do 2 f_equal. destruct (decide (v = 0)) as [->|]; [by cbn in Hd; apply Nat.le_0_r in Hd|]. apply Nat.log2_up_le_pow2 in Hge; lia.
Qed.

Lemma poweroftwo_loop_log2 f v p : v < f → poweroftwo_loop f v p = Some (p * if v =? 0 then 1 else 2 ^ S (Nat.log2 v)).
Proof.
  revert v p; induction f as [|f IH]; intros v p Hv; [lia|]. cbn [poweroftwo_loop]. destruct (Nat.ltb_spec 0 v) as [Hpos|]; [|by replace v with 0 by lia; rewrite Nat.mul_1_r].
  assert (Nat.div2 v < v) by (apply Nat.lt_div2; lia). rewrite IH, (proj2 (Nat.eqb_neq v 0)) by lia. f_equal. rewrite <-Nat.mul_assoc, (Nat.mul_comm 2), <-Nat.mul_assoc. f_equal.
  rewrite Nat.div2_div in *. destruct (Nat.eqb_spec (v / 2) 0) as [Hz|Hz].
  - assert (v = 1) as -> by (apply Nat.div_small_iff in Hz; lia). done.
  - rewrite Nat.mul_comm, <-Nat.pow_succ_r'. do 2 f_equal. symmetry. pose proof (Nat.log2_spec (v / 2) ltac:(lia)) as [Hlo Hhi].
    rewrite Nat.pow_succ_r' in Hhi. pose proof (Nat.div_mod_eq v 2). pose proof (Nat.mod_upper_bound v 2).
    apply Nat.log2_unique; rewrite ?Nat.pow_succ_r'; lia.
Qed.

(** The bodies with [__builtin_clz] and those with a loop compute the same, and the
    loops end. *)
Lemma bodies_equiv v : v < 2 ^ (bits - 1) →
  (∀ start, start ≤ bits → opal_hibit v start = opal_hibit_loop v start) ∧
  opal_cube_dim_loop v = Some (opal_cube_dim v) ∧
  opal_next_poweroftwo_loop v = Some (opal_next_poweroftwo v) ∧
  opal_next_poweroftwo_inclusive_loop v = Some (opal_next_poweroftwo_inclusive v).
Proof.
  intros Hv. assert (Hlt : v < 2 ^ bits) by (pose proof (Nat.pow_le_mono_r 2 (bits - 1) bits ltac:(lia) ltac:(lia)); lia).
  pose proof (Nat.log2_up_le_lin v ltac:(lia)) as Hlin. split_and!.
  - intros start. apply hibit_equiv.
  - unfold opal_cube_dim_loop. rewrite (cube_loop_log2_up _ 0) by lia. f_equal. unfold opal_cube_dim, builtin_clz.
    destruct (Nat.leb_spec v 1); [by apply Nat.log2_up_eqn0|]. rewrite (Nat.log2_up_eqn v) by done.
    pose proof (log2_lt_bits (v - 1) ltac:(lia) ltac:(lia)). rewrite <-Nat.sub_1_r. lia.
  - unfold opal_next_poweroftwo_loop. rewrite poweroftwo_loop_log2, next_poweroftwo_log2, Nat.mul_1_l by lia. done.
  - unfold opal_next_poweroftwo_inclusive_loop. rewrite (inclusive_loop_log2_up _ 0), next_poweroftwo_inclusive_log2_up by lia. done.
Qed.

End BitOps.
