(* ===== verification/MsgPass.v ===== *)
(** * Processes that exchange messages

    The collective algorithms of [ompi/mca/coll/base] are programs of one process
    each that send and receive through the point-to-point layer.  [Process] is what
    that layer needs to know of a process: the next message it offers to another one,
    whether it waits for a message from another one, and what it becomes when a
    message has left or has come.  Its laws say that the halves of different
    communications can be completed in any order.

    The machine ([step]) leaves to the transport what MPI leaves to it: a message is
    sent eagerly, buffered in a channel, or by rendezvous, when its receiver is
    there, as [eager] decides; channels are in order; processes run at any speed.
    Because receives name their source the machine has the diamond property, so one
    complete exchange of messages ([xfer], one message at a time with both ends
    ready) settles all runs ([all_runs]): none is longer than a bound, and every run that
    cannot continue has ended with the same results and no message left over.

    Two ways to find that exchange: by rounds, in which many processes take part at once
    ([round]), and by a schedule, a list of messages that every process, looked at
    alone, can follow ([follow_all]). *)

From stdpp Require Import base numbers list gmap relations.
From S2P Require Import Prelude.

Module MsgPass.

Class Process (P V R : Type) := {
  offers : P → nat → option V;      (* the next message to a process *)
  awaits : P → nat → bool;          (* is a message from a process waited for *)
  sent : nat → P → P;               (* the message offered to a process has left *)
  got : nat → V → P → P;            (* a message from a process has come *)
  result : P → option R;            (* what is returned, when everything is done *)
}.
#[global] Hint Mode Process ! - - : typeclass_instances.

(** Different halves are independent. *)
Class ProcessLaws (P V R : Type) {HP : Process P V R} : Prop := {
  sent_offers (p : P) j k (v w : V) : j ≠ k → offers p j = Some v → offers p k = Some w → offers (sent j p) k = Some w;
  got_offers (p : P) i k (v w : V) : awaits p i = true → offers p k = Some w → offers (got i v p) k = Some w;
  sent_awaits (p : P) j i (v : V) : offers p j = Some v → awaits p i = true → awaits (sent j p) i = true;
  got_awaits (p : P) i k (v : V) : i ≠ k → awaits p i = true → awaits p k = true → awaits (got i v p) k = true;
  sent_sent (p : P) j k (v w : V) : j ≠ k → offers p j = Some v → offers p k = Some w → sent k (sent j p) = sent j (sent k p);
  sent_got (p : P) j i (v w : V) : offers p j = Some v → awaits p i = true → sent j (got i w p) = got i w (sent j p);
  got_got (p : P) i k (v w : V) : i ≠ k → awaits p i = true → awaits p k = true → got k w (got i v p) = got i v (got k w p);
  result_done (p : P) (r : R) j : result p = Some r → offers p j = None ∧ awaits p j = false;
}.

Section machine.
Context {P V R : Type} `{HP : Process P V R} {HL : ProcessLaws P V R}.

(** ** The machine *)

Record sys := mk_sys { procs : list P; chans : gmap (nat * nat) (list V) }.

Definition chan (c : gmap (nat * nat) (list V)) (i j : nat) : list V := default [] (c !! (i, j)).

(** Process [i] of [ps] has a message for [j]; process [j] waits for one from [i]. *)
Definition can_send (ps : list P) (i j : nat) (v : V) : Prop := ∃ p, ps !! i = Some p ∧ offers p j = Some v.
Definition can_recv (ps : list P) (i j : nat) : Prop := ∃ p, ps !! j = Some p ∧ awaits p i = true.

Definition do_send (i j : nat) (ps : list P) : list P := alter (sent j) i ps.
Definition do_recv (i j : nat) (v : V) (ps : list P) : list P := alter (got i v) j ps.

Context (eager : nat → nat → V → bool).

Inductive step : sys → sys → Prop :=
  | step_eager ps c i j v :
      can_send ps i j v → eager i j v = true →
      step (mk_sys ps c) (mk_sys (do_send i j ps) (<[(i, j) := chan c i j ++ [v]]> c))
  | step_take ps c i j v vs :
      can_recv ps i j → chan c i j = v :: vs →
      step (mk_sys ps c) (mk_sys (do_recv i j v ps) (<[(i, j) := vs]> c))
  | step_rendezvous ps c i j v :
      can_send ps i j v → eager i j v = false → can_recv ps i j → chan c i j = [] →
      step (mk_sys ps c) (mk_sys (do_recv i j v (do_send i j ps)) c).

(** ** Halves of different communications commute *)

Lemma chan_insert_eq c i j l : chan (<[(i, j) := l]> c) i j = l.
Proof. unfold chan. by rewrite lookup_insert_eq. Qed.

Lemma chan_insert_ne c i j i' j' l : (i, j) ≠ (i', j') → chan (<[(i, j) := l]> c) i' j' = chan c i' j'.
Proof. intros H. unfold chan. by rewrite lookup_insert_ne. Qed.

(** Changing one process twice, or two processes. *)
Lemma alter_alter_eq (f g : P → P) (i j : nat) (ps : list P) : (i = j → ∀ p, ps !! i = Some p → f (g p) = g (f p)) → alter f i (alter g j ps) = alter g j (alter f i ps).
Proof.
  intros H. destruct (decide (i = j)) as [->|Hne]; [|by apply list_alter_alter_ne].
  apply list_eq. intros k. destruct (decide (k = j)) as [->|Hk]; [|by rewrite !list_lookup_alter_ne].
  rewrite !list_lookup_alter_eq. destruct (ps !! j) as [p|] eqn:E; [|done]. cbn. f_equal. by apply H.
Qed.

Lemma send_send ps i j k l v w : (i, j) ≠ (k, l) → can_send ps i j v → can_send ps k l w →
  can_send (do_send i j ps) k l w ∧ do_send k l (do_send i j ps) = do_send i j (do_send k l ps).
Proof.
  intros Hne (p & Hp & Ho) (q & Hq & Ho'). unfold can_send, do_send. destruct (decide (i = k)) as [->|Hik].
  - assert (p = q) as -> by congruence. assert (j ≠ l) by congruence. split; [exists (sent j q)|].
    + rewrite list_lookup_alter_eq, Hq. split; [done|]. by eapply sent_offers.
    + apply alter_alter_eq. intros _ p' Hp'. assert (p' = q) as -> by congruence. by eapply sent_sent.
  - split; [exists q; by rewrite list_lookup_alter_ne|by apply list_alter_alter_ne].
Qed.

Lemma send_recv ps i j a b v w : can_send ps i j v → can_recv ps a b →
  can_send (do_recv a b w ps) i j v ∧ can_recv (do_send i j ps) a b ∧ do_send i j (do_recv a b w ps) = do_recv a b w (do_send i j ps).
Proof.
  intros (p & Hp & Ho) (q & Hq & Hw). unfold can_send, can_recv, do_send, do_recv. destruct (decide (i = b)) as [->|Hne].
  - assert (p = q) as -> by congruence. split_and!; [exists (got a w q)|exists (sent j q)|].
    + rewrite list_lookup_alter_eq, Hq. split; [done|]. by apply got_offers.
    + rewrite list_lookup_alter_eq, Hq. split; [done|]. by eapply sent_awaits.
    + apply alter_alter_eq. intros _ p' Hp'. assert (p' = q) as -> by congruence. by eapply sent_got.
  - split_and!; [exists p; by rewrite list_lookup_alter_ne|exists q; by rewrite list_lookup_alter_ne|by apply list_alter_alter_ne].
Qed.

Lemma recv_recv ps i j a b v w : (i, j) ≠ (a, b) → can_recv ps i j → can_recv ps a b →
  can_recv (do_recv i j v ps) a b ∧ do_recv a b w (do_recv i j v ps) = do_recv i j v (do_recv a b w ps).
Proof.
  intros Hne (p & Hp & Ho) (q & Hq & Ho'). unfold can_recv, do_recv. destruct (decide (j = b)) as [->|Hjb].
  - assert (p = q) as -> by congruence. assert (i ≠ a) by congruence. split; [exists (got i v q)|].
    + rewrite list_lookup_alter_eq, Hq. split; [done|]. by apply got_awaits.
    + apply alter_alter_eq. intros _ p' Hp'. assert (p' = q) as -> by congruence. by apply got_got.
  - split; [exists q; by rewrite list_lookup_alter_ne|by apply list_alter_alter_ne].
Qed.

(** ** The diamond property *)

Definition joins (t1 t2 : sys) : Prop := t1 = t2 ∨ ∃ u, step t1 u ∧ step t2 u.

Lemma joins_sym t1 t2 : joins t1 t2 → joins t2 t1.
Proof. intros [->|(u & ? & ?)]; [by left|right; by exists u]. Qed.

Lemma can_send_inj ps i j v w : can_send ps i j v → can_send ps i j w → v = w.
Proof. intros (p & Hp & H) (q & Hq & H'). assert (p = q) as -> by congruence. congruence. Qed.

Section pairs.
Context (ps : list P) (c : gmap (nat * nat) (list V)).

Definition eager_to (i j : nat) (v : V) : sys := mk_sys (do_send i j ps) (<[(i, j) := chan c i j ++ [v]]> c).
Definition take_to (i j : nat) (v : V) (vs : list V) : sys := mk_sys (do_recv i j v ps) (<[(i, j) := vs]> c).
Definition meet_to (i j : nat) (v : V) : sys := mk_sys (do_recv i j v (do_send i j ps)) c.

Lemma eager_eager i j v k l w : can_send ps i j v → eager i j v = true → can_send ps k l w → eager k l w = true →
  joins (eager_to i j v) (eager_to k l w).
Proof.
  intros Hs He Hs' He'. unfold eager_to. destruct (decide ((i, j) = (k, l))) as [[= -> ->]|Hne].
  { left. by rewrite (can_send_inj ps k l v w Hs Hs'). }
  destruct (send_send ps i j k l v w Hne Hs Hs') as [Hs1 Hcomm]. destruct (send_send ps k l i j w v ltac:(congruence) Hs' Hs) as [Hs2 _].
  right. eexists. split; [by apply step_eager|]. rewrite Hcomm, (insert_insert_ne _ (k, l) (i, j)), chan_insert_ne by congruence.
  rewrite <-(chan_insert_ne c k l i j (chan c k l ++ [w])) at 1 by congruence. by apply step_eager.
Qed.

Lemma eager_take i j v a b w ws : can_send ps i j v → eager i j v = true → can_recv ps a b → chan c a b = w :: ws →
  joins (eager_to i j v) (take_to a b w ws).
Proof.
  intros Hs He Hr Hc. destruct (send_recv ps i j a b v w Hs Hr) as (Hs1 & Hr1 & Hcomm). right. unfold eager_to, take_to.
  eexists. split; [|by apply step_eager]. rewrite Hcomm. destruct (decide ((i, j) = (a, b))) as [[= -> ->]|Hne].
  - rewrite chan_insert_eq. replace (<[(a, b) := ws ++ [v]]> (<[(a, b) := ws]> c)) with (<[(a, b) := ws ++ [v]]> (<[(a, b) := chan c a b ++ [v]]> c))
      by (by rewrite !insert_insert_eq). apply step_take; [done|]. by rewrite chan_insert_eq, Hc.
  - rewrite chan_insert_ne, insert_insert_ne by congruence. apply step_take; [done|]. by rewrite chan_insert_ne.
Qed.

Lemma eager_meet i j v k l w : can_send ps i j v → eager i j v = true →
  can_send ps k l w → eager k l w = false → can_recv ps k l → chan c k l = [] → joins (eager_to i j v) (meet_to k l w).
Proof.
  intros Hs He Hs' He' Hr Hc. assert (Hne : (i, j) ≠ (k, l)).
  { intros [= -> ->]. pose proof (can_send_inj ps k l v w Hs Hs'). congruence. }
  destruct (send_send ps i j k l v w Hne Hs Hs') as [Hs1 Hcomm]. destruct (send_send ps k l i j w v ltac:(congruence) Hs' Hs) as [Hs2 _].
  destruct (send_recv ps k l k l w w Hs' Hr) as (_ & Hr1 & _). destruct (send_recv ps i j k l v w Hs Hr) as (_ & Hr2 & _).
  destruct (send_recv (do_send k l ps) i j k l v w Hs2 Hr1) as (Hs3 & _ & Hcomm3).
  right. unfold eager_to, meet_to. eexists. split.
  - apply step_rendezvous; [done..|]. by rewrite chan_insert_ne.
  - rewrite Hcomm, <-Hcomm3. by apply step_eager.
Qed.

Lemma joins_take_take i j v vs a b w ws : can_recv ps i j → chan c i j = v :: vs → can_recv ps a b → chan c a b = w :: ws →
  joins (take_to i j v vs) (take_to a b w ws).
Proof.
  intros Hr Hc Hr' Hc'. unfold take_to. destruct (decide ((i, j) = (a, b))) as [[= -> ->]|Hne].
  { left. rewrite Hc in Hc'. by injection Hc' as -> ->. }
  destruct (recv_recv ps i j a b v w Hne Hr Hr') as [Hr1 Hcomm]. destruct (recv_recv ps a b i j w v ltac:(congruence) Hr' Hr) as [Hr2 _].
  right. eexists. split; [apply step_take; [done|by rewrite chan_insert_ne]|].
  rewrite Hcomm, (insert_insert_ne _ (a, b)) by congruence. apply step_take; [done|]. by rewrite chan_insert_ne by congruence.
Qed.

Lemma take_meet a b w ws k l v : can_recv ps a b → chan c a b = w :: ws →
  can_send ps k l v → eager k l v = false → can_recv ps k l → chan c k l = [] → joins (take_to a b w ws) (meet_to k l v).
Proof.
  intros Hr Hc Hs He Hr' Hc'. assert (Hne : (a, b) ≠ (k, l)) by (intros [= -> ->]; congruence).
  destruct (send_recv ps k l a b v w Hs Hr) as (Hs1 & Hr1 & Hcomm). destruct (recv_recv ps a b k l w v Hne Hr Hr') as [Hr2 _].
  destruct (send_recv ps k l k l v v Hs Hr') as (_ & Hr3 & _).
  destruct (recv_recv (do_send k l ps) k l a b v w ltac:(congruence) Hr3 Hr1) as [Hr4 Hcomm4].
  right. unfold take_to, meet_to. eexists. split.
  - apply step_rendezvous; [done..|]. by rewrite chan_insert_ne.
  - rewrite Hcomm, <-Hcomm4. by apply step_take.
Qed.

Lemma meet_again i j v k l w : (i, j) ≠ (k, l) → can_send ps i j v → can_recv ps i j →
  can_send ps k l w → eager k l w = false → can_recv ps k l → chan c k l = [] →
  step (meet_to i j v) (mk_sys (do_recv k l w (do_recv i j v (do_send k l (do_send i j ps)))) c).
Proof.
  intros Hne Hs Hr Hs' He Hr' Hc. unfold meet_to.
  destruct (send_send ps i j k l v w Hne Hs Hs') as [Hs1 _]. destruct (send_recv ps i j i j v v Hs Hr) as (_ & Hr1 & _).
  destruct (send_recv ps i j k l v v Hs Hr') as (_ & Hr2 & _). destruct (recv_recv (do_send i j ps) i j k l v w Hne Hr1 Hr2) as [Hr3 _].
  destruct (send_recv (do_send i j ps) k l i j w v Hs1 Hr1) as (Hs3 & _ & <-). by apply step_rendezvous.
Qed.

Lemma meet_meet i j v k l w :
  can_send ps i j v → eager i j v = false → can_recv ps i j → chan c i j = [] →
  can_send ps k l w → eager k l w = false → can_recv ps k l → chan c k l = [] → joins (meet_to i j v) (meet_to k l w).
Proof.
  intros Hs He Hr Hc Hs' He' Hr' Hc'. destruct (decide ((i, j) = (k, l))) as [[= -> ->]|Hne].
  { left. by rewrite (can_send_inj ps k l v w Hs Hs'). }
  right. eexists. split; [by apply (meet_again i j v k l w)|].
  destruct (send_send ps i j k l v w Hne Hs Hs') as [Hs1 ->]. destruct (send_send ps k l i j w v ltac:(congruence) Hs' Hs) as [Hs2 _].
  destruct (send_recv ps k l i j w v Hs' Hr) as (_ & Hr1 & _). destruct (send_recv ps k l k l w w Hs' Hr') as (_ & Hr2 & _).
  destruct (send_recv _ i j i j v v Hs2 Hr1) as (_ & Hr3 & _). destruct (send_recv _ i j k l v v Hs2 Hr2) as (_ & Hr4 & _).
  destruct (recv_recv _ i j k l v w Hne Hr3 Hr4) as [_ ->]. by apply meet_again.
Qed.

End pairs.

Lemma diamond σ t1 t2 : step σ t1 → step σ t2 → joins t1 t2.
Proof.
  destruct 1; inversion 1; subst.
  - by eapply eager_eager.
  - by eapply eager_take.
  - by eapply eager_meet.
  - apply joins_sym. by eapply eager_take.
  - by eapply joins_take_take.
  - by eapply take_meet.
  - apply joins_sym. by eapply eager_meet.
  - apply joins_sym. by eapply take_meet.
  - by eapply meet_meet.
Qed.

(** From a state with a complete run of [n] steps, every run gets to its end. *)
Lemma run_completes n σ f : (∀ t, ¬ step f t) → nsteps step n σ f →
  ∀ m t, nsteps step m σ t → m ≤ n ∧ nsteps step (n - m) t f.
Proof.
  intros Hf. revert σ. induction n as [|n IH]; intros σ Hn m t Hm.
  { inversion Hn; subst. inversion Hm; subst; [split; [lia|by constructor]|]. exfalso. by eapply Hf. }
  inversion Hn as [|? ? σ1 ? Hs1 Hn1]; subst. inversion Hm as [|m' ? σ2 ? Hs2 Hm2]; subst; [split; [lia|done]|].
  destruct (diamond _ _ _ Hs1 Hs2) as [->|(u & Hu1 & Hu2)].
  { destruct (IH _ Hn1 _ _ Hm2) as [? ?]. split; [lia|done]. }
  destruct (IH _ Hn1 1 u) as [Hle Hun]; [by apply nsteps_once|].
  destruct (IH σ2) with (m := m') (t := t) as [? ?]; [|done|split; [lia|done]].
  replace n with (S (n - 1)) by lia. by econstructor.
Qed.

(** ** One message at a time *)

Inductive xfer : list P → list P → Prop :=
  | xfer_one ps i j v : can_send ps i j v → can_recv ps i j → xfer ps (do_recv i j v (do_send i j ps)).

Definition no_messages (c : gmap (nat * nat) (list V)) : Prop := ∀ i j, chan c i j = [].

Lemma xfer_steps ps ps' c : xfer ps ps' → no_messages c → ∃ n c', nsteps step n (mk_sys ps c) (mk_sys ps' c') ∧ no_messages c'.
Proof.
  intros [ps0 i j v Hs Hr] Hc. destruct (eager i j v) eqn:He.
  - exists 2, (<[(i, j) := []]> (<[(i, j) := chan c i j ++ [v]]> c)). split.
    + apply (nsteps_l _ _ _ _ _ (step_eager ps0 c i j v Hs He)). apply nsteps_once. destruct (send_recv ps0 i j i j v v Hs Hr) as (_ & Hr' & _).
      apply step_take; [done|]. by rewrite chan_insert_eq, Hc.
    + intros a b. destruct (decide ((i, j) = (a, b))) as [[= -> ->]|]; [by rewrite chan_insert_eq|]. by rewrite !chan_insert_ne.
  - exists 1, c. split; [|done]. apply nsteps_once. apply step_rendezvous; [done..|]. apply Hc.
Qed.

Lemma xfers_steps ps ps' c : rtc xfer ps ps' → no_messages c → ∃ n c', nsteps step n (mk_sys ps c) (mk_sys ps' c') ∧ no_messages c'.
Proof.
  intros H. revert c. induction H as [ps|ps ps1 ps2 H1 _ IH]; intros c Hc; [exists 0, c; by split; [constructor|]|].
  destruct (xfer_steps _ _ _ H1 Hc) as (n & c1 & Hn & Hc1). destruct (IH _ Hc1) as (m & c2 & Hm & Hc2).
  exists (n + m), c2. split; [|done]. by eapply nsteps_trans.
Qed.

Definition finished (ps : list P) (rs : list R) : Prop := result <$> ps = Some <$> rs.

Lemma finished_done ps rs c t : finished ps rs → no_messages c → ¬ step (mk_sys ps c) t.
Proof.
  intros Hf Hc Hs. assert (Hret : ∀ i p, ps !! i = Some p → ∃ r, result p = Some r).
  { intros i p Hp. apply (f_equal (λ l, l !! i)) in Hf. rewrite !list_lookup_fmap, Hp in Hf. cbn in Hf.
    destruct (rs !! i) as [r|]; [|done]. cbn in Hf. exists r. congruence. }
  assert (Hns : ∀ i j v, ¬ can_send ps i j v).
  { intros i j v (p & Hp & Ho). destruct (Hret i p Hp) as [r Hr]. destruct (result_done p r j Hr). congruence. }
  assert (Hnr : ∀ i j, ¬ can_recv ps i j).
  { intros i j (p & Hp & Ho). destruct (Hret j p Hp) as [r Hr]. destruct (result_done p r i Hr). congruence. }
  inversion Hs; subst; [by eapply Hns|by eapply Hnr|by eapply Hns].
Qed.

(** Every run of processes that can exchange their messages one at a time ends with
    the same results. *)
Lemma all_runs ps ps' rs : rtc xfer ps ps' → finished ps' rs →
  ∃ N, ∀ m σ, nsteps step m (mk_sys ps ∅) σ →
    m ≤ N ∧ ((∀ t, ¬ step σ t) → finished (procs σ) rs ∧ no_messages (chans σ)).
Proof.
  intros Hx Hf. destruct (xfers_steps ps ps' ∅ Hx) as (n & c & Hn & Hc); [done|].
  exists n. intros m σ Hm. destruct (run_completes n (mk_sys ps ∅) (mk_sys ps' c)) with (m := m) (t := σ) as [Hle Hrest]; [|done..|].
  { intros t. by eapply finished_done. }
  split; [done|]. intros Hstop. inversion Hrest as [|? ? t ? Hst]; subst; [done|]. by destruct (Hstop t).
Qed.

End machine.

Arguments sys : clear implicits.

(** Every run of the programs ends, however messages are sent, and ends with these
    results and no message left. *)
Definition always_gives {P V R} `{Process P V R} (ps : list P) (rs : list R) : Prop :=
  ∀ eager, ∃ N, ∀ m σ, nsteps (step eager) m (mk_sys ps ∅) σ →
    m ≤ N ∧ ((∀ t, ¬ step eager σ t) → finished (procs σ) rs ∧ no_messages (chans σ)).

(** ** Finding the exchange *)

Section exchange.
Context {P V R : Type} `{HP : Process P V R} {HL : ProcessLaws P V R} (n : nat).

(** The processes [0 .. n-1], each with its program. *)
Definition all (f : nat → P) : list P := f <$> seq 0 n.

Lemma lookup_all f i : i < n → all f !! i = Some (f i).
Proof. intros H. unfold all. by rewrite list_lookup_fmap, lookup_seq_lt. Qed.

Lemma all_ext f g : (∀ i, i < n → f i = g i) → all f = all g.
Proof. intros H. apply list_fmap_ext. intros i x [-> ?]%lookup_seq. by apply H. Qed.

Lemma alter_all f h i : i < n → alter h i (all f) = all (λ j, if decide (j = i) then h (f j) else f j).
Proof.
  intros Hi. apply list_eq. intros j. destruct (decide (j < n)) as [Hj|Hj].
  - rewrite (lookup_all _ j Hj). case_decide as E; [subst; by rewrite list_lookup_alter_eq, lookup_all|].
    by rewrite list_lookup_alter_ne, lookup_all by congruence.
  - rewrite !lookup_ge_None_2; [done|unfold all; rewrite length_fmap, length_seq; lia|rewrite length_alter; unfold all; rewrite length_fmap, length_seq; lia].
Qed.

Lemma always_gives_xfer (ps ps' : list P) (rs : list R) : rtc xfer ps ps' → finished ps' rs → always_gives ps rs.
Proof. intros Hx Hf eager. by eapply all_runs. Qed.

Lemma finished_all (f : nat → P) g : (∀ i, i < n → result (f i) = Some (g i)) → finished (all f) (g <$> seq 0 n).
Proof.
  intros H. unfold finished, all. rewrite <-!list_fmap_compose. apply list_fmap_ext. intros i x [-> Hi]%lookup_seq. cbn. by apply H.
Qed.

(** *** Schedules *)

(** The part process [i] has in a message. *)
Definition part (i : nat) (m : nat * nat * V) (p : P) : P :=
  let '(a, b, v) := m in
  let p := if decide (i = a) then sent b p else p in if decide (i = b) then got a v p else p.
Definition ready (i : nat) (m : nat * nat * V) (p : P) : Prop :=
  let '(a, b, v) := m in (i = a → offers p b = Some v) ∧ (i = b → awaits p a = true).

Fixpoint follows (i : nat) (ms : list (nat * nat * V)) (p p' : P) : Prop :=
  match ms with [] => p' = p | m :: ms => ready i m p ∧ follows i ms (part i m p) p' end.

Lemma follows_app i ms ms' p p' : follows i (ms ++ ms') p p' ↔ ∃ q, follows i ms p q ∧ follows i ms' q p'.
Proof.
  revert p; induction ms as [|m ms IH]; intros p; cbn; [split; [by exists p|by intros (? & -> & ?)]|].
  rewrite IH. split; [intros (? & q & ? & ?)|intros (q & (? & ?) & ?)]; eauto.
Qed.

(** Messages between others do not matter. *)
Lemma follows_skip i ms p : (∀ a b v, (a, b, v) ∈ ms → i ≠ a ∧ i ≠ b) → follows i ms p p.
Proof.
  induction ms as [|[[a b] v] ms IH]; intros H; [done|]. destruct (H a b v) as [Ha Hb]; [by left|]. cbn.
  rewrite !decide_False by done. split; [done|]. apply IH. intros. apply (H a0 b0 v0). by right.
Qed.

Definition involves (i : nat) (m : nat * nat * V) : Prop := i = m.1.1 ∨ i = m.1.2.
#[export] Instance involves_dec i m : Decision (involves i m).
Proof. unfold involves. apply _. Defined.

Lemma follows_filter i ms p p' : follows i (filter (involves i) ms) p p' → follows i ms p p'.
Proof.
  revert p; induction ms as [|[[a b] v] ms IH]; intros p; [done|]. rewrite filter_cons. destruct (decide (involves i (a, b, v))) as [H|H].
  - cbn. intros [Hr Hf]. split; [done|]. by apply IH.
  - intros Hf. assert (i ≠ a ∧ i ≠ b) as [Ha Hb] by (split; intros ->; apply H; [by left|by right]).
    cbn. rewrite !decide_False by done. split; [done|]. by apply IH.
Qed.

(** Processes that follow a schedule each, follow it together. *)
Lemma follow_all ms (f f' : nat → P) : (∀ a b v, (a, b, v) ∈ ms → a < n ∧ b < n) →
  (∀ i, i < n → follows i ms (f i) (f' i)) → rtc xfer (all f) (all f').
Proof.
  revert f; induction ms as [|[[a b] v] ms IH]; intros f Hlt Hf.
  { by rewrite (all_ext f' f). }
  destruct (Hlt a b v) as [Ha Hb]; [by left|]. eapply rtc_l; [|apply (IH (λ i, part i (a, b, v) (f i)))].
  - assert (all (λ i, part i (a, b, v) (f i)) = do_recv a b v (do_send a b (all f))) as ->.
    { unfold do_recv, do_send. rewrite !alter_all by done. done. }
    apply xfer_one; [exists (f a)|exists (f b)]; rewrite lookup_all by done; (split; [done|]).
    + destruct (Hf a Ha) as [[Hs _] _]. by apply Hs.
    + destruct (Hf b Hb) as [[_ Hr] _]. by apply Hr.
  - intros. apply (Hlt a0 b0 v0). by right.
  - intros i Hi. by destruct (Hf i Hi).
Qed.

Lemma follows_end i ms p p' : follows i ms p p' → p' = foldl (λ p m, part i m p) p ms.
Proof. revert p; induction ms as [|m ms IH]; intros p; [done|]. cbn. intros [_ H]. by apply IH. Qed.

Lemma always_gives_schedule ms (f : nat → P) (g : nat → R) : (∀ a b v, (a, b, v) ∈ ms → a < n ∧ b < n) →
  (∀ i, i < n → ∃ p', follows i ms (f i) p' ∧ result p' = Some (g i)) → always_gives (all f) (g <$> seq 0 n).
Proof.
  intros Hlt Hf. assert (Hf' : ∀ i, i < n → follows i ms (f i) (foldl (λ p m, part i m p) (f i) ms) ∧
    result (foldl (λ p m, part i m p) (f i) ms) = Some (g i)).
  { intros i Hi. destruct (Hf i Hi) as (p' & H1 & H2). by rewrite <-(follows_end _ _ _ _ H1). }
  apply (always_gives_xfer _ (all (λ i, foldl (λ p m, part i m p) (f i) ms))).
  - apply (follow_all ms); [done|]. intros i Hi. by apply Hf'.
  - apply finished_all. intros i Hi. by apply Hf'.
Qed.

(** *** Rounds *)

(** Every process sends at most one message and receives at most one. *)
Section round.
Context (dst src : nat → option nat) (val : nat → V).
Context (Hdst : ∀ i j, i < n → dst i = Some j → j < n ∧ src j = Some i).
Context (Hsrc : ∀ i j, j < n → src j = Some i → i < n ∧ dst i = Some j).

Definition round_msgs (m : nat) : list (nat * nat * V) := omap (λ i, j ← dst i; Some (i, j, val i)) (seq 0 m).

Definition after_round (m j : nat) (p : P) : P :=
  let p := match dst j with Some a => if decide (j < m) then sent a p else p | None => p end in
  match src j with Some b => if decide (b < m) then got b (val b) p else p | None => p end.

Definition takes_part (j : nat) (p : P) : Prop :=
  (∀ a, dst j = Some a → offers p a = Some (val j)) ∧ (∀ b, src j = Some b → awaits p b = true).

Lemma round_msgs_S m : round_msgs (S m) = round_msgs m ++ match dst m with Some j => [(m, j, val m)] | None => [] end.
Proof. unfold round_msgs. rewrite seq_S, omap_app. cbn. by destruct (dst m). Qed.

(** One more message changes what it should. *)
Lemma after_round_S m j p : j < n → m < n → takes_part j p →
  match dst m with
  | Some a => ready j (m, a, val m) (after_round m j p) ∧ after_round (S m) j p = part j (m, a, val m) (after_round m j p)
  | None => after_round (S m) j p = after_round m j p
  end.
Proof.
  intros Hj Hm [Ho Hw]. unfold after_round, ready, part.
  assert (Hsame : ∀ k, k ≠ m → ∀ x y : P, (if decide (k < S m) then x else y) = if decide (k < m) then x else y).
  { intros k Hk x y. repeat case_decide; try done; lia. }
  destruct (dst m) as [a|] eqn:Em.
  - destruct (Hdst m a Hm Em) as [Ha Hsa]. destruct (decide (j = m)) as [->|Hjm].
    + rewrite Em. rewrite (decide_False (P := m < m)), (decide_True (P := m < S m)) by lia.
      destruct (src m) as [b|] eqn:Eb; [|rewrite (decide_False (P := m = a)) by congruence; split; [split; [by auto|congruence]|done]].
      destruct (decide (b = m)) as [->|Hb].
      * assert (a = m) as -> by (destruct (Hsrc m m Hm Eb); congruence).
        rewrite (decide_False (P := m < m)), (decide_True (P := m < S m)), (decide_True (P := m = m)) by lia. auto.
      * rewrite (decide_False (P := m = a)), (Hsame b Hb) by congruence. specialize (Ho a Em). specialize (Hw b eq_refl).
        case_decide; (split; [split; [|congruence]|]); [| |by auto|done].
        { intros _. by apply got_offers. }
        by erewrite sent_got.
    + destruct (decide (j = a)) as [->|Hja].
      * rewrite Hsa. rewrite (decide_False (P := m < m)), (decide_True (P := m < S m)) by lia. specialize (Hw m Hsa).
        destruct (dst a) as [d|] eqn:Ed; [rewrite (Hsame a Hjm); specialize (Ho d eq_refl); case_decide|]; split; try done.
        split; [done|]. intros _. by eapply sent_awaits.
      * split; [done|]. destruct (src j) as [b|] eqn:Eb.
        { assert (b ≠ m) by (intros ->; destruct (Hsrc m j Hj Eb); congruence). rewrite (Hsame b) by done.
          destruct (dst j); [by rewrite (Hsame j)|done]. }
        destruct (dst j); [by rewrite (Hsame j)|done].
  - assert (Hbm : ∀ b, src j = Some b → b ≠ m) by (intros b Hb ->; destruct (Hsrc m j Hj Hb); congruence).
    destruct (decide (j = m)) as [->|Hjm].
    + rewrite Em. destruct (src m) as [b|]; [by rewrite (Hsame b) by auto|done].
    + destruct (dst j); [rewrite (Hsame j) by done|]; (destruct (src j) as [b|]; [by rewrite (Hsame b) by auto|done]).
Qed.

Lemma follows_round m j p : j < n → m ≤ n → takes_part j p → follows j (round_msgs m) p (after_round m j p).
Proof.
  intros Hj Hm Hp. induction m as [|m IH].
  - unfold after_round. cbn. destruct (dst j); [rewrite decide_False by lia|]; (destruct (src j); [by rewrite decide_False by lia|done]).
  - rewrite round_msgs_S. apply follows_app. exists (after_round m j p). split; [apply IH; lia|].
    pose proof (after_round_S m j p Hj ltac:(lia) Hp) as HS. destruct (dst m); [|done]. by destruct HS as [? ->].
Qed.

Lemma round (f f' : nat → P) :
  (∀ i, i < n → takes_part i (f i)) →
  (∀ i, i < n → f' i = let p := match dst i with Some a => sent a (f i) | None => f i end in
                       match src i with Some b => got b (val b) p | None => p end) →
  rtc xfer (all f) (all f').
Proof.
  intros Hp Hf. apply (follow_all (round_msgs n)).
  - intros a b v Hin. unfold round_msgs in Hin. apply list_elem_of_omap in Hin as (i & Hi%elem_of_seq & E).
    destruct (dst i) as [j|] eqn:Ei; [|done]. injection E as -> -> _. split; [lia|]. by eapply Hdst; [|done]; lia.
  - intros i Hi. assert (f' i = after_round n i (f i)) as ->; [|by apply follows_round; auto]. rewrite Hf by done. unfold after_round.
    destruct (dst i); [rewrite decide_True by done|]; (destruct (src i) as [b|] eqn:Eb; [|done]; by destruct (Hsrc b i Hi Eb); rewrite decide_True by done).
Qed.

End round.

End exchange.
End MsgPass.
