(* ===== verification/MsgProg.v ===== *)
(** * Processes of the message-passing machine

    Programs with blocking communication ([MsgProg]) and programs with outstanding
    requests ([MsgReq]). *)

From stdpp Require Import base numbers list gmap relations.
From S2P Require Import Prelude MsgPass.

(** ** Programs with blocking communication

    A program ([prog]) is a tree of communications; one communication posts an
    optional send and an optional receive from a given source and goes on when both
    are complete: [MCA_PML_CALL(send(...))], [MCA_PML_CALL(recv(...))] and
    [ompi_coll_base_sendrecv_actual] or [ompi_coll_base_sendrecv_zero], which post the
    receive, send, and wait for the receive. *)

Module MsgProg.
Export MsgPass.

Section prog.
Context {V R : Type}.

(** [inl] is the source that is waited for, [inr] the value that has arrived. *)
Inductive prog := Ret (r : R) | Comm (s : option (nat * V)) (r : nat + V) (k : V → prog).

(** A communication whose two halves are complete goes on. *)
Fixpoint settle (p : prog) : prog := match p with Comm None (inr v) k => settle (k v) | _ => p end.

Definition send (dst : nat) (v : V) (k : prog) : prog := Comm (Some (dst, v)) (inr v) (λ _, k).
Definition recv (src : nat) (k : V → prog) : prog := Comm None (inl src) k.
Definition sendrecv (dst : nat) (v : V) (src : nat) (k : V → prog) : prog := Comm (Some (dst, v)) (inl src) k.

Definition after_send (p : prog) : prog := match p with Comm (Some _) r k => settle (Comm None r k) | _ => p end.
Definition after_recv (v : V) (p : prog) : prog :=
  match p with Comm s (inl _) k => settle (Comm s (inr v) k) | _ => p end.

#[export] Instance prog_process : Process prog V R := {|
  offers p j := match p with Comm (Some (d, v)) _ _ => if decide (d = j) then Some v else None | _ => None end;
  awaits p i := match p with Comm _ (inl s) _ => bool_decide (s = i) | _ => false end;
  sent _ := after_send;
  got _ := after_recv;
  result p := match p with Ret r => Some r | _ => None end
|}.

#[export] Instance prog_laws : ProcessLaws prog V R.
Proof.
  split; intros p; destruct p as [r|[[d v0]|] [s|v1] k]; cbn; intros; try done;
    repeat match goal with
      | H : bool_decide _ = true |- _ => apply bool_decide_eq_true in H
      | H : context [decide ?P] |- _ => destruct (decide P)
      end; simplify_eq; try done.
Qed.

(** What a program does in a round in which it sends to [dst] and receives from [src]. *)
Definition joins_round (val : nat → V) (dst src : option nat) (v : V) (p p' : prog) : Prop :=
  match dst, src with
  | Some a, Some b => ∃ k, p = sendrecv a v b k ∧ p' = settle (k (val b))
  | Some a, None => ∃ k, p = send a v k ∧ p' = settle k
  | None, Some b => ∃ k, p = recv b k ∧ p' = settle (k (val b))
  | None, None => p' = p
  end.

Lemma round_of n dst src val f f' :
  (∀ i j, i < n → dst i = Some j → j < n ∧ src j = Some i) → (∀ i j, j < n → src j = Some i → i < n ∧ dst i = Some j) →
  (∀ i, i < n → joins_round val (dst i) (src i) (val i) (f i) (f' i)) → rtc xfer (all n f) (all n f').
Proof.
  intros Hd Hs Hp. apply (round n dst src val Hd Hs); intros i Hi; specialize (Hp i Hi); unfold takes_part, joins_round in *;
    destruct (dst i), (src i); try (destruct Hp as (k & Hk & Hk'); rewrite Hk); try done.
  all: split; intros; simplify_eq; cbn; first [by rewrite decide_True|by apply bool_decide_eq_true].
Qed.

End prog.
Arguments prog : clear implicits.
End MsgProg.

(** ** Programs with outstanding requests

    Programs that post sends and receives ([MCA_PML_CALL(isend(...))],
    [MCA_PML_CALL(irecv(...))]) and wait for them later ([ompi_request_wait],
    [ompi_request_wait_all]).  A request is known by its index in the list of all
    requests the process has posted; messages to, and from, one process are matched in
    the order in which their requests were posted. *)

Module MsgReq.
Export MsgPass.

Section code.
Context {V R : Type}.

Inductive code :=
  | Return (r : R)
  | Isend (dst : nat) (v : V) (k : nat → code)
  | Irecv (src : nat) (k : nat → code)
  | WaitSend (h : nat) (k : code)
  | WaitRecv (h : nat) (k : V → code).

Inductive req := ToSend (dst : nat) (v : V) | ToRecv (src : nat) | Sent | Received (v : V).

Record proc := mk_proc { reqs : list req; todo : code }.

(** A process goes on until it has to wait. *)
Fixpoint advance (rs : list req) (c : code) : proc :=
  match c with
  | Return r => mk_proc rs (Return r)
  | Isend d v k => advance (rs ++ [ToSend d v]) (k (length rs))
  | Irecv s k => advance (rs ++ [ToRecv s]) (k (length rs))
  | WaitSend h k => match rs !! h with Some Sent => advance rs k | _ => mk_proc rs c end
  | WaitRecv h k => match rs !! h with Some (Received v) => advance rs (k v) | _ => mk_proc rs c end
  end.

Definition start (c : code) : proc := advance [] c.

Definition wait_all (hs : list nat) (k : code) : code := foldr WaitSend k hs.
Definition send (dst : nat) (v : V) (k : code) : code := Isend dst v (λ h, WaitSend h k).
Definition recv (src : nat) (k : V → code) : code := Irecv src (λ h, WaitRecv h k).

(** Posting a list of sends. *)
Fixpoint isend_all (ms : list (nat * V)) (hs : list nat) (k : list nat → code) : code :=
  match ms with [] => k hs | (d, v) :: ms => Isend d v (λ h, isend_all ms (hs ++ [h]) k) end.

(** ** The process *)

Definition to_send (j : nat) (q : req) : Prop := match q with ToSend d _ => d = j | _ => False end.
Definition to_recv (i : nat) (q : req) : Prop := match q with ToRecv s => s = i | _ => False end.
Definition pending (q : req) : Prop := match q with ToSend _ _ | ToRecv _ => True | _ => False end.

#[export] Instance to_send_dec j q : Decision (to_send j q).
Proof. destruct q; cbn; apply _. Defined.
#[export] Instance to_recv_dec i q : Decision (to_recv i q).
Proof. destruct q; cbn; apply _. Defined.
#[export] Instance pending_dec q : Decision (pending q).
Proof. destruct q; cbn; apply _. Defined.

Definition complete (h : nat) (q : req) (p : proc) : proc := advance (<[h := q]> (reqs p)) (todo p).

#[export] Instance code_process : Process proc V R := {|
  offers p j := match list_find (to_send j) (reqs p) with Some (_, ToSend _ v) => Some v | _ => None end;
  awaits p i := match list_find (to_recv i) (reqs p) with Some _ => true | None => false end;
  sent j p := match list_find (to_send j) (reqs p) with Some (h, _) => complete h Sent p | None => p end;
  got i v p := match list_find (to_recv i) (reqs p) with Some (h, _) => complete h (Received v) p | None => p end;
  result p := match todo p with Return r => if decide (Forall (λ q, ¬ pending q) (reqs p)) then Some r else None | _ => None end
|}.

(** ** Laws *)

Lemma advance_reqs rs c : ∃ l, reqs (advance rs c) = rs ++ l.
Proof.
  revert rs. induction c as [r|d v k IH|s k IH|h k IH|h k IH]; intros rs; cbn.
  - exists []. by rewrite app_nil_r.
  - destruct (IH (length rs) (rs ++ [ToSend d v])) as [l ->]. eexists. by rewrite <-app_assoc.
  - destruct (IH (length rs) (rs ++ [ToRecv s])) as [l ->]. eexists. by rewrite <-app_assoc.
  - destruct (rs !! h) as [[| | |]|]; try apply IH; exists []; by rewrite app_nil_r.
  - destruct (rs !! h) as [[| | |]|]; try apply IH; exists []; by rewrite app_nil_r.
Qed.

(** Completing a request before or after the process goes on is the same. *)
Lemma complete_advance rs c h q y : rs !! h = Some y → pending y → complete h q (advance rs c) = advance (<[h := q]> rs) c.
Proof.
  revert rs. induction c as [r|d v k IH|s k IH|g k IH|g k IH]; intros rs Hh Hy; cbn.
  - done.
  - rewrite IH, length_insert; [|by apply lookup_app_l_Some|done]. f_equal. apply insert_app_l. by eapply lookup_lt_Some.
  - rewrite IH, length_insert; [|by apply lookup_app_l_Some|done]. f_equal. apply insert_app_l. by eapply lookup_lt_Some.
  - destruct (rs !! g) as [x|] eqn:Eg; [destruct x as [d v|s| |v]; try done|done].
    rewrite (list_lookup_insert_ne _ h g) by (intros ->; rewrite Eg in Hh; by injection Hh as <-). rewrite Eg. by apply IH.
  - destruct (rs !! g) as [x|] eqn:Eg; [destruct x as [d v|s| |v]; try done|done].
    rewrite (list_lookup_insert_ne _ h g) by (intros ->; rewrite Eg in Hh; by injection Hh as <-). rewrite Eg. by apply IH.
Qed.

Lemma complete_complete p h g x y q q' : g ≠ h → reqs p !! h = Some x → pending x → reqs p !! g = Some y → pending y →
  complete g q' (complete h q p) = complete h q (complete g q' p).
Proof.
  intros Hne Hh Hx Hg Hy. unfold complete at 2 4. rewrite (complete_advance _ _ _ _ y), (complete_advance _ _ _ _ x); try done.
  - by rewrite list_insert_insert_ne.
  - by rewrite list_lookup_insert_ne.
  - by rewrite list_lookup_insert_ne.
Qed.

(** The first request of a kind stays the first one. *)
Lemma list_find_complete (Q : req → Prop) `{∀ q, Decision (Q q)} p h q g x :
  list_find Q (reqs p) = Some (g, x) → g ≠ h → ¬ Q q → list_find Q (reqs (complete h q p)) = Some (g, x).
Proof.
  intros (Hg & Hx & Hbefore)%list_find_Some Hne Hq. unfold complete. destruct (advance_reqs (<[h := q]> (reqs p)) (todo p)) as [l ->].
  assert (Hlt : g < length (reqs p)) by (by eapply lookup_lt_Some). apply list_find_Some. split_and!; [|done|].
  - apply lookup_app_l_Some. by rewrite list_lookup_insert_ne.
  - intros j y Hj Hlt'. rewrite lookup_app_l in Hj by (rewrite length_insert; lia). destruct (decide (j = h)) as [->|].
    + rewrite list_lookup_insert_eq in Hj by lia. by injection Hj as <-.
    + rewrite list_lookup_insert_ne in Hj by done. by eapply Hbefore.
Qed.

Lemma find_send j p h x : list_find (to_send j) (reqs p) = Some (h, x) → ∃ v, x = ToSend j v ∧ reqs p !! h = Some (ToSend j v).
Proof. intros (Hh & Hx & _)%list_find_Some. destruct x as [d v|s| |v]; try done. cbn in Hx. subst. by exists v. Qed.

Lemma find_recv i p h x : list_find (to_recv i) (reqs p) = Some (h, x) → x = ToRecv i ∧ reqs p !! h = Some (ToRecv i).
Proof. intros (Hh & Hx & _)%list_find_Some. destruct x as [d v|s| |v]; try done. cbn in Hx. by subst. Qed.

Lemma offers_find j p v : offers p j = Some v → ∃ h, list_find (to_send j) (reqs p) = Some (h, ToSend j v) ∧ reqs p !! h = Some (ToSend j v) ∧ sent j p = complete h Sent p.
Proof.
  cbn. destruct (list_find (to_send j) (reqs p)) as [[h x]|] eqn:E; [|done]. destruct (find_send j p h x E) as (w & -> & Hh).
  intros [= ->]. by exists h.
Qed.

Lemma awaits_find i p : awaits p i = true → ∃ h, list_find (to_recv i) (reqs p) = Some (h, ToRecv i) ∧ reqs p !! h = Some (ToRecv i) ∧ ∀ v, got i v p = complete h (Received v) p.
Proof.
  cbn. destruct (list_find (to_recv i) (reqs p)) as [[h x]|] eqn:E; [|done]. destruct (find_recv i p h x E) as (-> & Hh). intros _. by exists h.
Qed.

Lemma find_offers j p h v : list_find (to_send j) (reqs p) = Some (h, ToSend j v) → offers p j = Some v ∧ sent j p = complete h Sent p.
Proof. cbn. by intros ->. Qed.

Lemma find_awaits i p h : list_find (to_recv i) (reqs p) = Some (h, ToRecv i) → awaits p i = true ∧ ∀ v, got i v p = complete h (Received v) p.
Proof. cbn. by intros ->. Qed.

#[export] Instance code_laws : ProcessLaws proc V R.
Proof.
  split.
  - intros p j k v w Hne (h & Eh & Hh & ->)%offers_find (g & Eg & Hg & _)%offers_find.
    eapply find_offers, list_find_complete; [done|congruence|by intros []].
  - intros p i k v w (h & Eh & Hh & Hgot)%awaits_find (g & Eg & Hg & _)%offers_find. rewrite Hgot.
    eapply find_offers, list_find_complete; [done|congruence|by intros []].
  - intros p j i v (h & Eh & Hh & ->)%offers_find (g & Eg & Hg & _)%awaits_find.
    eapply find_awaits, list_find_complete; [done|congruence|by intros []].
  - intros p i k v Hne (h & Eh & Hh & Hgot)%awaits_find (g & Eg & Hg & _)%awaits_find. rewrite Hgot.
    eapply find_awaits, list_find_complete; [done|congruence|by intros []].
  - intros p j k v w Hne (h & Eh & Hh & ->)%offers_find (g & Eg & Hg & ->)%offers_find.
    assert (g ≠ h) by congruence. destruct (find_offers k (complete h Sent p) g w) as [_ ->]; [apply list_find_complete; [done|congruence|by intros []]|].
    destruct (find_offers j (complete g Sent p) h v) as [_ ->]; [apply list_find_complete; [done|congruence|by intros []]|]. by eapply complete_complete.
  - intros p j i v w (h & Eh & Hh & ->)%offers_find (g & Eg & Hg & Hgot)%awaits_find. rewrite Hgot.
    assert (g ≠ h) by congruence. destruct (find_offers j (complete g (Received w) p) h v) as [_ ->]; [apply list_find_complete; [done|congruence|by intros []]|].
    destruct (find_awaits i (complete h Sent p) g) as [_ ->]; [apply list_find_complete; [done|congruence|by intros []]|]. by eapply complete_complete.
  - intros p i k v w Hne (h & Eh & Hh & Hgot)%awaits_find (g & Eg & Hg & Hgot')%awaits_find. rewrite Hgot, Hgot'.
    assert (g ≠ h) by congruence. destruct (find_awaits k (complete h (Received v) p) g) as [_ ->]; [apply list_find_complete; [done|congruence|by intros []]|].
    destruct (find_awaits i (complete g (Received w) p) h) as [_ ->]; [apply list_find_complete; [done|congruence|by intros []]|]. by eapply complete_complete.
  - intros p r j Hr. cbn in *. destruct (todo p); try done. case_decide as Hall; [|done]. rewrite Forall_forall in Hall.
    assert (Hno : ∀ Q `{∀ q, Decision (Q q)}, (∀ q, Q q → pending q) → list_find Q (reqs p) = None).
    { intros Q ? HQ. apply list_find_None, Forall_forall. intros q Hq HQq. by apply (Hall q Hq), HQ. }
    rewrite !Hno; [done|by intros []|by intros []].
Qed.

(** ** Following a schedule *)

(** The first receive from [q] completes. *)
Lemma follows_recv i q v rs1 rs2 k : i ≠ q → Forall (λ r, ¬ to_recv q r) rs1 →
  follows i [(q, i, v)] (advance (rs1 ++ ToRecv q :: rs2) (WaitRecv (length rs1) k)) (advance (rs1 ++ Received v :: rs2) (k v)).
Proof.
  intros Hne Hno. cbn [follows ready part]. rewrite (decide_False (P := i = q)), (decide_True (P := i = i)) by done.
  assert (Hlk : (rs1 ++ ToRecv q :: rs2) !! length rs1 = Some (ToRecv q)) by (by rewrite list_lookup_middle).
  cbn [advance]. rewrite Hlk. set (p := mk_proc _ _).
  assert (Hfind : list_find (to_recv q) (reqs p) = Some (length rs1, ToRecv q)).
  { apply list_find_Some. split_and!; [done|done|]. intros j y Hj Hlt. cbn in Hj. rewrite lookup_app_l in Hj by done.
    rewrite Forall_lookup in Hno. by eapply Hno. }
  destruct (find_awaits q p _ Hfind) as [Haw Hgot]. split; [done|]. rewrite Hgot. unfold complete, p. cbn [reqs todo].
  rewrite insert_app_r_alt, Nat.sub_diag by done. cbn [advance insert list_insert]. by rewrite list_lookup_middle.
Qed.

(** Posting a list of sends and waiting for all of them. *)
Lemma isend_all_post ms rs hs k :
  advance rs (isend_all ms hs k) = advance (rs ++ ((λ m, ToSend m.1 m.2) <$> ms)) (k (hs ++ seq (length rs) (length ms))).
Proof.
  revert rs hs; induction ms as [|[d v] ms IH]; intros rs hs; [by rewrite !app_nil_r|]. cbn. rewrite IH, <-!app_assoc, length_app. cbn.
  by rewrite Nat.add_1_r.
Qed.

Lemma follows_wait_all i ms rs k : Forall (λ r, ∀ j, ¬ to_send j r) rs → NoDup ms.*1 → i ∉ ms.*1 →
  follows i ((λ m, (i, m.1, m.2)) <$> ms)
    (advance (rs ++ ((λ m, ToSend m.1 m.2) <$> ms)) (wait_all (seq (length rs) (length ms)) k)) (advance (rs ++ replicate (length ms) Sent) k).
Proof.
  revert rs; induction ms as [|[d v] ms IH]; intros rs Hrs Hnd Hi; [done|]. cbn in Hnd, Hi. apply NoDup_cons in Hnd as [Hd Hnd]. apply not_elem_of_cons in Hi as [Hid Hi].
  cbn [fmap list_fmap follows ready part fst snd]. rewrite (decide_True (P := i = i)), (decide_False (P := i = d)) by done. cbn [length seq wait_all foldr].
  assert (Hlk : (rs ++ ToSend d v :: ((λ m, ToSend m.1 m.2) <$> ms)) !! length rs = Some (ToSend d v)) by (by rewrite list_lookup_middle).
  cbn [advance]. rewrite Hlk. set (p := mk_proc _ _).
  assert (Hfind : list_find (to_send d) (reqs p) = Some (length rs, ToSend d v)).
  { apply list_find_Some. split_and!; [done|done|]. intros j y Hj Hlt. cbn in Hj. rewrite lookup_app_l in Hj by done.
    rewrite Forall_lookup in Hrs. by eapply Hrs. }
  destruct (find_offers d p _ _ Hfind) as [Hof Hsent]. split; [done|]. rewrite Hsent. unfold complete, p. cbn [reqs todo].
  rewrite insert_app_r_alt, Nat.sub_diag by done. cbn [advance insert list_insert]. rewrite list_lookup_middle by done.
  assert (H := IH (rs ++ [Sent])). rewrite length_app, Nat.add_1_r, <-!app_assoc in H. cbn in H. apply H; [|done|done].
  apply Forall_app. split; [done|]. apply Forall_singleton. by intros j [].
Qed.

Lemma follows_isend_all i ms rs k : Forall (λ r, ∀ j, ¬ to_send j r) rs → NoDup ms.*1 → i ∉ ms.*1 →
  follows i ((λ m, (i, m.1, m.2)) <$> ms) (advance rs (isend_all ms [] (λ hs, wait_all hs k))) (advance (rs ++ replicate (length ms) Sent) k).
Proof. intros. rewrite isend_all_post. by apply follows_wait_all. Qed.

End code.
Arguments code : clear implicits.
Arguments req : clear implicits.
Arguments proc : clear implicits.
End MsgReq.
