(* ===== verification/CollReduce.v ===== *)
(** * Reductions over a communicator ([ompi/mca/coll/base])

    Allreduce by recursive doubling and the linear and recursive doubling scans, each
    as the program of one rank.  The content of a buffer is a value of [A] and [op]
    is what [ompi_op_reduce] computes: [op source target] replaces the target.  A
    local variable that points to one of two buffers is kept as that.  [None] as
    the buffer argument is [MPI_IN_PLACE].  The result of a program is the content of
    the receive buffer when it returns [MPI_SUCCESS]; [None] would be a loop that
    has not ended or an [int] that overflows.  Memory is there and the point-to-point layer reports no errors. *)

From stdpp Require Import base numbers list.
From S2P Require Import Prelude BitOps MsgPass MsgProg.

Module CollReduce.
Import BitOps MsgProg.

Section reduce.
Context {A : Type} (op : A → A → A) (is_commute : bool) (size rank : nat).

Abbreviation program := (prog A (option A)).

(** ** Allreduce by recursive doubling *)

(** The two buffers; [tmpsend] is [rbuf] when [swapped]. *)
Record ar := mk_ar { inplacebuf : A; rbuf : A; swapped : bool }.

Definition tmpsend (s : ar) : A := if swapped s then rbuf s else inplacebuf s.
Definition tmprecv (s : ar) : A := if swapped s then inplacebuf s else rbuf s.
Definition set_tmprecv (s : ar) (v : A) : ar := if swapped s then mk_ar v (rbuf s) true else mk_ar (inplacebuf s) v false.
Definition set_tmpsend (s : ar) (v : A) : ar := if swapped s then mk_ar (inplacebuf s) v true else mk_ar v (rbuf s) false.
Definition swap (s : ar) : ar := mk_ar (inplacebuf s) (rbuf s) (negb (swapped s)).

Definition adjsize : nat := Nat.div2 (opal_next_poweroftwo size).
Definition extra_ranks : nat := size - adjsize.

(** The result goes back to the ranks that were left out, and into [rbuf]. *)
Definition ar_copy (s : ar) : program := Ret (Some (if negb (swapped s) then inplacebuf s else rbuf s)).

Definition ar_finish (s : ar) : program :=
  if rank <? 2 * extra_ranks then
    if rank mod 2 =? 0 then recv (rank + 1) (λ v, Ret (Some v))
    else send (rank - 1) (tmpsend s) (ar_copy s)
  else ar_copy s.

(** [newrank] is [None] for [-1]. *)
Fixpoint ar_loop (fuel distance : nat) (newrank : option nat) (s : ar) : program :=
  match fuel with
  | O => Ret None
  | S f =>
      if distance <? adjsize then
        match newrank with
        | None => ar_finish s
        | Some newrank =>
            let newremote := Nat.lxor newrank distance in
            let remote := if newremote <? extra_ranks then newremote * 2 + 1 else newremote + extra_ranks in
            sendrecv remote (tmpsend s) remote (λ v,
              let s := set_tmprecv s v in
              ar_loop f (2 * distance) (Some newrank)
                (if rank <? remote then swap (set_tmprecv s (op (tmpsend s) (tmprecv s)))
                 else set_tmpsend s (op (tmprecv s) (tmpsend s))))
        end
      else ar_finish s
  end.

Definition ompi_coll_base_allreduce_intra_recursivedoubling (sbuf : option A) (rbuf : A) : program :=
  if size =? 1 then Ret (Some (default rbuf sbuf))
  else
    let s := mk_ar (default rbuf sbuf) rbuf false in
    if rank <? 2 * extra_ranks then
      if rank mod 2 =? 0 then send (rank + 1) (tmpsend s) (ar_loop (S adjsize) 1 None s)
      else recv (rank - 1) (λ v,
        let s := set_tmprecv s v in
        ar_loop (S adjsize) 1 (Some (Nat.div2 rank)) (set_tmpsend s (op (tmprecv s) (tmpsend s))))
    else ar_loop (S adjsize) 1 (Some (rank - extra_ranks)) s.

(** ** Scans *)

Definition ompi_coll_base_scan_intra_linear (sbuf : option A) (rbuf : A) : program :=
  let rbuf := default rbuf sbuf in
  let rest rbuf := if rank <? size - 1 then send (rank + 1) rbuf (Ret (Some rbuf)) else Ret (Some rbuf) in
  if rank =? 0 then rest rbuf else recv (rank - 1) (λ pml_buffer, rest (op pml_buffer rbuf)).

Definition ompi_coll_base_exscan_intra_linear (sbuf : option A) (rbuf : A) : program :=
  let sbuf := default rbuf sbuf in
  if rank =? 0 then send (rank + 1) sbuf (Ret (Some rbuf))
  else if size - 1 =? rank then recv (rank - 1) (λ rbuf, Ret (Some rbuf))
  else
    let reduce_buffer := sbuf in
    recv (rank - 1) (λ rbuf, send (rank + 1) (op rbuf reduce_buffer) (Ret (Some rbuf))).

(** The partial result after [precv] has come from [remote]. *)
Definition scan_psend (remote : nat) (psend precv : A) : A :=
  if remote <? rank then op precv psend else if is_commute then op precv psend else op psend precv.

(** [mask] is an [int]: doubling it past [2^30] is undefined. *)
Fixpoint scan_loop (fuel mask : nat) (recvbuf psend : A) : program :=
  match fuel with
  | O => Ret None
  | S f =>
      let next recvbuf psend := if fits (2 * mask) then scan_loop f (2 * mask) recvbuf psend else Ret None in
      if mask <? size then
        let remote := Nat.lxor rank mask in
        if remote <? size then
          sendrecv remote psend remote (λ precv,
            next (if remote <? rank then op precv recvbuf else recvbuf) (scan_psend remote psend precv))
        else next recvbuf psend
      else Ret (Some recvbuf)
  end.

Definition ompi_coll_base_scan_intra_recursivedoubling (count : nat) (sendbuf : option A) (recvbuf : A) : program :=
  if count =? 0 then Ret (Some recvbuf)
  else
    let recvbuf := default recvbuf sendbuf in
    if size <? 2 then Ret (Some recvbuf) else scan_loop (S size) 1 recvbuf recvbuf.

Fixpoint exscan_loop (fuel mask : nat) (is_first_block : bool) (recvbuf psend : A) : program :=
  match fuel with
  | O => Ret None
  | S f =>
      let next first recvbuf psend := if fits (2 * mask) then exscan_loop f (2 * mask) first recvbuf psend else Ret None in
      if mask <? size then
        let remote := Nat.lxor rank mask in
        if remote <? size then
          sendrecv remote psend remote (λ precv,
            if remote <? rank then
              next false (if is_first_block then precv else op precv recvbuf) (scan_psend remote psend precv)
            else next is_first_block recvbuf (scan_psend remote psend precv))
        else next is_first_block recvbuf psend
      else Ret (Some recvbuf)
  end.

Definition ompi_coll_base_exscan_intra_recursivedoubling (count : nat) (sendbuf : option A) (recvbuf : A) : program :=
  if count =? 0 then Ret (Some recvbuf)
  else if size <? 2 then Ret (Some recvbuf)
  else exscan_loop (S size) 1 true recvbuf (default recvbuf sendbuf).

End reduce.
End CollReduce.
