(* ===== verification/CollReduceSpec.v ===== *)
(** * Reductions combine the contributions of all ranks in order

    For an associative operation, commutative or not, allreduce gives every rank the
    contributions of all ranks combined in rank order, a scan those of the ranks up to
    its own, an exclusive scan those before it: in every run, whatever the order in
    which processes run and messages are buffered, and no run gets stuck.  The
    algorithms by recursive doubling work on blocks: after [m] rounds a rank has the
    combination of its aligned block of [2^m] ranks. *)

From stdpp Require Import base numbers list relations.
From S2P Require Import Prelude BitOps MsgPass MsgProg CollReduce.

Module CollReduceSpec.
Export BitOps MsgProg CollReduce.

(** ** Partners and blocks *)

Definition bstart (m q : nat) : nat := q / 2 ^ m * 2 ^ m.

Lemma bstart_le m q : bstart m q ≤ q < bstart m q + 2 ^ m.
Proof. pose proof (pow2_pos m). unfold bstart. pose proof (Nat.div_mod_eq q (2 ^ m)). pose proof (Nat.mod_upper_bound q (2 ^ m)). lia. Qed.

Lemma bstart_small m q : q < 2 ^ m → bstart m q = 0.
Proof. intros H. unfold bstart. by rewrite Nat.div_small. Qed.

Lemma bstart_S m q : bstart (S m) q = q / 2 ^ m / 2 * 2 * 2 ^ m.
Proof. unfold bstart. rewrite Nat.pow_succ_r', (Nat.mul_comm 2), <-Nat.Div0.div_div. lia. Qed.

(** The lower of two partners ... *)
Lemma partner_up m q : Nat.testbit q m = false →
  Nat.lxor q (2 ^ m) = q + 2 ^ m ∧ bstart (S m) q = bstart m q ∧ bstart m (q + 2 ^ m) = bstart m q + 2 ^ m ∧
  bstart (S m) (q + 2 ^ m) = bstart m q ∧ Nat.testbit (q + 2 ^ m) m = true.
Proof.
  intros E. pose proof (pow2_pos m). pose proof (lxor_pow2 q m) as Hx. rewrite E in Hx. split; [done|].
  assert (Hbit : Nat.testbit (q + 2 ^ m) m = true) by (by rewrite <-Hx, Nat.lxor_spec, E, Nat.pow2_bits_true).
  assert (Hq : q / 2 ^ m mod 2 = 0).
  { apply Nat.testbit_false in E. done. }
  assert (Hd : (q + 2 ^ m) / 2 ^ m = q / 2 ^ m + 1) by (replace (q + 2 ^ m) with (q + 1 * 2 ^ m) by lia; apply Nat.div_add; lia).
  rewrite !bstart_S, Hd. unfold bstart. rewrite Hd. set (d := q / 2 ^ m) in *.
  pose proof (Nat.div_mod_eq d 2). assert ((d + 1) / 2 = d / 2) as ->.
  { rewrite (Nat.div_mod_eq d 2) at 1. rewrite Hq, Nat.add_0_r, (Nat.mul_comm 2), Nat.add_comm, Nat.div_add by lia. done. }
  split_and!; try done; [|lia|]; f_equal; lia.
Qed.

(** ... and the upper one. *)
Lemma partner_down m q : Nat.testbit q m = true →
  2 ^ m ≤ q ∧ Nat.lxor q (2 ^ m) = q - 2 ^ m ∧ bstart m q = bstart m (q - 2 ^ m) + 2 ^ m ∧
  bstart (S m) q = bstart m (q - 2 ^ m) ∧ bstart (S m) (q - 2 ^ m) = bstart m (q - 2 ^ m) ∧ Nat.testbit (q - 2 ^ m) m = false.
Proof.
  intros E. pose proof (pow2_pos m). pose proof (lxor_pow2 q m) as Hx. rewrite E in Hx.
  assert (Hge : 2 ^ m ≤ q).
  { destruct (decide (2 ^ m ≤ q)) as [|Hlt]; [done|]. rewrite Nat.bits_above_log2 in E; [done|].
    destruct (decide (q = 0)) as [->|]; [cbn|apply Nat.log2_lt_pow2; lia].
    destruct m; [|lia]. by rewrite Nat.bits_0 in E. }
  assert (Hb : Nat.testbit (q - 2 ^ m) m = false) by (by rewrite <-Hx, Nat.lxor_spec, E, Nat.pow2_bits_true).
  destruct (partner_up m (q - 2 ^ m) Hb) as (_ & H1 & H2 & H3 & _). replace (q - 2 ^ m + 2 ^ m) with q in * by lia. done.
Qed.

Lemma partner_involutive m q : Nat.lxor (Nat.lxor q (2 ^ m)) (2 ^ m) = q.
Proof. by rewrite Nat.lxor_assoc, Nat.lxor_nilpotent, Nat.lxor_0_r. Qed.

(** ** Combining a range of contributions *)

Section red.
Context {A : Type} (op : A → A → A) (Hassoc : ∀ a b c, op a (op b c) = op (op a b) c) (x : nat → A).

(** Those of [lo .. lo + k], in order. *)
Fixpoint red (lo k : nat) : A := match k with O => x lo | S k => op (red lo k) (x (lo + S k)) end.

Lemma red_app lo j k : op (red lo j) (red (lo + S j) k) = red lo (j + S k).
Proof.
  induction k as [|k IH]; [by rewrite Nat.add_1_r|]. cbn [red]. rewrite Hassoc, IH, (Nat.add_succ_r j (S k)). cbn [red].
  do 2 f_equal. lia.
Qed.

Lemma red_join lo j mid k l : mid = lo + S j → l = j + S k → op (red lo j) (red mid k) = red lo l.
Proof. intros -> ->. apply red_app. Qed.

End red.
(** ** Rounds *)

(** As many as it takes for the distance to reach [n]. *)
Lemma pow2_rounds {V R} (n : nat) (Inv : nat → list (prog V R) → Prop) ps :
  (∀ m ps, 2 ^ m < n → Inv m ps → ∃ ps', Inv (S m) ps' ∧ rtc xfer ps ps') → Inv 0 ps →
  ∃ ps', Inv (Nat.log2_up n) ps' ∧ rtc xfer ps ps'.
Proof.
  intros Hstep H0. assert (H : ∀ m, m ≤ Nat.log2_up n → ∃ ps', Inv m ps' ∧ rtc xfer ps ps'); [|by apply H].
  induction m as [|m IH]; intros Hm; [by exists ps|]. destruct IH as (ps1 & H1 & Hx1); [lia|].
  destruct (Hstep m ps1) as (ps2 & H2 & Hx2); [|done|exists ps2; split; [done|by etrans]].
  destruct (decide (1 < n)) as [Hn|Hn]; [|rewrite Nat.log2_up_eqn0 in Hm; lia].
  pose proof (Nat.log2_up_spec n Hn) as [Hlow _]. pose proof (Nat.pow_le_mono_r 2 m (Nat.pred (Nat.log2_up n))). lia.
Qed.

(** ** Scans *)

Section scan.
Context {A : Type} (op : A → A → A) (Hassoc : ∀ a b c, op a (op b c) = op (op a b) c).
Context (is_commute : bool) (Hcomm : is_commute = true → ∀ a b, op a b = op b a) (n : nat) (x : nat → A).

Abbreviation red := (red op x).

Lemma scan_psend_order i j a b : scan_psend op is_commute i j a b = if j <? i then op b a else op a b.
Proof. unfold scan_psend. destruct (j <? i), is_commute eqn:E; try done. by apply Hcomm. Qed.

(** The partner of round [m], if there is one. *)
Definition partner (m i : nat) : option nat := let j := Nat.lxor i (2 ^ m) in if j <? n then Some j else None.

Lemma partner_sym m i j : i < n → partner m i = Some j → j < n ∧ partner m j = Some i.
Proof.
  intros Hi H. unfold partner in *. destruct (Nat.ltb_spec (Nat.lxor i (2 ^ m)) n) as [Hl|]; [|done]. injection H as <-.
  rewrite partner_involutive. by rewrite (proj2 (Nat.ltb_lt i n) Hi).
Qed.

(** [p i] is the combination of the block of [i], when the block is complete. *)
Definition blocks (m : nat) (p : nat → A) : Prop := ∀ i, i < n → bstart m i + 2 ^ m ≤ n → p i = red (bstart m i) (2 ^ m - 1).

Definition next_block (m : nat) (p : nat → A) (i : nat) : A :=
  match partner m i with Some j => scan_psend op is_commute i j (p i) (p j) | None => p i end.

Lemma next_block_ok m p : blocks m p → blocks (S m) (next_block m p).
Proof.
  intros Hp i Hi Hb. pose proof (pow2_pos m). rewrite Nat.pow_succ_r' in Hb |- *. unfold next_block, partner.
  destruct (Nat.testbit i m) eqn:E.
  - destruct (partner_down m i E) as (Hge & -> & Hbi & HbS & _ & _). rewrite HbS in *. pose proof (bstart_le m (i - 2 ^ m)).
    rewrite (proj2 (Nat.ltb_lt _ _)) by lia. rewrite scan_psend_order, (proj2 (Nat.ltb_lt _ _)) by lia.
    rewrite (Hp i), (Hp (i - 2 ^ m)) by lia. apply red_join; [done|lia|lia].
  - destruct (partner_up m i E) as (-> & HbS & Hbj & _). rewrite HbS in *. pose proof (bstart_le m i).
    rewrite (proj2 (Nat.ltb_lt _ _)) by lia. rewrite scan_psend_order, (proj2 (Nat.ltb_ge _ _)) by lia.
    rewrite (Hp i), (Hp (i + 2 ^ m)) by lia. apply red_join; [done|lia|lia].
Qed.

(** The result so far: the block up to the own rank. *)
Definition prefixes (m : nat) (r : nat → A) : Prop := ∀ i, i < n → r i = red (bstart m i) (i - bstart m i).

Definition next_prefix (m : nat) (p r : nat → A) (i : nat) : A :=
  match partner m i with Some j => if j <? i then op (p j) (r i) else r i | None => r i end.

(** The block below the partner is complete. *)
Lemma lower_block m p i : blocks m p → i < n → Nat.testbit i m = true → p (i - 2 ^ m) = red (bstart m (i - 2 ^ m)) (2 ^ m - 1).
Proof.
  intros Hp Hi E. destruct (partner_down m i E) as (Hge & _ & Hbi & _). pose proof (bstart_le m i). apply Hp; lia.
Qed.

Lemma next_prefix_ok m p r : blocks m p → prefixes m r → prefixes (S m) (next_prefix m p r).
Proof.
  intros Hp Hr i Hi. pose proof (pow2_pos m). unfold next_prefix, partner. destruct (Nat.testbit i m) eqn:E.
  - pose proof (lower_block m p i Hp Hi E) as Hlow. destruct (partner_down m i E) as (Hge & -> & Hbi & HbS & _). pose proof (bstart_le m i).
    rewrite (proj2 (Nat.ltb_lt _ _)), (proj2 (Nat.ltb_lt _ _)) by lia. rewrite Hlow, (Hr i Hi), HbS. apply red_join; [done|lia|lia].
  - destruct (partner_up m i E) as (-> & HbS & _). rewrite HbS, <-Hr by done. destruct (i + 2 ^ m <? n); [|done].
    by rewrite (proj2 (Nat.ltb_ge _ _)) by lia.
Qed.

Lemma settle_scan_loop i fuel mask r p : settle (scan_loop op is_commute n i fuel mask r p) = scan_loop op is_commute n i fuel mask r p.
Proof. revert mask r p; induction fuel as [|f IH]; intros mask r p; [done|]. cbn [scan_loop]. destruct (mask <? n); [|done]. destruct (_ <? n); [done|]. destruct (fits _); [apply IH|done]. Qed.

Definition scan_at (m : nat) (r p : nat → A) (i : nat) : prog A (option A) := scan_loop op is_commute n i (S n - m) (2 ^ m) (r i) (p i).

(** The next mask is an [int] as long as there are at most [2^30] ranks. *)
Lemma mask_fits m : 2 ^ m < n → n ≤ max_ranks → fits (2 * 2 ^ m) = true.
Proof. intros Hm Hn. apply fits_iff. lia. Qed.

Lemma scan_round m r p : n ≤ max_ranks → 2 ^ m < n →
  rtc xfer (all n (scan_at m r p)) (all n (scan_at (S m) (next_prefix m p r) (next_block m p))).
Proof.
  intros Hmax Hm. assert (Hmn : m < n) by (pose proof (Nat.pow_gt_lin_r 2 m ltac:(lia)); lia).
  apply (round_of n (partner m) (partner m) p).
  - apply partner_sym.
  - intros i j Hj H. by apply partner_sym.
  - intros i Hi. unfold joins_round, scan_at, next_prefix, next_block. replace (S n - m) with (S (n - m)) by lia. cbn [scan_loop].
    rewrite (proj2 (Nat.ltb_lt _ _) Hm), mask_fits by done. unfold partner.
    destruct (Nat.lxor i (2 ^ m) <? n) eqn:E; [|by rewrite Nat.pow_succ_r'].
    eexists. split; [done|]. cbn beta. rewrite settle_scan_loop, Nat.pow_succ_r'. done.
Qed.

Lemma red_base (p : nat → A) : (∀ i, p i = x i) → blocks 0 p ∧ prefixes 0 p.
Proof.
  intros Hp. unfold blocks, prefixes, bstart. split; intros i Hi; rewrite Nat.pow_0_r, Nat.div_1_r, Nat.mul_1_r; [by intros _|].
  by rewrite Nat.sub_diag.
Qed.

Lemma scan_xfer : 1 ≤ n ≤ max_ranks → ∃ r, (∀ i, i < n → r i = red 0 i) ∧
  rtc xfer (all n (scan_at 0 x x)) (all n (λ i, Ret (Some (r i)))).
Proof.
  intros [Hn Hmax]. destruct (red_base x) as [Hb Hp]; [done|].
  destruct (pow2_rounds n (λ m ps, ∃ r p, blocks m p ∧ prefixes m r ∧ ps = all n (scan_at m r p)) (all n (scan_at 0 x x)))
    as (ps & (r & p & _ & Hr & ->) & Hx); [|by exists x, x|].
  - intros m ps Hm (r & p & Hb' & Hp' & ->). eexists. split; [|by apply scan_round].
    exists (next_prefix m p r), (next_block m p). split_and!; [by apply next_block_ok|by apply next_prefix_ok|done].
  - pose proof (Nat.log2_log2_up_spec n ltac:(lia)) as [_ Hup]. exists r. split.
    { intros i Hi. rewrite (Hr i Hi), bstart_small by lia. by rewrite Nat.sub_0_r. }
    rewrite (all_ext n (λ i, Ret (Some (r i))) (scan_at (Nat.log2_up n) r p)); [done|]. intros i Hi. unfold scan_at. pose proof (Nat.log2_up_le_lin n ltac:(lia)).
    replace (S n - Nat.log2_up n) with (S (n - Nat.log2_up n)) by lia. cbn [scan_loop]. by rewrite (proj2 (Nat.ltb_ge _ _)) by lia.
Qed.

(** The exclusive scan: the block up to the rank before the own one, if there is one. *)
Definition exclusive (rb : nat → A) (m : nat) (f : nat → bool) (r : nat → A) : Prop := ∀ i, i < n →
  if i =? bstart m i then f i = true ∧ r i = rb i else f i = false ∧ r i = red (bstart m i) (i - 1 - bstart m i).

Definition next_first (m : nat) (f : nat → bool) (i : nat) : bool :=
  match partner m i with Some j => if j <? i then false else f i | None => f i end.
Definition next_exclusive (m : nat) (f : nat → bool) (p r : nat → A) (i : nat) : A :=
  match partner m i with Some j => if j <? i then if f i then p j else op (p j) (r i) else r i | None => r i end.

Lemma next_exclusive_ok rb m f p r : blocks m p → exclusive rb m f r → exclusive rb (S m) (next_first m f) (next_exclusive m f p r).
Proof.
  intros Hp Hr i Hi. pose proof (pow2_pos m). specialize (Hr i Hi). pose proof (bstart_le m i).
  unfold next_first, next_exclusive, partner. destruct (Nat.testbit i m) eqn:E.
  - pose proof (lower_block m p i Hp Hi E) as Hlow. destruct (partner_down m i E) as (Hge & -> & Hbi & HbS & _).
    rewrite HbS. rewrite (proj2 (Nat.ltb_lt _ _)), (proj2 (Nat.ltb_lt _ _)), (proj2 (Nat.eqb_neq _ _)) by lia. split; [done|]. rewrite Hlow.
    destruct (Nat.eqb_spec i (bstart m i)) as [Heq|]; destruct Hr as [-> Hri]; [f_equal; lia|rewrite Hri; apply red_join; [done|lia|lia]].
  - destruct (partner_up m i E) as (-> & -> & _). destruct (i + 2 ^ m <? n); [|done].
    by rewrite (proj2 (Nat.ltb_ge (i + 2 ^ m) i)) by lia.
Qed.

Lemma settle_exscan_loop i fuel mask f r p :
  settle (exscan_loop op is_commute n i fuel mask f r p) = exscan_loop op is_commute n i fuel mask f r p.
Proof.
  revert mask f r p; induction fuel as [|g IH]; intros mask f r p; [done|]. cbn [exscan_loop].
  destruct (mask <? n); [|done]. destruct (_ <? n); [done|]. destruct (fits _); [apply IH|done].
Qed.

Definition exscan_at (m : nat) (f : nat → bool) (r p : nat → A) (i : nat) : prog A (option A) :=
  exscan_loop op is_commute n i (S n - m) (2 ^ m) (f i) (r i) (p i).

Lemma exscan_round m f r p : n ≤ max_ranks → 2 ^ m < n →
  rtc xfer (all n (exscan_at m f r p)) (all n (exscan_at (S m) (next_first m f) (next_exclusive m f p r) (next_block m p))).
Proof.
  intros Hmax Hm. assert (Hmn : m < n) by (pose proof (Nat.pow_gt_lin_r 2 m ltac:(lia)); lia).
  apply (round_of n (partner m) (partner m) p).
  - apply partner_sym.
  - intros i j Hj H. by apply partner_sym.
  - intros i Hi. unfold joins_round, exscan_at, next_first, next_exclusive, next_block. replace (S n - m) with (S (n - m)) by lia.
    cbn [exscan_loop]. rewrite (proj2 (Nat.ltb_lt _ _) Hm), mask_fits by done. unfold partner.
    destruct (Nat.lxor i (2 ^ m) <? n) eqn:E; [|by rewrite Nat.pow_succ_r'].
    eexists. split; [done|]. cbn beta. destruct (_ <? i); rewrite settle_exscan_loop, Nat.pow_succ_r'; done.
Qed.

Lemma exscan_xfer rb : 1 ≤ n ≤ max_ranks → ∃ r, (∀ i, i < n → r i = if i =? 0 then rb i else red 0 (i - 1)) ∧
  rtc xfer (all n (exscan_at 0 (λ _, true) rb x)) (all n (λ i, Ret (Some (r i)))).
Proof.
  intros [Hn Hmax]. destruct (red_base x) as [Hb _]; [done|].
  destruct (pow2_rounds n (λ m ps, ∃ f r p, blocks m p ∧ exclusive rb m f r ∧ ps = all n (exscan_at m f r p)) (all n (exscan_at 0 (λ _, true) rb x)))
    as (ps & (f & r & p & _ & Hr & ->) & Hx).
  - intros m ps Hm (f & r & p & Hb' & Hp' & ->). eexists. split; [|by apply exscan_round].
    exists (next_first m f), (next_exclusive m f p r), (next_block m p). split_and!; [by apply next_block_ok|by apply next_exclusive_ok|done].
  - exists (λ _, true), rb, x. split_and!; try done. intros i Hi. unfold bstart. by rewrite Nat.pow_0_r, Nat.div_1_r, Nat.mul_1_r, Nat.eqb_refl.
  - pose proof (Nat.log2_log2_up_spec n ltac:(lia)) as [_ Hup]. exists r. split.
    { intros i Hi. specialize (Hr i Hi). rewrite bstart_small in Hr by lia. destruct (i =? 0); destruct Hr as [_ ->]; [done|f_equal; lia]. }
    rewrite (all_ext n (λ i, Ret (Some (r i))) (exscan_at (Nat.log2_up n) f r p)); [done|]. intros i Hi. unfold exscan_at.
    pose proof (Nat.log2_up_le_lin n ltac:(lia)). replace (S n - Nat.log2_up n) with (S (n - Nat.log2_up n)) by lia.
    cbn [exscan_loop]. by rewrite (proj2 (Nat.ltb_ge _ _)) by lia.
Qed.

(** A chain: each rank waits for the one before it, then serves the one after it. *)
Lemma chain_xfer (first : nat → prog A (option A)) (fin : nat → prog A (option A)) (val : nat → A) :
  1 ≤ n →
  (∀ i, S i < n → ∃ k, first (S i) = recv i k ∧ settle (k (val i)) = if S (S i) <? n then send (S (S i)) (val (S i)) (fin (S i)) else fin (S i)) →
  first 0 = (if 1 <? n then send 1 (val 0) (fin 0) else fin 0) → (∀ i, settle (fin i) = fin i) →
  rtc xfer (all n first) (all n fin).
Proof.
  intros Hn Hrec H0 Hfin.
  set (now := λ m i, if i <? m then fin i else if i =? m then if S i <? n then send (S i) (val i) (fin i) else fin i else first i).
  assert (Hm : ∀ m, m < n → rtc xfer (all n first) (all n (now m))).
  { induction m as [|m IH]; intros Hlt.
    - rewrite (all_ext n (now 0) first); [done|]. intros [|i] Hi; [by rewrite H0|done].
    - transitivity (all n (now m)); [apply IH; lia|]. clear IH.
      apply (round_of n (λ i, if i =? m then Some (S m) else None) (λ i, if i =? S m then Some m else None) val).
      + intros i j Hi. destruct (Nat.eqb_spec i m) as [->|]; [|done]. intros [= <-]. by rewrite Nat.eqb_refl.
      + intros i j Hj. destruct (Nat.eqb_spec j (S m)) as [->|]; [|done]. intros [= <-]. rewrite Nat.eqb_refl. split; [lia|done].
      + intros i Hi. unfold now. destruct (Nat.eqb_spec i m) as [->|Hne].
        { rewrite (proj2 (Nat.eqb_neq m (S m))), Nat.ltb_irrefl, (proj2 (Nat.ltb_lt (S m) n)), (proj2 (Nat.ltb_lt m (S m))) by lia.
          exists (fin m). by rewrite Hfin. }
        destruct (Nat.eqb_spec i (S m)) as [->|Hne2].
        { destruct (Hrec m Hlt) as (k & Hk & Hset). rewrite Nat.ltb_irrefl, (proj2 (Nat.ltb_ge (S m) m)) by lia. exists k. by rewrite Hset. }
        destruct (Nat.ltb_spec i m), (Nat.ltb_spec i (S m)); try lia; done. }
  specialize (Hm (n - 1) ltac:(lia)). rewrite (all_ext n fin (now (n - 1))); [done|]. intros i Hi. unfold now.
  destruct (Nat.ltb_spec i (n - 1)); [done|]. rewrite (proj2 (Nat.eqb_eq _ _)) by lia. by rewrite (proj2 (Nat.ltb_ge _ _)) by lia.
Qed.

End scan.

(** What a rank contributes; [None] is [MPI_IN_PLACE]. *)
Definition contribution {A} (sbuf : nat → option A) (rbuf : nat → A) (i : nat) : A := default (rbuf i) (sbuf i).

(** C21: An inclusive scan over a communicator of at most [2^30] ranks ([max_ranks]) gives rank [i] the
    contributions of ranks [0 .. i] combined in rank order, with the linear algorithm
    and with recursive doubling, for an associative operation (that commutes if it says
    so) and with or without [MPI_IN_PLACE].  This holds in every run: whatever the
    order of the processes and whether a send returns before its receive is posted, no
    run is stuck before all ranks have returned, none is longer than a bound, and no
    message is left. *)
Theorem scan_spec {A} (op : A → A → A) is_commute n count sbuf rbuf :
  (∀ a b c, op a (op b c) = op (op a b) c) → (is_commute = true → ∀ a b, op a b = op b a) → 1 ≤ n ≤ max_ranks → count ≠ 0 →
  let res := (λ i, Some (red op (contribution sbuf rbuf) 0 i)) <$> seq 0 n in
  always_gives (all n (λ i, ompi_coll_base_scan_intra_linear op n i (sbuf i) (rbuf i))) res ∧
  always_gives (all n (λ i, ompi_coll_base_scan_intra_recursivedoubling op is_commute n i count (sbuf i) (rbuf i))) res.
Proof.
  intros Hassoc Hcomm Hn Hc res. set (x := contribution sbuf rbuf). split.
  - apply (always_gives_xfer _ (all n (λ i, Ret (Some (red op x 0 i))))); [|by apply finished_all].
    apply (chain_xfer n _ _ (red op x 0) (proj1 Hn)); [|..|done].
    + intros i Hi. unfold ompi_coll_base_scan_intra_linear. rewrite (proj2 (Nat.eqb_neq (S i) 0)), !Nat.sub_1_r by lia. cbn [Nat.pred].
      eexists. split; [done|]. cbn beta. replace (S i <? Nat.pred n) with (S (S i) <? n); [by rewrite Nat.add_1_r; destruct (_ <? n)|].
      destruct (Nat.ltb_spec (S (S i)) n), (Nat.ltb_spec (S i) (Nat.pred n)); lia.
    + unfold ompi_coll_base_scan_intra_linear. cbn [Nat.eqb]. replace (0 <? n - 1) with (1 <? n); [done|].
      destruct (Nat.ltb_spec 1 n), (Nat.ltb_spec 0 (n - 1)); lia.
  - destruct (scan_xfer op Hassoc is_commute Hcomm n x Hn) as (r & Hr & Hx).
    unfold ompi_coll_base_scan_intra_recursivedoubling. rewrite (proj2 (Nat.eqb_neq count 0) Hc).
    destruct (Nat.ltb_spec n 2) as [Hlt|Hge].
    + apply (always_gives_xfer _ _ _ (rtc_refl _ _)), finished_all. intros i Hi. by replace i with 0 by lia.
    + eapply always_gives_xfer; [exact Hx|]. apply finished_all. intros i Hi. by rewrite (Hr i Hi).
Qed.

(** An exclusive scan over two or more, at most [2^30], ranks gives rank [i > 0] the contributions
    of ranks [0 .. i - 1] combined in rank order and leaves the receive buffer of rank 0
    as it is, with the linear algorithm and with recursive doubling, in every run, and
    every run ends. *)
Theorem exscan_spec {A} (op : A → A → A) is_commute n count sbuf rbuf :
  (∀ a b c, op a (op b c) = op (op a b) c) → (is_commute = true → ∀ a b, op a b = op b a) → 2 ≤ n ≤ max_ranks → count ≠ 0 →
  let res := (λ i, Some (if i =? 0 then rbuf i else red op (contribution sbuf rbuf) 0 (i - 1))) <$> seq 0 n in
  always_gives (all n (λ i, ompi_coll_base_exscan_intra_linear op n i (sbuf i) (rbuf i))) res ∧
  always_gives (all n (λ i, ompi_coll_base_exscan_intra_recursivedoubling op is_commute n i count (sbuf i) (rbuf i))) res.
Proof.
  intros Hassoc Hcomm Hn Hc res. set (x := contribution sbuf rbuf). split.
  - apply (always_gives_xfer _ (all n (λ i, Ret (Some (if i =? 0 then rbuf i else red op x 0 (i - 1)))))); [|by apply finished_all].
    apply (chain_xfer n _ _ (red op x 0)); [lia|..|done].
    + intros i Hi. unfold ompi_coll_base_exscan_intra_linear. rewrite (proj2 (Nat.eqb_neq (S i) 0)), (Nat.sub_1_r (S i)) by lia.
      cbn [Nat.pred]. destruct (Nat.ltb_spec (S (S i)) n) as [Hlt|Hge].
      * rewrite (proj2 (Nat.eqb_neq _ _)) by lia. eexists. split; [done|]. by rewrite Nat.add_1_r.
      * rewrite (proj2 (Nat.eqb_eq _ _)) by lia. by eexists.
    + by rewrite (proj2 (Nat.ltb_lt 1 n)) by lia.
  - destruct (exscan_xfer op Hassoc is_commute Hcomm n x rbuf ltac:(lia)) as (r & Hr & Hx).
    unfold ompi_coll_base_exscan_intra_recursivedoubling.
    rewrite (proj2 (Nat.eqb_neq count 0) Hc), (proj2 (Nat.ltb_ge n 2) (proj1 Hn)).
    eapply always_gives_xfer; [exact Hx|]. apply finished_all. intros i Hi. by rewrite (Hr i Hi).
Qed.

(** ** Allreduce by recursive doubling *)

Section allreduce.
Context {A : Type} (op : A → A → A) (Hassoc : ∀ a b c, op a (op b c) = op (op a b) c).
Context (n : nat) (Hn : 2 ≤ n) (Hmax : n < max_ranks) (x : nat → A).

Abbreviation adj := (adjsize n).
Abbreviation extra := (extra_ranks n).

Lemma adjsize_pow2 : adj = 2 ^ Nat.log2 n.
Proof.
  unfold adjsize. pose proof max_ranks_bits. rewrite next_poweroftwo_log2, (proj2 (Nat.eqb_neq n 0)) by lia.
  rewrite Nat.pow_succ_r'. by rewrite Nat.div2_double.
Qed.

Lemma adjsize_bounds : 2 ≤ adj ∧ adj + extra = n ∧ extra < adj.
Proof.
  pose proof (Nat.log2_spec n ltac:(lia)) as [H1 H2]. rewrite Nat.pow_succ_r' in H2. unfold extra_ranks. rewrite adjsize_pow2.
  assert (1 ≤ Nat.log2 n) by (apply Nat.log2_le_pow2; cbn; lia). pose proof (Nat.pow_le_mono_r 2 1 (Nat.log2 n)) as Hp. cbn in Hp. lia.
Qed.

(** The ranks of the main phase and their ranks in the communicator. *)
Definition old (q : nat) : nat := if q <? extra then q * 2 + 1 else q + extra.
Definition new (i : nat) : option nat :=
  if i <? 2 * extra then if i mod 2 =? 0 then None else Some (Nat.div2 i) else Some (i - extra).

Lemma new_old q : q < adj → new (old q) = Some q ∧ old q < n.
Proof.
  intros Hq. pose proof adjsize_bounds as (_ & ? & ?). unfold new, old. destruct (Nat.ltb_spec q extra).
  - rewrite (proj2 (Nat.ltb_lt _ _)) by lia. rewrite Nat.add_comm, Nat.Div0.mod_add, (Nat.mul_comm q). change (1 mod 2 =? 0) with false.
    split; [|lia]. f_equal. rewrite Nat.add_1_l. apply Nat.div2_succ_double.
  - rewrite (proj2 (Nat.ltb_ge _ _)) by lia. split; [f_equal; lia|lia].
Qed.

Lemma old_new i q : i < n → new i = Some q → q < adj ∧ i = old q.
Proof.
  pose proof adjsize_bounds as (_ & ? & ?). unfold new, old. intros Hi. destruct (Nat.ltb_spec i (2 * extra)).
  - destruct (Nat.eqb_spec (i mod 2) 0); [done|]. intros [= <-]. rewrite Nat.div2_div. pose proof (Nat.div_mod_eq i 2).
    pose proof (Nat.mod_upper_bound i 2). rewrite (proj2 (Nat.ltb_lt _ _)); lia.
  - intros [= <-]. rewrite (proj2 (Nat.ltb_ge _ _)); lia.
Qed.

Lemma old_lt p q : p < q → old p < old q.
Proof. intros H. unfold old. destruct (Nat.ltb_spec p extra), (Nat.ltb_spec q extra); lia. Qed.

(** What the rank of the main phase starts with. *)
Definition merged (q : nat) : A := if q <? extra then op (x (q * 2)) (x (q * 2 + 1)) else x (q + extra).

Lemma red_merged q : red op merged 0 q = red op x 0 (old q).
Proof.
  induction q as [|q IH].
  - unfold merged, old. cbn [red]. destruct (Nat.ltb_spec 0 extra); [done|]. by replace extra with 0 by lia.
  - cbn [red]. rewrite IH. unfold merged, old. cbn [Nat.add].
    destruct (Nat.ltb_spec q extra), (Nat.ltb_spec (S q) extra); try lia.
    + replace (S q * 2 + 1) with (S (S (q * 2 + 1))) by lia. cbn [red]. rewrite <-Hassoc. do 3 f_equal; lia.
    + replace (q * 2 + 1) with (q + extra) by lia. done.
    + done.
Qed.

Lemma red_merged_all : red op merged 0 (adj - 1) = red op x 0 (n - 1).
Proof.
  pose proof adjsize_bounds as (? & ? & ?). rewrite red_merged. f_equal. unfold old. rewrite (proj2 (Nat.ltb_ge _ _)); lia.
Qed.

(** *** The buffers *)

Lemma tmpsend_set_tmpsend (s : ar) (v : A) : tmpsend (set_tmpsend s v) = v.
Proof. by destruct s as [? ? []]. Qed.
Lemma tmpsend_set_tmprecv (s : ar) (v : A) : tmpsend (set_tmprecv s v) = tmpsend s.
Proof. by destruct s as [? ? []]. Qed.
Lemma tmprecv_set_tmprecv (s : ar) (v : A) : tmprecv (set_tmprecv s v) = v.
Proof. by destruct s as [? ? []]. Qed.
Lemma tmpsend_swap (s : ar) : tmpsend (swap s) = tmprecv (A:=A) s.
Proof. by destruct s as [? ? []]. Qed.
Lemma ar_copy_tmpsend (s : ar) : ar_copy s = Ret (Some (tmpsend (A:=A) s)).
Proof. by destruct s as [? ? []]. Qed.

Lemma settle_ar_loop i fuel d q s : settle (ar_loop op n i fuel d q s) = ar_loop op n i fuel d q s.
Proof.
  assert (Hf : settle (ar_finish n i s) = ar_finish n i s).
  { unfold ar_finish. destruct (i <? _); [|done]. by destruct (i mod 2 =? 0). }
  destruct fuel; [done|]. cbn [ar_loop]. destruct (d <? adj); [|done]. by destruct q.
Qed.

(** *** The phases *)

Definition wait_result (i : nat) : prog A (option A) := recv (i + 1) (λ v, Ret (Some v)).

Definition main_at (m : nat) (σ : nat → ar) (i : nat) : prog A (option A) :=
  match new i with None => wait_result i | Some q => ar_loop op n i (S adj - m) (2 ^ m) (Some q) (σ i) end.

Definition main_blocks (m : nat) (σ : nat → ar) : Prop :=
  ∀ i q, i < n → new i = Some q → tmpsend (σ i) = red op merged (bstart m q) (2 ^ m - 1).

(** One exchange. *)
Definition exchange (i remote : nat) (s : ar) (v : A) : ar :=
  let s := set_tmprecv s v in
  if i <? remote then swap (set_tmprecv s (op (tmpsend s) (tmprecv s))) else set_tmpsend s (op (tmprecv s) (tmpsend s)).

Lemma tmpsend_exchange i remote s v : tmpsend (exchange i remote s v) = if i <? remote then op (tmpsend s) v else op v (tmpsend s).
Proof.
  unfold exchange. destruct (i <? remote).
  - by rewrite tmpsend_swap, !tmprecv_set_tmprecv, tmpsend_set_tmprecv.
  - by rewrite tmpsend_set_tmpsend, tmprecv_set_tmprecv, tmpsend_set_tmprecv.
Qed.

Definition main_partner (m i : nat) : option nat := q ← new i; Some (old (Nat.lxor q (2 ^ m))).

Definition main_next (m : nat) (σ : nat → ar) (i : nat) : ar :=
  match main_partner m i with Some j => exchange i j (σ i) (tmpsend (σ j)) | None => σ i end.

Lemma lxor_small m q : 2 ^ m < adj → q < adj → Nat.lxor q (2 ^ m) < adj.
Proof.
  rewrite adjsize_pow2. intros Hm Hq. apply Nat.pow_lt_mono_r_iff in Hm; [|lia].
  destruct (decide (Nat.lxor q (2 ^ m) = 0)) as [->|]; [apply pow2_pos|].
  apply Nat.log2_lt_pow2; [lia|]. eapply Nat.le_lt_trans; [apply Nat.log2_lxor|]. rewrite Nat.log2_pow2 by lia.
  destruct (decide (q = 0)) as [->|]; [cbn; lia|]. apply Nat.max_lub_lt; [apply Nat.log2_lt_pow2; lia|lia].
Qed.

Lemma main_partner_sym m i j : 2 ^ m < adj → i < n → main_partner m i = Some j → j < n ∧ main_partner m j = Some i.
Proof.
  intros Hm Hi. unfold main_partner. destruct (new i) as [q|] eqn:E; [|done]. cbn. intros [= <-].
  destruct (old_new i q Hi E) as [Hq ->]. destruct (new_old (Nat.lxor q (2 ^ m))) as [-> ?]; [by apply lxor_small|]. cbn.
  by rewrite partner_involutive.
Qed.

Lemma main_next_ok m σ : 2 ^ m < adj → main_blocks m σ → main_blocks (S m) (main_next m σ).
Proof.
  intros Hm Hb i q Hi E. pose proof (pow2_pos m). destruct (old_new i q Hi E) as [Hq Hi']. pose proof (lxor_small m q Hm Hq) as Hp.
  destruct (new_old _ Hp) as [E' Hj]. unfold main_next, main_partner. rewrite E. cbn [mbind option_bind]. rewrite tmpsend_exchange.
  rewrite (Hb _ _ Hi E), (Hb _ _ Hj E'), Nat.pow_succ_r', Hi'. destruct (Nat.testbit q m) eqn:Eb.
  - destruct (partner_down m q Eb) as (Hge & -> & Hbi & -> & _). pose proof (old_lt (q - 2 ^ m) q ltac:(lia)).
    rewrite (proj2 (Nat.ltb_ge _ _)) by lia. apply red_join; [done|lia|lia].
  - destruct (partner_up m q Eb) as (-> & -> & Hbj & _). pose proof (old_lt q (q + 2 ^ m) ltac:(lia)).
    rewrite (proj2 (Nat.ltb_lt _ _)) by lia. apply red_join; [done|lia|lia].
Qed.

Lemma main_round m σ : 2 ^ m < adj → rtc xfer (all n (main_at m σ)) (all n (main_at (S m) (main_next m σ))).
Proof.
  intros Hm. assert (Hmn : m < adj) by (pose proof (Nat.pow_gt_lin_r 2 m ltac:(lia)); lia).
  apply (round_of n (main_partner m) (main_partner m) (λ i, tmpsend (σ i))).
  - intros i j. by apply main_partner_sym.
  - intros i j Hj H. by apply main_partner_sym.
  - intros i Hi. unfold joins_round, main_at, main_next, main_partner. destruct (new i) as [q|]; [|done]. cbn [mbind option_bind].
    replace (S adj - m) with (S (adj - m)) by lia. cbn [ar_loop]. rewrite (proj2 (Nat.ltb_lt _ _) Hm).
    eexists. split; [done|]. cbn beta. rewrite settle_ar_loop, Nat.pow_succ_r'. done.
Qed.

(** The ranks that are left out: the even ones below [2 * extra_ranks], served by the next one. *)
Definition left_out (i : nat) : bool := (i <? 2 * extra) && (i mod 2 =? 0).
Definition serves (i : nat) : bool := (i <? 2 * extra) && negb (i mod 2 =? 0).

Lemma left_out_next i : left_out i = true → serves (i + 1) = true ∧ i + 1 < n.
Proof.
  pose proof adjsize_bounds as (_ & ? & ?). intros [Hi%Nat.ltb_lt He%Nat.eqb_eq]%andb_prop. pose proof (Nat.div_mod_eq i 2).
  unfold serves. rewrite (proj2 (Nat.ltb_lt (i + 1) _)) by lia. split; [|lia]. rewrite Nat.Div0.add_mod, He. done.
Qed.

Lemma serves_prev i : serves i = true → left_out (i - 1) = true ∧ 0 < i.
Proof.
  intros [Hi%Nat.ltb_lt He%negb_true_iff%Nat.eqb_neq]%andb_prop. pose proof (Nat.div_mod_eq i 2). pose proof (Nat.mod_upper_bound i 2).
  unfold left_out. rewrite (proj2 (Nat.ltb_lt (i - 1) _)) by lia. split; [|destruct i; [done|lia]]. apply Nat.eqb_eq.
  replace (i - 1) with (0 + i / 2 * 2) by lia. by rewrite Nat.Div0.mod_add.
Qed.

Lemma to_served i j : (if left_out i then Some (i + 1) else None) = Some j → j < n ∧ (if serves j then Some (j - 1) else None) = Some i.
Proof. destruct (left_out i) eqn:E; [|done]. intros [= <-]. destruct (left_out_next i E) as [-> ?]. by rewrite Nat.add_sub. Qed.

Lemma to_left_out i j : j < n → (if serves j then Some (j - 1) else None) = Some i → i < n ∧ (if left_out i then Some (i + 1) else None) = Some j.
Proof.
  intros Hj. destruct (serves j) eqn:E; [|done]. intros [= <-]. destruct (serves_prev j E) as [-> ?]. split; [lia|f_equal; lia].
Qed.

Definition main_start (rb : nat → A) (i : nat) : ar :=
  let s := mk_ar (x i) (rb i) false in
  if i <? 2 * extra then let s := set_tmprecv s (x (i - 1)) in set_tmpsend s (op (tmprecv s) (tmpsend s)) else s.

Lemma main_start_blocks rb : main_blocks 0 (main_start rb).
Proof.
  intros i q Hi E. destruct (old_new i q Hi E) as [Hq ->]. unfold bstart. rewrite Nat.pow_0_r, Nat.div_1_r, Nat.mul_1_r. cbn [Nat.sub red].
  unfold main_start, merged, old. destruct (Nat.ltb_spec q extra).
  - rewrite (proj2 (Nat.ltb_lt _ _)) by lia. rewrite tmpsend_set_tmpsend, tmprecv_set_tmprecv, tmpsend_set_tmprecv. cbn [tmpsend swapped inplacebuf].
    by rewrite Nat.add_sub.
  - by rewrite (proj2 (Nat.ltb_ge _ _)) by lia.
Qed.

Lemma first_phase sbuf rb : (∀ i, x i = default (rb i) (sbuf i)) →
  rtc xfer (all n (λ i, ompi_coll_base_allreduce_intra_recursivedoubling op n i (sbuf i) (rb i))) (all n (main_at 0 (main_start rb))).
Proof.
  intros Hx. pose proof adjsize_bounds as (? & ? & ?).
  apply (round_of n (λ i, if left_out i then Some (i + 1) else None) (λ i, if serves i then Some (i - 1) else None) x).
  - intros i j _. apply to_served.
  - apply to_left_out.
  - intros i Hi. unfold ompi_coll_base_allreduce_intra_recursivedoubling, main_at, main_start, left_out, serves, new, joins_round.
    rewrite (proj2 (Nat.eqb_neq n 1)), <-Hx by lia. destruct (i <? 2 * extra) eqn:El; cbn [andb]; [|done].
    destruct (i mod 2 =? 0) eqn:Ee; cbn [negb andb].
    + eexists. split; [done|]. rewrite settle_ar_loop. cbn [ar_loop]. rewrite (proj2 (Nat.ltb_lt 1 adj)) by lia. unfold ar_finish.
      by rewrite El, Ee.
    + eexists. split; [done|]. cbn beta. by rewrite settle_ar_loop.
Qed.

Lemma last_phase σ v : (∀ i q, i < n → new i = Some q → tmpsend (σ i) = v) →
  rtc xfer (all n (main_at (Nat.log2 n) σ)) (all n (λ _, Ret (Some v))).
Proof.
  intros Hv. pose proof adjsize_bounds as (? & ? & ?). pose proof (Nat.log2_lt_lin n ltac:(lia)).
  assert (Hl : Nat.log2 n < adj) by (rewrite adjsize_pow2; apply Nat.pow_gt_lin_r; lia).
  apply (round_of n (λ i, if serves i then Some (i - 1) else None) (λ i, if left_out i then Some (i + 1) else None) (λ _, v)).
  - intros i j Hi H'. by apply to_left_out.
  - intros i j Hj H'. destruct (to_served j i H'). done.
  - intros i Hi. specialize (Hv i). unfold main_at, joins_round, serves, left_out, wait_result. unfold new in *.
    replace (S adj - Nat.log2 n) with (S (adj - Nat.log2 n)) by lia. cbn [ar_loop]. rewrite <-adjsize_pow2, Nat.ltb_irrefl. unfold ar_finish.
    rewrite ar_copy_tmpsend. destruct (i <? 2 * extra) eqn:El; cbn [andb]; [|by erewrite Hv].
    destruct (i mod 2 =? 0) eqn:Ee; cbn [negb andb]; [by eexists|]. erewrite Hv by done. by eexists.
Qed.

Lemma allreduce_xfer sbuf rb : (∀ i, x i = default (rb i) (sbuf i)) →
  rtc xfer (all n (λ i, ompi_coll_base_allreduce_intra_recursivedoubling op n i (sbuf i) (rb i))) (all n (λ _, Ret (Some (red op x 0 (n - 1))))).
Proof.
  intros Hx. etrans; [by apply first_phase|]. pose proof (main_start_blocks rb) as H0.
  destruct (pow2_rounds adj (λ m ps, ∃ σ, main_blocks m σ ∧ ps = all n (main_at m σ)) (all n (main_at 0 (main_start rb))))
    as (ps & (σ & Hσ & ->) & Hr); [|by eexists|].
  - intros m ps Hm (σ & Hσ & ->). eexists. split; [|by apply main_round]. eexists. split; [by apply main_next_ok|done].
  - etrans; [exact Hr|]. rewrite adjsize_pow2 in *. rewrite Nat.log2_up_pow2 in * by lia. apply last_phase.
    intros i q Hi E. rewrite (Hσ i q Hi E), <-adjsize_pow2, bstart_small, red_merged_all; [done|].
    rewrite <-adjsize_pow2. by apply old_new with i.
Qed.

End allreduce.

(** C17: Allreduce by recursive doubling gives every rank the contributions of all ranks
    combined in rank order, for an associative operation, commutative or not, and any
    number of ranks below [2^30], a power of two or not.  This holds in every run,
    whatever the order of the processes and of buffered and synchronous sends, every run
    ends and leaves no message. *)
Theorem allreduce_recursivedoubling_spec {A} (op : A → A → A) n sbuf rbuf :
  (∀ a b c, op a (op b c) = op (op a b) c) → 1 ≤ n < max_ranks →
  always_gives (all n (λ i, ompi_coll_base_allreduce_intra_recursivedoubling op n i (sbuf i) (rbuf i)))
    ((λ _, Some (red op (contribution sbuf rbuf) 0 (n - 1))) <$> seq 0 n).
Proof.
  intros Hassoc [Hn Hmax]. destruct (decide (n = 1)) as [->|]; [by apply (always_gives_xfer _ _ _ (rtc_refl _ _))|].
  eapply always_gives_xfer; [apply allreduce_xfer; [done|lia|done|done]|by apply finished_all].
Qed.

(** Six ranks that contribute one letter each, with concatenation as the operation. *)
Lemma allreduce_recursivedoubling_witness :
  always_gives (all 6 (λ i, ompi_coll_base_allreduce_intra_recursivedoubling app 6 i (Some [i]) []))
    (replicate 6 (Some [0; 1; 2; 3; 4; 5])).
Proof. exact (allreduce_recursivedoubling_spec app 6 (λ i, Some [i]) (λ _, []) (@app_assoc nat) ltac:(split; [lia|apply (small_size 3); cbn; lia])). Defined.

Lemma scan_witness :
  always_gives (all 5 (λ i, ompi_coll_base_scan_intra_recursivedoubling app false 5 i 1 (Some [i]) []))
    [Some [0]; Some [0; 1]; Some [0; 1; 2]; Some [0; 1; 2; 3]; Some [0; 1; 2; 3; 4]].
Proof.
  refine (proj2 (scan_spec app false 5 1 (λ i, Some [i]) (λ _, []) (@app_assoc nat) ltac:(done) (conj _ _) ltac:(lia))); [lia|apply Nat.lt_le_incl, (small_size 3); cbn; lia].
Defined.

Lemma exscan_witness :
  always_gives (all 5 (λ i, ompi_coll_base_exscan_intra_recursivedoubling app false 5 i 1 None [i]))
    [Some [0]; Some [0]; Some [0; 1]; Some [0; 1; 2]; Some [0; 1; 2; 3]].
Proof.
  refine (proj2 (exscan_spec app false 5 1 (λ _, None) (λ i, [i]) (@app_assoc nat) ltac:(done) (conj _ _) ltac:(lia))); [lia|apply Nat.lt_le_incl, (small_size 3); cbn; lia].
Defined.

End CollReduceSpec.
