(* ===== verification/CollTopo.v ===== *)
(** * Trees over the ranks of a communicator ([ompi/mca/coll/base/coll_base_topo.c])

    Every rank computes its own place in the tree: its parent and its children.  [None]
    is [NULL]; the last argument of a function is whether there is memory.  When there
    is, [None] is a loop that does not end, a write after the end of an array, or an
    [int] that overflows: where products or powers are formed the result is tested with
    [fits], the other values stay below twice the size.  In a tree, [tree_prev] is [None] for
    [-1] and [MPI_PROC_NULL], and [tree_next] is the list of the first [tree_nextsize]
    entries of the array, the only ones that are ever read. *)

From stdpp Require Import base numbers list.
From S2P Require Import Prelude BitOps.

Module CollTopo.
Import BitOps.
Local Open Scope c_scope.
Local Open Scope nat_scope.

Record ompi_coll_tree_t := mk_tree { tree_root : nat; tree_prev : option nat; tree_next : list nat }.

Definition MAXTREEFANOUT : nat := 32.

(** ** Trees of a given fanout *)

(** The partial products are not above the result. *)
Definition pown (fanout num : nat) : option nat :=
  let p := if 1 =? num then fanout else if 2 =? fanout then Nat.shiftl 1 num else Nat.iter num (λ p, p * fanout) 1 in
  safe fits p; Some p.

Fixpoint level_loop (fuel fanout rank level num : nat) : option nat :=
  match fuel with
  | O => None
  | S f =>
      if num <=? rank then
        p ← pown fanout level;
        safe fits (num + p); level_loop f fanout rank (S level) (num + p)
      else Some (level - 1)
  end.

Definition calculate_level (fanout rank : nat) : option nat := level_loop (S (S rank)) fanout rank 0 0.

Definition calculate_num_nodes_up_to_level (fanout level : nat) : option nat :=
  if 1 =? fanout then Some level else p ← pown fanout level; Some ((p - 1) / (fanout - 1)).

(** The rank relative to the root. *)
Definition shiftedrank (size rank root : nat) : nat := if rank <? root then rank + size - root else rank - root.

Fixpoint tree_children (k i size root delta shiftedrank : nat) : option (list nat) :=
  match k with
  | O => Some []
  | S k =>
      let schild := shiftedrank + delta * (i + 1) in
      safe fits schild;
      if schild <? size then
        next ← tree_children k (i + 1) size root delta shiftedrank;
        Some ((schild + root) mod size :: next)
      else Some []
  end.

Fixpoint parent_loop (fuel slimit dec sparent : nat) : option nat :=
  match fuel with
  | O => None
  | S f => if slimit <=? sparent then parent_loop f slimit dec (sparent - dec) else Some sparent
  end.

Definition ompi_coll_base_topo_build_tree (fanout size rank root : nat) (mem : bool) : option ompi_coll_tree_t :=
  if fanout <? 1 then None
  else if MAXTREEFANOUT <? fanout then None
  else if negb mem then None
  else if size <? 2 then Some (mk_tree root None [])
  else
    let shiftedrank := shiftedrank size rank root in
    level ← calculate_level fanout shiftedrank;
    delta ← pown fanout level;
    next ← tree_children fanout 0 size root delta shiftedrank;
    slimit ← calculate_num_nodes_up_to_level fanout level;
    sparent ← (if shiftedrank <? fanout then Some 0 else parent_loop (S shiftedrank) slimit (delta / fanout) shiftedrank);
    Some (mk_tree root (Some ((sparent + root) mod size)) next).

(** ** The in-order binary tree *)

(** The variables are [int]s that become negative. *)
Fixpoint in_order_loop (fuel : nat) (size myrank parent delta : Z) (prev : option nat) : option (option nat * list nat) :=
  match fuel with
  | O => None
  | S f =>
      let rightsize := (size / 2)%Z in
      let lchild := if (size - 1 >? 0)%Z then (parent - 1)%Z else (-1)%Z in
      let rchild := if (size - 1 >? 0)%Z && (lchild >? 0)%Z then (rightsize - 1)%Z else (-1)%Z in
      if (myrank =? parent)%Z then
        Some (prev, (if (0 <=? lchild)%Z then [Z.to_nat (lchild + delta)] else []) ++
                    (if (0 <=? rchild)%Z then [Z.to_nat (rchild + delta)] else []))
      else if (myrank >? rchild)%Z then
        let prev := if (myrank =? lchild)%Z then Some (Z.to_nat (parent + delta)) else prev in
        let size := (size - rightsize - 1)%Z in
        in_order_loop f size (myrank - rightsize) (size - 1) (delta + rightsize) prev
      else
        let prev := if (myrank =? rchild)%Z then Some (Z.to_nat (parent + delta)) else prev in
        in_order_loop f rightsize myrank rchild delta prev
  end.

Definition ompi_coll_base_topo_build_in_order_bintree (size rank : nat) (mem : bool) : option ompi_coll_tree_t :=
  if negb mem then None
  else
    '(prev, next) ← in_order_loop (S size) (Z.of_nat size) (Z.of_nat rank) (Z.of_nat size - 1) 0 None;
    Some (mk_tree (size - 1) prev next).

(** ** Binomial trees *)

Fixpoint bm_children (fuel mask index size root childs : nat) : option (list nat) :=
  match fuel with
  | O => None
  | S f =>
      if mask <? size then
        let remote := Nat.lxor index mask in
        if size <=? remote then Some []
        else
          let remote := remote + root in
          let remote := if size <=? remote then remote - size else remote in
          if childs =? MAXTREEFANOUT then None
          else next ← bm_children f (2 * mask) index size root (S childs); Some (remote :: next)
      else Some []
  end.

Definition ompi_coll_base_topo_build_bmtree (size rank root : nat) (mem : bool) : option ompi_coll_tree_t :=
  if negb mem then None
  else
    let index := shiftedrank size rank root in
    let mask := opal_next_poweroftwo index in
    let prev :=
      if root =? rank then root
      else let remote := Nat.lxor index (Nat.div2 mask) + root in if size <=? remote then remote - size else remote in
    next ← bm_children (S size) mask index size root 0;
    Some (mk_tree root (Some prev) next).

Fixpoint in_order_bm_loop (fuel mask vrank size root childs : nat) (prev : option nat) : option (option nat * list nat) :=
  match fuel with
  | O => None
  | S f =>
      if mask <? size then
        let remote := Nat.lxor vrank mask in
        if remote <? vrank then Some (Some ((remote + root) mod size), [])
        else if remote <? size then
          if S childs =? MAXTREEFANOUT then None
          else
            '(prev, next) ← in_order_bm_loop f (2 * mask) vrank size root (S childs) prev;
            Some (prev, (remote + root) mod size :: next)
        else in_order_bm_loop f (2 * mask) vrank size root childs prev
      else Some (prev, [])
  end.

Definition ompi_coll_base_topo_build_in_order_bmtree (size rank root : nat) (mem : bool) : option ompi_coll_tree_t :=
  if negb mem then None
  else
    let vrank := (rank + size - root) mod size in
    '(prev, next) ← in_order_bm_loop (S size) 1 vrank size root 0 (if root =? rank then Some root else None);
    Some (mk_tree root prev next).

(** ** The k-nomial tree *)

Fixpoint log_loop (fuel i comm_size radix log_radix : nat) : option nat :=
  match fuel with
  | O => None
  | S f =>
      if i <? comm_size then safe fits (i * radix); log_loop f (i * radix) comm_size radix (S log_radix)
      else Some log_radix
  end.

(** The parent and the value of [mask] after the loop. *)
Fixpoint km_parent (fuel mask vrank comm_size root radix : nat) : option (option nat * nat) :=
  match fuel with
  | O => None
  | S f =>
      if mask <? comm_size then
        safe fits (radix * mask);
        if vrank mod (radix * mask) =? 0 then km_parent f (mask * radix) vrank comm_size root radix
        else Some (Some ((vrank / (radix * mask) * (radix * mask) + root) mod comm_size), mask)
      else Some (None, mask)
  end.

(** The children [vrank + mask * r] for [r], [r + 1], ... below [radix]. *)
Fixpoint km_row (k r mask vrank comm_size root : nat) : option (list nat) :=
  match k with
  | O => Some []
  | S k =>
      let child := vrank + mask * r in
      safe fits child;
      rest ← km_row k (S r) mask vrank comm_size root;
      Some (if child <? comm_size then (child + root) mod comm_size :: rest else rest)
  end.

Fixpoint km_children (fuel mask vrank comm_size root radix : nat) : option (list nat) :=
  match fuel with
  | O => None
  | S f =>
      if 0 <? mask then
        row ← km_row (radix - 1) 1 mask vrank comm_size root;
        rest ← km_children f (mask / radix) vrank comm_size root radix;
        Some (row ++ rest)
      else Some []
  end.

(** The array has [nchilds_max] entries. *)
Definition ompi_coll_base_topo_build_kmtree (comm_size rank root radix : nat) (mem : bool) : option ompi_coll_tree_t :=
  log_radix ← log_loop (S comm_size) 1 comm_size radix 0;
  let nchilds_max := (radix - 1) * log_radix in
  let vrank := (rank + comm_size - root) mod comm_size in
  if negb mem then None
  else
    '(prev, mask) ← km_parent (S comm_size) 1 vrank comm_size root radix;
    next ← km_children (S mask) (mask / radix) vrank comm_size root radix;
    if length next <=? nchilds_max then Some (mk_tree root prev next) else None.

(** ** Chains *)

(** The heads of the chains, from the second one on. *)
Fixpoint chain_heads (k i prev maxchainlen mark size : nat) : list nat :=
  match k with
  | O => []
  | S k =>
      let next := ((if mark <? i then prev + maxchainlen - 1 else prev + maxchainlen) mod size) in
      next :: chain_heads k (S i) next maxchainlen mark size
  end.

Definition ompi_coll_base_topo_build_chain (fanout size rank root : nat) (mem : bool) : option ompi_coll_tree_t :=
  let fanout := if fanout <? 1 then 1 else fanout in
  let fanout := if MAXTREEFANOUT <? fanout then MAXTREEFANOUT else fanout in
  if negb mem then None
  else
    let fanout := if size - 1 <? fanout then size - 1 else fanout in
    let srank := shiftedrank size rank root in
    if fanout =? 1 then
      Some (mk_tree root (if srank =? 0 then None else Some ((srank - 1 + root) mod size))
                    (if size <=? srank + 1 then [] else [(srank + 1 + root) mod size]))
    else if size =? 1 then Some (mk_tree root None [])
    else
      let exact := (size - 1) mod fanout =? 0 in
      let maxchainlen := if exact then (size - 1) / fanout else (size - 1) / fanout + 1 in
      let mark := if exact then fanout + 1 else (size - 1) mod fanout in
      if negb (srank =? 0) then
        let '(head, len) :=
          if srank - 1 <? mark * maxchainlen then
            let column := (srank - 1) / maxchainlen in (1 + column * maxchainlen, maxchainlen)
          else
            let column := mark + (srank - 1 - mark * maxchainlen) / (maxchainlen - 1) in
            (mark * maxchainlen + 1 + (column - mark) * (maxchainlen - 1), maxchainlen - 1) in
        let prev := if srank =? head then 0 else srank - 1 in
        let next := if srank =? head + len - 1 then [] else if srank + 1 <? size then [(srank + 1 + root) mod size] else [] in
        Some (mk_tree root (Some ((prev + root) mod size)) next)
      else
        let first := (root + 1) mod size in
        Some (mk_tree root None (first :: chain_heads (fanout - 1) 1 first maxchainlen mark size)).

End CollTopo.
