(* ===== verification/CollTopoSpec.v ===== *)
(** * The builders make spanning trees

    Every rank computes only its own parent and children.  [Spans] says that the
    answers of all ranks fit together: the ranks have places [0 .. n-1] with the root
    at place 0, the parent of a rank has an earlier place, and the children a rank
    knows are exactly the ranks that have it as parent, each once.  It is what
    broadcast and reduction rely on. *)

From stdpp Require Import base numbers list.
From S2P Require Import Prelude BitOps CollTopo.

Module CollTopoSpec.
Export BitOps CollTopo.

Record placed (n root : nat) (t : nat → ompi_coll_tree_t) (at' par : nat → nat) (cs : nat → list nat) : Prop := {
  at_lt s : s < n → at' s < n;
  at_inj s s' : s < n → s' < n → at' s = at' s' → s = s';
  at_onto i : i < n → ∃ s, s < n ∧ at' s = i;
  at_0 : at' 0 = root;
  par_lt c : 0 < c < n → par c < c;
  prev_par c : 0 < c < n → tree_prev (t (at' c)) = Some (at' (par c));
  cs_nodup s : s < n → NoDup (cs s);
  cs_spec s c : s < n → c ∈ cs s ↔ 0 < c < n ∧ par c = s;
  next_cs s : s < n → tree_next (t (at' s)) = at' <$> cs s;
  root_at i : i < n → tree_root (t i) = root;
}.

Class Spans (n root : nat) (t : nat → ompi_coll_tree_t) : Prop := spans : ∃ at' par cs, placed n root t at' par cs.

(** ** Places relative to the root *)

Section shift.
Context (n root : nat) (Hroot : root < n).

Definition unshift (s : nat) : nat := (s + root) mod n.

Lemma unshift_eq s : s < n → unshift s = if n <=? s + root then s + root - n else s + root.
Proof.
  intros Hs. unfold unshift. destruct (Nat.leb_spec n (s + root)) as [H|H]; [|by rewrite Nat.mod_small].
  replace (s + root) with ((s + root - n) + 1 * n) at 1 by lia. rewrite Nat.Div0.mod_add, Nat.mod_small by lia. done.
Qed.

Lemma unshift_lt s : unshift s < n.
Proof. apply Nat.mod_upper_bound. lia. Qed.

Lemma shift_unshift s : s < n → shiftedrank n (unshift s) root = s.
Proof. intros Hs. rewrite unshift_eq by done. unfold shiftedrank. destruct (Nat.leb_spec n (s + root)), (Nat.ltb_spec (s + root - n) root), (Nat.ltb_spec (s + root) root); lia. Qed.

Lemma unshift_shift i : i < n → shiftedrank n i root < n ∧ unshift (shiftedrank n i root) = i.
Proof.
  intros Hi. unfold shiftedrank. destruct (Nat.ltb_spec i root).
  - split; [lia|]. rewrite unshift_eq, (proj2 (Nat.leb_le _ _)) by lia. lia.
  - split; [lia|]. rewrite unshift_eq, (proj2 (Nat.leb_gt _ _)) by lia. lia.
Qed.

Lemma shift_mod i : i < n → (i + n - root) mod n = shiftedrank n i root.
Proof.
  intros Hi. unfold shiftedrank. destruct (Nat.ltb_spec i root); [apply Nat.mod_small; lia|].
  replace (i + n - root) with ((i - root) + 1 * n) by lia. rewrite Nat.Div0.mod_add. apply Nat.mod_small. lia.
Qed.

(** A builder whose answers are a tree on the places. *)
Lemma spans_shifted (t : nat → option ompi_coll_tree_t) (prev : nat → option nat) (par : nat → nat) (cs : nat → list nat) :
  (∀ i, i < n → t i = Some (mk_tree root (prev (shiftedrank n i root)) (unshift <$> cs (shiftedrank n i root)))) →
  (∀ c, 0 < c < n → par c < c ∧ prev c = Some (unshift (par c))) →
  (∀ s, s < n → NoDup (cs s) ∧ ∀ c, c ∈ cs s ↔ 0 < c < n ∧ par c = s) →
  ∃ T, (∀ i, i < n → t i = Some (T i)) ∧ Spans n root T.
Proof.
  intros Ht Hpar Hcs. exists (λ i, mk_tree root (prev (shiftedrank n i root)) (unshift <$> cs (shiftedrank n i root))). split; [done|].
  exists unshift, par, cs. split; try done.
  - intros s _. apply unshift_lt.
  - intros s s' Hs Hs' H. rewrite <-(shift_unshift s), <-(shift_unshift s') by done. by rewrite H.
  - intros i Hi. destruct (unshift_shift i Hi). by eexists.
  - unfold unshift. by apply Nat.mod_small.
  - intros c Hc. by apply Hpar.
  - intros c Hc. cbn. rewrite shift_unshift by lia. by apply Hpar.
  - intros s Hs. by apply Hcs.
  - intros s c Hs. by apply Hcs.
  - intros s Hs. cbn. by rewrite shift_unshift.
Qed.

End shift.

(** ** Trees of a given fanout *)

Section fanout.
Context (f : nat) (Hf : 1 ≤ f).

(** The number of places on the first [l] levels. *)
Fixpoint nodes (l : nat) : nat := match l with O => 0 | S l => nodes l + f ^ l end.

Lemma fpow_pos l : 0 < f ^ l.
Proof. apply Nat.neq_0_lt_0, Nat.pow_nonzero. lia. Qed.

Lemma nodes_ge l : l ≤ nodes l.
Proof. induction l as [|l IH]; cbn [nodes]; [lia|]. pose proof (fpow_pos l). lia. Qed.

Lemma nodes_le l m : l ≤ m → nodes l ≤ nodes m.
Proof. induction 1; [done|]. cbn [nodes]. lia. Qed.

Lemma pown_pow l : f ^ l < 2 * max_ranks → pown f l = Some (f ^ l).
Proof.
  intros Hl%fits_iff. unfold pown. enough ((if 1 =? l then f else if 2 =? f then Nat.shiftl 1 l else Nat.iter l (λ p, p * f) 1) = f ^ l) as -> by (by rewrite Hl).
  clear. destruct (Nat.eqb_spec 1 l) as [<-|]; [by rewrite Nat.pow_1_r|]. destruct (Nat.eqb_spec 2 f) as [<-|]; [apply Nat.shiftl_1_l|].
  clear. induction l as [|l IH]; [done|]. rewrite Nat.iter_succ, IH, Nat.pow_succ_r'. lia.
Qed.

(** The level of a place. *)
Definition on_level (l s : nat) : Prop := nodes l ≤ s < nodes (S l).

Lemma on_level_inj l m s : on_level l s → on_level m s → l = m.
Proof.
  intros [Hl Hl'] [Hm Hm']. destruct (decide (l < m)) as [H|]; [pose proof (nodes_le (S l) m H); lia|].
  destruct (decide (m < l)) as [H|]; [pose proof (nodes_le (S m) l H)|]; lia.
Qed.

Fixpoint level_from (fuel l s : nat) : nat :=
  match fuel with O => l - 1 | S fuel => if nodes l <=? s then level_from fuel (S l) s else l - 1 end.
Definition level_of (s : nat) : nat := level_from (S s) 0 s.

Lemma level_from_spec fuel s l : (l = 0 ∨ nodes (l - 1) ≤ s) → s < fuel + l → on_level (level_from fuel l s) s.
Proof.
  revert l; induction fuel as [|fuel IH]; intros l Hl Hfuel; cbn [level_from].
  - pose proof (nodes_ge l). destruct Hl; [lia|]. destruct l as [|l]; [lia|]. rewrite Nat.sub_1_r in *. cbn [Nat.pred] in *. split; [done|lia].
  - destruct (Nat.leb_spec (nodes l) s) as [Hle|Hgt].
    + apply IH; [right; by rewrite Nat.sub_1_r|lia].
    + destruct l as [|l]; [by cbn in Hgt; lia|]. destruct Hl as [|Hl]; [lia|]. rewrite Nat.sub_1_r in *. done.
Qed.

Lemma level_of_spec s : on_level (level_of s) s.
Proof. apply level_from_spec; [by left|lia]. Qed.

Lemma nodes_mul l : nodes (S l) = 1 + f * nodes l.
Proof. induction l as [|l IH]; [cbn; lia|]. cbn [nodes] in *. rewrite Nat.pow_succ_r'. lia. Qed.

(** The values of the loop are [int]s. *)
Lemma level_loop_spec fuel s l : (1 + f) * S s ≤ 2 * max_ranks → (l = 0 ∨ nodes (l - 1) ≤ s) → s < fuel + l →
  level_loop (S fuel) f s l (nodes l) = Some (level_from fuel l s).
Proof.
  intros Hmax. revert l; induction fuel as [|fuel IH]; intros l Hl Hfuel.
  { cbn [level_loop level_from]. pose proof (nodes_ge l). by rewrite (proj2 (Nat.leb_gt (nodes l) s)) by lia. }
  remember (S fuel) as fuel' eqn:E. cbn [level_loop]. subst fuel'. cbn [level_from].
  destruct (Nat.leb_spec (nodes l) s) as [Hle|Hgt]; [|done].
  assert (Hnext : nodes l + f ^ l < 2 * max_ranks) by (pose proof (nodes_mul l) as Hm; cbn [nodes] in Hm; nia).
  rewrite pown_pow by lia. cbn [mbind option_bind]. rewrite (proj2 (fits_iff _) Hnext). apply (IH (S l)); [right; by rewrite Nat.sub_1_r|lia].
Qed.

Lemma calculate_level_spec s : (1 + f) * S s ≤ 2 * max_ranks → calculate_level f s = Some (level_of s).
Proof. intros Hmax. apply (level_loop_spec (S s) s 0 Hmax); [by left|lia]. Qed.

Lemma level_pow s : f ^ level_of s ≤ 1 + f * s.
Proof. destruct (level_of_spec s) as [Hl _]. pose proof (nodes_mul (level_of s)) as Hm. cbn [nodes] in Hm. nia. Qed.

Lemma num_nodes_spec l : f ^ l < 2 * max_ranks → calculate_num_nodes_up_to_level f l = Some (nodes l).
Proof.
  intros Hl. unfold calculate_num_nodes_up_to_level. destruct (Nat.eqb_spec 1 f) as [Heq|Hne].
  - f_equal. clear Hl. induction l as [|l IH]; [done|]. cbn [nodes]. rewrite <-Heq, Nat.pow_1_l. lia.
  - rewrite pown_pow by done. cbn [mbind option_bind]. f_equal. assert (f ^ l = (f - 1) * nodes l + 1) as ->.
    { clear Hl. induction l as [|l IH]; [cbn; lia|]. cbn [nodes]. rewrite Nat.pow_succ_r'. nia. }
    rewrite Nat.add_sub, Nat.mul_comm. apply Nat.div_mul. lia.
Qed.

Lemma parent_loop_spec fuel lo dec p : 0 < dec → lo ≤ p → p < fuel → parent_loop fuel (lo + dec) dec p = Some (lo + (p - lo) mod dec).
Proof.
  intros Hdec. revert p; induction fuel as [|fuel IH]; intros p Hlo Hp; [lia|]. cbn [parent_loop]. destruct (Nat.leb_spec (lo + dec) p).
  - rewrite IH by lia. do 2 f_equal. replace (p - lo) with ((p - dec - lo) + 1 * dec) by lia. by rewrite Nat.Div0.mod_add.
  - f_equal. rewrite Nat.mod_small; lia.
Qed.

Section place.
Context (n root : nat) (Hroot : root < n).

Definition fan_children (s : nat) : list nat := filter (λ c, c < n) ((λ i, s + f ^ level_of s * (i + 1)) <$> seq 0 f).
Definition fan_parent (c : nat) : nat :=
  let lo := nodes (level_of c - 1) in lo + (c - lo) mod (f ^ (level_of c - 1)).

Lemma tree_children_spec k i delta s : s + delta * i < n → n + delta ≤ 2 * max_ranks →
  tree_children k i n root delta s = Some (unshift n root <$> filter (λ c, c < n) ((λ j, s + delta * (j + 1)) <$> seq i k)).
Proof.
  intros Hi Hmax. revert i Hi; induction k as [|k IH]; intros i Hi; [done|]. cbn [tree_children seq]. rewrite fmap_cons, filter_cons.
  rewrite (proj2 (fits_iff _)) by nia.
  destruct (Nat.ltb_spec (s + delta * (i + 1)) n) as [Hlt|Hge].
  - rewrite decide_True by done. rewrite fmap_cons, IH, Nat.add_1_r by done. done.
  - rewrite decide_False by lia. assert (filter (λ c, c < n) ((λ j, s + delta * (j + 1)) <$> seq (S i) k) = []) as ->; [|done].
    apply elem_of_nil_inv. intros c [Hc (j & -> & [Hj _]%elem_of_seq)%list_elem_of_fmap]%list_elem_of_filter. nia.
Qed.

(** The places one level down that differ by a multiple of the level's width. *)
Lemma fan_children_spec s c : c ∈ fan_children s ↔ 0 < c < n ∧ fan_parent c = s.
Proof.
  pose proof (level_of_spec s) as Hs. pose proof (level_of_spec c) as Hc. pose proof (fpow_pos (level_of s)).
  unfold fan_children. rewrite list_elem_of_filter, list_elem_of_fmap. split.
  - intros (Hn & j & -> & [_ Hj]%elem_of_seq). split; [nia|].
    assert (Hl : on_level (S (level_of s)) (s + f ^ level_of s * (j + 1))).
    { unfold on_level in *. cbn [nodes] in *. rewrite Nat.pow_succ_r'. nia. }
    unfold fan_parent. rewrite (on_level_inj _ _ _ Hc Hl), Nat.sub_1_r. cbn [Nat.pred]. unfold on_level in Hs. cbn [nodes] in Hs.
    replace (s + f ^ level_of s * (j + 1) - nodes (level_of s)) with ((s - nodes (level_of s)) + (j + 1) * f ^ level_of s) by nia.
    rewrite Nat.Div0.mod_add, Nat.mod_small; lia.
  - intros [[Hpos Hlt] Hp]. split; [done|]. unfold fan_parent in Hp. set (l := level_of c) in *.
    assert (Hl : 0 < l) by (destruct l; [unfold on_level in Hc; cbn in Hc; lia|lia]). pose proof (fpow_pos (l - 1)).
    set (lo := nodes (l - 1)) in *. assert (Hnl : nodes l = lo + f ^ (l - 1)) by (unfold lo; destruct l; [lia|]; by rewrite Nat.sub_1_r).
    assert (HnS : nodes (S l) = nodes l + f * f ^ (l - 1)) by (cbn [nodes]; rewrite <-Nat.pow_succ_r'; do 2 f_equal; lia).
    unfold on_level in Hc. rewrite HnS, Hnl in Hc. pose proof (Nat.mod_upper_bound (c - lo) (f ^ (l - 1))). pose proof (Nat.div_mod_eq (c - lo) (f ^ (l - 1))) as Hdiv.
    assert (Hls : level_of s = l - 1).
    { apply (on_level_inj _ _ s Hs). unfold on_level. replace (S (l - 1)) with l by lia. fold lo. rewrite Hnl. lia. }
    set (q := (c - lo) / f ^ (l - 1)) in *. exists (q - 1). rewrite Hls. assert (1 ≤ q) by nia. split; [|apply elem_of_seq; nia].
    replace (q - 1 + 1) with q by lia. nia.
Qed.

Lemma fan_children_nodup s : NoDup (fan_children s).
Proof.
  apply NoDup_filter, NoDup_fmap_2_strong; [|apply NoDup_seq]. intros i j _ _. pose proof (fpow_pos (level_of s)). nia.
Qed.

Lemma fan_parent_lt c : 0 < c → fan_parent c < c.
Proof.
  intros Hc. pose proof (level_of_spec c) as Hl. unfold fan_parent. set (l := level_of c) in *.
  destruct l as [|l]; [unfold on_level in Hl; cbn in Hl; lia|]. rewrite Nat.sub_1_r. cbn [Nat.pred]. unfold on_level in Hl. cbn [nodes] in Hl.
  pose proof (fpow_pos l). pose proof (Nat.mod_upper_bound (c - nodes l) (f ^ l)). lia.
Qed.

Lemma build_tree_spans : f ≤ MAXTREEFANOUT → 2 ≤ n → f * n < max_ranks → ∃ T, (∀ i, i < n → ompi_coll_base_topo_build_tree f n i root true = Some (T i)) ∧ Spans n root T.
Proof.
  intros HM Hn Hmax. apply (spans_shifted n root Hroot _ (λ s, Some (unshift n root (if s <? f then 0 else fan_parent s))) fan_parent fan_children).
  - intros i Hi. unfold ompi_coll_base_topo_build_tree. rewrite (proj2 (Nat.ltb_ge f 1)), (proj2 (Nat.ltb_ge MAXTREEFANOUT f)), (proj2 (Nat.ltb_ge n 2)) by done.
    cbn [negb]. destruct (unshift_shift n root Hroot i Hi) as [Hs _]. set (s := shiftedrank n i root) in *. unfold fan_children, fan_parent.
    rewrite calculate_level_spec by nia. cbn [mbind option_bind]. pose proof (level_of_spec s) as Hl. pose proof (level_pow s). set (l := level_of s) in *. clearbody l.
    rewrite pown_pow by nia. cbn [mbind option_bind]. rewrite tree_children_spec by nia. cbn [mbind option_bind]. rewrite num_nodes_spec by nia. cbn [mbind option_bind].
    destruct (Nat.ltb_spec s f) as [|Hge]; [done|]. destruct l as [|l]; [unfold on_level in Hl; cbn in Hl; lia|]. unfold on_level in Hl. cbn [nodes] in *.
    assert (f ^ S l / f = f ^ l) as -> by (rewrite Nat.pow_succ_r', Nat.mul_comm; apply Nat.div_mul; lia). rewrite Nat.sub_1_r. cbn [Nat.pred id].
    rewrite parent_loop_spec; [done|apply fpow_pos|lia|lia].
  - intros c Hc. split; [apply fan_parent_lt; lia|]. do 2 f_equal. destruct (Nat.ltb_spec c f) as [Hlt|]; [|done].
    assert (Hl : on_level 1 c) by (unfold on_level; cbn; lia). unfold fan_parent. by rewrite (on_level_inj _ _ _ (level_of_spec c) Hl), Nat.mod_1_r.
  - intros s Hs. split; [apply fan_children_nodup|]. intros c. apply fan_children_spec.
Qed.

End place.
End fanout.

(** ** The binomial tree *)

Section powers.
Context (n : nat).

Definition bm_places (m k s : nat) : list nat := filter (λ c, c < n) ((λ j, s + 2 ^ j) <$> seq m k).

Lemma bm_places_none m k s : n ≤ s + 2 ^ m → bm_places m k s = [].
Proof.
  intros H. apply elem_of_nil_inv. intros c [Hc (j & -> & [Hj _]%elem_of_seq)%list_elem_of_fmap]%list_elem_of_filter.
  pose proof (Nat.pow_le_mono_r 2 m j). lia.
Qed.

Lemma bm_places_nodup m k s : NoDup (bm_places m k s).
Proof.
  apply NoDup_filter, NoDup_fmap_2_strong; [|apply NoDup_seq]. intros i j _ _ H.
  apply (Nat.pow_inj_r 2); lia.
Qed.

End powers.

Lemma small_pow2 n m : n < max_ranks → 2 ^ m < n → m < bits - 2.
Proof. intros Hmax H. apply (Nat.pow_lt_mono_r_iff 2); [lia|]. pose proof max_ranks_eq. lia. Qed.

Section binomial.
Context (n root : nat) (Hroot : root < n) (Hmax : n < max_ranks).

(** The first power of two above a place. *)
Definition above (s : nat) : nat := if s =? 0 then 0 else S (Nat.log2 s).

Lemma above_spec s : s < n → opal_next_poweroftwo s = 2 ^ above s ∧ s < 2 ^ above s.
Proof.
  intros Hs. pose proof max_ranks_bits. rewrite next_poweroftwo_log2 by lia. unfold above. destruct (Nat.eqb_spec s 0) as [->|]; [by cbn; lia|].
  split; [done|]. apply Nat.log2_spec. lia.
Qed.

Lemma lxor_above s m : s < 2 ^ m → Nat.lxor s (2 ^ m) = s + 2 ^ m.
Proof. intros H. by rewrite lxor_pow2, testbit_small. Qed.

Lemma bm_children_spec k fuel m s childs : s < 2 ^ m → n ≤ 2 ^ (m + k) → k < fuel → childs ≤ m →
  bm_children fuel (2 ^ m) s n root childs = Some (unshift n root <$> bm_places n m k s).
Proof.
  revert fuel m childs; induction k as [|k IH]; intros fuel m childs Hs Hk Hf Hch; (destruct fuel as [|fuel]; [lia|]); cbn [bm_children].
  { rewrite Nat.add_0_r in Hk. by rewrite (proj2 (Nat.ltb_ge _ _)) by lia. }
  destruct (Nat.ltb_spec (2 ^ m) n) as [Hm|Hm]; [|by rewrite bm_places_none by lia].
  rewrite lxor_above by done. destruct (Nat.leb_spec n (s + 2 ^ m)) as [Hge|Hlt]; [by rewrite bm_places_none|].
  pose proof (small_pow2 n m Hmax Hm) as Hb. rewrite (proj2 (Nat.eqb_neq childs MAXTREEFANOUT)) by (unfold bits, MAXTREEFANOUT in *; lia).
  rewrite <-Nat.pow_succ_r', (IH fuel (S m)); [|rewrite Nat.pow_succ_r'; lia|by replace (S m + k) with (m + S k) by lia|lia|lia].
  cbn [mbind option_bind]. rewrite <-(unshift_eq n root Hroot) by done. unfold bm_places. cbn [seq]. rewrite fmap_cons, filter_cons, decide_True by done. done.
Qed.

Definition bm_parent (c : nat) : nat := c - 2 ^ Nat.log2 c.

Lemma bm_places_spec s c : s < n → c ∈ bm_places n (above s) n s ↔ 0 < c < n ∧ bm_parent c = s.
Proof.
  intros Hs. unfold bm_places, bm_parent. rewrite list_elem_of_filter, list_elem_of_fmap. split.
  - intros (Hn & j & -> & [Hj _]%elem_of_seq). destruct (above_spec s Hs) as [_ Hab]. pose proof (Nat.pow_le_mono_r 2 (above s) j). pose proof (pow2_pos j).
    split; [lia|]. rewrite (Nat.log2_unique _ j); [lia|lia|]. rewrite Nat.pow_succ_r'. lia.
  - intros [[Hpos Hlt] Hp]. split; [done|]. exists (Nat.log2 c). pose proof (Nat.log2_spec c Hpos) as [Hlo Hhi]. rewrite Nat.pow_succ_r' in Hhi.
    split; [lia|]. apply elem_of_seq. pose proof (Nat.pow_gt_lin_r 2 (Nat.log2 c)). split; [|lia].
    unfold above. destruct (Nat.eqb_spec s 0); [lia|]. apply Nat.log2_lt_pow2; lia.
Qed.

Lemma build_bmtree_spans : ∃ T, (∀ i, i < n → ompi_coll_base_topo_build_bmtree n i root true = Some (T i)) ∧ Spans n root T.
Proof.
  apply (spans_shifted n root Hroot _ (λ s, Some (unshift n root (if s =? 0 then 0 else bm_parent s))) bm_parent (λ s, bm_places n (above s) n s)).
  - intros i Hi. unfold ompi_coll_base_topo_build_bmtree. cbn [negb]. destruct (unshift_shift n root Hroot i Hi) as [Hs Hi'].
    set (s := shiftedrank n i root) in *. destruct (above_spec s Hs) as [-> Hab].
    rewrite (bm_children_spec n) by (try lia; pose proof (Nat.pow_gt_lin_r 2 (above s + n)); lia). cbn [mbind option_bind]. do 3 f_equal.
    unfold above. destruct (Nat.eqb_spec s 0) as [Hz|Hz].
    + rewrite Hz in Hi'. rewrite <-Hi'. unfold unshift. cbn [Nat.add]. by rewrite Nat.mod_small, Nat.eqb_refl.
    + rewrite (proj2 (Nat.eqb_neq root i)) by (intros ->; unfold s, shiftedrank in Hz; rewrite Nat.ltb_irrefl in Hz; lia).
      rewrite Nat.pow_succ_r', Nat.div2_double, lxor_pow2, Nat.bit_log2 by done. symmetry. apply unshift_eq; [done|]. unfold bm_parent. lia.
  - intros c Hc. unfold bm_parent. pose proof (pow2_pos (Nat.log2 c)). split; [lia|]. by rewrite (proj2 (Nat.eqb_neq c 0)) by lia.
  - intros s Hs. split; [apply bm_places_nodup|]. intros c. by apply bm_places_spec.
Qed.

End binomial.

(** ** Trees on the digits of a place *)

(** In base [k], the children of a place come from setting one of its trailing zeros,
    the parent from clearing its last digit that is not zero. *)
Section digits.
Context (n k : nat) (Hk : 2 ≤ k).

Lemma kpow_pos m : 0 < k ^ m.
Proof. apply Nat.neq_0_lt_0, Nat.pow_nonzero. lia. Qed.

Lemma kpow_divide c m m' : m ≤ m' → c mod k ^ m' = 0 → c mod k ^ m = 0.
Proof.
  intros Hm H. replace m' with (m + (m' - m)) in H by lia. rewrite Nat.pow_add_r, Nat.Div0.mod_mul_r in H.
  pose proof (kpow_pos m). lia.
Qed.

(** The number of trailing zeros, as far as it matters. *)
Fixpoint zeros_from (fuel m s : nat) : nat :=
  match fuel with O => m | S f => if k ^ m <? n then if s mod k ^ S m =? 0 then zeros_from f (S m) s else m else m end.
Definition zeros (s : nat) : nat := zeros_from n 0 s.

Lemma zeros_from_spec fuel m s : s mod k ^ m = 0 → n ≤ fuel + m →
  m ≤ zeros_from fuel m s ∧ s mod k ^ zeros_from fuel m s = 0 ∧ (∀ j, m ≤ j < zeros_from fuel m s → k ^ j < n) ∧
  (n ≤ k ^ zeros_from fuel m s ∨ s mod k ^ S (zeros_from fuel m s) ≠ 0).
Proof.
  revert m; induction fuel as [|fuel IH]; intros m Hm Hf; cbn [zeros_from].
  { pose proof (Nat.pow_gt_lin_r k m ltac:(lia)). split_and!; [lia|done|intros; lia|left; lia]. }
  destruct (Nat.ltb_spec (k ^ m) n) as [Hlt|Hge]; [|split_and!; [lia|done|intros; lia|by left]].
  destruct (Nat.eqb_spec (s mod k ^ S m) 0) as [Hz|Hz]; [|split_and!; [lia|done|intros; lia|by right]].
  destruct (IH (S m) Hz ltac:(lia)) as (H1 & H2 & H3 & H4). split_and!; [lia|done| |done].
  intros j Hj. destruct (decide (j = m)) as [->|]; [done|]. apply H3. lia.
Qed.

Lemma zeros_spec s : s mod k ^ zeros s = 0 ∧ (∀ j, j < zeros s → k ^ j < n) ∧ (n ≤ k ^ zeros s ∨ s mod k ^ S (zeros s) ≠ 0).
Proof.
  destruct (zeros_from_spec n 0 s) as (_ & ? & H & ?); [by rewrite Nat.pow_0_r, Nat.mod_1_r|lia|]. split_and!; [done| |done].
  intros j Hj. apply H. unfold zeros in Hj. lia.
Qed.

Lemma zeros_pos s : 0 < s < n → s mod k ^ S (zeros s) ≠ 0.
Proof.
  intros Hs. destruct (zeros_spec s) as (H1 & _ & [H|H]); [|done]. rewrite Nat.mod_small in H1; lia.
Qed.

Lemma zeros_unique s m : 0 < s < n → s mod k ^ m = 0 → s mod k ^ S m ≠ 0 → zeros s = m.
Proof.
  intros Hs H1 H2. destruct (zeros_spec s) as (Hz & _ & _). pose proof (zeros_pos s Hs) as Hz'.
  destruct (decide (zeros s < m)); [by destruct Hz'; apply (kpow_divide s (S (zeros s)) m)|].
  destruct (decide (m < zeros s)); [by destruct H2; apply (kpow_divide s (S m) (zeros s))|lia].
Qed.

Definition km_par (c : nat) : nat := c / k ^ S (zeros c) * k ^ S (zeros c).

Definition is_child (s c : nat) : Prop := ∃ j r, j < zeros s ∧ 1 ≤ r < k ∧ c = s + k ^ j * r ∧ c < n.

(** One digit more. *)
Lemma add_digit s j r : s mod k ^ S j = 0 → r < k → (s + k ^ j * r) mod k ^ S j = k ^ j * r ∧ (s + k ^ j * r) / k ^ S j * k ^ S j = s.
Proof.
  intros Hs Hr. pose proof (kpow_pos j). pose proof (kpow_pos (S j)). assert (Hlt : k ^ j * r < k ^ S j) by (rewrite Nat.pow_succ_r'; nia).
  apply Nat.Div0.mod_divides in Hs as [q ->]. rewrite (Nat.mul_comm (k ^ S j) q), (Nat.add_comm (q * _)), Nat.Div0.mod_add, Nat.div_add by lia.
  by rewrite Nat.mod_small, Nat.div_small by done.
Qed.

Lemma is_child_spec s c : s < n → is_child s c ↔ 0 < c < n ∧ km_par c = s.
Proof.
  intros Hs. split.
  - intros (j & r & Hj & Hr & -> & Hc). pose proof (kpow_pos j). assert (Hpos : 0 < s + k ^ j * r) by nia. split; [done|].
    destruct (zeros_spec s) as (Hz & _ & _). assert (HzS : s mod k ^ S j = 0) by (apply (kpow_divide s (S j) (zeros s)); [lia|done]).
    destruct (add_digit s j r HzS ltac:(lia)) as [Hm Hd]. unfold km_par. rewrite (zeros_unique _ j); [done|lia| |nia].
    rewrite Nat.add_comm, (Nat.mul_comm (k ^ j)), Nat.Div0.add_mod, Nat.Div0.mod_mul. rewrite (kpow_divide s j (S j)) by (lia || done). cbn. apply Nat.Div0.mod_0_l.
  - intros [Hc Hp]. destruct (zeros_spec c) as (Hz & Hlt & _). pose proof (zeros_pos c Hc) as Hnz. unfold km_par in Hp. set (j := zeros c) in *.
    pose proof (kpow_pos j). pose proof (kpow_pos (S j)). pose proof (Nat.div_mod_eq c (k ^ S j)) as Hdm. rewrite (Nat.mul_comm (k ^ S j)), Hp in Hdm.
    rewrite Nat.pow_succ_r', (Nat.mul_comm k), Nat.Div0.mod_mul_r, Hz, Nat.add_0_l in Hdm.
    rewrite Nat.pow_succ_r', (Nat.mul_comm k), Nat.Div0.mod_mul_r, Hz, Nat.add_0_l in Hnz.
    set (r := (c / k ^ j) mod k) in *. assert (r < k) by (apply Nat.mod_upper_bound; lia). assert (r ≠ 0) by (intros ->; lia).
    exists j, r. split_and!; [|lia|lia|lia|lia].
    assert (Hsz : s mod k ^ S j = 0) by (rewrite <-Hp; apply Nat.Div0.mod_mul). destruct (zeros_spec s) as (Hzs & _ & Hor).
    destruct (decide (j < zeros s)) as [|Hge]; [done|]. destruct Hor as [Hn|Hn].
    + pose proof (Nat.pow_le_mono_r k (zeros s) j ltac:(lia) ltac:(lia)). nia.
    + destruct Hn. apply (kpow_divide s _ (S j)); [lia|done].
Qed.

Lemma km_par_lt c : 0 < c < n → km_par c < c.
Proof.
  intros Hc. pose proof (zeros_pos c Hc). unfold km_par. pose proof (Nat.div_mod_eq c (k ^ S (zeros c))). lia.
Qed.

(** *** The k-nomial tree *)

Fixpoint km_places (q s : nat) : list nat :=
  match q with O => [] | S j => filter (λ c, c < n) ((λ r, s + k ^ j * r) <$> seq 1 (k - 1)) ++ km_places j s end.

Lemma elem_of_km_places q s c : c ∈ km_places q s ↔ ∃ j r, j < q ∧ 1 ≤ r < k ∧ c = s + k ^ j * r ∧ c < n.
Proof.
  induction q as [|q IH]; cbn [km_places].
  { rewrite elem_of_nil. split; [done|]. intros (j & r & ? & _). lia. }
  rewrite elem_of_app, IH, list_elem_of_filter, list_elem_of_fmap. split.
  - intros [(Hc & r & -> & [Hr Hr']%elem_of_seq)|(j & r & Hj & Hr & Hc)]; [exists q, r|exists j, r]; split_and!; try done; try lia; by destruct Hc.
  - intros (j & r & Hj & Hr & Hc & Hlt). destruct (decide (j = q)) as [->|]; [left|right].
    + split; [done|]. exists r. split; [done|]. apply elem_of_seq. lia.
    + exists j, r. split_and!; try done; lia.
Qed.

Lemma km_places_nodup q s : NoDup (km_places q s).
Proof.
  induction q as [|q IH]; cbn [km_places]; [constructor|]. pose proof (kpow_pos q). apply NoDup_app. split_and!; [| |done].
  - apply NoDup_filter, NoDup_fmap_2_strong; [|apply NoDup_seq]. intros i j _ _. nia.
  - intros c [_ (r & -> & [Hr _]%elem_of_seq)%list_elem_of_fmap]%list_elem_of_filter. rewrite elem_of_km_places.
    intros (j & r' & Hj & Hr' & Heq & _). pose proof (Nat.pow_le_mono_r k (S j) q ltac:(lia) ltac:(lia)) as Hle. rewrite Nat.pow_succ_r' in Hle.
    pose proof (kpow_pos j). nia.
Qed.

Lemma km_places_length q s : length (km_places q s) ≤ (k - 1) * q.
Proof.
  induction q as [|q IH]; cbn [km_places]; [cbn; lia|]. rewrite length_app. pose proof (length_filter (λ c, c < n) ((λ r, s + k ^ q * r) <$> seq 1 (k - 1))) as Hl.
  rewrite length_fmap, length_seq in Hl. nia.
Qed.

(** The least power that is not below [n]. *)
Fixpoint top_from (fuel m : nat) : nat := match fuel with O => m | S fuel => if k ^ m <? n then top_from fuel (S m) else m end.
Definition top_pow : nat := k ^ top_from n 0.

Lemma top_from_spec fuel m : (∀ j, j < m → k ^ j < n) → n ≤ fuel + m → n ≤ k ^ top_from fuel m ∧ ∀ j, j < top_from fuel m → k ^ j < n.
Proof.
  revert m; induction fuel as [|fuel IH]; intros m Hlt Hf; cbn [top_from].
  { split; [|done]. pose proof (Nat.pow_gt_lin_r k m ltac:(lia)). lia. }
  destruct (Nat.ltb_spec (k ^ m) n) as [Hmn|Hmn]; [|done]. apply IH; [|lia]. intros j Hj. destruct (decide (j = m)) as [->|]; [done|]. apply Hlt. lia.
Qed.

(** The powers up to it are those of which all smaller ones are below [n]. *)
Lemma below_root m : (∀ j, j < m → k ^ j < n) → k ^ m ≤ top_pow.
Proof.
  intros Hlt. destruct (top_from_spec n 0) as [Htop _]; [intros; lia|lia|]. apply Nat.pow_le_mono_r; [lia|].
  destruct (decide (top_from n 0 < m)) as [H|]; [specialize (Hlt _ H)|]; lia.
Qed.

Lemma below_top_S m : k ^ m < n → k ^ S m ≤ top_pow.
Proof. intros Hm. apply below_root. intros j Hj. pose proof (Nat.pow_le_mono_r k j m ltac:(lia) ltac:(lia)). lia. Qed.

(** A power between the size and the largest [int] is enough. *)
Lemma top_pow_least m : n ≤ k ^ m → top_pow ≤ k ^ m.
Proof.
  intros Hm. destruct (top_from_spec n 0) as [_ Hbelow]; [intros; lia|lia|]. apply Nat.pow_le_mono_r; [lia|].
  destruct (decide (m < top_from n 0)) as [H|]; [specialize (Hbelow m H)|]; lia.
Qed.

Lemma top_pow_le : 1 ≤ n → top_pow ≤ k * n.
Proof.
  intros Hn. destruct (top_from_spec n 0) as [_ Hbelow]; [intros; lia|lia|]. unfold top_pow. destruct (top_from n 0) as [|m]; [cbn; lia|].
  specialize (Hbelow m ltac:(lia)). rewrite Nat.pow_succ_r'. nia.
Qed.

Lemma top_pow_ge : n ≤ top_pow.
Proof. apply top_from_spec; [intros|]; lia. Qed.

Section km.
Context (root : nat) (Hroot : root < n).

Lemma km_row_spec x r mask s : s + mask * (r + x) ≤ 2 * max_ranks → 0 < mask →
  km_row x r mask s n root = Some (unshift n root <$> filter (λ c, c < n) ((λ r, s + mask * r) <$> seq r x)).
Proof.
  intros Hmax Hmask. revert r Hmax; induction x as [|x IH]; intros r Hmax; [done|]. cbn [km_row seq]. rewrite fmap_cons, filter_cons, (proj2 (fits_iff _)) by nia.
  rewrite IH by nia. cbn [mbind option_bind]. destruct (Nat.ltb_spec (s + mask * r) n); [by rewrite decide_True|by rewrite decide_False by lia].
Qed.

Lemma kpow_div q : k ^ S q / k = k ^ q.
Proof. rewrite Nat.pow_succ_r', Nat.mul_comm. apply Nat.div_mul. lia. Qed.

Lemma km_children_spec fuel q s : s + k ^ q ≤ 2 * max_ranks → q < fuel → km_children fuel (k ^ q / k) s n root k = Some (unshift n root <$> km_places q s).
Proof.
  revert q; induction fuel as [|fuel IH]; intros q Hmax Hq; [lia|]. cbn [km_children]. destruct q as [|q].
  - rewrite Nat.pow_0_r, Nat.div_small by lia. done.
  - rewrite kpow_div. rewrite Nat.pow_succ_r' in Hmax. pose proof (kpow_pos q). rewrite (proj2 (Nat.ltb_lt 0 (k ^ q))) by lia.
    rewrite km_row_spec by nia. cbn [mbind option_bind]. rewrite IH by nia. cbn [mbind option_bind km_places]. by rewrite fmap_app.
Qed.

Lemma km_parent_spec fuel m s : top_pow < 2 * max_ranks → s < n → s mod k ^ m = 0 → (∀ j, j < m → k ^ j < n) → n < fuel + m →
  km_parent fuel (k ^ m) s n root k = Some (if s =? 0 then None else Some (unshift n root (km_par s)), k ^ zeros s).
Proof.
  intros Htop Hs. revert m; induction fuel as [|fuel IH]; intros m Hm Hlt Hf.
  { pose proof (Nat.pow_gt_lin_r k (m - 1) ltac:(lia)). specialize (Hlt (m - 1) ltac:(lia)). lia. }
  destruct (zeros_spec s) as (Hz & Hzlt & Hor).
  cbn [km_parent]. rewrite <-Nat.pow_succ_r'. destruct (Nat.ltb_spec (k ^ m) n) as [Hmn|Hmn].
  - rewrite (proj2 (fits_iff _)) by (pose proof (below_top_S m Hmn); lia). destruct (Nat.eqb_spec (s mod k ^ S m) 0) as [Hz'|Hnz].
    + rewrite Nat.mul_comm, <-Nat.pow_succ_r'. apply IH; [done| |lia]. intros j Hj. destruct (decide (j = m)) as [->|]; [done|]. apply Hlt. lia.
    + destruct (Nat.eqb_spec s 0) as [->|]; [by rewrite Nat.Div0.mod_0_l in Hnz|]. unfold km_par. by rewrite (zeros_unique s m) by (done || lia).
  - assert (s = 0) as -> by (rewrite Nat.mod_small in Hm; lia). cbn [Nat.eqb]. do 3 f_equal.
    destruct Hor as [Hn|Hn]; [|by rewrite Nat.Div0.mod_0_l in Hn].
    destruct (decide (m < zeros 0)) as [H|]; [specialize (Hzlt m H); lia|]. destruct (decide (zeros 0 < m)) as [H|]; [specialize (Hlt _ H); lia|lia].
Qed.

Lemma log_loop_spec fuel m : (∀ j, j < m → k ^ j < n) → n < fuel + m →
  log_loop fuel (k ^ m) n k m = if fits top_pow || (m =? top_from n 0) then Some (top_from n 0) else None.
Proof.
  destruct (top_from_spec n 0) as [Htop Hbelow]; [intros; lia|lia|]. revert m; induction fuel as [|fuel IH]; intros m Hlt Hf.
  { pose proof (Nat.pow_gt_lin_r k (m - 1) ltac:(lia)). specialize (Hlt (m - 1) ltac:(lia)). lia. }
  assert (m ≤ top_from n 0) by (destruct (decide (top_from n 0 < m)) as [H|]; [specialize (Hlt _ H)|]; lia).
  cbn [log_loop]. destruct (Nat.ltb_spec (k ^ m) n) as [Hmn|Hmn].
  - rewrite Nat.mul_comm, <-Nat.pow_succ_r'. pose proof (below_top_S m Hmn) as HS. destruct (Nat.eqb_spec m (top_from n 0)) as [->|Hm]; [lia|].
    rewrite IH; [|intros j Hj; apply Hbelow; lia|lia]. destruct (fits top_pow) eqn:Hfits; cbn [orb].
    + by rewrite (proj2 (fits_iff _)) by (apply fits_iff in Hfits; lia).
    + destruct (Nat.eqb_spec (S m) (top_from n 0)) as [Heq|]; [|by case_match]. unfold top_pow in Hfits. by rewrite Heq, Hfits.
  - assert (m = top_from n 0) as -> by (destruct (decide (m = top_from n 0)); [done|specialize (Hbelow m ltac:(lia)); lia]).
    by rewrite Nat.eqb_refl, orb_true_r.
Qed.

(** The tree is there when the least power of the radix that is not below the size is an
    [int]; otherwise the first loop overflows. *)
Lemma build_kmtree_spans : n < max_ranks → top_pow < 2 * max_ranks →
  ∃ T, (∀ i, i < n → ompi_coll_base_topo_build_kmtree n i root k true = Some (T i)) ∧ Spans n root T.
Proof.
  intros Hn Hmax. apply (spans_shifted n root Hroot _ (λ s, if s =? 0 then None else Some (unshift n root (km_par s))) km_par (λ s, km_places (zeros s) s)).
  - intros i Hi. unfold ompi_coll_base_topo_build_kmtree. pose proof (log_loop_spec (S n) 0) as HM. rewrite Nat.pow_0_r, (proj2 (fits_iff _)) in HM by done.
    rewrite HM by (intros; lia). cbn [mbind option_bind negb orb]. rewrite shift_mod by done. destruct (unshift_shift n root Hroot i Hi) as [Hs _].
    set (s := shiftedrank n i root) in *. pose proof (km_parent_spec (S n) 0 s Hmax Hs) as Hp. rewrite Nat.pow_0_r in Hp.
    rewrite Hp by (rewrite ?Nat.mod_1_r; try intros; lia). cbn [mbind option_bind]. pose proof (Nat.pow_gt_lin_r k (zeros s) ltac:(lia)).
    destruct (zeros_spec s) as (Hz & Hlt & _). pose proof (below_root _ Hlt). rewrite km_children_spec; [|  |lia].
    2:{ destruct (decide (s = 0)) as [->|]; [lia|]. apply Nat.Div0.mod_divides in Hz as [[|q] Hq]; nia. }
    cbn [mbind option_bind]. rewrite length_fmap. pose proof (km_places_length (zeros s) s). destruct (top_from_spec n 0) as [Htop _]; [intros; lia|lia|].
    assert (zeros s ≤ top_from n 0) by (destruct (decide (top_from n 0 < zeros s)) as [HMz|]; [specialize (Hlt _ HMz)|]; lia).
    rewrite (proj2 (Nat.leb_le _ _)) by nia. done.
  - intros c Hc. split; [by apply km_par_lt|]. by rewrite (proj2 (Nat.eqb_neq c 0)) by lia.
  - intros s Hs. split; [apply km_places_nodup|]. intros c. rewrite elem_of_km_places. by apply is_child_spec.
Qed.

Lemma build_kmtree_overflows i : 2 ≤ n → fits top_pow = false → ompi_coll_base_topo_build_kmtree n i root k true = None.
Proof.
  intros Hn Hfits. unfold ompi_coll_base_topo_build_kmtree. pose proof (log_loop_spec (S n) 0) as HM. rewrite Nat.pow_0_r, Hfits in HM.
  rewrite HM by (intros; lia). cbn [orb]. destruct (Nat.eqb_spec 0 (top_from n 0)) as [Heq|]; [|done]. pose proof top_pow_ge as Hge.
  unfold top_pow in Hge. rewrite <-Heq in Hge. cbn in Hge. lia.
Qed.

End km.
End digits.

(** *** The in-order binomial tree *)

Section in_order_binomial.
Context (n root : nat) (Hroot : root < n) (Hmax : n < max_ranks).

Lemma in_order_bm_loop_spec q fuel m s childs prev : s < n → m + q = zeros n 2 s → q < fuel → childs ≤ m →
  in_order_bm_loop fuel (2 ^ m) s n root childs prev =
  Some (if s =? 0 then prev else Some (unshift n root (km_par n 2 s)), unshift n root <$> bm_places n m q s).
Proof.
  intros Hs. revert fuel m childs; induction q as [|q IH]; intros fuel m childs Hq Hf Hch; (destruct fuel as [|fuel]; [lia|]); cbn [in_order_bm_loop];
    destruct (zeros_spec n 2 ltac:(lia) s) as (Hz & Hlt & Hor); pose proof (pow2_pos m).
  - rewrite Nat.add_0_r in Hq. subst m. destruct (Nat.ltb_spec (2 ^ zeros n 2 s) n) as [Hm|Hm].
    + destruct Hor as [|Hnz]; [lia|]. assert (Hbit : Nat.testbit s (zeros n 2 s) = true).
      { destruct (Nat.testbit s (zeros n 2 s)) eqn:E; [done|]. by rewrite mod_pow2_S, E, Hz in Hnz. }
      assert (Hmod : s mod 2 ^ S (zeros n 2 s) = 2 ^ zeros n 2 s) by (by rewrite mod_pow2_S, Hbit, Hz).
      destruct (Nat.eqb_spec s 0) as [->|]; [by rewrite Nat.bits_0 in Hbit|]. pose proof (Nat.div_mod_eq s (2 ^ S (zeros n 2 s))) as Hdm.
      rewrite lxor_pow2, Hbit. assert (km_par n 2 s = s - 2 ^ zeros n 2 s) as -> by (unfold km_par; lia).
      rewrite (proj2 (Nat.ltb_lt _ _)) by lia. done.
    + assert (s = 0) as -> by (rewrite Nat.mod_small in Hz; lia). done.
  - specialize (Hlt m ltac:(lia)). rewrite (proj2 (Nat.ltb_lt _ _) Hlt).
    assert (HmS : s mod 2 ^ S m = 0) by (apply (kpow_divide 2 ltac:(lia) s (S m) (zeros n 2 s)); [lia|done]).
    assert (Hbit : Nat.testbit s m = false) by (destruct (Nat.testbit s m) eqn:E; [rewrite mod_pow2_S, E in HmS; lia|done]).
    rewrite lxor_pow2, Hbit, (proj2 (Nat.ltb_ge _ _)) by lia. rewrite <-Nat.pow_succ_r'. unfold bm_places. cbn [seq]. rewrite fmap_cons, filter_cons.
    pose proof (small_pow2 n m Hmax Hlt). destruct (Nat.ltb_spec (s + 2 ^ m) n).
    + rewrite decide_True by done. rewrite (proj2 (Nat.eqb_neq (S childs) MAXTREEFANOUT)) by (unfold bits, MAXTREEFANOUT in *; lia).
      by rewrite (IH fuel (S m)) by lia.
    + rewrite decide_False by lia. by rewrite (IH fuel (S m)) by lia.
Qed.

Lemma build_in_order_bmtree_spans : ∃ T, (∀ i, i < n → ompi_coll_base_topo_build_in_order_bmtree n i root true = Some (T i)) ∧ Spans n root T.
Proof.
  apply (spans_shifted n root Hroot _ (λ s, if s =? 0 then Some root else Some (unshift n root (km_par n 2 s))) (km_par n 2) (λ s, bm_places n 0 (zeros n 2 s) s)).
  - intros i Hi. unfold ompi_coll_base_topo_build_in_order_bmtree. cbn [negb]. rewrite shift_mod by done.
    destruct (unshift_shift n root Hroot i Hi) as [Hs Hi']. set (s := shiftedrank n i root) in *.
    assert (Hz : zeros n 2 s < S n).
    { destruct (zeros_spec n 2 ltac:(lia) s) as (_ & Hlt & _). destruct (decide (zeros n 2 s ≤ n)) as [|H]; [lia|].
      specialize (Hlt n ltac:(lia)). pose proof (Nat.pow_gt_lin_r 2 n ltac:(lia)). lia. }
    pose proof (in_order_bm_loop_spec (zeros n 2 s) (S n) 0 s 0 (if root =? i then Some root else None) Hs eq_refl Hz ltac:(lia)) as Hloop.
    rewrite Nat.pow_0_r in Hloop. rewrite Hloop. cbn [mbind option_bind]. destruct (Nat.eqb_spec s 0) as [Hz0|]; [|done].
    rewrite Hz0 in Hi'. rewrite <-Hi'. unfold unshift. cbn [Nat.add]. by rewrite Nat.mod_small, Nat.eqb_refl.
  - intros c Hc. split; [apply km_par_lt; lia|]. by rewrite (proj2 (Nat.eqb_neq c 0)) by lia.
  - intros s Hs. split; [apply bm_places_nodup|]. intros c. rewrite <-(is_child_spec n 2) by lia.
    unfold bm_places, is_child. rewrite list_elem_of_filter, list_elem_of_fmap. split.
    + intros (Hc & j & -> & [_ Hj]%elem_of_seq). exists j, 1. split_and!; lia.
    + intros (j & r & Hj & Hr & -> & Hc). split; [done|]. exists j. split; [nia|]. apply elem_of_seq. lia.
Qed.

End in_order_binomial.

(** ** Chains *)

Section chain.
Context (n f : nat) (Hf : 2 ≤ f) (Hfn : f ≤ n - 1).

Definition exact : bool := (n - 1) mod f =? 0.
Definition maxlen : nat := if exact then (n - 1) / f else (n - 1) / f + 1.
Definition mark : nat := if exact then f + 1 else (n - 1) mod f.

(** Where column [c] begins; column [f] would begin at [n]. *)
Definition colstart (c : nat) : nat := if c <=? mark then 1 + c * maxlen else mark * maxlen + 1 + (c - mark) * (maxlen - 1).

Lemma lens : 1 ≤ maxlen ∧ (mark ≤ f → 2 ≤ maxlen) ∧ colstart f = n.
Proof.
  unfold colstart, mark, maxlen, exact. pose proof (Nat.div_mod_eq (n - 1) f). pose proof (Nat.mod_upper_bound (n - 1) f).
  assert (1 ≤ (n - 1) / f) by (apply Nat.div_le_lower_bound; lia). destruct (Nat.eqb_spec ((n - 1) mod f) 0) as [E|E].
  - rewrite (proj2 (Nat.leb_le f (f + 1))) by lia. lia.
  - rewrite (proj2 (Nat.leb_gt f ((n - 1) mod f))) by lia. split_and!; [lia|lia|]. nia.
Qed.

Lemma colstart_S c : colstart (S c) = colstart c + if mark <? S c then maxlen - 1 else maxlen.
Proof.
  unfold colstart. destruct (Nat.leb_spec (S c) mark), (Nat.leb_spec c mark), (Nat.ltb_spec mark (S c)); try lia.
  assert (c = mark) as -> by lia. replace (S mark - mark) with 1 by lia. lia.
Qed.

Lemma colstart_lt c d : c < d ≤ f → colstart c < colstart d.
Proof.
  intros [Hcd Hd]. induction d as [|d IH]; [lia|]. rewrite colstart_S. destruct lens as (? & ? & _).
  assert (colstart c ≤ colstart d) by (destruct (decide (c = d)) as [->|]; [done|apply Nat.lt_le_incl, IH; lia]).
  destruct (Nat.ltb_spec mark (S d)); lia.
Qed.

Lemma colstart_inj c d : c ≤ f → d ≤ f → colstart c = colstart d → c = d.
Proof.
  intros Hc Hd H. destruct (decide (c < d)); [pose proof (colstart_lt c d); lia|]. destruct (decide (d < c)); [pose proof (colstart_lt d c)|]; lia.
Qed.

Definition col (s : nat) : nat := if s - 1 <? mark * maxlen then (s - 1) / maxlen else mark + (s - 1 - mark * maxlen) / (maxlen - 1).

Lemma col_spec s : 0 < s < n → colstart (col s) ≤ s < colstart (S (col s)) ∧ col s < f.
Proof.
  intros Hs. destruct lens as (HL & HL2 & Hend).
  assert (Hin : colstart (col s) ≤ s < colstart (S (col s))).
  { rewrite colstart_S. unfold col. destruct (Nat.ltb_spec (s - 1) (mark * maxlen)) as [H|H].
    - pose proof (Nat.div_mod_eq (s - 1) maxlen). pose proof (Nat.mod_upper_bound (s - 1) maxlen).
      assert (Hc : (s - 1) / maxlen < mark) by (apply Nat.Div0.div_lt_upper_bound; lia). rewrite (proj2 (Nat.ltb_ge mark _)) by lia.
      unfold colstart. rewrite (proj2 (Nat.leb_le _ _)) by lia. lia.
    - destruct (decide (mark ≤ f)) as [Hm|Hm]; [|assert (exact = true) as He by (unfold mark in Hm; destruct exact; [done|pose proof (Nat.mod_upper_bound (n - 1) f); lia])].
      + specialize (HL2 Hm). set (x := s - 1 - mark * maxlen) in *. pose proof (Nat.div_mod_eq x (maxlen - 1)). pose proof (Nat.mod_upper_bound x (maxlen - 1)).
        set (q := x / (maxlen - 1)) in *. rewrite (proj2 (Nat.ltb_lt mark _)) by lia. unfold colstart. destruct (Nat.leb_spec (mark + q) mark).
        * assert (q = 0) by lia. subst q. replace (mark + 0) with mark by lia. nia.
        * replace (mark + q - mark) with q by lia. nia.
      + exfalso. unfold colstart, mark in Hend. unfold mark in H. rewrite He in *. rewrite (proj2 (Nat.leb_le f (f + 1))) in Hend by lia. nia. }
  split; [done|]. destruct (decide (col s < f)) as [|Hge]; [done|]. exfalso.
  assert (Hmono : ∀ d, f ≤ d → n ≤ colstart d).
  { intros d Hd. rewrite <-Hend. induction Hd as [|d Hd IH]; [done|]. rewrite colstart_S. lia. }
  specialize (Hmono (col s) ltac:(lia)). lia.
Qed.

Lemma col_unique s c : 0 < s < n → c < f → colstart c ≤ s < colstart (S c) → col s = c.
Proof.
  intros Hs Hc Hin. destruct (col_spec s Hs) as [Hin' Hc']. destruct (decide (col s < c)) as [H|].
  - destruct (decide (S (col s) = c)) as [<-|]; [lia|]. pose proof (colstart_lt (S (col s)) c ltac:(lia)). lia.
  - destruct (decide (c < col s)) as [H|]; [|lia]. destruct (decide (S c = col s)) as [E|]; [rewrite <-E in Hin'; lia|]. pose proof (colstart_lt (S c) (col s) ltac:(lia)). lia.
Qed.

Definition chain_parent (s : nat) : nat := if s =? colstart (col s) then 0 else s - 1.
Definition chain_children (s : nat) : list nat :=
  if s =? 0 then colstart <$> seq 0 f else if s + 1 =? colstart (S (col s)) then [] else if s + 1 <? n then [s + 1] else [].

Lemma chain_children_spec s c : s < n → c ∈ chain_children s ↔ 0 < c < n ∧ chain_parent c = s.
Proof.
  intros Hs. destruct lens as (HL & HL2 & Hend). assert (H0 : colstart 0 = 1) by done. unfold chain_children, chain_parent.
  assert (Hrange : ∀ d, d < f → 0 < colstart d < n).
  { intros d Hd. rewrite <-Hend. split; [|by apply colstart_lt]. destruct (decide (d = 0)) as [->|]; [lia|]. pose proof (colstart_lt 0 d). lia. }
  destruct (Nat.eqb_spec s 0) as [->|Hs0].
  - rewrite list_elem_of_fmap. split.
    + intros (d & -> & [_ Hd]%elem_of_seq). split; [by apply Hrange|].
      rewrite (col_unique (colstart d) d) by (try apply Hrange; pose proof (colstart_lt d (S d)); lia). by rewrite Nat.eqb_refl.
    + intros [Hc Hp]. destruct (col_spec c Hc) as [Hin Hlt]. exists (col c). split; [|apply elem_of_seq; lia].
      destruct (Nat.eqb_spec c (colstart (col c))); [done|]. assert (c = 1) as -> by lia.
      assert (colstart (col 1) < 1) by lia. destruct (Hrange (col 1) Hlt). lia.
  - destruct (col_spec s ltac:(lia)) as [Hin Hlt]. destruct (Nat.eqb_spec (s + 1) (colstart (S (col s)))) as [Hlast|Hlast].
    + rewrite elem_of_nil. split; [done|]. intros [Hc Hp]. destruct (col_spec c Hc) as [Hcin Hclt].
      destruct (Nat.eqb_spec c (colstart (col c))); [lia|]. assert (Heq : c = colstart (S (col s))) by lia.
      destruct (decide (S (col s) = f)) as [E|]; [rewrite E in Heq; lia|].
      rewrite (col_unique c (S (col s))) in Hcin, n0 by (try done; rewrite ?Heq; pose proof (colstart_lt (S (col s)) (S (S (col s)))); lia). lia.
    + assert (Hnx : ∀ H : s + 1 < n, col (s + 1) = col s) by (intros H; apply col_unique; lia).
      destruct (Nat.ltb_spec (s + 1) n) as [Hlt1|].
      * rewrite list_elem_of_singleton. split.
        { intros ->. split; [lia|]. rewrite Hnx by done. rewrite (proj2 (Nat.eqb_neq _ _)) by lia. lia. }
        intros [Hc Hp]. destruct (Nat.eqb_spec c (colstart (col c))); lia.
      * rewrite elem_of_nil. split; [done|]. intros [Hc Hp]. destruct (Nat.eqb_spec c (colstart (col c))); lia.
Qed.

Lemma chain_children_nodup s : NoDup (chain_children s).
Proof.
  unfold chain_children. destruct (s =? 0).
  - apply NoDup_fmap_2_strong; [|apply NoDup_seq]. intros c d [_ Hc]%elem_of_seq [_ Hd]%elem_of_seq. apply colstart_inj; lia.
  - destruct (_ =? _); [constructor|]. destruct (_ <? _); [apply NoDup_singleton|constructor].
Qed.

Lemma chain_heads_spec root k i : 0 < i → i + k = f →
  chain_heads k i (unshift n root (colstart (i - 1))) maxlen mark n = unshift n root <$> (colstart <$> seq i k).
Proof.
  revert i; induction k as [|k IH]; intros i Hi Hk; [done|]. cbn [chain_heads seq]. rewrite !fmap_cons. destruct lens as (HL & HL2 & _).
  assert (((if mark <? i then unshift n root (colstart (i - 1)) + maxlen - 1 else unshift n root (colstart (i - 1)) + maxlen) mod n)
          = unshift n root (colstart i)) as Heq.
  { replace i with (S (i - 1)) at 4 by lia. rewrite colstart_S. replace (S (i - 1)) with i by lia. unfold unshift. destruct (Nat.ltb_spec mark i) as [Hm|Hm].
    - specialize (HL2 ltac:(lia)). replace ((colstart (i - 1) + root) mod n + maxlen - 1) with ((colstart (i - 1) + root) mod n + (maxlen - 1)) by lia.
      rewrite Nat.Div0.add_mod_idemp_l. f_equal. lia.
    - rewrite Nat.Div0.add_mod_idemp_l. f_equal. lia. }
  rewrite Heq. f_equal. specialize (IH (S i) ltac:(lia) ltac:(lia)). by rewrite Nat.sub_1_r in IH.
Qed.

End chain.

Section build_chain.
Context (n root : nat) (Hroot : root < n).

(** The place of a rank within its column, as the code computes it. *)
Lemma head_len f s : 2 ≤ f → f ≤ n - 1 → 0 < s < n →
  (if s - 1 <? mark n f * maxlen n f then
     let column := (s - 1) / maxlen n f in (1 + column * maxlen n f, maxlen n f)
   else
     let column := mark n f + (s - 1 - mark n f * maxlen n f) / (maxlen n f - 1) in
     (mark n f * maxlen n f + 1 + (column - mark n f) * (maxlen n f - 1), maxlen n f - 1)) =
  (colstart n f (col n f s), colstart n f (S (col n f s)) - colstart n f (col n f s)).
Proof.
  intros Hf Hfn Hs. rewrite (colstart_S n f Hf Hfn). unfold col. destruct (lens n f Hf Hfn) as (HL & _ & _).
  destruct (Nat.ltb_spec (s - 1) (mark n f * maxlen n f)) as [H|H].
  - assert (Hc : (s - 1) / maxlen n f < mark n f) by (apply Nat.Div0.div_lt_upper_bound; lia).
    rewrite (proj2 (Nat.ltb_ge (mark n f) _)) by lia. unfold colstart. rewrite (proj2 (Nat.leb_le _ _)) by lia. f_equal. lia.
  - set (q := (s - 1 - mark n f * maxlen n f) / (maxlen n f - 1)). rewrite (proj2 (Nat.ltb_lt (mark n f) _)) by lia. cbn zeta.
    assert (colstart n f (mark n f + q) = mark n f * maxlen n f + 1 + (mark n f + q - mark n f) * (maxlen n f - 1)) as ->; [|f_equal; lia].
    unfold colstart. destruct (Nat.leb_spec (mark n f + q) (mark n f)); [|done]. replace q with 0 by lia. nia.
Qed.

Lemma build_chain_spans fanout : ∃ T, (∀ i, i < n → ompi_coll_base_topo_build_chain fanout n i root true = Some (T i)) ∧ Spans n root T.
Proof.
  set (f0 := let f := if fanout <? 1 then 1 else fanout in if MAXTREEFANOUT <? f then MAXTREEFANOUT else f).
  assert (Hf0 : 1 ≤ f0) by (unfold f0; destruct (Nat.ltb_spec fanout 1); destruct (Nat.ltb_spec MAXTREEFANOUT (if fanout <? 1 then 1 else fanout)); unfold MAXTREEFANOUT in *; repeat case_match; lia).
  set (f := if n - 1 <? f0 then n - 1 else f0). assert (Hfn : f ≤ n - 1) by (unfold f; destruct (Nat.ltb_spec (n - 1) f0); lia).
  destruct (decide (f = 1)) as [E|E].
  { apply (spans_shifted n root Hroot _ (λ s, if s =? 0 then None else Some (unshift n root (s - 1))) (λ c, c - 1) (λ s, if n <=? s + 1 then [] else [s + 1])).
    - intros i Hi. unfold ompi_coll_base_topo_build_chain. cbn [negb]. fold f0 f. rewrite E. cbn [Nat.eqb]. by destruct (n <=? _).
    - intros c Hc. rewrite (proj2 (Nat.eqb_neq c 0)) by lia. split; [lia|done].
    - intros s Hs. destruct (Nat.leb_spec n (s + 1)).
      + split; [constructor|]. intros c. rewrite elem_of_nil. split; [done|lia].
      + split; [apply NoDup_singleton|]. intros c. rewrite list_elem_of_singleton. lia. }
  destruct (decide (n = 1)) as [->|Hn1].
  { apply (spans_shifted 1 root Hroot _ (λ _, None) (λ c, c - 1) (λ s, [])).
    - intros i Hi. unfold ompi_coll_base_topo_build_chain. cbn [negb]. fold f0 f. by rewrite (proj2 (Nat.eqb_neq f 1) E).
    - intros c Hc. lia.
    - intros s Hs. split; [constructor|]. intros c. rewrite elem_of_nil. split; [done|lia]. }
  assert (Hf2 : 2 ≤ f) by (unfold f in *; destruct (Nat.ltb_spec (n - 1) f0); lia).
  apply (spans_shifted n root Hroot _ (λ s, if s =? 0 then None else Some (unshift n root (chain_parent n f s))) (chain_parent n f) (chain_children n f)).
  - intros i Hi. unfold ompi_coll_base_topo_build_chain. cbn [negb]. fold f0 f. rewrite (proj2 (Nat.eqb_neq f 1) E), (proj2 (Nat.eqb_neq n 1) Hn1).
    fold (exact n f). fold (maxlen n f). fold (mark n f). destruct (unshift_shift n root Hroot i Hi) as [Hs Hi']. set (s := shiftedrank n i root) in *.
    unfold chain_parent, chain_children. destruct (Nat.eqb_spec s 0) as [Hs0|Hs0]; cbn [negb].
    + do 2 f_equal. assert (seq 0 f = 0 :: seq 1 (f - 1)) as -> by (rewrite cons_seq; f_equal; lia). rewrite !fmap_cons. change (colstart n f 0) with 1.
      assert ((root + 1) mod n = unshift n root 1) as -> by (unfold unshift; f_equal; lia). f_equal.
      apply (chain_heads_spec n f Hf2 Hfn root (f - 1) 1); lia.
    + rewrite head_len by lia. destruct (col_spec n f Hf2 Hfn s ltac:(lia)) as [Hin _].
      assert ((s =? colstart n f (col n f s) + (colstart n f (S (col n f s)) - colstart n f (col n f s)) - 1) = (s + 1 =? colstart n f (S (col n f s)))) as ->.
      { destruct (Nat.eqb_spec (s + 1) (colstart n f (S (col n f s)))); [apply Nat.eqb_eq|apply Nat.eqb_neq]; lia. }
      destruct (s + 1 =? colstart n f (S (col n f s))); [done|]. by destruct (s + 1 <? n).
  - intros c Hc. rewrite (proj2 (Nat.eqb_neq c 0)) by lia. split; [|done]. unfold chain_parent. destruct (_ =? _); lia.
  - intros s Hs. split; [by apply (chain_children_nodup n)|]. intros c. by apply (chain_children_spec n).
Qed.

End build_chain.

(** ** The in-order binary tree *)

(** A subtree has consecutive ranks with its root last; its right part, of half the
    size, comes first.  [io_lo] is the first rank of the subtree of [i], [io_par] its parent,
    within the subtree of [size] ranks from [lo]. *)
Fixpoint io_lo (fuel lo size i : nat) : nat :=
  match fuel with
  | O => i
  | S f =>
      if i =? lo + size - 1 then lo
      else if size =? 2 then i
      else if i <? lo + size / 2 then io_lo f lo (size / 2) i
      else io_lo f (lo + size / 2) (size - size / 2 - 1) i
  end.

Fixpoint io_par (fuel lo size i : nat) : nat :=
  match fuel with
  | O => 0
  | S f =>
      let top := lo + size - 1 in
      if size =? 2 then top
      else if i <? lo + size / 2 then if i =? lo + size / 2 - 1 then top else io_par f lo (size / 2) i
      else if i =? top - 1 then top else io_par f (lo + size / 2) (size - size / 2 - 1) i
  end.

(** The children of the root of the subtree [lo .. i]. *)
Definition io_kids (lo i : nat) : list nat :=
  if i <=? lo then [] else if i - lo =? 1 then [i - 1] else [i - 1; lo + (i - lo + 1) / 2 - 1].

Lemma half size : 3 ≤ size → 1 ≤ size / 2 ∧ 2 * (size / 2) ≤ size ≤ 2 * (size / 2) + 1.
Proof. intros H. pose proof (Nat.div_mod_eq size 2). pose proof (Nat.mod_upper_bound size 2). lia. Qed.

Lemma in_order_loop_spec fuel lo size i prev : 1 ≤ size ≤ fuel → lo ≤ i < lo + size →
  in_order_loop (S fuel) (Z.of_nat size) (Z.of_nat i - Z.of_nat lo) (Z.of_nat size - 1) (Z.of_nat lo) prev =
  Some (if i =? lo + size - 1 then prev else Some (io_par fuel lo size i), io_kids (io_lo fuel lo size i) i).
Proof.
  revert lo size i prev; induction fuel as [|fuel IH]; intros lo size i prev Hsize Hi; [lia|].
  assert (Hh : (Z.of_nat size / 2 = Z.of_nat (size / 2))%Z) by (by rewrite Nat2Z.inj_div). set (h := size / 2) in *.
  cbn [io_lo io_par]. fold h. remember (S fuel) as g eqn:Eg. cbn [in_order_loop]. rewrite Hh, !Z.gtb_ltb.
  destruct (Nat.eqb_spec i (lo + size - 1)) as [Htop|Htop].
  - rewrite (proj2 (Z.eqb_eq _ _)) by lia. do 2 f_equal. unfold io_kids. replace (i - lo + 1) with size by lia. fold h.
    destruct (Nat.leb_spec i lo); [by rewrite (proj2 (Z.ltb_ge _ _)) by lia|]. rewrite (proj2 (Z.ltb_lt 0 _)) by lia. cbn [andb].
    rewrite (proj2 (Z.leb_le _ _)) by lia. destruct (Nat.eqb_spec (i - lo) 1).
    + rewrite (proj2 (Z.ltb_ge 0 _)) by lia. cbn. f_equal. lia.
    + destruct (half size ltac:(lia)). rewrite (proj2 (Z.ltb_lt 0 _)), (proj2 (Z.leb_le _ _)) by lia. cbn. f_equal; [lia|f_equal; lia].
  - rewrite (proj2 (Z.eqb_neq _ _)) by lia. rewrite (proj2 (Z.ltb_lt 0 (Z.of_nat size - 1))) by lia. cbn [andb].
    destruct (Nat.eqb_spec size 2) as [E2|E2].
    + assert (i = lo) as -> by lia. subst size g. rewrite (proj2 (Z.ltb_ge 0 _)), (proj2 (Z.ltb_lt _ _)), (proj2 (Z.eqb_eq _ _)) by lia.
      cbn [in_order_loop]. subst h. cbn. rewrite (proj2 (Z.eqb_eq _ _)) by lia. unfold io_kids. rewrite Nat.leb_refl. do 3 f_equal. lia.
    + destruct (half size ltac:(lia)) as [H1 H2]. fold h in H1, H2. rewrite (proj2 (Z.ltb_lt 0 (Z.of_nat size - 1 - 1))) by lia.
      destruct (Nat.ltb_spec i (lo + h)) as [Hr|Hl].
      * rewrite (proj2 (Z.ltb_ge _ _)) by lia. subst g. rewrite IH by lia. do 2 f_equal.
        destruct (Nat.eqb_spec i (lo + h - 1)); [by rewrite (proj2 (Z.eqb_eq _ _)) by lia; f_equal; lia|done].
      * rewrite (proj2 (Z.ltb_lt _ _)) by lia. subst g.
        replace (Z.of_nat size - Z.of_nat h - 1)%Z with (Z.of_nat (size - h - 1)) by lia.
        replace (Z.of_nat i - Z.of_nat lo - Z.of_nat h)%Z with (Z.of_nat i - Z.of_nat (lo + h))%Z by lia.
        replace (Z.of_nat lo + Z.of_nat h)%Z with (Z.of_nat (lo + h)) by lia. rewrite IH by lia. do 2 f_equal.
        replace (lo + h + (size - h - 1) - 1) with (lo + size - 1 - 1) by lia.
        destruct (Nat.eqb_spec i (lo + size - 1 - 1)); [by rewrite (proj2 (Z.eqb_eq _ _)) by lia; f_equal; lia|done].
Qed.

Section io.
Context (f lo size : nat).
Abbreviation h := (size / 2).
Abbreviation top := (lo + size - 1).

Lemma io_lo_top : io_lo (S f) lo size top = lo.
Proof. cbn [io_lo]. by rewrite Nat.eqb_refl. Qed.

Lemma io_lo_right i : 3 ≤ size → lo ≤ i < lo + h → io_lo (S f) lo size i = io_lo f lo h i.
Proof.
  intros Hs Hi. destruct (half size Hs). cbn [io_lo]. rewrite (proj2 (Nat.eqb_neq i top)), (proj2 (Nat.eqb_neq size 2)), (proj2 (Nat.ltb_lt i (lo + h))) by lia. done.
Qed.

Lemma io_lo_left i : 3 ≤ size → lo + h ≤ i < top → io_lo (S f) lo size i = io_lo f (lo + h) (size - h - 1) i.
Proof.
  intros Hs Hi. destruct (half size Hs). cbn [io_lo]. rewrite (proj2 (Nat.eqb_neq i top)), (proj2 (Nat.eqb_neq size 2)), (proj2 (Nat.ltb_ge i (lo + h))) by lia. done.
Qed.

Lemma io_par_right i : 3 ≤ size → lo ≤ i < lo + h → io_par (S f) lo size i = if i =? lo + h - 1 then top else io_par f lo h i.
Proof.
  intros Hs Hi. destruct (half size Hs). cbn [io_par]. rewrite (proj2 (Nat.eqb_neq size 2)), (proj2 (Nat.ltb_lt i (lo + h))) by lia. done.
Qed.

Lemma io_par_left i : 3 ≤ size → lo + h ≤ i < top → io_par (S f) lo size i = if i =? top - 1 then top else io_par f (lo + h) (size - h - 1) i.
Proof.
  intros Hs Hi. destruct (half size Hs). cbn [io_par]. rewrite (proj2 (Nat.eqb_neq size 2)), (proj2 (Nat.ltb_ge i (lo + h))) by lia. done.
Qed.

Lemma io_kids_top : 3 ≤ size → io_kids lo top = [top - 1; lo + h - 1].
Proof.
  intros Hs. unfold io_kids. rewrite (proj2 (Nat.leb_gt _ _)), (proj2 (Nat.eqb_neq _ _)) by lia. by replace (top - lo + 1) with size by lia.
Qed.

End io.

(** What the subtree of [size] ranks from [lo] looks like. *)
Record in_order (fuel lo size : nat) : Prop := {
  lo_range i : lo ≤ i < lo + size → lo ≤ io_lo fuel lo size i ≤ i;
  lo_top : io_lo fuel lo size (lo + size - 1) = lo;
  par_range i : lo ≤ i < lo + size - 1 → i < io_par fuel lo size i ≤ lo + size - 1;
  par_kid i : lo ≤ i < lo + size - 1 → i ∈ io_kids (io_lo fuel lo size (io_par fuel lo size i)) (io_par fuel lo size i);
  kid_range p c : lo ≤ p < lo + size → c ∈ io_kids (io_lo fuel lo size p) p → lo ≤ c < p;
  kid_par p c : lo ≤ p < lo + size → c ∈ io_kids (io_lo fuel lo size p) p → io_par fuel lo size c = p;
}.

Lemma in_order_1 f lo : in_order (S f) lo 1.
Proof.
  assert (Hl : ∀ i, lo ≤ i < lo + 1 → io_lo (S f) lo 1 i = lo ∧ io_kids lo i = []).
  { intros i Hi. cbn [io_lo]. rewrite (proj2 (Nat.eqb_eq _ _)) by lia. unfold io_kids. by rewrite (proj2 (Nat.leb_le _ _)) by lia. }
  split; try (intros; lia).
  - intros i Hi. destruct (Hl i Hi) as [-> _]. lia.
  - by destruct (Hl (lo + 1 - 1) ltac:(lia)).
  - intros p c Hp. destruct (Hl p Hp) as [-> ->]. by intros ?%elem_of_nil.
  - intros p c Hp. destruct (Hl p Hp) as [-> ->]. by intros ?%elem_of_nil.
Qed.

Lemma in_order_2 f lo : in_order (S f) lo 2.
Proof.
  assert (Hk : io_kids lo (lo + 1) = [lo]) by (unfold io_kids; rewrite (proj2 (Nat.leb_gt _ _)), (proj2 (Nat.eqb_eq _ _)) by lia; f_equal; lia).
  assert (Hl : ∀ i, lo ≤ i < lo + 2 → io_lo (S f) lo 2 i = lo) by (intros i Hi; cbn [io_lo]; destruct (Nat.eqb_spec i (lo + 2 - 1)); cbn; lia).
  assert (Hp : ∀ i, io_par (S f) lo 2 i = lo + 1) by (intros i; cbn; lia).
  split; [intros; rewrite Hl by done; lia|apply Hl; lia|intros; rewrite Hp; lia|..].
  - intros i Hi. rewrite Hp, Hl, Hk by lia. replace i with lo by lia. by left.
  - intros p c Hpr. rewrite Hl by done. destruct (decide (p = lo)) as [->|]; [unfold io_kids; by rewrite Nat.leb_refl, elem_of_nil|].
    replace p with (lo + 1) by lia. rewrite Hk, list_elem_of_singleton. lia.
  - intros p c Hpr. rewrite Hl, Hp by done. destruct (decide (p = lo)) as [->|]; [unfold io_kids; by rewrite Nat.leb_refl, elem_of_nil|lia].
Qed.

Lemma io_in_order fuel lo size : 1 ≤ size ≤ fuel → in_order fuel lo size.
Proof.
  revert lo size; induction fuel as [|f IH]; intros lo size Hsize; [lia|].
  destruct (decide (size = 1)) as [->|]; [apply in_order_1|]. destruct (decide (size = 2)) as [->|]; [apply in_order_2|].
  assert (H3 : 3 ≤ size) by lia. destruct (half size H3) as [Hh1 Hh2]. pose proof (IH lo (size / 2) ltac:(lia)) as HR. pose proof (IH (lo + size / 2) (size - size / 2 - 1) ltac:(lia)) as HL.
  set (hh := size / 2) in *. replace (lo + hh + (size - hh - 1)) with (lo + size - 1) in * by lia.
  assert (Hcase : ∀ i, lo ≤ i < lo + size → i = lo + size - 1 ∨ lo ≤ i < lo + hh ∨ lo + hh ≤ i < lo + size - 1) by lia.
  split.
  - intros i Hi. destruct (Hcase i Hi) as [->|[H|H]].
    + rewrite io_lo_top. lia.
    + rewrite io_lo_right by done. by apply (lo_range _ _ _ HR).
    + rewrite io_lo_left by done. pose proof (lo_range _ _ _ HL i). fold hh. lia.
  - apply io_lo_top.
  - intros i Hi. destruct (Hcase i ltac:(lia)) as [|[H|H]]; [lia|..].
    + rewrite io_par_right by done. fold hh. destruct (Nat.eqb_spec i (lo + hh - 1)); [lia|]. pose proof (par_range _ _ _ HR i). lia.
    + rewrite io_par_left by done. fold hh. destruct (Nat.eqb_spec i (lo + size - 1 - 1)); [lia|]. pose proof (par_range _ _ _ HL i). lia.
  - intros i Hi. destruct (Hcase i ltac:(lia)) as [|[H|H]]; [lia|..].
    + rewrite io_par_right by done. fold hh. destruct (Nat.eqb_spec i (lo + hh - 1)) as [->|].
      { rewrite io_lo_top, io_kids_top by done. right. by left. }
      pose proof (par_range _ _ _ HR i ltac:(lia)). rewrite io_lo_right by (fold hh; lia). apply (par_kid _ _ _ HR). lia.
    + rewrite io_par_left by done. fold hh. destruct (Nat.eqb_spec i (lo + size - 1 - 1)) as [->|].
      { rewrite io_lo_top, io_kids_top by done. by left. }
      pose proof (par_range _ _ _ HL i ltac:(lia)). rewrite io_lo_left by (fold hh; lia). apply (par_kid _ _ _ HL). lia.
  - intros p c Hp. destruct (Hcase p Hp) as [->|[H|H]].
    + rewrite io_lo_top, io_kids_top by done. fold hh. rewrite elem_of_cons, list_elem_of_singleton. lia.
    + rewrite io_lo_right by done. intros Hc. by apply (kid_range _ _ _ HR).
    + rewrite io_lo_left by done. intros Hc. pose proof (kid_range _ _ _ HL p c ltac:(fold hh; lia) Hc) as Hkr. fold hh in Hc, Hkr |- *. lia.
  - intros p c Hp. destruct (Hcase p Hp) as [->|[H|H]].
    + rewrite io_lo_top, io_kids_top by done. fold hh. rewrite elem_of_cons, list_elem_of_singleton. intros [->| ->].
      * rewrite io_par_left by (fold hh; lia). by rewrite Nat.eqb_refl.
      * rewrite io_par_right by (fold hh; lia). fold hh. by rewrite Nat.eqb_refl.
    + rewrite io_lo_right by done. intros Hc. pose proof (kid_range _ _ _ HR p c H Hc). rewrite io_par_right by (fold hh; lia). fold hh.
      rewrite (proj2 (Nat.eqb_neq c _)) by lia. by apply (kid_par _ _ _ HR).
    + rewrite io_lo_left by done. intros Hc. pose proof (kid_range _ _ _ HL p c ltac:(fold hh; lia) Hc) as Hkr. fold hh in Hc, Hkr |- *. rewrite io_par_left by (fold hh; lia). fold hh.
      rewrite (proj2 (Nat.eqb_neq c _)) by lia. apply (kid_par _ _ _ HL); [lia|done].
Qed.

Lemma build_in_order_bintree_eq n i : i < n →
  ompi_coll_base_topo_build_in_order_bintree n i true =
  Some (mk_tree (n - 1) (if i =? n - 1 then None else Some (io_par n 0 n i)) (io_kids (io_lo n 0 n i) i)).
Proof.
  intros Hi. unfold ompi_coll_base_topo_build_in_order_bintree. cbn [negb].
  pose proof (in_order_loop_spec n 0 n i None ltac:(lia) ltac:(lia)) as H. rewrite Z.sub_0_r in H. change (Z.of_nat 0) with 0%Z in H. by rewrite H.
Qed.

Lemma io_kids_nodup lo i : NoDup (io_kids lo i).
Proof.
  unfold io_kids. destruct (Nat.leb_spec i lo); [constructor|]. destruct (Nat.eqb_spec (i - lo) 1); [apply NoDup_singleton|].
  apply NoDup_cons. split; [|apply NoDup_singleton]. rewrite list_elem_of_singleton. destruct (half (i - lo + 1) ltac:(lia)). lia.
Qed.

Lemma build_in_order_bintree_spans n : 1 ≤ n →
  ∃ T, (∀ i, i < n → ompi_coll_base_topo_build_in_order_bintree n i true = Some (T i)) ∧ Spans n (n - 1) T.
Proof.
  intros Hn. eexists. split; [intros i Hi; by rewrite build_in_order_bintree_eq|]. pose proof (io_in_order n 0 n ltac:(lia)) as Hio.
  exists (λ s, n - 1 - s), (λ c, n - 1 - io_par n 0 n (n - 1 - c)), (λ s, (λ c, n - 1 - c) <$> io_kids (io_lo n 0 n (n - 1 - s)) (n - 1 - s)).
  split; cbn; try (intros; lia).
  - intros i Hi. exists (n - 1 - i). lia.
  - intros c Hc. pose proof (par_range _ _ _ Hio (n - 1 - c)). lia.
  - intros c Hc. rewrite (proj2 (Nat.eqb_neq _ _)) by lia. f_equal. pose proof (par_range _ _ _ Hio (n - 1 - c)). lia.
  - intros s Hs. apply NoDup_fmap_2_strong; [|apply io_kids_nodup]. intros c d Hc Hd.
    pose proof (kid_range _ _ _ Hio (n - 1 - s) c ltac:(lia) Hc). pose proof (kid_range _ _ _ Hio (n - 1 - s) d ltac:(lia) Hd). lia.
  - intros s c Hs. rewrite list_elem_of_fmap. split.
    + intros (d & -> & Hd). pose proof (kid_range _ _ _ Hio (n - 1 - s) d ltac:(lia) Hd). split; [lia|].
      replace (n - 1 - (n - 1 - d)) with d by lia. rewrite (kid_par _ _ _ Hio (n - 1 - s) d) by (lia || done). lia.
    + intros [Hc <-]. exists (n - 1 - c). split; [lia|]. pose proof (par_range _ _ _ Hio (n - 1 - c)).
      replace (n - 1 - (n - 1 - io_par n 0 n (n - 1 - c))) with (io_par n 0 n (n - 1 - c)) by lia. apply (par_kid _ _ _ Hio). lia.
  - intros s Hs. rewrite <-list_fmap_compose. symmetry. rewrite <-(list_fmap_id (io_kids _ _)) at 2. apply list_fmap_ext. intros j c Hj. cbn.
    apply list_elem_of_lookup_2 in Hj. pose proof (kid_range _ _ _ Hio (n - 1 - s) c ltac:(lia) Hj). lia.
Qed.

(** ** All builders *)

(** The answers of the ranks are a spanning tree. *)
Definition builds (n root : nat) (t : nat → option ompi_coll_tree_t) : Prop :=
  ∃ T, (∀ i, i < n → t i = Some (T i)) ∧ Spans n root T.

Lemma build_tree_builds f n root : 1 ≤ f ≤ MAXTREEFANOUT → f * n < max_ranks → root < n → builds n root (λ i, ompi_coll_base_topo_build_tree f n i root true).
Proof.
  intros Hf Hmax Hroot. destruct (decide (n = 1)) as [->|]; [|apply build_tree_spans; lia].
  apply (spans_shifted 1 root Hroot _ (λ _, None) (λ c, c - 1) (λ s, [])).
  - intros i Hi. unfold ompi_coll_base_topo_build_tree. rewrite (proj2 (Nat.ltb_ge f 1)), (proj2 (Nat.ltb_ge MAXTREEFANOUT f)) by lia. done.
  - intros c Hc. lia.
  - intros s Hs. split; [constructor|]. intros c. rewrite elem_of_nil. split; [done|lia].
Qed.

(** C19: The trees that the ranks of a communicator compute, each its own parent and
    children, fit together: for every size and root, the trees of a given fanout, the
    binomial, the in-order binomial and the k-nomial trees and the chains are spanning
    trees with that root, and the in-order binary tree is one with the last rank as
    root.  No loop runs on, no array of children overflows, and with less than [2^30]
    ranks times the fanout or radix no [int] does. *)
Theorem trees_span n root fanout radix : root < n < max_ranks → 1 ≤ fanout ≤ MAXTREEFANOUT → fanout * n < max_ranks →
  2 ≤ radix → radix * n < max_ranks →
  builds n root (λ i, ompi_coll_base_topo_build_tree fanout n i root true) ∧
  builds n root (λ i, ompi_coll_base_topo_build_bmtree n i root true) ∧
  builds n root (λ i, ompi_coll_base_topo_build_in_order_bmtree n i root true) ∧
  builds n root (λ i, ompi_coll_base_topo_build_kmtree n i root radix true) ∧
  (∀ fanout, builds n root (λ i, ompi_coll_base_topo_build_chain fanout n i root true)) ∧
  builds n (n - 1) (λ i, ompi_coll_base_topo_build_in_order_bintree n i true).
Proof.
  intros [Hroot Hmax] Hf Hfn Hk Hkn. split_and!.
  - by apply build_tree_builds.
  - by apply build_bmtree_spans.
  - by apply build_in_order_bmtree_spans.
  - apply build_kmtree_spans; [done..|]. pose proof (top_pow_le n radix Hk ltac:(lia)). lia.
  - intros f. by apply build_chain_spans.
  - apply build_in_order_bintree_spans. lia.
Qed.

Lemma trees_span_witness : builds 10 3 (λ i, ompi_coll_base_topo_build_kmtree 10 i 3 4 true).
Proof.
  apply (trees_span 10 3 2 4); [split; [lia|apply (small_size 4); cbn; lia]|unfold MAXTREEFANOUT; lia|apply (small_size 5); cbn; lia|lia|apply (small_size 6); cbn; lia].
Defined.

(** C20: The k-nomial tree is built exactly when some power of the radix lies between the
    number of ranks and the largest [int]; with any other radix the first loop of every
    rank multiplies until the [int] overflows. *)
Theorem kmtree_bounds n root radix i : root < n → i < n → 2 ≤ n < max_ranks → 2 ≤ radix →
  is_Some (ompi_coll_base_topo_build_kmtree n i root radix true) ↔ ∃ m, n ≤ radix ^ m ∧ fits (radix ^ m) = true.
Proof.
  intros Hroot Hi Hn Hk. split.
  - intros [t Ht]. exists (top_from n radix n 0). split; [by apply top_pow_ge|]. destruct (fits _) eqn:E; [done|].
    rewrite build_kmtree_overflows in Ht by (done || lia). done.
  - intros (m & Hm & Hfits%fits_iff). destruct (build_kmtree_spans n radix Hk root Hroot) as (T & HT & _); [lia| |by rewrite HT].
    pose proof (top_pow_least n radix Hk m Hm). lia.
Qed.

(** The radix [2^16] does for 3 ranks and not for [2^16 + 1]. *)
Lemma kmtree_bounds_witness :
  is_Some (ompi_coll_base_topo_build_kmtree 3 1 0 (Z.to_nat (2 ^ 16)) true) ∧
  ¬ is_Some (ompi_coll_base_topo_build_kmtree (Z.to_nat (2 ^ 16 + 1)) 1 0 (Z.to_nat (2 ^ 16)) true).
Proof.
  assert (Hr : 2 ≤ Z.to_nat (2 ^ 16)) by lia. pose proof max_ranks_Z. split.
  - apply (kmtree_bounds 3 0 (Z.to_nat (2 ^ 16)) 1); [lia|lia|lia|lia|]. exists 1. rewrite Nat.pow_1_r, fits_iff. lia.
  - intros (m & Hm & Hf)%(kmtree_bounds (Z.to_nat (2 ^ 16 + 1)) 0 (Z.to_nat (2 ^ 16)) 1); [|lia..]. revert Hm Hf. unfold fits.
    destruct m as [|[|m]]; [cbn; lia|rewrite Nat.pow_1_r; lia|]. intros _ Hf%Z.ltb_lt. rewrite Nat2Z.inj_pow, Z2Nat.id in Hf by lia.
    pose proof (Z.pow_le_mono_r (2 ^ 16) 2 (Z.of_nat (S (S m))) ltac:(lia) ltac:(lia)). lia.
Defined.

End CollTopoSpec.
