(* ===== verification/CollBcast.v ===== *)
(** * Broadcast over a tree ([ompi/mca/coll/base/coll_base_bcast.c])

    A buffer is the list of its elements and a message the list of the elements that
    are sent.  The result of a program is the buffer when it returns [MPI_SUCCESS];
    [None] is a crash (a division by zero, a tree that is [NULL], the assertion of a
    [debug] build that fails) or an error of the point-to-point layer (no such rank, a message longer than the posted receive).
    The trees are kept with the communicator ([mca_coll_base_comm_t]). *)

From stdpp Require Import base numbers list.
From S2P Require Import Prelude BitOps CollTopo MsgPass MsgProg.

Module CollBcast.
Import CollTopo MsgReq.

(** ** Trees kept with a communicator *)

(** A cached tree with the root (and fanout or radix) it was built for. *)
Record cached := mk_cached { cached_tree : option ompi_coll_tree_t; cached_root : nat; cached_param : nat }.

Record mca_coll_base_comm_t := mk_comm {
  cached_bintree : cached;
  cached_bmtree : cached;
  cached_in_order_bmtree : cached;
  cached_kmtree : cached;
  cached_chain : cached;
  cached_pipeline : cached;
  cached_in_order_bintree : option ompi_coll_tree_t;
}.

Section update.
Context (size rank : nat) (mem : bool).

(** The common part of the macros: keep the tree, or release it and build another one. *)
Definition update (c : cached) (root param : nat) (build : option ompi_coll_tree_t) : cached :=
  if bool_decide (is_Some (cached_tree c)) && (cached_root c =? root) && (cached_param c =? param) then c else mk_cached build root param.

Definition COLL_BASE_UPDATE_BINTREE (root : nat) (m : mca_coll_base_comm_t) : mca_coll_base_comm_t :=
  mk_comm (update (cached_bintree m) root 0 (ompi_coll_base_topo_build_tree 2 size rank root mem))
    (cached_bmtree m) (cached_in_order_bmtree m) (cached_kmtree m) (cached_chain m) (cached_pipeline m) (cached_in_order_bintree m).

Definition COLL_BASE_UPDATE_BMTREE (root : nat) (m : mca_coll_base_comm_t) : mca_coll_base_comm_t :=
  mk_comm (cached_bintree m) (update (cached_bmtree m) root 0 (ompi_coll_base_topo_build_bmtree size rank root mem))
    (cached_in_order_bmtree m) (cached_kmtree m) (cached_chain m) (cached_pipeline m) (cached_in_order_bintree m).

Definition COLL_BASE_UPDATE_IN_ORDER_BMTREE (root : nat) (m : mca_coll_base_comm_t) : mca_coll_base_comm_t :=
  mk_comm (cached_bintree m) (cached_bmtree m) (update (cached_in_order_bmtree m) root 0 (ompi_coll_base_topo_build_in_order_bmtree size rank root mem))
    (cached_kmtree m) (cached_chain m) (cached_pipeline m) (cached_in_order_bintree m).

Definition COLL_BASE_UPDATE_KMTREE (root radix : nat) (m : mca_coll_base_comm_t) : mca_coll_base_comm_t :=
  mk_comm (cached_bintree m) (cached_bmtree m) (cached_in_order_bmtree m)
    (update (cached_kmtree m) root radix (ompi_coll_base_topo_build_kmtree size rank root radix mem))
    (cached_chain m) (cached_pipeline m) (cached_in_order_bintree m).

Definition COLL_BASE_UPDATE_CHAIN (root fanout : nat) (m : mca_coll_base_comm_t) : mca_coll_base_comm_t :=
  mk_comm (cached_bintree m) (cached_bmtree m) (cached_in_order_bmtree m) (cached_kmtree m)
    (update (cached_chain m) root fanout (ompi_coll_base_topo_build_chain fanout size rank root mem))
    (cached_pipeline m) (cached_in_order_bintree m).

Definition COLL_BASE_UPDATE_PIPELINE (root : nat) (m : mca_coll_base_comm_t) : mca_coll_base_comm_t :=
  mk_comm (cached_bintree m) (cached_bmtree m) (cached_in_order_bmtree m) (cached_kmtree m) (cached_chain m)
    (update (cached_pipeline m) root 0 (ompi_coll_base_topo_build_chain 1 size rank root mem)) (cached_in_order_bintree m).

Definition COLL_BASE_UPDATE_IN_ORDER_BINTREE (m : mca_coll_base_comm_t) : mca_coll_base_comm_t :=
  mk_comm (cached_bintree m) (cached_bmtree m) (cached_in_order_bmtree m) (cached_kmtree m) (cached_chain m) (cached_pipeline m)
    (match cached_in_order_bintree m with Some t => Some t | None => ompi_coll_base_topo_build_in_order_bintree size rank mem end).

End update.

(** ** Segments *)

(** The number of elements of a segment of about [segsize] bytes. *)
Definition COLL_BASE_COMPUTED_SEGCOUNT (segsize typelng segcount : nat) : nat :=
  if (typelng <=? segsize) && (segsize <? typelng * segcount) then
    let segcount := segsize / typelng in
    let residual := segsize - segcount * typelng in
    if typelng / 2 <? residual then segcount + 1 else segcount
  else segcount.

(** A [size_t] passed as [uint32_t]. *)
Definition to_uint32 (n : nat) : nat := Z.to_nat (Z.of_nat n mod 2 ^ 32).

(** The algorithms. *)
Inductive bcast_alg := Basic_linear | Bintree | Pipeline | Chain (chains : nat) | Binomial | Knomial (radix : nat).

#[export] Instance bcast_alg_eq_dec : EqDecision bcast_alg.
Proof. solve_decision. Defined.

Section bcast.
Context {A : Type}.
Abbreviation program := (code (list A) (option (list A))).

(** What arrives is written at [pos]; more than [posted] elements are refused. *)
Definition store (pos : nat) (data buf : list A) : list A := take pos buf ++ data ++ drop (pos + length data) buf.
Definition receive (posted pos : nat) (data buf : list A) (k : list A → program) : program :=
  if length data <=? posted then k (store pos data buf) else Return None.

Section generic.
Context (original_count count_by_segment : nat) (tree : ompi_coll_tree_t).

Definition num_segments : nat := (original_count + count_by_segment - 1) / count_by_segment.

(** [isend] to all children and [ompi_request_wait_all]. *)
Definition to_children (data : list A) (k : program) : program :=
  isend_all ((λ c, (c, data)) <$> tree_next tree) [] (λ hs, wait_all hs k).

(** [k] segments are left, the next one is [segindex]. *)
Fixpoint bcast_root (k segindex : nat) (buffer : list A) : program :=
  match k with
  | O => Return (Some buffer)
  | S k =>
      let sendcount := if segindex =? num_segments - 1 then original_count - segindex * count_by_segment else count_by_segment in
      to_children (take sendcount (drop (segindex * count_by_segment) buffer)) (bcast_root k (S segindex) buffer)
  end.

(** The receive [req] for the elements at [pos] is posted, [k] more are to be posted. *)
Fixpoint bcast_forward (k pos req prev : nat) (buffer : list A) : program :=
  match k with
  | O =>
      WaitRecv req (λ data, receive count_by_segment pos data buffer (λ buffer,
        let sendcount := original_count - (num_segments - 1) * count_by_segment in
        to_children (take sendcount (drop pos buffer)) (Return (Some buffer))))
  | S k =>
      Irecv prev (λ next_req,
        WaitRecv req (λ data, receive count_by_segment pos data buffer (λ buffer,
          to_children (take count_by_segment (drop pos buffer)) (bcast_forward k (pos + count_by_segment) next_req prev buffer))))
  end.

Fixpoint bcast_leaf (k pos req prev : nat) (buffer : list A) : program :=
  match k with
  | O => WaitRecv req (λ data, receive count_by_segment pos data buffer (λ buffer, Return (Some buffer)))
  | S k =>
      Irecv prev (λ next_req,
        WaitRecv req (λ data, receive count_by_segment pos data buffer (λ buffer,
          bcast_leaf k (pos + count_by_segment) next_req prev buffer)))
  end.

(** A build with [debug] asserts that there is more than one rank. *)
Definition ompi_coll_base_bcast_intra_generic (debug : bool) (size : nat) (buffer : list A) (rank root : nat) : program :=
  if debug && (size <=? 1) then Return None
  else if count_by_segment =? 0 then Return None
  else if rank =? root then bcast_root num_segments 0 buffer
  else
    match tree_prev tree with
    | None => Return None
    | Some prev =>
        if 0 <? length (tree_next tree) then Irecv prev (λ req, bcast_forward (num_segments - 1) 0 req prev buffer)
        else Irecv prev (λ req, bcast_leaf (num_segments - 1) 0 req prev buffer)
    end.

End generic.

(** ** The algorithms *)

Section algorithms.
Context (size rank : nat) (debug mem : bool) (typelng : nat).

(** The rest of the wrappers: a [NULL] tree is dereferenced. *)
Definition with_tree (tree : option ompi_coll_tree_t) (segsize count root : nat) (buffer : list A) : program :=
  let segcount := COLL_BASE_COMPUTED_SEGCOUNT segsize typelng count in
  match tree with
  | None => Return None
  | Some tree => ompi_coll_base_bcast_intra_generic count (to_uint32 segcount) tree debug size buffer rank root
  end.

Definition ompi_coll_base_bcast_intra_bintree (buffer : list A) (count root segsize : nat) (data : mca_coll_base_comm_t) : mca_coll_base_comm_t * program :=
  let data := COLL_BASE_UPDATE_BINTREE size rank mem root data in
  (data, with_tree (cached_tree (cached_bintree data)) segsize count root buffer).

Definition ompi_coll_base_bcast_intra_pipeline (buffer : list A) (count root segsize : nat) (data : mca_coll_base_comm_t) : mca_coll_base_comm_t * program :=
  let data := COLL_BASE_UPDATE_PIPELINE size rank mem root data in
  (data, with_tree (cached_tree (cached_pipeline data)) segsize count root buffer).

Definition ompi_coll_base_bcast_intra_chain (buffer : list A) (count root segsize chains : nat) (data : mca_coll_base_comm_t) : mca_coll_base_comm_t * program :=
  let data := COLL_BASE_UPDATE_CHAIN size rank mem root chains data in
  (data, with_tree (cached_tree (cached_chain data)) segsize count root buffer).

Definition ompi_coll_base_bcast_intra_binomial (buffer : list A) (count root segsize : nat) (data : mca_coll_base_comm_t) : mca_coll_base_comm_t * program :=
  let data := COLL_BASE_UPDATE_BMTREE size rank mem root data in
  (data, with_tree (cached_tree (cached_bmtree data)) segsize count root buffer).

(** There is no tree without memory; the builder itself is undefined for some radixes.
    The fallback passes the number of elements as the segment size.  [segcount] is an
    [int] here: counts are below [2^31]. *)
Definition ompi_coll_base_bcast_intra_knomial (buffer : list A) (count root segsize radix : nat) (data : mca_coll_base_comm_t) : mca_coll_base_comm_t * program :=
  let data := COLL_BASE_UPDATE_KMTREE size rank mem root radix data in
  match cached_tree (cached_kmtree data) with
  | None => if mem then (data, Return None) else ompi_coll_base_bcast_intra_binomial buffer count root count data
  | Some tree => (data, with_tree (Some tree) segsize count root buffer)
  end.

(** Everybody gets the buffer from the root itself. *)
Definition ompi_coll_base_bcast_intra_basic_linear (buff : list A) (count root : nat) : program :=
  if 1 =? size then Return (Some buff)
  else if negb (rank =? root) then recv root (λ data, receive count 0 data buff (λ buff, Return (Some buff)))
  else isend_all ((λ i, (i, take count buff)) <$> filter (λ i, i ≠ rank) (seq 0 size)) [] (λ hs, wait_all hs (Return (Some buff))).

(** ** Choosing one *)

(** A call on the rank with these cached trees. *)
Definition bcast_intra (alg : bcast_alg) (buffer : list A) (count root segsize : nat) (data : mca_coll_base_comm_t) : mca_coll_base_comm_t * program :=
  match alg with
  | Basic_linear => (data, ompi_coll_base_bcast_intra_basic_linear buffer count root)
  | Bintree => ompi_coll_base_bcast_intra_bintree buffer count root segsize data
  | Pipeline => ompi_coll_base_bcast_intra_pipeline buffer count root segsize data
  | Chain chains => ompi_coll_base_bcast_intra_chain buffer count root segsize chains data
  | Binomial => ompi_coll_base_bcast_intra_binomial buffer count root segsize data
  | Knomial radix => ompi_coll_base_bcast_intra_knomial buffer count root segsize radix data
  end.

End algorithms.
End bcast.
End CollBcast.
