(* ===== verification/CollBcastSpec.v ===== *)
(** * A broadcast delivers the root's buffer to every rank

    Over any spanning tree ([Spans]) and with any segmentation, the generic broadcast
    ends in every run with the buffer of the root in all ranks.  The schedule that
    shows it sends the segments one after the other, each from place to place: a rank,
    looked at alone, gets every segment from its parent and then passes it to its
    children, whatever it has posted ahead. *)

From stdpp Require Import base numbers list relations.
From S2P Require Import Prelude BitOps CollTopo CollTopoSpec MsgPass MsgProg CollBcast.

Module CollBcastSpec.
Export CollTopoSpec MsgReq CollBcast.

(** ** Messages down a tree *)

Lemma concat_fmap_nil {B C} (g : B → list C) l : (∀ u, u ∈ l → g u = []) → concat (g <$> l) = [].
Proof. induction l as [|u l IH]; intros H; [done|]. cbn. rewrite H, IH; [done|intros; apply H; by right|by left]. Qed.

Lemma elem_of_concat {B} (x : B) ls : x ∈ concat ls → ∃ l, l ∈ ls ∧ x ∈ l.
Proof.
  induction ls as [|l ls IH]; cbn; [by intros ?%elem_of_nil|]. intros [Hx|Hx]%elem_of_app; [exists l; by split; [left|]|].
  destruct (IH Hx) as (l' & ? & ?). exists l'. by split; [right|].
Qed.

Lemma filter_concat {B} (Q : B → Prop) `{∀ x, Decision (Q x)} (ls : list (list B)) : filter Q (concat ls) = concat (filter Q <$> ls).
Proof. induction ls as [|l ls IH]; [done|]. cbn. by rewrite filter_app, IH. Qed.

Lemma filter_all {B} (Q : B → Prop) `{∀ x, Decision (Q x)} (l : list B) : Forall Q l → filter Q l = l.
Proof. induction 1; [done|]. by rewrite filter_cons, decide_True, IHForall by done. Qed.

Lemma filter_single {B} (Q : B → Prop) `{∀ x, Decision (Q x)} (l : list B) x : NoDup l → x ∈ l → (∀ y, y ∈ l → Q y ↔ y = x) → filter Q l = [x].
Proof.
  induction 1 as [|y l Hy Hnd IH]; intros Hx HQ; [by apply elem_of_nil in Hx|]. rewrite filter_cons. apply elem_of_cons in Hx as [->|Hx].
  - rewrite decide_True by (apply HQ; [by left|done]). f_equal. apply elem_of_nil_inv. intros z [Hz Hin]%list_elem_of_filter.
    apply HQ in Hz as ->; [done|by right].
  - rewrite decide_False; [apply IH; [done|intros; apply HQ; by right]|]. intros ->%HQ; [done|by left].
Qed.

Lemma seq_split a n : a < n → seq 0 n = seq 0 a ++ a :: seq (S a) (n - S a).
Proof. intros H. rewrite cons_seq, <-seq_app. f_equal. lia. Qed.

Section down.
Context {V : Type} {n root : nat} {T : nat → ompi_coll_tree_t} {at' par : nat → nat} {cs : nat → list nat} (HT : placed n root T at' par cs).

(** A value from a place to its children, and down the whole tree. *)
Definition block (v : V) (s : nat) : list (nat * nat * V) := (λ c, (at' s, at' c, v)) <$> cs s.
Definition down (v : V) : list (nat * nat * V) := concat (block v <$> seq 0 n).

Lemma block_filter v s u : s < n → u < n →
  filter (involves (at' s)) (block v u) = if u =? s then block v s else if (0 <? s) && (u =? par s) then [(at' u, at' s, v)] else [].
Proof.
  intros Hs Hu. assert (Hin : ∀ c, c ∈ cs u → involves (at' s) (at' u, at' c, v) → s = u ∨ s = c).
  { intros c Hc [H|H]; cbn in H; apply (at_inj _ _ _ _ _ _ HT) in H; try done; auto. apply (cs_spec _ _ _ _ _ _ HT) in Hc; [lia|done]. }
  destruct (Nat.eqb_spec u s) as [->|Hus].
  - apply filter_all, Forall_forall. intros m (c & -> & _)%list_elem_of_fmap. by left.
  - destruct (Nat.ltb_spec 0 s) as [H0|H0]; [destruct (Nat.eqb_spec u (par s)) as [->|Hup]|]; cbn [andb].
    + apply filter_single.
      * apply NoDup_fmap_2_strong; [|by apply (cs_nodup _ _ _ _ _ _ HT)]. intros c d Hc Hd [= H].
        apply (cs_spec _ _ _ _ _ _ HT) in Hc, Hd; try done. apply (at_inj _ _ _ _ _ _ HT) in H; [done|lia|lia].
      * apply list_elem_of_fmap. exists s. split; [done|]. apply (cs_spec _ _ _ _ _ _ HT); [done|]. split; [lia|done].
      * intros m (c & -> & Hc)%list_elem_of_fmap. split; [|intros [= ->]; by right]. intros Hm. destruct (Hin c Hc Hm) as [?| <-]; [congruence|done].
    + apply elem_of_nil_inv. intros m [Hm (c & -> & Hc)%list_elem_of_fmap]%list_elem_of_filter.
      apply (cs_spec _ _ _ _ _ _ HT) in Hc as Hc'; [|done]. destruct (Hin c Hc Hm) as [->| ->]; [done|]. lia.
    + apply elem_of_nil_inv. intros m [Hm (c & -> & Hc)%list_elem_of_fmap]%list_elem_of_filter.
      apply (cs_spec _ _ _ _ _ _ HT) in Hc as Hc'; [|done]. destruct (Hin c Hc Hm) as [->| ->]; [done|]. lia.
Qed.

(** What a rank sees of it: its parent's message, then its own. *)
Lemma down_filter v s : s < n →
  filter (involves (at' s)) (down v) = (if s =? 0 then [] else [(at' (par s), at' s, v)]) ++ block v s.
Proof.
  intros Hs. unfold down. rewrite filter_concat, <-list_fmap_compose.
  rewrite (list_fmap_ext _ (λ u, if u =? s then block v s else if (0 <? s) && (u =? par s) then [(at' u, at' s, v)] else [])).
  2:{ intros i u [-> Hu]%lookup_seq. cbn. by apply block_filter. }
  rewrite (seq_split s n Hs), fmap_app, fmap_cons, concat_app. cbn [concat]. rewrite Nat.eqb_refl.
  rewrite (concat_fmap_nil _ (seq (S s) _)).
  2:{ intros u [Hu _]%elem_of_seq. rewrite (proj2 (Nat.eqb_neq u s)) by lia. destruct (Nat.ltb_spec 0 s) as [H0|]; [|done].
      pose proof (par_lt _ _ _ _ _ _ HT s ltac:(lia)). by rewrite (proj2 (Nat.eqb_neq u (par s))) by lia. }
  rewrite app_nil_r. f_equal. destruct (Nat.eqb_spec s 0) as [->|H0]; [done|]. pose proof (par_lt _ _ _ _ _ _ HT s ltac:(lia)) as Hp.
  rewrite (seq_split (par s) s Hp), fmap_app, fmap_cons, concat_app. cbn [concat].
  rewrite (proj2 (Nat.eqb_neq (par s) s)), (proj2 (Nat.ltb_lt 0 s)), Nat.eqb_refl by lia. cbn [andb].
  rewrite (concat_fmap_nil _ (seq 0 _)), (concat_fmap_nil _ (seq (S _) _)); [done|..].
  - intros u [Hu Hu']%elem_of_seq. by rewrite (proj2 (Nat.eqb_neq u s)), (proj2 (Nat.eqb_neq u (par s))) by lia.
  - intros u [_ Hu]%elem_of_seq. by rewrite (proj2 (Nat.eqb_neq u s)), (proj2 (Nat.eqb_neq u (par s))) by lia.
Qed.

Lemma down_lt v a b w : (a, b, w) ∈ down v → a < n ∧ b < n.
Proof.
  intros (l & (u & -> & [_ Hu]%elem_of_seq)%list_elem_of_fmap & (c & [= -> -> _] & Hc)%list_elem_of_fmap)%elem_of_concat.
  apply (cs_spec _ _ _ _ _ _ HT) in Hc; [|done]. split; apply (at_lt _ _ _ _ _ _ HT); lia.
Qed.

(** The children of a rank as the tree lists them. *)
Lemma block_children v s : s < n → block v s = (λ m, (at' s, m.1, m.2)) <$> ((λ c, (c, v)) <$> tree_next (T (at' s))).
Proof. intros Hs. unfold block. by rewrite (next_cs _ _ _ _ _ _ HT s Hs), <-!list_fmap_compose. Qed.

Lemma children_ok (v : V) s : s < n → NoDup ((λ c, (c, v)) <$> tree_next (T (at' s))).*1 ∧ at' s ∉ ((λ c, (c, v)) <$> tree_next (T (at' s))).*1.
Proof.
  intros Hs. rewrite (next_cs _ _ _ _ _ _ HT s Hs), <-!list_fmap_compose. cbn. split.
  - apply NoDup_fmap_2_strong; [|by apply (cs_nodup _ _ _ _ _ _ HT)]. intros c d Hc Hd. cbn.
    apply (cs_spec _ _ _ _ _ _ HT) in Hc, Hd; try done. intros H. apply (at_inj _ _ _ _ _ _ HT) in H; [done|lia|lia].
  - intros (c & Heq & Hc)%list_elem_of_fmap. apply (cs_spec _ _ _ _ _ _ HT) in Hc as [Hc <-]; [|done].
    apply (at_inj _ _ _ _ _ _ HT) in Heq; [|lia|lia]. pose proof (par_lt _ _ _ _ _ _ HT c Hc). lia.
Qed.

End down.
(** ** Segments *)

Section segments.
Context {A : Type} (B : list A) (cbs : nat) (Hcbs : 0 < cbs).

Definition segment (g : nat) : list A := take cbs (drop (g * cbs) B).
Abbreviation count := (length B).
Abbreviation nseg := (num_segments count cbs).

Lemma nseg_bounds : 0 < count → 0 < nseg ∧ (nseg - 1) * cbs < count ≤ nseg * cbs.
Proof.
  intros Hc. unfold num_segments. pose proof (Nat.div_mod_eq (count + cbs - 1) cbs). pose proof (Nat.mod_upper_bound (count + cbs - 1) cbs).
  assert (1 ≤ (count + cbs - 1) / cbs) by (apply Nat.div_le_lower_bound; lia). nia.
Qed.

Lemma segment_length g : length (segment g) = min cbs (count - g * cbs).
Proof. unfold segment. by rewrite length_take, length_drop. Qed.

(** The last segment is the rest. *)
Lemma segment_sendcount g : 0 < count → g < nseg →
  take (if g =? nseg - 1 then count - g * cbs else cbs) (drop (g * cbs) B) = segment g.
Proof.
  intros Hc Hg. destruct (nseg_bounds Hc) as (? & ? & ?). unfold segment. destruct (Nat.eqb_spec g (nseg - 1)) as [->|]; [|done].
  rewrite !take_ge; [done|rewrite length_drop; nia|rewrite length_drop; lia].
Qed.

(** A buffer in which the first [g] segments are the root's. *)
Definition partial (buf : list A) (g : nat) : list A := take (g * cbs) B ++ drop (g * cbs) buf.

Lemma partial_store buf g : length buf = count → 0 < count → g < nseg → store (g * cbs) (segment g) (partial buf g) = partial buf (S g).
Proof.
  intros Hl Hc Hg. destruct (nseg_bounds Hc) as (? & ? & ?). assert (Hgc : g * cbs < count) by nia.
  unfold store, partial. rewrite segment_length. rewrite take_app_le, take_take, Nat.min_id by (rewrite length_take; lia).
  rewrite drop_app_ge by (rewrite length_take; lia). rewrite length_take, drop_drop, app_assoc. f_equal.
  - unfold segment. rewrite take_take_drop. by replace (g * cbs + cbs) with (S g * cbs) by lia.
  - replace (min (g * cbs) count) with (g * cbs) by lia. replace (g * cbs + min cbs (count - g * cbs) - g * cbs) with (min cbs (count - g * cbs)) by lia.
    destruct (decide (S g * cbs ≤ count)); [f_equal; lia|]. rewrite !drop_ge; [done|lia|lia].
Qed.

Lemma partial_all buf : length buf = count → 0 < count → partial buf nseg = B.
Proof.
  intros Hl Hc. destruct (nseg_bounds Hc) as (? & ? & ?). unfold partial. rewrite take_ge, drop_ge by lia. apply app_nil_r.
Qed.

(** What has just been stored is what is passed on. *)
Lemma partial_forward buf g : 0 < count → g < nseg → take (length (segment g)) (drop (g * cbs) (partial buf (S g))) = segment g.
Proof.
  intros Hc Hg. destruct (nseg_bounds Hc) as (? & ? & ?). assert (Hgc : g * cbs < count) by nia. unfold partial.
  rewrite drop_app_le by (rewrite length_take; nia). assert (drop (g * cbs) (take (S g * cbs) B) = segment g) as ->; [|by rewrite take_app_length].
  rewrite skipn_firstn_comm. unfold segment. f_equal. lia.
Qed.

Lemma forward_count g : 0 < count → g < nseg → length (segment g) = if g =? nseg - 1 then count - (nseg - 1) * cbs else cbs.
Proof.
  intros Hc Hg. destruct (nseg_bounds Hc) as (? & ? & ?). rewrite segment_length. destruct (Nat.eqb_spec g (nseg - 1)) as [->|]; nia.
Qed.

End segments.
(** ** One rank *)

Definition quiet {V} (rs : list (req V)) : Prop := Forall (λ r, ¬ pending r) rs.

Lemma quiet_app {V} (rs rs' : list (req V)) : quiet (rs ++ rs') ↔ quiet rs ∧ quiet rs'.
Proof. apply Forall_app. Qed.

Lemma quiet_sent {V} k : quiet (replicate k (@Sent V)).
Proof. apply Forall_replicate. by intros []. Qed.

Lemma quiet_no_recv {V} q (rs : list (req V)) : quiet rs → Forall (λ r, ¬ to_recv q r) rs.
Proof. intros H. eapply Forall_impl; [exact H|]. by intros []. Qed.

Lemma quiet_no_send {V} (rs : list (req V)) : quiet rs → Forall (λ r, ∀ j, ¬ to_send j r) rs.
Proof. intros H. eapply Forall_impl; [exact H|]. by intros []. Qed.

Lemma result_return {V R} (rs : list (req V)) (r : R) : quiet rs → result (advance rs (Return r)) = Some r.
Proof. intros H. cbn. by rewrite decide_True. Qed.

Section rank.
Context {A : Type} (B : list A) (cbs : nat) (Hcbs : 0 < cbs) (HB : 0 < length B).
Context (t : ompi_coll_tree_t) (i : nat).
Context (Hnd : ∀ v : list A, NoDup ((λ c, (c, v)) <$> tree_next t).*1 ∧ i ∉ ((λ c, (c, v)) <$> tree_next t).*1).
Abbreviation count := (length B).
Abbreviation nseg := (num_segments count cbs).
Abbreviation seg := (segment B cbs).
Abbreviation proc := (proc (list A) (option (list A))).

Definition mine (v : list A) : list (nat * nat * list A) := (λ m, (i, m.1, m.2)) <$> ((λ c, (c, v)) <$> tree_next t).

(** Passing a segment to the children. *)
Lemma follows_to_children v rs (k : code (list A) (option (list A))) : Forall (λ r, ∀ j, ¬ to_send j r) rs →
  follows i (mine v) (advance rs (to_children t v k)) (advance (rs ++ replicate (length (tree_next t)) Sent) k).
Proof.
  intros Hrs. destruct (Hnd v). unfold to_children, mine. rewrite <-(length_fmap (λ c, (c, v)) (tree_next t)). by apply follows_isend_all.
Qed.

Definition root_stage (g : nat) (p : proc) : Prop := ∃ rs, quiet rs ∧ p = advance rs (bcast_root count cbs t (nseg - g) g B).

Lemma root_step g p : g < nseg → root_stage g p → ∃ p', follows i (mine (seg g)) p p' ∧ root_stage (S g) p'.
Proof.
  intros Hg (rs & Hrs & ->). replace (nseg - g) with (S (nseg - S g)) by lia. cbn [bcast_root]. rewrite segment_sendcount by done.
  eexists. split; [apply follows_to_children; by apply quiet_no_send|]. eexists. split; [|done]. apply quiet_app. split; [done|apply quiet_sent].
Qed.

Context (buf : list A) (Hbuf : length buf = length B) (q : nat) (Hqi : i ≠ q).

(** The receive of segment [g] is posted, no other one. *)
Definition child_stage (g : nat) (p : proc) : Prop :=
  if g <? nseg then
    ∃ rs1 rs2, quiet rs1 ∧ quiet rs2 ∧
      p = advance (rs1 ++ ToRecv q :: rs2)
            (if 0 <? length (tree_next t) then bcast_forward count cbs t (nseg - 1 - g) (g * cbs) (length rs1) q (partial B cbs buf g)
             else bcast_leaf cbs (nseg - 1 - g) (g * cbs) (length rs1) q (partial B cbs buf g))
  else result p = Some (Some B).

Lemma receive_segment g k : g < nseg →
  receive cbs (g * cbs) (seg g) (partial B cbs buf g) k = k (partial B cbs buf (S g)) :> code (list A) (option (list A)).
Proof.
  intros Hg. unfold receive. rewrite (proj2 (Nat.leb_le _ _)) by (rewrite segment_length; lia). by rewrite partial_store.
Qed.

Lemma follows_cons_recv v ms (p p1 p' : proc) : follows i [(q, i, v)] p p1 → follows i ms p1 p' → follows i ((q, i, v) :: ms) p p'.
Proof. intros H1 H2. apply (follows_app i [(q, i, v)] ms). by exists p1. Qed.

(** A segment that is not the last one: the next receive is posted before. *)
Lemma child_step_more g p : S g < nseg → child_stage g p → ∃ p', follows i ((q, i, seg g) :: mine (seg g)) p p' ∧ child_stage (S g) p'.
Proof.
  intros Hg. unfold child_stage. rewrite (proj2 (Nat.ltb_lt g _)), (proj2 (Nat.ltb_lt (S g) _)) by lia. intros (rs1 & rs2 & H1 & H2 & ->).
  replace (nseg - 1 - g) with (S (nseg - 1 - S g)) by lia. pose proof (forward_count B cbs Hcbs g HB ltac:(lia)) as Hlen.
  rewrite (proj2 (Nat.eqb_neq g _)) in Hlen by lia.
  assert (Hfw : take cbs (drop (g * cbs) (partial B cbs buf (S g))) = seg g) by (rewrite <-Hlen at 1; apply partial_forward; (done || lia)).
  assert (Hq' : quiet (rs1 ++ Received (seg g) :: rs2)) by (apply quiet_app; split; [done|]; apply Forall_cons; by split; [intros []|]).
  assert (Hlen' : length (rs1 ++ ToRecv q :: rs2) = length (rs1 ++ Received (seg g) :: rs2)) by (by rewrite !length_app).
  destruct (Nat.ltb_spec 0 (length (tree_next t))) as [Hn|Hn].
  - cbn [bcast_forward advance]. rewrite <-app_assoc. cbn [app]. eexists. split.
    + eapply follows_cons_recv; [apply follows_recv; [done|by apply quiet_no_recv]|]. cbn beta. rewrite receive_segment by lia.
      rewrite Hfw. apply follows_to_children.
      change (rs1 ++ Received (seg g) :: rs2 ++ [ToRecv q]) with (rs1 ++ (Received (seg g) :: rs2) ++ [ToRecv q]). rewrite app_assoc.
      apply Forall_app. split; [by apply quiet_no_send|]. apply Forall_singleton. by intros j [].
    + exists (rs1 ++ Received (seg g) :: rs2), (replicate (length (tree_next t)) Sent). split_and!; [done|apply quiet_sent|].
      rewrite Hlen', <-!app_assoc. cbn [app]. rewrite <-app_assoc. replace (g * cbs + cbs) with (S g * cbs) by lia. done.
  - destruct (tree_next t) as [|] eqn:E; [|cbn in Hn; lia]. unfold mine. rewrite E. cbn [bcast_leaf advance]. rewrite <-app_assoc. cbn [app]. eexists. split.
    + apply follows_recv; [done|by apply quiet_no_recv].
    + exists (rs1 ++ Received (seg g) :: rs2), []. split_and!; [done|constructor|]. cbn beta. rewrite receive_segment by lia.
      rewrite Hlen', <-app_assoc. cbn [app]. replace (g * cbs + cbs) with (S g * cbs) by lia. done.
Qed.

Lemma child_step_last g p : S g = nseg → child_stage g p → ∃ p', follows i ((q, i, seg g) :: mine (seg g)) p p' ∧ child_stage (S g) p'.
Proof.
  intros Hg. unfold child_stage. rewrite (proj2 (Nat.ltb_lt g _)), (proj2 (Nat.ltb_ge (S g) _)) by lia. intros (rs1 & rs2 & H1 & H2 & ->).
  replace (nseg - 1 - g) with 0 by lia. pose proof (forward_count B cbs Hcbs g HB ltac:(lia)) as Hlen.
  rewrite (proj2 (Nat.eqb_eq g _)) in Hlen by lia.
  assert (Hq' : quiet (rs1 ++ Received (seg g) :: rs2)) by (apply quiet_app; split; [done|]; apply Forall_cons; by split; [intros []|]).
  assert (Hall : partial B cbs buf (S g) = B) by (rewrite Hg; by apply partial_all).
  destruct (Nat.ltb_spec 0 (length (tree_next t))) as [Hn|Hn].
  - cbn [bcast_forward]. eexists. split.
    + eapply follows_cons_recv; [apply follows_recv; [done|by apply quiet_no_recv]|]. cbn beta. rewrite receive_segment by lia.
      rewrite <-Hlen, partial_forward by (done || lia). apply follows_to_children. by apply quiet_no_send.
    + rewrite Hall. apply result_return, quiet_app. split; [done|apply quiet_sent].
  - destruct (tree_next t) as [|] eqn:E; [|cbn in Hn; lia]. unfold mine. rewrite E. cbn [bcast_leaf]. eexists. split.
    + apply follows_recv; [done|by apply quiet_no_recv].
    + cbn beta. rewrite receive_segment, Hall by lia. by apply result_return.
Qed.

End rank.
(** ** All ranks *)

Section all_ranks.
Context {A : Type} (n root : nat) (T : nat → ompi_coll_tree_t) (HT : Spans n root T).
Context (debug : bool) (Hdebug : debug = true → 1 < n).
Context (bufs : nat → list A) (cbs : nat) (Hcbs : 0 < cbs) (HB : 0 < length (bufs root)) (Hlen : ∀ i, i < n → length (bufs i) = length (bufs root)).
Abbreviation B := (bufs root).
Abbreviation nseg := (num_segments (length B) cbs).
Abbreviation program i := (ompi_coll_base_bcast_intra_generic (length B) cbs (T i) debug n (bufs i) i root).

(** A rank that can take the segments one by one can take them all. *)
Lemma follows_stages (i : nat) (ms : nat → list (nat * nat * list A)) (stage : nat → proc (list A) (option (list A)) → Prop) k p :
  (∀ g p, g < k → stage g p → ∃ p', follows i (ms g) p p' ∧ stage (S g) p') → stage 0 p →
  ∃ p', follows i (concat (ms <$> seq 0 k)) p p' ∧ stage k p'.
Proof.
  intros Hstep H0. induction k as [|k IH]; [by exists p|]. destruct IH as (p1 & Hp1 & Hs1); [intros; apply Hstep; [lia|done]|].
  destruct (Hstep k p1 ltac:(lia) Hs1) as (p2 & Hp2 & Hs2). exists p2. split; [|done].
  rewrite seq_S, fmap_app, concat_app. apply follows_app. exists p1. split; [done|]. cbn. by rewrite app_nil_r.
Qed.

Lemma bcast_generic_gives : always_gives (all n (λ i, start (program i))) ((λ _, Some B) <$> seq 0 n).
Proof.
  destruct HT as (at' & par & cs & HP).
  apply (always_gives_schedule n (concat ((λ g, down (at':=at') (cs:=cs) (n:=n) (segment B cbs g)) <$> seq 0 nseg))).
  - intros a b v (l & (g & -> & _)%list_elem_of_fmap & Hin)%elem_of_concat. by eapply down_lt.
  - intros i Hi. destruct (at_onto _ _ _ _ _ _ HP i Hi) as (s & Hs & <-).
    assert (Hnd := λ v : list A, children_ok HP v s Hs). unfold ompi_coll_base_bcast_intra_generic.
    replace (debug && (n <=? 1)) with false by (destruct debug; [by rewrite (proj2 (Nat.leb_gt n 1)) by auto|done]).
    rewrite (proj2 (Nat.eqb_neq cbs 0)) by lia. destruct (decide (s = 0)) as [->|Hs0].
    + pose proof (at_0 _ _ _ _ _ _ HP) as Hr. rewrite Hr in Hi, Hnd |- *. rewrite Nat.eqb_refl.
      destruct (follows_stages root (λ g, down (at':=at') (cs:=cs) (n:=n) (segment B cbs g)) (root_stage B cbs (T root)) nseg
        (start (bcast_root (length B) cbs (T root) nseg 0 B))) as (p' & Hf & rs & Hrs & ->).
      { intros g p Hg Hst. destruct (root_step B cbs Hcbs HB (T root) root Hnd g p Hg Hst) as (p' & Hf & Hst'). exists p'. split; [|done].
        apply follows_filter. pose proof (down_filter HP (segment B cbs g) 0 Hs) as Hdf. rewrite (block_children HP) in Hdf by done.
        rewrite Hr in Hdf. by rewrite Hdf. }
      { exists []. split; [constructor|]. by rewrite Nat.sub_0_r. }
      eexists. split; [exact Hf|]. rewrite Nat.sub_diag. by apply result_return.
    + assert (Hpar : par s < s) by (apply (par_lt _ _ _ _ _ _ HP); lia).
      assert (Hne : at' s ≠ root) by (rewrite <-(at_0 _ _ _ _ _ _ HP); intros E%(at_inj _ _ _ _ _ _ HP); lia).
      assert (Hqi : at' s ≠ at' (par s)) by (intros E%(at_inj _ _ _ _ _ _ HP); lia).
      rewrite (proj2 (Nat.eqb_neq _ _) Hne), (prev_par _ _ _ _ _ _ HP s) by lia. pose proof (Hlen (at' s) Hi) as Hbuf.
      destruct (nseg_bounds B cbs Hcbs HB) as (Hpos & _).
      destruct (follows_stages (at' s) (λ g, down (at':=at') (cs:=cs) (n:=n) (segment B cbs g)) (child_stage B cbs (T (at' s)) (bufs (at' s)) (at' (par s))) nseg
        (start (if 0 <? length (tree_next (T (at' s)))
                then Irecv (at' (par s)) (λ req, bcast_forward (length B) cbs (T (at' s)) (nseg - 1) 0 req (at' (par s)) (bufs (at' s)))
                else Irecv (at' (par s)) (λ req, bcast_leaf cbs (nseg - 1) 0 req (at' (par s)) (bufs (at' s)))))) as (p' & Hf & Hst).
      { intros g p Hg Hst. assert (∃ p', follows (at' s) ((at' (par s), at' s, segment B cbs g) :: mine (T (at' s)) (at' s) (segment B cbs g)) p p' ∧
          child_stage B cbs (T (at' s)) (bufs (at' s)) (at' (par s)) (S g) p') as (p' & Hf & Hst').
        { destruct (decide (S g = nseg)); [by apply child_step_last|]. apply child_step_more; try done. lia. }
        exists p'. split; [|done]. apply follows_filter. rewrite (down_filter HP), (block_children HP) by done. by rewrite (proj2 (Nat.eqb_neq s 0)). }
      { unfold child_stage. rewrite (proj2 (Nat.ltb_lt 0 _)) by done. exists [], []. split_and!; [constructor|constructor|].
        rewrite Nat.sub_0_r. unfold start, partial. rewrite Nat.mul_0_l, take_0, drop_0. by destruct (0 <? length (tree_next (T (at' s)))). }
      exists p'. split; [done|]. unfold child_stage in Hst. by rewrite (proj2 (Nat.ltb_ge nseg nseg)) in Hst.
Qed.

End all_ranks.
(** ** Cached trees *)

(** A cached tree is the one for its root and fanout. *)
Definition cached_ok (build : nat → nat → option ompi_coll_tree_t) (c : cached) : Prop :=
  ∀ t, cached_tree c = Some t → build (cached_root c) (cached_param c) = Some t.

Record comm_ok (size rank : nat) (m : mca_coll_base_comm_t) : Prop := {
  bintree_ok : cached_ok (λ r _, ompi_coll_base_topo_build_tree 2 size rank r true) (cached_bintree m);
  bmtree_ok : cached_ok (λ r _, ompi_coll_base_topo_build_bmtree size rank r true) (cached_bmtree m);
  in_order_bmtree_ok : cached_ok (λ r _, ompi_coll_base_topo_build_in_order_bmtree size rank r true) (cached_in_order_bmtree m);
  kmtree_ok : cached_ok (λ r k, ompi_coll_base_topo_build_kmtree size rank r k true) (cached_kmtree m);
  chain_ok : cached_ok (λ r f, ompi_coll_base_topo_build_chain f size rank r true) (cached_chain m);
  pipeline_ok : cached_ok (λ r _, ompi_coll_base_topo_build_chain 1 size rank r true) (cached_pipeline m);
  in_order_bintree_ok : ∀ t, cached_in_order_bintree m = Some t → ompi_coll_base_topo_build_in_order_bintree size rank true = Some t;
}.

Lemma update_ok build c root param : cached_ok build c →
  cached_ok build (update c root param (build root param)) ∧ cached_tree (update c root param (build root param)) = build root param.
Proof.
  intros Hc. unfold update. destruct (bool_decide (is_Some (cached_tree c)) && (cached_root c =? root) && (cached_param c =? param)) eqn:E.
  - apply andb_prop in E as [[Ht Hr%Nat.eqb_eq]%andb_prop Hp%Nat.eqb_eq]. apply bool_decide_eq_true in Ht as [t Ht]. split; [done|].
    by rewrite Ht, <-(Hc t Ht), Hr, Hp.
  - split; [|done]. by intros t.
Qed.

(** The tree an algorithm uses. *)
Definition alg_tree (alg : bcast_alg) (n i root : nat) : option ompi_coll_tree_t :=
  match alg with
  | Basic_linear => None
  | Bintree => ompi_coll_base_topo_build_tree 2 n i root true
  | Pipeline => ompi_coll_base_topo_build_chain 1 n i root true
  | Chain chains => ompi_coll_base_topo_build_chain chains n i root true
  | Binomial => ompi_coll_base_topo_build_bmtree n i root true
  | Knomial radix => ompi_coll_base_topo_build_kmtree n i root radix true
  end.

(** With these radixes the k-nomial tree is built without overflow. *)
Definition alg_ok (n : nat) (alg : bcast_alg) : Prop :=
  match alg with Bintree => 2 * n < max_ranks | Knomial radix => 2 ≤ radix ∧ radix * n < max_ranks | _ => True end.

Lemma alg_tree_builds alg n root : root < n < max_ranks → alg_ok n alg → alg ≠ Basic_linear → builds n root (λ i, alg_tree alg n i root).
Proof.
  intros [Hroot Hmax] Hok Hne. destruct alg; cbn [alg_tree]; try done.
  - apply build_tree_builds; [unfold MAXTREEFANOUT; lia|done..].
  - by apply build_chain_spans.
  - by apply build_chain_spans.
  - by apply build_bmtree_spans.
  - destruct Hok as [Hk Hkn]. apply build_kmtree_spans; [done..|]. pose proof (top_pow_le n radix Hk ltac:(lia)). lia.
Qed.

(** A call keeps the cache right and runs the generic algorithm on that tree. *)
Lemma bcast_intra_tree {A} debug alg n i root typelng (buf : list A) count segsize m t : comm_ok n i m → alg ≠ Basic_linear → alg_tree alg n i root = Some t →
  comm_ok n i (bcast_intra n i debug true typelng alg buf count root segsize m).1 ∧
  (bcast_intra n i debug true typelng alg buf count root segsize m).2 =
    ompi_coll_base_bcast_intra_generic count (to_uint32 (COLL_BASE_COMPUTED_SEGCOUNT segsize typelng count)) t debug n buf i root.
Proof.
  intros [H1 H2 H3 H4 H5 H6 H7] Hne Ht. destruct alg as [| | |chains| |radix]; try done; cbn [alg_tree] in Ht.
  - destruct (update_ok _ _ root 0 H1) as [Hu Htree]. unfold bcast_intra, ompi_coll_base_bcast_intra_bintree, COLL_BASE_UPDATE_BINTREE.
    cbn [fst snd cached_bintree]. split; [by split|]. by rewrite Htree, Ht.
  - destruct (update_ok _ _ root 0 H6) as [Hu Htree]. unfold bcast_intra, ompi_coll_base_bcast_intra_pipeline, COLL_BASE_UPDATE_PIPELINE.
    cbn [fst snd cached_pipeline]. split; [by split|]. by rewrite Htree, Ht.
  - destruct (update_ok _ _ root chains H5) as [Hu Htree]. unfold bcast_intra, ompi_coll_base_bcast_intra_chain, COLL_BASE_UPDATE_CHAIN.
    cbn [fst snd cached_chain]. split; [by split|]. by rewrite Htree, Ht.
  - destruct (update_ok _ _ root 0 H2) as [Hu Htree]. unfold bcast_intra, ompi_coll_base_bcast_intra_binomial, COLL_BASE_UPDATE_BMTREE.
    cbn [fst snd cached_bmtree]. split; [by split|]. by rewrite Htree, Ht.
  - destruct (update_ok _ _ root radix H4) as [Hu Htree]. unfold bcast_intra, ompi_coll_base_bcast_intra_knomial, COLL_BASE_UPDATE_KMTREE.
    cbn [cached_kmtree]. rewrite Htree, Ht. cbn [fst snd]. split; [|done]. split; try done. cbn [cached_kmtree]. by rewrite <-Ht.
Qed.

(** ** Segment sizes *)

Lemma segcount_bounds segsize typelng count : 0 < count → 0 < COLL_BASE_COMPUTED_SEGCOUNT segsize typelng count ≤ count.
Proof.
  intros Hc. unfold COLL_BASE_COMPUTED_SEGCOUNT. destruct (Nat.leb_spec typelng segsize), (Nat.ltb_spec segsize (typelng * count)); cbn [andb]; try lia.
  assert (segsize / typelng < count) by (apply Nat.Div0.div_lt_upper_bound; lia). assert (1 ≤ segsize / typelng) by (apply Nat.div_le_lower_bound; lia).
  destruct (_ <? _); lia.
Qed.

Lemma to_uint32_id x : (Z.of_nat x < 2 ^ 32)%Z → to_uint32 x = x.
Proof. intros H. unfold to_uint32. rewrite Z.mod_small by lia. apply Nat2Z.id. Qed.

(** ** Everybody from the root *)

Lemma basic_linear_gives {A} n root (bufs : nat → list A) count : root < n → (∀ i, i < n → length (bufs i) = count) →
  always_gives (all n (λ i, start (ompi_coll_base_bcast_intra_basic_linear n i (bufs i) count root))) ((λ _, Some (bufs root)) <$> seq 0 n).
Proof.
  intros Hroot Hlen. unfold ompi_coll_base_bcast_intra_basic_linear. destruct (Nat.eqb_spec 1 n) as [<-|Hn].
  { apply (always_gives_schedule 1 []); [by intros ? ? ? ?%elem_of_nil|]. intros i Hi. eexists. split; [done|].
    replace i with root by lia. apply (result_return []). constructor. }
  set (others := filter (λ i, i ≠ root) (seq 0 n)).
  assert (Hin : ∀ i, i ∈ others ↔ i ≠ root ∧ i < n) by (intros i; unfold others; rewrite list_elem_of_filter, elem_of_seq; lia).
  assert (Hnd : NoDup others) by (apply NoDup_filter, NoDup_seq).
  apply (always_gives_schedule n ((λ m, (root, m.1, m.2)) <$> ((λ i, (i, bufs root)) <$> others))).
  - intros a b v (m & [= -> -> _] & (i & -> & Hi)%list_elem_of_fmap)%list_elem_of_fmap. apply Hin in Hi. cbn. lia.
  - intros i Hi. destruct (Nat.eqb_spec i root) as [->|Hne]; cbn [negb].
    + fold others. rewrite take_ge by (by rewrite Hlen). eexists. split.
      * apply (follows_isend_all root _ []); [constructor| |].
        -- by rewrite <-list_fmap_compose, list_fmap_id.
        -- rewrite <-list_fmap_compose, list_fmap_id, Hin. by intros [].
      * apply result_return, quiet_sent.
    + eexists. split.
      * apply follows_filter. rewrite (filter_single _ _ (root, i, bufs root)).
        -- unfold start, recv. cbn [advance app length]. apply (follows_recv i root (bufs root) [] []); [done|constructor].
        -- apply NoDup_fmap_2_strong; [|apply NoDup_fmap_2_strong; [|done]]; [|by intros ? ? _ _ [= ->]]. intros [] [] (? & [= -> ->] & _)%list_elem_of_fmap (? & [= -> ->] & _)%list_elem_of_fmap. by intros [= ->].
        -- apply list_elem_of_fmap. exists (i, bufs root). split; [done|]. apply list_elem_of_fmap. exists i. by rewrite Hin.
        -- intros m (? & -> & (j & -> & Hj)%list_elem_of_fmap)%list_elem_of_fmap. unfold involves. cbn. split; [intros [?| ->]; done|intros [= ->]; by right].
      * unfold receive. rewrite Hlen, Nat.leb_refl by done. unfold store. rewrite take_0, drop_ge, app_nil_r by (by rewrite !Hlen).
        cbn. by rewrite decide_True by (repeat constructor; by intros []).
Qed.

(** ** Claims *)

(** C18: A broadcast of at least one and fewer than [2^31] elements delivers the buffer
    of the root to every rank, with each of the algorithms (everybody from the root,
    binary, chain, pipeline, binomial and k-nomial tree), for any root and segment size,
    when there is memory for the trees, from any state of the cached trees that earlier
    calls can have left; the cached trees stay right.  The number of ranks is within
    [max_ranks] (for the binary and k-nomial tree the fanout times that number); a build
    with assertions needs two ranks for the algorithms over a tree.  This holds in every
    run, whatever the order of the processes and of buffered and synchronous sends; every
    run ends and leaves no message. *)
Theorem bcast_spec {A} debug alg n root typelng (bufs : nat → list A) count segsize (m : nat → mca_coll_base_comm_t) :
  root < n < max_ranks → alg_ok n alg → 0 < count → (Z.of_nat count < 2 ^ 31)%Z →
  (debug = true → alg ≠ Basic_linear → 1 < n) →
  (∀ i, i < n → length (bufs i) = count) → (∀ i, i < n → comm_ok n i (m i)) →
  let call i := bcast_intra n i debug true typelng alg (bufs i) count root segsize (m i) in
  (∀ i, i < n → comm_ok n i (call i).1) ∧
  always_gives (all n (λ i, start (call i).2)) ((λ _, Some (bufs root)) <$> seq 0 n).
Proof.
  intros Hn Hok Hc Hmax Hdebug Hlen Hm. destruct (decide (alg = Basic_linear)) as [->|Hne].
  { split; [done|]. apply basic_linear_gives; [lia|done]. }
  destruct (alg_tree_builds alg n root Hn Hok Hne) as (T & HT & Hspan).
  assert (Hcall := λ i Hi, bcast_intra_tree debug alg n i root typelng (bufs i) count segsize (m i) (T i) (Hm i Hi) Hne (HT i Hi)).
  destruct (segcount_bounds segsize typelng count Hc). cbv zeta. split; [intros i Hi; by apply Hcall|].
  erewrite all_ext; [|intros i Hi; by destruct (Hcall i Hi) as [_ ->]]. rewrite to_uint32_id by lia.
  assert (Hroot : length (bufs root) = count) by (apply Hlen; lia).
  pose proof (bcast_generic_gives n root T Hspan debug (λ H, Hdebug H Hne) bufs (COLL_BASE_COMPUTED_SEGCOUNT segsize typelng count)) as Hg.
  rewrite Hroot in Hg. apply Hg; [lia|done|]. intros i Hi. by rewrite Hlen.
Qed.

(** The excluded case: the assertion of a [debug] build stops a broadcast over a tree
    in a communicator of one rank. *)
Theorem bcast_alone_aborts {A} alg typelng (buf : list A) count segsize m : alg_ok 1 alg → alg ≠ Basic_linear → comm_ok 1 0 m →
  (bcast_intra 1 0 true true typelng alg buf count 0 segsize m).2 = Return None.
Proof.
  intros Hok Hne Hm. assert (Hmax : 1 < max_ranks) by (apply (small_size 1); cbn; lia).
  destruct (alg_tree_builds alg 1 0 (conj Nat.lt_0_1 Hmax) Hok Hne) as (T & HT & _).
  by rewrite (proj2 (bcast_intra_tree true alg 1 0 0 typelng buf count segsize m (T 0) Hm Hne (HT 0 ltac:(lia)))).
Qed.

Definition no_trees : mca_coll_base_comm_t :=
  let c := mk_cached None 0 0 in mk_comm c c c c c c None.

Lemma no_trees_ok size rank : comm_ok size rank no_trees.
Proof. by split. Qed.

(** Five ranks, the letters of the third one in segments of two bytes. *)
Lemma bcast_witness :
  always_gives (all 5 (λ i, start (bcast_intra 5 i true true 1 (Chain 2) (if i =? 2 then [3; 1; 4; 1; 5] else repeat 0 5) 5 2 2 no_trees).2))
    (replicate 5 (Some [3; 1; 4; 1; 5])).
Proof.
  refine (proj2 (bcast_spec true (Chain 2) 5 2 1 (λ i, if i =? 2 then [3; 1; 4; 1; 5] else repeat 0 5) 5 2 (λ _, no_trees) _ _ _ _ _ _ _)).
  - split; [lia|apply (small_size 3); cbn; lia].
  - done.
  - lia.
  - lia.
  - lia.
  - intros i _. by destruct (i =? 2).
  - intros i _. apply no_trees_ok.
Defined.

(** The count of a segment is passed as 32 bits: without segmentation, a broadcast
    of a multiple of [2^32] elements over a tree divides by zero on every rank. *)
Theorem bcast_count_truncated {A} debug alg n i root typelng (buf : list A) count segsize m :
  alg ≠ Basic_linear → (∀ radix, alg ≠ Knomial radix) → (Z.of_nat count mod 2 ^ 32 = 0)%Z → segsize < typelng →
  (bcast_intra n i debug true typelng alg buf count root segsize m).2 = Return None.
Proof.
  intros Hne Hk Hc Hs. assert (H0 : to_uint32 (COLL_BASE_COMPUTED_SEGCOUNT segsize typelng count) = 0).
  { unfold COLL_BASE_COMPUTED_SEGCOUNT. rewrite (proj2 (Nat.leb_gt typelng segsize)) by done. cbn [andb]. unfold to_uint32. by rewrite Hc. }
  assert (Hw : ∀ t, with_tree n i debug typelng t segsize count root buf = Return None).
  { intros [t|]; [|done]. unfold with_tree, ompi_coll_base_bcast_intra_generic. rewrite H0. by destruct (debug && (n <=? 1)). }
  destruct alg; try done; try (by destruct (Hk radix)); apply Hw.
Qed.

Lemma bcast_count_truncated_witness :
  (bcast_intra 2 0 true true 1 Binomial (@nil nat) (Z.to_nat (2 ^ 32)) 0 0 no_trees).2 = Return None.
Proof.
  apply (bcast_count_truncated true Binomial 2 0 0 1 (@nil nat) (Z.to_nat (2 ^ 32)) 0 no_trees); [done|done|by rewrite Z2Nat.id by lia|lia].
Defined.

End CollBcastSpec.
