(* ===== verification/DtDesc.v ===== *)
(** * Descriptions of datatypes ([opal/datatype/opal_datatype_internal.h])

    A datatype is an array of entries: data (a number of blocks of basic elements), the
    start of a loop, the end of a loop.  The sizes and alignments of the basic types are
    those of the compiler, a parameter ([Abi]). *)

From stdpp Require Import base numbers list gmap.
From S2P Require Import Prelude.

Module DtDesc.
Local Open Scope Z_scope.

Abbreviation byte := Z (only parsing).

(** ** Basic types *)

Definition OPAL_DATATYPE_LOOP : nat := 0.
Definition OPAL_DATATYPE_FIRST_TYPE : nat := 4.
Definition OPAL_DATATYPE_INT4 : nat := 6.
Definition OPAL_DATATYPE_UINT1 : nat := 9.
Definition OPAL_DATATYPE_FLOAT8 : nat := 16.
Definition OPAL_DATATYPE_DOUBLE_COMPLEX : nat := 21.
Definition OPAL_DATATYPE_LONG_DOUBLE_COMPLEX : nat := 22.
Definition OPAL_DATATYPE_MAX_PREDEFINED : nat := 28.

(** What the compiler makes of the basic types: the size of each, its alignment
    ([c_align]), and the alignment that copies of single elements ask for, [0] for a type
    that has no C type or that [opal_datatype_pack_predefined_element] does not know. *)
Class Abi := { basic_size : nat → nat; c_align : nat → nat; basic_align : nat → nat }.

(** What every compiler guarantees: a byte is a byte, and a size is a multiple of the
    alignment.  Types that are copied element by element have sizes that are powers of
    two on the machines at hand; only the divisibility is used. *)
Class AbiLaws `{Abi} : Prop := {
  uint1_size : basic_size OPAL_DATATYPE_UINT1 = 1%nat;
  copied_size t : basic_align t ≠ 0%nat → (0 < basic_size t)%nat ∧ (Z.of_nat (basic_size t) | 2 ^ 64);
}.

(** Linux on x86-64. *)
Definition x86_64_sizes : list nat :=
  [0; 0; 0; 0; 1; 2; 4; 8; 16; 1; 2; 4; 8; 16; 0; 4; 8; 0; 16; 0; 8; 16; 32; 1; 4; 8; 8; 0]%nat.
Definition x86_64_aligns : list nat :=
  [0; 0; 0; 0; 1; 2; 4; 8; 16; 1; 2; 4; 8; 16; 0; 4; 8; 0; 16; 0; 4; 8; 16; 1; 4; 0; 0; 0]%nat.
#[export] Instance x86_64 : Abi | 100 := {|
  basic_size t := nth t x86_64_sizes 0%nat;
  c_align t := if (t =? 25)%nat || (t =? 26)%nat then 8%nat else nth t x86_64_aligns 0%nat;
  basic_align t := nth t x86_64_aligns 0%nat;
|}.

#[export] Instance x86_64_laws : AbiLaws (H := x86_64).
Proof.
  split; [done|]. intros t. cbn [basic_align basic_size x86_64].
  assert (Ht : (t < 28 ∨ 28 ≤ t)%nat) by lia. destruct Ht as [Ht|Ht].
  - do 28 (destruct t as [|t]; [intros H; first [done|split; [cbn; lia|by apply Z.mod_divide]]|]). lia.
  - by rewrite nth_overflow by (cbn; lia).
Qed.

(** ** Entries *)

Record ddt_elem_desc_t := mk_elem { e_type : nat; e_count : nat; e_blocklen : nat; e_extent : Z; e_disp : Z }.
Record ddt_loop_desc_t := mk_loop { items : nat; loops : nat; l_extent : Z; l_contiguous : bool }.
Record ddt_endloop_desc_t := mk_endloop { end_items : nat; end_size : nat; first_elem_disp : Z }.

Inductive dt_elem_desc := Elem (e : ddt_elem_desc_t) | Loop (l : ddt_loop_desc_t) | EndLoop (l : ddt_endloop_desc_t).

(** ** Datatypes *)

Definition OPAL_DATATYPE_FLAG_CONTIGUOUS : Z := 0x0010.
Definition OPAL_DATATYPE_FLAG_NO_GAPS : Z := 0x0020.

(** Whether a flag is set. *)
Definition flag (flags f : Z) : bool := negb (Z.land flags f =? 0).

(** [desc] are the used entries of the description and [desc_length] the length of their
    array, [opt_desc] is the array of the optimized description with the end of loop that
    closes it; [d_loops] bounds the depth. *)
Record opal_datatype_t := mk_datatype {
  d_flags : Z; d_id : nat; bdt_used : Z; d_size : nat;
  true_lb : Z; true_ub : Z; d_lb : Z; d_ub : Z;
  nbElems : nat; d_align : nat; d_loops : nat;
  desc_length : nat; desc : list dt_elem_desc; opt_desc : list dt_elem_desc;
}.

Definition d_extent (d : opal_datatype_t) : Z := d_ub d - d_lb d.

(** The number of basic elements of an entry that holds data. *)
Definition e_total (e : ddt_elem_desc_t) : nat := (e_count e * e_blocklen e)%nat.

(** ** Memory *)

Abbreviation memory := (gmap Z byte).

(** [memcpy] from and to the user's memory; [None] outside of it. *)
Definition load (m : memory) (a : Z) (n : nat) : option (list byte) := mapM (m !!.) (seqZ a (Z.of_nat n)).

Fixpoint store (m : memory) (a : Z) (bs : list byte) : option memory :=
  match bs with
  | [] => Some m
  | b :: bs => _ ← m !! a; store (<[a := b]> m) (a + 1) bs
  end.

End DtDesc.
