(* ===== verification/DtBuild.v ===== *)
(** * Construction of datatypes ([opal/datatype/opal_datatype_create.c],
    [opal_datatype_add.c], [opal_datatype_resize.c], [opal_datatype_clone.c],
    [opal_datatype_create_contiguous.c], [opal_datatype_module.c])

    A derived datatype starts empty and grows by adding other datatypes.  Sizes are kept
    at 64 bits, the numbers of blocks and of loops at the 32 bits of their fields;
    displacements and extents are unbounded. *)

From stdpp Require Import base numbers list.
From S2P Require Import Prelude DtDesc.

Module DtBuild.
Import DtDesc.
Local Open Scope c_scope.
Local Open Scope nat_scope.

Definition OPAL_DATATYPE_LB : nat := 2.
Definition OPAL_DATATYPE_UB : nat := 3.

Definition OPAL_DATATYPE_FLAG_PREDEFINED : Z := 0x0002.
Definition OPAL_DATATYPE_FLAG_COMMITTED : Z := 0x0004.
Definition OPAL_DATATYPE_FLAG_USER_LB : Z := 0x0040.
Definition OPAL_DATATYPE_FLAG_USER_UB : Z := 0x0080.
Definition OPAL_DATATYPE_FLAG_DATA : Z := 0x0100.
Definition OPAL_DATATYPE_FLAG_BASIC : Z := 0x0136.

Definition LONG_MAX : Z := 2 ^ 63 - 1.
Definition LONG_MIN : Z := - 2 ^ 63.
Definition DT_INCREASE_STACK : nat := 8.

(** Conversions to [uint32_t] and [size_t]. *)
Definition u32 (n : nat) : nat := Z.to_nat (wrap 32 (Z.of_nat n)).
Definition u64 (n : nat) : nat := Z.to_nat (wrap 64 (Z.of_nat n)).
#[global] Arguments u32 : simpl never.
#[global] Arguments u64 : simpl never.

(** [OPAL_SUCCESS] and [OPAL_ERROR]. *)
Inductive status := Success | Error.

(** ** Basic datatypes *)

Section basic.
Context `{Abi}.

(** [OPAL_DATATYPE_INIT_BASIC_DATATYPE], with the entries that [opal_datatype_init] makes. *)
Definition basic_datatype (t : nat) : opal_datatype_t :=
  let size := basic_size t in
  let e := Elem (mk_elem t 1 1 (Z.of_nat size) 0) in
  mk_datatype OPAL_DATATYPE_FLAG_BASIC t (2 ^ Z.of_nat t) size 0 (Z.of_nat size) 0 (Z.of_nat size) 1 (c_align t) 0
    1 [e] [e; EndLoop (mk_endloop 1 size 0)].

(** [OPAL_DATATYPE_INITIALIZER_EMPTY], as for [MPI_DATATYPE_NULL]. *)
Definition opal_datatype_empty : opal_datatype_t :=
  mk_datatype (Z.lor OPAL_DATATYPE_FLAG_PREDEFINED OPAL_DATATYPE_FLAG_CONTIGUOUS) 0 0 0 0 0 0 0 1 0 0 0 [] [].

End basic.

(** ** Creation *)

Definition opal_datatype_construct : opal_datatype_t :=
  mk_datatype OPAL_DATATYPE_FLAG_CONTIGUOUS 0 0 0 LONG_MAX LONG_MIN LONG_MAX LONG_MIN 0 1 0 0 [] [].

(** The array has one more entry, for the end of loop that closes it; without a size the
    default one. *)
Definition opal_datatype_create (expectedSize : option nat) : opal_datatype_t :=
  let expectedSize := match expectedSize with Some n => n | None => DT_INCREASE_STACK end in
  let d := opal_datatype_construct in
  mk_datatype (d_flags d) (d_id d) (bdt_used d) (d_size d) (true_lb d) (true_ub d) (d_lb d) (d_ub d) (nbElems d) (d_align d) (d_loops d)
    (expectedSize + 1) [] (opt_desc d).

(** ** Adding a datatype *)

Definition LMIN (a b : Z) : Z := if (a <? b)%Z then a else b.
Definition LMAX (a b : Z) : Z := if (a <? b)%Z then b else a.

Section add.
Context (pdtAdd : opal_datatype_t) (count : nat) (disp extent : Z).

(** Lower and upper bound of [count] elements. *)
Definition OPAL_DATATYPE_LB_UB_CONT (old_lb old_ub : Z) : Z * Z :=
  if count =? 0 then (old_lb + disp, old_ub + disp)%Z
  else
    let upper := (disp + extent * (Z.of_nat count - 1))%Z in
    let lower := disp in
    if (lower <? upper)%Z then (lower + old_lb, upper + old_ub)%Z else (upper + old_lb, lower + old_ub)%Z.

(** The number of entries, [None] for too many. *)
Definition OPAL_DATATYPE_COMPUTE_REQUIRED_ENTRIES : option nat :=
  if flag (d_flags pdtAdd) OPAL_DATATYPE_FLAG_PREDEFINED then Some (if (extent =? Z.of_nat (d_size pdtAdd))%Z then 1 else 3)
  else
    let place_needed := length (desc pdtAdd) in
    if count =? 1 then Some place_needed
    else if (Z.of_nat place_needed <? 2 ^ 32 - 1 - 2)%Z then Some (place_needed + 2)
    else None.

(** The entry for a basic datatype. *)
Definition basic_entry : ddt_elem_desc_t :=
  if (extent =? Z.of_nat (d_size pdtAdd))%Z then mk_elem (d_id pdtAdd) 1 count (Z.of_nat count * extent) disp
  else mk_elem (d_id pdtAdd) (u32 count) 1 extent disp.

(** Entries keep their extents and move by [disp]. *)
Definition shift_elem (e : ddt_elem_desc_t) : ddt_elem_desc_t := mk_elem (e_type e) (e_count e) (e_blocklen e) (e_extent e) (e_disp e + disp).
Definition shift_entry (x : dt_elem_desc) : dt_elem_desc :=
  match x with
  | Elem e => Elem (shift_elem e)
  | Loop l => Loop l
  | EndLoop el => EndLoop (mk_endloop (end_items el) (end_size el) (first_elem_disp el + disp))
  end.

(** The entry for a datatype with a single one, [None] when a loop has to be built. *)
Definition single_entry (e : ddt_elem_desc_t) : option ddt_elem_desc_t :=
  if count =? 1 then Some e
  else if e_count e =? 1 then
    if (e_extent e =? extent)%Z then Some (mk_elem (e_type e) 1 (e_blocklen e * count) (e_extent e * Z.of_nat count) (e_disp e))
    else Some (mk_elem (e_type e) (u32 count) (e_blocklen e) extent (e_disp e))
  else if (extent =? Z.of_nat (e_count e) * e_extent e)%Z then
    let cnt := u32 (e_count e * count) in
    if cnt <? e_count e then None else Some (mk_elem (e_type e) cnt (e_blocklen e) (e_extent e) (e_disp e))
  else None.

End add.

(** The index of the first entry that is no loop, [None] past the end. *)
Fixpoint GET_FIRST_NON_LOOP (pElem : list dt_elem_desc) : option nat :=
  match pElem with
  | Loop _ :: rest => i ← GET_FIRST_NON_LOOP rest; Some (S i)
  | _ :: _ => Some 0
  | [] => None
  end.

(** The entry of data at this index. *)
Definition data_at (description : list dt_elem_desc) (i : nat) : option ddt_elem_desc_t :=
  match description !! i with Some (Elem e) => Some e | _ => None end.

(** [build_loop]: the entries of the datatype, with a loop around them. *)
Definition loop_entries (pdtAdd : opal_datatype_t) (count : nat) (disp extent : Z) : option (list dt_elem_desc) :=
  let body := shift_entry disp <$> desc pdtAdd in
  if count =? 1 then Some body
  else
    let pLoop := Loop (mk_loop (length body + 1) (u32 count) extent (flag (d_flags pdtAdd) OPAL_DATATYPE_FLAG_CONTIGUOUS)) :: body in
    index ← GET_FIRST_NON_LOOP pLoop;
    e ← data_at pLoop index;
    Some (pLoop ++ [EndLoop (mk_endloop (length body + 1) (d_size pdtAdd) (e_disp e))]).

(** The new entries, and the number of loops they add. *)
Definition new_entries (pdtAdd : opal_datatype_t) (count : nat) (disp extent : Z) : option (list dt_elem_desc * nat) :=
  if flag (d_flags pdtAdd) OPAL_DATATYPE_FLAG_PREDEFINED && flag (d_flags pdtAdd) OPAL_DATATYPE_FLAG_DATA then
    Some ([Elem (basic_entry pdtAdd count disp extent)], 0)
  else
    let build_loop :=
      es ← loop_entries pdtAdd count disp extent;
      Some (es, d_loops pdtAdd + if count =? 1 then 0 else 2) in
    match desc pdtAdd with
    | [Elem e] =>
        match single_entry count extent (shift_elem disp e) with
        | Some e => Some ([Elem e], d_loops pdtAdd)
        | None => build_loop
        end
    | [_] => None
    | _ => build_loop
    end.

(** The bounds of the result, with those of the user; the alignment rounds the extent up
    unless the upper bound is the user's. *)
Definition new_bounds (pdtBase pdtAdd : opal_datatype_t) (lb ub : Z) : Z * Z * Z * nat :=
  let base_lb := flag (d_flags pdtBase) OPAL_DATATYPE_FLAG_USER_LB in
  let base_ub := flag (d_flags pdtBase) OPAL_DATATYPE_FLAG_USER_UB in
  let '(lb, flags) :=
    if xorb (flag (d_flags pdtAdd) OPAL_DATATYPE_FLAG_USER_LB) base_lb then
      (if base_lb then d_lb pdtBase else lb, Z.lor (d_flags pdtBase) OPAL_DATATYPE_FLAG_USER_LB)
    else (LMIN (d_lb pdtBase) lb, d_flags pdtBase) in
  let '(ub, flags) :=
    if xorb base_ub (flag (d_flags pdtAdd) OPAL_DATATYPE_FLAG_USER_UB) then
      (if base_ub then d_ub pdtBase else ub, Z.lor flags OPAL_DATATYPE_FLAG_USER_UB)
    else (LMAX (d_ub pdtBase) ub, flags) in
  let align := d_align pdtBase `max` d_align pdtAdd in
  let ub :=
    if flag flags OPAL_DATATYPE_FLAG_USER_UB then ub
    else
      let epsilon := Z.rem (ub - lb) (Z.of_nat align) in
      if (epsilon =? 0)%Z then ub else (ub + (Z.of_nat align - epsilon))%Z in
  (lb, ub, flags, align).

(** Whether the data is still contiguous, and without gaps. *)
Definition contiguous_flags (flags old_flags : Z) (pdtAdd : opal_datatype_t) (count : nat) (disp extent old_true_ub lb ub : Z) (size : nat) : Z :=
  let flags := Z.ldiff flags (Z.lor OPAL_DATATYPE_FLAG_CONTIGUOUS OPAL_DATATYPE_FLAG_NO_GAPS) in
  if flag old_flags OPAL_DATATYPE_FLAG_CONTIGUOUS && flag (d_flags pdtAdd) OPAL_DATATYPE_FLAG_CONTIGUOUS && (disp + true_lb pdtAdd =? old_true_ub)%Z
     && ((Z.of_nat (d_size pdtAdd) =? extent)%Z || (count <? 2)) then
    let flags := Z.lor flags OPAL_DATATYPE_FLAG_CONTIGUOUS in
    if (Z.of_nat size =? ub - lb)%Z then Z.lor flags OPAL_DATATYPE_FLAG_NO_GAPS else flags
  else flags.

(** The markers of the user's bounds, which hold no data. *)
Definition set_marker (pdtBase : opal_datatype_t) (id : nat) (flags lb ub : Z) : opal_datatype_t :=
  let flags := if (ub - lb =? Z.of_nat (d_size pdtBase))%Z then flags else Z.ldiff flags OPAL_DATATYPE_FLAG_NO_GAPS in
  mk_datatype flags (d_id pdtBase) (Z.lor (bdt_used pdtBase) (2 ^ Z.of_nat id)) (d_size pdtBase) (true_lb pdtBase) (true_ub pdtBase) lb ub (nbElems pdtBase)
    (d_align pdtBase) (d_loops pdtBase) (desc_length pdtBase) (desc pdtBase) (opt_desc pdtBase).

Definition add_lb (pdtBase : opal_datatype_t) (disp : Z) : opal_datatype_t :=
  let user := flag (d_flags pdtBase) OPAL_DATATYPE_FLAG_USER_LB in
  set_marker pdtBase OPAL_DATATYPE_LB (Z.lor (d_flags pdtBase) OPAL_DATATYPE_FLAG_USER_LB) (if user then LMIN (d_lb pdtBase) disp else disp) (d_ub pdtBase).

Definition add_ub (pdtBase : opal_datatype_t) (disp : Z) : opal_datatype_t :=
  let user := flag (d_flags pdtBase) OPAL_DATATYPE_FLAG_USER_UB in
  set_marker pdtBase OPAL_DATATYPE_UB (Z.lor (d_flags pdtBase) OPAL_DATATYPE_FLAG_USER_UB) (d_lb pdtBase) (if user then LMAX (d_ub pdtBase) disp else disp).

(** The part that adds data: the true bounds, the size, the entries and the flags. *)
Definition add_data (pdtBase pdtAdd : opal_datatype_t) (count : nat) (disp extent : Z) (place_needed : nat) (lb ub flags : Z) (align : nat) (tlb tub : Z) :
    option opal_datatype_t :=
  let size := u64 (d_size pdtBase + count * d_size pdtAdd) in
  let old_true_ub := if nbElems pdtBase =? 0 then disp else true_ub pdtBase in
  let '(tlb, tub) := if size =? 0 then (tlb, tub) else (LMIN tlb (true_lb pdtBase), LMAX tub (true_ub pdtBase)) in
  let newLength := length (desc pdtBase) + place_needed in
  let desc_length := if desc_length pdtBase <? newLength then (newLength / DT_INCREASE_STACK + 1) * DT_INCREASE_STACK else desc_length pdtBase in
  '(es, loops) ← new_entries pdtAdd count disp extent;
  safe length (desc pdtBase) + length es <=? desc_length;
  let flags := if flag (d_flags pdtAdd) OPAL_DATATYPE_FLAG_PREDEFINED && flag (d_flags pdtAdd) OPAL_DATATYPE_FLAG_DATA then flags
    else Z.lor flags (Z.land (d_flags pdtAdd) (Z.lor OPAL_DATATYPE_FLAG_USER_LB OPAL_DATATYPE_FLAG_USER_UB)) in
  let flags := contiguous_flags flags flags pdtAdd count disp extent old_true_ub lb ub size in
  safe negb (flag flags OPAL_DATATYPE_FLAG_NO_GAPS) || flag flags OPAL_DATATYPE_FLAG_CONTIGUOUS;
  Some (mk_datatype flags (d_id pdtBase) (Z.lor (bdt_used pdtBase) (bdt_used pdtAdd)) size tlb tub lb ub (u64 (nbElems pdtBase + count * nbElems pdtAdd)) align
          (d_loops pdtBase + loops) desc_length (desc pdtBase ++ es) (opt_desc pdtBase)).

Definition opal_datatype_add (pdtBase pdtAdd : opal_datatype_t) (count : nat) (disp extent : Z) : option (status * opal_datatype_t) :=
  if count =? 0 then Some (Success, pdtBase)
  else
    let extent := if (extent =? -1)%Z then d_extent pdtAdd else extent in
    if d_id pdtAdd =? OPAL_DATATYPE_LB then Some (Success, add_lb pdtBase disp)
    else if d_id pdtAdd =? OPAL_DATATYPE_UB then Some (Success, add_ub pdtBase disp)
    else
      match OPAL_DATATYPE_COMPUTE_REQUIRED_ENTRIES pdtAdd count extent with
      | None => Some (Error, pdtBase)
      | Some place_needed =>
          let '(lb, ub) := OPAL_DATATYPE_LB_UB_CONT count disp extent (d_lb pdtAdd) (d_ub pdtAdd) in
          let tlb := (lb - (d_lb pdtAdd - true_lb pdtAdd))%Z in
          let tub := (ub - (d_ub pdtAdd - true_ub pdtAdd))%Z in
          let '(tlb, tub) := if (tub <? tlb)%Z then (tub, tlb) else (tlb, tub) in
          let '(lb, ub, flags, align) := new_bounds pdtBase pdtAdd lb ub in
          let flags := Z.lor flags OPAL_DATATYPE_FLAG_DATA in
          if d_size pdtAdd =? 0 then
            Some (Success, mk_datatype flags (d_id pdtBase) (bdt_used pdtBase) (d_size pdtBase) (true_lb pdtBase) (true_ub pdtBase) lb ub (nbElems pdtBase) align
                             (d_loops pdtBase) (desc_length pdtBase) (desc pdtBase) (opt_desc pdtBase))
          else
            d ← add_data pdtBase pdtAdd count disp extent place_needed lb ub flags align tlb tub;
            Some (Success, d)
      end.

Definition opal_datatype_create_contiguous (count : nat) (oldType : opal_datatype_t) : option opal_datatype_t :=
  '(_, d) ← (if count =? 0 then opal_datatype_add (opal_datatype_create (Some 0)) opal_datatype_empty 0 0 0
             else opal_datatype_add (opal_datatype_create (Some (length (desc oldType) + 2))) oldType count 0 (d_extent oldType));
  Some d.

(** ** Changing the bounds, copies *)

Definition opal_datatype_resize (type : opal_datatype_t) (lb extent : Z) : opal_datatype_t :=
  let flags := Z.ldiff (d_flags type) OPAL_DATATYPE_FLAG_NO_GAPS in
  let flags := Z.lor (Z.lor flags OPAL_DATATYPE_FLAG_USER_LB) OPAL_DATATYPE_FLAG_USER_UB in
  let flags := if (extent =? Z.of_nat (d_size type))%Z && flag flags OPAL_DATATYPE_FLAG_CONTIGUOUS then Z.lor flags OPAL_DATATYPE_FLAG_NO_GAPS else flags in
  mk_datatype flags (d_id type) (bdt_used type) (d_size type) (true_lb type) (true_ub type) lb (lb + extent) (nbElems type) (d_align type) (d_loops type)
    (desc_length type) (desc type) (opt_desc type).

(** The copy has its own array, with the entries of the source and the length of the
    source's array. *)
Definition opal_datatype_clone (src dest : opal_datatype_t) : option opal_datatype_t :=
  safe (length (desc src) =? 0) || (length (desc src) + 1 <=? desc_length dest);
  Some (mk_datatype (Z.ldiff (d_flags src) OPAL_DATATYPE_FLAG_PREDEFINED) (d_id src) (bdt_used src) (d_size src) (true_lb src) (true_ub src) (d_lb src) (d_ub src)
          (nbElems src) (d_align src) (d_loops src) (desc_length src) (desc src) (opt_desc src)).

End DtBuild.
