(* ===== verification/DtOptimize.v ===== *)
(** * The optimized description ([opal/datatype/opal_datatype_optimize.c])

    [opal_datatype_commit] makes a second description with fewer and larger entries, the
    one that convertors use between processes of the same architecture.  [debug] says
    whether the assertions are compiled in; they look at the entries of a loop as entries
    of data. *)

From stdpp Require Import base numbers list.
From S2P Require Import Prelude DtDesc DtBuild.

Module DtOptimize.
Import DtDesc DtBuild.
Local Open Scope c_scope.
Local Open Scope nat_scope.

Definition OPAL_DATATYPE_OPTIMIZED_RESTRICTED : Z := 0x1000.

Section optimize.
Context `{Abi}.

(** The bytes of a block. *)
Definition block_bytes (e : ddt_elem_desc_t) : nat := e_blocklen e * basic_size (e_type e).

(** An entry without gaps between its blocks becomes one block. *)
Definition collapse (e : ddt_elem_desc_t) : ddt_elem_desc_t :=
  if (e_extent e =? Z.of_nat (block_bytes e))%Z then mk_elem (e_type e) 1 (e_blocklen e * e_count e) (e_extent e * Z.of_nat (e_count e)) (e_disp e) else e.

Definition CREATE_ELEM (e : ddt_elem_desc_t) : dt_elem_desc := Elem (collapse e).

Definition with_blocks (e : ddt_elem_desc_t) (count : nat) (extent : Z) : ddt_elem_desc_t := mk_elem (e_type e) count (e_blocklen e) extent (e_disp e).

(** The same block as bytes. *)
Definition as_bytes (e : ddt_elem_desc_t) : ddt_elem_desc_t := mk_elem OPAL_DATATYPE_UINT1 (e_count e) (block_bytes e) (e_extent e) (e_disp e).

(** ** Two entries of data *)

(** Entries with blocks of the same size, as one with more blocks. *)
Definition merge_blocks (last current : ddt_elem_desc_t) : option ddt_elem_desc_t :=
  if (e_extent last * Z.of_nat (e_count last) + e_disp last =? e_disp current)%Z && (e_count current =? 1) then
    Some (with_blocks last (u32 (e_count last + 1)) (e_extent last))
  else if (e_extent last * Z.of_nat (e_count last) + e_disp last =? e_disp current)%Z && (e_extent last =? e_extent current)%Z then
    Some (with_blocks last (u32 (e_count last + e_count current)) (e_extent last))
  else if e_count last =? 1 then
    if e_count current =? 1 then Some (with_blocks last (u32 (e_count last + 1)) (e_disp current - e_disp last))
    else if (e_disp last + e_extent current =? e_disp current)%Z then Some (with_blocks last (u32 (e_count current + e_count last)) (e_extent current))
    else None
  else None.

(** The last block of one and the first block of the other as one block: the entries
    before the joint, the new last one. *)
Definition join_blocks (last current : ddt_elem_desc_t) : list ddt_elem_desc_t * ddt_elem_desc_t :=
  let '(before, last) :=
    if e_count last =? 1 then ([], last)
    else ([with_blocks last (e_count last - 1) (e_extent last)],
          mk_elem (e_type last) 1 (e_blocklen last) (e_extent last) (e_disp last + (Z.of_nat (e_count last) - 1) * e_extent last)) in
  let joint :=
    if e_type last =? e_type current then mk_elem (e_type last) (e_count last) (e_blocklen last + e_blocklen current) (e_extent last + e_extent current) (e_disp last)
    else mk_elem OPAL_DATATYPE_UINT1 (e_count last) (block_bytes last + block_bytes current) (e_extent last + e_extent current) (e_disp last) in
  if e_count current =? 1 then (before, joint)
  else (before ++ [joint], mk_elem (e_type current) (e_count current - 1) (e_blocklen current) (e_extent current) (e_disp current + e_extent current)).

(** [fuse_loops]: the entries that are written, the new last one, and whether entries of
    different types were put together. *)
Definition fuse (last current : ddt_elem_desc_t) : list ddt_elem_desc_t * ddt_elem_desc_t * bool :=
  if e_count last =? 0 then ([], current, false)
  else
    let last := collapse last in
    let same := block_bytes last =? block_bytes current in
    let restricted := same && negb (e_type last =? e_type current) in
    match (if same then merge_blocks (if e_type last =? e_type current then last else as_bytes last) current else None) with
    | Some last => ([], last, restricted)
    | None =>
        if (e_disp last + (Z.of_nat (e_count last) - 1) * e_extent last + Z.of_nat (block_bytes last) =? e_disp current)%Z then
          let '(out, last') := join_blocks last current in
          (out, last', restricted || negb (e_type last =? e_type current))
        else ([last], current, restricted)
    end.

(** ** Contiguous loops *)

(** What an entry has in the place of the number of blocks. *)
Definition entry_count (x : dt_elem_desc) : nat := match x with Elem e => e_count e | Loop l => items l | EndLoop el => end_items el end.

(** The type, the length and whether types were mixed, from the entries after the first. *)
Fixpoint compress_body (debug : bool) (type blocklen size : nat) (body : list dt_elem_desc) : option (nat * nat * bool) :=
  match body with
  | [] => Some (type, blocklen, false)
  | x :: body =>
      safe negb debug || (entry_count x =? 1);
      match x with
      | Elem e => if e_type e =? type then compress_body debug type (blocklen + e_blocklen e) size body else Some (OPAL_DATATYPE_UINT1, size, true)
      | _ => Some (OPAL_DATATYPE_UINT1, size, true)
      end
  end.

(** A contiguous loop as an entry of data. *)
Definition compress (debug : bool) (description : list dt_elem_desc) (pos : nat) (l : ddt_loop_desc_t) : option (ddt_elem_desc_t * bool) :=
  index ← GET_FIRST_NON_LOOP (drop pos description);
  first ← data_at description (pos + index);
  match description !! (pos + items l) with
  | Some (EndLoop el) =>
      safe negb debug || (e_disp first =? first_elem_disp el)%Z;
      '(type, blocklen, restricted) ← compress_body debug (e_type first) (e_blocklen first) (end_size el) (drop (pos + index + 1) (take (pos + items l) description));
      Some (collapse (mk_elem type (loops l) blocklen (l_extent l) (first_elem_disp el)), restricted)
  | _ => None
  end.

(** ** The loop over the entries *)

(** The position, the stack with the indices of the bodies of the open loops ([None] at
    its bottom), what is written, the entry that is pending unless its count is [0], and
    whether types were mixed. *)
Record optimizer := mk_optimizer { o_pos : nat; o_stack : list (option nat); o_out : list dt_elem_desc; o_last : ddt_elem_desc_t; o_restricted : bool }.

Definition no_last (e : ddt_elem_desc_t) : ddt_elem_desc_t := mk_elem (e_type e) 0 (e_blocklen e) (e_extent e) (e_disp e).

(** What is written with the pending entry. *)
Definition flush (out : list dt_elem_desc) (last : ddt_elem_desc_t) : list dt_elem_desc := if e_count last =? 0 then out else out ++ [CREATE_ELEM last].

(** An end of loop; the number of entries goes into the start of the loop.  [inr] at the
    end of the description. *)
Definition optimize_end (el : ddt_endloop_desc_t) (s : optimizer) : option (optimizer + optimizer) :=
  let out := flush (o_out s) (o_last s) in
  match o_stack s with
  | [] => None
  | None :: stack =>
      Some (inr (mk_optimizer (S (o_pos s)) stack (out ++ [EndLoop (mk_endloop (length out + 2) (end_size el) (first_elem_disp el))]) (no_last (o_last s)) (o_restricted s)))
  | Some index :: stack =>
      let items := length out - index + 1 in
      match out !! (index - 1) with
      | Some (Loop l) =>
          let out := <[index - 1 := Loop (mk_loop items (loops l) (l_extent l) (l_contiguous l))]> out in
          Some (inl (mk_optimizer (S (o_pos s)) stack (out ++ [EndLoop (mk_endloop items (end_size el) (first_elem_disp el))]) (no_last (o_last s)) (o_restricted s)))
      | _ => None
      end
  end.

(** A loop: contiguous, short, or any other. *)
Definition optimize_start (debug : bool) (description : list dt_elem_desc) (max_depth : nat) (l : ddt_loop_desc_t) (s : optimizer) : option optimizer :=
  let pos := o_pos s in
  if l_contiguous l then
    '(current, restricted) ← compress debug description pos l;
    let '(out, last, restricted') := fuse (o_last s) current in
    Some (mk_optimizer (pos + items l + 1) (o_stack s) (o_out s ++ (CREATE_ELEM <$> out)) last (o_restricted s || restricted || restricted'))
  else
    let out := flush (o_out s) (o_last s) in
    if (items l <=? 3) && (loops l <=? 2) then
      index ← GET_FIRST_NON_LOOP (drop pos description);
      body ← mapM (λ j, data_at description (pos + index + j)) (seq 0 (items l - 1));
      let unrolled := flat_map (λ i, (λ e, CREATE_ELEM (shift_elem (Z.of_nat i * l_extent l) e)) <$> body) (seq 0 (loops l)) in
      Some (mk_optimizer (pos + items l + 1) (o_stack s) (out ++ unrolled) (no_last (o_last s)) (o_restricted s))
    else
      let out := out ++ [Loop (mk_loop (items l) (loops l) (l_extent l) (l_contiguous l))] in
      safe length (o_stack s) <? max_depth;
      Some (mk_optimizer (S pos) (Some (length out) :: o_stack s) out (no_last (o_last s)) (o_restricted s)).

Definition optimize_step (debug : bool) (description : list dt_elem_desc) (max_depth max_length : nat) (s : optimizer) : option (optimizer + optimizer) :=
  s ← match description !! o_pos s with
      | None => None
      | Some (EndLoop el) => optimize_end el s
      | Some (Loop l) => s ← optimize_start debug description max_depth l s; Some (inl s)
      | Some (Elem e) =>
          let '(out, last, restricted) := fuse (o_last s) e in
          Some (inl (mk_optimizer (S (o_pos s)) (o_stack s) (o_out s ++ (CREATE_ELEM <$> out)) last (o_restricted s || restricted)))
      end;
  safe length (o_out (match s with inl s => s | inr s => s end)) <=? max_length;
  Some s.

(** Every round goes forward in the description. *)
Fixpoint optimize_loop (debug : bool) (description : list dt_elem_desc) (max_depth max_length : nat) (fuel : nat) (s : optimizer) : option optimizer :=
  match fuel with
  | O => None
  | S fuel =>
      r ← optimize_step debug description max_depth max_length s;
      match r with inl s => optimize_loop debug description max_depth max_length fuel s | inr s => Some s end
  end.

(** From the description with the end of loop that closes it: the entries of the new one,
    the last one is an end of loop, and whether types were mixed. *)
Definition opal_datatype_optimize_short (debug : bool) (pData : opal_datatype_t) (description : list dt_elem_desc) : option (list dt_elem_desc * bool) :=
  let max_length := 2 * length (desc pData) + 1 in
  s ← optimize_loop debug description (d_loops pData + 2) max_length (length description) (mk_optimizer 0 [None] [] (mk_elem 0 0 0 0 0) false);
  Some (o_out s, o_restricted s).

Definition opal_datatype_commit (debug : bool) (pData : opal_datatype_t) : option opal_datatype_t :=
  if flag (d_flags pData) OPAL_DATATYPE_FLAG_COMMITTED then Some pData
  else
    let flags := Z.lor (d_flags pData) OPAL_DATATYPE_FLAG_COMMITTED in
    let used := length (desc pData) in
    safe used <? desc_length pData;
    first_elem_disp ←
      (if d_size pData =? 0 then Some 0%Z
       else index ← GET_FIRST_NON_LOOP (desc pData); e ← data_at (desc pData) index; Some (e_disp e));
    let with_opt flags opt :=
      mk_datatype flags (d_id pData) (bdt_used pData) (d_size pData) (true_lb pData) (true_ub pData) (d_lb pData) (d_ub pData) (nbElems pData) (d_align pData) (d_loops pData)
        (desc_length pData) (desc pData) opt in
    if used =? 0 then Some (with_opt flags [])
    else
      '(opt, restricted) ← opal_datatype_optimize_short debug pData (desc pData ++ [EndLoop (mk_endloop used (d_size pData) first_elem_disp)]);
      let opt_used := length opt - 1 in
      let opt := if opt_used =? 0 then opt else take opt_used opt ++ [EndLoop (mk_endloop opt_used (d_size pData) first_elem_disp)] in
      Some (with_opt (if restricted : bool then Z.lor flags OPAL_DATATYPE_OPTIMIZED_RESTRICTED else flags) opt).

End optimize.
End DtOptimize.
