(* ===== verification/DtTypes.v ===== *)
(** * The constructors of MPI datatypes ([ompi/datatype/ompi_datatype_create*.c])

    Each constructor makes an empty datatype with room for the entries it expects and
    adds the old datatype to it, as often and with as large blocks as it can.  The codes
    that [opal_datatype_add] returns are not looked at.  Arrays of lengths and
    displacements are lists; the types of a structure are handles, because they are
    compared as pointers. *)

From stdpp Require Import base numbers list.
From S2P Require Import Prelude DtDesc DtBuild.

Module DtTypes.
Import DtDesc DtBuild.
Local Open Scope c_scope.
Local Open Scope nat_scope.

Definition OMPI_DATATYPE_FLAG_PREDEFINED : Z := 0x0200.

Definition ompi_mpi_datatype_null : opal_datatype_t :=
  let d := opal_datatype_empty in
  mk_datatype (Z.lor (d_flags d) OMPI_DATATYPE_FLAG_PREDEFINED) (d_id d) (bdt_used d) (d_size d) (true_lb d) (true_ub d) (d_lb d) (d_ub d) (nbElems d) (d_align d) (d_loops d)
    (desc_length d) (desc d) (opt_desc d).

Definition ompi_datatype_duplicate (oldType : opal_datatype_t) : option opal_datatype_t :=
  d ← opal_datatype_clone oldType (opal_datatype_create (Some (length (desc oldType) + 2)));
  Some (mk_datatype (Z.ldiff (d_flags d) OMPI_DATATYPE_FLAG_PREDEFINED) (d_id d) (bdt_used d) (d_size d) (true_lb d) (true_ub d) (d_lb d) (d_ub d) (nbElems d) (d_align d) (d_loops d)
          (desc_length d) (desc d) (opt_desc d)).

Definition ompi_datatype_create_resized (oldType : opal_datatype_t) (lb extent : Z) : option opal_datatype_t :=
  d ← ompi_datatype_duplicate oldType;
  Some (opal_datatype_resize d lb extent).

(** [ompi_datatype_add], without the code that is returned. *)
Definition ompi_datatype_add (pdtBase pdtAdd : opal_datatype_t) (count : nat) (disp extent : Z) : option opal_datatype_t :=
  '(_, d) ← opal_datatype_add pdtBase pdtAdd count disp extent;
  Some d.

Definition ompi_datatype_create_contiguous (count : nat) (oldType : opal_datatype_t) : option opal_datatype_t :=
  if (count =? 0) || (d_size oldType =? 0) then ompi_datatype_duplicate ompi_mpi_datatype_null
  else ompi_datatype_add (opal_datatype_create (Some (length (desc oldType) + 2))) oldType count 0 (d_extent oldType).

(** ** Vectors *)

(** Blocks of [bLength] elements, [stride] elements apart. *)
Definition ompi_datatype_create_vector (count bLength : nat) (stride : Z) (oldType : opal_datatype_t) : option opal_datatype_t :=
  let extent := d_extent oldType in
  if (count =? 0) || (bLength =? 0) then ompi_datatype_duplicate ompi_mpi_datatype_null
  else
    let pData := opal_datatype_create (Some (length (desc oldType) + 2)) in
    if (Z.of_nat bLength =? stride)%Z || (count <=? 1) then ompi_datatype_add pData oldType (u64 (count * bLength)) 0 extent
    else if bLength =? 1 then ompi_datatype_add pData oldType count 0 (extent * stride)
    else
      pTempData ← ompi_datatype_add pData oldType bLength 0 extent;
      ompi_datatype_add (opal_datatype_create (Some (length (desc oldType) + 2 + 2))) pTempData count 0 (extent * stride).

(** The stride in bytes.  The product of the number of blocks and their length is an
    [int], undefined if it overflows. *)
Definition ompi_datatype_create_hvector (count bLength : nat) (stride : Z) (oldType : opal_datatype_t) : option opal_datatype_t :=
  let extent := d_extent oldType in
  if (count =? 0) || (bLength =? 0) then ompi_datatype_duplicate ompi_mpi_datatype_null
  else
    let pTempData := opal_datatype_create (Some (length (desc oldType) + 2)) in
    if (extent * Z.of_nat bLength =? stride)%Z || (count <=? 1) then
      safe (Z.of_nat (count * bLength) <? 2 ^ 31)%Z;
      ompi_datatype_add pTempData oldType (count * bLength) 0 extent
    else if bLength =? 1 then ompi_datatype_add pTempData oldType count 0 stride
    else
      pTempData ← ompi_datatype_add pTempData oldType bLength 0 extent;
      ompi_datatype_add (opal_datatype_create (Some (length (desc oldType) + 2 + 2))) pTempData count 0 stride.

(** ** Blocks at displacements *)

(** Past the first blocks without elements. *)
Fixpoint first_block (blocks : list (nat * Z)) : list (nat * Z) :=
  match blocks with
  | (0, _) :: blocks => first_block blocks
  | _ => blocks
  end.

(** The loop over the blocks: those that follow each other are added as one.  An element
    is [unit] of the displacements, a displacement is [scale] bytes. *)
Fixpoint indexed_loop (oldType : opal_datatype_t) (extent unit scale : Z) (pdt : opal_datatype_t) (dLength : nat) (disp endat : Z) (blocks : list (nat * Z)) : option opal_datatype_t :=
  match blocks with
  | [] => ompi_datatype_add pdt oldType dLength (disp * scale) extent
  | (0, _) :: blocks => indexed_loop oldType extent unit scale pdt dLength disp endat blocks
  | (n, d) :: blocks =>
      if (endat =? d)%Z then indexed_loop oldType extent unit scale pdt (dLength + n) disp (endat + Z.of_nat n * unit) blocks
      else
        pdt ← ompi_datatype_add pdt oldType dLength (disp * scale) extent;
        indexed_loop oldType extent unit scale pdt n d (d + Z.of_nat n * unit) blocks
  end.

Definition indexed_blocks (oldType : opal_datatype_t) (unit scale : Z) (blocks : list (nat * Z)) : option opal_datatype_t :=
  match blocks with
  | [] => None
  | (n, d) :: rest =>
      indexed_loop oldType (d_extent oldType) unit scale (opal_datatype_create (Some (length blocks * (2 + length (desc oldType))))) n d (d + Z.of_nat n * unit) rest
  end.

Definition ompi_datatype_create_indexed (blocks : list (nat * Z)) (oldType : opal_datatype_t) : option opal_datatype_t :=
  match first_block blocks with
  | [] => ompi_datatype_duplicate ompi_mpi_datatype_null
  | blocks => if d_size oldType =? 0 then ompi_datatype_duplicate ompi_mpi_datatype_null else indexed_blocks oldType 1 (d_extent oldType) blocks
  end.

(** Displacements in bytes. *)
Definition ompi_datatype_create_hindexed (blocks : list (nat * Z)) (oldType : opal_datatype_t) : option opal_datatype_t :=
  match first_block blocks with
  | [] => ompi_datatype_duplicate ompi_mpi_datatype_null
  | blocks => if d_size oldType =? 0 then ompi_datatype_duplicate ompi_mpi_datatype_null else indexed_blocks oldType (d_extent oldType) 1 blocks
  end.

(** Blocks of the same length. *)
Definition ompi_datatype_create_indexed_block (bLength : nat) (pDisp : list Z) (oldType : opal_datatype_t) : option opal_datatype_t :=
  if (length pDisp =? 0) || (bLength =? 0) then ompi_datatype_duplicate ompi_mpi_datatype_null
  else indexed_blocks oldType 1 (d_extent oldType) (pair bLength <$> pDisp).

Definition ompi_datatype_create_hindexed_block (bLength : nat) (pDisp : list Z) (oldType : opal_datatype_t) : option opal_datatype_t :=
  if (length pDisp =? 0) || (bLength =? 0) then ompi_datatype_duplicate ompi_mpi_datatype_null
  else indexed_blocks oldType (d_extent oldType) 1 (pair bLength <$> pDisp).

(** ** Structures *)

Section structure.
(** The datatype behind a handle. *)
Context (deref : nat → opal_datatype_t).

(** A member: length, displacement in bytes, type. *)
Definition member : Type := nat * Z * nat.

(** Past the first members without elements. *)
Fixpoint first_member (members : list member) : list member :=
  match members with
  | (0, _, _) :: members => first_member members
  | _ => members
  end.

(** The number of entries that are expected. *)
Fixpoint struct_entries (lastBlock : nat) (lastDisp endto : Z) (lastType : nat) (members : list member) : nat :=
  let lastExtent := d_extent (deref lastType) in
  match members with
  | [] => length (desc (deref lastType)) + if lastBlock =? 1 then 0 else 2
  | (n, d, t) :: members =>
      if (t =? lastType) && (d =? endto)%Z then struct_entries (lastBlock + n) lastDisp (lastDisp + Z.of_nat (lastBlock + n) * lastExtent) lastType members
      else length (desc (deref lastType)) + (if 1 <? lastBlock then 2 else 0) + struct_entries n d (d + d_extent (deref t) * Z.of_nat n) t members
  end.

(** The same loop, now the members are added. *)
Fixpoint struct_loop (pdt : opal_datatype_t) (lastBlock : nat) (lastDisp endto : Z) (lastType : nat) (members : list member) : option opal_datatype_t :=
  let lastExtent := d_extent (deref lastType) in
  match members with
  | [] => ompi_datatype_add pdt (deref lastType) lastBlock lastDisp lastExtent
  | (n, d, t) :: members =>
      if (t =? lastType) && (d =? endto)%Z then struct_loop pdt (lastBlock + n) lastDisp (lastDisp + Z.of_nat (lastBlock + n) * lastExtent) lastType members
      else
        pdt ← ompi_datatype_add pdt (deref lastType) lastBlock lastDisp lastExtent;
        struct_loop pdt n d (d + d_extent (deref t) * Z.of_nat n) t members
  end.

Definition ompi_datatype_create_struct (members : list member) : option opal_datatype_t :=
  match first_member members with
  | [] => ompi_datatype_duplicate ompi_mpi_datatype_null
  | (n, d, t) :: rest =>
      let endto := (d + d_extent (deref t) * Z.of_nat n)%Z in
      struct_loop (opal_datatype_create (Some (struct_entries n d endto t rest))) n d endto t rest
  end.

End structure.

(** ** Subarrays *)

(** One dimension: the size of the array, that of the part, its start. *)
Record dimension := mk_dimension { dim_size : nat; dim_subsize : nat; dim_start : nat }.

(** The dimensions after the second one, from the one that varies fastest on: the
    datatype, the number of elements and the displacement. *)
Fixpoint subarray_loop (extent : Z) (last_type : opal_datatype_t) (size displ : Z) (dims : list dimension) : option (opal_datatype_t * Z * Z) :=
  match dims with
  | [] => Some (last_type, size, displ)
  | dim :: dims =>
      newtype ← ompi_datatype_create_hvector (dim_subsize dim) 1 (size * extent) last_type;
      subarray_loop extent newtype (size * Z.of_nat (dim_size dim)) (displ + size * Z.of_nat (dim_start dim)) dims
  end.

Inductive array_order := MPI_ORDER_C | MPI_ORDER_FORTRAN.

Definition ompi_datatype_create_subarray (dims : list dimension) (order : array_order) (oldtype : opal_datatype_t) : option opal_datatype_t :=
  let extent := d_extent oldtype in
  let dims := match order with MPI_ORDER_C => reverse dims | MPI_ORDER_FORTRAN => dims end in
  match dims with
  | [] => ompi_datatype_duplicate ompi_mpi_datatype_null
  | dim1 :: dims =>
      '(last_type, size, displ) ←
        match dims with
        | [] => last_type ← ompi_datatype_create_contiguous (dim_subsize dim1) oldtype; Some (last_type, Z.of_nat (dim_size dim1), Z.of_nat (dim_start dim1))
        | dim2 :: dims =>
            newtype ← ompi_datatype_create_vector (dim_subsize dim2) (dim_subsize dim1) (Z.of_nat (dim_size dim1)) oldtype;
            subarray_loop extent newtype (Z.of_nat (dim_size dim1) * Z.of_nat (dim_size dim2)) (Z.of_nat (dim_start dim1) + Z.of_nat (dim_start dim2) * Z.of_nat (dim_size dim1)) dims
        end;
      d ← ompi_datatype_add (opal_datatype_create (Some (length (desc last_type)))) last_type 1 (displ * extent) (size * extent);
      Some (opal_datatype_resize d 0 (size * extent))
  end.

End DtTypes.
