(* ===== verification/DtWalk.v ===== *)
(** * Walking through a datatype ([opal_generic_simple_pack_function],
    [opal_generic_simple_unpack_function])

    Packing and unpacking have the same loop over the entries of the description, with
    the stack of the convertor; they differ in the routines that copy.  The loop is
    modelled once, for any type of copying that implements [Copy].  It runs until the
    buffer of the call is used up ([complete_loop]) or the data is, so a call stops and
    resumes anywhere.  Pointers are addresses, [pBaseBuf] is the address of the user's
    data. *)

From stdpp Require Import base numbers list gmap.
From S2P Require Import Prelude DtDesc.

Module DtWalk.
Import DtDesc.
Local Open Scope c_scope.
Local Open Scope nat_scope.

(** The index is [None] for [-1], the loop over the number of elements of the call. *)
Record dt_stack_t := mk_stack { s_index : option nat; s_type : nat; s_count : nat; s_disp : Z }.

(** The variables of the loop; the head of the stack is [pStack]. *)
Record walk (IO : Type) := mk_walk { w_stack : list dt_stack_t; pos_desc : nat; count_desc : nat; conv_ptr : Z; w_io : IO }.
#[global] Arguments mk_walk {IO} _ _ _ _ _.
#[global] Arguments w_stack {IO} _.
#[global] Arguments pos_desc {IO} _.
#[global] Arguments count_desc {IO} _.
#[global] Arguments conv_ptr {IO} _.
#[global] Arguments w_io {IO} _.

(** The routines: what is done at the start of a buffer with an entry that is partly
    copied (the first result is whether to go on), entries of data, loops with
    contiguous bodies, what is left in the buffer at the end, and the space left.  They
    get and return the number of elements (or loops) that are left and the pointer. *)
Class Copy (IO : Type) := {
  iovec : Type;
  iov_len : iovec → nat;
  begin_iov : iovec → IO → IO;
  copy_partial : ddt_elem_desc_t → nat → Z → IO → option (bool * (nat * Z * IO));
  copy_data : ddt_elem_desc_t → nat → Z → IO → option (nat * Z * IO);
  copy_loop : ddt_loop_desc_t → ddt_endloop_desc_t → nat → Z → IO → option (nat * Z * IO);
  copy_rest : ddt_elem_desc_t → nat → Z → IO → option (nat * IO);
  io_space : IO → nat;
}.

(** [UPDATE_INTERNAL_COUNTERS]; the counter of an end of loop is not used. *)
Definition UPDATE_INTERNAL_COUNTERS (d : dt_elem_desc) : nat :=
  match d with Loop l => loops l | Elem e => e_total e | EndLoop _ => 0 end.

Section walk.
Context {IO : Type} `{Copy IO}.
Context (description : list dt_elem_desc) (extent : Z) (stack_size : nat) (pBaseBuf : Z).

Abbreviation result := (option (bool * walk IO)).

(** The next entry, with the pointer at the displacement on top of the stack. *)
Definition move_to (stack : list dt_stack_t) (pos : nat) (io : IO) : walk IO + result :=
  match stack, description !! pos with
  | top :: _, Some d => inl (mk_walk stack pos (UPDATE_INTERNAL_COUNTERS d) (pBaseBuf + s_disp top) io)
  | _, _ => inr None
  end.

(** [PUSH_STACK] of a loop, and on to its body. *)
Definition enter_loop (stack : list dt_stack_t) (pos count : nat) (local_disp : Z) (io : IO) : walk IO + result :=
  match stack with
  | [] => inr None
  | top :: _ =>
      if length stack <? stack_size then move_to (mk_stack (Some pos) OPAL_DATATYPE_LOOP count (s_disp top + local_disp) :: stack) (S pos) io
      else inr None
  end.

(** An end of loop: once more, or on behind it.  The bottom of the stack ends the walk. *)
Definition end_of_loop (w : walk IO) : walk IO + result :=
  match w_stack w with
  | [] => inr None
  | top :: rest =>
      match s_count top, rest with
      | O, _ => inr None
      | S O, [] => inr (Some (true, mk_walk [mk_stack (s_index top) (s_type top) 0 (s_disp top)] (pos_desc w) (count_desc w) (conv_ptr w) (w_io w)))
      | S O, _ => move_to rest (S (pos_desc w)) (w_io w)
      | S count, _ =>
          match s_index top with
          | None => move_to (mk_stack None (s_type top) count (s_disp top + extent) :: rest) 0 (w_io w)
          | Some i =>
              match description !! i with
              | Some (Loop l) => move_to (mk_stack (Some i) (s_type top) count (s_disp top + l_extent l) :: rest) (S i) (w_io w)
              | _ => inr None
              end
          end
      end
  end.

(** One round: [inr (Some (done, w))] is the jump to [complete_loop], [done] when the
    whole data is copied; [inr None] is undefined. *)
Definition walk_step (w : walk IO) : walk IO + result :=
  match description !! pos_desc w with
  | None => inr None
  | Some (Elem e) =>
      match copy_data e (count_desc w) (conv_ptr w) (w_io w) with
      | None => inr None
      | Some (O, _, io) => move_to (w_stack w) (S (pos_desc w)) io
      | Some (count, ptr, io) => inr (Some (false, mk_walk (w_stack w) (pos_desc w) count ptr io))
      end
  | Some (EndLoop _) => end_of_loop w
  | Some (Loop l) =>
      if l_contiguous l then
        match description !! (pos_desc w + items l) with
        | Some (EndLoop el) =>
            match copy_loop l el (count_desc w) (conv_ptr w) (w_io w) with
            | None => inr None
            | Some (O, _, io) => move_to (w_stack w) (pos_desc w + items l + 1) io
            | Some (count, ptr, io) => enter_loop (w_stack w) (pos_desc w) count (ptr - conv_ptr w) io
            end
        | _ => inr None
        end
      else enter_loop (w_stack w) (pos_desc w) (count_desc w) 0 (w_io w)
  end.

(** The [while (1)]; [None] also when it does not end. *)
Definition walk_loop (w : walk IO) : result :=
  match loop walk_step 64 w with inr r => r | inl _ => None end.

(** One buffer. *)
Definition walk_buffer (w : walk IO) : result :=
  '(done, w) ←
    match description !! pos_desc w with
    | None => None
    | Some (Elem e) =>
        '(go, (count, ptr, io)) ← copy_partial e (count_desc w) (conv_ptr w) (w_io w);
        let w := mk_walk (w_stack w) (pos_desc w) count ptr io in
        if negb go then Some (false, w)
        else if count =? 0 then match move_to (w_stack w) (S (pos_desc w)) io with inl w => walk_loop w | inr r => r end
        else walk_loop w
    | Some _ => walk_loop w
    end;
  match description !! pos_desc w with
  | Some (Elem e) =>
      '(count, io) ← copy_rest e (count_desc w) (conv_ptr w) (w_io w);
      Some (done, mk_walk (w_stack w) (pos_desc w) count (conv_ptr w) io)
  | _ => Some (done, w)
  end.

(** The loop over the buffers of a call: the number of bytes that were copied, the number
    of buffers that were used. *)
Fixpoint walk_iov (iov : list iovec) (w : walk IO) : option (walk IO * nat * nat) :=
  match iov with
  | [] => Some (w, 0, 0)
  | i :: iov =>
      '(done, w) ← walk_buffer (mk_walk (w_stack w) (pos_desc w) (count_desc w) (conv_ptr w) (begin_iov i (w_io w)));
      let n := iov_len i - io_space (w_io w) in
      if done : bool then Some (w, n, 1)
      else '(w, total, out_size) ← walk_iov iov w; Some (w, n + total, S out_size)
  end.

End walk.

(** ** The stack of a convertor *)

Section convertor.
Context {IO : Type} `{Copy IO}.

(** From the stack of the convertor and back: its top is where the last call stopped.
    The third result is whether the convertor is completed. *)
Definition generic_simple (description : list dt_elem_desc) (extent : Z) (stack_size : nat) (pBaseBuf : Z) (total_size : nat)
    (pStack : list dt_stack_t) (bConverted : nat) (iov : list iovec) (io : IO) : option (list dt_stack_t * nat * bool * nat * nat * IO) :=
  match pStack with
  | top :: stack =>
      pos ← s_index top;
      '(w, max_data, out_size) ← walk_iov description extent stack_size pBaseBuf iov (mk_walk stack pos (s_count top) (pBaseBuf + s_disp top) io);
      let bConverted := bConverted + max_data in
      if bConverted =? total_size then Some (w_stack w, bConverted, true, max_data, out_size, w_io w)
      else
        safe length (w_stack w) <? stack_size;
        let type := match description !! pos_desc w with Some (Elem e) => e_type e | Some (Loop _) => 0 | _ => 1 end in
        Some (mk_stack (Some (pos_desc w)) type (count_desc w) (conv_ptr w - pBaseBuf) :: w_stack w, bConverted, false, max_data, out_size, w_io w)
  | [] => None
  end.

(** [opal_convertor_create_stack_at_begining]. *)
Definition opal_convertor_create_stack_at_begining (description : list dt_elem_desc) (count : nat) : option (list dt_stack_t) :=
  match description with
  | Loop l :: _ => Some [mk_stack (Some 0) OPAL_DATATYPE_LOOP (loops l) 0; mk_stack None OPAL_DATATYPE_LOOP count 0]
  | Elem e :: _ => Some [mk_stack (Some 0) (e_type e) (e_total e) 0; mk_stack None OPAL_DATATYPE_LOOP count 0]
  | _ => None
  end.

End convertor.
End DtWalk.
