(* ===== verification/DtCopy.v ===== *)
(** * Copying entries ([opal/datatype/opal_datatype_pack.h], [opal_datatype_unpack.h],
    [opal_datatype_pack_unpack_predefined.h])

    The routines for entries of data and for contiguous loops are the same for packing
    and unpacking but for the direction.  They are modelled once, over [put], which
    copies a number of bytes between the user's memory and the buffer, and are used at
    both directions ([DtPack], [DtUnpack]).  [accelerator] is [CONVERTOR_ACCELERATOR],
    data on a device. *)

From stdpp Require Import base numbers list gmap.
From S2P Require Import Prelude DtDesc DtWalk.

Module DtCopy.
Import DtDesc DtWalk.
Local Open Scope c_scope.
Local Open Scope nat_scope.

(** [room] is the space or the data left in the buffer, [packed_at] the address where it
    goes on. *)
Class Bytes (IO : Type) := { put : Z → nat → IO → option IO; room : IO → nat; packed_at : IO → Z }.

Section copy.
Context `{Abi} {IO : Type} `{Bytes IO} (accelerator : bool).

(** The rest of a block that is partly copied.  The first result is whether the block is
    completed. *)
Definition partial_blocklen (e : ddt_elem_desc_t) (COUNT : nat) (mem : Z) (io : IO) : option (bool * (nat * Z * IO)) :=
  let size := basic_size (e_type e) in
  safe negb (e_blocklen e =? 0);
  let left_in_block := COUNT mod e_blocklen e in
  if left_in_block =? 0 then Some (true, (COUNT, mem, io))
  else
    let do_now := if room io <? size * left_in_block then room io / size else left_in_block in
    let do_now_bytes := size * do_now in
    io ← put (mem + e_disp e) do_now_bytes io;
    let mem := (mem + Z.of_nat do_now_bytes + (if (do_now =? left_in_block)%nat then e_extent e - Z.of_nat (e_blocklen e * size) else 0))%Z in
    Some (do_now =? left_in_block, (COUNT - do_now, mem, io)).

(** [n] blocks of [bytes] bytes, [step] bytes apart. *)
Fixpoint copy_blocks (n : nat) (bytes : nat) (step : Z) (a : Z) (io : IO) : option (Z * IO) :=
  match n with
  | O => Some (a, io)
  | S n => io ← put a bytes io; copy_blocks n bytes step (a + step) io
  end.

(** The distance of the blocks when elements are copied one by one: [stride] is a
    [size_t], and adding it to a pointer wraps. *)
Definition stride_bytes (e : ddt_elem_desc_t) : Z :=
  let size := Z.of_nat (basic_size (e_type e)) in swrap 64 (wrap 64 (e_extent e) / size * size).

(** The type, the alignments and the extent allow to copy element by element. *)
Definition predefined_copies (user packed : Z) (cando_count : nat) (e : ddt_elem_desc_t) : bool :=
  let align := Z.of_nat (basic_align (e_type e)) in
  negb (align =? 0)%Z && (user mod align =? 0)%Z && (packed mod align =? 0)%Z &&
  ((Z.rem (e_extent e) align =? 0)%Z || negb (e_blocklen e <? cando_count)).

(** [None] when an access is outside, [Some None] is [OPAL_ERROR]. *)
Definition predefined_element (user : Z) (cando_count : nat) (e : ddt_elem_desc_t) (io : IO) : option (option (Z * IO)) :=
  if predefined_copies user (packed_at io) cando_count e then
    let size := basic_size (e_type e) in
    '(a, io) ← copy_blocks (cando_count / e_blocklen e) (e_blocklen e * size) (stride_bytes e) user io;
    let residual := cando_count mod e_blocklen e * size in
    io ← put a residual io;
    Some (Some ((a + Z.of_nat residual)%Z, io))
  else Some None.

(** The same with [memcpy]. *)
Definition memcpy_element (e : ddt_elem_desc_t) (cando_count : nat) (a : Z) (io : IO) : option (Z * IO) :=
  let size := basic_size (e_type e) in
  if e_blocklen e =? 1 then copy_blocks cando_count size (e_extent e) a io
  else
    let n := if (1 <? e_count e) && (e_blocklen e <=? cando_count) then cando_count / e_blocklen e else 0 in
    '(a, io) ← copy_blocks n (size * e_blocklen e) (e_extent e) a io;
    let rest := cando_count - n * e_blocklen e in
    safe (rest <? e_blocklen e) || ((e_count e =? 1) && (rest <=? e_blocklen e));
    io ← put a (rest * size) io;
    Some ((a + Z.of_nat (rest * size))%Z, io).

Definition predefined_data (e : ddt_elem_desc_t) (COUNT : nat) (mem : Z) (io : IO) : option (nat * Z * IO) :=
  let size := basic_size (e_type e) in
  safe negb (e_blocklen e =? 0);
  safe COUNT mod e_blocklen e =? 0;
  safe COUNT <=? e_total e;
  let cando_count := if room io <? size * COUNT then room io / size else COUNT in
  let a := (mem + e_disp e)%Z in
  fast ← (if (e_blocklen e <? 9) && negb accelerator then predefined_element a cando_count e io else Some None);
  '(a, io) ← match fast with Some r => Some r | None => memcpy_element e cando_count a io end;
  Some (COUNT - cando_count, (a - e_disp e)%Z, io).

Definition contiguous_loop (l : ddt_loop_desc_t) (el : ddt_endloop_desc_t) (COUNT : nat) (mem : Z) (io : IO) : option (nat * Z * IO) :=
  let copy_loops := if room io <? COUNT * end_size el then room io / end_size el else COUNT in
  '(a, io) ← copy_blocks copy_loops (end_size el) (l_extent l) (mem + first_elem_disp el) io;
  Some (COUNT - copy_loops, (a - first_elem_disp el)%Z, io).

End copy.
End DtCopy.

(** ** Packing ([opal/datatype/opal_datatype_pack.h], [opal_datatype_pack.c])

    From the user's memory into the buffers of a call. *)

Module DtPack.
Import DtDesc DtWalk DtCopy.
Local Open Scope c_scope.
Local Open Scope nat_scope.

(** The user's memory; address, space and content of the current buffer; the content of
    the buffers before it, the last one first. *)
Record packing := mk_packing { pk_mem : memory; pk_base : Z; pk_space : nat; pk_out : list byte; pk_before : list (list byte) }.

Definition emit (bs : list byte) (io : packing) : packing :=
  mk_packing (pk_mem io) (pk_base io) (pk_space io - length bs) (pk_out io ++ bs) (pk_before io).

(** At the start of a call, and the content of its buffers at the end. *)
Definition no_buffer (m : memory) : packing := mk_packing m 0 0 [] [].
Definition buffers (io : packing) : list (list byte) := drop 1 (reverse (pk_out io :: pk_before io)).

#[export] Instance packing_bytes : Bytes packing := {|
  put a n io := bs ← load (pk_mem io) a n; Some (emit bs io);
  room := pk_space;
  packed_at io := (pk_base io + Z.of_nat (length (pk_out io)))%Z;
|}.

Section pack.
Context `{Abi} (accelerator : bool).

Definition opal_datatype_pack_predefined_element : Z → nat → ddt_elem_desc_t → packing → option (option (Z * packing)) := predefined_element.
Definition pack_predefined_data : ddt_elem_desc_t → nat → Z → packing → option (nat * Z * packing) := predefined_data accelerator.
Definition pack_contiguous_loop : ddt_loop_desc_t → ddt_endloop_desc_t → nat → Z → packing → option (nat * Z * packing) := contiguous_loop.

Definition pack_partial_blocklen (e : ddt_elem_desc_t) (COUNT : nat) (mem : Z) (io : packing) : option (bool * (nat * Z * packing)) :=
  safe COUNT <=? e_total e; partial_blocklen e COUNT mem io.

#[export] Instance packing_copy : Copy packing := {|
  iovec := Z * nat;
  iov_len i := i.2;
  begin_iov i io := mk_packing (pk_mem io) i.1 i.2 [] (pk_out io :: pk_before io);
  copy_partial e count ptr io := if e_total e =? count then Some (true, (count, ptr, io)) else pack_partial_blocklen e count ptr io;
  copy_data := pack_predefined_data;
  copy_loop := pack_contiguous_loop;
  copy_rest _ count _ io := Some (count, io);
  io_space := pk_space;
|}.

End pack.
End DtPack.

(** ** Unpacking ([opal/datatype/opal_datatype_unpack.h], [opal_datatype_unpack.c])

    From the buffers of a call into the user's memory.  A buffer may end inside of a basic
    element: its first bytes are then put in place and [partial_length] says how many
    there are. *)

Module DtUnpack.
Import DtDesc DtWalk DtCopy.
Local Open Scope c_scope.
Local Open Scope nat_scope.

(** The user's memory, the address and the content of the rest of the buffer. *)
Record unpacking := mk_unpacking { up_mem : memory; up_packed : Z; up_in : list byte; partial_length : nat }.

#[export] Instance unpacking_bytes : Bytes unpacking := {|
  put a n io :=
    safe n <=? length (up_in io);
    m ← store (up_mem io) a (take n (up_in io));
    Some (mk_unpacking m (up_packed io + Z.of_nat n) (drop n (up_in io)) (partial_length io));
  room io := length (up_in io);
  packed_at := up_packed;
|}.

Section unpack.
Context `{Abi} (accelerator : bool) (temporary_buffer : Z).

Definition opal_datatype_unpack_predefined_element : Z → nat → ddt_elem_desc_t → unpacking → option (option (Z * unpacking)) := predefined_element.
Definition unpack_predefined_data : ddt_elem_desc_t → nat → Z → unpacking → option (nat * Z * unpacking) := predefined_data accelerator.
Definition unpack_contiguous_loop : ddt_loop_desc_t → ddt_endloop_desc_t → nat → Z → unpacking → option (nat * Z * unpacking) := contiguous_loop.

Definition unpack_partial_blocklen (e : ddt_elem_desc_t) (COUNT : nat) (mem : Z) (io : unpacking) : option (bool * (nat * Z * unpacking)) :=
  safe COUNT <=? e_total e;
  if length (up_in io) <? basic_size (e_type e) then Some (false, (COUNT, mem, io)) else partial_blocklen e COUNT mem io.

(** ** Parts of a basic element *)

(** The first byte from [unused_byte] down that is not in the data. *)
Fixpoint find_unused_byte (fuel : nat) (unused_byte : byte) (partial_data : list byte) : option byte :=
  match fuel with
  | O => None
  | S f => if existsb (Z.eqb unused_byte) partial_data then find_unused_byte f (unused_byte - 1) partial_data else Some unused_byte
  end.

(** The size of [temporary] and [saved_data]. *)
Definition buffer_size : nat := 16.

(** The element is completed with a byte that does not occur in the data, unpacked as a
    whole, and where the byte shows up the old content is put back. *)
Definition opal_unpack_partial_predefined (e : ddt_elem_desc_t) (COUNT : nat) (mem : Z) (io : unpacking) : option (nat * Z * unpacking) :=
  let data_length := basic_size (e_type e) in
  let start_position := partial_length io in
  let length := (data_length - start_position) `min` length (up_in io) in
  let partial_data := take length (up_in io) in
  let user_data := (mem + e_disp e)%Z in
  unused_byte ← find_unused_byte (S length) 127 partial_data;
  safe (data_length <=? buffer_size) && (start_position <? data_length);
  let temporary := replicate start_position unused_byte ++ partial_data ++ replicate (data_length - start_position - length) unused_byte in
  saved_data ← load (up_mem io) user_data data_length;
  '(_, _, tmp) ← unpack_predefined_data (mk_elem (e_type e) 1 1 (Z.of_nat data_length) 0) 1 user_data (mk_unpacking (up_mem io) temporary_buffer temporary 0);
  unpacked ← load (up_mem tmp) user_data data_length;
  m ← store (up_mem tmp) user_data (zip_with (λ new old, if (unused_byte =? new)%Z then old else new) unpacked saved_data);
  let partial := (start_position + length) mod data_length in
  let io := mk_unpacking m (up_packed io + Z.of_nat length) (drop length (up_in io)) partial in
  if partial =? 0 then
    let COUNT := COUNT - 1 in
    let mem := (mem + Z.of_nat data_length)%Z in
    safe negb (e_blocklen e =? 0);
    let mem := if (COUNT mod e_blocklen e =? 0)%nat then (mem + (e_extent e - Z.of_nat (e_blocklen e * data_length)))%Z else mem in
    Some (COUNT, mem, io)
  else Some (COUNT, mem, io).

(** The start of a buffer. *)
Definition unpack_start (e : ddt_elem_desc_t) (count : nat) (ptr : Z) (io : unpacking) : option (bool * (nat * Z * unpacking)) :=
  let blocks count ptr io :=
    if e_total e =? count then Some (true, (count, ptr, io)) else unpack_partial_blocklen e count ptr io in
  if partial_length io =? 0 then blocks count ptr io
  else
    '(count, ptr, io) ← opal_unpack_partial_predefined e count ptr io;
    if count =? 0 then safe partial_length io =? 0; Some (true, (count, ptr, io))
    else if length (up_in io) =? 0 then Some (false, (count, ptr, io))
    else blocks count ptr io.

(** The end of a buffer. *)
Definition unpack_end (e : ddt_elem_desc_t) (count : nat) (ptr : Z) (io : unpacking) : option (nat * unpacking) :=
  if length (up_in io) =? 0 then Some (count, io)
  else
    safe length (up_in io) <? basic_size (e_type e);
    '(count, _, io) ← opal_unpack_partial_predefined e count ptr io;
    Some (count, io).

#[export] Instance unpacking_copy : Copy unpacking := {|
  iovec := Z * list byte;
  iov_len i := length i.2;
  begin_iov i io := mk_unpacking (up_mem io) i.1 i.2 (partial_length io);
  copy_partial := unpack_start;
  copy_data := unpack_predefined_data;
  copy_loop := unpack_contiguous_loop;
  copy_rest := unpack_end;
  io_space io := length (up_in io);
|}.

End unpack.
End DtUnpack.
