(* ===== verification/DtMap.v ===== *)
(** * What a description means: the type map

    A description is the flattening of a list of trees ([item]): entries of data and
    loops.  Its meaning is the list of the offsets of the bytes of the type, in the order
    in which they are packed. *)

From stdpp Require Import base numbers list gmap.
From S2P Require Import Prelude DtDesc.

Module DtMap.
Import DtDesc.
Local Open Scope nat_scope.

Inductive item := Data (e : ddt_elem_desc_t) | Rep (n : nat) (x : Z) (contiguous : bool) (body : list item).

(** Induction with a hypothesis for every item of a body. *)
Definition item_rect' (P : item → Prop) (HD : ∀ e, P (Data e)) (HR : ∀ n x c body, Forall P body → P (Rep n x c body)) : ∀ i, P i :=
  fix F i := match i with
  | Data e => HD e
  | Rep n x c body => HR n x c body ((fix G l : Forall P l := match l with [] => Forall_nil_2 P | i :: l => Forall_cons_2 P i l (F i) (G l) end) body)
  end.

Section map.
Context `{Abi}.

(** ** The type map *)

(** The address of basic element [m] of an entry, relative to [b]. *)
Definition basic_at (b : Z) (e : ddt_elem_desc_t) (m : nat) : Z :=
  (b + e_disp e + Z.of_nat (m / e_blocklen e) * e_extent e + Z.of_nat (m mod e_blocklen e * basic_size (e_type e)))%Z.

(** The bytes of [k] basic elements from element [m] on. *)
Definition elem_map (b : Z) (e : ddt_elem_desc_t) (m k : nat) : list Z :=
  flat_map (λ j, seqZ (basic_at b e j) (Z.of_nat (basic_size (e_type e)))) (seq m k).

Fixpoint item_map (b : Z) (i : item) : list Z :=
  match i with
  | Data e => elem_map b e 0 (e_total e)
  | Rep n x _ body => flat_map (λ j, flat_map (item_map (b + Z.of_nat j * x)) body) (seq 0 n)
  end.

Definition items_map (b : Z) (its : list item) : list Z := flat_map (item_map b) its.

(** [n] repetitions of a body from the [j]-th one on. *)
Definition loop_map (b x : Z) (j n : nat) (body : list item) : list Z := flat_map (λ j, items_map (b + Z.of_nat j * x) body) (seq j n).

(** ** The array *)

Fixpoint flatten_item (i : item) : list dt_elem_desc :=
  match i with
  | Data e => [Elem e]
  | Rep n x c body =>
      let code := flat_map flatten_item body in
      Loop (mk_loop (S (length code)) n x c) :: code ++
        [EndLoop (mk_endloop (S (length code)) (length (items_map 0 body)) (hd 0%Z (items_map 0 body)))]
  end.

Definition flatten (its : list item) : list dt_elem_desc := flat_map flatten_item its.

(** The description with the fake end of loop. *)
Definition describes (description : list dt_elem_desc) (its : list item) : Prop := ∃ el, description = flatten its ++ [EndLoop el].

(** ** Well-formed descriptions *)

(** Copying element by element keeps to the extent. *)
Definition stride_ok (e : ddt_elem_desc_t) : Prop :=
  e_count e = 1 ∨ 9 ≤ e_blocklen e ∨ basic_align (e_type e) = 0 ∨ (Z.of_nat (basic_size (e_type e)) | e_extent e)%Z ∧ (- 2 ^ 63 ≤ e_extent e < 2 ^ 63)%Z.

Record elem_ok (e : ddt_elem_desc_t) : Prop := {
  eo_count : 0 < e_count e;
  eo_blocklen : 0 < e_blocklen e;
  eo_size : 0 < basic_size (e_type e);
  eo_stride : stride_ok e;
}.

Definition contiguous_map (l : list Z) : Prop := l = seqZ (hd 0%Z l) (Z.of_nat (length l)).

Inductive item_ok : item → Prop :=
| data_ok e : elem_ok e → item_ok (Data e)
| rep_ok n x c body : 0 < n → Forall item_ok body → (c = true → contiguous_map (items_map 0 body)) → item_ok (Rep n x c body).

Fixpoint item_depth (i : item) : nat :=
  match i with Data _ => 0 | Rep _ _ _ body => S (foldr (λ i d, item_depth i `max` d) 0 body) end.
Definition depth (its : list item) : nat := foldr (λ i d, item_depth i `max` d) 0 its.

(** The number of rounds a walk can take. *)
Fixpoint item_work (i : item) : nat :=
  match i with Data _ => 1 | Rep n _ _ body => S (n * S (foldr (λ i w, item_work i + w) 0 body)) end.
Definition work (its : list item) : nat := foldr (λ i w, item_work i + w) 0 its.

(** ** Lemmas *)

Lemma elem_map_length b e m k : length (elem_map b e m k) = k * basic_size (e_type e).
Proof.
  unfold elem_map. revert m; induction k as [|k IH]; intros m; [done|]. cbn [seq flat_map]. rewrite length_app, length_seqZ, IH. lia.
Qed.

Lemma elem_map_add b e m k1 k2 : elem_map b e m (k1 + k2) = elem_map b e m k1 ++ elem_map b e (m + k1) k2.
Proof. unfold elem_map. by rewrite seq_app, flat_map_app. Qed.

Lemma loop_map_add b x j n1 n2 body : loop_map b x j (n1 + n2) body = loop_map b x j n1 body ++ loop_map b x (j + n1) n2 body.
Proof. unfold loop_map. by rewrite seq_app, flat_map_app. Qed.

Lemma items_map_cons b i its : items_map b (i :: its) = item_map b i ++ items_map b its.
Proof. done. Qed.

Lemma item_map_rep b n x c body : item_map b (Rep n x c body) = loop_map b x 0 n body.
Proof. done. Qed.

(** Shifting. *)
Lemma flat_map_fmap {A B C} (f : B → C) (g : A → list B) (l : list A) : f <$> flat_map g l = flat_map (λ x, f <$> g x) l.
Proof. induction l as [|x l IH]; [done|]. cbn [flat_map]. by rewrite fmap_app, IH. Qed.

Lemma flat_map_ext' {A B} (f g : A → list B) (l : list A) : (∀ x, x ∈ l → f x = g x) → flat_map f l = flat_map g l.
Proof.
  induction l as [|x l IH]; intros Hx; [done|]. cbn [flat_map]. rewrite (Hx x) by left. f_equal. apply IH. intros y Hy. apply Hx. by right.
Qed.

Lemma elem_map_shift b c e m k : elem_map (b + c) e m k = Z.add c <$> elem_map b e m k.
Proof.
  unfold elem_map. rewrite flat_map_fmap. apply flat_map_ext'. intros j _. rewrite fmap_add_seqZ. f_equal. unfold basic_at. lia.
Qed.

Lemma item_map_shift i : ∀ b c, item_map (b + c) i = Z.add c <$> item_map b i.
Proof.
  induction i as [e|n x ct body IH] using item_rect'; intros b c; cbn [item_map]; [apply elem_map_shift|].
  rewrite flat_map_fmap. apply flat_map_ext'. intros j _. rewrite flat_map_fmap. apply flat_map_ext'. intros i Hi.
  rewrite Forall_forall in IH. rewrite <-(IH i Hi). f_equal. lia.
Qed.

Lemma items_map_shift its b c : items_map (b + c) its = Z.add c <$> items_map b its.
Proof. unfold items_map. rewrite flat_map_fmap. apply flat_map_ext'. intros i _. apply item_map_shift. Qed.

Lemma items_map_base its b : items_map b its = Z.add b <$> items_map 0 its.
Proof. by rewrite <-items_map_shift. Qed.

Lemma items_map_length its b : length (items_map b its) = length (items_map 0 its).
Proof. by rewrite items_map_base, length_fmap. Qed.

Lemma loop_map_length b x j n body : length (loop_map b x j n body) = n * length (items_map 0 body).
Proof.
  unfold loop_map. revert j; induction n as [|n IH]; intros j; [done|]. cbn [seq flat_map]. rewrite length_app, IH, items_map_length. lia.
Qed.

Lemma loop_map_S b x j n body : loop_map b x j (S n) body = items_map (b + Z.of_nat j * x) body ++ loop_map b x (S j) n body.
Proof. done. Qed.

(** Going on from the base of the next repetition. *)
Lemma loop_map_next b x j n k body : loop_map (b + Z.of_nat k * x) x j n body = loop_map b x (j + k) n body.
Proof.
  unfold loop_map. revert j; induction n as [|n IH]; intros j; [done|]. cbn [seq flat_map]. f_equal; [f_equal; lia|apply (IH (S j))].
Qed.

Lemma work_cons i its : work (i :: its) = item_work i + work its.
Proof. done. Qed.

Lemma work_rep n x c body : item_work (Rep n x c body) = S (n * S (work body)).
Proof. done. Qed.

Lemma flatten_rep n x c body : flatten_item (Rep n x c body) =
  Loop (mk_loop (S (length (flatten body))) n x c) :: flatten body ++ [EndLoop (mk_endloop (S (length (flatten body))) (length (items_map 0 body)) (hd 0%Z (items_map 0 body)))].
Proof. done. Qed.

Lemma depth_rep n x c body : item_depth (Rep n x c body) = S (depth body).
Proof. done. Qed.

End map.
End DtMap.
