(* ===== verification/DtWalkSpec.v ===== *)
(** * Walks copy the bytes of the type map in order

    [CopyLaws] is what the walk needs of the routines that copy: each moves the next
    bytes of the type map.  From that, a call moves as many of the bytes that are left as
    its buffers take, wherever it starts, and stops in a state from which the next call
    goes on ([walk_iov_moves], [generic_simple_moves]). *)

From stdpp Require Import base numbers list gmap.
From S2P Require Import Prelude DtDesc DtWalk DtMap.

Module DtWalkSpec.
Import DtDesc DtWalk DtMap.
Local Open Scope nat_scope.

(** ** The laws of copying *)

(** [moved io l io']: from [io] to [io'], the bytes at the addresses [l] were moved.
    [pending] is the number of bytes of the current basic element that were moved before
    (only unpacking stops inside of one), [reach] are the addresses that can be accessed,
    [closed] is what holds of the space when a buffer is used up at an entry.  The rest of
    an entry has [count] elements to go. *)
Class CopyLaws (IO : Type) `{Abi} `{Copy IO} := {
  moved : IO → list Z → IO → Prop;
  pending : IO → nat;
  reach : IO → Z → Prop;
  closed : ddt_elem_desc_t → IO → Prop;
  elem_fine : ddt_elem_desc_t → Prop;
  moved_nil io : moved io [] io;
  moved_app io l io1 l' io2 : moved io l io1 → moved io1 l' io2 → moved io (l ++ l') io2;
  moved_space io l io' : moved io l io' → io_space io = length l + io_space io';
  moved_reach io l io' a : moved io l io' → reach io' a ↔ reach io a;
  begin_space i io : io_space (begin_iov i io) = iov_len i;
  begin_pending i io : pending (begin_iov i io) = pending io;
  begin_reach i io a : reach (begin_iov i io) a ↔ reach io a;
  copy_data_moves e b count io : elem_ok e → elem_fine e → count ≤ e_total e → count mod e_blocklen e = 0 → pending io = 0 →
    Forall (reach io) (elem_map b e (e_total e - count) count) →
    ∃ k ptr io', k = count `min` (io_space io / basic_size (e_type e)) ∧
      copy_data e count (basic_at b e (e_total e - count) - e_disp e)%Z io = Some (count - k, ptr, io') ∧
      (k < count → ptr = (basic_at b e (e_total e - count + k) - e_disp e)%Z) ∧
      moved io (elem_map b e (e_total e - count) k) io' ∧ pending io' = 0;
  copy_loop_moves n x c b body i count io : 
    let el := mk_endloop i (length (items_map 0 body)) (hd 0%Z (items_map 0 body)) in
    contiguous_map (items_map 0 body) → pending io = 0 → Forall (reach io) (loop_map b x 0 count body) →
    ∃ k io', k ≤ count ∧ copy_loop (mk_loop i n x c) el count b io = Some (count - k, (b + Z.of_nat k * x)%Z, io') ∧
      moved io (loop_map b x 0 k body) io' ∧ pending io' = 0;
  copy_partial_moves e b count io : elem_ok e → elem_fine e → 0 < count ≤ e_total e → pending io < basic_size (e_type e) →
    let rest count io := drop (pending io) (elem_map b e (e_total e - count) count) in
    Forall (reach io) (elem_map b e (e_total e - count) count) →
    ∃ go count' ptr io' k, copy_partial e count (basic_at b e (e_total e - count) - e_disp e)%Z io = Some (go, (count', ptr, io')) ∧
      count' ≤ count ∧ moved io (take k (rest count io)) io' ∧ k ≤ length (rest count io) ∧ drop k (rest count io) = rest count' io' ∧
      (0 < count' → ptr = (basic_at b e (e_total e - count') - e_disp e)%Z) ∧ pending io' < basic_size (e_type e) ∧
      (if go : bool then pending io' = 0 ∧ count' mod e_blocklen e = 0 else 0 < count' ∧ pending io' + io_space io' < basic_size (e_type e));
  copy_rest_moves e b count io : elem_ok e → elem_fine e → 0 < count ≤ e_total e → pending io + io_space io < basic_size (e_type e) →
    let rest io := drop (pending io) (elem_map b e (e_total e - count) count) in
    Forall (reach io) (elem_map b e (e_total e - count) count) →
    ∃ io' k, copy_rest e count (basic_at b e (e_total e - count) - e_disp e)%Z io = Some (count, io') ∧
      moved io (take k (rest io)) io' ∧ k < length (rest io) ∧ drop k (rest io) = rest io' ∧ pending io' < basic_size (e_type e) ∧ closed e io';
}.

(** ** Lists *)

Lemma drop_at {A} (l : list A) p x r : drop p l = x :: r → l !! p = Some x ∧ drop (S p) l = r.
Proof.
  intros E. split.
  - assert (Hl : drop p l !! 0 = Some x) by (by rewrite E). by rewrite lookup_drop, Nat.add_0_r in Hl.
  - replace (S p) with (p + 1) by lia. by rewrite <-drop_drop, E.
Qed.

Lemma drop_past {A} (l : list A) p a r : drop p l = a ++ r → drop (p + length a) l = r.
Proof. intros E. by rewrite <-drop_drop, E, drop_app_length. Qed.

(** ** States of a walk *)

Section walk.
Context {IO : Type} `{CopyLaws IO}.
Context (description : list dt_elem_desc) (its0 : list item) (extent : Z) (stack_size : nat) (pBaseBuf : Z).

(** The displacement on top of the stack, as an address. *)
Definition base (stack : list dt_stack_t) : Z := match stack with top :: _ => (pBaseBuf + s_disp top)%Z | [] => 0%Z end.

(** At the end of loop [q] with this stack, the bytes [R] are left, in at most [W]
    rounds. *)
Inductive cont : list dt_stack_t → nat → list Z → nat → Prop :=
| cont_bottom type count disp : 0 < count →
    cont [mk_stack None type count disp] (length (flatten its0)) (loop_map (pBaseBuf + disp) extent 1 (count - 1) its0) (S ((count - 1) * S (work its0)))
| cont_loop i type count disp n x c body its el tail stack R W : 0 < count →
    drop i description = Loop (mk_loop (S (length (flatten body))) n x c) :: flatten body ++ EndLoop el :: flatten its ++ tail →
    Forall item_ok body → length (mk_stack (Some i) type count disp :: stack) + depth body < stack_size →
    Forall item_ok its → length stack + depth its < stack_size → stack ≠ [] →
    cont stack (S (i + S (length (flatten body))) + length (flatten its)) R W →
    cont (mk_stack (Some i) type count disp :: stack) (i + S (length (flatten body)))
      (loop_map (pBaseBuf + disp) x 1 (count - 1) body ++ items_map (base stack) its ++ R)
      (S ((count - 1) * S (work body) + work its + W)).

(** Before the items [its], with what comes after them. *)
Record place (stack : list dt_stack_t) (pos : nat) (its : list item) (R : list Z) (W : nat) : Prop := {
  pl_code : ∃ el tail, drop pos description = flatten its ++ EndLoop el :: tail;
  pl_ok : Forall item_ok its;
  pl_depth : length stack + depth its < stack_size;
  pl_stack : stack ≠ [];
  pl_cont : cont stack (pos + length (flatten its)) R W;
}.

(** The bytes that are left, those of the current basic element included. *)
Definition left_at (w : walk IO) (its : list item) (R : list Z) : list Z :=
  match its with
  | Data e :: its => elem_map (base (w_stack w)) e (e_total e - count_desc w) (count_desc w) ++ items_map (base (w_stack w)) its ++ R
  | _ => items_map (base (w_stack w)) its ++ R
  end.

Definition counters_ok (w : walk IO) (its : list item) : Prop :=
  match its with
  | [] => True
  | Data e :: _ => 0 < count_desc w ≤ e_total e ∧ conv_ptr w = (basic_at (base (w_stack w)) e (e_total e - count_desc w) - e_disp e)%Z
  | Rep n _ _ _ :: _ => count_desc w = n ∧ conv_ptr w = base (w_stack w)
  end.

Definition walk_ok (w : walk IO) (R : list Z) (W : nat) : Prop :=
  ∃ its R' W', place (w_stack w) (pos_desc w) its R' W' ∧ counters_ok w its ∧ R = left_at w its R' ∧ W = work its + W'.

Definition aligned (w : walk IO) : Prop := ∀ e, description !! pos_desc w = Some (Elem e) → count_desc w mod e_blocklen e = 0.

Context (Hdesc : describes description its0) (Hfine : ∀ e, Elem e ∈ description → elem_fine e).
Context (Hits0 : Forall item_ok its0) (Hdepth0 : 1 + depth its0 < stack_size).

Lemma place_entry stack pos i its R W : place stack pos (i :: its) R W → ∃ d code el tail,
  flatten_item i = d :: code ∧ description !! pos = Some d ∧ drop (S pos) description = code ++ flatten its ++ EndLoop el :: tail.
Proof.
  intros [(el & tail & Hcode) _ _ _ _]. change (flatten (i :: its)) with (flatten_item i ++ flatten its) in Hcode.
  destruct i as [e|n x c body]; [|rewrite flatten_rep in Hcode]; rewrite <-?app_assoc in Hcode; cbn [app] in Hcode; apply drop_at in Hcode as [Hl Hd].
  - exists (Elem e), [], el, tail. done.
  - rewrite <-!app_assoc in Hd. cbn [app] in Hd. rewrite flatten_rep. eexists _, _, el, tail. split_and!; [done|done|]. by rewrite <-!app_assoc.
Qed.

(** Past the first item. *)
Lemma place_tail stack pos i its R W : place stack pos (i :: its) R W → place stack (pos + length (flatten_item i)) its R W.
Proof.
  intros [(el & tail & Hcode) Hok Hd Hs Hc]. change (flatten (i :: its)) with (flatten_item i ++ flatten its) in *. rewrite <-app_assoc in Hcode.
  split; [exists el, tail; by apply drop_past|by inversion Hok|cbn [depth foldr] in Hd; fold (depth its) in Hd; lia|done|].
  by rewrite length_app, Nat.add_assoc in Hc.
Qed.

(** A walk at the start of the items [its]. *)
Definition starts (w : walk IO) (its : list item) : Prop := counters_ok w its ∧ ∀ R, left_at w its R = items_map (base (w_stack w)) its ++ R.

Lemma move_to_at stack pos its R W io : place stack pos its R W → ∃ w, move_to description pBaseBuf stack pos io = inl w ∧
  w_io w = io ∧ w_stack w = stack ∧ pos_desc w = pos ∧ starts w its ∧ aligned w.
Proof.
  intros Hp. pose proof (pl_stack _ _ _ _ _ Hp) as Hs. destruct stack as [|top stack]; [done|]. unfold move_to. destruct its as [|i its].
  - destruct (pl_code _ _ _ _ _ Hp) as (el & tail & [Hl _]%drop_at). rewrite Hl. eexists. split_and!; try done. intros e. cbn [pos_desc]. by rewrite Hl.
  - destruct (place_entry _ _ _ _ _ _ Hp) as (d & code & el & tail & Hi & Hl & _). rewrite Hl. eexists. split_and!; [done|done|done|done| |].
    + destruct i as [e|n x c body]; simplify_eq/=; split; try done; cbn [counters_ok left_at count_desc conv_ptr w_stack].
      * pose proof (pl_ok _ _ _ _ _ Hp) as Hok. inversion Hok as [|? ? [e' He|] _]; subst. destruct He. unfold e_total in *. split; [split; nia|].
        rewrite Nat.sub_diag. unfold basic_at. rewrite Nat.Div0.div_0_l, Nat.Div0.mod_0_l. cbn [base]. lia.
      * intros R'. by rewrite Nat.sub_diag, app_assoc.
    + intros e. cbn [pos_desc count_desc]. rewrite Hl. intros [= ->]. destruct i; simplify_eq/=. apply Nat.Div0.mod_mul.
Qed.

Lemma move_to_ok stack pos its R W io : place stack pos its R W → ∃ w, move_to description pBaseBuf stack pos io = inl w ∧
  w_io w = io ∧ walk_ok w (items_map (base stack) its ++ R) (work its + W) ∧ aligned w.
Proof.
  intros Hp. destruct (move_to_at stack pos its R W io Hp) as (w & Hw & Hio & <- & <- & [Hc Hl] & Ha). exists w. split_and!; [done|done| |done].
  exists its, R, W. split_and!; [done|done|by rewrite Hl|done].
Qed.

Lemma cont_code stack q R W : cont stack q R W → ∃ el tail, drop q description = EndLoop el :: tail.
Proof.
  destruct Hdesc as [el Hd]. destruct 1 as [|i type count disp n x c body its el' tail stack R W _ Hcode]; [exists el, []; by rewrite Hd, drop_app_length|].
  apply drop_at in Hcode as [_ Hcode%drop_past]. exists el', (flatten its ++ tail). by rewrite Nat.add_succ_r.
Qed.

Lemma cont_place stack pos its R W tail : drop pos description = flatten its ++ tail → Forall item_ok its → length stack + depth its < stack_size → stack ≠ [] →
  cont stack (pos + length (flatten its)) R W → place stack pos its R W.
Proof.
  intros Hcode Hok Hd Hs Hc. split; try done. destruct (cont_code _ _ _ _ Hc) as (el & tail' & Ht). apply drop_past in Hcode as Hcode'.
  exists el, tail'. by rewrite Hcode, <-Hcode', Ht.
Qed.

(** The end of a loop moves nothing. *)
Lemma end_of_loop_ok stack pos count ptr io R W : cont stack pos R W →
  match end_of_loop description extent pBaseBuf (mk_walk stack pos count ptr io) with
  | inl w' => w_io w' = io ∧ (∃ W', walk_ok w' R W' ∧ W' < W) ∧ aligned w'
  | inr (Some (true, w')) => R = [] ∧ w_io w' = io ∧ pos_desc w' = pos
  | inr _ => False
  end.
Proof.
  unfold end_of_loop. cbn [w_stack pos_desc w_io count_desc conv_ptr].
  inversion 1 as [type c disp Hc|i type c disp n x ct body its el tail stack' R' W' Hc Hcode Hbody Hdb Hits Hdi Hs Hcont]; subst; cbn [s_count s_index s_type s_disp].
  - destruct c as [|[|c]]; [lia|done|]. destruct Hdesc as [el Hd].
    edestruct (move_to_ok [mk_stack None type (S c) (disp + extent)] 0 its0) as (w' & -> & Hio & Hok & Ha).
    { apply (cont_place _ _ _ _ _ [EndLoop el]); [by rewrite drop_0|done|cbn [length]; lia|done|]. apply cont_bottom. lia. }
    split_and!; [done| |done]. eexists. split; [|]. 
    + replace (S (S c) - 1) with (S c) by lia. rewrite loop_map_S. cbn [base s_disp] in Hok.
      rewrite Nat.sub_1_r in Hok. cbn [Nat.pred] in Hok. replace (pBaseBuf + (disp + extent))%Z with (pBaseBuf + disp + Z.of_nat 1 * extent)%Z in Hok by lia.
      rewrite loop_map_next in Hok. exact Hok.
    + cbn. lia.
  - destruct (drop_at _ _ _ _ Hcode) as [Hl Hd]. assert (Hd' := Hd). apply drop_past in Hd. destruct c as [|[|c]]; [lia| |].
    + destruct stack' as [|top stack']; [done|]. apply drop_at in Hd as [_ Hd]. rewrite Nat.add_succ_comm in Hd.
      edestruct (move_to_ok (top :: stack') (S (i + S (length (flatten body)))) its R' W') as (w' & -> & Hio & Hok & Ha); [by apply (cont_place _ _ _ _ _ tail)|].
      split_and!; [done| |done]. eexists. split; [exact Hok|]. lia.
    + rewrite Hl. edestruct (move_to_ok (mk_stack (Some i) type (S c) (disp + x) :: stack') (S i) body) as (w' & Hw & Hio & Hok & Ha).
      { apply (cont_place _ _ _ _ _ _ Hd'); [done|done|done|]. rewrite Nat.add_succ_comm. apply (cont_loop i type (S c) _ n x ct body its el tail); try done; lia. }
      cbn [l_extent]. rewrite Hw. split_and!; [done| |done]. eexists. split.
      * replace (S (S c) - 1) with (S c) by lia. rewrite loop_map_S, <-!app_assoc. cbn [base s_disp] in Hok.
        rewrite Nat.sub_1_r in Hok. cbn [Nat.pred] in Hok. replace (pBaseBuf + (disp + x))%Z with (pBaseBuf + disp + Z.of_nat 1 * x)%Z in Hok by lia.
        rewrite loop_map_next in Hok. exact Hok.
      * cbn. lia.
Qed.

(** Into a loop of which [k] rounds are done. *)
Lemma enter_loop_at stack pos n x c body its R W k io : place stack pos (Rep n x c body :: its) R W → k < n →
  ∃ w R' W', enter_loop description stack_size pBaseBuf stack pos (n - k) (Z.of_nat k * x) io = inl w ∧ w_io w = io ∧ place (w_stack w) (pos_desc w) body R' W' ∧ starts w body ∧
    items_map (base (w_stack w)) body ++ R' = loop_map (base stack) x k (n - k) body ++ items_map (base stack) its ++ R ∧ work body + W' < work (Rep n x c body :: its) + W ∧ aligned w.
Proof.
  intros Hp Hk. destruct (place_entry _ _ _ _ _ _ Hp) as (d & code & el & tail & Hi & Hl & Hd). rewrite flatten_rep in Hi. simplify_eq.
  pose proof Hp as [_ Hok Hdep Hs Hc]. destruct stack as [|top stack]; [done|]. unfold enter_loop. change (depth (Rep n x c body :: its)) with (S (depth body) `max` depth its) in Hdep.
  inversion Hok as [|? ? Hrep Hits]; subst. inversion Hrep as [|? ? ? ? Hn Hbody Hcontig]; subst.
  rewrite (proj2 (Nat.ltb_lt (length (top :: stack)) stack_size)) by lia. rewrite <-app_assoc in Hd. cbn [app] in Hd.
  set (el' := mk_endloop _ _ _) in *. set (frame := mk_stack (Some pos) _ _ _).
  assert (Hp' : place (frame :: top :: stack) (S pos) body (loop_map (pBaseBuf + s_disp frame) x 1 (n - k - 1) body ++ items_map (base (top :: stack)) its ++ R)
    (S ((n - k - 1) * S (work body) + work its + W))).
  { apply (cont_place _ _ _ _ _ _ Hd); [done|cbn [length] in *; lia|done|]. rewrite Nat.add_succ_comm.
    apply (cont_loop pos OPAL_DATATYPE_LOOP (n - k) _ n x c body its el' (EndLoop el :: tail)); [lia| |done|cbn [length] in *; lia|done|cbn [length] in *; lia|done|].
    - destruct (pl_code _ _ _ _ _ Hp) as (el2 & tail2 & Hcode). change (flatten (Rep n x c body :: its)) with (flatten_item (Rep n x c body) ++ flatten its) in Hcode.
      rewrite flatten_rep in Hcode. cbn [app] in Hcode. rewrite Hcode. apply drop_at in Hcode as [_ Hcode]. rewrite Hcode in Hd. by rewrite Hd.
    - change (flatten (Rep n x c body :: its)) with (flatten_item (Rep n x c body) ++ flatten its) in Hc. rewrite flatten_rep in Hc. cbn [app length] in Hc.
      rewrite !length_app in Hc. cbn [length] in Hc. by replace (S (pos + S (length (flatten body))) + length (flatten its)) with (pos + S (length (flatten body) + 1 + length (flatten its))) by lia. }
  destruct (move_to_at _ _ _ _ _ io Hp') as (w & Hw & Hio & Hst & Hpos & Hstart & Ha). eexists w, _, _. rewrite Hst, Hpos. split_and!; [exact Hw|done|exact Hp'|done| | |done].
  - unfold frame. cbn [base s_disp]. rewrite !Z.add_assoc, app_assoc. f_equal. rewrite loop_map_next. destruct (n - k) as [|m] eqn:E; [lia|]. rewrite loop_map_S. by rewrite (Nat.sub_1_r (S m)).
  - rewrite work_cons, work_rep. nia.
Qed.

Lemma enter_loop_ok stack pos n x c body its R W k io : place stack pos (Rep n x c body :: its) R W → k < n →
  ∃ w W', enter_loop description stack_size pBaseBuf stack pos (n - k) (Z.of_nat k * x) io = inl w ∧ w_io w = io ∧
    walk_ok w (loop_map (base stack) x k (n - k) body ++ items_map (base stack) its ++ R) W' ∧ W' < work (Rep n x c body :: its) + W ∧ aligned w.
Proof.
  intros Hp Hk. destruct (enter_loop_at stack pos n x c body its R W k io Hp Hk) as (w & R' & W' & Hw & Hio & Hp' & [Hc Hl] & Heq & HW & Ha).
  eexists w, _. split_and!; [done|done| |exact HW|done]. exists body, R', W'. split_and!; [done|done|by rewrite Hl|done].
Qed.

(** What a round leaves. *)
Definition steps_to (w : walk IO) (R : list Z) (W : nat) (r : walk IO + option (bool * walk IO)) : Prop :=
  ∃ k, k ≤ length R ∧
  match r with
  | inl w' => moved (w_io w) (take k R) (w_io w') ∧ pending (w_io w') = 0 ∧ aligned w' ∧ ∃ W', walk_ok w' (drop k R) W' ∧ W' < W
  | inr (Some (true, w')) => k = length R ∧ moved (w_io w) R (w_io w') ∧ pending (w_io w') = 0 ∧ ∃ el, description !! pos_desc w' = Some (EndLoop el)
  | inr (Some (false, w')) => moved (w_io w) (take k R) (w_io w') ∧ pending (w_io w') = 0 ∧ (∃ W', walk_ok w' (drop k R) W' ∧ W' ≤ W) ∧
      ∃ e, description !! pos_desc w' = Some (Elem e) ∧ 0 < count_desc w' ∧ io_space (w_io w') < basic_size (e_type e)
  | inr None => False
  end.

Lemma fine_at pos e : description !! pos = Some (Elem e) → elem_fine e.
Proof. intros Hl. apply Hfine. by apply list_elem_of_lookup_2 in Hl. Qed.

Lemma step_data stack pos e its R W count ptr io : place stack pos (Data e :: its) R W → 0 < count ≤ e_total e → count mod e_blocklen e = 0 →
  ptr = (basic_at (base stack) e (e_total e - count) - e_disp e)%Z → pending io = 0 →
  let R0 := elem_map (base stack) e (e_total e - count) count ++ items_map (base stack) its ++ R in
  Forall (reach io) R0 →
  steps_to (mk_walk stack pos count ptr io) R0 (work (Data e :: its) + W) (walk_step description extent stack_size pBaseBuf (mk_walk stack pos count ptr io)).
Proof.
  intros Hp Hcount Hal -> Hpend R0 [Hr _]%Forall_app. destruct (place_entry _ _ _ _ _ _ Hp) as (d & code & el & tail & Hi & Hl & Hd). cbn [flatten_item] in Hi. simplify_eq.
  unfold walk_step. cbn [pos_desc count_desc conv_ptr w_io w_stack]. rewrite Hl.
  pose proof (pl_ok _ _ _ _ _ Hp) as Hok. inversion Hok as [|? ? He _]; subst. inversion He as [? He'|]; subst.
  destruct (copy_data_moves e (base stack) count io He' (fine_at _ _ Hl) ltac:(lia) Hal Hpend Hr) as (k & ptr & io' & Hk & -> & Hptr & Hmv & Hpend').
  pose proof (elem_map_length (base stack) e (e_total e - count) k) as Hlk. pose proof (elem_map_length (base stack) e (e_total e - count) count) as Hlc.
  assert (HR0 : R0 = elem_map (base stack) e (e_total e - count) k ++ elem_map (base stack) e (e_total e - (count - k)) (count - k) ++ items_map (base stack) its ++ R).
  { unfold R0. replace count with (k + (count - k)) at 2 by lia. rewrite elem_map_add, <-app_assoc. do 2 f_equal. f_equal. lia. }
  exists (length (elem_map (base stack) e (e_total e - count) k)). split; [rewrite HR0, length_app; lia|].
  destruct (decide (count = k)) as [<-|Hne].
  - rewrite Nat.sub_diag in HR0 |- *. apply place_tail in Hp. cbn [flatten_item length] in Hp. rewrite Nat.add_1_r in Hp.
    destruct (move_to_ok stack (S pos) its R W io' Hp) as (w & -> & Hio & Hw & Ha). cbn [elem_map seq flat_map app] in HR0. cbn [w_io]. rewrite Hio, HR0, take_app_length, drop_app_length.
    split_and!; [done|done|done|]. eexists. split; [exact Hw|]. rewrite work_cons. cbn [item_work]. lia.
  - destruct (count - k) as [|c] eqn:Ec; [lia|]. rewrite HR0, take_app_length, drop_app_length. cbn [w_io pos_desc count_desc]. split_and!; [done|done| |].
    + eexists. split; [|reflexivity]. exists (Data e :: its), R, W. split_and!; [done| |done|done]. cbn [counters_ok count_desc conv_ptr w_stack]. split; [lia|].
      rewrite Hptr by lia. do 2 f_equal. lia.
    + exists e. split_and!; [done|lia|]. pose proof (moved_space _ _ _ Hmv) as Hsp. rewrite Hlk in Hsp.
      destruct He' as [_ _ Hsize _ _]. pose proof (Nat.div_mod_eq (io_space io) (basic_size (e_type e))). pose proof (Nat.mod_upper_bound (io_space io) (basic_size (e_type e))). nia.
Qed.

Lemma step_loop stack pos n x c body its R W io : place stack pos (Rep n x c body :: its) R W → pending io = 0 →
  let R0 := items_map (base stack) (Rep n x c body :: its) ++ R in
  Forall (reach io) R0 →
  steps_to (mk_walk stack pos n (base stack) io) R0 (work (Rep n x c body :: its) + W) (walk_step description extent stack_size pBaseBuf (mk_walk stack pos n (base stack) io)).
Proof.
  intros Hp Hpend R0 Hr. destruct (place_entry _ _ _ _ _ _ Hp) as (d & code & el & tail & Hi & Hl & Hd). rewrite flatten_rep in Hi. simplify_eq.
  unfold walk_step. cbn [pos_desc count_desc conv_ptr w_io w_stack]. rewrite Hl. cbn [l_contiguous items].
  pose proof (pl_ok _ _ _ _ _ Hp) as Hok. inversion Hok as [|? ? He _]; subst. inversion He as [|? ? ? ? Hn Hbody Hcontig]; subst.
  assert (HR : ∀ k, k ≤ n → R0 = loop_map (base stack) x 0 k body ++ loop_map (base stack) x k (n - k) body ++ items_map (base stack) its ++ R).
  { intros k Hk. unfold R0. rewrite items_map_cons, item_map_rep, <-app_assoc. replace n with (k + (n - k)) at 1 by lia. by rewrite loop_map_add, <-app_assoc. }
  destruct c.
  - assert (Hend : description !! (pos + S (length (flatten body))) = Some (EndLoop (mk_endloop (S (length (flatten body))) (length (items_map 0 body)) (hd 0%Z (items_map 0 body))))).
    { rewrite <-app_assoc in Hd. apply drop_past in Hd. rewrite Nat.add_succ_comm in Hd. by apply drop_at in Hd as [? _]. }
    rewrite Hend. destruct (copy_loop_moves n x true (base stack) body (S (length (flatten body))) n io (Hcontig eq_refl) Hpend) as (k & io' & Hk & -> & Hmv & Hpend').
    { rewrite (HR n) in Hr by done. by apply Forall_app in Hr as [? _]. }
    exists (length (loop_map (base stack) x 0 k body)). split; [rewrite (HR k Hk), length_app; lia|]. rewrite (HR k Hk), take_app_length, drop_app_length.
    destruct (decide (n = k)) as [<-|Hne].
    + rewrite Nat.sub_diag. apply place_tail in Hp. rewrite flatten_rep in Hp. cbn [length] in Hp. rewrite length_app in Hp. cbn [length] in Hp.
      replace (pos + S (length (flatten body) + 1)) with (pos + S (length (flatten body)) + 1) in Hp by lia.
      destruct (move_to_ok _ _ _ _ _ io' Hp) as (w & -> & Hio & Hw & Ha). rewrite Hio. cbn [loop_map seq flat_map app w_io]. split_and!; [done|done|done|].
      eexists. split; [exact Hw|]. rewrite work_cons, work_rep. lia.
    + destruct (n - k) as [|m] eqn:Em; [lia|]. rewrite <-Em. destruct (enter_loop_ok _ _ _ _ _ _ _ _ _ k io' Hp ltac:(lia)) as (w & W' & Hw & Hio & Hok' & HW & Ha).
      replace (base stack + Z.of_nat k * x - base stack)%Z with (Z.of_nat k * x)%Z by lia. rewrite Hw, Hio. cbn [w_io]. split_and!; [done|done|done|]. by exists W'.
  - destruct (enter_loop_ok _ _ _ _ _ _ _ _ _ 0 io Hp ltac:(lia)) as (w & W' & Hw & Hio & Hok' & HW & Ha). rewrite Nat.sub_0_r in Hw, Hok'. rewrite Z.mul_0_l in Hw. rewrite Hw.
    exists 0. split; [lia|]. rewrite take_0, drop_0, Hio. cbn [w_io]. split_and!; [apply moved_nil|done|done|]. exists W'. split; [|done].
    unfold R0. rewrite items_map_cons, item_map_rep, <-app_assoc. exact Hok'.
Qed.

Lemma walk_step_ok w R W : walk_ok w R W → aligned w → pending (w_io w) = 0 → Forall (reach (w_io w)) R →
  steps_to w R W (walk_step description extent stack_size pBaseBuf w).
Proof.
  destruct w as [stack pos count ptr io]. intros (its & R' & W' & Hp & Hcnt & -> & ->) Ha Hpend Hr. cbn [w_io w_stack pos_desc] in *. destruct its as [|[e|n x c body] its].
  - pose proof (pl_cont _ _ _ _ _ Hp) as Hc. cbn [flatten flat_map length] in Hc. rewrite Nat.add_0_r in Hc.
    destruct (cont_code _ _ _ _ Hc) as (el & tail & [Hl _]%drop_at). unfold walk_step. cbn [pos_desc]. rewrite Hl. pose proof (end_of_loop_ok stack pos count ptr io R' W' Hc) as He.
    exists 0. split; [lia|]. cbn [left_at items_map flat_map app] in *. rewrite drop_0, take_0. cbn [w_io]. destruct (end_of_loop _ _ _ _) as [w'|[[[] w']|]]; [| |done|done].
    + destruct He as (-> & HW & Ha'). split_and!; [apply moved_nil|done|done|done].
    + destruct He as (-> & -> & ->). split_and!; [done|apply moved_nil|done|by eexists].
  - cbn [counters_ok count_desc conv_ptr w_stack left_at] in *. destruct Hcnt as [Hcnt ->]. apply step_data; try done. apply (Ha e). by destruct (place_entry _ _ _ _ _ _ Hp) as (d & code & el & tail & [= <- _] & Hl & _).
  - cbn [counters_ok count_desc conv_ptr w_stack left_at] in *. destruct Hcnt as [-> ->]. by apply step_loop.
Qed.

(** The state in which a loop jumps to [complete_loop]. *)
Definition stops (io : IO) (R : list Z) (W : nat) (r : option (bool * walk IO)) : Prop :=
  ∃ k done w', r = Some (done, w') ∧ k ≤ length R ∧ moved io (take k R) (w_io w') ∧
  if done : bool then k = length R ∧ pending (w_io w') = 0 ∧ ∃ el, description !! pos_desc w' = Some (EndLoop el)
  else pending (w_io w') = 0 ∧ (∃ W', walk_ok w' (drop k R) W' ∧ W' ≤ W) ∧
    ∃ e, description !! pos_desc w' = Some (Elem e) ∧ 0 < count_desc w' ∧ io_space (w_io w') < basic_size (e_type e).

Lemma walk_loop_ok w R W : walk_ok w R W → aligned w → pending (w_io w) = 0 → Forall (reach (w_io w)) R → (Z.of_nat W < 2 ^ 64)%Z →
  stops (w_io w) R W (walk_loop description extent stack_size pBaseBuf w).
Proof.
  intros Hw Ha Hpend Hr HW. unfold walk_loop.
  destruct (loop_bound (walk_step description extent stack_size pBaseBuf)
    (λ v b, ∃ k, k ≤ length R ∧ moved (w_io w) (take k R) (w_io v) ∧ walk_ok v (drop k R) b ∧ b ≤ W ∧ aligned v ∧ pending (w_io v) = 0)
    (stops (w_io w) R W) 64 w W) as (r & -> & Hq); [| |done|done].
  - intros v b (k & Hk & Hmv & Hv & HbW & Hav & Hpv). assert (Hrv : Forall (reach (w_io v)) (drop k R)).
    { apply Forall_drop. eapply Forall_impl; [done|]. intros a. by rewrite (moved_reach _ _ _ _ Hmv). }
    destruct (walk_step_ok v _ _ Hv Hav Hpv Hrv) as (k' & Hk' & Hstep). rewrite length_drop in Hk'.
    assert (Htake : take k R ++ take k' (drop k R) = take (k + k') R) by (by rewrite take_take_drop).
    destruct (walk_step _ _ _ _ v) as [v'|[[[] v']|]]; [| | |done].
    + destruct Hstep as (Hmv' & Hp' & Ha' & b' & Hv' & Hb'). exists b'. split; [|done]. exists (k + k'). rewrite <-Htake, <-drop_drop.
      split_and!; [lia|by eapply moved_app|done|lia|done|done].
    + destruct Hstep as (-> & Hmv' & Hp' & Hel). exists (length R), true, v'. split_and!; [done|done| |done|done|done].
      rewrite firstn_all. rewrite <-(take_drop k R). by eapply moved_app.
    + destruct Hstep as (Hmv' & Hp' & (W' & HW' & HW'b) & He). exists (k + k'), false, v'. rewrite <-Htake, <-drop_drop. split_and!; [done|lia|by eapply moved_app|done| |done].
      exists W'. split; [done|lia].
  - exists 0. rewrite take_0, drop_0. split_and!; [lia|apply moved_nil|done|lia|done|done].
Qed.

(** A state between two buffers with the bytes [R] to go. *)
Definition buffer_ok (w : walk IO) (R : list Z) : Prop :=
  ∃ RF W, walk_ok w RF W ∧ R = drop (pending (w_io w)) RF ∧ (Z.of_nat W < 2 ^ 64)%Z ∧ Forall (reach (w_io w)) RF ∧
    match description !! pos_desc w with Some (Elem e) => pending (w_io w) < basic_size (e_type e) | _ => pending (w_io w) = 0 end.

(** What a buffer leaves. *)
Definition buffer_moves (io : IO) (R : list Z) (r : option (bool * walk IO)) : Prop :=
  ∃ k done w', r = Some (done, w') ∧ k ≤ length R ∧ moved io (take k R) (w_io w') ∧
  if done : bool then k = length R ∧ pending (w_io w') = 0
  else k < length R ∧ buffer_ok w' (drop k R) ∧ ∃ e, description !! pos_desc w' = Some (Elem e) ∧ closed e (w_io w') ∧
    basic_size (e_type e) ≤ pending (w_io w') + length (drop k R).

(** The entry a walk is at. *)
Lemma at_data stack pos count ptr io e RF W : description !! pos = Some (Elem e) → walk_ok (mk_walk stack pos count ptr io) RF W →
  ∃ its R W', place stack pos (Data e :: its) R W' ∧ 0 < count ≤ e_total e ∧ elem_ok e ∧ ptr = (basic_at (base stack) e (e_total e - count) - e_disp e)%Z ∧
    RF = elem_map (base stack) e (e_total e - count) count ++ items_map (base stack) its ++ R ∧ W = work (Data e :: its) + W'.
Proof.
  intros Hl (its & R & W' & Hp & Hc & -> & ->). cbn [w_stack pos_desc] in Hp. destruct its as [|i its].
  - destruct (pl_code _ _ _ _ _ Hp) as (el & tail & [Hl' _]%drop_at). congruence.
  - destruct (place_entry _ _ _ _ _ _ Hp) as (d & code & el & tail & Hi & Hl' & _). destruct i as [e'|]; [|rewrite flatten_rep in Hi; congruence].
    cbn [flatten_item] in Hi. assert (e' = e) as -> by congruence. cbn [counters_ok count_desc conv_ptr w_stack left_at] in *. destruct Hc as [Hc ->].
    pose proof (pl_ok _ _ _ _ _ Hp) as Hok. inversion Hok as [|? ? He _]; subst. inversion He; subst. by exists its, R, W'.
Qed.

(** The rest of the buffer at the end. *)
Definition close_buffer (done : bool) (w : walk IO) : option (bool * walk IO) :=
  match description !! pos_desc w with
  | Some (Elem e) =>
      '(count, io) ← copy_rest e (count_desc w) (conv_ptr w) (w_io w);
      Some (done, mk_walk (w_stack w) (pos_desc w) count (conv_ptr w) io)
  | _ => Some (done, w)
  end.

Lemma close_ok w e RF W : description !! pos_desc w = Some (Elem e) → walk_ok w RF W → (Z.of_nat W < 2 ^ 64)%Z → Forall (reach (w_io w)) RF →
  pending (w_io w) + io_space (w_io w) < basic_size (e_type e) → buffer_moves (w_io w) (drop (pending (w_io w)) RF) (close_buffer false w).
Proof.
  destruct w as [stack pos count ptr io]. cbn [pos_desc w_io]. intros Hl Hw HW Hr Hsp. destruct (at_data _ _ _ _ _ _ _ _ Hl Hw) as (its & R & W' & Hp & Hc & He & -> & -> & ->).
  unfold close_buffer. cbn [pos_desc count_desc conv_ptr w_io w_stack]. rewrite Hl. apply Forall_app in Hr as Hr'. destruct Hr' as [Hr1 Hr2].
  destruct (copy_rest_moves e (base stack) count io He (fine_at _ _ Hl) Hc Hsp Hr1) as (io' & k & -> & Hmv & Hk & Hdrop & Hpend & Hcl). cbn [mbind option_bind].
  pose proof (elem_map_length (base stack) e (e_total e - count) count) as Hlen. set (E := elem_map (base stack) e (e_total e - count) count) in *.
  assert (Hp1 : pending io ≤ length E) by (rewrite Hlen; nia). assert (Hp2 : pending io' ≤ length E) by (rewrite Hlen; nia).
  exists k, false, (mk_walk stack pos count (basic_at (base stack) e (e_total e - count) - e_disp e) io'). rewrite !drop_app_le, !length_app in * by done. cbn [w_io].
  rewrite take_app_le by lia. split_and!; [done|lia|done|lia| |].
  - exists (E ++ items_map (base stack) its ++ R), (work (Data e :: its) + W'). cbn [w_io pos_desc]. rewrite Hl, drop_app_le, drop_app_le, Hdrop by lia. split_and!; [|done|done| |done].
    + exists (Data e :: its), R, W'. done.
    + eapply Forall_impl; [done|]. intros a. by rewrite (moved_reach _ _ _ _ Hmv).
  - exists e. cbn [w_io pos_desc]. split_and!; [done|done|]. rewrite drop_app_le, length_app, Hdrop, length_drop, Hlen by lia. destruct He. nia.
Qed.

Lemma buffer_moves_app io l io1 R r : moved io l io1 → buffer_moves io1 R r → buffer_moves io (l ++ R) r.
Proof.
  intros Hmv (k & done & w' & -> & Hk & Hmv' & Hd). exists (length l + k), done, w'. rewrite length_app, take_app_add', drop_app_add' by done.
  split_and!; [done|lia|by eapply moved_app|]. destruct done; [split; [lia|apply Hd]|split; [lia|apply Hd]].
Qed.

(** The loop, and what is left of the buffer. *)
Lemma loop_and_close w R W : walk_ok w R W → aligned w → pending (w_io w) = 0 → Forall (reach (w_io w)) R → (Z.of_nat W < 2 ^ 64)%Z →
  buffer_moves (w_io w) R ('(done, w) ← walk_loop description extent stack_size pBaseBuf w; close_buffer done w).
Proof.
  intros Hw Ha Hp Hr HW. destruct (walk_loop_ok w R W Hw Ha Hp Hr HW) as (k & done & w' & -> & Hk & Hmv & Hd). cbn [mbind option_bind]. destruct done.
  - destruct Hd as (-> & Hp' & el & Hel). unfold close_buffer. rewrite Hel. exists (length R), true, w'. done.
  - destruct Hd as (Hp' & (W' & Hw' & HW') & e & He & Hc & Hsp). assert (Hr' : Forall (reach (w_io w')) (drop k R)).
    { apply Forall_drop. eapply Forall_impl; [done|]. intros a. by rewrite (moved_reach _ _ _ _ Hmv). }
    pose proof (close_ok w' e (drop k R) W' He Hw' ltac:(lia) Hr' ltac:(lia)) as Hcl. rewrite Hp', drop_0 in Hcl.
    rewrite <-(take_drop k R). by eapply buffer_moves_app.
Qed.

Lemma walk_buffer_ok w R : buffer_ok w R → buffer_moves (w_io w) R (walk_buffer description extent stack_size pBaseBuf w).
Proof.
  intros (RF & W & Hw & -> & HW & Hr & Hpend). unfold walk_buffer. fold close_buffer.
  destruct (description !! pos_desc w) as [[e|l|el]|] eqn:Hl.
  2,3: by rewrite Hpend, drop_0 in *; eapply loop_and_close; [done|intros e; rewrite Hl; done|done|done|done].
  2:{ destruct Hw as (its & R' & W' & Hp & _). destruct (pl_code _ _ _ _ _ Hp) as (el & tail & Hd). destruct its as [|i its].
      - apply drop_at in Hd as [Hd _]. congruence.
      - destruct (place_entry _ _ _ _ _ _ Hp) as (? & ? & ? & ? & _ & Hl' & _). congruence. }
  destruct w as [stack pos count ptr io]. cbn [pos_desc count_desc conv_ptr w_io w_stack] in *.
  destruct (at_data _ _ _ _ _ _ _ _ Hl Hw) as (its & R & W' & Hp & Hc & He & -> & -> & ->). apply Forall_app in Hr as Hr'. destruct Hr' as [Hr1 Hr2].
  destruct (copy_partial_moves e (base stack) count io He (fine_at _ _ Hl) Hc Hpend Hr1) as (go & count' & ptr' & io' & k & -> & Hcc & Hmv & Hk & Hdrop & Hptr & Hpend' & Hgo).
  cbn [mbind option_bind]. pose proof (elem_map_length (base stack) e (e_total e - count) count) as Hlen. set (E := elem_map (base stack) e (e_total e - count) count) in *.
  pose proof (elem_map_length (base stack) e (e_total e - count') count') as Hlen'. set (E' := elem_map (base stack) e (e_total e - count') count') in *.
  set (T := items_map (base stack) its ++ R) in *.
  assert (Hsplit : drop (pending io) (E ++ T) = take k (drop (pending io) E) ++ drop (pending io') E' ++ T).
  { rewrite drop_app_le by (rewrite Hlen; nia). rewrite <-Hdrop, app_assoc, take_drop. done. }
  rewrite Hsplit. eapply buffer_moves_app; [exact Hmv|].
  assert (Hreach : ∀ l, Forall (reach io) l → Forall (reach io') l) by (intros l Hfl; eapply Forall_impl; [exact Hfl|]; intros a; by rewrite (moved_reach _ _ _ _ Hmv)).
  assert (HrE' : Forall (reach io') (E' ++ T)).
  { apply Forall_app. split; [|by apply Hreach]. apply Hreach. unfold E, E' in *. replace count with ((count - count') + count') in Hr1 at 2 by lia.
    rewrite elem_map_add in Hr1. apply Forall_app in Hr1 as [_ Hr1]. by replace (e_total e - count + (count - count')) with (e_total e - count') in Hr1 by lia. }
  destruct go; cbn [negb].
  - destruct Hgo as [Hp0 Hmod]. rewrite Hp0, drop_0. destruct (Nat.eqb_spec count' 0) as [->|Hne].
    + apply place_tail in Hp. cbn [flatten_item length] in Hp. rewrite Nat.add_1_r in Hp. destruct (move_to_ok stack (S pos) its R W' io' Hp) as (w & -> & Hio & Hw' & Ha).
      cbn [E' elem_map seq flat_map app]. rewrite <-Hio in *. eapply loop_and_close; [exact Hw'|done|done|by apply Forall_app in HrE' as [_ ?]|]. rewrite work_cons in HW. lia.
    + eapply (loop_and_close (mk_walk stack pos count' ptr' io')); [|intros e'; cbn [pos_desc count_desc]; rewrite Hl; by intros [= <-]|done|done|exact HW].
      exists (Data e :: its), R, W'. split_and!; [done| |done|done]. cbn [counters_ok count_desc conv_ptr w_stack]. split; [lia|]. apply Hptr. lia.
  - destruct Hgo as [Hc' Hsp]. rewrite <-drop_app_le by (rewrite Hlen'; nia). cbn [mbind option_bind].
    apply (close_ok (mk_walk stack pos count' ptr' io') e _ (work (Data e :: its) + W')); try done.
    exists (Data e :: its), R, W'. split_and!; [done| |done|done]. cbn [counters_ok count_desc conv_ptr w_stack]. split; [lia|]. by apply Hptr.
Qed.

(** ** Calls *)

(** [runs io R ls io' R']: with [R] to go, each buffer of [ls] gets its bytes, [R'] are
    left.  A buffer that is not the last one is used up as far as the next entry
    allows. *)
Inductive runs : IO → list Z → list (iovec * list Z) → IO → list Z → Prop :=
| runs_nil io R : runs io R [] io R
| runs_full io R i k io1 ls io' R' e : k < length R → moved (begin_iov i io) (take k R) io1 → Elem e ∈ description → closed e io1 →
    basic_size (e_type e) ≤ pending io1 + length (drop k R) →
    runs io1 (drop k R) ls io' R' → runs io R ((i, take k R) :: ls) io' R'
| runs_done io R i io1 : moved (begin_iov i io) R io1 → runs io R [(i, R)] io1 [].

Lemma runs_split io R ls io' R' : runs io R ls io' R' → R = concat ls.*2 ++ R'.
Proof.
  induction 1 as [| |]; cbn; [done| |by rewrite !app_nil_r]. rewrite <-app_assoc. rewrite <-(take_drop k R) at 1. by f_equal.
Qed.

Lemma buffer_begin i w R : buffer_ok w R → buffer_ok (mk_walk (w_stack w) (pos_desc w) (count_desc w) (conv_ptr w) (begin_iov i (w_io w))) R.
Proof.
  destruct w as [stack pos count ptr io]. intros (RF & W & Hw & -> & HW & Hr & Hp). exists RF, W. cbn [w_stack pos_desc count_desc conv_ptr w_io] in *.
  rewrite begin_pending. split_and!; [done|done|done| |done]. eapply Forall_impl; [exact Hr|]. intros a. by rewrite begin_reach.
Qed.

Lemma walk_iov_ok iov w R : buffer_ok w R → R ≠ [] → ∃ w' ls R', walk_iov description extent stack_size pBaseBuf iov w = Some (w', length R - length R', length ls) ∧
  ls.*1 = take (length ls) iov ∧ runs (w_io w) R ls (w_io w') R' ∧ length R' ≤ length R ∧ (R' ≠ [] → buffer_ok w' R' ∧ length ls = length iov).
Proof.
  revert w R; induction iov as [|i iov IH]; intros w R Hw Hne; cbn [walk_iov].
  { exists w, [], R. rewrite Nat.sub_diag. split_and!; try done. constructor. }
  destruct (walk_buffer_ok _ _ (buffer_begin i w R Hw)) as (k & done & w1 & -> & Hk & Hmv & Hd). cbn [mbind option_bind w_io] in *.
  pose proof (moved_space _ _ _ Hmv) as Hsp. rewrite begin_space, length_take_le in Hsp by done. rewrite Hsp, Nat.add_sub. destruct done.
  - destruct Hd as [-> Hp]. exists w1, [(i, R)], []. rewrite firstn_all in Hmv. cbn. rewrite Nat.sub_0_r, take_0. split_and!; [done|done|by constructor|lia|done].
  - destruct Hd as (Hlt & Hw1 & e & He & Hcl & Hbig). assert (Hne1 : drop k R ≠ []) by (intros E; apply (f_equal length) in E; rewrite length_drop in E; cbn in E; lia).
    destruct (IH w1 (drop k R) Hw1 Hne1) as (w' & ls & R' & -> & Hls & Hruns & Hle & Hrest). cbn [mbind option_bind]. rewrite length_drop in *.
    exists w', ((i, take k R) :: ls), R'. cbn [length take]. rewrite fmap_cons, Hls. cbn [fst]. split_and!; [do 3 f_equal; lia|done| |lia|].
    + eapply runs_full; [done|done| |done|by rewrite length_drop|done]. by apply list_elem_of_lookup_2 in He.
    + intros HR'. destruct (Hrest HR') as [? ->]. done.
Qed.

(** The stack of a convertor that has the bytes [R] to go. *)
Definition conv_ok (total_size : nat) (pStack : list dt_stack_t) (bConverted : nat) (io : IO) (R : list Z) : Prop :=
  R ≠ [] ∧ bConverted + length R = total_size ∧
  ∃ top stack pos, pStack = top :: stack ∧ s_index top = Some pos ∧ buffer_ok (mk_walk stack pos (s_count top) (pBaseBuf + s_disp top) io) R.

Lemma generic_simple_ok total_size pStack bConverted io R iov : conv_ok total_size pStack bConverted io R →
  ∃ pStack' bConverted' io' ls R', generic_simple description extent stack_size pBaseBuf total_size pStack bConverted iov io =
    Some (pStack', bConverted', bool_decide (R' = []), length R - length R', length ls, io') ∧
  ls.*1 = take (length ls) iov ∧ runs io R ls io' R' ∧ length R' ≤ length R ∧ bConverted' = bConverted + (length R - length R') ∧
  (R' ≠ [] → conv_ok total_size pStack' bConverted' io' R' ∧ length ls = length iov).
Proof.
  intros (Hne & Hsize & top & stack & pos & -> & Hi & Hb). unfold generic_simple. rewrite Hi. cbn [mbind option_bind].
  destruct (walk_iov_ok iov _ R Hb Hne) as (w' & ls & R' & -> & Hls & Hruns & Hle & Hrest). cbn [mbind option_bind w_io] in *.
  destruct (decide (R' = [])) as [->|HR'].
  - cbn [length] in *. rewrite Nat.sub_0_r, (proj2 (Nat.eqb_eq _ _) Hsize). eexists _, _, (w_io w'), ls, []. cbn [length]. rewrite Nat.sub_0_r. split_and!; try done.
  - destruct (Hrest HR') as [Hb' Hlen]. assert (0 < length R') by (destruct R'; [done|cbn; lia]). rewrite (proj2 (Nat.eqb_neq _ _)) by lia.
    assert (Hdep : length (w_stack w') < stack_size) by (destruct Hb' as (? & ? & (its & ? & ? & Hp & _) & _); pose proof (pl_depth _ _ _ _ _ Hp); lia).
    rewrite (proj2 (Nat.ltb_lt _ _) Hdep). eexists _, _, (w_io w'), ls, R'. rewrite bool_decide_eq_false_2 by done. split_and!; try done.
    intros _. split; [|done]. split_and!; [done|lia|]. eexists _, _, _. split_and!; [done|done|]. cbn [s_count s_disp].
    replace (pBaseBuf + (conv_ptr w' - pBaseBuf))%Z with (conv_ptr w') by lia. by destruct w'.
Qed.

(** Only what is pending and what can be reached matters. *)
Lemma conv_ok_io total_size pStack bConverted io io' R : pending io' = pending io → (∀ a, reach io a → reach io' a) →
  conv_ok total_size pStack bConverted io R → conv_ok total_size pStack bConverted io' R.
Proof.
  intros Hp Hr (Hne & Hsize & top & stack & pos & -> & Hi & RF & W & Hw & -> & HW & HrF & Hpend). cbn [w_io] in *. split_and!; [done|done|].
  exists top, stack, pos. split_and!; [done|done|]. exists RF, W. cbn [w_io pos_desc] in *. rewrite Hp. split_and!; [exact Hw|done|done| |done].
  eapply Forall_impl; [exact HrF|done].
Qed.

(** The stack a convertor starts with. *)
Lemma create_stack_ok count io R : its0 ≠ [] → 0 < count → (Z.of_nat (count * S (work its0)) < 2 ^ 64)%Z → pending io = 0 →
  R = loop_map pBaseBuf extent 0 count its0 → R ≠ [] → Forall (reach io) R →
  ∃ pStack, opal_convertor_create_stack_at_begining description count = Some pStack ∧ conv_ok (length R) pStack 0 io R.
Proof.
  intros Hne Hc HW Hp HR HRne Hreach. destruct Hdesc as [el Hd]. assert (Hcase : ∃ i its, its0 = i :: its) by (clear -Hne; destruct its0 as [|i its]; [done|by exists i, its]). destruct Hcase as (i & its & Eits).
  set (bottom := mk_stack None OPAL_DATATYPE_LOOP count 0).
  destruct (move_to_ok [bottom] 0 its0 (loop_map (pBaseBuf + 0) extent 1 (count - 1) its0) (S ((count - 1) * S (work its0))) io) as (w & Hw & Hio & Hok & Ha).
  { apply (cont_place _ _ _ _ _ [EndLoop el]); [by rewrite drop_0|done|cbn [length]; lia|done|]. by apply cont_bottom. }
  unfold move_to in Hw. assert (HRF : items_map (base [bottom]) its0 ++ loop_map (pBaseBuf + 0) extent 1 (count - 1) its0 = R).
  { rewrite HR. cbn [base s_disp bottom]. rewrite Z.add_0_r. destruct count as [|c]; [lia|]. rewrite loop_map_S. replace (S c - 1) with c by lia. do 2 f_equal. lia. }
  rewrite HRF in Hok.
  assert (Hconv : ∀ top, s_index top = Some 0 → mk_walk [bottom] 0 (s_count top) (pBaseBuf + s_disp top)%Z io = w → conv_ok (length R) [top; bottom] 0 io R).
  { intros top Ht Hwt. split_and!; [done|lia|]. exists top, [bottom], 0. split_and!; [done|done|]. rewrite Hwt. eexists R, _. split_and!; [exact Hok|by rewrite Hio, Hp, drop_0|nia|by rewrite Hio|].
    rewrite Hio, Hp. assert (Hpos : pos_desc w = 0) by (by rewrite <-Hwt). rewrite Hpos. pose proof Hits0 as Hi. rewrite Eits in Hi. apply Forall_inv in Hi. destruct i as [e|n x c body].
    - rewrite Hd, Eits. cbn. inversion Hi as [? []|]; subst. done.
    - rewrite Hd, Eits. cbn. done. }
  unfold opal_convertor_create_stack_at_begining. rewrite Hd, Eits in Hw |- *. destruct i as [e|n x c body]; cbn in Hw |- *; injection Hw as Hw; eexists; (split; [done|]); by apply Hconv.
Qed.

End walk.
End DtWalkSpec.
