(* ===== verification/DtCopySpec.v ===== *)
(** * Copying entries moves their bytes

    [BytesLaws] is what the routines need of [put]; with it, each moves the next bytes of
    the type map of its entry. *)

From stdpp Require Import base numbers list gmap.
From S2P Require Import Prelude DtDesc DtWalk DtCopy DtMap.

Module DtCopySpec.
Import DtDesc DtWalk DtCopy DtMap.
Local Open Scope nat_scope.

(** ** Blocks of the type map *)

Section blocks.
Context `{Abi}.

(** Elements of one block are next to each other. *)
Lemma basic_at_block b e q r : r < e_blocklen e → basic_at b e (q * e_blocklen e + r) = (basic_at b e (q * e_blocklen e) + Z.of_nat (r * basic_size (e_type e)))%Z.
Proof.
  intros Hr. unfold basic_at. rewrite Nat.div_add_l, Nat.div_mul by lia. rewrite (Nat.add_comm _ r), !Nat.Div0.mod_add, Nat.Div0.mod_mul.
  rewrite (Nat.mod_small r), (Nat.div_small r) by done. lia.
Qed.

Lemma seqZ_app a n k : seqZ a (Z.of_nat (n + k)) = seqZ a (Z.of_nat n) ++ seqZ (a + Z.of_nat n) (Z.of_nat k).
Proof. rewrite Nat2Z.inj_add. apply seqZ_app; lia. Qed.

(** A part of a block. *)
Lemma elem_map_block b e m k : m mod e_blocklen e + k ≤ e_blocklen e → 0 < e_blocklen e →
  elem_map b e m k = seqZ (basic_at b e m) (Z.of_nat (k * basic_size (e_type e))).
Proof.
  intros Hm Hb. unfold elem_map. revert m Hm; induction k as [|k IH]; intros m Hm; [done|]. cbn [seq flat_map Nat.mul].
  rewrite seqZ_app. f_equal. destruct (decide (k = 0)) as [->|Hk]; [done|]. rewrite Nat.add_comm in Hm.
  assert (Hmod : S m mod e_blocklen e = S (m mod e_blocklen e)).
  { rewrite <-Nat.add_1_r, Nat.Div0.add_mod, (Nat.mod_small 1) by lia. rewrite Nat.mod_small; lia. }
  assert (Hdiv : S m / e_blocklen e = m / e_blocklen e).
  { pose proof (Nat.div_mod_eq m (e_blocklen e)). pose proof (Nat.div_mod_eq (S m) (e_blocklen e)). nia. }
  rewrite IH by lia. f_equal. unfold basic_at. rewrite Hmod, Hdiv. lia.
Qed.

(** Whole blocks. *)
Lemma elem_map_blocks b e q n : 0 < e_blocklen e → elem_map b e (q * e_blocklen e) (n * e_blocklen e) =
  flat_map (λ j, seqZ (basic_at b e (q * e_blocklen e) + Z.of_nat j * e_extent e) (Z.of_nat (e_blocklen e * basic_size (e_type e)))) (seq 0 n).
Proof.
  intros Hb. revert q; induction n as [|n IH]; intros q; [done|]. cbn [Nat.mul]. rewrite elem_map_add. cbn [seq flat_map]. f_equal.
  - rewrite elem_map_block by (rewrite ?Nat.Div0.mod_mul; lia). f_equal. lia.
  - replace (q * e_blocklen e + e_blocklen e) with (S q * e_blocklen e) by lia. rewrite IH. rewrite <-(seq_shift n 0), flat_map_concat_map, flat_map_concat_map, map_map. f_equal. apply map_ext.
    intros j. f_equal. unfold basic_at. rewrite !Nat.div_mul, !Nat.Div0.mod_mul by lia. lia.
Qed.

(** Whole blocks and a part of the next one. *)
Lemma basic_at_blocks b e q n : 0 < e_blocklen e → basic_at b e ((q + n) * e_blocklen e) = (basic_at b e (q * e_blocklen e) + Z.of_nat n * e_extent e)%Z.
Proof. intros Hb. unfold basic_at. rewrite !Nat.div_mul, !Nat.Div0.mod_mul by lia. lia. Qed.

Lemma elem_map_blocks_rest b e q n r : 0 < e_blocklen e → r ≤ e_blocklen e →
  elem_map b e (q * e_blocklen e) (n * e_blocklen e + r) =
  flat_map (λ j, seqZ (basic_at b e (q * e_blocklen e) + Z.of_nat j * e_extent e) (Z.of_nat (e_blocklen e * basic_size (e_type e)))) (seq 0 n) ++
  seqZ (basic_at b e (q * e_blocklen e) + Z.of_nat n * e_extent e) (Z.of_nat (r * basic_size (e_type e))).
Proof.
  intros Hb Hr. rewrite elem_map_add, elem_map_blocks by done. f_equal. rewrite <-Nat.mul_add_distr_r, elem_map_block by (rewrite ?Nat.Div0.mod_mul; lia).
  by rewrite basic_at_blocks.
Qed.

End blocks.

(** ** Moving bytes *)

(** [moves io l io']: the bytes at the addresses [l] of the user's memory were copied;
    [mapped] are the addresses of that memory. *)
Class BytesLaws (IO : Type) `{Bytes IO} := {
  moves : IO → list Z → IO → Prop;
  mapped : IO → Z → Prop;
  moves_nil io : moves io [] io;
  moves_app io l io1 l' io2 : moves io l io1 → moves io1 l' io2 → moves io (l ++ l') io2;
  moves_mapped io l io' a : moves io l io' → mapped io' a ↔ mapped io a;
  moves_room io l io' : moves io l io' → room io = length l + room io';
  put_moves a n io : Forall (mapped io) (seqZ a (Z.of_nat n)) → n ≤ room io → ∃ io', put a n io = Some io' ∧ moves io (seqZ a (Z.of_nat n)) io';
}.

Section laws.
Context {IO : Type} `{BytesLaws IO}.

Lemma copy_blocks_ok n bytes step a io :
  let l := flat_map (λ j, seqZ (a + Z.of_nat j * step) (Z.of_nat bytes)) (seq 0 n) in
  Forall (mapped io) l → n * bytes ≤ room io →
  ∃ io', copy_blocks n bytes step a io = Some ((a + Z.of_nat n * step)%Z, io') ∧ moves io l io'.
Proof.
  cbv zeta. revert a io; induction n as [|n IH]; intros a io; cbn [copy_blocks].
  { intros _ _. exists io. rewrite Z.add_0_r. split; [done|apply moves_nil]. }
  cbn [seq flat_map]. rewrite Z.add_0_r, <-(seq_shift n 0), flat_map_concat_map, map_map, <-flat_map_concat_map. rewrite Forall_app. intros [H1 H2] Hsp.
  destruct (put_moves a bytes io H1 ltac:(lia)) as (io1 & -> & Hp1). cbn [mbind option_bind].
  assert (Hext : flat_map (λ x, seqZ (a + Z.of_nat (S x) * step) (Z.of_nat bytes)) (seq 0 n) = flat_map (λ j, seqZ (a + step + Z.of_nat j * step) (Z.of_nat bytes)) (seq 0 n)).
  { apply flat_map_ext'. intros j _. f_equal. lia. }
  rewrite Hext in *. destruct (IH (a + step)%Z io1) as (io2 & -> & Hp2).
  - eapply Forall_impl; [exact H2|]. intros x. by rewrite (moves_mapped _ _ _ _ Hp1).
  - apply moves_room in Hp1. rewrite length_seqZ in Hp1. lia.
  - exists io2. split; [do 2 f_equal; lia|by eapply moves_app].
Qed.

End laws.

(** ** Entries of data *)

Section data.
Context `{AbiLaws} {IO : Type} `{BytesLaws IO} (accelerator : bool).

Lemma stride_bytes_ok e : elem_ok e → basic_align (e_type e) ≠ 0 → (Z.of_nat (basic_size (e_type e)) | e_extent e)%Z ∧ (- 2 ^ 63 ≤ e_extent e < 2 ^ 63)%Z → stride_bytes e = e_extent e.
Proof.
  intros [_ _ Hs _] Ha [Hd Hx]. destruct (copied_size _ Ha) as [_ Hpow]. unfold stride_bytes. cbv zeta.
  assert (Hw : (Z.of_nat (basic_size (e_type e)) | wrap 64 (e_extent e))%Z).
  { unfold wrap. rewrite Z.mod_eq by lia. apply Z.divide_sub_r; [done|]. by apply Z.divide_mul_l. }
  rewrite (Z.mul_comm (_ / _)), <-Z.divide_div_mul_exact, Z.mul_comm, Z.div_mul by (done || lia). rewrite swrap_wrap by lia. apply swrap_small; lia.
Qed.

(** [n] blocks and [r] elements, with the pointer that is right unless all is done. *)
Lemma copy_blocks_rest b e q n r step io : elem_ok e → r ≤ e_blocklen e → step = e_extent e ∨ n * e_blocklen e + r ≤ e_blocklen e →
  let a := basic_at b e (q * e_blocklen e) in let size := basic_size (e_type e) in let k := n * e_blocklen e + r in
  Forall (mapped io) (elem_map b e (q * e_blocklen e) k) → k * size ≤ room io →
  ∃ a' io1 io2, copy_blocks n (e_blocklen e * size) step a io = Some (a', io1) ∧ put a' (r * size) io1 = Some io2 ∧
    (step = e_extent e ∨ n = 0 → a' = (a + Z.of_nat n * e_extent e)%Z) ∧ moves io (elem_map b e (q * e_blocklen e) k) io2.
Proof.
  cbv zeta. intros [_ Hb Hs _] Hr Hstep Hreach Hsp. rewrite elem_map_blocks_rest in Hreach |- * by done. apply Forall_app in Hreach as [Hr1 Hr2].
  assert (Hblocks : flat_map (λ j, seqZ (basic_at b e (q * e_blocklen e) + Z.of_nat j * e_extent e) (Z.of_nat (e_blocklen e * basic_size (e_type e)))) (seq 0 n) =
    flat_map (λ j, seqZ (basic_at b e (q * e_blocklen e) + Z.of_nat j * step) (Z.of_nat (e_blocklen e * basic_size (e_type e)))) (seq 0 n)).
  { destruct Hstep as [->|Hle]; [done|]. destruct n as [|[|n]]; [done|cbn; by rewrite !Z.add_0_r|nia]. }
  rewrite Hblocks in *. destruct (copy_blocks_ok n (e_blocklen e * basic_size (e_type e)) step (basic_at b e (q * e_blocklen e)) io Hr1 ltac:(nia)) as (io1 & Hc & Hp1).
  apply moves_room in Hp1 as Hsp1. assert (Hlen : length (flat_map (λ j, seqZ (basic_at b e (q * e_blocklen e) + Z.of_nat j * step) (Z.of_nat (e_blocklen e * basic_size (e_type e)))) (seq 0 n)) = n * (e_blocklen e * basic_size (e_type e))).
  { clear. generalize 0. induction n as [|n IH]; intros m; [done|]. cbn [seq flat_map]. rewrite length_app, length_seqZ, IH. lia. }
  destruct (decide (r = 0)) as [->|Hr0].
  - set (a' := (basic_at b e (q * e_blocklen e) + Z.of_nat n * step)%Z). destruct (put_moves a' 0 io1) as (io2 & Hp0 & Hp2); [by constructor|lia|].
    exists a', io1, io2. split_and!; [done|done|unfold a'; intros [->| ->]; lia|]. by eapply moves_app.
  - assert (Hn : (Z.of_nat n * step = Z.of_nat n * e_extent e)%Z) by (destruct Hstep as [->|Hle]; [done|]; assert (n = 0) as -> by nia; done).
    rewrite <-Hn in *. destruct (put_moves (basic_at b e (q * e_blocklen e) + Z.of_nat n * step) (r * basic_size (e_type e)) io1) as (io2 & Hc2 & Hp2).
    + eapply Forall_impl; [exact Hr2|]. intros x. by rewrite (moves_mapped _ _ _ _ Hp1).
    + nia.
    + exists (basic_at b e (q * e_blocklen e) + Z.of_nat n * step)%Z, io1, io2. split_and!; [done|done|done|by eapply moves_app].
Qed.

(** The number of elements that there is space for. *)
Lemma cando_min space size count : 0 < size → (if space <? size * count then space / size else count) = count `min` (space / size).
Proof.
  intros Hs. pose proof (Nat.div_mod_eq space size). pose proof (Nat.mod_upper_bound space size). destruct (Nat.ltb_spec space (size * count)); nia.
Qed.

Lemma basic_at_rest b e q n r : elem_ok e → r < e_blocklen e →
  basic_at b e (q * e_blocklen e + (n * e_blocklen e + r)) = (basic_at b e (q * e_blocklen e) + Z.of_nat n * e_extent e + Z.of_nat (r * basic_size (e_type e)))%Z.
Proof. intros [_ Hb _ _] Hr. rewrite Nat.add_assoc, <-Nat.mul_add_distr_r, basic_at_block, basic_at_blocks by done. done. Qed.

(** The two ways to copy [k] elements from the start of a block on. *)
Lemma predefined_element_ok b e q k io : elem_ok e → e_blocklen e < 9 → (e_count e = 1 → k ≤ e_blocklen e) → let a := basic_at b e (q * e_blocklen e) in
  Forall (mapped io) (elem_map b e (q * e_blocklen e) k) → k * basic_size (e_type e) ≤ room io →
  predefined_element a k e io = Some None ∨
  ∃ a' io', predefined_element a k e io = Some (Some (a', io')) ∧ moves io (elem_map b e (q * e_blocklen e) k) io' ∧
    (e_count e = 1 ∧ k = e_blocklen e ∨ a' = basic_at b e (q * e_blocklen e + k)).
Proof.
  cbv zeta. intros He Hb9 Hone Hreach Hsp. pose proof He as [_ Hb Hs Hstr]. unfold predefined_element. destruct (predefined_copies _ _ _ _) eqn:Hf; [right|by left].
  assert (Ha : basic_align (e_type e) ≠ 0) by (unfold predefined_copies in Hf; intros E; rewrite E in Hf; done).
  set (n := k / e_blocklen e). set (r := k mod e_blocklen e). assert (Hk : k = n * e_blocklen e + r) by (unfold n, r; rewrite Nat.mul_comm; apply Nat.div_mod_eq).
  assert (Hr : r < e_blocklen e) by (apply Nat.mod_upper_bound; lia). rewrite Hk in Hreach, Hsp |- *.
  assert (Hstep : stride_bytes e = e_extent e ∨ n * e_blocklen e + r ≤ e_blocklen e).
  { destruct Hstr as [E1|[?|[?|Hd]]]; [right; rewrite <-Hk; by apply Hone|lia|done|left; by apply stride_bytes_ok]. }
  destruct (copy_blocks_rest b e q n r (stride_bytes e) io He ltac:(lia) Hstep Hreach Hsp) as (a' & io1 & io2 & -> & Hc & Ha' & Hp).
  cbn [mbind option_bind]. rewrite Hc. cbn [mbind option_bind]. eexists _, io2. split_and!; [done|done|].
  destruct (decide (e_count e = 1 ∧ n = 1)) as [[E1 Hn]|Hor].
  - left. split; [done|]. specialize (Hone E1). nia.
  - right. rewrite basic_at_rest by done. rewrite Ha'; [done|]. destruct Hstr as [E1|[?|[?|Hd]]]; [right|lia|done|left; by apply stride_bytes_ok].
    specialize (Hone E1). destruct n as [|[|n]]; [done|by destruct Hor|nia].
Qed.

Lemma memcpy_element_ok b e q k io : elem_ok e → (e_count e = 1 → k ≤ e_blocklen e) → let a := basic_at b e (q * e_blocklen e) in let size := basic_size (e_type e) in
  Forall (mapped io) (elem_map b e (q * e_blocklen e) k) → k * size ≤ room io →
  ∃ a' io', memcpy_element e k a io = Some (a', io') ∧
    moves io (elem_map b e (q * e_blocklen e) k) io' ∧ (e_count e = 1 ∧ k = e_blocklen e ∨ a' = basic_at b e (q * e_blocklen e + k)).
Proof.
  cbv zeta. intros He Hone Hreach Hsp. pose proof He as [Hc Hb Hs _]. unfold memcpy_element. destruct (Nat.eqb_spec (e_blocklen e) 1) as [E1|E1].
  - rewrite E1, Nat.mul_1_r in *. pose proof (elem_map_blocks b e q k ltac:(lia)) as Hm. rewrite E1, !Nat.mul_1_r, Nat.mul_1_l in Hm. rewrite Hm in *.
    destruct (copy_blocks_ok k (basic_size (e_type e)) (e_extent e) (basic_at b e q) io Hreach Hsp) as (io' & -> & Hp). eexists _, io'. split_and!; [done|done|].
    right. pose proof (basic_at_blocks b e q k ltac:(lia)) as Hx. rewrite E1, !Nat.mul_1_r in Hx. done.
  - set (n := if (1 <? e_count e) && (e_blocklen e <=? k) then k / e_blocklen e else 0). set (r := k - n * e_blocklen e).
    assert (Hnr : k = n * e_blocklen e + r ∧ (r < e_blocklen e ∨ e_count e = 1 ∧ n = 0 ∧ r = e_blocklen e)).
    { unfold r, n. pose proof (Nat.div_mod_eq k (e_blocklen e)). pose proof (Nat.mod_upper_bound k (e_blocklen e)).
      destruct (Nat.ltb_spec 1 (e_count e)), (Nat.leb_spec (e_blocklen e) k); cbn [andb]; [nia|lia| |lia]. assert (e_count e = 1) by lia. specialize (Hone ltac:(lia)). lia. }
    destruct Hnr as [Hk Hr]. clearbody n r. rewrite Hk in Hreach, Hsp |- *.
    destruct (copy_blocks_rest b e q n r (e_extent e) io He ltac:(lia) ltac:(by left) Hreach Hsp) as (a' & io1 & io2 & Hcb & Hco & Ha' & Hp).
    rewrite (Nat.mul_comm _ (e_blocklen e)), Hcb. cbn [mbind option_bind]. rewrite Hco. cbn [mbind option_bind]. eexists _, io2. split_and!.
    + assert (((r <? e_blocklen e) || ((e_count e =? 1) && (r <=? e_blocklen e))) = true) as ->; [|done].
      destruct Hr as [Hr|(-> & _ & ->)]; [by rewrite (proj2 (Nat.ltb_lt _ _) Hr)|by rewrite Nat.leb_refl, orb_true_r].
    + done.
    + destruct Hr as [Hr|(Eone & -> & ->)]; [right|left; lia]. rewrite Ha', basic_at_rest by (done || by left). done.
Qed.

Lemma predefined_data_ok e b count io : elem_ok e → count ≤ e_total e → count mod e_blocklen e = 0 →
  Forall (mapped io) (elem_map b e (e_total e - count) count) →
  ∃ k ptr io', k = count `min` (room io / basic_size (e_type e)) ∧
    predefined_data accelerator e count (basic_at b e (e_total e - count) - e_disp e)%Z io = Some (count - k, ptr, io') ∧
    (k < count → ptr = (basic_at b e (e_total e - count + k) - e_disp e)%Z) ∧ moves io (elem_map b e (e_total e - count) k) io'.
Proof.
  intros He Hle Hmod Hreach. pose proof He as [Hc Hb Hs _]. unfold predefined_data. rewrite (proj2 (Nat.eqb_neq (e_blocklen e) 0)) by lia. cbn [negb].
  rewrite (proj2 (Nat.eqb_eq _ _) Hmod), (proj2 (Nat.leb_le _ _) Hle), cando_min by done. set (k := count `min` (room io / basic_size (e_type e))).
  assert (Hq : ∃ q, e_total e - count = q * e_blocklen e).
  { exists (e_count e - count / e_blocklen e). unfold e_total in *. apply Nat.Div0.div_exact in Hmod. rewrite Nat.mul_sub_distr_r. lia. }
  destruct Hq as [q Hq]. rewrite Hq in *. replace (basic_at b e (q * e_blocklen e) - e_disp e + e_disp e)%Z with (basic_at b e (q * e_blocklen e)) by lia.
  assert (Hkc : k ≤ count) by (unfold k; lia). assert (Hreach' : Forall (mapped io) (elem_map b e (q * e_blocklen e) k)).
  { replace count with (k + (count - k)) in Hreach by lia. rewrite elem_map_add in Hreach. by apply Forall_app in Hreach as [? _]. }
  assert (Hsp : k * basic_size (e_type e) ≤ room io) by (pose proof (Nat.div_mod_eq (room io) (basic_size (e_type e))); unfold k; nia).
  assert (Hone : e_count e = 1 → k ≤ e_blocklen e) by (unfold e_total in Hle; nia).
  assert (Hend : e_count e = 1 → k = e_blocklen e → ¬ k < count) by (unfold e_total in Hle; nia).
  destruct (memcpy_element_ok b e q k io He Hone Hreach' Hsp) as (a2 & io2 & Hslow & Hp2 & Ha2).
  assert (Hcase : (if (e_blocklen e <? 9) && negb accelerator then predefined_element (basic_at b e (q * e_blocklen e)) k e io else Some None) = Some None ∨
    ∃ a' io', (if (e_blocklen e <? 9) && negb accelerator then predefined_element (basic_at b e (q * e_blocklen e)) k e io else Some None) = Some (Some (a', io')) ∧
      moves io (elem_map b e (q * e_blocklen e) k) io' ∧ (e_count e = 1 ∧ k = e_blocklen e ∨ a' = basic_at b e (q * e_blocklen e + k))).
  { destruct (Nat.ltb_spec (e_blocklen e) 9), accelerator; cbn [andb negb]; [by left| |by left|by left]. by apply predefined_element_ok. }
  destruct Hcase as [->|(a' & io' & -> & Hp & Ha)]; cbn [mbind option_bind].
  - rewrite Hslow. cbn [mbind option_bind]. eexists k, _, io2. split_and!; [done|done| |done]. intros Hlt. destruct Ha2 as [[E1 E2]| ->]; [by destruct (Hend E1 E2)|done].
  - eexists k, _, io'. split_and!; [done|done| |done]. intros Hlt. destruct Ha as [[E1 E2]| ->]; [by destruct (Hend E1 E2)|done].
Qed.

(** The rest of a block. *)
Lemma block_position e count : 0 < e_blocklen e → count ≤ e_total e → count mod e_blocklen e ≠ 0 →
  ∃ q, e_total e - count = q * e_blocklen e + (e_blocklen e - count mod e_blocklen e).
Proof.
  intros Hb Hle Hl. exists (e_count e - count / e_blocklen e - 1). unfold e_total in *. pose proof (Nat.div_mod_eq count (e_blocklen e)) as Hd.
  pose proof (Nat.mod_upper_bound count (e_blocklen e)). set (d := count / e_blocklen e) in *. assert (Hd1 : d < e_count e) by nia.
  assert ((d + 1) * e_blocklen e ≤ e_count e * e_blocklen e) by (apply Nat.mul_le_mono_r; lia). rewrite !Nat.mul_sub_distr_r. lia.
Qed.

Lemma basic_at_in_block b e m k : 0 < e_blocklen e → m mod e_blocklen e + k ≤ e_blocklen e →
  basic_at b e (m + k) = (basic_at b e m + Z.of_nat (k * basic_size (e_type e)) +
    (if (m mod e_blocklen e + k =? e_blocklen e)%nat then e_extent e - Z.of_nat (e_blocklen e * basic_size (e_type e)) else 0))%Z.
Proof.
  intros Hb Hk. rewrite (Nat.div_mod_eq m (e_blocklen e)) at 1 2. rewrite (Nat.mul_comm _ (m / _)). set (q := m / e_blocklen e). set (r := m mod e_blocklen e) in *.
  assert (r < e_blocklen e) by (apply Nat.mod_upper_bound; lia). rewrite basic_at_block by done. destruct (Nat.eqb_spec (r + k) (e_blocklen e)) as [Heq|Hne].
  - replace (q * e_blocklen e + r + k) with ((q + 1) * e_blocklen e) by lia. rewrite basic_at_blocks by done.
    assert (r * basic_size (e_type e) + k * basic_size (e_type e) = e_blocklen e * basic_size (e_type e)) by (rewrite <-Heq; lia). lia.
  - rewrite <-Nat.add_assoc, basic_at_block by lia. lia.
Qed.

Lemma elem_map_split b e count k : k ≤ count ≤ e_total e →
  elem_map b e (e_total e - count) count = elem_map b e (e_total e - count) k ++ elem_map b e (e_total e - (count - k)) (count - k).
Proof. intros Hk. replace count with (k + (count - k)) at 2 by lia. rewrite elem_map_add. do 2 f_equal. lia. Qed.

Lemma partial_blocklen_ok e b count io : elem_ok e → 0 < count ≤ e_total e → Forall (mapped io) (elem_map b e (e_total e - count) count) →
  ∃ go k ptr io', partial_blocklen e count (basic_at b e (e_total e - count) - e_disp e)%Z io = Some (go, (count - k, ptr, io')) ∧
    k ≤ count ∧ moves io (elem_map b e (e_total e - count) k) io' ∧ ptr = (basic_at b e (e_total e - (count - k)) - e_disp e)%Z ∧
    if go : bool then (count - k) mod e_blocklen e = 0 else k < count ∧ room io' < basic_size (e_type e).
Proof.
  intros He Hc Hreach. pose proof He as [_ Hb Hs _]. unfold partial_blocklen. rewrite (proj2 (Nat.eqb_neq (e_blocklen e) 0)) by lia.
  cbn [negb]. destruct (Nat.eqb_spec (count mod e_blocklen e) 0) as [Hl|Hl].
  { eexists true, 0, _, io. rewrite Nat.sub_0_r. split_and!; [done|lia|apply moves_nil|done|done]. }
  rewrite cando_min by done. set (left := count mod e_blocklen e) in *. set (k := left `min` (room io / basic_size (e_type e))).
  assert (left < e_blocklen e) by (apply Nat.mod_upper_bound; lia). assert (Hlc : left ≤ count) by apply Nat.Div0.mod_le. destruct (block_position e count Hb ltac:(lia) Hl) as [q Hq]. fold left in Hq.
  assert (Hmod : (e_total e - count) mod e_blocklen e = e_blocklen e - left).
  { rewrite Hq, Nat.add_comm, Nat.Div0.mod_add. apply Nat.mod_small. lia. }
  assert (Hk : k ≤ left) by (unfold k; lia). assert (Hsp : k * basic_size (e_type e) ≤ room io) by (pose proof (Nat.div_mod_eq (room io) (basic_size (e_type e))); unfold k; nia).
  assert (Hmap : elem_map b e (e_total e - count) k = seqZ (basic_at b e (e_total e - count)) (Z.of_nat (k * basic_size (e_type e)))) by (apply elem_map_block; lia).
  replace (basic_at b e (e_total e - count) - e_disp e + e_disp e)%Z with (basic_at b e (e_total e - count)) by lia. rewrite (Nat.mul_comm _ k).
  destruct (put_moves (basic_at b e (e_total e - count)) (k * basic_size (e_type e)) io) as (io' & -> & Hp); [|done|].
  { rewrite <-Hmap. replace count with (k + (count - k)) in Hreach at 2 by lia. rewrite elem_map_add in Hreach. by apply Forall_app in Hreach as [? _]. }
  cbn [mbind option_bind]. eexists _, k, _, io'. rewrite Hmap. split_and!; [done|lia|done| |].
  - replace (e_total e - (count - k)) with (e_total e - count + k) by lia. rewrite basic_at_in_block by lia. rewrite Hmod.
    assert ((e_blocklen e - left + k =? e_blocklen e) = (k =? left)) as -> by (destruct (Nat.eqb_spec k left); [apply Nat.eqb_eq|apply Nat.eqb_neq]; lia). lia.
  - apply moves_room in Hp. rewrite length_seqZ in Hp. destruct (Nat.eqb_spec k left) as [->|Hne].
    + pose proof (Nat.div_mod_eq count (e_blocklen e)) as Hd. fold left in Hd. replace (count - left) with (count / e_blocklen e * e_blocklen e) by lia. apply Nat.Div0.mod_mul.
    + split; [lia|]. pose proof (Nat.div_mod_eq (room io) (basic_size (e_type e))). pose proof (Nat.mod_upper_bound (room io) (basic_size (e_type e))). unfold k in *. nia.
Qed.

Lemma contiguous_loop_ok n x c b body i count io :
  let el := mk_endloop i (length (items_map 0 body)) (hd 0%Z (items_map 0 body)) in
  contiguous_map (items_map 0 body) → Forall (mapped io) (loop_map b x 0 count body) →
  ∃ k io', k ≤ count ∧ contiguous_loop (mk_loop i n x c) el count b io = Some (count - k, (b + Z.of_nat k * x)%Z, io') ∧ moves io (loop_map b x 0 k body) io'.
Proof.
  intros el Hcont Hreach. unfold contiguous_loop. cbn [end_size first_elem_disp l_extent el]. set (size := length (items_map 0 body)).
  set (k := if room io <? count * size then room io / size else count).
  assert (Hk : k ≤ count ∧ k * size ≤ room io).
  { unfold k. destruct (Nat.ltb_spec (room io) (count * size)); [|lia]. destruct (decide (size = 0)) as [Hs0|Hs0]; [lia|]. pose proof (Nat.div_mod_eq (room io) size). nia. }
  assert (Hmap : ∀ k, loop_map b x 0 k body = flat_map (λ j, seqZ (b + hd 0%Z (items_map 0 body) + Z.of_nat j * x) (Z.of_nat size)) (seq 0 k)).
  { intros m. unfold loop_map. apply flat_map_ext'. intros j _. rewrite items_map_base. rewrite Hcont at 1. rewrite fmap_add_seqZ. f_equal. lia. }
  destruct (copy_blocks_ok k size x (b + hd 0%Z (items_map 0 body)) io) as (io' & -> & Hp); [|lia|].
  { rewrite <-Hmap. replace count with (k + (count - k)) in Hreach by lia. rewrite loop_map_add in Hreach. by apply Forall_app in Hreach as [? _]. }
  cbn [mbind option_bind]. exists k, io'. split_and!; [lia|do 3 f_equal; lia|by rewrite Hmap].
Qed.

End data.
End DtCopySpec.
