(* ===== verification/DtFuse.v ===== *)
(** * Fusing entries of data keeps the type map *)

From stdpp Require Import base numbers list gmap.
From S2P Require Import Prelude DtDesc DtWalk DtCopy DtMap DtWalkSpec DtCopySpec DtBuild DtOptimize.

Module DtFuse.
Import DtDesc DtMap DtCopySpec DtBuild DtOptimize.
Local Open Scope nat_scope.

Lemma u32_small n : (Z.of_nat n < 2 ^ 32)%Z → u32 n = n.
Proof. intros Hn. unfold u32. rewrite wrap_small by lia. apply Nat2Z.id. Qed.

Lemma u64_small n : (Z.of_nat n < 2 ^ 64)%Z → u64 n = n.
Proof. intros Hn. unfold u64. rewrite wrap_small by lia. apply Nat2Z.id. Qed.

(** ** Blocks *)

(** The addresses of [n] blocks of [m] bytes. *)
Definition blocks (a x : Z) (n m : nat) : list Z := flat_map (λ i, seqZ (a + Z.of_nat i * x) (Z.of_nat m)) (seq 0 n).

Lemma blocks_from a x n m k : flat_map (λ i, seqZ (a + Z.of_nat i * x) (Z.of_nat m)) (seq k n) = blocks (a + Z.of_nat k * x) x n m.
Proof.
  unfold blocks. rewrite <-(Nat.add_0_l k) at 1. generalize 0. induction n as [|n IH]; intros j; [done|]. cbn [seq flat_map]. f_equal; [f_equal; lia|apply (IH (S j))].
Qed.

Lemma blocks_add a x n1 n2 m : blocks a x (n1 + n2) m = blocks a x n1 m ++ blocks (a + Z.of_nat n1 * x) x n2 m.
Proof. unfold blocks at 1. by rewrite seq_app, flat_map_app, (blocks_from a x n2 m (0 + n1)). Qed.

Lemma blocks_1 a x m : blocks a x 1 m = seqZ a (Z.of_nat m).
Proof. unfold blocks. cbn [seq flat_map]. rewrite app_nil_r. f_equal. lia. Qed.

Lemma blocks_S a x n m : blocks a x (S n) m = seqZ a (Z.of_nat m) ++ blocks (a + x) x n m.
Proof. rewrite <-Nat.add_1_l, blocks_add, blocks_1. do 2 f_equal. lia. Qed.

Lemma blocks_contiguous a n m : blocks a (Z.of_nat m) n m = seqZ a (Z.of_nat (n * m)).
Proof.
  revert a; induction n as [|n IH]; intros a; [done|]. rewrite blocks_S, IH. replace (S n * m) with (m + n * m) by lia. by rewrite seqZ_app.
Qed.

Lemma blocks_length a x n m : length (blocks a x n m) = n * m.
Proof. revert a; induction n as [|n IH]; intros a; [done|]. rewrite blocks_S, length_app, length_seqZ, IH. lia. Qed.

(** The extent does not matter for a single block. *)
Lemma blocks_one a x y n m : n = 1 → blocks a x n m = blocks a y n m.
Proof. intros ->. by rewrite !blocks_1. Qed.

Section fuse.
Context `{AbiLaws}.

(** Types that are allowed, and whether entries have to be aligned. *)
Context (Q : nat → Prop) (A : Prop) (HQ : Q OPAL_DATATYPE_UINT1).

Definition emap (e : ddt_elem_desc_t) : list Z := blocks (e_disp e) (e_extent e) (e_count e) (block_bytes e).

Lemma item_map_emap e b : 0 < e_blocklen e → item_map b (Data e) = blocks (b + e_disp e) (e_extent e) (e_count e) (block_bytes e).
Proof.
  intros Hb. cbn [item_map]. unfold e_total. pose proof (elem_map_blocks b e 0 (e_count e) Hb) as E. rewrite Nat.mul_0_l in E. rewrite E. unfold blocks, block_bytes.
  apply flat_map_ext'. intros i _. f_equal. unfold basic_at. rewrite Nat.Div0.div_0_l, Nat.Div0.mod_0_l. lia.
Qed.

(** Displacement and extent are multiples of the size of the type. *)
Definition aligned (e : ddt_elem_desc_t) : Prop :=
  (Z.of_nat (basic_size (e_type e)) | e_disp e)%Z ∧ (e_count e ≠ 1 → (Z.of_nat (basic_size (e_type e)) | e_extent e)%Z).

Record entry_ok (e : ddt_elem_desc_t) : Prop := {
  en_count : 0 < e_count e;
  en_blocklen : 0 < e_blocklen e;
  en_size : 0 < basic_size (e_type e);
  en_type : Q (e_type e);
  en_aligned : A → aligned e;
}.

(** Blocks without gaps. *)
Definition tight (e : ddt_elem_desc_t) : Prop := e_extent e = Z.of_nat (block_bytes e).

Lemma block_bytes_pos e : entry_ok e → 0 < block_bytes e.
Proof. intros [_ Hb Hs _ _]. unfold block_bytes. nia. Qed.

Lemma collapse_map e : emap (collapse e) = emap e.
Proof.
  unfold collapse. destruct (Z.eqb_spec (e_extent e) (Z.of_nat (block_bytes e))) as [E|E]; [|done]. unfold emap. cbn [e_disp e_extent e_count]. rewrite blocks_1, E, blocks_contiguous. unfold block_bytes. cbn [e_blocklen e_type]. do 2 f_equal. lia.
Qed.

Lemma collapse_ok e : entry_ok e → entry_ok (collapse e).
Proof.
  intros [Hc Hb Hs Ht Ha]. unfold collapse. destruct (_ =? _)%Z; split; cbn; try done; [lia|nia|]. intros HA. split; [by apply Ha|done].
Qed.

Lemma collapse_tight e : tight e → e_count (collapse e) = 1 ∧ tight (collapse e).
Proof. unfold tight. intros E. unfold collapse. rewrite E, Z.eqb_refl. cbn. split; [done|]. unfold block_bytes. cbn. lia. Qed.

Lemma collapse_not_tight e : ¬ tight e → collapse e = e.
Proof. intros E. unfold collapse. by rewrite (proj2 (Z.eqb_neq _ _) E). Qed.

Lemma collapse_count e : entry_ok e → e_count (collapse e) ≤ e_count e.
Proof. intros [Hc _ _ _ _]. unfold collapse. destruct (_ =? _)%Z; cbn; lia. Qed.

Lemma collapse_disp e : e_disp (collapse e) = e_disp e.
Proof. unfold collapse. by destruct (_ =? _)%Z. Qed.

(** ** Merging *)

Lemma as_bytes_map e : emap (as_bytes e) = emap e.
Proof. unfold emap, as_bytes, block_bytes. cbn [e_disp e_extent e_count e_blocklen e_type]. by rewrite uint1_size, Nat.mul_1_r. Qed.

Lemma as_bytes_ok e : entry_ok e → entry_ok (as_bytes e).
Proof.
  intros He. pose proof (block_bytes_pos e He). destruct He as [Hc Hb Hs Ht Ha]. split; cbn; [done|done|rewrite uint1_size; lia|done|].
  intros _. split; cbn; rewrite uint1_size; [|intros _]; apply Z.divide_1_l.
Qed.

Lemma as_bytes_block e : block_bytes (as_bytes e) = block_bytes e.
Proof. unfold block_bytes, as_bytes. cbn [e_blocklen e_type]. by rewrite uint1_size, Nat.mul_1_r. Qed.

(** Two entries that are merged have the same type and the same size of blocks. *)
Lemma merge_blocks_ok last current e : entry_ok last → entry_ok current → block_bytes last = block_bytes current → (e_type last = e_type current ∨ e_type last = OPAL_DATATYPE_UINT1) →
  (Z.of_nat (e_count last + e_count current) < 2 ^ 32)%Z → merge_blocks last current = Some e →
  emap e = emap last ++ emap current ∧ entry_ok e ∧ e_count e = e_count last + e_count current.
Proof.
  intros Hl Hc Hbb Hty H32 He. unfold emap. rewrite <-Hbb.
  assert (Hgen : ∀ n x, n = e_count last + e_count current → (e_count last ≠ 1 → x = e_extent last) → (e_count current ≠ 1 → x = e_extent current) →
    (e_disp last + Z.of_nat (e_count last) * x = e_disp current)%Z → e = with_blocks last n x →
    emap e = emap last ++ emap current ∧ entry_ok e ∧ e_count e = e_count last + e_count current).
  { intros n x -> Hx1 Hx2 Hd ->. split_and!; [| |done].
    - unfold emap. change (block_bytes (with_blocks _ _ _)) with (block_bytes last). cbn [with_blocks e_disp e_extent e_count]. rewrite blocks_add, Hd, <-Hbb. f_equal.
      + destruct (decide (e_count last = 1)) as [E|E]; [by apply blocks_one|by rewrite Hx1].
      + destruct (decide (e_count current = 1)) as [E|E]; [by apply blocks_one|by rewrite Hx2].
    - destruct Hl as [Hl1 Hl2 Hl3 Hl4 Hl5], Hc as [Hc1 Hc2 Hc3 Hc4 Hc5]. split; cbn; [lia|done|done|done|]. intros HA. destruct (Hl5 HA) as [Ha1 Ha2], (Hc5 HA) as [Hb1 Hb2].
      split; cbn; [done|]. intros _. destruct (decide (e_count last = 1)) as [E|E]; [|rewrite Hx1 by done; auto].
      replace x with (e_disp current - e_disp last)%Z by lia. apply Z.divide_sub_r; [|done]. destruct Hty as [->| ->]; [done|]. rewrite uint1_size. apply Z.divide_1_l. }
  unfold emap in Hgen. rewrite <-Hbb in Hgen. pose proof (en_count _ Hl). pose proof (en_count _ Hc). revert He. unfold merge_blocks. rewrite !u32_small by lia.
  destruct (Z.eqb_spec (e_extent last * Z.of_nat (e_count last) + e_disp last) (e_disp current)) as [Ed|Ed], (Nat.eqb_spec (e_count current) 1) as [E1|E1], (Z.eqb_spec (e_extent last) (e_extent current)) as [Ex|Ex],
    (Nat.eqb_spec (e_count last) 1) as [E2|E2], (Z.eqb_spec (e_disp last + e_extent current) (e_disp current)) as [Ey|Ey]; cbn [andb]; intros [= <-];
    (eapply Hgen; [| | | |reflexivity]; [lia| | |]); try done; try lia; rewrite ?E2; lia.
Qed.

(** ** Joining *)

(** The two blocks at the joint. *)
Definition joint (last current : ddt_elem_desc_t) : ddt_elem_desc_t :=
  if e_type last =? e_type current then mk_elem (e_type last) (e_count last) (e_blocklen last + e_blocklen current) (e_extent last + e_extent current) (e_disp last)
  else mk_elem OPAL_DATATYPE_UINT1 (e_count last) (block_bytes last + block_bytes current) (e_extent last + e_extent current) (e_disp last).

Lemma joint_bytes last current : block_bytes (joint last current) = block_bytes last + block_bytes current.
Proof.
  unfold joint. destruct (Nat.eqb_spec (e_type last) (e_type current)) as [E|E]; unfold block_bytes at 1; cbn [e_blocklen e_type].
  - unfold block_bytes. rewrite <-E. lia.
  - rewrite uint1_size. lia.
Qed.

Lemma joint_ok last current : entry_ok last → entry_ok current → e_count last = 1 → entry_ok (joint last current) ∧ e_count (joint last current) = 1.
Proof.
  intros Hl Hc E. pose proof (block_bytes_pos _ Hl). destruct Hl as [Hl1 Hl2 Hl3 Hl4 Hl5]. unfold joint. destruct (_ =? _); (split; [|done]); split; cbn; try done; try lia.
  - intros HA. split; [by apply Hl5|done].
  - rewrite uint1_size. lia.
  - intros _. split; cbn; rewrite uint1_size; [|intros _]; apply Z.divide_1_l.
Qed.

Lemma joint_map last current : e_count last = 1 → (e_disp last + Z.of_nat (block_bytes last) = e_disp current)%Z →
  emap (joint last current) = emap last ++ seqZ (e_disp current) (Z.of_nat (block_bytes current)).
Proof.
  intros E Hd. unfold emap. rewrite joint_bytes. assert (e_count (joint last current) = 1 ∧ e_disp (joint last current) = e_disp last) as [-> ->] by (unfold joint; by destruct (_ =? _)).
  by rewrite E, !blocks_1, seqZ_app, Hd.
Qed.

(** The blocks before the last one, and the last one. *)
Definition but_last (e : ddt_elem_desc_t) : list ddt_elem_desc_t := if e_count e =? 1 then [] else [with_blocks e (e_count e - 1) (e_extent e)].
Definition last_block (e : ddt_elem_desc_t) : ddt_elem_desc_t :=
  if e_count e =? 1 then e else mk_elem (e_type e) 1 (e_blocklen e) (e_extent e) (e_disp e + (Z.of_nat (e_count e) - 1) * e_extent e).

Lemma split_last e : entry_ok e → emap e = concat (emap <$> but_last e) ++ emap (last_block e) ∧ Forall entry_ok (but_last e) ∧ entry_ok (last_block e) ∧
  e_count (last_block e) = 1 ∧ sum_list (e_count <$> but_last e) = e_count e - 1 ∧ length (but_last e) ≤ 1 ∧
  e_disp (last_block e) = (e_disp e + (Z.of_nat (e_count e) - 1) * e_extent e)%Z ∧ block_bytes (last_block e) = block_bytes e ∧ e_type (last_block e) = e_type e ∧ e_blocklen (last_block e) = e_blocklen e ∧ e_extent (last_block e) = e_extent e.
Proof.
  intros He. pose proof He as [H1 H2 H3 H4 H5]. unfold but_last, last_block. destruct (Nat.eqb_spec (e_count e) 1) as [E|E].
  - split_and!; try done; cbn; lia.
  - split_and!; try done; try (cbn; lia).
    + unfold emap. cbn [fmap list_fmap concat with_blocks e_disp e_extent e_count]. rewrite app_nil_r. change (block_bytes (with_blocks _ _ _)) with (block_bytes e). change (block_bytes (mk_elem _ _ _ _ _)) with (block_bytes e).
      replace (e_count e) with (e_count e - 1 + 1) at 1 by lia. rewrite blocks_add. do 2 f_equal. lia.
    + constructor; [|done]. split; cbn; try done; [lia|]. intros HA. split; cbn; [by apply H5|]. intros _. by apply H5.
    + split; cbn; try done; [lia|]. intros HA. split; cbn; [|done]. destruct (H5 HA) as [Ha Hx]. apply Z.divide_add_r; [done|]. apply Z.divide_mul_r. auto.
Qed.

(** The blocks after the first one. *)
Lemma split_first e : entry_ok e → e_count e ≠ 1 → let rest := mk_elem (e_type e) (e_count e - 1) (e_blocklen e) (e_extent e) (e_disp e + e_extent e) in
  emap e = seqZ (e_disp e) (Z.of_nat (block_bytes e)) ++ emap rest ∧ entry_ok rest.
Proof.
  intros [H1 H2 H3 H4 H5] Hc rest. split.
  - unfold emap. change (block_bytes rest) with (block_bytes e). cbn [rest e_disp e_extent e_count]. replace (e_count e) with (S (e_count e - 1)) at 1 by lia. apply blocks_S.
  - split; cbn; try done; [lia|]. intros HA. destruct (H5 HA) as [Ha Hx]. split; cbn; [|by auto]. apply Z.divide_add_r; auto.
Qed.

Lemma join_blocks_eq last current : join_blocks last current =
  if e_count current =? 1 then (but_last last, joint (last_block last) current)
  else (but_last last ++ [joint (last_block last) current], mk_elem (e_type current) (e_count current - 1) (e_blocklen current) (e_extent current) (e_disp current + e_extent current)).
Proof. unfold join_blocks, but_last, last_block, joint. by destruct (e_count last =? 1). Qed.

Lemma join_blocks_ok last current out last' : entry_ok last → entry_ok current →
  (e_disp last + (Z.of_nat (e_count last) - 1) * e_extent last + Z.of_nat (block_bytes last) = e_disp current)%Z → join_blocks last current = (out, last') →
  emap last ++ emap current = concat (emap <$> out) ++ emap last' ∧ Forall entry_ok out ∧ entry_ok last' ∧ sum_list (e_count <$> out) + e_count last' ≤ e_count last + e_count current ∧ length out ≤ 2.
Proof.
  intros Hl Hc Hd Hj. rewrite join_blocks_eq in Hj. destruct (split_last last Hl) as (Hm & Hbl & Hlb & H1 & Hsum & Hlen & Hdisp & Hbb & _). pose proof (en_count _ Hl). pose proof (en_count _ Hc).
  destruct (joint_ok (last_block last) current Hlb Hc H1) as [Hjo Hj1]. assert (Hjm := joint_map (last_block last) current H1 ltac:(rewrite Hdisp, Hbb; lia)).
  destruct (Nat.eqb_spec (e_count current) 1) as [E|E]; injection Hj as <- <-.
  - split_and!; [|done|done|lia|lia]. rewrite Hm, Hjm, <-!app_assoc. do 2 f_equal. unfold emap. by rewrite E, blocks_1.
  - destruct (split_first current Hc E) as [Hcm Hrest]. split_and!; [|by apply Forall_app; split; [|by constructor]|done| |].
    + rewrite fmap_app, concat_app. cbn [fmap list_fmap concat]. rewrite app_nil_r, Hm, Hjm, Hcm, <-!app_assoc. done.
    + rewrite fmap_app, sum_list_with_app. cbn. lia.
    + rewrite length_app. cbn. lia.
Qed.

(** ** Fusing *)

(** The entry that is pending: none, or a good one. *)
Definition pending_map (e : ddt_elem_desc_t) : list Z := if e_count e =? 0 then [] else emap e.
Definition pending_ok (e : ddt_elem_desc_t) : Prop := e_count e = 0 ∨ entry_ok e.
Definition pending_length (e : ddt_elem_desc_t) : nat := if e_count e =? 0 then 0 else 1.

Lemma fuse_ok last current out last' r : pending_ok last → entry_ok current → (Z.of_nat (e_count last + e_count current) < 2 ^ 32)%Z → fuse last current = (out, last', r) →
  pending_map last ++ emap current = concat (emap <$> out) ++ emap last' ∧ Forall entry_ok out ∧ entry_ok last' ∧
  sum_list (e_count <$> out) + e_count last' ≤ e_count last + e_count current ∧ length out ≤ 2 * pending_length last.
Proof.
  intros Hl Hc H32 Hf. unfold fuse in Hf. unfold pending_map, pending_length. destruct (Nat.eqb_spec (e_count last) 0) as [E|E].
  { injection Hf as <- <- <-. split_and!; [done|done|done|cbn; lia|cbn; lia]. }
  destruct Hl as [|Hl]; [done|]. rewrite <-(collapse_map last). pose proof (collapse_count last Hl). apply collapse_ok in Hl. set (l := collapse last) in *. clearbody l.
  assert (Hrest : ∀ r', (if (e_disp l + (Z.of_nat (e_count l) - 1) * e_extent l + Z.of_nat (block_bytes l) =? e_disp current)%Z then
      let '(out, last') := join_blocks l current in (out, last', r' || negb (e_type l =? e_type current)) else ([l], current, r')) = (out, last', r) →
    emap l ++ emap current = concat (emap <$> out) ++ emap last' ∧ Forall entry_ok out ∧ entry_ok last' ∧ sum_list (e_count <$> out) + e_count last' ≤ e_count last + e_count current ∧ length out ≤ 2).
  { intros r' Hr. destruct (Z.eqb_spec (e_disp l + (Z.of_nat (e_count l) - 1) * e_extent l + Z.of_nat (block_bytes l)) (e_disp current)) as [Ed|Ed].
    - destruct (join_blocks l current) as [o k] eqn:Hj. injection Hr as <- <- _. destruct (join_blocks_ok l current o k Hl Hc Ed Hj) as (? & ? & ? & ? & ?). split_and!; try done; lia.
    - injection Hr as <- <- _. split_and!; [cbn; by rewrite app_nil_r|by constructor|done|cbn; lia|cbn; lia]. }
  destruct (Nat.eqb_spec (block_bytes l) (block_bytes current)) as [Eb|Eb]; [|by apply (Hrest _ Hf)].
  destruct (merge_blocks _ current) as [e|] eqn:Hm; [|by apply (Hrest _ Hf)]. injection Hf as <- <- _.
  set (l' := if e_type l =? e_type current then l else as_bytes l) in *. assert (Hl' : entry_ok l' ∧ block_bytes l' = block_bytes current ∧ (e_type l' = e_type current ∨ e_type l' = OPAL_DATATYPE_UINT1) ∧ e_count l' = e_count l ∧ emap l' = emap l).
  { unfold l'. destruct (Nat.eqb_spec (e_type l) (e_type current)); [split_and!; auto|]. rewrite as_bytes_block, as_bytes_map. split_and!; auto using as_bytes_ok. }
  destruct Hl' as (Hok & Hbb & Hty & Hcl & Hml). destruct (merge_blocks_ok l' current e Hok Hc Hbb Hty ltac:(lia) Hm) as (He & Heok & Hec). split_and!; [cbn; by rewrite He, Hml|done|done|cbn; lia|cbn; lia].
Qed.

(** Contiguous entries become one. *)
Lemma fuse_tight last current out last' r : e_count last ≠ 0 → entry_ok last → entry_ok current → tight last → tight current → e_count current = 1 →
  (Z.of_nat (e_count last + e_count current) < 2 ^ 32)%Z → (e_disp last + Z.of_nat (e_count last * block_bytes last) = e_disp current)%Z → fuse last current = (out, last', r) →
  out = [] ∧ tight last'.
Proof.
  intros Hn Hl Hc Ht Htc H1 H32 Hd Hf. unfold fuse in Hf. rewrite (proj2 (Nat.eqb_neq _ _) Hn) in Hf. destruct (collapse_tight last Ht) as [Hk1 Hkt].
  assert (Hd' : (e_disp (collapse last) + Z.of_nat (block_bytes (collapse last)) = e_disp current)%Z).
  { rewrite collapse_disp, <-Hd. unfold collapse. rewrite Ht, Z.eqb_refl. unfold block_bytes. cbn. lia. }
  apply collapse_ok in Hl. set (l := collapse last) in *. clearbody l. unfold tight in Hkt, Htc.
  assert (Hrest : ∀ r', (if (e_disp l + (Z.of_nat (e_count l) - 1) * e_extent l + Z.of_nat (block_bytes l) =? e_disp current)%Z then
      let '(out, last') := join_blocks l current in (out, last', r' || negb (e_type l =? e_type current)) else ([l], current, r')) = (out, last', r) → out = [] ∧ tight last').
  { intros r'. rewrite Hk1, (proj2 (Z.eqb_eq _ _)) by lia. rewrite join_blocks_eq, (proj2 (Nat.eqb_eq _ _) H1). unfold but_last, last_block. rewrite Hk1. cbn [Nat.eqb]. intros [= <- <- _]. split; [done|].
    unfold tight. rewrite joint_bytes. unfold joint. destruct (e_type l =? e_type current); cbn [e_extent]; lia. }
  destruct (Nat.eqb_spec (block_bytes l) (block_bytes current)) as [Eb|Eb]; [|by apply (Hrest _ Hf)].
  destruct (merge_blocks _ current) as [e|] eqn:Hm; [|by apply (Hrest _ Hf)]. injection Hf as <- <- _. split; [done|].
  set (l' := if e_type l =? e_type current then l else as_bytes l) in *. assert (Hl' : block_bytes l' = block_bytes l ∧ e_count l' = 1 ∧ e_extent l' = e_extent l ∧ e_disp l' = e_disp l).
  { unfold l'. destruct (_ =? _); [done|]. by rewrite as_bytes_block. }
  destruct Hl' as (Hbb & Hcl & Hxl & Hdl). unfold merge_blocks in Hm. rewrite Hcl, Hxl, Hdl, H1 in Hm. rewrite (proj2 (Z.eqb_eq _ _)) in Hm by lia. injection Hm as <-.
  unfold tight. change (block_bytes (with_blocks _ _ _)) with (block_bytes l'). cbn. lia.
Qed.

End fuse.
End DtFuse.
