(* ===== verification/DtOptSpec.v ===== *)
(** * The optimizer keeps the type map

    The loop over the entries is followed on the trees that the description is the
    flattening of: at every point the trees of what is written, with the pending entry,
    have the type map of what is read. *)

From stdpp Require Import base numbers list gmap.
From S2P Require Import Prelude DtDesc DtWalk DtCopy DtMap DtWalkSpec DtCopySpec DtBuild DtOptimize DtFuse.

Module DtOptSpec.
Import DtDesc DtMap DtWalkSpec DtCopySpec DtBuild DtOptimize DtFuse.
Local Open Scope nat_scope.

(** The number of blocks and loops of a description. *)
Fixpoint item_blocks (i : item) : nat :=
  match i with Data e => e_count e | Rep n _ _ body => n + foldr (λ i w, item_blocks i + w) 0 body end.
Definition block_count (its : list item) : nat := foldr (λ i w, item_blocks i + w) 0 its.

(** Entries that are data, or contiguous loops. *)
Definition is_data (i : item) : Prop := match i with Data _ => True | Rep _ _ _ _ => False end.
Definition solid_item (i : item) : Prop := match i with Data _ => True | Rep _ _ c _ => c = true end.

Section optimize.
Context `{AbiLaws} (Q : nat → Prop) (A : Prop) (HQ : Q OPAL_DATATYPE_UINT1) (debug : bool).

(** What descriptions are made of: an entry with one block has no gap behind it, loops
    have at least two rounds, and the flag of a loop is right.  If entries are to be
    aligned, so are the extents of loops.  With assertions the
    bodies of contiguous loops have no loops. *)
Inductive src_ok : item → Prop :=
| src_data e : entry_ok Q A e → (e_count e = 1 ↔ tight e) → src_ok (Data e)
| src_rep n x c body : 2 ≤ n → body ≠ [] → Forall src_ok body → (A → ∀ e, Elem e ∈ flatten body → (Z.of_nat (basic_size (e_type e)) | x)%Z) →
    (c = true → contiguous_map (items_map 0 body) ∧ (debug = true → Forall is_data body)) → src_ok (Rep n x c body).

Inductive out_ok : item → Prop :=
| out_data e : entry_ok Q A e → out_ok (Data e)
| out_rep n x body : 0 < n → body ≠ [] → Forall out_ok body → out_ok (Rep n x false body).

(** ** Type maps of entries *)

Lemma items_map_app b l1 l2 : items_map b (l1 ++ l2) = items_map b l1 ++ items_map b l2.
Proof. apply flat_map_app. Qed.

Lemma flatten_app l1 l2 : flatten (l1 ++ l2) = flatten l1 ++ flatten l2.
Proof. apply flat_map_app. Qed.

Lemma work_app l1 l2 : work (l1 ++ l2) = work l1 + work l2.
Proof. unfold work. induction l1 as [|i l1 IH]; [done|]. cbn. lia. Qed.

Lemma depth_app l1 l2 : depth (l1 ++ l2) = depth l1 `max` depth l2.
Proof. unfold depth. induction l1 as [|i l1 IH]; [done|]. cbn. lia. Qed.

Lemma block_count_app l1 l2 : block_count (l1 ++ l2) = block_count l1 + block_count l2.
Proof. unfold block_count. induction l1 as [|i l1 IH]; [done|]. cbn. lia. Qed.

Lemma item_map_data e : entry_ok Q A e → item_map 0 (Data e) = emap e.
Proof. intros He. apply item_map_emap. by apply He. Qed.

(** Entries that are written. *)
Definition written (es : list ddt_elem_desc_t) : list item := (λ e, Data (collapse e)) <$> es.

Lemma written_map es : Forall (entry_ok Q A) es → items_map 0 (written es) = concat (emap <$> es).
Proof.
  induction 1 as [|e es He _ IH]; [done|]. unfold written. rewrite fmap_cons, items_map_cons. unfold written in IH. rewrite IH, item_map_data, collapse_map by (by apply collapse_ok). done.
Qed.

Lemma written_flatten es : flatten (written es) = CREATE_ELEM <$> es.
Proof. induction es as [|e es IH]; [done|]. cbn [fmap list_fmap written]. cbn. by rewrite <-IH. Qed.

Lemma written_ok es : Forall (entry_ok Q A) es → Forall out_ok (written es).
Proof. intros Hes. apply Forall_fmap. eapply Forall_impl; [exact Hes|]. intros e He. by apply out_data, collapse_ok. Qed.

Lemma written_work es : work (written es) = length es ∧ depth (written es) = 0.
Proof. induction es as [|e es [IH1 IH2]]; [done|]. split; [cbn; by rewrite <-IH1|exact IH2]. Qed.

Lemma out_map_nil i : out_ok i → item_map 0 i ≠ [].
Proof.
  induction i as [e|n x c body IH] using item_rect'; inversion 1 as [e' He|n' x' body' Hn Hb Hf]; subst.
  - intros E%(f_equal length). rewrite item_map_data in E by done. unfold emap in E. rewrite blocks_length in E. pose proof (block_bytes_pos _ _ _ He). pose proof (en_count _ _ _ He). cbn in E. nia.
  - intros E%(f_equal length). rewrite item_map_rep, loop_map_length in E. destruct body as [|i body]; [done|]. apply Forall_cons in IH as [IH _], Hf as [Hi _]. specialize (IH Hi).
    rewrite items_map_cons, length_app in E. destruct (item_map 0 i); [done|]. cbn in E. nia.
Qed.

Lemma src_map_nil i : src_ok i → item_map 0 i ≠ [].
Proof.
  induction i as [e|n x c body IH] using item_rect'; inversion 1 as [e' He|n' x' c' body' Hn Hb Hf Hal Hc]; subst.
  - intros E%(f_equal length). rewrite item_map_data in E by done. unfold emap in E. rewrite blocks_length in E. pose proof (block_bytes_pos _ _ _ He). pose proof (en_count _ _ _ He). cbn in E. nia.
  - intros E%(f_equal length). rewrite item_map_rep, loop_map_length in E. destruct body as [|i body]; [done|]. apply Forall_cons in IH as [IH _], Hf as [Hi _]. specialize (IH Hi).
    rewrite items_map_cons, length_app in E. destruct (item_map 0 i); [done|]. cbn in E. nia.
Qed.

(** ** Contiguous maps *)

Lemma contiguous_seqZ a n : contiguous_map (seqZ a (Z.of_nat n)).
Proof. unfold contiguous_map. rewrite length_seqZ, Nat2Z.id. destruct n as [|n]; [done|]. f_equal. by rewrite seqZ_cons by lia. Qed.

Lemma contiguous_app l1 l2 : contiguous_map (l1 ++ l2) → contiguous_map l1 ∧ contiguous_map l2 ∧ (l1 ≠ [] → l2 ≠ [] → hd 0%Z l2 = (hd 0%Z l1 + Z.of_nat (length l1))%Z).
Proof.
  intros Hc. unfold contiguous_map in Hc. rewrite length_app, seqZ_app in Hc. apply app_inj_1 in Hc as [H1 H2]; [|by rewrite length_seqZ, Nat2Z.id].
  split_and!; [rewrite H1; apply contiguous_seqZ|rewrite H2; apply contiguous_seqZ|]. intros Hn1 Hn2. destruct l1 as [|a l1]; [done|]. destruct l2 as [|b l2]; [done|]. cbn [hd app] in *.
  rewrite seqZ_cons in H2 by (cbn; lia). injection H2 as E _. rewrite E. cbn. lia.
Qed.

Lemma contiguous_infix l1 l2 l3 : contiguous_map (l1 ++ l2 ++ l3) → contiguous_map l2.
Proof. intros (_ & Hc & _)%contiguous_app. by apply contiguous_app in Hc as [? _]. Qed.

Lemma hd_app (l1 l2 : list Z) : l1 ≠ [] → hd 0%Z (l1 ++ l2) = hd 0%Z l1.
Proof. by destruct l1. Qed.

Lemma hd_emap e l : entry_ok Q A e → hd 0%Z (emap e ++ l) = e_disp e.
Proof.
  intros He. pose proof (block_bytes_pos _ _ _ He). pose proof (en_count _ _ _ He). unfold emap. destruct (e_count e) as [|n]; [lia|]. rewrite blocks_S, seqZ_cons by lia. done.
Qed.

Lemma blocks_tight a x n m : contiguous_map (blocks a x n m) → 2 ≤ n → 0 < m → x = Z.of_nat m.
Proof.
  intros Hc Hn Hm. destruct n as [|[|n]]; [lia|lia|]. rewrite !blocks_S in Hc. apply contiguous_app in Hc as (_ & _ & Hd). rewrite length_seqZ, Nat2Z.id in Hd.
  rewrite (seqZ_cons a), (seqZ_cons (a + x)) in Hd by lia. specialize (Hd ltac:(done) ltac:(done)). cbn in Hd. lia.
Qed.

(** A contiguous entry has one block. *)
Lemma contiguous_single e : entry_ok Q A e → (e_count e = 1 ↔ tight e) → contiguous_map (emap e) → e_count e = 1.
Proof.
  intros He Hcan Hc. destruct (decide (e_count e = 1)) as [|Hn]; [done|]. apply Hcan. pose proof (en_count _ _ _ He). apply blocks_tight in Hc; [done|lia|by eapply block_bytes_pos].
Qed.

(** ** The first entry of data *)

Lemma flatten_rep_cons n x c body its : ∃ l el, flatten (Rep n x c body :: its) = Loop l :: (flatten body ++ [EndLoop el]) ++ flatten its.
Proof. by do 2 eexists. Qed.

Lemma first_data its post : Forall src_ok its → its ≠ [] → ∃ i e, GET_FIRST_NON_LOOP (flatten its ++ post) = Some i ∧ flatten its !! i = Some (Elem e) ∧
  e_disp e = hd 0%Z (items_map 0 its) ∧ entry_ok Q A e ∧ Forall (λ x, ∃ l, x = Loop l) (take i (flatten its)).
Proof.
  destruct its as [|i its]; [done|]. intros [Hi _]%Forall_cons _. revert its post. induction i as [e|n x c body IH] using item_rect'; intros its post; inversion Hi as [e' He Hcan|n' x' c' body' Hn Hb Hf Hal Hc]; subst.
  - exists 0, e. split_and!; [done|done| |done|by constructor]. rewrite items_map_cons, item_map_data by done. by rewrite hd_emap.
  - destruct body as [|i body]; [done|]. apply Forall_cons in IH as [IH _]. pose proof Hf as [Hi' _]%Forall_cons.
    destruct (flatten_rep_cons n x c (i :: body) its) as (lp & el & ->).
    destruct (IH Hi' body (EndLoop el :: flatten its ++ post)) as (k & e & Hg & Hl & Hd & He & Ht). remember (flatten (i :: body)) as code eqn:Hcode.
    exists (S k), e. rewrite <-app_assoc. cbn [app GET_FIRST_NON_LOOP take]. rewrite <-app_assoc. cbn [app]. rewrite Hg. pose proof (lookup_lt_Some _ _ _ Hl). split_and!; [done| | |done|].
    + change (Loop lp :: code ++ EndLoop el :: flatten its) with ([Loop lp] ++ code ++ EndLoop el :: flatten its). rewrite lookup_app_r, lookup_app_l by (cbn; lia). rewrite <-Hl. f_equal. cbn. lia.
    + rewrite Hd, (items_map_cons 0 (Rep n x c (i :: body))), item_map_rep. destruct n as [|n]; [lia|]. rewrite loop_map_S, Z.mul_0_l, Z.add_0_r, <-app_assoc, hd_app; [done|].
      rewrite items_map_cons. intros [E _]%app_eq_nil. by apply (src_map_nil i).
    + constructor; [by eexists|]. by rewrite take_app_le by lia.
Qed.

(** ** Contiguous loops *)

(** Every loop that starts ends. *)
Definition balance (l : list dt_elem_desc) : Z := foldr (λ x b, (match x with Loop _ => 1 | EndLoop _ => -1 | Elem _ => 0 end + b)%Z) 0%Z l.

Lemma balance_app l1 l2 : balance (l1 ++ l2) = (balance l1 + balance l2)%Z.
Proof. unfold balance. induction l1 as [|x l1 IH]; [done|]. cbn. lia. Qed.

Lemma balance_flatten its : balance (flatten its) = 0%Z.
Proof.
  assert (Hi : ∀ i, balance (flatten_item i) = 0%Z).
  { induction i as [e|n x c body IH] using item_rect'; [done|]. rewrite flatten_rep. cbn [balance foldr]. change (foldr _ _ ?l) with (balance l). rewrite balance_app.
    assert (balance (flatten body) = 0%Z) as ->; [|done]. clear -IH. induction IH as [|i body Hi _ IH]; [done|]. change (flatten (i :: body)) with (flatten_item i ++ flatten body). rewrite balance_app. lia. }
  induction its as [|i its IH]; [done|]. change (flatten (i :: its)) with (flatten_item i ++ flatten its). rewrite balance_app, Hi. lia.
Qed.

Lemma balance_loops l : Forall (λ x, ∃ l, x = Loop l) l → balance l = Z.of_nat (length l).
Proof. induction 1 as [|x l [lp ->] _ IH]; [done|]. unfold balance in *. cbn. rewrite IH. lia. Qed.

Lemma balance_data es : balance (Elem <$> es) = 0%Z.
Proof. by induction es. Qed.

Lemma flatten_data its es : flatten its = Elem <$> es → its = Data <$> es.
Proof.
  revert es; induction its as [|i its IH]; intros es; [by destruct es|]. change (flatten (i :: its)) with (flatten_item i ++ flatten its). destruct i as [e|n x c body]; [|by destruct es].
  destruct es as [|e' es]; [done|]. cbn. intros [= -> E]. by rewrite (IH es E).
Qed.

Lemma data_items its : Forall is_data its → ∃ es, its = Data <$> es ∧ flatten its = Elem <$> es.
Proof.
  induction 1 as [|i its Hi _ (es & -> & E)]; [by exists []|]. destruct i as [e|]; [|done]. exists (e :: es). split; [done|]. cbn [fmap list_fmap]. by rewrite <-E.
Qed.

(** Contiguous entries of data. *)
Lemma contiguous_counts es : Forall src_ok (Data <$> es) → contiguous_map (items_map 0 (Data <$> es)) →
  Forall (λ e, e_count e = 1) es ∧ length (items_map 0 (Data <$> es)) = sum_list (block_bytes <$> es).
Proof.
  induction es as [|e es IH]; [by split|]. rewrite fmap_cons, items_map_cons. intros [Hi Hf]%Forall_cons. inversion Hi as [e' He Hcan|]; subst. rewrite item_map_data by done.
  intros (Hc & Hcs & _)%contiguous_app. destruct (IH Hf Hcs) as [H1 H2]. assert (e_count e = 1) as E by by apply contiguous_single. split; [by constructor|]. rewrite length_app, H2. unfold emap. rewrite blocks_length, E. cbn. lia.
Qed.

Lemma loop_contiguous x n body : contiguous_map (items_map 0 body) → loop_map 0 x 0 n body = blocks (hd 0%Z (items_map 0 body)) x n (length (items_map 0 body)).
Proof.
  intros Hc. unfold loop_map, blocks. apply flat_map_ext'. intros j _. rewrite items_map_base, Hc at 1. rewrite fmap_add_seqZ. f_equal. lia.
Qed.

Lemma compress_body_ok t b size l : (debug = true → Forall (λ x, entry_count x = 1) l) → ∃ t' b' r, compress_body debug t b size l = Some (t', b', r) ∧
  (t' = OPAL_DATATYPE_UINT1 ∧ b' = size ∨ t' = t ∧ ∃ es, l = Elem <$> es ∧ Forall (λ e, e_type e = t) es ∧ b' = b + sum_list (e_blocklen <$> es)).
Proof.
  revert b; induction l as [|x l IH]; intros b Hd; cbn [compress_body].
  - exists t, b, false. split; [done|]. right. split; [done|]. exists []. cbn. split_and!; [done|done|lia].
  - assert (negb debug || (entry_count x =? 1) = true) as ->; [destruct debug; [|done]; specialize (Hd eq_refl); apply Forall_cons in Hd as [-> _]; done|]. cbn [guard].
    destruct x as [e|lp|el]; [|eauto 10|eauto 10]. destruct (Nat.eqb_spec (e_type e) t) as [E|E]; [|eauto 10].
    destruct (IH (b + e_blocklen e)) as (t' & b' & r & Hcb & Hr); [intros Hdb; specialize (Hd Hdb); by apply Forall_cons in Hd as [_ Hd]|]. exists t', b', r. split; [done|].
    destruct Hr as [?|(-> & es & -> & Hes & ->)]; [by left|]. right. split; [done|]. exists (e :: es). split_and!; [done|by constructor|cbn; lia].
Qed.

(** The bytes of contiguous entries of one type. *)
Lemma blocks_one_type t es : Forall (λ e, e_type e = t) es → sum_list (block_bytes <$> es) = sum_list (e_blocklen <$> es) * basic_size t.
Proof. induction 1 as [|e es He _ IH]; [done|]. cbn. rewrite IH. unfold block_bytes. rewrite He. lia. Qed.

(** The type and the length that are found for a contiguous body. *)
Lemma compress_type body i e : Forall src_ok body → contiguous_map (items_map 0 body) → (debug = true → Forall is_data body) → flatten body !! i = Some (Elem e) →
  Forall (λ x, ∃ l, x = Loop l) (take i (flatten body)) → ∃ t b r, compress_body debug (e_type e) (e_blocklen e) (length (items_map 0 body)) (drop (S i) (flatten body)) = Some (t, b, r) ∧
  b * basic_size t = length (items_map 0 body) ∧ (t = OPAL_DATATYPE_UINT1 ∨ t = e_type e).
Proof.
  intros Hf Hc Hdb Hi Ht. destruct (compress_body_ok (e_type e) (e_blocklen e) (length (items_map 0 body)) (drop (S i) (flatten body))) as (t & b & r & Hcb & Hr).
  { intros Hd. destruct (data_items body (Hdb Hd)) as (es & Eb & E). rewrite Eb in Hf, Hc. destruct (contiguous_counts es Hf Hc) as [H1 _]. rewrite E. apply Forall_drop, Forall_fmap. done. }
  exists t, b, r. split; [done|]. destruct Hr as [[-> ->]|(-> & es & E & Hes & ->)]; [split; [by rewrite uint1_size, Nat.mul_1_r|by left]|]. split; [|by right].
  assert (Hfl : flatten body = take i (flatten body) ++ (Elem <$> (e :: es))) by (rewrite fmap_cons, <-E; symmetry; by apply take_drop_middle).
  assert (Hl : take i (flatten body) = []).
  { apply nil_length_inv. pose proof (balance_flatten body) as Hb. rewrite Hfl, balance_app, balance_data, balance_loops in Hb by done. lia. }
  rewrite Hl in Hfl. apply flatten_data in Hfl. subst body. destruct (contiguous_counts _ Hf Hc) as [_ ->]. rewrite (blocks_one_type (e_type e)) by by constructor. done.
Qed.

Lemma compress_ok n x body pre post : src_ok (Rep n x true body) → ∃ e r,
  compress debug (pre ++ flatten_item (Rep n x true body) ++ post) (length pre) (mk_loop (S (length (flatten body))) n x true) = Some (e, r) ∧
  entry_ok Q A e ∧ emap e = item_map 0 (Rep n x true body) ∧ e_count e ≤ n ∧ (contiguous_map (item_map 0 (Rep n x true body)) → e_count e = 1 ∧ tight e).
Proof.
  intros Hs. inversion Hs as [|n' x' c' body' Hn Hb Hf Hal Hc]; subst. destruct (Hc eq_refl) as (Hcm & Hdb). rewrite flatten_rep. set (el := mk_endloop _ _ _). cbn [app].
  destruct (first_data body (EndLoop el :: post) Hf Hb) as (i & e & Hg & Hi & Hd & He & Ht). destruct (compress_type body i e Hf Hcm Hdb Hi Ht) as (t & b & r & Hcb & Hsz & Hty).
  set (lp := mk_loop _ _ _ _). pose proof (lookup_lt_Some _ _ _ Hi) as Hlt. unfold compress. rewrite drop_app_length. cbn [GET_FIRST_NON_LOOP]. rewrite <-app_assoc. cbn [app]. rewrite Hg. cbn [mbind option_bind].
  unfold data_at. rewrite !lookup_app_r by lia. replace (length pre + S i - length pre) with (S i) by lia. cbn [items lp]. replace (length pre + S (length (flatten body)) - length pre) with (S (length (flatten body))) by lia.
  change ((Loop ?a :: ?l) !! S ?k) with (l !! k). rewrite (lookup_app_l (flatten body) _ i), Hi by lia. rewrite list_lookup_middle by done. cbn [mbind option_bind first_elem_disp el].
  rewrite Hd, Z.eqb_refl, orb_true_r. cbn [guard end_size el].
  assert (drop (length pre + S i + 1) (take (length pre + S (length (flatten body))) (pre ++ Loop lp :: flatten body ++ EndLoop el :: post)) = drop (S i) (flatten body)) as ->.
  { rewrite take_app_add. cbn [take]. rewrite take_app_length. replace (length pre + S i + 1) with (length pre + S (S i)) by lia. by rewrite drop_app_add. }
  rewrite Hcb. cbn [mbind option_bind loops l_extent lp]. set (c := mk_elem _ _ _ _ _). exists (collapse c), r. split; [done|]. rewrite collapse_map.
  assert (Hpos : 0 < length (items_map 0 body)).
  { destruct body as [|i0 body]; [done|]. rewrite items_map_cons, length_app. apply Forall_cons in Hf as [Hi0 _]. pose proof (src_map_nil _ Hi0). destruct (item_map 0 i0); [done|cbn; lia]. }
  assert (Hm : emap c = item_map 0 (Rep n x true body)) by (unfold emap, block_bytes; cbn [c e_disp e_extent e_count e_blocklen e_type]; by rewrite Hsz, item_map_rep, loop_contiguous).
  assert (Hok : entry_ok Q A c).
  { split; cbn; [lia|nia|nia|destruct Hty as [->| ->]; [done|apply He]|]. intros HA. unfold aligned. cbn. rewrite <-Hd. destruct Hty as [->| ->]; [rewrite uint1_size; split; [|intros _]; apply Z.divide_1_l|].
    split; [by apply He|]. intros _. apply Hal; [done|]. by eapply list_elem_of_lookup_2. }
  split_and!; [by apply collapse_ok|done|by apply (collapse_count Q A c)|]. rewrite <-Hm. intros Hcc. apply collapse_tight. unfold emap in Hcc. apply blocks_tight in Hcc; [done|done|]. by apply (block_bytes_pos Q A).
Qed.

(** ** The loop over the entries *)

(** The pending entry as a list. *)
Definition pend (e : ddt_elem_desc_t) : list ddt_elem_desc_t := if e_count e =? 0 then [] else [e].

Lemma pend_map e : concat (emap <$> pend e) = pending_map e.
Proof. unfold pend, pending_map. destruct (_ =? _); [done|]. cbn. by rewrite app_nil_r. Qed.

Lemma pend_length e : length (pend e) = pending_length e.
Proof. unfold pend, pending_length. by destruct (_ =? _). Qed.

Lemma pend_ok e : pending_ok Q A e → Forall (entry_ok Q A) (pend e).
Proof. intros He. unfold pend. destruct (Nat.eqb_spec (e_count e) 0) as [E|E]; [done|]. destruct He; [done|by constructor]. Qed.

Lemma flush_pend out e : flush out e = out ++ flatten (written (pend e)).
Proof. unfold flush, pend. destruct (_ =? _); [by rewrite app_nil_r|]. done. Qed.

Context (max_depth max_length : nat).

(** What the rounds for [its] do. *)
Record ran (D : list dt_elem_desc) (its : list item) (s s' : optimizer) (k : nat) (outs : list item) : Prop := {
  ran_fuel fuel : optimize_loop debug D max_depth max_length (k + fuel) s = optimize_loop debug D max_depth max_length fuel s';
  ran_k : k ≤ length (flatten its);
  ran_pos : o_pos s' = o_pos s + length (flatten its);
  ran_stack : o_stack s' = o_stack s;
  ran_out : o_out s' = o_out s ++ flatten outs;
  ran_pending : pending_ok Q A (o_last s');
  ran_map : pending_map (o_last s) ++ items_map 0 its = items_map 0 outs ++ pending_map (o_last s');
  ran_ok : Forall out_ok outs;
  ran_count : e_count (o_last s') ≤ e_count (o_last s) + block_count its;
  ran_length : length (flatten outs) + pending_length (o_last s') ≤ pending_length (o_last s) + 2 * length (flatten its);
  ran_work : work outs + pending_length (o_last s') ≤ pending_length (o_last s) + 2 * work its;
  ran_depth : depth outs ≤ depth its;
  ran_contiguous : Forall solid_item its → contiguous_map (pending_map (o_last s) ++ items_map 0 its) → (e_count (o_last s) ≠ 0 → tight (o_last s)) →
    outs = [] ∧ (e_count (o_last s') ≠ 0 → tight (o_last s'));
}.

Record can_run (D : list dt_elem_desc) (its : list item) (post : list dt_elem_desc) (s : optimizer) : Prop := {
  cr_code : drop (o_pos s) D = flatten its ++ post;
  cr_pending : pending_ok Q A (o_last s);
  cr_count : (Z.of_nat (e_count (o_last s) + block_count its) < 2 ^ 32)%Z;
  cr_depth : length (o_stack s) + depth its ≤ max_depth;
  cr_length : length (o_out s) + pending_length (o_last s) + 2 * length (flatten its) ≤ max_length;
}.

Definition runs (its : list item) : Prop := ∀ D post s, can_run D its post s → ∃ s' k outs, ran D its s s' k outs.

Lemma flatten_cons i its : flatten (i :: its) = flatten [i] ++ flatten its.
Proof. change (i :: its) with ([i] ++ its). apply flatten_app. Qed.

Lemma runs_nil : runs [].
Proof.
  intros D post s [Hcode Hp _ _ _]. exists s, 0, []. split; cbn; try done; try lia; by rewrite app_nil_r.
Qed.

Lemma can_run_cons D i its post s : can_run D (i :: its) post s → can_run D [i] (flatten its ++ post) s.
Proof.
  intros [Hcode Hp Hcnt Hdep Hlen]. pose proof (block_count_app [i] its) as Eb. pose proof (depth_app [i] its) as Ed. cbn [app] in Eb, Ed. rewrite (flatten_cons i its) in Hcode, Hlen. rewrite length_app in Hlen.
  rewrite <-app_assoc in Hcode. split; try done; lia.
Qed.

Lemma can_run_tail D i its post s s' k outs : can_run D (i :: its) post s → ran D [i] s s' k outs → can_run D its post s'.
Proof.
  intros [Hcode Hp Hcnt Hdep Hlen] [_ _ Hpos Hst Hout Hpd _ _ Hc Hl _ _ _]. pose proof (block_count_app [i] its) as Eb. pose proof (depth_app [i] its) as Ed. cbn [app] in Eb, Ed. rewrite (flatten_cons i its) in Hcode, Hlen.
  rewrite length_app in Hlen. split; [|done|lia|rewrite Hst; lia|rewrite Hout, length_app; lia]. rewrite Hpos, <-drop_drop, Hcode, <-app_assoc. by rewrite drop_app_length.
Qed.

Lemma runs_cons i its : runs [i] → runs its → runs (i :: its).
Proof.
  intros Hi Hits D post s Hr. destruct (Hi D (flatten its ++ post) s (can_run_cons _ _ _ _ _ Hr)) as (s1 & k1 & o1 & R1). destruct (Hits D post s1 (can_run_tail _ _ _ _ _ _ _ _ Hr R1)) as (s2 & k2 & o2 & R2).
  exists s2, (k1 + k2), (o1 ++ o2). destruct R1 as [F1 K1 P1 S1 O1 Q1 M1 G1 C1 L1 W1 D1 T1], R2 as [F2 K2 P2 S2 O2 Q2 M2 G2 C2 L2 W2 D2 T2].
  pose proof (work_app [i] its) as Ew. pose proof (depth_app [i] its) as Ed. pose proof (block_count_app [i] its) as Eb. pose proof (items_map_app 0 [i] its) as Em. cbn [app] in Ew, Ed, Eb, Em.
  split; rewrite ?(flatten_cons i its), ?length_app, ?Em; try lia; try done.
  - intros fuel. by rewrite <-Nat.add_assoc, F1, F2.
  - by rewrite S2, S1.
  - by rewrite O2, O1, flatten_app, app_assoc.
  - by rewrite app_assoc, M1, <-app_assoc, M2, items_map_app, app_assoc.
  - by apply Forall_app.
  - rewrite flatten_app, length_app. lia.
  - rewrite work_app. lia.
  - rewrite depth_app. lia.
  - rewrite app_assoc. intros [Hs1 Hs2]%Forall_cons Hc Ht. pose proof (contiguous_app _ _ Hc) as [Hc1 _]. destruct (T1 ltac:(by constructor) Hc1 Ht) as [-> Ht1]. rewrite M1 in Hc. cbn [items_map flat_map app] in Hc.
    by destruct (T2 Hs2 Hc Ht1) as [-> ?].
Qed.

Lemma step_fuel D s s' fuel : optimize_step debug D max_depth max_length s = Some (inl s') →
  optimize_loop debug D max_depth max_length (1 + fuel) s = optimize_loop debug D max_depth max_length fuel s'.
Proof. intros Hs. cbn [Nat.add optimize_loop]. by rewrite Hs. Qed.

(** An entry of data is fused with the pending one. *)
Lemma ran_fuse D post i s c out last r pos r' : can_run D [i] post s → entry_ok Q A c → emap c = item_map 0 i → e_count c ≤ item_blocks i →
  (solid_item i → contiguous_map (emap c) → e_count c = 1 ∧ tight c) → fuse (o_last s) c = (out, last, r) → pos = o_pos s + length (flatten [i]) → 0 < length (flatten [i]) → 0 < item_work i →
  let s' := mk_optimizer pos (o_stack s) (o_out s ++ (CREATE_ELEM <$> out)) last r' in
  (length (o_out s') ≤ max_length → optimize_step debug D max_depth max_length s = Some (inl s')) → ran D [i] s s' 1 (written out).
Proof.
  intros [Hcode Hp Hcnt Hdep Hlen] Hc Hm Hcc Ht Hf -> Hfl Hw s' Hstep. cbn [block_count foldr] in Hcnt. destruct (fuse_ok Q A HQ _ _ _ _ _ Hp Hc ltac:(lia) Hf) as (Hmap & Hout & Hlast & Hsum & Hlo).
  destruct (written_work out) as [Hww Hwd]. pose proof (en_count _ _ _ Hlast) as Hlc. assert (pending_length (o_last s) ≤ 1) by (unfold pending_length; destruct (_ =? _); lia).
  assert (Hpl : pending_length last = 1) by (unfold pending_length; by rewrite (proj2 (Nat.eqb_neq _ _)) by lia). assert (Hpm : pending_map last = emap last) by (unfold pending_map; by rewrite (proj2 (Nat.eqb_neq _ _)) by lia).
  assert (Hmi : items_map 0 [i] = emap c) by (rewrite Hm; apply app_nil_r). cbn [work depth foldr] in *.
  split; cbn [o_pos o_stack o_out o_last s']; rewrite ?Hpm, ?Hpl, ?Hmi, ?written_flatten, ?length_fmap; try done; try lia.
  - intros fuel. apply step_fuel, Hstep. cbn [o_out s']. rewrite length_app, length_fmap. lia.
  - by right.
  - by rewrite Hmap, written_map.
  - by apply written_ok.
  - cbn [block_count foldr]. lia.
  - rewrite Hww. cbn [work foldr]. lia.
  - intros [Hsi _]%Forall_cons Hcm Htl. pose proof (contiguous_app _ _ Hcm) as (_ & Hcc' & Hhd). destruct (Ht Hsi Hcc') as [Hone Htc].
    destruct (decide (e_count (o_last s) = 0)) as [E|E].
    { unfold fuse in Hf. rewrite E in Hf. injection Hf as <- <- _. done. }
    assert (Hol : entry_ok Q A (o_last s)) by (by destruct Hp). specialize (Htl E). unfold pending_map in Hhd. rewrite (proj2 (Nat.eqb_neq _ _) E) in Hhd.
    assert (Hd : (e_disp (o_last s) + Z.of_nat (e_count (o_last s) * block_bytes (o_last s)) = e_disp c)%Z).
    { rewrite <-(hd_emap c []), app_nil_r, Hhd, <-(app_nil_r (emap (o_last s))), hd_emap by (try done; intros E'%(f_equal length); unfold emap in E'; rewrite blocks_length in E'; cbn in E'; pose proof (block_bytes_pos _ _ _ Hol); pose proof (block_bytes_pos _ _ _ Hc); nia).
      unfold emap. rewrite app_nil_r, blocks_length. lia. }
    destruct (fuse_tight Q A (o_last s) c out last r E Hol Hc Htl Htc Hone ltac:(lia) Hd Hf) as [-> ?]. done.
Qed.

Lemma runs_data e : src_ok (Data e) → runs [Data e].
Proof.
  intros Hs. inversion Hs as [e' He Hcan|]; subst. intros D post s Hr. pose proof (cr_code _ _ _ _ Hr) as Hcode. cbn [flatten flat_map flatten_item app] in Hcode. apply drop_at in Hcode as [Hl _].
  destruct (fuse (o_last s) e) as [[out last] r] eqn:Hf. eexists _, _, _. eapply (ran_fuse D post (Data e) s e out last r); try done; cbn [flatten flat_map flatten_item app length item_work]; try lia.
  - by rewrite item_map_data.
  - intros _ Hc. pose proof (contiguous_single e He Hcan Hc). split; [done|by apply Hcan].
  - intros Hlen. unfold optimize_step. rewrite Hl, Hf. cbn [mbind option_bind]. rewrite (proj2 (Nat.leb_le _ _) Hlen). cbn [guard]. repeat f_equal. lia.
Qed.

Lemma runs_solid n x body : src_ok (Rep n x true body) → runs [Rep n x true body].
Proof.
  intros Hs D post s Hr. pose proof (cr_code _ _ _ _ Hr) as Hcode. cbn [flatten flat_map] in Hcode. rewrite app_nil_r in Hcode.
  assert (Hlp : o_pos s < length D) by (apply (f_equal length) in Hcode; rewrite length_drop, length_app, flatten_rep in Hcode; cbn [length] in Hcode; lia).
  assert (HD : D = take (o_pos s) D ++ flatten_item (Rep n x true body) ++ post) by (by rewrite <-Hcode, take_drop). destruct (compress_ok n x body (take (o_pos s) D) post Hs) as (e & r & Hc & He & Hm & Hcnt & Ht).
  rewrite <-HD, length_take_le in Hc by lia. rewrite flatten_rep in Hcode. cbn [app] in Hcode. apply drop_at in Hcode as [Hl _].
  destruct (fuse (o_last s) e) as [[out last] r'] eqn:Hf. eexists _, _, _. eapply (ran_fuse D post (Rep n x true body) s e out last r'); try done; cbn [flatten flat_map item_work]; rewrite ?app_nil_r, ?flatten_rep; cbn [length item_blocks]; try lia.
  - intros _. rewrite Hm. done.
  - intros Hlen. unfold optimize_step, optimize_start. rewrite Hl. cbn [l_contiguous]. rewrite Hc. cbn [mbind option_bind]. rewrite Hf. cbn [mbind option_bind o_out items] in Hlen |- *. rewrite (proj2 (Nat.leb_le _ _) Hlen). cbn [guard]. do 3 f_equal. rewrite length_app. cbn [length]. lia.
Qed.

(** ** Short loops *)

Lemma short_data body : Forall src_ok body → length (flatten body) ≤ 2 → Forall is_data body.
Proof.
  intros Hf Hl. apply Forall_forall. intros i Hi. rewrite Forall_forall in Hf. specialize (Hf i Hi). destruct i as [e|n x c b]; [done|]. exfalso. inversion Hf as [|n' x' c' b' _ Hne Hb _ _]; subst.
  apply list_elem_of_split in Hi as (l1 & l2 & ->). rewrite flatten_app, (flatten_cons (Rep n x c b)), !length_app in Hl. cbn [flatten flat_map] in Hl. rewrite app_nil_r, flatten_rep in Hl. cbn [length] in Hl. rewrite length_app in Hl. cbn [length] in Hl.
  destruct b as [|i b]; [done|]. rewrite flatten_cons, length_app in Hl. destruct i; cbn in Hl; lia.
Qed.

Lemma src_entries es : Forall src_ok (Data <$> es) → Forall (entry_ok Q A) es.
Proof. induction es as [|e es IH]; [done|]. intros [He Hes]%Forall_cons. inversion He; subst. constructor; auto. Qed.

Lemma work_data es : work (Data <$> es) = length es.
Proof. induction es as [|e es IH]; [done|]. cbn. f_equal. exact IH. Qed.

Lemma data_entries D p es l : drop p D = (Elem <$> es) ++ l → mapM (λ j, data_at D (p + j)) (seq 0 (length es)) = Some es.
Proof.
  intros E. apply mapM_Some_2, Forall2_same_length_lookup_2; [by rewrite length_seq|]. intros i j e [-> Hi]%lookup_seq He. unfold data_at. rewrite Nat.add_0_l, <-lookup_drop, E, lookup_app_l by (by rewrite length_fmap).
  by rewrite list_lookup_fmap, He.
Qed.

Lemma shift_map d es : Forall (entry_ok Q A) es → concat (emap <$> (shift_elem d <$> es)) = items_map d (Data <$> es).
Proof.
  induction 1 as [|e es He _ IH]; [done|]. rewrite !fmap_cons, items_map_cons, item_map_emap by apply He. cbn [concat]. rewrite IH. f_equal. unfold emap. change (block_bytes (shift_elem d e)) with (block_bytes e). cbn [shift_elem e_disp e_extent e_count]. f_equal. lia.
Qed.

(** The entries of all rounds. *)
Definition unrolled (x : Z) (es : list ddt_elem_desc_t) (l : list nat) : list ddt_elem_desc_t := flat_map (λ i, shift_elem (Z.of_nat i * x) <$> es) l.

Lemma unrolled_map x es n : Forall (entry_ok Q A) es → concat (emap <$> unrolled x es (seq 0 n)) = loop_map 0 x 0 n (Data <$> es).
Proof.
  intros Hes. unfold unrolled, loop_map. induction (seq 0 n) as [|j l IH]; [done|]. cbn [flat_map]. rewrite fmap_app, concat_app, IH, shift_map by done. done.
Qed.

Lemma unrolled_ok x es l : Forall (entry_ok Q A) es → (A → ∀ e, e ∈ es → (Z.of_nat (basic_size (e_type e)) | x)%Z) → Forall (entry_ok Q A) (unrolled x es l).
Proof.
  intros Hes Hx. unfold unrolled. induction l as [|j l IH]; [done|]. cbn [flat_map]. apply Forall_app. split; [|done]. apply Forall_fmap, Forall_forall. intros e He. rewrite Forall_forall in Hes.
  destruct (Hes e He) as [H1 H2 H3 H4 H5]. split; cbn; try done. intros HA. destruct (H5 HA) as [Ha1 Ha2]. split; cbn; [|done]. apply Z.divide_add_r; [done|]. by apply Z.divide_mul_r, Hx.
Qed.

Lemma unrolled_length x es l : length (unrolled x es l) = length l * length es.
Proof. unfold unrolled. induction l as [|j l IH]; [done|]. cbn [flat_map]. rewrite length_app, length_fmap, IH. done. Qed.

Lemma unrolled_entries x es l : flat_map (λ i, (λ e, CREATE_ELEM (shift_elem (Z.of_nat i * x) e)) <$> es) l = flatten (written (unrolled x es l)).
Proof. rewrite written_flatten. unfold unrolled. rewrite flat_map_fmap. apply flat_map_ext'. intros i _. by rewrite <-list_fmap_compose. Qed.

Lemma runs_short n x body : src_ok (Rep n x false body) → length (flatten body) ≤ 2 → n ≤ 2 → runs [Rep n x false body].
Proof.
  intros Hs Hfl Hn2. inversion Hs as [|n' x' c' body' Hn Hb Hf Hal _]; subst. destruct (data_items body (short_data body Hf Hfl)) as (es & -> & Efl). rewrite Efl in Hal, Hfl. rewrite length_fmap in Hfl.
  assert (Hes : Forall (entry_ok Q A) es) by by apply src_entries. assert (Hal' : A → ∀ e, e ∈ es → (Z.of_nat (basic_size (e_type e)) | x)%Z) by (intros HA e He; apply Hal; [done|]; by apply list_elem_of_fmap_2).
  destruct es as [|e0 es0]; [done|]. remember (e0 :: es0) as es eqn:Ees. assert (Hes0 : 0 < length es) by (subst es; cbn; lia).
  intros D post s [Hcode Hp Hcnt Hdep Hlen]. cbn [flatten flat_map] in Hcode, Hlen. rewrite app_nil_r, flatten_rep in Hcode, Hlen. rewrite Efl in Hcode, Hlen. cbn [length] in Hlen. rewrite length_app, length_fmap in Hlen. cbn [length app] in Hlen, Hcode.
  pose proof Hcode as [Hl Hd]%drop_at. set (outs := written (pend (o_last s) ++ unrolled x es (seq 0 n))).
  set (s' := mk_optimizer (o_pos s + length (flatten [Rep n x false (Data <$> es)])) (o_stack s) (o_out s ++ flatten outs) (no_last (o_last s)) (o_restricted s)).
  assert (Hwo : length (pend (o_last s) ++ unrolled x es (seq 0 n)) = pending_length (o_last s) + n * length es) by by rewrite length_app, pend_length, unrolled_length, length_seq.
  assert (Hlf : length (flatten [Rep n x false (Data <$> es)]) = length es + 2) by (cbn [flatten flat_map]; rewrite app_nil_r, flatten_rep, Efl; cbn [length]; rewrite length_app, length_fmap; cbn; lia).
  assert (Hok : Forall (entry_ok Q A) (pend (o_last s) ++ unrolled x es (seq 0 n))) by (apply Forall_app; split; [by apply pend_ok|by apply unrolled_ok]).
  assert (Hstep : optimize_step debug D max_depth max_length s = Some (inl s')).
  { unfold optimize_step, optimize_start. rewrite Hl. cbn [l_contiguous items loops l_extent]. rewrite length_fmap, (proj2 (Nat.leb_le _ _)), (proj2 (Nat.leb_le _ _)) by lia. cbn [andb].
    assert (GET_FIRST_NON_LOOP (drop (o_pos s) D) = Some 1) as -> by (by rewrite Hcode, Ees). cbn [mbind option_bind]. rewrite <-app_assoc in Hd. replace (S (length es) - 1) with (length es) by lia.
    rewrite <-Nat.add_1_r in Hd. rewrite (data_entries D (o_pos s + 1) es _ Hd). cbn [mbind option_bind]. rewrite unrolled_entries, flush_pend, <-app_assoc, <-flatten_app. unfold written. rewrite <-fmap_app. change (_ <$> _) with outs.
    assert (length (o_out s') <= max_length) as Hle%Nat.leb_le by (cbn [o_out s']; rewrite length_app; unfold outs; rewrite written_flatten, length_fmap, Hwo; nia). unfold s' in Hle. cbn [o_out] in Hle |- *. rewrite Hle. cbn [guard]. unfold s'. rewrite Hlf. do 3 f_equal. lia. }
  exists s', 1, outs. destruct (written_work (pend (o_last s) ++ unrolled x es (seq 0 n))) as [Hw Hwd]. fold outs in Hw, Hwd.
  split; cbn [o_pos o_stack o_out o_last s']; try done; rewrite ?Hlf; try (cbn; lia).
  - intros fuel. by apply step_fuel.
  - by left.
  - unfold outs. rewrite written_map by done. rewrite fmap_app, concat_app, pend_map, unrolled_map by done. cbn [items_map flat_map]. rewrite item_map_rep. cbn. by rewrite !app_nil_r.
  - by apply written_ok.
  - unfold outs. rewrite written_flatten, length_fmap, Hwo. cbn. nia.
  - rewrite Hw, Hwo. cbn [work foldr item_work]. fold (work (Data <$> es)). rewrite work_data. cbn. nia.
  - intros [? _]%Forall_cons. done.
Qed.

(** ** Other loops *)

(** The end of a loop: the number of entries goes into its start. *)
Lemma optimize_end_loop el s f n x bo stack k : o_stack s = Some (S (length f)) :: stack → flush (o_out s) (o_last s) = (f ++ [Loop (mk_loop k n x false)]) ++ flatten bo →
  end_size el = length (items_map 0 bo) → first_elem_disp el = hd 0%Z (items_map 0 bo) →
  optimize_end el s = Some (inl (mk_optimizer (S (o_pos s)) stack (f ++ flatten [Rep n x false bo]) (no_last (o_last s)) (o_restricted s))).
Proof.
  intros Hst Hfl Hsz Hd. unfold optimize_end. rewrite Hst, Hfl, Hsz, Hd. cbn [Nat.sub]. rewrite Nat.sub_0_r, <-app_assoc. cbn [app]. rewrite list_lookup_middle by done. cbn [loops l_extent l_contiguous].
  rewrite insert_app_r_alt, Nat.sub_diag by lia. cbn [insert list_insert]. rewrite !length_app. cbn [length]. replace (length f + S (length (flatten bo)) - S (length f) + 1) with (S (length (flatten bo))) by lia.
  cbn [flatten flat_map]. rewrite app_nil_r, flatten_rep, <-app_assoc. done.
Qed.

(** The start of a loop. *)
Lemma optimize_step_loop D s n x (code : list dt_elem_desc) tail : drop (o_pos s) D = Loop (mk_loop (S (length code)) n x false) :: tail → ¬ (length code ≤ 2 ∧ n ≤ 2) → length (o_stack s) < max_depth →
  let out := flush (o_out s) (o_last s) ++ [Loop (mk_loop (S (length code)) n x false)] in length out ≤ max_length →
  optimize_step debug D max_depth max_length s = Some (inl (mk_optimizer (S (o_pos s)) (Some (length out) :: o_stack s) out (no_last (o_last s)) (o_restricted s))).
Proof.
  intros [Hl _]%drop_at Hns Hdep out Hlen. unfold optimize_step, optimize_start. rewrite Hl. cbn [l_contiguous items loops l_extent]. replace ((S (length code) <=? 3) && (n <=? 2)) with false.
  2: { symmetry. apply andb_false_iff. destruct (decide (n ≤ 2)); [left|right]; apply Nat.leb_gt; lia. }
  rewrite (proj2 (Nat.ltb_lt _ _) Hdep). cbn [guard mbind option_bind o_out]. fold out. by rewrite (proj2 (Nat.leb_le _ _) Hlen).
Qed.

Lemma runs_loop n x body : src_ok (Rep n x false body) → ¬ (length (flatten body) ≤ 2 ∧ n ≤ 2) → runs body → runs [Rep n x false body].
Proof.
  intros Hs Hns Hbody D post s [Hcode Hp Hcnt Hdep Hlen]. inversion Hs as [|n' x' c' body' Hn Hb Hf Hal _]; subst. cbn [flatten flat_map] in Hcode, Hlen. rewrite app_nil_r, flatten_rep in Hcode, Hlen. set (el := mk_endloop _ _ _) in Hcode, Hlen.
  cbn [length app] in Hlen, Hcode. rewrite <-app_assoc in Hcode. rewrite length_app in Hlen. cbn [length app] in Hlen, Hcode. set (f := o_out s ++ flatten (written (pend (o_last s)))).
  assert (Hlenf : length f = length (o_out s) + pending_length (o_last s)) by (unfold f; by rewrite length_app, written_flatten, length_fmap, pend_length).
  change (depth [Rep n x false body]) with (S (depth body) `max` 0) in Hdep. change (block_count [Rep n x false body]) with (n + block_count body + 0) in Hcnt.
  assert (H1 := optimize_step_loop D s n x (flatten body) _ Hcode Hns ltac:(lia)). rewrite flush_pend in H1. fold f in H1. specialize (H1 ltac:(rewrite length_app; cbn; lia)). cbn zeta in H1. rewrite length_app, Nat.add_1_r in H1. cbn [length] in H1.
  set (s1 := mk_optimizer _ _ _ _ _) in H1. pose proof Hcode as [_ Hd1]%drop_at.
  destruct (Hbody D (EndLoop el :: post) s1) as (s2 & k & outs & [F2 K2 P2 S2 O2 Q2 M2 G2 C2 L2 W2 D2 _]).
  { split; cbn [s1 o_pos o_stack o_out o_last no_last e_count length]; [done|by left|lia|lia|]. rewrite length_app. cbn. lia. }
  set (bo := outs ++ written (pend (o_last s2))). assert (Hbo : items_map 0 bo = items_map 0 body) by (unfold bo; rewrite items_map_app, written_map, pend_map by (by apply pend_ok); by rewrite <-M2).
  assert (Hd2 : D !! o_pos s2 = Some (EndLoop el)).
  { rewrite P2. cbn [s1 o_pos]. rewrite <-lookup_drop, Hd1. by rewrite list_lookup_middle. }
  pose proof (optimize_end_loop el s2 f n x bo (o_stack s) (S (length (flatten body)))) as H2. rewrite flush_pend, O2, S2 in H2. specialize (H2 eq_refl).
  specialize (H2 ltac:(unfold bo; by rewrite flatten_app, app_assoc) ltac:(by rewrite Hbo) ltac:(by rewrite Hbo)).
  assert (Hfb : length (flatten bo) = length (flatten outs) + pending_length (o_last s2)) by (unfold bo; by rewrite flatten_app, length_app, written_flatten, length_fmap, pend_length).
  assert (Hfr : length (flatten [Rep n x false bo]) = length (flatten bo) + 2) by (cbn [flatten flat_map]; rewrite app_nil_r, flatten_rep; cbn [length]; rewrite length_app; cbn; lia).
  assert (Hfr' : length (flatten [Rep n x false body]) = length (flatten body) + 2) by (cbn [flatten flat_map]; rewrite app_nil_r, flatten_rep; cbn [length]; rewrite length_app; cbn; lia).
  set (s3 := mk_optimizer _ _ _ _ _) in H2. change (pending_length (o_last s1)) with 0 in *. cbn [Nat.add] in L2, W2.
  exists s3, (1 + (k + 1)), (written (pend (o_last s)) ++ [Rep n x false bo]). destruct (written_work (pend (o_last s))) as [Ww Wd]. destruct (written_work (pend (o_last s2))) as [Ww2 Wd2]. rewrite pend_length in Ww, Ww2.
  assert (Hbw : work bo = work outs + pending_length (o_last s2)) by (unfold bo; by rewrite work_app, Ww2). assert (Hbd : depth bo = depth outs) by (unfold bo; rewrite depth_app, Wd2; lia).
  split; cbn [s3 o_pos o_stack o_out o_last]; rewrite ?Hfr'; try done; try lia.
  - intros fuel. rewrite <-Nat.add_assoc, (step_fuel D s s1) by done. rewrite <-Nat.add_assoc, F2. apply step_fuel. unfold optimize_step. rewrite Hd2, H2. cbn [mbind option_bind]. rewrite (proj2 (Nat.leb_le _ _)); [done|].
    cbn [s3 o_out]. rewrite length_app, Hfr. lia.
  - rewrite P2. cbn [s1 o_pos]. lia.
  - unfold f. by rewrite flatten_app, app_assoc.
  - by left.
  - rewrite items_map_app, written_map, pend_map by (by apply pend_ok). cbn [items_map flat_map]. rewrite !item_map_rep, !app_nil_r. f_equal. unfold loop_map. apply flat_map_ext'. intros j _. rewrite items_map_base, (items_map_base bo), Hbo. done.
  - apply Forall_app. split; [by apply written_ok, pend_ok|]. constructor; [|done]. apply out_rep; [lia| |].
    + intros E. rewrite E in Hbo. destruct body as [|i0 body]; [done|]. apply Forall_cons in Hf as [Hi0 _]. apply (src_map_nil i0 Hi0). symmetry in Hbo. rewrite items_map_cons in Hbo. by apply app_eq_nil in Hbo as [? _].
    + unfold bo. apply Forall_app. split; [done|]. by apply written_ok, pend_ok.
  - cbn. lia.
  - rewrite flatten_app, length_app, Hfr, written_flatten, length_fmap, pend_length. cbn [no_last e_count pending_length]. cbn. lia.
  - rewrite work_app, Ww. cbn [work foldr item_work]. fold (work bo) (work body). rewrite Hbw. change (pending_length (no_last _)) with 0. nia.
  - rewrite depth_app, Wd. change (depth [Rep n x false bo]) with (S (depth bo) `max` 0). change (depth [Rep n x false body]) with (S (depth body) `max` 0). lia.
  - by intros [? _]%Forall_cons.
Qed.

Lemma runs_items its : Forall src_ok its → runs its.
Proof.
  assert (Hi : ∀ i, src_ok i → runs [i]).
  { induction i as [e|n x c body IH] using item_rect'; [apply runs_data|]. intros Hs. destruct c; [by apply runs_solid|].
    destruct (decide (length (flatten body) ≤ 2 ∧ n ≤ 2)) as [[? ?]|Hns]; [by apply runs_short|]. apply runs_loop; [done|done|]. inversion Hs as [|n' x' c' body' _ _ Hf _ _]; subst.
    clear -IH Hf. induction body as [|i body IHb]; [apply runs_nil|]. apply Forall_cons in IH as [Hi IH], Hf as [Hs Hf]. apply runs_cons; auto. }
  induction 1 as [|i its Hs _ IH]; [apply runs_nil|]. by apply runs_cons; [apply Hi|].
Qed.

End optimize.
End DtOptSpec.
