(* ===== verification/DtPackSpec.v ===== *)
(** * Packing and unpacking follow the type map

    The two directions satisfy the laws of [DtWalkSpec]: packing copies the bytes of the
    type map to the buffers, unpacking writes the bytes of the buffers to the type map. *)

From stdpp Require Import base numbers list gmap.
From S2P Require Import Prelude DtDesc DtWalk DtCopy DtMap DtWalkSpec DtCopySpec.

(** ** Packing copies the bytes of the type map *)

Module DtPackSpec.
Import DtDesc DtWalk DtCopy DtPack DtMap DtWalkSpec DtCopySpec.
Local Open Scope nat_scope.

(** ** Buffers *)

Definition packed (io : packing) (l : list Z) (io' : packing) : Prop :=
  ∃ bs, mapM (pk_mem io !!.) l = Some bs ∧ length l ≤ pk_space io ∧ io' = emit bs io.

Lemma emit_nil io : emit [] io = io.
Proof. destruct io. unfold emit. cbn. by rewrite app_nil_r, Nat.sub_0_r. Qed.

Lemma mapM_app_Some {A B} (f : A → option B) l1 l2 k1 k2 : mapM f l1 = Some k1 → mapM f l2 = Some k2 → mapM f (l1 ++ l2) = Some (k1 ++ k2).
Proof. rewrite !mapM_Some. apply Forall2_app. Qed.

Lemma mapM_mapped (m : memory) l : Forall (λ a, is_Some (m !! a)) l → ∃ bs, mapM (m !!.) l = Some bs.
Proof. induction 1 as [|a l [b Hb] _ [bs IH]]; [by exists []|]. exists (b :: bs). cbn. by rewrite Hb; cbn; rewrite IH. Qed.

#[export] Instance packing_bytes_laws : BytesLaws packing.
Proof.
  refine {| moves := packed; mapped io a := is_Some (pk_mem io !! a) |}.
  - intros io. exists []. split_and!; [done|cbn; lia|by rewrite emit_nil].
  - intros io l io1 l' io2 (bs & Hbs & Hl & ->) (bs' & Hbs' & Hl' & ->). exists (bs ++ bs'). cbn [emit pk_mem pk_space pk_out] in *. pose proof (length_mapM _ _ _ Hbs).
    split_and!; [by apply mapM_app_Some|rewrite length_app; lia|]. unfold emit. cbn. rewrite length_app, <-app_assoc. f_equal. lia.
  - by intros io l io' a (bs & _ & _ & ->).
  - intros io l io' (bs & Hbs%length_mapM & Hl & ->). cbn. lia.
  - intros a n io [bs Hbs]%mapM_mapped Hn. exists (emit bs io). cbn [put packing_bytes]. unfold load. rewrite Hbs. split; [done|]. exists bs. rewrite length_seqZ, Nat2Z.id. done.
Defined.

(** ** The laws of the walk *)

Section laws.
Context `{AbiLaws} (accelerator : bool).

#[export] Instance packing_laws : CopyLaws packing (H0 := packing_copy accelerator).
Proof.
  refine {| moved := moves (IO := packing); pending _ := 0; reach := mapped (IO := packing); closed e io := pk_space io < basic_size (e_type e); elem_fine _ := True |}.
  - apply moves_nil.
  - apply moves_app.
  - exact (moves_room (IO := packing)).
  - exact (moves_mapped (IO := packing)).
  - done.
  - done.
  - done.
  - intros e b count io He _ Hle Hmod _ Hreach. destruct (predefined_data_ok accelerator e b count io He Hle Hmod Hreach) as (k & ptr & io' & ? & ? & ? & ?). by exists k, ptr, io'.
  - intros n x c b body i count io el Hcont _ Hreach. destruct (contiguous_loop_ok n x c b body i count io Hcont Hreach) as (k & io' & ? & ? & ?). by exists k, io'.
  - intros e b count io He _ Hc _ rest Hreach. cbn [copy_partial packing_copy]. assert (Hrest : ∀ c i, rest c i = elem_map b e (e_total e - c) c) by done. clearbody rest.
    destruct (Nat.eqb_spec (e_total e) count) as [<-|Hne].
    + eexists true, (e_total e), _, io, 0. rewrite !Hrest, take_0, drop_0. split_and!; [done|lia|apply moves_nil|lia|done|done|by destruct He|done|]. unfold e_total. apply Nat.Div0.mod_mul.
    + unfold pack_partial_blocklen. rewrite (proj2 (Nat.leb_le count (e_total e))) by lia.
      destruct (partial_blocklen_ok e b count io He Hc Hreach) as (go & k & ptr & io' & -> & Hk & Hp & -> & Hgo).
      eexists go, (count - k), _, io', (length (elem_map b e (e_total e - count) k)). rewrite !Hrest, (elem_map_split b e count k), take_app_length, drop_app_length, length_app by lia.
      split_and!; [done|lia|done|lia|done|done|by destruct He|]. destruct go; [done|split; [lia|apply Hgo]].
  - intros e b count io He _ Hc Hsp rest Hreach. exists io, 0. rewrite take_0, drop_0. split_and!; [done|apply moves_nil| |done|by destruct He|done].
    unfold rest. rewrite drop_0, elem_map_length. destruct He. nia.
Defined.

End laws.
End DtPackSpec.

(** ** Unpacking writes the bytes of the type map *)

Module DtUnpackSpec.
Import DtDesc DtWalk DtCopy DtUnpack DtMap DtWalkSpec DtCopySpec.
Local Open Scope nat_scope.

(** ** Memory *)

(** The bytes [bs] at the addresses [l], in this order. *)
Fixpoint writes (l : list Z) (bs : list byte) (m : memory) : memory :=
  match l, bs with a :: l, b :: bs => writes l bs (<[a := b]> m) | _, _ => m end.

Lemma writes_app l1 l2 bs1 bs2 m : length l1 = length bs1 → writes (l1 ++ l2) (bs1 ++ bs2) m = writes l2 bs2 (writes l1 bs1 m).
Proof.
  revert bs1 m; induction l1 as [|a l1 IH]; intros [|b bs1] m Hl; try done. cbn in *. apply IH. lia.
Qed.

Lemma writes_mapped l bs m a : Forall (λ a, is_Some (m !! a)) l → is_Some (writes l bs m !! a) ↔ is_Some (m !! a).
Proof.
  intros Hl. revert bs m Hl; induction l as [|x l IH]; intros [|b bs] m Hl; try done. cbn. inversion Hl as [|? ? Hx Hl']; subst. rewrite IH.
  - destruct (decide (x = a)) as [->|]; [rewrite lookup_insert_eq|by rewrite lookup_insert_ne]. split; [done|by eauto].
  - eapply Forall_impl; [exact Hl'|]. intros y Hy. cbn. destruct (decide (x = y)) as [->|]; [by rewrite lookup_insert_eq; eauto|by rewrite lookup_insert_ne].
Qed.

(** Consecutive addresses. *)
Lemma lookup_writes_seqZ a bs m x :
  writes (seqZ a (Z.of_nat (length bs))) bs m !! x = if decide (a ≤ x < a + Z.of_nat (length bs))%Z then bs !! Z.to_nat (x - a) else m !! x.
Proof.
  revert a m; induction bs as [|b bs IH]; intros a m; [by rewrite decide_False by (cbn; lia)|]. cbn [length]. rewrite seqZ_cons by lia. cbn [writes].
  replace (Z.pred (Z.of_nat (S (length bs)))) with (Z.of_nat (length bs)) by lia. rewrite IH. destruct (decide (x = a)) as [->|Hne].
  - rewrite decide_False, decide_True, lookup_insert_eq, Z.sub_diag by lia. done.
  - rewrite lookup_insert_ne by done. destruct (decide (Z.succ a ≤ x < Z.succ a + Z.of_nat (length bs))%Z).
    + rewrite decide_True by lia. replace (Z.to_nat (x - a)) with (S (Z.to_nat (x - Z.succ a))) by lia. done.
    + by rewrite decide_False by lia.
Qed.

Lemma store_writes a bs m : Forall (λ a, is_Some (m !! a)) (seqZ a (Z.of_nat (length bs))) → store m a bs = Some (writes (seqZ a (Z.of_nat (length bs))) bs m).
Proof.
  revert a m; induction bs as [|b bs IH]; intros a m Hm; [done|]. cbn [length store] in *. rewrite seqZ_cons in Hm |- * by lia. cbn [writes].
  replace (Z.pred (Z.of_nat (S (length bs)))) with (Z.of_nat (length bs)) in * by lia. inversion Hm as [|? ? [c Hc] Hm']; subst. rewrite Hc. cbn [mbind option_bind]. apply IH.
  eapply Forall_impl; [exact Hm'|]. intros y Hy. cbn. destruct (decide (a = y)) as [->|]; [by rewrite lookup_insert_eq; eauto|by rewrite lookup_insert_ne].
Qed.

Lemma load_lookup m a n bs : load m a n = Some bs ↔ length bs = n ∧ ∀ i, i < n → m !! (a + Z.of_nat i)%Z = bs !! i.
Proof.
  unfold load. rewrite mapM_Some, Forall2_lookup. split.
  - intros Hf. assert (Hlen : length bs = n).
    { apply Forall2_lookup in Hf. apply Forall2_length in Hf. rewrite length_seqZ in Hf. lia. }
    split; [done|]. intros i Hi. specialize (Hf i). rewrite lookup_seqZ_lt in Hf by lia. inversion Hf as [x y Hxy Hx Hy|]; subst. by rewrite Hxy.
  - intros [<- Hi] i. destruct (decide (i < length bs)) as [Hlt|Hge].
    + rewrite lookup_seqZ_lt by lia. destruct (lookup_lt_is_Some_2 bs i Hlt) as [y Hy]. rewrite Hy. constructor. by rewrite Hi.
    + rewrite lookup_seqZ_ge, lookup_ge_None_2 by lia. constructor.
Qed.

(** ** Buffers *)

Definition taken (io : unpacking) (l : list Z) (io' : unpacking) : Prop :=
  ∃ bs, up_in io = bs ++ up_in io' ∧ length bs = length l ∧ Forall (λ a, is_Some (up_mem io !! a)) l ∧ up_mem io' = writes l bs (up_mem io).

Definition unpacked (io : unpacking) (l : list Z) (io' : unpacking) : Prop := taken io l io' ∧ partial_length io' = partial_length io.

Lemma taken_nil io : taken io [] io.
Proof. by exists []. Qed.

Lemma taken_mapped io l io' a : taken io l io' → is_Some (up_mem io' !! a) ↔ is_Some (up_mem io !! a).
Proof. intros (bs & _ & _ & Hm & ->). by apply writes_mapped. Qed.

Lemma taken_app io l io1 l' io2 : taken io l io1 → taken io1 l' io2 → taken io (l ++ l') io2.
Proof.
  intros H1 (bs' & Hin' & Hlen' & Hm' & Hmem'). pose proof H1 as (bs & Hin & Hlen & Hm & Hmem). exists (bs ++ bs'). rewrite <-app_assoc, <-Hin'. split_and!; [done|by rewrite !length_app; lia| |].
  - apply Forall_app. split; [done|]. eapply Forall_impl; [exact Hm'|]. intros a. by rewrite (taken_mapped _ _ _ _ H1).
  - rewrite writes_app by done. by rewrite <-Hmem.
Qed.

Lemma taken_room io l io' : taken io l io' → length (up_in io) = length l + length (up_in io').
Proof. intros (bs & -> & Hl & _). rewrite length_app. lia. Qed.

#[export] Instance unpacking_bytes_laws : BytesLaws unpacking.
Proof.
  refine {| moves := unpacked; mapped io a := is_Some (up_mem io !! a) |}.
  - intros io. split; [apply taken_nil|done].
  - intros io l io1 l' io2 [H1 E1] [H2 E2]. split; [by eapply taken_app|congruence].
  - intros io l io' a [Ht _]. by eapply taken_mapped.
  - intros io l io' [Ht _]. by apply taken_room.
  - intros a n io Hm Hn. cbn [put room unpacking_bytes] in *. rewrite (proj2 (Nat.leb_le _ _) Hn). assert (Hlen : length (take n (up_in io)) = n) by (rewrite length_take; lia).
    rewrite store_writes by (by rewrite Hlen). rewrite Hlen. cbn [mbind option_bind]. eexists. split; [done|]. split; [|done]. exists (take n (up_in io)). cbn [up_in up_mem].
    split_and!; [by rewrite take_drop|by rewrite length_seqZ, Hlen; lia|done|done].
Defined.

(** ** Parts of a basic element *)

Lemma find_unused_byte_ok fuel b data : length (filter (λ x, x ≤ b)%Z data) < fuel → ∃ u, find_unused_byte fuel b data = Some u ∧ u ∉ data.
Proof.
  revert b; induction fuel as [|fuel IH]; intros b Hf; [lia|]. cbn [find_unused_byte]. destruct (existsb (Z.eqb b) data) eqn:E.
  - apply IH. apply existsb_exists in E as (x & Hx%list_elem_of_In & ->%Z.eqb_eq). enough (length (filter (λ y, y ≤ x - 1)%Z data) < length (filter (λ y, y ≤ x)%Z data)) by lia.
    clear -Hx. induction data as [|y data IHd]; [by apply elem_of_nil in Hx|]. rewrite !filter_cons. apply elem_of_cons in Hx as [<-|Hx].
    + rewrite decide_False, decide_True by lia. cbn. apply Nat.lt_succ_r. clear. induction data as [|y data IHd]; [done|]. rewrite !filter_cons.
      destruct (decide (y ≤ x - 1)%Z), (decide (y ≤ x)%Z); cbn; lia.
    + specialize (IHd Hx). destruct (decide (y ≤ x - 1)%Z), (decide (y ≤ x)%Z); cbn; lia.
  - exists b. split; [done|]. intros Hb. enough (existsb (Z.eqb b) data = true) by congruence. apply existsb_exists. exists b. by rewrite <-list_elem_of_In, Z.eqb_refl.
Qed.

(** Putting the old bytes back. *)
Lemma writes_restore m a n p u data saved : load m a n = Some saved → u ∉ data → p + length data ≤ n →
  let temporary := replicate p u ++ data ++ replicate (n - p - length data) u in
  writes (seqZ a (Z.of_nat n)) (zip_with (λ new old, if (u =? new)%Z then old else new) temporary saved) (writes (seqZ a (Z.of_nat n)) temporary m) =
  writes (seqZ (a + Z.of_nat p) (Z.of_nat (length data))) data m.
Proof.
  intros [Hlen Hsaved]%load_lookup Hu Hp temporary. assert (Ht : length temporary = n) by (unfold temporary; rewrite !length_app, !length_replicate; lia).
  set (final := zip_with _ _ _). assert (Hf : length final = n) by (unfold final; rewrite length_zip_with; lia).
  apply map_eq. intros x. rewrite <-Ht at 2. rewrite <-Hf at 1. rewrite !lookup_writes_seqZ, Hf, Ht.
  destruct (decide (a ≤ x < a + Z.of_nat n)%Z) as [Hx|Hx]; [|by rewrite decide_False by lia].
  set (i := Z.to_nat (x - a)). assert (Hi : i < n) by lia. assert (Hxi : x = (a + Z.of_nat i)%Z) by lia. destruct (lookup_lt_is_Some_2 saved i ltac:(lia)) as [old Hold].
  assert (Hmx : m !! x = Some old) by (by rewrite Hxi, Hsaved). unfold final. rewrite lookup_zip_with, Hold.
  destruct (decide (a + Z.of_nat p ≤ x < a + Z.of_nat p + Z.of_nat (length data))%Z) as [Hd|Hd].
  - assert (Hti : temporary !! i = data !! (i - p)).
    { unfold temporary. rewrite lookup_app_r, length_replicate, lookup_app_l by (rewrite ?length_replicate; lia). done. }
    destruct (lookup_lt_is_Some_2 data (i - p) ltac:(lia)) as [y Hy]. replace (Z.to_nat (x - (a + Z.of_nat p))) with (i - p) by lia. rewrite Hti, Hy. cbn.
    destruct (Z.eqb_spec u y) as [<-|]; [|done]. destruct Hu. by eapply list_elem_of_lookup_2.
  - assert (Hti : temporary !! i = Some u).
    { unfold temporary. destruct (decide (i < p)); [rewrite lookup_app_l by (by rewrite length_replicate); by apply lookup_replicate_2|].
      rewrite lookup_app_r, length_replicate, lookup_app_r by (rewrite ?length_replicate; lia). apply lookup_replicate_2. lia. }
    rewrite Hti, Hmx. cbn. by rewrite Z.eqb_refl.
Qed.

Section laws.
Context `{AbiLaws} (accelerator : bool) (temporary_buffer : Z).

(** One basic element as an entry of its own. *)
Definition single (e : ddt_elem_desc_t) : ddt_elem_desc_t := mk_elem (e_type e) 1 1 (Z.of_nat (basic_size (e_type e))) 0.

Lemma single_ok e : elem_ok e → basic_size (e_type e) ≤ buffer_size → elem_ok (single e).
Proof. intros [_ _ Hs _] Hb. unfold buffer_size in Hb. split; cbn; [lia|lia|done|by left]. Qed.

Lemma unpack_single e u m data : elem_ok e → basic_size (e_type e) ≤ buffer_size → length data = basic_size (e_type e) →
  Forall (λ a, is_Some (m !! a)) (seqZ u (Z.of_nat (basic_size (e_type e)))) →
  ∃ c ptr io', unpack_predefined_data accelerator (single e) 1 u (mk_unpacking m temporary_buffer data 0) = Some (c, ptr, io') ∧
    up_mem io' = writes (seqZ u (Z.of_nat (basic_size (e_type e)))) data m.
Proof.
  intros He Hb Hlen Hm. assert (Hmap : elem_map u (single e) 0 1 = seqZ u (Z.of_nat (basic_size (e_type e)))).
  { unfold elem_map. cbn. rewrite app_nil_r. f_equal. unfold basic_at. cbn. lia. }
  assert (Hat : basic_at u (single e) (e_total (single e) - 1) = u) by (unfold basic_at; cbn; lia).
  destruct (predefined_data_ok accelerator (single e) u 1 (mk_unpacking m temporary_buffer data 0) (single_ok e He Hb)) as (k & ptr & io' & Hk & Hd & _ & Hmv).
  { done. }
  { done. }
  { change (e_total (single e) - 1) with 0. rewrite Hmap. exact Hm. }
  rewrite Hat in Hd. change (e_disp (single e)) with 0%Z in Hd. rewrite Z.sub_0_r in Hd. unfold unpack_predefined_data. rewrite Hd. eexists _, _, io'. split; [done|].
  change (e_total (single e) - 1) with 0 in Hmv. assert (Hs : 0 < basic_size (e_type e)) by (by destruct He).
  change (room _) with (length data) in Hk. change (e_type (single e)) with (e_type e) in Hk. rewrite Hlen, Nat.div_same in Hk by lia. subst k. change (1 `min` 1) with 1 in Hmv. rewrite Hmap in Hmv.
  destruct Hmv as [(bs & Hin & Hbs & _ & Hmem) _]. cbn [up_in up_mem] in Hin, Hmem. rewrite length_seqZ in Hbs. rewrite Hmem. f_equal.
  assert (length (up_in io') = 0) by (apply (f_equal length) in Hin; rewrite length_app in Hin; lia). destruct (up_in io'); [|done]. by rewrite app_nil_r in Hin.
Qed.

Lemma elem_map_head b e m k : 0 < k → elem_map b e m k = seqZ (basic_at b e m) (Z.of_nat (basic_size (e_type e))) ++ elem_map b e (S m) (k - 1).
Proof. intros Hk. destruct k as [|k]; [lia|]. by rewrite Nat.sub_1_r. Qed.

(** The next element. *)
Lemma next_element b e count : elem_ok e → 0 < count ≤ e_total e →
  (basic_at b e (e_total e - count) - e_disp e + Z.of_nat (basic_size (e_type e)) +
    (if ((count - 1) mod e_blocklen e =? 0)%nat then e_extent e - Z.of_nat (e_blocklen e * basic_size (e_type e)) else 0))%Z =
  (basic_at b e (e_total e - (count - 1)) - e_disp e)%Z.
Proof.
  intros [_ Hb _ _] Hc. set (m := e_total e - count). replace (e_total e - (count - 1)) with (m + 1) by (unfold m; lia).
  assert (Hmod : m mod e_blocklen e + 1 ≤ e_blocklen e) by (pose proof (Nat.mod_upper_bound m (e_blocklen e)); lia). rewrite basic_at_in_block by done.
  assert ((m mod e_blocklen e + 1 =? e_blocklen e) = ((count - 1) mod e_blocklen e =? 0)) as ->; [|lia].
  assert (Hsum : (m + 1 + (count - 1)) mod e_blocklen e = 0) by (replace (m + 1 + (count - 1)) with (e_total e) by (unfold m; lia); apply Nat.Div0.mod_mul).
  pose proof (Nat.div_mod_eq m (e_blocklen e)). pose proof (Nat.div_mod_eq (count - 1) (e_blocklen e)). pose proof (Nat.mod_upper_bound (count - 1) (e_blocklen e)).
  apply Nat.Div0.div_exact in Hsum. set (x := m mod e_blocklen e) in *. set (y := (count - 1) mod e_blocklen e) in *.
  set (q1 := m / e_blocklen e) in *. set (q2 := (count - 1) / e_blocklen e) in *. set (q3 := (m + 1 + (count - 1)) / e_blocklen e) in *.
  assert (q3 = q1 + q2 + 1) by nia.
  destruct (Nat.eqb_spec (x + 1) (e_blocklen e)), (Nat.eqb_spec y 0); try done; exfalso; nia.
Qed.

Lemma partial_predefined_ok e b count io : elem_ok e → basic_size (e_type e) ≤ buffer_size → 0 < count ≤ e_total e → partial_length io < basic_size (e_type e) → 0 < partial_length io + length (up_in io) →
  Forall (λ a, is_Some (up_mem io !! a)) (elem_map b e (e_total e - count) count) →
  let p := partial_length io in let size := basic_size (e_type e) in let n := (size - p) `min` length (up_in io) in
  ∃ count' ptr io', opal_unpack_partial_predefined accelerator temporary_buffer e count (basic_at b e (e_total e - count) - e_disp e) io = Some (count', ptr, io') ∧
    taken io (seqZ (basic_at b e (e_total e - count) + Z.of_nat p) (Z.of_nat n)) io' ∧ partial_length io' = (p + n) mod size ∧
    count' = (if p + n =? size then count - 1 else count) ∧ ptr = (basic_at b e (e_total e - count') - e_disp e)%Z.
Proof.
  intros He Hb Hc Hp Hpos Hm. cbv zeta. set (p := partial_length io) in *. set (size := basic_size (e_type e)) in *. set (n := (size - p) `min` length (up_in io)).
  set (data := take n (up_in io)). assert (Hn : length data = n) by (unfold data; rewrite length_take; lia). set (u := basic_at b e (e_total e - count)).
  assert (Hmu : Forall (λ a, is_Some (up_mem io !! a)) (seqZ u (Z.of_nat size))) by (rewrite elem_map_head in Hm by lia; by apply Forall_app in Hm as [? _]).
  unfold opal_unpack_partial_predefined. fold size p n data. replace (u - e_disp e + e_disp e)%Z with u by lia.
  destruct (find_unused_byte_ok (S n) 127 data) as (ub & -> & Hub). { pose proof (length_filter (λ x, x ≤ 127)%Z data). lia. }
  cbn [mbind option_bind]. rewrite (proj2 (Nat.leb_le _ _) Hb), (proj2 (Nat.ltb_lt _ _) Hp). cbn [andb].
  assert (Hload : ∃ saved, load (up_mem io) u size = Some saved) by (clear -Hmu; unfold load; induction Hmu as [|a l [y Hy] _ [bs IH]]; [by exists []|]; exists (y :: bs); cbn; by rewrite Hy; cbn; rewrite IH).
  destruct Hload as [saved Hload]. rewrite Hload. cbn [mbind option_bind]. set (temporary := replicate p ub ++ data ++ replicate (size - p - n) ub).
  assert (Ht : length temporary = size) by (unfold temporary; rewrite !length_app, !length_replicate; lia).
  destruct (unpack_single e u (up_mem io) temporary He Hb Ht Hmu) as (c & ptr & tmp & Htmp & Hmem). fold size in Htmp, Hmem. unfold single in Htmp. fold size in Htmp. rewrite Htmp. cbn [mbind option_bind].
  assert (Hload2 : load (up_mem tmp) u size = Some temporary).
  { rewrite Hmem. apply load_lookup. split; [done|]. intros i Hi. rewrite <-Ht, lookup_writes_seqZ, decide_True by lia. f_equal. lia. }
  rewrite Hload2. cbn [mbind option_bind]. pose proof Hload as [Hls _]%load_lookup. rewrite store_writes; rewrite length_zip_with, Ht, Hls, Nat.min_id, Hmem.
  2:{ eapply Forall_impl; [exact Hmu|]. intros a Ha. by apply writes_mapped. }
  cbn [mbind option_bind]. unfold temporary.
  pose proof (writes_restore (up_mem io) u size p ub data saved Hload Hub ltac:(lia)) as Hw. cbv zeta in Hw. rewrite Hn in Hw. rewrite Hw.
  assert (Htaken : ∀ q, taken io (seqZ (u + Z.of_nat p) (Z.of_nat n)) (mk_unpacking (writes (seqZ (u + Z.of_nat p) (Z.of_nat n)) data (up_mem io)) (up_packed io + Z.of_nat n) (drop n (up_in io)) q)).
  { intros q. exists data. cbn. split_and!; [unfold data; by rewrite take_drop|by rewrite length_seqZ, Hn; lia| |done].
    apply Forall_forall. intros a Ha%elem_of_seqZ. rewrite Forall_forall in Hmu. apply Hmu, elem_of_seqZ. lia. }
  destruct (Nat.eqb_spec (p + n) size) as [Hfull|Hpart].
  - rewrite Hfull, Nat.Div0.mod_same. cbn [Nat.eqb]. rewrite (proj2 (Nat.eqb_neq (e_blocklen e) 0)) by (destruct He; lia). cbn [negb].
    eexists _, _, _. split_and!; [done|apply Htaken|done|done|]. rewrite <-(next_element b e count He Hc). fold size. destruct (_ =? _)%nat; lia.
  - rewrite Nat.mod_small, (proj2 (Nat.eqb_neq (p + n) 0)) by lia. eexists _, _, _. split_and!; [done|apply Htaken|done|done|done].
Qed.

Lemma take_drop_seqZ a k n : k ≤ n →
  take k (seqZ a (Z.of_nat n)) = seqZ a (Z.of_nat k) ∧ drop k (seqZ a (Z.of_nat n)) = seqZ (a + Z.of_nat k) (Z.of_nat (n - k)).
Proof.
  intros Hk. assert (seqZ a (Z.of_nat n) = seqZ a (Z.of_nat k) ++ seqZ (a + Z.of_nat k) (Z.of_nat (n - k))) as ->.
  { rewrite <-seqZ_app. do 2 f_equal. lia. }
  split; [apply take_app_length'|apply drop_app_length']; rewrite length_seqZ; lia.
Qed.

(** The same in terms of what is left of the entry. *)
Lemma partial_rest e b count io : elem_ok e → basic_size (e_type e) ≤ buffer_size → 0 < count ≤ e_total e → partial_length io < basic_size (e_type e) →
  0 < partial_length io + length (up_in io) → Forall (λ a, is_Some (up_mem io !! a)) (elem_map b e (e_total e - count) count) →
  let rest count io := drop (partial_length io) (elem_map b e (e_total e - count) count) in
  let n := (basic_size (e_type e) - partial_length io) `min` length (up_in io) in
  ∃ count' ptr io', opal_unpack_partial_predefined accelerator temporary_buffer e count (basic_at b e (e_total e - count) - e_disp e) io = Some (count', ptr, io') ∧
    taken io (take n (rest count io)) io' ∧ n ≤ length (rest count io) ∧ drop n (rest count io) = rest count' io' ∧ ptr = (basic_at b e (e_total e - count') - e_disp e)%Z ∧
    length (up_in io') = length (up_in io) - n ∧
    if partial_length io + n =? basic_size (e_type e) then count' = count - 1 ∧ partial_length io' = 0 else count' = count ∧ partial_length io' = partial_length io + n.
Proof.
  intros He Hb Hc Hp Hpos Hm. cbv zeta. destruct (partial_predefined_ok e b count io He Hb Hc Hp Hpos Hm) as (count' & ptr & io' & Hrun & Htk & Hpl & Hct & Hptr).
  set (p := partial_length io) in *. set (size := basic_size (e_type e)) in *. set (n := (size - p) `min` length (up_in io)) in *. set (u := basic_at b e (e_total e - count)) in *.
  assert (Hrest : drop p (elem_map b e (e_total e - count) count) = seqZ (u + Z.of_nat p) (Z.of_nat (size - p)) ++ elem_map b e (e_total e - (count - 1)) (count - 1)).
  { rewrite elem_map_head by lia. rewrite drop_app_le by (rewrite length_seqZ; lia). fold u size. rewrite (proj2 (take_drop_seqZ u p size ltac:(lia))). do 2 f_equal. lia. }
  exists count', ptr, io'. pose proof (taken_room _ _ _ Htk) as Hroom. rewrite length_seqZ in Hroom. rewrite Hrest, take_app_le, drop_app_le, length_app, length_seqZ by (rewrite length_seqZ; lia).
  destruct (take_drop_seqZ (u + Z.of_nat p) n (size - p) ltac:(lia)) as [-> Hdr]. split_and!; [done|done|lia| |done|lia|].
  - rewrite Hpl, Hct. destruct (Nat.eqb_spec (p + n) size) as [Hf|Hf].
    + rewrite Hf, Nat.Div0.mod_same, drop_0, Hdr. replace (size - p - n) with 0 by lia. done.
    + rewrite Nat.mod_small by lia. rewrite <-drop_drop, Hrest, drop_app_le by (rewrite length_seqZ; lia). done.
  - rewrite Hpl. destruct (Nat.eqb_spec (p + n) size) as [Hf|Hf]; [by rewrite Hf, Nat.Div0.mod_same|]. by rewrite Nat.mod_small by lia.
Qed.

(** What is done at the start of a buffer when no element is partly there. *)
Lemma unpack_blocks_ok e b count io : elem_ok e → 0 < count ≤ e_total e → partial_length io = 0 →
  Forall (mapped io) (elem_map b e (e_total e - count) count) →
  ∃ go k ptr io',
    (if e_total e =? count then Some (true, (count, (basic_at b e (e_total e - count) - e_disp e)%Z, io))
     else unpack_partial_blocklen e count (basic_at b e (e_total e - count) - e_disp e) io) = Some (go, (count - k, ptr, io')) ∧
    k ≤ count ∧ unpacked io (elem_map b e (e_total e - count) k) io' ∧ ptr = (basic_at b e (e_total e - (count - k)) - e_disp e)%Z ∧
    if go : bool then (count - k) mod e_blocklen e = 0 else k < count ∧ length (up_in io') < basic_size (e_type e).
Proof.
  intros He Hc Hp Hm. destruct (Nat.eqb_spec (e_total e) count) as [<-|Hne].
  { eexists true, 0, _, io. rewrite Nat.sub_0_r. split_and!; [done|lia|by split; [apply taken_nil|]|done|apply Nat.Div0.mod_mul]. }
  unfold unpack_partial_blocklen. rewrite (proj2 (Nat.leb_le count (e_total e))) by lia. destruct (Nat.ltb_spec (length (up_in io)) (basic_size (e_type e))) as [Hl|Hl].
  { eexists false, 0, _, io. rewrite Nat.sub_0_r. split_and!; [done|lia|by split; [apply taken_nil|]|done|lia|done]. }
  destruct (partial_blocklen_ok e b count io He Hc Hm) as (go & k & ptr & io' & -> & ? & ? & ? & ?). by exists go, k, ptr, io'.
Qed.

Lemma unpack_start_ok e b count io : elem_ok e → basic_size (e_type e) ≤ buffer_size → 0 < count ≤ e_total e → partial_length io < basic_size (e_type e) →
  let rest count io := drop (partial_length io) (elem_map b e (e_total e - count) count) in
  Forall (mapped io) (elem_map b e (e_total e - count) count) →
  ∃ go count' ptr io' k, unpack_start accelerator temporary_buffer e count (basic_at b e (e_total e - count) - e_disp e)%Z io = Some (go, (count', ptr, io')) ∧
    count' ≤ count ∧ taken io (take k (rest count io)) io' ∧ k ≤ length (rest count io) ∧ drop k (rest count io) = rest count' io' ∧
    (0 < count' → ptr = (basic_at b e (e_total e - count') - e_disp e)%Z) ∧ partial_length io' < basic_size (e_type e) ∧
    (if go : bool then partial_length io' = 0 ∧ count' mod e_blocklen e = 0 else 0 < count' ∧ partial_length io' + length (up_in io') < basic_size (e_type e)).
Proof.
  intros He Hb Hc Hp rest Hm. assert (Hs : 0 < basic_size (e_type e)) by (by destruct He). unfold unpack_start. destruct (Nat.eqb_spec (partial_length io) 0) as [Hp0|Hp0].
  - destruct (unpack_blocks_ok e b count io He Hc Hp0 Hm) as (go & k & ptr & io' & Hrun & Hk & [Htk Hpl] & Hptr & Hgo).
    eexists go, _, ptr, io', (length (elem_map b e (e_total e - count) k)). rewrite Hp0 in Hpl.
    unfold rest. rewrite Hp0, Hpl, !drop_0, (elem_map_split b e count k), take_app_length, drop_app_length, length_app by lia.
    split_and!; [exact Hrun|lia|done|lia|done|done|lia|]. destruct go; [done|]. cbn. lia.
  - destruct (partial_rest e b count io He Hb Hc Hp ltac:(lia) Hm) as (c1 & p1 & io1 & Hrun1 & Htk1 & Hn1 & Hd1 & Hp1 & Hlen1 & Hif).
    set (n := (_ - _) `min` _) in *. rewrite Hrun1. cbn [mbind option_bind].
    assert (Hc1 : c1 ≤ count ∧ partial_length io1 < basic_size (e_type e) ∧ (length (up_in io1) ≠ 0 → partial_length io1 = 0)).
    { destruct (Nat.eqb_spec (partial_length io + n) (basic_size (e_type e))); destruct Hif as [-> ->]; lia. } destruct Hc1 as (Hc1 & Hq1 & Hfull).
    destruct (Nat.eqb_spec c1 0) as [->|Hne].
    + destruct (_ =? basic_size _); [|lia]. destruct Hif as [_ Hif]. rewrite Hif. cbn [Nat.eqb].
      eexists true, 0, p1, io1, n. split_and!; [done|lia|done|done|done|lia|lia|done|apply Nat.Div0.mod_0_l].
    + destruct (Nat.eqb_spec (length (up_in io1)) 0) as [Hl|Hl].
      { eexists false, c1, p1, io1, n. split_and!; [done|lia|done|done|done|done|lia|lia|lia]. }
      specialize (Hfull Hl). assert (Hm1 : Forall (mapped io1) (elem_map b e (e_total e - c1) c1)).
      { rewrite (elem_map_split b e count (count - c1)) in Hm by lia. replace (count - (count - c1)) with c1 in Hm by lia. apply Forall_app in Hm as [_ Hm].
        eapply Forall_impl; [exact Hm|]. intros a Ha. by apply (taken_mapped _ _ _ a Htk1). }
      destruct (unpack_blocks_ok e b c1 io1 He ltac:(lia) Hfull Hm1) as (go & k & ptr & io' & Hrun & Hk & [Htk Hpl] & Hptr & Hgo). rewrite Hfull in Hpl.
      set (j := length (elem_map b e (e_total e - c1) k)).
      assert (Hr1 : drop n (rest count io) = elem_map b e (e_total e - c1) k ++ elem_map b e (e_total e - (c1 - k)) (c1 - k)).
      { unfold rest at 1. rewrite Hd1, Hfull, drop_0. apply elem_map_split. lia. }
      assert (Hlen : n + j ≤ length (rest count io)) by (apply (f_equal length) in Hr1; rewrite length_drop, length_app in Hr1; fold j in Hr1; unfold rest in *; lia).
      exists go, (c1 - k), ptr, io', (n + j). rewrite <-take_take_drop, <-drop_drop, Hr1. unfold j. rewrite take_app_length, drop_app_length. fold j.
      split_and!; [by rewrite Hp1|lia|by eapply taken_app|done|unfold rest; by rewrite Hpl, drop_0|done|lia|]. destruct go; [done|]. lia.
Qed.

Lemma unpack_end_ok e b count io : elem_ok e → basic_size (e_type e) ≤ buffer_size → 0 < count ≤ e_total e → partial_length io + length (up_in io) < basic_size (e_type e) →
  let rest io := drop (partial_length io) (elem_map b e (e_total e - count) count) in
  Forall (mapped io) (elem_map b e (e_total e - count) count) →
  ∃ io' k, unpack_end accelerator temporary_buffer e count (basic_at b e (e_total e - count) - e_disp e)%Z io = Some (count, io') ∧
    taken io (take k (rest io)) io' ∧ k < length (rest io) ∧ drop k (rest io) = rest io' ∧ partial_length io' < basic_size (e_type e) ∧ up_in io' = [].
Proof.
  intros He Hb Hc Hsp rest Hm. assert (Hlen : basic_size (e_type e) - partial_length io ≤ length (rest io)) by (unfold rest; rewrite length_drop, elem_map_length; nia).
  unfold unpack_end. destruct (Nat.eqb_spec (length (up_in io)) 0) as [Hl|Hl].
  { exists io, 0. rewrite take_0, drop_0. split_and!; [done|apply taken_nil|lia|done|lia|]. by destruct (up_in io). }
  rewrite (proj2 (Nat.ltb_lt _ (basic_size (e_type e)))) by lia. destruct (partial_rest e b count io He Hb Hc ltac:(lia) ltac:(lia) Hm) as (c1 & p1 & io1 & -> & Htk1 & Hn1 & Hd1 & Hp1 & Hlen1 & Hif).
  set (n := (_ - _) `min` _) in *. assert (n = length (up_in io)) by (unfold n; lia). rewrite (proj2 (Nat.eqb_neq (partial_length io + n) _)) in Hif by lia. destruct Hif as [-> Hq].
  exists io1, n. split_and!; [done|done|unfold rest in *; lia|done|lia|]. destruct (up_in io1); [done|cbn in Hlen1; lia].
Qed.

#[export] Instance unpacking_laws : CopyLaws unpacking (H0 := unpacking_copy accelerator temporary_buffer).
Proof.
  refine {| moved := taken; pending := partial_length; reach := mapped (IO := unpacking); closed _ io := up_in io = []; elem_fine e := basic_size (e_type e) ≤ buffer_size |}.
  - apply taken_nil.
  - apply taken_app.
  - apply taken_room.
  - intros io l io' a. apply taken_mapped.
  - done.
  - done.
  - done.
  - intros e b count io He _ Hle Hmod Hp Hreach. destruct (predefined_data_ok accelerator e b count io He Hle Hmod Hreach) as (k & ptr & io' & ? & ? & ? & [? Hp']).
    exists k, ptr, io'. by rewrite Hp'.
  - intros n x c b body i count io el Hcont Hp Hreach. destruct (contiguous_loop_ok n x c b body i count io Hcont Hreach) as (k & io' & ? & ? & [? Hp']).
    exists k, io'. by rewrite Hp'.
  - exact unpack_start_ok.
  - exact unpack_end_ok.
Defined.

End laws.
End DtUnpackSpec.
