(* ===== verification/DtConv.v ===== *)
(** * Convertors ([opal/datatype/opal_convertor.h], [opal_convertor.c], the contiguous
    cases of [opal_datatype_pack.c] and [opal_datatype_unpack.c])

    A convertor walks over a number of elements of a datatype in the user's memory,
    buffer by buffer.  The model is that of a convertor between two processes of the same
    architecture; whether memory belongs to an accelerator is up to the accelerator
    component ([check_addr]).  [opal_convertor.c] is compiled without [CHECKSUM]. *)

From stdpp Require Import base numbers list gmap.
From S2P Require Import Prelude DtDesc DtWalk DtCopy.

Module DtConv.
Import DtDesc DtWalk DtCopy DtPack DtUnpack.
Local Open Scope c_scope.
Local Open Scope nat_scope.

Definition CONVERTOR_DATATYPE_MASK : Z := 0x0000FFFF.
Definition CONVERTOR_SEND_CONVERSION : Z := 0x00010000.
Definition CONVERTOR_RECV : Z := 0x00020000.
Definition CONVERTOR_SEND : Z := 0x00040000.
Definition CONVERTOR_HOMOGENEOUS : Z := 0x00080000.
Definition CONVERTOR_NO_OP : Z := 0x00100000.
Definition CONVERTOR_WITH_CHECKSUM : Z := 0x00200000.
Definition CONVERTOR_ACCELERATOR : Z := 0x00400000.
Definition CONVERTOR_TYPE_MASK : Z := 0x10FF0000.
Definition CONVERTOR_COMPLETED : Z := 0x08000000.
Definition CONVERTOR_ACCELERATOR_UNIFIED : Z := 0x10000000.
Definition CONVERTOR_HAS_REMOTE_SIZE : Z := 0x20000000.
Definition CONVERTOR_SKIP_ACCELERATOR_INIT : Z := 0x40000000.

Definition DT_STATIC_STACK_SIZE : nat := 5.

(** The values of [fAdvance]. *)
Inductive advance :=
| opal_pack_general | opal_pack_homogeneous_contig | opal_pack_homogeneous_contig_with_gaps | opal_generic_simple_pack
| opal_unpack_general | opal_unpack_homogeneous_contig | opal_generic_simple_unpack.

(** [pStack] is the used part of the stack, its top first: [stack_pos] is one less than
    its length. *)
Record opal_convertor_t := mk_convertor {
  c_flags : Z; local_size : nat; remote_size : nat;
  pDesc : option opal_datatype_t; c_count : nat;
  stack_size : nat; pBaseBuf : Z; pStack : list dt_stack_t; fAdvance : option advance;
  c_partial_length : nat; bConverted : nat;
}.

Definition set_flags (f : Z) (c : opal_convertor_t) : opal_convertor_t :=
  mk_convertor f (local_size c) (remote_size c) (pDesc c) (c_count c) (stack_size c) (pBaseBuf c) (pStack c) (fAdvance c) (c_partial_length c) (bConverted c).
Definition add_flags (f : Z) (c : opal_convertor_t) : opal_convertor_t := set_flags (Z.lor (c_flags c) f) c.
Definition drop_flags (f : Z) (c : opal_convertor_t) : opal_convertor_t := set_flags (Z.ldiff (c_flags c) f) c.
Definition set_advance (f : advance) (c : opal_convertor_t) : opal_convertor_t :=
  mk_convertor (c_flags c) (local_size c) (remote_size c) (pDesc c) (c_count c) (stack_size c) (pBaseBuf c) (pStack c) (Some f) (c_partial_length c) (bConverted c).
Definition set_converted (n : nat) (c : opal_convertor_t) : opal_convertor_t :=
  mk_convertor (c_flags c) (local_size c) (remote_size c) (pDesc c) (c_count c) (stack_size c) (pBaseBuf c) (pStack c) (fAdvance c) (c_partial_length c) n.

(** The stack with its size, the partial length and the bytes that are converted. *)
Definition set_stack (size : nat) (s : list dt_stack_t) (p n : nat) (c : opal_convertor_t) : opal_convertor_t :=
  mk_convertor (c_flags c) (local_size c) (remote_size c) (pDesc c) (c_count c) size (pBaseBuf c) s (fAdvance c) p n.

(** ** Construction *)

(** A convertor as [opal_convertor_construct] leaves it; the other fields are those of
    the memory it is in. *)
Definition opal_convertor_construct (c : opal_convertor_t) : opal_convertor_t :=
  mk_convertor (Z.lor OPAL_DATATYPE_FLAG_NO_GAPS CONVERTOR_COMPLETED) (local_size c) (remote_size c) (pDesc c) (c_count c)
    DT_STATIC_STACK_SIZE (pBaseBuf c) (pStack c) (fAdvance c) 0 (bConverted c).

Definition opal_convertor_cleanup (c : opal_convertor_t) : opal_convertor_t :=
  mk_convertor (Z.lor OPAL_DATATYPE_FLAG_NO_GAPS CONVERTOR_COMPLETED) (local_size c) (remote_size c) None (c_count c)
    (if DT_STATIC_STACK_SIZE <? stack_size c then DT_STATIC_STACK_SIZE else stack_size c) (pBaseBuf c) (drop (length (pStack c) - 1) (pStack c)) (fAdvance c) (c_partial_length c) (bConverted c).

(** The remote process has the same architecture: no basic type has to be converted. *)
Definition opal_convertor_compute_remote_size (c : opal_convertor_t) : nat * opal_convertor_t :=
  (local_size c,
   mk_convertor (Z.lor (c_flags c) CONVERTOR_HAS_REMOTE_SIZE) (local_size c) (local_size c) (pDesc c) (c_count c) (stack_size c) (pBaseBuf c) (pStack c) (fAdvance c)
     (c_partial_length c) (bConverted c)).

(** [opal_convertor_create_stack_at_begining]. *)
Definition stack_at_begining (c : opal_convertor_t) : option opal_convertor_t :=
  d ← pDesc c;
  s ← opal_convertor_create_stack_at_begining (opt_desc d) (c_count c);
  Some (set_stack (stack_size c) s 0 0 c).

(** [true] when the macro returns from the function it is used in. *)
Definition OPAL_CONVERTOR_PREPARE (c : opal_convertor_t) (datatype : opal_datatype_t) (count : nat) (pUserBuf : Z) : option (bool * opal_convertor_t) :=
  let c := mk_convertor (c_flags c) (Z.to_nat (wrap 64 (Z.of_nat (count * d_size datatype)))) (remote_size c) (Some datatype) count (stack_size c) pUserBuf
             (pStack c) (fAdvance c) (c_partial_length c) 0 in
  if (count =? 0) || (d_size datatype =? 0) then
    Some (true, mk_convertor (Z.lor (c_flags c) (Z.lor OPAL_DATATYPE_FLAG_NO_GAPS (Z.lor CONVERTOR_COMPLETED CONVERTOR_HAS_REMOTE_SIZE))) 0 0 (pDesc c) count
                  (stack_size c) pUserBuf (pStack c) (fAdvance c) (c_partial_length c) 0)
  else
    let flags := Z.land (c_flags c) CONVERTOR_TYPE_MASK in
    let flags := Z.lor flags (Z.land CONVERTOR_DATATYPE_MASK (d_flags datatype)) in
    let flags := Z.lor flags (Z.lor CONVERTOR_NO_OP CONVERTOR_HOMOGENEOUS) in
    let c := mk_convertor flags (local_size c) (local_size c) (pDesc c) count (stack_size c) pUserBuf (pStack c) (fAdvance c) (c_partial_length c) 0 in
    if negb (flag flags CONVERTOR_WITH_CHECKSUM) &&
       (flag flags OPAL_DATATYPE_FLAG_NO_GAPS || (flag flags OPAL_DATATYPE_FLAG_CONTIGUOUS && (count =? 1))) then Some (true, c)
    else
      let '(_, c) := opal_convertor_compute_remote_size c in
      safe negb (length (opt_desc datatype) =? 0);
      let flags := c_flags c in
      if negb (flag flags CONVERTOR_WITH_CHECKSUM) && flag flags OPAL_DATATYPE_FLAG_NO_GAPS && (flag flags CONVERTOR_SEND && flag flags CONVERTOR_HOMOGENEOUS) then Some (true, c)
      else
        let c := drop_flags CONVERTOR_NO_OP c in
        let required_stack_length := d_loops datatype + 1 in
        safe negb (stack_size c <? required_stack_length) || (stack_size c =? DT_STATIC_STACK_SIZE);
        let c := set_stack (if stack_size c <? required_stack_length then required_stack_length else stack_size c) (pStack c) (c_partial_length c) (bConverted c) c in
        c ← stack_at_begining c;
        Some (false, c).

Section prepare.
(** What the accelerator component says of an address: whether it is memory of a device,
    whether that is unified memory. *)
Context (check_addr : Z → bool * bool).

Definition opal_convertor_accelerator_init (c : opal_convertor_t) (addr : Z) : opal_convertor_t :=
  let '(device, unified) := check_addr addr in
  let c := if device : bool then add_flags CONVERTOR_ACCELERATOR c else c in
  if unified : bool then add_flags CONVERTOR_ACCELERATOR_UNIFIED c else c.

Definition opal_convertor_prepare_for_recv (c : opal_convertor_t) (datatype : opal_datatype_t) (count : nat) (pUserBuf : Z) : option opal_convertor_t :=
  let c := add_flags CONVERTOR_RECV c in
  let c := if flag (c_flags c) CONVERTOR_SKIP_ACCELERATOR_INIT then c else opal_convertor_accelerator_init c pUserBuf in
  safe negb (flag (c_flags c) CONVERTOR_SEND);
  '(returned, c) ← OPAL_CONVERTOR_PREPARE c datatype count pUserBuf;
  Some (if returned : bool then c
        else if negb (flag (c_flags c) CONVERTOR_HOMOGENEOUS) then set_advance opal_unpack_general c
        else if flag (d_flags datatype) OPAL_DATATYPE_FLAG_CONTIGUOUS then set_advance opal_unpack_homogeneous_contig c
        else set_advance opal_generic_simple_unpack c).

Definition opal_convertor_prepare_for_send (c : opal_convertor_t) (datatype : opal_datatype_t) (count : nat) (pUserBuf : Z) : option opal_convertor_t :=
  let c := add_flags CONVERTOR_SEND c in
  let c := if flag (c_flags c) CONVERTOR_SKIP_ACCELERATOR_INIT then c else opal_convertor_accelerator_init c pUserBuf in
  '(returned, c) ← OPAL_CONVERTOR_PREPARE c datatype count pUserBuf;
  Some (if returned : bool then c
        else if flag (c_flags c) CONVERTOR_SEND_CONVERSION && negb (flag (c_flags c) CONVERTOR_HOMOGENEOUS) then set_advance opal_pack_general c
        else if flag (d_flags datatype) OPAL_DATATYPE_FLAG_CONTIGUOUS then
          if (d_extent datatype =? Z.of_nat (d_size datatype))%Z || (c_count c <=? 1) then set_advance opal_pack_homogeneous_contig c
          else set_advance opal_pack_homogeneous_contig_with_gaps c
        else set_advance opal_generic_simple_pack c).

End prepare.

Definition opal_convertor_copy_and_prepare_for_send (check_addr : Z → bool * bool) (src : opal_convertor_t) (datatype : opal_datatype_t) (count : nat) (pUserBuf : Z)
    (flags : Z) (c : opal_convertor_t) : option opal_convertor_t :=
  opal_convertor_prepare_for_send check_addr (set_flags (Z.lor (c_flags src) flags) c) datatype count pUserBuf.

Definition opal_convertor_copy_and_prepare_for_recv (check_addr : Z → bool * bool) (src : opal_convertor_t) (datatype : opal_datatype_t) (count : nat) (pUserBuf : Z)
    (flags : Z) (c : opal_convertor_t) : option opal_convertor_t :=
  opal_convertor_prepare_for_recv check_addr (set_flags (Z.lor (c_flags src) flags) c) datatype count pUserBuf.

(** ** What a convertor is asked for *)

Definition opal_convertor_need_buffers (c : opal_convertor_t) : bool :=
  if negb (flag (c_flags c) CONVERTOR_HOMOGENEOUS) then true
  else if flag (c_flags c) OPAL_DATATYPE_FLAG_NO_GAPS then false
  else negb ((c_count c =? 1) && flag (c_flags c) OPAL_DATATYPE_FLAG_CONTIGUOUS).

Definition opal_convertor_get_packed_size (c : opal_convertor_t) : option (nat * opal_convertor_t) :=
  let f := flag (c_flags c) in
  if f CONVERTOR_HOMOGENEOUS || (f CONVERTOR_SEND && negb (f CONVERTOR_SEND_CONVERSION)) || (f CONVERTOR_RECV && f CONVERTOR_SEND_CONVERSION) then Some (local_size c, c)
  else if f CONVERTOR_HAS_REMOTE_SIZE then Some (remote_size c, c)
  else
    safe negb (f CONVERTOR_SEND);
    let '(_, c) := opal_convertor_compute_remote_size c in
    Some (remote_size c, c).

Definition opal_convertor_get_current_pointer (c : opal_convertor_t) : option Z :=
  d ← pDesc c; Some (pBaseBuf c + Z.of_nat (bConverted c) + true_lb d)%Z.

Definition opal_convertor_get_offset_pointer (c : opal_convertor_t) (offset : nat) : option Z :=
  d ← pDesc c; Some (pBaseBuf c + Z.of_nat offset + true_lb d)%Z.

(** ** Packing *)

(** A buffer: its address ([NULL] for a pointer to the data instead of a copy) and its
    length; what it holds after a call: a copy, or a pointer to data and its length. *)
Abbreviation iovec_t := (option Z * nat)%type.
Inductive piece := Copied (bs : list byte) | Pointed (a : Z) (n : nat).

Definition fill (m : memory) (iov_base : option Z) (src : Z) (n : nat) : option piece :=
  match iov_base with None => Some (Pointed src n) | Some _ => bs ← load m src n; Some (Copied bs) end.

(** What a call returns: whether the convertor is completed, the number of buffers used,
    the number of bytes, what the buffers hold, the convertor. *)
Record packed_call := mk_packed { pc_completed : bool; pc_out_size : nat; pc_max_data : nat; pc_iov : list piece; pc_conv : opal_convertor_t }.

(** *** Contiguous data *)

(** The loop over the buffers; the last result is [true] at [complete_contiguous_data_pack]. *)
Fixpoint contiguous_data_pack (m : memory) (iov : list iovec_t) (pending_length : nat) (base_pointer : Z) : option (list piece * nat * bool) :=
  match iov with
  | [] => Some ([], pending_length, false)
  | (iov_base, iov_len) :: iov =>
      if pending_length <=? iov_len then p ← fill m iov_base base_pointer pending_length; Some ([p], pending_length, true)
      else
        p ← fill m iov_base base_pointer iov_len;
        '(ps, pending_length, complete) ← contiguous_data_pack m iov (pending_length - iov_len) (base_pointer + Z.of_nat iov_len);
        Some (p :: ps, pending_length, complete)
  end.

Fixpoint pack_contig_loop (m : memory) (iov : list iovec_t) (length : nat) (source_base : Z) : option (list piece * nat) :=
  match iov with
  | [] => Some ([], length)
  | (iov_base, iov_len) :: iov =>
      if length =? 0 then Some ([], length)
      else
        let iov_len := if length <? iov_len then length else iov_len in
        p ← fill m iov_base source_base iov_len;
        '(ps, length) ← pack_contig_loop m iov (length - iov_len) (source_base + Z.of_nat iov_len);
        Some (p :: ps, length)
  end.

Definition pack_homogeneous_contig (m : memory) (c : opal_convertor_t) (iov : list iovec_t) : option packed_call :=
  d ← pDesc c;
  match pStack c with
  | [s1; s0] =>
      let length := local_size c - bConverted c in
      let source_base := (pBaseBuf c + true_lb d + s_disp s0 + s_disp s1)%Z in
      '(ps, rest) ← pack_contig_loop m iov length source_base;
      let done := length - rest in
      let c := set_stack (stack_size c) [s1; mk_stack (s_index s0) (s_type s0) (s_count s0) (s_disp s0 + Z.of_nat done)] (c_partial_length c) (bConverted c + done) c in
      if bConverted c =? local_size c then Some (mk_packed true (List.length ps) done ps (add_flags CONVERTOR_COMPLETED c))
      else Some (mk_packed false (List.length ps) done ps c)
  | _ => None
  end.

(** *** Contiguous elements with gaps between them *)

(** [stack[1]] counts bytes. *)
Definition count_bytes `{Abi} (s1 : dt_stack_t) : dt_stack_t :=
  if s_type s1 =? OPAL_DATATYPE_UINT1 then s1
  else mk_stack (s_index s1) OPAL_DATATYPE_UINT1 (s_count s1 * basic_size (s_type s1)) (s_disp s1).

Definition with_count (n : nat) (disp : Z) (s : dt_stack_t) : dt_stack_t := mk_stack (s_index s) (s_type s) n disp.

(** Without buffers: a pointer to each of the elements. *)
Fixpoint gaps_pointers (d : opal_datatype_t) (base : Z) (out_size : nat) (s1 s0 : dt_stack_t) (converted : nat) : list piece * dt_stack_t * dt_stack_t * nat :=
  match out_size with
  | S out_size =>
      if s_count s0 =? 0 then ([], s1, s0, converted)
      else
        let p := Pointed (base + true_lb d + s_disp s0 + s_disp s1) (s_count s1) in
        let '(ps, s1', s0', converted') :=
          gaps_pointers d base out_size (with_count (d_size d) 0 s1) (with_count (s_count s0 - 1) (s_disp s0 + d_extent d) s0) (converted + s_count s1) in
        (p :: ps, s1', s0', converted')
  | O => ([], s1, s0, converted)
  end.

(** [n] whole elements. *)
Fixpoint gaps_elements (m : memory) (size : nat) (extent : Z) (n : nat) (user_memory : Z) : option (list byte) :=
  match n with
  | O => Some []
  | S n => bs ← load m user_memory size; bs' ← gaps_elements m size extent n (user_memory + extent); Some (bs ++ bs')
  end.

(** From [for (i = 0; pData->size <= remaining; i++)] to the end of a buffer. *)
Definition gaps_rest (m : memory) (d : opal_datatype_t) (base : Z) (s1 s0 : dt_stack_t) (remaining : nat) : option (list byte * dt_stack_t * dt_stack_t) :=
  let user_memory := (base + true_lb d + s_disp s0 + s_disp s1)%Z in
  safe negb (d_size d =? 0);
  let i := remaining / d_size d in
  bs ← gaps_elements m (d_size d) (d_extent d) i user_memory;
  let user_memory := (user_memory + Z.of_nat i * d_extent d)%Z in
  let remaining := remaining - i * d_size d in
  let s0 := with_count (s_count s0 - i) (s_disp s0 + Z.of_nat i * d_extent d) s0 in
  if remaining =? 0 then Some (bs, s1, s0)
  else
    bs' ← load m user_memory remaining;
    let s1 := with_count (s_count s1 - remaining) (s_disp s1 + Z.of_nat remaining) s1 in
    let s1 := if s_count s1 =? 0 then with_count (d_size d) 0 s1 else s1 in
    Some (bs ++ bs', s1, s0).

(** One buffer; [true] when the loop over the buffers is left. *)
Definition gaps_buffer (m : memory) (d : opal_datatype_t) (base : Z) (s1 s0 : dt_stack_t) (remaining : nat) : option (list byte * dt_stack_t * dt_stack_t * bool) :=
  let length := s_count s1 in
  if negb (d_size d =? length) && (length <=? remaining) then
    bs ← load m (base + true_lb d + s_disp s0 + s_disp s1) length;
    let remaining := remaining - length in
    let s1 := with_count (s_count s1 - length) (s_disp s1 + Z.of_nat length) s1 in
    if s_count s1 =? 0 then
      let s0 := with_count (s_count s0 - 1) (s_disp s0 + d_extent d) s0 in
      if s_count s0 =? 0 then Some (bs, s1, s0, true)
      else '(bs', s1, s0) ← gaps_rest m d base (with_count (d_size d) 0 s1) s0 remaining; Some (bs ++ bs', s1, s0, false)
    else '(bs', s1, s0) ← gaps_rest m d base s1 s0 remaining; Some (bs ++ bs', s1, s0, false)
  else '(bs, s1, s0) ← gaps_rest m d base s1 s0 remaining; Some (bs, s1, s0, false).

(** The loop over the buffers, with the number [idx] at its end. *)
Fixpoint gaps_loop (m : memory) (d : opal_datatype_t) (base : Z) (total : nat) (iov : list iovec_t) (s1 s0 : dt_stack_t) (converted : nat) :
    option (list piece * nat * dt_stack_t * dt_stack_t * nat) :=
  match iov with
  | [] => Some ([], 0, s1, s0, converted)
  | (iov_base, iov_len) :: iov =>
      let remaining := total - converted in
      if remaining =? 0 then Some ([], 0, s1, s0, converted)
      else
        let remaining := if iov_len <? remaining then iov_len else remaining in
        _ ← iov_base;
        '(bs, s1, s0, left_loop) ← gaps_buffer m d base s1 s0 remaining;
        if left_loop : bool then Some ([Copied bs], 0, s1, s0, converted + remaining)
        else
          '(ps, idx, s1, s0, converted) ← gaps_loop m d base total iov s1 s0 (converted + remaining);
          Some (Copied bs :: ps, S idx, s1, s0, converted)
  end.

(** The buffers of a call: the first one says whether pointers are asked for. *)
Definition gaps_run (m : memory) (d : opal_datatype_t) (base : Z) (total : nat) (iov : list iovec_t) (s1 s0 : dt_stack_t) (converted : nat) :
    option (list piece * nat * dt_stack_t * dt_stack_t * nat) :=
  match iov with
  | [] => None
  | (None, _) :: _ => let '(ps, s1, s0, converted) := gaps_pointers d base (length iov) s1 s0 converted in Some (ps, length ps, s1, s0, converted)
  | _ => gaps_loop m d base total iov s1 s0 converted
  end.

Definition pack_homogeneous_contig_with_gaps `{Abi} (m : memory) (c : opal_convertor_t) (iov : list iovec_t) : option packed_call :=
  d ← pDesc c;
  safe flag (d_flags d) OPAL_DATATYPE_FLAG_CONTIGUOUS && negb (Z.of_nat (d_size d) =? d_extent d)%Z && (length (opt_desc d) <=? 2);
  match pStack c with
  | [s1; s0] =>
      '(ps, idx, s1, s0, converted) ← gaps_run m d (pBaseBuf c) (local_size c) iov (count_bytes s1) s0 (bConverted c);
      let c' := set_stack (stack_size c) [s1; s0] (c_partial_length c) converted c in
      let c' := if bConverted c' =? local_size c' then add_flags CONVERTOR_COMPLETED c' else c' in
      Some (mk_packed (flag (c_flags c') CONVERTOR_COMPLETED) idx (converted - bConverted c) ps c')
  | _ => None
  end.

(** *** Any data *)

Section simple.
Context `{Abi}.

(** The state of a convertor after a walk. *)
Definition after_walk (s : list dt_stack_t) (p n : nat) (completed : bool) (c : opal_convertor_t) : opal_convertor_t :=
  let c := set_stack (stack_size c) s p n c in if completed then add_flags CONVERTOR_COMPLETED c else c.

(** Every buffer is there. *)
Definition with_bases (iov : list iovec_t) : option (list (Z * nat)) := mapM (λ i : iovec_t, iov_base ← i.1; Some (iov_base, i.2)) iov.

Definition generic_simple_pack (m : memory) (c : opal_convertor_t) (iov : list iovec_t) : option packed_call :=
  d ← pDesc c;
  iov ← with_bases iov;
  '(s, n, completed, max_data, out_size, io) ←
    generic_simple (H := packing_copy (flag (c_flags c) CONVERTOR_ACCELERATOR)) (opt_desc d) (d_extent d) (stack_size c) (pBaseBuf c) (remote_size c)
      (pStack c) (bConverted c) iov (no_buffer m);
  Some (mk_packed completed out_size max_data (Copied <$> buffers io) (after_walk s (c_partial_length c) n completed c)).

Definition opal_convertor_pack (m : memory) (c : opal_convertor_t) (iov : list iovec_t) : option packed_call :=
  if flag (c_flags c) CONVERTOR_COMPLETED then Some (mk_packed true 0 0 [] c)
  else
    safe bConverted c <? local_size c;
    if flag (c_flags c) CONVERTOR_NO_OP then
      let pending_length := local_size c - bConverted c in
      base_pointer ← opal_convertor_get_current_pointer c;
      '(ps, rest, complete) ← contiguous_data_pack m iov pending_length base_pointer;
      if complete : bool then Some (mk_packed true (length ps) pending_length ps (add_flags CONVERTOR_COMPLETED (set_converted (local_size c) c)))
      else Some (mk_packed false (length iov) (pending_length - rest) ps (set_converted (bConverted c + (pending_length - rest)) c))
    else
      match fAdvance c with
      | Some opal_pack_homogeneous_contig => pack_homogeneous_contig m c iov
      | Some opal_pack_homogeneous_contig_with_gaps => pack_homogeneous_contig_with_gaps m c iov
      | Some opal_generic_simple_pack => generic_simple_pack m c iov
      | _ => None
      end.

End simple.

(** ** Unpacking *)

(** A buffer is its address and its content.  A call returns whether the convertor is
    completed, the number of buffers used, the number of bytes, the user's memory and the
    convertor. *)
Record unpacked_call := mk_unpacked { uc_completed : bool; uc_out_size : nat; uc_max_data : nat; uc_mem : memory; uc_conv : opal_convertor_t }.

Abbreviation filled := (Z * list byte)%type.

(** The loop over the buffers, with their number; the last result is [true] at
    [complete_contiguous_data_unpack]. *)
Fixpoint contiguous_data_unpack (m : memory) (iov : list filled) (pending_length : nat) (base_pointer : Z) : option (memory * nat * nat * bool) :=
  match iov with
  | [] => Some (m, 0, pending_length, false)
  | (_, data) :: iov =>
      if pending_length <=? length data then m ← store m base_pointer (take pending_length data); Some (m, 1, pending_length, true)
      else
        m ← store m base_pointer data;
        '(m, i, pending_length, complete) ← contiguous_data_unpack m iov (pending_length - length data) (base_pointer + Z.of_nat (length data));
        Some (m, S i, pending_length, complete)
  end.

(** Elements without gaps. *)
Fixpoint unpack_contig_loop (m : memory) (iov : list filled) (total converted : nat) (base : Z) : option (memory * nat * nat) :=
  match iov with
  | [] => Some (m, 0, converted)
  | (_, data) :: iov =>
      let remaining := total - converted in
      if remaining =? 0 then Some (m, 0, converted)
      else
        let remaining := if length data <? remaining then length data else remaining in
        m ← store m (base + Z.of_nat converted) (take remaining data);
        '(m, iov_idx, converted) ← unpack_contig_loop m iov total (converted + remaining) base;
        Some (m, S iov_idx, converted)
  end.

(** [for (i = 0; stack[1].count <= remaining; i++)]: every round but the first takes a
    whole element. *)
Fixpoint unpack_gaps_elements (fuel : nat) (m : memory) (d : opal_datatype_t) (base : Z) (s1 s0 : dt_stack_t) (packed_buffer : list byte) :
    option (memory * dt_stack_t * dt_stack_t * list byte) :=
  match fuel with
  | O => None
  | S fuel =>
      if s_count s1 <=? length packed_buffer then
        m ← store m (base + true_lb d + s_disp s0 + s_disp s1) (take (s_count s1) packed_buffer);
        unpack_gaps_elements fuel m d base (with_count (d_size d) 0 s1) (with_count (s_count s0 - 1) (s_disp s0 + d_extent d) s0) (drop (s_count s1) packed_buffer)
      else Some (m, s1, s0, packed_buffer)
  end.

(** One buffer, cut at what is left. *)
Definition unpack_gaps_buffer (m : memory) (d : opal_datatype_t) (base : Z) (s1 s0 : dt_stack_t) (packed_buffer : list byte) : option (memory * dt_stack_t * dt_stack_t) :=
  '(m, s1, s0, rest) ← unpack_gaps_elements (S (length packed_buffer)) m d base s1 s0 packed_buffer;
  if length rest =? 0 then Some (m, s1, s0)
  else
    m ← store m (base + true_lb d + s_disp s0 + s_disp s1) rest;
    let s1 := with_count (s_count s1 - length rest) (s_disp s1 + Z.of_nat (length rest)) s1 in
    safe negb (s_count s1 =? 0);
    Some (m, s1, s0).

Fixpoint unpack_gaps_loop (m : memory) (d : opal_datatype_t) (base : Z) (total : nat) (iov : list filled) (s1 s0 : dt_stack_t) (converted : nat) :
    option (memory * nat * dt_stack_t * dt_stack_t * nat) :=
  match iov with
  | [] => Some (m, 0, s1, s0, converted)
  | (_, data) :: iov =>
      let remaining := total - converted in
      if remaining =? 0 then Some (m, 0, s1, s0, converted)
      else
        let remaining := if length data <? remaining then length data else remaining in
        '(m, s1, s0) ← unpack_gaps_buffer m d base s1 s0 (take remaining data);
        '(m, iov_idx, s1, s0, converted) ← unpack_gaps_loop m d base total iov s1 s0 (converted + remaining);
        Some (m, S iov_idx, s1, s0, converted)
  end.

Section unpack.
Context `{Abi}.

Definition unpack_homogeneous_contig (m : memory) (c : opal_convertor_t) (iov : list filled) : option unpacked_call :=
  d ← pDesc c;
  match pStack c with
  | [s1; s0] =>
      let s1 := count_bytes s1 in
      '(m, iov_idx, s1, s0, converted) ←
        (if (Z.of_nat (d_size d) =? d_extent d)%Z then
           '(m, iov_idx, converted) ← unpack_contig_loop m iov (local_size c) (bConverted c) (pBaseBuf c + true_lb d);
           Some (m, iov_idx, s1, s0, converted)
         else unpack_gaps_loop m d (pBaseBuf c) (local_size c) iov s1 s0 (bConverted c));
      let c' := set_stack (stack_size c) [s1; s0] (c_partial_length c) converted c in
      let c' := if bConverted c' =? local_size c' then add_flags CONVERTOR_COMPLETED c' else c' in
      Some (mk_unpacked (flag (c_flags c') CONVERTOR_COMPLETED) iov_idx (converted - bConverted c) m c')
  | _ => None
  end.

(** [temporary_buffer] is where the function that puts parts of basic elements in place
    has its buffer. *)
Definition generic_simple_unpack (temporary_buffer : Z) (m : memory) (c : opal_convertor_t) (iov : list filled) : option unpacked_call :=
  d ← pDesc c;
  '(s, n, completed, max_data, out_size, io) ←
    generic_simple (H := unpacking_copy (flag (c_flags c) CONVERTOR_ACCELERATOR) temporary_buffer) (opt_desc d) (d_extent d) (stack_size c) (pBaseBuf c) (local_size c)
      (pStack c) (bConverted c) iov (mk_unpacking m 0 [] (c_partial_length c));
  Some (mk_unpacked completed out_size max_data (up_mem io) (after_walk s (partial_length io) n completed c)).

Definition opal_convertor_unpack (temporary_buffer : Z) (m : memory) (c : opal_convertor_t) (iov : list filled) : option unpacked_call :=
  if flag (c_flags c) CONVERTOR_COMPLETED then Some (mk_unpacked true 0 0 m c)
  else
    safe bConverted c <? local_size c;
    if flag (c_flags c) CONVERTOR_NO_OP then
      let pending_length := local_size c - bConverted c in
      base_pointer ← opal_convertor_get_current_pointer c;
      '(m, i, rest, complete) ← contiguous_data_unpack m iov pending_length base_pointer;
      if complete : bool then Some (mk_unpacked true i pending_length m (add_flags CONVERTOR_COMPLETED (set_converted (local_size c) c)))
      else Some (mk_unpacked false (length iov) (pending_length - rest) m (set_converted (bConverted c + (pending_length - rest)) c))
    else
      match fAdvance c with
      | Some opal_unpack_homogeneous_contig => unpack_homogeneous_contig m c iov
      | Some opal_generic_simple_unpack => generic_simple_unpack temporary_buffer m c iov
      | _ => None
      end.

End unpack.
End DtConv.
