(* ===== verification/DtPosition.v ===== *)
(** * Positions of a convertor ([opal/datatype/opal_datatype_position.c],
    [opal_convertor.c], [opal_convertor.h])

    Moving a convertor to a byte of the packed data, and copies of a convertor. *)

From stdpp Require Import base numbers list gmap.
From S2P Require Import Prelude DtDesc DtWalk DtConv.

Module DtPosition.
Import DtDesc DtWalk DtConv.
Local Open Scope c_scope.
Local Open Scope nat_scope.

Section position.
Context `{Abi}.

(** ** Data *)

(** The number of basic elements, the pointer and the number of bytes that are left. *)
Definition position_predefined_data (e : ddt_elem_desc_t) (COUNT : nat) (POINTER : Z) (SPACE : nat) : option (nat * Z * nat) :=
  let total_count := e_total e in
  let size := basic_size (e_type e) in
  safe negb (size =? 0);
  let cando_count := SPACE / size in
  let memory := (POINTER + e_disp e)%Z in
  safe COUNT <=? total_count;
  if negb (COUNT <? cando_count) && (cando_count =? 0) then Some (COUNT, POINTER, SPACE)
  else
    let cando_count := if COUNT <? cando_count then COUNT else cando_count in
    if e_blocklen e =? 1 then
      Some (COUNT - cando_count, (memory + Z.of_nat cando_count * e_extent e - e_disp e)%Z, SPACE - cando_count * size)
    else
      safe negb (e_blocklen e =? 0);
      let do_now := (total_count - COUNT) mod e_blocklen e in
      let '(memory, SPACE, COUNT, cando_count) :=
        if do_now =? 0 then (memory, SPACE, COUNT, cando_count)
        else
          let left_in_block := e_blocklen e - do_now in
          let do_now := if cando_count <? left_in_block then cando_count else left_in_block in
          let memory := (memory + Z.of_nat (do_now * size))%Z in
          let memory := if do_now =? left_in_block then (memory + (e_extent e - Z.of_nat (e_blocklen e * size)))%Z else memory in
          (memory, SPACE - do_now * size, COUNT - do_now, cando_count - do_now) in
      let do_now := cando_count / e_blocklen e in
      let memory := (memory + Z.of_nat do_now * e_extent e)%Z in
      let SPACE := SPACE - do_now * (e_blocklen e * size) in
      let COUNT := COUNT - do_now * e_blocklen e in
      let cando_count := cando_count - do_now * e_blocklen e in
      Some (COUNT - cando_count, (memory + Z.of_nat (cando_count * size) - e_disp e)%Z, SPACE - cando_count * size).

(** ** The walk *)

Section walk.
Context (description : list dt_elem_desc) (extent : Z) (stack_size : nat) (pBaseBuf : Z).

(** [w_io] is [iov_len_local].  The walk ends with whether the convertor is completed and
    the partial length, if that is set. *)
Abbreviation result := (option (bool * option nat * walk nat)).

Definition lift_move (r : walk nat + option (bool * walk nat)) : walk nat + result := match r with inl w => inl w | inr _ => inr None end.

(** Unlike in a walk that copies, a loop with rounds left is entered again at its start. *)
Definition position_end_of_loop (w : walk nat) : walk nat + result :=
  match w_stack w with
  | [] => inr None
  | top :: rest =>
      match s_count top, rest with
      | O, _ => inr None
      | S O, [] => inr (Some (true, None, mk_walk [mk_stack (s_index top) (s_type top) 0 (s_disp top)] (pos_desc w) (count_desc w) (conv_ptr w) (w_io w)))
      | S O, _ => lift_move (move_to description pBaseBuf rest (S (pos_desc w)) (w_io w))
      | S count, _ =>
          match s_index top with
          | None => lift_move (move_to description pBaseBuf (mk_stack None (s_type top) count (s_disp top + extent) :: rest) 0 (w_io w))
          | Some i =>
              match description !! i with
              | Some (Loop l) => lift_move (move_to description pBaseBuf (mk_stack (Some i) (s_type top) count (s_disp top + l_extent l) :: rest) i (w_io w))
              | _ => inr None
              end
          end
      end
  end.

Definition position_loop (l : ddt_loop_desc_t) (w : walk nat) : walk nat + result :=
  match description !! (pos_desc w + items l) with
  | Some (EndLoop el) =>
      if end_size el =? 0 then inr None
      else
        let full_loops := w_io w / end_size el in
        let full_loops := if count_desc w <=? full_loops then count_desc w else full_loops in
        let base_pointer := (conv_ptr w + Z.of_nat full_loops * l_extent l)%Z in
        let iov_len_local := w_io w - full_loops * end_size el in
        let count := count_desc w - full_loops in
        if negb (full_loops =? 0) && (count =? 0) then lift_move (move_to description pBaseBuf (w_stack w) (pos_desc w + (items l + 1)) iov_len_local)
        else lift_move (enter_loop description stack_size pBaseBuf (w_stack w) (pos_desc w) count (base_pointer - conv_ptr w) iov_len_local)
  | _ => inr None
  end.

Definition position_step (w : walk nat) : walk nat + result :=
  match description !! pos_desc w with
  | None => inr None
  | Some (EndLoop _) => position_end_of_loop w
  | Some (Loop l) => position_loop l w
  | Some (Elem e) =>
      match position_predefined_data e (count_desc w) (conv_ptr w) (w_io w) with
      | None => inr None
      | Some (O, _, iov_len_local) => lift_move (move_to description pBaseBuf (w_stack w) (S (pos_desc w)) iov_len_local)
      | Some (count, base_pointer, iov_len_local) => inr (Some (false, Some iov_len_local, mk_walk (w_stack w) (pos_desc w) count base_pointer iov_len_local))
      end
  end.

Definition position_walk (w : walk nat) : result := match loop position_step 64 w with inr r => r | inl _ => None end.

End walk.

(** ** The convertor *)

(** All displacements of the stack, and the count at its bottom. *)
Definition skip_elements (n : nat) (extent : Z) (s : list dt_stack_t) : list dt_stack_t :=
  imap (λ i t, mk_stack (s_index t) (s_type t) (if S i =? length s then s_count t - n else s_count t) (s_disp t + Z.of_nat n * extent)) s.

(** The walk from the entry [pos] on, and the new stack. *)
Definition position_from (c : opal_convertor_t) (d : opal_datatype_t) (position : nat) (w : walk nat) : option (bool * opal_convertor_t) :=
  '(completed, p, w) ← position_walk (opt_desc d) (d_extent d) (stack_size c) (pBaseBuf c) w;
  let partial := match p with Some p => p | None => 0 end in
  let c := if completed : bool then add_flags CONVERTOR_COMPLETED c else c in
  if flag (c_flags c) CONVERTOR_COMPLETED then Some (true, set_stack (stack_size c) (w_stack w) partial position c)
  else
    safe length (w_stack w) <? stack_size c;
    let type := match opt_desc d !! pos_desc w with Some (Elem e) => e_type e | Some (Loop _) => 0 | _ => 1 end in
    Some (false, set_stack (stack_size c) (mk_stack (Some (pos_desc w)) type (count_desc w) (conv_ptr w - pBaseBuf c) :: w_stack w) partial position c).

(** The convertor with a new stack; [bool] is the result [1]. *)
Definition opal_convertor_generic_simple_position (c : opal_convertor_t) (position : nat) : option (bool * opal_convertor_t) :=
  d ← pDesc c;
  safe bConverted c <? position;
  let iov_len_local := position - bConverted c in
  safe negb (d_size d =? 0);
  let '(stack, converted) :=
    if d_size d <? iov_len_local then
      let count_desc := iov_len_local / d_size d in (skip_elements count_desc (d_extent d) (pStack c), bConverted c + count_desc * d_size d)
    else (pStack c, bConverted c) in
  let iov_len_local := position - converted in
  match stack with
  | [] => None
  | top :: stack =>
      pos ← s_index top;
      pElem ← opt_desc d !! pos;
      let base_pointer := (pBaseBuf c + s_disp top)%Z in
      if c_partial_length c =? 0 then position_from c d position (mk_walk stack pos (s_count top) base_pointer iov_len_local)
      else
        element_length ← match pElem with Elem e => Some (basic_size (e_type e)) | _ => None end;
        let missing_length := element_length - c_partial_length c in
        if iov_len_local <=? missing_length then
          safe negb (element_length =? 0);
          Some (false, set_stack (stack_size c) stack ((c_partial_length c + iov_len_local) mod element_length) (converted + iov_len_local) c)
        else position_from c d position (mk_walk stack pos (s_count top - 1) base_pointer (iov_len_local - missing_length))
  end.

Definition opal_convertor_create_stack_with_pos_contig (c : opal_convertor_t) (starting_point : nat) : option opal_convertor_t :=
  d ← pDesc c;
  safe negb (d_size d =? 0);
  let count := starting_point / d_size d in
  let s0 := mk_stack None OPAL_DATATYPE_LOOP (c_count c - count) (Z.of_nat count * d_extent d) in
  let count := starting_point mod d_size d in
  s1 ← (if count =? 0 then match opt_desc d with Elem e :: _ => Some (mk_stack (Some 0) (e_type e) (e_blocklen e) (Z.of_nat count)) | _ => None end
        else Some (mk_stack (Some 0) OPAL_DATATYPE_UINT1 (d_size d - count) (Z.of_nat count)));
  safe c_partial_length c =? 0;
  Some (set_stack (stack_size c) [s1; s0] (c_partial_length c) starting_point c).

(** The convertor, and the position it is at. *)
Definition opal_convertor_set_position_nocheck (c : opal_convertor_t) (position : nat) : option (opal_convertor_t * nat) :=
  if flag (c_flags c) OPAL_DATATYPE_FLAG_CONTIGUOUS then
    c ← opal_convertor_create_stack_with_pos_contig c position;
    Some (c, bConverted c)
  else
    c ← (if (position =? 0) || (position <? bConverted c) then stack_at_begining c else Some c);
    if position =? 0 then Some (c, position)
    else
      '(_, c) ← opal_convertor_generic_simple_position c position;
      let c := if flag (c_flags c) CONVERTOR_SEND then set_stack (stack_size c) (pStack c) 0 (bConverted c - c_partial_length c) c else c in
      Some (c, bConverted c).

Definition opal_convertor_set_position (c : opal_convertor_t) (position : nat) : option (opal_convertor_t * nat) :=
  if local_size c <=? position then Some (set_converted (local_size c) (add_flags CONVERTOR_COMPLETED c), local_size c)
  else if position =? bConverted c then Some (c, position)
  else
    let c := drop_flags CONVERTOR_COMPLETED c in
    if flag (c_flags c) OPAL_DATATYPE_FLAG_NO_GAPS && (flag (c_flags c) CONVERTOR_SEND || flag (c_flags c) CONVERTOR_HOMOGENEOUS) then
      Some (set_converted position c, position)
    else opal_convertor_set_position_nocheck c position.

Definition opal_convertor_personalize (c : opal_convertor_t) (flags : Z) (position : option nat) : option (opal_convertor_t * option nat) :=
  let c := add_flags flags c in
  match position with
  | None => Some (c, None)
  | Some p => '(c, p) ← opal_convertor_set_position c p; Some (c, Some p)
  end.

(** ** Copies *)

(** The copy has the partial length of the convertor it is written to.  Without
    [copy_stack], [bConverted] is [(size_t) -1]. *)
Definition opal_convertor_clone (source destination : opal_convertor_t) (copy_stack : bool) : opal_convertor_t :=
  mk_convertor (c_flags source) (local_size source) (remote_size source) (pDesc source) (c_count source) (stack_size source) (pBaseBuf source)
    (if copy_stack then pStack source else []) (fAdvance source) (c_partial_length destination)
    (if copy_stack then bConverted source else Z.to_nat (2 ^ 64 - 1)).

Definition opal_convertor_clone_with_position (source destination : opal_convertor_t) (copy_stack : bool) (position : nat) : option (opal_convertor_t * nat) :=
  opal_convertor_set_position (opal_convertor_clone source destination copy_stack) position.

End position.
End DtPosition.
