(* ===== verification/DtContigSpec.v ===== *)
(** * The contiguous cases of a convertor *)

From stdpp Require Import base numbers list gmap.
From S2P Require Import Prelude DtDesc DtWalk DtCopy DtMap DtWalkSpec DtCopySpec DtPackSpec DtConv.

Module DtContigSpec.
Import DtDesc DtWalk DtMap DtCopySpec DtPackSpec DtUnpackSpec DtConv.
Local Open Scope nat_scope.

Definition bytes_of (m : memory) (p : piece) : option (list byte) := match p with Copied bs => Some bs | Pointed a n => load m a n end.
Definition piece_len (p : piece) : nat := match p with Copied bs => length bs | Pointed _ n => n end.

(** The data in the buffers of a call. *)
Definition contents (m : memory) (ps : list piece) : option (list byte) := @concat byte <$> mapM (bytes_of m) ps.

Abbreviation mapped_in m := (Forall (λ a, is_Some ((m : memory) !! a))).

Lemma contents_cons m p ps bs bs' : bytes_of m p = Some bs → contents m ps = Some bs' → contents m (p :: ps) = Some (bs ++ bs').
Proof.
  unfold contents. intros Hb Hbs. destruct (mapM _ ps) as [l|] eqn:E; [|done]. cbn. rewrite Hb. cbn. rewrite E. cbn. cbn in Hbs. by simplify_eq.
Qed.

(** [packs M m R iov ps k]: the buffers [iov] have the first [k] bytes of [R]; each but the
    last one is full up to less than [M] bytes. *)
Record packs (M : nat) (m : memory) (R : list Z) (iov : list iovec_t) (ps : list piece) (k : nat) : Prop := {
  pa_le : k ≤ length R;
  pa_bytes : ∃ bs, contents m ps = Some bs ∧ mapM (m !!.) (take k R) = Some bs;
  pa_fits : Forall2 (λ (i : iovec_t) p, piece_len p ≤ i.2) (take (length ps) iov) ps;
  pa_full : k < length R → Forall2 (λ (i : iovec_t) p, i.2 < piece_len p + M) iov ps;
  pa_single i : iov = [i] → length R ≤ i.2 → k = length R;
}.

Lemma packs_nil M m R : packs M m R [] [] 0.
Proof. split; [lia|by exists []|constructor|constructor|done]. Qed.

Lemma packs_stop M m iov : packs M m [] iov [] 0.
Proof. split; [done|by exists []|constructor|cbn; lia|done]. Qed.

Lemma packs_cons M m R n i p bs iov ps k : n ≤ length R → bytes_of m p = Some bs → mapM (m !!.) (take n R) = Some bs → n ≤ i.2 → (n < length R → i.2 < n + M ∧ i.2 < length R) → piece_len p = n →
  packs M m (drop n R) iov ps k → packs M m R (i :: iov) (p :: ps) (n + k).
Proof.
  intros Hn Hp Hbs Hle Hfull Hlen [Hk (bs' & Hc & Hbs') Hfit Hf _]. rewrite length_drop in *. split; [lia| | | |intros j [= <- ->] Hj; lia].
  - exists (bs ++ bs'). split; [by apply contents_cons|]. rewrite <-take_take_drop. by apply mapM_app_Some.
  - cbn [length take]. constructor; [by rewrite Hlen|done].
  - intros Hlt. constructor; [rewrite Hlen; apply Hfull; lia|apply Hf; lia].
Qed.

Lemma fill_ok m b src n : mapped_in m (seqZ src (Z.of_nat n)) → ∃ p bs, fill m b src n = Some p ∧ bytes_of m p = Some bs ∧ mapM (m !!.) (seqZ src (Z.of_nat n)) = Some bs ∧ piece_len p = n.
Proof.
  intros [bs Hbs]%mapM_mapped. pose proof (length_mapM _ _ _ Hbs) as Hlen. rewrite length_seqZ, Nat2Z.id in Hlen. unfold fill, load. destruct b as [a|].
  - rewrite Hbs. cbn. by exists (Copied bs), bs.
  - by exists (Pointed src n), bs.
Qed.

Lemma mapped_take m n R : mapped_in m R → mapped_in m (take n R).
Proof. intros Hm. by apply Forall_take. Qed.

Lemma mapped_drop m n R : mapped_in m R → mapped_in m (drop n R).
Proof. intros Hm. by apply Forall_drop. Qed.

(** ** Without gaps *)

Lemma contiguous_data_pack_ok M m iov n base : 0 < M → 0 < n → mapped_in m (seqZ base (Z.of_nat n)) →
  ∃ ps rest complete, contiguous_data_pack m iov n base = Some (ps, rest, complete) ∧ (complete = false → 0 < rest ≤ n ∧ length ps = length iov) ∧
    packs M m (seqZ base (Z.of_nat n)) iov ps (if complete then n else n - rest).
Proof.
  intros HM. revert n base; induction iov as [|[b len] iov IH]; intros n base Hn Hm; cbn [contiguous_data_pack].
  { eexists [], n, false. rewrite Nat.sub_diag. split_and!; [done|done|apply packs_nil]. }
  destruct (Nat.leb_spec n len) as [Hle|Hlt].
  - destruct (fill_ok m b base n Hm) as (p & bs & -> & Hp & Hbs & Hlen). eexists [p], n, true. split_and!; [done|done|]. rewrite <-(Nat.add_0_r n) at 2.
    eapply packs_cons; [by rewrite length_seqZ; lia|exact Hp|by rewrite firstn_all2 by (rewrite length_seqZ; lia)|done|rewrite length_seqZ; lia|done|].
    rewrite drop_ge by (rewrite length_seqZ; lia). apply packs_stop.
  - destruct (take_drop_seqZ base len n ltac:(lia)) as [Ht Hd].
    destruct (fill_ok m b base len) as (p & bs & -> & Hp & Hbs & Hlen). { rewrite <-Ht. by apply mapped_take. }
    destruct (IH (n - len) (base + Z.of_nat len)%Z ltac:(lia)) as (ps & rest & complete & Hrun & Hinc & Hps). { rewrite <-Hd. by apply mapped_drop. }
    cbn [mbind option_bind]. rewrite Hrun. cbn [mbind option_bind]. eexists (p :: ps), rest, complete. split_and!; [done|intros ->; specialize (Hinc eq_refl); cbn; lia|].
    replace (if complete then n else n - rest) with (len + (if complete then n - len else n - len - rest)) by (destruct complete; [lia|specialize (Hinc eq_refl); lia]).
    eapply packs_cons; [rewrite length_seqZ; lia|exact Hp|by rewrite Ht|done|cbn; lia|done|by rewrite Hd].
Qed.

Lemma pack_contig_loop_ok M m iov n base : 0 < M → mapped_in m (seqZ base (Z.of_nat n)) →
  ∃ ps rest, pack_contig_loop m iov n base = Some (ps, rest) ∧ rest ≤ n ∧ packs M m (seqZ base (Z.of_nat n)) iov ps (n - rest).
Proof.
  intros HM. revert n base; induction iov as [|[b len] iov IH]; intros n base Hm; cbn [pack_contig_loop].
  { eexists [], n. rewrite Nat.sub_diag. split_and!; [done|lia|apply packs_nil]. }
  destruct (Nat.eqb_spec n 0) as [->|Hn]. { eexists [], 0. split_and!; [done|lia|apply packs_stop]. }
  set (l := if n <? len then n else len). assert (Hl : l ≤ n ∧ l ≤ len ∧ (l < n → l = len)) by (unfold l; destruct (Nat.ltb_spec n len); lia). clearbody l.
  destruct (take_drop_seqZ base l n ltac:(lia)) as [Ht Hd].
  destruct (fill_ok m b base l) as (p & bs & -> & Hp & Hbs & Hlen). { rewrite <-Ht. by apply mapped_take. }
  destruct (IH (n - l) (base + Z.of_nat l)%Z) as (ps & rest & Hrun & Hle & Hps). { rewrite <-Hd. by apply mapped_drop. }
  cbn [mbind option_bind]. rewrite Hrun. cbn [mbind option_bind]. eexists (p :: ps), rest. split_and!; [done|lia|]. replace (n - rest) with (l + (n - l - rest)) by lia.
  eapply packs_cons; [rewrite length_seqZ; lia|exact Hp|by rewrite Ht|cbn; lia|rewrite length_seqZ; cbn; lia|done|by rewrite Hd].
Qed.

(** ** Unpacking without gaps *)

Lemma writes_twice R bs bs' m : writes R (bs ++ bs') m = writes (drop (length bs) R) bs' (writes R bs m).
Proof. revert R m; induction bs as [|b bs IH]; intros [|a R] m; cbn; done. Qed.

Lemma writes_take R n bs m : length bs ≤ n → writes (take n R) bs m = writes R bs m.
Proof. revert R bs m; induction n as [|n IH]; intros [|a R] [|b bs] m Hn; cbn in *; try done; [lia|]. apply IH. lia. Qed.

Lemma writes_enough R n bs m : length R ≤ n → writes R (take n bs) m = writes R bs m.
Proof. revert R bs m; induction n as [|n IH]; intros [|a R] [|b bs] m Hn; cbn in *; try done; [lia|]. apply IH. lia. Qed.

Lemma mapped_writes m l R bs : mapped_in m R → mapped_in m l → mapped_in (writes R bs m) l.
Proof. intros HR Hl. eapply Forall_impl; [exact Hl|]. intros a Ha. by apply writes_mapped. Qed.

(** [memcpy] to the start of [R]. *)
Lemma store_ok m a n R bs : length bs ≤ n → seqZ a (Z.of_nat n) `prefix_of` R → mapped_in m R → store m a bs = Some (writes R bs m).
Proof.
  intros Hn [R' ->] Hm. apply Forall_app in Hm as [Hm _]. destruct (take_drop_seqZ a (length bs) n Hn) as [Ht _].
  rewrite store_writes by (rewrite <-Ht; by apply mapped_take). f_equal. rewrite <-Ht, writes_take by done. rewrite <-(writes_take (_ ++ _) n) by done.
  by rewrite take_app_length' by (rewrite length_seqZ; lia).
Qed.

(** The data in the buffers of a call. *)
Definition received (iov : list filled) : list byte := concat iov.*2.

Lemma contiguous_data_unpack_ok m iov n base : 0 < n → mapped_in m (seqZ base (Z.of_nat n)) →
  ∃ i rest complete, contiguous_data_unpack m iov n base = Some (writes (seqZ base (Z.of_nat n)) (received iov) m, i, rest, complete) ∧
    if complete then n ≤ length (received iov) else length (received iov) + rest = n ∧ 0 < rest ∧ i = length iov.
Proof.
  revert m n base; induction iov as [|[b data] iov IH]; intros m n base Hn Hm; cbn [contiguous_data_unpack].
  { unfold received. cbn [concat fmap list_fmap]. eexists 0, n, false. split_and!; [|done|done|done]. by destruct (seqZ base _). }
  set (R := seqZ base (Z.of_nat n)) in *. change (received ((b, data) :: iov)) with (data ++ received iov). rewrite length_app. destruct (Nat.leb_spec n (length data)) as [Hle|Hlt].
  - rewrite (store_ok m base n R) by (done || rewrite length_take; lia). cbn [mbind option_bind]. assert (length R = n) by (unfold R; rewrite length_seqZ; lia).
    eexists 1, n, true. rewrite writes_enough, writes_twice, drop_ge by lia. split; [done|lia].
  - rewrite (store_ok m base n R) by (done || lia). cbn [mbind option_bind]. destruct (take_drop_seqZ base (length data) n ltac:(lia)) as [_ Hd]. fold R in Hd.
    destruct (IH (writes R data m) (n - length data) (base + Z.of_nat (length data))%Z ltac:(lia)) as (i & rest & complete & -> & Hif).
    { rewrite <-Hd. apply mapped_writes; [done|]. by apply mapped_drop. }
    cbn [mbind option_bind]. eexists (S i), rest, complete. rewrite writes_twice, Hd. split; [done|]. destruct complete; cbn; lia.
Qed.

Lemma unpack_contig_loop_ok m iov base n k : mapped_in m (seqZ (base + Z.of_nat n) (Z.of_nat k)) →
  ∃ i, unpack_contig_loop m iov (n + k) n base = Some (writes (seqZ (base + Z.of_nat n) (Z.of_nat k)) (received iov) m, i, n + (k `min` length (received iov))) ∧
    (length (received iov) < k → i = length iov).
Proof.
  revert m n k; induction iov as [|[b data] iov IH]; intros m n k Hm; cbn [unpack_contig_loop].
  { unfold received. cbn [concat fmap list_fmap length]. exists 0. rewrite Nat.min_0_r, Nat.add_0_r. split; [|done]. by destruct (seqZ _ _). }
  rewrite Nat.add_comm, Nat.add_sub, Nat.add_comm. change (received ((b, data) :: iov)) with (data ++ received iov). rewrite length_app. destruct (Nat.eqb_spec k 0) as [->|Hk].
  { exists 0. cbn. split; [by rewrite Nat.add_0_r|lia]. }
  set (R := seqZ (base + Z.of_nat n) (Z.of_nat k)) in *. set (l := if length data <? k then length data else k).
  assert (Hl : l = length data `min` k) by (unfold l; destruct (Nat.ltb_spec (length data) k); lia). clearbody l. assert (HR : length R = k) by (unfold R; rewrite length_seqZ; lia).
  rewrite (store_ok m (base + Z.of_nat n) k R) by (done || rewrite length_take; lia). cbn [mbind option_bind].
  destruct (take_drop_seqZ (base + Z.of_nat n) l k ltac:(lia)) as [_ Hd]. fold R in Hd.
  destruct (IH (writes R (take l data) m) (n + l) (k - l)) as (i & Hrun & Hi).
  { replace (base + Z.of_nat (n + l))%Z with (base + Z.of_nat n + Z.of_nat l)%Z by lia. rewrite <-Hd. apply mapped_writes; [done|]. by apply mapped_drop. }
  replace (n + l + (k - l)) with (n + k) in Hrun by lia. rewrite Hrun. cbn [mbind option_bind].
  exists (S i). split; [|intros Hlt; cbn; rewrite Hi; lia]. replace (base + Z.of_nat (n + l))%Z with (base + Z.of_nat n + Z.of_nat l)%Z by lia. rewrite <-Hd. f_equal. f_equal; [f_equal|].
  - rewrite writes_twice. destruct (decide (length data < k)).
    + by rewrite Hl, Nat.min_l, take_ge by lia.
    + rewrite Hl, Nat.min_r, !drop_ge by lia. cbn. apply writes_enough. lia.
  - lia.
Qed.

(** ** With gaps *)

(** [n] contiguous elements, the first one at [a]. *)
Fixpoint elements (d : opal_datatype_t) (a : Z) (n : nat) : list Z :=
  match n with O => [] | S n => seqZ a (Z.of_nat (d_size d)) ++ elements d (a + d_extent d) n end.

Lemma elements_length d a n : length (elements d a n) = n * d_size d.
Proof. revert a; induction n as [|n IH]; intros a; [done|]. cbn [elements]. rewrite length_app, length_seqZ, IH. lia. Qed.

Lemma elements_add d a n n' : elements d a (n + n') = elements d a n ++ elements d (a + Z.of_nat n * d_extent d) n'.
Proof.
  revert a; induction n as [|n IH]; intros a; cbn [elements Nat.add app]; [by rewrite Z.add_0_r|]. rewrite IH, <-app_assoc. do 3 f_equal. lia.
Qed.

Section gaps.
Context (d : opal_datatype_t) (base : Z) (Hsize : 0 < d_size d).

(** What is left: of the first element, [s_count s1] bytes. *)
Definition gaps_left (s1 s0 : dt_stack_t) : list Z := drop (d_size d - s_count s1) (elements d (base + true_lb d + s_disp s0) (s_count s0)).

Record gaps_ok (s1 s0 : dt_stack_t) : Prop := {
  go_type : s_type s1 = OPAL_DATATYPE_UINT1;
  go_left : 0 < s_count s1 ≤ d_size d;
  go_disp : s_disp s1 = Z.of_nat (d_size d - s_count s1);
  go_count : 0 < s_count s0;
}.

Lemma gaps_left_head s1 s0 : gaps_ok s1 s0 →
  gaps_left s1 s0 = seqZ (base + true_lb d + s_disp s0 + s_disp s1) (Z.of_nat (s_count s1)) ++ elements d (base + true_lb d + s_disp s0 + d_extent d) (s_count s0 - 1).
Proof.
  intros [_ Hl Hd Hc]. unfold gaps_left. destruct (s_count s0) as [|n]; [lia|]. cbn [elements]. rewrite drop_app_le by (rewrite length_seqZ; lia).
  rewrite (proj2 (take_drop_seqZ _ _ _ (Nat.le_sub_l _ _))), Hd. f_equal; [f_equal; lia|f_equal; lia].
Qed.

Lemma gaps_elements_ok m a n : mapped_in m (elements d a n) → ∃ bs, gaps_elements m (d_size d) (d_extent d) n a = Some bs ∧ mapM (m !!.) (elements d a n) = Some bs.
Proof.
  revert a; induction n as [|n IH]; intros a Hm; [by exists []|]. cbn [elements] in Hm |- *. apply Forall_app in Hm as [[bs Hbs]%mapM_mapped Hm].
  destruct (IH _ Hm) as (bs' & Hrun & Hbs'). cbn [gaps_elements]. unfold load. rewrite Hbs. cbn [mbind option_bind]. rewrite Hrun. exists (bs ++ bs'). split; [done|by apply mapM_app_Some].
Qed.

Lemma gaps_left_length s1 s0 : s_count s1 ≤ d_size d → length (gaps_left s1 s0) = s_count s0 * d_size d - (d_size d - s_count s1).
Proof. intros Hl. unfold gaps_left. by rewrite length_drop, elements_length. Qed.

(** Part of the current element. *)
Lemma gaps_part s1 s0 n : gaps_ok s1 s0 → n < s_count s1 →
  let s1' := with_count (s_count s1 - n) (s_disp s1 + Z.of_nat n) s1 in
  gaps_ok s1' s0 ∧ gaps_left s1' s0 = drop n (gaps_left s1 s0) ∧ take n (gaps_left s1 s0) = seqZ (base + true_lb d + s_disp s0 + s_disp s1) (Z.of_nat n).
Proof.
  intros Hok Hn s1'. pose proof Hok as [Ht Hl Hd Hc]. split_and!.
  - split; cbn; [done|lia|lia|done].
  - unfold gaps_left. cbn. rewrite drop_drop. f_equal. lia.
  - rewrite gaps_left_head by done. rewrite take_app_le by (rewrite length_seqZ; lia). by apply (take_drop_seqZ _ n (s_count s1)); lia.
Qed.

(** Whole elements. *)
Lemma gaps_whole s1 s0 i : s_count s1 = d_size d → i ≤ s_count s0 →
  let s0' := with_count (s_count s0 - i) (s_disp s0 + Z.of_nat i * d_extent d) s0 in
  gaps_left s1 s0 = elements d (base + true_lb d + s_disp s0) i ++ gaps_left s1 s0'.
Proof.
  intros Hl Hi s0'. unfold gaps_left. rewrite Hl, Nat.sub_diag, !drop_0. cbn. replace (s_count s0) with (i + (s_count s0 - i)) at 1 by lia. rewrite elements_add. do 2 f_equal. lia.
Qed.

Lemma gaps_rest_ok m s1 s0 n : gaps_ok s1 s0 → mapped_in m (gaps_left s1 s0) → n ≤ length (gaps_left s1 s0) → s_count s1 = d_size d ∨ n < s_count s1 →
  ∃ bs s1' s0', gaps_rest m d base s1 s0 n = Some (bs, s1', s0') ∧ mapM (m !!.) (take n (gaps_left s1 s0)) = Some bs ∧
    gaps_left s1' s0' = drop n (gaps_left s1 s0) ∧ (n < length (gaps_left s1 s0) → gaps_ok s1' s0').
Proof.
  intros Hok Hm Hn Hcase. pose proof Hok as [Ht Hl Hd Hc]. rewrite gaps_left_length in Hn |- * by lia. unfold gaps_rest. rewrite (proj2 (Nat.eqb_neq (d_size d) 0)) by lia. cbn [negb].
  pose proof (Nat.div_mod_eq n (d_size d)) as Hdm. pose proof (Nat.mod_upper_bound n (d_size d) ltac:(lia)) as Hr. set (i := n / d_size d) in *.
  replace (n - i * d_size d) with (n mod d_size d) by lia. set (r := n mod d_size d) in *.
  assert (Hi : i ≤ s_count s0 ∧ (s_count s1 ≠ d_size d → i = 0)) by (destruct Hcase; nia). destruct Hi as [Hi Hi0].
  set (s0' := with_count (s_count s0 - i) (s_disp s0 + Z.of_nat i * d_extent d) s0).
  assert (Hsplit : gaps_left s1 s0 = elements d (base + true_lb d + s_disp s0) i ++ gaps_left s1 s0').
  { destruct (decide (s_count s1 = d_size d)) as [E|E]; [by apply gaps_whole|]. specialize (Hi0 E). unfold s0', gaps_left. rewrite Hi0. cbn. by rewrite Nat.sub_0_r, Z.add_0_r. }
  assert (Ha : (base + true_lb d + s_disp s0 + s_disp s1)%Z = (base + true_lb d + s_disp s0)%Z ∨ i = 0) by (destruct (decide (s_count s1 = d_size d)); [left; lia|right; auto]).
  assert (Helem : ∃ bs, gaps_elements m (d_size d) (d_extent d) i (base + true_lb d + s_disp s0 + s_disp s1) = Some bs ∧ mapM (m !!.) (elements d (base + true_lb d + s_disp s0) i) = Some bs).
  { destruct Ha as [->| ->]; [|by exists []]. apply gaps_elements_ok. rewrite Hsplit in Hm. by apply Forall_app in Hm as [? _]. }
  destruct Helem as (bs & -> & Hbs). cbn [mbind option_bind]. rewrite Hsplit in Hm |- *. apply Forall_app in Hm as [_ Hm].
  assert (Hlen : length (elements d (base + true_lb d + s_disp s0) i) = i * d_size d) by apply elements_length.
  rewrite take_app, drop_app, Hlen, (take_ge (elements _ _ _)), (drop_ge (elements _ _ _)) by lia. replace (n - i * d_size d) with r by lia. cbn [app].
  destruct (Nat.eqb_spec r 0) as [Hr0|Hr0].
  - exists bs, s1, s0'. rewrite Hr0, take_0, drop_0, app_nil_r. split_and!; [done|done|done|]. intros Hlt. split; [done|done|done|cbn; nia].
  - assert (Hok' : gaps_ok s1 s0') by (split; [done|done|done|cbn; destruct Hcase; nia]). destruct (gaps_part s1 s0' r Hok' ltac:(destruct Hcase; [lia|nia])) as (Hok1 & Hl1 & Ht1).
    assert (Hu : (base + true_lb d + s_disp s0 + s_disp s1 + Z.of_nat i * d_extent d)%Z = (base + true_lb d + s_disp s0' + s_disp s1)%Z) by (cbn; lia). rewrite Hu.
    destruct (mapM_mapped m (take r (gaps_left s1 s0')) (mapped_take _ _ _ Hm)) as [bs' Hbs']. rewrite Ht1 in Hbs'. unfold load. rewrite Hbs'. cbn [mbind option_bind].
    set (s1' := with_count _ _ s1) in *. rewrite (proj2 (Nat.eqb_neq (s_count s1') 0)) by (destruct Hok1; lia).
    exists (bs ++ bs'), s1', s0'. split_and!; [done|rewrite Ht1; by apply mapM_app_Some|done|done].
Qed.

(** The end of the current element. *)
Lemma gaps_next s1 s0 disp : gaps_ok s1 s0 →
  let s1' := with_count (d_size d) 0 (with_count 0 disp s1) in let s0' := with_count (s_count s0 - 1) (s_disp s0 + d_extent d) s0 in
  gaps_left s1' s0' = drop (s_count s1) (gaps_left s1 s0) ∧ (1 < s_count s0 → gaps_ok s1' s0').
Proof.
  intros Hok. pose proof Hok as [Ht Hl Hd Hc]. split.
  - rewrite (gaps_left_head s1 s0) by done. rewrite drop_app_length' by (rewrite length_seqZ; lia). unfold gaps_left. cbn. rewrite Nat.sub_diag, drop_0. f_equal. lia.
  - intros H1. split; cbn; [done|lia|lia|lia].
Qed.

Lemma gaps_buffer_ok m s1 s0 n : gaps_ok s1 s0 → mapped_in m (gaps_left s1 s0) → n ≤ length (gaps_left s1 s0) →
  ∃ bs s1' s0' left_loop, gaps_buffer m d base s1 s0 n = Some (bs, s1', s0', left_loop) ∧ mapM (m !!.) (take n (gaps_left s1 s0)) = Some bs ∧
    gaps_left s1' s0' = drop n (gaps_left s1 s0) ∧ (n < length (gaps_left s1 s0) → gaps_ok s1' s0' ∧ left_loop = false).
Proof.
  intros Hok Hm Hn. pose proof Hok as [Ht Hl Hd Hc]. unfold gaps_buffer. destruct (negb (d_size d =? s_count s1) && (s_count s1 <=? n)) eqn:E.
  - apply andb_prop in E as [E1 E2%Nat.leb_le]. rewrite gaps_left_head in Hm by done. apply Forall_app in Hm as [[bs Hbs]%mapM_mapped Hm].
    unfold load. rewrite Hbs. cbn [mbind option_bind]. rewrite Nat.sub_diag. cbn [s_count with_count Nat.eqb].
    destruct (gaps_next s1 s0 (s_disp s1 + Z.of_nat (s_count s1)) Hok) as [Hleft Hok1]. cbn [with_count s_index s_type] in Hleft, Hok1 |- *.
    assert (Hsplit : gaps_left s1 s0 = seqZ (base + true_lb d + s_disp s0 + s_disp s1) (Z.of_nat (s_count s1)) ++ drop (s_count s1) (gaps_left s1 s0)).
    { rewrite gaps_left_head at 1 by done. f_equal. rewrite gaps_left_head by done. by rewrite drop_app_length' by (rewrite length_seqZ; lia). }
    assert (Htake : ∀ bs', mapM (m !!.) (take (n - s_count s1) (drop (s_count s1) (gaps_left s1 s0))) = Some bs' → mapM (m !!.) (take n (gaps_left s1 s0)) = Some (bs ++ bs')).
    { intros bs' Hbs'. rewrite Hsplit. rewrite take_app, take_ge, length_seqZ, Nat2Z.id by (rewrite length_seqZ; lia). by apply mapM_app_Some. }
    destruct (Nat.eqb_spec (s_count s0 - 1) 0) as [H0|H0].
    + eexists bs, _, _, true. rewrite gaps_left_length in Hn |- * by lia. split_and!; [done| | |nia].
      * rewrite <-(app_nil_r bs). apply Htake. by rewrite firstn_all2, drop_ge by (rewrite ?length_drop, gaps_left_length by lia; nia).
      * rewrite drop_ge by (rewrite gaps_left_length; nia). unfold gaps_left. cbn. rewrite H0. apply drop_nil.
    + specialize (Hok1 ltac:(lia)). set (s1' := with_count (d_size d) 0 _) in *. set (s0' := with_count _ _ s0) in *. assert (Hm1 : mapped_in m (gaps_left s1' s0')).
      { rewrite Hleft, (gaps_left_head s1 s0) by done. by rewrite drop_app_length' by (rewrite length_seqZ; lia). }
      destruct (gaps_rest_ok m s1' s0' (n - s_count s1) Hok1 Hm1) as (bs' & s1'' & s0'' & -> & Hbs' & Hl' & Hok'); [rewrite Hleft, length_drop; lia|by left|].
      cbn [mbind option_bind]. rewrite Hleft, ?drop_drop, ?length_drop in *. replace (s_count s1 + (n - s_count s1)) with n in Hl' by lia. eexists _, _, _, false. split_and!; [done|by apply Htake|done|].
      intros Hlt. split; [apply Hok'; lia|done].
  - destruct (gaps_rest_ok m s1 s0 n Hok Hm Hn) as (bs & s1' & s0' & -> & Hbs & Hleft & Hok'); [|by eexists bs, s1', s0', false; split_and!; auto].
    apply andb_false_iff in E as [E%negb_false_iff%Nat.eqb_eq|E%Nat.leb_gt]; auto.
Qed.

Lemma gaps_loop_ok M m iov total s1 s0 n : 0 < M → gaps_ok s1 s0 → mapped_in m (gaps_left s1 s0) → total = n + length (gaps_left s1 s0) → Forall (λ i : iovec_t, is_Some i.1) iov →
  ∃ ps idx s1' s0' k, gaps_loop m d base total iov s1 s0 n = Some (ps, idx, s1', s0', n + k) ∧ packs M m (gaps_left s1 s0) iov ps k ∧
    gaps_left s1' s0' = drop k (gaps_left s1 s0) ∧ (k < length (gaps_left s1 s0) → gaps_ok s1' s0' ∧ idx = length ps).
Proof.
  intros HM. revert s1 s0 n; induction iov as [|[b len] iov IH]; intros s1 s0 n Hok Hm -> Hb; cbn [gaps_loop].
  { eexists [], 0, s1, s0, 0. rewrite Nat.add_0_r, drop_0. split_and!; [done|apply packs_nil|done|done]. }
  rewrite Nat.add_comm, Nat.add_sub. inversion Hb as [|? ? [a Ha] Hb']; subst. cbn in Ha; subst b.
  rewrite (proj2 (Nat.eqb_neq _ 0)) by (rewrite gaps_left_length by (destruct Hok; lia); destruct Hok; nia).
  set (R := gaps_left s1 s0) in *. set (l := if len <? length R then len else length R).
  assert (Hl : l ≤ length R ∧ l ≤ len ∧ (l < length R → l = len)) by (unfold l; destruct (Nat.ltb_spec len (length R)); lia). clearbody l. cbn [mbind option_bind].
  destruct (gaps_buffer_ok m s1 s0 l Hok Hm (proj1 Hl)) as (bs & s1' & s0' & ll & -> & Hbs & Hleft & Hok'). fold R in Hbs, Hleft, Hok'. cbn [mbind option_bind].
  assert (Hpl : piece_len (Copied bs) = l) by (apply length_mapM in Hbs; rewrite length_take_le in Hbs by lia; done).
  destruct (decide (l = length R)) as [->|Hne].
  - assert (Hend : ∀ ps k, packs M m [] iov ps k → packs M m R ((Some a, len) :: iov) (Copied bs :: ps) (length R + k)).
    { intros ps k Hp. eapply packs_cons; [done|done|done|cbn; lia|lia|done|by rewrite drop_all]. }
    destruct ll.
    + eexists [_], 0, _, _, (length R). split_and!; [done| |done|lia]. rewrite <-(Nat.add_0_r (length R)). apply Hend, packs_stop.
    + assert (Hstop : ∃ i, gaps_loop m d base (length R + n) iov s1' s0' (n + length R) = Some ([], i, s1', s0', n + length R)).
      { exists 0. destruct iov as [|[b' len'] iov]; cbn [gaps_loop]; [done|]. by rewrite (Nat.add_comm (length R)), Nat.sub_diag. }
      destruct Hstop as [i ->]. cbn [mbind option_bind]. eexists [_], _, _, _, (length R). split_and!; [done| |done|lia]. rewrite <-(Nat.add_0_r (length R)). apply Hend, packs_stop.
  - destruct (Hok' ltac:(lia)) as [Hok1 ->]. destruct (IH s1' s0' (n + l) Hok1) as (ps & idx & s1'' & s0'' & k & Hrun & Hps & Hleft' & Hok2).
    { rewrite Hleft. by apply mapped_drop. } { rewrite Hleft, length_drop. lia. } { done. }
    rewrite Hleft, length_drop in *. replace (n + l + (length R - l)) with (n + length R) in Hrun by lia. rewrite (Nat.add_comm (length R) n), Hrun. cbn [mbind option_bind].
    eexists (Copied bs :: ps), (S idx), s1'', s0'', (l + k). rewrite Hleft', drop_drop. split_and!; [by rewrite Nat.add_assoc| |done|].
    + eapply packs_cons; [lia|done|done|cbn; lia|cbn; lia|done|done].
    + intros Hlt. destruct (Hok2 ltac:(lia)) as [? ->]. done.
Qed.

Lemma gaps_pointers_ok m n s1 s0 conv : gaps_ok s1 s0 → mapped_in m (gaps_left s1 s0) →
  ∃ ps s1' s0' k, gaps_pointers d base n s1 s0 conv = (ps, s1', s0', conv + k) ∧ k ≤ length (gaps_left s1 s0) ∧
    (∃ bs, contents m ps = Some bs ∧ mapM (m !!.) (take k (gaps_left s1 s0)) = Some bs) ∧ gaps_left s1' s0' = drop k (gaps_left s1 s0) ∧
    (0 < n → 0 < k) ∧ (k < length (gaps_left s1 s0) → gaps_ok s1' s0' ∧ length ps = n).
Proof.
  revert s1 s0 conv; induction n as [|n IH]; intros s1 s0 conv Hok Hm; cbn [gaps_pointers].
  { eexists [], s1, s0, 0. rewrite Nat.add_0_r, drop_0. split_and!; [done|lia|by exists []|done|lia|done]. }
  pose proof Hok as [Ht Hl Hd Hc]. rewrite (proj2 (Nat.eqb_neq (s_count s0) 0)) by lia. destruct (gaps_next s1 s0 (s_disp s1) Hok) as [Hleft Hok1].
  cbn [with_count s_index s_type] in Hleft, Hok1. set (s1' := with_count (d_size d) 0 (with_count 0 _ s1)) in *. change (with_count (d_size d) 0 s1) with s1'. set (s0' := with_count _ _ s0) in *.
  set (a := (base + true_lb d + s_disp s0 + s_disp s1)%Z). assert (Hsplit : gaps_left s1 s0 = seqZ a (Z.of_nat (s_count s1)) ++ gaps_left s1' s0').
  { rewrite Hleft, (gaps_left_head s1 s0) by done. by rewrite drop_app_length' by (rewrite length_seqZ; lia). }
  rewrite Hsplit in Hm |- *. apply Forall_app in Hm as [[bs Hbs]%mapM_mapped Hm]. assert (Hlen : length (seqZ a (Z.of_nat (s_count s1))) = s_count s1) by (rewrite length_seqZ; lia).
  assert (Hgo : ∃ ps s1'' s0'' k, gaps_pointers d base n s1' s0' (conv + s_count s1) = (ps, s1'', s0'', conv + s_count s1 + k) ∧ k ≤ length (gaps_left s1' s0') ∧
    (∃ bs, contents m ps = Some bs ∧ mapM (m !!.) (take k (gaps_left s1' s0')) = Some bs) ∧ gaps_left s1'' s0'' = drop k (gaps_left s1' s0') ∧
    (k < length (gaps_left s1' s0') → gaps_ok s1'' s0'' ∧ length ps = n)).
  { destruct (decide (1 < s_count s0)) as [H1|H1].
    - destruct (IH s1' s0' (conv + s_count s1) (Hok1 H1) Hm) as (ps & s1'' & s0'' & k & Hrun & ? & ? & ? & _ & ?). by exists ps, s1'', s0'', k.
    - assert (H0 : s_count s0' = 0) by (cbn; lia). assert (Hnil : gaps_left s1' s0' = []) by (unfold gaps_left; rewrite H0; apply drop_nil).
      exists [], s1', s0', 0. rewrite Hnil, Nat.add_0_r. split_and!; [|cbn; lia|by exists []|done|cbn; lia]. destruct n; cbn [gaps_pointers]; [done|]. by rewrite H0. }
  destruct Hgo as (ps & s1'' & s0'' & k & -> & Hk & (bs' & Hc' & Hbs') & Hl' & Hok'). exists (Pointed a (s_count s1) :: ps), s1'', s0'', (s_count s1 + k).
  rewrite length_app, take_app, drop_app, (drop_ge (seqZ _ _)), (take_ge (seqZ _ _)), Hlen by lia. replace (s_count s1 + k - s_count s1) with k by lia.
  split_and!; [by rewrite Nat.add_assoc|lia| |done|lia|intros Hlt; cbn [length]; rewrite (proj2 (Hok' ltac:(lia))); split; [apply Hok'; lia|done]].
  exists (bs ++ bs'). split; [by apply contents_cons|by apply mapM_app_Some].
Qed.

(** *** Unpacking *)

Lemma gaps_left_prefix s1 s0 : gaps_ok s1 s0 → seqZ (base + true_lb d + s_disp s0 + s_disp s1) (Z.of_nat (s_count s1)) `prefix_of` gaps_left s1 s0.
Proof. intros Hok. rewrite gaps_left_head by done. by eexists. Qed.

Lemma unpack_gaps_elements_ok fuel m s1 s0 data : length data < fuel → gaps_ok s1 s0 → mapped_in m (gaps_left s1 s0) → length data ≤ length (gaps_left s1 s0) →
  ∃ s1' s0' n, unpack_gaps_elements fuel m d base s1 s0 data = Some (writes (gaps_left s1 s0) (take n data) m, s1', s0', drop n data) ∧ n ≤ length data ∧
    gaps_left s1' s0' = drop n (gaps_left s1 s0) ∧ length data - n < s_count s1' ∧ (n < length (gaps_left s1 s0) → gaps_ok s1' s0').
Proof.
  revert m s1 s0 data; induction fuel as [|fuel IH]; intros m s1 s0 data Hf Hok Hm Hlen; [lia|]. cbn [unpack_gaps_elements]. pose proof Hok as [Ht Hl Hd Hc].
  destruct (Nat.leb_spec (s_count s1) (length data)) as [Hle|Hlt].
  2:{ exists s1, s0, 0. rewrite take_0, !drop_0. split_and!; [by destruct (gaps_left s1 s0)|lia|done|lia|done]. }
  rewrite (store_ok m _ (s_count s1) (gaps_left s1 s0)) by (rewrite ?length_take; lia || by auto using gaps_left_prefix). cbn [mbind option_bind].
  destruct (gaps_next s1 s0 (s_disp s1) Hok) as [Hleft Hok1]. set (s1' := with_count (d_size d) 0 (with_count 0 _ s1)) in *. change (with_count (d_size d) 0 s1) with s1'. set (s0' := with_count _ _ s0) in *.
  set (m' := writes (gaps_left s1 s0) (take (s_count s1) data) m). assert (Hm' : mapped_in m' (gaps_left s1' s0')) by (rewrite Hleft; apply mapped_writes; [done|by apply mapped_drop]).
  assert (Htk : ∀ n, writes (gaps_left s1' s0') (take n (drop (s_count s1) data)) m' = writes (gaps_left s1 s0) (take (s_count s1 + n) data) m).
  { intros n. rewrite <-take_take_drop, writes_twice, Hleft. unfold m'. by rewrite length_take_le. }
  destruct (decide (1 < s_count s0)) as [H1|H1].
  - destruct (IH m' s1' s0' (drop (s_count s1) data)) as (s1'' & s0'' & n & Hrun & Hn & Hleft' & Hsm & Hok'); [rewrite length_drop; lia|auto|done|rewrite Hleft, !length_drop; lia|].
    rewrite Hrun, Htk, drop_drop. rewrite length_drop in *. exists s1'', s0'', (s_count s1 + n). split_and!; [done|lia|by rewrite Hleft', Hleft, drop_drop|lia|].
    intros Hlt. apply Hok'. rewrite Hleft, length_drop. lia.
  - assert (H0 : s_count s0 = 1) by lia. rewrite gaps_left_length in Hlen by lia. assert (length data = s_count s1) by nia.
    exists s1', s0', (s_count s1). rewrite Hleft. split_and!; [|lia|done|cbn; lia|rewrite gaps_left_length; nia].
    destruct fuel as [|fuel]; [lia|]. cbn [unpack_gaps_elements]. rewrite (drop_ge data) by lia. cbn [length]. by rewrite (proj2 (Nat.leb_gt (s_count s1') 0)) by (cbn; lia).
Qed.

Lemma unpack_gaps_buffer_ok m s1 s0 data : gaps_ok s1 s0 → mapped_in m (gaps_left s1 s0) → length data ≤ length (gaps_left s1 s0) →
  ∃ s1' s0', unpack_gaps_buffer m d base s1 s0 data = Some (writes (gaps_left s1 s0) data m, s1', s0') ∧ gaps_left s1' s0' = drop (length data) (gaps_left s1 s0) ∧
    (length data < length (gaps_left s1 s0) → gaps_ok s1' s0').
Proof.
  intros Hok Hm Hlen. unfold unpack_gaps_buffer. destruct (unpack_gaps_elements_ok (S (length data)) m s1 s0 data ltac:(lia) Hok Hm Hlen) as (s1' & s0' & n & -> & Hn & Hleft & Hsm & Hok').
  cbn [mbind option_bind]. rewrite length_drop. destruct (Nat.eqb_spec (length data - n) 0) as [H0|H0].
  { exists s1', s0'. assert (n = length data) as -> by lia. rewrite firstn_all. done. }
  specialize (Hok' ltac:(lia)). rewrite (store_ok _ _ (s_count s1') (gaps_left s1' s0')).
  2:{ rewrite length_drop. lia. } 2:{ by apply gaps_left_prefix. } 2:{ rewrite Hleft. apply mapped_writes; [done|by apply mapped_drop]. }
  cbn [mbind option_bind]. destruct (gaps_part s1' s0' (length data - n) Hok' Hsm) as (Hok1 & Hleft1 & _). set (s2 := with_count _ _ s1') in *.
  rewrite (proj2 (Nat.eqb_neq (s_count s2) 0)) by (destruct Hok1; lia). cbn [negb]. exists s2, s0'. split_and!; [|rewrite Hleft1, Hleft, drop_drop; f_equal; lia|done].
  do 3 f_equal. rewrite Hleft. rewrite <-(take_drop n data) at 3. by rewrite writes_twice, length_take_le by lia.
Qed.

Lemma unpack_gaps_loop_ok m iov s1 s0 n : gaps_ok s1 s0 → mapped_in m (gaps_left s1 s0) → let R := gaps_left s1 s0 in
  ∃ i s1' s0', unpack_gaps_loop m d base (n + length R) iov s1 s0 n = Some (writes R (received iov) m, i, s1', s0', n + (length R `min` length (received iov))) ∧
    (length (received iov) < length R → gaps_ok s1' s0' ∧ gaps_left s1' s0' = drop (length (received iov)) R ∧ i = length iov).
Proof.
  revert m s1 s0 n; induction iov as [|[b data] iov IH]; intros m s1 s0 n Hok Hm R; cbn [unpack_gaps_loop].
  { exists 0, s1, s0. cbn [received concat fmap list_fmap length]. rewrite Nat.min_0_r, Nat.add_0_r, drop_0. split; [by destruct R|done]. }
  rewrite (Nat.add_comm n), Nat.add_sub, (Nat.add_comm _ n). change (received ((b, data) :: iov)) with (data ++ received iov). rewrite length_app.
  assert (HRne : length R ≠ 0) by (unfold R; rewrite gaps_left_length by (destruct Hok; lia); destruct Hok; nia). rewrite (proj2 (Nat.eqb_neq _ 0) HRne).
  set (l := if length data <? length R then length data else length R). assert (Hl : l = length data `min` length R) by (unfold l; destruct (Nat.ltb_spec (length data) (length R)); lia). clearbody l.
  destruct (unpack_gaps_buffer_ok m s1 s0 (take l data) Hok Hm) as (s1' & s0' & -> & Hleft & Hok'); [fold R; rewrite length_take; lia|]. fold R in Hleft, Hok' |- *.
  rewrite length_take in Hleft, Hok'. cbn [mbind option_bind]. destruct (decide (length data < length R)) as [Hlt|Hge].
  - specialize (Hok' ltac:(lia)). destruct (IH (writes R (take l data) m) s1' s0' (n + l) Hok') as (i & s1'' & s0'' & Hrun & Hi). { rewrite Hleft. apply mapped_writes; [done|by apply mapped_drop]. }
    rewrite Hleft, length_drop in Hrun, Hi. replace (l `min` length data) with l in * by lia. replace (n + l + (length R - l)) with (n + length R) in Hrun by lia. rewrite Hrun. cbn [mbind option_bind].
    rewrite Hl, Nat.min_l in * by lia. rewrite take_ge by lia. exists (S i), s1'', s0''. rewrite writes_twice. split; [f_equal; f_equal; lia|].
    intros Hlt'. destruct (Hi ltac:(lia)) as (? & -> & ->). by rewrite drop_drop.
  - assert (l = length R) as -> by lia. exists 1, s1', s0'. assert (Hstop : unpack_gaps_loop (writes R (take (length R) data) m) d base (n + length R) iov s1' s0' (n + length R) = Some (writes R (take (length R) data) m, 0, s1', s0', n + length R)).
    { destruct iov as [|[b' d'] iov]; cbn [unpack_gaps_loop]; [done|]. by rewrite Nat.sub_diag. }
    rewrite Hstop. cbn [mbind option_bind]. split; [|lia]. rewrite writes_enough, writes_twice, drop_ge by lia. cbn. do 2 f_equal. lia.
Qed.

End gaps.
End DtContigSpec.
