(* ===== verification/DtConvSpec.v ===== *)
(** * Convertors pack and unpack the bytes of the type map

    A convertor that is prepared for a number of elements has the bytes of their type map
    to go; every call takes the next ones. *)

From stdpp Require Import base numbers list gmap.
From S2P Require Import Prelude DtDesc DtWalk DtCopy DtMap DtWalkSpec DtCopySpec DtPackSpec DtConv DtContigSpec.

Module DtConvSpec.
Import DtDesc DtWalk DtPack DtUnpack DtMap DtWalkSpec DtCopySpec DtPackSpec DtUnpackSpec DtConv DtContigSpec.
Local Open Scope nat_scope.

(** ** Flags *)

Lemma flag_lor f g c : flag (Z.lor f g) c = flag f c || flag g c.
Proof.
  unfold flag. rewrite Z.land_lor_distr_l, <-negb_andb. f_equal. apply eq_iff_eq_true. by rewrite andb_true_iff, !Z.eqb_eq, Z.lor_eq_0_iff.
Qed.

Lemma flag_land f m c : flag (Z.land f m) c = flag f (Z.land m c).
Proof. unfold flag. by rewrite Z.land_assoc. Qed.

Lemma flag_ldiff f m c : flag (Z.ldiff f m) c = flag f (Z.ldiff c m).
Proof.
  unfold flag. do 2 f_equal. apply Z.bits_inj'. intros n Hn. rewrite !Z.land_spec, !Z.ldiff_spec. destruct (Z.testbit f n), (Z.testbit m n), (Z.testbit c n); done.
Qed.

Lemma flag_0 f : flag f 0 = false.
Proof. unfold flag. by rewrite Z.land_0_r. Qed.

(** Masks of constants. *)
Ltac masks :=
  rewrite ?flag_lor, ?flag_land, ?flag_ldiff;
  repeat match goal with
  | |- context [flag ?f ?m] =>
      lazymatch m with
      | Z.land ?a ?b => let r := eval vm_compute in m in change m with r
      | Z.ldiff ?a ?b => let r := eval vm_compute in m in change m with r
      end
  end; rewrite ?flag_0.

(** ** Datatypes *)

Section spec.
Context `{AbiLaws}.

(** A committed datatype: its optimized description has the type map [items_map 0 its].
    A contiguous one has a single entry, one without gaps an extent that is its size. *)
Record dt_ok (d : opal_datatype_t) (its : list item) : Prop := {
  dk_desc : describes (opt_desc d) its;
  dk_items : Forall item_ok its;
  dk_size : d_size d = length (items_map 0 its);
  dk_depth : 1 + depth its < DT_STATIC_STACK_SIZE `max` (d_loops d + 1);
  dk_contiguous : flag (d_flags d) OPAL_DATATYPE_FLAG_CONTIGUOUS = true →
    items_map 0 its = seqZ (true_lb d) (Z.of_nat (d_size d)) ∧ ∃ e, its = [Data e] ∧ e_count e = 1;
  dk_no_gaps : flag (d_flags d) OPAL_DATATYPE_FLAG_NO_GAPS = true → flag (d_flags d) OPAL_DATATYPE_FLAG_CONTIGUOUS = true ∧ d_extent d = Z.of_nat (d_size d);
}.

(** The bytes of [count] elements in the user's memory. *)
Definition type_map (d : opal_datatype_t) (its : list item) (pUserBuf : Z) (count : nat) : list Z := loop_map pUserBuf (d_extent d) 0 count its.

Lemma type_map_length d its a count : dt_ok d its → length (type_map d its a count) = count * d_size d.
Proof. intros Hd. unfold type_map. by rewrite loop_map_length, (dk_size _ _ Hd). Qed.

Lemma type_map_elements d its a count : dt_ok d its → flag (d_flags d) OPAL_DATATYPE_FLAG_CONTIGUOUS = true →
  type_map d its a count = elements d (a + true_lb d) count.
Proof.
  intros Hd Hc. destruct (dk_contiguous _ _ Hd Hc) as [Hm _]. unfold type_map. revert a; induction count as [|n IH]; intros a; [done|]. rewrite loop_map_S. cbn [elements]. f_equal.
  - rewrite items_map_base, Hm, fmap_add_seqZ. f_equal. lia.
  - rewrite <-(loop_map_next a (d_extent d) 0 n 1 its). replace (a + true_lb d + d_extent d)%Z with (a + Z.of_nat 1 * d_extent d + true_lb d)%Z by lia. apply IH.
Qed.

(** Without gaps between them, or a single one. *)
Lemma elements_contiguous d a n : d_extent d = Z.of_nat (d_size d) ∨ n ≤ 1 → elements d a n = seqZ a (Z.of_nat (n * d_size d)).
Proof.
  revert a; induction n as [|n IH]; intros a Hx; [done|]. cbn [elements]. destruct Hx as [Hx|Hn].
  - rewrite IH by auto. replace (S n * d_size d) with (d_size d + n * d_size d) by lia. rewrite seqZ_app. do 2 f_equal. lia.
  - assert (n = 0) as -> by lia. cbn [elements]. rewrite app_nil_r. do 2 f_equal. lia.
Qed.

(** ** Preparing a convertor *)

(** The convertor has the flags of the datatype. *)
Definition datatype_flags (f : Z) (d : opal_datatype_t) : Prop :=
  flag f OPAL_DATATYPE_FLAG_CONTIGUOUS = flag (d_flags d) OPAL_DATATYPE_FLAG_CONTIGUOUS ∧ flag f OPAL_DATATYPE_FLAG_NO_GAPS = flag (d_flags d) OPAL_DATATYPE_FLAG_NO_GAPS.

(** How a convertor is prepared: nothing to do, contiguous data, or a stack. *)
Inductive prepared (c : opal_convertor_t) (d : opal_datatype_t) (count : nat) (buf : Z) : bool → opal_convertor_t → Prop :=
| prepared_empty c' : count * d_size d = 0 → pDesc c' = Some d → local_size c' = 0 → bConverted c' = 0 →
    flag (c_flags c') CONVERTOR_COMPLETED = true → prepared c d count buf true c'
| prepared_no_op f : 0 < count * d_size d → flag (d_flags d) OPAL_DATATYPE_FLAG_CONTIGUOUS = true → d_extent d = Z.of_nat (d_size d) ∨ count ≤ 1 →
    flag f CONVERTOR_COMPLETED = false → flag f CONVERTOR_NO_OP = true → flag f CONVERTOR_HOMOGENEOUS = true → datatype_flags f d →
    prepared c d count buf true
      (mk_convertor f (count * d_size d) (count * d_size d) (Some d) count (stack_size c) buf (pStack c) (fAdvance c) (c_partial_length c) 0)
| prepared_stack f s : 0 < count * d_size d → opal_convertor_create_stack_at_begining (opt_desc d) count = Some s →
    flag f CONVERTOR_COMPLETED = false → flag f CONVERTOR_NO_OP = false → flag f CONVERTOR_HOMOGENEOUS = true → datatype_flags f d →
    (flag (c_flags c) CONVERTOR_WITH_CHECKSUM = false → flag (d_flags d) OPAL_DATATYPE_FLAG_NO_GAPS = false) → flag f CONVERTOR_SEND = flag (c_flags c) CONVERTOR_SEND →
    prepared c d count buf false
      (mk_convertor f (count * d_size d) (count * d_size d) (Some d) count (DT_STATIC_STACK_SIZE `max` (d_loops d + 1)) buf s (fAdvance c) 0 0).

Lemma create_stack_some d its count : dt_ok d its → 0 < d_size d → ∃ s, opal_convertor_create_stack_at_begining (opt_desc d) count = Some s.
Proof.
  intros Hd Hs. destruct (dk_desc _ _ Hd) as [el ->]. destruct its as [|[e|n x c body] its]; [|by eexists|by eexists]. rewrite (dk_size _ _ Hd) in Hs. cbn in Hs. lia.
Qed.

Lemma prepare_ok c d its count buf : dt_ok d its → stack_size c = DT_STATIC_STACK_SIZE → (Z.of_nat (count * d_size d) < 2 ^ 64)%Z →
  ∃ returned c', OPAL_CONVERTOR_PREPARE c d count buf = Some (returned, c') ∧ prepared c d count buf returned c'.
Proof.
  intros Hd Hss Hsz. unfold OPAL_CONVERTOR_PREPARE. rewrite wrap_small, Nat2Z.id by lia. cbn [c_flags local_size remote_size pDesc c_count stack_size pBaseBuf pStack fAdvance c_partial_length bConverted].
  destruct ((count =? 0) || (d_size d =? 0)) eqn:E0.
  { eexists true, _. split; [done|]. apply prepared_empty; cbn; try done.
    - apply orb_true_iff in E0 as [E0%Nat.eqb_eq|E0%Nat.eqb_eq]; nia.
    - masks. by rewrite !orb_true_r. }
  apply orb_false_iff in E0 as [E1%Nat.eqb_neq E2%Nat.eqb_neq]. set (f1 := Z.lor (Z.lor _ _) _).
  assert (Hf1 : flag f1 OPAL_DATATYPE_FLAG_NO_GAPS = flag (d_flags d) OPAL_DATATYPE_FLAG_NO_GAPS ∧ flag f1 OPAL_DATATYPE_FLAG_CONTIGUOUS = flag (d_flags d) OPAL_DATATYPE_FLAG_CONTIGUOUS ∧
    flag f1 CONVERTOR_COMPLETED = false ∧ flag f1 CONVERTOR_NO_OP = true ∧ flag f1 CONVERTOR_HOMOGENEOUS = true ∧
    flag f1 CONVERTOR_WITH_CHECKSUM = flag (c_flags c) CONVERTOR_WITH_CHECKSUM ∧ flag f1 CONVERTOR_SEND = flag (c_flags c) CONVERTOR_SEND).
  { unfold f1. rewrite (Z.land_comm CONVERTOR_DATATYPE_MASK). split_and!; masks; rewrite ?orb_false_r, ?orb_true_r; try done. }
  destruct Hf1 as (Hng & Hct & Hcp & Hno & Hho & Hcs & Hsnd). clearbody f1. rewrite Hng, Hct, Hcs.
  assert (Hdirect : flag (d_flags d) OPAL_DATATYPE_FLAG_NO_GAPS = true ∨ flag (d_flags d) OPAL_DATATYPE_FLAG_CONTIGUOUS = true ∧ count = 1 →
    flag (d_flags d) OPAL_DATATYPE_FLAG_CONTIGUOUS = true ∧ (d_extent d = Z.of_nat (d_size d) ∨ count ≤ 1)).
  { intros [Hg|[Hc ->]]; [destruct (dk_no_gaps _ _ Hd Hg); auto|auto]. }
  destruct (negb _ && (_ || _)) eqn:E3.
  { apply andb_prop in E3 as [_ E3]. destruct Hdirect as [Hc Hx]. { apply orb_true_iff in E3 as [?|[? ?%Nat.eqb_eq]%andb_prop]; auto. }
    eexists true, _. split; [done|]. apply prepared_no_op; try done. nia. }
  assert (Hchk : flag (c_flags c) CONVERTOR_WITH_CHECKSUM = false → flag (d_flags d) OPAL_DATATYPE_FLAG_NO_GAPS = false).
  { intros Hc. rewrite Hc in E3. cbn [negb andb] in E3. by apply orb_false_iff in E3 as [? _]. }
  clear E3. cbn [opal_convertor_compute_remote_size c_flags local_size pDesc c_count stack_size pBaseBuf pStack fAdvance c_partial_length bConverted].
  assert (Hlen : length (opt_desc d) ≠ 0) by (destruct (dk_desc _ _ Hd) as [el ->]; rewrite length_app; cbn; lia). rewrite (proj2 (Nat.eqb_neq _ _) Hlen). cbn [negb].
  set (f2 := Z.lor f1 CONVERTOR_HAS_REMOTE_SIZE). assert (Hf2 : ∀ f, Z.land CONVERTOR_HAS_REMOTE_SIZE f = 0%Z → flag f2 f = flag f1 f).
  { intros f Hf. unfold f2. rewrite flag_lor. unfold flag at 2. rewrite Hf. cbn. by rewrite orb_false_r. }
  rewrite (Hf2 CONVERTOR_WITH_CHECKSUM), (Hf2 OPAL_DATATYPE_FLAG_NO_GAPS), Hng by done. destruct (negb _ && _ && (_ && _)) eqn:E4.
  { apply andb_prop in E4 as [[_ Hg]%andb_prop _]. destruct Hdirect as [Hc Hx]; [auto|]. eexists true, _. split; [done|]. apply prepared_no_op; try done; rewrite ?Hf2 by done; auto; [nia|]. unfold datatype_flags. by rewrite !Hf2 by done. }
  assert (Hmax : (if DT_STATIC_STACK_SIZE <? d_loops d + 1 then d_loops d + 1 else DT_STATIC_STACK_SIZE) = DT_STATIC_STACK_SIZE `max` (d_loops d + 1)) by (destruct (Nat.ltb_spec DT_STATIC_STACK_SIZE (d_loops d + 1)); lia).
  clear E4. cbn [drop_flags set_flags stack_size]. rewrite Hss, Hmax, orb_true_r. destruct (create_stack_some d its count Hd ltac:(lia)) as [s Hs].
  unfold stack_at_begining. cbn [set_stack drop_flags set_flags pDesc mbind option_bind c_count]. rewrite Hs. cbn [mbind option_bind]. eexists false, _. split; [done|].
  refine (prepared_stack c d count buf (Z.ldiff f2 CONVERTOR_NO_OP) s _ Hs _ _ _ _ Hchk _); [nia| | | | |]; unfold datatype_flags; rewrite !flag_ldiff.
  - change (Z.ldiff _ _) with CONVERTOR_COMPLETED. by rewrite Hf2.
  - apply flag_0.
  - change (Z.ldiff _ _) with CONVERTOR_HOMOGENEOUS. by rewrite Hf2.
  - change (Z.ldiff OPAL_DATATYPE_FLAG_CONTIGUOUS _) with OPAL_DATATYPE_FLAG_CONTIGUOUS. change (Z.ldiff OPAL_DATATYPE_FLAG_NO_GAPS _) with OPAL_DATATYPE_FLAG_NO_GAPS. by rewrite !Hf2.
  - change (Z.ldiff _ _) with CONVERTOR_SEND. by rewrite Hf2.
Qed.

(** The stack for a contiguous datatype. *)
Lemma contiguous_stack d its count buf s : dt_ok d its → flag (d_flags d) OPAL_DATATYPE_FLAG_CONTIGUOUS = true → 0 < count → 0 < d_size d →
  opal_convertor_create_stack_at_begining (opt_desc d) count = Some s →
  ∃ s1 s0, s = [s1; s0] ∧ s_disp s1 = 0%Z ∧ s_disp s0 = 0%Z ∧ gaps_ok d (count_bytes s1) s0 ∧ type_map d its buf count = gaps_left d buf (count_bytes s1) s0.
Proof.
  intros Hd Hct Hc Hs Hst. destruct (dk_contiguous _ _ Hd Hct) as [Hm (e & -> & Hone)]. destruct (dk_desc _ _ Hd) as [el Hel]. rewrite Hel in Hst. cbn in Hst. injection Hst as <-.
  eexists _, _. split_and!; [done|done|done| |].
  all: assert (Hcount : s_count (count_bytes (mk_stack (Some 0) (e_type e) (e_total e) 0)) = d_size d).
  1,3: rewrite (dk_size _ _ Hd); cbn [items_map flat_map item_map]; rewrite app_nil_r, elem_map_length; unfold count_bytes; cbn [s_type]; destruct (Nat.eqb_spec (e_type e) OPAL_DATATYPE_UINT1) as [E|E]; [|done];
    rewrite E, uint1_size; cbn [s_count]; lia.
  - split; [|rewrite Hcount; lia| |done]; unfold count_bytes in *; cbn [s_type] in *; destruct (Nat.eqb_spec (e_type e) OPAL_DATATYPE_UINT1); cbn [s_disp s_count s_type] in *; try done; lia.
  - rewrite (type_map_elements _ _ _ _ Hd Hct). unfold gaps_left. rewrite Hcount, Nat.sub_diag, drop_0. cbn [s_disp s_count]. f_equal. lia.
Qed.

End spec.
End DtConvSpec.
