(* ===== verification/DtCommitSpec.v ===== *)
(** * Committing a datatype

    The invariant of datatypes under construction, and that [opal_datatype_commit] makes
    from such a datatype one that convertors can use, with the same type map. *)

From stdpp Require Import base numbers list gmap.
From S2P Require Import Prelude DtDesc DtWalk DtCopy DtMap DtWalkSpec DtCopySpec DtBuild DtOptimize DtFuse DtOptSpec DtPackSpec DtConv DtContigSpec DtConvSpec.

Module DtCommitSpec.
Import DtDesc DtMap DtWalkSpec DtCopySpec DtBuild DtOptimize DtFuse DtOptSpec DtConv DtConvSpec.
Local Open Scope nat_scope.

Section optimized.
Context `{AbiLaws} (Q : nat → Prop) (A : Prop) (HQ : Q OPAL_DATATYPE_UINT1) (debug : bool).

(** The optimized description: as many entries as there is room for, nothing deeper, and
    a single entry for contiguous data. *)
Lemma optimize_short_ok d its el : desc d = flatten its → its ≠ [] → Forall (src_ok Q A debug) its → (Z.of_nat (block_count its) < 2 ^ 32)%Z → depth its ≤ d_loops d + 1 →
  ∃ outs el' r, opal_datatype_optimize_short debug d (desc d ++ [EndLoop el]) = Some (flatten outs ++ [EndLoop el'], r) ∧
    items_map 0 outs = items_map 0 its ∧ Forall (out_ok Q A) outs ∧ length (flatten outs) ≤ 2 * length (flatten its) ∧ work outs ≤ 2 * work its ∧ depth outs ≤ depth its ∧
    (Forall solid_item its → contiguous_map (items_map 0 its) → ∃ e, outs = [Data e] ∧ e_count e = 1).
Proof.
  intros Hd Hne Hits Hcnt Hdep. unfold opal_datatype_optimize_short. set (s0 := mk_optimizer _ _ _ _ _). set (D := desc d ++ [EndLoop el]).
  destruct (runs_items Q A HQ debug (d_loops d + 2) (2 * length (desc d) + 1) its Hits D [EndLoop el] s0) as (s & k & outs & [Hf Hk Hpos Hst Hout Hp Hm Hok _ Hl Hw Hdp Hc]).
  { split; cbn [s0 o_pos o_last o_stack o_out length e_count pending_length Nat.eqb]; [by unfold D; rewrite drop_0, Hd|by left|done|lia|rewrite Hd; lia]. }
  cbn [s0 o_last o_out o_stack o_pos app Nat.add pending_map e_count Nat.eqb] in Hm, Hst, Hout, Hpos. change (pending_length (o_last s0)) with 0 in Hl, Hw.
  set (bo := outs ++ written (pend (o_last s))). assert (Hbo : items_map 0 bo = items_map 0 its) by (unfold bo; rewrite items_map_app, (written_map Q A), pend_map by (by apply (pend_ok Q A)); done).
  destruct (written_work (pend (o_last s))) as [Ww Wd]. rewrite pend_length in Ww.
  assert (Hfb : length (flatten bo) = length (flatten outs) + pending_length (o_last s)) by (unfold bo; by rewrite flatten_app, length_app, written_flatten, length_fmap, pend_length).
  replace (length D) with (k + S (length D - k - 1)) by (unfold D; rewrite length_app, Hd; cbn; lia). rewrite Hf. cbn [optimize_loop]. unfold optimize_step.
  assert (D !! o_pos s = Some (EndLoop el)) as -> by (rewrite Hpos; unfold D; rewrite Hd; by apply list_lookup_middle). unfold optimize_end. rewrite Hst, flush_pend, Hout. change (flatten outs ++ flatten ?x) with (flatten outs ++ flatten x).
  rewrite <-flatten_app. fold bo. cbn [mbind option_bind o_out]. rewrite (proj2 (Nat.leb_le _ _)) by (rewrite length_app, Hfb, Hd; cbn; lia). cbn [guard mbind option_bind o_out o_restricted].
  eexists bo, _, _. split; [done|]. split_and!; [done| |lia|unfold bo; rewrite work_app; lia|unfold bo; rewrite depth_app; lia|].
  - unfold bo. apply Forall_app. split; [done|]. by apply written_ok, pend_ok.
  - intros Hs Hcm. destruct (Hc Hs Hcm ltac:(done)) as [-> Ht]. unfold bo, pend. destruct (Nat.eqb_spec (e_count (o_last s)) 0) as [E|E].
    + exfalso. unfold pending_map in Hm. rewrite E in Hm. destruct its as [|i its]; [done|]. apply Forall_cons in Hits as [Hi _]. rewrite items_map_cons in Hm. apply app_eq_nil in Hm as [Hm _]. by apply (src_map_nil Q A debug i Hi).
    + exists (collapse (o_last s)). split; [done|]. by apply collapse_tight, Ht.
Qed.

(** The addresses of an entry are in the type map. *)
Lemma out_addresses its e : Forall (out_ok Q A) its → Elem e ∈ flatten its → entry_ok Q A e ∧ emap e ⊆ items_map 0 its.
Proof.
  assert (Hi : ∀ i, out_ok Q A i → Elem e ∈ flatten_item i → entry_ok Q A e ∧ emap e ⊆ item_map 0 i).
  { induction i as [e'|n x c body IH] using item_rect'; inversion 1 as [e'' He|n' x' body' Hn Hb Hf]; subst.
    - intros [= ->]%list_elem_of_singleton. split; [done|]. by rewrite (item_map_data Q A).
    - rewrite flatten_rep. intros [[=]|[Hin|[=]%list_elem_of_singleton]%elem_of_app]%elem_of_cons. rewrite item_map_rep. destruct n as [|n]; [lia|]. rewrite loop_map_S, Z.mul_0_l, Z.add_0_r.
      apply list_elem_of_In, in_flat_map in Hin as (i & Hi & Hin). apply list_elem_of_In in Hi, Hin. rewrite Forall_forall in IH, Hf. destruct (IH i Hi (Hf i Hi) Hin) as [He Hs]. split; [done|].
      intros a Ha. apply elem_of_app. left. apply list_elem_of_In, in_flat_map. exists i. split; [by apply list_elem_of_In|]. apply list_elem_of_In. by apply Hs. }
  intros Hf Hin. apply list_elem_of_In, in_flat_map in Hin as (i & Hi' & Hin). apply list_elem_of_In in Hi', Hin. rewrite Forall_forall in Hf. destruct (Hi i (Hf i Hi') Hin) as [He Hs]. split; [done|].
  intros a Ha. apply list_elem_of_In, in_flat_map. exists i. split; [by apply list_elem_of_In|]. apply list_elem_of_In. by apply Hs.
Qed.

End optimized.

(** The least address and the one after the greatest. *)
Definition spans (l : list Z) (lo hi : Z) : Prop := (∀ a, a ∈ l → (lo ≤ a < hi)%Z) ∧ lo ∈ l ∧ (hi - 1)%Z ∈ l.

(** Addresses whose differences fit in [ptrdiff_t]. *)
Definition near (l : list Z) : Prop := ∀ a, a ∈ l → (- 2 ^ 62 ≤ a < 2 ^ 62)%Z.

Section commit.
Context `{AbiLaws} (Q : nat → Prop) (A : Prop) (HQ : Q OPAL_DATATYPE_UINT1) (debug : bool).

(** A datatype under construction, with the trees that its description is the flattening
    of.  The flags are sound: contiguous data is an interval of addresses, without gaps
    the extent is the size. *)
Record type_ok (d : opal_datatype_t) (its : list item) : Prop := {
  ty_desc : desc d = flatten its;
  ty_items : Forall (src_ok Q A debug) its;
  ty_size : d_size d = length (items_map 0 its);
  ty_elems : nbElems d ≤ d_size d ∧ (its ≠ [] → 0 < nbElems d);
  ty_bounds : its ≠ [] → spans (items_map 0 its) (true_lb d) (true_ub d);
  ty_contiguous : flag (d_flags d) OPAL_DATATYPE_FLAG_CONTIGUOUS = true → contiguous_map (items_map 0 its) ∧ Forall solid_item its;
  ty_no_gaps : flag (d_flags d) OPAL_DATATYPE_FLAG_NO_GAPS = true → flag (d_flags d) OPAL_DATATYPE_FLAG_CONTIGUOUS = true ∧ d_extent d = Z.of_nat (d_size d);
  ty_loops : 2 * depth its ≤ d_loops d;
  ty_predefined : flag (d_flags d) OPAL_DATATYPE_FLAG_PREDEFINED = true → flag (d_flags d) OPAL_DATATYPE_FLAG_DATA = true ∧
    its = [Data (mk_elem (d_id d) 1 1 (Z.of_nat (basic_size (d_id d))) 0)] ∧ d_extent d = Z.of_nat (d_size d);
}.

(** Entries of an aligned type whose addresses are near can be copied. *)
Lemma out_item_ok its : A → Forall (out_ok Q A) its → near (items_map 0 its) → Forall item_ok its.
Proof.
  intros HA. assert (Hi : ∀ i, out_ok Q A i → near (item_map 0 i) → item_ok i).
  { induction i as [e|n x c body IH] using item_rect'; inversion 1 as [e' He|n' x' body' Hn Hb Hf]; subst; intros Hnear.
    - constructor. pose proof He as [B1 B2 B3 B4 B5]. split; [done|done|done|]. destruct (decide (e_count e = 1)) as [E|E]; [by left|]. right; right; right. destruct (B5 HA) as [_ Hx]. split; [by apply Hx|].
      rewrite (item_map_data Q A) in Hnear by done. pose proof (block_bytes_pos _ _ _ He). unfold emap in Hnear. destruct (e_count e) as [|[|n]] eqn:Ec; [lia|lia|]. rewrite !blocks_S in Hnear.
      assert (Ha : ∀ a, a ∈ seqZ a (Z.of_nat (block_bytes e))) by (intros a; apply elem_of_seqZ; lia).
      pose proof (Hnear (e_disp e) ltac:(apply elem_of_app; left; apply Ha)). pose proof (Hnear (e_disp e + e_extent e)%Z ltac:(apply elem_of_app; right; apply elem_of_app; left; apply Ha)). lia.
    - constructor; [done| |done]. rewrite item_map_rep in Hnear. destruct n as [|n]; [lia|]. rewrite loop_map_S, Z.mul_0_l, Z.add_0_r in Hnear. apply Forall_forall. intros i Hin. rewrite Forall_forall in IH, Hf. apply IH; [done|by apply Hf|].
      intros a Ha. apply Hnear, elem_of_app. left. apply list_elem_of_In, in_flat_map. exists i. split; by apply list_elem_of_In. }
  intros Hf Hnear. apply Forall_forall. intros i Hin. rewrite Forall_forall in Hf. apply Hi; [by apply Hf|]. intros a Ha. apply Hnear, list_elem_of_In, in_flat_map. exists i. split; by apply list_elem_of_In.
Qed.

Lemma spans_contiguous l lo hi : l ≠ [] → contiguous_map l → spans l lo hi → l = seqZ lo (Z.of_nat (length l)).
Proof.
  intros Hne Hc (Hb & Hlo & _). unfold contiguous_map in Hc. etrans; [exact Hc|]. f_equal. destruct l as [|a l]; [done|]. cbn [hd] in *. pose proof (Hb a ltac:(by left)). rewrite Hc in Hlo. apply elem_of_seqZ in Hlo. lia.
Qed.

Lemma src_items_nil its : Forall (src_ok Q A debug) its → its ≠ [] → items_map 0 its ≠ [].
Proof. intros Hf Hne. destruct its as [|i its]; [done|]. apply Forall_cons in Hf as [Hi _]. rewrite items_map_cons. intros [E _]%app_eq_nil. by apply (src_map_nil Q A debug i). Qed.

(** What [opal_datatype_commit] does to a datatype that is aligned: the optimized
    description can be used by convertors, it has the same type map, at most twice the
    entries and at most twice the rounds, and only types that are allowed. *)
Lemma commit_ok d its : A → type_ok d its → its ≠ [] → flag (d_flags d) OPAL_DATATYPE_FLAG_COMMITTED = false → length (desc d) < desc_length d → (Z.of_nat (block_count its) < 2 ^ 32)%Z → near (items_map 0 its) →
  ∃ d' outs, opal_datatype_commit debug d = Some d' ∧ dt_ok d' outs ∧ items_map 0 outs = items_map 0 its ∧ work outs ≤ 2 * work its ∧ length (opt_desc d') ≤ 2 * length (desc d) + 1 ∧
    (∀ e, Elem e ∈ opt_desc d' → Q (e_type e)) ∧ d_size d' = d_size d ∧ d_lb d' = d_lb d ∧ d_ub d' = d_ub d ∧ true_lb d' = true_lb d ∧ true_ub d' = true_ub d ∧ desc d' = desc d.
Proof.
  intros HA [Hdesc Hits Hsize Hel Hb Hc Hng Hlo _] Hne Hcom Hroom Hcnt Hnear. unfold opal_datatype_commit. rewrite Hcom, (proj2 (Nat.ltb_lt _ _) Hroom). cbn [guard].
  pose proof (src_items_nil its Hits Hne) as Hmne. assert (Hs0 : 0 < d_size d) by (rewrite Hsize; destruct (items_map 0 its); [done|cbn; lia]).
  destruct (first_data Q A debug its [] Hits Hne) as (i & e & Hg & Hi & Hd & He & _). rewrite app_nil_r in Hg. rewrite (proj2 (Nat.eqb_neq (d_size d) 0)) by lia. unfold data_at. rewrite Hdesc, Hg. cbn [mbind option_bind]. rewrite Hi. cbn [mbind option_bind].
  assert (Hlf : 0 < length (flatten its)) by (apply lookup_lt_Some in Hi; lia). rewrite (proj2 (Nat.eqb_neq (length (flatten its)) 0)) by lia. rewrite <-Hdesc.
  destruct (optimize_short_ok Q A HQ debug d its (mk_endloop (length (desc d)) (d_size d) (e_disp e)) Hdesc Hne Hits Hcnt ltac:(lia)) as (outs & el' & r & Ho & Hm & Hok & Hlen & Hw & Hdp & Hsolid).
  rewrite Ho. cbn [mbind option_bind]. rewrite length_app, Nat.add_sub. cbn [length].
  assert (Hlo' : 0 < length (flatten outs)). { destruct outs as [|[] outs]; [|cbn; lia|cbn; lia]. by rewrite <-Hm in Hmne. }
  rewrite (proj2 (Nat.eqb_neq (length (flatten outs)) 0)) by lia. rewrite take_app_length. eexists _, outs. split; [done|]. split_and!; try done.
  - set (f := if r then _ else _). assert (Hf : ∀ b, flag OPAL_DATATYPE_FLAG_COMMITTED b = false → flag OPAL_DATATYPE_OPTIMIZED_RESTRICTED b = false → flag f b = flag (d_flags d) b).
    { intros b H1 H2. unfold f. destruct r; rewrite ?flag_lor, H1, ?H2, ?orb_false_r; done. }
    split; cbn [opt_desc d_size d_loops d_flags true_lb].
    + by eexists.
    + by apply out_item_ok; [| |rewrite Hm].
    + by rewrite Hm.
    + unfold DT_STATIC_STACK_SIZE. lia.
    + rewrite Hf by done. intros Hct. destruct (Hc Hct) as [Hcm Hsol]. rewrite Hm. split; [|by apply Hsolid]. rewrite Hsize. eapply spans_contiguous; [done|done|by apply Hb].
    + rewrite !Hf by done. exact Hng.
  - cbn [opt_desc]. rewrite length_app, Hdesc. cbn. lia.
  - cbn [opt_desc]. intros e' [Hin|[=]%list_elem_of_singleton]%elem_of_app. destruct (out_addresses Q A outs e' Hok Hin) as [He' _]. apply He'.
Qed.

End commit.
End DtCommitSpec.
