(* ===== verification/DtAddSpec.v ===== *)
(** * Adding a datatype appends its type map

    [opal_datatype_add] with a number of copies of a datatype, a displacement and an
    extent keeps the invariant of datatypes under construction; the type map grows by
    the copies, each displaced by the extent from the one before. *)

From stdpp Require Import base numbers list gmap.
From S2P Require Import Prelude DtDesc DtWalk DtCopy DtMap DtWalkSpec DtCopySpec DtBuild DtOptimize DtFuse DtOptSpec DtPackSpec DtConv DtContigSpec DtConvSpec DtCommitSpec.

Module DtAddSpec.
Import DtDesc DtMap DtWalkSpec DtCopySpec DtBuild DtOptimize DtFuse DtOptSpec DtConv DtConvSpec DtCommitSpec.
Local Open Scope nat_scope.

(** ** Trees that are moved *)

Fixpoint shift_item (disp : Z) (i : item) : item :=
  match i with Data e => Data (shift_elem disp e) | Rep n x c body => Rep n x c (map (shift_item disp) body) end.

Lemma flatten_items `{Abi} i its : flatten (i :: its) = flatten_item i ++ flatten its.
Proof. done. Qed.

Section shift.
Context `{AbiLaws} (disp : Z).

Lemma shift_item_map i b : item_map b (shift_item disp i) = item_map (b + disp) i.
Proof.
  revert b; induction i as [e|n x c body IH] using item_rect'; intros b; cbn [shift_item item_map].
  - unfold elem_map, e_total. cbn [shift_elem e_type e_count e_blocklen]. apply flat_map_ext'. intros j _. f_equal. unfold basic_at. cbn [shift_elem e_type e_count e_blocklen e_disp e_extent]. lia.
  - apply flat_map_ext'. intros j _. induction IH as [|i body Hi _ IHb]; [done|]. cbn [map flat_map]. rewrite IHb, Hi. do 2 f_equal. lia.
Qed.

Lemma shift_items_map its b : items_map b (shift_item disp <$> its) = items_map (b + disp) its.
Proof. induction its as [|i its IH]; [done|]. rewrite fmap_cons, !items_map_cons, shift_item_map, IH. done. Qed.

Lemma shift_depth its : depth (shift_item disp <$> its) = depth its.
Proof.
  assert (Hi : ∀ i, item_depth (shift_item disp i) = item_depth i).
  { induction i as [e|n x c body IH] using item_rect'; [done|]. cbn [shift_item item_depth]. f_equal. induction IH as [|i body Hi _ IHb]; [done|]. cbn [map foldr]. by rewrite Hi, IHb. }
  unfold depth. induction its as [|i its IH]; [done|]. cbn [fmap list_fmap foldr]. by rewrite Hi, IH.
Qed.

Lemma shift_blocks its : block_count (shift_item disp <$> its) = block_count its.
Proof.
  assert (Hi : ∀ i, item_blocks (shift_item disp i) = item_blocks i).
  { induction i as [e|n x c body IH] using item_rect'; [done|]. cbn [shift_item item_blocks]. f_equal. induction IH as [|i body Hi _ IHb]; [done|]. cbn [map foldr]. by rewrite Hi, IHb. }
  unfold block_count. induction its as [|i its IH]; [done|]. cbn [fmap list_fmap foldr]. by rewrite Hi, IH.
Qed.

Lemma shift_solid its : Forall solid_item its → Forall solid_item (shift_item disp <$> its).
Proof. intros Hf. apply Forall_fmap. eapply Forall_impl; [exact Hf|]. intros [e|n x c body]; done. Qed.

Context (Q : nat → Prop) (A : Prop) (debug : bool).

Lemma shift_elem_ok e : entry_ok Q A e → (A → (Z.of_nat (basic_size (e_type e)) | disp)%Z) → entry_ok Q A (shift_elem disp e).
Proof. intros [H1 H2 H3 H4 H5] Ha. split; cbn; try done. intros HA. destruct (H5 HA) as [Hd Hx]. split; cbn; [|done]. apply Z.divide_add_r; [done|by apply Ha]. Qed.

(** The array moves with the trees. *)
Lemma shift_flatten its : Forall (src_ok Q A debug) its → flatten (shift_item disp <$> its) = shift_entry disp <$> flatten its.
Proof.
  assert (Hi : ∀ i, src_ok Q A debug i → flatten_item (shift_item disp i) = shift_entry disp <$> flatten_item i).
  { induction i as [e|n x c body IH] using item_rect'; [done|]. intros Hs. inversion Hs as [|n' x' c' body' Hn Hb Hf _ _]; subst.
    assert (E : flatten (shift_item disp <$> body) = shift_entry disp <$> flatten body).
    { clear -IH Hf. induction body as [|i body IHb]; [done|]. apply Forall_cons in IH as [Hi IH], Hf as [Hs Hf]. rewrite fmap_cons, !flatten_items, fmap_app, IHb, Hi by done. done. }
    cbn [shift_item]. change (map (shift_item disp) body) with (shift_item disp <$> body). rewrite !flatten_rep, fmap_cons, fmap_app, E, length_fmap, shift_items_map, items_map_length. cbn [shift_entry fmap list_fmap end_items end_size first_elem_disp].
    do 5 f_equal. rewrite items_map_base. pose proof (src_items_nil Q A debug body Hf Hb) as Hne. destruct (items_map 0 body); [done|]. cbn. lia. }
  induction 1 as [|i its Hs _ IH]; [done|]. rewrite fmap_cons, !flatten_items, fmap_app, IH, Hi by done. done.
Qed.

Lemma shift_types its e : Elem e ∈ shift_entry disp <$> flatten its → ∃ e', Elem e' ∈ flatten its ∧ e_type e = e_type e'.
Proof. intros ([e'|l|el] & [= ->] & Hin)%list_elem_of_fmap. by exists e'. Qed.

Lemma contiguous_shift l d : contiguous_map l → contiguous_map (Z.add d <$> l).
Proof.
  intros Hc. destruct l as [|a l]; [done|]. unfold contiguous_map in *. rewrite Hc at 1. by rewrite fmap_add_seqZ, length_fmap.
Qed.

Lemma shift_src_ok its : Forall (src_ok Q A debug) its → (A → ∀ e, Elem e ∈ flatten its → (Z.of_nat (basic_size (e_type e)) | disp)%Z) → Forall (src_ok Q A debug) (shift_item disp <$> its).
Proof.
  assert (Hi : ∀ i, src_ok Q A debug i → (A → ∀ e, Elem e ∈ flatten_item i → (Z.of_nat (basic_size (e_type e)) | disp)%Z) → src_ok Q A debug (shift_item disp i)).
  { induction i as [e|n x c body IH] using item_rect'; intros Hs Ha; inversion Hs as [e' He Hcan|n' x' c' body' Hn Hb Hf Hal Hc]; subst; cbn [shift_item].
    - constructor; [|done]. apply shift_elem_ok; [done|]. intros HA. apply Ha; [done|]. by left.
    - change (map (shift_item disp) body) with (shift_item disp <$> body). assert (Hab : A → ∀ e, Elem e ∈ flatten body → (Z.of_nat (basic_size (e_type e)) | disp)%Z).
      { intros HA e He. apply Ha; [done|]. rewrite flatten_rep. right. apply elem_of_app. by left. }
      constructor; [done|by destruct body| | |].
      + clear -IH Hf Hab. induction body as [|i body IHb]; [done|]. apply Forall_cons in IH as [Hi IH], Hf as [Hs Hf]. rewrite fmap_cons. constructor.
        * apply Hi; [done|]. intros HA e He. apply Hab; [done|]. rewrite flatten_items. apply elem_of_app. by left.
        * apply IHb; [done|done|]. intros HA e He. apply Hab; [done|]. rewrite flatten_items. apply elem_of_app. by right.
      + intros HA e. rewrite shift_flatten by done. intros (e' & He' & ->)%shift_types. by apply Hal.
      + intros Ec. destruct (Hc Ec) as [Hcm Hdb]. split.
        * rewrite shift_items_map, Z.add_0_l, items_map_base. by apply contiguous_shift.
        * intros Hd. specialize (Hdb Hd). apply Forall_fmap. eapply Forall_impl; [exact Hdb|]. by intros []. }
  intros Hf Ha. induction Hf as [|i its Hs Hf IH]; [done|]. rewrite fmap_cons. constructor.
  - apply Hi; [done|]. intros HA e He. apply Ha; [done|]. rewrite flatten_items. apply elem_of_app. by left.
  - apply IH. intros HA e He. apply Ha; [done|]. rewrite flatten_items. apply elem_of_app. by right.
Qed.

End shift.

(** ** Copies of one entry *)

Lemma blocks_mul a x c n m : blocks a x (c * n) m = flat_map (λ j, blocks (a + Z.of_nat j * (Z.of_nat c * x)) x c m) (seq 0 n).
Proof.
  induction n as [|n IH]; [by rewrite Nat.mul_0_r|]. rewrite Nat.mul_succ_r, blocks_add, IH, seq_S, flat_map_app. cbn [flat_map]. rewrite app_nil_r. do 2 f_equal. lia.
Qed.

Section add.
Context `{AbiLaws} (Q : nat → Prop) (A : Prop) (debug : bool).

Lemma loop_blocks e d x n : 0 < e_blocklen e → loop_map d x 0 n [Data e] = flat_map (λ j, blocks (d + e_disp e + Z.of_nat j * x) (e_extent e) (e_count e) (block_bytes e)) (seq 0 n).
Proof. intros Hb. unfold loop_map. apply flat_map_ext'. intros j _. cbn [items_map flat_map]. rewrite app_nil_r, item_map_emap by done. f_equal. lia. Qed.

Lemma loop_one_block e d x n : 0 < e_blocklen e → e_count e = 1 → loop_map d x 0 n [Data e] = blocks (d + e_disp e) x n (block_bytes e).
Proof. intros Hb E. rewrite loop_blocks by done. unfold blocks at 2. apply flat_map_ext'. intros j _. by rewrite E, blocks_1. Qed.

(** What is asked of the arguments: the numbers of blocks fit their fields, one copy of a
    basic datatype has its size as extent, and if types are to be aligned so are the
    displacement and the extent. *)
Record addable (d : opal_datatype_t) (its : list item) (count : nat) (disp extent : Z) : Prop := {
  ad_type : type_ok Q A debug d its;
  ad_data : its ≠ [];
  ad_count : 0 < count;
  ad_basic : flag (d_flags d) OPAL_DATATYPE_FLAG_PREDEFINED = true → count = 1 → extent = Z.of_nat (d_size d);
  ad_blocks : (Z.of_nat (count * S (block_count its)) < 2 ^ 32)%Z;
  ad_disp : A → ∀ e, Elem e ∈ flatten its → (Z.of_nat (basic_size (e_type e)) | disp)%Z;
  ad_extent : A → count ≠ 1 → ∀ e, Elem e ∈ flatten its → (Z.of_nat (basic_size (e_type e)) | extent)%Z;
  ad_debug : debug = true → count ≠ 1 → flag (d_flags d) OPAL_DATATYPE_FLAG_CONTIGUOUS = true → Forall is_data its;
}.

(** What is new: trees with the type map of the copies. *)
Record added (d : opal_datatype_t) (its : list item) (count : nat) (disp extent : Z) (new : list item) (loops : nat) : Prop := {
  an_items : Forall (src_ok Q A debug) new;
  an_map : items_map 0 new = loop_map disp extent 0 count its;
  an_blocks : block_count new ≤ count * S (block_count its);
  an_loops : 2 * depth new ≤ loops;
  an_length : length (flatten new) ≤ length (flatten its) + if count =? 1 then 0 else 2;
  an_types e : Elem e ∈ flatten new → ∃ e', Elem e' ∈ flatten its ∧ e_type e = e_type e';
  an_basic : flag (d_flags d) OPAL_DATATYPE_FLAG_PREDEFINED = true → length (flatten new) = 1;
  an_solid : flag (d_flags d) OPAL_DATATYPE_FLAG_CONTIGUOUS = true → Forall solid_item new;
}.

(** One entry that has the map of the copies of one entry. *)
Lemma added_entry d e0 count disp extent e loops : addable d [Data e0] count disp extent → entry_ok Q A e → (e_count e = 1 ↔ tight e) → emap e = loop_map disp extent 0 count [Data e0] → e_count e ≤ count * e_count e0 → e_type e = e_type e0 →
  added d [Data e0] count disp extent [Data e] loops.
Proof.
  intros Ha He Hcan Hm Hc Hty. split; [by constructor; [constructor|]| | |cbn; lia|cbn; destruct (_ =? _); lia| |done|by constructor].
  - cbn [items_map flat_map]. by rewrite app_nil_r, (item_map_data Q A).
  - cbn. nia.
  - intros e1 [= ->]%list_elem_of_singleton. exists e0. split; [by left|done].
Qed.

Lemma added_basic d e0 count disp extent : addable d [Data e0] count disp extent → e0 = mk_elem (d_id d) 1 1 (Z.of_nat (basic_size (d_id d))) 0 → d_size d = basic_size (d_id d) → flag (d_flags d) OPAL_DATATYPE_FLAG_PREDEFINED = true →
  added d [Data e0] count disp extent [Data (basic_entry d count disp extent)] 0.
Proof.
  intros Ha E Hs Hp. pose proof Ha as [Ht _ Hc Hb Hbl Hd Hx _]. pose proof (ty_items _ _ _ _ _ Ht) as [Hi _]%Forall_cons. inversion Hi as [e' [N1 N2 N3 N4 N5] Hcan|]; subst e'. specialize (Hb Hp).
  assert (Hin : Elem e0 ∈ flatten [Data e0]) by (by left). assert (Hbb : block_bytes e0 = basic_size (d_id d)) by (subst e0; unfold block_bytes; cbn; lia).
  assert (Hbl' : (Z.of_nat count < 2 ^ 32)%Z) by (cbn in Hbl; lia). unfold basic_entry. rewrite Hs in *. destruct (Z.eqb_spec extent (Z.of_nat (basic_size (d_id d)))) as [Ex|Ex].
  - apply added_entry; [done| | | |subst e0; cbn; lia|by subst e0].
    + subst e0. split; cbn in *; try done; try lia. intros HA. split; cbn; [|done]. by apply (Hd HA (mk_elem (d_id d) 1 1 (Z.of_nat (basic_size (d_id d))) 0)).
    + cbn. split; [intros _|done]. unfold tight, block_bytes. cbn. lia.
    + rewrite loop_one_block by (subst e0; done). rewrite Hbb, Ex, blocks_contiguous. unfold emap, block_bytes. cbn [e_disp e_extent e_count e_blocklen e_type]. rewrite blocks_1. f_equal. subst e0. cbn. lia.
  - assert (Hn1 : count ≠ 1) by auto. rewrite u32_small by done. apply added_entry; [done| | | |subst e0; cbn; lia|by subst e0].
    + subst e0. split; cbn in *; try done; try lia. intros HA. split; cbn; [by apply (Hd HA (mk_elem (d_id d) 1 1 (Z.of_nat (basic_size (d_id d))) 0))|]. intros _. by apply (Hx HA Hn1 (mk_elem (d_id d) 1 1 (Z.of_nat (basic_size (d_id d))) 0)).
    + cbn. unfold tight, block_bytes. cbn. split; [done|]. rewrite Nat.add_0_r. done.
    + rewrite loop_one_block by (subst e0; done). rewrite Hbb. unfold emap, block_bytes. cbn [e_disp e_extent e_count e_blocklen e_type]. rewrite Nat.mul_1_l. f_equal. subst e0. cbn. lia.
Qed.

Lemma added_single d e0 count disp extent e loops : addable d [Data e0] count disp extent → single_entry count extent (shift_elem disp e0) = Some e → added d [Data e0] count disp extent [Data e] loops.
Proof.
  intros Ha Hs. pose proof Ha as [Ht _ Hc _ Hbl Hd Hx _]. pose proof (ty_items _ _ _ _ _ Ht) as [Hi _]%Forall_cons. inversion Hi as [e' He Hcan|]; subst e'. assert (Hin : Elem e0 ∈ flatten [Data e0]) by (by left).
  assert (Hse : entry_ok Q A (shift_elem disp e0)) by (apply shift_elem_ok; [done|]; intros HA; by apply Hd). pose proof (en_blocklen _ _ _ He) as Hb. pose proof (en_count _ _ _ He) as Hec.
  assert (Hbl' : (Z.of_nat (count * e_count e0) < 2 ^ 32)%Z) by (cbn in Hbl; nia). unfold single_entry in Hs. cbn [shift_elem e_count e_type e_blocklen e_extent e_disp] in Hs.
  destruct (Nat.eqb_spec count 1) as [->|Hn1].
  { injection Hs as <-. apply added_entry; [done|done|done| |cbn; lia|done]. rewrite loop_blocks by done. cbn [seq flat_map]. rewrite app_nil_r. unfold emap. change (block_bytes (shift_elem disp e0)) with (block_bytes e0). cbn [shift_elem e_disp e_extent e_count]. f_equal. lia. }
  destruct Hse as [N1 N2 N3 N4 N5]. destruct (Nat.eqb_spec (e_count e0) 1) as [E1|E1].
  - pose proof (proj1 Hcan E1) as Htight. rewrite (u32_small count) in Hs by lia. destruct (Z.eqb_spec (e_extent e0) extent) as [Ex|Ex]; injection Hs as <-; (apply added_entry; [done| | | |cbn; lia|done]).
    + split; cbn in *; try done; try nia. intros HA. split; cbn; [by apply N5|done].
    + cbn. split; [intros _|done]. unfold tight, block_bytes in *. cbn. lia.
    + rewrite loop_one_block, <-Ex, Htight, blocks_contiguous by done. unfold emap. cbn [e_disp e_extent e_count]. rewrite blocks_1. unfold block_bytes. cbn [e_blocklen e_type]. f_equal; lia.
    + split; cbn in *; try done. intros HA. split; cbn; [by apply N5|]. intros _. by apply Hx.
    + cbn. split; [done|]. unfold tight in *. change (block_bytes (mk_elem _ _ _ _ _)) with (block_bytes e0). cbn. congruence.
    + rewrite loop_one_block by done. unfold emap. change (block_bytes (mk_elem _ _ _ _ _)) with (block_bytes e0). cbn [e_disp e_extent e_count]. f_equal. lia.
  - destruct (Z.eqb_spec extent (Z.of_nat (e_count e0) * e_extent e0)) as [Ex|Ex]; [|done]. rewrite u32_small in Hs by (rewrite Nat.mul_comm; done). destruct (_ <? _); [done|]. injection Hs as <-. apply added_entry; [done| | | |cbn; lia|done].
    + split; cbn in *; try done; try nia. intros HA. split; cbn; [by apply N5|]. intros _. by apply N5.
    + unfold tight in *. change (block_bytes (mk_elem _ _ _ _ _)) with (block_bytes e0). cbn. split; [intros ?; nia|]. intros Ht'. apply Hcan in Ht'. done.
    + rewrite loop_blocks by done. unfold emap. change (block_bytes (mk_elem _ _ _ _ _)) with (block_bytes e0). cbn [e_disp e_extent e_count]. rewrite blocks_mul. apply flat_map_ext'. intros j _. rewrite Ex. f_equal. lia.
Qed.

(** ** Copies of any description *)

Lemma added_loop d its count disp extent : addable d its count disp extent → flag (d_flags d) OPAL_DATATYPE_FLAG_PREDEFINED = false →
  ∃ new, loop_entries d count disp extent = Some (flatten new) ∧ added d its count disp extent new (d_loops d + if count =? 1 then 0 else 2).
Proof.
  intros [Ht Hne Hc _ Hbl Hd Hx Hdb] Hpre. pose proof Ht as [Hdesc Hits Hsize _ _ Hcont _ Hlo _]. unfold loop_entries. rewrite Hdesc, <-(shift_flatten disp Q A debug its) by done.
  pose proof (shift_src_ok disp Q A debug its Hits Hd) as Hs. destruct (Nat.eqb_spec count 1) as [->|Hn1].
  - exists (shift_item disp <$> its). split; [done|]. split; [done| |rewrite shift_blocks; lia|rewrite shift_depth; lia|rewrite (shift_flatten disp Q A debug) by done; rewrite length_fmap; cbn; lia| |congruence|intros Hct; by apply shift_solid, Hcont].
    2: { intros e. rewrite (shift_flatten disp Q A debug) by done. apply shift_types. }
    rewrite shift_items_map. unfold loop_map. cbn [seq flat_map]. rewrite app_nil_r. f_equal. lia.
  - set (c := flag _ _). set (body := shift_item disp <$> its) in *. assert (Hbne : body ≠ []) by (by destruct its).
    destruct (first_data Q A debug body [] Hs Hbne) as (i & e & Hg & Hi & He & _). rewrite app_nil_r in Hg. cbn [GET_FIRST_NON_LOOP]. rewrite Hg. cbn [mbind option_bind]. unfold data_at.
    change ((Loop ?a :: ?l) !! S ?k) with (l !! k). rewrite Hi. cbn [mbind option_bind]. rewrite u32_small by nia. rewrite Nat.add_1_r, He.
    assert (Hlm : length (items_map 0 body) = d_size d) by (unfold body; by rewrite shift_items_map, items_map_length, Hsize).
    exists [Rep count extent c body]. split; [cbn [flatten flat_map]; by rewrite app_nil_r, flatten_rep, Hlm|]. split.
    + constructor; [|done]. constructor; [lia|done|done| |].
      * intros HA e'. unfold body. rewrite (shift_flatten disp Q A debug) by done. intros (e0 & He0 & ->)%shift_types. by apply Hx.
      * intros Ec. destruct (Hcont Ec) as [Hcm _]. split; [unfold body; rewrite shift_items_map, Z.add_0_l, items_map_base; by apply contiguous_shift|]. intros Hdg. specialize (Hdb Hdg Hn1 Ec). apply Forall_fmap. eapply Forall_impl; [exact Hdb|]. by intros [].
    + cbn [items_map flat_map]. rewrite app_nil_r, item_map_rep. unfold loop_map. apply flat_map_ext'. intros j _. unfold body. rewrite shift_items_map. f_equal. lia.
    + change (block_count [Rep count extent c body]) with (count + block_count body + 0). unfold body. rewrite shift_blocks. nia.
    + change (depth [Rep count extent c body]) with (S (depth body) `max` 0). unfold body. rewrite shift_depth. lia.
    + cbn [flatten flat_map]. rewrite app_nil_r, flatten_rep. cbn [length]. rewrite length_app. unfold body. rewrite (shift_flatten disp Q A debug), length_fmap, (proj2 (Nat.eqb_neq _ _) Hn1) by done. cbn. lia.
    + intros e1. cbn [flatten flat_map]. rewrite app_nil_r, flatten_rep. intros [[=]|[Hin|[=]%list_elem_of_singleton]%elem_of_app]%elem_of_cons. unfold body in Hin. rewrite (shift_flatten disp Q A debug) in Hin by done. by apply shift_types in Hin.
    + congruence.
    + intros Hct. by constructor.
Qed.

Lemma new_entries_ok d its count disp extent : addable d its count disp extent → ∃ new loops, new_entries d count disp extent = Some (flatten new, loops) ∧ added d its count disp extent new loops.
Proof.
  intros Ha. pose proof Ha as [Ht Hne Hc Hb Hbl Hd Hx Hdb]. pose proof Ht as [Hdesc Hits Hsize _ _ _ _ _ Hp]. unfold new_entries.
  destruct (flag (d_flags d) OPAL_DATATYPE_FLAG_PREDEFINED) eqn:Epre.
  { destruct (Hp eq_refl) as (-> & -> & _). cbn [andb]. eexists [Data _], 0. split; [done|]. apply added_basic; [done|done| |done]. rewrite Hsize. cbn [items_map flat_map]. rewrite app_nil_r. cbn [item_map]. rewrite elem_map_length. unfold e_total. cbn. lia. }
  cbn [andb]. destruct (added_loop d its count disp extent Ha Epre) as (new & Hl & Had). rewrite Hl. cbn [mbind option_bind].
  assert (Hloop : ∃ new0 loops, Some (flatten new, d_loops d + (if count =? 1 then 0 else 2)) = Some (flatten new0, loops) ∧ added d its count disp extent new0 loops) by (by eexists _, _).
  destruct its as [|i its]; [done|]. destruct i as [e0|n x c body].
  - destruct its as [|i its].
    + rewrite Hdesc. cbn [flatten flat_map flatten_item app]. destruct (single_entry count extent (shift_elem disp e0)) as [e|] eqn:Es; [|done]. eexists [Data e], _. split; [done|]. by apply added_single.
    + rewrite Hdesc, !flatten_items. destruct (flatten_item i ++ flatten its) as [|y l] eqn:El; [|done]. by destruct i.
  - rewrite Hdesc, flatten_items, flatten_rep. cbn [app]. by destruct ((flatten body ++ _) ++ flatten its) as [|y l] eqn:El; [destruct (flatten body)|].
Qed.

(** ** Bounds *)

Lemma spans_app l1 l2 a b c d : spans l1 a b → spans l2 c d → spans (l1 ++ l2) (a `min` c) (b `max` d).
Proof.
  intros (H1 & H2 & H3) (H4 & H5 & H6). split_and!.
  - intros x [Hx|Hx]%elem_of_app; [specialize (H1 x Hx)|specialize (H4 x Hx)]; lia.
  - apply elem_of_app. destruct (Z.min_spec a c) as [[_ ->]|[_ ->]]; auto.
  - apply elem_of_app. destruct (Z.max_spec b d) as [[_ ->]|[_ ->]]; auto.
Qed.

Lemma elem_of_loop_map its d x n a : a ∈ loop_map d x 0 n its ↔ ∃ j b, j < n ∧ b ∈ items_map 0 its ∧ a = (d + Z.of_nat j * x + b)%Z.
Proof.
  unfold loop_map. rewrite list_elem_of_In, in_flat_map. split.
  - intros (j & Hj%in_seq & Ha). apply list_elem_of_In in Ha. rewrite items_map_base in Ha. apply list_elem_of_fmap in Ha as (b & -> & Hb). exists j, b. split_and!; [lia|done|done].
  - intros (j & b & Hj & Hb & ->). exists j. split; [apply in_seq; lia|]. apply list_elem_of_In. rewrite items_map_base. by apply list_elem_of_fmap_2.
Qed.

Lemma spans_loop its lo hi d x n : spans (items_map 0 its) lo hi → 0 < n → let far := (d + x * (Z.of_nat n - 1))%Z in spans (loop_map d x 0 n its) (d `min` far + lo) (d `max` far + hi).
Proof.
  intros (H1 & H2 & H3) Hn far. split_and!.
  - intros a (j & b & Hj & Hb & ->)%elem_of_loop_map. specialize (H1 b Hb). unfold far. destruct (Z.le_gt_cases 0 x).
    + assert (0 ≤ Z.of_nat j * x ≤ x * (Z.of_nat n - 1))%Z by nia. lia.
    + assert (x * (Z.of_nat n - 1) ≤ Z.of_nat j * x ≤ 0)%Z by nia. lia.
  - apply elem_of_loop_map. destruct (Z.min_spec d far) as [[_ ->]|[_ ->]]; [exists 0, lo|exists (n - 1), lo]; (split_and!; [lia|done|unfold far; rewrite ?Nat2Z.inj_sub by lia; lia]).
  - apply elem_of_loop_map. destruct (Z.max_spec d far) as [[_ ->]|[_ ->]]; [exists (n - 1), (hi - 1)%Z|exists 0, (hi - 1)%Z]; (split_and!; [lia|done|unfold far; rewrite ?Nat2Z.inj_sub by lia; lia]).
Qed.

Lemma contiguous_copies its lo hi d x n : items_map 0 its ≠ [] → contiguous_map (items_map 0 its) → spans (items_map 0 its) lo hi → x = Z.of_nat (length (items_map 0 its)) ∨ n < 2 →
  loop_map d x 0 n its = seqZ (d + lo) (Z.of_nat (n * length (items_map 0 its))).
Proof.
  intros Hne Hc Hs Hx. pose proof (spans_contiguous _ _ _ Hne Hc Hs) as E. transitivity (blocks (d + lo) x n (length (items_map 0 its))).
  - unfold loop_map, blocks. apply flat_map_ext'. intros j _. rewrite items_map_base, E at 1. rewrite fmap_add_seqZ. f_equal. lia.
  - destruct Hx as [->|Hn]; [apply blocks_contiguous|]. destruct n as [|[|n]]; [done| |lia]. rewrite blocks_1. f_equal. lia.
Qed.

Lemma spans_end l lo hi : l ≠ [] → l = seqZ lo (Z.of_nat (length l)) → spans l lo hi → hi = (lo + Z.of_nat (length l))%Z.
Proof.
  intros Hne E (H1 & _ & H3). rewrite E in H3. apply elem_of_seqZ in H3. assert (Hl : (lo + Z.of_nat (length l) - 1)%Z ∈ l). { rewrite E at 2. apply elem_of_seqZ. destruct l; [done|cbn; lia]. } specialize (H1 _ Hl). lia.
Qed.

(** ** Flags *)

Lemma contiguous_flags_spec flags old d count disp extent tub lb ub size :
  let ok := flag old OPAL_DATATYPE_FLAG_CONTIGUOUS && flag (d_flags d) OPAL_DATATYPE_FLAG_CONTIGUOUS && (disp + true_lb d =? tub)%Z && ((Z.of_nat (d_size d) =? extent)%Z || (count <? 2)) in
  let f := contiguous_flags flags old d count disp extent tub lb ub size in
  flag f OPAL_DATATYPE_FLAG_CONTIGUOUS = ok ∧ flag f OPAL_DATATYPE_FLAG_NO_GAPS = ok && (Z.of_nat size =? ub - lb)%Z ∧
  flag f OPAL_DATATYPE_FLAG_PREDEFINED = flag flags OPAL_DATATYPE_FLAG_PREDEFINED ∧ flag f OPAL_DATATYPE_FLAG_COMMITTED = flag flags OPAL_DATATYPE_FLAG_COMMITTED.
Proof.
  intros ok f. unfold f, contiguous_flags. fold ok. destruct ok; [destruct (_ =? _)%Z|]; split_and!; masks; rewrite ?orb_true_r, ?orb_false_r; try done.
Qed.

Lemma new_bounds_flags base d lb ub lb' ub' f al : new_bounds base d lb ub = (lb', ub', f, al) →
  ∀ m, flag OPAL_DATATYPE_FLAG_USER_LB m = false → flag OPAL_DATATYPE_FLAG_USER_UB m = false → flag f m = flag (d_flags base) m.
Proof.
  intros Hn m H1 H2. unfold new_bounds in Hn. destruct (xorb _ _), (xorb _ _); injection Hn as _ _ <- _; rewrite ?flag_lor, ?H1, ?H2, ?orb_false_r; done.
Qed.

(** ** Adding *)

(** A datatype that is being built: no data yet, or data with its bounds. *)
Record base_ok (d : opal_datatype_t) (its : list item) : Prop := {
  ba_type : type_ok Q A debug d its;
  ba_empty : its = [] → nbElems d = 0 ∧ true_lb d = LONG_MAX ∧ true_ub d = LONG_MIN;
  ba_room : length (desc d) ≤ desc_length d;
  ba_predefined : flag (d_flags d) OPAL_DATATYPE_FLAG_PREDEFINED = false;
  ba_committed : flag (d_flags d) OPAL_DATATYPE_FLAG_COMMITTED = false;
  ba_id : d_id d ≠ OPAL_DATATYPE_LB ∧ d_id d ≠ OPAL_DATATYPE_UB;
}.

Lemma create_ok n : base_ok (opal_datatype_create n) [].
Proof. split; try done; cbn; lia. Qed.

(** The place that is asked for is enough. *)
Lemma required_entries d its count disp extent new loops : addable d its count disp extent → added d its count disp extent new loops → (Z.of_nat (length (desc d)) < 2 ^ 32 - 3)%Z →
  ∃ n, OPAL_DATATYPE_COMPUTE_REQUIRED_ENTRIES d count extent = Some n ∧ length (flatten new) ≤ n.
Proof.
  intros Ha Hn H32. unfold OPAL_DATATYPE_COMPUTE_REQUIRED_ENTRIES. pose proof (an_length _ _ _ _ _ _ _ Hn) as Hl. rewrite <-(ty_desc _ _ _ _ _ (ad_type _ _ _ _ _ Ha)) in Hl.
  destruct (flag (d_flags d) OPAL_DATATYPE_FLAG_PREDEFINED) eqn:E.
  - rewrite (an_basic _ _ _ _ _ _ _ Hn E). destruct (_ =? _)%Z; eexists; split; try done; lia.
  - destruct (Nat.eqb_spec count 1); [eexists; split; [done|lia]|]. rewrite (proj2 (Z.ltb_lt _ _)) by lia. eexists; split; [done|lia].
Qed.

(** The bounds of the copies. *)
Lemma copies_bounds d its count disp extent : addable d its count disp extent → ∃ lb ub lo hi, OPAL_DATATYPE_LB_UB_CONT count disp extent (d_lb d) (d_ub d) = (lb, ub) ∧
  (lb - (d_lb d - true_lb d) = lo)%Z ∧ (ub - (d_ub d - true_ub d) = hi)%Z ∧ (lo < hi)%Z ∧ spans (loop_map disp extent 0 count its) lo hi.
Proof.
  intros [Ht Hne Hc _ _ _ _ _]. pose proof (ty_bounds _ _ _ _ _ Ht Hne) as Hs. pose proof (spans_loop its _ _ disp extent count Hs Hc) as Hl. cbn zeta in Hl. unfold OPAL_DATATYPE_LB_UB_CONT. rewrite (proj2 (Nat.eqb_neq _ _)) by lia.
  destruct Hs as (H1 & H2 & _). specialize (H1 _ H2). destruct (Z.ltb_spec disp (disp + extent * (Z.of_nat count - 1))) as [E|E]; eexists _, _, _, _; (split_and!; [done| | | |exact Hl]); lia.
Qed.

Lemma LMIN_min a b : LMIN a b = (a `min` b)%Z.
Proof. unfold LMIN. destruct (Z.ltb_spec a b); lia. Qed.

Lemma LMAX_max a b : LMAX a b = (a `max` b)%Z.
Proof. unfold LMAX. destruct (Z.ltb_spec a b); lia. Qed.

(** Both contiguous, and the one behind the other. *)
Lemma contiguous_behind base itsb d its count disp extent new loops : base_ok base itsb → addable d its count disp extent → added d its count disp extent new loops →
  flag (d_flags base) OPAL_DATATYPE_FLAG_CONTIGUOUS = true → flag (d_flags d) OPAL_DATATYPE_FLAG_CONTIGUOUS = true →
  (disp + true_lb d)%Z = (if nbElems base =? 0 then disp else true_ub base) → extent = Z.of_nat (d_size d) ∨ count < 2 → contiguous_map (items_map 0 (itsb ++ new)) ∧ Forall solid_item (itsb ++ new).
Proof.
  intros Hb Ha Hn Hcb Hcd Hd Hx. pose proof (ad_type _ _ _ _ _ Ha) as Ht. destruct (ty_contiguous _ _ _ _ _ (ba_type _ _ Hb) Hcb) as [Hmb Hsb]. destruct (ty_contiguous _ _ _ _ _ Ht Hcd) as [Hmd Hsd].
  split; [|apply Forall_app; split; [done|by apply Hn]]. pose proof (src_items_nil Q A debug its (ty_items _ _ _ _ _ Ht) (ad_data _ _ _ _ _ Ha)) as Hne. rewrite items_map_app, (an_map _ _ _ _ _ _ _ Hn).
  rewrite (contiguous_copies its (true_lb d) (true_ub d)); [|done|done|by apply Ht, Ha|by rewrite <-(ty_size _ _ _ _ _ Ht)].
  destruct (decide (itsb = [])) as [->|Hnb]; [apply contiguous_seqZ|]. pose proof (ba_type _ _ Hb) as Htb. pose proof (src_items_nil Q A debug itsb (ty_items _ _ _ _ _ Htb) Hnb) as Hneb.
  pose proof (spans_contiguous _ _ _ Hneb Hmb (ty_bounds _ _ _ _ _ Htb Hnb)) as E. pose proof (spans_end _ _ _ Hneb E (ty_bounds _ _ _ _ _ Htb Hnb)) as Eub.
  rewrite (proj2 (Nat.eqb_neq (nbElems base) 0)) in Hd by (pose proof (proj2 (ty_elems _ _ _ _ _ Htb) Hnb); lia). rewrite Hd, Eub, E. rewrite length_seqZ, Nat2Z.id. rewrite <-seqZ_app. apply contiguous_seqZ.
Qed.

Lemma datatype_add_ok base itsb d its count disp extent : base_ok base itsb → addable d its count disp extent → d_id d ≠ OPAL_DATATYPE_LB → d_id d ≠ OPAL_DATATYPE_UB → (extent = -1 → d_extent d = -1)%Z →
  (Z.of_nat (d_size base + count * d_size d) < 2 ^ 64)%Z → (Z.of_nat (length (desc d)) < 2 ^ 32 - 3)%Z → near (loop_map disp extent 0 count its) →
  ∃ d' new, opal_datatype_add base d count disp extent = Some (Success, d') ∧ base_ok d' (itsb ++ new) ∧ items_map 0 new = loop_map disp extent 0 count its ∧
    block_count new ≤ count * S (block_count its) ∧ length (flatten new) ≤ length (flatten its) + (if count =? 1 then 0 else 2) ∧ desc_length base ≤ desc_length d' ∧
    (∀ e, Elem e ∈ flatten new → ∃ e', Elem e' ∈ flatten its ∧ e_type e = e_type e').
Proof.
  intros Hb Ha Hlb Hub Hx H64 H32 Hnear. destruct (new_entries_ok d its count disp extent Ha) as (new & loops & Hnew & Hadd). destruct (required_entries _ _ _ _ _ _ _ Ha Hadd H32) as (place & Hplace & Hpl).
  destruct (copies_bounds d its count disp extent Ha) as (lb & ub & lo & hi & Hcont & Hlo & Hhi & Hlt & Hspan). pose proof Ha as [Ht Hne Hc _ _ _ _ _]. pose proof (ba_type _ _ Hb) as Htb.
  assert (Hnel : items_map 0 its ≠ []) by (eapply src_items_nil; [by apply Ht|done]). assert (Hs0 : d_size d ≠ 0) by (rewrite (ty_size _ _ _ _ _ Ht); by destruct (items_map 0 its)).
  unfold opal_datatype_add. rewrite (proj2 (Nat.eqb_neq count 0)) by lia. replace (if (extent =? -1)%Z then d_extent d else extent) with extent by (destruct (Z.eqb_spec extent (-1)); [rewrite Hx by done|]; done).
  rewrite (proj2 (Nat.eqb_neq _ _) Hlb), (proj2 (Nat.eqb_neq _ _) Hub), Hplace, Hcont, Hlo, Hhi. rewrite (proj2 (Z.ltb_ge hi lo)) by lia. destruct (new_bounds base d lb ub) as [[[lb' ub'] f] al] eqn:Hnb.
  rewrite (proj2 (Nat.eqb_neq _ _) Hs0). unfold add_data. rewrite Hnew. cbn [mbind option_bind]. rewrite u64_small by done.
  set (dl := if desc_length base <? length (desc base) + place then _ else _). assert (Hdl : length (desc base) + length (flatten new) ≤ dl ∧ desc_length base ≤ dl).
  { unfold dl, DT_INCREASE_STACK. pose proof (ba_room _ _ Hb). destruct (Nat.ltb_spec (desc_length base) (length (desc base) + place)) as [E|E]; [|lia]. pose proof (Nat.div_mod_eq (length (desc base) + place) 8). pose proof (Nat.mod_upper_bound (length (desc base) + place) 8). lia. }
  rewrite (proj2 (Nat.eqb_neq (d_size base + count * d_size d) 0)) by nia. rewrite (proj2 (Nat.leb_le _ _)) by apply Hdl. cbn [guard].
  set (f3 := if flag _ _ && flag _ _ then _ else _). set (tub0 := if nbElems base =? 0 then _ else _). set (size := d_size base + count * d_size d).
  pose proof (contiguous_flags_spec f3 f3 d count disp extent tub0 lb' ub' size) as Hcf. cbn zeta in Hcf. set (f4 := contiguous_flags _ _ _ _ _ _ _ _ _ _) in *. destruct Hcf as (F1 & F2 & F3 & F4).
  assert (Hf3 : ∀ m, flag OPAL_DATATYPE_FLAG_USER_LB m = false → flag OPAL_DATATYPE_FLAG_USER_UB m = false → flag OPAL_DATATYPE_FLAG_DATA m = false → flag f3 m = flag (d_flags base) m).
  { intros m M1 M2 M3. rewrite <-(new_bounds_flags _ _ _ _ _ _ _ _ Hnb m M1 M2). unfold f3. destruct (_ && _); rewrite !flag_lor, M3, ?orb_false_r; [done|]. rewrite flag_land. unfold flag in M1, M2. apply negb_false_iff, Z.eqb_eq in M1, M2. by rewrite Z.land_lor_distr_l, M1, M2, flag_0, orb_false_r. }
  replace (negb (flag f4 OPAL_DATATYPE_FLAG_NO_GAPS) || flag f4 OPAL_DATATYPE_FLAG_CONTIGUOUS) with true.
  2: { destruct (flag f4 OPAL_DATATYPE_FLAG_NO_GAPS); [|done]. symmetry in F2. apply andb_prop in F2 as [F2 _]. by rewrite F1, F2. }
  cbn [guard mbind option_bind].
  assert (Hnb' : nbElems base + count * nbElems d ≤ size ∧ 0 < nbElems base + count * nbElems d) by (pose proof (ty_elems _ _ _ _ _ Htb) as [? _]; pose proof (ty_elems _ _ _ _ _ Ht) as [? Hp]; specialize (Hp Hne); unfold size; nia).
  assert (Hnn : new ≠ []) by (intros E; destruct Hspan as (_ & S2 & _); rewrite <-(an_map _ _ _ _ _ _ _ Hadd), E in S2; by apply not_elem_of_nil in S2).
  rewrite u64_small by (unfold size in Hnb'; lia). rewrite LMIN_min, LMAX_max. eexists _, new. split; [done|]. split_and!; [|by apply Hadd|by apply Hadd|by apply Hadd|by apply Hdl|by apply Hadd].
  split; cbn [desc desc_length d_flags nbElems true_lb true_ub d_id]; [|by intros [_ E]%app_eq_nil| |rewrite F3, Hf3 by done; by apply Hb|rewrite F4, Hf3 by done; by apply Hb|by apply Hb].
  2: { rewrite length_app. apply Hdl. }
  split; cbn [desc desc_length d_flags nbElems true_lb true_ub d_size d_loops d_lb d_ub d_extent d_id].
  - by rewrite flatten_app, (ty_desc _ _ _ _ _ Htb).
  - apply Forall_app. split; [by apply Htb|by apply Hadd].
  - unfold size. rewrite items_map_app, length_app, (an_map _ _ _ _ _ _ _ Hadd), loop_map_length, <-(ty_size _ _ _ _ _ Ht), <-(ty_size _ _ _ _ _ Htb). done.
  - split; [apply Hnb'|intros _; apply Hnb'].
  - intros _. rewrite items_map_app, (an_map _ _ _ _ _ _ _ Hadd). destruct (decide (itsb = [])) as [->|Hnbn].
    + destruct (ba_empty _ _ Hb eq_refl) as (_ & -> & ->). cbn [items_map flat_map app]. destruct Hspan as (S1 & S2 & S3). pose proof (Hnear _ S2). pose proof (Hnear _ S3). unfold LONG_MAX, LONG_MIN. rewrite Z.min_l, Z.max_l by lia. done.
    + rewrite (Z.min_comm lo), (Z.max_comm hi). apply spans_app; [by apply Htb|done].
  - rewrite F1, Hf3 by done. intros [[[C1 C2]%andb_prop C3%Z.eqb_eq]%andb_prop C4]%andb_prop. eapply contiguous_behind; try done. apply orb_true_iff in C4 as [C4%Z.eqb_eq|C4%Nat.ltb_lt]; [by left|by right].
  - rewrite F1, F2. intros [-> C%Z.eqb_eq]%andb_prop. split; [done|]. unfold d_extent. cbn [d_ub d_lb]. done.
  - rewrite depth_app. pose proof (ty_loops _ _ _ _ _ Htb). pose proof (an_loops _ _ _ _ _ _ _ Hadd). lia.
  - rewrite F3, Hf3, (ba_predefined _ _ Hb) by done. done.
Qed.

End add.
End DtAddSpec.
