(* ===== verification/DtTypesSpec.v ===== *)
(** * The constructors give the type maps of the standard

    The type map that a constructor is documented to give is a list of addresses made
    from that of the old datatype; here the description that it builds is shown to have
    it.  The datatype is ready for [opal_datatype_commit]. *)

From stdpp Require Import base numbers list gmap.
From S2P Require Import Prelude DtDesc DtWalk DtCopy DtMap DtWalkSpec DtCopySpec DtBuild DtOptimize DtFuse DtOptSpec DtPackSpec DtConv DtContigSpec DtConvSpec DtCommitSpec DtAddSpec DtTypes.

Module DtTypesSpec.
Import DtDesc DtMap DtBuild DtOptimize DtFuse DtOptSpec DtConvSpec DtCommitSpec DtAddSpec DtTypes.
Local Open Scope nat_scope.

Lemma loop_map_base `{Abi} b x j n its : loop_map b x j n its = Z.add b <$> loop_map 0 x j n its.
Proof. unfold loop_map. rewrite flat_map_fmap. apply flat_map_ext'. intros k _. by rewrite <-items_map_shift, Z.add_0_l, Z.add_comm. Qed.

Lemma loop_map_mul `{Abi} b x n m its : loop_map b x 0 (n * m) its = flat_map (λ i, loop_map (b + Z.of_nat i * (Z.of_nat m * x)) x 0 m its) (seq 0 n).
Proof.
  induction n as [|n IH]; [done|]. replace (S n * m) with (n * m + m) by lia. rewrite loop_map_add, IH, seq_S, flat_map_app. f_equal. cbn [flat_map Nat.add]. rewrite app_nil_r.
  rewrite <-(loop_map_next b x 0 m (n * m)). f_equal. lia.
Qed.

(** The types of the data of a description. *)
Definition types_in `{Abi} (new its : list item) : Prop := ∀ e, Elem e ∈ flatten new → ∃ e', Elem e' ∈ flatten its ∧ e_type e = e_type e'.

(** Multiples of the sizes of all types. *)
Definition aligned_to `{Abi} (its : list item) (z : Z) : Prop := ∀ e, Elem e ∈ flatten its → (Z.of_nat (basic_size (e_type e)) | z)%Z.

Section types.
Context `{AbiLaws} (Q : nat → Prop) (A : Prop).

(** A datatype that can be an argument of a constructor. *)
Record old_ok (d : opal_datatype_t) (its : list item) : Prop := {
  od_type : type_ok Q A false d its;
  od_data : its ≠ [];
  od_id : d_id d ≠ OPAL_DATATYPE_LB ∧ d_id d ≠ OPAL_DATATYPE_UB;
  od_entries : (Z.of_nat (length (desc d)) < 2 ^ 32 - 3)%Z;
}.

(** The result of a constructor: at most [k] blocks and [n] entries, and room for the end
    of loop that [opal_datatype_commit] puts behind the description. *)
Record built (d : opal_datatype_t) (its : list item) (m : list Z) (k n : nat) (old : list item) : Prop := {
  bu_base : base_ok Q A false d its;
  bu_map : items_map 0 its = m;
  bu_blocks : block_count its ≤ k;
  bu_entries : length (desc d) ≤ n;
  bu_room : n < desc_length d;
  bu_types : types_in its old;
}.

(** A basic datatype. *)
Lemma basic_ok t : 0 < basic_size t → Q t → OPAL_DATATYPE_UB < t → old_ok (basic_datatype t) [Data (mk_elem t 1 1 (Z.of_nat (basic_size t)) 0)].
Proof.
  intros Hs Ht Hid. assert (Hl : items_map 0 [Data (mk_elem t 1 1 (Z.of_nat (basic_size t)) 0)] = seqZ 0 (Z.of_nat (basic_size t))).
  { cbn [items_map flat_map]. rewrite app_nil_r, item_map_emap by (cbn; lia). unfold block_bytes. cbn [e_disp e_extent e_count e_blocklen e_type]. by rewrite blocks_1, Nat.mul_1_l. }
  unfold OPAL_DATATYPE_UB in Hid. split; [|done|unfold OPAL_DATATYPE_LB, OPAL_DATATYPE_UB; cbn; lia|cbn; lia]. split; rewrite ?Hl; try done.
  - constructor; [|done]. constructor; [split; cbn; try done; try lia; intros _; split; cbn; [apply Z.divide_0_r|done]|]. cbn. split; [intros _|done]. unfold tight, block_bytes. cbn. lia.
  - cbn. by rewrite length_seqZ, Nat2Z.id.
  - cbn. split; lia.
  - intros _. cbn. split_and!; [|apply elem_of_seqZ; lia|apply elem_of_seqZ; lia]. intros a Ha. apply elem_of_seqZ in Ha. lia.
  - intros _. split; [apply contiguous_seqZ|by constructor].
  - intros _. split; [done|]. unfold d_extent. cbn. lia.
  - intros _. split_and!; try done. unfold d_extent. cbn. lia.
Qed.

Lemma add_copies base itsb d its count disp extent : base_ok Q A false base itsb → old_ok d its → 0 < count → (flag (d_flags d) OPAL_DATATYPE_FLAG_PREDEFINED = true → count = 1 → extent = d_extent d) →
  (extent = -1 → d_extent d = -1)%Z → (Z.of_nat (count * S (block_count its)) < 2 ^ 32)%Z → (A → aligned_to its disp) → (A → count ≠ 1 → aligned_to its extent) →
  (Z.of_nat (d_size base + count * d_size d) < 2 ^ 64)%Z → near (loop_map disp extent 0 count its) →
  ∃ d' new, ompi_datatype_add base d count disp extent = Some d' ∧ base_ok Q A false d' (itsb ++ new) ∧ items_map 0 new = loop_map disp extent 0 count its ∧ block_count new ≤ count * S (block_count its) ∧
    length (flatten new) ≤ length (desc d) + (if count =? 1 then 0 else 2) ∧ desc_length base ≤ desc_length d' ∧ types_in new its.
Proof.
  intros Hb [Ht Hne [Hi1 Hi2] Hen] Hc Hbasic Hx H32 Hd He H64 Hnear. unfold ompi_datatype_add.
  destruct (datatype_add_ok Q A false base itsb d its count disp extent Hb) as (d' & new & Ha & Hb' & Hm & Hbl & Hl & Hlen & Hty); try done.
  - split; try done. intros Hp H1. rewrite (Hbasic Hp H1). by apply (ty_predefined _ _ _ _ _ Ht Hp).
  - rewrite Ha. exists d', new. rewrite (ty_desc _ _ _ _ _ Ht). done.
Qed.

(** A new datatype with copies of one. *)
Lemma build_once d its count disp extent n : old_ok d its → 0 < count → (flag (d_flags d) OPAL_DATATYPE_FLAG_PREDEFINED = true → count = 1 → extent = d_extent d) →
  (extent = -1 → d_extent d = -1)%Z → (Z.of_nat (count * S (block_count its)) < 2 ^ 32)%Z → (A → aligned_to its disp) → (A → count ≠ 1 → aligned_to its extent) →
  (Z.of_nat (count * d_size d) < 2 ^ 64)%Z → near (loop_map disp extent 0 count its) → length (desc d) + (if count =? 1 then 0 else 2) ≤ n →
  ∃ d' new, ompi_datatype_add (opal_datatype_create (Some n)) d count disp extent = Some d' ∧ built d' new (loop_map disp extent 0 count its) (count * S (block_count its)) n its.
Proof.
  intros Ho Hc Hbasic Hx H32 Hd He H64 Hnear Hn. destruct (add_copies (opal_datatype_create (Some n)) [] d its count disp extent) as (d' & new & Ha & Hb & Hm & Hbl & Hl & Hlen & Hty); try done; [apply create_ok|].
  exists d', new. split; [done|]. cbn [opal_datatype_create desc_length] in Hlen. split; try done; [|lia]. rewrite (ty_desc _ _ _ _ _ (ba_type _ _ _ _ _ Hb)). cbn [app]. lia.
Qed.

(** [bLength] copies, [count] times. *)
Definition vector_map (its : list item) (extent stride : Z) (count bLength : nat) : list Z := flat_map (λ i, loop_map (Z.of_nat i * stride) extent 0 bLength its) (seq 0 count).

Lemma vector_map_contiguous its extent stride count bLength : (extent * Z.of_nat bLength = stride)%Z ∨ count ≤ 1 → loop_map 0 extent 0 (count * bLength) its = vector_map its extent stride count bLength.
Proof.
  intros Hs. rewrite loop_map_mul. unfold vector_map. apply flat_map_ext'. intros i Hi. apply list_elem_of_In, in_seq in Hi. f_equal. destruct Hs as [<-|Hc]; [lia|]. assert (i = 0) as -> by lia. lia.
Qed.

Lemma vector_map_1 its extent stride count : loop_map 0 stride 0 count its = vector_map its extent stride count 1.
Proof. unfold vector_map, loop_map. apply flat_map_ext'. intros i _. cbn [seq flat_map]. rewrite app_nil_r. f_equal. lia. Qed.

Lemma vector_map_loop its extent stride count bLength new : items_map 0 new = loop_map 0 extent 0 bLength its → loop_map 0 stride 0 count new = vector_map its extent stride count bLength.
Proof. intros Hm. unfold vector_map, loop_map at 1. apply flat_map_ext'. intros i _. by rewrite items_map_base, Hm, <-loop_map_base, Z.add_0_l. Qed.

Lemma vector_map_first its extent stride count bLength : 0 < count → loop_map 0 extent 0 bLength its ⊆ vector_map its extent stride count bLength.
Proof. intros Hc. destruct count as [|n]; [lia|]. unfold vector_map. cbn [seq flat_map]. rewrite Z.mul_0_l. intros a Ha. apply elem_of_app. by left. Qed.

(** The conditions on a vector: no overflow, no address out of range, and if types are to
    be aligned, the extent and the stride are. *)
Record vector_ok (d : opal_datatype_t) (its : list item) (count bLength : nat) (stride : Z) : Prop := {
  vo_old : old_ok d its;
  vo_count : 0 < count;
  vo_length : 0 < bLength;
  vo_blocks : (Z.of_nat (count * S (bLength * S (block_count its))) < 2 ^ 32)%Z;
  vo_entries : (Z.of_nat (length (desc d) + 2) < 2 ^ 32 - 3)%Z;
  vo_size : (Z.of_nat (count * bLength * d_size d) < 2 ^ 64)%Z;
  vo_near : near (vector_map its (d_extent d) stride count bLength);
  vo_aligned : A → (bLength ≠ 1 → aligned_to its (d_extent d)) ∧ aligned_to its stride;
}.

Lemma built_old d its m k n old : built d its m k n old → m ≠ [] → (Z.of_nat n < 2 ^ 32 - 3)%Z → old_ok d its.
Proof. intros [Hb Hm _ Hn _ _] Hne Hl. split; [by apply Hb| |by apply Hb|lia]. intros ->. by rewrite <-Hm in Hne. Qed.

Lemma types_in_trans a b c : types_in a b → types_in b c → types_in a c.
Proof. intros H1 H2 e He. destruct (H1 e He) as (e1 & He1 & E1). destruct (H2 e1 He1) as (e2 & He2 & E2). exists e2. split; [done|congruence]. Qed.

Lemma aligned_types a b z : types_in a b → aligned_to b z → aligned_to a z.
Proof. intros Ht Ha e He. destruct (Ht e He) as (e' & He' & ->). by apply Ha. Qed.

(** A vector of blocks that follow each other. *)
Lemma vector_one_block d its count bLength stride n : vector_ok d its count bLength stride → (d_extent d * Z.of_nat bLength = stride)%Z ∨ count ≤ 1 → length (desc d) + 2 ≤ n →
  ∃ d' new, ompi_datatype_add (opal_datatype_create (Some n)) d (count * bLength) 0 (d_extent d) = Some d' ∧
    built d' new (vector_map its (d_extent d) stride count bLength) (count * S (bLength * S (block_count its))) n its.
Proof.
  intros [Ho Hc Hl Hb Hen Hs Hnear Ha] Hcase Hn. rewrite <-(vector_map_contiguous its _ _ _ _ Hcase) in *.
  destruct (build_once d its (count * bLength) 0 (d_extent d) n) as (d' & new & Hadd & Hbuilt); try done; try nia.
  - intros _ e _. apply Z.divide_0_r.
  - intros HA Hn1. destruct (decide (bLength = 1)) as [->|]; [|by apply Ha]. destruct Hcase as [E|E]; [|lia]. rewrite Z.mul_1_r in E. rewrite E. by apply Ha.
  - destruct (_ =? _); lia.
  - exists d', new. split; [done|]. destruct Hbuilt as [B1 B2 B3 B4 B5 B6]. split; try done. nia.
Qed.

(** Blocks of one element. *)
Lemma vector_elements d its count stride n : vector_ok d its count 1 stride → stride ≠ (-1)%Z → 1 < count → length (desc d) + 2 ≤ n →
  ∃ d' new, ompi_datatype_add (opal_datatype_create (Some n)) d count 0 stride = Some d' ∧ built d' new (vector_map its (d_extent d) stride count 1) (count * S (1 * S (block_count its))) n its.
Proof.
  intros [Ho Hc Hl Hb Hen Hs Hnear Ha] Hst Hcase Hn. rewrite <-(vector_map_1 its) in *. destruct (build_once d its count 0 stride n) as (d' & new & Hadd & Hbuilt); try done; try nia.
  - intros _ e _. apply Z.divide_0_r.
  - intros HA _. by apply Ha.
  - destruct (_ =? _); lia.
  - exists d', new. split; [done|]. destruct Hbuilt as [B1 B2 B3 B4 B5 B6]. split; try done. nia.
Qed.

(** A datatype for the block, and the vector of it. *)
Lemma vector_blocks d its count bLength stride : vector_ok d its count bLength stride → stride ≠ (-1)%Z → 1 < count →
  ∃ t d' new, ompi_datatype_add (opal_datatype_create (Some (length (desc d) + 2))) d bLength 0 (d_extent d) = Some t ∧
    ompi_datatype_add (opal_datatype_create (Some (length (desc d) + 2 + 2))) t count 0 stride = Some d' ∧
    built d' new (vector_map its (d_extent d) stride count bLength) (count * S (bLength * S (block_count its))) (length (desc d) + 2 + 2) its.
Proof.
  intros [Ho Hc Hl Hb Hen Hs Hnear Ha] Hst Hcase. destruct (build_once d its bLength 0 (d_extent d) (length (desc d) + 2)) as (t & body & Hadd & Hbuilt); try done; try nia.
  - intros _ e _. apply Z.divide_0_r.
  - intros HA Hn1. by apply Ha.
  - intros a Hin. by apply Hnear, vector_map_first.
  - destruct (_ =? _); lia.
  - assert (Hne : loop_map 0 (d_extent d) 0 bLength its ≠ []).
    { intros E%(f_equal length). rewrite loop_map_length in E. pose proof (src_items_nil Q A false its (ty_items _ _ _ _ _ (od_type _ _ Ho)) (od_data _ _ Ho)). destruct (items_map 0 its); [done|]. cbn in E. nia. }
    pose proof (od_entries _ _ Ho). pose proof Hbuilt as [B1 B2 B3 B4 B5 B6]. assert (Hsz : d_size t = bLength * d_size d) by (rewrite (ty_size _ _ _ _ _ (ba_type _ _ _ _ _ B1)), B2, loop_map_length, <-(ty_size _ _ _ _ _ (od_type _ _ Ho)); done).
    rewrite <-(vector_map_loop its _ _ _ _ body B2) in Hnear |- *.
    destruct (build_once t body count 0 stride (length (desc d) + 2 + 2)) as (d' & new & Hadd' & Hbuilt'); [by eapply built_old|done| |done|nia| | | |done| |].
    + by rewrite (ba_predefined _ _ _ _ _ B1).
    + intros _ e _. apply Z.divide_0_r.
    + intros HA _. eapply aligned_types; [done|]. by apply Ha.
    + rewrite Hsz. by rewrite Nat.mul_assoc.
    + destruct (_ =? _); lia.
    + exists t, d', new. split_and!; [done|done|]. destruct Hbuilt' as [C1 C2 C3 C4 C5 C6]. split; try done; [nia|]. by eapply types_in_trans.
Qed.

Lemma create_vector_ok d its count bLength stride : vector_ok d its count bLength (d_extent d * stride) → (d_extent d * stride ≠ -1)%Z →
  ∃ d' new n, ompi_datatype_create_vector count bLength stride d = Some d' ∧ n ≤ length (desc d) + 4 ∧
    built d' new (vector_map its (d_extent d) (d_extent d * stride) count bLength) (count * S (bLength * S (block_count its))) n its.
Proof.
  intros Hv Hst. pose proof Hv as [Ho Hc Hl Hb _ _ _ _]. unfold ompi_datatype_create_vector. rewrite (proj2 (Nat.eqb_neq count 0)), (proj2 (Nat.eqb_neq bLength 0)) by lia. cbn [orb].
  destruct ((Z.of_nat bLength =? stride)%Z || (count <=? 1)) eqn:E.
  - rewrite u64_small by nia. destruct (vector_one_block d its count bLength (d_extent d * stride) (length (desc d) + 2) Hv) as (d' & new & -> & Hbuilt); [|done|exists d', new, (length (desc d) + 2); split_and!; [done|lia|done]].
    apply orb_true_iff in E as [E%Z.eqb_eq|E%Nat.leb_le]; [left; by rewrite E|by right].
  - apply orb_false_iff in E as [_ E%Nat.leb_gt]. destruct (Nat.eqb_spec bLength 1) as [->|Hl1].
    + destruct (vector_elements d its count (d_extent d * stride) (length (desc d) + 2) Hv Hst E) as (d' & new & -> & Hbuilt); [done|]. exists d', new, (length (desc d) + 2). split_and!; [done|lia|done].
    + destruct (vector_blocks d its count bLength (d_extent d * stride) Hv Hst E) as (t & d' & new & Ht & Hd & Hbuilt). rewrite Ht. cbn [mbind option_bind]. rewrite Hd. exists d', new, (length (desc d) + 2 + 2). split_and!; [done|lia|done].
Qed.

Lemma create_hvector_ok d its count bLength stride : vector_ok d its count bLength stride → stride ≠ (-1)%Z → (Z.of_nat (count * bLength) < 2 ^ 31)%Z →
  ∃ d' new n, ompi_datatype_create_hvector count bLength stride d = Some d' ∧ n ≤ length (desc d) + 4 ∧
    built d' new (vector_map its (d_extent d) stride count bLength) (count * S (bLength * S (block_count its))) n its.
Proof.
  intros Hv Hst H31. pose proof Hv as [Ho Hc Hl Hb _ _ _ _]. unfold ompi_datatype_create_hvector. rewrite (proj2 (Nat.eqb_neq count 0)), (proj2 (Nat.eqb_neq bLength 0)) by lia. cbn [orb].
  destruct ((d_extent d * Z.of_nat bLength =? stride)%Z || (count <=? 1)) eqn:E.
  - rewrite (proj2 (Z.ltb_lt _ _) H31). cbn [guard]. destruct (vector_one_block d its count bLength stride (length (desc d) + 2) Hv) as (d' & new & -> & Hbuilt); [|done|exists d', new, (length (desc d) + 2); split_and!; [done|lia|done]].
    apply orb_true_iff in E as [E%Z.eqb_eq|E%Nat.leb_le]; [by left|by right].
  - apply orb_false_iff in E as [_ E%Nat.leb_gt]. destruct (Nat.eqb_spec bLength 1) as [->|Hl1].
    + destruct (vector_elements d its count stride (length (desc d) + 2) Hv Hst E) as (d' & new & -> & Hbuilt); [done|]. exists d', new, (length (desc d) + 2). split_and!; [done|lia|done].
    + destruct (vector_blocks d its count bLength stride Hv Hst E) as (t & d' & new & Ht & Hd & Hbuilt). rewrite Ht. cbn [mbind option_bind]. rewrite Hd. exists d', new, (length (desc d) + 2 + 2). split_and!; [done|lia|done].
Qed.

Lemma old_size d its : old_ok d its → 0 < d_size d.
Proof. intros [Ht Hne _ _]. rewrite (ty_size _ _ _ _ _ Ht). pose proof (src_items_nil Q A false its (ty_items _ _ _ _ _ Ht) Hne). destruct (items_map 0 its); [done|cbn; lia]. Qed.

Lemma create_contiguous_ok d its count : vector_ok d its 1 count (d_extent d) →
  ∃ d' new, ompi_datatype_create_contiguous count d = Some d' ∧ built d' new (loop_map 0 (d_extent d) 0 count its) (S (count * S (block_count its))) (length (desc d) + 2) its.
Proof.
  intros Hv. pose proof Hv as [Ho _ Hl Hb _ _ _ _]. pose proof (old_size _ _ Ho). unfold ompi_datatype_create_contiguous. rewrite (proj2 (Nat.eqb_neq count 0)), (proj2 (Nat.eqb_neq (d_size d) 0)) by lia. cbn [orb].
  destruct (vector_one_block d its 1 count (d_extent d) (length (desc d) + 2) Hv) as (d' & new & Hd & Hbuilt); [by right|done|]. rewrite Nat.mul_1_l in Hd. rewrite Hd. exists d', new. split; [done|].
  rewrite <-(vector_map_contiguous its _ _ 1 count), !Nat.mul_1_l in Hbuilt by (by right). done.
Qed.

(** ** Blocks at displacements *)

Definition indexed_map (its : list item) (extent scale : Z) (blocks : list (nat * Z)) : list Z := flat_map (λ '(n, d), loop_map (d * scale) extent 0 n its) blocks.
Definition indexed_total (blocks : list (nat * Z)) : nat := sum_list (blocks.*1).

(** The conditions on the blocks. *)
Record indexed_ok (d : opal_datatype_t) (its : list item) (scale : Z) (blocks : list (nat * Z)) : Prop := {
  io_old : old_ok d its;
  io_blocks : (Z.of_nat (indexed_total blocks * S (block_count its)) < 2 ^ 32)%Z;
  io_size : (Z.of_nat (indexed_total blocks * d_size d) < 2 ^ 64)%Z;
  io_near : near (indexed_map its (d_extent d) scale blocks);
  io_aligned : A → aligned_to its (d_extent d) ∧ ∀ n x, (n, x) ∈ blocks → aligned_to its (x * scale);
}.

Lemma near_app l1 l2 : near (l1 ++ l2) ↔ near l1 ∧ near l2.
Proof. unfold near. setoid_rewrite elem_of_app. naive_solver. Qed.

Lemma types_in_app a b c : types_in a c → types_in b c → types_in (a ++ b) c.
Proof. intros H1 H2 e. rewrite flatten_app. intros [He|He]%elem_of_app; auto. Qed.

(** A block that follows on another one. *)
Lemma indexed_map_join its extent unit scale n k x rest : (unit * scale)%Z = extent →
  indexed_map its extent scale ((n + k, x) :: rest) = indexed_map its extent scale ((n, x) :: (k, x + Z.of_nat n * unit)%Z :: rest).
Proof.
  intros E. unfold indexed_map. cbn [flat_map]. rewrite loop_map_add, <-app_assoc, Nat.add_0_l. do 2 f_equal. rewrite <-(loop_map_next (x * scale) extent 0 k n). f_equal. lia.
Qed.

Lemma indexed_total_cons n x rest : indexed_total ((n, x) :: rest) = n + indexed_total rest.
Proof. done. Qed.

Lemma indexed_map_cons its extent scale n x rest : indexed_map its extent scale ((n, x) :: rest) = loop_map (x * scale) extent 0 n its ++ indexed_map its extent scale rest.
Proof. done. Qed.

(** One block is added. *)
Lemma indexed_add d its scale base itsb n x rest : base_ok Q A false base itsb → 0 < n → indexed_ok d its scale ((n, x) :: rest) → (Z.of_nat (d_size base + n * d_size d) < 2 ^ 64)%Z →
  ∃ d' new, ompi_datatype_add base d n (x * scale) (d_extent d) = Some d' ∧ base_ok Q A false d' (itsb ++ new) ∧ items_map 0 new = loop_map (x * scale) (d_extent d) 0 n its ∧ block_count new ≤ n * S (block_count its) ∧
    length (flatten new) ≤ 2 + length (desc d) ∧ desc_length base ≤ desc_length d' ∧ types_in new its.
Proof.
  intros Hb Hn [Ho Hbl Hsz Hnear Hal] H64. rewrite indexed_total_cons in *. rewrite indexed_map_cons in Hnear. apply near_app in Hnear as [Hnear _].
  destruct (add_copies base itsb d its n (x * scale) (d_extent d)) as (d' & new & Ha & Hb' & Hm & Hblk & Hl & Hlen & Hty); try done.
  - nia.
  - intros HA. apply (proj2 (Hal HA) n). by left.
  - intros HA _. by apply Hal.
  - exists d', new. split_and!; try done. destruct (_ =? _); lia.
Qed.

(** Fewer blocks, with the same conditions. *)
Lemma indexed_ok_sub d its scale blocks blocks' : indexed_ok d its scale blocks → indexed_total blocks' ≤ indexed_total blocks →
  indexed_map its (d_extent d) scale blocks' ⊆ indexed_map its (d_extent d) scale blocks → (∀ n x, (n, x) ∈ blocks' → ∃ n', (n', x) ∈ blocks) → indexed_ok d its scale blocks'.
Proof.
  intros [Ho Hbl Hsz Hnear Hal] Ht Hm Hin. split; try done; [nia|nia|by intros a Ha; apply Hnear, Hm|]. intros HA. destruct (Hal HA) as [H1 H2]. split; [done|]. intros n x Hx. destruct (Hin n x Hx) as [n' Hx']. by eapply H2.
Qed.

Lemma indexed_loop_ok d its unit scale : (unit * scale)%Z = d_extent d → ∀ rest base itsb n x, base_ok Q A false base itsb → 0 < n → indexed_ok d its scale ((n, x) :: rest) →
  (Z.of_nat (d_size base + indexed_total ((n, x) :: rest) * d_size d) < 2 ^ 64)%Z →
  ∃ d' new, indexed_loop d (d_extent d) unit scale base n x (x + Z.of_nat n * unit) rest = Some d' ∧ base_ok Q A false d' (itsb ++ new) ∧ items_map 0 new = indexed_map its (d_extent d) scale ((n, x) :: rest) ∧
    block_count new ≤ indexed_total ((n, x) :: rest) * S (block_count its) ∧ length (flatten new) ≤ S (length rest) * (2 + length (desc d)) ∧ desc_length base ≤ desc_length d' ∧ types_in new its.
Proof.
  intros Hu. induction rest as [|[k y] rest IH]; intros base itsb n x Hb Hn Hok H64; cbn [indexed_loop].
  - destruct (indexed_add d its scale base itsb n x [] Hb Hn Hok) as (d' & new & Ha & Hb' & Hm & Hblk & Hl & Hlen & Hty); [unfold indexed_total in H64; cbn in H64; lia|]. exists d', new. rewrite indexed_map_cons, app_nil_r, indexed_total_cons. split_and!; try done; cbn; lia.
  - rewrite !indexed_total_cons in *. destruct k as [|k].
    + destruct (IH base itsb n x Hb Hn) as (d' & new & Ha & Hb' & Hm & Hblk & Hl & Hlen & Hty); [eapply indexed_ok_sub; [done|done|done|]|done|].
      * intros n' z [[= -> ->]|Hz]%elem_of_cons; [exists n; by left|]. exists n'. by do 2 right.
      * exists d', new. rewrite indexed_total_cons in Hblk. split_and!; try done. cbn [length] in Hl |- *. lia.
    + remember (S k) as k' eqn:Ek. assert (0 < k') by lia. clear Ek k. destruct (Z.eqb_spec (x + Z.of_nat n * unit) y) as [<-|Ey].
      * replace (x + Z.of_nat n * unit + Z.of_nat k' * unit)%Z with (x + Z.of_nat (n + k') * unit)%Z by lia. destruct (IH base itsb (n + k') x Hb) as (d' & new & Ha & Hb' & Hm & Hblk & Hl & Hlen & Hty); [lia|eapply indexed_ok_sub; [done| | |]| |].
        { rewrite !indexed_total_cons. lia. }
        { by rewrite (indexed_map_join its _ unit). }
        { intros n' z [[= -> ->]|Hz]%elem_of_cons; [exists n; by left|]. exists n'. by do 2 right. }
        { rewrite indexed_total_cons. rewrite <-Nat.add_assoc. done. }
        exists d', new. rewrite (indexed_map_join its _ unit) in Hm by done. rewrite indexed_total_cons in Hblk. split_and!; try done; [lia|]. cbn [length] in Hl |- *. lia.
      * destruct (indexed_add d its scale base itsb n x _ Hb Hn Hok) as (d1 & new1 & Ha1 & Hb1 & Hm1 & Hblk1 & Hl1 & Hlen1 & Hty1); [nia|]. rewrite Ha1. cbn [mbind option_bind].
        assert (Hs1 : d_size d1 = d_size base + n * d_size d).
        { rewrite (ty_size _ _ _ _ _ (ba_type _ _ _ _ _ Hb1)), items_map_app, length_app, Hm1, loop_map_length, <-(ty_size _ _ _ _ _ (ba_type _ _ _ _ _ Hb)), <-(ty_size _ _ _ _ _ (od_type _ _ (io_old _ _ _ _ Hok))). done. }
        destruct (IH d1 (itsb ++ new1) k' y Hb1) as (d' & new & Ha & Hb' & Hm & Hblk & Hl & Hlen & Hty); [done|eapply indexed_ok_sub; [done| | |]|rewrite Hs1, indexed_total_cons; lia|].
        { rewrite !indexed_total_cons. lia. }
        { rewrite (indexed_map_cons _ _ _ n x). intros a Ha. apply elem_of_app. by right. }
        { intros n' z Hz. exists n'. by right. }
        exists d', (new1 ++ new). rewrite indexed_total_cons in Hblk. split_and!; [done|by rewrite app_assoc| | | |lia|by apply types_in_app].
        { by rewrite items_map_app, Hm1, Hm. }
        { rewrite block_count_app. lia. }
        { rewrite flatten_app, length_app. cbn [length] in *. lia. }
Qed.

Lemma indexed_map_length its extent scale blocks : length (indexed_map its extent scale blocks) = indexed_total blocks * length (items_map 0 its).
Proof. induction blocks as [|[n x] blocks IH]; [done|]. rewrite indexed_map_cons, indexed_total_cons, length_app, loop_map_length, IH. lia. Qed.

Lemma first_block_spec d its scale blocks : indexed_ok d its scale blocks → 0 < indexed_total blocks → ∃ n x rest, first_block blocks = (n, x) :: rest ∧ 0 < n ∧ indexed_ok d its scale ((n, x) :: rest) ∧
  indexed_map its (d_extent d) scale ((n, x) :: rest) = indexed_map its (d_extent d) scale blocks ∧ indexed_total ((n, x) :: rest) = indexed_total blocks ∧ S (length rest) ≤ length blocks.
Proof.
  induction blocks as [|[[|n] x] blocks IH]; intros Hok Ht; [unfold indexed_total in Ht; cbn in Ht; lia| |].
  - cbn [first_block]. destruct IH as (n & y & rest & H1 & H2 & H3 & H4 & H5 & H6); [|done|].
    + eapply indexed_ok_sub; [done|done|done|]. intros n y Hy. exists n. by right.
    + exists n, y, rest. split_and!; try done. cbn. lia.
  - exists (S n), x, blocks. split_and!; try done; cbn; lia.
Qed.

Lemma indexed_blocks_ok d its unit scale n x rest : (unit * scale)%Z = d_extent d → 0 < n → indexed_ok d its scale ((n, x) :: rest) →
  ∃ d' new, indexed_blocks d unit scale ((n, x) :: rest) = Some d' ∧
    built d' new (indexed_map its (d_extent d) scale ((n, x) :: rest)) (indexed_total ((n, x) :: rest) * S (block_count its)) (S (length rest) * (2 + length (desc d))) its.
Proof.
  intros Hu Hn Hok. destruct (indexed_loop_ok d its unit scale Hu rest (opal_datatype_create (Some (S (length rest) * (2 + length (desc d))))) [] n x) as (d' & new & Ha & Hb & Hm & Hblk & Hl & Hlen & Hty); [apply create_ok|done|done|by apply Hok|].
  exists d', new. split; [done|]. cbn [opal_datatype_create desc_length] in Hlen. split; try done; [|lia]. by rewrite (ty_desc _ _ _ _ _ (ba_type _ _ _ _ _ Hb)).
Qed.

Lemma create_indexed_ok d its blocks : indexed_ok d its (d_extent d) blocks → 0 < indexed_total blocks →
  ∃ d' new n, ompi_datatype_create_indexed blocks d = Some d' ∧ n ≤ length blocks * (2 + length (desc d)) ∧ built d' new (indexed_map its (d_extent d) (d_extent d) blocks) (indexed_total blocks * S (block_count its)) n its.
Proof.
  intros Hok Ht. destruct (first_block_spec d its _ blocks Hok Ht) as (n & x & rest & H1 & H2 & H3 & H4 & H5 & H6). unfold ompi_datatype_create_indexed. pose proof (old_size _ _ (io_old _ _ _ _ Hok)). rewrite H1, (proj2 (Nat.eqb_neq (d_size d) 0)) by lia.
  destruct (indexed_blocks_ok d its 1 (d_extent d) n x rest ltac:(lia) H2 H3) as (d' & new & -> & Hb). rewrite H4, H5 in Hb. exists d', new, (S (length rest) * (2 + length (desc d))). split_and!; [done|nia|done].
Qed.

Lemma create_hindexed_ok d its blocks : indexed_ok d its 1 blocks → 0 < indexed_total blocks →
  ∃ d' new n, ompi_datatype_create_hindexed blocks d = Some d' ∧ n ≤ length blocks * (2 + length (desc d)) ∧ built d' new (indexed_map its (d_extent d) 1 blocks) (indexed_total blocks * S (block_count its)) n its.
Proof.
  intros Hok Ht. destruct (first_block_spec d its _ blocks Hok Ht) as (n & x & rest & H1 & H2 & H3 & H4 & H5 & H6). unfold ompi_datatype_create_hindexed. pose proof (old_size _ _ (io_old _ _ _ _ Hok)). rewrite H1, (proj2 (Nat.eqb_neq (d_size d) 0)) by lia.
  destruct (indexed_blocks_ok d its (d_extent d) 1 n x rest ltac:(lia) H2 H3) as (d' & new & -> & Hb). rewrite H4, H5 in Hb. exists d', new, (S (length rest) * (2 + length (desc d))). split_and!; [done|nia|done].
Qed.

(** Both kinds of blocks of the same length. *)
Lemma create_indexed_block_ok d its bLength pDisp : 0 < bLength → pDisp ≠ [] →
  (indexed_ok d its (d_extent d) (pair bLength <$> pDisp) → ∃ d' new n, ompi_datatype_create_indexed_block bLength pDisp d = Some d' ∧
     built d' new (indexed_map its (d_extent d) (d_extent d) (pair bLength <$> pDisp)) (indexed_total (pair bLength <$> pDisp) * S (block_count its)) n its) ∧
  (indexed_ok d its 1 (pair bLength <$> pDisp) → ∃ d' new n, ompi_datatype_create_hindexed_block bLength pDisp d = Some d' ∧
     built d' new (indexed_map its (d_extent d) 1 (pair bLength <$> pDisp)) (indexed_total (pair bLength <$> pDisp) * S (block_count its)) n its).
Proof.
  intros Hn Hne. unfold ompi_datatype_create_indexed_block, ompi_datatype_create_hindexed_block. rewrite (proj2 (Nat.eqb_neq bLength 0)) by lia. destruct pDisp as [|x pDisp]; [done|]. cbn [length Nat.eqb orb fmap list_fmap]. split; intros Hok.
  - destruct (indexed_blocks_ok d its 1 (d_extent d) bLength x _ ltac:(lia) Hn Hok) as (d' & new & Hd & Hb). by exists d', new, (S (length (pair bLength <$> pDisp)) * (2 + length (desc d))).
  - destruct (indexed_blocks_ok d its (d_extent d) 1 bLength x _ ltac:(lia) Hn Hok) as (d' & new & Hd & Hb). by exists d', new, (S (length (pair bLength <$> pDisp)) * (2 + length (desc d))).
Qed.

End types.
End DtTypesSpec.
