(* ===== verification/DtArraySpec.v ===== *)
(** * Structures, resized datatypes and subarrays

    The type maps of the constructors that combine several datatypes or move them. *)

From stdpp Require Import base numbers list gmap.
From S2P Require Import Prelude DtDesc DtWalk DtCopy DtMap DtWalkSpec DtCopySpec DtBuild DtOptimize DtFuse DtOptSpec DtPackSpec DtConv DtContigSpec DtConvSpec DtCommitSpec DtAddSpec DtTypes DtTypesSpec.

(** ** Structures

    [ompi_datatype_create_struct] goes over the members twice: to count the entries, and
    to add them.  Members of the same type that follow each other are added as one. *)

Module DtStructSpec.
Import DtDesc DtMap DtBuild DtOptimize DtFuse DtOptSpec DtConvSpec DtCommitSpec DtAddSpec DtTypes DtTypesSpec.
Local Open Scope nat_scope.

(** Membership in parts of a list. *)
Ltac in_app := intros ? ?; rewrite ?elem_of_app in *; tauto.

Section structure.
Context `{AbiLaws} (Q : nat → Prop) (A : Prop).

(** The datatypes behind the handles, with their trees. *)
Context (deref : nat → opal_datatype_t) (tree : nat → list item).

Definition extent_of (t : nat) : Z := d_extent (deref t).

(** The type map: the members in order, each its copies. *)
Definition member_map (m : member) : list Z := let '(n, x, t) := m in loop_map x (extent_of t) 0 n (tree t).
Definition struct_map (members : list member) : list Z := flat_map member_map members.

Definition struct_blocks (members : list member) : nat := foldr (λ '(n, _, t) k, n * S (block_count (tree t)) + k) 0 members.
Definition struct_size (members : list member) : nat := foldr (λ '(n, _, t) k, n * d_size (deref t) + k) 0 members.
Definition struct_tree (members : list member) : list item := flat_map (λ '(_, _, t), tree t) members.

(** The conditions on the members. *)
Record struct_ok (members : list member) : Prop := {
  so_old n x t : (n, x, t) ∈ members → old_ok Q A (deref t) (tree t) ∧ (A → aligned_to (tree t) (extent_of t) ∧ aligned_to (tree t) x);
  so_blocks : (Z.of_nat (struct_blocks members) < 2 ^ 32)%Z;
  so_size : (Z.of_nat (struct_size members) < 2 ^ 64)%Z;
  so_near : near (struct_map members);
}.

Lemma struct_map_join n k x t rest : struct_map ((n + k, x, t) :: rest) = struct_map ((n, x, t) :: (k, x + extent_of t * Z.of_nat n, t)%Z :: rest).
Proof.
  unfold struct_map. cbn [flat_map member_map]. rewrite loop_map_add, <-app_assoc, Nat.add_0_l. do 2 f_equal. rewrite <-(loop_map_next x (extent_of t) 0 k n). f_equal. lia.
Qed.

Lemma types_in_sub a b c : types_in a b → flatten b ⊆ flatten c → types_in a c.
Proof. intros H1 H2 e He. destruct (H1 e He) as (e' & He' & E). exists e'. split; [by apply H2|done]. Qed.

(** One member is added, nothing if it has no elements. *)
Lemma member_add base itsb n x t rest : base_ok Q A false base itsb → struct_ok ((n, x, t) :: rest) → (Z.of_nat (d_size base + n * d_size (deref t)) < 2 ^ 64)%Z →
  ∃ d' new, ompi_datatype_add base (deref t) n x (extent_of t) = Some d' ∧ base_ok Q A false d' (itsb ++ new) ∧ items_map 0 new = member_map (n, x, t) ∧ block_count new ≤ n * S (block_count (tree t)) ∧
    length (flatten new) ≤ length (desc (deref t)) + (if 1 <? n then 2 else 0) ∧ desc_length base ≤ desc_length d' ∧ types_in new (tree t).
Proof.
  intros Hb [Ho Hbl Hsz Hnear] H64. destruct n as [|n].
  { exists base, []. rewrite app_nil_r. split_and!; try done; [cbn; lia|]. intros e He. by apply not_elem_of_nil in He. }
  destruct (Ho (S n) x t ltac:(by left)) as [Hold Hal]. cbn [struct_map flat_map] in Hnear. apply near_app in Hnear as [Hnear _]. cbn [struct_blocks foldr] in Hbl.
  destruct (add_copies Q A base itsb (deref t) (tree t) (S n) x (extent_of t)) as (d' & new & Ha & Hb' & Hm & Hblk & Hl & Hlen & Hty); try done; try lia.
  - intros HA. by apply Hal.
  - intros HA _. by apply Hal.
  - exists d', new. split_and!; try done. destruct n; cbn in *; lia.
Qed.

Lemma struct_ok_sub members members' : struct_ok members → struct_blocks members' ≤ struct_blocks members → struct_size members' ≤ struct_size members → struct_map members' ⊆ struct_map members →
  (∀ n x t, (n, x, t) ∈ members' → ∃ n', (n', x, t) ∈ members) → struct_ok members'.
Proof.
  intros [Ho Hbl Hsz Hnear] H1 H2 H3 H4. split; [|lia|lia|by intros a Ha; apply Hnear, H3]. intros n x t Hin. destruct (H4 n x t Hin) as [n' Hin']. by eapply Ho.
Qed.

Lemma struct_loop_ok rest : ∀ base itsb n x t, base_ok Q A false base itsb → struct_ok ((n, x, t) :: rest) → (Z.of_nat (d_size base + struct_size ((n, x, t) :: rest)) < 2 ^ 64)%Z →
  ∃ d' new, struct_loop deref base n x (x + extent_of t * Z.of_nat n) t rest = Some d' ∧ base_ok Q A false d' (itsb ++ new) ∧ items_map 0 new = struct_map ((n, x, t) :: rest) ∧
    block_count new ≤ struct_blocks ((n, x, t) :: rest) ∧ length (flatten new) ≤ struct_entries deref n x (x + extent_of t * Z.of_nat n) t rest ∧ desc_length base ≤ desc_length d' ∧ types_in new (struct_tree ((n, x, t) :: rest)).
Proof.
  induction rest as [|[[k y] u] rest IH]; intros base itsb n x t Hb Hok H64; cbn [struct_loop struct_entries].
  - destruct (member_add base itsb n x t [] Hb Hok) as (d' & new & Ha & Hb' & Hm & Hblk & Hl & Hlen & Hty); [cbn in H64; lia|]. exists d', new. unfold struct_map, struct_tree. cbn [flat_map struct_blocks foldr]. rewrite !app_nil_r.
    split_and!; try done; [lia|]. destruct n as [|[|n]]; cbn in *; lia.
  - destruct ((u =? t) && (y =? x + extent_of t * Z.of_nat n)%Z) eqn:E.
    + apply andb_prop in E as [->%Nat.eqb_eq ->%Z.eqb_eq]. fold (extent_of t). replace (x + Z.of_nat (n + k) * extent_of t)%Z with (x + extent_of t * Z.of_nat (n + k))%Z by lia.
      destruct (IH base itsb (n + k) x t Hb) as (d' & new & Ha & Hb' & Hm & Hblk & Hl & Hlen & Hty); [eapply struct_ok_sub; [done| | | |]| |].
      * cbn [struct_blocks foldr]. lia.
      * cbn [struct_size foldr]. lia.
      * by rewrite struct_map_join.
      * intros n' z v [[= -> -> ->]|Hz]%elem_of_cons; [exists n; by left|]. exists n'. by do 2 right.
      * cbn [struct_size foldr] in H64 |- *. lia.
      * exists d', new. rewrite struct_map_join in Hm. split_and!; try done; [cbn [struct_blocks foldr] in Hblk |- *; lia|]. eapply types_in_sub; [done|]. unfold struct_tree. cbn [flat_map]. rewrite !flatten_app. in_app.
    + destruct (member_add base itsb n x t _ Hb Hok) as (d1 & new1 & Ha1 & Hb1 & Hm1 & Hblk1 & Hl1 & Hlen1 & Hty1); [cbn [struct_size foldr] in H64; lia|]. fold (extent_of t). rewrite Ha1. cbn [mbind option_bind].
      assert (Hs1 : d_size d1 = d_size base + n * d_size (deref t)).
      { destruct (so_old _ Hok n x t ltac:(by left)) as [Hold _]. rewrite (ty_size _ _ _ _ _ (ba_type _ _ _ _ _ Hb1)), items_map_app, length_app, Hm1. cbn [member_map]. rewrite loop_map_length, <-(ty_size _ _ _ _ _ (ba_type _ _ _ _ _ Hb)), <-(ty_size _ _ _ _ _ (od_type _ _ _ _ Hold)). done. }
      fold (extent_of u). destruct (IH d1 (itsb ++ new1) k y u Hb1) as (d' & new & Ha & Hb' & Hm & Hblk & Hl & Hlen & Hty); [eapply struct_ok_sub; [done| | | |]| |].
      * cbn [struct_blocks foldr]. lia.
      * cbn [struct_size foldr]. lia.
      * unfold struct_map. cbn [flat_map]. in_app.
      * intros n' z v Hz. exists n'. by right.
      * rewrite Hs1. cbn [struct_size foldr] in H64 |- *. lia.
      * exists d', (new1 ++ new). split_and!; [done|by rewrite app_assoc| | | |lia|].
        -- rewrite items_map_app, Hm1, Hm. done.
        -- rewrite block_count_app. cbn [struct_blocks foldr] in Hblk |- *. lia.
        -- rewrite flatten_app, length_app. lia.
        -- apply types_in_app; (eapply types_in_sub; [done|]); unfold struct_tree; cbn [flat_map]; rewrite !flatten_app; in_app.
Qed.

Lemma struct_map_length members : struct_ok members → length (struct_map members) = struct_size members.
Proof.
  intros Hok. induction members as [|[[n x] t] members IH]; [done|]. destruct (so_old _ Hok n x t ltac:(by left)) as [Ho _]. unfold struct_map in *. cbn [flat_map member_map struct_size foldr]. rewrite length_app, loop_map_length, IH, (ty_size _ _ _ _ _ (od_type _ _ _ _ Ho)); [done|].
  eapply struct_ok_sub; [exact Hok|unfold struct_blocks; cbn [foldr]; lia|unfold struct_size; cbn [foldr]; lia|unfold struct_map; cbn [flat_map]; in_app|]. intros n' y u Hy. exists n'. by right.
Qed.

(** Members without elements at the start do not count. *)
Lemma first_member_spec members : struct_ok members → 0 < struct_size members → ∃ n x t rest, first_member members = (n, x, t) :: rest ∧ struct_ok ((n, x, t) :: rest) ∧
  struct_map ((n, x, t) :: rest) = struct_map members ∧ struct_blocks ((n, x, t) :: rest) = struct_blocks members ∧ flatten (struct_tree ((n, x, t) :: rest)) ⊆ flatten (struct_tree members).
Proof.
  induction members as [|[[[|n] x] t] members IH]; intros Hok Hs; [cbn in Hs; lia| |by exists (S n), x, t, members].
  cbn [first_member]. destruct IH as (n & y & u & rest & H1 & H2 & H3 & H4 & H5); [|done|].
  - eapply struct_ok_sub; [done|done|done|done|]. intros n y u Hy. exists n. by right.
  - exists n, y, u, rest. split_and!; try done. change (struct_tree ((0, x, t) :: members)) with (tree t ++ struct_tree members). rewrite flatten_app. intros e He. apply elem_of_app. right. by apply H5.
Qed.

Lemma create_struct_ok members : struct_ok members → 0 < struct_size members →
  ∃ d' new n, ompi_datatype_create_struct deref members = Some d' ∧ built Q A d' new (struct_map members) (struct_blocks members) n (struct_tree members).
Proof.
  intros Hok Hs. destruct (first_member_spec members Hok Hs) as (n & x & t & rest & H1 & H2 & H3 & H4 & H5). unfold ompi_datatype_create_struct. rewrite H1. fold (extent_of t). set (N := struct_entries _ _ _ _ _ _).
  destruct (struct_loop_ok rest (opal_datatype_create (Some N)) [] n x t) as (d' & new & Ha & Hb & Hm & Hblk & Hl & Hlen & Hty); [apply create_ok|done|by apply H2|].
  exists d', new, N. split; [done|]. cbn [opal_datatype_create desc_length] in Hlen. split; [done|by rewrite Hm, H3|lia| |lia|by eapply types_in_sub]. by rewrite (ty_desc _ _ _ _ _ (ba_type _ _ _ _ _ Hb)).
Qed.

End structure.
End DtStructSpec.

(** ** Resized datatypes and subarrays *)

Module DtArraySpec.
Import DtDesc DtMap DtBuild DtOptimize DtFuse DtOptSpec DtConvSpec DtCommitSpec DtAddSpec DtTypes DtTypesSpec.
Local Open Scope nat_scope.

Section array.
Context `{AbiLaws} (Q : nat → Prop) (A : Prop).

(** ** Resized *)

Lemma resize_flags d lb extent : let f := d_flags (opal_datatype_resize d lb extent) in
  flag f OPAL_DATATYPE_FLAG_CONTIGUOUS = flag (d_flags d) OPAL_DATATYPE_FLAG_CONTIGUOUS ∧ flag f OPAL_DATATYPE_FLAG_PREDEFINED = flag (d_flags d) OPAL_DATATYPE_FLAG_PREDEFINED ∧
  flag f OPAL_DATATYPE_FLAG_COMMITTED = flag (d_flags d) OPAL_DATATYPE_FLAG_COMMITTED ∧ flag f OPAL_DATATYPE_FLAG_DATA = flag (d_flags d) OPAL_DATATYPE_FLAG_DATA ∧
  flag f OPAL_DATATYPE_FLAG_NO_GAPS = (extent =? Z.of_nat (d_size d))%Z && flag (d_flags d) OPAL_DATATYPE_FLAG_CONTIGUOUS.
Proof.
  intros f. unfold f, opal_datatype_resize. cbn [d_flags]. set (g := Z.lor (Z.lor (Z.ldiff (d_flags d) OPAL_DATATYPE_FLAG_NO_GAPS) OPAL_DATATYPE_FLAG_USER_LB) OPAL_DATATYPE_FLAG_USER_UB).
  assert (Hg : flag g OPAL_DATATYPE_FLAG_CONTIGUOUS = flag (d_flags d) OPAL_DATATYPE_FLAG_CONTIGUOUS) by (unfold g; masks; by rewrite !orb_false_r). rewrite Hg.
  destruct ((extent =? Z.of_nat (d_size d))%Z && flag (d_flags d) OPAL_DATATYPE_FLAG_CONTIGUOUS); unfold g; split_and!; masks; rewrite ?orb_true_r, ?orb_false_r; done.
Qed.

(** The bounds are the user's, the type map stays. *)
Lemma resize_type_ok d its lb extent : type_ok Q A false d its → flag (d_flags d) OPAL_DATATYPE_FLAG_PREDEFINED = false → type_ok Q A false (opal_datatype_resize d lb extent) its.
Proof.
  intros [T1 T2 T3 T4 T5 T6 T7 T8 T9] Hp. destruct (resize_flags d lb extent) as (F1 & F2 & F3 & F4 & F5). split; try done.
  - by rewrite F1.
  - rewrite F1, F5. intros [E%Z.eqb_eq Hct]%andb_prop. split; [done|]. unfold d_extent. cbn. lia.
  - by rewrite F2, Hp.
Qed.

Lemma resize_ok d its lb extent : base_ok Q A false d its → base_ok Q A false (opal_datatype_resize d lb extent) its.
Proof.
  intros [Ht He Hr Hp Hc Hi]. destruct (resize_flags d lb extent) as (_ & F2 & F3 & _ & _). split; [by apply resize_type_ok|done|done|by rewrite F2|by rewrite F3|done].
Qed.

(** Copies have no entries of their own kind: a copy of a basic datatype is no basic
    datatype. *)
Lemma duplicate_ok d its : old_ok Q A d its → ∃ d', ompi_datatype_duplicate d = Some d' ∧ old_ok Q A d' its ∧ flag (d_flags d') OPAL_DATATYPE_FLAG_PREDEFINED = false ∧ d_lb d' = d_lb d ∧ d_ub d' = d_ub d.
Proof.
  intros [Ht Hne Hi Hl]. unfold ompi_datatype_duplicate, opal_datatype_clone. cbn [opal_datatype_create desc_length]. replace ((length (desc d) =? 0) || (length (desc d) + 1 <=? length (desc d) + 2 + 1)) with true by (rewrite (proj2 (Nat.leb_le _ _)) by lia; by rewrite orb_true_r).
  cbn [guard mbind option_bind d_flags d_id bdt_used d_size true_lb true_ub d_lb d_ub nbElems d_align d_loops desc_length desc opt_desc]. eexists. split; [done|]. cbn [d_flags d_lb d_ub].
  set (f := Z.ldiff (Z.ldiff _ _) _). assert (F : flag f OPAL_DATATYPE_FLAG_PREDEFINED = false ∧ flag f OPAL_DATATYPE_FLAG_CONTIGUOUS = flag (d_flags d) OPAL_DATATYPE_FLAG_CONTIGUOUS ∧ flag f OPAL_DATATYPE_FLAG_NO_GAPS = flag (d_flags d) OPAL_DATATYPE_FLAG_NO_GAPS).
  { unfold f. split_and!; masks; done. }
  destruct F as (F1 & F2 & F3). split_and!; try done. split; try done. destruct Ht as [T1 T2 T3 T4 T5 T6 T7 T8 T9]. split; cbn [d_flags]; try done; rewrite ?F1, ?F2, ?F3; done.
Qed.

Lemma create_resized_ok d its lb extent : old_ok Q A d its → ∃ d', ompi_datatype_create_resized d lb extent = Some d' ∧ old_ok Q A d' its ∧ d_lb d' = lb ∧ d_ub d' = (lb + extent)%Z.
Proof.
  intros Ho. destruct (duplicate_ok d its Ho) as (d' & Hd & [Ht Hne Hi Hl] & Hp & _ & _). unfold ompi_datatype_create_resized. rewrite Hd. eexists. split; [done|]. split_and!; [|done|done]. split; try done. by apply resize_type_ok.
Qed.

(** ** Subarrays *)

(** The elements of a dimension from [start] on, [stride] bytes apart. *)
Definition dim_map (inner : list Z) (stride : Z) (start n : nat) : list Z := flat_map (λ j, Z.add (Z.of_nat (start + j) * stride) <$> inner) (seq 0 n).

(** The part of an array, from the dimension that varies fastest on. *)
Fixpoint subarray_map (inner : list Z) (stride : Z) (dims : list dimension) : list Z :=
  match dims with
  | [] => inner
  | dim :: dims => subarray_map (dim_map inner stride (dim_start dim) (dim_subsize dim)) (stride * Z.of_nat (dim_size dim)) dims
  end.

(** The same part at the origin, and how far it is from there. *)
Definition at_origin (dim : dimension) : dimension := mk_dimension (dim_size dim) (dim_subsize dim) 0.

Fixpoint subarray_offset (stride : Z) (dims : list dimension) : Z :=
  match dims with [] => 0 | dim :: dims => Z.of_nat (dim_start dim) * stride + subarray_offset (stride * Z.of_nat (dim_size dim)) dims end.

Lemma dim_map_shift inner stride start n c : dim_map (Z.add c <$> inner) stride start n = Z.add c <$> dim_map inner stride start n.
Proof. unfold dim_map. rewrite flat_map_fmap. apply flat_map_ext'. intros j _. rewrite <-!list_fmap_compose. apply list_fmap_ext. intros i a _. cbn. lia. Qed.

Lemma dim_map_start inner stride start n : dim_map inner stride start n = Z.add (Z.of_nat start * stride) <$> dim_map inner stride 0 n.
Proof. unfold dim_map. rewrite flat_map_fmap. apply flat_map_ext'. intros j _. rewrite <-list_fmap_compose. apply list_fmap_ext. intros i a _. cbn. lia. Qed.

Lemma subarray_map_shift dims inner stride c : subarray_map (Z.add c <$> inner) stride dims = Z.add c <$> subarray_map inner stride dims.
Proof. revert inner stride; induction dims as [|dim dims IH]; intros inner stride; [done|]. cbn [subarray_map]. by rewrite dim_map_shift, IH. Qed.

Lemma subarray_map_origin dims inner stride : subarray_map inner stride dims = Z.add (subarray_offset stride dims) <$> subarray_map inner stride (at_origin <$> dims).
Proof.
  revert inner stride; induction dims as [|dim dims IH]; intros inner stride; cbn [subarray_map subarray_offset fmap list_fmap at_origin dim_start dim_subsize dim_size].
  - rewrite <-(list_fmap_id inner) at 1. apply list_fmap_ext. intros i a _. done.
  - rewrite dim_map_start, subarray_map_shift, IH, <-list_fmap_compose. apply list_fmap_ext. intros i a _. cbn. lia.
Qed.

Lemma dim_map_loop its stride n : dim_map (items_map 0 its) stride 0 n = loop_map 0 stride 0 n its.
Proof. unfold dim_map, loop_map. apply flat_map_ext'. intros j _. by rewrite <-items_map_shift. Qed.

(** The elements of the part are among those of more dimensions. *)
Lemma subarray_map_first dims inner stride : Forall (λ dim, 0 < dim_subsize dim) dims → inner ⊆ subarray_map inner stride (at_origin <$> dims).
Proof.
  revert inner stride; induction dims as [|dim dims IH]; intros inner stride Hf; [done|]. apply Forall_cons in Hf as [Hd Hf]. cbn [fmap list_fmap subarray_map at_origin dim_start dim_subsize dim_size]. etrans; [|by apply IH].
  destruct (dim_subsize dim) as [|n]; [lia|]. unfold dim_map. cbn [seq flat_map]. intros a Ha. apply elem_of_app. left. apply list_elem_of_fmap. by exists a.
Qed.

(** The number of blocks, the elements of the part and of the array. *)
Fixpoint array_blocks (b : nat) (dims : list dimension) : nat := match dims with [] => b | dim :: dims => array_blocks (dim_subsize dim * S (1 * S b)) dims end.
Definition part_size (dims : list dimension) : nat := foldr (λ dim k, dim_subsize dim * k) 1 dims.
Definition array_size (dims : list dimension) : Z := foldr (λ dim k, Z.of_nat (dim_size dim) * k)%Z 1%Z dims.

(** Lengths are positive [int]s. *)
Definition dim_ok (dim : dimension) : Prop := 0 < dim_size dim ∧ 0 < dim_subsize dim ∧ (Z.of_nat (dim_subsize dim) < 2 ^ 31)%Z.

Lemma array_blocks_mono b b' dims : b ≤ b' → array_blocks b dims ≤ array_blocks b' dims.
Proof. revert b b'; induction dims as [|dim dims IH]; intros b b' Hb; [done|]. cbn [array_blocks]. apply IH. nia. Qed.

Lemma array_blocks_le b dims : Forall dim_ok dims → b ≤ array_blocks b dims.
Proof. revert b; induction dims as [|dim dims IH]; intros b Hf; [done|]. apply Forall_cons in Hf as [(_ & Hd & _) Hf]. cbn [array_blocks]. etrans; [|by apply IH]. nia. Qed.

Lemma part_size_pos dims : Forall dim_ok dims → 0 < part_size dims.
Proof. induction 1 as [|dim dims (_ & Hd & _) _ IH]; [cbn; lia|]. unfold part_size in *. cbn [foldr]. nia. Qed.

Lemma subarray_loop_ok ext dims : (0 < ext)%Z → ∀ d its size displ, old_ok Q A d its → flag (d_flags d) OPAL_DATATYPE_FLAG_PREDEFINED = false → (0 < size)%Z → Forall dim_ok dims → (Z.of_nat (array_blocks (block_count its) dims) < 2 ^ 32)%Z →
  (Z.of_nat (length (desc d) + 4 * length dims) < 2 ^ 32 - 3)%Z → (Z.of_nat (part_size dims * d_size d) < 2 ^ 64)%Z → near (subarray_map (items_map 0 its) (size * ext) (at_origin <$> dims)) → (A → aligned_to its ext) →
  ∃ d' new, subarray_loop ext d size displ dims = Some (d', (size * array_size dims)%Z, (displ + subarray_offset size dims)%Z) ∧ old_ok Q A d' new ∧ flag (d_flags d') OPAL_DATATYPE_FLAG_PREDEFINED = false ∧
    items_map 0 new = subarray_map (items_map 0 its) (size * ext) (at_origin <$> dims) ∧ block_count new ≤ array_blocks (block_count its) dims ∧ d_size d' = part_size dims * d_size d ∧ types_in new its.
Proof.
  intros Hext. induction dims as [|dim dims IH]; intros d its size displ Ho Hpre Hs Hf Hbl Hen Hsz Hnear Hal.
  - cbn [subarray_loop subarray_offset fmap list_fmap subarray_map]. exists d, its. unfold array_size, part_size. cbn [foldr]. rewrite Z.mul_1_r, Z.add_0_r, Nat.mul_1_l. split_and!; try done. intros e He. by exists e.
  - apply Forall_cons in Hf as [(Hd1 & Hd2 & Hd3) Hf]. cbn [subarray_loop array_blocks length fmap list_fmap subarray_map at_origin dim_start dim_subsize dim_size subarray_offset] in *. rewrite dim_map_loop in *.
    assert (Hb : block_count its ≤ dim_subsize dim * S (1 * S (block_count its))) by nia. pose proof (array_blocks_le (dim_subsize dim * S (1 * S (block_count its))) dims Hf) as Hle. pose proof (part_size_pos dims Hf) as Hpp.
    change (part_size (dim :: dims)) with (dim_subsize dim * part_size dims) in *. change (array_size (dim :: dims)) with (Z.of_nat (dim_size dim) * array_size dims)%Z.
    destruct (create_hvector_ok Q A d its (dim_subsize dim) 1 (size * ext)) as (t & body & n & Ht & Hn & Hbuilt); [|nia|lia|].
    + split; try done; [lia|lia|lia|nia| |].
      * rewrite <-vector_map_1. intros a Ha. eapply Hnear, subarray_map_first; [|done]. eapply Forall_impl; [exact Hf|]. by intros ? (_ & ? & _).
      * intros HA. split; [done|]. intros e He. apply Z.divide_mul_r. by apply Hal.
    + rewrite Ht. cbn [mbind option_bind]. pose proof Hbuilt as [B1 B2 B3 B4 B5 B6]. rewrite <-vector_map_1 in B2.
      assert (Hne : loop_map 0 (size * ext) 0 (dim_subsize dim) its ≠ []).
      { intros E%(f_equal length). rewrite loop_map_length in E. pose proof (src_items_nil Q A false its (ty_items _ _ _ _ _ (od_type _ _ _ _ Ho)) (od_data _ _ _ _ Ho)). destruct (items_map 0 its); [done|]. cbn in E. nia. }
      assert (Hst : d_size t = dim_subsize dim * d_size d) by (rewrite (ty_size _ _ _ _ _ (ba_type _ _ _ _ _ B1)), B2, loop_map_length, <-(ty_size _ _ _ _ _ (od_type _ _ _ _ Ho)); done).
      destruct (IH t body (size * Z.of_nat (dim_size dim))%Z (displ + size * Z.of_nat (dim_start dim))%Z) as (d' & new & Hl & Hod & Hp & Hm & Hblk & Hsd & Hty).
      * rewrite <-vector_map_1 in Hbuilt. eapply built_old; [done|done|lia].
      * apply B1.
      * nia.
      * done.
      * pose proof (array_blocks_mono _ _ dims B3). lia.
      * lia.
      * rewrite Hst. replace (part_size dims * (dim_subsize dim * d_size d)) with (dim_subsize dim * part_size dims * d_size d) by lia. done.
      * rewrite B2. replace (size * Z.of_nat (dim_size dim) * ext)%Z with (size * ext * Z.of_nat (dim_size dim))%Z by lia. done.
      * intros HA. eapply aligned_types; [done|]. by apply Hal.
      * exists d', new. rewrite Hl, Hm, B2, Hsd, Hst. pose proof (array_blocks_mono _ _ dims B3). replace (size * Z.of_nat (dim_size dim) * ext)%Z with (size * ext * Z.of_nat (dim_size dim))%Z by lia.
        split_and!; try done; [|lia|lia|by eapply types_in_trans]. do 2 f_equal; [f_equal; lia|]. lia.
Qed.

Lemma subarray_offset_scale s ext dims : subarray_offset (s * ext) dims = (subarray_offset s dims * ext)%Z.
Proof. revert s; induction dims as [|dim dims IH]; intros s; [done|]. cbn [subarray_offset]. replace (s * ext * Z.of_nat (dim_size dim))%Z with (s * Z.of_nat (dim_size dim) * ext)%Z by lia. rewrite IH. lia. Qed.

Lemma vector_map_dims its ext stride n m : vector_map its ext stride n m = dim_map (dim_map (items_map 0 its) ext 0 m) stride 0 n.
Proof. unfold vector_map, dim_map at 1. apply flat_map_ext'. intros j _. by rewrite dim_map_loop, <-loop_map_base. Qed.

Lemma vector_map_length its ext stride n m : length (vector_map its ext stride n m) = n * m * length (items_map 0 its).
Proof. unfold vector_map. generalize 0 at 2. induction n as [|n IH]; intros k; [done|]. cbn [seq flat_map]. rewrite length_app, loop_map_length, IH. lia. Qed.

Lemma subarray_map_length dims inner stride : length (subarray_map inner stride dims) = part_size dims * length inner.
Proof.
  revert inner stride; induction dims as [|dim dims IH]; intros inner stride; [cbn; lia|]. cbn [subarray_map]. rewrite IH. change (part_size (dim :: dims)) with (dim_subsize dim * part_size dims).
  assert (length (dim_map inner stride (dim_start dim) (dim_subsize dim)) = dim_subsize dim * length inner) as ->; [|lia]. unfold dim_map. generalize 0 at 1. induction (dim_subsize dim) as [|n IHn]; intros k; [done|]. cbn [seq flat_map]. rewrite length_app, length_fmap, IHn. lia.
Qed.

Lemma array_size_pos dims : Forall dim_ok dims → (0 < array_size dims)%Z.
Proof. induction 1 as [|dim dims (Hd & _ & _) _ IH]; [done|]. unfold array_size in *. cbn [foldr]. nia. Qed.

(** The conditions on a part of an array, with its dimensions from the one that varies
    fastest on. *)
Record array_ok (d : opal_datatype_t) (its : list item) (dims : list dimension) : Prop := {
  ao_old : old_ok Q A d its;
  ao_dims : Forall dim_ok dims;
  ao_extent : (0 < d_extent d)%Z;
  ao_blocks : (Z.of_nat (S (array_blocks (block_count its) dims)) < 2 ^ 32)%Z;
  ao_entries : (Z.of_nat (length (desc d) + 4 * length dims) < 2 ^ 32 - 3)%Z;
  ao_size : (Z.of_nat (part_size dims * d_size d) < 2 ^ 64)%Z;
  ao_near : near (subarray_map (items_map 0 its) (d_extent d) dims) ∧ near (subarray_map (items_map 0 its) (d_extent d) (at_origin <$> dims));
  ao_aligned : A → aligned_to its (d_extent d);
}.

(** The first dimensions. *)
Definition subarray_start (dims : list dimension) (oldtype : opal_datatype_t) : option (opal_datatype_t * Z * Z) :=
  match dims with
  | [] => None
  | [dim1] => last_type ← ompi_datatype_create_contiguous (dim_subsize dim1) oldtype; Some (last_type, Z.of_nat (dim_size dim1), Z.of_nat (dim_start dim1))
  | dim1 :: dim2 :: dims =>
      newtype ← ompi_datatype_create_vector (dim_subsize dim2) (dim_subsize dim1) (Z.of_nat (dim_size dim1)) oldtype;
      subarray_loop (d_extent oldtype) newtype (Z.of_nat (dim_size dim1) * Z.of_nat (dim_size dim2)) (Z.of_nat (dim_start dim1) + Z.of_nat (dim_start dim2) * Z.of_nat (dim_size dim1)) dims
  end.

Lemma built_flags d its m k n old : built Q A d its m k n old → flag (d_flags d) OPAL_DATATYPE_FLAG_PREDEFINED = false.
Proof. intros Hb. apply (ba_predefined _ _ _ _ _ (bu_base _ _ _ _ _ _ _ _ Hb)). Qed.

Lemma built_size d its m k n old : built Q A d its m k n old → d_size d = length m.
Proof. intros [B1 B2 _ _ _ _]. by rewrite (ty_size _ _ _ _ _ (ba_type _ _ _ _ _ B1)), B2. Qed.

Lemma loop_map_nil d its b x n : old_ok Q A d its → 0 < n → loop_map b x 0 n its ≠ [].
Proof.
  intros Ho Hn E%(f_equal length). rewrite loop_map_length in E. pose proof (src_items_nil Q A false its (ty_items _ _ _ _ _ (od_type _ _ _ _ Ho)) (od_data _ _ _ _ Ho)). destruct (items_map 0 its); [done|]. cbn in E. nia.
Qed.

Lemma subarray_start_ok d its dims : array_ok d its dims → dims ≠ [] → ∃ t new, subarray_start dims d = Some (t, array_size dims, subarray_offset 1 dims) ∧ old_ok Q A t new ∧ flag (d_flags t) OPAL_DATATYPE_FLAG_PREDEFINED = false ∧
  items_map 0 new = subarray_map (items_map 0 its) (d_extent d) (at_origin <$> dims) ∧ block_count new ≤ array_blocks (block_count its) dims ∧ d_size t = part_size dims * d_size d ∧ types_in new its.
Proof.
  intros [Ho Hf Hext Hbl Hen Hsz [_ Hnear] Hal] Hne. pose proof (ty_size _ _ _ _ _ (od_type _ _ _ _ Ho)) as Hds. destruct dims as [|dim1 dims]; [done|]. apply Forall_cons in Hf as [(Hs1 & Hb1 & Hi1) Hf]. destruct dims as [|dim2 dims].
  - cbn [subarray_start array_blocks length fmap list_fmap subarray_map at_origin dim_start dim_subsize dim_size subarray_offset] in *. unfold part_size, array_size in *. cbn [foldr] in *. rewrite dim_map_loop in *.
    destruct (create_contiguous_ok Q A d its (dim_subsize dim1)) as (t & new & Ht & Hbuilt).
    + split; try done; [lia|lia|lia|lia| |].
      * by rewrite <-vector_map_contiguous, Nat.mul_1_l by (by right).
      * intros HA. split; [intros _|]; by apply Hal.
    + rewrite Ht. cbn [mbind option_bind]. exists t, new. pose proof (built_size _ _ _ _ _ _ Hbuilt) as Hst. rewrite loop_map_length, <-Hds in Hst. split_and!; [|eapply built_old; [done|by eapply loop_map_nil|lia]|by eapply built_flags|by apply Hbuilt|pose proof (bu_blocks _ _ _ _ _ _ _ _ Hbuilt); nia|lia|by apply Hbuilt]. do 2 f_equal; [f_equal; lia|lia].
  - apply Forall_cons in Hf as [(Hs2 & Hb2 & Hi2) Hf]. cbn [subarray_start array_blocks length fmap list_fmap subarray_map at_origin dim_start dim_subsize dim_size subarray_offset] in *. rewrite <-vector_map_dims in *.
    pose proof (array_blocks_le (dim_subsize dim2 * S (1 * S (dim_subsize dim1 * S (1 * S (block_count its))))) dims Hf) as Hle. pose proof (part_size_pos dims Hf) as Hpp.
    change (part_size (dim1 :: dim2 :: dims)) with (dim_subsize dim1 * (dim_subsize dim2 * part_size dims)) in *. change (array_size (dim1 :: dim2 :: dims)) with (Z.of_nat (dim_size dim1) * (Z.of_nat (dim_size dim2) * array_size dims))%Z.
    destruct (create_vector_ok Q A d its (dim_subsize dim2) (dim_subsize dim1) (Z.of_nat (dim_size dim1))) as (t & body & n & Ht & Hn & Hbuilt); [|nia|].
    + split; try done; [nia|lia|nia| |].
      * intros a Ha. eapply Hnear, subarray_map_first; [|done]. eapply Forall_impl; [exact Hf|]. by intros ? (_ & ? & _).
      * intros HA. split; [intros _; by apply Hal|]. intros e He. apply Z.divide_mul_l. by apply Hal.
    + rewrite Ht. cbn [mbind option_bind]. pose proof Hbuilt as [B1 B2 B3 B4 B5 B6]. pose proof (built_size _ _ _ _ _ _ Hbuilt) as Hst. rewrite vector_map_length, <-Hds in Hst.
      assert (Hvn : vector_map its (d_extent d) (d_extent d * Z.of_nat (dim_size dim1)) (dim_subsize dim2) (dim_subsize dim1) ≠ []).
      { intros E%(f_equal length). rewrite vector_map_length, <-Hds in E. pose proof (old_size Q A _ _ Ho). cbn in E. nia. }
      assert (Hbm := array_blocks_mono (block_count body) (dim_subsize dim2 * S (1 * S (dim_subsize dim1 * S (1 * S (block_count its))))) dims ltac:(nia)).
      destruct (subarray_loop_ok (d_extent d) dims Hext t body (Z.of_nat (dim_size dim1) * Z.of_nat (dim_size dim2)) (Z.of_nat (dim_start dim1) + Z.of_nat (dim_start dim2) * Z.of_nat (dim_size dim1))) as (d' & new & Hl & Hod & Hp & Hm & Hblk & Hsd & Hty);
        [eapply built_old; [done|done|lia]|by eapply built_flags|nia|done|lia|lia|rewrite Hst; by replace (part_size dims * (dim_subsize dim2 * dim_subsize dim1 * d_size d)) with (dim_subsize dim1 * (dim_subsize dim2 * part_size dims) * d_size d) by lia| | |].
      * rewrite B2. replace (Z.of_nat (dim_size dim1) * Z.of_nat (dim_size dim2) * d_extent d)%Z with (d_extent d * Z.of_nat (dim_size dim1) * Z.of_nat (dim_size dim2))%Z by lia. done.
      * intros HA. eapply aligned_types; [done|by apply Hal].
      * exists d', new. rewrite Hl, Hm, B2, Hsd, Hst. replace (Z.of_nat (dim_size dim1) * Z.of_nat (dim_size dim2) * d_extent d)%Z with (d_extent d * Z.of_nat (dim_size dim1) * Z.of_nat (dim_size dim2))%Z by lia.
        split_and!; try done; [|lia|lia|by eapply types_in_trans]. do 2 f_equal; [f_equal; lia|]. rewrite !Z.mul_1_l, Z.mul_1_r. lia.
Qed.

Lemma create_subarray_ok d its dims order : let ordered := match order with MPI_ORDER_C => reverse dims | MPI_ORDER_FORTRAN => dims end in array_ok d its ordered → dims ≠ [] →
  ∃ d' new n, ompi_datatype_create_subarray dims order d = Some d' ∧ built Q A d' new (subarray_map (items_map 0 its) (d_extent d) ordered) (S (array_blocks (block_count its) ordered)) n its ∧
    d_lb d' = 0%Z ∧ d_ub d' = (array_size ordered * d_extent d)%Z.
Proof.
  intros ordered Hok Hne. assert (Hno : ordered ≠ []) by (unfold ordered; destruct order; [|done]; intros E%(f_equal reverse); rewrite reverse_involutive in E; done). 
  destruct (subarray_start_ok d its ordered Hok Hno) as (t & new & Hs & Ho & Hp & Hm & Hblk & Hst & Hty). destruct Hok as [Hold Hdims Hext Hbl Hen Hsz [Hnear _] Hal].
  assert (Hmap : loop_map (subarray_offset 1 ordered * d_extent d) (array_size ordered * d_extent d) 0 1 new = subarray_map (items_map 0 its) (d_extent d) ordered).
  { unfold loop_map. cbn [seq flat_map]. rewrite app_nil_r, Z.mul_0_l, Z.add_0_r, items_map_base, Hm, (subarray_map_origin ordered), <-subarray_offset_scale, Z.mul_1_l. done. }
  destruct (build_once Q A t new 1 (subarray_offset 1 ordered * d_extent d) (array_size ordered * d_extent d) (length (desc t))) as (d' & new' & Hadd & Hbuilt); try done; try lia.
  - by rewrite Hp.
  - pose proof (array_size_pos ordered Hdims). nia.
  - intros HA. eapply aligned_types; [done|]. intros e He. apply Z.divide_mul_r. by apply Hal.
  - by rewrite Hmap.
  - rewrite Nat.eqb_refl. lia.
  - assert (Hstart : ompi_datatype_create_subarray dims order d = '(last_type, size, displ) ← subarray_start ordered d; d0 ← ompi_datatype_add (opal_datatype_create (Some (length (desc last_type)))) last_type 1 (displ * d_extent d) (size * d_extent d);
      Some (opal_datatype_resize d0 0 (size * d_extent d))) by (unfold ompi_datatype_create_subarray; fold ordered; destruct ordered as [|dim1 [|dim2 ds]]; done).
    rewrite Hstart, Hs. cbn [mbind option_bind]. rewrite Hadd. cbn [mbind option_bind]. eexists _, new', _. split; [done|]. destruct Hbuilt as [B1 B2 B3 B4 B5 B6]. split_and!; [|done|cbn; lia].
    split; [by apply resize_ok|by rewrite B2, Hmap|lia|exact B4|exact B5|by eapply types_in_trans].
Qed.

End array.
End DtArraySpec.
