(* ===== verification/DtSendSpec.v ===== *)
(** * Packing with a convertor *)

From stdpp Require Import base numbers list gmap.
From S2P Require Import Prelude DtDesc DtWalk DtCopy DtMap DtWalkSpec DtCopySpec DtPackSpec DtConv DtContigSpec DtConvSpec.

Module DtSendSpec.
Import DtDesc DtWalk DtPack DtMap DtWalkSpec DtCopySpec DtPackSpec DtUnpackSpec DtConv DtContigSpec DtConvSpec.
Local Open Scope nat_scope.

Section send.
Context `{AbiLaws}.

(** A basic element of [M] bytes fits every entry. *)
Definition basic_bound (M : nat) (d : opal_datatype_t) : Prop := 0 < M ∧ ∀ e, Elem e ∈ opt_desc d → basic_size (e_type e) ≤ M.

(** A convertor that has the bytes [R] to go. *)
Definition pack_state (m : memory) (c : opal_convertor_t) (d : opal_datatype_t) (its : list item) (R : list Z) : Prop :=
  if flag (c_flags c) CONVERTOR_NO_OP then
    flag (d_flags d) OPAL_DATATYPE_FLAG_CONTIGUOUS = true ∧ R = seqZ (pBaseBuf c + Z.of_nat (bConverted c) + true_lb d) (Z.of_nat (length R))
  else match fAdvance c with
  | Some opal_pack_homogeneous_contig => flag (d_flags d) OPAL_DATATYPE_FLAG_CONTIGUOUS = true ∧
      ∃ s1 s0, pStack c = [s1; s0] ∧ R = seqZ (pBaseBuf c + true_lb d + s_disp s0 + s_disp s1) (Z.of_nat (length R))
  | Some opal_pack_homogeneous_contig_with_gaps => flag (d_flags d) OPAL_DATATYPE_FLAG_CONTIGUOUS = true ∧ Z.of_nat (d_size d) ≠ d_extent d ∧
      ∃ s1 s0, pStack c = [s1; s0] ∧ gaps_ok d (count_bytes s1) s0 ∧ R = gaps_left d (pBaseBuf c) (count_bytes s1) s0
  | Some opal_generic_simple_pack => flag (d_flags d) OPAL_DATATYPE_FLAG_CONTIGUOUS = false ∧ 1 + depth its < stack_size c ∧
      conv_ok (H1 := packing_laws (flag (c_flags c) CONVERTOR_ACCELERATOR)) (opt_desc d) its (d_extent d) (stack_size c) (pBaseBuf c) (remote_size c) (pStack c) (bConverted c) (no_buffer m) R
  | _ => False
  end.

Record sending (m : memory) (c : opal_convertor_t) (d : opal_datatype_t) (its : list item) (R : list Z) : Prop := {
  sd_desc : pDesc c = Some d;
  sd_ok : dt_ok d its;
  sd_total : bConverted c + length R = local_size c;
  sd_mapped : mapped_in m R;
  sd_state : if flag (c_flags c) CONVERTOR_COMPLETED then R = [] else R ≠ [] ∧ pack_state m c d its R;
}.

(** ** The start *)

(** The function that is chosen. *)
Definition send_advance (d : opal_datatype_t) (count : nat) : advance :=
  if flag (d_flags d) OPAL_DATATYPE_FLAG_CONTIGUOUS then
    if (d_extent d =? Z.of_nat (d_size d))%Z || (count <=? 1) then opal_pack_homogeneous_contig else opal_pack_homogeneous_contig_with_gaps
  else opal_generic_simple_pack.

Lemma prepare_for_send_cases check_addr c d its count buf : dt_ok d its → stack_size c = DT_STATIC_STACK_SIZE → (Z.of_nat (count * d_size d) < 2 ^ 64)%Z →
  ∃ c0 returned c1, prepared c0 d count buf returned c1 ∧ c_partial_length c0 = c_partial_length c ∧ flag (c_flags c0) CONVERTOR_SEND = true ∧
    flag (c_flags c0) CONVERTOR_WITH_CHECKSUM = flag (c_flags c) CONVERTOR_WITH_CHECKSUM ∧
    opal_convertor_prepare_for_send check_addr c d count buf = Some (if returned then c1 else set_advance (send_advance d count) c1).
Proof.
  intros Hd Hss Hsz. unfold opal_convertor_prepare_for_send. set (c0 := if flag _ _ then _ else _).
  assert (Hc0 : stack_size c0 = DT_STATIC_STACK_SIZE ∧ c_partial_length c0 = c_partial_length c ∧ flag (c_flags c0) CONVERTOR_SEND = true ∧
    flag (c_flags c0) CONVERTOR_WITH_CHECKSUM = flag (c_flags c) CONVERTOR_WITH_CHECKSUM).
  { unfold c0, opal_convertor_accelerator_init. destruct (check_addr buf) as [dv un].
    destruct (flag _ CONVERTOR_SKIP_ACCELERATOR_INIT), dv, un; cbn [add_flags set_flags c_flags stack_size c_partial_length]; rewrite !flag_lor; (split_and!; [done|done|by destruct (flag (c_flags c) CONVERTOR_SEND)|]);
      by destruct (flag (c_flags c) CONVERTOR_WITH_CHECKSUM). }
  clearbody c0. destruct Hc0 as (Hss0 & Hpl0 & Hsnd0 & Hcs0). destruct (prepare_ok c0 d its count buf Hd Hss0 Hsz) as (returned & c1 & -> & Hp). cbn [mbind option_bind].
  exists c0, returned, c1. split_and!; [done|done|done|done|]. f_equal. destruct Hp as [c1 ? ? ? ? ?|f ? ? ? ? ? ? ?|f s ? ? ? ? Hho ? ? ?]; [done|done|]. cbn [c_flags c_count]. rewrite Hho, andb_false_r. unfold send_advance.
  destruct (flag (d_flags d) OPAL_DATATYPE_FLAG_CONTIGUOUS); [|done]. by destruct (_ || _).
Qed.

Lemma prepare_for_send_ok check_addr m c d its count buf : dt_ok d its → stack_size c = DT_STATIC_STACK_SIZE → (Z.of_nat (count * d_size d) < 2 ^ 64)%Z →
  (Z.of_nat (count * S (work its)) < 2 ^ 64)%Z → mapped_in m (type_map d its buf count) →
  ∃ c', opal_convertor_prepare_for_send check_addr c d count buf = Some c' ∧ sending m c' d its (type_map d its buf count) ∧ bConverted c' = 0.
Proof.
  intros Hd Hss Hsz HW Hm. destruct (prepare_for_send_cases check_addr c d its count buf Hd Hss Hsz) as (c0 & returned & c' & Hp & _ & _ & _ & ->). pose proof (type_map_length d its buf count Hd) as Hlen.
  destruct Hp as [c' Hz Hdesc Hl Hb Hcp|f Hz Hct Hx Hcp Hno Hho Hfl|f s Hz Hs Hcp Hno Hho Hfl Hng Hsnd].
  - exists c'. split; [done|]. split; [|done]. split; [done|done|lia|done|]. rewrite Hcp. apply nil_length_inv. lia.
  - eexists. split; [done|]. split; [|done]. split; [done|done|cbn [bConverted local_size]; lia|done|]. cbn [c_flags]. rewrite Hcp. split; [intros E; rewrite E in Hlen; cbn in Hlen; lia|].
    unfold pack_state. cbn [c_flags pBaseBuf bConverted]. rewrite Hno, Hlen. split; [done|]. rewrite (type_map_elements _ _ _ _ Hd Hct), elements_contiguous by done. f_equal. lia.
  - unfold send_advance. set (R := type_map d its buf count) in *. assert (HR : R ≠ []) by (intros E; rewrite E in Hlen; cbn in Hlen; lia).
    assert (Hwrap : ∀ a, pack_state m (set_advance a (mk_convertor f (count * d_size d) (count * d_size d) (Some d) count (DT_STATIC_STACK_SIZE `max` (d_loops d + 1)) buf s (fAdvance c0) 0 0)) d its R →
      sending m (set_advance a (mk_convertor f (count * d_size d) (count * d_size d) (Some d) count (DT_STATIC_STACK_SIZE `max` (d_loops d + 1)) buf s (fAdvance c0) 0 0)) d its R).
    { intros a Ha. split; [done|done|cbn [set_advance bConverted local_size]; lia|done|]. cbn [set_advance c_flags]. by rewrite Hcp. }
    destruct (flag (d_flags d) OPAL_DATATYPE_FLAG_CONTIGUOUS) eqn:Hct.
    + destruct (contiguous_stack d its count buf s Hd Hct ltac:(nia) ltac:(nia) Hs) as (s1 & s0 & -> & Hd1 & Hd0 & Hg & HgR).
      destruct ((d_extent d =? Z.of_nat (d_size d))%Z || (count <=? 1)) eqn:E; (eexists; split; [done|]; split; [|done]); apply Hwrap; unfold pack_state; cbn [set_advance c_flags fAdvance pStack pBaseBuf];
        rewrite Hno; (split; [done|]).
      * exists s1, s0. split; [done|]. rewrite Hlen, Hd1, Hd0, !Z.add_0_r. unfold R. rewrite (type_map_elements _ _ _ _ Hd Hct), elements_contiguous; [done|].
        apply orb_true_iff in E as [E%Z.eqb_eq|E%Nat.leb_le]; auto.
      * apply orb_false_iff in E as [E%Z.eqb_neq _]. split; [done|]. by exists s1, s0.
    + eexists. split; [done|]. split; [|done]. apply Hwrap. unfold pack_state. cbn [set_advance c_flags fAdvance pStack pBaseBuf stack_size local_size remote_size bConverted]. rewrite Hno. split; [done|]. split; [by apply Hd|].
      destruct (create_stack_ok (H1 := packing_laws (flag f CONVERTOR_ACCELERATOR)) (opt_desc d) its (d_extent d) (DT_STATIC_STACK_SIZE `max` (d_loops d + 1)) buf
        (dk_desc _ _ Hd) (dk_items _ _ Hd) (dk_depth _ _ Hd) count (no_buffer m) R) as (s' & Hs' & Hc); try done; [|nia|].
      { intros ->. rewrite (dk_size _ _ Hd) in Hz. cbn in Hz. lia. }
      rewrite Hs in Hs'. injection Hs' as <-. by rewrite Hlen in Hc.
Qed.

(** ** Any data *)

Definition all_buffers (io : packing) : list (list byte) := reverse (pk_out io :: pk_before io).

Definition copied_to (i : Z * nat) : iovec_t := (Some i.1, i.2).

Lemma runs_packs accelerator M d io R ls io' R' (iov : list (Z * nat)) : basic_bound M d →
  runs (H1 := packing_laws accelerator) (opt_desc d) io R ls io' R' → ls.*1 = take (length ls) iov → (R' ≠ [] → length ls = length iov) →
  ∃ bss, all_buffers io' = all_buffers io ++ bss ∧ pk_mem io' = pk_mem io ∧ packs M (pk_mem io) R (copied_to <$> iov) (Copied <$> bss) (length R - length R').
Proof.
  intros [HM Hb] Hr. revert iov. induction Hr as [io R|io R i k io1 ls io' R' e Hk Hmv He Hcl Hbig Hr IH|io R i io1 Hmv]; intros iov Hls Hlen.
  - exists []. rewrite app_nil_r, Nat.sub_diag. split_and!; [done|done|]. destruct R as [|a R]; [apply packs_stop|]. specialize (Hlen ltac:(done)). destruct iov; [|done]. apply packs_nil.
  - destruct iov as [|i' iov]; [done|]. cbn [length take] in Hls. rewrite fmap_cons in Hls. injection Hls as -> Hls.
    destruct (IH iov Hls) as (bss & Hall & Hmem & Hp). { intros HR. specialize (Hlen HR). by injection Hlen. }
    pose proof (runs_split _ _ _ _ _ _ Hr) as Hsplit. apply (f_equal length) in Hsplit. rewrite length_app, length_drop in Hsplit.
    destruct Hmv as (bs & Hbs & Hsp & ->). cbn [pk_mem begin_iov packing_copy emit pk_space] in *. exists (bs :: bss). split_and!.
    + rewrite Hall. unfold all_buffers. cbn [emit pk_out pk_before begin_iov packing_copy app]. by rewrite (reverse_cons (pk_out io :: pk_before io)), <-app_assoc.
    + done.
    + replace (length R - length R') with (k + (length (drop k R) - length R')) by (rewrite length_drop; lia). rewrite length_take_le in Hsp by lia. pose proof (length_mapM _ _ _ Hbs) as Hlb. rewrite length_take_le in Hlb by lia.
      cbn [closed packing_laws pk_space emit pending] in Hcl, Hbig. rewrite length_drop in Hbig. specialize (Hb e He). cbn [fmap list_fmap].
      eapply packs_cons; [lia|done|done|cbn; lia|intros _; cbn [copied_to snd]; lia|done|exact Hp].
  - destruct Hmv as (bs & Hbs & Hsp & ->). destruct iov as [|i' iov]; [done|]. cbn [length take] in Hls. rewrite fmap_cons in Hls. injection Hls as ->.
    cbn [pk_mem begin_iov packing_copy emit pk_space] in *. exists [bs]. split_and!; [|done|].
    + unfold all_buffers. cbn [emit pk_out pk_before begin_iov packing_copy app]. by rewrite (reverse_cons (pk_out io :: pk_before io)).
    + pose proof (length_mapM _ _ _ Hbs) as Hlb. cbn [length]. rewrite Nat.sub_0_r, <-(Nat.add_0_r (length R)). cbn [fmap list_fmap].
      eapply packs_cons; [done|done|by rewrite firstn_all|cbn; lia|lia|done|]. rewrite drop_all. apply packs_stop.
Qed.

Lemma simple_pack_ok M m c d its R iov : basic_bound M d → sending m c d its R → flag (c_flags c) CONVERTOR_COMPLETED = false → flag (c_flags c) CONVERTOR_NO_OP = false →
  fAdvance c = Some opal_generic_simple_pack → Forall (λ i : iovec_t, is_Some i.1) iov →
  ∃ r k, generic_simple_pack m c iov = Some r ∧ pc_max_data r = k ∧ pc_completed r = bool_decide (k = length R) ∧ packs M m R iov (pc_iov r) k ∧ sending m (pc_conv r) d its (drop k R) ∧
    bConverted (pc_conv r) = bConverted c + k.
Proof.
  intros HM [Hdesc Hd Htot Hm Hst] Hcp Hno Hadv Hiov. rewrite Hcp in Hst. destruct Hst as [HRne Hst]. unfold pack_state in Hst. rewrite Hno, Hadv in Hst. destruct Hst as (Hnc & Hdep & Hst).
  unfold generic_simple_pack. rewrite Hdesc. cbn [mbind option_bind].
  assert (Hz : ∃ iov', with_bases iov = Some iov' ∧ iov = copied_to <$> iov').
  { clear -Hiov. induction Hiov as [|[b n] iov [a Ha] _ (iov' & IH & ->)]; [by exists []|]. cbn in Ha. subst b. exists ((a, n) :: iov'). unfold with_bases in *. cbn. rewrite IH. done. }
  destruct Hz as (iov' & Hz & ->). rewrite Hz. cbn [mbind option_bind].
  destruct (generic_simple_ok (H1 := packing_laws (flag (c_flags c) CONVERTOR_ACCELERATOR)) (opt_desc d) its (d_extent d) (stack_size c) (pBaseBuf c) (dk_desc _ _ Hd) ltac:(done) (dk_items _ _ Hd) Hdep
    (remote_size c) (pStack c) (bConverted c) (no_buffer m) R iov' Hst) as (s' & n' & io' & ls & R' & -> & Hls & Hruns & Hle & -> & Hrest). cbn [mbind option_bind].
  destruct (runs_packs _ M d _ _ _ _ _ iov' HM Hruns Hls ltac:(intros HR'; by apply Hrest)) as (bss & Hall & Hmem & Hp). cbn [no_buffer pk_mem] in Hmem, Hp.
  pose proof (runs_split _ _ _ _ _ _ Hruns) as Hsplit. assert (HR' : drop (length R - length R') R = R').
  { rewrite Hsplit at 2. rewrite Hsplit at 1. rewrite length_app, Nat.add_sub, drop_app_length. done. }
  assert (Hbuf : buffers io' = bss) by (unfold buffers; change (reverse _) with (all_buffers io'); rewrite Hall; done). rewrite Hbuf.
  eexists _, (length R - length R'). split; [done|]. cbn [pc_max_data pc_completed pc_iov pc_conv]. rewrite HR'.
  assert (Hiff : bool_decide (R' = []) = bool_decide (length R - length R' = length R)).
  { apply bool_decide_ext. assert (length R ≠ 0) by (destruct R; done). split; [intros ->; cbn; lia|]. intros E. apply nil_length_inv. lia. }
  split_and!; [done|done|done| |].
  - assert (Hm' : mapped_in m R') by (rewrite <-HR'; by apply mapped_drop). unfold after_walk. destruct (decide (R' = [])) as [E|E].
    + rewrite bool_decide_eq_true_2 by done. split; [done|done|cbn [add_flags set_flags set_stack bConverted local_size]; lia|done|]. cbn [add_flags set_flags set_stack c_flags].
      rewrite flag_lor. change (flag CONVERTOR_COMPLETED CONVERTOR_COMPLETED) with true. by rewrite orb_true_r.
    + rewrite bool_decide_eq_false_2 by done. split; [done|done|cbn [set_stack bConverted local_size]; lia|done|]. cbn [set_stack c_flags]. rewrite Hcp. split; [done|].
      unfold pack_state. cbn [set_stack c_flags fAdvance stack_size pBaseBuf local_size remote_size pStack bConverted]. rewrite Hno, Hadv. split; [done|]. split; [done|].
      destruct (Hrest E) as [Hok _]. refine (conv_ok_io _ _ _ _ _ _ _ _ io' _ _ _ _ Hok); [done|]. intros a [x Ha]. exists x. by rewrite Hmem in Ha.
  - unfold after_walk. destruct (bool_decide _); done.
Qed.

(** ** One call *)

Lemma contents_length m ps bs : contents m ps = Some bs → length bs = sum_list (piece_len <$> ps).
Proof.
  unfold contents. revert bs; induction ps as [|p ps IH]; intros bs Hc; [by cbn in Hc; simplify_eq|]. cbn in Hc. destruct (bytes_of m p) as [b|] eqn:Hb; [|done]. cbn in Hc.
  destruct (mapM _ ps) as [l|]; [|done]. cbn in Hc. simplify_eq. cbn. rewrite length_app, (IH _ eq_refl). f_equal. destruct p as [b'|a n]; cbn in *; [by simplify_eq|]. by apply load_lookup in Hb as [? _].
Qed.

Lemma packs_progress M m R iov ps k : packs M m R iov ps k → Exists (λ i : iovec_t, M ≤ i.2) iov → R ≠ [] → 0 < k.
Proof.
  intros [Hk (bs & Hc & Hbs) _ Hfull _] Hex HR. assert (length R ≠ 0) by (by destruct R). destruct (decide (k = length R)); [lia|]. specialize (Hfull ltac:(lia)).
  apply contents_length in Hc. apply length_mapM in Hbs. rewrite length_take_le in Hbs by lia. rewrite Hbs, Hc. clear -Hfull Hex.
  induction Hfull as [|i p iov ps Hi _ IH]; [by inversion Hex|]. cbn. inversion Hex; subst; [lia|]. specialize (IH ltac:(done)). lia.
Qed.

(** Buffers for copies, or pointers to contiguous data. *)
Definition buffers_ok (d : opal_datatype_t) (iov : list iovec_t) : Prop :=
  iov ≠ [] ∧ (Forall (λ i, is_Some i.1) iov ∨ flag (d_flags d) OPAL_DATATYPE_FLAG_CONTIGUOUS = true ∧ Forall (λ i, i.1 = None) iov).

(** What a call does with [R] to go: the next [k] bytes. *)
Record pack_step (M : nat) (m : memory) (R : list Z) (iov : list iovec_t) (r : packed_call) (k : nat) : Prop := {
  ps_max_data : pc_max_data r = k;
  ps_completed : pc_completed r = bool_decide (k = length R);
  ps_le : k ≤ length R;
  ps_bytes : ∃ bs, contents m (pc_iov r) = Some bs ∧ mapM (m !!.) (take k R) = Some bs;
  ps_progress : Exists (λ i : iovec_t, M ≤ i.2) iov → R ≠ [] → 0 < k;
  ps_copied : Forall (λ i, is_Some i.1) iov → packs M m R iov (pc_iov r) k;
}.

Lemma packs_step M m R iov r k : pc_max_data r = k → pc_completed r = bool_decide (k = length R) → packs M m R iov (pc_iov r) k → pack_step M m R iov r k.
Proof. intros Hm Hc Hp. split; [done|done|by destruct Hp|by destruct Hp|by apply (packs_progress M m R iov (pc_iov r))|done]. Qed.

(** A convertor after a call that leaves [R']. *)
Lemma sending_next m c c' d its R R' : sending m c d its R → pDesc c' = Some d → local_size c' = local_size c → bConverted c' + length R' = local_size c → mapped_in m R' →
  flag (c_flags c') CONVERTOR_COMPLETED = bool_decide (R' = []) → (R' ≠ [] → pack_state m c' d its R') → sending m c' d its R'.
Proof.
  intros [Hdesc Hd Htot Hm Hst] Hd' Hl' Htot' Hm' Hcp Hst'. split; [done|done|lia|done|]. rewrite Hcp. destruct (decide (R' = [])) as [E|E]; [by rewrite bool_decide_eq_true_2|rewrite bool_decide_eq_false_2; auto].
Qed.

Lemma no_op_pack_ok M m c d its R iov : basic_bound M d → sending m c d its R → flag (c_flags c) CONVERTOR_COMPLETED = false → flag (c_flags c) CONVERTOR_NO_OP = true →
  ∃ r k, opal_convertor_pack m c iov = Some r ∧ pack_step M m R iov r k ∧ sending m (pc_conv r) d its (drop k R) ∧ bConverted (pc_conv r) = bConverted c + k.
Proof.
  intros [HM _] Hs Hcp Hno. pose proof Hs as [Hdesc Hd Htot Hm Hst]. rewrite Hcp in Hst. destruct Hst as [HRne Hst]. unfold pack_state in Hst. rewrite Hno in Hst. destruct Hst as [Hct HR].
  assert (length R ≠ 0) by (by destruct R). unfold opal_convertor_pack. rewrite Hcp, (proj2 (Nat.ltb_lt (bConverted c) (local_size c))), Hno by lia.
  unfold opal_convertor_get_current_pointer. rewrite Hdesc. cbn [mbind option_bind]. replace (local_size c - bConverted c) with (length R) by lia.
  destruct (contiguous_data_pack_ok M m iov (length R) (pBaseBuf c + Z.of_nat (bConverted c) + true_lb d)%Z HM ltac:(lia)) as (ps & rest & complete & -> & Hinc & Hp); [by rewrite <-HR|].
  rewrite <-HR in Hp. cbn [mbind option_bind]. destruct complete; [eexists _, (length R)|eexists _, (length R - rest)]; (split; [done|]).
  - split; [by apply packs_step; [done|symmetry; by apply bool_decide_eq_true_2|done]|]. cbn [pc_conv pc_max_data]. rewrite drop_all. split; [|cbn; lia]. apply (sending_next m c _ d its R); [done|done|done|cbn; lia|constructor| |done].
    cbn [add_flags set_flags set_converted c_flags]. rewrite flag_lor. change (flag CONVERTOR_COMPLETED CONVERTOR_COMPLETED) with true. by rewrite orb_true_r.
  - destruct (Hinc eq_refl) as [Hrest _]. split; [apply packs_step; [done|symmetry; apply bool_decide_eq_false_2; lia|done]|]. cbn [pc_conv pc_max_data]. split; [|done].
    assert (Hlen : length (drop (length R - rest) R) = rest) by (rewrite length_drop; lia).
    apply (sending_next m c _ d its R); [done|done|done|cbn [set_converted bConverted]; lia|by apply mapped_drop| |].
    + cbn [set_converted c_flags]. rewrite Hcp. symmetry. apply bool_decide_eq_false_2. intros E. rewrite E in Hlen. cbn in Hlen. lia.
    + intros _. unfold pack_state. cbn [set_converted c_flags pBaseBuf bConverted]. rewrite Hno, Hlen. split; [done|]. rewrite HR at 2.
      rewrite (proj2 (take_drop_seqZ _ (length R - rest) (length R) ltac:(lia))). f_equal; [lia|]. f_equal. lia.
Qed.

Lemma contig_pack_ok M m c d its R iov : basic_bound M d → sending m c d its R → flag (c_flags c) CONVERTOR_COMPLETED = false → flag (c_flags c) CONVERTOR_NO_OP = false →
  fAdvance c = Some opal_pack_homogeneous_contig →
  ∃ r k, pack_homogeneous_contig m c iov = Some r ∧ pack_step M m R iov r k ∧ sending m (pc_conv r) d its (drop k R) ∧ bConverted (pc_conv r) = bConverted c + k.
Proof.
  intros [HM _] Hs Hcp Hno Hadv. pose proof Hs as [Hdesc Hd Htot Hm Hst]. rewrite Hcp in Hst. destruct Hst as [HRne Hst]. unfold pack_state in Hst. rewrite Hno, Hadv in Hst.
  destruct Hst as [Hct (s1 & s0 & Hstack & HR)]. assert (length R ≠ 0) by (by destruct R). unfold pack_homogeneous_contig. rewrite Hdesc, Hstack. cbn [mbind option_bind].
  replace (local_size c - bConverted c) with (length R) by lia.
  destruct (pack_contig_loop_ok M m iov (length R) (pBaseBuf c + true_lb d + s_disp s0 + s_disp s1)%Z HM) as (ps & rest & -> & Hle & Hp); [by rewrite <-HR|]. rewrite <-HR in Hp.
  cbn [mbind option_bind set_stack bConverted local_size]. set (k := length R - rest) in *. assert (Hlen : length (drop k R) = rest) by (unfold k; rewrite length_drop; lia).
  assert (Hnext : ∀ c', pDesc c' = Some d → local_size c' = local_size c → bConverted c' = bConverted c + k → flag (c_flags c') CONVERTOR_COMPLETED = bool_decide (k = length R) →
    (drop k R ≠ [] → pack_state m c' d its (drop k R)) → sending m c' d its (drop k R)).
  { intros c' ? ? Hb Hf ?. apply (sending_next m c _ d its R); try done; [lia|by apply mapped_drop|]. rewrite Hf. apply bool_decide_ext. split.
    - intros E. rewrite E. apply drop_all.
    - intros E. rewrite E in Hlen. cbn in Hlen. lia. }
  destruct (Nat.eqb_spec (bConverted c + k) (local_size c)) as [E|E]; (eexists _, k; split; [done|]).
  - assert (Hk : k = length R) by lia. split; [apply packs_step; [done|symmetry; by apply bool_decide_eq_true_2|done]|]. cbn [pc_conv]. split; [|done]. apply Hnext; [done|done|done| |].
    + cbn [add_flags set_flags set_stack c_flags]. rewrite flag_lor, bool_decide_eq_true_2 by done. apply orb_true_r.
    + rewrite Hk, drop_all. done.
  - split; [apply packs_step; [done|symmetry; apply bool_decide_eq_false_2; lia|done]|]. cbn [pc_conv]. split; [|done]. apply Hnext; [done|done|done| |].
    + cbn [set_stack c_flags]. rewrite Hcp. symmetry. apply bool_decide_eq_false_2. lia.
    + intros _. unfold pack_state. cbn [set_stack c_flags fAdvance pStack pBaseBuf]. rewrite Hno, Hadv, Hlen. split; [done|]. eexists _, _. split; [done|]. cbn [s_disp]. rewrite HR at 1.
      rewrite (proj2 (take_drop_seqZ _ k (length R) ltac:(lia))). f_equal; [lia|]. f_equal. lia.
Qed.

Lemma count_bytes_idem d s1 s0 : gaps_ok d s1 s0 → count_bytes s1 = s1.
Proof. intros [Ht _ _ _]. unfold count_bytes. by rewrite Ht. Qed.

Lemma gaps_pack_ok M m c d its R iov : basic_bound M d → sending m c d its R → buffers_ok d iov → flag (c_flags c) CONVERTOR_COMPLETED = false → flag (c_flags c) CONVERTOR_NO_OP = false →
  fAdvance c = Some opal_pack_homogeneous_contig_with_gaps →
  ∃ r k, pack_homogeneous_contig_with_gaps m c iov = Some r ∧ pack_step M m R iov r k ∧ sending m (pc_conv r) d its (drop k R) ∧ bConverted (pc_conv r) = bConverted c + k.
Proof.
  intros [HM _] Hs [Hne Hiov] Hcp Hno Hadv. pose proof Hs as [Hdesc Hd Htot Hm Hst]. rewrite Hcp in Hst. destruct Hst as [HRne Hst]. unfold pack_state in Hst. rewrite Hno, Hadv in Hst.
  destruct Hst as (Hct & Hx & s1 & s0 & Hstack & Hg & HR). assert (length R ≠ 0) by (by destruct R). unfold pack_homogeneous_contig_with_gaps. rewrite Hdesc. cbn [mbind option_bind].
  assert (Hlen2 : (length (opt_desc d) <=? 2) = true).
  { destruct (dk_contiguous _ _ Hd Hct) as [_ (e & -> & _)]. by destruct (dk_desc _ _ Hd) as [el ->]. }
  rewrite Hct, (proj2 (Z.eqb_neq _ _) Hx), Hlen2, Hstack. cbn [andb negb]. assert (Hsize : 0 < d_size d) by (destruct Hg; lia).
  rewrite HR in Hm, Htot.
  assert (Hrun : ∃ ps idx s1' s0' k, gaps_run m d (pBaseBuf c) (local_size c) iov (count_bytes s1) s0 (bConverted c) = Some (ps, idx, s1', s0', bConverted c + k) ∧
    k ≤ length R ∧ (∃ bs, contents m ps = Some bs ∧ mapM (m !!.) (take k R) = Some bs) ∧ (Exists (λ i : iovec_t, M ≤ i.2) iov → 0 < k) ∧
    (Forall (λ i : iovec_t, is_Some i.1) iov → packs M m R iov ps k) ∧ gaps_left d (pBaseBuf c) s1' s0' = drop k R ∧ (k < length R → gaps_ok d s1' s0')).
  { rewrite HR. destruct iov as [|[b len] iov]; [done|]. cbn [gaps_run]. destruct b as [b|].
    - destruct Hiov as [Hiov|[_ Hiov]]; [|by inversion Hiov].
      destruct (gaps_loop_ok d (pBaseBuf c) Hsize M m ((Some b, len) :: iov) (local_size c) (count_bytes s1) s0 (bConverted c) HM Hg Hm ltac:(done) Hiov) as (ps & idx & s1' & s0' & k & Hrun & Hp & Hl & Hok).
      exists ps, idx, s1', s0', k. split_and!; [exact Hrun|by destruct Hp|by destruct Hp|intros He; apply (packs_progress M m _ _ _ _ Hp He); by rewrite <-HR|done|done|intros Hlt; by apply Hok].
    - destruct (gaps_pointers_ok d (pBaseBuf c) Hsize m (length ((None, len) :: iov)) (count_bytes s1) s0 (bConverted c) Hg Hm) as (ps & s1' & s0' & k & Hrun & Hk & Hb & Hl & Hpos & Hok).
      exists ps, (length ps), s1', s0', k. split_and!; [by rewrite Hrun|done|done|intros _; apply Hpos; cbn; lia| |done|intros Hlt; by apply Hok].
      intros Hsome. inversion Hsome as [|? ? [? ?]]; subst. done. }
  destruct Hrun as (ps & idx & s1' & s0' & k & -> & Hk & Hb & Hpos & Hpk & Hl & Hok). cbn [mbind option_bind set_stack bConverted local_size].
  rewrite <-HR in Htot. assert (Hlen : length (drop k R) = length R - k) by (by rewrite length_drop).
  assert (Hdone : bool_decide (drop k R = []) = bool_decide (k = length R)) by (apply bool_decide_ext; split; [intros E; rewrite E in Hlen; cbn in Hlen; lia|intros ->; apply drop_all]).
  eexists _, k. split; [done|]. set (c' := if _ =? _ then _ else _). assert (Hf : flag (c_flags c') CONVERTOR_COMPLETED = bool_decide (k = length R)).
  { unfold c'. destruct (Nat.eqb_spec (bConverted c + k) (local_size c)); cbn [add_flags set_flags set_stack c_flags].
    - rewrite flag_lor, bool_decide_eq_true_2 by lia. apply orb_true_r.
    - rewrite Hcp. symmetry. apply bool_decide_eq_false_2. lia. }
  assert (Hc' : pDesc c' = Some d ∧ local_size c' = local_size c ∧ bConverted c' = bConverted c + k ∧ fAdvance c' = fAdvance c ∧ pStack c' = [s1'; s0'] ∧ pBaseBuf c' = pBaseBuf c ∧
    flag (c_flags c') CONVERTOR_NO_OP = false).
  { unfold c'. destruct (_ =? _); cbn [add_flags set_flags set_stack c_flags]; (split_and!; try done). rewrite flag_lor, Hno. done. }
  clearbody c'. destruct Hc' as (Hc1 & Hc2 & Hc3 & Hc4 & Hc5 & Hc6 & Hc7). cbn [pc_conv]. split_and!; [|apply (sending_next m c _ d its R); try done|done].
  - split; cbn [pc_max_data pc_completed pc_iov]; [lia|done|done|done|by intros ? _; apply Hpos|done].
  - lia.
  - apply mapped_drop. by rewrite HR.
  - by rewrite Hf.
  - intros Hne'. unfold pack_state. rewrite Hc7, Hc4, Hadv, Hc5, Hc6. split_and!; [done|done|]. assert (Hg' : gaps_ok d s1' s0') by (apply Hok; destruct (drop k R); [done|cbn in Hlen; lia]).
    exists s1', s0'. by rewrite (count_bytes_idem _ _ _ Hg').
Qed.

(** A call on a convertor that has [R] to go. *)
Lemma pack_call_ok M m c d its R iov : basic_bound M d → sending m c d its R → buffers_ok d iov →
  ∃ r k, opal_convertor_pack m c iov = Some r ∧ pack_step M m R iov r k ∧ sending m (pc_conv r) d its (drop k R) ∧ bConverted (pc_conv r) = bConverted c + k.
Proof.
  intros HM Hs Hiov. destruct (flag (c_flags c) CONVERTOR_COMPLETED) eqn:Hcp.
  { unfold opal_convertor_pack. rewrite Hcp. pose proof (sd_state _ _ _ _ _ Hs) as HR. rewrite Hcp in HR. subst R. eexists _, 0. split; [done|]. cbn [pc_conv]. rewrite drop_nil, Nat.add_0_r. split_and!; [|done|done].
    apply packs_step; [done|done|apply packs_stop]. }
  destruct (flag (c_flags c) CONVERTOR_NO_OP) eqn:Hno; [by apply no_op_pack_ok|]. pose proof Hs as [Hdesc Hd Htot Hm Hst]. rewrite Hcp in Hst. destruct Hst as [HRne Hst].
  unfold pack_state in Hst. rewrite Hno in Hst. assert (length R ≠ 0) by (by destruct R).
  unfold opal_convertor_pack. rewrite Hcp, (proj2 (Nat.ltb_lt (bConverted c) (local_size c))), Hno by lia. destruct (fAdvance c) as [[]|] eqn:Hadv; try done.
  - by apply contig_pack_ok.
  - by apply gaps_pack_ok.
  - destruct Hiov as [_ [Hiov|[Hct _]]]; [|destruct Hst as [Hnc _]; congruence].
    destruct (simple_pack_ok M m c d its R iov HM Hs Hcp Hno Hadv Hiov) as (r & k & -> & Hk & Hc & Hp & Hs' & Hb). exists r, k. split_and!; [done|by apply packs_step|done|done].
Qed.

(** ** A sequence of calls *)

Fixpoint pack_calls (m : memory) (c : opal_convertor_t) (calls : list (list iovec_t)) : option (list packed_call * opal_convertor_t) :=
  match calls with
  | [] => Some ([], c)
  | iov :: calls => r ← opal_convertor_pack m c iov; '(rs, c') ← pack_calls m (pc_conv r) calls; Some (r :: rs, c')
  end.

(** The data of all the buffers. *)
Definition sent (m : memory) (rs : list packed_call) : option (list byte) := contents m (rs ≫= pc_iov).

Lemma contents_app m ps ps' bs bs' : contents m ps = Some bs → contents m ps' = Some bs' → contents m (ps ++ ps') = Some (bs ++ bs').
Proof.
  revert bs; induction ps as [|p ps IH]; intros bs Hb Hb'; [by cbn in Hb; simplify_eq|]. unfold contents in *. cbn in Hb |- *. destruct (bytes_of m p) as [b|]; [|done]. cbn in *.
  destruct (mapM (bytes_of m) ps) as [l|]; [|done]. cbn in *. simplify_eq. specialize (IH _ eq_refl Hb'). cbn. destruct (mapM _ (ps ++ ps')) as [l'|]; [|done]. cbn in *. simplify_eq.
  by rewrite <-app_assoc, IH.
Qed.

Lemma pack_calls_ok M m c d its R calls : basic_bound M d → sending m c d its R → Forall (buffers_ok d) calls →
  ∃ rs c' k, pack_calls m c calls = Some (rs, c') ∧ bConverted c' = bConverted c + k ∧ k = sum_list (pc_max_data <$> rs) ∧ sending m c' d its (drop k R) ∧ k ≤ length R ∧
    (∃ bs, sent m rs = Some bs ∧ mapM (m !!.) (take k R) = Some bs) ∧ (∀ r, last rs = Some r → pc_completed r = bool_decide (k = length R)) ∧
    (Forall (Exists (λ i : iovec_t, M ≤ i.2)) calls → length R `min` length calls ≤ k).
Proof.
  intros HM. revert c R; induction calls as [|iov calls IH]; intros c R Hs Hcalls; cbn [pack_calls].
  { eexists [], c, 0. rewrite drop_0, Nat.add_0_r, take_0. split_and!; [done|done|done|done|lia|by exists []|done|intros _; cbn; lia]. }
  inversion Hcalls as [|? ? Hiov Hcalls']; subst. destruct (pack_call_ok M m c d its R iov HM Hs Hiov) as (r & k1 & -> & Hstep & Hs1 & Hb1). cbn [mbind option_bind].
  destruct (IH (pc_conv r) (drop k1 R) Hs1 Hcalls') as (rs & c' & k & -> & Hb & Hsum & Hs' & Hk & (bs & Hc & Hbs) & Hlast & Hlive). cbn [mbind option_bind]. destruct Hstep as [Hmax Hcomp Hle (bs1 & Hc1 & Hbs1) Hprog _].
  rewrite length_drop in *. exists (r :: rs), c', (k1 + k). rewrite <-drop_drop. split_and!; [done|lia|cbn; by rewrite Hmax, Hsum|done|lia| | |].
  - exists (bs1 ++ bs). rewrite <-take_take_drop. split; [|by apply mapM_app_Some]. unfold sent. cbn. by apply contents_app.
  - intros r'. destruct rs as [|r2 rs].
    + cbn. intros [= <-]. cbn in Hsum. subst k. by rewrite Nat.add_0_r.
    + intros Hr'. rewrite last_cons_cons in Hr'. rewrite (Hlast _ Hr'). apply bool_decide_ext. lia.
  - intros Hex. inversion Hex as [|? ? He Hex']; subst. specialize (Hlive Hex'). specialize (Hprog He). destruct R as [|a R]; [cbn; lia|]. specialize (Hprog ltac:(done)). cbn [length] in *. lia.
Qed.

(** C13: packing.  A convertor, with its static stack, is prepared for [count] elements of
    a datatype that is well formed for convertors ([dt_ok]): its (optimized) description
    has the type map [its], and the stride of an entry with several blocks of up to eight
    elements is a multiple of the size of its basic type ([stride_ok]; otherwise see
    [stride_truncated]).  Then any sequence of calls of
    [opal_convertor_pack], with buffers of any sizes, is defined and puts the bytes of the
    type map, in its order, into the buffers: what is sent is always the first
    [bConverted] bytes, [bConverted] is the sum of the sizes the calls report, and a call
    reports completion exactly when nothing is left.  Every call with a buffer that holds
    one basic element makes progress, so that enough such calls complete. *)
Theorem pack_spec M check_addr m c d its count buf calls : dt_ok d its → basic_bound M d → stack_size c = DT_STATIC_STACK_SIZE →
  (Z.of_nat (count * d_size d) < 2 ^ 64)%Z → (Z.of_nat (count * S (work its)) < 2 ^ 64)%Z →
  let T := type_map d its buf count in mapped_in m T → Forall (buffers_ok d) calls →
  ∃ c0 rs c', opal_convertor_prepare_for_send check_addr c d count buf = Some c0 ∧ pack_calls m c0 calls = Some (rs, c') ∧
    bConverted c' = sum_list (pc_max_data <$> rs) ∧ bConverted c' ≤ length T ∧
    (∃ bs, sent m rs = Some bs ∧ mapM (m !!.) (take (bConverted c') T) = Some bs) ∧
    (∀ r, last rs = Some r → pc_completed r = bool_decide (bConverted c' = length T)) ∧
    (Forall (Exists (λ i : iovec_t, M ≤ i.2)) calls → length T ≤ length calls → bConverted c' = length T).
Proof.
  intros Hd HM Hss Hsz HW T Hm Hcalls. destruct (prepare_for_send_ok check_addr m c d its count buf Hd Hss Hsz HW Hm) as (c0 & Hc0 & Hs & Hb0).
  destruct (pack_calls_ok M m c0 d its T calls HM Hs Hcalls) as (rs & c' & k & Hrun & Hb & Hsum & _ & Hk & Hbs & Hlast & Hlive). rewrite Hb0 in Hb. cbn in Hb.
  exists c0, rs, c'. rewrite Hb. split_and!; try done. intros Hex Hlen. specialize (Hlive Hex). lia.
Qed.

End send.
End DtSendSpec.
