(* ===== verification/DtRecvSpec.v ===== *)
(** * Unpacking with a convertor *)

From stdpp Require Import base numbers list gmap.
From S2P Require Import Prelude DtDesc DtWalk DtCopy DtMap DtWalkSpec DtCopySpec DtPackSpec DtConv DtContigSpec DtConvSpec.

Module DtRecvSpec.
Import DtDesc DtWalk DtUnpack DtMap DtWalkSpec DtCopySpec DtUnpackSpec DtConv DtContigSpec DtConvSpec.
Local Open Scope nat_scope.

Section recv.
Context `{AbiLaws} (temporary_buffer : Z).

(** Every basic element fits the buffer for parts of elements. *)
Definition basic_small (d : opal_datatype_t) : Prop := ∀ e, Elem e ∈ opt_desc d → basic_size (e_type e) ≤ buffer_size.

(** A convertor that has the bytes [R] to go. *)
Definition unpack_state (m : memory) (c : opal_convertor_t) (d : opal_datatype_t) (its : list item) (R : list Z) : Prop :=
  if flag (c_flags c) CONVERTOR_NO_OP then R = seqZ (pBaseBuf c + Z.of_nat (bConverted c) + true_lb d) (Z.of_nat (length R))
  else match fAdvance c with
  | Some opal_unpack_homogeneous_contig => ∃ s1 s0, pStack c = [s1; s0] ∧
      if (Z.of_nat (d_size d) =? d_extent d)%Z then R = seqZ (pBaseBuf c + true_lb d + Z.of_nat (bConverted c)) (Z.of_nat (length R))
      else gaps_ok d (count_bytes s1) s0 ∧ R = gaps_left d (pBaseBuf c) (count_bytes s1) s0
  | Some opal_generic_simple_unpack => 1 + depth its < stack_size c ∧
      conv_ok (H1 := unpacking_laws (flag (c_flags c) CONVERTOR_ACCELERATOR) temporary_buffer) (opt_desc d) its (d_extent d) (stack_size c) (pBaseBuf c) (local_size c) (pStack c) (bConverted c)
        (mk_unpacking m 0 [] (c_partial_length c)) R
  | _ => False
  end.

Record receiving (m : memory) (c : opal_convertor_t) (d : opal_datatype_t) (its : list item) (R : list Z) : Prop := {
  rc_desc : pDesc c = Some d;
  rc_ok : dt_ok d its;
  rc_total : bConverted c + length R = local_size c;
  rc_mapped : mapped_in m R;
  rc_state : if flag (c_flags c) CONVERTOR_COMPLETED then R = [] else R ≠ [] ∧ unpack_state m c d its R;
}.

(** ** The start *)

(** The function that is chosen. *)
Definition recv_advance (d : opal_datatype_t) : advance :=
  if flag (d_flags d) OPAL_DATATYPE_FLAG_CONTIGUOUS then opal_unpack_homogeneous_contig else opal_generic_simple_unpack.

Lemma prepare_for_recv_cases check_addr c d its count buf : dt_ok d its → stack_size c = DT_STATIC_STACK_SIZE → flag (c_flags c) CONVERTOR_SEND = false → (Z.of_nat (count * d_size d) < 2 ^ 64)%Z →
  ∃ c0 returned c1, prepared c0 d count buf returned c1 ∧ c_partial_length c0 = c_partial_length c ∧ flag (c_flags c0) CONVERTOR_SEND = false ∧
    flag (c_flags c0) CONVERTOR_WITH_CHECKSUM = flag (c_flags c) CONVERTOR_WITH_CHECKSUM ∧
    opal_convertor_prepare_for_recv check_addr c d count buf = Some (if returned then c1 else set_advance (recv_advance d) c1).
Proof.
  intros Hd Hss Hsend Hsz. unfold opal_convertor_prepare_for_recv. set (c0 := if flag _ _ then _ else _).
  assert (Hc0 : stack_size c0 = DT_STATIC_STACK_SIZE ∧ c_partial_length c0 = c_partial_length c ∧ flag (c_flags c0) CONVERTOR_SEND = false ∧
    flag (c_flags c0) CONVERTOR_WITH_CHECKSUM = flag (c_flags c) CONVERTOR_WITH_CHECKSUM).
  { unfold c0, opal_convertor_accelerator_init. destruct (check_addr buf) as [dv un].
    destruct (flag _ CONVERTOR_SKIP_ACCELERATOR_INIT), dv, un; cbn [add_flags set_flags c_flags stack_size c_partial_length]; rewrite !flag_lor, Hsend; (split_and!; [done|done|done|]);
      by destruct (flag (c_flags c) CONVERTOR_WITH_CHECKSUM). }
  clearbody c0. destruct Hc0 as (Hss0 & Hpl0 & Hsnd0 & Hcs0). rewrite Hsnd0. cbn [negb]. destruct (prepare_ok c0 d its count buf Hd Hss0 Hsz) as (returned & c1 & -> & Hp). cbn [mbind option_bind].
  exists c0, returned, c1. split_and!; [done|done|done|done|]. f_equal. destruct Hp as [c1 ? ? ? ? ?|f ? ? ? ? ? ? ?|f s ? ? ? ? Hho ? ? ?]; [done|done|]. cbn [c_flags c_count]. rewrite Hho. unfold recv_advance. cbn [negb].
  by destruct (flag (d_flags d) OPAL_DATATYPE_FLAG_CONTIGUOUS).
Qed.

Lemma prepare_for_recv_ok check_addr m c d its count buf : dt_ok d its → stack_size c = DT_STATIC_STACK_SIZE → flag (c_flags c) CONVERTOR_SEND = false →
  (Z.of_nat (count * d_size d) < 2 ^ 64)%Z → (Z.of_nat (count * S (work its)) < 2 ^ 64)%Z → mapped_in m (type_map d its buf count) →
  ∃ c', opal_convertor_prepare_for_recv check_addr c d count buf = Some c' ∧ receiving m c' d its (type_map d its buf count) ∧ bConverted c' = 0.
Proof.
  intros Hd Hss Hsend Hsz HW Hm. destruct (prepare_for_recv_cases check_addr c d its count buf Hd Hss Hsend Hsz) as (c0 & returned & c' & Hp & _ & _ & _ & ->). pose proof (type_map_length d its buf count Hd) as Hlen.
  destruct Hp as [c' Hz Hdesc Hl Hb Hcp|f Hz Hct Hx Hcp Hno Hho Hfl|f s Hz Hs Hcp Hno Hho Hfl Hng Hsnd].
  - exists c'. split; [done|]. split; [|done]. split; [done|done|lia|done|]. rewrite Hcp. apply nil_length_inv. lia.
  - eexists. split; [done|]. split; [|done]. split; [done|done|cbn [bConverted local_size]; lia|done|]. cbn [c_flags]. rewrite Hcp. split; [intros E; rewrite E in Hlen; cbn in Hlen; lia|].
    unfold unpack_state. cbn [c_flags pBaseBuf bConverted]. rewrite Hno, Hlen. rewrite (type_map_elements _ _ _ _ Hd Hct), elements_contiguous by done. f_equal. lia.
  - unfold recv_advance. set (R := type_map d its buf count) in *. assert (HR : R ≠ []) by (intros E; rewrite E in Hlen; cbn in Hlen; lia).
    set (c1 := mk_convertor _ _ _ _ _ _ _ _ _ _ _). assert (Hwrap : ∀ a, unpack_state m (set_advance a c1) d its R → receiving m (set_advance a c1) d its R).
    { intros a Ha. split; [done|done|cbn [c1 set_advance bConverted local_size]; lia|done|]. cbn [c1 set_advance c_flags]. by rewrite Hcp. }
    destruct (flag (d_flags d) OPAL_DATATYPE_FLAG_CONTIGUOUS) eqn:Hct.
    + destruct (contiguous_stack d its count buf s Hd Hct ltac:(nia) ltac:(nia) Hs) as (s1 & s0 & -> & Hd1 & Hd0 & Hg & HgR).
      eexists. split; [done|]. split; [|done]. apply Hwrap. unfold unpack_state. cbn [c1 set_advance c_flags fAdvance pStack pBaseBuf bConverted]. rewrite Hno. exists s1, s0. split; [done|].
      destruct (Z.eqb_spec (Z.of_nat (d_size d)) (d_extent d)) as [E|E]; [|done]. rewrite Hlen. unfold R. rewrite (type_map_elements _ _ _ _ Hd Hct), elements_contiguous by auto. f_equal. lia.
    + eexists. split; [done|]. split; [|done]. apply Hwrap. unfold unpack_state. cbn [c1 set_advance c_flags fAdvance pStack pBaseBuf stack_size local_size bConverted c_partial_length]. rewrite Hno. split; [by apply Hd|].
      destruct (create_stack_ok (H1 := unpacking_laws (flag f CONVERTOR_ACCELERATOR) temporary_buffer) (opt_desc d) its (d_extent d) (DT_STATIC_STACK_SIZE `max` (d_loops d + 1)) buf
        (dk_desc _ _ Hd) (dk_items _ _ Hd) (dk_depth _ _ Hd) count (mk_unpacking m 0 [] 0) R) as (s' & Hs' & Hc); try done; [|nia|].
      { intros ->. rewrite (dk_size _ _ Hd) in Hz. cbn in Hz. lia. }
      rewrite Hs in Hs'. injection Hs' as <-. by rewrite Hlen in Hc.
Qed.

(** ** Any data *)

Lemma runs_writes accelerator d io R ls io' R' (iov : list filled) : runs (H1 := unpacking_laws accelerator temporary_buffer) (opt_desc d) io R ls io' R' →
  ls.*1 = take (length ls) iov → (R' ≠ [] → length ls = length iov) →
  up_mem io' = writes R (received iov) (up_mem io) ∧ R' = drop (length (received iov)) R ∧ (R' ≠ [] → length (received iov) < length R).
Proof.
  intros Hr. revert iov. induction Hr as [io R|io R i k io1 ls io' R' e Hk Hmv He Hcl Hbig Hr IH|io R i io1 Hmv]; intros iov Hls Hlen.
  - destruct R as [|a R]; [by rewrite drop_nil|]. specialize (Hlen ltac:(done)). destruct iov; [|done]. cbn. split_and!; [done|done|lia].
  - destruct iov as [|i' iov]; [done|]. cbn [length take] in Hls. rewrite fmap_cons in Hls. injection Hls as -> Hls.
    destruct (IH iov Hls) as (Hmem & -> & Hlt). { intros HR. specialize (Hlen HR). by injection Hlen. }
    destruct Hmv as (bs & Hin & Hbs & _ & Hmem1). cbn [closed unpacking_laws] in Hcl. rewrite Hcl, app_nil_r in Hin. cbn [begin_iov unpacking_copy up_in up_mem] in Hin, Hmem1. subst bs.
    rewrite length_take_le in Hbs by lia. unfold received in *. cbn [fmap list_fmap concat]. rewrite length_app, Hbs, <-drop_drop, writes_twice, Hbs. split_and!.
    + rewrite Hmem, Hmem1. f_equal. by rewrite writes_take by lia.
    + done.
    + intros HR. specialize (Hlt HR). rewrite length_drop in Hlt. lia.
  - destruct Hmv as (bs & Hin & Hbs & _ & Hmem1). destruct iov as [|i' iov]; [done|]. cbn [length take] in Hls. rewrite fmap_cons in Hls. injection Hls as ->.
    cbn [begin_iov unpacking_copy up_in up_mem] in Hin, Hmem1. unfold received. cbn [fmap list_fmap concat]. rewrite Hin, <-app_assoc, length_app. split_and!; [|by rewrite drop_ge by lia|done].
    rewrite Hmem1, writes_twice, drop_ge by lia. done.
Qed.

(** ** One call *)

(** What a call does with [R] to go: its data at the next addresses. *)
Record unpack_step (m : memory) (R : list Z) (bConverted0 : nat) (iov : list filled) (r : unpacked_call) : Prop := {
  us_max_data : uc_max_data r = length R `min` length (received iov);
  us_completed : uc_completed r = bool_decide (length R ≤ length (received iov));
  us_mem : uc_mem r = writes R (received iov) m;
  us_converted : bConverted (uc_conv r) = bConverted0 + (length R `min` length (received iov));
}.

(** A convertor after a call. *)
Lemma receiving_next m c c' d its R n m' : receiving m c d its R → pDesc c' = Some d → local_size c' = local_size c → bConverted c' = bConverted c + (length R `min` n) →
  (∀ a, is_Some (m !! a) → is_Some (m' !! a)) → flag (c_flags c') CONVERTOR_COMPLETED = bool_decide (length R ≤ n) → (n < length R → unpack_state m' c' d its (drop n R)) →
  receiving m' c' d its (drop n R).
Proof.
  intros [Hdesc Hd Htot Hm Hst] Hd' Hl' Htot' Hm' Hcp Hst'. split; [done|done|rewrite length_drop; lia| |].
  - apply Forall_drop. eapply Forall_impl; [exact Hm|]. auto.
  - rewrite Hcp. destruct (decide (length R ≤ n)) as [E|E]; [rewrite bool_decide_eq_true_2 by done; by apply drop_ge|rewrite bool_decide_eq_false_2 by done].
    split; [|apply Hst'; lia]. intros E'. apply (f_equal length) in E'. rewrite length_drop in E'. cbn in E'. lia.
Qed.

Lemma writes_keeps m R bs a : mapped_in m R → is_Some (m !! a) → is_Some (writes R bs m !! a).
Proof. intros Hm Ha. by apply writes_mapped. Qed.

Lemma no_op_unpack_ok m c d its R iov : receiving m c d its R → flag (c_flags c) CONVERTOR_COMPLETED = false → flag (c_flags c) CONVERTOR_NO_OP = true →
  ∃ r, opal_convertor_unpack temporary_buffer m c iov = Some r ∧ unpack_step m R (bConverted c) iov r ∧ receiving (uc_mem r) (uc_conv r) d its (drop (length (received iov)) R).
Proof.
  intros Hs Hcp Hno. pose proof Hs as [Hdesc Hd Htot Hm Hst]. rewrite Hcp in Hst. destruct Hst as [HRne HR]. unfold unpack_state in HR. rewrite Hno in HR.
  assert (length R ≠ 0) by (by destruct R). unfold opal_convertor_unpack. rewrite Hcp, (proj2 (Nat.ltb_lt (bConverted c) (local_size c))), Hno by lia.
  unfold opal_convertor_get_current_pointer. rewrite Hdesc. cbn [mbind option_bind]. replace (local_size c - bConverted c) with (length R) by lia.
  destruct (contiguous_data_unpack_ok m iov (length R) (pBaseBuf c + Z.of_nat (bConverted c) + true_lb d)%Z ltac:(lia)) as (i & rest & complete & -> & Hif); [by rewrite <-HR|].
  rewrite <-HR. cbn [mbind option_bind]. set (n := length (received iov)) in *. destruct complete; (eexists; split; [done|]).
  - split; [split; cbn [uc_max_data uc_completed uc_mem uc_conv]; [lia|symmetry; by apply bool_decide_eq_true_2|done|cbn; lia]|]. cbn [uc_mem uc_conv].
    apply (receiving_next m c); [done|done|done|cbn; lia|by intros a; apply writes_keeps| |lia]. cbn [add_flags set_flags set_converted c_flags]. rewrite flag_lor, bool_decide_eq_true_2 by done. apply orb_true_r.
  - destruct Hif as (Hn & Hrest & _). split; [split; cbn [uc_max_data uc_completed uc_mem uc_conv set_converted bConverted]; [lia|symmetry; apply bool_decide_eq_false_2; lia|done|lia]|]. cbn [uc_mem uc_conv].
    apply (receiving_next m c); [done|done|done|cbn; lia|by intros a; apply writes_keeps|cbn; rewrite Hcp; symmetry; apply bool_decide_eq_false_2; lia|].
    intros _. unfold unpack_state. cbn [set_converted c_flags pBaseBuf bConverted]. rewrite Hno, length_drop. rewrite HR at 1.
    rewrite (proj2 (take_drop_seqZ _ n (length R) ltac:(lia))). f_equal. lia.
Qed.

Lemma contig_unpack_ok m c d its R iov : receiving m c d its R → flag (c_flags c) CONVERTOR_COMPLETED = false → flag (c_flags c) CONVERTOR_NO_OP = false →
  fAdvance c = Some opal_unpack_homogeneous_contig →
  ∃ r, unpack_homogeneous_contig m c iov = Some r ∧ unpack_step m R (bConverted c) iov r ∧ receiving (uc_mem r) (uc_conv r) d its (drop (length (received iov)) R).
Proof.
  intros Hs Hcp Hno Hadv. pose proof Hs as [Hdesc Hd Htot Hm Hst]. rewrite Hcp in Hst. destruct Hst as [HRne HR]. unfold unpack_state in HR. rewrite Hno, Hadv in HR.
  destruct HR as (s1 & s0 & Hstack & HR). assert (length R ≠ 0) by (by destruct R). unfold unpack_homogeneous_contig. rewrite Hdesc, Hstack. cbn [mbind option_bind].
  set (n := length (received iov)). set (run := if (_ =? _)%Z then _ else _).
  assert (Hrun : ∃ i s1' s0', run = Some (writes R (received iov) m, i, s1', s0', bConverted c + length R `min` n) ∧
    (n < length R → if (Z.of_nat (d_size d) =? d_extent d)%Z then True else gaps_ok d s1' s0' ∧ drop n R = gaps_left d (pBaseBuf c) s1' s0')).
  { unfold run, n. destruct (Z.of_nat (d_size d) =? d_extent d)%Z.
    - destruct (unpack_contig_loop_ok m iov (pBaseBuf c + true_lb d) (bConverted c) (length R)) as (i & Hrun & _); [by rewrite <-HR|]. rewrite Htot, <-HR in Hrun. rewrite Hrun.
      cbn [mbind option_bind]. by eexists _, _, _.
    - destruct HR as [Hg HR]. rewrite HR in Hm. destruct (unpack_gaps_loop_ok d (pBaseBuf c) ltac:(destruct Hg; lia) m iov (count_bytes s1) s0 (bConverted c) Hg Hm) as (i & s1' & s0' & Hrun & Hok).
      rewrite <-HR, Htot in Hrun. exists i, s1', s0'. split; [exact Hrun|]. rewrite <-HR in Hok. intros Hlt. destruct (Hok Hlt) as (? & -> & _). done. }
  clearbody run. destruct Hrun as (i & s1' & s0' & -> & Hok). cbn [mbind option_bind set_stack bConverted local_size]. set (c' := if _ =? _ then _ else _).
  assert (Hf : flag (c_flags c') CONVERTOR_COMPLETED = bool_decide (length R ≤ n)).
  { unfold c'. destruct (Nat.eqb_spec (bConverted c + length R `min` n) (local_size c)); cbn [add_flags set_flags set_stack c_flags].
    - rewrite flag_lor, bool_decide_eq_true_2 by lia. apply orb_true_r.
    - rewrite Hcp. symmetry. apply bool_decide_eq_false_2. lia. }
  assert (Hc' : pDesc c' = Some d ∧ local_size c' = local_size c ∧ bConverted c' = bConverted c + length R `min` n ∧ fAdvance c' = fAdvance c ∧ pStack c' = [s1'; s0'] ∧ pBaseBuf c' = pBaseBuf c ∧
    flag (c_flags c') CONVERTOR_NO_OP = false).
  { unfold c'. destruct (_ =? _); cbn [add_flags set_flags set_stack c_flags]; (split_and!; try done). rewrite flag_lor, Hno. done. }
  clearbody c'. destruct Hc' as (Hc1 & Hc2 & Hc3 & Hc4 & Hc5 & Hc6 & Hc7). eexists. split; [done|]. split; [split; cbn [uc_max_data uc_completed uc_mem uc_conv]; [lia|done|done|done]|]. cbn [uc_mem uc_conv].
  apply (receiving_next m c); [done|done|done|done|by intros a; apply writes_keeps|done|]. intros Hlt. specialize (Hok Hlt). unfold unpack_state. rewrite Hc7, Hc4, Hadv, Hc5, Hc6, Hc3.
  exists s1', s0'. split; [done|]. destruct (Z.of_nat (d_size d) =? d_extent d)%Z.
  - rewrite length_drop. rewrite HR at 1. rewrite (proj2 (take_drop_seqZ _ n (length R) ltac:(lia))). f_equal. lia.
  - destruct Hok as [Hg ->]. destruct (Hg) as [Ht _ _ _]. unfold count_bytes. by rewrite Ht.
Qed.

Lemma after_walk_fields s p n b c : bConverted (after_walk s p n b c) = n ∧ pDesc (after_walk s p n b c) = pDesc c ∧ local_size (after_walk s p n b c) = local_size c.
Proof. by destruct b. Qed.

Lemma simple_unpack_ok m c d its R iov : basic_small d → receiving m c d its R → flag (c_flags c) CONVERTOR_COMPLETED = false → flag (c_flags c) CONVERTOR_NO_OP = false →
  fAdvance c = Some opal_generic_simple_unpack →
  ∃ r, generic_simple_unpack temporary_buffer m c iov = Some r ∧ unpack_step m R (bConverted c) iov r ∧ receiving (uc_mem r) (uc_conv r) d its (drop (length (received iov)) R).
Proof.
  intros Hsmall Hs Hcp Hno Hadv. pose proof Hs as [Hdesc Hd Htot Hm Hst]. rewrite Hcp in Hst. destruct Hst as [HRne Hst]. unfold unpack_state in Hst. rewrite Hno, Hadv in Hst. destruct Hst as [Hdep Hst].
  assert (length R ≠ 0) by (by destruct R). unfold generic_simple_unpack. rewrite Hdesc. cbn [mbind option_bind].
  destruct (generic_simple_ok (H1 := unpacking_laws (flag (c_flags c) CONVERTOR_ACCELERATOR) temporary_buffer) (opt_desc d) its (d_extent d) (stack_size c) (pBaseBuf c) (dk_desc _ _ Hd) Hsmall (dk_items _ _ Hd) Hdep
    (local_size c) (pStack c) (bConverted c) (mk_unpacking m 0 [] (c_partial_length c)) R iov Hst) as (s' & n' & io' & ls & R' & -> & Hls & Hruns & Hle & -> & Hrest). cbn [mbind option_bind].
  destruct (runs_writes _ d _ _ _ _ _ iov Hruns Hls ltac:(intros HR'; by apply Hrest)) as (Hmem & HR' & Hlt). cbn [up_mem] in Hmem. set (n := length (received iov)) in *.
  assert (Hk : length R - length R' = length R `min` n) by (rewrite HR', length_drop; lia). rewrite Hk in *.
  assert (Hdone : bool_decide (R' = []) = bool_decide (length R ≤ n)).
  { apply bool_decide_ext. split; [intros E; rewrite E in HR'; symmetry in HR'; apply (f_equal length) in HR'; rewrite length_drop in HR'; cbn in HR'; lia|intros E; rewrite HR'; by apply drop_ge]. }
  eexists. split; [done|]. split; [split; cbn [uc_max_data uc_completed uc_mem uc_conv]; [done|done|done|apply after_walk_fields]|]. cbn [uc_mem uc_conv].
  rewrite Hmem. apply (receiving_next m c); [done|by rewrite (proj1 (proj2 (after_walk_fields _ _ _ _ _)))|apply after_walk_fields|apply after_walk_fields|by intros a; apply writes_keeps| |].
  - rewrite <-Hdone. unfold after_walk. destruct (bool_decide (R' = [])); cbn [add_flags set_flags set_stack c_flags]; [|done]. rewrite flag_lor. apply orb_true_r.
  - intros Hn. rewrite Hdone, bool_decide_eq_false_2 by lia. unfold after_walk, unpack_state. cbn [set_stack c_flags fAdvance stack_size pBaseBuf local_size pStack bConverted c_partial_length]. rewrite Hno, Hadv. split; [done|].
    rewrite <-HR'. assert (HRne' : R' ≠ []) by (intros E; rewrite E in HR'; symmetry in HR'; apply (f_equal length) in HR'; rewrite length_drop in HR'; cbn in HR'; lia).
    destruct (Hrest HRne') as [Hok _]. refine (conv_ok_io _ _ _ _ _ _ _ _ io' _ _ _ _ Hok); [done|]. intros a Ha. cbn [reach unpacking_laws] in *. change (is_Some (up_mem io' !! a)) in Ha. by rewrite Hmem in Ha.
Qed.

(** A call on a convertor that has [R] to go. *)
Lemma unpack_call_ok m c d its R iov : basic_small d → receiving m c d its R →
  ∃ r, opal_convertor_unpack temporary_buffer m c iov = Some r ∧ unpack_step m R (bConverted c) iov r ∧ receiving (uc_mem r) (uc_conv r) d its (drop (length (received iov)) R).
Proof.
  intros Hsmall Hs. destruct (flag (c_flags c) CONVERTOR_COMPLETED) eqn:Hcp.
  { unfold opal_convertor_unpack. rewrite Hcp. pose proof (rc_state _ _ _ _ _ Hs) as HR. rewrite Hcp in HR. subst R. eexists. split; [done|]. rewrite drop_nil. split; [|done].
    split; cbn; [done|symmetry; apply bool_decide_eq_true_2; lia|done|lia]. }
  destruct (flag (c_flags c) CONVERTOR_NO_OP) eqn:Hno; [by apply no_op_unpack_ok|]. pose proof Hs as [Hdesc Hd Htot Hm Hst]. rewrite Hcp in Hst. destruct Hst as [HRne Hst].
  unfold unpack_state in Hst. rewrite Hno in Hst. assert (length R ≠ 0) by (by destruct R).
  unfold opal_convertor_unpack. rewrite Hcp, (proj2 (Nat.ltb_lt (bConverted c) (local_size c))), Hno by lia. destruct (fAdvance c) as [[]|] eqn:Hadv; try done.
  - by apply contig_unpack_ok.
  - by apply simple_unpack_ok.
Qed.

(** ** A sequence of calls *)

Fixpoint unpack_calls (m : memory) (c : opal_convertor_t) (calls : list (list filled)) : option (list unpacked_call * memory * opal_convertor_t) :=
  match calls with
  | [] => Some ([], m, c)
  | iov :: calls => r ← opal_convertor_unpack temporary_buffer m c iov; '(rs, m', c') ← unpack_calls (uc_mem r) (uc_conv r) calls; Some (r :: rs, m', c')
  end.

(** The data of all the buffers. *)
Definition arrived (calls : list (list filled)) : list byte := received (concat calls).

Lemma arrived_cons iov calls : arrived (iov :: calls) = received iov ++ arrived calls.
Proof. unfold arrived, received. cbn. by rewrite fmap_app, concat_app. Qed.

Lemma unpack_calls_ok m c d its R calls : basic_small d → receiving m c d its R → let n := length (arrived calls) in
  ∃ rs c', unpack_calls m c calls = Some (rs, writes R (arrived calls) m, c') ∧ bConverted c' = bConverted c + length R `min` n ∧ length R `min` n = sum_list (uc_max_data <$> rs) ∧
    receiving (writes R (arrived calls) m) c' d its (drop n R) ∧ (∀ r, last rs = Some r → uc_completed r = bool_decide (length R ≤ n)).
Proof.
  intros Hsmall. revert m c R; induction calls as [|iov calls IH]; intros m c R Hs; cbn [unpack_calls].
  { eexists [], c. cbn [arrived received concat fmap list_fmap length]. rewrite drop_0, Nat.min_0_r, Nat.add_0_r. assert (Hw : writes R [] m = m) by (by destruct R). unfold arrived, received. cbn. by rewrite Hw. }
  destruct (unpack_call_ok m c d its R iov Hsmall Hs) as (r & -> & [Hmax Hcomp Hmem Hconv] & Hs1). cbn [mbind option_bind].
  destruct (IH _ _ _ Hs1) as (rs & c' & -> & Hb & Hsum & Hs' & Hlast). cbn [mbind option_bind]. rewrite length_drop in *.
  rewrite arrived_cons, length_app, writes_twice, <-drop_drop, <-Hmem. eexists (r :: rs), c'. split_and!; [done|lia|cbn; lia|done|].
  intros r'. destruct rs as [|r2 rs].
  - cbn. intros [= <-]. cbn in Hsum. rewrite Hcomp. apply bool_decide_ext. lia.
  - intros Hr'. rewrite last_cons_cons in Hr'. rewrite (Hlast _ Hr'). apply bool_decide_ext. lia.
Qed.

(** C14: unpacking.  A convertor, with its static stack, is prepared for [count] elements
    of a datatype that is well formed for convertors ([dt_ok]: in particular the strides of
    entries with several blocks of up to eight elements are multiples of the basic size)
    and whose basic types have at most 16 bytes ([basic_small]; otherwise see
    [partial_overflow]).  Then any
    sequence of calls of [opal_convertor_unpack], with buffers of any sizes that end
    anywhere, also inside of basic elements, is defined and writes the data of the
    buffers, one byte after the other, to the addresses of the type map in their order,
    and nothing else.  A call reports completion exactly when the type map is full; what
    comes after that is ignored. *)
Theorem unpack_spec check_addr m c d its count buf calls : dt_ok d its → basic_small d → stack_size c = DT_STATIC_STACK_SIZE → flag (c_flags c) CONVERTOR_SEND = false →
  (Z.of_nat (count * d_size d) < 2 ^ 64)%Z → (Z.of_nat (count * S (work its)) < 2 ^ 64)%Z →
  let T := type_map d its buf count in mapped_in m T →
  ∃ c0 rs c', opal_convertor_prepare_for_recv check_addr c d count buf = Some c0 ∧ unpack_calls m c0 calls = Some (rs, writes T (arrived calls) m, c') ∧
    bConverted c' = length T `min` length (arrived calls) ∧ bConverted c' = sum_list (uc_max_data <$> rs) ∧
    (∀ r, last rs = Some r → uc_completed r = bool_decide (bConverted c' = length T)).
Proof.
  intros Hd Hsmall Hss Hsend Hsz HW T Hm. destruct (prepare_for_recv_ok check_addr m c d its count buf Hd Hss Hsend Hsz HW Hm) as (c0 & Hc0 & Hs & Hb0).
  destruct (unpack_calls_ok m c0 d its T calls Hsmall Hs) as (rs & c' & Hrun & Hb & Hsum & _ & Hlast). rewrite Hb0 in Hb. cbn in Hb. exists c0, rs, c'. rewrite Hb. split_and!; try done.
  intros r Hr. rewrite (Hlast r Hr). apply bool_decide_ext. lia.
Qed.

End recv.
End DtRecvSpec.
