(* ===== verification/DtUseSpec.v ===== *)
(** * From the constructors to the transfer

    What one convertor packs another one unpacks ([DtTransfer]); what a constructor has
    made is ready for [opal_datatype_commit], and what is committed is ready for
    convertors ([DtUseSpec]). *)

From stdpp Require Import base numbers list gmap.
From S2P Require Import Prelude DtDesc DtWalk DtCopy DtMap DtWalkSpec DtCopySpec DtPackSpec DtConv DtContigSpec DtConvSpec DtSendSpec DtRecvSpec DtBuild DtOptimize DtFuse DtOptSpec DtCommitSpec DtAddSpec DtTypes DtTypesSpec DtArraySpec.

(** ** From one process to another

    What one convertor packs, another one unpacks: any two datatypes that are well formed
    for convertors, any fragmentation on both sides. *)

Module DtTransfer.
Import DtDesc DtUnpack DtMap DtPackSpec DtUnpackSpec DtConv DtContigSpec DtConvSpec DtSendSpec DtRecvSpec.
Local Open Scope nat_scope.

Lemma lookup_writes_ne l bs (m : memory) a : a ∉ l → writes l bs m !! a = m !! a.
Proof.
  revert bs m; induction l as [|x l IH]; intros [|b bs] m Ha; try done. cbn. apply not_elem_of_cons in Ha as [Hx Ha]. rewrite IH by done. by apply lookup_insert_ne.
Qed.

Lemma lookup_writes l bs (m : memory) : NoDup l → length bs ≤ length l → mapM (writes l bs m !!.) (take (length bs) l) = Some bs.
Proof.
  revert bs m; induction l as [|x l IH]; intros [|b bs] m Hnd Hlen; cbn [length] in *; [done|lia|done|]. apply NoDup_cons in Hnd as [Hx Hnd]. cbn [take writes mapM]. rewrite lookup_writes_ne, lookup_insert_eq by done.
  cbn. rewrite IH by (done || lia). done.
Qed.

Section transfer.
Context `{AbiLaws} (temporary_buffer : Z).

(** The sender packs [countS] elements of a datatype from its memory
    with any sequence of calls that completes.  The receiver gets these bytes, cut into
    pieces in any way, and unpacks them into elements of another datatype, with no byte
    in it twice, and room for all of them.  Then the bytes of the receiver's type map
    are, in order, those of the sender's type map, and the rest of the receiver's memory
    is as before. *)
Lemma transfer_ok M check_addr mS cS dS itsS countS bufS callsS mR cR dR itsR countR bufR callsR :
  dt_ok dS itsS → basic_bound M dS → stack_size cS = DT_STATIC_STACK_SIZE → (Z.of_nat (countS * d_size dS) < 2 ^ 64)%Z → (Z.of_nat (countS * S (work itsS)) < 2 ^ 64)%Z →
  let TS := type_map dS itsS bufS countS in mapped_in mS TS → Forall (buffers_ok dS) callsS →
  dt_ok dR itsR → basic_small dR → stack_size cR = DT_STATIC_STACK_SIZE → flag (c_flags cR) CONVERTOR_SEND = false →
  (Z.of_nat (countR * d_size dR) < 2 ^ 64)%Z → (Z.of_nat (countR * S (work itsR)) < 2 ^ 64)%Z →
  let TR := type_map dR itsR bufR countR in mapped_in mR TR → NoDup TR → length TS ≤ length TR →
  ∃ cS0 rs cS', opal_convertor_prepare_for_send check_addr cS dS countS bufS = Some cS0 ∧ pack_calls mS cS0 callsS = Some (rs, cS') ∧
    (bConverted cS' = length TS → sent mS rs = Some (arrived callsR) →
     ∃ cR0 rs' cR' m', opal_convertor_prepare_for_recv check_addr cR dR countR bufR = Some cR0 ∧ unpack_calls temporary_buffer mR cR0 callsR = Some (rs', m', cR') ∧
       bConverted cR' = length TS ∧ mapM (m' !!.) (take (length TS) TR) = mapM (mS !!.) TS ∧ ∀ a, a ∉ TR → m' !! a = mR !! a).
Proof.
  intros HdS HM HssS HszS HWS TS HmS HcS HdR Hsmall HssR Hsend HszR HWR TR HmR Hnd Hlen.
  destruct (prepare_for_send_ok check_addr mS cS dS itsS countS bufS HdS HssS HszS HWS HmS) as (cS0 & HcS0 & HsS & HbS0).
  destruct (pack_calls_ok M mS cS0 dS itsS TS callsS HM HsS HcS) as (rs & cS' & k & HrunS & HbS & _ & _ & _ & (bs & Hbs & Hmap) & _). rewrite HbS0 in HbS. cbn in HbS.
  exists cS0, rs, cS'. split_and!; [done|done|]. intros Hall Hsent. rewrite Hbs in Hsent. injection Hsent as ->. rewrite Hall in HbS. rewrite <-HbS, firstn_all in Hmap.
  destruct (prepare_for_recv_ok temporary_buffer check_addr mR cR dR itsR countR bufR HdR HssR Hsend HszR HWR HmR) as (cR0 & HcR0 & HsR & HbR0).
  destruct (unpack_calls_ok temporary_buffer mR cR0 dR itsR TR callsR Hsmall HsR) as (rs' & cR' & HrunR & HbR & _). rewrite HbR0 in HbR. cbn in HbR.
  pose proof (length_mapM _ _ _ Hmap) as Hla. exists cR0, rs', cR', (writes TR (arrived callsR) mR). split_and!; [done|done|lia| |].
  - rewrite Hmap, Hla. apply lookup_writes; [done|lia].
  - intros a Ha. by apply lookup_writes_ne.
Qed.

End transfer.
End DtTransfer.

(** ** From the constructors to the transfer

    A datatype that a constructor has made is ready for [opal_datatype_commit], and what
    is committed is ready for convertors: the data of the type map that the constructors
    are documented to give arrives at the receiver. *)

Module DtUseSpec.
Import DtDesc DtPack DtUnpack DtMap DtBuild DtOptimize DtFuse DtOptSpec DtPackSpec DtUnpackSpec DtConv DtContigSpec DtConvSpec DtSendSpec DtRecvSpec DtTransfer DtCommitSpec DtAddSpec DtTypes DtTypesSpec DtStructSpec DtArraySpec.
Local Open Scope nat_scope.

Section ready.
Context `{AbiLaws} (Q : nat → Prop) (A : Prop) (debug : bool).

(** Not committed, with room for the end of loop, and within the limits of the fields. *)
Record ready (d : opal_datatype_t) (its : list item) : Prop := {
  rd_base : base_ok Q A debug d its;
  rd_data : its ≠ [];
  rd_room : length (desc d) < desc_length d;
  rd_blocks : (Z.of_nat (block_count its) < 2 ^ 32)%Z;
  rd_near : near (items_map 0 its);
}.

End ready.

(** Contiguous loops have no loops in them: what an assertion of the optimizer asks for. *)
Fixpoint plain_loops (i : item) : Prop :=
  match i with
  | Data _ => True
  | Rep _ _ c body => (c = true → Forall is_data body) ∧ foldr (λ i P, plain_loops i ∧ P) True body
  end.

Section commit.
Context `{AbiLaws} (Q : nat → Prop) (A : Prop).

Lemma src_ok_plain i : src_ok Q A false i → plain_loops i → src_ok Q A true i.
Proof.
  induction i as [e|n x c body IH] using item_rect'; intros Hsrc; inversion Hsrc as [|? ? ? ? Hn Hne Hb Ha Hc]; subst; clear Hsrc; cbn [plain_loops]; [by constructor|].
  intros [Hp Hbody]. constructor; [done|done| |done|].
  - clear Hn Hne Ha Hc Hp. induction IH as [|i body Hi _ IHb]; [constructor|]. cbn [foldr] in Hbody. destruct Hbody as [Hbi Hbody].
    apply Forall_cons in Hb as [Hsi Hb]. constructor; [by apply Hi|by apply IHb].
  - intros E. split; [by apply Hc|auto].
Qed.

Lemma ready_plain debug d its : ready Q A false d its → (debug = true → Forall plain_loops its) → ready Q A debug d its.
Proof.
  intros Hr Hp. destruct debug; [|done]. destruct Hr as [[[T1 T2 T3 T4 T5 T6 T7 T8 T9] B2 B3 B4 B5 B6] R2 R3 R4 R5]. split; try done. split; try done. split; try done.
  apply Forall_forall. intros i Hi. rewrite Forall_forall in T2. apply src_ok_plain; [by apply T2|]. by apply (proj1 (Forall_forall _ _) (Hp eq_refl)).
Qed.

(** C7: the optimizer.  Committing a datatype that is ready (not committed, well formed, with
    data, and within the limits of the fields) and whose data is aligned is defined; in a
    build with assertions ([debug]) this needs that contiguous loops have no loops in them
    (otherwise it can abort, see [nested_contiguous_aborts]).  The optimized description
    fits its array, it is well formed for convertors, contiguous data is a single entry,
    and its type map is that of the description that was optimized. *)
Theorem commit_spec debug d its : Q OPAL_DATATYPE_UINT1 → A → ready Q A false d its → (debug = true → Forall plain_loops its) →
  ∃ d' outs, opal_datatype_commit debug d = Some d' ∧ dt_ok d' outs ∧ items_map 0 outs = items_map 0 its ∧ length (opt_desc d') ≤ 2 * length (desc d) + 1 ∧ work outs ≤ 2 * work its ∧
    (∀ e, Elem e ∈ opt_desc d' → Q (e_type e)) ∧ d_size d' = d_size d ∧ d_extent d' = d_extent d ∧ true_lb d' = true_lb d.
Proof.
  intros HQ HA Hr Hp. destruct (ready_plain debug d its Hr Hp) as [Hb Hne Hroom Hbl Hnear].
  destruct (commit_ok Q A HQ debug d its HA (ba_type _ _ _ _ _ Hb) Hne (ba_committed _ _ _ _ _ Hb) Hroom Hbl Hnear) as (d' & outs & H1 & H2 & H3 & H4 & H5 & H6 & H7 & H8 & H9 & H10 & _).
  exists d', outs. unfold d_extent. rewrite H8, H9. done.
Qed.

End commit.

Section transfer.
Context `{AbiLaws} (temporary_buffer : Z).

(** Basic types that fit the buffer of the receiver. *)
Definition small (t : nat) : Prop := basic_size t ≤ buffer_size.

Lemma small_uint1 : small OPAL_DATATYPE_UINT1.
Proof. unfold small. rewrite uint1_size. unfold buffer_size. lia. Qed.

(** The type map of [count] elements does not change. *)
Lemma committed_map d d' its outs buf count : items_map 0 outs = items_map 0 its → d_lb d' = d_lb d → d_ub d' = d_ub d → type_map d' outs buf count = loop_map buf (d_extent d) 0 count its.
Proof. intros Hm Hl Hu. unfold type_map, loop_map, d_extent. rewrite Hl, Hu. apply flat_map_ext'. intros j _. rewrite items_map_base, Hm, <-items_map_base. done. Qed.

(** C6: two processes build datatypes, commit them (assertions off), and transfer data from
    one to the other.  The data of both types is aligned, their basic types have at most 16
    bytes ([small], see [partial_overflow]), and they are within the limits of the fields
    ([ready]); convertors have their static stack.  The sender packs [countS] elements
    with any sequence of calls that completes.  The receiver gets these bytes, cut into
    pieces in any way, and unpacks them into elements of its datatype, with no byte in it
    twice, and room for all of them.  Then the bytes of the type map that the receiver
    built are, in order, those of the type map that the sender built, and the rest of the
    receiver's memory is as before. *)
Theorem derived_transfer check_addr mS cS dS itsS countS bufS callsS mR cR dR itsR countR bufR callsR :
  ready small True false dS itsS → stack_size cS = DT_STATIC_STACK_SIZE → (Z.of_nat (countS * d_size dS) < 2 ^ 64)%Z → (Z.of_nat (countS * S (2 * work itsS)) < 2 ^ 64)%Z →
  let TS := loop_map bufS (d_extent dS) 0 countS itsS in mapped_in mS TS → Forall (λ iov, iov ≠ [] ∧ Forall (λ i : iovec_t, is_Some i.1) iov) callsS →
  ready small True false dR itsR → stack_size cR = DT_STATIC_STACK_SIZE → flag (c_flags cR) CONVERTOR_SEND = false → (Z.of_nat (countR * d_size dR) < 2 ^ 64)%Z → (Z.of_nat (countR * S (2 * work itsR)) < 2 ^ 64)%Z →
  let TR := loop_map bufR (d_extent dR) 0 countR itsR in mapped_in mR TR → NoDup TR → length TS ≤ length TR →
  ∃ dS' dR' cS0 rs cS', opal_datatype_commit false dS = Some dS' ∧ opal_datatype_commit false dR = Some dR' ∧
    opal_convertor_prepare_for_send check_addr cS dS' countS bufS = Some cS0 ∧ pack_calls mS cS0 callsS = Some (rs, cS') ∧
    (bConverted cS' = length TS → sent mS rs = Some (arrived callsR) →
     ∃ cR0 rs' cR' m', opal_convertor_prepare_for_recv check_addr cR dR' countR bufR = Some cR0 ∧ unpack_calls temporary_buffer mR cR0 callsR = Some (rs', m', cR') ∧
       bConverted cR' = length TS ∧ mapM (m' !!.) (take (length TS) TR) = mapM (mS !!.) TS ∧ ∀ a, a ∉ TR → m' !! a = mR !! a).
Proof.
  intros [SB Sne Sr Sbl Sn] HssS HszS HWS TS HmS HcS [RB Rne Rr Rbl Rn] HssR Hsend HszR HWR TR HmR Hnd Hlen.
  destruct (commit_ok small True small_uint1 false dS itsS I (ba_type _ _ _ _ _ SB) Sne (ba_committed _ _ _ _ _ SB) Sr Sbl Sn) as (dS' & outS & S1 & S2 & S3 & S4 & _ & S5 & S6 & S7 & S8 & _).
  destruct (commit_ok small True small_uint1 false dR itsR I (ba_type _ _ _ _ _ RB) Rne (ba_committed _ _ _ _ _ RB) Rr Rbl Rn) as (dR' & outR & R1 & R2 & R3 & R4 & _ & R5 & R6 & R7 & R8 & _).
  pose proof (committed_map dS dS' itsS outS bufS countS S3 S7 S8) as ES. pose proof (committed_map dR dR' itsR outR bufR countR R3 R7 R8) as ER. fold TS in ES. fold TR in ER.
  destruct (transfer_ok temporary_buffer buffer_size check_addr mS cS dS' outS countS bufS callsS mR cR dR' outR countR bufR callsR) as (cS0 & rs & cS' & Hp & Hc & Hrest); rewrite ?ES, ?ER, ?S6, ?R6; try done; try nia.
  - split; [unfold buffer_size; lia|done].
  - eapply Forall_impl; [exact HcS|]. intros iov [H1 H2]. split; [done|by left].
  - rewrite ES, ER in Hrest. exists dS', dR', cS0, rs, cS'. done.
Qed.

End transfer.

Section constructors.
Context `{AbiLaws} (Q : nat → Prop) (A : Prop).

Lemma built_ready d its m k n old : built Q A d its m k n old → m ≠ [] → (Z.of_nat k < 2 ^ 32)%Z → near m → ready Q A false d its.
Proof. intros [B1 B2 B3 B4 B5 B6] Hne Hk Hn. split; [done| |lia|lia|by rewrite B2]. intros ->. by rewrite <-B2 in Hne. Qed.


(** C12: vectors.  A vector, with its stride in elements or in bytes, has the type map of
    [count] blocks of [bLength] copies, and is ready to be committed.  The distance between
    the blocks is not minus one byte (which [opal_datatype_add] takes as the extent of the
    old datatype, see [hvector_minus_one]); [vector_ok] says that the old datatype is well
    formed and has data, that there are blocks and that they have elements, that sizes,
    entries and addresses are within the limits of the fields, and, if the data is to be
    aligned, that the extent and the distance keep the alignment. *)
Theorem vector_spec d its count bLength stride : (Z.of_nat (count * bLength) < 2 ^ 31)%Z →
  (vector_ok Q A d its count bLength (d_extent d * stride) → (d_extent d * stride ≠ -1)%Z →
     ∃ d' new, ompi_datatype_create_vector count bLength stride d = Some d' ∧ ready Q A false d' new ∧ items_map 0 new = vector_map its (d_extent d) (d_extent d * stride) count bLength) ∧
  (vector_ok Q A d its count bLength stride → stride ≠ (-1)%Z →
     ∃ d' new, ompi_datatype_create_hvector count bLength stride d = Some d' ∧ ready Q A false d' new ∧ items_map 0 new = vector_map its (d_extent d) stride count bLength).
Proof.
  intros H31. assert (Hne : ∀ s, vector_ok Q A d its count bLength s → vector_map its (d_extent d) s count bLength ≠ []).
  { intros s Hv E%(f_equal length). rewrite vector_map_length, <-(ty_size _ _ _ _ _ (od_type _ _ _ _ (vo_old _ _ _ _ _ _ _ Hv))) in E. pose proof (old_size Q A _ _ (vo_old _ _ _ _ _ _ _ Hv)). destruct Hv. cbn in E. nia. }
  split; intros Hv Hst.
  - destruct (create_vector_ok Q A d its count bLength stride Hv Hst) as (d' & new & n & Hd & _ & Hb). exists d', new. split_and!; [done|eapply built_ready; [done|by apply Hne|apply Hv|apply Hv]|apply Hb].
  - destruct (create_hvector_ok Q A d its count bLength stride Hv Hst H31) as (d' & new & n & Hd & _ & Hb). exists d', new. split_and!; [done|eapply built_ready; [done|by apply Hne|apply Hv|apply Hv]|apply Hb].
Qed.

(** C11: blocks.  An indexed datatype, with displacements in elements or in bytes, has the type
    map of its blocks in their order; empty blocks count for nothing, and blocks that
    follow each other are not seen in the type map. *)
Theorem indexed_spec d its blocks : 0 < indexed_total blocks →
  (indexed_ok Q A d its (d_extent d) blocks →
     ∃ d' new, ompi_datatype_create_indexed blocks d = Some d' ∧ ready Q A false d' new ∧ items_map 0 new = flat_map (λ '(n, x), loop_map (x * d_extent d) (d_extent d) 0 n its) blocks) ∧
  (indexed_ok Q A d its 1 blocks →
     ∃ d' new, ompi_datatype_create_hindexed blocks d = Some d' ∧ ready Q A false d' new ∧ items_map 0 new = flat_map (λ '(n, x), loop_map (x * 1) (d_extent d) 0 n its) blocks).
Proof.
  intros Ht. assert (Hne : ∀ s, indexed_ok Q A d its s blocks → indexed_map its (d_extent d) s blocks ≠ []).
  { intros s Hv E%(f_equal length). rewrite indexed_map_length, <-(ty_size _ _ _ _ _ (od_type _ _ _ _ (io_old _ _ _ _ _ _ Hv))) in E. pose proof (old_size Q A _ _ (io_old _ _ _ _ _ _ Hv)). cbn in E. nia. }
  split; intros Hv.
  - destruct (create_indexed_ok Q A d its blocks Hv Ht) as (d' & new & n & Hd & _ & Hb). exists d', new. split_and!; [done|eapply built_ready; [done|by apply Hne|apply Hv|apply Hv]|apply Hb].
  - destruct (create_hindexed_ok Q A d its blocks Hv Ht) as (d' & new & n & Hd & _ & Hb). exists d', new. split_and!; [done|eapply built_ready; [done|by apply Hne|apply Hv|apply Hv]|apply Hb].
Qed.

(** C10: structures.  The type map is that of the members in their order, whether or not
    members of the same type are added as one. *)
Theorem struct_spec deref tree members : struct_ok Q A deref tree members → 0 < struct_size deref members →
  ∃ d' new, ompi_datatype_create_struct deref members = Some d' ∧ ready Q A false d' new ∧ items_map 0 new = flat_map (λ '(n, x, t), loop_map x (d_extent (deref t)) 0 n (tree t)) members.
Proof.
  intros Hok Hs. destruct (create_struct_ok Q A deref tree members Hok Hs) as (d' & new & n & Hd & Hb). exists d', new. split_and!; [done| |apply Hb].
  eapply built_ready; [done| |apply Hok|apply Hok]. intros E%(f_equal length). rewrite (struct_map_length Q A deref tree members Hok) in E. cbn in E. lia.
Qed.

(** C9: subarrays.  The type map is that of the part of the array, in the order of the array;
    the extent is that of the whole array. *)
Theorem subarray_spec d its dims order : let ordered := match order with MPI_ORDER_C => reverse dims | MPI_ORDER_FORTRAN => dims end in array_ok Q A d its ordered → dims ≠ [] →
  ∃ d' new, ompi_datatype_create_subarray dims order d = Some d' ∧ ready Q A false d' new ∧ items_map 0 new = subarray_map (items_map 0 its) (d_extent d) ordered ∧
    d_lb d' = 0%Z ∧ d_extent d' = (array_size ordered * d_extent d)%Z.
Proof.
  intros ordered Hok Hne. destruct (create_subarray_ok Q A d its dims order Hok Hne) as (d' & new & n & Hd & Hb & Hl & Hu). fold ordered in Hb, Hu. exists d', new. split_and!; [done| |apply Hb|done|].
  2: { change (d_extent d') with (d_ub d' - d_lb d')%Z. lia. }
  eapply built_ready; [done| |apply Hok|apply Hok]. intros E%(f_equal length). rewrite subarray_map_length in E. pose proof (part_size_pos ordered (ao_dims _ _ _ _ _ Hok)). pose proof (old_size Q A _ _ (ao_old _ _ _ _ _ Hok)) as Hs. rewrite (ty_size _ _ _ _ _ (od_type _ _ _ _ (ao_old _ _ _ _ _ Hok))) in Hs. cbn in E. nia.
Qed.

End constructors.
End DtUseSpec.
