(* ===== verification/DtPositionSpec.v ===== *)
(** * A convertor at a position has the rest of the type map to go *)

From stdpp Require Import base numbers list gmap.
From S2P Require Import Prelude DtDesc DtWalk DtCopy DtMap DtWalkSpec DtCopySpec DtPackSpec DtConv DtContigSpec DtConvSpec DtSendSpec DtRecvSpec DtPosition.

Module DtPositionSpec.
Import DtDesc DtWalk DtUnpack DtMap DtWalkSpec DtCopySpec DtUnpackSpec DtConv DtContigSpec DtConvSpec DtSendSpec DtRecvSpec DtPosition.
Local Open Scope nat_scope.

Section position.
Context `{AbiLaws}.

(** ** Data *)

(** From the start of a block, or nothing. *)
Lemma basic_at_from_block b e m k : 0 < e_blocklen e → m mod e_blocklen e = 0 ∨ k = 0 →
  basic_at b e (m + k) = (basic_at b e m + Z.of_nat (k / e_blocklen e) * e_extent e + Z.of_nat ((k - k / e_blocklen e * e_blocklen e) * basic_size (e_type e)))%Z.
Proof.
  intros Hb [Hm| ->]; [|rewrite Nat.Div0.div_0_l, Nat.add_0_r; cbn; lia]. pose proof (Nat.div_mod_eq k (e_blocklen e)) as Hk. pose proof (Nat.mod_upper_bound k (e_blocklen e) ltac:(lia)) as Hr.
  apply Nat.Div0.div_exact in Hm. set (q := m / e_blocklen e) in *. replace (k - k / e_blocklen e * e_blocklen e) with (k mod e_blocklen e) by lia.
  replace (m + k) with ((q + k / e_blocklen e) * e_blocklen e + k mod e_blocklen e) by lia. rewrite basic_at_block, basic_at_blocks by done. replace m with (q * e_blocklen e) by lia. lia.
Qed.

Lemma position_predefined_data_ok e b count n : elem_ok e → 0 < count ≤ e_total e → let k := count `min` (n / basic_size (e_type e)) in
  position_predefined_data e count (basic_at b e (e_total e - count) - e_disp e) n =
    Some (count - k, (basic_at b e (e_total e - count + k) - e_disp e)%Z, n - k * basic_size (e_type e)).
Proof.
  intros [_ Hb Hs _] Hc k. set (m := e_total e - count). set (size := basic_size (e_type e)) in *. unfold position_predefined_data. fold size.
  rewrite (proj2 (Nat.eqb_neq size 0)), (proj2 (Nat.leb_le count (e_total e))) by lia. cbn [negb]. set (cando := if count <? n / size then count else n / size).
  assert (Hcando : cando = k) by (unfold cando, k; destruct (Nat.ltb_spec count (n / size)); lia). destruct (negb (count <? n / size) && (n / size =? 0)) eqn:E.
  { apply andb_prop in E as [_ E%Nat.eqb_eq]. unfold k. rewrite E, Nat.min_0_r, Nat.mul_0_l, !Nat.sub_0_r, Nat.add_0_r. done. }
  clear E. rewrite Hcando. clear cando Hcando. replace (basic_at b e m - e_disp e + e_disp e)%Z with (basic_at b e m) by lia. destruct (Nat.eqb_spec (e_blocklen e) 1) as [E1|E1].
  { rewrite (basic_at_from_block b e m k), E1, Nat.div_1_r by (try lia; rewrite ?E1, ?Nat.mod_1_r; auto). do 2 f_equal. f_equal. lia. }
  rewrite (proj2 (Nat.eqb_neq (e_blocklen e) 0)) by lia. cbn [negb]. fold m. set (r := m mod e_blocklen e). assert (Hr : r < e_blocklen e) by (apply Nat.mod_upper_bound; lia).
  set (t := if r =? 0 then 0 else k `min` (e_blocklen e - r)).
  assert (Ht : t ≤ k ∧ r + t ≤ e_blocklen e ∧ ((m + t) mod e_blocklen e = 0 ∨ k - t = 0)).
  { unfold t. destruct (Nat.eqb_spec r 0) as [E|E]; [split_and!; [lia|lia|left; rewrite Nat.add_0_r; exact E]|]. split_and!; [lia|lia|]. destruct (decide (k ≤ e_blocklen e - r)) as [|Hk]; [right; lia|left].
    rewrite Nat.min_r by lia. pose proof (Nat.div_mod_eq m (e_blocklen e)) as Hm. fold r in Hm. replace (m + (e_blocklen e - r)) with ((m / e_blocklen e + 1) * e_blocklen e) by lia. apply Nat.Div0.mod_mul. }
  destruct Ht as (Htk & Hrt & Hal). set (block := if r =? 0 then _ else _).
  assert (Hblock : block = (basic_at b e (m + t), n - t * size, count - t, k - t)).
  { unfold block, t. destruct (Nat.eqb_spec r 0) as [E|E]; [by rewrite Nat.mul_0_l, !Nat.sub_0_r, Nat.add_0_r|].
    assert (Hmin : (if k <? e_blocklen e - r then k else e_blocklen e - r) = k `min` (e_blocklen e - r)) by (destruct (Nat.ltb_spec k (e_blocklen e - r)); lia). rewrite Hmin.
    rewrite (basic_at_in_block b e m (k `min` (e_blocklen e - r))) by (fold r; lia). fold r size.
    assert (((r + k `min` (e_blocklen e - r)) =? e_blocklen e) = (k `min` (e_blocklen e - r) =? e_blocklen e - r)) as ->.
    { apply eq_iff_eq_true. rewrite !Nat.eqb_eq. lia. }
    destruct (k `min` (e_blocklen e - r) =? e_blocklen e - r)%nat; do 3 f_equal; lia. }
  rewrite Hblock. clearbody t. clear block Hblock. replace (m + k) with (m + t + (k - t)) by lia. rewrite (basic_at_from_block b e (m + t) (k - t)) by done. fold size.
  pose proof (Nat.Div0.div_mod (k - t) (e_blocklen e)). set (q := (k - t) / e_blocklen e) in *. assert (Hq : q * e_blocklen e ≤ k - t) by lia.
  assert (Hsum : k * size = t * size + q * (e_blocklen e * size) + (k - t - q * e_blocklen e) * size).
  { rewrite Nat.mul_assoc, <-!Nat.mul_add_distr_r. f_equal. lia. }
  f_equal. f_equal; [f_equal; lia|lia].
Qed.

(** ** The walk *)

Section walk.
Context (description : list dt_elem_desc) (its0 : list item) (extent : Z) (stack_size : nat) (pBaseBuf : Z).
Context (Hdesc : describes description its0) (Hits0 : Forall item_ok its0) (Hdepth0 : 1 + depth its0 < stack_size).
Context (Hsolid : ∀ el, EndLoop el ∈ description → end_size el ≠ 0).

Abbreviation place := (place description its0 extent stack_size pBaseBuf).
Abbreviation walk_ok := (walk_ok description its0 extent stack_size pBaseBuf).

(** A walk with [R] to go, of which [w_io w] bytes are skipped: inside of a loop it stops
    in the current round. *)
Definition pos_ok (w : walk nat) (R : list Z) (W : nat) : Prop :=
  ∃ its R' W', place (w_stack w) (pos_desc w) its R' W' ∧ counters_ok pBaseBuf w its ∧ R = left_at pBaseBuf w its R' ∧ W = work its + W' ∧
    w_io w < length R ∧ (2 ≤ length (w_stack w) → w_io w < length (left_at pBaseBuf w its [])).

Lemma pos_starts w its R' W' : place (w_stack w) (pos_desc w) its R' W' → starts pBaseBuf w its → let R := items_map (base pBaseBuf (w_stack w)) its ++ R' in
  w_io w < length R → (2 ≤ length (w_stack w) → w_io w < length (items_map 0 its)) → pos_ok w R (work its + W').
Proof.
  intros Hp [Hc Hl] R Hn Hs. exists its, R', W'. rewrite Hl. split_and!; [done|done|done|done|done|]. intros Hst. rewrite Hl, app_nil_r, items_map_length. auto.
Qed.

(** Where the walk stops: at an element of which [p] bytes are skipped. *)
Definition stopped (w : walk nat) (R : list Z) (W p : nat) : Prop :=
  ∃ e W', description !! pos_desc w = Some (Elem e) ∧ walk_ok w R W' ∧ W' ≤ W ∧ p < basic_size (e_type e).

Definition position_steps (w : walk nat) (R : list Z) (W : nat) (r : walk nat + option (bool * option nat * walk nat)) : Prop :=
  match r with
  | inl w' => ∃ k W', w_io w = k + w_io w' ∧ pos_ok w' (drop k R) W' ∧ W' < W
  | inr (Some (false, Some p, w')) => ∃ k, w_io w = k + p ∧ stopped w' (drop k R) W p
  | inr _ => False
  end.

Lemma position_step_data stack pos e its R' W' count ptr n : place stack pos (Data e :: its) R' W' → 0 < count ≤ e_total e →
  ptr = (basic_at (base pBaseBuf stack) e (e_total e - count) - e_disp e)%Z →
  let T := items_map (base pBaseBuf stack) its ++ R' in let R := elem_map (base pBaseBuf stack) e (e_total e - count) count ++ T in
  n < length R → (2 ≤ length stack → n < count * basic_size (e_type e) + length (items_map 0 its)) →
  position_steps (mk_walk stack pos count ptr n) R (work (Data e :: its) + W') (position_step description extent stack_size pBaseBuf (mk_walk stack pos count ptr n)).
Proof.
  intros Hp Hc -> T R Hn Hlev. destruct (place_entry _ _ _ _ _ _ _ _ _ _ _ Hp) as (d & code & el & tail & Hi & Hl & _). cbn [flatten_item] in Hi. simplify_eq.
  pose proof (pl_ok _ _ _ _ _ _ _ _ _ _ Hp) as Hok. inversion Hok as [|? ? He _]; subst. inversion He as [? He'|]; subst. clear He. assert (Hs : 0 < basic_size (e_type e)) by (by destruct He').
  unfold position_step. cbn [pos_desc count_desc conv_ptr w_io w_stack]. rewrite Hl. pose proof (position_predefined_data_ok e (base pBaseBuf stack) count n He' Hc) as Hd. cbv zeta in Hd. rewrite Hd. clear Hd.
  set (k := count `min` (n / basic_size (e_type e))) in *. set (size := basic_size (e_type e)) in *. pose proof (Nat.div_mod_eq n size) as Hdm. pose proof (Nat.mod_upper_bound n size ltac:(lia)) as Hmod.
  assert (Hkn : k * size ≤ n) by (unfold k; nia). pose proof (elem_map_split (base pBaseBuf stack) e count k ltac:(lia)) as Hsplit.
  assert (Hdrop : drop (k * size) R = elem_map (base pBaseBuf stack) e (e_total e - (count - k)) (count - k) ++ T).
  { unfold R. rewrite Hsplit, <-app_assoc. apply drop_app_length'. by rewrite elem_map_length. }
  destruct (count - k) as [|c'] eqn:Ek.
  - cbn [elem_map seq flat_map app] in Hdrop. assert (k = count) as Hkc by lia. pose proof (place_tail _ _ _ _ _ Hdepth0 _ _ _ _ _ _ Hp) as Hp'. cbn [flatten_item length] in Hp'. rewrite Nat.add_1_r in Hp'.
    destruct (move_to_at description its0 extent stack_size pBaseBuf Hdepth0 stack (S pos) its R' W' (n - k * size) Hp') as (w & -> & Hio & Hst & Hps & Hstart & _). cbn [lift_move position_steps w_io].
    exists (k * size), (work its + W'). rewrite Hio, Hdrop. split_and!; [lia| |rewrite work_cons; cbn; lia]. unfold T. rewrite <-Hst. apply pos_starts; [by rewrite Hst, Hps|done| |].
    + rewrite Hio, Hst. fold T. unfold R in Hn. rewrite length_app, elem_map_length in Hn. fold size in Hn. subst k. nia.
    + rewrite Hst, Hio. intros H2. specialize (Hlev H2). fold size in Hlev. nia.
  - cbn [position_steps w_io]. exists (k * size). split; [lia|]. rewrite <-Ek in *. assert (Hk : k = n / size) by (unfold k; lia).
    exists e, (work (Data e :: its) + W'). cbn [pos_desc]. split_and!; [done| |lia|rewrite Hk; fold size; nia]. exists (Data e :: its), R', W'. cbn [w_stack pos_desc counters_ok count_desc conv_ptr left_at].
    split_and!; [done| |lia| |by rewrite Hdrop|done]; [lia|]. do 2 f_equal. lia.
Qed.

Lemma position_step_loop stack pos n x c body its R' W' m : place stack pos (Rep n x c body :: its) R' W' →
  let R := items_map (base pBaseBuf stack) (Rep n x c body :: its) ++ R' in
  m < length R → (2 ≤ length stack → m < length (items_map 0 (Rep n x c body :: its))) →
  position_steps (mk_walk stack pos n (base pBaseBuf stack) m) R (work (Rep n x c body :: its) + W') (position_step description extent stack_size pBaseBuf (mk_walk stack pos n (base pBaseBuf stack) m)).
Proof.
  intros Hp R Hm Hlev. destruct (place_entry _ _ _ _ _ _ _ _ _ _ _ Hp) as (d & code & el & tail & Hi & Hl & Hd). rewrite flatten_rep in Hi. simplify_eq.
  pose proof (pl_ok _ _ _ _ _ _ _ _ _ _ Hp) as Hok. inversion Hok as [|? ? He _]; subst. inversion He as [|? ? ? ? Hn Hbody _]; subst. clear He.
  assert (Hend : description !! (pos + S (length (flatten body))) = Some (EndLoop (mk_endloop (S (length (flatten body))) (length (items_map 0 body)) (hd 0%Z (items_map 0 body))))).
  { rewrite <-app_assoc in Hd. apply drop_past in Hd. rewrite Nat.add_succ_comm in Hd. by apply drop_at in Hd as [? _]. }
  unfold position_step, position_loop. cbn [pos_desc count_desc conv_ptr w_io w_stack]. rewrite Hl. cbn [items]. rewrite Hend. cbn [end_size l_extent items].
  set (S0 := length (items_map 0 body)) in *. assert (HS : S0 ≠ 0) by (apply (Hsolid _ (list_elem_of_lookup_2 _ _ _ Hend))). rewrite (proj2 (Nat.eqb_neq S0 0) HS).
  pose proof (Nat.div_mod_eq m S0) as Hdm. pose proof (Nat.mod_upper_bound m S0 HS) as Hmod. set (k := if n <=? m / S0 then n else m / S0).
  assert (Hk : k = n `min` (m / S0)) by (unfold k; destruct (Nat.leb_spec n (m / S0)); lia). clearbody k. assert (Hkm : k * S0 ≤ m) by nia.
  assert (HR : R = loop_map (base pBaseBuf stack) x 0 k body ++ loop_map (base pBaseBuf stack) x k (n - k) body ++ items_map (base pBaseBuf stack) its ++ R').
  { unfold R. rewrite items_map_cons, item_map_rep, <-app_assoc. replace n with (k + (n - k)) at 1 by lia. by rewrite loop_map_add, <-app_assoc. }
  assert (Hdrop : drop (k * S0) R = loop_map (base pBaseBuf stack) x k (n - k) body ++ items_map (base pBaseBuf stack) its ++ R').
  { rewrite HR at 1. apply drop_app_length'. by rewrite loop_map_length. }
  assert (Hlen : length R = n * S0 + length (items_map 0 its ++ R')) by (unfold R; rewrite items_map_cons, item_map_rep, !length_app, loop_map_length, (items_map_length its (base pBaseBuf stack)); fold S0; lia).
  rewrite items_map_cons, item_map_rep, length_app, loop_map_length in Hlev. fold S0 in Hlev. rewrite length_app in Hlen.
  destruct (decide (k = n)) as [Ekn|Ekn].
  - rewrite (proj2 (Nat.eqb_neq k 0)), (proj2 (Nat.eqb_eq (n - k) 0)) by lia. cbn [negb andb]. pose proof (place_tail _ _ _ _ _ Hdepth0 _ _ _ _ _ _ Hp) as Hp'. rewrite flatten_rep in Hp'. cbn [length] in Hp'. rewrite length_app in Hp'. cbn [length] in Hp'.
    replace (pos + S (length (flatten body) + 1)) with (pos + (S (length (flatten body)) + 1)) in Hp' by lia.
    destruct (move_to_at description its0 extent stack_size pBaseBuf Hdepth0 _ _ _ _ _ (m - k * S0) Hp') as (w & -> & Hio & Hst & Hps & Hstart & _). cbn [lift_move position_steps w_io].
    exists (k * S0), (work its + W'). rewrite Hio, Hdrop, Ekn, Nat.sub_diag. cbn [loop_map seq flat_map app]. split_and!; [lia| |rewrite work_cons, work_rep; lia].
    rewrite <-Hst. apply pos_starts; [by rewrite Hst, Hps|done|rewrite Hio, Hst, length_app, (items_map_length its (base pBaseBuf stack)); nia|]. rewrite Hst, Hio. intros H2. specialize (Hlev H2). nia.
  - assert (negb (k =? 0) && (n - k =? 0) = false) as -> by (rewrite (proj2 (Nat.eqb_neq (n - k) 0)) by lia; apply andb_false_r).
    replace (base pBaseBuf stack + Z.of_nat k * x - base pBaseBuf stack)%Z with (Z.of_nat k * x)%Z by lia.
    destruct (enter_loop_at description its0 extent stack_size pBaseBuf Hdesc Hdepth0 _ _ _ _ _ _ _ _ _ k (m - k * S0) Hp ltac:(lia)) as (w & R2 & W2 & -> & Hio & Hp' & Hstart & Heq & HW & _).
    cbn [lift_move position_steps w_io]. exists (k * S0), (work body + W2). rewrite Hio, Hdrop, <-Heq. assert (m - k * S0 < S0) by (rewrite Hk, Nat.min_r by lia; nia).
    split_and!; [lia| |exact HW]. apply pos_starts; [done|done|rewrite Hio, length_app, (items_map_length body (base pBaseBuf (w_stack w))); fold S0; lia|]. intros _. rewrite Hio. fold S0. lia.
Qed.

Lemma position_step_end stack pos count ptr n R W : cont description its0 extent stack_size pBaseBuf stack pos R W → length stack < 2 → n < length R →
  position_steps (mk_walk stack pos count ptr n) R W (position_end_of_loop description extent pBaseBuf (mk_walk stack pos count ptr n)).
Proof.
  intros Hcont Hst Hn. unfold position_end_of_loop. cbn [w_stack pos_desc w_io count_desc conv_ptr].
  inversion Hcont as [type c disp Hc|? ? ? ? ? ? ? ? ? ? ? stack' ? ? ? ? ? ? ? ? Hne]; subst; [|destruct stack'; [done|cbn in Hst; lia]]. cbn [s_count s_index s_type s_disp].
  destruct c as [|[|c]]; [lia|cbn in Hn; lia|]. pose proof Hdesc as [el Hd].
  destruct (move_to_at description its0 extent stack_size pBaseBuf Hdepth0 [mk_stack None type (S c) (disp + extent)] 0 its0 (loop_map (pBaseBuf + (disp + extent)) extent 1 c its0) (S (c * S (work its0))) n) as (w & -> & Hio & Hs & Hps & Hstart & _).
  { apply (cont_place _ _ _ _ _ Hdesc _ _ _ _ _ [EndLoop el]); [by rewrite drop_0|done|cbn [length]; lia|done|]. rewrite <-(Nat.sub_0_r c) at 2 3. change (c - 0) with (S c - 1). apply cont_bottom. lia. }
  cbn [lift_move position_steps w_io]. exists 0, (work its0 + S (c * S (work its0))). rewrite Hio, drop_0. split_and!; [done| |cbn; lia].
  assert (Heq : loop_map (pBaseBuf + disp) extent 1 (S (S c) - 1) its0 = items_map (base pBaseBuf (w_stack w)) its0 ++ loop_map (pBaseBuf + (disp + extent)) extent 1 c its0).
  { rewrite Hs. cbn [base s_disp]. replace (S (S c) - 1) with (S c) by lia. rewrite loop_map_S. replace (pBaseBuf + (disp + extent))%Z with (pBaseBuf + disp + Z.of_nat 1 * extent)%Z by lia. by rewrite loop_map_next. }
  rewrite Heq in Hn |- *. apply pos_starts; [rewrite Hs, Hps|done|by rewrite Hio|rewrite Hs; cbn [length]; lia].
  apply (cont_place _ _ _ _ _ Hdesc _ _ _ _ _ [EndLoop el]); [by rewrite drop_0|done|cbn [length]; lia|done|]. rewrite <-(Nat.sub_0_r c) at 2 3. change (c - 0) with (S c - 1). apply cont_bottom. lia.
Qed.

Lemma position_step_ok w R W : pos_ok w R W → position_steps w R W (position_step description extent stack_size pBaseBuf w).
Proof.
  destruct w as [stack pos count ptr n]. intros (its & R' & W' & Hp & Hc & HR & HW & Hn & Hlev). cbn [w_stack pos_desc w_io] in *. subst W. destruct its as [|[e|k x c body] its].
  - destruct (pl_code _ _ _ _ _ _ _ _ _ _ Hp) as (el & tail & [Hl _]%drop_at). unfold position_step. cbn [pos_desc]. rewrite Hl. cbn [left_at items_map flat_map app work foldr Nat.add] in *. subst R.
    pose proof (pl_cont _ _ _ _ _ _ _ _ _ _ Hp) as Hcont. cbn [flatten flat_map length] in Hcont. rewrite Nat.add_0_r in Hcont. apply position_step_end; [done| |done]. cbn [length] in Hlev. lia.
  - cbn [counters_ok left_at count_desc conv_ptr w_stack] in Hc, HR, Hlev. destruct Hc as [Hc Hptr]. subst R. apply position_step_data; [done|done|done|done|].
    intros H2. specialize (Hlev H2). rewrite app_nil_r, length_app, elem_map_length, items_map_length in Hlev. done.
  - cbn [counters_ok left_at count_desc conv_ptr w_stack] in Hc, HR, Hlev. destruct Hc as [-> ->]. subst R. apply position_step_loop; [done|done|].
    intros H2. specialize (Hlev H2). by rewrite app_nil_r, (items_map_length (Rep k x c body :: its) (base pBaseBuf stack)) in Hlev.
Qed.

Lemma position_walk_ok w R W : pos_ok w R W → (Z.of_nat W < 2 ^ 64)%Z →
  ∃ k p w', position_walk description extent stack_size pBaseBuf w = Some (false, Some p, w') ∧ w_io w = k + p ∧ stopped w' (drop k R) W p.
Proof.
  intros Hw HW. unfold position_walk.
  destruct (loop_bound (position_step description extent stack_size pBaseBuf) (λ v b, ∃ k, w_io w = k + w_io v ∧ pos_ok v (drop k R) b ∧ b ≤ W)
    (λ r, ∃ k p w', r = Some (false, Some p, w') ∧ w_io w = k + p ∧ stopped w' (drop k R) W p) 64 w W) as (r & -> & Hq); [| |done|done].
  - intros v b (k & Hk & Hv & Hb). pose proof (position_step_ok v _ _ Hv) as Hstep. destruct (position_step _ _ _ _ v) as [v'|[[[[] [p|]] v']|]]; try done.
    + destruct Hstep as (k' & b' & Hk' & Hv' & Hb'). exists b'. split; [|done]. exists (k + k'). rewrite <-drop_drop. split_and!; [lia|done|lia].
    + destruct Hstep as (k' & Hk' & e & W' & ? & ? & ? & ?). exists (k + k'), p, v'. rewrite <-drop_drop. split_and!; [done|lia|]. exists e, W'. split_and!; try done. lia.
  - exists 0. by rewrite drop_0.
Qed.

(** At a position the convertor goes on with the next byte; a sender with the element
    the position is in. *)
Lemma stopped_conv {IO} {HC : Copy IO} {HL : CopyLaws IO} w R W p total io : stopped w R W p → (Z.of_nat W < 2 ^ 64)%Z → pending io = p → Forall (reach io) R → p < length R → ∀ type n, n + (length R - p) = total →
  conv_ok description its0 extent stack_size pBaseBuf total (mk_stack (Some (pos_desc w)) type (count_desc w) (conv_ptr w - pBaseBuf) :: w_stack w) n io (drop p R).
Proof.
  intros (e & W' & Hl & Hw & HW' & Hp) HW Hpend Hr Hlt type n Hn. split_and!; [|by rewrite length_drop|].
  - intros E. apply (f_equal length) in E. rewrite length_drop in E. cbn in E. lia.
  - eexists _, _, (pos_desc w). split_and!; [done|done|]. exists R, W'. cbn [s_count s_disp w_io pos_desc]. rewrite Hpend, Hl. split_and!; [|done|lia|done|done].
    destruct w as [stack pos count ptr n0]. cbn [pos_desc count_desc conv_ptr w_stack] in *. by replace (pBaseBuf + (ptr - pBaseBuf))%Z with ptr by lia.
Qed.

(** The start of a walk, behind [q] elements. *)
Lemma position_start count q n : its0 ≠ [] → q < count → n < (count - q) * length (items_map 0 its0) →
  ∃ type c, opal_convertor_create_stack_at_begining description count = Some [mk_stack (Some 0) type c 0; mk_stack None OPAL_DATATYPE_LOOP count 0] ∧
    ∃ d0, description !! 0 = Some d0 ∧
    pos_ok (mk_walk [mk_stack None OPAL_DATATYPE_LOOP (count - q) (0 + Z.of_nat q * extent)] 0 c (pBaseBuf + (0 + Z.of_nat q * extent)) n)
      (drop (q * length (items_map 0 its0)) (loop_map pBaseBuf extent 0 count its0)) ((count - q) * S (work its0)).
Proof.
  intros Hne Hq Hn. pose proof Hdesc as [el Hd]. set (bottom := mk_stack None OPAL_DATATYPE_LOOP (count - q) (0 + Z.of_nat q * extent)).
  assert (Hp : place [bottom] 0 its0 (loop_map (pBaseBuf + (0 + Z.of_nat q * extent)) extent 1 (count - q - 1) its0) (S ((count - q - 1) * S (work its0)))).
  { apply (cont_place _ _ _ _ _ Hdesc _ _ _ _ _ [EndLoop el]); [by rewrite drop_0|done|cbn [length]; lia|done|]. apply cont_bottom. lia. }
  destruct (move_to_at description its0 extent stack_size pBaseBuf Hdepth0 _ _ _ _ _ n Hp) as (w & Hw & Hio & Hst & Hps & Hstart & _). unfold move_to in Hw.
  assert (HR : drop (q * length (items_map 0 its0)) (loop_map pBaseBuf extent 0 count its0) = items_map (base pBaseBuf [bottom]) its0 ++ loop_map (pBaseBuf + (0 + Z.of_nat q * extent)) extent 1 (count - q - 1) its0).
  { replace count with (q + (count - q)) at 1 by lia. rewrite loop_map_add, drop_app_length' by (by rewrite loop_map_length). cbn [base s_disp bottom Nat.add]. rewrite Z.add_0_l, loop_map_next.
    destruct (count - q) as [|k] eqn:E; [lia|]. rewrite loop_map_S. replace (S k - 1) with k by lia. done. }
  assert (Hpos : pos_ok w (drop (q * length (items_map 0 its0)) (loop_map pBaseBuf extent 0 count its0)) ((count - q) * S (work its0))).
  { rewrite HR, <-Hst. replace ((count - q) * S (work its0)) with (work its0 + S ((count - q - 1) * S (work its0))) by nia. apply pos_starts; [by rewrite Hst, Hps|done| |rewrite Hst; cbn [length]; lia].
    rewrite Hio, Hst, <-HR, length_drop, loop_map_length. nia. }
  destruct its0 as [|i its]; [done|]. destruct i as [e|k x c body]; rewrite Hd in Hw |- *; cbn in Hw |- *; injection Hw as <-; eexists _, _; (split; [done|]); eexists; (split; [done|exact Hpos]).
Qed.

End walk.
(** ** The convertor *)

(** No loop is empty. *)
Definition solid (d : opal_datatype_t) : Prop := ∀ el, EndLoop el ∈ opt_desc d → end_size el ≠ 0.

(** A stack for the position [n] with [T] to go at the start. *)
Definition stack_for (d : opal_datatype_t) (its : list item) (stack_size : nat) (pBaseBuf : Z) (T : list Z) (s : list dt_stack_t) (n q : nat) : Prop :=
  ∀ (IO : Type) (HC : Copy IO) (HL : CopyLaws IO) (io : IO), pending io = q → Forall (reach io) (drop (n - q) T) → conv_ok (opt_desc d) its (d_extent d) stack_size pBaseBuf (length T) s n io (drop n T).

Lemma position_from_ok c d its p w n q W : dt_ok d its → solid d → flag (c_flags c) CONVERTOR_COMPLETED = false → 1 + depth its < stack_size c → (Z.of_nat W < 2 ^ 64)%Z →
  let T := type_map d its (pBaseBuf c) (c_count c) in pos_ok (opt_desc d) its (d_extent d) (stack_size c) (pBaseBuf c) w (drop q T) W → w_io w = n → p = q + n → p < length T →
  ∃ part s e, position_from c d p w = Some (false, set_stack (stack_size c) s part p c) ∧ part ≤ p ∧ Elem e ∈ opt_desc d ∧ part < basic_size (e_type e) ∧
    stack_for d its (stack_size c) (pBaseBuf c) T s p part ∧ stack_for d its (stack_size c) (pBaseBuf c) T s (p - part) 0.
Proof.
  intros Hd Hsol Hcp Hdep HW T Hpos Hio Hpq Hp. unfold position_from.
  destruct (position_walk_ok (opt_desc d) its (d_extent d) (stack_size c) (pBaseBuf c) (dk_desc _ _ Hd) (dk_items _ _ Hd) Hdep Hsol _ _ _ Hpos HW) as (k & part & w' & -> & Hk & Hstop).
  cbn [mbind option_bind]. rewrite Hcp. rewrite drop_drop in Hstop. replace (q + k) with (p - part) in Hstop by lia.
  assert (Hdepw : length (w_stack w') < stack_size c).
  { destruct Hstop as (e & W' & _ & (its' & R2 & W2 & Hpl' & _) & _). pose proof (pl_depth _ _ _ _ _ _ _ _ _ _ Hpl'). lia. }
  rewrite (proj2 (Nat.ltb_lt _ _) Hdepw). destruct Hstop as (e & W' & Hl & Hw & HW' & Hpart). eexists part, _, e. split; [done|]. split_and!; [lia|by eapply list_elem_of_lookup_2|done| |].
  - intros IO HC HL io Hpend Hr. replace (drop p T) with (drop part (drop (p - part) T)) by (rewrite drop_drop; f_equal; lia).
    apply (stopped_conv (opt_desc d) its (d_extent d) (stack_size c) (pBaseBuf c) Hdep w' _ W); [by exists e, W'|done|done|done|rewrite length_drop; lia|rewrite length_drop; lia].
  - intros IO HC HL io Hpend Hr. rewrite Nat.sub_0_r in Hr. rewrite <-(drop_0 (drop (p - part) T)).
    apply (stopped_conv (opt_desc d) its (d_extent d) (stack_size c) (pBaseBuf c) Hdep w' _ W); [exists e, W'; split_and!; [done|done|done|lia]|done|done|done|rewrite length_drop; lia|rewrite length_drop; lia].
Qed.

Lemma generic_position_ok c d its p : dt_ok d its → solid d → pDesc c = Some d → opal_convertor_create_stack_at_begining (opt_desc d) (c_count c) = Some (pStack c) →
  bConverted c = 0 → c_partial_length c = 0 → flag (c_flags c) CONVERTOR_COMPLETED = false → 1 + depth its < stack_size c → (Z.of_nat (c_count c * S (work its)) < 2 ^ 64)%Z →
  let T := type_map d its (pBaseBuf c) (c_count c) in 0 < p < length T →
  ∃ part s e, opal_convertor_generic_simple_position c p = Some (false, set_stack (stack_size c) s part p c) ∧ part ≤ p ∧ Elem e ∈ opt_desc d ∧ part < basic_size (e_type e) ∧
    stack_for d its (stack_size c) (pBaseBuf c) T s p part ∧ stack_for d its (stack_size c) (pBaseBuf c) T s (p - part) 0.
Proof.
  intros Hd Hsol Hdesc Hst Hb Hpl Hcp Hdep HW T Hp. pose proof (type_map_length d its (pBaseBuf c) (c_count c) Hd) as Hlen. fold T in Hlen. set (size := d_size d) in *.
  assert (Hs : 0 < size) by nia. assert (Hne : its ≠ []) by (intros ->; unfold size in Hs; rewrite (dk_size _ _ Hd) in Hs; cbn in Hs; lia). unfold opal_convertor_generic_simple_position. rewrite Hdesc, Hb, Hpl.
  cbn [mbind option_bind]. rewrite (proj2 (Nat.ltb_lt 0 p)) by lia. fold size. rewrite (proj2 (Nat.eqb_neq size 0)) by lia. cbn [negb]. rewrite Nat.sub_0_r.
  set (q := if size <? p then p / size else 0). pose proof (Nat.div_mod_eq p size) as Hdm. pose proof (Nat.mod_upper_bound p size ltac:(lia)) as Hmod.
  assert (Hq : q < c_count c ∧ q * size ≤ p) by (unfold q; destruct (Nat.ltb_spec size p); nia). destruct Hq as [Hq Hqs].
  assert (Hsz : size = length (items_map 0 its)) by (apply (dk_size _ _ Hd)).
  destruct (position_start (opt_desc d) its (d_extent d) (stack_size c) (pBaseBuf c) (dk_desc _ _ Hd) (dk_items _ _ Hd) Hdep (c_count c) q (p - q * size) Hne Hq) as (type & cnt & Hst' & d0 & Hd0 & Hpos).
  { rewrite <-Hsz. nia. }
  rewrite Hst in Hst'. injection Hst' as Hstk. rewrite <-Hsz in Hpos. change (loop_map (pBaseBuf c) (d_extent d) 0 (c_count c) its) with T in Hpos.
  set (start := if size <? p then _ else _).
  assert (Hstart : start = ([mk_stack (Some 0) type cnt (0 + Z.of_nat q * d_extent d); mk_stack None OPAL_DATATYPE_LOOP (c_count c - q) (0 + Z.of_nat q * d_extent d)], q * size)).
  { unfold start, q. destruct (size <? p); rewrite Hstk; cbn -[Nat.div]; [done|]. by rewrite Nat.sub_0_r. }
  rewrite Hstart. clear start Hstart. cbn [s_index mbind option_bind s_disp s_count Nat.eqb]. rewrite Hd0. cbn [mbind option_bind].
  apply (position_from_ok c d its p _ (p - q * size) (q * size) ((c_count c - q) * S (work its))); [done|done|done|done|nia|exact Hpos|done|lia|fold T; lia].
Qed.

Lemma contig_position_ok c d its p : dt_ok d its → flag (d_flags d) OPAL_DATATYPE_FLAG_CONTIGUOUS = true → pDesc c = Some d → c_partial_length c = 0 → p < c_count c * d_size d →
  ∃ s1 s0, opal_convertor_create_stack_with_pos_contig c p = Some (set_stack (stack_size c) [s1; s0] 0 p c) ∧ gaps_ok d (count_bytes s1) s0 ∧
    (s_disp s0 + s_disp s1 = Z.of_nat (p / d_size d) * d_extent d + Z.of_nat (p mod d_size d))%Z ∧
    gaps_left d (pBaseBuf c) (count_bytes s1) s0 = drop p (type_map d its (pBaseBuf c) (c_count c)).
Proof.
  intros Hd Hct Hdesc Hpl Hp. destruct (dk_contiguous _ _ Hd Hct) as [Hm (e & Hits & Hone)]. destruct (dk_desc _ _ Hd) as [el Hel]. set (size := d_size d) in *. assert (Hs : 0 < size) by nia.
  pose proof (Nat.div_mod_eq p size) as Hdm. pose proof (Nat.mod_upper_bound p size ltac:(lia)) as Hmod. set (q := p / size) in *. set (r := p mod size) in *. assert (Hq : q < c_count c) by nia.
  assert (Hbl : e_blocklen e * basic_size (e_type e) = size).
  { unfold size. rewrite (dk_size _ _ Hd), Hits. cbn [items_map flat_map item_map]. rewrite app_nil_r, elem_map_length. unfold e_total. rewrite Hone. lia. }
  unfold opal_convertor_create_stack_with_pos_contig. rewrite Hdesc, Hpl. cbn [mbind option_bind]. rewrite Hits in Hel. rewrite Hel. cbn [flatten flat_map flatten_item app]. fold size. rewrite (proj2 (Nat.eqb_neq size 0)) by lia. cbn [negb Nat.eqb]. fold q r.
  set (s0 := mk_stack None OPAL_DATATYPE_LOOP (c_count c - q) (Z.of_nat q * d_extent d)).
  assert (Hgen : ∀ s1, s_count (count_bytes s1) = size - r → s_disp s1 = Z.of_nat r → gaps_ok d (count_bytes s1) s0 ∧
    (s_disp s0 + s_disp s1 = Z.of_nat q * d_extent d + Z.of_nat r)%Z ∧ gaps_left d (pBaseBuf c) (count_bytes s1) s0 = drop p (type_map d its (pBaseBuf c) (c_count c))).
  { intros s1 Hc Hdi. assert (Hty : s_type (count_bytes s1) = OPAL_DATATYPE_UINT1 ∧ s_disp (count_bytes s1) = s_disp s1) by (unfold count_bytes; by destruct (Nat.eqb_spec (s_type s1) OPAL_DATATYPE_UINT1)).
    destruct Hty as [Hty Hdi']. split_and!.
    - split; [done|rewrite Hc; fold size; lia|rewrite Hdi', Hdi, Hc; fold size; lia|cbn; lia].
    - rewrite Hdi. done.
    - rewrite (type_map_elements _ _ _ _ Hd Hct). assert (Hr : ∀ a n, drop p (elements d a (q + n)) = drop r (elements d (a + Z.of_nat q * d_extent d) n)).
      { intros a n. rewrite elements_add, drop_app, drop_ge by (rewrite elements_length; fold size; lia). rewrite elements_length. fold size. cbn [app]. f_equal. lia. }
      replace (c_count c) with (q + (c_count c - q)) by lia. rewrite Hr. unfold gaps_left. rewrite Hc. fold size. cbn [s_disp s_count s0]. f_equal. lia. }
  destruct (Nat.eqb_spec r 0) as [E|E]; cbn [mbind option_bind]; eexists _, s0; (split; [done|]); apply Hgen.
  - unfold count_bytes. cbn [s_type]. destruct (Nat.eqb_spec (e_type e) OPAL_DATATYPE_UINT1) as [E1|E1]; cbn [s_count]; [rewrite E1, uint1_size in Hbl; lia|lia].
  - done.
  - done.
  - done.
Qed.

Lemma flag_not_completed f x : Z.ldiff x CONVERTOR_COMPLETED = x → flag (Z.ldiff f CONVERTOR_COMPLETED) x = flag f x.
Proof. intros Hx. by rewrite flag_ldiff, Hx. Qed.

Lemma not_completed f : flag (Z.ldiff f CONVERTOR_COMPLETED) CONVERTOR_COMPLETED = false.
Proof. rewrite flag_ldiff. apply flag_0. Qed.

(** Contiguous bytes of a type map. *)
Lemma type_map_contiguous d its buf count p : dt_ok d its → flag (d_flags d) OPAL_DATATYPE_FLAG_CONTIGUOUS = true → d_extent d = Z.of_nat (d_size d) ∨ count ≤ 1 → p ≤ count * d_size d →
  drop p (type_map d its buf count) = seqZ (buf + Z.of_nat p + true_lb d) (Z.of_nat (count * d_size d - p)).
Proof.
  intros Hd Hct Hx Hp. rewrite (type_map_elements _ _ _ _ Hd Hct), elements_contiguous by done. rewrite (proj2 (take_drop_seqZ _ _ _ Hp)). f_equal. lia.
Qed.

(** Moving a convertor that is not at its end. *)
Lemma set_position_inside c p : bConverted c = 0 → 0 < p < local_size c → opal_convertor_set_position c p =
  let c := drop_flags CONVERTOR_COMPLETED c in
  if flag (c_flags c) OPAL_DATATYPE_FLAG_NO_GAPS && (flag (c_flags c) CONVERTOR_SEND || flag (c_flags c) CONVERTOR_HOMOGENEOUS) then Some (set_converted p c, p)
  else opal_convertor_set_position_nocheck c p.
Proof. intros Hb Hp. unfold opal_convertor_set_position. rewrite Hb, (proj2 (Nat.leb_gt (local_size c) p)), (proj2 (Nat.eqb_neq p 0)) by lia. done. Qed.

(** What is left after the bytes before a position. *)
Lemma send_position_inside m d its count buf p c0 returned c1 : dt_ok d its → solid d → c_partial_length c0 = 0 → flag (c_flags c0) CONVERTOR_WITH_CHECKSUM = false → flag (c_flags c0) CONVERTOR_SEND = true →
  (Z.of_nat (count * S (work its)) < 2 ^ 64)%Z → let T := type_map d its buf count in mapped_in m T → prepared c0 d count buf returned c1 → 0 < p < length T →
  ∃ c2 p', opal_convertor_set_position (if returned then c1 else set_advance (send_advance d count) c1) p = Some (c2, p') ∧ sending m c2 d its (drop p' T) ∧ bConverted c2 = p' ∧ p' ≤ p ∧
    (p' ≠ p → flag (d_flags d) OPAL_DATATYPE_FLAG_CONTIGUOUS = false ∧ ∃ e, Elem e ∈ opt_desc d ∧ p < p' + basic_size (e_type e)).
Proof.
  intros Hd Hsol Hpl Hcs Hsnd HW T Hm Hprep Hp. pose proof (type_map_length d its buf count Hd) as Hlen. fold T in Hlen.
  assert (HRne : ∀ k, k < length T → drop k T ≠ []) by (intros k Hk E; apply (f_equal length) in E; rewrite length_drop in E; cbn in E; lia).
  destruct Hprep as [c1 Hz Hdesc Hl Hb Hcp|f Hz Hct Hx Hcp Hno Hho [Hf1 Hf2]|f s Hz Hs Hcp Hno Hho [Hf1 Hf2] Hng Hsnd']; [lia| |].
  - rewrite set_position_inside by (cbn [bConverted local_size]; lia). cbv zeta. set (c := drop_flags _ _). change (c_flags c) with (Z.ldiff f CONVERTOR_COMPLETED).
    assert (Hend : ∀ c2 q, pDesc c2 = Some d → local_size c2 = count * d_size d → bConverted c2 = p → pBaseBuf c2 = buf → flag (c_flags c2) CONVERTOR_COMPLETED = false → flag (c_flags c2) CONVERTOR_NO_OP = true → q = p →
      sending m c2 d its (drop q T) ∧ bConverted c2 = q ∧ q ≤ p ∧ (q ≠ p → flag (d_flags d) OPAL_DATATYPE_FLAG_CONTIGUOUS = false ∧ ∃ e, Elem e ∈ opt_desc d ∧ p < q + basic_size (e_type e))).
    { intros c2 q ? ? ? Hbase Hcp2 Hno2 ->. split_and!; [|done|lia|done]. split; [done|done|rewrite length_drop; lia|by apply mapped_drop|]. rewrite Hcp2. split; [apply HRne; lia|]. unfold pack_state. rewrite Hno2, Hbase. split; [done|].
      rewrite length_drop, Hlen. unfold T. rewrite type_map_contiguous by (done || lia). do 2 f_equal. lia. }
    rewrite !flag_not_completed by done. rewrite Hho, orb_true_r, andb_true_r. destruct (flag f OPAL_DATATYPE_FLAG_NO_GAPS).
    + eexists _, p. split; [done|]. apply Hend; try done; [apply (not_completed f)|]. change (flag (Z.ldiff f CONVERTOR_COMPLETED) CONVERTOR_NO_OP = true). by rewrite flag_not_completed.
    + unfold opal_convertor_set_position_nocheck. change (c_flags c) with (Z.ldiff f CONVERTOR_COMPLETED).
      assert (flag (Z.ldiff f CONVERTOR_COMPLETED) OPAL_DATATYPE_FLAG_CONTIGUOUS = true) as -> by (rewrite flag_not_completed by done; congruence).
      destruct (contig_position_ok c d its p Hd Hct eq_refl Hpl ltac:(change (c_count c) with count; lia)) as (s1 & s0 & -> & _). cbn [mbind option_bind]. eexists _, p. split; [done|].
      apply Hend; try done; [apply (not_completed f)|]. change (flag (Z.ldiff f CONVERTOR_COMPLETED) CONVERTOR_NO_OP = true). by rewrite flag_not_completed.
  - rewrite set_position_inside by (cbn [set_advance bConverted local_size]; lia). cbv zeta. set (c := drop_flags _ _). change (c_flags c) with (Z.ldiff f CONVERTOR_COMPLETED).
    rewrite !flag_not_completed by done. rewrite Hf2, (Hng Hcs). cbn [andb]. unfold opal_convertor_set_position_nocheck. change (c_flags c) with (Z.ldiff f CONVERTOR_COMPLETED).
    rewrite (flag_not_completed f OPAL_DATATYPE_FLAG_CONTIGUOUS) by done. rewrite Hf1. change (bConverted c) with 0. destruct (flag (d_flags d) OPAL_DATATYPE_FLAG_CONTIGUOUS) eqn:Hct.
    + destruct (contig_position_ok c d its p Hd Hct eq_refl eq_refl ltac:(change (c_count c) with count; lia)) as (s1 & s0 & -> & Hg & Hdisp & HgR). cbn [mbind option_bind]. eexists _, p. split; [done|]. split_and!; [|done|lia|done].
      split; [done|done|cbn [set_stack c drop_flags set_flags set_advance bConverted local_size]; rewrite length_drop; lia|by apply mapped_drop|]. cbn [set_stack c drop_flags set_flags set_advance c_flags]. rewrite not_completed. split; [apply HRne; lia|].
      unfold pack_state. cbn [set_stack c drop_flags set_flags set_advance c_flags fAdvance pStack pBaseBuf]. rewrite flag_not_completed, Hno by done. unfold send_advance. rewrite Hct. destruct ((d_extent d =? Z.of_nat (d_size d))%Z || (count <=? 1)) eqn:E.
      * split; [done|]. exists s1, s0. split; [done|]. assert (Hx : d_extent d = Z.of_nat (d_size d) ∨ count ≤ 1) by (apply orb_true_iff in E as [E%Z.eqb_eq|E%Nat.leb_le]; auto).
        rewrite length_drop, Hlen. unfold T at 1. rewrite type_map_contiguous by (done || lia). f_equal. pose proof (Nat.div_mod_eq p (d_size d)) as Hdm. destruct Hx as [Hx|Hx]; [nia|].
        assert (p / d_size d = 0) as Hq by (apply Nat.div_small; nia). rewrite Hq in Hdm, Hdisp. lia.
      * apply orb_false_iff in E as [E%Z.eqb_neq _]. split_and!; [done|done|]. by exists s1, s0.
    + rewrite (proj2 (Nat.eqb_neq p 0)), (proj2 (Nat.ltb_ge p 0)) by lia. cbn [orb mbind option_bind].
      destruct (generic_position_ok c d its p Hd Hsol eq_refl Hs eq_refl eq_refl) as (part & s' & e & Hrun & Hpart & He & Hsz & _ & Hstk).
      { apply not_completed. } { by apply Hd. } { done. } { change (pBaseBuf c) with buf. change (c_count c) with count. fold T. lia. }
      rewrite Hrun. cbn [mbind option_bind set_stack c_flags]. change (c_flags c) with (Z.ldiff f CONVERTOR_COMPLETED). rewrite flag_not_completed, Hsnd', Hsnd by done.
      eexists _, (p - part). split; [done|]. split_and!; [|done|lia|intros _; split; [done|]; exists e; split; [done|lia]].
      split; [done|done|change (p - part + length (drop (p - part) T) = count * d_size d); rewrite length_drop; lia|by apply mapped_drop|]. cbn [set_stack c drop_flags set_flags set_advance c_flags]. rewrite not_completed. split; [apply HRne; lia|].
      unfold pack_state. cbn [set_stack c drop_flags set_flags set_advance c_flags fAdvance pStack pBaseBuf stack_size local_size remote_size bConverted]. rewrite flag_not_completed, Hno by done. unfold send_advance. rewrite Hct. split_and!; [done|by apply Hd|].
      cbn [c drop_flags set_flags set_advance pBaseBuf c_count stack_size] in Hstk. fold T in Hstk. rewrite <-Hlen. apply Hstk; [done|]. rewrite Nat.sub_0_r. by apply mapped_drop.
Qed.

(** C15: a position of a sender.  A convertor that is prepared for sending, without
    checksums, is moved to the byte [p] of the packed data.  It is then at the position it
    reports: [p], or the end, or, where [p] is inside of a basic element of a datatype that
    is not contiguous, the start of this element; and what it has to go are the bytes of
    the type map from there on. *)
Theorem send_position_spec check_addr m c d its count buf p : dt_ok d its → solid d → stack_size c = DT_STATIC_STACK_SIZE → c_partial_length c = 0 → flag (c_flags c) CONVERTOR_WITH_CHECKSUM = false →
  (Z.of_nat (count * d_size d) < 2 ^ 64)%Z → (Z.of_nat (count * S (work its)) < 2 ^ 64)%Z → let T := type_map d its buf count in mapped_in m T →
  ∃ c0 c1 p', opal_convertor_prepare_for_send check_addr c d count buf = Some c0 ∧ opal_convertor_set_position c0 p = Some (c1, p') ∧
    sending m c1 d its (drop p' T) ∧ bConverted c1 = p' ∧ p' ≤ p `min` length T ∧
    (p' ≠ p `min` length T → flag (d_flags d) OPAL_DATATYPE_FLAG_CONTIGUOUS = false ∧ ∃ e, Elem e ∈ opt_desc d ∧ p < p' + basic_size (e_type e)).
Proof.
  intros Hd Hsol Hss Hpl Hcs Hsz HW T Hm. pose proof (type_map_length d its buf count Hd) as Hlen. fold T in Hlen.
  destruct (prepare_for_send_ok check_addr m c d its count buf Hd Hss Hsz HW Hm) as (c2 & Hc2 & Hs & Hb0). destruct (prepare_for_send_cases check_addr c d its count buf Hd Hss Hsz) as (c0 & returned & c1 & Hprep & Hpl0 & Hsnd & Hcs0 & Hrun).
  exists c2. pose proof (sd_total _ _ _ _ _ Hs) as Htot. fold T in Htot. destruct (decide (length T ≤ p)) as [Hge|Hlt]; [|destruct (decide (p = 0)) as [->|Hp]].
  - unfold opal_convertor_set_position. rewrite (proj2 (Nat.leb_le (local_size c2) p)) by lia. eexists _, _. rewrite <-Htot, Hb0. split_and!; [done|done| |done|cbn; lia|cbn; lia].
    cbn [Nat.add]. rewrite drop_all. split; [by apply Hs|done|cbn [set_converted add_flags set_flags bConverted local_size length]; lia|constructor|]. cbn [set_converted add_flags set_flags c_flags]. rewrite flag_lor. by rewrite orb_true_r.
  - unfold opal_convertor_set_position. rewrite (proj2 (Nat.leb_gt (local_size c2) 0)), Hb0 by lia. eexists _, 0. split_and!; [done|done|done|done|lia|lia].
  - rewrite Hc2 in Hrun. injection Hrun as Hrun. destruct (send_position_inside m d its count buf p c0 returned c1 Hd Hsol ltac:(congruence) ltac:(congruence) Hsnd HW Hm Hprep ltac:(fold T; lia)) as (c3 & p' & Hset & Hs' & Hb' & Hle & Hnot).
    exists c3, p'. rewrite Hrun, Nat.min_l by lia. split_and!; [by rewrite <-Hrun|done|done|done|done|done].
Qed.

Lemma recv_position_inside temporary_buffer m d its count buf p c0 returned c1 : dt_ok d its → solid d → c_partial_length c0 = 0 → flag (c_flags c0) CONVERTOR_WITH_CHECKSUM = false → flag (c_flags c0) CONVERTOR_SEND = false →
  (Z.of_nat (count * S (work its)) < 2 ^ 64)%Z → let T := type_map d its buf count in mapped_in m T → prepared c0 d count buf returned c1 → 0 < p < length T →
  ∃ c2, opal_convertor_set_position (if returned then c1 else set_advance (recv_advance d) c1) p = Some (c2, p) ∧ receiving temporary_buffer m c2 d its (drop p T) ∧ bConverted c2 = p.
Proof.
  intros Hd Hsol Hpl Hcs Hsnd HW T Hm Hprep Hp. pose proof (type_map_length d its buf count Hd) as Hlen. fold T in Hlen.
  assert (HRne : drop p T ≠ []) by (intros E; apply (f_equal length) in E; rewrite length_drop in E; cbn in E; lia).
  assert (Hend : ∀ c2, pDesc c2 = Some d → local_size c2 = count * d_size d → bConverted c2 = p → flag (c_flags c2) CONVERTOR_COMPLETED = false → unpack_state temporary_buffer m c2 d its (drop p T) →
    receiving temporary_buffer m c2 d its (drop p T) ∧ bConverted c2 = p).
  { intros c2 ? ? ? Hcp2 Hst. split; [|done]. split; [done|done|rewrite length_drop; lia|by apply mapped_drop|]. rewrite Hcp2. done. }
  destruct Hprep as [c1 Hz Hdesc Hl Hb Hcp|f Hz Hct Hx Hcp Hno Hho [Hf1 Hf2]|f s Hz Hs Hcp Hno Hho [Hf1 Hf2] Hng Hsnd']; [lia| |].
  - rewrite set_position_inside by (cbn [bConverted local_size]; lia). cbv zeta. set (c := drop_flags _ _). change (c_flags c) with (Z.ldiff f CONVERTOR_COMPLETED).
    assert (Hst : ∀ c2, flag (c_flags c2) CONVERTOR_NO_OP = true → pBaseBuf c2 = buf → bConverted c2 = p → unpack_state temporary_buffer m c2 d its (drop p T)).
    { intros c2 Hno2 Hbase Hb2. unfold unpack_state. rewrite Hno2, Hbase, Hb2, length_drop, Hlen. unfold T. apply type_map_contiguous; (done || lia). }
    assert (Hno' : flag (Z.ldiff f CONVERTOR_COMPLETED) CONVERTOR_NO_OP = true) by (by rewrite flag_not_completed).
    rewrite !flag_not_completed by done. rewrite Hho, orb_true_r, andb_true_r. destruct (flag f OPAL_DATATYPE_FLAG_NO_GAPS).
    + eexists. split; [done|]. apply Hend; try done; [apply (not_completed f)|by apply Hst].
    + unfold opal_convertor_set_position_nocheck. change (c_flags c) with (Z.ldiff f CONVERTOR_COMPLETED). rewrite (flag_not_completed f OPAL_DATATYPE_FLAG_CONTIGUOUS), Hf1, Hct by done.
      destruct (contig_position_ok c d its p Hd Hct eq_refl Hpl ltac:(change (c_count c) with count; lia)) as (s1 & s0 & -> & _). cbn [mbind option_bind]. eexists. split; [done|].
      apply Hend; try done; [apply (not_completed f)|by apply Hst].
  - rewrite set_position_inside by (cbn [set_advance bConverted local_size]; lia). cbv zeta. set (c := drop_flags _ _). change (c_flags c) with (Z.ldiff f CONVERTOR_COMPLETED).
    rewrite !flag_not_completed by done. rewrite Hf2, (Hng Hcs). cbn [andb]. unfold opal_convertor_set_position_nocheck. change (c_flags c) with (Z.ldiff f CONVERTOR_COMPLETED).
    rewrite (flag_not_completed f OPAL_DATATYPE_FLAG_CONTIGUOUS) by done. rewrite Hf1. change (bConverted c) with 0. destruct (flag (d_flags d) OPAL_DATATYPE_FLAG_CONTIGUOUS) eqn:Hct.
    + destruct (contig_position_ok c d its p Hd Hct eq_refl eq_refl ltac:(change (c_count c) with count; lia)) as (s1 & s0 & -> & Hg & Hdisp & HgR). cbn [mbind option_bind]. eexists. split; [done|].
      apply Hend; try done; [apply (not_completed f)|]. unfold unpack_state. cbn [set_stack c drop_flags set_flags set_advance c_flags fAdvance pStack pBaseBuf bConverted]. rewrite flag_not_completed, Hno by done. unfold recv_advance. rewrite Hct.
      exists s1, s0. split; [done|]. destruct (Z.eqb_spec (Z.of_nat (d_size d)) (d_extent d)) as [E|E]; [|done]. rewrite length_drop, Hlen. unfold T. rewrite type_map_contiguous by (auto || lia). f_equal. lia.
    + rewrite (proj2 (Nat.eqb_neq p 0)), (proj2 (Nat.ltb_ge p 0)) by lia. cbn [orb mbind option_bind].
      destruct (generic_position_ok c d its p Hd Hsol eq_refl Hs eq_refl eq_refl) as (part & s' & e & Hrun & Hpart & He & Hsz & Hstk & _).
      { apply not_completed. } { by apply Hd. } { done. } { change (pBaseBuf c) with buf. change (c_count c) with count. fold T. lia. }
      rewrite Hrun. cbn [mbind option_bind set_stack c_flags]. change (c_flags c) with (Z.ldiff f CONVERTOR_COMPLETED). rewrite flag_not_completed, Hsnd', Hsnd by done.
      eexists. split; [done|]. apply Hend; try done; [apply (not_completed f)|].
      unfold unpack_state. cbn [set_stack c drop_flags set_flags set_advance c_flags fAdvance pStack pBaseBuf stack_size local_size remote_size bConverted c_partial_length]. rewrite flag_not_completed, Hno by done. unfold recv_advance. rewrite Hct. split; [by apply Hd|].
      cbn [c drop_flags set_flags set_advance pBaseBuf c_count stack_size] in Hstk. fold T in Hstk. rewrite <-Hlen. apply Hstk; [done|]. by apply mapped_drop.
Qed.

(** C16: a position of a receiver.  A convertor that is prepared for receiving, without
    checksums, is moved to the byte [p] of the packed data, also inside of a basic
    element.  It is then at [p], or at the end, and has the bytes of the type map from
    there on to go. *)
Theorem recv_position_spec temporary_buffer check_addr m c d its count buf p : dt_ok d its → solid d → stack_size c = DT_STATIC_STACK_SIZE → c_partial_length c = 0 →
  flag (c_flags c) CONVERTOR_WITH_CHECKSUM = false → flag (c_flags c) CONVERTOR_SEND = false →
  (Z.of_nat (count * d_size d) < 2 ^ 64)%Z → (Z.of_nat (count * S (work its)) < 2 ^ 64)%Z → let T := type_map d its buf count in mapped_in m T →
  ∃ c0 c1, opal_convertor_prepare_for_recv check_addr c d count buf = Some c0 ∧ opal_convertor_set_position c0 p = Some (c1, p `min` length T) ∧
    receiving temporary_buffer m c1 d its (drop p T) ∧ bConverted c1 = p `min` length T.
Proof.
  intros Hd Hsol Hss Hpl Hcs Hsend Hsz HW T Hm. pose proof (type_map_length d its buf count Hd) as Hlen. fold T in Hlen.
  destruct (prepare_for_recv_ok temporary_buffer check_addr m c d its count buf Hd Hss Hsend Hsz HW Hm) as (c2 & Hc2 & Hs & Hb0).
  destruct (prepare_for_recv_cases check_addr c d its count buf Hd Hss Hsend Hsz) as (c0 & returned & c1 & Hprep & Hpl0 & Hsnd & Hcs0 & Hrun).
  exists c2. pose proof (rc_total _ _ _ _ _ _ Hs) as Htot. fold T in Htot. destruct (decide (length T ≤ p)) as [Hge|Hlt]; [|destruct (decide (p = 0)) as [->|Hp]].
  - unfold opal_convertor_set_position. rewrite (proj2 (Nat.leb_le (local_size c2) p)), Nat.min_r by lia. eexists. rewrite <-Htot, Hb0. split_and!; [done|done| |cbn; lia].
    rewrite drop_ge by lia. split; [by apply Hs|done|cbn [set_converted add_flags set_flags bConverted local_size length]; lia|constructor|]. cbn [set_converted add_flags set_flags c_flags]. rewrite flag_lor. by rewrite orb_true_r.
  - unfold opal_convertor_set_position. rewrite (proj2 (Nat.leb_gt (local_size c2) 0)), Hb0 by lia. eexists. split_and!; [done|done|done|done].
  - rewrite Hc2 in Hrun. injection Hrun as Hrun. destruct (recv_position_inside temporary_buffer m d its count buf p c0 returned c1 Hd Hsol ltac:(congruence) ltac:(congruence) Hsnd HW Hm Hprep ltac:(fold T; lia)) as (c3 & Hset & Hs' & Hb').
    exists c3. rewrite Hrun, Nat.min_l by lia. split_and!; [by rewrite <-Hrun|done|done|done].
Qed.

End position.
End DtPositionSpec.
