(* ===== verification/DtExamples.v ===== *)
(** * Examples and errors of the datatype engine

    Concrete datatypes for the theorems, on x86-64, and what goes wrong: entries whose
    stride is not a multiple of the size of the basic type, basic types that are larger
    than the buffer for parts of elements. *)

From stdpp Require Import base numbers list gmap.
From S2P Require Import Prelude DtDesc DtWalk DtCopy DtMap DtWalkSpec DtCopySpec DtPackSpec DtConv DtContigSpec DtConvSpec DtSendSpec DtRecvSpec DtUseSpec DtPosition DtPositionSpec.

Module DtExamples.
Import DtDesc DtWalk DtPack DtUnpack DtMap DtUnpackSpec DtConv DtContigSpec DtConvSpec DtSendSpec DtRecvSpec DtTransfer DtPosition DtPositionSpec.
Local Open Scope nat_scope.

(** A datatype from its trees. *)
Definition datatype_of (flags : Z) (its : list item) (tlb tub lb ub : Z) (loops : nat) : opal_datatype_t :=
  mk_datatype flags 0 0 (length (items_map 0 its)) tlb tub lb ub 0 8 loops 0 [] (flatten its ++ [EndLoop (mk_endloop (length (flatten its)) (length (items_map 0 its)) 0)]).

Definition no_convertor : opal_convertor_t := opal_convertor_construct (mk_convertor 0 0 0 None 0 0 0 [] None 0 0).
Definition no_accelerator (_ : Z) : bool * bool := (false, false).

(** Two rounds of one and two integers. *)
Definition its_loop : list item :=
  [Rep 2 32 false [Data (mk_elem OPAL_DATATYPE_INT4 1 1 4 0); Data (mk_elem OPAL_DATATYPE_INT4 2 1 8 8)]].
Definition dt_loop : opal_datatype_t := datatype_of 0 its_loop 0 52 0 64 2.

(** Every other integer. *)
Definition its_vector : list item := [Data (mk_elem OPAL_DATATYPE_INT4 6 1 8 0)].
Definition dt_vector : opal_datatype_t := datatype_of 0 its_vector 0 44 0 48 0.

(** Three integers and a gap. *)
Definition its_gaps : list item := [Data (mk_elem OPAL_DATATYPE_INT4 1 3 12 0)].
Definition dt_gaps : opal_datatype_t := datatype_of OPAL_DATATYPE_FLAG_CONTIGUOUS its_gaps 0 12 0 16 0.

(** Memory from [a] on. *)
Definition memory_at (a : Z) (bs : list byte) : memory := list_to_map (zip (seqZ a (Z.of_nat (length bs))) bs).

(** [n] bytes with different values. *)
Definition numbered (n : nat) : list byte := seqZ 1 (Z.of_nat n).

Ltac elem_ok_tac := split; [cbn; lia|cbn; lia|cbn; lia|unfold stride_ok; cbn; first [by left|right; right; right; split; [by apply Z.mod_divide|lia]]].

Ltac items_ok_tac := repeat first [apply Forall_nil_2|apply Forall_cons_2; [first [apply data_ok; elem_ok_tac|apply rep_ok; [lia|items_ok_tac|done]]|]].

Lemma dt_loop_ok : dt_ok dt_loop its_loop.
Proof. split; [by eexists|items_ok_tac|done|cbn; lia|done|done]. Qed.

Lemma dt_vector_ok : dt_ok dt_vector its_vector.
Proof. split; [by eexists|items_ok_tac|done|cbn; lia|done|done]. Qed.

Lemma dt_gaps_ok : dt_ok dt_gaps its_gaps.
Proof. split; [by eexists|items_ok_tac|done|cbn; lia| |done]. intros _. split; [done|]. by eexists. Qed.

Lemma sizes_check M l : forallb (λ d, match d with Elem e => basic_size (e_type e) <=? M | _ => true end) l = true → ∀ e, Elem e ∈ l → basic_size (e_type e) ≤ M.
Proof. intros Hl e He. rewrite forallb_forall in Hl. apply list_elem_of_In in He. specialize (Hl _ He). by apply Nat.leb_le in Hl. Qed.

Lemma mapped_check (m : memory) l : forallb (λ a, bool_decide (is_Some (m !! a))) l = true → mapped_in m l.
Proof. intros Hl. rewrite forallb_forall in Hl. apply Forall_forall. intros a Ha%list_elem_of_In. by apply (bool_decide_eq_true_1 _), Hl. Qed.

(** ** Transfers *)

(** Buffers of 7 and 20 bytes: the first one ends inside of an integer. *)
Definition pack_buffers : list iovec_t := [(Some 9001%Z, 7); (Some 9100%Z, 20)].

Lemma pack_spec_witness : ∃ c0 rs c',
  opal_convertor_prepare_for_send no_accelerator no_convertor dt_loop 1 1000 = Some c0 ∧ pack_calls (memory_at 1000 (numbered 64)) c0 [pack_buffers; pack_buffers] = Some (rs, c') ∧
  bConverted c' = sum_list (pc_max_data <$> rs) ∧ sent (memory_at 1000 (numbered 64)) rs = Some (numbered 4 ++ seqZ 9 4 ++ seqZ 17 4 ++ seqZ 33 4 ++ seqZ 41 4 ++ seqZ 49 4).
Proof.
  destruct (pack_spec 4 no_accelerator (memory_at 1000 (numbered 64)) no_convertor dt_loop its_loop 1 1000 [pack_buffers; pack_buffers]) as (c0 & rs & c' & Hc0 & Hrun & Hsum & _ & _ & _ & _).
  - exact dt_loop_ok.
  - split; [lia|]. apply sizes_check. vm_compute. reflexivity.
  - reflexivity.
  - vm_compute. reflexivity.
  - vm_compute. reflexivity.
  - apply mapped_check. vm_compute. reflexivity.
  - repeat (apply Forall_cons_2; [split; [done|left; repeat constructor; by eexists]|]). apply Forall_nil_2.
  - exists c0, rs, c'. split_and!; [exact Hc0|exact Hrun|exact Hsum|].
    assert (Hsent : (c0 ← opal_convertor_prepare_for_send no_accelerator no_convertor dt_loop 1 1000; '(rs, _) ← pack_calls (memory_at 1000 (numbered 64)) c0 [pack_buffers; pack_buffers];
      sent (memory_at 1000 (numbered 64)) rs) = Some (numbered 4 ++ seqZ 9 4 ++ seqZ 17 4 ++ seqZ 33 4 ++ seqZ 41 4 ++ seqZ 49 4)) by (vm_compute; reflexivity).
    rewrite Hc0 in Hsent. cbn [mbind option_bind] in Hsent. rewrite Hrun in Hsent. exact Hsent.
Defined.

(** Fragments of 5, 11 and 8 bytes: the first two end inside of integers. *)
Definition fragments (bs : list byte) : list (list filled) := [[(7000%Z, take 5 bs)]; [(7101%Z, take 11 (drop 5 bs)); (7200%Z, drop 16 bs)]].

Lemma unpack_spec_witness : ∃ c0 rs c',
  opal_convertor_prepare_for_recv no_accelerator no_convertor dt_vector 1 2000 = Some c0 ∧
  unpack_calls 8000 (memory_at 2000 (replicate 48 0%Z)) c0 (fragments (numbered 24)) = Some (rs, writes (type_map dt_vector its_vector 2000 1) (arrived (fragments (numbered 24))) (memory_at 2000 (replicate 48 0%Z)), c') ∧
  bConverted c' = 24.
Proof.
  destruct (unpack_spec 8000 no_accelerator (memory_at 2000 (replicate 48 0%Z)) no_convertor dt_vector its_vector 1 2000 (fragments (numbered 24))) as (c0 & rs & c' & Hc0 & Hrun & Hb & _).
  - exact dt_vector_ok.
  - unfold basic_small. apply sizes_check. vm_compute. reflexivity.
  - reflexivity.
  - reflexivity.
  - vm_compute. reflexivity.
  - vm_compute. reflexivity.
  - apply mapped_check. vm_compute. reflexivity.
  - exists c0, rs, c'. split_and!; [exact Hc0|exact Hrun|]. rewrite Hb. vm_compute. reflexivity.
Defined.

Definition sent_bytes : list byte := numbered 4 ++ seqZ 9 4 ++ seqZ 17 4 ++ seqZ 33 4 ++ seqZ 41 4 ++ seqZ 49 4.

Lemma transfer_example : ∃ cS0 rs cS' cR0 rs' cR' m',
  opal_convertor_prepare_for_send no_accelerator no_convertor dt_loop 1 1000 = Some cS0 ∧ pack_calls (memory_at 1000 (numbered 64)) cS0 [pack_buffers; pack_buffers] = Some (rs, cS') ∧
  opal_convertor_prepare_for_recv no_accelerator no_convertor dt_vector 1 2000 = Some cR0 ∧ unpack_calls 8000 (memory_at 2000 (replicate 48 0%Z)) cR0 (fragments sent_bytes) = Some (rs', m', cR') ∧
  mapM (m' !!.) (take 24 (type_map dt_vector its_vector 2000 1)) = mapM (memory_at 1000 (numbered 64) !!.) (type_map dt_loop its_loop 1000 1).
Proof.
  destruct (transfer_ok 8000 4 no_accelerator (memory_at 1000 (numbered 64)) no_convertor dt_loop its_loop 1 1000 [pack_buffers; pack_buffers]
    (memory_at 2000 (replicate 48 0%Z)) no_convertor dt_vector its_vector 1 2000 (fragments sent_bytes)) as (cS0 & rs & cS' & HcS0 & HrunS & Hrest).
  - exact dt_loop_ok.
  - split; [lia|]. apply sizes_check. vm_compute. reflexivity.
  - reflexivity.
  - vm_compute. reflexivity.
  - vm_compute. reflexivity.
  - apply mapped_check. vm_compute. reflexivity.
  - repeat (apply Forall_cons_2; [split; [done|left; repeat constructor; by eexists]|]). apply Forall_nil_2.
  - exact dt_vector_ok.
  - unfold basic_small. apply sizes_check. vm_compute. reflexivity.
  - reflexivity.
  - reflexivity.
  - vm_compute. reflexivity.
  - vm_compute. reflexivity.
  - apply mapped_check. vm_compute. reflexivity.
  - apply (bool_decide_eq_true_1 _). vm_compute. reflexivity.
  - apply Nat.leb_le. vm_compute. reflexivity.
  - assert (Hsent : (c0 ← opal_convertor_prepare_for_send no_accelerator no_convertor dt_loop 1 1000; '(rs, c') ← pack_calls (memory_at 1000 (numbered 64)) c0 [pack_buffers; pack_buffers];
      bs ← sent (memory_at 1000 (numbered 64)) rs; Some (bs, bConverted c')) = Some (arrived (fragments sent_bytes), length (type_map dt_loop its_loop 1000 1))) by (vm_compute; reflexivity).
    rewrite HcS0 in Hsent. cbn [mbind option_bind] in Hsent. rewrite HrunS in Hsent. cbn [mbind option_bind] in Hsent. destruct (sent _ rs) as [bs|] eqn:Hbs; [|discriminate Hsent].
    cbn [mbind option_bind] in Hsent. injection Hsent as -> Hconv. destruct (Hrest Hconv eq_refl) as (cR0 & rs' & cR' & m' & HcR0 & HrunR & _ & Hdata & _).
    exists cS0, rs, cS', cR0, rs', cR', m'. split_and!; [exact HcS0|exact HrunS|exact HcR0|exact HrunR|exact Hdata].
Defined.

(** ** Positions *)

Lemma solid_check d : forallb (λ x, match x with EndLoop el => negb (end_size el =? 0) | _ => true end) (opt_desc d) = true → solid d.
Proof. intros Hl el Hel. rewrite forallb_forall in Hl. apply list_elem_of_In in Hel. specialize (Hl _ Hel). by apply negb_true_iff, Nat.eqb_neq in Hl. Qed.

Lemma send_position_spec_witness : ∃ c0 c1 p', opal_convertor_prepare_for_send no_accelerator no_convertor dt_loop 2 1000 = Some c0 ∧ opal_convertor_set_position c0 42 = Some (c1, p') ∧
  sending (memory_at 1000 (numbered 128)) c1 dt_loop its_loop (drop p' (type_map dt_loop its_loop 1000 2)) ∧ p' = 40.
Proof.
  destruct (send_position_spec no_accelerator (memory_at 1000 (numbered 128)) no_convertor dt_loop its_loop 2 1000 42) as (c0 & c1 & p' & Hc0 & Hc1 & Hs & _).
  - exact dt_loop_ok.
  - apply solid_check. vm_compute. reflexivity.
  - reflexivity.
  - reflexivity.
  - reflexivity.
  - vm_compute. reflexivity.
  - vm_compute. reflexivity.
  - apply mapped_check. vm_compute. reflexivity.
  - exists c0, c1, p'. split_and!; [exact Hc0|exact Hc1|exact Hs|].
    assert (Hp : (c0 ← opal_convertor_prepare_for_send no_accelerator no_convertor dt_loop 2 1000; snd <$> opal_convertor_set_position c0 42) = Some 40) by (vm_compute; reflexivity).
    rewrite Hc0 in Hp. cbn [mbind option_bind] in Hp. rewrite Hc1 in Hp. cbn in Hp. by injection Hp.
Defined.

Lemma recv_position_spec_witness : ∃ c0 c1, opal_convertor_prepare_for_recv no_accelerator no_convertor dt_loop 2 1000 = Some c0 ∧
  opal_convertor_set_position c0 42 = Some (c1, 42 `min` length (type_map dt_loop its_loop 1000 2)) ∧
  receiving 8000 (memory_at 1000 (numbered 128)) c1 dt_loop its_loop (drop 42 (type_map dt_loop its_loop 1000 2)).
Proof.
  destruct (recv_position_spec 8000 no_accelerator (memory_at 1000 (numbered 128)) no_convertor dt_loop its_loop 2 1000 42) as (c0 & c1 & Hc0 & Hc1 & Hs & _).
  - exact dt_loop_ok.
  - apply solid_check. vm_compute. reflexivity.
  - reflexivity.
  - reflexivity.
  - reflexivity.
  - reflexivity.
  - vm_compute. reflexivity.
  - vm_compute. reflexivity.
  - apply mapped_check. vm_compute. reflexivity.
  - exists c0, c1. split_and!; [exact Hc0|exact Hc1|exact Hs].
Defined.

(** ** Errors *)

(** Complex numbers with a stride of 24 bytes, a multiple of their alignment. *)
Definition its_stride : list item := [Data (mk_elem OPAL_DATATYPE_DOUBLE_COMPLEX 2 1 24 0)].
Definition dt_stride : opal_datatype_t := datatype_of 0 its_stride 0 40 0 48 0.

(** Integers with a stride of 6 bytes. *)
Definition its_unaligned : list item := [Data (mk_elem OPAL_DATATYPE_INT4 2 1 6 0)].
Definition dt_unaligned : opal_datatype_t := datatype_of 0 its_unaligned 0 10 0 12 0.

(** What a convertor packs with these buffers. *)
Definition pack_all (d : opal_datatype_t) (m : memory) (calls : list (list iovec_t)) : option (list byte) :=
  c0 ← opal_convertor_prepare_for_send no_accelerator no_convertor d 1 1000; '(rs, _) ← pack_calls m c0 calls; sent m rs.

(** Strides that are not multiples of the basic size.  The stride of an entry is
    divided by the size of the basic type without a test that this is exact: two complex
    numbers with 24 bytes from the one to the next are packed as 32 consecutive bytes.
    With a stride that is not even aligned the test for it depends on the buffer: two
    integers 6 bytes apart are packed right with one buffer for both, but as 8
    consecutive bytes with a buffer for each. *)
Theorem stride_truncated :
  (let m := memory_at 1000 (numbered 48) in
   mapM (m !!.) (type_map dt_stride its_stride 1000 1) = Some (numbered 16 ++ seqZ 25 16) ∧ pack_all dt_stride m [[(Some 9008%Z, 32)]] = Some (numbered 32)) ∧
  (let m := memory_at 1000 (numbered 12) in
   mapM (m !!.) (type_map dt_unaligned its_unaligned 1000 1) = Some (numbered 4 ++ seqZ 7 4) ∧
   pack_all dt_unaligned m [[(Some 9008%Z, 8)]] = Some (numbered 4 ++ seqZ 7 4) ∧ pack_all dt_unaligned m [[(Some 9008%Z, 4); (Some 9008%Z, 4)]] = Some (numbered 8)).
Proof. cbv zeta; split_and!; vm_compute; reflexivity. Qed.

(** Complex numbers of 32 bytes. *)
Definition its_wide : list item := [Data (mk_elem OPAL_DATATYPE_LONG_DOUBLE_COMPLEX 2 1 64 0)].
Definition dt_wide : opal_datatype_t := datatype_of 0 its_wide 0 96 0 128 0.

(** Parts of wide elements.  A fragment that ends inside of a complex number of long
    doubles, 32 bytes, is unpacked through two buffers of 16 bytes on the stack, which
    are overrun; with a fragment that ends at its end there is no such copy. *)
Theorem partial_overflow : dt_ok dt_wide its_wide ∧
  let m := memory_at 2000 (replicate 128 0%Z) in
  ∃ c0, opal_convertor_prepare_for_recv no_accelerator no_convertor dt_wide 1 2000 = Some c0 ∧
    opal_convertor_unpack 8000 m c0 [(7000%Z, numbered 20)] = None ∧
    uc_mem <$> opal_convertor_unpack 8000 m c0 [(7000%Z, numbered 32)] = Some (memory_at 2000 (numbered 32 ++ replicate 96 0%Z)).
Proof.
  split; [split; [by eexists|items_ok_tac|done|cbn; lia|done|done]|]. cbv zeta. destruct (opal_convertor_prepare_for_recv no_accelerator no_convertor dt_wide 1 2000) as [c0|] eqn:Hc0; [|by vm_compute in Hc0].
  exists c0. split; [done|]. assert (Hrun : (c0 ← opal_convertor_prepare_for_recv no_accelerator no_convertor dt_wide 1 2000;
    Some (opal_convertor_unpack 8000 (memory_at 2000 (replicate 128 0%Z)) c0 [(7000%Z, numbered 20)], uc_mem <$> opal_convertor_unpack 8000 (memory_at 2000 (replicate 128 0%Z)) c0 [(7000%Z, numbered 32)])) =
    Some (None, Some (memory_at 2000 (numbered 32 ++ replicate 96 0%Z)))) by (vm_compute; reflexivity).
  rewrite Hc0 in Hrun. cbn [mbind option_bind] in Hrun. by injection Hrun.
Qed.

(** A receiver of [dt_vector] that has got two bytes, moved or copied by [f]; then the
    rest of the bytes [1] to [24]: the receiver's memory. *)
Definition receive_with (f : opal_convertor_t → option (opal_convertor_t * nat)) : option (list byte) :=
  let m := memory_at 2000 (replicate 48 0%Z) in
  c0 ← opal_convertor_prepare_for_recv no_accelerator no_convertor dt_vector 1 2000;
  r ← opal_convertor_unpack 8000 m c0 [(7000%Z, numbered 2)];
  '(c1, p) ← f (uc_conv r);
  r ← opal_convertor_unpack 8000 (uc_mem r) c1 [(7000%Z, drop p (numbered 24))];
  load (uc_mem r) 2000 48.

(** Integers at every other place. *)
Definition every_other (bs : list byte) : list byte := bs ++ replicate 4 0%Z.

(** Positions from the middle.  Moving a convertor forward is right only from its
    start.  (1) A sender inside of a loop that is moved into a later round of the loop
    starts all the rounds again from there: it then runs off the end of the description.
    (2) A receiver inside of a basic element that is moved to a byte of the same element
    loses the top of its stack.  (3) One that is moved to a later element counts the
    element it was in but does not step over it: what follows is put one element too
    early. *)
Theorem position_forward_wrong :
  (c0 ← opal_convertor_prepare_for_send no_accelerator no_convertor dt_loop 1 1000; r ← opal_convertor_pack (memory_at 1000 (numbered 200)) c0 [(Some 9000%Z, 4)];
   '(c1, p) ← opal_convertor_set_position (pc_conv r) 16; Some (p, pc_iov <$> opal_convertor_pack (memory_at 1000 (numbered 200)) c1 [(Some 9000%Z, 64)])) = Some (16, None) ∧
  receive_with (λ c, opal_convertor_set_position c 3) = None ∧
  receive_with (λ c, opal_convertor_set_position c 8) =
    Some (every_other [1; 2; 0; 0]%Z ++ every_other [9; 10; 11; 12]%Z ++ every_other [13; 14; 15; 16]%Z ++ every_other [17; 18; 19; 20]%Z ++ every_other [21; 22; 23; 24]%Z ++ replicate 8 0%Z) ∧
  receive_with (λ c, Some (c, 2)) =
    Some (every_other [1; 2; 3; 4]%Z ++ every_other [5; 6; 7; 8]%Z ++ every_other [9; 10; 11; 12]%Z ++ every_other [13; 14; 15; 16]%Z ++ every_other [17; 18; 19; 20]%Z ++ every_other [21; 22; 23; 24]%Z).
Proof. split_and!; vm_compute; reflexivity. Qed.

(** Copies of a receiver.  [opal_convertor_clone] with the stack copies the position
    but not the partial length: a copy of a receiver inside of a basic element goes on at
    the start of this element. *)
Theorem clone_loses_partial : receive_with (λ c, Some (opal_convertor_clone c no_convertor true, 2)) =
  Some (every_other [3; 4; 5; 6]%Z ++ every_other [7; 8; 9; 10]%Z ++ every_other [11; 12; 13; 14]%Z ++ every_other [15; 16; 17; 18]%Z ++ every_other [19; 20; 21; 22]%Z ++ every_other [23; 24; 0; 0]%Z).
Proof. vm_compute. reflexivity. Qed.

(** The number of buffers.  Packing contiguous elements with gaps, a call that ends
    with the rest of the last element reports one buffer less than it has filled. *)
Theorem gaps_out_size_short :
  (c0 ← opal_convertor_prepare_for_send no_accelerator no_convertor dt_gaps 2 1000; r ← opal_convertor_pack (memory_at 1000 (numbered 32)) c0 [(Some 9000%Z, 14)];
   r' ← opal_convertor_pack (memory_at 1000 (numbered 32)) (pc_conv r) [(Some 9000%Z, 14)];
   Some (pc_out_size r, pc_max_data r, pc_completed r', pc_out_size r', pc_max_data r', pc_iov r')) = Some (1, 14, true, 0, 10, [Copied (seqZ 19 10)]).
Proof. vm_compute. reflexivity. Qed.

End DtExamples.
