(* ===== verification/DtBuildExamples.v ===== *)
(** * Datatypes that are built: examples and errors

    Concrete arguments for the theorems on constructors, on x86-64, and what goes wrong:
    members without data, contiguous loops in debug builds, strides of minus one byte,
    bounds that depend on the order of members. *)

From stdpp Require Import base numbers list gmap.
From S2P Require Import Prelude DtDesc DtWalk DtCopy DtMap DtWalkSpec DtCopySpec DtBuild DtOptimize DtFuse DtOptSpec DtPackSpec DtConv DtContigSpec DtConvSpec DtSendSpec DtRecvSpec DtUseSpec DtExamples DtCommitSpec DtAddSpec DtTypes DtTypesSpec DtArraySpec.

Module DtBuildExamples.
Import DtDesc DtPack DtUnpack DtMap DtBuild DtOptimize DtFuse DtOptSpec DtPackSpec DtUnpackSpec DtConv DtContigSpec DtConvSpec DtSendSpec DtRecvSpec DtTransfer DtExamples DtCommitSpec DtAddSpec DtTypes DtTypesSpec DtStructSpec DtArraySpec DtUseSpec.
Local Open Scope nat_scope.

(** ** Integers *)

Definition int_type : opal_datatype_t := basic_datatype OPAL_DATATYPE_INT4.
Definition its_int : list item := [Data (mk_elem OPAL_DATATYPE_INT4 1 1 4 0)].
Definition char_type : opal_datatype_t := basic_datatype OPAL_DATATYPE_UINT1.

Lemma int_ok : old_ok small True int_type its_int.
Proof. refine (basic_ok small True OPAL_DATATYPE_INT4 _ _ _); [cbn; lia|unfold small; cbn; unfold buffer_size; lia|unfold OPAL_DATATYPE_INT4, OPAL_DATATYPE_UB; lia]. Qed.

Lemma near_check l : forallb (λ a, (-1000 <=? a)%Z && (a <? 1000)%Z) l = true → near l.
Proof. intros Hl a Ha%list_elem_of_In. rewrite forallb_forall in Hl. apply Hl, andb_prop in Ha as [H1%Z.leb_le H2%Z.ltb_lt]. lia. Qed.

Lemma int_aligned z : (z mod 4 = 0)%Z → aligned_to its_int z.
Proof. intros Hz e [= ->]%list_elem_of_singleton. by apply Z.mod_divide. Qed.

(** Three blocks of two integers, four integers apart. *)
Lemma int_vector_ok count bLength stride : (stride mod 4 = 0)%Z → 0 < count → 0 < bLength → (Z.of_nat (count * S (bLength * 2)) < 1000)%Z →
  forallb (λ a, (-1000 <=? a)%Z && (a <? 1000)%Z) (vector_map its_int 4 stride count bLength) = true → vector_ok small True int_type its_int count bLength stride.
Proof.
  intros Hs Hc Hl Hb Hn. split; [exact int_ok|done|done|change (block_count its_int) with 1; lia|done|change (d_size int_type) with 4; nia|by apply near_check|]. intros _. split; [intros _|]; by apply int_aligned.
Qed.

Lemma vector_spec_witness : ∃ d' new d'' new', ompi_datatype_create_vector 3 2 4 int_type = Some d' ∧ items_map 0 new = seqZ 0 8 ++ seqZ 16 8 ++ seqZ 32 8 ∧
  ompi_datatype_create_hvector 3 2 16 int_type = Some d'' ∧ items_map 0 new' = seqZ 0 8 ++ seqZ 16 8 ++ seqZ 32 8.
Proof.
  destruct (vector_spec small True int_type its_int 3 2 4) as [Hv _]; [vm_compute; reflexivity|]. destruct (vector_spec small True int_type its_int 3 2 16) as [_ Hh]; [vm_compute; reflexivity|].
  destruct Hv as (d' & new & Hd & _ & Hm); [apply int_vector_ok; [done|lia|lia|vm_compute; reflexivity|vm_compute; reflexivity]|done|].
  destruct Hh as (d'' & new' & Hd' & _ & Hm'); [apply int_vector_ok; [done|lia|lia|vm_compute; reflexivity|vm_compute; reflexivity]|done|].
  exists d', new, d'', new'. split_and!; [exact Hd|rewrite Hm; vm_compute; reflexivity|exact Hd'|rewrite Hm'; vm_compute; reflexivity].
Defined.

(** A description without loops. *)
Lemma no_loops_plain its : Forall (λ e, match e with Loop _ => False | _ => True end) (flatten its) → Forall plain_loops its.
Proof.
  induction its as [|[e|n x c body] its IH]; intros Hn; [constructor|..]; cbn in Hn; apply Forall_cons in Hn as [Hn Hrest]; [|done].
  constructor; [done|by apply IH].
Qed.

(** A vector is committed, without and with assertions. *)
Lemma commit_spec_witness : ∃ d d' outs d'' outs', ompi_datatype_create_vector 3 2 4 int_type = Some d ∧
  opal_datatype_commit false d = Some d' ∧ dt_ok d' outs ∧ items_map 0 outs = seqZ 0 8 ++ seqZ 16 8 ++ seqZ 32 8 ∧
  opal_datatype_commit true d = Some d'' ∧ dt_ok d'' outs' ∧ items_map 0 outs' = seqZ 0 8 ++ seqZ 16 8 ++ seqZ 32 8.
Proof.
  assert (Hv : vector_ok small True int_type its_int 3 2 (d_extent int_type * 4)) by (apply int_vector_ok; [done|lia|lia|vm_compute; reflexivity|vm_compute; reflexivity]).
  destruct (create_vector_ok small True int_type its_int 3 2 4 Hv ltac:(done)) as (d & new & n & Hd & _ & Hb).
  assert (Hr : ready small True false d new) by (eapply built_ready; [exact Hb|by vm_compute|vm_compute; reflexivity|apply Hv]).
  assert (Hp : Forall plain_loops new).
  { apply no_loops_plain. rewrite <-(ty_desc _ _ _ _ _ (ba_type _ _ _ _ _ (bu_base _ _ _ _ _ _ _ _ Hb))).
    assert (E : (desc <$> ompi_datatype_create_vector 3 2 4 int_type) = Some [Elem (mk_elem OPAL_DATATYPE_INT4 3 2 16 0)]) by (vm_compute; reflexivity).
    rewrite Hd in E. injection E as ->. by repeat constructor. }
  destruct (commit_spec small True false d new small_uint1 I Hr) as (d' & outs & Hc & Ho & Hm & _); [done|].
  destruct (commit_spec small True true d new small_uint1 I Hr) as (d'' & outs' & Hc' & Ho' & Hm' & _); [done|].
  exists d, d', outs, d'', outs'. split_and!; [exact Hd|exact Hc|exact Ho| |exact Hc'|exact Ho'|]; [rewrite Hm|rewrite Hm']; rewrite (bu_map _ _ _ _ _ _ _ _ Hb); vm_compute; reflexivity.
Defined.


(** Blocks of one, none, one and two integers; the first two follow each other. *)
Definition example_blocks : list (nat * Z) := [(1, 1%Z); (0, 9%Z); (1, 2%Z); (2, 5%Z)].
Definition example_byte_blocks : list (nat * Z) := [(1, 4%Z); (0, 36%Z); (1, 8%Z); (2, 20%Z)].

Lemma indexed_spec_witness : ∃ d' new d'' new', ompi_datatype_create_indexed example_blocks int_type = Some d' ∧ items_map 0 new = seqZ 4 8 ++ seqZ 20 8 ∧
  ompi_datatype_create_hindexed example_byte_blocks int_type = Some d'' ∧ items_map 0 new' = seqZ 4 8 ++ seqZ 20 8.
Proof.
  destruct (indexed_spec small True int_type its_int example_blocks) as [Hi _]; [vm_compute; lia|]. destruct (indexed_spec small True int_type its_int example_byte_blocks) as [_ Hh]; [vm_compute; lia|].
  destruct Hi as (d' & new & Hd & _ & Hm).
  { split; [exact int_ok|vm_compute; reflexivity|vm_compute; reflexivity|apply near_check; vm_compute; reflexivity|]. intros _. split; [by apply int_aligned|]. intros n x _. apply int_aligned. change (d_extent int_type) with 4%Z. apply Z.mod_mul. done. }
  destruct Hh as (d'' & new' & Hd' & _ & Hm').
  { split; [exact int_ok|vm_compute; reflexivity|vm_compute; reflexivity|apply near_check; vm_compute; reflexivity|]. intros _. split; [by apply int_aligned|]. intros n x Hx. apply int_aligned. repeat (apply elem_of_cons in Hx as [[= -> ->]|Hx]; [done|]). by apply not_elem_of_nil in Hx. }
  exists d', new, d'', new'. split_and!; [exact Hd|rewrite Hm; vm_compute; reflexivity|exact Hd'|rewrite Hm'; vm_compute; reflexivity].
Defined.

(** Two integers that follow each other, and a vector of integers. *)
Definition example_vector : opal_datatype_t := match ompi_datatype_create_vector 2 1 2 int_type with Some d => d | None => int_type end.
Definition example_deref (t : nat) : opal_datatype_t := if t =? 0 then int_type else example_vector.
Definition example_members : list member := [(1, 0%Z, 0); (1, 4%Z, 0); (2, 16%Z, 1)].

Definition its_example : list item := [Data (mk_elem OPAL_DATATYPE_INT4 2 1 8 0)].

Lemma example_built : ∃ m k n, built small True example_vector its_example m k n its_int ∧ (Z.of_nat n < 100)%Z ∧ (Z.of_nat k < 100)%Z ∧ near m ∧ m ≠ [].
Proof.
  assert (Hv : vector_ok small True int_type its_int 2 1 (d_extent int_type * 2)) by (apply int_vector_ok; [done|lia|lia|vm_compute; reflexivity|vm_compute; reflexivity]).
  destruct (create_vector_ok small True int_type its_int 2 1 2 Hv ltac:(done)) as (d & its & n & Hd & Hn & Hb). assert (Hev : d = example_vector) by (unfold example_vector; by rewrite Hd). subst d.
  assert (Hits : its = its_example).
  { pose proof (ty_desc _ _ _ _ _ (ba_type _ _ _ _ _ (bu_base _ _ _ _ _ _ _ _ Hb))) as E. by apply (flatten_data its [mk_elem OPAL_DATATYPE_INT4 2 1 8 0]). }
  subst its. eexists _, _, n. split_and!; [exact Hb|change (length (desc int_type)) with 1 in Hn; lia|vm_compute; reflexivity|apply Hv|by vm_compute].
Qed.

Lemma struct_spec_witness : ∃ d' new, ompi_datatype_create_struct example_deref example_members = Some d' ∧ items_map 0 new = seqZ 0 8 ++ seqZ 16 4 ++ seqZ 24 4 ++ seqZ 28 4 ++ seqZ 36 4.
Proof.
  destruct example_built as (m & k & n & Hb & Hn & _ & _ & Hne). set (tree t := if t =? 0 then its_int else its_example).
  destruct (struct_spec small True example_deref tree example_members) as (d' & new & Hc & _ & Hm).
  - split; [|vm_compute; reflexivity|vm_compute; reflexivity|apply near_check; vm_compute; reflexivity]. intros i x t Hin.
    assert (Hal : ∀ u z, (z mod 4 = 0)%Z → aligned_to (tree u) z) by (intros u z Hz e; unfold tree; destruct (u =? 0); intros [= ->]%list_elem_of_singleton; by apply Z.mod_divide).
    assert (Hold : ∀ u, old_ok small True (example_deref u) (tree u)) by (intros u; unfold tree, example_deref; destruct (u =? 0); [exact int_ok|]; eapply built_old; [exact Hb|exact Hne|lia]).
    split; [apply Hold|]. intros _. split; apply Hal; [unfold extent_of, example_deref; destruct (t =? 0); vm_compute; reflexivity|]. repeat (apply elem_of_cons in Hin as [[= -> -> ->]|Hin]; [done|]). by apply not_elem_of_nil in Hin.
  - vm_compute. lia.
  - exists d', new. split; [exact Hc|]. rewrite Hm. vm_compute. reflexivity.
Defined.

(** Two elements of the vector, to two elements of it at another place. *)
Definition example_bytes : list byte := seqZ 1 4 ++ seqZ 9 8 ++ seqZ 21 4.

Lemma derived_transfer_witness : ∃ d' cS0 rs cS', opal_datatype_commit false example_vector = Some d' ∧ opal_convertor_prepare_for_send no_accelerator no_convertor d' 2 1000 = Some cS0 ∧
  pack_calls (memory_at 1000 (numbered 64)) cS0 [pack_buffers] = Some (rs, cS') ∧
  ∃ m' : memory, mapM (m' !!.) (loop_map 2000 12 0 2 its_example) = mapM (memory_at 1000 (numbered 64) !!.) (loop_map 1000 12 0 2 its_example).
Proof.
  destruct example_built as (m & k & n & Hb & Hn & Hk & Hnear & Hne). assert (Hr : ready small True false example_vector its_example) by (eapply built_ready; [exact Hb|exact Hne|lia|exact Hnear]).
  destruct (derived_transfer 8000 no_accelerator (memory_at 1000 (numbered 64)) no_convertor example_vector its_example 2 1000 [pack_buffers]
    (memory_at 2000 (replicate 48 0%Z)) no_convertor example_vector its_example 2 2000 [[(7000%Z, example_bytes)]]) as (dS' & dR' & cS0 & rs & cS' & H1 & H2 & H3 & H4 & H5).
  - exact Hr.
  - reflexivity.
  - vm_compute. reflexivity.
  - vm_compute. reflexivity.
  - apply mapped_check. vm_compute. reflexivity.
  - repeat constructor; [done|by eexists|by eexists].
  - exact Hr.
  - reflexivity.
  - reflexivity.
  - vm_compute. reflexivity.
  - vm_compute. reflexivity.
  - apply mapped_check. vm_compute. reflexivity.
  - apply (bool_decide_eq_true_1 _). vm_compute. reflexivity.
  - vm_compute. lia.
  - exists dS', cS0, rs, cS'. split_and!; [exact H1|exact H3|exact H4|].
    assert (Hrun : (d' ← opal_datatype_commit false example_vector; c0 ← opal_convertor_prepare_for_send no_accelerator no_convertor d' 2 1000; '(rs, c') ← pack_calls (memory_at 1000 (numbered 64)) c0 [pack_buffers];
      bs ← sent (memory_at 1000 (numbered 64)) rs; Some (bConverted c', bs)) = Some (16, example_bytes)) by (vm_compute; reflexivity).
    rewrite H1 in Hrun. cbn [mbind option_bind] in Hrun. rewrite H3 in Hrun. cbn [mbind option_bind] in Hrun. rewrite H4 in Hrun. cbn [mbind option_bind] in Hrun.
    destruct (sent (memory_at 1000 (numbered 64)) rs) as [bs|] eqn:Hs; [|done]. cbn [mbind option_bind] in Hrun. injection Hrun as Hc ->. destruct (H5 Hc eq_refl) as (cR0 & rs' & cR' & m' & _ & _ & _ & Hm & _). exists m'.
    assert (E : take (length (loop_map 1000 (d_extent example_vector) 0 2 its_example)) (loop_map 2000 (d_extent example_vector) 0 2 its_example) = loop_map 2000 12 0 2 its_example) by (vm_compute; reflexivity).
    rewrite E in Hm. exact Hm.
Defined.

(** Two rows of three columns from a matrix with four rows of five. *)
Definition example_dims : list dimension := [mk_dimension 4 2 1; mk_dimension 5 3 2].

Lemma subarray_spec_witness : ∃ d' new, ompi_datatype_create_subarray example_dims MPI_ORDER_C int_type = Some d' ∧ items_map 0 new = seqZ 28 12 ++ seqZ 48 12 ∧ d_extent d' = 80%Z.
Proof.
  destruct (subarray_spec small True int_type its_int example_dims MPI_ORDER_C) as (d' & new & Hc & _ & Hm & _ & Hx); [|done|].
  - split; [exact int_ok|repeat constructor; cbn; lia|done|vm_compute; reflexivity|vm_compute; reflexivity|vm_compute; reflexivity|split; apply near_check; vm_compute; reflexivity|intros _; by apply int_aligned].
  - exists d', new. split_and!; [exact Hc|rewrite Hm; vm_compute; reflexivity|rewrite Hx; vm_compute; reflexivity].
Defined.

(** ** Errors *)

(** A datatype without data and with an extent of 48 bytes. *)
Definition empty_resized : opal_datatype_t := match (d ← ompi_datatype_create_contiguous 0 int_type; ompi_datatype_create_resized d 0 48) with Some d => d | None => int_type end.
Definition padded_deref (t : nat) : opal_datatype_t := if t =? 0 then int_type else empty_resized.

(** A member without data.  A structure of an integer and of a datatype that holds no data
    but sets the bounds has an extent of 48 bytes and keeps the flag that says that there
    are no gaps: a convertor for two elements packs eight bytes in a row, where the type
    map has four bytes, and four bytes 48 bytes further on. *)
Theorem empty_member_wrong : ∃ d d' c0 rs c', ompi_datatype_create_struct padded_deref [(1, 0%Z, 0); (1, 0%Z, 1)] = Some d ∧ opal_datatype_commit false d = Some d' ∧
  desc d = flatten its_int ∧ d_extent d = 48%Z ∧ loop_map 1000 48 0 2 its_int = seqZ 1000 4 ++ seqZ 1048 4 ∧
  opal_convertor_prepare_for_send no_accelerator no_convertor d' 2 1000 = Some c0 ∧ pack_calls (memory_at 1000 (numbered 64)) c0 [pack_buffers] = Some (rs, c') ∧
  sent (memory_at 1000 (numbered 64)) rs = mapM (memory_at 1000 (numbered 64) !!.) (seqZ 1000 8).
Proof.
  assert (Hrun : (d ← ompi_datatype_create_struct padded_deref [(1, 0%Z, 0); (1, 0%Z, 1)]; d' ← opal_datatype_commit false d; c0 ← opal_convertor_prepare_for_send no_accelerator no_convertor d' 2 1000;
    '(rs, c') ← pack_calls (memory_at 1000 (numbered 64)) c0 [pack_buffers]; bs ← sent (memory_at 1000 (numbered 64)) rs; Some (desc d, d_extent d, bs)) = Some (flatten its_int, 48%Z, numbered 8)) by (vm_compute; reflexivity).
  apply bind_Some in Hrun as (d & H1 & Hrun). apply bind_Some in Hrun as (d' & H2 & Hrun). apply bind_Some in Hrun as (c0 & H3 & Hrun). apply bind_Some in Hrun as ([rs c'] & H4 & Hrun). apply bind_Some in Hrun as (bs & H5 & [= H6 H7 H8]).
  exists d, d', c0, rs, c'. split_and!; [exact H1|exact H2|exact H6|exact H7|vm_compute; reflexivity|exact H3|exact H4|]. rewrite H5, H8. vm_compute. reflexivity.
Qed.

Definition pair_deref (t : nat) : opal_datatype_t := if t =? 0 then int_type else char_type.

(** Two integers of two datatypes with the same basic type, as [MPI_INT] and
    [MPI_INT32_T]; three of them; twice. *)
Definition nested_contiguous : option opal_datatype_t :=
  d ← ompi_datatype_create_struct (λ _, int_type) [(1, 0%Z, 0); (1, 4%Z, 1)]; d ← ompi_datatype_create_contiguous 3 d; ompi_datatype_create_contiguous 2 d.

(** An assertion of the optimizer that does not hold.  It asks that the entries of a
    contiguous loop have one block each, but looks at ends of loops as if they were data:
    committing contiguous elements of a contiguous datatype of a structure aborts if
    assertions are compiled in, and otherwise gives one block of 48 bytes. *)
Theorem nested_contiguous_aborts : ∃ d d', nested_contiguous = Some d ∧ opal_datatype_commit true d = None ∧ opal_datatype_commit false d = Some d' ∧
  opt_desc d' = flatten [Data (mk_elem OPAL_DATATYPE_UINT1 1 48 48 0)] ++ [EndLoop (mk_endloop 1 48 0)].
Proof.
  assert (Hrun : (d ← nested_contiguous; d' ← opal_datatype_commit false d; Some (opal_datatype_commit true d, opt_desc d')) = Some (None, flatten [Data (mk_elem OPAL_DATATYPE_UINT1 1 48 48 0)] ++ [EndLoop (mk_endloop 1 48 0)])) by (vm_compute; reflexivity).
  apply bind_Some in Hrun as (d & H1 & Hrun). apply bind_Some in Hrun as (d' & H2 & [= H3 H4]). exists d, d'. split_and!; [exact H1|exact H3|exact H2|exact H4].
Qed.

(** A stride of minus one byte means the extent of the old datatype: the vector of bytes
    that goes downwards is the one that goes upwards, and it is contiguous. *)
Theorem hvector_minus_one count : 1 < count → ompi_datatype_create_hvector count 1 (-1) char_type = ompi_datatype_create_contiguous count char_type ∧
  vector_map [Data (mk_elem OPAL_DATATYPE_UINT1 1 1 1 0)] 1 (-1) 2 1 = [0; -1]%Z.
Proof.
  intros Hc. split; [|vm_compute; reflexivity]. unfold ompi_datatype_create_hvector, ompi_datatype_create_contiguous. rewrite (proj2 (Nat.eqb_neq count 0)) by lia. rewrite (proj2 (Nat.leb_gt count 1)) by lia.
  change (d_extent char_type) with 1%Z. cbn [Nat.eqb orb Z.of_nat Z.mul Z.eqb Pos.of_succ_nat]. unfold ompi_datatype_add, opal_datatype_add. done.
Qed.

Lemma hvector_minus_one_witness : ompi_datatype_create_hvector 3 1 (-1) char_type = ompi_datatype_create_contiguous 3 char_type.
Proof. apply (hvector_minus_one 3). lia. Defined.

(** The upper bound depends on the order of the members: it is rounded up for the
    alignment when a member is added, and lower members that come later stretch the
    rounded extent again. *)
Theorem bounds_depend_on_order : ∃ d d', ompi_datatype_create_struct pair_deref [(1, 0%Z, 0); (1, 4%Z, 1); (1, (-1)%Z, 1)] = Some d ∧ ompi_datatype_create_struct pair_deref [(1, (-1)%Z, 1); (1, 0%Z, 0); (1, 4%Z, 1)] = Some d' ∧
  (d_lb d, d_ub d) = (-1, 11)%Z ∧ (d_lb d', d_ub d') = (-1, 7)%Z.
Proof.
  assert (Hrun : (d ← ompi_datatype_create_struct pair_deref [(1, 0%Z, 0); (1, 4%Z, 1); (1, (-1)%Z, 1)]; d' ← ompi_datatype_create_struct pair_deref [(1, (-1)%Z, 1); (1, 0%Z, 0); (1, 4%Z, 1)];
    Some ((d_lb d, d_ub d), (d_lb d', d_ub d'))) = Some ((-1, 11)%Z, (-1, 7)%Z)) by (vm_compute; reflexivity).
  apply bind_Some in Hrun as (d & H1 & Hrun). apply bind_Some in Hrun as (d' & H2 & Hrun). injection Hrun as H3 H4 H5 H6. exists d, d'. split_and!; [exact H1|exact H2|by rewrite H3, H4|by rewrite H5, H6].
Qed.

End DtBuildExamples.
